(* ===== verification/_CoqProject ===== *)
-Q . S2P
Prelude.v
BTree.v
Concrete.v
Json.v
Schema.v
Policy.v
Envelope.v
Replay.v
Guard.v
AuditLog.v
QueryLex.v
QueryParse.v
QueryEval.v
Detect.v
Correlate.v
Baseline.v
Risk.v
Health.v
RawEvent.v
DnsWire.v
DnsTracker.v
FileUtil.v
AuditText.v
ProcAudit.v
FsAudit.v
IdentityAudit.v
Normalize.v
Resolvers.v
Tailer.v
Transport.v
Sql.v
StoreConcrete.v
Storage.v
StoreQuery.v
Fleet.v
Groups.v
Tenancy.v
AgentPolicy.v
Ingest.v
Reconcile.v
Control.v
SendTable.v
EbpfRecord.v
DnsEngine.v
Bus.v
Pipeline.v
PipelineGraph.v
Evidence.v
Auth.v
TenantScope.v
Response.v
ResponseApi.v
Posix.v
Vault.v
VaultCrash.v
VaultRestore.v
VaultRace.v
LinuxExec.v
ExportHub.v
