(* ===== verification/Prelude.v ===== *)
(** * OSIRIS: a verification development of its agent and server core

    OSIRIS is an endpoint detection and response system written in Rust: sensors on a
    host produce raw events, a pipeline turns them into canonical events, engines
    (detection, correlation, baseline, risk) evaluate them, analysts query them, and a
    server sends signed commands back to the agent.  This library models the parts of
    [src/crates] that carry its own logic, as executable functions, and proves what
    makes them correct.

    ** Conventions

    - A Rust call is a function into [outcome E A]: [Ok], [Err] or [Panic].  [?] is
      [let? x := m in k]; [v[i]], [unwrap] and [expect] are [or_panic].  Panic freedom
      is therefore a theorem, never a consequence of the encoding.
    - Unsigned integers are [Z] with [fits w]; saturating operations are written out
      ([sat_add64], [sat_sub]); [i32] sums wrap ([Risk.wrap_i32]).
    - Bytes are [byte]; a Rust [String] is a Rocq [string] holding its UTF-8 bytes; a
      [char] is its code point ([chars] decodes, [string_of_chars] encodes).
    - A [BTreeMap] is a sorted association list ([BTree]), a [HashMap] a [gmap].
    - Dependencies are type classes with the documented facts the code relies on:
      [HexCodec], [UuidText], [Sha256], [Ed25519], [JsonLib], [JsonMake], [Serde],
      [AuditSerde], [UnicodeTables], [Sqlite], [Argon2]; between components [EdgeSource], [AuditSink],
      [ActionExecutor].  No class assumes injectivity or collision
      freedom of a hash.  [Concrete], [Json] and the examples give instances the
      witnesses compute with.
    - Files are byte lists with the effect of each write, torn or complete; crashes and
      restarts are steps.

    ** Files

    - [Prelude]: outcomes and their automation ([no_panics], [inv_ok], [inv_bools], hint
      database [panics]), integers, bytes, prefix-free encodings ([PrefixFree]), decimal
      text, UTF-8, lines, string search, the interfaces of hashing and text codecs.
    - [BTree]: byte-wise string order, ordered maps, stable sorting ([slice::sort_by]).
    - [Concrete], [Json]: instances of the interfaces; the interface of JSON values.
    - [Schema] ([osiris-schema]): event types and categories, entities, the canonical
      event, process keys, storage keys, file identities, alerts, risk records.
    - [Policy] ([osiris-policy/src/lib.rs]): validation, encoding and hash of policies,
      the event filter, [resolve].
    - [Envelope] ([osiris-command/src/envelope.rs]): canonical bytes, signing, verifying,
      policy payloads.
    - [Replay] ([osiris-command/src/replay.rs]): the durable store of command ids, and its
      runs with torn writes, crashes and restarts ([rstep]).
    - [Guard] ([guard.rs], [runner.rs], [executor.rs], [identity.rs] of [osiris-command]):
      admission, path checks, and [run_command] over an executor given as a record of
      operations ([ActionExecutor]); its runs are [hstep].
    - [AuditLog] ([osiris-audit]): the hash-chained log over the bytes of its file.
    - [QueryLex], [QueryParse], [QueryEval] ([osiris-query]): lexer, recursive-descent
      parser, evaluator, plans; a declarative grammar ([g_or] and its companions) and a
      printer as specification.
    - [Detect] ([osiris-detect]): rules, condition trees, sequences, the engine.
    - [Correlate] ([osiris-correlate]): the bounded walk over an [EdgeSource].
    - [Baseline] ([osiris-baseline]), [Risk] ([osiris-risk]): frequency counts with
      transactions; weighted reasons, score and severity.  [Risk] consumes the chains of
      [Correlate], the observations of [Baseline] and the alerts of [Detect].
    - [Health] ([osiris-health]), [RawEvent] ([osiris-sensor-api/src/raw_event.rs]): sensor
      states and their aggregation; what sensors hand to the pipeline.
    - [DnsWire] ([wire.rs], [frame.rs], [bpf.rs] of the DNS sensor): message parser, packet
      decoder, the classic BPF program and its machine.
    - [DnsTracker] ([tracker.rs]): pending transactions and the queue they refine;
      [SendTable] ([send_table.rs]): the kernel's send records, claims and tombstones, with
      the matching of claims to entries as specification; [DnsEngine] ([engine.rs],
      [attribution.rs], [proc_udp.rs], [fd_scan.rs]): the engine over both, its runs are
      [engine_run].
    - [EbpfRecord] (the records of [osiris-ebpf], [exe.rs], the eBPF backends of the
      sensors): C layouts, decoders, conversion to raw events.
    - [FileUtil] ([osiris-fileutil]): the audit tokenizer, record headers, nested records,
      cgroup files; [Tailer] ([line_tailer.rs]): the line tailer over a growing file.
    - [AuditText]: the text of kernel audit records, and that the tokenizer reads it back.
    - [ProcAudit], [FsAudit], [IdentityAudit] (the audit backends of the process, file
      system, identity and systemd sensors): record parsers, the bounded argument
      collector, the assemblers that join the records of one event.
    - [Normalize], [Resolvers], [Pipeline], [PipelineGraph] ([osiris-pipeline]): the stages
      from raw to canonical event, the pid, session and container resolvers, and the runs
      of the whole pipeline.
    - [Transport] ([frame.rs], [client.rs], [server.rs], [wire.rs] of [osiris-transport]):
      frames, the forwarder with its spool and offset file, the batch loop of the listener.
    - [Sql], [StoreConcrete]: what the code relies on of SQLite ([Sqlite]: [ORDER BY], text
      as numbers), statements that may fail, transactions; an instance for the examples.
    - [Storage], [StoreQuery] ([osiris-storage], [osiris-storage-sqlite]): the tables, writes,
      point queries and deletions; query plans and the paged scan with push-down.
    - [Fleet], [Groups] ([osiris-fleet]): the host registry; host groups, their policies and
      deliveries under a scope, the invariant of the tables and what a tenant can tell of them
      ([same_view], [untouched]).
    - [Tenancy] ([osiris-tenancy]): tenants and the hosts assigned to them.
    - [AgentPolicy] ([policy.rs], [policy_exec.rs], [agent.rs] of [osiris-agent]): the overlay
      file, the live policy, the sensors it starts and stops; an [ActionExecutor].
    - [Ingest] ([osiris-server/src/ingest.rs]): a batch through ownership check, storage, the
      engines, stream, exporters and registry.
    - [ExportHub] ([osiris-export]): filters, bounded queues, batches, retries, the final
      flush and the tenants' host sets, with offers, workers and shutdown interleaved.
    - [Reconcile] ([policy_reconcile.rs]): passes over hosts as concurrent tasks ([rstep]);
      the loop of policy, command, agent and heartbeat.
    - [Bus] ([osiris-bus], [prioritize.rs]): bounded priority lanes, the weighted drain and
      the metrics, over any sink.
    - [Evidence] ([osiris-evidence]): evidence and incident tables; status changes are
      audited through the interface [AuditSink], which [AuditLog] implements.
    - [Auth] ([osiris-auth], [auth_middleware.rs], [auth.rs] of [osiris-api]): users, sessions,
      the gate in front of every route, the handlers that change the store; its runs are
      [auth_run].
    - [TenantScope] ([tenant_scope.rs] of [osiris-api]): the storage a tenant's user reads.
    - [Control] ([control.rs] of [osiris-transport] and [osiris-server]): the hub of agent
      connections, callers and connection tasks ([hub_step]), and the dispatcher that signs;
      [Reconcile] and [Guard] are its two ends.
    - [Response] ([osiris-response]): the query for a target, the newest event behind a
      command, dry runs, evidence; [ResponseApi] ([response.rs] of [osiris-api]): the handler
      in front of it, its audit entries and the order of its effects.
    - [Posix]: the file system under the agent's executor: names and inodes per device, the
      states a crash may leave ([crash], [snaps]), system calls that fail or tear and other
      processes between them ([Kernel]), and Hoare rules for programs of them ([triple]).
    - [Vault] ([linux_exec.rs], [ensure_vault] of [control.rs] in [osiris-agent]): quarantine
      and restore, call by call; [VaultCrash], [VaultRestore], [VaultRace]: what they leave
      when calls fail and the machine stops, what a restore gives back, and races at the path.
    - [LinuxExec] (the rest of [linux_exec.rs]): /proc, ending a process, the executor as an
      [ActionExecutor] for [Guard].

    ** What the theorems show

    - Commands (C1-C6): tampering needs a forgery, as the signed bytes determine the
      command; no admitted command reaches the executor twice, also across restarts and
      crashes, as long as no write tears a line and the clock is not set back by more than
      a minute; server and guard agree on the validity window; the hub gives every caller
      the result of its own command; admission is characterised exactly; quarantine never
      targets the vault.
    - Executor (C7-C10): quarantine keeps the content at its path or in the vault,
      whatever fails and wherever the machine stops, with a readable record unless putting
      the file back fails; restore is its inverse; a file moved into the vault is the one
      named, whoever races; signals go to the named process only.
    - Audit (C11, C12): two verifying chains with one head hash are equal up to an
      explicit SHA-256 collision; no incident changes status without its audit entry.
    - Access (C13, C34): only live sessions of users with the role of a route pass the
      gate; a tenant's user reads data of the tenant's hosts only.
    - Response (C14-C16): a command names what the newest usable event of its target
      names; nothing acts without an audit entry written first; a tenant's user reaches
      the tenant's hosts only.
    - Pipeline (C17-C19): events of one process share one identity over any history; every
      event has the declared shape; its graph edges are exactly those its raw event tells
      of.
    - Audit sensors (C20-C21): the inner layer of a record cannot forge an identity; file
      events are grounded in the records of one kernel event; execs are assembled whole
      and bounded, their arguments whole or in chunks.
    - Policies (C22-C26): precedence per field; tenants neither see nor touch each other's
      groups (nor the policy of another tenant's hosts: lemma [tenant_policies_isolated]);
      an agent and its restart agree on the policy, for sensors that always start or never
      do; server and agent settle on the effective policy; no request to reconcile a host
      is lost.
    - Detection (C27): soundness of alerts over any event stream with sequences.
    - Queries (C28, C29): printing and parsing round trip, totality.
    - Correlation (C30): the walk is exactly the bounded neighbourhood.
    - Ingestion (C31): no host gets an edge into another's chain, when batches are taken
      one after the other. Exports are accounted for and confined to the tenant (lemma
      [exports_accounted_and_confined]).
    - Storage (C32, C33): the tables refine a write-once map; paged queries with
      pushed-down conditions (safe ones, over at most a million rows) return what
      evaluating the query on every event would.
    - DNS (C35, C36): the tracker refines a queue; the engine reports every query once;
      what it attributes is backed by kernel records (lemma
      [attributions_backed_by_records]).
    - Transport of events (C37-C39): lines of a text in UTF-8 are delivered exactly once;
      the forwarder delivers every event of its host on lines shorter than its window at
      least once and catches up; no lane of the bus starves (lemma [bus_drains_fairly]).
    - Shortcomings of the code (C40): a write torn by an error reopens replay. Further
      ones are lemmas named in the files they concern.

    ** Fuel

    Recursion that is not structural takes fuel.  In the lexer, the parser and the DNS
    name reader running out is [Panic], so the totality theorems also show that the fuel
    is enough: the lexer gets one unit more than its characters, the parser [8n + 8] for
    [n] tokens, names [NAME_FUEL] (160, from the 255-byte name limit and the 16 jumps).
    Decimal text gets the number of bits, enough by its round trip ([dec_bytes_val]).  The
    BPF machine gets one unit more than the program's length, as its jumps only go
    forward; the paged scan gets one unit more than the rows of the table.  The eviction loops of the send table get one unit more than the entries or
    claims there are; the bounds they reach are part of its invariant.

    ** Not modelled

    Locks (a call is one step), fsync outside the vault (a completed write is durable), wall
    clocks (an argument), [Instant] overflow, SQLite beyond statements that may fail and the order of
    rows, YAML and JSON text (parameters), the serde attributes, opening and migrating
    database files, TLS and HTTP, certificates, the agent's end of the control connection,
    the ClickHouse back end.  Handlers of the API server other than those of users, sessions
    and responses, the wiring of the agent, exporters behind the hub and their text formats,
    the sensors' threads and
    pollers, eBPF programs and the web console are outside this development.  The DNS engine sees one
    snapshot of /proc per call, and its shared table changes only between calls.  For the vault:
    names of one device reach the disk in order, and syncing a directory brings those of its
    device up to date; deadlines are a number of rounds; the vault's parents exist; file and
    error texts of the libraries are parameters. *)

From Stdlib Require Export ZArith Lia Bool String Ascii.
From Stdlib Require Import Strings.Byte.
From stdpp Require Export base tactics list gmap strings sorting.

Global Open Scope Z_scope.

(** ** Outcomes of Rust calls

    A call returns [Ok], returns [Err], or panics.  Code that cannot panic
    uses the same type, so that panic freedom is a statement, not a
    consequence of the encoding. *)

Inductive outcome (E A : Type) : Type :=
| Ok (a : A)
| Err (e : E)
| Panic.
Arguments Ok {E A} a.
Arguments Err {E A} e.
Arguments Panic {E A}.

Definition obind {E A B} (m : outcome E A) (k : A -> outcome E B) : outcome E B :=
  match m with
  | Ok a => k a
  | Err e => Err e
  | Panic => Panic
  end.

Definition omap_err {E F A} (f : E -> F) (m : outcome E A) : outcome F A :=
  match m with
  | Ok a => Ok a
  | Err e => Err (f e)
  | Panic => Panic
  end.

(** [o.ok_or(e)]. *)
Definition ok_or {E A} (o : option A) (e : E) : outcome E A :=
  match o with
  | Some a => Ok a
  | None => Err e
  end.

(** Direct indexing [v[i]] and [unwrap]/[expect]: out of range panics. *)
Definition or_panic {E A} (o : option A) : outcome E A :=
  match o with
  | Some a => Ok a
  | None => Panic
  end.

Declare Scope outcome_scope.
Delimit Scope outcome_scope with outcome.
Notation "'let?' x ':=' m 'in' k" := (obind m (fun x => k))
  (at level 10, x pattern, m at level 100, k at level 200, only parsing)
  : outcome_scope.
Open Scope outcome_scope.

Definition is_ok {E A} (m : outcome E A) : bool :=
  match m with Ok _ => true | _ => false end.

Definition is_panic {E A} (m : outcome E A) : bool :=
  match m with Panic => true | _ => false end.

Lemma is_panic_iff {E A} (m : outcome E A) : is_panic m = true <-> m = Panic.
Proof. by destruct m. Qed.

Lemma forallb_Forall {A} (f : A -> bool) l : forallb f l = true <-> Forall (fun x => f x = true) l.
Proof.
  rewrite forallb_forall, Forall_forall. by setoid_rewrite list_elem_of_In.
Qed.

#[export] Instance filter_perm_proper {A} (f : A -> bool) :
  Proper ((≡ₚ) ==> (≡ₚ)) (List.filter f).
Proof.
  induction 1 as [|x l l' _ IH|x y l|l l1 l2 _ IH1 _ IH2]; simpl; [done| | |by rewrite IH1].
  - destruct (f x); [by rewrite IH|done].
  - destruct (f x), (f y); try done. apply perm_swap.
Qed.

Definition no_panic {E A} (m : outcome E A) : Prop := m <> Panic.

Lemma obind_ok {E A B} (m : outcome E A) (k : A -> outcome E B) b :
  obind m k = Ok b -> exists a, m = Ok a /\ k a = Ok b.
Proof. destruct m; simpl; naive_solver. Qed.

Lemma obind_no_panic {E A B} (m : outcome E A) (k : A -> outcome E B) :
  no_panic m -> (forall a, m = Ok a -> no_panic (k a)) -> no_panic (obind m k).
Proof. unfold no_panic; destruct m; simpl; naive_solver. Qed.

Lemma ok_inj {E A} (a b : A) : Ok (E := E) a = Ok b -> a = b.
Proof. congruence. Qed.

Lemma ok_or_ok {E A} (o : option A) (e : E) a : ok_or o e = Ok a -> o = Some a.
Proof. destruct o; simpl; congruence. Qed.

Lemma ok_or_no_panic {E A} (o : option A) (e : E) : no_panic (ok_or o e).
Proof. destruct o; discriminate. Qed.

Lemma ok_no_panic {E A} (a : A) : no_panic (Ok (E := E) a).
Proof. discriminate. Qed.

Lemma err_no_panic {E A} (e : E) : no_panic (Err (A := A) e).
Proof. discriminate. Qed.

(** Panic freedom of straight-line code.  [panics] collects the calls known not to
    panic; [no_panics] walks down a chain of [let?] and tests, and leaves the calls
    that need an argument (a loop's induction hypothesis) to the caller. *)
Create HintDb panics.
#[export] Hint Resolve ok_no_panic err_no_panic ok_or_no_panic : panics.

Ltac no_panics_step :=
  cbv zeta;
  match goal with
  | |- no_panic (obind _ _) => apply obind_no_panic; [|intros ? _]
  | |- no_panic (let '(_, _) := ?p in _) => destruct p
  | |- no_panic (if ?b then _ else _) => destruct b eqn:?
  | |- no_panic (match ?x with _ => _ end) => destruct x eqn:?
  | |- no_panic _ => solve [auto with panics]
  end.
Ltac no_panics := repeat no_panics_step.

(** [inv_ok H]: a call chain that returned [Ok] returned [Ok] at every step. *)
Ltac inv_ok H :=
  repeat (cbv zeta in H;
    first [apply obind_ok in H as (? & ? & H)
          |match type of H with (let '(_, _) := ?p in _) = _ => destruct p end]);
  repeat match goal with E : ok_or _ _ = Ok _ |- _ => apply ok_or_ok in E end.

(** [inv_bools H]: a conjunction of boolean tests, as propositions. *)
#[global] Hint Rewrite andb_true_iff orb_true_iff negb_true_iff Z.eqb_eq Z.leb_le Z.ltb_lt
  Nat.eqb_eq Nat.leb_le Nat.ltb_lt : bools.
Ltac inv_bools H := autorewrite with bools in H; destruct_and? H.

(** ** Fixed-width integers

    A [w]-bit unsigned integer is a [Z] in [0, 2^w).  The predicates are
    boolean so that concrete values check by computation. *)

Definition u8_max  : Z := 2 ^ 8 - 1.
Definition u16_max : Z := 2 ^ 16 - 1.
Definition u32_max : Z := 2 ^ 32 - 1.
Definition u64_max : Z := 2 ^ 64 - 1.
Definition u128_max : Z := 2 ^ 128 - 1.

Definition fits (w : Z) (x : Z) : bool := (0 <=? x) && (x <? 2 ^ w).

Lemma fits_iff w x : fits w x = true <-> 0 <= x < 2 ^ w.
Proof. unfold fits. rewrite andb_true_iff, Z.leb_le, Z.ltb_lt. lia. Qed.

(** [a.saturating_add(b)] and [a.saturating_sub(b)] on [u64]. *)
Definition sat_add64 (a b : Z) : Z := Z.min (a + b) u64_max.
Definition sat_sub (a b : Z) : Z := Z.max (a - b) 0.

(** [(hi << n) | lo] when [lo] fits in [n] bits. *)
Lemma lor_shiftl_add a b n :
  0 <= n -> 0 <= b < 2 ^ n -> Z.lor (Z.shiftl a n) b = a * 2 ^ n + b.
Proof.
  intros Hn Hb. rewrite <- Z.shiftl_mul_pow2 by lia.
  assert (Z.land (Z.shiftl a n) b = 0) as Hland.
  { apply Z.bits_inj'; intros i Hi.
    rewrite Z.land_spec, Z.bits_0, Z.shiftl_spec by lia.
    destruct (Z.lt_ge_cases i n); [by rewrite Z.testbit_neg_r by lia|].
    rewrite <- (Z.mod_small b (2 ^ n)), Z.mod_pow2_bits_high by lia.
    apply andb_false_r. }
  by rewrite <- Z.lxor_lor, <- Z.add_nocarry_lxor by done.
Qed.

(** ** Bytes *)

Abbreviation byte := Byte.byte.

Definition b2z (b : byte) : Z := Z.of_N (Byte.to_N b).

Definition z2b (z : Z) : byte :=
  match Byte.of_N (Z.to_N (z mod 256)) with
  | Some b => b
  | None => Byte.x00
  end.

Lemma b2z_range b : 0 <= b2z b < 256.
Proof. unfold b2z. pose proof (Byte.to_N_bounded b). lia. Qed.

Lemma b2z_z2b z : b2z (z2b z) = z mod 256.
Proof.
  unfold z2b, b2z. pose proof (Z.mod_pos_bound z 256 ltac:(lia)).
  destruct (Byte.of_N _) as [b|] eqn:E.
  - apply Byte.to_of_N in E. rewrite E. lia.
  - apply Byte.of_N_None_iff in E. lia.
Qed.

Lemma b2z_inj a b : b2z a = b2z b -> a = b.
Proof.
  unfold b2z. intros H%N2Z.inj.
  pose proof (Byte.of_to_N a). pose proof (Byte.of_to_N b). congruence.
Qed.

Lemma z2b_b2z b : z2b (b2z b) = b.
Proof.
  apply b2z_inj. rewrite b2z_z2b. apply Z.mod_small, b2z_range.
Qed.

#[global] Instance byte_eq_dec : EqDecision byte := Byte.byte_eq_dec.

#[global] Instance byte_countable : Countable byte.
Proof.
  refine (inj_countable' Byte.to_N (fun n => default Byte.x00 (Byte.of_N n)) _).
  intros b. by rewrite Byte.of_to_N.
Defined.

(** ** Byte strings

    A Rust [String] is a vector of UTF-8 bytes: it is modelled by [string],
    whose characters are bytes. *)

Definition bytes_of (s : string) : list byte := list_byte_of_string s.
Definition of_bytes (l : list byte) : string := string_of_list_byte l.

Lemma of_bytes_bytes_of s : of_bytes (bytes_of s) = s.
Proof. apply string_of_list_byte_of_string. Qed.

Lemma bytes_of_of_bytes l : bytes_of (of_bytes l) = l.
Proof. apply list_byte_of_string_of_list_byte. Qed.

Lemma bytes_of_inj s t : bytes_of s = bytes_of t -> s = t.
Proof. intros H. by rewrite <- (of_bytes_bytes_of s), H, of_bytes_bytes_of. Qed.

(** ** Little- and big-endian encodings ([to_le_bytes], [to_be_bytes]) *)

Fixpoint le_bytes (n : nat) (z : Z) : list byte :=
  match n with
  | O => []
  | S n => z2b z :: le_bytes n (z / 256)
  end.

Definition be_bytes (n : nat) (z : Z) : list byte := rev (le_bytes n z).

Fixpoint of_le (l : list byte) : Z :=
  match l with
  | [] => 0
  | b :: l => b2z b + 256 * of_le l
  end.

Definition of_be (l : list byte) : Z := of_le (rev l).

Lemma length_le_bytes n z : List.length (le_bytes n z) = n.
Proof. revert z; induction n; simpl; auto. Qed.

Lemma length_be_bytes n z : List.length (be_bytes n z) = n.
Proof. unfold be_bytes. by rewrite length_rev, length_le_bytes. Qed.

Lemma of_le_bytes n z : of_le (le_bytes n z) = z mod 256 ^ Z.of_nat n.
Proof.
  revert z; induction n as [|n IH]; intros z; simpl le_bytes; simpl of_le.
  - by rewrite Z.mod_1_r.
  - rewrite IH, b2z_z2b, Nat2Z.inj_succ, Z.pow_succ_r by lia.
    rewrite Z.rem_mul_r by lia. lia.
Qed.

Lemma of_le_range l : 0 <= of_le l < 256 ^ Z.of_nat (List.length l).
Proof.
  induction l as [|b l IH]; simpl of_le; [simpl; lia|].
  cbn [List.length]. rewrite Nat2Z.inj_succ, Z.pow_succ_r by lia.
  pose proof (b2z_range b). lia.
Qed.

Lemma le_bytes_of_le l : le_bytes (List.length l) (of_le l) = l.
Proof.
  induction l as [|b l IH]; simpl; [done|].
  rewrite (Z.mul_comm 256), Z.div_add, (Z.div_small (b2z b)) by (pose proof (b2z_range b); lia).
  rewrite Z.add_0_l, IH. f_equal.
  apply b2z_inj. rewrite b2z_z2b, Z.mod_add by lia.
  apply Z.mod_small, b2z_range.
Qed.

Lemma of_be_bytes n z : of_be (be_bytes n z) = z mod 256 ^ Z.of_nat n.
Proof. unfold of_be, be_bytes. by rewrite rev_involutive, of_le_bytes. Qed.

Lemma of_be_range l : 0 <= of_be l < 256 ^ Z.of_nat (List.length l).
Proof. unfold of_be. rewrite <- (length_rev l). apply of_le_range. Qed.

Lemma be_bytes_of_be l : be_bytes (List.length l) (of_be l) = l.
Proof.
  unfold be_bytes, of_be. rewrite <- (length_rev l), le_bytes_of_le.
  apply rev_involutive.
Qed.

Lemma pow256 n : 256 ^ Z.of_nat n = 2 ^ (8 * Z.of_nat n).
Proof. rewrite Z.pow_mul_r by lia. done. Qed.

Lemma of_be_bytes_small n z :
  fits (8 * Z.of_nat n) z = true -> of_be (be_bytes n z) = z.
Proof.
  intros H%fits_iff. rewrite of_be_bytes, pow256. by apply Z.mod_small.
Qed.

Lemma of_le_bytes_small n z :
  fits (8 * Z.of_nat n) z = true -> of_le (le_bytes n z) = z.
Proof.
  intros H%fits_iff. rewrite of_le_bytes, pow256. by apply Z.mod_small.
Qed.

Arguments le_bytes : simpl never.
Arguments be_bytes : simpl never.

(** Unlike [injection], leaves the tails as they are written. *)
Lemma cons_eq_inv {A} (x y : A) l m : x :: l = y :: m -> x = y /\ l = m.
Proof. by injection 1. Qed.

(** ** Unambiguous encodings

    [PrefixFree P enc] is what a length-prefixed or fixed-width field
    encoder promises to the record encoder that concatenates it with other
    fields: on values satisfying [P], the encoded field and the rest of the
    stream are both determined by the concatenation. *)

Class PrefixFree {A} (P : A -> Prop) (enc : A -> list byte) : Prop :=
  prefix_free : forall x y r s,
    P x -> P y -> enc x ++ r = enc y ++ s -> x = y /\ r = s.

Lemma prefix_free_fixed {A} (P : A -> Prop) (enc : A -> list byte) n :
  (forall x, P x -> List.length (enc x) = n) ->
  (forall x y, P x -> P y -> enc x = enc y -> x = y) ->
  PrefixFree P enc.
Proof.
  intros Hlen Hinj x y r s Px Py H.
  apply app_inj_1 in H as [H ->]; [|by rewrite !Hlen]. auto.
Qed.

#[export] Instance prefix_free_be n :
  PrefixFree (fun z => fits (8 * Z.of_nat n) z = true) (be_bytes n).
Proof.
  apply (prefix_free_fixed _ _ n); [intros; apply length_be_bytes|].
  intros x y Hx Hy H. apply (f_equal of_be) in H.
  by rewrite !of_be_bytes_small in H.
Qed.

#[export] Instance prefix_free_le n :
  PrefixFree (fun z => fits (8 * Z.of_nat n) z = true) (le_bytes n).
Proof.
  apply (prefix_free_fixed _ _ n); [intros; apply length_le_bytes|].
  intros x y Hx Hy H. apply (f_equal of_le) in H.
  by rewrite !of_le_bytes_small in H.
Qed.

(** A fixed-size byte array [[u8; n]]. *)
#[export] Instance prefix_free_array n :
  PrefixFree (fun l : list byte => List.length l = n) (fun l => l).
Proof. apply (prefix_free_fixed _ _ n); auto. Qed.

(** One field after another. *)
Lemma prefix_free_app {A B} (P : A -> Prop) (Q : B -> Prop) ea eb :
  PrefixFree P ea -> PrefixFree Q eb ->
  PrefixFree (fun x => P x.1 /\ Q x.2) (fun x => ea x.1 ++ eb x.2).
Proof.
  intros HA HB [a b] [a' b'] r s [Pa Qb] [Pa' Qb']; simpl in *.
  rewrite <- !app_assoc. intros [-> H]%HA; try done.
  apply HB in H as [-> ->]; done.
Qed.

(** A length-prefixed byte field, whatever the (injective, fixed-width)
    encoding of the length. *)
Lemma prefix_free_len (elen : Z -> list byte) (w : Z) :
  PrefixFree (fun z => fits w z = true) elen ->
  PrefixFree (fun l : list byte => fits w (Z.of_nat (List.length l)) = true)
             (fun l => elen (Z.of_nat (List.length l)) ++ l).
Proof.
  intros HL x y r s Hx Hy. rewrite <- !app_assoc.
  intros [Hlen H]%HL; try done.
  apply Nat2Z.inj in Hlen. by apply app_inj_1 in H.
Qed.

Lemma prefix_free_map {A B} (P : B -> Prop) (enc : B -> list byte) (f : A -> B) :
  PrefixFree P enc -> (forall x y, f x = f y -> x = y) ->
  PrefixFree (fun x => P (f x)) (fun x => enc (f x)).
Proof. intros HP Hf x y r s Hx Hy H. apply HP in H as [? ->]; auto. Qed.

(** A counted sequence: once the number of items is known, the items are
    determined one after the other. *)
Lemma prefix_free_flat_map {A} (P : A -> Prop) (enc : A -> list byte) :
  PrefixFree P enc ->
  forall xs ys r s, List.length xs = List.length ys ->
    Forall P xs -> Forall P ys ->
    flat_map enc xs ++ r = flat_map enc ys ++ s -> xs = ys /\ r = s.
Proof.
  intros HP xs; induction xs as [|x xs IH]; intros [|y ys] r s Hlen Hx Hy H;
    simpl in *; try done.
  inversion Hx; inversion Hy; subst. rewrite <- !app_assoc in H.
  apply HP in H as [-> H]; try done.
  apply IH in H as [-> ->]; auto.
Qed.

(** ** Decimal integers: [format!("{n}")] and [str::parse::<uN>()] *)

Definition digit_byte (d : Z) : byte := z2b (48 + d).

Definition digit_val (b : byte) : option Z :=
  let v := b2z b in
  if (48 <=? v) && (v <=? 57) then Some (v - 48) else None.

Fixpoint dec_aux (fuel : nat) (n : Z) (acc : list byte) : list byte :=
  match fuel with
  | O => acc
  | S f =>
      if n <? 10 then digit_byte n :: acc
      else dec_aux f (n / 10) (digit_byte (n mod 10) :: acc)
  end.

(** [Z.log2 n + 1] steps are enough: each step divides by 10. *)
Definition dec_bytes (n : Z) : list byte := dec_aux (S (Z.to_nat (Z.log2 n))) n [].

Definition dec_string (n : Z) : string := of_bytes (dec_bytes n).

Fixpoint digits_val (l : list byte) (acc : Z) : option Z :=
  match l with
  | [] => Some acc
  | b :: l =>
      match digit_val b with
      | Some d => digits_val l (10 * acc + d)
      | None => None
      end
  end.

(** [parse::<uN>()]: an optional ['+'], at least one digit, and a value in
    range; anything else is an error. *)
Definition parse_uint_bytes (w : Z) (l : list byte) : option Z :=
  let body := match l with
              | b :: l' => if b2z b =? 43 then l' else l
              | [] => l
              end in
  match body with
  | [] => None
  | _ =>
      match digits_val body 0 with
      | Some v => if v <? 2 ^ w then Some v else None
      | None => None
      end
  end.

Definition parse_uint (w : Z) (s : string) : option Z := parse_uint_bytes w (bytes_of s).

Definition is_digit (b : byte) : bool := (48 <=? b2z b) && (b2z b <=? 57).

Lemma digit_val_byte d : 0 <= d <= 9 -> digit_val (digit_byte d) = Some d.
Proof.
  intros H. unfold digit_val, digit_byte. rewrite b2z_z2b, Z.mod_small by lia.
  rewrite (proj2 (Z.leb_le 48 _)), (proj2 (Z.leb_le _ 57)) by lia.
  simpl. f_equal. lia.
Qed.

Lemma is_digit_digit_byte d : 0 <= d <= 9 -> is_digit (digit_byte d) = true.
Proof.
  intros H. unfold is_digit, digit_byte. rewrite b2z_z2b, Z.mod_small by lia. lia.
Qed.

Lemma digits_val_app l1 l2 acc :
  digits_val (l1 ++ l2) acc = digits_val l1 acc ≫= digits_val l2.
Proof.
  revert acc; induction l1 as [|b l1 IH]; intros acc; simpl; [done|].
  destruct (digit_val b); simpl; auto.
Qed.

(** The accumulator form: printing [n] in front of [acc] reads back as [n]
    followed by [acc]. *)
Lemma dec_aux_val fuel n acc :
  0 <= n -> (Z.to_nat (Z.log2 n) < fuel)%nat ->
  digits_val (dec_aux fuel n acc) 0 = digits_val acc n.
Proof.
  revert n acc; induction fuel as [|f IH]; intros n acc Hn Hf; [lia|].
  simpl. destruct (Z.ltb_spec n 10).
  - simpl. rewrite digit_val_byte by lia. f_equal; lia.
  - rewrite IH.
    + simpl. rewrite digit_val_byte by (pose proof (Z.mod_pos_bound n 10); lia).
      f_equal. pose proof (Z.div_mod n 10). lia.
    + apply Z.div_pos; lia.
    + assert (Z.log2 (n / 10) < Z.log2 n); [|pose proof (Z.log2_nonneg (n / 10)); lia].
      apply Z.log2_lt_pow2; [apply Z.div_str_pos; lia|].
      pose proof (Z.log2_spec n ltac:(lia)) as [_ Hs].
      rewrite Z.pow_succ_r in Hs by apply Z.log2_nonneg.
      apply Z.div_lt_upper_bound; lia.
Qed.

Lemma dec_aux_digits fuel n acc :
  0 <= n -> Forall (fun b => is_digit b = true) acc ->
  Forall (fun b => is_digit b = true) (dec_aux fuel n acc).
Proof.
  revert n acc; induction fuel as [|f IH]; intros n acc Hn Hacc; simpl; [done|].
  destruct (Z.ltb_spec n 10).
  - constructor; [apply is_digit_digit_byte; lia|done].
  - apply IH; [apply Z.div_pos; lia|]. constructor; [|done].
    apply is_digit_digit_byte. pose proof (Z.mod_pos_bound n 10); lia.
Qed.

Lemma dec_aux_nonempty fuel n acc : acc <> [] -> dec_aux fuel n acc <> [].
Proof.
  revert n acc; induction fuel as [|f IH]; intros n acc H; simpl; [done|].
  destruct (n <? 10); [done|]. by apply IH.
Qed.

Lemma dec_bytes_digits n : 0 <= n -> Forall (fun b => is_digit b = true) (dec_bytes n).
Proof. intros. by apply dec_aux_digits. Qed.

Lemma dec_bytes_nonempty n : dec_bytes n <> [].
Proof.
  unfold dec_bytes. simpl. destruct (n <? 10); [done|]. by apply dec_aux_nonempty.
Qed.

Lemma dec_bytes_val n : 0 <= n -> digits_val (dec_bytes n) 0 = Some n.
Proof. intros H. unfold dec_bytes. rewrite dec_aux_val by lia. done. Qed.

Lemma parse_dec_bytes w n :
  fits w n = true -> parse_uint_bytes w (dec_bytes n) = Some n.
Proof.
  intros [H0 H1]%fits_iff. unfold parse_uint_bytes.
  pose proof (dec_bytes_digits n H0) as Hd.
  pose proof (dec_bytes_val n H0) as Hv. pose proof (dec_bytes_nonempty n).
  destruct (dec_bytes n) as [|b l]; [done|].
  inversion Hd as [|? ? Hb]; subst.
  replace (b2z b =? 43) with false by (unfold is_digit in Hb; lia).
  rewrite Hv. by rewrite (proj2 (Z.ltb_lt n _)) by lia.
Qed.

(** [parse] undoes [format!] on every value of the type. *)
Lemma parse_dec_string w n : fits w n = true -> parse_uint w (dec_string n) = Some n.
Proof.
  intros H. unfold parse_uint, dec_string. rewrite bytes_of_of_bytes.
  by apply parse_dec_bytes.
Qed.

(** ** Splitting on a separator byte: [str::split_once], [splitn], [split] *)

Fixpoint split_once (c : byte) (l : list byte) : option (list byte * list byte) :=
  match l with
  | [] => None
  | b :: l =>
      if decide (b = c) then Some ([], l)
      else match split_once c l with
           | Some (x, y) => Some (b :: x, y)
           | None => None
           end
  end.

Fixpoint splitn (n : nat) (c : byte) (l : list byte) : list (list byte) :=
  match n with
  | O => []
  | S O => [l]
  | S n => match split_once c l with
           | Some (x, y) => x :: splitn n c y
           | None => [l]
           end
  end.

(** [s.split(c)]: always at least one segment. *)
Fixpoint split_all (c : byte) (l : list byte) : list (list byte) :=
  match l with
  | [] => [[]]
  | b :: l =>
      if decide (b = c) then [] :: split_all c l
      else match split_all c l with
           | seg :: segs => (b :: seg) :: segs
           | [] => [[b]]
           end
  end.

Lemma split_once_app c x y :
  c ∉ x -> split_once c (x ++ c :: y) = Some (x, y).
Proof.
  induction x as [|b x IH]; simpl; intros H; [by rewrite decide_True|].
  rewrite decide_False by set_solver. rewrite IH; [done|set_solver].
Qed.

Lemma split_once_none c x : c ∉ x -> split_once c x = None.
Proof.
  induction x as [|b x IH]; simpl; intros H; [done|].
  rewrite decide_False by set_solver. rewrite IH; [done|set_solver].
Qed.

Lemma split_once_some c l x y :
  split_once c l = Some (x, y) -> l = x ++ c :: y /\ c ∉ x.
Proof.
  revert x; induction l as [|b l IH]; simpl; intros x H; [done|].
  case_decide as Hb; simplify_eq; [split; [done|apply not_elem_of_nil]|].
  destruct (split_once c l) as [[x' y']|]; simplify_eq.
  destruct (IH x' eq_refl) as [-> Hx]. split; [done|].
  apply not_elem_of_cons; auto.
Qed.

Lemma not_in_digits c l :
  is_digit c = false -> Forall (fun b => is_digit b = true) l -> c ∉ l.
Proof. intros Hc Hl Hin. rewrite Forall_forall in Hl. by rewrite Hl in Hc. Qed.

Lemma bytes_of_app s t : bytes_of (s +:+ t) = bytes_of s ++ bytes_of t.
Proof.
  unfold bytes_of, list_byte_of_string. rewrite <- map_app. f_equal.
  induction s as [|a s IH]; simpl; [done|]. by rewrite IH.
Qed.

Lemma bytes_of_dec n : bytes_of (dec_string n) = dec_bytes n.
Proof. apply bytes_of_of_bytes. Qed.

(** ** Characters

    A [char] is a Unicode scalar value.  [chars] is the UTF-8 decoding of
    [str::chars] (a lone continuation byte, impossible in a Rust string,
    decodes to U+FFFD) and [string_of_chars] the encoding done by
    [collect::<String>()]. *)

Abbreviation char := Z (only parsing).

Definition utf8_cont (acc : Z) (b : byte) : Z := acc * 64 + b2z b mod 64.

Fixpoint utf8_decode (l : list byte) : list char :=
  match l with
  | [] => []
  | b0 :: l0 =>
      let v := b2z b0 in
      if v <? 128 then v :: utf8_decode l0
      else if v <? 224 then
        match l0 with
        | b1 :: l1 => utf8_cont (v mod 32) b1 :: utf8_decode l1
        | _ => [65533]
        end
      else if v <? 240 then
        match l0 with
        | b1 :: b2 :: l2 => utf8_cont (utf8_cont (v mod 16) b1) b2 :: utf8_decode l2
        | _ => [65533]
        end
      else
        match l0 with
        | b1 :: b2 :: b3 :: l3 =>
            utf8_cont (utf8_cont (utf8_cont (v mod 8) b1) b2) b3 :: utf8_decode l3
        | _ => [65533]
        end
  end.

Definition chars (s : string) : list char := utf8_decode (bytes_of s).

Definition utf8_encode (c : char) : list byte :=
  if c <? 128 then [z2b c]
  else if c <? 2048 then [z2b (192 + c / 64); z2b (128 + c mod 64)]
  else if c <? 65536 then
    [z2b (224 + c / 4096); z2b (128 + c / 64 mod 64); z2b (128 + c mod 64)]
  else
    [z2b (240 + c / 262144); z2b (128 + c / 4096 mod 64);
     z2b (128 + c / 64 mod 64); z2b (128 + c mod 64)].

Definition string_of_chars (l : list char) : string := of_bytes (flat_map utf8_encode l).

(** [char::is_whitespace]: the Unicode [White_Space] property. *)
Definition is_whitespace (c : char) : bool :=
  ((9 <=? c) && (c <=? 13)) || (c =? 32) || (c =? 133) || (c =? 160)
  || (c =? 5760) || ((8192 <=? c) && (c <=? 8202))
  || (c =? 8232) || (c =? 8233) || (c =? 8239) || (c =? 8287) || (c =? 12288).

(** [s.trim().is_empty()]. *)
Definition is_blank (s : string) : bool := forallb is_whitespace (chars s).

(** ** Externals

    Code outside the repository that the sources call, as interfaces with
    the behaviour their documentation promises. *)

(** A lowercase hexadecimal digit. *)
Definition is_hex (b : byte) : bool :=
  ((48 <=? b2z b) && (b2z b <=? 57)) || ((97 <=? b2z b) && (b2z b <=? 102)).

(** The [hex] crate: two lowercase digits a byte. *)
Class HexCodec := {
  hex_encode : list byte -> string;
  hex_decode : string -> option (list byte);
  hex_decode_encode l : hex_decode (hex_encode l) = Some l;
  hex_encode_chars l : Forall (fun b => is_hex b = true) (bytes_of (hex_encode l));
  hex_encode_len l : List.length (bytes_of (hex_encode l)) = (2 * List.length l)%nat;
}.

(** Text form of the [uuid] crate: [Display] prints the 36-character
    hyphenated form, made of hex digits and ['-'] only, and [FromStr]
    reads it back; of texts of these characters it takes the forms of 32 and
    36 characters only. *)
Definition hex_or_dash (b : byte) : bool :=
  let v := b2z b in
  ((48 <=? v) && (v <=? 57)) || ((97 <=? v) && (v <=? 102)) || (v =? 45).

Class UuidText := {
  uuid_display : Z -> string;
  uuid_parse : string -> option Z;
  uuid_parse_display u : fits 128 u = true -> uuid_parse (uuid_display u) = Some u;
  uuid_display_chars u : Forall (fun b => hex_or_dash b = true) (bytes_of (uuid_display u));
  uuid_display_len u : List.length (bytes_of (uuid_display u)) = 36%nat;
  uuid_parse_len s u : uuid_parse s = Some u -> Forall (fun b => hex_or_dash b = true) (bytes_of s) ->
    (List.length (bytes_of s) <= 36)%nat;
}.

Lemma uuid_display_inj `{UuidText} u v :
  fits 128 u = true -> fits 128 v = true -> uuid_display u = uuid_display v -> u = v.
Proof.
  intros Hu Hv E. apply uuid_parse_display in Hu, Hv. rewrite E in Hu. congruence.
Qed.

(** SHA-256 of the [sha2] crate: a function to 32-byte digests.  Nothing is
    assumed of it but its width; collision statements are relative to it. *)
Class Sha256 := {
  sha256 : list byte -> list byte;
  sha256_len l : List.length (sha256 l) = 32%nat;
}.

(** ** ASCII text: bytes below 128 are their own characters *)

Definition is_ascii (b : byte) : bool := b2z b <? 128.

Lemma utf8_decode_ascii l :
  Forall (fun b => is_ascii b = true) l -> utf8_decode l = map b2z l.
Proof.
  induction 1 as [|b l Hb Hl IH]; simpl; [done|].
  unfold is_ascii in Hb. by rewrite Hb, IH.
Qed.

Lemma utf8_encode_ascii b : is_ascii b = true -> utf8_encode (b2z b) = [b].
Proof.
  intros Hb. unfold utf8_encode. unfold is_ascii in Hb. by rewrite Hb, z2b_b2z.
Qed.

Lemma flat_map_utf8_ascii l :
  Forall (fun b => is_ascii b = true) l -> flat_map utf8_encode (map b2z l) = l.
Proof.
  induction 1 as [|b l Hb Hl IH]; simpl; [done|]. by rewrite utf8_encode_ascii, IH.
Qed.

(** [std::str::from_utf8(..).is_ok()]: well-formed UTF-8 (no overlong forms,
    no surrogates, nothing above U+10FFFF). *)
Definition is_cont (b : byte) : bool := (128 <=? b2z b) && (b2z b <=? 191).
Definition in_byte (lo hi : Z) (b : byte) : bool := (lo <=? b2z b) && (b2z b <=? hi).

Fixpoint utf8_valid (l : list byte) : bool :=
  match l with
  | [] => true
  | b0 :: l0 =>
      if b2z b0 <? 128 then utf8_valid l0
      else if in_byte 194 223 b0 then
        match l0 with b1 :: l1 => is_cont b1 && utf8_valid l1 | _ => false end
      else if in_byte 224 239 b0 then
        match l0 with
        | b1 :: b2 :: l2 =>
            (if b2z b0 =? 224 then in_byte 160 191 b1
             else if b2z b0 =? 237 then in_byte 128 159 b1
             else is_cont b1)
            && is_cont b2 && utf8_valid l2
        | _ => false
        end
      else if in_byte 240 244 b0 then
        match l0 with
        | b1 :: b2 :: b3 :: l3 =>
            (if b2z b0 =? 240 then in_byte 144 191 b1
             else if b2z b0 =? 244 then in_byte 128 143 b1
             else is_cont b1)
            && is_cont b2 && is_cont b3 && utf8_valid l3
        | _ => false
        end
      else false
  end.

Lemma utf8_valid_ascii l : Forall (fun b => is_ascii b = true) l -> utf8_valid l = true.
Proof.
  induction 1 as [|b l Hb Hl IH]; simpl; [done|].
  unfold is_ascii in Hb. by rewrite Hb, IH.
Qed.

Lemma utf8_valid_app l m : utf8_valid l = true -> utf8_valid m = true -> utf8_valid (l ++ m) = true.
Proof.
  intros Hl Hm. remember (List.length l) as n eqn:Hn. revert l Hn Hl.
  induction n as [n IH] using lt_wf_ind. intros l Hn Hl.
  destruct l as [|b0 l]; [done|]. cbn [app utf8_valid] in *.
  repeat case_match; simplify_eq/=; rewrite ?andb_true_iff in *; try done;
    try (apply (IH (List.length l)); [simpl; lia|done..]);
    naive_solver (eapply IH; [|done|done]; simpl; lia).
Qed.

(** ** [str::split_whitespace] *)

Fixpoint split_ws_aux (l : list char) (cur : list char) : list (list char) :=
  match l with
  | [] => match cur with [] => [] | _ => [rev cur] end
  | c :: l =>
      if is_whitespace c then
        match cur with [] => split_ws_aux l [] | _ => rev cur :: split_ws_aux l [] end
      else split_ws_aux l (c :: cur)
  end.

Definition split_whitespace (l : list char) : list (list char) := split_ws_aux l [].

Lemma split_ws_word w rest cur :
  Forall (fun c => is_whitespace c = false) w ->
  split_ws_aux (w ++ rest) cur = split_ws_aux rest (rev w ++ cur).
Proof.
  intros Hw; revert cur; induction Hw as [|c w Hc Hw IH]; intros cur; simpl; [done|].
  by rewrite Hc, IH, <- app_assoc.
Qed.

(** A word, one white-space character, and the rest. *)
Lemma split_whitespace_cons w c rest :
  w <> [] -> Forall (fun c => is_whitespace c = false) w -> is_whitespace c = true ->
  split_whitespace (w ++ c :: rest) = w :: split_whitespace rest.
Proof.
  intros Hne Hw Hc. unfold split_whitespace. rewrite split_ws_word, app_nil_r by done.
  simpl. rewrite Hc. destruct (rev w) eqn:E.
  - apply (f_equal (@rev _)) in E. rewrite rev_involutive in E. done.
  - by rewrite <- E, rev_involutive.
Qed.

Lemma split_whitespace_word w :
  w <> [] -> Forall (fun c => is_whitespace c = false) w -> split_whitespace w = [w].
Proof.
  intros Hne Hw. rewrite <- (app_nil_r w) at 1. unfold split_whitespace.
  rewrite split_ws_word, app_nil_r by done. simpl. destruct (rev w) eqn:E.
  - apply (f_equal (@rev _)) in E. rewrite rev_involutive in E. done.
  - by rewrite <- E, rev_involutive.
Qed.

(** ** Files read line by line

    [read_until(b'\n')]: each line keeps its newline, the last one may lack
    it. *)

Definition nl : byte := Byte.x0a.

Fixpoint read_lines (l : list byte) : list (list byte) :=
  match l with
  | [] => []
  | b :: l =>
      if decide (b = nl) then [b] :: read_lines l
      else match read_lines l with
           | [] => [[b]]
           | x :: xs => (b :: x) :: xs
           end
  end.

Definition ends_nl (l : list byte) : Prop := l = [] \/ last l = Some nl.

Lemma read_lines_app a b : ends_nl a -> read_lines (a ++ b) = read_lines a ++ read_lines b.
Proof.
  induction a as [|x a IH]; intros Ha; [done|]. simpl.
  destruct Ha as [Ha|Ha]; [done|].
  destruct a as [|y a].
  - by injection Ha as ->.
  - rewrite IH by (right; exact Ha).
    case_decide; [done|]. simpl.
    destruct (decide (y = nl)); [done|]. by destruct (read_lines a).
Qed.

Lemma read_lines_one l : nl ∉ l -> read_lines (l ++ [nl]) = [l ++ [nl]].
Proof.
  induction l as [|b l IH]; intros Hl; simpl; [done|].
  apply not_elem_of_cons in Hl as [Hb Hl].
  rewrite decide_False by congruence. by rewrite IH.
Qed.

Lemma read_lines_torn l : l <> [] -> nl ∉ l -> read_lines l = [l].
Proof.
  induction l as [|b l IH]; intros Hne Hl; [done|]. simpl.
  apply not_elem_of_cons in Hl as [Hb Hl]. rewrite decide_False by congruence.
  destruct l as [|c l]; [done|]. by rewrite IH.
Qed.

(** ** Substrings, on the UTF-8 bytes as [str] does it *)

Fixpoint is_prefix (p l : list byte) : bool :=
  match p, l with
  | [], _ => true
  | a :: p, b :: l => bool_decide (a = b) && is_prefix p l
  | _ :: _, [] => false
  end.

Fixpoint is_infix (p l : list byte) : bool :=
  is_prefix p l || match l with [] => false | _ :: l => is_infix p l end.

Definition str_starts_with (s p : string) : bool := is_prefix (bytes_of p) (bytes_of s).
Definition str_ends_with (s p : string) : bool := is_prefix (rev (bytes_of p)) (rev (bytes_of s)).
Definition str_contains (s p : string) : bool := is_infix (bytes_of p) (bytes_of s).

Lemma is_prefix_spec p l : is_prefix p l = true <-> p `prefix_of` l.
Proof.
  revert l. induction p as [|a p IH]; intros l; simpl.
  - split; [intros _; apply prefix_nil|done].
  - destruct l as [|b l]; [split; [done|intros Hp; by apply prefix_nil_not in Hp]|].
    rewrite andb_true_iff, bool_decide_eq_true, IH. split.
    + intros [-> ?]. by apply prefix_cons.
    + intros Hp. split; [by eapply prefix_cons_inv_1 in Hp|by eapply prefix_cons_inv_2].
Qed.

Lemma is_infix_spec p l : is_infix p l = true <-> exists a b, l = a ++ p ++ b.
Proof.
  induction l as [|x l IH]; cbn [is_infix]; rewrite orb_true_iff, is_prefix_spec.
  - split.
    + intros [[b Hb]|]; [|done]. exists [], b. done.
    + intros (l1 & l2 & E). destruct l1 as [|y l1]; [left; by exists l2|].
      done.
  - rewrite IH. split.
    + intros [[c Hc]|(a & c & ->)]; [by exists [], c|by exists (x :: a), c].
    + intros (a & b & E). destruct a as [|y a]; [left; by exists b|].
      injection E as -> ->. right. eauto.
Qed.

Lemma str_ends_with_spec s p :
  str_ends_with s p = true <-> exists a, bytes_of s = a ++ bytes_of p.
Proof.
  unfold str_ends_with. rewrite is_prefix_spec. split.
  - intros [b Hb]. exists (rev b). apply (f_equal (@rev _)) in Hb.
    by rewrite rev_app_distr, !rev_involutive in Hb.
  - intros [a Ha]. exists (rev a). by rewrite Ha, rev_app_distr.
Qed.

(** ** [str::trim] on characters *)

Fixpoint trim_start (l : list char) : list char :=
  match l with
  | c :: l' => if is_whitespace c then trim_start l' else l
  | [] => []
  end.

Definition trim_chars (l : list char) : list char := rev (trim_start (rev (trim_start l))).

Lemma trim_start_none l : Forall (fun c => is_whitespace c = false) l -> trim_start l = l.
Proof. destruct 1 as [|c l Hc]; [done|]. cbn [trim_start]. by rewrite Hc. Qed.

Lemma trim_chars_none l : Forall (fun c => is_whitespace c = false) l -> trim_chars l = l.
Proof.
  intros Hl. unfold trim_chars. rewrite (trim_start_none l) by done.
  rewrite trim_start_none; [apply rev_involutive|]. apply Forall_forall. intros c Hc.
  rewrite Forall_forall in Hl. apply Hl. by rewrite list_elem_of_In, in_rev, <- list_elem_of_In.
Qed.

(** ** Sorted lists *)

Lemma StronglySorted_lt {A} (R : A -> A -> Prop) l i j x y :
  StronglySorted R l -> l !! i = Some x -> l !! j = Some y -> (i < j)%nat -> R x y.
Proof.
  intros Hs. revert i j. induction Hs as [|z l Hs IH Hz]; intros i j Hi Hj Hlt; [done|].
  destruct j as [|j]; [lia|]. destruct i as [|i]; simpl in *.
  - injection Hi as ->. rewrite Forall_forall in Hz. apply Hz, list_elem_of_lookup. eauto.
  - eapply IH; [exact Hi|exact Hj|lia].
Qed.

Lemma StronglySorted_snoc {A} (R : A -> A -> Prop) l x :
  StronglySorted R l -> Forall (fun y => R y x) l -> StronglySorted R (l ++ [x]).
Proof.
  induction 1 as [|y l Hs IH Hy]; simpl; intros Hx; [repeat constructor|].
  apply Forall_cons in Hx as [Hyx Hx]. constructor; [auto|]. apply Forall_app. auto.
Qed.

(** ** Filtering *)

Lemma filter_true {A} (f : A -> bool) l : Forall (fun x => f x = true) l -> List.filter f l = l.
Proof. induction 1 as [|x l Hx _ IH]; simpl; [done|]. by rewrite Hx, IH. Qed.

Lemma filter_sublist {A} (f : A -> bool) l : List.filter f l `sublist_of` l.
Proof. induction l as [|x l IH]; simpl; [done|]. destruct (f x); by constructor. Qed.

Lemma filter_filter {A} (f g : A -> bool) l :
  List.filter f (List.filter g l) = List.filter (fun x => g x && f x) l.
Proof. induction l as [|x l IH]; simpl; [done|]. destruct (g x); simpl; by rewrite IH. Qed.

Lemma filter_ext {A} (f g : A -> bool) l :
  (forall x, x ∈ l -> f x = g x) -> List.filter f l = List.filter g l.
Proof. intros H. apply List.filter_ext_in. intros x Hx. by apply H, list_elem_of_In. Qed.

Lemma filter_sorted {A} (R : A -> A -> Prop) (f : A -> bool) l :
  StronglySorted R l -> StronglySorted R (List.filter f l).
Proof.
  induction 1 as [|x l Hs IH Hx]; simpl; [constructor|]. destruct (f x); [|done].
  constructor; [done|]. rewrite Forall_forall in Hx |- *. intros y Hy. apply Hx.
  by apply list_elem_of_In, filter_In, proj1, list_elem_of_In in Hy.
Qed.

Lemma filter_forall {A} (P : A -> Prop) (f : A -> bool) l : Forall P l -> Forall P (List.filter f l).
Proof. induction 1; simpl; [constructor|]. destruct (f x); [by constructor|done]. Qed.

Lemma filter_length_le {A} (f : A -> bool) l : (List.length (List.filter f l) <= List.length l)%nat.
Proof. induction l as [|x l IH]; simpl; [done|]. destruct (f x); simpl; lia. Qed.

Lemma omap_nodup {A B K} (key : A -> K) (key' : B -> K) (f : A -> option B) l :
  (forall x y, f x = Some y -> key' y = key x) -> NoDup (map key l) -> NoDup (map key' (omap f l)).
Proof.
  intros Hk. induction l as [|x l IH]; cbn; [constructor|]. intros [Hx Hl]%NoDup_cons.
  destruct (f x) as [y|] eqn:E; cbn; [|by apply IH]. apply NoDup_cons. split; [|by apply IH].
  rewrite (Hk x y E). intros (z & Ez & Hz)%list_elem_of_fmap. apply Hx.
  apply list_elem_of_omap in Hz as (w & Hw & Fw). apply list_elem_of_fmap. exists w.
  split; [|done]. by rewrite Ez, (Hk w z Fw).
Qed.

Lemma filter_nodup {A B} (key : A -> B) (f : A -> bool) l :
  NoDup (map key l) -> NoDup (map key (List.filter f l)).
Proof.
  intros Hn. eapply sublist_NoDup; [exact Hn|]. apply fmap_sublist, filter_sublist.
Qed.

Lemma filter_false {A} (f : A -> bool) l : Forall (fun x => f x = false) l -> List.filter f l = [].
Proof. induction 1 as [|x l Hx _ IH]; simpl; [done|]. by rewrite Hx. Qed.

Lemma elem_of_filter_b {A} (f : A -> bool) x l : x ∈ List.filter f l <-> x ∈ l /\ f x = true.
Proof. by rewrite !list_elem_of_In, filter_In. Qed.
