(* ===== verification/BTree.v ===== *)
(** * Ordered maps and stable sorting

    [BTreeMap<String, V>] as a strictly sorted association list (its
    iteration order is the list order), and [slice::sort_by] as a stable
    insertion sort over a comparison. *)

From Stdlib Require Import OrdersEx.
From S2P Require Import Prelude.

(** ** The byte-wise order of [str] *)

Definition str_ltb (s t : string) : bool :=
  match String_as_OT.compare s t with Lt => true | _ => false end.

Lemma str_ltb_lt s t : str_ltb s t = true <-> String_as_OT.lt s t.
Proof. unfold str_ltb, String_as_OT.lt. by destruct (String_as_OT.compare s t). Qed.

Lemma str_ltb_trans s t u : str_ltb s t = true -> str_ltb t u = true -> str_ltb s u = true.
Proof.
  rewrite !str_ltb_lt. apply (@StrictOrder_Transitive _ _ String_as_OT.lt_strorder).
Qed.

Lemma str_ltb_irrefl s : str_ltb s s = false.
Proof.
  apply not_true_is_false. rewrite str_ltb_lt.
  apply (@StrictOrder_Irreflexive _ _ String_as_OT.lt_strorder).
Qed.

Lemma str_ltb_asym s t : str_ltb s t = true -> str_ltb t s = false.
Proof.
  intros H. apply not_true_is_false. intros H'.
  pose proof (str_ltb_trans _ _ _ H H'). by rewrite str_ltb_irrefl in *.
Qed.

Lemma str_ltb_total s t : str_ltb s t = false -> s <> t -> str_ltb t s = true.
Proof.
  intros H Hne. apply str_ltb_lt. apply not_true_iff_false in H.
  rewrite str_ltb_lt in H. by destruct (String_as_OT.compare_spec s t).
Qed.

(** ** [BTreeMap<String, V>] *)

Section BTree.
Context {V : Type}.
Implicit Types m : list (string * V).

Definition btree := list (string * V).

Fixpoint bt_get (k : string) (m : btree) : option V :=
  match m with
  | [] => None
  | (k', v) :: m => if (k =? k')%string then Some v else bt_get k m
  end.

Definition bt_contains (k : string) (m : btree) : bool :=
  match bt_get k m with Some _ => true | None => false end.

Fixpoint bt_insert (k : string) (v : V) (m : btree) : btree :=
  match m with
  | [] => [(k, v)]
  | (k', v') :: m' =>
      if str_ltb k k' then (k, v) :: m
      else if (k =? k')%string then (k, v) :: m'
      else (k', v') :: bt_insert k v m'
  end.

(** [windows(2)]: each key strictly below the next one. *)
Fixpoint keys_sorted (m : btree) : bool :=
  match m with
  | (k, _) :: ((k', _) :: _) as m' => str_ltb k k' && keys_sorted m'
  | _ => true
  end.

Definition keys (m : btree) : list string := map fst m.

Lemma keys_sorted_cons k v m :
  keys_sorted ((k, v) :: m) = true <->
  Forall (fun k' => str_ltb k k' = true) (keys m) /\ keys_sorted m = true.
Proof.
  revert k v; induction m as [|[k' v'] m IH]; intros k v.
  - simpl. split; auto.
  - change (keys_sorted ((k, v) :: (k', v') :: m))
      with (str_ltb k k' && keys_sorted ((k', v') :: m)).
    rewrite andb_true_iff. split.
    + intros [Hlt Hs]. split; [|done]. simpl. constructor; [done|].
      apply IH in Hs as [Hf _]. eapply Forall_impl; [exact Hf|].
      simpl. intros x. by apply str_ltb_trans.
    + intros [Hf Hs]. split; [|done]. by inversion Hf.
Qed.

Lemma bt_get_in k v m : bt_get k m = Some v -> In (k, v) m.
Proof.
  induction m as [|[k' v'] m IH]; simpl; [done|].
  destruct (String.eqb_spec k k') as [->|]; naive_solver.
Qed.

Lemma bt_get_none k m : bt_get k m = None <-> ~ In k (keys m).
Proof.
  induction m as [|[k' v'] m IH]; simpl; [naive_solver|].
  destruct (String.eqb_spec k k') as [->|]; naive_solver.
Qed.

Lemma bt_get_above k m :
  Forall (fun k' => str_ltb k k' = true) (keys m) -> bt_get k m = None.
Proof.
  intros Hf. apply bt_get_none. intros Hin.
  rewrite List.Forall_forall in Hf. apply Hf in Hin.
  by rewrite str_ltb_irrefl in Hin.
Qed.

Lemma in_bt_get k v m : keys_sorted m = true -> In (k, v) m -> bt_get k m = Some v.
Proof.
  induction m as [|[k' v'] m IH]; simpl bt_get; intros Hs Hin; [done|].
  apply keys_sorted_cons in Hs as [Hf Hs]. destruct Hin as [[= -> ->]|Hin].
  - by rewrite String.eqb_refl.
  - destruct (String.eqb_spec k k') as [->|]; [|auto].
    apply bt_get_above, bt_get_none in Hf. destruct Hf.
    apply (in_map fst _ _ Hin).
Qed.

Lemma bt_get_insert k v m k' :
  bt_get k' (bt_insert k v m) = if (k' =? k)%string then Some v else bt_get k' m.
Proof.
  induction m as [|[j w] m IH]; simpl; [done|].
  destruct (str_ltb k j) eqn:Hlt; simpl; [done|].
  destruct (String.eqb_spec k j) as [->|Hne]; simpl.
  - by destruct (String.eqb_spec k' j).
  - rewrite IH. destruct (String.eqb_spec k' j), (String.eqb_spec k' k); congruence.
Qed.

Lemma keys_insert_above k0 k v m :
  str_ltb k0 k = true -> Forall (fun k' => str_ltb k0 k' = true) (keys m) ->
  Forall (fun k' => str_ltb k0 k' = true) (keys (bt_insert k v m)).
Proof.
  intros Hk. induction m as [|[j w] m IH]; simpl; intros Hf; [by constructor|].
  inversion Hf; subst. destruct (str_ltb k j); simpl; [by constructor|].
  destruct (k =? j)%string; simpl; constructor; auto.
Qed.

Lemma bt_insert_sorted k v m : keys_sorted m = true -> keys_sorted (bt_insert k v m) = true.
Proof.
  induction m as [|[j w] m IH]; intros Hs; [done|]. simpl.
  destruct (str_ltb k j) eqn:Hlt; [simpl; by rewrite Hlt|].
  apply keys_sorted_cons in Hs as [Hf Hs].
  destruct (String.eqb_spec k j) as [->|Hne]; apply keys_sorted_cons; [done|].
  split; [|by apply IH]. apply keys_insert_above; [|done]. by apply str_ltb_total.
Qed.

(** A [BTreeMap] is determined by its lookups. *)
Lemma bt_ext m1 m2 :
  keys_sorted m1 = true -> keys_sorted m2 = true ->
  (forall k, bt_get k m1 = bt_get k m2) -> m1 = m2.
Proof.
  revert m2; induction m1 as [|[k1 v1] m1 IH]; intros [|[k2 v2] m2] H1 H2 Heq.
  - done.
  - specialize (Heq k2). simpl in Heq. by rewrite String.eqb_refl in Heq.
  - specialize (Heq k1). simpl in Heq. by rewrite String.eqb_refl in Heq.
  - apply keys_sorted_cons in H1 as [F1 S1]. apply keys_sorted_cons in H2 as [F2 S2].
    pose proof (bt_get_above _ _ F1) as N1. pose proof (bt_get_above _ _ F2) as N2.
    assert (k1 = k2) as ->.
    { destruct (String.eqb_spec k1 k2) as [|Hne]; [done|]. exfalso.
      pose proof (Heq k1) as E1. pose proof (Heq k2) as E2. simpl in E1, E2.
      rewrite String.eqb_refl in E1, E2.
      rewrite (proj2 (String.eqb_neq _ _)) in E1 by done.
      rewrite (proj2 (String.eqb_neq _ _)) in E2 by done.
      symmetry in E1. apply bt_get_in, (in_map fst) in E1.
      apply bt_get_in, (in_map fst) in E2.
      rewrite List.Forall_forall in F1, F2. apply F1 in E2. apply F2 in E1.
      simpl in E1, E2. by rewrite (str_ltb_asym _ _ E1) in E2. }
    assert (v1 = v2) as ->.
    { pose proof (Heq k2) as E. simpl in E. rewrite String.eqb_refl in E. congruence. }
    f_equal. apply IH; [done|done|]. intros k. pose proof (Heq k) as E. simpl in E.
    destruct (String.eqb_spec k k2); congruence.
Qed.

End BTree.
Arguments btree V : clear implicits.

(** ** Stable sorting *)

Section SortBy.
Context {A : Type} (le : A -> A -> bool).

Fixpoint insert_by (x : A) (l : list A) : list A :=
  match l with
  | [] => [x]
  | y :: l' => if le x y then x :: l else y :: insert_by x l'
  end.

(** An earlier element is put before the later ones it ties with. *)
Definition sort_by (l : list A) : list A := foldr insert_by [] l.

Lemma insert_by_perm x l : insert_by x l ≡ₚ x :: l.
Proof.
  induction l as [|y l IH]; simpl; [done|].
  destruct (le x y); [done|]. rewrite IH. apply perm_swap.
Qed.

Lemma sort_by_perm l : sort_by l ≡ₚ l.
Proof.
  induction l as [|x l IH]; simpl; [done|]. by rewrite insert_by_perm, IH.
Qed.

Context (le_trans : forall x y z, le x y = true -> le y z = true -> le x z = true).
Context (le_total : forall x y, le x y = true \/ le y x = true).

Lemma insert_by_sorted x l :
  StronglySorted (fun x y => le x y = true) l ->
  StronglySorted (fun x y => le x y = true) (insert_by x l).
Proof.
  induction 1 as [|y l Hl IH Hy]; simpl; [by repeat constructor|].
  destruct (le x y) eqn:Hxy.
  - constructor; [by constructor|]. constructor; [done|].
    eapply Forall_impl; [exact Hy|]. simpl. eauto.
  - constructor; [done|]. rewrite insert_by_perm. constructor; [|done].
    destruct (le_total x y); congruence.
Qed.

Lemma sort_by_sorted l : StronglySorted (fun x y => le x y = true) (sort_by l).
Proof. induction l; simpl; [constructor|by apply insert_by_sorted]. Qed.

(** With no ties between distinct elements the result does not depend on the
    order of the input. *)
Lemma sort_by_unique l1 l2 :
  (forall x y, x ∈ l1 -> y ∈ l1 -> le x y = true -> le y x = true -> x = y) ->
  l1 ≡ₚ l2 -> sort_by l1 = sort_by l2.
Proof.
  intros Hanti Hp.
  eapply (StronglySorted_unique_strong (fun x y => le x y = true)); try apply sort_by_sorted.
  - intros x y Hx Hy. rewrite sort_by_perm in Hx. rewrite sort_by_perm, <- Hp in Hy. auto.
  - by rewrite !sort_by_perm.
Qed.

End SortBy.

(** [<=] on strings. *)
Lemma str_leb_trans s t u :
  negb (str_ltb t s) = true -> negb (str_ltb u t) = true -> negb (str_ltb u s) = true.
Proof.
  rewrite !negb_true_iff. intros Hst Htu. destruct (str_ltb u s) eqn:E; [|done].
  destruct (decide (t = u)) as [->|Hne]; [congruence|].
  pose proof (str_ltb_total _ _ Htu ltac:(congruence)) as Ht.
  rewrite (str_ltb_trans _ _ _ Ht E) in Hst. done.
Qed.

Lemma str_leb_total s t : negb (str_ltb t s) = true \/ negb (str_ltb s t) = true.
Proof.
  destruct (str_ltb t s) eqn:E; [|by left]. right. by rewrite (str_ltb_asym _ _ E).
Qed.

Lemma str_leb_antisym s t : negb (str_ltb t s) = true -> negb (str_ltb s t) = true -> s = t.
Proof.
  rewrite !negb_true_iff. intros H1 H2. destruct (decide (s = t)) as [|Hne]; [done|].
  pose proof (str_ltb_total _ _ H1 ltac:(congruence)). congruence.
Qed.

Lemma StronglySorted_weaken {A} (R R' : A -> A -> Prop) l :
  (forall x y, R x y -> R' x y) -> StronglySorted R l -> StronglySorted R' l.
Proof.
  intros HR. induction 1 as [|x l Hs IH Hx]; constructor; [done|].
  eapply Forall_impl; [exact Hx|]. auto.
Qed.
