(* ===== verification/Concrete.v ===== *)
(** * Concrete instances of the external interfaces

    Lower-case hexadecimal, the hyphenated UUID text form, and a 32-byte
    checksum standing in for SHA-256.  They show that the interfaces of
    [Prelude] can be implemented and let the examples of the other files
    compute. *)

From S2P Require Import Prelude.

Definition hex_digit (n : Z) : byte := if n <? 10 then z2b (48 + n) else z2b (87 + n).

Definition hex_pair (b : byte) : list byte := [hex_digit (b2z b / 16); hex_digit (b2z b mod 16)].

Definition hex_bytes (l : list byte) : list byte := flat_map hex_pair l.

Definition hex_val (b : byte) : option Z :=
  let v := b2z b in
  if (48 <=? v) && (v <=? 57) then Some (v - 48)
  else if (97 <=? v) && (v <=? 102) then Some (v - 87)
  else if (65 <=? v) && (v <=? 70) then Some (v - 55)
  else None.

Fixpoint unhex_bytes (l : list byte) : option (list byte) :=
  match l with
  | [] => Some []
  | [_] => None
  | a :: b :: l =>
      match hex_val a, hex_val b, unhex_bytes l with
      | Some x, Some y, Some r => Some (z2b (16 * x + y) :: r)
      | _, _, _ => None
      end
  end.

Lemma unhex_pair b l : unhex_bytes (hex_pair b ++ l) = option_map (cons b) (unhex_bytes l).
Proof. simpl. destruct (unhex_bytes l); by destruct b. Qed.

Lemma unhex_hex l : unhex_bytes (hex_bytes l) = Some l.
Proof.
  induction l as [|b l IH]; [done|].
  change (hex_bytes (b :: l)) with (hex_pair b ++ hex_bytes l).
  by rewrite unhex_pair, IH.
Qed.

Lemma hex_pair_chars b : Forall (fun c => is_hex c = true) (hex_pair b).
Proof. repeat constructor; by destruct b. Qed.

Lemma hex_bytes_chars l : Forall (fun c => is_hex c = true) (hex_bytes l).
Proof.
  induction l as [|b l IH]; [constructor|].
  change (hex_bytes (b :: l)) with (hex_pair b ++ hex_bytes l).
  apply Forall_app. split; [apply hex_pair_chars|done].
Qed.

Lemma length_hex_bytes l : List.length (hex_bytes l) = (2 * List.length l)%nat.
Proof. induction l as [|b l IH]; simpl; lia. Qed.

Lemma concrete_hex_law l :
  unhex_bytes (bytes_of (of_bytes (hex_bytes l))) = Some l.
Proof. rewrite bytes_of_of_bytes. apply unhex_hex. Qed.

Lemma concrete_hex_chars l : Forall (fun c => is_hex c = true) (bytes_of (of_bytes (hex_bytes l))).
Proof. rewrite bytes_of_of_bytes. apply hex_bytes_chars. Qed.

Lemma concrete_hex_len l : List.length (bytes_of (of_bytes (hex_bytes l))) = (2 * List.length l)%nat.
Proof. rewrite bytes_of_of_bytes. apply length_hex_bytes. Qed.

Definition concrete_hex : HexCodec := {|
  hex_encode l := of_bytes (hex_bytes l);
  hex_decode s := unhex_bytes (bytes_of s);
  hex_decode_encode := concrete_hex_law;
  hex_encode_chars := concrete_hex_chars;
  hex_encode_len := concrete_hex_len;
|}.

(** ** UUIDs: 8-4-4-4-12 *)

Definition dash : byte := Byte.x2d.

Definition hyphenate (h : list byte) : list byte :=
  take 8 h ++ [dash] ++ take 4 (drop 8 h) ++ [dash] ++ take 4 (drop 12 h)
  ++ [dash] ++ take 4 (drop 16 h) ++ [dash] ++ drop 20 h.

Definition undash (l : list byte) : list byte := List.filter (fun b => negb (b2z b =? 45)) l.

Definition uuid_display_bytes (u : Z) : list byte := hyphenate (hex_bytes (be_bytes 16 u)).

Definition uuid_parse_bytes (l : list byte) : option Z :=
  match unhex_bytes (undash l) with
  | Some bs => if (List.length bs =? 16)%nat && (List.length l <=? 36)%nat then Some (of_be bs) else None
  | None => None
  end.

Lemma undash_hex l : Forall (fun c => is_hex c = true) l -> undash l = l.
Proof.
  induction 1 as [|b l Hb Hl IH]; simpl; [done|].
  assert (b2z b =? 45 = false) as -> by (unfold is_hex in Hb; lia). cbn [negb]. by rewrite IH.
Qed.

Lemma undash_app l m : undash (l ++ m) = undash l ++ undash m.
Proof. apply List.filter_app. Qed.

Lemma split_32 (h : list byte) :
  take 8 h ++ take 4 (drop 8 h) ++ take 4 (drop 12 h) ++ take 4 (drop 16 h) ++ drop 20 h = h.
Proof.
  rewrite <- (take_drop 8 h) at 6. f_equal.
  rewrite <- (take_drop 4 (drop 8 h)) at 2. f_equal. rewrite drop_drop. simpl.
  rewrite <- (take_drop 4 (drop 12 h)) at 2. f_equal. rewrite drop_drop. simpl.
  rewrite <- (take_drop 4 (drop 16 h)) at 2. f_equal. by rewrite drop_drop.
Qed.

Lemma undash_hyphenate h : Forall (fun c => is_hex c = true) h -> undash (hyphenate h) = h.
Proof.
  intros Hh. unfold hyphenate. rewrite !undash_app. simpl.
  rewrite !undash_hex by (repeat first [apply Forall_take | apply Forall_drop]; done).
  apply split_32.
Qed.

Lemma concrete_uuid_len u :
  List.length (bytes_of (of_bytes (uuid_display_bytes u))) = 36%nat.
Proof.
  rewrite bytes_of_of_bytes. unfold uuid_display_bytes, hyphenate.
  pose proof (length_hex_bytes (be_bytes 16 u)) as Hl. rewrite length_be_bytes in Hl.
  repeat rewrite ?length_app, ?length_take, ?length_drop. rewrite Hl. done.
Qed.

Lemma concrete_uuid_roundtrip u :
  fits 128 u = true ->
  uuid_parse_bytes (bytes_of (of_bytes (uuid_display_bytes u))) = Some u.
Proof.
  intros Hu. pose proof (concrete_uuid_len u) as Hl. rewrite bytes_of_of_bytes in Hl |- *.
  unfold uuid_parse_bytes. rewrite Hl. unfold uuid_display_bytes.
  rewrite undash_hyphenate by apply hex_bytes_chars. rewrite unhex_hex.
  rewrite length_be_bytes. simpl. by rewrite (of_be_bytes_small 16).
Qed.

Lemma is_hex_or_dash b : is_hex b = true -> hex_or_dash b = true.
Proof. unfold hex_or_dash, is_hex. intros ->. done. Qed.

Lemma concrete_uuid_chars u :
  Forall (fun b => hex_or_dash b = true) (bytes_of (of_bytes (uuid_display_bytes u))).
Proof.
  rewrite bytes_of_of_bytes. unfold uuid_display_bytes.
  pose proof (hex_bytes_chars (be_bytes 16 u)) as Hh.
  assert (Forall (fun b => hex_or_dash b = true) (hex_bytes (be_bytes 16 u))) as Hd.
  { eapply Forall_impl; [exact Hh|]. apply is_hex_or_dash. }
  unfold hyphenate.
  rewrite !Forall_app, !Forall_singleton.
  repeat split; repeat first [apply Forall_take | apply Forall_drop]; done.
Qed.

Lemma concrete_uuid_parse_len s u :
  uuid_parse_bytes (bytes_of s) = Some u -> Forall (fun b => hex_or_dash b = true) (bytes_of s) ->
  (List.length (bytes_of s) <= 36)%nat.
Proof.
  unfold uuid_parse_bytes. destruct (unhex_bytes _); [|done]. destruct (_ && _) eqn:E; [|done].
  intros _ _. by apply andb_true_iff in E as [_ E%Nat.leb_le].
Qed.

Definition concrete_uuid : UuidText := {|
  uuid_display u := of_bytes (uuid_display_bytes u);
  uuid_parse s := uuid_parse_bytes (bytes_of s);
  uuid_parse_display := concrete_uuid_roundtrip;
  uuid_display_chars := concrete_uuid_chars;
  uuid_display_len := concrete_uuid_len;
  uuid_parse_len := concrete_uuid_parse_len;
|}.

(** ** A 32-byte checksum: a polynomial hash modulo [2^256] *)

Definition checksum (l : list byte) : list byte :=
  be_bytes 32 (fold_left (fun acc b => (acc * 1000003 + b2z b + 1) mod 2 ^ 256) l 7).

Lemma checksum_len l : List.length (checksum l) = 32%nat.
Proof. apply length_be_bytes. Qed.

Definition concrete_sha256 : Sha256 := {| sha256 := checksum; sha256_len := checksum_len |}.
