(* ===== verification/Json.v ===== *)
(** * JSON values: the interface of [serde_json::Value]

    [serde_json] is a dependency, so its value type is an interface here: the
    accessors the query evaluator and the detection engine call, with the
    documented facts they rely on.  [tjson] is a small concrete instance that
    the examples compute with. *)

From Stdlib Require Export SpecFloat.
From S2P Require Import Prelude.

(** [f64] values: IEEE 754 binary64 (precision 53, maximal exponent 1024). *)
Abbreviation f64 := spec_float.
Definition f64_prec : Z := 53.
Definition f64_emax : Z := 1024.

Class JsonLib := {
  json : Type;
  (** [Value::get(&str)]: a member of an object, [None] on any other value. *)
  json_get : json -> string -> option json;
  json_is_null : json -> bool;
  json_as_str : json -> option string;
  json_as_array : json -> option (list json);
  json_as_f64 : json -> option f64;
  (** [PartialEq for Value]. *)
  json_eqb : json -> json -> bool;
  (** [Display for Value]: compact JSON text. *)
  json_to_string : json -> string;
  json_eqb_refl v : json_eqb v v = true;
  json_eqb_sym v w : json_eqb v w = json_eqb w v;
  json_get_null v k : json_is_null v = true -> json_get v k = None;
}.

Fixpoint assoc_get {A} (k : string) (l : list (string * A)) : option A :=
  match l with
  | [] => None
  | (k', v) :: l => if (k =? k')%string then Some v else assoc_get k l
  end.

(** The values the pipeline builds with [json!] and reads back with [get] and [as_u64]. *)
Class JsonMake `{JsonLib} := {
  j_null : json;
  j_bool : bool -> json;
  j_int : Z -> json;
  j_str : string -> json;
  j_arr : list json -> json;
  (** Members with distinct keys. *)
  j_obj : list (string * json) -> json;
  json_as_u64 : json -> option Z;
  json_get_obj l k : NoDup (map fst l) -> json_get (j_obj l) k = assoc_get k l;
  json_as_u64_int n : 0 <= n < 2 ^ 64 -> json_as_u64 (j_int n) = Some n;
  json_as_u64_null : json_as_u64 j_null = None;
  json_as_str_str s : json_as_str (j_str s) = Some s;
  json_is_null_null : json_is_null j_null = true;
  json_is_null_str s : json_is_null (j_str s) = false;
}.

Definition j_opt `{JsonMake} {A} (f : A -> json) (o : option A) : json :=
  match o with Some a => f a | None => j_null end.

(** [Serialize] and [DeserializeOwned] of a type, as JSON text ([serde_json::to_vec],
    [to_string], [from_slice], [from_str]): writing may fail, reading inverts it. *)
Class Serde (T : Type) := {
  to_vec : T -> option (list byte);
  from_slice : list byte -> option T;
  serde_roundtrip m j : to_vec m = Some j -> from_slice j = Some m;
}.

(** ** A concrete instance *)

Inductive tjson :=
| TNull
| TBool (b : bool)
| TNum (n : Z)
| TStr (s : string)
| TArr (l : list tjson)
| TObj (l : list (string * tjson)).

Definition f64_of_Z (n : Z) : f64 := binary_normalize f64_prec f64_emax n 0 false.

Fixpoint tjson_eqb (v w : tjson) : bool :=
  match v, w with
  | TNull, TNull => true
  | TBool a, TBool b => Bool.eqb a b
  | TNum a, TNum b => a =? b
  | TStr a, TStr b => String.eqb a b
  | TArr l, TArr m =>
      (fix go l m := match l, m with
                     | [], [] => true
                     | a :: l, b :: m => tjson_eqb a b && go l m
                     | _, _ => false
                     end) l m
  | TObj l, TObj m =>
      (fix go l m := match l, m with
                     | [], [] => true
                     | (k, a) :: l, (k', b) :: m => String.eqb k k' && tjson_eqb a b && go l m
                     | _, _ => false
                     end) l m
  | _, _ => false
  end.

Fixpoint tjson_text (v : tjson) : string :=
  match v with
  | TNull => "null"
  | TBool b => if b then "true" else "false"
  | TNum n => if n <? 0 then "-" +:+ dec_string (- n) else dec_string n
  | TStr s => "'" +:+ s +:+ "'"
  | TArr l => "[" +:+ foldr (fun v acc => tjson_text v +:+ "," +:+ acc) "]" l
  | TObj l => "{" +:+ foldr (fun p acc => p.1 +:+ ":" +:+ tjson_text p.2 +:+ "," +:+ acc) "}" l
  end.

Fixpoint tjson_eqb_refl (v : tjson) : tjson_eqb v v = true.
Proof.
  destruct v as [|b|n|s|l|l]; simpl; auto.
  - by destruct b.
  - apply Z.eqb_refl.
  - apply String.eqb_refl.
  - induction l as [|a l IH]; [done|]. by rewrite tjson_eqb_refl.
  - induction l as [|[k a] l IH]; [done|]. by rewrite String.eqb_refl, tjson_eqb_refl.
Qed.

Fixpoint tjson_eqb_sym (v w : tjson) : tjson_eqb v w = tjson_eqb w v.
Proof.
  destruct v as [|b|n|s|l|l], w as [|b'|n'|s'|l'|l']; simpl; auto.
  - by destruct b, b'.
  - apply Z.eqb_sym.
  - apply String.eqb_sym.
  - revert l'. induction l as [|a l IH]; intros [|b l']; auto.
    by rewrite (tjson_eqb_sym a b), IH.
  - revert l'. induction l as [|[k a] l IH]; intros [|[k' b] l']; auto.
    by rewrite (tjson_eqb_sym a b), IH, (String.eqb_sym k k').
Qed.

Definition tjson_get (v : tjson) (k : string) : option tjson :=
  match v with TObj l => assoc_get k l | _ => None end.

Definition tjson_is_null (v : tjson) : bool :=
  match v with TNull => true | _ => false end.

Lemma tjson_get_null v k : tjson_is_null v = true -> tjson_get v k = None.
Proof. by destruct v. Qed.

Definition tjson_lib : JsonLib := {|
  json := tjson;
  json_get := tjson_get;
  json_is_null := tjson_is_null;
  json_as_str v := match v with TStr s => Some s | _ => None end;
  json_as_array v := match v with TArr l => Some l | _ => None end;
  json_as_f64 v := match v with TNum n => Some (f64_of_Z n) | _ => None end;
  json_eqb := tjson_eqb;
  json_to_string := tjson_text;
  json_eqb_refl := tjson_eqb_refl;
  json_eqb_sym := tjson_eqb_sym;
  json_get_null := tjson_get_null;
|}.

Definition tjson_make : @JsonMake tjson_lib.
Proof.
  refine {| j_null := TNull : @json tjson_lib; j_bool := TBool : _ -> @json tjson_lib;
            j_int := TNum : _ -> @json tjson_lib; j_str := TStr : _ -> @json tjson_lib;
            j_arr := TArr : _ -> @json tjson_lib; j_obj := TObj : _ -> @json tjson_lib;
            json_as_u64 := fun v : @json tjson_lib =>
              match v with TNum n => if fits 64 n then Some n else None | _ => None end |}.
  - done.
  - intros n Hn. cbn. by rewrite (proj2 (fits_iff 64 n) Hn).
  - done.
  - done.
  - done.
  - done.
Defined.
