(* ===== verification/Schema.v ===== *)
(** * Event schema: [crates/osiris-schema]

    The data every other component exchanges: event types and their
    categories, entity references with their storage keys, file identities,
    process keys, and alerts, whose constructor enforces that an alert always
    cites a rule, a reason and evidence. *)

From S2P Require Import Prelude.
From S2P Require Import Concrete Json.

(** UUIDs are 128-bit values; [as_bytes] is their big-endian form. *)
Abbreviation Uuid := Z (only parsing).
Definition uuid_as_bytes (u : Uuid) : list byte := be_bytes 16 u.

(** ** [event_type.rs] *)

Inductive Category :=
| CProcess | CFile | CNetwork | CDns | CIdentity | CPrivilege | CSystemd
| CPersistence | CKernelModule | CContainer | CSecurity | CSystem.

Inductive Severity := Info | Low | Medium | High | Critical.

Inductive Source :=
| SEbpf | SAudit | SFanotify | SProcfs | SDbus | SContainerApi | SSynthetic
| SPacket | SAgentInternal.

Inductive EventType :=
| ProcessExec | ProcessFork | ProcessExit
| FileCreate | FileDelete | FileRename | FileMove | FileModify | FileWrite
| FileExecute | FilePermissionChange | FileOwnerChange | FileAttributeChange
| SocketCreate | SocketBind | SocketListen
| NetworkConnect | NetworkAccept | NetworkClose
| DnsQuery
| SessionLogin | SessionLogout | SessionCreate | SessionTerminate
| PrivilegeUidChange | PrivilegeGidChange | PrivilegeCapabilityChange
| PrivilegeSudo | PrivilegeSetuid
| ServiceCreate | ServiceModify | ServiceStart | ServiceStop | ServiceDelete
| TimerCreate | TimerModify
| PersistenceCreated | PersistenceModified | PersistenceRemoved
| ModuleLoad | ModuleUnload
| ContainerCreate | ContainerStart | ContainerStop | ContainerDestroy
| LsmDenial | CapabilityUse
| AgentHealth | SensorHealth | AgentStart | AgentStop.

#[global] Instance category_eq_dec : EqDecision Category.
Proof. solve_decision. Defined.
#[global] Instance severity_eq_dec : EqDecision Severity.
Proof. solve_decision. Defined.
#[global] Instance event_type_eq_dec : EqDecision EventType.
Proof. solve_decision. Defined.

Definition category (t : EventType) : Category :=
  match t with
  | ProcessExec | ProcessFork | ProcessExit => CProcess
  | FileCreate | FileDelete | FileRename | FileMove | FileModify | FileWrite
  | FileExecute | FilePermissionChange | FileOwnerChange | FileAttributeChange => CFile
  | SocketCreate | SocketBind | SocketListen | NetworkConnect | NetworkAccept
  | NetworkClose => CNetwork
  | DnsQuery => CDns
  | SessionLogin | SessionLogout | SessionCreate | SessionTerminate => CIdentity
  | PrivilegeUidChange | PrivilegeGidChange | PrivilegeCapabilityChange
  | PrivilegeSudo | PrivilegeSetuid => CPrivilege
  | ServiceCreate | ServiceModify | ServiceStart | ServiceStop | ServiceDelete
  | TimerCreate | TimerModify => CSystemd
  | PersistenceCreated | PersistenceModified | PersistenceRemoved => CPersistence
  | ModuleLoad | ModuleUnload => CKernelModule
  | ContainerCreate | ContainerStart | ContainerStop | ContainerDestroy => CContainer
  | LsmDenial | CapabilityUse => CSecurity
  | AgentHealth | SensorHealth | AgentStart | AgentStop => CSystem
  end.

(** ** [process_key.rs] *)

(** [ProcessKey([u8; 16])]. *)
Record ProcessKey := { pk_bytes : list byte }.

#[global] Instance process_key_eq_dec : EqDecision ProcessKey.
Proof. solve_decision. Defined.

Definition process_key_ok (k : ProcessKey) : Prop := List.length (pk_bytes k) = 16%nat.

(** The bytes [ProcessKey::new] feeds to the hasher, in order. *)
Definition process_key_preimage (host_id : Uuid) (boot_id : string) (pid start_time_mono : Z)
  : list byte :=
  uuid_as_bytes host_id ++ bytes_of boot_id ++ le_bytes 4 pid ++ le_bytes 8 start_time_mono.

Definition process_key_new `{Sha256} (host_id : Uuid) (boot_id : string)
    (pid start_time_mono : Z) : ProcessKey :=
  {| pk_bytes := take 16 (sha256 (process_key_preimage host_id boot_id pid start_time_mono)) |}.

Definition as_hex `{HexCodec} (k : ProcessKey) : string := hex_encode (pk_bytes k).

(** [Deserialize for ProcessKey]: hex-decode, then exactly 16 bytes. *)
Definition process_key_of_str `{HexCodec} (s : string) : option ProcessKey :=
  match hex_decode s with
  | Some bs => if (List.length bs =? 16)%nat then Some {| pk_bytes := bs |} else None
  | None => None
  end.

(** ** [relationships.rs] *)

Inductive EntityRef :=
| EProcess (process_key : ProcessKey)
| EFile (host_id : Uuid) (inode device_id : Z)
| EIp (addr : string)
| EDomain (name : string)
| EUser (host_id : Uuid) (uid : Z)
| EContainer (container_id : string)
| ESession (session_id : string).

#[global] Instance entity_ref_eq_dec : EqDecision EntityRef.
Proof. solve_decision. Defined.

Inductive Relation :=
| Spawned | ExecutedAs | Wrote | Read | ConnectedTo | ResolvedTo
| BelongsToContainer | BelongsToPod | RunsInCgroup | TriggeredBySession.

#[global] Instance relation_eq_dec : EqDecision Relation.
Proof. solve_decision. Defined.

Record EntityRelationship := {
  er_from : EntityRef;
  er_to : EntityRef;
  er_relation : Relation;
  er_event_id : Uuid;
  er_timestamp : Z;
}.

#[global] Instance entity_relationship_eq_dec : EqDecision EntityRelationship.
Proof. solve_decision. Defined.

Inductive EntityRefParseError :=
| UnknownKind (key : string)
| Malformed (key : string).

Section StorageKey.
Context `{HexCodec} `{UuidText}.

Definition storage_key (e : EntityRef) : string :=
  match e with
  | EProcess k => "PROCESS:" +:+ as_hex k
  | EFile h i d =>
      "FILE:" +:+ uuid_display h +:+ ":" +:+ dec_string i +:+ ":" +:+ dec_string d
  | EIp a => "IP:" +:+ a
  | EDomain n => "DOMAIN:" +:+ n
  | EUser h u => "USER:" +:+ uuid_display h +:+ ":" +:+ dec_string u
  | EContainer c => "CONTAINER:" +:+ c
  | ESession s => "SESSION:" +:+ s
  end.

Definition colon : byte := Byte.x3a.

Definition parse_storage_key (key : string) : outcome EntityRefParseError EntityRef :=
  let? (kind, rest) := ok_or (split_once colon (bytes_of key)) (UnknownKind key) in
  let malformed := Malformed key in
  let kind := of_bytes kind in
  if (kind =? "PROCESS")%string then
    let? k := ok_or (process_key_of_str (of_bytes rest)) malformed in
    Ok (EProcess k)
  else if (kind =? "FILE")%string then
    let parts := splitn 3 colon rest in
    let? p0 := ok_or (parts !! 0%nat) malformed in
    let? host_id := ok_or (uuid_parse (of_bytes p0)) malformed in
    let? p1 := ok_or (parts !! 1%nat) malformed in
    let? inode := ok_or (parse_uint_bytes 64 p1) malformed in
    let? p2 := ok_or (parts !! 2%nat) malformed in
    let? device_id := ok_or (parse_uint_bytes 64 p2) malformed in
    Ok (EFile host_id inode device_id)
  else if (kind =? "IP")%string then Ok (EIp (of_bytes rest))
  else if (kind =? "DOMAIN")%string then Ok (EDomain (of_bytes rest))
  else if (kind =? "USER")%string then
    let parts := splitn 2 colon rest in
    let? p0 := ok_or (parts !! 0%nat) malformed in
    let? host_id := ok_or (uuid_parse (of_bytes p0)) malformed in
    let? p1 := ok_or (parts !! 1%nat) malformed in
    let? uid := ok_or (parse_uint_bytes 32 p1) malformed in
    Ok (EUser host_id uid)
  else if (kind =? "CONTAINER")%string then Ok (EContainer (of_bytes rest))
  else if (kind =? "SESSION")%string then Ok (ESession (of_bytes rest))
  else Err (UnknownKind key).

(** The values the Rust types can hold. *)
Definition entity_ok (e : EntityRef) : bool :=
  match e with
  | EProcess k => (List.length (pk_bytes k) =? 16)%nat
  | EFile h i d => fits 128 h && fits 64 i && fits 64 d
  | EUser h u => fits 128 h && fits 32 u
  | _ => true
  end.

Lemma colon_not_in_uuid u : colon ∉ bytes_of (uuid_display u).
Proof.
  intros Hin. pose proof (uuid_display_chars u) as Hf.
  rewrite Forall_forall in Hf. by apply Hf in Hin.
Qed.

Lemma colon_not_in_dec n : 0 <= n -> colon ∉ dec_bytes n.
Proof. intros Hn. apply not_in_digits; [done|by apply dec_bytes_digits]. Qed.

Lemma splitn2_uuid u l :
  splitn 2 colon (bytes_of (uuid_display u) ++ colon :: l) = [bytes_of (uuid_display u); l].
Proof. simpl. by rewrite split_once_app by apply colon_not_in_uuid. Qed.

Lemma splitn3_uuid u n l :
  0 <= n ->
  splitn 3 colon (bytes_of (uuid_display u) ++ colon :: dec_bytes n ++ colon :: l)
  = [bytes_of (uuid_display u); dec_bytes n; l].
Proof.
  intros Hn. simpl. rewrite split_once_app by apply colon_not_in_uuid.
  by rewrite split_once_app by by apply colon_not_in_dec.
Qed.

Lemma process_key_of_str_hex k : process_key_ok k -> process_key_of_str (as_hex k) = Some k.
Proof.
  intros Hk. unfold process_key_of_str, as_hex. rewrite hex_decode_encode.
  rewrite Hk. simpl. by destruct k.
Qed.

(** [parse_storage_key] inverts [storage_key] on every entity. *)
Lemma parse_storage_key_roundtrip e :
  entity_ok e = true -> parse_storage_key (storage_key e) = Ok e.
Proof.
  intros He. destruct e; simpl in He; unfold parse_storage_key, storage_key.
  - rewrite bytes_of_app. simpl. rewrite of_bytes_bytes_of.
    rewrite process_key_of_str_hex; [done|]. apply Nat.eqb_eq, He.
  - rewrite !andb_true_iff in He. destruct He as [[Hh Hi] Hd].
    rewrite !bytes_of_app, !bytes_of_dec. simpl split_once. cbn [obind ok_or].
    change (bytes_of ":") with [colon].
    simpl String.eqb. cbn iota.
    rewrite splitn3_uuid by (apply fits_iff in Hi; lia).
    simpl. rewrite of_bytes_bytes_of, uuid_parse_display by done. simpl.
    rewrite parse_dec_bytes by done. simpl. by rewrite parse_dec_bytes.
  - rewrite bytes_of_app. simpl. by rewrite of_bytes_bytes_of.
  - rewrite bytes_of_app. simpl. by rewrite of_bytes_bytes_of.
  - rewrite !andb_true_iff in He. destruct He as [Hh Hu].
    rewrite !bytes_of_app, !bytes_of_dec. simpl split_once. cbn [obind ok_or].
    change (bytes_of ":") with [colon].
    simpl String.eqb. cbn iota.
    change Byte.x3a with colon. rewrite splitn2_uuid.
    simpl. rewrite of_bytes_bytes_of, uuid_parse_display by done. simpl.
    by rewrite parse_dec_bytes.
  - rewrite bytes_of_app. simpl. by rewrite of_bytes_bytes_of.
  - rewrite bytes_of_app. simpl. by rewrite of_bytes_bytes_of.
Qed.

(** Two entities with the same key are the same entity. *)
Lemma storage_key_inj e1 e2 :
  entity_ok e1 = true -> entity_ok e2 = true ->
  storage_key e1 = storage_key e2 -> e1 = e2.
Proof.
  intros H1 H2 Heq.
  pose proof (parse_storage_key_roundtrip e1 H1) as R1.
  rewrite Heq, (parse_storage_key_roundtrip e2 H2) in R1. congruence.
Qed.

End StorageKey.

(** Storage keys identify entities: the key of a process, file, IP address, domain,
    user, container or session parses back to that entity, so two entities with one key
    are one entity. *)
Lemma entity_keys_roundtrip `{HexCodec} `{UuidText} e e' :
  entity_ok e = true -> entity_ok e' = true ->
  parse_storage_key (storage_key e) = Ok e /\ (storage_key e = storage_key e' <-> e = e').
Proof.
  intros He He'. split; [by apply parse_storage_key_roundtrip|].
  split; [by apply storage_key_inj|]. by intros ->.
Qed.

Lemma entity_keys_roundtrip_witness :
  @parse_storage_key concrete_hex concrete_uuid
    (@storage_key concrete_hex concrete_uuid (EFile 7 1234 (8 * 2 ^ 32 + 1)))
  = Ok (EFile 7 1234 (8 * 2 ^ 32 + 1)).
Proof.
  apply (@entity_keys_roundtrip concrete_hex concrete_uuid (EFile 7 1234 (8 * 2 ^ 32 + 1))
           (EUser 7 1000)); vm_compute; reflexivity.
Defined.

(** ** [file_identity.rs] *)

Record FileIdentity := { fi_inode : Z; fi_device_id : Z }.

Definition as_key (f : FileIdentity) : string :=
  dec_string (fi_device_id f) +:+ ":" +:+ dec_string (fi_inode f).

Definition parse_key (s : string) : option FileIdentity :=
  match split_once colon (bytes_of s) with
  | Some (device_id, inode) =>
      match parse_uint_bytes 64 inode, parse_uint_bytes 64 device_id with
      | Some i, Some d => Some {| fi_inode := i; fi_device_id := d |}
      | _, _ => None
      end
  | None => None
  end.

Definition to_entity_ref (f : FileIdentity) (host_id : Uuid) : EntityRef :=
  EFile host_id (fi_inode f) (fi_device_id f).

(** [((major as u64) << 32) | (minor as u64)]. *)
Definition encode_device_id (major minor : Z) : Z := Z.lor (Z.shiftl major 32) minor.

Lemma parse_key_as_key f :
  fits 64 (fi_inode f) = true -> fits 64 (fi_device_id f) = true ->
  parse_key (as_key f) = Some f.
Proof.
  intros Hi Hd. unfold parse_key, as_key. rewrite !bytes_of_app, !bytes_of_dec.
  change (bytes_of ":") with [colon]. simpl app.
  rewrite split_once_app by (apply colon_not_in_dec; apply fits_iff in Hd; lia).
  rewrite !parse_dec_bytes by done. by destruct f.
Qed.

Lemma encode_device_id_inj ma mi ma' mi' :
  fits 32 mi = true -> fits 32 mi' = true ->
  encode_device_id ma mi = encode_device_id ma' mi' -> ma = ma' /\ mi = mi'.
Proof.
  intros H%fits_iff H'%fits_iff. unfold encode_device_id.
  rewrite !lor_shiftl_add by lia. lia.
Qed.

(** The bytes hashed into a process key determine every component, although
    [boot_id] has no length prefix: the other three fields have fixed widths. *)
Lemma process_key_preimage_inj h b p s h' b' p' s' :
  fits 128 h = true -> fits 128 h' = true ->
  fits 32 p = true -> fits 32 p' = true ->
  fits 64 s = true -> fits 64 s' = true ->
  process_key_preimage h b p s = process_key_preimage h' b' p' s' ->
  h = h' /\ b = b' /\ p = p' /\ s = s'.
Proof.
  intros Hh Hh' Hp Hp' Hs Hs' H. unfold process_key_preimage in H.
  apply (prefix_free_be 16) in H as [-> H]; try done.
  rewrite !(app_assoc (bytes_of _)) in H.
  apply app_inj_2 in H as [H Hstart]; [|by rewrite !length_le_bytes].
  apply app_inj_2 in H as [H Hpid]; [|by rewrite !length_le_bytes].
  apply bytes_of_inj in H as ->.
  apply (f_equal of_le) in Hstart, Hpid.
  by rewrite !of_le_bytes_small in Hstart, Hpid.
Qed.

(** ** [alert.rs] *)

Inductive AlertStatus := Open | Acknowledged | Suppressed.
Inductive AlertError := NoRuleId | NoReasons | NoEvidence.

Record Alert := {
  alert_id : Uuid;
  alert_rule_id : string;
  alert_rule_version : Z;
  alert_rule_content_hash : string;
  alert_severity : Severity;
  alert_status : AlertStatus;
  alert_timestamp : Z;
  alert_host_id : Uuid;
  alert_reasons : list string;
  alert_evidence : list Uuid;
}.

Definition alert_validate (rule_id : string) (reasons : list string) (evidence : list Uuid)
  : outcome AlertError unit :=
  if is_blank rule_id then Err NoRuleId
  else if forallb is_blank reasons then Err NoReasons
  else match evidence with
       | [] => Err NoEvidence
       | _ => Ok tt
       end.

(** [Alert::new]; [id] is the fresh [Uuid::now_v7()]. *)
Definition alert_new (id : Uuid) (rule_id : string) (rule_version : Z)
    (rule_content_hash : string) (severity : Severity) (timestamp : Z) (host_id : Uuid)
    (reasons : list string) (evidence : list Uuid) : outcome AlertError Alert :=
  let? _ := alert_validate rule_id reasons evidence in
  Ok {| alert_id := id;
        alert_rule_id := rule_id;
        alert_rule_version := rule_version;
        alert_rule_content_hash := rule_content_hash;
        alert_severity := severity;
        alert_status := Open;
        alert_timestamp := timestamp;
        alert_host_id := host_id;
        alert_reasons := reasons;
        alert_evidence := evidence |}.

(** [set_status], the only mutation an alert allows. *)
Definition set_status (a : Alert) (st : AlertStatus) : Alert :=
  {| alert_id := alert_id a;
     alert_rule_id := alert_rule_id a;
     alert_rule_version := alert_rule_version a;
     alert_rule_content_hash := alert_rule_content_hash a;
     alert_severity := alert_severity a;
     alert_status := st;
     alert_timestamp := alert_timestamp a;
     alert_host_id := alert_host_id a;
     alert_reasons := alert_reasons a;
     alert_evidence := alert_evidence a |}.

(** What an existing alert guarantees. *)
Definition alert_ok (a : Alert) : bool :=
  is_ok (alert_validate (alert_rule_id a) (alert_reasons a) (alert_evidence a)).

Lemma alert_new_ok id r v h sev ts host reasons ev a :
  alert_new id r v h sev ts host reasons ev = Ok a ->
  alert_ok a = true /\ alert_rule_id a = r /\ alert_reasons a = reasons
  /\ alert_evidence a = ev /\ alert_timestamp a = ts /\ alert_severity a = sev
  /\ alert_status a = Open.
Proof.
  unfold alert_new, alert_ok.
  destruct (alert_validate r reasons ev) as [[]| |] eqn:E; simpl; try discriminate.
  intros [= <-]; simpl. by rewrite E.
Qed.

Lemma alert_validate_no_panic r reasons ev : no_panic (alert_validate r reasons ev).
Proof.
  unfold alert_validate, no_panic. destruct (is_blank r); [done|].
  destruct (forallb _ _); [done|]. by destruct ev.
Qed.

(** ** [entities.rs] and [envelope.rs] *)

Record CloudContext := {
  cloud_provider : string; cloud_instance_id : option string; cloud_region : option string }.
Record HostRef := {
  host_ref_id : Uuid; hostname : string; distro : string; kernel_version : string;
  host_cloud : option CloudContext }.
Record UserRef := {
  uid : Z; gid : Z; euid : Z; egid : Z; username : option string; loginuid : option Z }.
Record SessionRef := {
  session_id : string; tty : option string; remote_addr : option string;
  auth_method : option string }.
Record ProcessRef := {
  process_key : ProcessKey; pid : Z; exe_path : string; cmdline : list string;
  exe_hash : option string; start_time_mono : Z }.
Record ThreadRef := { tid : Z }.
Record FileRef := {
  file_path : string; previous_path : option string; inode : option Z; device_id : option Z;
  file_size : option Z; file_mode : option Z; owner_uid : option Z; owner_gid : option Z;
  file_hash : option string }.
Inductive NetworkDirection := Inbound | Outbound.
Record NetworkRef := {
  src_ip : string; src_port : Z; dst_ip : string; dst_port : Z; proto : string;
  direction : NetworkDirection; net_bytes : option Z }.
Record DnsRef := {
  dns_query : string; dns_qtype : string; response_ips : list string; dns_ttl : option Z }.
Record DeviceRef := { device_path : string }.
Record ServiceRef := { unit_name : string; unit_type : string; service_action : string }.
Record PodRef := { pod_name : string; pod_namespace : string }.
Record ContainerRef := {
  container_id : string; image : string; container_runtime : string; pod_ref : option PodRef }.
Record NamespaceRef := {
  pid_ns : Z; net_ns : Z; mnt_ns : Z; user_ns : Z; ipc_ns : Z; uts_ns : Z; cgroup_ns : Z }.
Inductive CgroupVersion := CgV1 | CgV2 | CgUnknown.
Record CgroupRef := { cgroup_path : string; cgroup_id : Z; cgroup_version : CgroupVersion }.
Record KernelRef := { module_name : option string; syscall_nr : option Z }.
Record RiskAnnotation := {
  ra_score : Z; ra_severity : Severity; ra_reasons : list string; ra_rule_ids : list string }.

Record CanonicalEvent `{JsonLib} := {
  event_id : Uuid;
  schema_version : string;
  ev_host_id : Uuid;
  boot_id : string;
  ev_timestamp : Z;
  monotonic_timestamp : Z;
  event_type : EventType;
  ev_category : Category;
  ev_severity : Severity;
  ev_host : HostRef;
  ev_user : option UserRef;
  ev_session : option SessionRef;
  ev_process : option ProcessRef;
  ev_parent_process : option ProcessRef;
  ev_thread : option ThreadRef;
  ev_file : option FileRef;
  ev_network : option NetworkRef;
  ev_dns : option DnsRef;
  ev_device : option DeviceRef;
  ev_service : option ServiceRef;
  ev_container : option ContainerRef;
  ev_namespace : option NamespaceRef;
  ev_cgroup : option CgroupRef;
  ev_kernel : option KernelRef;
  ev_source : Source;
  provider : string;
  raw_event : option (list byte);
  relationships : list EntityRelationship;
  tags : list string;
  ev_risk : option RiskAnnotation;
  event_data : json;
}.

(** [FileIdentity::from_file_ref]: both halves or nothing. *)
Definition from_file_ref (f : FileRef) : option FileIdentity :=
  match inode f, device_id f with
  | Some i, Some d => Some {| fi_inode := i; fi_device_id := d |}
  | _, _ => None
  end.

(** ** [risk.rs] *)

Record WeightedReason := { wr_label : string; wr_weight : Z; wr_evidence : Uuid }.

Record RiskScoreRecord := {
  rs_event_id : Uuid;
  rs_process_key : option ProcessKey;
  rs_host_id : Uuid;
  rs_timestamp : Z;
  rs_score : Z;
  rs_severity : Severity;
  rs_reasons : list WeightedReason;
  rs_related_events : list Uuid;
}.

(** An event with only the given parts, for the examples. *)
Definition sample_event `{JsonLib} (id ts : Z) (ty : EventType) (proc : option ProcessRef)
    (text : string) (data : json) : CanonicalEvent :=
  {| event_id := id; schema_version := "1"; ev_host_id := 7; boot_id := "b"; ev_timestamp := ts;
     monotonic_timestamp := ts; event_type := ty; ev_category := category ty;
     ev_severity := Info;
     ev_host := {| host_ref_id := 7; hostname := "h"; distro := "d"; kernel_version := "k";
                   host_cloud := None |};
     ev_user := None; ev_session := None; ev_process := proc; ev_parent_process := None;
     ev_thread := None; ev_file := None; ev_network := None; ev_dns := None; ev_device := None;
     ev_service := None; ev_container := None; ev_namespace := None; ev_cgroup := None;
     ev_kernel := None; ev_source := SEbpf; provider := text; raw_event := None;
     relationships := []; tags := []; ev_risk := None; event_data := data |}.

Definition sample_process (k : Z) : ProcessRef :=
  {| process_key := {| pk_bytes := be_bytes 16 k |}; pid := k; exe_path := "/bin/x"; cmdline := [];
     exe_hash := None; start_time_mono := 0 |}.
