(* ===== verification/Policy.v ===== *)
(** * Group policies: [crates/osiris-policy/src/lib.rs]

    Telemetry levels, field validation, the byte encoding shared by the policy
    hash and the signed command, the event filter, and the resolution of the
    policies of all groups of a host into one effective policy. *)

From S2P Require Import Prelude BTree Json Schema.

Inductive TelemetryLevel := Minimal | Standard | Detailed | Forensic.

#[global] Instance telemetry_level_eq_dec : EqDecision TelemetryLevel.
Proof. solve_decision. Defined.

Definition KNOWN_SENSORS : list string :=
  ["container"; "dns"; "filesystem"; "identity"; "network"; "persistence";
   "process_exec"; "systemd"].
Definition MIN_HEARTBEAT_SECS : Z := 10.
Definition MAX_HEARTBEAT_SECS : Z := 3600.

Definition code (l : TelemetryLevel) : Z :=
  match l with Minimal => 1 | Standard => 2 | Detailed => 3 | Forensic => 4 end.

Definition from_code (c : Z) : option TelemetryLevel :=
  if c =? 1 then Some Minimal
  else if c =? 2 then Some Standard
  else if c =? 3 then Some Detailed
  else if c =? 4 then Some Forensic
  else None.

(** The derived [Ord]: declaration order. *)
Definition level_geb (a b : TelemetryLevel) : bool := code b <=? code a.

Inductive PolicyError :=
| UnknownSensor (name : string)
| HeartbeatOutOfRange.

Definition known_sensor (n : string) : bool := existsb (String.eqb n) KNOWN_SENSORS.

Definition validate_fields (sensors : btree bool) (heartbeat : option Z)
  : outcome PolicyError unit :=
  match List.find (fun n => negb (known_sensor n)) (keys sensors) with
  | Some name => Err (UnknownSensor name)
  | None =>
      match heartbeat with
      | Some h =>
          if negb ((MIN_HEARTBEAT_SECS <=? h) && (h <=? MAX_HEARTBEAT_SECS))
          then Err HeartbeatOutOfRange else Ok tt
      | None => Ok tt
      end
  end.

Record GroupPolicy := {
  gp_telemetry_level : option TelemetryLevel;
  gp_sensors : btree bool;
  gp_heartbeat : option Z;
  gp_priority : Z;
}.

Definition group_policy_validate (p : GroupPolicy) : outcome PolicyError unit :=
  validate_fields (gp_sensors p) (gp_heartbeat p).

Record EffectivePolicy := {
  telemetry_level : option TelemetryLevel;
  sensors : btree bool;
  heartbeat_interval_secs : option Z;
}.

#[global] Instance effective_policy_eq_dec : EqDecision EffectivePolicy.
Proof. solve_decision. Defined.

Definition default_effective : EffectivePolicy :=
  {| telemetry_level := None; sensors := []; heartbeat_interval_secs := None |}.

Definition effective_validate (e : EffectivePolicy) : outcome PolicyError unit :=
  validate_fields (sensors e) (heartbeat_interval_secs e).

Definition is_empty (e : EffectivePolicy) : bool :=
  match telemetry_level e, sensors e, heartbeat_interval_secs e with
  | None, [], None => true
  | _, _, _ => false
  end.

(** ** The field encoding

    [u32::try_from(len).expect(..)] panics on a length of 2^32 or more. *)

Definition u32_len (n : nat) : outcome Empty_set (list byte) :=
  if fits 32 (Z.of_nat n) then Ok (be_bytes 4 (Z.of_nat n)) else Panic.

(** A 4-byte big-endian length, then the bytes. *)
Definition put_bytes (l : list byte) : outcome Empty_set (list byte) :=
  let? n := u32_len (List.length l) in
  Ok (n ++ l).

Definition bool_byte (b : bool) : byte := if b then Byte.x01 else Byte.x00.

Fixpoint encode_sensors (l : list (string * bool)) : outcome Empty_set (list byte) :=
  match l with
  | [] => Ok []
  | (name, enabled) :: l =>
      let? n := put_bytes (bytes_of name) in
      let? r := encode_sensors l in
      Ok (n ++ bool_byte enabled :: r)
  end.

Definition encode_heartbeat (h : option Z) : list byte :=
  match h with
  | None => [Byte.x00]
  | Some h => Byte.x01 :: be_bytes 8 h
  end.

Definition level_code (level : option TelemetryLevel) : Z :=
  match level with None => 0 | Some l => code l end.

Definition encode_fields (level : option TelemetryLevel) (sensors : list (string * bool))
    (heartbeat : option Z) : outcome Empty_set (list byte) :=
  let? n := u32_len (List.length sensors) in
  let? s := encode_sensors sensors in
  Ok (z2b (level_code level) :: n ++ s ++ encode_heartbeat heartbeat).

Definition policy_tag : list byte := bytes_of "osiris-policy-v1" ++ [Byte.x00].

Definition policy_hash `{Sha256} (e : EffectivePolicy) : outcome Empty_set (list byte) :=
  let? f := encode_fields (telemetry_level e) (sensors e) (heartbeat_interval_secs e) in
  Ok (sha256 (policy_tag ++ f)).

Definition hash_hex `{Sha256, HexCodec} (e : EffectivePolicy) : outcome Empty_set string :=
  let? h := policy_hash e in Ok (hex_encode h).

Definition empty_policy_hash_hex `{Sha256, HexCodec} : outcome Empty_set string :=
  hash_hex default_effective.

(** ** The event filter *)

Definition min_level (t : EventType) : option TelemetryLevel :=
  match t with
  | AgentHealth | SensorHealth | AgentStart | AgentStop => None
  | ProcessExec | ProcessExit | PrivilegeUidChange | PrivilegeGidChange
  | PrivilegeCapabilityChange | PrivilegeSudo | PrivilegeSetuid | SessionLogin
  | SessionLogout | PersistenceCreated | PersistenceModified | PersistenceRemoved
  | ServiceCreate | ServiceModify | ServiceDelete | ModuleLoad | ModuleUnload
  | ContainerCreate | ContainerStart | ContainerStop | ContainerDestroy
  | LsmDenial => Some Minimal
  | ProcessFork | SessionCreate | SessionTerminate | ServiceStart | ServiceStop
  | TimerCreate | TimerModify | NetworkConnect | NetworkAccept | NetworkClose | DnsQuery
  | FileCreate | FileDelete | FileRename | FileMove | FileExecute | FilePermissionChange
  | FileOwnerChange => Some Standard
  | FileModify | FileWrite | FileAttributeChange | SocketCreate | SocketBind | SocketListen
  | CapabilityUse => Some Detailed
  end.

Definition allows (level : option TelemetryLevel) (t : EventType) : bool :=
  match level, min_level t with
  | None, _ | _, None => true
  | Some level, Some min => level_geb level min
  end.

Definition includes_argv (level : option TelemetryLevel) : bool :=
  match level with
  | None => true
  | Some level => level_geb level Standard
  end.

(** ** Resolution *)

Inductive PolicyTier := Platform | Tenant.

Record FieldSource := { fs_group_id : Uuid; fs_tier : PolicyTier }.

Record GroupPolicyInput := {
  group_id : Uuid;
  group_tenant : option Uuid;
  policy : GroupPolicy;
}.

Record ResolvedPolicy := {
  effective : EffectivePolicy;
  level_source : option FieldSource;
  sensor_sources : btree FieldSource;
  heartbeat_source : option FieldSource;
}.

Definition default_resolved : ResolvedPolicy :=
  {| effective := default_effective; level_source := None; sensor_sources := [];
     heartbeat_source := None |}.

(** The tier of a group for a host, [None] when the group belongs to another
    tenant. *)
Definition tier_for (host_tenant : option Uuid) (i : GroupPolicyInput)
  : option (PolicyTier * GroupPolicyInput) :=
  match group_tenant i with
  | None => Some (Platform, i)
  | Some t => if decide (Some t = host_tenant) then Some (Tenant, i) else None
  end.

Definition rank (t : PolicyTier) : Z := match t with Platform => 0 | Tenant => 1 end.

(** The [sort_by] comparison: tier rank, then descending priority, then group
    id; "[a] is not after [b]". *)
Definition input_leb (a b : PolicyTier * GroupPolicyInput) : bool :=
  let '(ta, ia) := a in
  let '(tb, ib) := b in
  match Z.compare (rank ta) (rank tb) with
  | Lt => true
  | Gt => false
  | Eq =>
      match Z.compare (gp_priority (policy ib)) (gp_priority (policy ia)) with
      | Lt => true
      | Gt => false
      | Eq => group_id ia <=? group_id ib
      end
  end.

Definition ordered (host_tenant : option Uuid) (inputs : list GroupPolicyInput)
  : list (PolicyTier * GroupPolicyInput) :=
  sort_by input_leb (omap (tier_for host_tenant) inputs).

(** The inner loop over one input's sensors. *)
Definition merge_sensors (source : FieldSource) (new : btree bool)
    (acc : btree bool * btree FieldSource) : btree bool * btree FieldSource :=
  fold_left (fun acc p =>
    if bt_contains p.1 acc.1 then acc
    else (bt_insert p.1 p.2 acc.1, bt_insert p.1 source acc.2)) new acc.

(** One iteration of the merge loop. *)
Definition resolve_step (out : ResolvedPolicy) (x : PolicyTier * GroupPolicyInput)
  : ResolvedPolicy :=
  let '(tier, input) := x in
  let p := policy input in
  let source := {| fs_group_id := group_id input; fs_tier := tier |} in
  let '(level, lsrc) :=
    match telemetry_level (effective out), gp_telemetry_level p with
    | None, Some l => (Some l, Some source)
    | cur, _ => (cur, level_source out)
    end in
  let '(sens, ssrc) :=
    merge_sensors source (gp_sensors p) (sensors (effective out), sensor_sources out) in
  let '(hb, hsrc) :=
    match heartbeat_interval_secs (effective out), gp_heartbeat p with
    | None, Some h => (Some h, Some source)
    | cur, _ => (cur, heartbeat_source out)
    end in
  {| effective := {| telemetry_level := level; sensors := sens;
                     heartbeat_interval_secs := hb |};
     level_source := lsrc; sensor_sources := ssrc; heartbeat_source := hsrc |}.

Definition resolve (host_tenant : option Uuid) (inputs : list GroupPolicyInput)
  : ResolvedPolicy :=
  fold_left resolve_step (ordered host_tenant inputs) default_resolved.

(** ** The encoding is unambiguous *)

Lemma u32_len_ok n b :
  u32_len n = Ok b -> fits 32 (Z.of_nat n) = true /\ b = be_bytes 4 (Z.of_nat n).
Proof. unfold u32_len. destruct (fits 32 _); by intros [= <-]. Qed.

Lemma put_bytes_ok l b :
  put_bytes l = Ok b ->
  fits 32 (Z.of_nat (List.length l)) = true
  /\ b = be_bytes 4 (Z.of_nat (List.length l)) ++ l.
Proof.
  unfold put_bytes. intros (n & [Hf ->]%u32_len_ok & [= <-])%obind_ok. done.
Qed.

#[export] Instance prefix_free_put_bytes :
  PrefixFree (fun l : list byte => fits 32 (Z.of_nat (List.length l)) = true)
             (fun l => be_bytes 4 (Z.of_nat (List.length l)) ++ l).
Proof. apply (prefix_free_len (be_bytes 4) 32), (prefix_free_be 4). Qed.

(** Two length-prefixed fields in front of arbitrary rests. *)
Lemma put_bytes_inj l l' b b' r r' :
  put_bytes l = Ok b -> put_bytes l' = Ok b' -> b ++ r = b' ++ r' -> l = l' /\ r = r'.
Proof.
  intros [Hl ->]%put_bytes_ok [Hl' ->]%put_bytes_ok. by apply prefix_free_put_bytes.
Qed.

Lemma put_string_inj s s' b b' r r' :
  put_bytes (bytes_of s) = Ok b -> put_bytes (bytes_of s') = Ok b' ->
  b ++ r = b' ++ r' -> s = s' /\ r = r'.
Proof.
  intros H H' Heq. destruct (put_bytes_inj _ _ _ _ _ _ H H' Heq) as [E ->].
  by apply bytes_of_inj in E as ->.
Qed.

Lemma bool_byte_inj a b : bool_byte a = bool_byte b -> a = b.
Proof. by destruct a, b. Qed.

Lemma encode_sensors_inj l l' b b' r r' :
  List.length l = List.length l' ->
  encode_sensors l = Ok b -> encode_sensors l' = Ok b' ->
  b ++ r = b' ++ r' -> l = l' /\ r = r'.
Proof.
  revert l' b b'; induction l as [|[n e] l IH]; intros [|[n' e'] l'] b b' Hlen H H' Heq;
    try discriminate Hlen.
  - injection H as <-. injection H' as <-. done.
  - simpl in H, H'. apply obind_ok in H as (x & Hx & (y & Hy & [= <-])%obind_ok).
    apply obind_ok in H' as (x' & Hx' & (y' & Hy' & [= <-])%obind_ok).
    rewrite <- !app_assoc in Heq. simpl in Heq.
    destruct (put_string_inj _ _ _ _ _ _ Hx Hx' Heq) as [-> Heq'].
    apply cons_eq_inv in Heq' as [He Heq']. apply bool_byte_inj in He as ->.
    apply (IH l' y y') in Heq' as [-> ->]; auto.
Qed.

Definition heartbeat_fits (h : option Z) : bool :=
  match h with Some h => fits 64 h | None => true end.

Lemma encode_heartbeat_inj h h' r r' :
  heartbeat_fits h = true -> heartbeat_fits h' = true ->
  encode_heartbeat h ++ r = encode_heartbeat h' ++ r' -> h = h' /\ r = r'.
Proof.
  destruct h as [h|], h' as [h'|]; simpl; intros Hf Hf' [Hb Heq]%cons_eq_inv; try done.
  apply (prefix_free_be 8) in Heq as [-> ->]; done.
Qed.

Lemma level_code_inj l l' : z2b (level_code l) = z2b (level_code l') -> l = l'.
Proof. by destruct l as [[]|], l' as [[]|]. Qed.

Lemma encode_fields_inj l s h b l' s' h' b' r r' :
  encode_fields l s h = Ok b -> encode_fields l' s' h' = Ok b' ->
  heartbeat_fits h = true -> heartbeat_fits h' = true ->
  b ++ r = b' ++ r' -> l = l' /\ s = s' /\ h = h' /\ r = r'.
Proof.
  unfold encode_fields.
  intros (n & [Hn ->]%u32_len_ok & (x & Hx & [= <-])%obind_ok)%obind_ok
         (n' & [Hn' ->]%u32_len_ok & (x' & Hx' & [= <-])%obind_ok)%obind_ok Hh Hh' Heq.
  simpl in Heq. apply cons_eq_inv in Heq as [Hl Heq]. apply level_code_inj in Hl as ->.
  rewrite <- !app_assoc in Heq.
  apply (prefix_free_be 4) in Heq as [Hlen Heq]; try done. apply Nat2Z.inj in Hlen.
  rewrite <- ?app_assoc in Heq.
  destruct (encode_sensors_inj _ _ _ _ _ _ Hlen Hx Hx' Heq) as [-> Heq'].
  apply encode_heartbeat_inj in Heq' as [-> ->]; done.
Qed.

Lemma policy_hash_len `{Sha256} e h : policy_hash e = Ok h -> List.length h = 32%nat.
Proof. unfold policy_hash. intros (f & _ & [= <-])%obind_ok. apply sha256_len. Qed.

(** Codes and levels correspond. *)
Lemma from_code_code l : from_code (code l) = Some l.
Proof. by destruct l. Qed.

Lemma code_from_code c l : from_code c = Some l -> code l = c.
Proof.
  unfold from_code. repeat (case_match; [intros [= <-]; simpl; lia|]). done.
Qed.

Lemma policy_hash_collision `{Sha256} e1 e2 h :
  heartbeat_fits (heartbeat_interval_secs e1) = true ->
  heartbeat_fits (heartbeat_interval_secs e2) = true ->
  policy_hash e1 = Ok h -> policy_hash e2 = Ok h ->
  e1 = e2 \/ exists x y, x <> y /\ sha256 x = sha256 y.
Proof.
  unfold policy_hash. intros Hh1 Hh2 (f1 & H1 & [= <-])%obind_ok (f2 & H2 & [= Hs])%obind_ok.
  destruct (decide (f1 = f2)) as [->|Hne].
  - left. destruct (encode_fields_inj _ _ _ _ _ _ _ _ [] [] H1 H2 Hh1 Hh2 eq_refl)
      as (? & ? & ? & _). destruct e1, e2; simpl in *; congruence.
  - right. exists (policy_tag ++ f1), (policy_tag ++ f2). split; [|done].
    intros E%app_inv_head. done.
Qed.

(** ** Resolution: the merge loop picks the first group that defines a field *)

Fixpoint pick {A B} (f : A -> option B) (l : list A) : option B :=
  match l with
  | [] => None
  | x :: l => match f x with Some b => Some b | None => pick f l end
  end.

Lemma pick_none {A B} (f : A -> option B) l :
  pick f l = None <-> forall x, x ∈ l -> f x = None.
Proof.
  induction l as [|x l IH]; simpl.
  - split; [intros _ y Hy; by apply not_elem_of_nil in Hy|done].
  - destruct (f x) eqn:E; split.
    + done.
    + intros H. rewrite <- E. apply H. by left.
    + intros H y [->|Hy]%elem_of_cons; [done|]. by apply IH.
    + intros H. apply IH. intros y Hy. apply H. by right.
Qed.

(** In a sorted list the picked element precedes all others that qualify. *)
Lemma pick_sorted {A B} (R : A -> A -> Prop) (f : A -> option B) l b :
  (forall x, R x x) -> StronglySorted R l -> pick f l = Some b ->
  exists x, x ∈ l /\ f x = Some b /\ forall y, y ∈ l -> f y <> None -> R x y.
Proof.
  intros Hrefl Hs. induction Hs as [|x l Hs IH Hx]; simpl; [done|].
  destruct (f x) as [b'|] eqn:E.
  - intros [= ->]. exists x. split; [by left|]. split; [done|].
    intros y [->|Hy]%elem_of_cons _; [done|].
    rewrite Forall_forall in Hx. auto.
  - intros (z & Hz & Hf & Hmin)%IH. exists z. split; [by right|]. split; [done|].
    intros y [->|Hy]%elem_of_cons Hne; [done|]. auto.
Qed.

Definition source_of (x : PolicyTier * GroupPolicyInput) : FieldSource :=
  {| fs_group_id := group_id x.2; fs_tier := x.1 |}.

(** A field's value together with where it came from. *)
Definition field_of {A} (get : GroupPolicy -> option A) (x : PolicyTier * GroupPolicyInput)
  : option (A * FieldSource) :=
  match get (policy x.2) with Some a => Some (a, source_of x) | None => None end.

Lemma merge_sensors_get source new acc name :
  bt_get name (merge_sensors source new acc).1 =
    match bt_get name acc.1 with Some v => Some v | None => bt_get name new end
  /\ ((bt_get name acc.1 = None <-> bt_get name acc.2 = None) ->
      bt_get name (merge_sensors source new acc).2 =
        match bt_get name acc.1 with
        | Some _ => bt_get name acc.2
        | None => match bt_get name new with Some _ => Some source | None => None end
        end).
Proof.
  revert acc; induction new as [|[k v] new IH]; intros [s ss]; simpl.
  - destruct (bt_get name s) eqn:E; split; try done. intros H. by apply H.
  - unfold bt_contains. destruct (bt_get k s) as [w|] eqn:Ek.
    + destruct (IH (s, ss)) as [H1 H2]. simpl in H1, H2. unfold bt_contains in H1, H2.
      destruct (String.eqb_spec name k) as [->|Hne]; [|done].
      rewrite Ek in H1, H2 |- *. auto.
    + destruct (IH (bt_insert k v s, bt_insert k source ss)) as [H1 H2].
      simpl in H1, H2. unfold bt_contains in H1, H2.
      rewrite !(bt_get_insert (V := bool)) in H1, H2.
      rewrite !(bt_get_insert (V := FieldSource)) in H2.
      destruct (String.eqb_spec name k) as [->|Hne].
      * rewrite Ek. split; [done|]. intros _. by apply H2.
      * split; [done|]. intros H. by apply H2.
Qed.

Definition sensor_get (name : string) (p : GroupPolicy) : option bool :=
  bt_get name (gp_sensors p).

(** What the accumulator holds, for each of the three kinds of field. *)
Definition res_level (r : ResolvedPolicy) := (telemetry_level (effective r), level_source r).
Definition res_heartbeat (r : ResolvedPolicy) :=
  (heartbeat_interval_secs (effective r), heartbeat_source r).
Definition res_sensor (name : string) (r : ResolvedPolicy) :=
  (bt_get name (sensors (effective r)), bt_get name (sensor_sources r)).

(** A value and its source are set together. *)
Definition paired {A} (p : option A * option FieldSource) : Prop :=
  p.1 = None <-> p.2 = None.

Definition fill {A} (p : option A * option FieldSource) (q : option (A * FieldSource))
  : option A * option FieldSource :=
  match p.1 with
  | Some _ => p
  | None => (option_map fst q, option_map snd q)
  end.

Lemma resolve_step_fields out x name :
  paired (res_level out) -> paired (res_heartbeat out) -> paired (res_sensor name out) ->
  res_level (resolve_step out x) = fill (res_level out) (field_of gp_telemetry_level x)
  /\ res_heartbeat (resolve_step out x) = fill (res_heartbeat out) (field_of gp_heartbeat x)
  /\ res_sensor name (resolve_step out x)
     = fill (res_sensor name out) (field_of (sensor_get name) x).
Proof.
  destruct x as [tier i], out as [[lv se hb] ls ss hs].
  unfold paired, res_level, res_heartbeat, res_sensor, fill, field_of, sensor_get,
    source_of; simpl.
  intros Hl Hh Hs.
  pose proof (merge_sensors_get {| fs_group_id := group_id i; fs_tier := tier |}
                (gp_sensors (policy i)) (se, ss) name) as [M1 M2].
  simpl in M1, M2. specialize (M2 Hs).
  destruct (merge_sensors _ _ _) as [se' ss'] eqn:EM; simpl in M1, M2.
  destruct lv as [lv|], (gp_telemetry_level (policy i)) as [l|] eqn:El;
    destruct hb as [hb|], (gp_heartbeat (policy i)) as [h|] eqn:Eh;
    simpl; rewrite ?M1, ?M2;
    destruct (bt_get name se), (bt_get name (gp_sensors (policy i)));
    simpl; repeat split; auto;
    repeat match goal with
           | H : None = None <-> ?y = None |- _ => rewrite (proj1 H eq_refl); clear H
           end; done.
Qed.

Lemma fill_paired {A} (p : option A * option FieldSource) q : paired p -> paired (fill p q).
Proof.
  unfold paired, fill. destruct p as [[a|] [s|]], q as [[a' s']|]; simpl; intros; try done;
    naive_solver.
Qed.

Lemma fill_pick {A B} (p : option A * option FieldSource) (f : B -> option (A * FieldSource))
    (x : B) l :
  fill (fill p (f x)) (pick f l) = fill p (pick f (x :: l)).
Proof. unfold fill. destruct p as [[a|] s]; simpl; [done|]. by destruct (f x) as [[]|]. Qed.

Lemma resolve_fold_fields name l out :
  paired (res_level out) -> paired (res_heartbeat out) -> paired (res_sensor name out) ->
  let r := fold_left resolve_step l out in
  res_level r = fill (res_level out) (pick (field_of gp_telemetry_level) l)
  /\ res_heartbeat r = fill (res_heartbeat out) (pick (field_of gp_heartbeat) l)
  /\ res_sensor name r = fill (res_sensor name out) (pick (field_of (sensor_get name)) l).
Proof.
  revert out; induction l as [|x l IH]; intros out Hl Hh Hs; cbn [fold_left].
  - assert (forall A (p : option A * option FieldSource), paired p -> p = fill p None) as E.
    { intros A [[a|] s] H; unfold paired, fill in *; simpl in *; [done|].
      f_equal. by apply H. }
    cbn [pick]. auto.
  - destruct (resolve_step_fields out x name Hl Hh Hs) as (El & Eh & Es).
    destruct (IH (resolve_step out x)) as (IHl & IHh & IHs);
      rewrite ?El, ?Eh, ?Es; try by apply fill_paired.
    rewrite IHl, IHh, IHs, El, Eh, Es, !fill_pick. done.
Qed.

(** The field equations of [resolve]. *)
Lemma resolve_fields t inputs name :
  let r := resolve t inputs in
  let l := ordered t inputs in
  res_level r = fill (None, None) (pick (field_of gp_telemetry_level) l)
  /\ res_heartbeat r = fill (None, None) (pick (field_of gp_heartbeat) l)
  /\ res_sensor name r = fill (None, None) (pick (field_of (sensor_get name)) l).
Proof. by apply resolve_fold_fields. Qed.

(** [a] takes precedence over [b]: platform groups before tenant groups, then
    the higher priority, then the smaller group id. *)
Definition precedes (a b : PolicyTier * GroupPolicyInput) : Prop :=
  rank a.1 < rank b.1
  \/ (rank a.1 = rank b.1 /\
      (gp_priority (policy b.2) < gp_priority (policy a.2)
       \/ (gp_priority (policy b.2) = gp_priority (policy a.2)
           /\ group_id a.2 <= group_id b.2))).

Lemma input_leb_precedes a b : input_leb a b = true <-> precedes a b.
Proof.
  destruct a as [ta ia], b as [tb ib]; unfold precedes; simpl.
  destruct (Z.compare_spec (rank ta) (rank tb)); [|split; [by left|done]|split; [done|lia]].
  destruct (Z.compare_spec (gp_priority (policy ib)) (gp_priority (policy ia)));
    [rewrite Z.leb_le; lia|split; [lia|done]|split; [done|lia]].
Qed.

Lemma input_leb_trans x y z :
  input_leb x y = true -> input_leb y z = true -> input_leb x z = true.
Proof. rewrite !input_leb_precedes. unfold precedes. lia. Qed.

Lemma input_leb_total x y : input_leb x y = true \/ input_leb y x = true.
Proof. rewrite !input_leb_precedes. unfold precedes. lia. Qed.

Lemma ordered_sorted t inputs : StronglySorted precedes (ordered t inputs).
Proof.
  unfold ordered. pose proof (sort_by_sorted input_leb input_leb_trans input_leb_total
    (omap (tier_for t) inputs)) as Hs.
  induction Hs as [|x l Hs IH Hx]; constructor; [done|].
  eapply Forall_impl; [exact Hx|]. intros y. apply input_leb_precedes.
Qed.

Lemma tier_for_snd t i x : tier_for t i = Some x -> x.2 = i.
Proof.
  unfold tier_for. destruct (group_tenant i); [case_decide|]; by intros [= <-].
Qed.

Lemma elem_of_ordered t inputs x :
  x ∈ ordered t inputs <-> x.2 ∈ inputs /\ tier_for t x.2 = Some x.
Proof.
  unfold ordered. rewrite sort_by_perm, list_elem_of_omap. split.
  - intros (i & Hi & Ht). pose proof (tier_for_snd _ _ _ Ht) as <-. done.
  - intros [Hi Ht]. eauto.
Qed.

(** [wins t inputs get v src]: [v] with source [src] is the value of the field
    [get] taken from the applicable group that defines it and precedes every
    other applicable group that defines it; both are absent when no applicable
    group defines it. *)
Definition wins {A} (t : option Uuid) (inputs : list GroupPolicyInput)
    (get : GroupPolicy -> option A) (p : option A * option FieldSource) : Prop :=
  match p with
  | (Some a, Some s) =>
      exists x, x.2 ∈ inputs /\ tier_for t x.2 = Some x /\ get (policy x.2) = Some a
        /\ s = source_of x
        /\ forall y, y.2 ∈ inputs -> tier_for t y.2 = Some y ->
             get (policy y.2) <> None -> precedes x y
  | (None, None) =>
      forall y, y.2 ∈ inputs -> tier_for t y.2 = Some y -> get (policy y.2) = None
  | _ => False
  end.

Lemma field_of_none {A} (get : GroupPolicy -> option A) x :
  field_of get x = None <-> get (policy x.2) = None.
Proof. unfold field_of. by destruct (get (policy x.2)). Qed.

Lemma pick_wins {A} t inputs (get : GroupPolicy -> option A) :
  wins t inputs get (fill (None, None) (pick (field_of get) (ordered t inputs))).
Proof.
  unfold fill; simpl. destruct (pick _ _) as [[a s]|] eqn:E; simpl.
  - apply (pick_sorted precedes) in E; [|unfold precedes; lia|apply ordered_sorted].
    destruct E as (x & Hx & Hf & Hmin). apply elem_of_ordered in Hx as [Hin Ht].
    exists x. unfold field_of in Hf. destruct (get (policy x.2)) eqn:Eg; simplify_eq.
    repeat split; auto. intros y Hy Hty Hne. apply Hmin; [by apply elem_of_ordered|].
    by rewrite field_of_none.
  - rewrite pick_none in E. intros y Hy Hty. apply field_of_none, E.
    by apply elem_of_ordered.
Qed.

(** C22. Resolution picks, for the telemetry level, the heartbeat interval and
    every sensor switch separately, the value of the applicable group of
    highest precedence that defines it (platform before tenant, then higher
    priority, then smaller id), records that group as the source, and leaves
    the field unset exactly when no applicable group defines it. *)
Theorem resolve_precedence t inputs :
  wins t inputs gp_telemetry_level (res_level (resolve t inputs))
  /\ wins t inputs gp_heartbeat (res_heartbeat (resolve t inputs))
  /\ forall name, wins t inputs (sensor_get name) (res_sensor name (resolve t inputs)).
Proof.
  split; [|split; [|intros name]].
  - destruct (resolve_fields t inputs "") as (-> & _ & _). apply pick_wins.
  - destruct (resolve_fields t inputs "") as (_ & -> & _). apply pick_wins.
  - destruct (resolve_fields t inputs name) as (_ & _ & ->). apply pick_wins.
Qed.

(** The groups of a host can be listed in any order: with distinct group
    ids, [resolve] gives the same policy with the same sources. *)
Lemma resolve_order_independent t inputs inputs' :
  NoDup (map group_id inputs) -> inputs ≡ₚ inputs' ->
  resolve t inputs = resolve t inputs'.
Proof.
  intros Hnd Hp. unfold resolve, ordered. f_equal.
  apply (sort_by_unique _ input_leb_trans input_leb_total); [|by rewrite Hp].
  intros x y. rewrite !list_elem_of_omap. intros (i & Hi & Hx) (j & Hj & Hy) L1 L2.
  rewrite input_leb_precedes in L1, L2.
  pose proof (tier_for_snd _ _ _ Hx) as Ei. pose proof (tier_for_snd _ _ _ Hy) as Ej.
  assert (group_id i = group_id j) as Hid.
  { subst. unfold precedes in L1, L2. lia. }
  assert (i = j) as ->; [|congruence].
  apply list_elem_of_lookup in Hi as [ni Hi], Hj as [nj Hj].
  assert (ni = nj); [|naive_solver].
  eapply (NoDup_lookup (map group_id inputs)); [exact Hnd| |].
  - change (map group_id inputs) with (group_id <$> inputs).
    rewrite list_lookup_fmap, Hi. done.
  - change (map group_id inputs) with (group_id <$> inputs).
    rewrite list_lookup_fmap, Hj, Hid. done.
Qed.

Definition relevant (t : option Uuid) (i : GroupPolicyInput) : bool :=
  match tier_for t i with Some _ => true | None => false end.

Lemma resolve_relevant t inputs : resolve t inputs = resolve t (List.filter (relevant t) inputs).
Proof.
  unfold resolve, ordered. do 2 f_equal. induction inputs as [|i inputs IH]; [done|].
  cbn [List.filter]. unfold relevant at 1. cbn [omap list_omap]. destruct (tier_for t i) eqn:E; cbn; [|done].
  by rewrite E, IH.
Qed.

(** Groups of other tenants do not matter, nor does the order. *)
Lemma resolve_ext t inputs inputs' :
  NoDup (map group_id inputs) -> NoDup (map group_id inputs') ->
  (forall i, relevant t i = true -> i ∈ inputs <-> i ∈ inputs') ->
  resolve t inputs = resolve t inputs'.
Proof.
  intros Hn Hn' Hi. rewrite (resolve_relevant t inputs), (resolve_relevant t inputs').
  assert (forall l, NoDup (map group_id l) -> NoDup (List.filter (relevant t) l)) as Hf.
  { intros l Hl. eapply (NoDup_fmap_1 group_id). by apply filter_nodup. }
  apply resolve_order_independent; [by apply filter_nodup|].
  apply NoDup_Permutation; [by apply Hf..|]. intros i. rewrite !elem_of_filter_b. naive_solver.
Qed.

(** Two groups of one host: a platform group and a tenant group of higher priority. *)
Definition sample_groups : list GroupPolicyInput :=
  [{| group_id := 2; group_tenant := None;
      policy := {| gp_telemetry_level := Some Minimal; gp_sensors := [("dns", true)];
                   gp_heartbeat := None; gp_priority := 1 |} |};
   {| group_id := 1; group_tenant := Some 9;
      policy := {| gp_telemetry_level := Some Forensic; gp_sensors := [("dns", false); ("network", true)];
                   gp_heartbeat := Some 60; gp_priority := 50 |} |}].

Lemma resolve_order_independent_witness :
  resolve (Some 9) sample_groups = resolve (Some 9) (rev sample_groups)
  /\ effective (resolve (Some 9) sample_groups)
     = {| telemetry_level := Some Minimal; sensors := [("dns", true); ("network", true)];
          heartbeat_interval_secs := Some 60 |}.
Proof.
  split; [|vm_compute; reflexivity].
  apply (resolve_order_independent (Some 9) sample_groups (rev sample_groups)).
  - simpl. apply NoDup_cons. split; [set_solver|apply NoDup_singleton].
  - apply perm_swap.
Defined.

(** ** Validity *)

Definition heartbeat_in_range (h : option Z) : bool :=
  match h with
  | Some h => (MIN_HEARTBEAT_SECS <=? h) && (h <=? MAX_HEARTBEAT_SECS)
  | None => true
  end.

Lemma validate_fields_ok s h :
  validate_fields s h = Ok tt <->
  (forall k, In k (keys s) -> known_sensor k = true) /\ heartbeat_in_range h = true.
Proof.
  unfold validate_fields, heartbeat_in_range.
  destruct (List.find _ (keys s)) as [n|] eqn:E.
  - apply List.find_some in E as [Hin Hn]. split; [done|]. intros [H _].
    by rewrite (H n Hin) in Hn.
  - assert (forall k, In k (keys s) -> known_sensor k = true) as Hk.
    { intros k Hin. pose proof (List.find_none _ _ E k Hin) as Hn. simpl in Hn.
      by apply negb_false_iff in Hn. }
    destruct h as [h|]; [|by intuition].
    destruct ((_ <=? h) && _); simpl; intuition congruence.
Qed.

Lemma validate_fields_no_panic s h : no_panic (validate_fields s h).
Proof. unfold validate_fields. no_panics. Qed.

Lemma merge_sensors_sorted source new acc :
  keys_sorted acc.1 = true -> keys_sorted (merge_sensors source new acc).1 = true.
Proof.
  revert acc; induction new as [|[k v] new IH]; intros [s ss] Hs; [done|].
  change (merge_sensors source ((k, v) :: new) (s, ss)) with
    (merge_sensors source new
       (if bt_contains k s then (s, ss) else (bt_insert k v s, bt_insert k source ss))).
  apply IH. destruct (bt_contains k s); simpl; [done|]. by apply bt_insert_sorted.
Qed.

Lemma resolve_sensors_sorted t inputs :
  keys_sorted (sensors (effective (resolve t inputs))) = true.
Proof.
  unfold resolve.
  assert (forall l out, keys_sorted (sensors (effective out)) = true ->
    keys_sorted (sensors (effective (fold_left resolve_step l out))) = true) as H;
    [|by apply H].
  induction l as [|[tier i] l IH]; intros out Hs; [done|]. cbn [fold_left]. apply IH.
  pose proof (merge_sensors_sorted {| fs_group_id := group_id i; fs_tier := tier |}
                (gp_sensors (policy i)) (sensors (effective out), sensor_sources out) Hs) as Hm.
  unfold resolve_step.
  destruct (merge_sensors _ _ _) as [se' ss']; simpl in Hm.
  by destruct (telemetry_level (effective out)), (gp_telemetry_level (policy i)),
    (heartbeat_interval_secs (effective out)), (gp_heartbeat (policy i)).
Qed.

Lemma wins_defined {A} t inputs (get : GroupPolicy -> option A) a s :
  wins t inputs get (Some a, s) -> exists i, i ∈ inputs /\ get (policy i) = Some a.
Proof. destruct s; simpl; [|done]. intros (x & ? & ? & ? & _). eauto. Qed.

(** Merging valid group policies gives a valid effective policy whose
    sensor map is well formed: what the server resolves always passes the
    validation the agent repeats. *)
Lemma resolve_valid t inputs :
  (forall i, i ∈ inputs -> group_policy_validate (policy i) = Ok tt) ->
  effective_validate (effective (resolve t inputs)) = Ok tt
  /\ keys_sorted (sensors (effective (resolve t inputs))) = true.
Proof.
  intros Hv. split; [|apply resolve_sensors_sorted]. apply validate_fields_ok. split.
  - intros k Hk.
    destruct (resolve_fields t inputs k) as (_ & _ & E).
    pose proof (pick_wins t inputs (sensor_get k)) as W. rewrite <- E in W.
    unfold res_sensor in W.
    destruct (bt_get k (sensors (effective (resolve t inputs)))) as [v|] eqn:Eg.
    + apply wins_defined in W as (i & Hi & Hg).
      apply Hv, validate_fields_ok in Hi as [Hi _]. apply Hi.
      apply bt_get_in in Hg. apply (in_map fst _ _ Hg).
    + by apply bt_get_none in Eg.
  - destruct (resolve_fields t inputs "") as (_ & E & _).
    pose proof (pick_wins t inputs gp_heartbeat) as W. rewrite <- E in W.
    unfold res_heartbeat in W.
    destruct (heartbeat_interval_secs _) as [h|]; [|done].
    apply wins_defined in W as (i & Hi & Hg).
    apply Hv, validate_fields_ok in Hi as [_ Hi]. by rewrite Hg in Hi.
Qed.

Lemma resolve_valid_witness :
  effective_validate (effective (resolve (Some 9) sample_groups)) = Ok tt.
Proof.
  apply (resolve_valid (Some 9) sample_groups).
  intros i Hi. apply list_elem_of_In in Hi as [<-|[<-|[]]]; reflexivity.
Defined.

(** Raising the telemetry level never drops an event type: everything
    emitted at a level is emitted at every higher level and when no level is
    set; agent and sensor health events are emitted at every level; and
    [Forensic] emits everything. *)
Lemma allows_monotone l1 l2 t :
  (level_geb l2 l1 = true -> allows (Some l1) t = true -> allows (Some l2) t = true)
  /\ allows None t = true
  /\ (category t = CSystem -> allows (Some l1) t = true)
  /\ allows (Some Forensic) t = true
  /\ (includes_argv (Some l1) = true -> level_geb l2 l1 = true ->
      includes_argv (Some l2) = true).
Proof.
  unfold allows, includes_argv, level_geb.
  repeat split; destruct t; simpl; try done; destruct l1, l2; done.
Qed.
