(* ===== verification/Envelope.v ===== *)
(** * Signed commands: [crates/osiris-command/src/envelope.rs]

    The command a server signs and an agent verifies, its canonical byte
    encoding, and the policy payload of [ApplyPolicy]. *)

From S2P Require Import Prelude BTree Concrete Json Schema Policy.

(** ** [ed25519-dalek]: documented behaviour only, nothing about forgeries *)

Class Ed25519 := {
  SigningKey : Type;
  VerifyingKey : Type;
  Signature : Type;
  verifying_key : SigningKey -> VerifyingKey;
  ed_sign : SigningKey -> list byte -> Signature;
  sig_to_bytes : Signature -> list byte;
  sig_from_slice : list byte -> option Signature;
  verify_strict : VerifyingKey -> list byte -> Signature -> bool;
  sig_from_to s : sig_from_slice (sig_to_bytes s) = Some s;
  sig_slice_len l s : sig_from_slice l = Some s -> List.length l = 64%nat;
  verify_signed k m : verify_strict (verifying_key k) m (ed_sign k m) = true;
}.

Inductive CommandError := BadSignature.

Record PolicyPayload := {
  pp_telemetry_level : option TelemetryLevel;
  pp_sensors : list (string * bool);
  pp_heartbeat : option Z;
  pp_policy_hash : list byte;
}.

Inductive CommandAction :=
| TerminateProcess (pid : Z) (exe_path : string) (observed_at_ns : Z)
| QuarantineFile (path : string) (inode device_id : Z)
| RestoreFile (quarantine_id : Uuid)
| ApplyPolicy (policy : PolicyPayload).

Record Command := {
  command_id : Uuid;
  cmd_host_id : Uuid;
  action : CommandAction;
  dry_run : bool;
  issued_at_ms : Z;
  expires_at_ms : Z;
  nonce : list byte;
  actor : string;
  reason : string;
}.

Record SignedCommand := { command : Command; signature : list byte }.

(** ** The policy payload *)

Section Payload.
Context `{Sha256}.

Definition from_effective (e : EffectivePolicy) : outcome Empty_set PolicyPayload :=
  let? h := policy_hash e in
  Ok {| pp_telemetry_level := telemetry_level e;
        pp_sensors := sensors e;
        pp_heartbeat := heartbeat_interval_secs e;
        pp_policy_hash := h |}.

(** [iter().cloned().collect::<BTreeMap<_, _>>()]. *)
Definition collect_btree (l : list (string * bool)) : btree bool :=
  fold_left (fun m p => bt_insert p.1 p.2 m) l [].

Definition policy_error_text (e : PolicyError) : string :=
  match e with
  | UnknownSensor n => "unknown sensor: " +:+ n
  | HeartbeatOutOfRange => "heartbeat_interval_secs must be between 10 and 3600"
  end.

(** An infallible call inside a fallible one. *)
Definition lift {E A} (m : outcome Empty_set A) : outcome E A :=
  omap_err (fun x : Empty_set => match x with end) m.

Definition to_effective (p : PolicyPayload) : outcome string EffectivePolicy :=
  if negb (keys_sorted (pp_sensors p)) then
    Err "sensors must be sorted by name and unique"
  else
    let e := {| telemetry_level := pp_telemetry_level p;
                sensors := collect_btree (pp_sensors p);
                heartbeat_interval_secs := pp_heartbeat p |} in
    let? _ := omap_err policy_error_text (effective_validate e) in
    let? h := lift (policy_hash e) in
    if negb (bool_decide (h = pp_policy_hash p)) then
      Err "policy_hash does not match policy content"
    else Ok e.

(** Collecting a sorted list gives it back. *)
Lemma bt_insert_last k v (m : btree bool) :
  Forall (fun k' => str_ltb k' k = true) (keys m) -> bt_insert k v m = m ++ [(k, v)].
Proof.
  induction m as [|[k' v'] m IH]; simpl; intros Hf; [done|].
  inversion Hf as [|? ? Hk Hf']; subst.
  rewrite (str_ltb_asym _ _ Hk).
  destruct (String.eqb_spec k k') as [->|_]; [by rewrite str_ltb_irrefl in Hk|].
  by rewrite IH.
Qed.

Lemma keys_app {V} (l m : btree V) : keys (l ++ m) = keys l ++ keys m.
Proof. apply map_app. Qed.

Lemma collect_sorted_aux l : forall acc : btree bool,
  keys_sorted (acc ++ l) = true ->
  fold_left (fun m p => bt_insert p.1 p.2 m) l acc = acc ++ l.
Proof.
  induction l as [|[k v] l IH]; intros acc Hs; simpl; [by rewrite app_nil_r|].
  rewrite bt_insert_last.
  - rewrite IH; rewrite <- app_assoc; done.
  - clear IH. induction acc as [|[k' v'] acc IHacc]; [constructor|].
    simpl app in Hs. apply keys_sorted_cons in Hs as [Hf Hs]. simpl.
    rewrite keys_app, Forall_app in Hf. destruct Hf as [_ Hf].
    constructor; [by inversion Hf|]. by apply IHacc.
Qed.

Lemma collect_sorted l : keys_sorted l = true -> collect_btree l = l.
Proof. apply (collect_sorted_aux l []). Qed.

Lemma lift_ok {E A} (m : outcome Empty_set A) a : lift (E := E) m = Ok a <-> m = Ok a.
Proof. destruct m as [|[]|]; simpl; split; congruence. Qed.

Lemma omap_err_ok {E F A} (f : E -> F) (m : outcome E A) a :
  omap_err f m = Ok a <-> m = Ok a.
Proof. destruct m; simpl; split; congruence. Qed.

(** What [to_effective] accepts, exactly. *)
Lemma to_effective_ok p e :
  to_effective p = Ok e <->
  keys_sorted (sensors e) = true /\ effective_validate e = Ok tt
  /\ from_effective e = Ok p.
Proof.
  unfold to_effective, from_effective. split.
  - destruct (keys_sorted (pp_sensors p)) eqn:Hs; simpl; [|done].
    rewrite collect_sorted by done.
    intros ([] & Hv%omap_err_ok & Hrest)%obind_ok.
    apply obind_ok in Hrest as (h & Hh%lift_ok & Hrest).
    case_bool_decide as Hd; simpl in Hrest; [|done]. injection Hrest as <-.
    split; [done|]. split; [done|]. rewrite Hh. simpl. rewrite Hd. by destruct p.
  - intros (Hs & Hv & (h & Hh & [= <-])%obind_ok). simpl.
    rewrite Hs. simpl. rewrite collect_sorted by done.
    destruct e as [l s hb]; simpl in *. rewrite Hv. simpl.
    rewrite (proj2 (lift_ok _ h) Hh). simpl. by rewrite bool_decide_true.
Qed.

End Payload.

(** ** Canonical bytes *)

Definition cmd_tag : list byte := bytes_of "osiris-cmd-v1" ++ [Byte.x00].

Definition action_bytes (a : CommandAction) : outcome Empty_set (list byte) :=
  match a with
  | TerminateProcess pid exe_path observed_at_ns =>
      let? e := put_bytes (bytes_of exe_path) in
      Ok (Byte.x01 :: be_bytes 4 pid ++ e ++ be_bytes 8 observed_at_ns)
  | QuarantineFile path inode device_id =>
      let? p := put_bytes (bytes_of path) in
      Ok (Byte.x02 :: p ++ be_bytes 8 inode ++ be_bytes 8 device_id)
  | RestoreFile quarantine_id => Ok (Byte.x03 :: uuid_as_bytes quarantine_id)
  | ApplyPolicy policy =>
      let? f := encode_fields (pp_telemetry_level policy) (pp_sensors policy)
                              (pp_heartbeat policy) in
      Ok (Byte.x04 :: f ++ pp_policy_hash policy)
  end.

Definition canonical_bytes (c : Command) : outcome Empty_set (list byte) :=
  let? a := action_bytes (action c) in
  let? ac := put_bytes (bytes_of (actor c)) in
  let? re := put_bytes (bytes_of (reason c)) in
  Ok (cmd_tag
      ++ uuid_as_bytes (command_id c)
      ++ uuid_as_bytes (cmd_host_id c)
      ++ [bool_byte (dry_run c)]
      ++ be_bytes 8 (issued_at_ms c)
      ++ be_bytes 8 (expires_at_ms c)
      ++ nonce c
      ++ a ++ ac ++ re).

Section Sign.
Context `{Ed25519}.

Definition sign (cmd : Command) (key : SigningKey) : outcome Empty_set SignedCommand :=
  let? b := canonical_bytes cmd in
  Ok {| command := cmd; signature := sig_to_bytes (ed_sign key b) |}.

Definition verify (sc : SignedCommand) (key : VerifyingKey) : outcome CommandError unit :=
  let? sig := ok_or (sig_from_slice (signature sc)) BadSignature in
  let? b := lift (canonical_bytes (command sc)) in
  if verify_strict key b sig then Ok tt else Err BadSignature.

End Sign.

(** The values the Rust types can hold. *)
Definition payload_ok (p : PolicyPayload) : bool :=
  heartbeat_fits (pp_heartbeat p) && (List.length (pp_policy_hash p) =? 32)%nat.

Definition action_ok (a : CommandAction) : bool :=
  match a with
  | TerminateProcess pid _ obs => fits 32 pid && fits 64 obs
  | QuarantineFile _ i d => fits 64 i && fits 64 d
  | RestoreFile q => fits 128 q
  | ApplyPolicy p => payload_ok p
  end.

Definition command_ok (c : Command) : bool :=
  fits 128 (command_id c) && fits 128 (cmd_host_id c) && action_ok (action c)
  && fits 64 (issued_at_ms c) && fits 64 (expires_at_ms c)
  && (List.length (nonce c) =? 16)%nat.

Lemma action_bytes_inj a a' b b' r r' :
  action_ok a = true -> action_ok a' = true ->
  action_bytes a = Ok b -> action_bytes a' = Ok b' ->
  b ++ r = b' ++ r' -> a = a' /\ r = r'.
Proof.
  destruct a as [p e o|p i d|q|pp], a' as [p' e' o'|p' i' d'|q'|pp'];
    cbn [action_ok action_bytes]; intros Hok Hok' Hb Hb';
    repeat match goal with
      | H : _ && _ = true |- _ => apply andb_true_iff in H as [? ?]
      | H : obind _ _ = Ok _ |- _ => apply obind_ok in H as (? & ? & ?)
      | H : Ok _ = Ok _ |- _ => injection H as <-
      end;
    simpl; intros [Ht Heq]%cons_eq_inv; try discriminate Ht; clear Ht;
    rewrite <- ?app_assoc in Heq.
  - apply (prefix_free_be 4) in Heq as [-> Heq]; try done.
    rewrite <- ?app_assoc in Heq.
    eapply put_string_inj in Heq as [-> Heq]; try eassumption.
    apply (prefix_free_be 8) in Heq as [-> ->]; done.
  - eapply put_string_inj in Heq as [-> Heq]; try eassumption.
    apply (prefix_free_be 8) in Heq as [-> Heq]; try done.
    apply (prefix_free_be 8) in Heq as [-> ->]; done.
  - apply (prefix_free_be 16) in Heq as [-> ->]; done.
  - unfold payload_ok in Hok, Hok'.
    apply andb_true_iff in Hok as [Hh Hl], Hok' as [Hh' Hl'].
    apply Nat.eqb_eq in Hl, Hl'.
    eapply encode_fields_inj in Heq as (E1 & E2 & E3 & Heq); try eassumption.
    apply app_inj_1 in Heq as [E4 ->]; [|congruence].
    split; [|done]. f_equal. destruct pp, pp'; simpl in *; congruence.
Qed.

(** Different commands have different canonical bytes. *)
Lemma canonical_bytes_inj c c' b :
  command_ok c = true -> command_ok c' = true ->
  canonical_bytes c = Ok b -> canonical_bytes c' = Ok b -> c = c'.
Proof.
  unfold command_ok. rewrite !andb_true_iff, !Nat.eqb_eq.
  intros (((((Hi & Hh) & Ha) & His) & Hex) & Hn) (((((Hi' & Hh') & Ha') & His') & Hex') & Hn').
  unfold canonical_bytes.
  intros (a & Ea & (x & Ex & (y & Ey & Hb)%obind_ok)%obind_ok)%obind_ok.
  intros (a' & Ea' & (x' & Ex' & (y' & Ey' & Hb')%obind_ok)%obind_ok)%obind_ok.
  rewrite <- Hb' in Hb. clear b Hb'. apply ok_inj, app_inv_head in Hb.
  apply (prefix_free_be 16) in Hb as [E1 Hb]; try done.
  apply (prefix_free_be 16) in Hb as [E2 Hb]; try done.
  apply cons_eq_inv in Hb as [E3%bool_byte_inj Hb].
  apply (prefix_free_be 8) in Hb as [E4 Hb]; try done.
  apply (prefix_free_be 8) in Hb as [E5 Hb]; try done.
  apply app_inj_1 in Hb as [E6 Hb]; [|congruence].
  destruct (action_bytes_inj _ _ _ _ _ _ Ha Ha' Ea Ea' Hb) as [E7 Hb'].
  destruct (put_string_inj _ _ _ _ _ _ Ex Ex' Hb') as [E8 Hb''].
  rewrite <- (app_nil_r y), <- (app_nil_r y') in Hb''.
  destruct (put_string_inj _ _ _ _ _ _ Ey Ey' Hb'') as [E9 _].
  destruct c, c'; simpl in *; congruence.
Qed.

(** ** A concrete signature scheme for the examples: the signature is the
    checksum of key and message, padded to 64 bytes *)

Record toy_sig := {
  toy_bytes : list byte;
  toy_len : (List.length toy_bytes =? 64)%nat = true;
}.

Lemma toy_sig_len k m :
  (List.length (checksum (be_bytes 8 k ++ m) ++ checksum m) =? 64)%nat = true.
Proof. apply Nat.eqb_eq. by rewrite length_app, !checksum_len. Qed.

Definition toy_sign (k : Z) (m : list byte) : toy_sig :=
  {| toy_bytes := checksum (be_bytes 8 k ++ m) ++ checksum m; toy_len := toy_sig_len k m |}.

Definition toy_from_slice (l : list byte) : option toy_sig :=
  match Bool.bool_dec (List.length l =? 64)%nat true with
  | left H => Some {| toy_bytes := l; toy_len := H |}
  | right _ => None
  end.

Definition toy_verify (k : Z) (m : list byte) (s : toy_sig) : bool :=
  bool_decide (toy_bytes s = toy_bytes (toy_sign k m)).

Lemma toy_from_to s : toy_from_slice (toy_bytes s) = Some s.
Proof.
  unfold toy_from_slice. destruct s as [l Hl]; simpl.
  destruct (Bool.bool_dec _ _) as [H|]; [|congruence].
  by rewrite (proof_irrel H Hl).
Qed.

Lemma toy_slice_len l s : toy_from_slice l = Some s -> List.length l = 64%nat.
Proof.
  unfold toy_from_slice. destruct (Bool.bool_dec _ _) as [H|]; [|done].
  intros _. by apply Nat.eqb_eq.
Qed.

Lemma toy_verify_signed k m : toy_verify k m (toy_sign k m) = true.
Proof. by apply bool_decide_eq_true. Qed.

Definition toy_ed25519 : Ed25519 := {|
  SigningKey := Z;
  VerifyingKey := Z;
  Signature := toy_sig;
  verifying_key k := k;
  ed_sign := toy_sign;
  sig_to_bytes := toy_bytes;
  sig_from_slice := toy_from_slice;
  verify_strict := toy_verify;
  sig_from_to := toy_from_to;
  sig_slice_len := toy_slice_len;
  verify_signed := toy_verify_signed;
|}.

(** ** Properties *)

(** The bytes that are signed determine the command: two commands (with
    fields in the range of their Rust types) whose canonical bytes are equal
    are equal in every field, so no part of one can be read as part of
    another. *)
Lemma canonical_bytes_unambiguous c c' b :
  command_ok c = true -> command_ok c' = true ->
  canonical_bytes c = Ok b -> canonical_bytes c' = Ok b -> c = c'.
Proof. apply canonical_bytes_inj. Qed.

Definition example_command : Command :=
  {| command_id := 1; cmd_host_id := 2;
     action := TerminateProcess 42 "/bin/x" 5;
     dry_run := false; issued_at_ms := 1000; expires_at_ms := 31000;
     nonce := repeat Byte.x07 16; actor := "alice"; reason := "malware" |}.

Lemma canonical_bytes_unambiguous_witness :
  exists b, canonical_bytes example_command = Ok b /\ example_command = example_command.
Proof.
  eexists. split; [vm_compute; reflexivity|].
  eapply (canonical_bytes_unambiguous example_command example_command);
    vm_compute; reflexivity.
Defined.

(** C1. A signed command verifies under the signer's key, and a command that
    verifies with the signature of another one is either that very command or
    exhibits a forgery: a second message accepted under the same signature. *)
Theorem tampering_is_forgery `{Ed25519} c c' k sc :
  command_ok c = true -> command_ok c' = true ->
  sign c k = Ok sc ->
  verify sc (verifying_key k) = Ok tt
  /\ (verify {| command := c'; signature := signature sc |} (verifying_key k) = Ok tt ->
      c' = c
      \/ exists m m', canonical_bytes c = Ok m /\ canonical_bytes c' = Ok m' /\ m' <> m
           /\ verify_strict (verifying_key k) m' (ed_sign k m) = true).
Proof.
  intros Hc Hc' (b & Hb & [= <-])%obind_ok. unfold verify. cbn [command signature].
  rewrite sig_from_to. cbn [ok_or obind]. split.
  - rewrite (proj2 (lift_ok _ b) Hb). cbn [obind]. by rewrite verify_signed.
  - intros (b' & Hb'%lift_ok & Hv)%obind_ok.
    destruct (verify_strict _ b' _) eqn:Ev; [|done].
    destruct (decide (b' = b)) as [->|Hne].
    + left. eapply canonical_bytes_inj; eassumption.
    + right. exists b, b'. done.
Qed.

Lemma tampering_is_forgery_witness :
  exists sc, @sign toy_ed25519 example_command 9 = Ok sc
    /\ @verify toy_ed25519 sc 9 = Ok tt.
Proof.
  eexists. split; [vm_compute; reflexivity|].
  eapply (@tampering_is_forgery toy_ed25519 example_command example_command 9);
    vm_compute; reflexivity.
Defined.

(** The agent accepts exactly the payloads a server can produce: a payload
    rebuilds a policy if and only if it is the payload of that policy, the
    policy is valid and its sensor map is well formed; anything else is
    rejected. *)
Lemma policy_payload_roundtrip `{Sha256} p e :
  to_effective p = Ok e <->
  keys_sorted (sensors e) = true /\ effective_validate e = Ok tt
  /\ from_effective e = Ok p.
Proof. apply to_effective_ok. Qed.

Lemma policy_payload_roundtrip_witness :
  match @from_effective concrete_sha256
          {| telemetry_level := Some Standard; sensors := [("dns", true); ("network", false)];
             heartbeat_interval_secs := Some 30 |} with
  | Ok p => @to_effective concrete_sha256 p
            = Ok {| telemetry_level := Some Standard; sensors := [("dns", true); ("network", false)];
                    heartbeat_interval_secs := Some 30 |}
  | _ => False
  end.
Proof.
  apply (proj2 (@policy_payload_roundtrip concrete_sha256 _
    {| telemetry_level := Some Standard; sensors := [("dns", true); ("network", false)];
       heartbeat_interval_secs := Some 30 |})).
  split; [vm_compute; reflexivity|]. split; vm_compute; reflexivity.
Defined.
