(* ===== verification/Replay.v ===== *)
(** * The replay store: [crates/osiris-command/src/replay.rs]

    A durable set of command ids: an in-memory map and the append-only file it
    is rebuilt from after a restart.  Writes may fail part-way and the process
    may be killed in the middle of one. *)

From S2P Require Import Prelude Concrete Json Schema.

Definition PRUNE_GRACE_MS : Z := 60000.

(** [Refusal] of [guard.rs]; [check_and_record] only produces [Replay]. *)
Inductive Refusal :=
| RBadSignature | RWrongHost | RExpired | RNotYetValid | RTtlTooLong | RReplay | RBusy
| RProtectedTarget (why : string).

Definition sp : byte := Byte.x20.

Section Replay.
Context `{UuidText}.

(** Text of a token, as [&str]. *)
Definition word_str (w : list char) : string := string_of_chars w.

Definition parse_line (buf : list byte) : option (Uuid * Z) :=
  if negb (utf8_valid buf) then None
  else if negb (bool_decide (last buf = Some nl)) then None
  else
    match split_whitespace (utf8_decode buf) with
    | a :: b :: _ =>
        match uuid_parse (word_str a), parse_uint 64 (word_str b) with
        | Some id, Some exp => Some (id, exp)
        | _, _ => None
        end
    | _ => None
    end.

Definition load_line (m : gmap Z Z) (l : list byte) : gmap Z Z :=
  match parse_line l with
  | Some (id, exp) => <[id := exp]> m
  | None => m
  end.

Definition load (content : list byte) : gmap Z Z := fold_left load_line (read_lines content) ∅.

Record ReplayStore := { seen : gmap Z Z; file : list byte }.

(** [ReplayStore::open] on the bytes of an existing (or new, empty) file. *)
Definition open (content : list byte) : ReplayStore :=
  {| seen := load content;
     file := match last content with
             | Some b => if decide (b = nl) then content else content ++ [nl]
             | None => content
             end |}.

(** [format!("{id} {expires_at_ms}\n")]. *)
Definition record_line (id exp : Z) : list byte :=
  bytes_of (uuid_display id) ++ sp :: dec_bytes exp ++ [nl].

(** What the operating system does with the append and the [sync_data]: both
    succeed, or an error is reported after a prefix of the line reached the
    file. *)
Inductive write_result := WriteOk | WriteFail (n : nat).

Definition live_at (now : Z) (exp : Z) : bool := now <=? sat_add64 exp PRUNE_GRACE_MS.

Definition prune (now : Z) (m : gmap Z Z) : gmap Z Z := filter (fun p => live_at now p.2 = true) m.

Definition check_and_record (st : ReplayStore) (id exp now : Z) (w : write_result)
  : outcome Refusal unit * ReplayStore :=
  let pruned := prune now (seen st) in
  match pruned !! id with
  | Some _ => (Err RReplay, {| seen := pruned; file := file st |})
  | None =>
      match w with
      | WriteFail n =>
          (Err RReplay, {| seen := pruned; file := file st ++ take n (record_line id exp) |})
      | WriteOk =>
          (Ok tt, {| seen := <[id := exp]> pruned; file := file st ++ record_line id exp |})
      end
  end.

(** ** The lines of the file *)

Lemma load_app a b : ends_nl a -> load (a ++ b) = fold_left load_line (read_lines b) (load a).
Proof. intros Ha. unfold load. by rewrite read_lines_app, fold_left_app by done. Qed.

(** ** Records parse back *)

Definition plain (b : byte) : bool := is_ascii b && negb (is_whitespace (b2z b)).

Lemma uuid_plain u : Forall (fun b => plain b = true) (bytes_of (uuid_display u)).
Proof.
  eapply Forall_impl; [apply uuid_display_chars|]. intros b. by destruct b.
Qed.

Lemma dec_plain n : 0 <= n -> Forall (fun b => plain b = true) (dec_bytes n).
Proof.
  intros Hn. eapply Forall_impl; [by apply dec_bytes_digits|]. intros b. by destruct b.
Qed.

Lemma plain_ascii l :
  Forall (fun b => plain b = true) l -> Forall (fun b => is_ascii b = true) l.
Proof.
  intros Hl. eapply Forall_impl; [exact Hl|]. intros b. unfold plain.
  by intros [? _]%andb_true_iff.
Qed.

Lemma plain_words l :
  Forall (fun b => plain b = true) l ->
  Forall (fun c => is_whitespace c = false) (map b2z l).
Proof.
  induction 1 as [|b l Hb Hl IH]; simpl; constructor; [|done].
  unfold plain in Hb. apply andb_true_iff in Hb as [_ Hb].
  by apply negb_true_iff in Hb.
Qed.

Lemma plain_no_nl l : Forall (fun b => plain b = true) l -> nl ∉ l.
Proof. intros Hl Hin. rewrite Forall_forall in Hl. by apply Hl in Hin. Qed.

Lemma word_str_plain l : Forall (fun b => plain b = true) l -> word_str (map b2z l) = of_bytes l.
Proof.
  intros Hl. unfold word_str, string_of_chars. by rewrite flat_map_utf8_ascii by by apply plain_ascii.
Qed.

Lemma last_snoc_nl (l : list byte) : last (l ++ [nl]) = Some nl.
Proof. apply last_snoc. Qed.

(** Two plain words, a space and a newline: the only shape a record, whole or
    torn after the space, can have. *)
Lemma parse_line_words a b :
  a <> [] -> b <> [] ->
  Forall (fun c => plain c = true) a -> Forall (fun c => plain c = true) b ->
  parse_line (a ++ sp :: b ++ [nl]) =
    match uuid_parse (of_bytes a), parse_uint_bytes 64 b with
    | Some id, Some exp => Some (id, exp)
    | _, _ => None
    end.
Proof.
  intros Ha Hb Pa Pb. unfold parse_line.
  assert (Forall (fun c => is_ascii c = true) (a ++ sp :: b ++ [nl])) as Hasc.
  { apply Forall_app. split; [by apply plain_ascii|]. constructor; [done|].
    apply Forall_app. split; [by apply plain_ascii|]. by constructor. }
  rewrite utf8_valid_ascii by done. cbn [negb].
  rewrite bool_decide_true by (rewrite app_comm_cons, app_assoc; apply last_snoc).
  cbn [negb]. rewrite utf8_decode_ascii by done.
  rewrite map_app. cbn [map]. rewrite map_app. change (map b2z [nl]) with [b2z nl].
  rewrite split_whitespace_cons; [|by destruct a|by apply plain_words|done].
  rewrite split_whitespace_cons; [|by destruct b|by apply plain_words|done].
  rewrite !word_str_plain by done. unfold parse_uint. by rewrite bytes_of_of_bytes.
Qed.

Lemma uuid_nonempty u : bytes_of (uuid_display u) <> [].
Proof. intros E. pose proof (uuid_display_len u) as Hl. by rewrite E in Hl. Qed.

Lemma parse_record id exp :
  fits 128 id = true -> fits 64 exp = true -> parse_line (record_line id exp) = Some (id, exp).
Proof.
  intros Hid Hexp. unfold record_line.
  rewrite parse_line_words; [|apply uuid_nonempty|apply dec_bytes_nonempty|apply uuid_plain|].
  - rewrite of_bytes_bytes_of, uuid_parse_display by done. by rewrite parse_dec_bytes.
  - apply dec_plain. apply fits_iff in Hexp. lia.
Qed.

(** A single word is never a record. *)
Lemma parse_line_short a : Forall (fun c => plain c = true) a -> parse_line (a ++ [nl]) = None.
Proof.
  intros Pa. unfold parse_line.
  assert (Forall (fun c => is_ascii c = true) (a ++ [nl])) as Hasc.
  { apply Forall_app. split; [by apply plain_ascii|]. by constructor. }
  rewrite utf8_valid_ascii by done. cbn [negb].
  rewrite bool_decide_true by apply last_snoc. cbn [negb].
  rewrite utf8_decode_ascii, map_app by done. cbn [map].
  destruct a as [|c a]; [done|].
  rewrite split_whitespace_cons; [done|done|by apply plain_words|done].
Qed.

Lemma parse_line_word_space a :
  a <> [] -> Forall (fun c => plain c = true) a -> parse_line (a ++ [sp; nl]) = None.
Proof.
  intros Ha Pa. unfold parse_line.
  assert (Forall (fun c => is_ascii c = true) (a ++ [sp; nl])) as Hasc.
  { apply Forall_app. split; [by apply plain_ascii|]. by repeat constructor. }
  rewrite utf8_valid_ascii by done. cbn [negb].
  rewrite bool_decide_true by (change [sp; nl] with ([sp] ++ [nl]); rewrite app_assoc; apply last_snoc).
  cbn [negb]. rewrite utf8_decode_ascii, map_app by done.
  change (map b2z [sp; nl]) with [b2z sp; b2z nl].
  rewrite split_whitespace_cons; [done|by destruct a|by apply plain_words|done].
Qed.

(** A record cut before its newline and terminated later names at most the id
    it was written for. *)
Lemma parse_torn id exp n :
  fits 128 id = true -> 0 <= exp ->
  parse_line (take n (bytes_of (uuid_display id) ++ sp :: dec_bytes exp) ++ [nl]) = None
  \/ exists v, parse_line (take n (bytes_of (uuid_display id) ++ sp :: dec_bytes exp) ++ [nl])
               = Some (id, v).
Proof.
  intros Hid Hexp. set (u := bytes_of (uuid_display id)).
  assert (Forall (fun b => plain b = true) u) as Pu by apply uuid_plain.
  assert (u <> []) as Hu by apply uuid_nonempty.
  rewrite take_app. destruct (n - List.length u)%nat as [|k] eqn:Ek.
  - left. rewrite app_nil_r. apply parse_line_short. by apply Forall_take.
  - rewrite (take_ge u) by lia. cbn [take].
    destruct (take k (dec_bytes exp)) as [|d ds] eqn:Ed.
    + left. rewrite <- app_assoc. by apply parse_line_word_space.
    + rewrite <- app_assoc. cbn [app]. change (d :: ds ++ [nl]) with ((d :: ds) ++ [nl]).
      rewrite parse_line_words; try done.
      * unfold u. rewrite of_bytes_bytes_of, uuid_parse_display by done.
        destruct (parse_uint_bytes _ _); eauto.
      * rewrite <- Ed. apply Forall_take. by apply dec_plain.
Qed.

Lemma record_line_body id exp :
  record_line id exp = (bytes_of (uuid_display id) ++ sp :: dec_bytes exp) ++ [nl].
Proof. unfold record_line. by rewrite <- app_assoc. Qed.

Lemma body_no_nl id exp n :
  0 <= exp -> nl ∉ take n (bytes_of (uuid_display id) ++ sp :: dec_bytes exp).
Proof.
  intros Hexp. rewrite take_app. intros [Hin|Hin]%elem_of_app.
  - revert Hin. apply plain_no_nl, Forall_take, uuid_plain.
  - destruct (n - _)%nat as [|k]; cbn [take] in Hin; [by apply not_elem_of_nil in Hin|].
    apply elem_of_cons in Hin as [Hin|Hin]; [done|]. revert Hin.
    apply plain_no_nl, Forall_take. by apply dec_plain.
Qed.

(** ** Appending and reopening *)

Lemma load_record f id exp :
  ends_nl f -> fits 128 id = true -> fits 64 exp = true ->
  load (f ++ record_line id exp) = <[id := exp]> (load f).
Proof.
  intros Hf Hid Hexp. rewrite load_app by done.
  assert (read_lines (record_line id exp) = [record_line id exp]) as ->.
  { rewrite record_line_body. apply read_lines_one.
    rewrite <- (take_ge (_ ++ _) (List.length (bytes_of (uuid_display id) ++ sp :: dec_bytes exp)))
      by done. apply body_no_nl. apply fits_iff in Hexp; lia. }
  simpl. unfold load_line. by rewrite parse_record.
Qed.

Lemma ends_nl_record f id exp : ends_nl (f ++ record_line id exp).
Proof. right. rewrite record_line_body, app_assoc. apply last_snoc. Qed.

Lemma open_ends_nl c : ends_nl (file (open c)).
Proof.
  unfold open, ends_nl. simpl. destruct (last c) eqn:E; [|left; by apply last_None].
  case_decide; [right; congruence|right; apply last_snoc].
Qed.

Lemma open_closed f : ends_nl f -> open f = {| seen := load f; file := f |}.
Proof.
  unfold open. intros [->|Hl]; [done|]. rewrite Hl. by rewrite decide_True.
Qed.

(** Reopening after a crash in the middle of an append: only the id being
    written can be affected. *)
Lemma open_torn f id exp n id' :
  ends_nl f -> fits 128 id = true -> fits 64 exp = true -> id' <> id ->
  seen (open (f ++ take n (record_line id exp))) !! id' = load f !! id'
  /\ load (file (open (f ++ take n (record_line id exp)))) !! id' = load f !! id'.
Proof.
  intros Hf Hid Hexp Hne.
  destruct (decide (n < List.length (record_line id exp))%nat) as [Hn|Hn].
  - rewrite record_line_body in *. rewrite length_app in Hn. cbn [List.length] in Hn.
    rewrite take_app_le by lia.
    set (p := take n _).
    assert (nl ∉ p) as Hp by (apply body_no_nl; apply fits_iff in Hexp; lia).
    unfold open. cbn [seen file]. rewrite load_app by done.
    destruct (decide (p = [])) as [->|Hpne].
    { rewrite app_nil_r. split; [done|].
      pose proof (f_equal file (open_closed f Hf)) as E. unfold open in E.
      cbn [file] in E. by rewrite E. }
    rewrite read_lines_torn by done. cbn [fold_left].
    assert (last (f ++ p) = last p) as ->.
    { rewrite last_app. by destruct (last p) eqn:E; [|apply last_None in E]. }
    destruct (last p) as [b|] eqn:Eb; [|by apply last_None in Eb].
    assert (b ∈ p) as Hbp by (by apply last_Some_elem_of).
    rewrite decide_False by congruence.
    split.
    + unfold load_line, parse_line.
      destruct (utf8_valid p); [|done]. cbn [negb].
      rewrite bool_decide_false by congruence. done.
    + rewrite <- app_assoc, load_app, read_lines_one by done. cbn [fold_left].
      unfold load_line, p.
      destruct (parse_torn id exp n) as [->|[v ->]]; [done| |done|by rewrite lookup_insert_ne].
      apply fits_iff in Hexp; lia.
  - rewrite take_ge by lia. rewrite open_closed by apply ends_nl_record. cbn [seen file].
    rewrite load_record by done. by rewrite lookup_insert_ne.
Qed.

(** ** The store over time

    [clock] is the largest time the store has been called with, [admitted] the
    history of (id, expiry) pairs it has accepted.  The environment may fail a
    write cleanly (nothing or the whole line reaches the file), restart the
    process, or kill it after any prefix of an append; the clock may be set
    back by at most [PRUNE_GRACE_MS].  [now < exp] is checked by the guard
    before it calls the store. *)

Record world := { store : ReplayStore; clock : Z; admitted : list (Z * Z) }.

Definition clean (w : write_result) (id exp : Z) : Prop :=
  match w with
  | WriteOk => True
  | WriteFail n => n = 0%nat \/ (List.length (record_line id exp) <= n)%nat
  end.

Inductive rstep : world -> world -> Prop :=
| step_call W id exp now w r st' :
    fits 128 id = true -> fits 64 exp = true -> fits 64 now = true ->
    now < exp -> clock W <= now + PRUNE_GRACE_MS -> clean w id exp ->
    check_and_record (store W) id exp now w = (r, st') ->
    rstep W {| store := st'; clock := Z.max (clock W) now;
               admitted := if is_ok r then (id, exp) :: admitted W else admitted W |}
| step_restart W :
    rstep W {| store := open (file (store W)); clock := clock W; admitted := admitted W |}
| step_crash W id exp now n :
    fits 128 id = true -> fits 64 exp = true -> fits 64 now = true ->
    prune now (seen (store W)) !! id = None ->
    rstep W {| store := open (file (store W) ++ take n (record_line id exp));
               clock := Z.max (clock W) now; admitted := admitted W |}.

Definition initial (content : list byte) : world :=
  {| store := open content; clock := 0; admitted := [] |}.

(** A pair that could still be replayed is in memory and on disk. *)
Definition retained (c : Z) (st : ReplayStore) (p : Z * Z) : Prop :=
  live_at c p.2 = true -> seen st !! p.1 = Some p.2 /\ load (file st) !! p.1 = Some p.2.

Definition inv (W : world) : Prop :=
  ends_nl (file (store W)) /\ clock W <= u64_max
  /\ Forall (retained (clock W) (store W)) (admitted W) /\ NoDup (admitted W).

Lemma live_at_mono c c' exp : c <= c' -> live_at c' exp = true -> live_at c exp = true.
Proof. unfold live_at. lia. Qed.

Lemma prune_lookup now m id exp :
  prune now m !! id = Some exp <-> m !! id = Some exp /\ live_at now exp = true.
Proof. unfold prune. by rewrite map_lookup_filter_Some. Qed.

(** A live pair stops the store from reaching the write. *)
Lemma retained_blocks c st id exp0 now :
  retained c st (id, exp0) -> prune now (seen st) !! id = None ->
  live_at (Z.max c now) exp0 = true -> False.
Proof.
  intros Hr Hn Hl. destruct Hr as [Hs _]; [eapply live_at_mono; [|exact Hl]; simpl; lia|].
  assert (prune now (seen st) !! id = Some exp0) as E; [|congruence].
  apply prune_lookup. split; [exact Hs|]. eapply live_at_mono; [|exact Hl]. lia.
Qed.

(** Every other pair survives a change of the store that only concerns [id]. *)
Lemma retained_frame c now st st' id p :
  retained c st p ->
  prune now (seen st) !! id = None ->
  (forall id', id' <> id -> live_at (Z.max c now) p.2 = true -> seen st !! id' = Some p.2 ->
     id' = p.1 -> seen st' !! id' = Some p.2) ->
  (forall id', id' <> id -> load (file st') !! id' = load (file st) !! id') ->
  retained (Z.max c now) st' p.
Proof.
  intros Hr Hn Hseen Hload Hl. destruct p as [i e]; simpl in *.
  destruct (decide (i = id)) as [->|Hne].
  - exfalso. by eapply retained_blocks.
  - destruct Hr as [Hs Hf]; [eapply live_at_mono; [|exact Hl]; simpl; lia|].
    simpl in Hs, Hf. rewrite Hload by done. auto.
Qed.

Lemma live_seen_pruned now st i e c :
  live_at (Z.max c now) e = true -> seen st !! i = Some e -> prune now (seen st) !! i = Some e.
Proof. intros Hl Hs. apply prune_lookup. split; [done|]. eapply live_at_mono; [|exact Hl]. lia. Qed.

Lemma inv_call W id exp now w r st' :
  fits 128 id = true -> fits 64 exp = true -> fits 64 now = true ->
  now < exp -> clock W <= now + PRUNE_GRACE_MS -> clean w id exp ->
  check_and_record (store W) id exp now w = (r, st') -> inv W ->
  inv {| store := st'; clock := Z.max (clock W) now;
         admitted := if is_ok r then (id, exp) :: admitted W else admitted W |}.
Proof.
  intros Hid Hexp Hnow Hlt Hclk Hclean Hc (Hnl & Hmax & Hret & Hnd).
  assert (Z.max (clock W) now <= u64_max) as Hmax'
    by (apply fits_iff in Hnow; unfold u64_max in *; lia).
  unfold check_and_record in Hc.
  destruct (prune now (seen (store W)) !! id) as [e|] eqn:Ep.
  { injection Hc as <- <-. repeat split; simpl; try done.
    eapply Forall_impl; [exact Hret|]. intros [i e0] Hr Hl. simpl in *.
    destruct Hr as [Hs Hf]; [eapply live_at_mono; [|exact Hl]; simpl; lia|].
    split; [by eapply live_seen_pruned|done]. }
  assert (forall st'', seen st'' = prune now (seen (store W)) \/
                       seen st'' = <[id := exp]> (prune now (seen (store W))) ->
            (forall id', id' <> id -> load (file st'') !! id' = load (file (store W)) !! id') ->
            Forall (retained (Z.max (clock W) now) st'') (admitted W)) as Hframe.
  { intros st'' Hs'' Hl''. eapply Forall_impl; [exact Hret|]. intros p Hr.
    eapply retained_frame; [exact Hr|exact Ep| |exact Hl''].
    intros id' Hne Hl Hs ->. destruct Hs'' as [-> | ->].
    - by eapply live_seen_pruned.
    - rewrite lookup_insert_ne by done. by eapply live_seen_pruned. }
  destruct w as [|n]; injection Hc as <- <-; unfold inv; simpl.
  - split; [apply ends_nl_record|]. split; [done|].
    assert ((id, exp) ∉ admitted W) as Hnin.
    { intros Hin. rewrite Forall_forall in Hret. apply Hret in Hin.
      eapply retained_blocks; [exact Hin|exact Ep|].
      unfold live_at, sat_add64. apply Z.leb_le. apply fits_iff in Hnow.
      unfold u64_max, PRUNE_GRACE_MS in *. lia. }
    split; [|by constructor]. constructor.
    + intros _. simpl. rewrite load_record by done. by rewrite !lookup_insert_eq.
    + apply Hframe; [by right|]. intros id' Hne. simpl. rewrite load_record by done.
      by rewrite lookup_insert_ne.
  - destruct Hclean as [->|Hn].
    + rewrite take_0, app_nil_r. repeat split; try done. apply Hframe; [by left|done].
    + rewrite take_ge by done. split; [apply ends_nl_record|]. split; [done|].
      split; [|done]. apply Hframe; [by left|]. intros id' Hne. simpl.
      rewrite load_record by done. by rewrite lookup_insert_ne.
Qed.

Lemma inv_step W W' : rstep W W' -> inv W -> inv W'.
Proof.
  destruct 1 as [W id exp now w r st' Hid Hexp Hnow Hlt Hclk Hclean Hc
                |W|W id exp now n Hid Hexp Hnow Hp].
  - by apply inv_call with (w := w).
  - intros (Hnl & Hmax & Hret & Hnd). rewrite open_closed by done.
    repeat split; simpl; try done.
    eapply Forall_impl; [exact Hret|]. intros p Hr Hl. destruct (Hr Hl). auto.
  - intros (Hnl & Hmax & Hret & Hnd). unfold inv; simpl.
    split; [apply open_ends_nl|]. split; [apply fits_iff in Hnow; unfold u64_max in *; lia|].
    split; [|done]. eapply Forall_impl; [exact Hret|]. intros p Hr.
    eapply retained_frame; [exact Hr|exact Hp| |].
    + intros id' Hne Hl Hs ->.
      destruct (open_torn (file (store W)) id exp n p.1 Hnl Hid Hexp Hne) as [-> _].
      apply Hr. eapply live_at_mono; [|exact Hl]. lia.
    + intros id' Hne. by apply open_torn.
Qed.

Lemma inv_reachable content W : rtc rstep (initial content) W -> inv W.
Proof.
  assert (inv (initial content)) as Hi.
  { split; [apply open_ends_nl|]. split; [done|]. split; constructor. }
  intros Hr. revert Hi. induction Hr as [|? ? ? Hs _ IH]; [done|].
  intros Hi. apply IH. by eapply inv_step.
Qed.

(** Whatever follows the first word, a record that parses names the id of that word. *)
Lemma parse_line_first a rest id v :
  a <> [] -> Forall (fun c => plain c = true) a -> Forall (fun c => is_ascii c = true) rest ->
  parse_line (a ++ sp :: rest) = Some (id, v) -> uuid_parse (of_bytes a) = Some id.
Proof.
  intros Ha Pa Pr. unfold parse_line.
  destruct (utf8_valid _); [|done]. cbn [negb]. destruct (bool_decide _); [|done]. cbn [negb].
  rewrite utf8_decode_ascii.
  2: { apply Forall_app. split; [by apply plain_ascii|]. by constructor. }
  rewrite map_app. cbn [map]. rewrite split_whitespace_cons; [|by destruct a|by apply plain_words|done].
  destruct (split_whitespace _) as [|w ws]; [done|]. rewrite word_str_plain by done.
  destruct (uuid_parse _); [|done]. destruct (parse_uint 64 _); [|done]. by intros [= -> _].
Qed.

(** A record glued to the beginning of another is not read as a record of its own id. *)
Lemma parse_glued id exp n id' exp' :
  fits 128 id = true -> 0 <= exp -> 0 <= exp' -> id' <> id -> (0 < n)%nat -> (n < List.length (record_line id exp))%nat ->
  forall v, parse_line (take n (record_line id exp) ++ record_line id' exp') <> Some (id', v).
Proof.
  intros Hid Hexp Hexp' Hne Hn Hlt v Hp.
  rewrite (record_line_body id exp), length_app in Hlt. cbn [List.length] in Hlt.
  rewrite (record_line_body id exp), take_app_le in Hp by lia.
  pose proof (uuid_display_len id) as Hl. pose proof (uuid_display_len id') as Hl'.
  pose proof (uuid_plain id) as Pu. pose proof (uuid_plain id') as Pu'. pose proof (dec_plain exp' Hexp') as Pd.
  destruct (decide (n <= 36)%nat) as [Hle|Hgt].
  - rewrite take_app_le in Hp by lia. unfold record_line in Hp. rewrite (assoc_L (++)) in Hp.
    apply parse_line_first in Hp.
    + apply uuid_parse_len in Hp.
      * rewrite bytes_of_of_bytes, length_app, length_take in Hp. lia.
      * rewrite bytes_of_of_bytes. apply Forall_app. split; [apply Forall_take|]; apply uuid_display_chars.
    + intros E. apply (f_equal List.length) in E. rewrite length_app in E. simpl in E. lia.
    + apply Forall_app. split; [by apply Forall_take|done].
    + apply Forall_app. split; [by apply plain_ascii|by repeat constructor].
  - rewrite take_app, (take_ge (bytes_of _)) in Hp by lia.
    destruct (n - List.length (bytes_of (uuid_display id)))%nat as [|k] eqn:Ek; [lia|]. cbn [take] in Hp.
    rewrite <- (assoc_L (++)) in Hp. cbn [app] in Hp. apply parse_line_first in Hp; [|apply uuid_nonempty|done|].
    + rewrite of_bytes_bytes_of, uuid_parse_display in Hp by done. congruence.
    + apply Forall_app. split; [by apply plain_ascii, Forall_take, dec_plain|]. unfold record_line.
      apply Forall_app. split; [by apply plain_ascii|]. constructor; [done|].
      apply Forall_app. split; [by apply plain_ascii|by repeat constructor].
Qed.

(** Such a record is lost when the store is opened again. *)
Lemma load_glued f id exp n id' exp' :
  ends_nl f -> fits 128 id = true -> 0 <= exp -> 0 <= exp' -> id' <> id ->
  (0 < n)%nat -> (n < List.length (record_line id exp))%nat ->
  load ((f ++ take n (record_line id exp)) ++ record_line id' exp') !! id' = load f !! id'.
Proof.
  intros Hf Hid Hexp Hexp' Hne Hn Hlt. rewrite <- (assoc_L (++)), load_app by done.
  pose proof (parse_glued id exp n id' exp' Hid Hexp Hexp' Hne Hn Hlt) as Hp.
  assert (read_lines (take n (record_line id exp) ++ record_line id' exp')
          = [take n (record_line id exp) ++ record_line id' exp']) as ->.
  { rewrite (record_line_body id' exp'), (assoc_L (++)). apply read_lines_one. rewrite elem_of_app.
    intros [Hin|Hin]; revert Hin.
    - rewrite (record_line_body id exp), length_app in *. cbn [List.length] in Hlt. rewrite take_app_le by lia.
      by apply body_no_nl.
    - rewrite <- (take_ge (_ ++ _) (List.length (bytes_of (uuid_display id') ++ sp :: dec_bytes exp'))) by done.
      by apply body_no_nl. }
  cbn [fold_left]. unfold load_line. destruct (parse_line _) as [[i v]|] eqn:E; [|done].
  rewrite lookup_insert_ne; [done|]. intros ->. by apply (Hp v).
Qed.

(** Admission of a command whose id is nowhere in the store. *)
Lemma record_unseen st id exp now :
  prune now (seen st) !! id = None ->
  check_and_record st id exp now WriteOk
  = (Ok tt, {| seen := <[id := exp]> (prune now (seen st)); file := file st ++ record_line id exp |}).
Proof. intros Hn. unfold check_and_record. by rewrite Hn. Qed.

Lemma prune_none now m id : m !! id = None -> prune now m !! id = None.
Proof. intros Hn. apply eq_None_not_Some. intros [e He]. apply prune_lookup in He as [He _]. congruence. Qed.

End Replay.

(** ** Properties *)

(** One signed command, one use: along any run of the store, over calls,
    clean write failures, restarts and crashes in the middle of an append, no
    (command id, expiry) pair is admitted twice. *)
Lemma replay_admits_once `{UuidText} content W :
  rtc rstep (initial content) W -> NoDup (admitted W).
Proof. intros Hr. apply (inv_reachable content W Hr). Qed.

(** A run used by the examples: one command is admitted, the process restarts,
    and the same command is presented again. *)
Definition example_run_1 : world :=
  let '(r, st) := @check_and_record concrete_uuid (@open concrete_uuid []) 1 100 50 WriteOk in
  {| store := st; clock := 50; admitted := [(1, 100)] |}.

Definition example_run_2 : world :=
  {| store := @open concrete_uuid (file (store example_run_1)); clock := 50;
     admitted := [(1, 100)] |}.

Definition example_run_3 : world :=
  {| store := (@check_and_record concrete_uuid (store example_run_2) 1 100 60 WriteOk).2;
     clock := 60; admitted := [(1, 100)] |}.

Lemma example_run : rtc (@rstep concrete_uuid) (@initial concrete_uuid []) example_run_3.
Proof.
  apply (rtc_l _ _ example_run_1).
  { refine (@step_call concrete_uuid _ 1 100 50 WriteOk (Ok tt) _ _ _ _ _ _ _ _);
      first [done | vm_compute; congruence]. }
  apply (rtc_l _ _ example_run_2); [apply (@step_restart concrete_uuid example_run_1)|].
  apply (rtc_l _ _ example_run_3); [|apply rtc_refl].
  refine (@step_call concrete_uuid example_run_2 1 100 60 WriteOk (Err RReplay) _ _ _ _ _ _ _ _);
    first [done | vm_compute; congruence].
Qed.

Lemma replay_admits_once_witness :
  admitted example_run_3 = [(1, 100)] /\ NoDup (admitted example_run_3).
Proof.
  split; [reflexivity|].
  exact (@replay_admits_once concrete_uuid [] example_run_3 example_run).
Defined.

(** Durability: in every reachable state a restart keeps refusing each
    admitted command that has not expired at the latest time seen. *)
Lemma replay_survives_restart `{UuidText} content W id exp now w :
  rtc rstep (initial content) W -> (id, exp) ∈ admitted W ->
  clock W <= now < exp -> fits 64 now = true ->
  (check_and_record (open (file (store W))) id exp now w).1 = Err RReplay.
Proof.
  intros Hr Hin Hnow Hf. apply inv_reachable in Hr as (Hnl & Hmax & Hret & _).
  rewrite open_closed by done. unfold check_and_record. simpl.
  rewrite Forall_forall in Hret. apply Hret in Hin.
  assert (forall t, t < exp -> t <= u64_max -> live_at t exp = true) as Hlive.
  { intros t Ht Ht'. unfold live_at, sat_add64, PRUNE_GRACE_MS. apply Z.leb_le. lia. }
  destruct Hin as [_ Hl]; [simpl; apply Hlive; lia|]. simpl in Hl.
  rewrite (proj2 (prune_lookup now (load (file (store W))) id exp)); [done|].
  split; [exact Hl|]. apply Hlive; [lia|]. apply fits_iff in Hf. unfold u64_max in *. lia.
Qed.

Lemma replay_survives_restart_witness :
  (@check_and_record concrete_uuid (@open concrete_uuid (file (store example_run_3)))
     1 100 70 WriteOk).1 = Err RReplay.
Proof.
  apply (@replay_survives_restart concrete_uuid [] example_run_3 1 100 70 WriteOk).
  - exact example_run.
  - vm_compute. by left.
  - vm_compute. split; congruence.
  - reflexivity.
Defined.

(** C40. A write that fails part-way reopens replay.  Take any store whose file is whole and any
    two new commands: when the append of the first stops anywhere inside its line, the first is
    refused; the second is then admitted with a write that succeeds completely, and refused from
    then on while the process lives; but its line was glued onto the fragment, so the store that
    a restart opens admits it a second time. *)
Theorem torn_write_failure_reopens_replay `{UuidText} st id1 exp1 now1 n id2 exp2 now2 now3 :
  ends_nl (file st) -> fits 128 id1 = true -> 0 <= exp1 -> 0 <= exp2 -> id2 <> id1 ->
  prune now1 (seen st) !! id1 = None -> seen st !! id2 = None -> load (file st) !! id2 = None ->
  (0 < n)%nat -> (n < List.length (record_line id1 exp1))%nat -> live_at now3 exp2 = true ->
  let '(r1, st1) := check_and_record st id1 exp1 now1 (WriteFail n) in
  let '(r2, st2) := check_and_record st1 id2 exp2 now2 WriteOk in
  r1 = Err RReplay /\ r2 = Ok tt
  /\ (check_and_record st2 id2 exp2 now3 WriteOk).1 = Err RReplay
  /\ (check_and_record (open (file st2)) id2 exp2 now3 WriteOk).1 = Ok tt.
Proof.
  intros Hf Hid Hexp1 Hexp2 Hne H1 H2 H3 Hn Hlt Hlive. unfold check_and_record at 1. rewrite H1.
  rewrite record_unseen by by apply prune_none, prune_none. split_and!; [done|done| |].
  - unfold check_and_record. cbn [seen file].
    by rewrite (proj2 (prune_lookup now3 _ id2 exp2)) by by rewrite lookup_insert_eq.
  - rewrite open_closed by apply ends_nl_record. rewrite record_unseen; [done|].
    apply prune_none. cbn [seen file]. by rewrite load_glued.
Qed.

Lemma torn_write_failure_reopens_replay_witness :
  let '(_, st1) := @check_and_record concrete_uuid (@open concrete_uuid []) 1 100 50 (WriteFail 5) in
  let '(_, st2) := @check_and_record concrete_uuid st1 2 100 50 WriteOk in
  (@check_and_record concrete_uuid (@open concrete_uuid (file st2)) 2 100 60 WriteOk).1 = Ok tt.
Proof.
  apply (@torn_write_failure_reopens_replay concrete_uuid (@open concrete_uuid []) 1 100 50 5 2 100 50 60);
    first [reflexivity|lia|by left|vm_compute; lia].
Defined.

