(* ===== verification/Guard.v ===== *)
(** * Admission and execution of commands:
      [crates/osiris-command/src/guard.rs], [runner.rs], [executor.rs],
      [identity.rs]

    The guard checks signature, host, validity window, replay and protected
    targets; only then does the runner call the executor. *)

From S2P Require Import Prelude BTree Concrete Json Schema Policy Envelope Replay.

Definition MAX_TTL_MS : Z := 120000.
Definition SKEW_MS : Z := 60000.

(** ** Unix paths: the part of [std::path] the guard uses *)

Inductive Component := RootDir | CurDir | ParentDir | Normal (name : list byte).

#[global] Instance component_eq_dec : EqDecision Component.
Proof. solve_decision. Defined.

Definition slash : byte := Byte.x2f.
Definition dot : byte := Byte.x2e.

Definition has_root (p : list byte) : bool := bool_decide (head p = Some slash).

(** Empty segments and ["."] vanish; [".."] is kept. *)
Definition segment (s : list byte) : option Component :=
  if decide (s = []) then None
  else if decide (s = [dot]) then None
  else if decide (s = [dot; dot]) then Some ParentDir
  else Some (Normal s).

(** [Path::components]: a relative path that starts with ["."] keeps it. *)
Definition components (p : list byte) : list Component :=
  let segs := split_all slash p in
  (if has_root p then [RootDir] else [])
  ++ (if negb (has_root p) && bool_decide (head segs = Some [dot]) then [CurDir] else [])
  ++ omap segment segs.

Fixpoint starts_with (p q : list Component) : bool :=
  match q, p with
  | [], _ => true
  | c :: q, d :: p => bool_decide (c = d) && starts_with p q
  | _, _ => false
  end.

(** The path a component prefix denotes (as handed to the operating system;
    redundant separators do not matter there). *)
Definition render (cs : list Component) : list byte :=
  match cs with
  | [] => []
  | RootDir :: cs' =>
      slash :: foldr (fun c acc =>
        match c with
        | Normal n => n | ParentDir => [dot; dot] | CurDir => [dot] | RootDir => []
        end ++ (match acc with [] => [] | _ => slash :: acc end)) [] cs'
  | _ =>
      foldr (fun c acc =>
        match c with
        | Normal n => n | ParentDir => [dot; dot] | CurDir => [dot] | RootDir => []
        end ++ (match acc with [] => [] | _ => slash :: acc end)) [] cs
  end.

Record ProtectedTargets := { agent_pid : Z; extra_pids : list Z; vault : list byte }.

Section Guard.
(** [std::fs::canonicalize]: the file system, [None] on any error. *)
Context (canonicalize : list byte -> option (list byte)).

Definition check_pid (pt : ProtectedTargets) (pid : Z) : outcome Refusal unit :=
  if (pid =? 1) || (pid =? agent_pid pt) || existsb (Z.eqb pid) (extra_pids pt)
  then Err (RProtectedTarget ("pid " +:+ dec_string pid))
  else Ok tt.

(** The loop of [resolve_lenient] after a failed canonicalization: go to the
    parent, remembering the file name; [None] when there is no parent or no
    file name. *)
Fixpoint resolve_up (rcs : list Component) (rest : list (list byte)) : option (list Component) :=
  match rcs with
  | Normal n :: rcs' =>
      let rest' := n :: rest in
      match canonicalize (render (rev rcs')) with
      | Some c => Some (components c ++ map Normal rest')
      | None => resolve_up rcs' rest'
      end
  | _ => None
  end.

Definition resolve_lenient (p : list byte) : list Component :=
  match canonicalize p with
  | Some c => components c
  | None =>
      match resolve_up (rev (components p)) [] with
      | Some cs => cs
      | None => components p
      end
  end.

Definition deny (path why : string) : outcome Refusal unit :=
  Err (RProtectedTarget ("path " +:+ path +:+ ": " +:+ why)).

Definition check_path (pt : ProtectedTargets) (path : string) : outcome Refusal unit :=
  let p := bytes_of path in
  if negb (has_root p) then deny path "not absolute"
  else if existsb (fun c => bool_decide (c = ParentDir)) (components p) then
    deny path "contains .."
  else if starts_with (components p) (components (vault pt)) then deny path "inside vault"
  else
    let v := default (vault pt) (canonicalize (vault pt)) in
    if starts_with (resolve_lenient p) (components v) then deny path "resolves into vault"
    else Ok tt.

Context `{Ed25519} `{UuidText}.

Record Guard := {
  g_host_id : Uuid;
  g_key : VerifyingKey;
  g_replay : ReplayStore;
  g_protected : ProtectedTargets;
}.

Definition with_replay (g : Guard) (r : ReplayStore) : Guard :=
  {| g_host_id := g_host_id g; g_key := g_key g; g_replay := r; g_protected := g_protected g |}.

Definition check_target (pt : ProtectedTargets) (a : CommandAction) : outcome Refusal unit :=
  match a with
  | TerminateProcess pid _ _ => check_pid pt pid
  | QuarantineFile path _ _ => check_path pt path
  | RestoreFile _ => Ok tt
  | ApplyPolicy _ => Ok tt
  end.

(** The checks before the replay store is touched. *)
Definition precheck (g : Guard) (sc : SignedCommand) (now_ms : Z) : outcome Refusal unit :=
  let c := command sc in
  let? _ := omap_err (fun _ => RBadSignature) (verify sc (g_key g)) in
  if negb (cmd_host_id c =? g_host_id g) then Err RWrongHost
  else if MAX_TTL_MS <? sat_sub (expires_at_ms c) (issued_at_ms c) then Err RTtlTooLong
  else if sat_add64 now_ms SKEW_MS <? issued_at_ms c then Err RNotYetValid
  else if expires_at_ms c <=? now_ms then Err RExpired
  else Ok tt.

Definition guard_admit (g : Guard) (sc : SignedCommand) (now_ms : Z) (w : write_result)
  : outcome Refusal unit * Guard :=
  let c := command sc in
  match precheck g sc now_ms with
  | Ok _ =>
      let '(r, st) := check_and_record (g_replay g) (command_id c) (expires_at_ms c) now_ms w in
      (let? _ := r in check_target (g_protected g) (action c), with_replay g st)
  | e => (e, g)
  end.

(** ** Execution *)

Inductive FailCode :=
| TargetChanged | Unverifiable | NotFound | DestinationExists | Io | Unsupported
| InvalidRequest.

Record ExecDetail := {
  summary : string; detail_quarantine_id : option Uuid; detail_sha256 : option string;
  signal : option string }.
Record ExecFailure := { fail_code : FailCode; fail_message : string }.

Definition refusal_text (r : Refusal) : string :=
  match r with
  | RBadSignature => "bad signature"
  | RWrongHost => "wrong host"
  | RExpired => "expired"
  | RNotYetValid => "not yet valid"
  | RTtlTooLong => "ttl too long"
  | RReplay => "replay"
  | RBusy => "busy"
  | RProtectedTarget t => "protected target: " +:+ t
  end.

Inductive CommandResult :=
| Refused (reason : Refusal)
| DryRunOk (would_do : string)
| Executed (detail : ExecDetail)
| Failed (code : FailCode) (message : string).

(** [trait ActionExecutor], over the state [S] it acts on. *)
Record ActionExecutor (S : Type) := {
  terminate : S -> Z -> string -> Z -> bool -> (ExecDetail + ExecFailure) * S;
  quarantine : S -> string -> Z -> Z -> bool -> (ExecDetail + ExecFailure) * S;
  restore : S -> Uuid -> bool -> (ExecDetail + ExecFailure) * S;
  apply_policy : S -> PolicyPayload -> bool -> (ExecDetail + ExecFailure) * S;
}.
Arguments terminate {S}.
Arguments quarantine {S}.
Arguments restore {S}.
Arguments apply_policy {S}.

(** The trait's default [apply_policy]. *)
Definition default_apply_policy {S} (s : S) (_ : PolicyPayload) (_ : bool)
  : (ExecDetail + ExecFailure) * S :=
  (inr {| fail_code := Unsupported;
          fail_message := "policy application is not supported by this executor" |}, s).

Definition dispatch {S} (ex : ActionExecutor S) (s : S) (a : CommandAction) (dry : bool)
  : (ExecDetail + ExecFailure) * S :=
  match a with
  | TerminateProcess pid exe obs => terminate ex s pid exe obs dry
  | QuarantineFile path i d => quarantine ex s path i d dry
  | RestoreFile q => restore ex s q dry
  | ApplyPolicy p => apply_policy ex s p dry
  end.

Definition to_result (dry : bool) (res : ExecDetail + ExecFailure) : CommandResult :=
  match res with
  | inl d => if dry then DryRunOk (summary d) else Executed d
  | inr f => Failed (fail_code f) (fail_message f)
  end.

(** [run_command]; the outer [option] is [None] when the admission check
    panics. *)
Definition run_command {S} (g : Guard) (ex : ActionExecutor S) (s : S) (sc : SignedCommand)
    (now_ms : Z) (w : write_result) : option CommandResult * Guard * S :=
  match guard_admit g sc now_ms w with
  | (Err reason, g') => (Some (Refused reason), g', s)
  | (Panic, g') => (None, g', s)
  | (Ok _, g') =>
      let dry := dry_run (command sc) in
      let '(res, s') := dispatch ex s (action (command sc)) dry in
      (Some (to_result dry res), g', s')
  end.

End Guard.

(** [identity.rs]: a process that started after the observation (plus 2 s) is a
    different process. *)
Definition process_started_by (start_ns observed_at_ns : Z) : bool :=
  start_ns <=? sat_add64 observed_at_ns 2000000000.

(** ** Admission *)

Section Admission.
Context (canonicalize : list byte -> option (list byte)) `{Ed25519} `{UuidText}.
Implicit Types g : @Guard _.

Definition fresh g (sc : SignedCommand) (now : Z) : Prop :=
  prune now (seen (g_replay g)) !! command_id (command sc) = None.

Lemma precheck_ok g sc now :
  precheck g sc now = Ok tt <->
  verify sc (g_key g) = Ok tt
  /\ cmd_host_id (command sc) = g_host_id g
  /\ sat_sub (expires_at_ms (command sc)) (issued_at_ms (command sc)) <= MAX_TTL_MS
  /\ issued_at_ms (command sc) <= sat_add64 now SKEW_MS
  /\ now < expires_at_ms (command sc).
Proof.
  unfold precheck. destruct (verify sc (g_key g)) as [[]|e|]; cbn [omap_err obind].
  - destruct (Z.eqb_spec (cmd_host_id (command sc)) (g_host_id g)); cbn [negb];
      repeat case_match; naive_solver lia.
  - naive_solver.
  - naive_solver.
Qed.

Lemma check_and_record_ok st id exp now w st' :
  check_and_record st id exp now w = (Ok tt, st') <->
  prune now (seen st) !! id = None /\ w = WriteOk
  /\ st' = {| seen := <[id := exp]> (prune now (seen st)); file := file st ++ record_line id exp |}.
Proof.
  unfold check_and_record. destruct (prune now (seen st) !! id); [naive_solver|].
  destruct w; naive_solver.
Qed.

Lemma check_and_record_no_panic st id exp now w :
  no_panic (check_and_record st id exp now w).1.
Proof. unfold check_and_record. repeat case_match; discriminate. Qed.

Lemma admit_ok g sc now w g' :
  guard_admit canonicalize g sc now w = (Ok tt, g') <->
  precheck g sc now = Ok tt /\ fresh g sc now /\ w = WriteOk
  /\ check_target canonicalize (g_protected g) (action (command sc)) = Ok tt
  /\ g' = with_replay g
       {| seen := <[command_id (command sc) := expires_at_ms (command sc)]>
                    (prune now (seen (g_replay g)));
          file := file (g_replay g)
                  ++ record_line (command_id (command sc)) (expires_at_ms (command sc)) |}.
Proof.
  unfold guard_admit, fresh. destruct (precheck g sc now) as [[]| |]; [|naive_solver..].
  destruct (check_and_record _ _ _ _ _) as [r st] eqn:E.
  destruct r as [[]|e|]; cbn [obind].
  - apply check_and_record_ok in E as (Hn & Hw & ->). split.
    + intros [= Ht <-]. done.
    + intros (_ & _ & _ & -> & ->). done.
  - split; [intros [=]|]. intros (_ & Hf & -> & _ & _).
    unfold check_and_record in E. rewrite Hf in E. naive_solver.
  - pose proof (check_and_record_no_panic (g_replay g) (command_id (command sc))
      (expires_at_ms (command sc)) now w) as Hp. by rewrite E in Hp.
Qed.

(** Whatever the outcome, the guard's replay store is either the old one (a
    check before it failed) or the one [check_and_record] left. *)
Lemma admit_replay g sc now w r g' :
  guard_admit canonicalize g sc now w = (r, g') ->
  (precheck g sc now <> Ok tt /\ g' = g /\ is_ok r = false)
  \/ (precheck g sc now = Ok tt
      /\ exists r0, check_and_record (g_replay g) (command_id (command sc))
                      (expires_at_ms (command sc)) now w = (r0, g_replay g')
      /\ g' = with_replay g (g_replay g') /\ (is_ok r = true -> is_ok r0 = true)).
Proof.
  unfold guard_admit. destruct (precheck g sc now) as [[]|e|]; [|naive_solver..].
  destruct (check_and_record _ _ _ _ _) as [r0 st] eqn:E. intros [= <- <-].
  right. split; [done|]. exists r0. split; [done|]. split; [done|]. by destruct r0.
Qed.

(** ** Runs of the command handler *)

Section Run.
Context {S : Type} (ex : ActionExecutor S).

(** A handler with its executor's state, the latest clock value it has seen and
    the commands it has handed to the executor, most recent first. *)
Record hworld := { hguard : @Guard _; hstate : S; hclock : Z; executed : list (Z * Z) }.

Definition ran (r : option CommandResult) : bool :=
  match r with Some (Refused _) | None => false | Some _ => true end.

Inductive hstep : hworld -> hworld -> Prop :=
| hstep_command W sc now w r g' s' :
    command_ok (command sc) = true -> fits 64 now = true ->
    hclock W <= now + PRUNE_GRACE_MS ->
    clean w (command_id (command sc)) (expires_at_ms (command sc)) ->
    run_command canonicalize (hguard W) ex (hstate W) sc now w = (r, g', s') ->
    hstep W {| hguard := g'; hstate := s'; hclock := Z.max (hclock W) now;
               executed := if ran r
                 then (command_id (command sc), expires_at_ms (command sc)) :: executed W
                 else executed W |}
| hstep_restart W :
    hstep W {| hguard := with_replay (hguard W) (open (file (g_replay (hguard W))));
               hstate := hstate W; hclock := hclock W; executed := executed W |}.

(** The replay store's own run that a handler's run implements. *)
Definition simulates (W : hworld) (R : world) : Prop :=
  store R = g_replay (hguard W) /\ clock R <= hclock W /\ executed W `sublist_of` admitted R.

Lemma run_command_ran g s sc now w r g' s' :
  run_command canonicalize g ex s sc now w = (r, g', s') ->
  exists a, guard_admit canonicalize g sc now w = (a, g') /\ ran r = is_ok a
            /\ (is_ok a = false -> s' = s).
Proof.
  unfold run_command. destruct (guard_admit _ g sc now w) as [[[]|e|] g0].
  - destruct (dispatch ex s _ _) as [res s1]. intros [= <- <- <-].
    eexists. split; [done|]. split; [|done]. destruct res; simpl; [|done]. by destruct (dry_run _).
  - intros [= <- <- <-]. eauto.
  - intros [= <- <- <-]. eauto.
Qed.

Lemma hstep_simulates W W' R :
  hstep W W' -> simulates W R -> exists R', rtc rstep R R' /\ simulates W' R'.
Proof.
  intros Hs (Hst & Hclk & Hsub). destruct Hs as [W sc now w r g' s' Hc Hnow Hle Hcl Hrun|W].
  - apply run_command_ran in Hrun as (a & Ha & Hran & _).
    apply admit_replay in Ha as [(_ & -> & Hf)|(Hpre & r0 & Hcr & _ & Himp)].
    + exists R. split; [done|]. rewrite Hran, Hf. unfold simulates; simpl. split_and!; [done|lia|done].
    + apply precheck_ok in Hpre as (_ & _ & _ & _ & Hexp).
      unfold command_ok in Hc. rewrite !andb_true_iff in Hc.
      destruct Hc as (((((Hi & _) & _) & _) & He) & _).
      eexists. split; [eapply rtc_once; refine (step_call R _ _ now w r0 (g_replay g') Hi He Hnow Hexp _ Hcl _)|].
      * lia.
      * by rewrite Hst.
      * unfold simulates; simpl. split_and!; [done|lia|]. rewrite Hran.
        destruct (is_ok a); [rewrite (Himp eq_refl); by apply sublist_skip|].
        destruct (is_ok r0); [by apply sublist_cons|done].
  - eexists. split; [apply rtc_once, step_restart|]. unfold simulates; simpl.
    rewrite Hst. split_and!; done.
Qed.

Lemma hrun_simulates W W' R :
  rtc hstep W W' -> simulates W R -> exists R', rtc rstep R R' /\ simulates W' R'.
Proof.
  intros Hr. revert R. induction Hr as [W0|W0 W1 W2 Hs Hr IH]; intros R HR. { exists R. done. }
  destruct (hstep_simulates _ _ _ Hs HR) as (R1 & Hr1 & HR1).
  destruct (IH _ HR1) as (R' & Hr' & HR'). exists R'. split; [by etrans|done].
Qed.

End Run.
End Admission.

(** ** Lenient resolution

    [lenient canonicalize p cs] says what the comment above [resolve_lenient]
    promises: the longest ancestor of [p] the operating system can resolve,
    followed by the rest of [p]; [p] itself when there is none. *)

Section Lenient.
Context (canonicalize : list byte -> option (list byte)).

Inductive lenient (p : list byte) : list Component -> Prop :=
| lenient_self c : canonicalize p = Some c -> lenient p (components c)
| lenient_ancestor pre rest c :
    canonicalize p = None ->
    rest <> [] -> components p = pre ++ map Normal rest ->
    canonicalize (render pre) = Some c ->
    (forall n, (0 < n < List.length rest)%nat ->
       canonicalize (render (pre ++ map Normal (take n rest))) = None) ->
    lenient p (components c ++ map Normal rest)
| lenient_none :
    canonicalize p = None ->
    (forall pre rest, rest <> [] -> components p = pre ++ map Normal rest ->
       canonicalize (render pre) = None) ->
    lenient p (components p).

Lemma resolve_up_some cs rest out :
  resolve_up canonicalize (rev cs) rest = Some out ->
  exists pre mid c, mid <> [] /\ cs = pre ++ map Normal mid
    /\ canonicalize (render pre) = Some c /\ out = components c ++ map Normal (mid ++ rest)
    /\ forall n, (0 < n < List.length mid)%nat ->
         canonicalize (render (pre ++ map Normal (take n mid))) = None.
Proof.
  revert rest. induction cs as [|x cs IH] using rev_ind; intros rest; [done|].
  rewrite rev_app_distr. simpl. destruct x as [| | |n]; try done. rewrite rev_involutive.
  destruct (canonicalize (render cs)) as [c|] eqn:Ec.
  - intros [= <-]. exists cs, [n], c. split_and!; try done. intros k Hk. simpl in Hk. lia.
  - intros (pre & mid & c & Hm & -> & Hc & -> & Hlong)%IH. exists pre, (mid ++ [n]), c.
    rewrite map_app, <- !app_assoc. split_and!; try done; [by destruct mid|].
    intros k. rewrite length_app. simpl. intros Hk.
    destruct (decide (k = List.length mid)) as [->|Hne].
    + by rewrite take_app_length.
    + rewrite take_app_le by lia. apply Hlong. lia.
Qed.

Lemma resolve_up_none cs rest :
  resolve_up canonicalize (rev cs) rest = None ->
  forall pre mid, mid <> [] -> cs = pre ++ map Normal mid -> canonicalize (render pre) = None.
Proof.
  revert rest. induction cs as [|x cs IH] using rev_ind; intros rest Hn pre mid Hm E.
  { destruct pre; [|done]. by destruct mid. }
  destruct mid as [|m mid _] using rev_ind; [done|]. rewrite map_app, app_assoc in E.
  apply app_inj_tail in E as [-> ->]. rewrite rev_app_distr in Hn. simpl in Hn.
  rewrite rev_involutive in Hn.
  destruct (canonicalize (render _)) eqn:Ec; [done|].
  destruct (decide (mid = [])) as [->|Hne]; [by rewrite app_nil_r in Ec|].
  by eapply IH.
Qed.

Lemma resolve_lenient_spec p : lenient p (resolve_lenient canonicalize p).
Proof.
  unfold resolve_lenient. destruct (canonicalize p) eqn:Ep; [by constructor|].
  destruct (resolve_up _ _ _) as [out|] eqn:E.
  - apply resolve_up_some in E as (pre & mid & c & Hm & Hc & Hp & -> & Hl).
    rewrite app_nil_r. by apply (lenient_ancestor p pre).
  - apply lenient_none; [done|]. intros pre rest Hr Hc. by eapply resolve_up_none.
Qed.

Lemma check_path_ok pt path :
  check_path canonicalize pt path = Ok tt <->
  has_root (bytes_of path) = true
  /\ ParentDir ∉ components (bytes_of path)
  /\ starts_with (components (bytes_of path)) (components (vault pt)) = false
  /\ starts_with (resolve_lenient canonicalize (bytes_of path))
       (components (default (vault pt) (canonicalize (vault pt)))) = false.
Proof.
  unfold check_path, deny.
  assert (existsb (fun c => bool_decide (c = ParentDir)) (components (bytes_of path)) = false
    <-> ParentDir ∉ components (bytes_of path)) as Hex.
  { rewrite <- not_true_iff_false, existsb_exists.
    setoid_rewrite bool_decide_eq_true. setoid_rewrite list_elem_of_In. naive_solver. }
  destruct (has_root _); simpl; [|naive_solver].
  destruct (existsb _ _); [naive_solver|].
  destruct (starts_with _ (components (vault pt))); [naive_solver|].
  destruct (starts_with (resolve_lenient _ _) _); naive_solver.
Qed.

(** Of two ways to split a path, the one with the longer rest has its ancestor
    above the other's. *)
Lemma split_shorter pre1 rest1 pre2 rest2 :
  pre1 ++ map Normal rest1 = pre2 ++ map Normal rest2 -> rest2 <> [] ->
  (List.length rest2 < List.length rest1)%nat ->
  exists n, (0 < n < List.length rest1)%nat /\ pre2 = pre1 ++ map Normal (take n rest1).
Proof.
  intros E Hr Hl. destruct rest2 as [|x rest2]; [done|]. simpl in Hl.
  exists (List.length rest1 - List.length (x :: rest2))%nat. simpl. split; [lia|].
  set (n := (_ - _)%nat). rewrite <- (take_drop n rest1), map_app, app_assoc in E.
  by apply app_inj_2 in E as [E _]; [|rewrite !length_map, length_drop; simpl; lia].
Qed.

Lemma lenient_det p cs cs' : lenient p cs -> lenient p cs' -> cs = cs'.
Proof.
  destruct 1 as [c Hc|pre rest c Hn Hr Hp Hc Hl|Hn Hl];
    destruct 1 as [c' Hc'|pre' rest' c' Hn' Hr' Hp' Hc' Hl'|Hn' Hl']; try congruence.
  - rewrite Hp in Hp'. destruct (Nat.lt_trichotomy (List.length rest) (List.length rest')) as [Hlt|[Heq|Hlt]].
    + destruct (split_shorter pre' rest' pre rest) as (n & Hb & ->); [done..|].
      by rewrite Hl' in Hc.
    + apply app_inj_2 in Hp' as [-> E]; [|by rewrite !length_map].
      rewrite Hc in Hc'. injection Hc' as ->. by rewrite E.
    + destruct (split_shorter pre rest pre' rest') as (n & Hb & ->); [done..|].
      by rewrite Hl in Hc'.
  - by rewrite (Hl' pre rest) in Hc.
  - by rewrite (Hl pre' rest') in Hc'.
Qed.

End Lenient.

(** [Path::starts_with] is the prefix relation on components. *)
Lemma starts_with_spec p q : starts_with p q = true <-> q `prefix_of` p.
Proof.
  revert p. induction q as [|c q IH]; intros p; simpl.
  - split; [intros _; apply prefix_nil|by destruct p].
  - destruct p as [|d p]; [split; [done|intros H; by apply prefix_nil_not in H]|].
    simpl. rewrite andb_true_iff, bool_decide_eq_true, IH. split.
    + intros [-> ?]. by apply prefix_cons.
    + intros H. split; [by eapply prefix_cons_inv_1 in H|by eapply prefix_cons_inv_2].
Qed.

(** ** Properties *)

(** C5. A command is admitted exactly when its signature verifies under the
    agent's key, it is addressed to this host, its lifetime and clock window are
    in bounds, its id is not in the (pruned) replay store, the store could
    persist the id, and its target is not protected; the id is then recorded,
    in memory and on disk. *)
Theorem admit_exactly canonicalize `{Ed25519} `{UuidText} g sc now w g' :
  guard_admit canonicalize g sc now w = (Ok tt, g') <->
  (verify sc (g_key g) = Ok tt
   /\ cmd_host_id (command sc) = g_host_id g
   /\ sat_sub (expires_at_ms (command sc)) (issued_at_ms (command sc)) <= MAX_TTL_MS
   /\ issued_at_ms (command sc) <= sat_add64 now SKEW_MS
   /\ now < expires_at_ms (command sc))
  /\ fresh g sc now /\ w = WriteOk
  /\ check_target canonicalize (g_protected g) (action (command sc)) = Ok tt
  /\ g' = with_replay g
       {| seen := <[command_id (command sc) := expires_at_ms (command sc)]>
                    (prune now (seen (g_replay g)));
          file := file (g_replay g)
                  ++ record_line (command_id (command sc)) (expires_at_ms (command sc)) |}.
Proof. rewrite admit_ok, precheck_ok. naive_solver. Qed.

(** C2. No signed command reaches the executor twice: along any run of the
    command handler, over arbitrary (also repeated) command envelopes and
    restarts of the agent, every (command id, expiry) pair is handed to the
    executor at most once.  Two conditions: the clock is never set back by more
    than the replay store's grace period of 60 s, and a write that fails leaves
    nothing or the whole line in the store's file (a write torn inside a line
    does reopen replay: [Replay.torn_write_failure_reopens_replay]). *)
Theorem no_command_runs_twice canonicalize `{Ed25519} `{UuidText} {S} (ex : ActionExecutor S)
    g s content W :
  g_replay g = open content ->
  rtc (hstep canonicalize ex) {| hguard := g; hstate := s; hclock := 0; executed := [] |} W ->
  NoDup (executed W).
Proof.
  intros Hg Hr.
  destruct (hrun_simulates canonicalize ex _ _ (initial content) Hr) as (R & HR & _ & _ & Hsub).
  { split_and!; [done|done|apply sublist_nil_l]. }
  eapply sublist_NoDup; [|exact Hsub]. by apply (inv_reachable content).
Qed.

(** A refusal has no effect on the world the executor acts on, and the
    executor is only ever called with the action and the dry-run flag that were
    signed; its answer is reported unchanged, a dry run as [DryRunOk]. *)
Lemma run_command_effects canonicalize `{Ed25519} `{UuidText} {S} (ex : ActionExecutor S)
    g s sc now w :
  let '(r, g', s') := run_command canonicalize g ex s sc now w in
  match guard_admit canonicalize g sc now w with
  | (Ok _, g1) =>
      g' = g1 /\ s' = (dispatch ex s (action (command sc)) (dry_run (command sc))).2
      /\ match (dispatch ex s (action (command sc)) (dry_run (command sc))).1 with
         | inl d => r = Some (if dry_run (command sc) then DryRunOk (summary d) else Executed d)
         | inr f => r = Some (Failed (fail_code f) (fail_message f))
         end
  | (Err e, g1) => g' = g1 /\ s' = s /\ r = Some (Refused e)
  | (Panic, _) => s' = s /\ r = None
  end.
Proof.
  unfold run_command. destruct (guard_admit _ g sc now w) as [[[]|e|] g1]; [|done..].
  destruct (dispatch _ _ _ _) as [[d|f] s']; done.
Qed.

(** C6. A path admitted for quarantine is absolute, has no [".."] component,
    is not below the vault as written, and the path it resolves to — the longest
    ancestor the operating system can resolve, followed by the rest — is not
    below the resolved vault. *)
Theorem quarantine_target_outside_vault canonicalize pt path :
  check_path canonicalize pt path = Ok tt ->
  has_root (bytes_of path) = true
  /\ ParentDir ∉ components (bytes_of path)
  /\ ~ components (vault pt) `prefix_of` components (bytes_of path)
  /\ forall cs, lenient canonicalize (bytes_of path) cs ->
       ~ components (default (vault pt) (canonicalize (vault pt))) `prefix_of` cs.
Proof.
  intros (Hr & Hd & Hv & Hl)%check_path_ok. split_and!; [done|done| |].
  - rewrite <- starts_with_spec. congruence.
  - intros cs Hcs. rewrite (lenient_det _ _ _ _ Hcs (resolve_lenient_spec canonicalize _)).
    rewrite <- starts_with_spec. congruence.
Qed.

(** A file system in which only ["/data"] and the vault ["/var/v"] exist. *)
Definition example_fs (p : list byte) : option (list byte) :=
  if decide (p = bytes_of "/data") then Some p
  else if decide (p = bytes_of "/var/v") then Some p
  else None.

Definition example_targets : ProtectedTargets :=
  {| agent_pid := 77; extra_pids := [78]; vault := bytes_of "/var/v" |}.

Lemma quarantine_target_outside_vault_witness :
  check_path example_fs example_targets "/data/a/b" = Ok tt
  /\ ~ components (bytes_of "/var/v") `prefix_of` components (bytes_of "/data/a/b").
Proof.
  split; [vm_compute; reflexivity|].
  refine (proj1 (proj2 (proj2
    (quarantine_target_outside_vault example_fs example_targets "/data/a/b" _)))).
  vm_compute; reflexivity.
Defined.

(** An executor that counts its calls. *)
Definition counting_executor : ActionExecutor nat :=
  let ok (s : nat) : (ExecDetail + ExecFailure) * nat :=
    (inl {| summary := "done"; detail_quarantine_id := None; detail_sha256 := None;
            signal := None |}, S s) in
  {| terminate s _ _ _ _ := ok s; quarantine s _ _ _ _ := ok s;
     restore s _ _ := ok s; apply_policy := default_apply_policy |}.

Definition example_guard : @Guard toy_ed25519 :=
  @Build_Guard toy_ed25519 2 9 (@open concrete_uuid []) example_targets.

Definition example_signed : SignedCommand :=
  {| command := example_command;
     signature := match @sign toy_ed25519 example_command 9 with Ok sc => signature sc | _ => [] end |}.

(** Presenting the command at time [now]. *)
Definition present (W : @hworld toy_ed25519 nat) (now : Z) : @hworld toy_ed25519 nat :=
  let c := @run_command example_fs toy_ed25519 concrete_uuid nat (@hguard toy_ed25519 nat W)
             counting_executor (@hstate toy_ed25519 nat W) example_signed now WriteOk in
  @Build_hworld toy_ed25519 nat c.1.2 c.2 (Z.max (@hclock toy_ed25519 nat W) now)
    (if ran c.1.1
     then (command_id (command example_signed), expires_at_ms (command example_signed))
          :: @executed toy_ed25519 nat W
     else @executed toy_ed25519 nat W).

Lemma present_step W now :
  fits 64 now = true -> @hclock toy_ed25519 nat W <= now + PRUNE_GRACE_MS ->
  @hstep example_fs toy_ed25519 concrete_uuid nat counting_executor W (present W now).
Proof.
  intros Hn Hc. unfold present.
  apply (@hstep_command example_fs toy_ed25519 concrete_uuid nat counting_executor W
           example_signed now WriteOk); [by vm_compute|done|done|done|].
  by destruct (run_command _ _ _ _ _ _ _) as [[? ?] ?].
Qed.

Definition example_start : @hworld toy_ed25519 nat :=
  @Build_hworld toy_ed25519 nat example_guard 0%nat 0 [].

(** The command is presented twice; the executor runs once. *)
Lemma no_command_runs_twice_witness :
  @hstate toy_ed25519 nat (present (present example_start 1500) 1600) = 1%nat
  /\ NoDup (@executed toy_ed25519 nat (present (present example_start 1500) 1600)).
Proof.
  split; [vm_compute; reflexivity|].
  apply (@no_command_runs_twice example_fs toy_ed25519 concrete_uuid nat counting_executor
           example_guard 0%nat [] (present (present example_start 1500) 1600)); [reflexivity|].
  apply (rtc_l _ _ (present example_start 1500)); [apply present_step; vm_compute; congruence|].
  apply rtc_once, present_step; vm_compute; congruence.
Defined.

Lemma admit_exactly_witness :
  sat_sub (expires_at_ms example_command) (issued_at_ms example_command) <= MAX_TTL_MS
  /\ check_target example_fs example_targets (action example_command) = Ok tt.
Proof.
  assert ((@guard_admit example_fs toy_ed25519 concrete_uuid example_guard example_signed 1500 WriteOk).1
    = Ok tt) as Hok by (vm_compute; reflexivity).
  pose proof (proj1 (@admit_exactly example_fs toy_ed25519 concrete_uuid example_guard example_signed
    1500 WriteOk (@guard_admit example_fs toy_ed25519 concrete_uuid example_guard example_signed 1500 WriteOk).2))
    as Ha.
  destruct Ha as ((_ & _ & Httl & _) & _ & _ & Ht & _).
  { rewrite <- Hok. apply surjective_pairing. }
  split; [exact Httl|exact Ht].
Defined.

(** Presented after its expiry, the command is refused and nothing runs. *)
Lemma run_command_effects_witness :
  (@run_command example_fs toy_ed25519 concrete_uuid nat example_guard counting_executor 0%nat
     example_signed 40000 WriteOk).2 = 0%nat.
Proof.
  pose proof (@run_command_effects example_fs toy_ed25519 concrete_uuid nat counting_executor
    example_guard 0%nat example_signed 40000 WriteOk) as Hr.
  assert ((@guard_admit example_fs toy_ed25519 concrete_uuid example_guard example_signed 40000 WriteOk).1
    = Err RExpired) as Ha by (vm_compute; reflexivity).
  destruct (@run_command _ _ _ _ _ _ _ _ _ _) as [[r g'] s'].
  destruct (@guard_admit _ _ _ _ _ _ _) as [a g1]. simpl in Ha. subst a. apply Hr.
Defined.
