(* ===== verification/AuditLog.v ===== *)
(** * The hash-chained audit log: [crates/osiris-audit/src/entry.rs] and
      [file_log.rs]

    The log is a JSON-lines file; each entry's hash covers its fields and the
    hash of the previous entry.  The JSON text of an entry comes from derived
    [serde] code, the interface [AuditSerde]. *)

From S2P Require Import Prelude BTree Concrete Json Schema.

(** ** [entry.rs] *)

Inductive ActorRef := AUser (user_id : Uuid) | ASystem.
Inductive AuditResult := Success | Failure | Denied.

Record NewAuditEntry := {
  n_who : ActorRef; n_what : string; n_target : EntityRef; n_why : option string;
  n_result : AuditResult }.

Record AuditEntry := {
  audit_id : Uuid; a_timestamp : Z; who : ActorRef; what : string; target : EntityRef;
  why : option string; result : AuditResult; prev_entry_hash : string; entry_hash : string }.

#[global] Instance actor_eq_dec : EqDecision ActorRef.
Proof. solve_decision. Defined.
#[global] Instance audit_result_eq_dec : EqDecision AuditResult.
Proof. solve_decision. Defined.
#[global] Instance audit_entry_eq_dec : EqDecision AuditEntry.
Proof. solve_decision. Defined.

(** The JSON text of the entry types.  Printing is injective; an entry prints as
    one compact JSON object, hence without a raw newline, and reads back; text
    after a complete object is an error. *)
Class AuditSerde := {
  who_json : ActorRef -> list byte;
  target_json : EntityRef -> list byte;
  result_json : AuditResult -> list byte;
  entry_json : AuditEntry -> list byte;
  entry_parse : list byte -> option AuditEntry;
  who_json_inj a b : who_json a = who_json b -> a = b;
  target_json_inj a b : target_json a = target_json b -> a = b;
  result_json_inj a b : result_json a = result_json b -> a = b;
  entry_json_object e : exists body, entry_json e = Byte.x7b :: body ++ [Byte.x7d];
  entry_json_line e : nl ∉ entry_json e;
  entry_json_utf8 e : utf8_valid (entry_json e) = true;
  entry_json_parse e : entry_parse (entry_json e) = Some e;
  entry_json_trailing e b l : is_whitespace (b2z b) = false -> entry_parse (entry_json e ++ b :: l) = None;
}.

(** ** [file_log.rs] *)

Definition GENESIS_HASH : string :=
  "0000000000000000000000000000000000000000000000000000000000000000".

Inductive AuditLogError :=
| LogOpen | LogRead | LogReadEntry | LogWrite | LogSerialize
| ChainBroken (id : Uuid) (expected found : string).

Section FileLog.
Context `{HexCodec} `{Sha256} `{AuditSerde}.

Definition hash_field (b : list byte) : list byte :=
  le_bytes 8 (Z.of_nat (List.length b)) ++ b.

(** The bytes [compute_hash] feeds to the hasher. *)
Definition hash_preimage (prev : string) (id : Uuid) (ts : Z) (who : ActorRef) (what : string)
    (target : EntityRef) (why : option string) (result : AuditResult) : list byte :=
  hash_field (bytes_of prev)
  ++ be_bytes 16 id
  ++ le_bytes 8 ts
  ++ hash_field (who_json who)
  ++ hash_field (bytes_of what)
  ++ hash_field (target_json target)
  ++ match why with
     | Some w => [z2b 1] ++ hash_field (bytes_of w)
     | None => [z2b 0]
     end
  ++ hash_field (result_json result).

Definition compute_hash (prev : string) (id : Uuid) (ts : Z) (who : ActorRef) (what : string)
    (target : EntityRef) (why : option string) (result : AuditResult) : string :=
  hex_encode (sha256 (hash_preimage prev id ts who what target why result)).

(** One line of [reader.lines()]: a line break and a carriage return before it
    are removed; text that is not UTF-8 is a read error. *)
Definition strip_eol (l : list byte) : list byte :=
  match rev l with
  | b :: r =>
      if decide (b = nl) then
        match r with
        | c :: r' => if decide (c = Byte.x0d) then rev r' else rev r
        | [] => []
        end
      else l
  | [] => []
  end.

Definition read_entry (l : list byte) : outcome AuditLogError (option AuditEntry) :=
  let line := strip_eol l in
  if negb (utf8_valid line) then Err LogRead
  else if is_blank (of_bytes line) then Ok None
  else let? e := ok_or (entry_parse line) LogReadEntry in Ok (Some e).

Fixpoint read_entries (ls : list (list byte)) : outcome AuditLogError (list AuditEntry) :=
  match ls with
  | [] => Ok []
  | l :: ls =>
      let? e := read_entry l in
      let? es := read_entries ls in
      Ok (match e with Some e => e :: es | None => es end)
  end.

(** The log file: its bytes, or [None] when it cannot be opened. *)
Definition read_all (file : option (list byte)) : outcome AuditLogError (list AuditEntry) :=
  let? content := ok_or file LogOpen in
  read_entries (read_lines content).

Definition last_entry_hash (es : list AuditEntry) : string :=
  match last es with Some e => entry_hash e | None => GENESIS_HASH end.

Definition last_hash (file : option (list byte)) : outcome AuditLogError string :=
  let? es := read_all file in Ok (last_entry_hash es).

Definition mk_entry (prev : string) (n : NewAuditEntry) (id : Uuid) (ts : Z) : AuditEntry :=
  {| audit_id := id; a_timestamp := ts; who := n_who n; what := n_what n; target := n_target n;
     why := n_why n; result := n_result n; prev_entry_hash := prev;
     entry_hash := compute_hash prev id ts (n_who n) (n_what n) (n_target n) (n_why n) (n_result n) |}.

(** What the operating system does with the open and the write of [append]:
    both succeed, the open fails, or an error is reported after a prefix of the
    line reached the file. *)
Inductive append_io := AppendOk | AppendOpenFail | AppendWriteFail (n : nat).

(** [append]: [id] is the fresh [Uuid::now_v7()], [ts] the system time. *)
Definition append (file : option (list byte)) (n : NewAuditEntry) (id : Uuid) (ts : Z)
    (io : append_io) : outcome AuditLogError AuditEntry * option (list byte) :=
  match last_hash file, file with
  | Ok prev, Some content =>
      let e := mk_entry prev n id ts in
      let line := entry_json e ++ [nl] in
      match io with
      | AppendOpenFail => (Err LogOpen, file)
      | AppendWriteFail k => (Err LogWrite, Some (content ++ take k line))
      | AppendOk => (Ok e, Some (content ++ line))
      end
  | Ok _, None => (Err LogOpen, file)
  | Err err, _ => (Err err, file)
  | Panic, _ => (Panic, file)
  end.

Definition recompute (e : AuditEntry) : string :=
  compute_hash (prev_entry_hash e) (audit_id e) (a_timestamp e) (who e) (what e) (target e)
    (why e) (result e).

Fixpoint verify_entries (expected_prev : string) (es : list AuditEntry)
  : outcome AuditLogError unit :=
  match es with
  | [] => Ok tt
  | e :: es =>
      if negb (String.eqb (prev_entry_hash e) expected_prev) then
        Err (ChainBroken (audit_id e) expected_prev (prev_entry_hash e))
      else if negb (String.eqb (recompute e) (entry_hash e)) then
        Err (ChainBroken (audit_id e) (recompute e) (entry_hash e))
      else verify_entries (entry_hash e) es
  end.

Definition verify_chain (file : option (list byte)) : outcome AuditLogError unit :=
  let? es := read_all file in verify_entries GENESIS_HASH es.

(** ** The preimage determines the entry *)

Definition len64 (b : list byte) : bool := fits 64 (Z.of_nat (List.length b)).

(** The values the Rust types can hold: 64-bit lengths, a 128-bit id and a
    64-bit time stamp. *)
Definition entry_ok (e : AuditEntry) : bool :=
  fits 128 (audit_id e) && fits 64 (a_timestamp e)
  && len64 (bytes_of (prev_entry_hash e)) && len64 (who_json (who e))
  && len64 (bytes_of (what e)) && len64 (target_json (target e))
  && match why e with Some w => len64 (bytes_of w) | None => true end
  && len64 (result_json (result e)).

Definition preimage (e : AuditEntry) : list byte :=
  hash_preimage (prev_entry_hash e) (audit_id e) (a_timestamp e) (who e) (what e) (target e)
    (why e) (result e).

Lemma hash_field_prefix_free : PrefixFree (fun b => len64 b = true) hash_field.
Proof. apply (prefix_free_len (le_bytes 8) 64), (prefix_free_le 8). Qed.

(** All fields but the entry's own hash. *)
Lemma preimage_inj e e' :
  entry_ok e = true -> entry_ok e' = true -> preimage e = preimage e' ->
  prev_entry_hash e = prev_entry_hash e' /\ audit_id e = audit_id e'
  /\ a_timestamp e = a_timestamp e' /\ who e = who e' /\ what e = what e'
  /\ target e = target e' /\ why e = why e' /\ result e = result e'.
Proof.
  unfold entry_ok, preimage, hash_preimage. rewrite !andb_true_iff.
  intros (((((((F1&F2)&F3)&F4)&F5)&F6)&F7)&F8) (((((((G1&G2)&G3)&G4)&G5)&G6)&G7)&G8) E.
  apply hash_field_prefix_free in E as [E1%bytes_of_inj E]; try done.
  apply (prefix_free_be 16) in E as [E2 E]; try done.
  apply (prefix_free_le 8) in E as [E3 E]; try done.
  apply hash_field_prefix_free in E as [E4%who_json_inj E]; try done.
  apply hash_field_prefix_free in E as [E5%bytes_of_inj E]; try done.
  apply hash_field_prefix_free in E as [E6%target_json_inj E]; try done.
  assert (why e = why e' /\ hash_field (result_json (result e)) = hash_field (result_json (result e')))
    as [E7 E'].
  { destruct (why e) as [w|], (why e') as [w'|]; cbn [app] in E; rewrite <- ?app_assoc in E.
    - apply cons_eq_inv in E as [_ E].
      apply hash_field_prefix_free in E as [->%bytes_of_inj E]; done.
    - by apply cons_eq_inv in E as [? _].
    - by apply cons_eq_inv in E as [? _].
    - by apply cons_eq_inv in E as [_ E]. }
  apply (f_equal (fun l => l ++ [])) in E'.
  apply hash_field_prefix_free in E' as [E8%result_json_inj _]; done.
Qed.

Lemma hex_encode_inj a b : hex_encode a = hex_encode b -> a = b.
Proof. intros E. apply (f_equal hex_decode) in E. rewrite !hex_decode_encode in E. congruence. Qed.

(** ** Chains *)

Definition chained (h : string) (es : list AuditEntry) : Prop := verify_entries h es = Ok tt.

Lemma chained_cons h e es :
  chained h (e :: es) <->
  prev_entry_hash e = h /\ recompute e = entry_hash e /\ chained (entry_hash e) es.
Proof.
  unfold chained. simpl. destruct (String.eqb_spec (prev_entry_hash e) h); simpl; [|naive_solver].
  destruct (String.eqb_spec (recompute e) (entry_hash e)); simpl; naive_solver.
Qed.

Lemma chained_app h es es' :
  chained h (es ++ es') <->
  chained h es /\ chained (match last es with Some e => entry_hash e | None => h end) es'.
Proof.
  revert h. induction es as [|e es IH]; intros h; [simpl; unfold chained; simpl; naive_solver|].
  change ((e :: es) ++ es') with (e :: (es ++ es')). rewrite !chained_cons, IH.
  destruct es as [|e' es]; [simpl; unfold chained; simpl; naive_solver|].
  change (last (e :: e' :: es)) with (last (e' :: es)).
  assert (is_Some (last (e' :: es))) as [x ->]
    by (apply last_is_Some; done). naive_solver.
Qed.

(** The ways two logs with the same last hash can differ: two entries hash to
    the same digest although their hashed bytes differ, or an entry hashes to
    the genesis value. *)
Definition collision_in (es es' : list AuditEntry) : Prop :=
  exists e e', e ∈ es /\ e' ∈ es' /\ preimage e <> preimage e'
    /\ sha256 (preimage e) = sha256 (preimage e').

Definition genesis_preimage_in (es : list AuditEntry) : Prop :=
  exists e, e ∈ es /\ hex_encode (sha256 (preimage e)) = GENESIS_HASH.

Lemma last_genesis es e :
  chained GENESIS_HASH (es ++ [e]) -> entry_hash e = GENESIS_HASH -> genesis_preimage_in (es ++ [e]).
Proof.
  intros [_ (_ & Hr & _)%chained_cons]%chained_app Hg. exists e.
  split; [set_solver|]. unfold recompute, compute_hash in Hr. unfold preimage. congruence.
Qed.

Lemma last_entry_hash_snoc es e : last_entry_hash (es ++ [e]) = entry_hash e.
Proof. unfold last_entry_hash. by rewrite last_snoc. Qed.

Lemma chained_snoc es e :
  chained GENESIS_HASH (es ++ [e]) <->
  chained GENESIS_HASH es /\ prev_entry_hash e = last_entry_hash es /\ recompute e = entry_hash e.
Proof.
  rewrite chained_app, chained_cons. unfold last_entry_hash, chained at 2. simpl. tauto.
Qed.

Lemma same_hash_same_entry e e' :
  entry_ok e = true -> entry_ok e' = true ->
  recompute e = entry_hash e -> recompute e' = entry_hash e' -> entry_hash e = entry_hash e' ->
  e = e' \/ (preimage e <> preimage e' /\ sha256 (preimage e) = sha256 (preimage e')).
Proof.
  intros He He' Hr Hr' Hh. destruct (decide (preimage e = preimage e')) as [Hp|Hp].
  - left. destruct (preimage_inj _ _ He He' Hp) as (?&?&?&?&?&?&?&?).
    destruct e, e'; simpl in *; congruence.
  - right. split; [done|]. apply hex_encode_inj. rewrite <- Hr, <- Hr' in Hh. exact Hh.
Qed.

Lemma chain_determined es es' :
  Forall (fun e => entry_ok e = true) es -> Forall (fun e => entry_ok e = true) es' ->
  chained GENESIS_HASH es -> chained GENESIS_HASH es' ->
  last_entry_hash es = last_entry_hash es' ->
  es = es' \/ collision_in es es' \/ genesis_preimage_in (es ++ es').
Proof.
  revert es'. induction es as [|e es IH] using rev_ind; intros es' Ho Ho' Hc Hc' Hl.
  - destruct es' as [|e' es' _] using rev_ind; [by left|]. right; right.
    apply last_genesis; [done|]. by rewrite last_entry_hash_snoc in Hl.
  - rewrite last_entry_hash_snoc in Hl. destruct es' as [|e' es' _] using rev_ind.
    { right; right. rewrite app_nil_r. by apply last_genesis. }
    rewrite last_entry_hash_snoc in Hl.
    apply Forall_app in Ho as [Ho [He _]%Forall_cons].
    apply Forall_app in Ho' as [Ho' [He' _]%Forall_cons].
    apply chained_snoc in Hc as (Hc & Hp & Hr). apply chained_snoc in Hc' as (Hc' & Hp' & Hr').
    destruct (same_hash_same_entry e e' He He' Hr Hr' Hl) as [->|[Hne Hs]].
    + destruct (IH es' Ho Ho' Hc Hc' ltac:(congruence)) as [->|[(x & y & ? & ? & ?)|(x & Hx & ?)]].
      * by left.
      * right; left. exists x, y. set_solver.
      * right; right. exists x. set_solver.
    + right; left. exists e, e'. set_solver.
Qed.

(** ** The file *)

Lemma strip_eol_object body :
  strip_eol ((Byte.x7b :: body ++ [Byte.x7d]) ++ [nl]) = Byte.x7b :: body ++ [Byte.x7d].
Proof.
  unfold strip_eol. rewrite rev_app_distr. change (Byte.x7b :: body ++ [Byte.x7d])
    with ((Byte.x7b :: body) ++ [Byte.x7d]).
  rewrite rev_app_distr. cbn [rev app]. rewrite decide_True by done.
  rewrite decide_False by done. change (Byte.x7d :: rev body ++ [Byte.x7b])
    with ([Byte.x7d] ++ rev (Byte.x7b :: body)).
  by rewrite rev_app_distr, rev_involutive.
Qed.

Lemma not_blank_object body : is_blank (of_bytes (Byte.x7b :: body)) = false.
Proof.
  unfold is_blank, chars. rewrite bytes_of_of_bytes. simpl. done.
Qed.

Lemma read_entry_json e : read_entry (entry_json e ++ [nl]) = Ok (Some e).
Proof.
  unfold read_entry. destruct (entry_json_object e) as [body E].
  rewrite E, strip_eol_object, <- E, entry_json_utf8. cbn [negb].
  rewrite E, not_blank_object, <- E, entry_json_parse. done.
Qed.

Lemma read_entries_app l m :
  read_entries (l ++ m) =
  (let? es := read_entries l in let? es' := read_entries m in Ok (es ++ es')).
Proof.
  induction l as [|x l IH]; simpl; [by destruct (read_entries m)|].
  destruct (read_entry x) as [o| |]; simpl; [|done..].
  rewrite IH. destruct (read_entries l); simpl; [|done..].
  destruct (read_entries m); simpl; [|done..]. by destruct o.
Qed.

Lemma read_all_snoc c e es :
  ends_nl c -> read_all (Some c) = Ok es ->
  read_all (Some (c ++ entry_json e ++ [nl])) = Ok (es ++ [e]).
Proof.
  unfold read_all. cbn [ok_or obind]. intros Hn Hr.
  rewrite read_lines_app, read_entries_app, Hr by done. cbn [obind].
  rewrite read_lines_one by apply entry_json_line. cbn [read_entries].
  by rewrite read_entry_json.
Qed.

Lemma read_all_torn c e es :
  ends_nl c -> read_all (Some c) = Ok es -> read_all (Some (c ++ entry_json e)) = Ok (es ++ [e]).
Proof.
  unfold read_all. cbn [ok_or obind]. intros Hn Hr.
  rewrite read_lines_app, read_entries_app, Hr by done. cbn [obind].
  destruct (entry_json_object e) as [body E].
  rewrite read_lines_torn; [|by rewrite E|apply entry_json_line]. cbn [read_entries].
  assert (read_entry (entry_json e) = Ok (Some e)) as ->; [|done].
  unfold read_entry. assert (strip_eol (entry_json e) = entry_json e) as ->.
  { rewrite E. unfold strip_eol. change (Byte.x7b :: body ++ [Byte.x7d])
      with ((Byte.x7b :: body) ++ [Byte.x7d]) at 1. by rewrite rev_app_distr. }
  rewrite entry_json_utf8. cbn [negb]. by rewrite E, not_blank_object, <- E, entry_json_parse.
Qed.

(** [writeln!] writes the text and the line break separately: an entry whose
    line break is missing glues the next entry to it. *)
Lemma read_entry_glued e e' : read_entry (entry_json e ++ entry_json e' ++ [nl]) = Err LogReadEntry.
Proof.
  unfold read_entry. destruct (entry_json_object e) as [body E], (entry_json_object e') as [body' E'].
  assert (strip_eol (entry_json e ++ entry_json e' ++ [nl]) = entry_json e ++ entry_json e') as ->.
  { rewrite app_assoc, E, E'.
    change ((Byte.x7b :: body ++ [Byte.x7d]) ++ Byte.x7b :: body' ++ [Byte.x7d])
      with (Byte.x7b :: (body ++ [Byte.x7d]) ++ (Byte.x7b :: body') ++ [Byte.x7d]).
    rewrite app_assoc. apply strip_eol_object. }
  rewrite utf8_valid_app by apply entry_json_utf8. cbn [negb].
  rewrite E at 1. cbn [app]. rewrite not_blank_object, E', entry_json_trailing by done. done.
Qed.

End FileLog.

(** ** A concrete serializer: the entry's code number in binary, in braces *)

Fixpoint bits_of (p : positive) : list byte :=
  match p with
  | xH => []
  | xO p => Byte.x30 :: bits_of p
  | xI p => Byte.x31 :: bits_of p
  end.

Fixpoint bits_parse (l : list byte) : option positive :=
  match l with
  | [] => None
  | b :: l =>
      if decide (b = Byte.x7d) then (match l with [] => Some xH | _ => None end)
      else if decide (b = Byte.x30) then option_map xO (bits_parse l)
      else if decide (b = Byte.x31) then option_map xI (bits_parse l)
      else None
  end.

Lemma bits_parse_of p : bits_parse (bits_of p ++ [Byte.x7d]) = Some p.
Proof. induction p as [p IH|p IH|]; simpl; [by rewrite IH|by rewrite IH|done]. Qed.

Lemma bits_parse_trailing p b l : bits_parse ((bits_of p ++ [Byte.x7d]) ++ b :: l) = None.
Proof. induction p as [p IH|p IH|]; simpl; [by rewrite IH|by rewrite IH|done]. Qed.

Lemma bits_chars p b : b ∈ bits_of p -> b = Byte.x30 \/ b = Byte.x31.
Proof. induction p; simpl; set_solver. Qed.

Definition bits_text (p : positive) : list byte := Byte.x7b :: bits_of p ++ [Byte.x7d].

Definition text_bits (l : list byte) : option positive :=
  match l with
  | b :: l => if decide (b = Byte.x7b) then bits_parse l else None
  | [] => None
  end.

#[global] Instance process_key_countable : Countable ProcessKey.
Proof.
  refine (inj_countable' pk_bytes (fun l => {| pk_bytes := l |}) _). by intros [].
Defined.

Definition entity_code (e : EntityRef) :=
  match e with
  | EProcess k => inl (inl k)
  | EFile h i d => inl (inr (h, i, d))
  | EIp a => inr (0, a, 0, 0)
  | EDomain n => inr (1, n, 0, 0)
  | EUser h u => inr (2, "", h, u)
  | EContainer c => inr (3, c, 0, 0)
  | ESession s => inr (4, s, 0, 0)
  end.

Definition entity_decode (c : ProcessKey + Z * Z * Z + Z * string * Z * Z) : EntityRef :=
  match c with
  | inl (inl k) => EProcess k
  | inl (inr (h, i, d)) => EFile h i d
  | inr (n, s, h, u) =>
      if n =? 0 then EIp s else if n =? 1 then EDomain s else if n =? 2 then EUser h u
      else if n =? 3 then EContainer s else ESession s
  end.

#[global] Instance entity_ref_countable : Countable EntityRef.
Proof. refine (inj_countable' entity_code entity_decode _). by intros []. Defined.

#[global] Instance actor_countable : Countable ActorRef.
Proof.
  refine (inj_countable' (fun a => match a with AUser u => Some u | ASystem => None end)
    (fun o => match o with Some u => AUser u | None => ASystem end) _). by intros [].
Defined.

#[global] Instance audit_result_countable : Countable AuditResult.
Proof.
  refine (inj_countable' (fun a => match a with Success => None | Failure => Some true | Denied => Some false end)
    (fun o => match o with None => Success | Some true => Failure | Some false => Denied end) _). by intros [].
Defined.

#[global] Instance audit_entry_countable : Countable AuditEntry.
Proof.
  refine (inj_countable'
    (fun e => (audit_id e, a_timestamp e, who e, what e, target e, why e, result e,
               prev_entry_hash e, entry_hash e))
    (fun t => let '(i, t, w, x, g, y, r, p, h) := t in
       {| audit_id := i; a_timestamp := t; who := w; what := x; target := g; why := y;
          result := r; prev_entry_hash := p; entry_hash := h |}) _).
  by intros [].
Defined.

Lemma bits_text_inj {A} `{Countable A} (a b : A) : bits_text (encode a) = bits_text (encode b) -> a = b.
Proof.
  unfold bits_text. intros [_ E]%cons_eq_inv. apply (f_equal bits_parse) in E.
  rewrite !bits_parse_of in E. injection E as E. by apply encode_inj in E.
Qed.

Lemma bits_text_chars p b : b ∈ bits_text p -> b = Byte.x30 \/ b = Byte.x31 \/ b = Byte.x7b \/ b = Byte.x7d.
Proof.
  unfold bits_text. intros [->|[Hb|Hb]%elem_of_app]%elem_of_cons; [auto| |set_solver].
  apply bits_chars in Hb. naive_solver.
Qed.

Lemma bits_text_no_nl p : nl ∉ bits_text p.
Proof. intros Hin%bits_text_chars. naive_solver. Qed.

Lemma bits_text_utf8 p : utf8_valid (bits_text p) = true.
Proof.
  apply utf8_valid_ascii, Forall_forall. intros b Hb%bits_text_chars. naive_solver.
Qed.

Definition text_entry (l : list byte) : option AuditEntry :=
  match text_bits l with Some p => decode p | None => None end.

Lemma text_entry_bits (e : AuditEntry) : text_entry (bits_text (encode e)) = Some e.
Proof.
  unfold text_entry, bits_text. cbn [text_bits]. rewrite decide_True by done.
  by rewrite bits_parse_of, decode_encode.
Qed.

Lemma text_entry_trailing (e : AuditEntry) b l :
  is_whitespace (b2z b) = false -> text_entry (bits_text (encode e) ++ b :: l) = None.
Proof.
  intros _. unfold text_entry, bits_text. cbn [text_bits app]. rewrite decide_True by done.
  by rewrite bits_parse_trailing.
Qed.

Definition concrete_serde : AuditSerde := {|
  who_json a := bits_text (encode a);
  target_json a := bits_text (encode a);
  result_json a := bits_text (encode a);
  entry_json e := bits_text (encode e);
  entry_parse := text_entry;
  who_json_inj := bits_text_inj;
  target_json_inj := bits_text_inj;
  result_json_inj := bits_text_inj;
  entry_json_object e := ex_intro _ (bits_of (encode e)) eq_refl;
  entry_json_line e := bits_text_no_nl (encode e);
  entry_json_utf8 e := bits_text_utf8 (encode e);
  entry_json_parse := text_entry_bits;
  entry_json_trailing := text_entry_trailing;
|}.

(** ** Appending extends the chain *)

Lemma append_extends `{HexCodec} `{Sha256} `{AuditSerde} c es n id ts :
  ends_nl c -> read_all (Some c) = Ok es -> verify_chain (Some c) = Ok tt ->
  let e := mk_entry (last_entry_hash es) n id ts in
  let c' := c ++ entry_json e ++ [nl] in
  append (Some c) n id ts AppendOk = (Ok e, Some c')
  /\ read_all (Some c') = Ok (es ++ [e]) /\ verify_chain (Some c') = Ok tt /\ ends_nl c'.
Proof.
  intros Hn Hr Hv e c'. unfold append, last_hash. rewrite Hr. cbn [obind].
  pose proof (read_all_snoc c e es Hn Hr) as Hs. split_and!; [done|exact Hs| |].
  - unfold verify_chain in *. rewrite Hr in Hv. unfold c'. rewrite Hs. cbn [obind] in *.
    by apply chained_snoc.
  - right. unfold c'. rewrite app_assoc. apply last_snoc.
Qed.

(** ** Properties *)

(** Appending to a log whose chain verifies succeeds, adds exactly the
    entry it returns at the end, linked to the previous one, and leaves a log
    whose chain verifies again. *)
Lemma append_extends_chain `{HexCodec} `{Sha256} `{AuditSerde} c es n id ts :
  ends_nl c -> read_all (Some c) = Ok es -> verify_chain (Some c) = Ok tt ->
  exists e c',
    append (Some c) n id ts AppendOk = (Ok e, Some c')
    /\ prev_entry_hash e = last_entry_hash es /\ what e = n_what n
    /\ read_all (Some c') = Ok (es ++ [e])
    /\ verify_chain (Some c') = Ok tt /\ ends_nl c'.
Proof.
  intros Hn Hr Hv. destruct (append_extends c es n id ts Hn Hr Hv) as (Ha & Hs & Hv' & Hn').
  do 2 eexists. split_and!; [exact Ha|done|done|exact Hs|exact Hv'|exact Hn'].
Qed.

Definition example_new : NewAuditEntry :=
  {| n_who := ASystem; n_what := "start"; n_target := EIp "10.0.0.1"; n_why := None;
     n_result := Success |}.

Lemma append_extends_chain_witness :
  exists e c', @append concrete_hex concrete_sha256 concrete_serde (Some []) example_new 1 5 AppendOk
               = (Ok e, Some c')
    /\ @read_all concrete_serde (Some c') = Ok [e].
Proof.
  destruct (@append_extends_chain concrete_hex concrete_sha256 concrete_serde [] [] example_new 1 5)
    as (e & c' & Ha & _ & _ & Hr & _); [by left|reflexivity|reflexivity|].
  exists e, c'. split; [exact Ha|exact Hr].
Defined.

(** C11. Tamper evidence: if the chains of two logs verify and end in the same
    hash, the logs have the same entries, in the same order with the same
    fields, unless two entries of them collide under SHA-256 or one of them
    hashes to the genesis value.  So an edit, an insertion, a deletion or a
    reordering before the last entry shows unless the hash is broken. *)
Theorem audit_tamper_evident `{HexCodec} `{Sha256} `{AuditSerde} f f' es es' :
  read_all f = Ok es -> read_all f' = Ok es' ->
  Forall (fun e => entry_ok e = true) es -> Forall (fun e => entry_ok e = true) es' ->
  verify_chain f = Ok tt -> verify_chain f' = Ok tt ->
  last_hash f = last_hash f' ->
  es = es' \/ collision_in es es' \/ genesis_preimage_in (es ++ es').
Proof.
  unfold verify_chain, last_hash. intros -> -> Ho Ho' Hv Hv' [= Hl].
  by apply chain_determined.
Qed.

Definition example_entry : AuditEntry :=
  @mk_entry concrete_hex concrete_sha256 concrete_serde GENESIS_HASH example_new 1 5.

Definition example_log : option (list byte) :=
  Some ([] ++ @entry_json concrete_serde example_entry ++ [nl]).

Lemma example_log_reads : @read_all concrete_serde example_log = Ok [example_entry].
Proof. apply (@read_all_snoc concrete_serde [] example_entry []); [by left|done]. Qed.

Lemma example_log_verifies :
  @verify_chain concrete_hex concrete_sha256 concrete_serde example_log = Ok tt.
Proof. unfold verify_chain. rewrite example_log_reads. by vm_compute. Qed.

Lemma audit_tamper_evident_witness :
  [example_entry] = [example_entry]
  \/ @collision_in concrete_sha256 concrete_serde [example_entry] [example_entry]
  \/ @genesis_preimage_in concrete_hex concrete_sha256 concrete_serde
       [example_entry; example_entry].
Proof.
  apply (@audit_tamper_evident concrete_hex concrete_sha256 concrete_serde example_log example_log);
    [apply example_log_reads|apply example_log_reads
    |repeat constructor; vm_compute; reflexivity|repeat constructor; vm_compute; reflexivity
    |apply example_log_verifies|apply example_log_verifies|reflexivity].
Defined.

(** The limitation the source documents: every truncation of a verifying
    chain still verifies. *)
Lemma truncation_undetected `{HexCodec} `{Sha256} `{AuditSerde} es k :
  verify_entries GENESIS_HASH es = Ok tt -> verify_entries GENESIS_HASH (take k es) = Ok tt.
Proof.
  rewrite <- (take_drop k es) at 1. intros Hc. by apply chained_app in Hc as [Hc _].
Qed.

(** A log that lost the line break of its last entry (the text and the
    line break are separate writes) still accepts one more entry, which is glued
    to the last one: from then on reading, verifying and appending all fail. *)
Lemma lost_newline_bricks_log `{HexCodec} `{Sha256} `{AuditSerde} c es e n id ts :
  ends_nl c -> read_all (Some c) = Ok es ->
  read_all (Some (c ++ entry_json e)) = Ok (es ++ [e])
  /\ exists e' c', append (Some (c ++ entry_json e)) n id ts AppendOk = (Ok e', Some c')
    /\ read_all (Some c') = Err LogReadEntry
    /\ verify_chain (Some c') = Err LogReadEntry
    /\ forall n' id' ts' io, append (Some c') n' id' ts' io = (Err LogReadEntry, Some c').
Proof.
  intros Hn Hr. pose proof (read_all_torn c e es Hn Hr) as Hr'. split; [done|].
  unfold append at 1, last_hash at 1. rewrite Hr'. cbn [obind].
  set (e' := mk_entry _ _ _ _). exists e', ((c ++ entry_json e) ++ entry_json e' ++ [nl]).
  assert (read_all (Some ((c ++ entry_json e) ++ entry_json e' ++ [nl])) = Err LogReadEntry) as Hb.
  { unfold read_all in *. cbn [ok_or obind] in *.
    rewrite <- app_assoc, read_lines_app, read_entries_app, Hr by done. cbn [obind].
    assert (nl ∉ entry_json e ++ entry_json e') as Hl.
    { rewrite elem_of_app. intros [Hl|Hl]; by apply entry_json_line in Hl. }
    rewrite app_assoc, read_lines_one, <- app_assoc by done. cbn [read_entries].
    by rewrite read_entry_glued. }
  split_and!; [done|done| |].
  - unfold verify_chain. by rewrite Hb.
  - intros n' id' ts' io. unfold append, last_hash. by rewrite Hb.
Qed.

Lemma lost_newline_bricks_log_witness :
  exists e' c',
    @append concrete_hex concrete_sha256 concrete_serde
      (Some ([] ++ @entry_json concrete_serde example_entry)) example_new 2 6 AppendOk
    = (Ok e', Some c')
    /\ @read_all concrete_serde (Some c') = Err LogReadEntry.
Proof.
  destruct (@lost_newline_bricks_log concrete_hex concrete_sha256 concrete_serde [] []
    example_entry example_new 2 6) as (_ & e' & c' & Ha & Hr & _); [by left|reflexivity|].
  exists e', c'. split; [exact Ha|exact Hr].
Defined.
