(* ===== verification/QueryLex.v ===== *)
(** * OQL tokens: [crates/osiris-query/src/ast.rs] and [lexer.rs] *)

From S2P Require Import Prelude Json.

(** ** [ast.rs] *)

Inductive Op := Eq | Ne | Gt | Lt | Ge | Le | Contains | StartsWith | EndsWith | In.

#[global] Instance op_eq_dec : EqDecision Op.
Proof. solve_decision. Defined.

Inductive Value :=
| Str (s : string)
| Num (n : f64)
| VList (items : list Value).

Inductive Ast :=
| And (l r : Ast)
| Or (l r : Ast)
| Not (a : Ast)
| Compare (field : string) (op : Op) (value : Value).

(** ** [str::parse::<f64>]

    The grammar of the standard library's [dec2flt]: an optional sign, then
    [inf], [infinity] or [nan] in any case, or digits with an optional point
    (at least one digit) and an optional exponent; the value is the nearest
    double. *)

Definition ch (a : ascii) : char := Z.of_N (N_of_ascii a).
Definition DQUOTE : char := 34.

Definition is_ascii_digit (c : char) : bool := (48 <=? c) && (c <=? 57).

Fixpoint span (f : char -> bool) (l : list char) : list char * list char :=
  match l with
  | c :: r => if f c then let '(a, b) := span f r in (c :: a, b) else ([], l)
  | [] => ([], [])
  end.

Definition dec_value (l : list char) : Z := fold_left (fun acc c => 10 * acc + (c - 48)) l 0.

Definition ascii_lower (c : char) : char := if (65 <=? c) && (c <=? 90) then c + 32 else c.

(** The double nearest to [± m * 10^e]. *)
Definition round_decimal (neg : bool) (m e : Z) : f64 :=
  match m with
  | Zpos p =>
      if 0 <=? e then binary_round f64_prec f64_emax neg (p * Z.to_pos (10 ^ e)) 0
      else
        let '(q, e', loc) := SFdiv_core_binary f64_prec f64_emax m 0 (10 ^ (- e)) 0 in
        binary_round_aux f64_prec f64_emax neg q e' loc
  | _ => S754_zero neg
  end.

Definition parse_exponent (l : list char) : option Z :=
  match l with
  | [] => Some 0
  | c :: r =>
      if (ascii_lower c =? ch "e") then
        let '(neg, r) := match r with
                         | s :: r' => if s =? ch "-" then (true, r')
                                      else if s =? ch "+" then (false, r') else (false, r)
                         | [] => (false, r)
                         end in
        match span is_ascii_digit r with
        | ([], _) => None
        | (ds, []) => Some (if neg : bool then - dec_value ds else dec_value ds)
        | _ => None
        end
      else None
  end.

Definition parse_number (neg : bool) (l : list char) : option f64 :=
  let '(ip, r) := span is_ascii_digit l in
  let '(fp, r) := match r with
                  | c :: r' => if c =? ch "." then span is_ascii_digit r' else ([], r)
                  | [] => ([], r)
                  end in
  match ip ++ fp with
  | [] => None
  | ds =>
      match parse_exponent r with
      | Some e => Some (round_decimal neg (dec_value ds) (e - Z.of_nat (List.length fp)))
      | None => None
      end
  end.

Definition parse_f64 (l : list char) : option f64 :=
  let '(neg, r) := match l with
                   | s :: r' => if s =? ch "-" then (true, r')
                                else if s =? ch "+" then (false, r') else (false, l)
                   | [] => (false, l)
                   end in
  let low := map ascii_lower r in
  if bool_decide (low = chars "nan") then Some S754_nan
  else if bool_decide (low = chars "inf") || bool_decide (low = chars "infinity") then
    Some (S754_infinity neg)
  else parse_number neg r.

(** ** [lexer.rs] *)

Inductive Token :=
| TIdent (name : string)
| TStr (s : string)
| TNum (n : f64)
| TOp (op : Op)
| TAnd | TOr | TNot | TIn | TLParen | TRParen | TComma | TEof.

Inductive LexMessage :=
| UnterminatedString
| InvalidNumber (text : string)
| UnexpectedChar (c : char).

Record LexError := { lex_position : Z; lex_message : LexMessage }.

(** The Unicode tables behind [char::is_alphabetic] and
    [char::is_alphanumeric]; on ASCII they are the letters and digits. *)
Class UnicodeTables := {
  is_alphabetic : char -> bool;
  is_alphanumeric : char -> bool;
  alphabetic_ascii c : 0 <= c < 128 ->
    is_alphabetic c = ((65 <=? c) && (c <=? 90)) || ((97 <=? c) && (c <=? 122));
  alphanumeric_ascii c : 0 <= c < 128 -> is_alphanumeric c = is_alphabetic c || is_ascii_digit c;
  alphabetic_alphanumeric c : is_alphabetic c = true -> is_alphanumeric c = true;
  alphabetic_range c : is_alphabetic c = true -> 0 <= c;
  alphabetic_not_space c : is_alphabetic c = true -> is_whitespace c = false;
}.

(** The inner loop of a string literal: the text up to the closing quote and
    what follows it. *)
Fixpoint scan_string (l : list char) : option (list char * list char) :=
  match l with
  | [] => None
  | c :: r =>
      if c =? DQUOTE then Some ([], r)
      else match scan_string r with
           | Some (s, rest) => Some (c :: s, rest)
           | None => None
           end
  end.

Definition head_is (c : char) (l : list char) : bool :=
  match l with x :: _ => x =? c | [] => false end.

Definition head_digit (l : list char) : bool :=
  match l with x :: _ => is_ascii_digit x | [] => false end.

Definition keyword (word : string) : Token :=
  if (word =? "AND")%string then TAnd
  else if (word =? "OR")%string then TOr
  else if (word =? "NOT")%string then TNot
  else if (word =? "IN")%string then TOp In
  else if (word =? "CONTAINS")%string then TOp Contains
  else if (word =? "STARTS_WITH")%string then TOp StartsWith
  else if (word =? "ENDS_WITH")%string then TOp EndsWith
  else TIdent word.

Definition is_num_char (c : char) : bool := is_ascii_digit c || (c =? ch ".").

Section Lexer.
Context `{UnicodeTables}.

Definition is_word_char (c : char) : bool := is_alphanumeric c || (c =? ch "_") || (c =? ch ".").
Definition is_word_start (c : char) : bool := is_alphabetic c || (c =? ch "_").

(** One turn of the lexer's loop at a character [c] that is not white space,
    followed by [r]: the token and the characters after it. *)
Definition lex_one (i : Z) (c : char) (r : list char) : outcome LexError (Token * list char) :=
  if c =? ch "(" then Ok (TLParen, r)
  else if c =? ch ")" then Ok (TRParen, r)
  else if c =? ch "," then Ok (TComma, r)
  else if c =? ch "=" then Ok (TOp Eq, r)
  else if (c =? ch "!") && head_is (ch "=") r then Ok (TOp Ne, tail r)
  else if (c =? ch ">") && head_is (ch "=") r then Ok (TOp Ge, tail r)
  else if c =? ch ">" then Ok (TOp Gt, r)
  else if (c =? ch "<") && head_is (ch "=") r then Ok (TOp Le, tail r)
  else if c =? ch "<" then Ok (TOp Lt, r)
  else if c =? DQUOTE then
    match scan_string r with
    | Some (s, rest) => Ok (TStr (string_of_chars s), rest)
    | None => Err {| lex_position := i; lex_message := UnterminatedString |}
    end
  else if is_ascii_digit c || ((c =? ch "-") && head_digit r) then
    let '(t, rest) := span is_num_char r in
    match parse_f64 (c :: t) with
    | Some n => Ok (TNum n, rest)
    | None => Err {| lex_position := i; lex_message := InvalidNumber (string_of_chars (c :: t)) |}
    end
  else if is_word_start c then
    let '(t, rest) := span is_word_char (c :: r) in
    Ok (keyword (string_of_chars t), rest)
  else Err {| lex_position := i; lex_message := UnexpectedChar c |}.

(** The main loop, from position [i] with [l] left; [Panic] is running out of
    fuel. *)
Fixpoint lex_loop (fuel : nat) (i : Z) (l : list char) : outcome LexError (list Token) :=
  match fuel with
  | O => Panic
  | S fuel =>
      match l with
      | [] => Ok [TEof]
      | c :: r =>
          if is_whitespace c then lex_loop fuel (i + 1) r
          else
            let? (t, rest) := lex_one i c r in
            let? ts := lex_loop fuel (i + Z.of_nat (List.length l - List.length rest)) rest in
            Ok (t :: ts)
      end
  end.

Definition tokenize (input : string) : outcome LexError (list Token) :=
  lex_loop (S (List.length (chars input))) 0 (chars input).

(** ** Every turn consumes input *)

Lemma span_app f l : l = (span f l).1 ++ (span f l).2.
Proof. induction l as [|c l IH]; simpl; [done|]. destruct (f c), (span f l); simpl in *; congruence. Qed.

Lemma span_length f l : (List.length (span f l).2 <= List.length l)%nat.
Proof. rewrite (span_app f l) at 2. rewrite length_app. lia. Qed.

Lemma scan_string_length l s rest :
  scan_string l = Some (s, rest) -> (List.length rest < List.length l)%nat.
Proof.
  revert s. induction l as [|c l IH]; intros s; simpl; [done|].
  destruct (c =? DQUOTE); [intros [= <- <-]; lia|].
  destruct (scan_string l) as [[s' r']|]; [|done]. intros [= <- <-].
  specialize (IH _ eq_refl). lia.
Qed.

Lemma word_start_char c : is_word_start c = true -> is_word_char c = true.
Proof.
  unfold is_word_start, is_word_char. rewrite !orb_true_iff.
  intros [Ha|?]; [|tauto]. left; left. by apply alphabetic_alphanumeric.
Qed.

Lemma tail_length {A} (l : list A) : (List.length (tail l) <= List.length l)%nat.
Proof. destruct l; simpl; lia. Qed.

Lemma lex_one_consumes i c r t rest :
  lex_one i c r = Ok (t, rest) -> (List.length rest <= List.length r)%nat /\ t <> TEof.
Proof.
  unfold lex_one. intros Hl. pose proof (tail_length r) as Ht.
  repeat match type of Hl with
  | (if ?b then _ else _) = _ => destruct b eqn:?; [try (injection Hl as <- <-; split; [lia|done])|]
  end; try done.
  - destruct (scan_string r) as [[s r']|] eqn:E; [|done]. injection Hl as <- <-.
    apply scan_string_length in E. split; [lia|done].
  - pose proof (span_length is_num_char r). destruct (span _ r) as [a b]; simpl in *.
    destruct (parse_f64 _); [|done]. by injection Hl as <- <-.
  - pose proof (span_length is_word_char r). cbn [span] in Hl.
    rewrite word_start_char in Hl by done. destruct (span _ r) as [a b]; simpl in *.
    injection Hl as <- <-. split; [done|]. unfold keyword. by repeat case_match.
Qed.

Lemma lex_one_no_panic i c r : no_panic (lex_one i c r).
Proof. unfold lex_one. no_panics. Qed.

Lemma lex_loop_no_panic fuel i l :
  (List.length l < fuel)%nat -> no_panic (lex_loop fuel i l).
Proof.
  revert i l. induction fuel as [|fuel IH]; intros i l Hl; [lia|]. simpl.
  destruct l as [|c r]; [discriminate|]. simpl in Hl.
  destruct (is_whitespace c); [apply IH; lia|].
  apply obind_no_panic; [apply lex_one_no_panic|]. intros [t rest] Ho.
  apply lex_one_consumes in Ho as [Hr _].
  apply obind_no_panic; [apply IH; lia|]. intros ts _. discriminate.
Qed.

Lemma lex_loop_eof fuel i l ts :
  lex_loop fuel i l = Ok ts -> exists ts', ts = ts' ++ [TEof] /\ TEof ∉ ts'.
Proof.
  revert i l ts. induction fuel as [|fuel IH]; intros i l ts; [done|]. simpl.
  destruct l as [|c r]; [intros [= <-]; exists []; split; [done|apply not_elem_of_nil]|].
  destruct (is_whitespace c); [apply IH|].
  intros ([t rest] & Ho & (ts1 & Hts & [= <-])%obind_ok)%obind_ok.
  apply lex_one_consumes in Ho as [_ Ht]. apply IH in Hts as (ts' & -> & Hn).
  exists (t :: ts'). split; [done|]. apply not_elem_of_cons. split; [congruence|done].
Qed.

(** ** Lexemes

    [lexeme l t]: the text [l] denotes the token [t]. *)
Inductive lexeme : list char -> Token -> Prop :=
| lx_lparen : lexeme [ch "("] TLParen
| lx_rparen : lexeme [ch ")"] TRParen
| lx_comma : lexeme [ch ","] TComma
| lx_eq : lexeme [ch "="] (TOp Eq)
| lx_ne : lexeme [ch "!"; ch "="] (TOp Ne)
| lx_ge : lexeme [ch ">"; ch "="] (TOp Ge)
| lx_gt : lexeme [ch ">"] (TOp Gt)
| lx_le : lexeme [ch "<"; ch "="] (TOp Le)
| lx_lt : lexeme [ch "<"] (TOp Lt)
| lx_str s : DQUOTE ∉ s -> lexeme (DQUOTE :: s ++ [DQUOTE]) (TStr (string_of_chars s))
| lx_num c t n :
    is_ascii_digit c = true \/ (c = ch "-" /\ head_digit t = true) ->
    forallb is_num_char t = true -> parse_f64 (c :: t) = Some n ->
    lexeme (c :: t) (TNum n)
| lx_word c t :
    is_word_start c = true -> forallb is_word_char t = true ->
    lexeme (c :: t) (keyword (string_of_chars (c :: t))).

Definition space : char := 32.

Lemma span_stop f l r : forallb f l = true -> f space = false ->
  span f (l ++ space :: r) = (l, space :: r).
Proof.
  intros Hl Hs. induction l as [|c l IH]; simpl in *; [by rewrite Hs|].
  apply andb_true_iff in Hl as [-> Hl]. by rewrite IH.
Qed.

Lemma scan_string_stop s r : DQUOTE ∉ s -> scan_string (s ++ DQUOTE :: r) = Some (s, r).
Proof.
  induction s as [|c s IH]; intros Hs; simpl; [done|].
  apply not_elem_of_cons in Hs as [Hc Hs]. rewrite IH by done.
  by destruct (Z.eqb_spec c DQUOTE).
Qed.

Lemma word_char_space : is_word_char space = false.
Proof.
  unfold is_word_char. rewrite alphanumeric_ascii by (unfold space; lia).
  by rewrite alphabetic_ascii by (unfold space; lia).
Qed.

(** What starts a word is none of the characters the earlier branches test. *)
Lemma word_start_other c : is_word_start c = true ->
  is_whitespace c = false /\ is_ascii_digit c = false
  /\ forall x, x ∈ [ch "("; ch ")"; ch ","; ch "="; ch "!"; ch ">"; ch "<"; DQUOTE; ch "-"] ->
       (c =? x) = false.
Proof.
  unfold is_word_start. intros [Ha| ->%Z.eqb_eq]%orb_true_iff.
  - split; [by apply alphabetic_not_space|].
    destruct (decide (c < 128)) as [Hc|Hc].
    + pose proof (alphabetic_range _ Ha). rewrite alphabetic_ascii in Ha by lia.
      apply orb_true_iff in Ha as [[? ?]%andb_true_iff|[? ?]%andb_true_iff];
        (split; [unfold is_ascii_digit; lia|]; intros x Hx; apply Z.eqb_neq; intros ->;
         repeat (apply elem_of_cons in Hx as [->|Hx]; [done|]); by apply not_elem_of_nil in Hx).
    + split; [unfold is_ascii_digit; lia|]. intros x Hx. apply Z.eqb_neq. intros ->.
      repeat (apply elem_of_cons in Hx as [->|Hx]; [by apply Hc|]). by apply not_elem_of_nil in Hx.
  - split; [done|]. split; [done|]. intros x Hx.
    repeat (apply elem_of_cons in Hx as [->|Hx]; [done|]). by apply not_elem_of_nil in Hx.
Qed.

Ltac false_eqb :=
  repeat match goal with
  | Hx : forall x, x ∈ _ -> _ |- context [?c =? ?x] => rewrite (Hx x) by set_solver; cbn [andb orb]
  end.

Lemma digit_other c : is_ascii_digit c = true ->
  forall x, x ∈ [ch "("; ch ")"; ch ","; ch "="; ch "!"; ch ">"; ch "<"; DQUOTE] ->
       (c =? x) = false.
Proof.
  unfold is_ascii_digit. intros [? ?]%andb_true_iff x Hx. apply Z.eqb_neq. intros ->.
  repeat (apply elem_of_cons in Hx as [->|Hx]; [done|]). by apply not_elem_of_nil in Hx.
Qed.

Lemma digit_not_space c : is_ascii_digit c = true -> is_whitespace c = false.
Proof. unfold is_ascii_digit, is_whitespace. lia. Qed.

Lemma head_digit_app t r : head_digit t = true -> head_digit (t ++ r) = true.
Proof. by destruct t. Qed.

Lemma lexeme_lex_one l t r :
  lexeme l t -> exists c l', l = c :: l' /\ is_whitespace c = false
    /\ forall i, lex_one i c (l' ++ space :: r) = Ok (t, space :: r).
Proof.
  destruct 1 as [| | | | | | | | |s Hs|c t n Hc Ht Hn|c t Hc Ht];
    try (do 2 eexists; split; [reflexivity|]; split; [reflexivity|]; by intros i).
  - exists DQUOTE, (s ++ [DQUOTE]). split_and!; [done|done|]. intros i. unfold lex_one. simpl.
    rewrite <- app_assoc. simpl. by rewrite scan_string_stop.
  - exists c, t. split; [done|]. destruct Hc as [Hc|[-> Hd]].
    + split; [by apply digit_not_space|]. intros i. pose proof (digit_other _ Hc) as Hx.
      unfold lex_one. false_eqb. rewrite Hc. cbn [orb]. by rewrite span_stop, Hn by done.
    + split; [done|]. intros i. unfold lex_one. cbn -[span parse_f64 head_digit].
      rewrite head_digit_app by done. by rewrite span_stop, Hn by done.
  - exists c, t. destruct (word_start_other _ Hc) as (Hw & Hd & Hx). split_and!; [done|done|].
    intros i. unfold lex_one. false_eqb. rewrite Hd, Hc. cbn [orb].
    rewrite (app_comm_cons t (space :: r) c), span_stop; [done| |apply word_char_space].
    simpl. by rewrite word_start_char.
Qed.

(** The lexemes of a query, each followed by a space. *)
Definition spaced (ls : list (list char)) : list char := flat_map (fun l => l ++ [space]) ls.

Lemma lex_loop_spaced fuel i ls ts :
  Forall2 lexeme ls ts -> (List.length (spaced ls) < fuel)%nat ->
  lex_loop fuel i (spaced ls) = Ok (ts ++ [TEof]).
Proof.
  intros Hf. revert fuel i. induction Hf as [|l t ls ts Hl Hf IH]; intros fuel i Hlen.
  { by destruct fuel; [simpl in Hlen; lia|]. }
  unfold spaced in *. cbn [flat_map] in *. rewrite <- app_assoc in *. cbn [app] in *.
  destruct (lexeme_lex_one l t (flat_map (fun l => l ++ [space]) ls) Hl) as (c & l' & -> & Hw & Ho).
  destruct fuel as [|fuel]; [simpl in Hlen; lia|]. cbn [app lex_loop]. rewrite Hw, Ho. cbn [obind].
  simpl in Hlen. rewrite length_app in Hlen. simpl in Hlen.
  destruct fuel as [|fuel]; [lia|]. cbn [lex_loop]. rewrite (eq_refl : is_whitespace space = true).
  rewrite IH by lia. done.
Qed.

End Lexer.

(** ** Properties *)

(** The lexer terminates on every input without a panic, and a token list
    it returns ends with its only end-of-input token. *)
Lemma tokenize_total `{UnicodeTables} input :
  match tokenize input with
  | Ok ts => exists ts', ts = ts' ++ [TEof] /\ TEof ∉ ts'
  | Err _ => True
  | Panic => False
  end.
Proof.
  unfold tokenize. destruct (lex_loop _ _ _) as [ts|e|] eqn:E; [|done|].
  - by apply lex_loop_eof in E.
  - by apply lex_loop_no_panic in E; [|lia].
Qed.
