(* ===== verification/QueryParse.v ===== *)
(** * The OQL parser: [crates/osiris-query/src/parser.rs]

    Recursive descent over the token vector.  The parser's state is its
    position and its nesting depth; [Panic] stands for an index out of range
    and, in this model, for running out of fuel: neither happens. *)

From S2P Require Import Prelude Json QueryLex.

Inductive ParseMessage :=
| LexMsg (m : LexMessage)
| TooDeep
| ExpectedEnd (found : Token)
| ExpectedRParen
| ExpectedField (found : Token)
| ExpectedParenAfterIn
| ExpectedParenClosingIn
| ExpectedOperator (found : Token)
| ExpectedScalar (found : Token).

Record ParseError := { position : Z; message : ParseMessage }.

Definition from_lex_error (e : LexError) : ParseError :=
  {| position := lex_position e; message := LexMsg (lex_message e) |}.

Definition MAX_PARSE_DEPTH : nat := 64.

Record pstate := { pos : nat; depth : nat }.

Definition with_pos (s : pstate) (p : nat) : pstate := {| pos := p; depth := depth s |}.
Definition with_depth (s : pstate) (d : nat) : pstate := {| pos := pos s; depth := d |}.

Section Parser.
Context (tokens : list Token).

Definition M (A : Type) : Type := pstate -> outcome ParseError (A * pstate).

Definition perr {A} (s : pstate) (m : ParseMessage) : outcome ParseError A :=
  Err {| position := Z.of_nat (pos s); message := m |}.

Definition peek (s : pstate) : outcome ParseError Token := or_panic (tokens !! pos s).

Definition advance : M Token := fun s =>
  let? t := peek s in
  Ok (t, if (pos s + 1 <? List.length tokens)%nat then with_pos s (pos s + 1) else s).

Definition enter : M unit := fun s =>
  let s := with_depth s (depth s + 1) in
  if (MAX_PARSE_DEPTH <? depth s)%nat then perr s TooDeep else Ok (tt, s).

(** [enter]; run; leave. *)
Definition nested {A} (inner : M A) : M A := fun s =>
  let? (_, s) := enter s in
  let? (a, s) := inner s in
  Ok (a, with_depth s (depth s - 1)).

Definition expect_eof (s : pstate) : outcome ParseError unit :=
  let? t := peek s in
  match t with
  | TEof => Ok tt
  | t => perr s (ExpectedEnd t)
  end.

Definition parse_scalar : M Value := fun s =>
  let? (t, s) := advance s in
  match t with
  | TStr x => Ok (Str x, s)
  | TNum n => Ok (Num n, s)
  | other => perr s (ExpectedScalar other)
  end.

(** [while peek == Comma { advance; items.push(parse_scalar()?) }] *)
Fixpoint list_loop (fuel : nat) (items : list Value) : M (list Value) := fun s =>
  match fuel with
  | O => Panic
  | S fuel =>
      let? t := peek s in
      match t with
      | TComma =>
          let? (_, s) := advance s in
          let? (v, s) := parse_scalar s in
          list_loop fuel (items ++ [v]) s
      | _ => Ok (items, s)
      end
  end.

Definition parse_comparison (fuel : nat) : M Ast := fun s =>
  let? (t, s) := advance s in
  match t with
  | TIdent field =>
      let? (t, s) := advance s in
      match t with
      | TOp In =>
          let? (t, s) := advance s in
          match t with
          | TLParen =>
              let? (v, s) := parse_scalar s in
              let? (items, s) := list_loop fuel [v] s in
              let? (t, s) := advance s in
              match t with
              | TRParen => Ok (Compare field In (VList items), s)
              | _ => perr s ExpectedParenClosingIn
              end
          | _ => perr s ExpectedParenAfterIn
          end
      | TOp op => let? (v, s) := parse_scalar s in Ok (Compare field op v, s)
      | other => perr s (ExpectedOperator other)
      end
  | other => perr s (ExpectedField other)
  end.

Fixpoint parse_or (fuel : nat) : M Ast := fun s =>
  match fuel with
  | O => Panic
  | S fuel =>
      nested (fun s =>
        let? (lhs, s) := parse_and fuel s in
        or_loop fuel lhs s) s
  end

with or_loop (fuel : nat) (lhs : Ast) : M Ast := fun s =>
  match fuel with
  | O => Panic
  | S fuel =>
      let? t := peek s in
      match t with
      | TOr =>
          let? (_, s) := advance s in
          let? (rhs, s) := parse_and fuel s in
          or_loop fuel (Or lhs rhs) s
      | _ => Ok (lhs, s)
      end
  end

with parse_and (fuel : nat) : M Ast := fun s =>
  match fuel with
  | O => Panic
  | S fuel =>
      let? (lhs, s) := parse_unary fuel s in
      and_loop fuel lhs s
  end

with and_loop (fuel : nat) (lhs : Ast) : M Ast := fun s =>
  match fuel with
  | O => Panic
  | S fuel =>
      let? t := peek s in
      match t with
      | TAnd =>
          let? (_, s) := advance s in
          let? (rhs, s) := parse_unary fuel s in
          and_loop fuel (And lhs rhs) s
      | _ => Ok (lhs, s)
      end
  end

with parse_unary (fuel : nat) : M Ast := fun s =>
  match fuel with
  | O => Panic
  | S fuel =>
      nested (fun s =>
        let? t := peek s in
        match t with
        | TNot =>
            let? (_, s) := advance s in
            let? (inner, s) := parse_unary fuel s in
            Ok (Not inner, s)
        | _ => parse_primary fuel s
        end) s
  end

with parse_primary (fuel : nat) : M Ast := fun s =>
  match fuel with
  | O => Panic
  | S fuel =>
      let? t := peek s in
      match t with
      | TLParen =>
          let? (_, s) := advance s in
          let? (inner, s) := parse_or fuel s in
          let? t := peek s in
          match t with
          | TRParen => let? (_, s) := advance s in Ok (inner, s)
          | _ => perr s ExpectedRParen
          end
      | _ => parse_comparison fuel s
      end
  end.

(** Enough for any token vector of this length: each turn of a loop and each
    descent to a comparison or a parenthesis consumes a token. *)
Definition parse_fuel : nat := 8 * List.length tokens + 8.

Definition parse_tokens : outcome ParseError Ast :=
  let? (ast, s) := parse_or parse_fuel {| pos := 0; depth := 0 |} in
  let? _ := expect_eof s in
  Ok ast.

End Parser.

Definition parse `{UnicodeTables} (input : string) : outcome ParseError Ast :=
  let? tokens := omap_err from_lex_error (tokenize input) in
  parse_tokens tokens.

(** ** Grammar

    [g_or d ts a]: at nesting depth [d] the tokens [ts] are an [or] phrase that
    denotes [a]; likewise for the other phrases.  The tails carry the tree
    built so far, which makes [AND] and [OR] associate to the left. *)

Inductive g_scalar : Token -> Value -> Prop :=
| gs_str s : g_scalar (TStr s) (Str s)
| gs_num n : g_scalar (TNum n) (Num n).

Inductive g_items : list Token -> list Value -> Prop :=
| gi_nil : g_items [] []
| gi_cons t v ts vs : g_scalar t v -> g_items ts vs -> g_items (TComma :: t :: ts) (v :: vs).

Inductive g_comparison : list Token -> Ast -> Prop :=
| gc_op f op t v : op <> In -> g_scalar t v ->
    g_comparison [TIdent f; TOp op; t] (Compare f op v)
| gc_in f t v ts vs : g_scalar t v -> g_items ts vs ->
    g_comparison (TIdent f :: TOp In :: TLParen :: t :: ts ++ [TRParen])
                 (Compare f In (VList (v :: vs))).

Inductive g_or : nat -> list Token -> Ast -> Prop :=
| go_mk d ts1 a1 ts2 a : (d < MAX_PARSE_DEPTH)%nat ->
    g_and (S d) ts1 a1 -> g_or_tail (S d) a1 ts2 a -> g_or d (ts1 ++ ts2) a
with g_or_tail : nat -> Ast -> list Token -> Ast -> Prop :=
| got_nil d a : g_or_tail d a [] a
| got_cons d lhs ts1 a1 ts2 a :
    g_and d ts1 a1 -> g_or_tail d (Or lhs a1) ts2 a ->
    g_or_tail d lhs (TOr :: ts1 ++ ts2) a
with g_and : nat -> list Token -> Ast -> Prop :=
| ga_mk d ts1 a1 ts2 a :
    g_unary d ts1 a1 -> g_and_tail d a1 ts2 a -> g_and d (ts1 ++ ts2) a
with g_and_tail : nat -> Ast -> list Token -> Ast -> Prop :=
| gat_nil d a : g_and_tail d a [] a
| gat_cons d lhs ts1 a1 ts2 a :
    g_unary d ts1 a1 -> g_and_tail d (And lhs a1) ts2 a ->
    g_and_tail d lhs (TAnd :: ts1 ++ ts2) a
with g_unary : nat -> list Token -> Ast -> Prop :=
| gu_not d ts a : (d < MAX_PARSE_DEPTH)%nat ->
    g_unary (S d) ts a -> g_unary d (TNot :: ts) (Not a)
| gu_paren d ts a : (d < MAX_PARSE_DEPTH)%nat ->
    g_or (S d) ts a -> g_unary d (TLParen :: ts ++ [TRParen]) a
| gu_cmp d ts a : (d < MAX_PARSE_DEPTH)%nat -> g_comparison ts a -> g_unary d ts a.

Scheme g_or_mut := Minimality for g_or Sort Prop
  with g_or_tail_mut := Minimality for g_or_tail Sort Prop
  with g_and_mut := Minimality for g_and Sort Prop
  with g_and_tail_mut := Minimality for g_and_tail Sort Prop
  with g_unary_mut := Minimality for g_unary Sort Prop.
Combined Scheme g_mut from g_or_mut, g_or_tail_mut, g_and_mut, g_and_tail_mut, g_unary_mut.

(** ** Moving over the tokens *)

Section Moves.
Context (tokens : list Token) (Hlast : last tokens = Some TEof).
Implicit Types s : pstate.

Definition in_range s : Prop := (pos s < List.length tokens)%nat.

(** From [s] to [s'] the parser consumed [ts], at an unchanged depth. *)
Definition consumed s (ts : list Token) s' : Prop :=
  drop (pos s) tokens = ts ++ drop (pos s') tokens /\ in_range s' /\ depth s' = depth s.

Lemma consumed_nil s : in_range s -> consumed s [] s.
Proof. done. Qed.

Lemma consumed_app s ts s1 ts' s2 :
  consumed s ts s1 -> consumed s1 ts' s2 -> consumed s (ts ++ ts') s2.
Proof.
  intros (E & _ & D) (E' & Hr & D'). split_and!; [|done|congruence].
  by rewrite E, E', app_assoc.
Qed.

Lemma consumed_len s ts s' :
  in_range s -> consumed s ts s' -> pos s' = (pos s + List.length ts)%nat.
Proof.
  unfold in_range. intros Hr (E & Hr' & _). apply (f_equal List.length) in E.
  rewrite length_app, !length_drop in E. unfold in_range in Hr'. lia.
Qed.

Lemma peek_in_range s : in_range s -> exists t, peek tokens s = Ok t /\ tokens !! pos s = Some t.
Proof. intros [t Ht]%lookup_lt_is_Some. exists t. unfold peek. by rewrite Ht. Qed.

Lemma peek_lookup s t : peek tokens s = Ok t -> tokens !! pos s = Some t.
Proof. unfold peek. destruct (tokens !! pos s); simpl; congruence. Qed.

Lemma not_last s t : tokens !! pos s = Some t -> t <> TEof -> (pos s + 1 < List.length tokens)%nat.
Proof.
  intros Ht Hne. pose proof (lookup_lt_Some _ _ _ Ht) as Hr. rewrite last_lookup in Hlast.
  destruct (decide (pos s = Nat.pred (List.length tokens))) as [E|E]; [|lia]. congruence.
Qed.

Lemma advance_ok s : in_range s ->
  exists t s', advance tokens s = Ok (t, s') /\ tokens !! pos s = Some t /\ in_range s'
    /\ depth s' = depth s /\ (pos s <= pos s')%nat.
Proof.
  intros Hr. destruct (peek_in_range s Hr) as (t & Hp & Ht). unfold advance. rewrite Hp.
  cbn [obind]. exists t. eexists. split; [done|]. split; [done|]. unfold in_range in *.
  destruct (Nat.ltb_spec (pos s + 1) (List.length tokens)); simpl; repeat split; lia.
Qed.

Lemma advance_inv s t s' :
  advance tokens s = Ok (t, s') -> t <> TEof -> consumed s [t] s'.
Proof.
  unfold advance. intros (x & Hx%peek_lookup & E)%obind_ok Hne. injection E as -> <-.
  pose proof (not_last _ _ Hx Hne) as Hl. apply Nat.ltb_lt in Hl as Hb. rewrite Hb.
  split_and!; [|done|done]. simpl. rewrite Nat.add_1_r. by rewrite (drop_S _ _ _ Hx).
Qed.

Lemma advance_peeked s t s1 t1 :
  peek tokens s = Ok t -> advance tokens s = Ok (t1, s1) -> t1 = t.
Proof. unfold advance. intros ->. cbn [obind]. congruence. Qed.

(** The forward version: [advance] at a known suffix. *)
Lemma peek_at s t R : drop (pos s) tokens = t :: R -> peek tokens s = Ok t.
Proof.
  intros E. unfold peek. pose proof (lookup_drop tokens (pos s) 0) as H0.
  rewrite E, Nat.add_0_r in H0. by rewrite <- H0.
Qed.

Lemma drop_next (p : nat) (t : Token) R : drop p tokens = t :: R -> drop (p + 1) tokens = R.
Proof. intros E. rewrite <- drop_drop, E. done. Qed.

Lemma advance_at s t R :
  drop (pos s) tokens = t :: R -> R <> [] ->
  advance tokens s = Ok (t, with_pos s (pos s + 1)) /\ drop (pos s + 1) tokens = R.
Proof.
  intros E HR. pose proof (drop_next _ _ _ E) as Hd. unfold advance. rewrite (peek_at _ _ _ E).
  cbn [obind]. assert (pos s + 1 < List.length tokens)%nat as Hb%Nat.ltb_lt.
  { apply (f_equal List.length) in Hd. rewrite length_drop in Hd. destruct R; [done|]. simpl in Hd. lia. }
  by rewrite Hb.
Qed.

(** ** Soundness *)

Lemma scalar_sound s v s' :
  parse_scalar tokens s = Ok (v, s') -> exists t, g_scalar t v /\ consumed s [t] s'.
Proof.
  unfold parse_scalar. intros ([t s1] & Ha & E)%obind_ok.
  destruct t; try done; injection E as <- <-; apply advance_inv in Ha; try done;
    eexists; (split; [constructor|done]).
Qed.

Lemma list_loop_sound n items s vs s' :
  in_range s -> list_loop tokens n items s = Ok (vs, s') ->
  exists ts vs', vs = items ++ vs' /\ g_items ts vs' /\ consumed s ts s'.
Proof.
  revert items s. induction n as [|n IH]; intros items s Hr; [done|]. simpl.
  intros (t & Hp & E)%obind_ok.
  assert ((t = TComma /\ exists s1 v s2, advance tokens s = Ok (TComma, s1)
            /\ parse_scalar tokens s1 = Ok (v, s2) /\ list_loop tokens n (items ++ [v]) s2 = Ok (vs, s'))
          \/ (vs = items /\ s' = s)) as [(-> & s1 & v & s2 & Ha & Hs & Hl)|[-> ->]].
  { destruct t; try (right; by injection E as <- <-).
    left. split; [done|]. apply obind_ok in E as ([t s1] & Ha & ([v s2] & Hs & Hl)%obind_ok).
    pose proof (advance_peeked _ _ _ _ Hp Ha) as ->. eauto 10. }
  - apply advance_inv in Ha; [|done]. apply scalar_sound in Hs as (t & Ht & Hc).
    pose proof (consumed_app _ _ _ _ _ Ha Hc) as Hc'.
    apply IH in Hl as (ts & vs' & -> & Hg & Hts); [|by destruct Hc as (_ & ? & _)].
    exists (TComma :: t :: ts), (v :: vs'). split_and!.
    + by rewrite <- app_assoc.
    + by constructor.
    + exact (consumed_app _ _ _ _ _ Hc' Hts).
  - exists [], []. split_and!; [by rewrite app_nil_r|constructor|by apply consumed_nil].
Qed.

Lemma comparison_sound n s a s' :
  in_range s -> parse_comparison tokens n s = Ok (a, s') ->
  exists ts, g_comparison ts a /\ consumed s ts s'.
Proof.
  intros Hr. unfold parse_comparison. intros ([t s1] & Ha & E)%obind_ok.
  destruct t as [f| | | | | | | | | | |]; try done. apply advance_inv in Ha; [|done].
  apply obind_ok in E as ([t s2] & Hb & E). destruct t as [| | |op| | | | | | | |]; try done.
  apply advance_inv in Hb; [|done]. pose proof (consumed_app _ _ _ _ _ Ha Hb) as Hab.
  destruct (decide (op = In)) as [->|Hop].
  - apply obind_ok in E as ([t s3] & Hc & E). destruct t; try done.
    apply advance_inv in Hc; [|done].
    apply obind_ok in E as ([v s4] & (t & Ht & Hv)%scalar_sound & E).
    apply obind_ok in E as ([vs s5] & (ts & vs' & -> & Hg & Hl)%list_loop_sound & E);
      [|by destruct Hv as (_ & ? & _)].
    apply obind_ok in E as ([t' s6] & Hd & E). destruct t'; try done. injection E as <- <-.
    apply advance_inv in Hd; [|done].
    exists (TIdent f :: TOp In :: TLParen :: t :: ts ++ [TRParen]). split; [by constructor|].
    pose proof (consumed_app _ _ _ _ _ Hab Hc) as H1.
    pose proof (consumed_app _ _ _ _ _ H1 Hv) as H2.
    pose proof (consumed_app _ _ _ _ _ H2 Hl) as H3.
    pose proof (consumed_app _ _ _ _ _ H3 Hd) as H4. exact H4.
  - assert (exists v, parse_scalar tokens s2 = Ok (v, s') /\ a = Compare f op v) as (v & Hv & ->).
    { destruct op; try done; apply obind_ok in E as ([v s3] & Hv & [= <- <-]); eauto. }
    apply scalar_sound in Hv as (t & Ht & Hv). exists [TIdent f; TOp op; t].
    split; [by constructor|]. exact (consumed_app _ _ _ _ _ Hab Hv).
Qed.

Lemma nested_inv {A} (m : M A) s a s' :
  nested m s = Ok (a, s') ->
  (depth s < MAX_PARSE_DEPTH)%nat
  /\ exists s1, m (with_depth s (S (depth s))) = Ok (a, s1)
     /\ s' = with_depth s1 (depth s1 - 1).
Proof.
  unfold nested, enter. cbn [pos depth with_depth]. rewrite Nat.add_1_r.
  destruct (Nat.ltb_spec MAX_PARSE_DEPTH (S (depth s))) as [Hb|Hb]; cbn [obind perr]; [done|].
  intros ([b s1] & Hm & [= <- <-])%obind_ok. split; [lia|]. eauto.
Qed.

(** Entering and leaving around a phrase that keeps the depth. *)
Lemma consumed_nested s ts s1 :
  consumed (with_depth s (S (depth s))) ts s1 ->
  consumed s ts (with_depth s1 (depth s1 - 1)) /\ in_range s1.
Proof.
  intros (E & Hr & D). simpl in *. split; [|done]. split_and!; [done|done|]. simpl. lia.
Qed.

Definition sound_at (n : nat) : Prop :=
  (forall s a s', in_range s -> parse_or tokens n s = Ok (a, s') ->
     exists ts, g_or (depth s) ts a /\ consumed s ts s')
  /\ (forall l s a s', in_range s -> or_loop tokens n l s = Ok (a, s') ->
     exists ts, g_or_tail (depth s) l ts a /\ consumed s ts s')
  /\ (forall s a s', in_range s -> parse_and tokens n s = Ok (a, s') ->
     exists ts, g_and (depth s) ts a /\ consumed s ts s')
  /\ (forall l s a s', in_range s -> and_loop tokens n l s = Ok (a, s') ->
     exists ts, g_and_tail (depth s) l ts a /\ consumed s ts s')
  /\ (forall s a s', in_range s -> parse_unary tokens n s = Ok (a, s') ->
     exists ts, g_unary (depth s) ts a /\ consumed s ts s')
  /\ (forall s d a s', in_range s -> depth s = S d -> (d < MAX_PARSE_DEPTH)%nat ->
     parse_primary tokens n s = Ok (a, s') ->
     exists ts, g_unary d ts a /\ consumed s ts s').

Lemma consumed_range s ts s' : consumed s ts s' -> in_range s'.
Proof. by intros (_ & ? & _). Qed.

Lemma consumed_depth s ts s' : consumed s ts s' -> depth s' = depth s.
Proof. by intros (_ & _ & ?). Qed.

Lemma or_sound n s a s' : sound_at n ->
  in_range s -> parse_or tokens (S n) s = Ok (a, s') ->
  exists ts, g_or (depth s) ts a /\ consumed s ts s'.
Proof.
  intros (_ & Hol & Ha & _) Hr. cbn [parse_or]. intros (Hd & s1 & E & ->)%nested_inv.
  apply obind_ok in E as ([l s2] & (ts1 & G1 & C1)%Ha & E); [|done]. cbn [depth with_depth] in G1.
  apply Hol in E as (ts2 & G2 & C2); [|by eapply consumed_range].
  rewrite (consumed_depth _ _ _ C1) in G2. cbn [depth with_depth] in G2.
  exists (ts1 ++ ts2). split; [by econstructor|].
  apply consumed_nested. by eapply consumed_app.
Qed.

Lemma or_loop_sound n l s a s' : sound_at n ->
  in_range s -> or_loop tokens (S n) l s = Ok (a, s') ->
  exists ts, g_or_tail (depth s) l ts a /\ consumed s ts s'.
Proof.
  intros (_ & Hol & Ha & _) Hr. cbn [or_loop]. intros (t & Hp & E)%obind_ok.
  destruct t; try (injection E as <- <-; exists []; split; [constructor|by apply consumed_nil]).
  apply obind_ok in E as ([t s1] & Hadv & E). pose proof (advance_peeked _ _ _ _ Hp Hadv) as ->.
  apply advance_inv in Hadv; [|done].
  apply obind_ok in E as ([r s2] & (ts1 & G1 & C1)%Ha & E); [|by eapply consumed_range].
  apply Hol in E as (ts2 & G2 & C2); [|by eapply consumed_range].
  rewrite (consumed_depth _ _ _ C1) in G2. rewrite (consumed_depth _ _ _ Hadv) in G1, G2.
  exists (TOr :: ts1 ++ ts2). split; [by econstructor|].
  eapply (consumed_app s [TOr]); [done|]. by eapply consumed_app.
Qed.

Lemma and_sound n s a s' : sound_at n ->
  in_range s -> parse_and tokens (S n) s = Ok (a, s') ->
  exists ts, g_and (depth s) ts a /\ consumed s ts s'.
Proof.
  intros (_ & _ & _ & Hal & Hu & _) Hr. cbn [parse_and].
  intros ([l s2] & (ts1 & G1 & C1)%Hu & E)%obind_ok; [|done].
  apply Hal in E as (ts2 & G2 & C2); [|by eapply consumed_range].
  rewrite (consumed_depth _ _ _ C1) in G2.
  exists (ts1 ++ ts2). split; [by econstructor|]. by eapply consumed_app.
Qed.

Lemma and_loop_sound n l s a s' : sound_at n ->
  in_range s -> and_loop tokens (S n) l s = Ok (a, s') ->
  exists ts, g_and_tail (depth s) l ts a /\ consumed s ts s'.
Proof.
  intros (_ & _ & _ & Hal & Hu & _) Hr. cbn [and_loop]. intros (t & Hp & E)%obind_ok.
  destruct t; try (injection E as <- <-; exists []; split; [constructor|by apply consumed_nil]).
  apply obind_ok in E as ([t s1] & Hadv & E). pose proof (advance_peeked _ _ _ _ Hp Hadv) as ->.
  apply advance_inv in Hadv; [|done].
  apply obind_ok in E as ([r s2] & (ts1 & G1 & C1)%Hu & E); [|by eapply consumed_range].
  apply Hal in E as (ts2 & G2 & C2); [|by eapply consumed_range].
  rewrite (consumed_depth _ _ _ C1) in G2. rewrite (consumed_depth _ _ _ Hadv) in G1, G2.
  exists (TAnd :: ts1 ++ ts2). split; [by econstructor|].
  eapply (consumed_app s [TAnd]); [done|]. by eapply consumed_app.
Qed.

Lemma unary_sound n s a s' : sound_at n ->
  in_range s -> parse_unary tokens (S n) s = Ok (a, s') ->
  exists ts, g_unary (depth s) ts a /\ consumed s ts s'.
Proof.
  intros (_ & _ & _ & _ & Hu & Hpr) Hr. cbn [parse_unary].
  intros (Hd & s1 & E & ->)%nested_inv. apply obind_ok in E as (t & Hp & E).
  assert ((exists s2 a', advance tokens (with_depth s (S (depth s))) = Ok (TNot, s2)
            /\ parse_unary tokens n s2 = Ok (a', s1) /\ a = Not a')
          \/ parse_primary tokens n (with_depth s (S (depth s))) = Ok (a, s1))
    as [(s2 & a' & Hadv & Hi & ->)|Hi].
  { destruct t; try (right; exact E). left.
    apply obind_ok in E as ([t s2] & Hadv & E). pose proof (advance_peeked _ _ _ _ Hp Hadv) as ->.
    apply obind_ok in E as ([i s3] & Hi & [= <- <-]). eauto. }
  - apply advance_inv in Hadv; [|done].
    apply Hu in Hi as (ts & G & C); [|by eapply consumed_range].
    rewrite (consumed_depth _ _ _ Hadv) in G. cbn [depth with_depth] in G.
    exists (TNot :: ts). split; [by constructor|]. apply consumed_nested.
    by eapply (consumed_app _ [TNot]).
  - eapply Hpr in Hi as (ts & G & C); [|done|reflexivity|done].
    exists ts. split; [done|]. by apply consumed_nested.
Qed.

Lemma primary_sound n s d a s' : sound_at n ->
  in_range s -> depth s = S d -> (d < MAX_PARSE_DEPTH)%nat ->
  parse_primary tokens (S n) s = Ok (a, s') ->
  exists ts, g_unary d ts a /\ consumed s ts s'.
Proof.
  intros (Ho & _) Hr Hs Hd. cbn [parse_primary]. intros (t & Hp & E)%obind_ok.
  assert ((exists s1 s2, advance tokens s = Ok (TLParen, s1) /\ parse_or tokens n s1 = Ok (a, s2)
            /\ advance tokens s2 = Ok (TRParen, s'))
          \/ parse_comparison tokens n s = Ok (a, s')) as [(s1 & s2 & H1 & H2 & H3)|Hc].
  { destruct t; try (right; exact E). left.
    apply obind_ok in E as ([t s1] & Hadv & E). pose proof (advance_peeked _ _ _ _ Hp Hadv) as ->.
    apply obind_ok in E as ([i s2] & Hi & E). apply obind_ok in E as (t & Hp2 & E).
    destruct t; try done. apply obind_ok in E as ([t s3] & Hadv2 & [= <- <-]).
    pose proof (advance_peeked _ _ _ _ Hp2 Hadv2) as ->. eauto. }
  - apply advance_inv in H1; [|done]. apply Ho in H2 as (ts & G & C); [|by eapply consumed_range].
    rewrite (consumed_depth _ _ _ H1), Hs in G. apply advance_inv in H3; [|done].
    exists (TLParen :: ts ++ [TRParen]). split; [by constructor|].
    eapply (consumed_app _ [TLParen]); [done|]. by eapply consumed_app.
  - apply comparison_sound in Hc as (ts & G & C); [|done]. exists ts. split; [by constructor|done].
Qed.

Lemma all_sound n : sound_at n.
Proof.
  induction n as [|n IH]; [repeat split; done|].
  repeat split; intros; [by eapply or_sound|by eapply or_loop_sound|by eapply and_sound
    |by eapply and_loop_sound|by eapply unary_sound|by eapply primary_sound].
Qed.

(** ** No panic, with the fuel of [parse_tokens] *)

Definition left_from s : nat := (List.length tokens - pos s)%nat.

Lemma np_perr {A} s m : no_panic (@perr A s m).
Proof. discriminate. Qed.

Lemma np_peek {B} s (k : Token -> outcome ParseError B) :
  in_range s -> (forall t, peek tokens s = Ok t -> no_panic (k t)) ->
  no_panic (obind (peek tokens s) k).
Proof.
  intros Hr Hk. apply obind_no_panic; [|done].
  destruct (peek_in_range s Hr) as (t & -> & _). discriminate.
Qed.

Lemma np_advance {B} s (k : Token * pstate -> outcome ParseError B) :
  in_range s ->
  (forall t s', advance tokens s = Ok (t, s') -> in_range s' -> (left_from s' <= left_from s)%nat ->
     (t <> TEof -> (left_from s' < left_from s)%nat) -> no_panic (k (t, s'))) ->
  no_panic (obind (advance tokens s) k).
Proof.
  intros Hr Hk. destruct (advance_ok s Hr) as (t & s' & Ha & _ & Hr' & _ & Hle).
  apply obind_no_panic; [rewrite Ha; discriminate|]. intros [x y] E. apply Hk; [done| | |].
  - rewrite Ha in E. by injection E as <- <-.
  - rewrite Ha in E. injection E as <- <-. unfold left_from. lia.
  - intros Hne. apply advance_inv in E; [|done]. apply consumed_len in E; [|done].
    unfold left_from, in_range in *. simpl in E. lia.
Qed.

Lemma np_scalar {B} s (k : Value * pstate -> outcome ParseError B) :
  in_range s ->
  (forall v s', in_range s' -> (left_from s' < left_from s)%nat -> no_panic (k (v, s'))) ->
  no_panic (obind (parse_scalar tokens s) k).
Proof.
  intros Hr Hk. unfold parse_scalar. apply obind_no_panic.
  - apply np_advance; [done|]. intros t s' _ _ _ _. destruct t; discriminate.
  - intros [v s'] (t & Ht & Hc)%scalar_sound. apply Hk; [by eapply consumed_range|].
    apply consumed_len in Hc as Hl; [|done]. apply consumed_range in Hc.
    unfold left_from, in_range in *. simpl in Hl. lia.
Qed.

Lemma list_loop_np n items s :
  in_range s -> (left_from s < n)%nat -> no_panic (list_loop tokens n items s).
Proof.
  revert items s. induction n as [|n IH]; intros items s Hr Hn; [lia|]. simpl.
  apply np_peek; [done|]. intros t Hp. destruct t; try discriminate.
  apply np_advance; [done|]. intros t s1 Ha Hr1 Hle _. apply np_scalar; [done|].
  intros v s2 Hr2 Hlt. apply IH; [done|lia].
Qed.

Lemma comparison_np n s :
  in_range s -> (left_from s < n)%nat -> no_panic (parse_comparison tokens n s).
Proof.
  intros Hr Hn. unfold parse_comparison.
  apply np_advance; [done|]. intros t s1 _ Hr1 H1 _. destruct t; try discriminate.
  apply np_advance; [done|]. intros t s2 _ Hr2 H2 _. destruct t; try discriminate.
  destruct op; try (apply np_scalar; [done|]; intros; discriminate).
  apply np_advance; [done|]. intros t s3 _ Hr3 H3 _. destruct t; try discriminate.
  apply np_scalar; [done|]. intros v s4 Hr4 H4.
  apply obind_no_panic; [apply list_loop_np; [done|lia]|].
  intros [vs s5] (ts & vs' & -> & _ & Hl)%list_loop_sound; [|done].
  apply np_advance; [by eapply consumed_range|]. intros t s6 _ _ _ _. destruct t; discriminate.
Qed.

Lemma nested_np {A} (m : M A) s :
  no_panic (m (with_depth s (S (depth s)))) -> no_panic (nested m s).
Proof.
  unfold nested, enter. cbn [pos depth with_depth]. rewrite Nat.add_1_r. intros Hm.
  destruct (MAX_PARSE_DEPTH <? S (depth s))%nat; [discriminate|]. cbn [obind].
  apply obind_no_panic; [done|]. intros [a s1] _. discriminate.
Qed.

Definition np_at (n : nat) : Prop :=
  (forall s, in_range s -> (8 * left_from s + 4 <= n)%nat -> no_panic (parse_or tokens n s))
  /\ (forall l s, in_range s -> (8 * left_from s + 1 <= n)%nat -> no_panic (or_loop tokens n l s))
  /\ (forall s, in_range s -> (8 * left_from s + 3 <= n)%nat -> no_panic (parse_and tokens n s))
  /\ (forall l s, in_range s -> (8 * left_from s + 1 <= n)%nat -> no_panic (and_loop tokens n l s))
  /\ (forall s, in_range s -> (8 * left_from s + 2 <= n)%nat -> no_panic (parse_unary tokens n s))
  /\ (forall s, in_range s -> (8 * left_from s + 1 <= n)%nat -> no_panic (parse_primary tokens n s)).

(** The continuation after a phrase that succeeded: no token is given back. *)
Lemma np_after {A B} (m : M A) (G : list Token -> A -> Prop) s
    (k : A * pstate -> outcome ParseError B) :
  in_range s -> no_panic (m s) ->
  (forall a s', m s = Ok (a, s') -> exists ts, G ts a /\ consumed s ts s') ->
  (forall a s', in_range s' -> (left_from s' <= left_from s)%nat -> no_panic (k (a, s'))) ->
  no_panic (obind (m s) k).
Proof.
  intros Hr Hm Hs Hk. apply obind_no_panic; [done|]. intros [a s'] (ts & _ & Hc)%Hs.
  apply Hk; [by eapply consumed_range|]. apply consumed_len in Hc; [|done]. unfold left_from. lia.
Qed.

Lemma all_np n : np_at n.
Proof.
  induction n as [|n IH]; [repeat split; intros; lia|].
  destruct IH as (IHo & IHol & IHa & IHal & IHu & IHp).
  pose proof (all_sound n) as (So & Sol & Sa & Sal & Su & Sp). repeat split.
  - intros s Hr Hn. cbn [parse_or]. apply nested_np.
    eapply np_after; [done|apply IHa; [done|unfold left_from in *; simpl; lia]|intros; by apply Sa|].
    intros a s1 Hr1 H1. apply IHol; [done|]. unfold left_from in *. simpl in H1. lia.
  - intros l s Hr Hn. cbn [or_loop]. apply np_peek; [done|]. intros t Hp.
    destruct t; try discriminate. apply np_advance; [done|]. intros t s1 Ha Hr1 _ H1.
    pose proof (advance_peeked _ _ _ _ Hp Ha) as ->. specialize (H1 ltac:(done)).
    eapply np_after; [done|apply IHa; [done|lia]|intros; by apply Sa|].
    intros a s2 Hr2 H2. apply IHol; [done|lia].
  - intros s Hr Hn. cbn [parse_and].
    eapply np_after; [done|apply IHu; [done|lia]|intros; by apply Su|].
    intros a s1 Hr1 H1. apply IHal; [done|lia].
  - intros l s Hr Hn. cbn [and_loop]. apply np_peek; [done|]. intros t Hp.
    destruct t; try discriminate. apply np_advance; [done|]. intros t s1 Ha Hr1 _ H1.
    pose proof (advance_peeked _ _ _ _ Hp Ha) as ->. specialize (H1 ltac:(done)).
    eapply np_after; [done|apply IHu; [done|lia]|intros; by apply Su|].
    intros a s2 Hr2 H2. apply IHal; [done|lia].
  - intros s Hr Hn. cbn [parse_unary]. apply nested_np. apply np_peek; [done|]. intros t Hp.
    assert (no_panic (parse_primary tokens n (with_depth s (S (depth s))))) as Hpr.
    { apply IHp; [done|]. unfold left_from in *. simpl. lia. }
    destruct t; try exact Hpr. apply np_advance; [done|]. intros t s1 Ha Hr1 _ H1.
    pose proof (advance_peeked _ _ _ _ Hp Ha) as ->. specialize (H1 ltac:(done)).
    apply obind_no_panic; [apply IHu; [done|unfold left_from in *; simpl in *; lia]|].
    intros [a s2] _. discriminate.
  - intros s Hr Hn. cbn [parse_primary]. apply np_peek; [done|]. intros t Hp.
    assert (no_panic (parse_comparison tokens n s)) as Hc by (apply comparison_np; [done|unfold in_range, left_from in *; lia]).
    destruct t; try exact Hc. apply np_advance; [done|]. intros t s1 Ha Hr1 _ H1.
    pose proof (advance_peeked _ _ _ _ Hp Ha) as ->. specialize (H1 ltac:(done)).
    eapply np_after; [done|apply IHo; [done|lia]|intros; by apply So|].
    intros a s2 Hr2 H2. apply np_peek; [done|]. intros t Hp2. destruct t; try discriminate.
    apply np_advance; [done|]. intros; discriminate.
Qed.

Lemma tokens_nonempty : (0 < List.length tokens)%nat.
Proof. destruct tokens; [done|]. simpl. lia. Qed.

Lemma parse_tokens_np : no_panic (parse_tokens tokens).
Proof.
  unfold parse_tokens. pose proof tokens_nonempty as H0.
  set (s0 := {| pos := 0; depth := 0 |}).
  assert (in_range s0) as Hr by done.
  destruct (all_sound (parse_fuel tokens)) as (So & _).
  eapply np_after; [done| |intros; by apply So|].
  - apply (all_np (parse_fuel tokens)); [done|]. unfold left_from, parse_fuel. simpl. lia.
  - intros a s Hr' _. apply obind_no_panic; [|intros; discriminate]. unfold expect_eof.
    apply np_peek; [done|]. intros t _. destruct t; discriminate.
Qed.

Lemma parse_tokens_sound a :
  parse_tokens tokens = Ok a -> exists ts R, tokens = ts ++ TEof :: R /\ g_or 0 ts a.
Proof.
  unfold parse_tokens. pose proof tokens_nonempty as H0.
  destruct (all_sound (parse_fuel tokens)) as (So & _).
  intros ([b s] & (ts & G & C)%So & E)%obind_ok; [|done].
  apply obind_ok in E as ([] & Heof & [= ->]). exists ts. destruct C as (E & _ & _).
  unfold expect_eof in Heof. apply obind_ok in Heof as (t & Hp%peek_lookup & Ht).
  destruct t; try done. exists (drop (S (pos s)) tokens). split; [|done].
  simpl in E. rewrite drop_0 in E. by rewrite (drop_S _ _ _ Hp) in E.
Qed.
End Moves.

(** ** Completeness *)

Section Complete.
Context (tokens : list Token).

Definition st (p d : nat) : pstate := {| pos := p; depth := d |}.
Lemma ok_st {A} (a : A) p p' d : p = p' -> Ok (E := ParseError) (a, st p d) = Ok (a, st p' d).
Proof. by intros ->. Qed.

Definition no_head (t : Token) (R : list Token) : Prop := head R <> Some t.

(** The parser [m] reads the phrase [ts], whatever follows that satisfies
    [follow], and leaves the state right behind it. *)
Definition reads {A} (c : nat) (follow : list Token -> Prop) (m : nat -> M A) (d : nat)
    (ts : list Token) (a : A) : Prop :=
  forall p R n, drop p tokens = ts ++ R -> R <> [] -> follow R ->
    (8 * List.length (ts ++ R) + c <= n)%nat ->
    m n (st p d) = Ok (a, st (p + List.length ts) d).

Lemma drop_app_len p ts R : drop p tokens = ts ++ R -> drop (p + List.length ts) tokens = R.
Proof. intros E. by rewrite <- drop_drop, E, drop_app_length. Qed.

Lemma app_nonempty (ts R : list Token) : R <> [] -> ts ++ R <> [].
Proof. destruct R, ts; done. Qed.

Lemma advance_st p d t R :
  drop p tokens = t :: R -> R <> [] -> advance tokens (st p d) = Ok (t, st (p + 1) d).
Proof. intros E HR. by destruct (advance_at tokens (st p d) t R E HR) as [-> _]. Qed.

Lemma scalar_reads p d t v R :
  g_scalar t v -> drop p tokens = t :: R -> R <> [] ->
  parse_scalar tokens (st p d) = Ok (v, st (p + 1) d).
Proof.
  intros Hs E HR. unfold parse_scalar. rewrite (advance_st _ _ _ _ E HR). by destruct Hs.
Qed.

Lemma items_read ts vs : g_items ts vs ->
  forall n items p d R, drop p tokens = ts ++ R -> R <> [] -> no_head TComma R ->
    (List.length ts < n)%nat ->
    list_loop tokens n items (st p d) = Ok (items ++ vs, st (p + List.length ts) d).
Proof.
  induction 1 as [|t v ts vs Ht Hg IH]; intros n items p d R E HR Hf Hn;
    (destruct n as [|n]; [simpl in Hn; lia|]); cbn [list_loop].
  - destruct R as [|x R]; [done|]. rewrite (peek_at tokens (st p d) x R E). cbn [obind].
    rewrite app_nil_r, Nat.add_0_r. destruct x; done.
  - rewrite (peek_at tokens (st p d) _ _ E). cbn [obind app].
    rewrite (advance_st _ _ _ _ E) by done. cbn [obind].
    pose proof (drop_next _ _ _ _ E) as E1.
    rewrite (scalar_reads _ _ _ _ _ Ht E1) by by apply app_nonempty. cbn [obind].
    pose proof (drop_next _ _ _ _ E1) as E2. simpl in Hn.
    rewrite (IH n (items ++ [v]) _ d R E2) by (done || lia).
    rewrite <- app_assoc. apply ok_st. simpl. lia.
Qed.

Lemma comparison_reads p d ts a R n :
  g_comparison ts a -> drop p tokens = ts ++ R -> R <> [] -> (List.length ts < n)%nat ->
  parse_comparison tokens n (st p d) = Ok (a, st (p + List.length ts) d).
Proof.
  intros Hg E HR Hn. unfold parse_comparison. destruct Hg as [f op t v Hop Ht|f t v ts vs Ht Hts].
  - simpl in E. rewrite (advance_st _ _ _ _ E) by done. cbn [obind].
    pose proof (drop_next _ _ _ _ E) as E1. rewrite (advance_st _ _ _ _ E1) by done. cbn [obind].
    pose proof (drop_next _ _ _ _ E1) as E2.
    pose proof (scalar_reads _ d _ _ _ Ht E2 HR) as Hs.
    destruct op; try done; rewrite Hs; apply ok_st; simpl; lia.
  - cbn [app] in E. rewrite (advance_st _ _ _ _ E) by done. cbn [obind].
    pose proof (drop_next _ _ _ _ E) as E1. rewrite (advance_st _ _ _ _ E1) by done. cbn [obind].
    pose proof (drop_next _ _ _ _ E1) as E2. rewrite (advance_st _ _ _ _ E2) by done. cbn [obind].
    pose proof (drop_next _ _ _ _ E2) as E3. rewrite <- app_assoc in E3. cbn [app] in E3.
    rewrite (scalar_reads _ _ _ _ _ Ht E3) by by apply app_nonempty. cbn [obind].
    pose proof (drop_next _ _ _ _ E3) as E4. simpl in Hn. rewrite length_app in Hn. simpl in Hn.
    rewrite (items_read _ _ Hts n [v] _ d _ E4) by (done || lia). cbn [obind].
    pose proof (drop_app_len _ _ _ E4) as E5. rewrite (advance_st _ _ _ _ E5) by done. cbn [obind].
    apply ok_st. simpl. rewrite length_app. simpl. lia.
Qed.

Lemma nested_reads {A} (m : M A) p d a p' :
  (d < MAX_PARSE_DEPTH)%nat -> m (st p (S d)) = Ok (a, st p' (S d)) ->
  nested m (st p d) = Ok (a, st p' d).
Proof.
  intros Hd Hm. unfold nested, enter, st, with_depth in *. cbn [pos depth].
  rewrite Nat.add_1_r. destruct (Nat.ltb_spec MAX_PARSE_DEPTH (S d)); [lia|]. cbn [obind].
  rewrite Hm. cbn [obind pos depth]. by rewrite Nat.sub_succ, Nat.sub_0_r.
Qed.

Lemma or_tail_head d l ts a : g_or_tail d l ts a -> ts = [] \/ head ts = Some TOr.
Proof. destruct 1; auto. Qed.

Lemma and_tail_head d l ts a : g_and_tail d l ts a -> ts = [] \/ head ts = Some TAnd.
Proof. destruct 1; auto. Qed.

Definition after_and (R : list Token) : Prop := no_head TAnd R.
Definition after_or (R : list Token) : Prop := no_head TAnd R /\ no_head TOr R.

Lemma after_and_tail d l ts a R : g_or_tail d l ts a -> after_or R -> after_and (ts ++ R).
Proof.
  intros [->|Ht]%or_tail_head [Ha _]; [done|]. unfold after_and, no_head.
  destruct ts; simpl in *; congruence.
Qed.

Lemma all_read :
  (forall d ts a, g_or d ts a -> reads 4 after_or (parse_or tokens) d ts a)
  /\ (forall d l ts a, g_or_tail d l ts a -> reads 1 after_or (fun n => or_loop tokens n l) d ts a)
  /\ (forall d ts a, g_and d ts a -> reads 3 after_and (parse_and tokens) d ts a)
  /\ (forall d l ts a, g_and_tail d l ts a -> reads 1 after_and (fun n => and_loop tokens n l) d ts a)
  /\ (forall d ts a, g_unary d ts a -> reads 2 (fun _ => True) (parse_unary tokens) d ts a).
Proof.
  apply g_mut; unfold reads.
  - intros d ts1 a1 ts2 a Hd _ IH1 Ht IH2 p R n E HR Hf Hn.
    rewrite <- app_assoc in E, Hn. destruct n as [|n]; [lia|]. cbn [parse_or].
    apply nested_reads; [done|].
    rewrite (IH1 p (ts2 ++ R) n E) by (try apply app_nonempty; try eapply after_and_tail; done || lia).
    cbn [obind]. pose proof (drop_app_len _ _ _ E) as E1. rewrite length_app in Hn.
    rewrite (IH2 _ R n E1) by (done || lia). apply ok_st. rewrite length_app. lia.
  - intros d a p R n E HR [Ha Ho] Hn. destruct n as [|n]; [lia|]. cbn [or_loop].
    destruct R as [|x R]; [done|]. rewrite (peek_at tokens (st p d) x R E). cbn [obind].
    rewrite Nat.add_0_r. by destruct x.
  - intros d l ts1 a1 ts2 a _ IH1 Ht IH2 p R n E HR Hf Hn.
    cbn [app] in E, Hn. rewrite <- app_assoc in E, Hn. destruct n as [|n]; [lia|]. cbn [or_loop].
    rewrite (peek_at tokens (st p d) _ _ E). cbn [obind].
    rewrite (advance_st _ _ _ _ E) by by repeat apply app_nonempty. cbn [obind].
    pose proof (drop_next _ _ _ _ E) as E0. cbn [List.length] in Hn.
    rewrite (IH1 _ (ts2 ++ R) n E0) by (try apply app_nonempty; try eapply after_and_tail; done || lia).
    cbn [obind]. pose proof (drop_app_len _ _ _ E0) as E1. rewrite length_app in Hn.
    rewrite (IH2 _ R n E1) by (done || lia). apply ok_st. simpl. rewrite length_app. lia.
  - intros d ts1 a1 ts2 a _ IH1 Ht IH2 p R n E HR Hf Hn.
    rewrite <- app_assoc in E, Hn. destruct n as [|n]; [lia|]. cbn [parse_and].
    rewrite (IH1 p (ts2 ++ R) n E) by (try apply app_nonempty; done || lia).
    cbn [obind]. pose proof (drop_app_len _ _ _ E) as E1. rewrite length_app in Hn.
    rewrite (IH2 _ R n E1) by (done || lia). apply ok_st. rewrite length_app. lia.
  - intros d a p R n E HR Ha Hn. destruct n as [|n]; [lia|]. cbn [and_loop].
    destruct R as [|x R]; [done|]. rewrite (peek_at tokens (st p d) x R E). cbn [obind].
    rewrite Nat.add_0_r. by destruct x.
  - intros d l ts1 a1 ts2 a _ IH1 Ht IH2 p R n E HR Hf Hn.
    cbn [app] in E, Hn. rewrite <- app_assoc in E, Hn. destruct n as [|n]; [lia|]. cbn [and_loop].
    rewrite (peek_at tokens (st p d) _ _ E). cbn [obind].
    rewrite (advance_st _ _ _ _ E) by by repeat apply app_nonempty. cbn [obind].
    pose proof (drop_next _ _ _ _ E) as E0. cbn [List.length] in Hn.
    rewrite (IH1 _ (ts2 ++ R) n E0) by (try apply app_nonempty; done || lia).
    cbn [obind]. pose proof (drop_app_len _ _ _ E0) as E1. rewrite length_app in Hn.
    rewrite (IH2 _ R n E1) by (done || lia). apply ok_st. simpl. rewrite length_app. lia.
  - intros d ts a Hd _ IH p R n E HR _ Hn. cbn [app List.length] in E, Hn.
    destruct n as [|n]; [lia|]. cbn [parse_unary]. apply nested_reads; [done|].
    rewrite (peek_at tokens (st p (S d)) _ _ E). cbn [obind].
    rewrite (advance_st _ _ _ _ E) by by apply app_nonempty. cbn [obind].
    pose proof (drop_next _ _ _ _ E) as E0. rewrite (IH _ R n E0) by (done || lia).
    apply ok_st. simpl. lia.
  - intros d ts a Hd _ IH p R n E HR _ Hn. cbn [app List.length] in E, Hn.
    rewrite <- app_assoc in E, Hn. cbn [app] in E, Hn.
    destruct n as [|n]; [lia|]. cbn [parse_unary]. apply nested_reads; [done|].
    rewrite (peek_at tokens (st p (S d)) _ _ E). cbn [obind].
    destruct n as [|n]; [lia|]. cbn [parse_primary].
    rewrite (peek_at tokens (st p (S d)) _ _ E). cbn [obind].
    rewrite (advance_st _ _ _ _ E) by by apply app_nonempty. cbn [obind].
    pose proof (drop_next _ _ _ _ E) as E0. rewrite (IH _ (TRParen :: R) n E0) by (done || lia).
    cbn [obind]. pose proof (drop_app_len _ _ _ E0) as E1.
    rewrite (peek_at tokens (st _ (S d)) _ _ E1). cbn [obind].
    rewrite (advance_st _ _ _ _ E1) by done. apply ok_st. simpl. rewrite length_app. simpl. lia.
  - intros d ts a Hd Hg p R n E HR _ Hn. rewrite length_app in Hn.
    destruct n as [|n]; [lia|]. cbn [parse_unary]. apply nested_reads; [done|].
    assert (exists f ts', ts = TIdent f :: ts') as (f & ts' & ->) by (destruct Hg; eauto).
    rewrite (peek_at tokens (st p (S d)) _ _ E). cbn [obind].
    destruct n as [|n]; [lia|]. cbn [parse_primary].
    rewrite (peek_at tokens (st p (S d)) _ _ E). cbn [obind].
    eapply comparison_reads; [done|done|done|]. simpl in *. lia.
Qed.
End Complete.

Lemma parse_tokens_iff body a :
  TEof ∉ body -> parse_tokens (body ++ [TEof]) = Ok a <-> g_or 0 body a.
Proof.
  intros Hb. split.
  - intros (ts & R & E & G)%parse_tokens_sound; [|apply last_snoc].
    assert (ts = body) as ->; [|done].
    destruct (app_eq_inv _ _ _ _ E) as [(k & E1 & E2)|(k & E1 & E2)].
    + destruct k as [|x k]; [by rewrite app_nil_r in E1|]. injection E2 as <- _. set_solver.
    + destruct k as [|x k]; [by rewrite app_nil_r in E1|].
      apply (f_equal List.length) in E2. rewrite length_app in E2. simpl in E2. lia.
  - intros G. unfold parse_tokens.
    destruct (all_read (body ++ [TEof])) as (Ho & _).
    pose proof (Ho 0%nat body a G 0%nat [TEof] (parse_fuel (body ++ [TEof]))) as Hp.
    unfold st in Hp. rewrite Hp; [|done|done|by split|unfold parse_fuel; lia].
    cbn [obind]. unfold expect_eof. rewrite (peek_at _ _ TEof []); [done|].
    cbn [pos]. by rewrite Nat.add_0_l, drop_app_length.
Qed.

(** ** Printing *)

Definition pr_scalar (v : Value) : Token :=
  match v with Str s => TStr s | Num n => TNum n | VList _ => TEof end.

Definition pr_cmp (f : string) (op : Op) (v : Value) : list Token :=
  match v with
  | VList (v :: vs) =>
      TIdent f :: TOp op :: TLParen :: pr_scalar v
      :: flat_map (fun v => [TComma; pr_scalar v]) vs ++ [TRParen]
  | v => [TIdent f; TOp op; pr_scalar v]
  end.

Definition parens (b : bool) (ts : list Token) : list Token :=
  if b then TLParen :: ts ++ [TRParen] else ts.

(** The tokens of a query at precedence level 0 ([OR]), 1 ([AND]) or 2. *)
Fixpoint print (a : Ast) (lvl : nat) : list Token :=
  match a with
  | Or l r => parens (1 <=? lvl)%nat (print l 0 ++ TOr :: print r 1)
  | And l r => parens (2 <=? lvl)%nat (print l 1 ++ TAnd :: print r 2)
  | Not a => TNot :: print a 2
  | Compare f op v => pr_cmp f op v
  end.

(** The nesting the parser needs for the printed query. *)
Fixpoint nesting (a : Ast) (lvl : nat) : nat :=
  match a with
  | Or l r => (if 1 <=? lvl then 2 else 0) + Nat.max (nesting l 0) (nesting r 1)
  | And l r => (if 2 <=? lvl then 2 else 0) + Nat.max (nesting l 1) (nesting r 2)
  | Not a => S (nesting a 2)
  | Compare _ _ _ => 1
  end%nat.

Definition scalar_ok (v : Value) : bool := match v with VList _ => false | _ => true end.

(** The trees the grammar can denote: [IN] has a nonempty list of scalars,
    every other operator a scalar. *)
Fixpoint ast_ok (a : Ast) : bool :=
  match a with
  | Or l r | And l r => ast_ok l && ast_ok r
  | Not a => ast_ok a
  | Compare _ In (VList (v :: vs)) => forallb scalar_ok (v :: vs)
  | Compare _ In _ => false
  | Compare _ _ v => scalar_ok v
  end.

Fixpoint height (a : Ast) : nat :=
  match a with
  | Or l r | And l r => S (Nat.max (height l) (height r))
  | Not a => S (height a)
  | Compare _ _ _ => 1
  end.

Lemma scalar_prints v : scalar_ok v = true -> g_scalar (pr_scalar v) v.
Proof. destruct v; simpl; [constructor|constructor|done]. Qed.

Lemma items_print vs :
  forallb scalar_ok vs = true -> g_items (flat_map (fun v => [TComma; pr_scalar v]) vs) vs.
Proof.
  induction vs as [|v vs IH]; simpl; [constructor|]. intros [Hv Hs]%andb_true_iff.
  constructor; [by apply scalar_prints|auto].
Qed.

Lemma cmp_prints f op v : ast_ok (Compare f op v) = true -> g_comparison (pr_cmp f op v) (Compare f op v).
Proof.
  destruct (decide (op = In)) as [->|Hop].
  - destruct v as [| |[|v vs]]; try done. cbn [ast_ok forallb pr_cmp].
    intros [Hv Hs]%andb_true_iff. constructor; [by apply scalar_prints|by apply items_print].
  - intros Hv. assert (scalar_ok v = true) as Hs by (by destruct op).
    destruct v; [..|done]; apply (gc_op f op _ _ Hop); constructor.
Qed.

Lemma or_tail_snoc d l ts a ts' b :
  g_or_tail d l ts a -> g_and d ts' b -> g_or_tail d l (ts ++ TOr :: ts') (Or a b).
Proof.
  intros Ht Hb. revert Hb. induction Ht as [d a|d l ts1 a1 ts2 a H1 Ht IH]; intros Hb.
  - rewrite <- (app_nil_r ts'). simpl. eapply got_cons; [done|constructor].
  - simpl. rewrite <- app_assoc. eapply got_cons; [done|auto].
Qed.

Lemma and_tail_snoc d l ts a ts' b :
  g_and_tail d l ts a -> g_unary d ts' b -> g_and_tail d l (ts ++ TAnd :: ts') (And a b).
Proof.
  intros Ht Hb. revert Hb. induction Ht as [d a|d l ts1 a1 ts2 a H1 Ht IH]; intros Hb.
  - rewrite <- (app_nil_r ts'). simpl. eapply gat_cons; [done|constructor].
  - simpl. rewrite <- app_assoc. eapply gat_cons; [done|auto].
Qed.

(** An [OR] chain without the entry into a new nesting level. *)
Definition g_ors (d : nat) (ts : list Token) (a : Ast) : Prop :=
  exists ts1 a1 ts2, ts = ts1 ++ ts2 /\ g_and d ts1 a1 /\ g_or_tail d a1 ts2 a.

Lemma ors_of_and d ts a : g_and d ts a -> g_ors d ts a.
Proof. intros G. exists ts, a, []. rewrite app_nil_r. split_and!; [done|done|constructor]. Qed.

Lemma and_of_unary d ts a : g_unary d ts a -> g_and d ts a.
Proof. intros G. rewrite <- (app_nil_r ts). econstructor; [done|constructor]. Qed.

Lemma paren_ors d ts a :
  (S d < MAX_PARSE_DEPTH)%nat -> g_ors (S (S d)) ts a -> g_unary d (TLParen :: ts ++ [TRParen]) a.
Proof.
  intros Hd (ts1 & a1 & ts2 & -> & G1 & G2). apply gu_paren; [lia|]. by apply (go_mk (S d) ts1 a1 ts2).
Qed.

Lemma ors_snoc d ts a ts' b : g_ors d ts a -> g_and d ts' b -> g_ors d (ts ++ TOr :: ts') (Or a b).
Proof.
  intros (ts1 & a1 & ts2 & -> & G1 & G2) Hb. exists ts1, a1, (ts2 ++ TOr :: ts').
  rewrite app_assoc. split_and!; [done|done|by apply or_tail_snoc].
Qed.

Lemma ands_snoc d ts a ts' b : g_and d ts a -> g_unary d ts' b -> g_and d (ts ++ TAnd :: ts') (And a b).
Proof.
  destruct 1 as [d ts1 a1 ts2 a G1 G2]. intros Hb. rewrite <- app_assoc.
  econstructor; [done|by apply and_tail_snoc].
Qed.

Lemma nesting_pos a lvl : (1 <= nesting a lvl)%nat.
Proof.
  revert lvl. induction a as [l IHl r IHr|l IHl r IHr|a IH|]; intros lvl; simpl; [| |lia|lia].
  - specialize (IHl 1%nat). lia.
  - specialize (IHl 0%nat). lia.
Qed.

Lemma print_derives a : ast_ok a = true -> forall d,
  ((d + nesting a 0 <= MAX_PARSE_DEPTH)%nat -> g_ors d (print a 0) a)
  /\ ((d + nesting a 1 <= MAX_PARSE_DEPTH)%nat -> g_and d (print a 1) a)
  /\ ((d + nesting a 2 <= MAX_PARSE_DEPTH)%nat -> g_unary d (print a 2) a).
Proof.
  induction a as [l IHl r IHr|l IHl r IHr|a IH|f op v]; intros Hok d.
  - simpl in Hok. apply andb_true_iff in Hok as [Hl Hr].
    destruct (IHl Hl d) as (_ & L1 & _), (IHr Hr d) as (_ & _ & R2).
    destruct (IHl Hl (S (S d))) as (_ & L1' & _), (IHr Hr (S (S d))) as (_ & _ & R2').
    cbn [print nesting parens Nat.leb]. split_and!.
    + intros Hd. apply ors_of_and, ands_snoc; [apply L1; lia|apply R2; lia].
    + intros Hd. apply ands_snoc; [apply L1; lia|apply R2; lia].
    + intros Hd. apply paren_ors; [pose proof (nesting_pos l 1); lia|].
      apply ors_of_and, ands_snoc; [apply L1'; lia|apply R2'; lia].
  - simpl in Hok. apply andb_true_iff in Hok as [Hl Hr].
    destruct (IHl Hl d) as (L0 & _), (IHr Hr d) as (_ & R1 & _).
    destruct (IHl Hl (S (S d))) as (L0' & _), (IHr Hr (S (S d))) as (_ & R1' & _).
    assert ((d + (2 + Nat.max (nesting l 0) (nesting r 1)) <= MAX_PARSE_DEPTH)%nat ->
      (S d < MAX_PARSE_DEPTH)%nat -> g_unary d (print (Or l r) 2) (Or l r)) as Hp.
    { intros Hd Hs. apply paren_ors; [done|]. apply ors_snoc; [apply L0'; lia|apply R1'; lia]. }
    assert (1 <= nesting l 0)%nat as Hn by apply nesting_pos.
    cbn [nesting Nat.leb] in *. split_and!.
    + intros Hd. apply ors_snoc; [apply L0; lia|apply R1; lia].
    + intros Hd. apply and_of_unary, Hp; lia.
    + intros Hd. apply Hp; lia.
  - simpl in Hok. destruct (IH Hok (S d)) as (_ & _ & U). cbn [print nesting].
    assert ((d + S (nesting a 2) <= MAX_PARSE_DEPTH)%nat -> g_unary d (TNot :: print a 2) (Not a)) as Hu.
    { intros Hd. apply gu_not; [lia|apply U; lia]. }
    split_and!; intros Hd; [by apply ors_of_and, and_of_unary, Hu|by apply and_of_unary, Hu|by apply Hu].
  - cbn [print nesting].
    assert ((d + 1 <= MAX_PARSE_DEPTH)%nat -> g_unary d (pr_cmp f op v) (Compare f op v)) as Hu.
    { intros Hd. apply gu_cmp; [lia|by apply cmp_prints]. }
    split_and!; intros Hd; [by apply ors_of_and, and_of_unary, Hu|by apply and_of_unary, Hu|by apply Hu].
Qed.

Lemma pr_scalar_no_eof v : scalar_ok v = true -> pr_scalar v <> TEof.
Proof. by destruct v. Qed.

Lemma g_no_eof :
  (forall d ts a, g_or d ts a -> TEof ∉ ts)
  /\ (forall d l ts a, g_or_tail d l ts a -> TEof ∉ ts)
  /\ (forall d ts a, g_and d ts a -> TEof ∉ ts)
  /\ (forall d l ts a, g_and_tail d l ts a -> TEof ∉ ts)
  /\ (forall d ts a, g_unary d ts a -> TEof ∉ ts).
Proof.
  assert (forall t v, g_scalar t v -> t <> TEof) as Hs by (by destruct 1).
  assert (forall ts vs, g_items ts vs -> TEof ∉ ts) as Hi.
  { induction 1 as [|t v ts vs Ht _ IH]; [set_solver|]. apply Hs in Ht. set_solver. }
  apply g_mut; try set_solver.
  intros d ts a _ [f op t v _ Ht|f t v ts' vs Ht Hts].
  - apply Hs in Ht. set_solver.
  - apply Hs in Ht. apply Hi in Hts. set_solver.
Qed.

Lemma g_ast_ok :
  (forall d ts a, g_or d ts a -> ast_ok a = true)
  /\ (forall d l ts a, g_or_tail d l ts a -> ast_ok l = true -> ast_ok a = true)
  /\ (forall d ts a, g_and d ts a -> ast_ok a = true)
  /\ (forall d l ts a, g_and_tail d l ts a -> ast_ok l = true -> ast_ok a = true)
  /\ (forall d ts a, g_unary d ts a -> ast_ok a = true).
Proof.
  assert (forall t v, g_scalar t v -> scalar_ok v = true) as Hs by (by destruct 1).
  assert (forall ts vs, g_items ts vs -> forallb scalar_ok vs = true) as Hi.
  { induction 1 as [|t v ts vs Ht _ IH]; [done|]. simpl. by rewrite (Hs _ _ Ht), IH. }
  apply g_mut; simpl; intros; auto.
  - eauto using andb_true_intro.
  - eauto using andb_true_intro.
  - match goal with Hc : g_comparison _ _ |- _ => destruct Hc as [f op t v Hop Ht|f t v ts' vs Ht Hts] end.
    + apply Hs in Ht. by destruct op.
    + simpl. by rewrite (Hs _ _ Ht), (Hi _ _ Hts).
Qed.

Lemma lexeme_no_eof `{UnicodeTables} ls ts : Forall2 lexeme ls ts -> TEof ∉ ts.
Proof.
  induction 1 as [|l t ls ts Hl _ IH]; [set_solver|].
  assert (t <> TEof); [|set_solver]. destruct Hl; try done. unfold keyword. by repeat case_match.
Qed.

(** The left-deep [AND] chain of [n + 1] comparisons. *)
Fixpoint and_chain (n : nat) : Ast :=
  match n with
  | O => Compare "severity" Eq (Str "HIGH")
  | S n => And (and_chain n) (Compare "severity" Eq (Str "HIGH"))
  end.

Lemma and_chain_facts n : ast_ok (and_chain n) = true /\ nesting (and_chain n) 1 = 1%nat
  /\ height (and_chain n) = S n.
Proof.
  induction n as [|n (IH1 & IH2 & IH3)]; [done|]. simpl. rewrite IH1, IH2, IH3. simpl.
  split_and!; [done|done|lia].
Qed.

Lemma print_parses a :
  ast_ok a = true -> (S (nesting a 0) <= MAX_PARSE_DEPTH)%nat ->
  parse_tokens (print a 0 ++ [TEof]) = Ok a.
Proof.
  intros Hok Hn. destruct (print_derives a Hok 1) as (Ho & _).
  destruct (Ho Hn) as (ts1 & a1 & ts2 & E & G1 & G2).
  assert (g_or 0 (print a 0) a) as G by (rewrite E; eapply go_mk; [unfold MAX_PARSE_DEPTH; lia|done..]).
  apply parse_tokens_iff; [|done]. by apply g_no_eof in G.
Qed.

(** ** Properties *)

(** The parser decides the query grammar: on the text of a sequence of
    lexemes it accepts with tree [a] exactly when the tokens derive [a] (with
    [NOT] over [AND] over [OR], both chains to the left, within the nesting
    bound); any other sequence is an error. *)
Lemma parse_decides_grammar `{UnicodeTables} input ls ts a :
  chars input = spaced ls -> Forall2 lexeme ls ts ->
  (parse input = Ok a <-> g_or 0 ts a) /\ parse input <> Panic.
Proof.
  intros Hc Hl. unfold parse, tokenize. rewrite Hc, (lex_loop_spaced _ _ _ _ Hl) by lia.
  cbn [omap_err obind]. split; [apply parse_tokens_iff; by eapply lexeme_no_eof|].
  apply parse_tokens_np, last_snoc.
Qed.

(** The tables restricted to ASCII. *)
Definition ascii_alphabetic (c : char) : bool :=
  ((65 <=? c) && (c <=? 90)) || ((97 <=? c) && (c <=? 122)).

Lemma ascii_alphabetic_range c : ascii_alphabetic c = true -> 0 <= c.
Proof. unfold ascii_alphabetic. lia. Qed.

Lemma ascii_alphabetic_not_space c : ascii_alphabetic c = true -> is_whitespace c = false.
Proof. unfold ascii_alphabetic, is_whitespace. lia. Qed.

Definition ascii_tables : UnicodeTables := {|
  is_alphabetic := ascii_alphabetic;
  is_alphanumeric c := ascii_alphabetic c || is_ascii_digit c;
  alphabetic_ascii c _ := eq_refl;
  alphanumeric_ascii c _ := eq_refl;
  alphabetic_alphanumeric c H := orb_true_intro _ _ (or_introl H);
  alphabetic_range := ascii_alphabetic_range;
  alphabetic_not_space := ascii_alphabetic_not_space;
|}.

Definition example_lexemes : list (list char) :=
  [chars "severity"; chars "="; DQUOTE :: chars "HIGH" ++ [DQUOTE]].

Lemma parse_decides_grammar_witness :
  @parse ascii_tables (string_of_chars (spaced example_lexemes)) = Ok (and_chain 0).
Proof.
  refine (proj2 (proj1 (@parse_decides_grammar ascii_tables (string_of_chars (spaced example_lexemes))
    example_lexemes (print (and_chain 0) 0) (and_chain 0) _ _)) _).
  - vm_compute. reflexivity.
  - apply Forall2_cons; split; [|apply Forall2_cons; split; [|apply Forall2_cons; split; [|constructor]]].
    + apply (@lx_word ascii_tables 115 (chars "everity")); reflexivity.
    + apply (@lx_eq ascii_tables).
    + apply (@lx_str ascii_tables (chars "HIGH")). vm_compute.
      intros Hin. repeat (apply elem_of_cons in Hin as [Hin|Hin]; [discriminate|]).
      by apply not_elem_of_nil in Hin.
  - apply parse_tokens_iff; [|vm_compute; reflexivity].
    simpl. set_solver.
Defined.

(** C28. Every tree the grammar can denote survives printing and parsing, as
    long as the printed text stays within the nesting bound; and every tree the
    parser returns is one of those. *)
Theorem print_parse_roundtrip body a :
  TEof ∉ body ->
  (ast_ok a = true -> (S (nesting a 0) <= MAX_PARSE_DEPTH)%nat ->
     parse_tokens (print a 0 ++ [TEof]) = Ok a)
  /\ (parse_tokens (body ++ [TEof]) = Ok a -> ast_ok a = true).
Proof.
  intros Hb. split; [apply print_parses|]. intros G%parse_tokens_iff; [|done]. by apply g_ast_ok in G.
Qed.

Lemma print_parse_roundtrip_witness :
  parse_tokens (print (Not (Or (and_chain 1) (and_chain 0))) 0 ++ [TEof])
  = Ok (Not (Or (and_chain 1) (and_chain 0))).
Proof.
  apply (print_parse_roundtrip [] (Not (Or (and_chain 1) (and_chain 0)))).
  - apply not_elem_of_nil.
  - reflexivity.
  - vm_compute. lia.
Defined.

(** C29. Parsing is total: no input makes the parser index out of range,
    recurse beyond its bound or run forever. *)
Theorem parse_total `{UnicodeTables} input : parse input <> Panic.
Proof.
  unfold parse. destruct (tokenize input) as [ts|e|] eqn:E; simpl; [|done|].
  - unfold tokenize in E. apply lex_loop_eof in E as (ts' & -> & _). apply parse_tokens_np, last_snoc.
  - unfold tokenize in E. by apply lex_loop_no_panic in E; [|lia].
Qed.

Lemma parse_total_witness : @parse ascii_tables "((NOT a = 1 AND" <> Panic.
Proof. apply (@parse_total ascii_tables). Defined.

(** The nesting bound does not bound the tree: a flat chain of [AND]s is
    accepted at any length and yields a tree as high as the chain is long,
    which the recursive evaluator and field check then descend. *)
Lemma flat_chain_unbounded_height n :
  parse_tokens (print (and_chain n) 1 ++ [TEof]) = Ok (and_chain n)
  /\ height (and_chain n) = S n.
Proof.
  destruct (and_chain_facts n) as (Hok & Hn & Hh). split; [|done].
  assert (g_and 1 (print (and_chain n) 1) (and_chain n)) as G.
  { apply (print_derives _ Hok 1). rewrite Hn. unfold MAX_PARSE_DEPTH. lia. }
  assert (g_or 0 (print (and_chain n) 1) (and_chain n)) as G'.
  { rewrite <- (app_nil_r (print _ _)). eapply go_mk; [unfold MAX_PARSE_DEPTH; lia|done|constructor]. }
  apply parse_tokens_iff; [|done]. by apply g_no_eof in G'.
Qed.

(** The bound counts two levels per parenthesis: 31 nested parentheses are
    accepted, 32 are refused as deeper than "64 levels". *)
Lemma paren_nesting_limit :
  let q n := repeat TLParen n ++ print (and_chain 0) 0 ++ repeat TRParen n ++ [TEof] in
  parse_tokens (q 31%nat) = Ok (and_chain 0)
  /\ exists p, parse_tokens (q 32%nat) = Err {| position := p; message := TooDeep |}.
Proof. split; [vm_compute; reflexivity|]. eexists. vm_compute. reflexivity. Qed.
