(* ===== verification/QueryEval.v ===== *)
(** * Evaluating and planning OQL queries:
      [crates/osiris-query/src/eval.rs], [fields.rs] and [plan.rs] *)

From S2P Require Import Prelude Json Schema QueryLex QueryParse.

Section Eval.
Context `{JsonLib}.

(** [serde_json::to_value(event)]: the derived serialization. *)
Context (to_value : CanonicalEvent -> option json).

Fixpoint walk (cursor : json) (parts : list string) : option json :=
  match parts with
  | [] => Some cursor
  | p :: parts => match json_get cursor p with
                  | Some v => walk v parts
                  | None => None
                  end
  end.

Definition path_parts (field : string) : list string :=
  map of_bytes (split_all Byte.x2e (bytes_of field)).

Definition get_field (event : CanonicalEvent) (field : string) : option json :=
  match to_value event with
  | Some v => walk v (path_parts field)
  | None => None
  end.

Definition as_f64 (v : json) : option f64 :=
  match json_as_f64 v with
  | Some n => Some n
  | None => match json_as_str v with
            | Some s => parse_f64 (chars s)
            | None => None
            end
  end.

Definition as_str_lossy (v : json) : string := default (json_to_string v) (json_as_str v).

(** [PartialEq] of [Option<f64>] against [Some(n)]. *)
Definition f64_is (o : option f64) (n : f64) : bool :=
  match o with Some a => SFeqb a n | None => false end.

Definition f64_test (f : f64 -> f64 -> bool) (o : option f64) (n : f64) : bool :=
  match o with Some a => f a n | None => false end.

Fixpoint compare (actual : json) (op : Op) (target : Value) : bool :=
  match op, target with
  | Eq, Str s => String.eqb (as_str_lossy actual) s
  | Eq, Num n => f64_is (as_f64 actual) n
  | Ne, Str s => negb (String.eqb (as_str_lossy actual) s)
  | Ne, Num n => negb (f64_is (as_f64 actual) n)
  | Gt, Num n => f64_test (fun a n => SFltb n a) (as_f64 actual) n
  | Lt, Num n => f64_test SFltb (as_f64 actual) n
  | Ge, Num n => f64_test (fun a n => SFleb n a) (as_f64 actual) n
  | Le, Num n => f64_test SFleb (as_f64 actual) n
  | Contains, Str s => str_contains (as_str_lossy actual) s
  | StartsWith, Str s => str_starts_with (as_str_lossy actual) s
  | EndsWith, Str s => str_ends_with (as_str_lossy actual) s
  | In, VList items => existsb (compare actual Eq) items
  | _, _ => false
  end.

Fixpoint eval_ast (event : CanonicalEvent) (ast : Ast) : bool :=
  match ast with
  | And l r => eval_ast event l && eval_ast event r
  | Or l r => eval_ast event l || eval_ast event r
  | Not inner => negb (eval_ast event inner)
  | Compare field op value =>
      match get_field event field with
      | Some actual => compare actual op value
      | None => false
      end
  end.

End Eval.

(** ** [fields.rs] *)

Definition KNOWN_FIELDS : list string :=
  ["event_type"; "category"; "severity"; "timestamp"; "host_id"; "process.pid";
   "process.exe_path"; "process.process_key"; "parent_process.pid";
   "parent_process.process_key"; "user.uid"; "user.username"; "file.path"; "file.inode";
   "file.device_id"; "network.src_ip"; "network.dst_ip"; "network.dst_port"; "dns.query";
   "session.session_id"; "service.unit_name"; "container.container_id"; "tags"].

Definition is_known_field (field : string) : bool := existsb (String.eqb field) KNOWN_FIELDS.

(** ** [plan.rs] *)

Definition DEFAULT_EVENT_LIMIT : Z := 500.
Definition MAX_EVENT_LIMIT : Z := 5000.

Inductive CompileError := Syntax (e : ParseError) | UnknownField (message : string).

Record EventQueryPlan := {
  filter_ast : option Ast; since : option Z; until : option Z; limit : Z; export : bool;
  host_ids : option (list string) }.

Definition plan_new : EventQueryPlan :=
  {| filter_ast := None; since := None; until := None; limit := DEFAULT_EVENT_LIMIT;
     export := false; host_ids := None |}.

Fixpoint validate_ast_fields (ast : Ast) : outcome CompileError unit :=
  match ast with
  | And l r | Or l r => let? _ := validate_ast_fields l in validate_ast_fields r
  | Not inner => validate_ast_fields inner
  | Compare field _ _ =>
      if is_known_field field then Ok tt
      else Err (UnknownField ("'" +:+ field +:+
             "' is not a queryable field (see osiris_query::known_fields())"))
  end.

Definition with_filter `{UnicodeTables} (oql : string) : outcome CompileError EventQueryPlan :=
  let? ast := omap_err Syntax (parse oql) in
  let? _ := validate_ast_fields ast in
  Ok {| filter_ast := Some ast; since := None; until := None; limit := DEFAULT_EVENT_LIMIT;
        export := false; host_ids := None |}.

Definition effective_limit (p : EventQueryPlan) : Z :=
  let ceiling := if export p then MAX_EVENT_LIMIT else DEFAULT_EVENT_LIMIT in
  Z.min (limit p) ceiling.

(** ** Facts *)

Fixpoint fields_of (a : Ast) : list string :=
  match a with
  | And l r | Or l r => fields_of l ++ fields_of r
  | Not a => fields_of a
  | Compare f _ _ => [f]
  end.

Lemma validate_ast_fields_ok a :
  validate_ast_fields a = Ok tt <-> Forall (fun f => is_known_field f = true) (fields_of a).
Proof.
  induction a as [l IHl r IHr|l IHl r IHr|a IH|f op v]; simpl.
  1,2: rewrite Forall_app, <- IHl, <- IHr; destruct (validate_ast_fields l) as [[]| |]; simpl; naive_solver.
  - done.
  - rewrite Forall_singleton. destruct (is_known_field f); naive_solver.
Qed.

Lemma validate_ast_fields_no_panic a : no_panic (validate_ast_fields a).
Proof.
  induction a as [l IHl r IHr|l IHl r IHr|a IH|f op v]; simpl; no_panics; done.
Qed.

(** ** Properties *)

(** [with_filter] returns a plan exactly for the well-formed queries all of
    whose fields are queryable, with that query as its filter and the default
    row cap; it never panics. *)
Lemma with_filter_exactly `{UnicodeTables} oql p :
  (with_filter oql = Ok p <->
   exists a, parse oql = Ok a /\ Forall (fun f => is_known_field f = true) (fields_of a)
     /\ p = {| filter_ast := Some a; since := None; until := None; limit := DEFAULT_EVENT_LIMIT;
               export := false; host_ids := None |})
  /\ no_panic (with_filter oql).
Proof.
  unfold with_filter. destruct (parse oql) as [a|e|] eqn:E; simpl.
  - split.
    + split.
      * intros ([] & Hv%validate_ast_fields_ok & [= <-])%obind_ok. eauto.
      * intros (a' & [= <-] & Hf%validate_ast_fields_ok & ->). by rewrite Hf.
    + no_panics. apply validate_ast_fields_no_panic.
  - split; [split; [done|by intros (? & ? & _)]|discriminate].
  - exfalso. revert E. unfold parse. destruct (tokenize oql) as [ts| |] eqn:Et; simpl; [|done|].
    + unfold tokenize in Et. apply lex_loop_eof in Et as (ts' & -> & _).
      apply parse_tokens_np, last_snoc.
    + unfold tokenize in Et. by apply lex_loop_no_panic in Et; [|lia].
Qed.

Definition sample_filter : Ast := Compare "event_type" Eq (Str "PROCESS_EXEC").

Definition sample_query : string :=
  string_of_chars (chars "event_type = " ++ DQUOTE :: chars "PROCESS_EXEC" ++ [DQUOTE]).

Definition sample_plan : EventQueryPlan :=
  {| filter_ast := Some sample_filter; since := None; until := None; limit := DEFAULT_EVENT_LIMIT;
     export := false; host_ids := None |}.

Lemma with_filter_exactly_witness :
  @with_filter ascii_tables sample_query = Ok sample_plan
  /\ effective_limit sample_plan = DEFAULT_EVENT_LIMIT.
Proof.
  split; [|reflexivity].
  apply (@with_filter_exactly ascii_tables sample_query sample_plan).
  exists sample_filter. split; [vm_compute; reflexivity|].
  split; [|reflexivity]. constructor; [reflexivity|constructor].
Defined.

(** What the operators mean on an event: a comparison on a field the event
    lacks is false, also for [!=]; on a field it has, [!=] is the negation of
    [=], the text operators are the substring relations on its text, and [IN]
    is the disjunction of the equalities with its items. *)
Lemma eval_operators `{JsonLib} to_value ev f :
  (get_field to_value ev f = None -> forall op v, eval_ast to_value ev (Compare f op v) = false)
  /\ (forall x, get_field to_value ev f = Some x ->
      (forall v, scalar_ok v = true ->
         eval_ast to_value ev (Compare f Ne v) = negb (eval_ast to_value ev (Compare f Eq v)))
      /\ (forall s, eval_ast to_value ev (Compare f Contains (Str s)) = true <->
           exists a b, bytes_of (as_str_lossy x) = a ++ bytes_of s ++ b)
      /\ (forall s, eval_ast to_value ev (Compare f StartsWith (Str s)) = true <->
           exists b, bytes_of (as_str_lossy x) = bytes_of s ++ b)
      /\ (forall s, eval_ast to_value ev (Compare f EndsWith (Str s)) = true <->
           exists a, bytes_of (as_str_lossy x) = a ++ bytes_of s))
  /\ (forall vs, eval_ast to_value ev (Compare f In (VList vs))
               = existsb (fun v => eval_ast to_value ev (Compare f Eq v)) vs).
Proof.
  split_and!.
  - intros E op v. simpl. by rewrite E.
  - intros x E. cbn [eval_ast]. rewrite E. split_and!.
    + by intros [| |].
    + intros s. apply is_infix_spec.
    + intros s. apply is_prefix_spec.
    + intros s. apply str_ends_with_spec.
  - intros vs. cbn [eval_ast]. destruct (get_field _ _ _) as [x|].
    + done.
    + by induction vs.
Qed.

(** An event whose [k] field is a text. *)
Definition query_to_value (e : @CanonicalEvent tjson_lib) : option tjson :=
  Some (TObj [("k", Json.TStr (@provider tjson_lib e))]).

Lemma eval_operators_witness :
  let ev := @sample_event tjson_lib 1 10 ProcessExec None "powershell" TNull in
  @eval_ast tjson_lib query_to_value ev (Compare "k" Contains (Str "shell")) = true
  /\ @eval_ast tjson_lib query_to_value ev (Compare "missing" Ne (Str "shell")) = false.
Proof.
  intros ev. split.
  - destruct (@eval_operators tjson_lib query_to_value ev "k") as (_ & Hx & _).
    apply (Hx (Json.TStr "powershell")); [reflexivity|].
    exists (bytes_of "power"), []. reflexivity.
  - destruct (@eval_operators tjson_lib query_to_value ev "missing") as (Hn & _).
    apply Hn. reflexivity.
Defined.
