(* ===== verification/Detect.v ===== *)
(** * The detection engine: [crates/osiris-detect/src/rule.rs], [eval.rs] and
      [engine.rs] *)

From S2P Require Import Prelude BTree Concrete Json Schema.

(** ** [rule.rs] *)

Inductive Operator := OpEq | OpNe | OpContains | OpStartsWith | OpEndsWith | OpIn.

Inductive RuleError :=
| RuleRead (path : string)
| RuleParse (origin : string)
| BlankId (origin : string)
| NoConditions (id : string)
| ConflictingConditions (id : string)
| EmptyReason (id : string) (index : Z)
| EmptyConditionReason (id : string)
| SequenceWithoutWindow (id : string)
| WindowWithoutSequence (id : string)
| SequenceTooShort (id : string).

Section Detect.
Context `{JsonLib}.

Record Condition := { c_field : string; c_op : Operator; c_value : json; c_reason : string }.

Inductive ConditionNode :=
| All (all : list ConditionNode)
| Any (any : list ConditionNode)
| CNot (not : ConditionNode)
| Match (c : Condition).

Record Rule := {
  rule_id : string;
  rule_version : Z;
  rule_severity : Severity;
  match_conditions : list Condition;
  conditions : option ConditionNode;
  content_hash : string;
  window : option Z;
  sequence : option (list Condition);
}.

Record RuleFile := {
  rf_id : string; rf_version : Z; rf_severity : Severity; rf_match : list Condition;
  rf_conditions : option ConditionNode; rf_window : option Z; rf_sequence : option (list Condition) }.

Fixpoint condition_node_has_blank_reason (node : ConditionNode) : bool :=
  match node with
  | Match c => is_blank (c_reason c)
  | All all => existsb condition_node_has_blank_reason all
  | Any any => existsb condition_node_has_blank_reason any
  | CNot n => condition_node_has_blank_reason n
  end.

(** [for (index, c) in cs.iter().enumerate() { if blank(c.reason) ... }]: the
    index of the first blank reason. *)
Fixpoint first_blank (i : Z) (cs : list Condition) : option Z :=
  match cs with
  | [] => None
  | c :: cs => if is_blank (c_reason c) then Some i else first_blank (i + 1) cs
  end.

Definition check_reasons (id : string) (cs : list Condition) : outcome RuleError unit :=
  match first_blank 0 cs with
  | Some i => Err (EmptyReason id i)
  | None => Ok tt
  end.

Definition check_sequence (p : RuleFile) : outcome RuleError unit :=
  match rf_window p, rf_sequence p with
  | Some _, None => Err (WindowWithoutSequence (rf_id p))
  | None, Some _ => Err (SequenceWithoutWindow (rf_id p))
  | Some _, Some steps =>
      if (List.length steps <? 2)%nat then Err (SequenceTooShort (rf_id p))
      else check_reasons (rf_id p) steps
  | None, None => Ok tt
  end.

Definition check_forms (p : RuleFile) : outcome RuleError unit :=
  let has_match := negb (bool_decide (List.length (rf_match p) = 0%nat)) in
  let has_conditions := match rf_conditions p with Some _ => true | None => false end in
  let has_sequence := match rf_sequence p with Some _ => true | None => false end in
  if has_match && has_conditions then Err (ConflictingConditions (rf_id p))
  else if (has_match || has_conditions) && has_sequence then Err (ConflictingConditions (rf_id p))
  else if negb has_match && negb has_conditions && negb has_sequence then
    Err (NoConditions (rf_id p))
  else
    let? _ := (if has_match then check_reasons (rf_id p) (rf_match p) else Ok tt) in
    match rf_conditions p with
    | Some node =>
        if condition_node_has_blank_reason node then Err (EmptyConditionReason (rf_id p)) else Ok tt
    | None => Ok tt
    end.

Section Load.
(** [serde_yaml::from_str] into the derived [RuleFile]. *)
Context (yaml_parse : string -> option RuleFile) `{Sha256} `{HexCodec}.

Definition from_yaml_str (yaml origin : string) : outcome RuleError Rule :=
  let? p := ok_or (yaml_parse yaml) (RuleParse origin) in
  if is_blank (rf_id p) then Err (BlankId origin)
  else
    let? _ := check_sequence p in
    let? _ := check_forms p in
    Ok {| rule_id := rf_id p; rule_version := rf_version p; rule_severity := rf_severity p;
          match_conditions := rf_match p; conditions := rf_conditions p;
          content_hash := hex_encode (sha256 (bytes_of yaml));
          window := rf_window p; sequence := rf_sequence p |}.

(** [Path::extension] of a file name. *)
Definition extension (name : string) : option (list byte) :=
  match rev (split_all Byte.x2e (bytes_of name)) with
  | _ :: [] => None
  | ext :: [[]] => None
  | ext :: _ => Some ext
  | [] => None
  end.

Definition is_yaml (name : string) : bool :=
  match extension name with
  | Some e => bool_decide (e = bytes_of "yaml") || bool_decide (e = bytes_of "yml")
  | None => false
  end.

Fixpoint load_rules (files : list (string * option string)) : outcome RuleError (list Rule) :=
  match files with
  | [] => Ok []
  | (name, text) :: files =>
      let? yaml := ok_or text (RuleRead name) in
      let? r := from_yaml_str yaml name in
      let? rs := load_rules files in
      Ok (r :: rs)
  end.

Definition file_leb (a b : string * option string) : bool := negb (str_ltb b.1 a.1).

(** [load_from_dir]: the directory's entries as file names with their text
    ([None]: unreadable); [None] when the directory itself cannot be read. *)
Definition load_from_dir (dir : string) (entries : option (list (string * option string)))
  : outcome RuleError (list Rule) :=
  let? es := ok_or entries (RuleRead dir) in
  load_rules (sort_by file_leb (List.filter (fun e => is_yaml e.1) es)).

End Load.

(** ** [eval.rs] *)

Fixpoint field_walk (current : json) (segments : list string) : option json :=
  match segments with
  | [] => Some current
  | s :: segments =>
      match json_get current s with
      | Some v => if json_is_null v then None else field_walk v segments
      | None => None
      end
  end.

Definition field_value (event_json : json) (path : string) : option json :=
  field_walk event_json (map of_bytes (split_all Byte.x2e (bytes_of path))).

Definition str_op (f : string -> string -> bool) (actual expected : json) : bool :=
  match json_as_str actual, json_as_str expected with
  | Some a, Some e => f a e
  | _, _ => false
  end.

Definition matches (op : Operator) (actual expected : json) : bool :=
  match op with
  | OpEq => json_eqb actual expected
  | OpNe => negb (json_eqb actual expected)
  | OpIn => match json_as_array expected with
            | Some values => existsb (fun v => json_eqb v actual) values
            | None => false
            end
  | OpContains => str_op str_contains actual expected
  | OpStartsWith => str_op str_starts_with actual expected
  | OpEndsWith => str_op str_ends_with actual expected
  end.

(** [for child in all { reasons.extend(f(child)?) }] and
    [any.iter().find_map(f)]. *)
Fixpoint collect_all {A B} (f : A -> option (list B)) (l : list A) : option (list B) :=
  match l with
  | [] => Some []
  | x :: l =>
      match f x with
      | Some rs => match collect_all f l with Some rs' => Some (rs ++ rs') | None => None end
      | None => None
      end
  end.

Fixpoint find_map {A B} (f : A -> option B) (l : list A) : option B :=
  match l with
  | [] => None
  | x :: l => match f x with Some b => Some b | None => find_map f l end
  end.

Definition cond_matches (j : json) (c : Condition) : bool :=
  match field_value j (c_field c) with
  | Some actual => matches (c_op c) actual (c_value c)
  | None => false
  end.

Fixpoint eval_node (node : ConditionNode) (j : json) : option (list string) :=
  match node with
  | Match c =>
      match field_value j (c_field c) with
      | Some actual => if matches (c_op c) actual (c_value c) then Some [c_reason c] else None
      | None => None
      end
  | All all => collect_all (fun n => eval_node n j) all
  | Any any => find_map (fun n => eval_node n j) any
  | CNot n => match eval_node n j with None => Some [] | Some _ => None end
  end.

(** ** [engine.rs] *)

Record SequenceState := {
  next_step : nat; started_at : Z; last_ts : Z; event_ids : list Uuid }.

Abbreviation seq_map := (gmap (string * string) SequenceState) (only parsing).

Record DetectionEngine := { rules : list Rule; sequence_state : seq_map }.

Definition engine_new (rs : list Rule) : DetectionEngine :=
  {| rules := rs; sequence_state := ∅ |}.

Section Engine.
(** [serde_json::to_value] on events, and the fresh alert ids. *)
Context `{HexCodec} (to_value : CanonicalEvent -> option json)
        (new_id : Rule -> CanonicalEvent -> Uuid).

Definition derive_subject_key (event : CanonicalEvent) : option string :=
  match ev_process event with
  | Some p => Some (as_hex (process_key p))
  | None => option_map session_id (ev_session event)
  end.

Definition alert_for (rule : Rule) (event : CanonicalEvent) (reasons : list string)
    (evidence : list Uuid) : option Alert :=
  match alert_new (new_id rule event) (rule_id rule) (rule_version rule) (content_hash rule)
          (rule_severity rule) (ev_timestamp event) (ev_host_id event) reasons evidence with
  | Ok a => Some a
  | _ => None
  end.

Definition evaluate_rule (rule : Rule) (event : CanonicalEvent) (j : json) : option Alert :=
  match (match conditions rule with
         | Some node => eval_node node j
         | None => collect_all (fun c => match field_value j (c_field c) with
                                         | Some actual =>
                                             if matches (c_op c) actual (c_value c)
                                             then Some [c_reason c] else None
                                         | None => None
                                         end) (match_conditions rule)
         end) with
  | Some reasons => alert_for rule event reasons [event_id event]
  | None => None
  end.

(** State older than the rule's window is removed. *)
Definition drop_stale (event : CanonicalEvent) (win : Z) (key : string * string) (m : seq_map)
  : seq_map :=
  let stale := match m !! key with
               | Some s => win <? sat_sub (ev_timestamp event) (started_at s)
               | None => false
               end in
  if stale then delete key m else m.

(** The loop body of [evaluate_sequence_rules] for one rule: index and [expect]
    failures are [Panic]. *)
Definition step_sequence (event : CanonicalEvent) (j : json) (subject : string) (m : seq_map)
    (rule : Rule) : outcome Empty_set (option Alert * seq_map) :=
  let? steps := or_panic (sequence rule) in
  let? win := or_panic (window rule) in
  let key := (rule_id rule, subject) in
  let m := drop_stale event win key m in
  let step_index := match m !! key with Some s => next_step s | None => 0%nat end in
  let? condition := or_panic (steps !! step_index) in
  if negb (cond_matches j condition) then Ok (None, m)
  else
    let in_order := match m !! key with
                    | Some s => last_ts s <=? ev_timestamp event
                    | None => true
                    end in
    if (0 <? step_index)%nat && negb in_order then Ok (None, m)
    else
      let entry := match m !! key with
                   | Some s => s
                   | None => {| next_step := 0; started_at := ev_timestamp event;
                                last_ts := ev_timestamp event; event_ids := [] |}
                   end in
      let entry := {| next_step := next_step entry + 1; started_at := started_at entry;
                      last_ts := ev_timestamp event;
                      event_ids := event_ids entry ++ [event_id event] |} in
      if (next_step entry =? List.length steps)%nat then
        Ok (alert_for rule event (map c_reason steps) (event_ids entry), delete key m)
      else Ok (None, <[key := entry]> m).

Fixpoint sequence_loop (event : CanonicalEvent) (j : json) (subject : string) (m : seq_map)
    (rs : list Rule) : outcome Empty_set (list Alert * seq_map) :=
  match rs with
  | [] => Ok ([], m)
  | r :: rs =>
      let? (a, m) := step_sequence event j subject m r in
      let? (als, m) := sequence_loop event j subject m rs in
      Ok (option_list a ++ als, m)
  end.

Definition is_sequence (r : Rule) : bool :=
  match sequence r with Some _ => true | None => false end.

Definition evaluate_sequence_rules (eng : DetectionEngine) (event : CanonicalEvent) (j : json)
  : outcome Empty_set (list Alert * seq_map) :=
  match List.filter is_sequence (rules eng) with
  | [] => Ok ([], sequence_state eng)
  | rs =>
      match derive_subject_key event with
      | None => Ok ([], sequence_state eng)
      | Some subject => sequence_loop event j subject (sequence_state eng) rs
      end
  end.

Definition evaluate (eng : DetectionEngine) (event : CanonicalEvent)
  : outcome Empty_set (list Alert * DetectionEngine) :=
  match rules eng with
  | [] => Ok ([], eng)
  | _ =>
      match to_value event with
      | None => Ok ([], eng)
      | Some j =>
          let plain := omap (fun r => evaluate_rule r event j)
                         (List.filter (fun r => negb (is_sequence r)) (rules eng)) in
          let? (als, m) := evaluate_sequence_rules eng event j in
          Ok (plain ++ als, {| rules := rules eng; sequence_state := m |})
      end
  end.

Fixpoint evaluate_batch (eng : DetectionEngine) (events : list CanonicalEvent)
  : outcome Empty_set (list Alert * DetectionEngine) :=
  match events with
  | [] => Ok ([], eng)
  | e :: events =>
      let? (a, eng) := evaluate eng e in
      let? (als, eng) := evaluate_batch eng events in
      Ok (a ++ als, eng)
  end.

End Engine.

(** ** The boolean meaning of a condition tree *)

Fixpoint holds (node : ConditionNode) (j : json) : bool :=
  match node with
  | Match c => cond_matches j c
  | All all => forallb (fun n => holds n j) all
  | Any any => existsb (fun n => holds n j) any
  | CNot n => negb (holds n j)
  end.

(** The leaves that can contribute a reason: those not below a [not]. *)
Fixpoint positive_leaves (node : ConditionNode) : list Condition :=
  match node with
  | Match c => [c]
  | All l | Any l => flat_map positive_leaves l
  | CNot _ => []
  end.

(** Induction over the tree, with the hypothesis for every child. *)
Fixpoint node_ind' (P : ConditionNode -> Prop)
    (HAll : forall l, Forall P l -> P (All l)) (HAny : forall l, Forall P l -> P (Any l))
    (HNot : forall n, P n -> P (CNot n)) (HMatch : forall c, P (Match c)) (n : ConditionNode) : P n :=
  let go := fix go l : Forall P l :=
    match l with
    | [] => Forall_nil_2 P
    | x :: l => Forall_cons_2 P x l (node_ind' P HAll HAny HNot HMatch x) (go l)
    end in
  match n with
  | All l => HAll l (go l)
  | Any l => HAny l (go l)
  | CNot n => HNot n (node_ind' P HAll HAny HNot HMatch n)
  | Match c => HMatch c
  end.

Definition some_b {A} (o : option A) : bool := match o with Some _ => true | None => false end.

Lemma eval_node_holds n j : some_b (eval_node n j) = holds n j.
Proof.
  induction n as [l IH|l IH|n IH|c] using node_ind'; simpl.
  - induction IH as [|x l Hx _ IHl]; simpl; [done|]. rewrite <- Hx, <- IHl.
    destruct (eval_node x j); simpl; [|done]. by destruct (collect_all _ l).
  - induction IH as [|x l Hx _ IHl]; simpl; [done|]. rewrite <- Hx, <- IHl.
    by destruct (eval_node x j).
  - rewrite <- IH. by destruct (eval_node n j).
  - unfold cond_matches. destruct (field_value j (c_field c)); [|done]. by destruct (matches _ _ _).
Qed.

Lemma eval_node_reasons n j rs :
  eval_node n j = Some rs ->
  Forall (fun r => exists c, c ∈ positive_leaves n /\ cond_matches j c = true /\ c_reason c = r) rs.
Proof.
  revert rs. induction n as [l IH|l IH|n _|c] using node_ind'; simpl; intros rs.
  - revert rs. induction IH as [|x l Hx _ IHl]; simpl; intros rs; [intros [= <-]; constructor|].
    destruct (eval_node x j) as [r1|] eqn:E1; [|done].
    destruct (collect_all _ l) as [r2|] eqn:E2; [|done]. intros [= <-].
    apply Forall_app. split; (eapply Forall_impl; [first [by apply Hx|by apply IHl]|]);
      simpl; intros r (c & Hc & ?); exists c; (split; [apply elem_of_app; auto|done]).
  - revert rs. induction IH as [|x l Hx _ IHl]; simpl; intros rs; [done|].
    destruct (eval_node x j) as [r1|] eqn:E1; intros E;
      [injection E as <-; specialize (Hx _ eq_refl) as Hg|apply IHl in E as Hg];
      (eapply Forall_impl; [exact Hg|]; simpl; intros r (c & Hc & ?); exists c;
       (split; [apply elem_of_app; auto|done])).
  - destruct (eval_node n j); [done|]. intros [= <-]. constructor.
  - unfold cond_matches. destruct (field_value j (c_field c)) eqn:Ef; [|done].
    destruct (matches _ _ _) eqn:Em; [|done]. intros [= <-]. constructor; [|constructor].
    exists c. rewrite Ef. split_and!; [set_solver|done|done].
Qed.

(** ** Rules the loader accepts *)

Definition reasons_ok (cs : list Condition) : bool :=
  forallb (fun c => negb (is_blank (c_reason c))) cs.

(** Exactly one condition form, with an explanation for each condition; a
    sequence has a window and at least two steps. *)
Definition rule_ok (r : Rule) : bool :=
  negb (is_blank (rule_id r))
  && match match_conditions r, conditions r, sequence r, window r with
     | _ :: _, None, None, None => reasons_ok (match_conditions r)
     | [], Some node, None, None => negb (condition_node_has_blank_reason node)
     | [], None, Some steps, Some _ => (2 <=? List.length steps)%nat && reasons_ok steps
     | _, _, _, _ => false
     end.

(** A window is a [u64]. *)
Definition rule_typed (r : Rule) : bool :=
  match window r with Some w => fits 64 w | None => true end.

Lemma first_blank_none i cs : first_blank i cs = None <-> reasons_ok cs = true.
Proof.
  revert i. induction cs as [|c cs IH]; intros i; simpl; [done|].
  destruct (is_blank (c_reason c)); simpl; [done|apply IH].
Qed.

Lemma check_reasons_ok id cs : check_reasons id cs = Ok tt <-> reasons_ok cs = true.
Proof.
  rewrite <- (first_blank_none 0). unfold check_reasons. by destruct (first_blank 0 cs).
Qed.

Lemma from_yaml_str_ok yaml_parse `{Sha256} `{HexCodec} yaml origin r :
  from_yaml_str yaml_parse yaml origin = Ok r -> rule_ok r = true.
Proof.
  unfold from_yaml_str. intros (p & _ & E)%obind_ok. destruct (is_blank (rf_id p)) eqn:Eb; [done|].
  apply obind_ok in E as ([] & Hs & ([] & Hf & [= <-])%obind_ok).
  unfold rule_ok. cbn [rule_id match_conditions conditions sequence window]. rewrite Eb. cbn [negb andb].
  unfold check_sequence in Hs. unfold check_forms in Hf.
  destruct (rf_match p) as [|c cs] eqn:Em, (rf_conditions p) as [n|], (rf_window p) as [w|],
    (rf_sequence p) as [st|]; cbn in Hf, Hs |- *; try done.
  - by destruct (condition_node_has_blank_reason n).
  - destruct (Nat.leb_spec (List.length st) 1) as [|Hl]; [done|]. apply check_reasons_ok in Hs.
    rewrite Hs, andb_true_r. destruct st as [|x [|y st]]; [simpl in Hl; lia..|done].
  - destruct (check_reasons _ _) as [[]| |] eqn:Ec; try done. by apply check_reasons_ok in Ec.
Qed.

Lemma rule_ok_sequence r steps :
  rule_ok r = true -> sequence r = Some steps ->
  exists w, window r = Some w /\ (2 <= List.length steps)%nat /\ reasons_ok steps = true
    /\ is_blank (rule_id r) = false.
Proof.
  unfold rule_ok. intros [Hb Hr]%andb_true_iff Hs. rewrite Hs in Hr.
  destruct (match_conditions r), (conditions r), (window r) as [w|]; try done.
  apply andb_true_iff in Hr as [Hl%Nat.leb_le Hr]. apply negb_true_iff in Hb. eauto.
Qed.

Lemma reasons_ok_not_blank (steps : list Condition) :
  steps <> [] -> reasons_ok steps = true -> forallb is_blank (map c_reason steps) = false.
Proof.
  destruct steps as [|c steps]; [done|]. intros _. simpl. intros [Hc _]%andb_true_iff.
  apply negb_true_iff in Hc. by rewrite Hc.
Qed.

(** ** Sequences *)

Section Sequences.
Context `{HexCodec} (to_value : CanonicalEvent -> option json)
        (new_id : Rule -> CanonicalEvent -> Uuid).
Implicit Types e : CanonicalEvent.
Implicit Types hist evs : list CanonicalEvent.

(** [evs] is a run of the first steps of a sequence rule for [subject] in the
    event history [hist]: one event per step, in arrival order, that matches
    the step; in the order of their time stamps; each within the window of the
    first. *)
Record trace (steps : list Condition) (win : Z) (subject : string) hist evs : Prop := {
  tr_sub : evs `sublist_of` hist;
  tr_match : Forall2 (fun e c => exists j, to_value e = Some j /\ cond_matches j c = true)
               evs (take (List.length evs) steps);
  tr_subject : Forall (fun e => derive_subject_key e = Some subject) evs;
  tr_ordered : StronglySorted (fun a b => ev_timestamp a <= ev_timestamp b) evs;
  tr_window : forall first, head evs = Some first ->
                Forall (fun e => ev_timestamp e - ev_timestamp first <= win) evs;
}.

(** What the state of one rule and subject records. *)
Definition in_progress (r : Rule) (subject : string) hist (s : SequenceState) : Prop :=
  exists steps win evs,
    sequence r = Some steps /\ window r = Some win /\ trace steps win subject hist evs
    /\ List.length evs = next_step s /\ (0 < next_step s < List.length steps)%nat
    /\ event_ids s = map event_id evs
    /\ (exists first, head evs = Some first /\ started_at s = ev_timestamp first)
    /\ Forall (fun e => ev_timestamp e <= last_ts s) evs.

Definition rule_inv hist (m : seq_map) (r : Rule) : Prop :=
  forall subject s, m !! (rule_id r, subject) = Some s -> in_progress r subject hist s.

(** The evidence of a completed sequence. *)
Definition completed (r : Rule) hist (a : Alert) : Prop :=
  exists steps win subject evs,
    sequence r = Some steps /\ window r = Some win /\ trace steps win subject hist evs
    /\ List.length evs = List.length steps
    /\ alert_rule_id a = rule_id r /\ alert_evidence a = map event_id evs
    /\ alert_reasons a = map c_reason steps.

Lemma take_S_lookup {A} (l : list A) n x : l !! n = Some x -> take (S n) l = take n l ++ [x].
Proof. apply take_S_r. Qed.

Lemma trace_nil steps win subject hist : trace steps win subject hist [].
Proof. constructor; simpl; try constructor; try done. apply sublist_nil_l. Qed.

Lemma trace_snoc steps win subject hist evs e j c :
  trace steps win subject hist evs -> steps !! List.length evs = Some c ->
  to_value e = Some j -> cond_matches j c = true -> derive_subject_key e = Some subject ->
  Forall (fun x => ev_timestamp x <= ev_timestamp e) evs ->
  (forall first, head (evs ++ [e]) = Some first -> ev_timestamp e - ev_timestamp first <= win) ->
  trace steps win subject (hist ++ [e]) (evs ++ [e]).
Proof.
  intros [Hs Hm Hk Ho Hw] Hc Hj Hcm Hd Hts Hwin. constructor.
  - by apply sublist_app.
  - rewrite length_app. simpl. rewrite Nat.add_1_r, (take_S_lookup _ _ _ Hc).
    apply Forall2_app; [done|]. constructor; [eauto|constructor].
  - apply Forall_app. auto.
  - by apply StronglySorted_snoc.
  - intros first Hf. apply Forall_app. split; [|constructor; [auto|constructor]].
    destruct evs as [|x evs]; [constructor|]. apply Hw. exact Hf.
Qed.

Lemma trace_mono steps win subject hist e evs :
  trace steps win subject hist evs -> trace steps win subject (hist ++ [e]) evs.
Proof.
  intros [Hs Hm Hk Ho Hw]. constructor; try done. by apply sublist_inserts_r.
Qed.

Lemma in_progress_mono r subject hist e s :
  in_progress r subject hist s -> in_progress r subject (hist ++ [e]) s.
Proof.
  intros (steps & win & evs & ? & ? & Ht & Hrest). exists steps, win, evs.
  split_and!; [done|done|by apply trace_mono|apply Hrest..].
Qed.

Lemma rule_inv_mono hist m r e : rule_inv hist m r -> rule_inv (hist ++ [e]) m r.
Proof. intros Hi subject s Hs. by apply in_progress_mono, Hi. Qed.

Lemma rule_inv_frame hist m m' r :
  rule_inv hist m r -> (forall k, k.1 = rule_id r -> m' !! k = m !! k) -> rule_inv hist m' r.
Proof. intros Hi Hf subject s Hs. rewrite Hf in Hs by done. by apply Hi. Qed.

(** The state an event continues: the recorded one, or a fresh start. *)
Definition entry_at (m : seq_map) (key : string * string) e : SequenceState :=
  match m !! key with
  | Some s => s
  | None => {| next_step := 0; started_at := ev_timestamp e; last_ts := ev_timestamp e;
               event_ids := [] |}
  end.

Definition not_stale (m : seq_map) (key : string * string) e (win : Z) : Prop :=
  forall s, m !! key = Some s -> sat_sub (ev_timestamp e) (started_at s) <= win.

Lemma entry_trace m r subject e hist steps win :
  rule_inv hist m r -> sequence r = Some steps -> window r = Some win ->
  (2 <= List.length steps)%nat ->
  exists evs, trace steps win subject hist evs
    /\ List.length evs = next_step (entry_at m (rule_id r, subject) e)
    /\ (List.length evs < List.length steps)%nat
    /\ event_ids (entry_at m (rule_id r, subject) e) = map event_id evs
    /\ (forall first, head (evs ++ [e]) = Some first ->
          started_at (entry_at m (rule_id r, subject) e) = ev_timestamp first)
    /\ Forall (fun x => ev_timestamp x <= last_ts (entry_at m (rule_id r, subject) e)) evs.
Proof.
  intros Hi Hs Hw Hl. unfold entry_at. destruct (m !! (rule_id r, subject)) as [s|] eqn:Em.
  - destruct (Hi _ _ Em) as (steps' & win' & evs & Hs' & Hw' & Ht & Hlen & Hb & Hid & (f & Hf & Hst) & Hts).
    rewrite Hs in Hs'. injection Hs' as <-. rewrite Hw in Hw'. injection Hw' as <-.
    exists evs. split_and!; [done|done|lia|done| |done].
    intros first Hh. destruct evs as [|x evs]; [done|]. simpl in Hh, Hf. congruence.
  - exists []. simpl. split_and!; [apply trace_nil|done|lia|done|congruence|constructor].
Qed.

(** Dropping stale state. *)
Lemma drop_stale_inv hist m r subject e win :
  rule_inv hist m r ->
  let m1 := drop_stale e win (rule_id r, subject) m in
  rule_inv hist m1 r /\ (forall k, k.1 <> rule_id r -> m1 !! k = m !! k)
  /\ not_stale m1 (rule_id r, subject) e win.
Proof.
  intros Hi m1. unfold m1, not_stale, drop_stale. destruct (m !! (rule_id r, subject)) as [s|] eqn:Em.
  - destruct (Z.ltb_spec win (sat_sub (ev_timestamp e) (started_at s))); cbv beta iota; split_and!.
    + intros subj s' Hs'. apply lookup_delete_Some in Hs' as [_ Hs']. by apply Hi.
    + intros k Hk. apply lookup_delete_ne. intros <-. done.
    + intros s1 [Hne _]%lookup_delete_Some. done.
    + done.
    + done.
    + intros s' [= <-]%(eq_trans (eq_sym Em)). done.
  - split_and!; [done|done|]. intros s' Hs'. congruence.
Qed.

Lemma rule_inv_insert hist m r subject st :
  rule_inv hist m r -> in_progress r subject hist st ->
  rule_inv hist (<[(rule_id r, subject) := st]> m) r.
Proof.
  intros Hi Hp subj s [[[= <-] <-]|[_ Hs]]%lookup_insert_Some; [done|by apply Hi].
Qed.

Lemma rule_inv_delete hist m r key : rule_inv hist m r -> rule_inv hist (delete key m) r.
Proof. intros Hi subj s [_ Hs]%lookup_delete_Some. by apply Hi. Qed.

Lemma alert_for_some r e reasons ev a :
  alert_for new_id r e reasons ev = Some a ->
  alert_rule_id a = rule_id r /\ alert_reasons a = reasons /\ alert_evidence a = ev.
Proof.
  unfold alert_for. destruct (alert_new _ _ _ _ _ _ _ _ _) eqn:E; [|done..].
  intros [= <-]. apply alert_new_ok in E. naive_solver.
Qed.

(** The state after a step that was accepted. *)
Lemma advance_progress hist m r subject e j c steps win :
  rule_inv hist m r -> sequence r = Some steps -> window r = Some win ->
  (2 <= List.length steps)%nat -> to_value e = Some j -> derive_subject_key e = Some subject ->
  not_stale m (rule_id r, subject) e win -> 0 <= win ->
  let ent := entry_at m (rule_id r, subject) e in
  steps !! next_step ent = Some c -> cond_matches j c = true ->
  last_ts ent <= ev_timestamp e ->
  exists evs, trace steps win subject (hist ++ [e]) evs
    /\ List.length evs = (next_step ent + 1)%nat
    /\ event_ids ent ++ [event_id e] = map event_id evs
    /\ (exists first, head evs = Some first /\ started_at ent = ev_timestamp first)
    /\ Forall (fun x => ev_timestamp x <= ev_timestamp e) evs.
Proof.
  intros Hi Hs Hw Hl Hj Hd Hns Hwin ent Hc Hcm Hle.
  destruct (entry_trace m r subject e hist steps win Hi Hs Hw Hl)
    as (evs & Ht & Hlen & Hlt & Hid & Hst & Hts). fold ent in Hlen, Hid, Hst, Hts.
  assert (Forall (fun x => ev_timestamp x <= ev_timestamp e) evs) as Hts'.
  { eapply Forall_impl; [exact Hts|]. simpl. lia. }
  exists (evs ++ [e]). split_and!.
  - apply (trace_snoc _ _ _ _ _ e j c); try done; [by rewrite Hlen|].
    intros first Hf. rewrite <- (Hst _ Hf). unfold ent, entry_at.
    destruct (m !! _) as [s|] eqn:Em; simpl.
    + specialize (Hns _ Em). unfold sat_sub in Hns. lia.
    + destruct evs; [|unfold ent, entry_at in Hlen; rewrite Em in Hlen; done].
      lia.
  - rewrite length_app, Hlen. done.
  - by rewrite map_app, Hid.
  - destruct (head (evs ++ [e])) as [first|] eqn:Eh; [eauto|by destruct evs].
  - apply Forall_app. split; [done|]. constructor; [lia|constructor].
Qed.

(** One rule, one event: no panic, the state invariant is kept, only the
    rule's own state changes, and an alert is the completion of a trace. *)
Lemma step_sequence_spec hist m r subject e j :
  rule_ok r = true -> rule_typed r = true -> is_sequence r = true ->
  to_value e = Some j -> derive_subject_key e = Some subject -> rule_inv hist m r ->
  exists a m', step_sequence new_id e j subject m r = Ok (a, m')
    /\ rule_inv (hist ++ [e]) m' r
    /\ (forall k, k.1 <> rule_id r -> m' !! k = m !! k)
    /\ (forall al, a = Some al -> completed r (hist ++ [e]) al).
Proof.
  intros Hok Hty Hseq Hj Hd Hi. unfold is_sequence in Hseq.
  destruct (sequence r) as [steps|] eqn:Hs; [|done].
  destruct (rule_ok_sequence r steps Hok Hs) as (win & Hw & Hl & _).
  unfold rule_typed in Hty. rewrite Hw in Hty. apply fits_iff in Hty as [Hwin _].
  unfold step_sequence. rewrite Hs, Hw. cbn [or_panic obind].
  destruct (drop_stale_inv hist m r subject e win Hi) as (Hi1 & Hf1 & Hns).
  set (m1 := drop_stale e win (rule_id r, subject) m) in *. clearbody m1.
  destruct (entry_trace m1 r subject e hist steps win Hi1 Hs Hw Hl)
    as (evs & _ & Hlen & Hlt & _).
  assert (match m1 !! (rule_id r, subject) with Some s => next_step s | None => 0%nat end
          = next_step (entry_at m1 (rule_id r, subject) e)) as Hidx.
  { unfold entry_at. by destruct (m1 !! _). }
  rewrite Hidx. fold (entry_at m1 (rule_id r, subject) e).
  set (ent := entry_at m1 (rule_id r, subject) e) in *.
  destruct (lookup_lt_is_Some_2 steps (next_step ent)) as [c Hc]; [lia|].
  rewrite Hc. cbn [or_panic obind].
  assert (rule_inv (hist ++ [e]) m1 r) as Hm1 by by apply rule_inv_mono.
  destruct (cond_matches j c) eqn:Hcm; cbn [negb]; [|by do 2 eexists; split_and!].
  assert ((0 <? next_step ent)%nat && negb (match m1 !! (rule_id r, subject) with
            | Some s => last_ts s <=? ev_timestamp e | None => true end) = false
          -> last_ts ent <= ev_timestamp e) as Hord.
  { unfold ent, entry_at. destruct (m1 !! _) as [s|] eqn:Em; [|simpl; lia].
    destruct (Hi1 _ _ Em) as (? & ? & ? & _ & _ & _ & _ & Hb & _).
    destruct (Nat.ltb_spec 0 (next_step s)); [|lia]. simpl. lia. }
  destruct ((0 <? next_step ent)%nat && _) eqn:Eo; [by do 2 eexists; split_and!|].
  destruct (advance_progress hist m1 r subject e j c steps win Hi1 Hs Hw Hl Hj Hd Hns Hwin Hc Hcm (Hord eq_refl))
    as (evs' & Ht & Hlen' & Hid & Hhd & Hts). fold ent in Hlen', Hid, Hhd.
  cbn [next_step event_ids].
  destruct (Nat.eqb_spec (next_step ent + 1) (List.length steps)) as [Hend|Hmore].
  - do 2 eexists. split_and!; [done|by apply rule_inv_delete| |].
    + intros k Hk. rewrite lookup_delete_ne; [by apply Hf1|]. intros <-. done.
    + intros al (E1 & E2 & E3)%alert_for_some. exists steps, win, subject, evs'.
      split_and!; try done; [lia|congruence].
  - do 2 eexists. split_and!; [done| | |done].
    + apply rule_inv_insert; [done|]. exists steps, win, evs'. cbn. split_and!; try done; lia.
    + intros k Hk. rewrite lookup_insert_ne; [by apply Hf1|]. intros <-. done.
Qed.

Definition seq_rules_ok (rs : list Rule) : Prop :=
  Forall (fun r => rule_ok r = true /\ rule_typed r = true /\ is_sequence r = true) rs
  /\ NoDup (map rule_id rs).

Lemma sequence_loop_spec hist e j subject rs :
  forall m, seq_rules_ok rs -> to_value e = Some j -> derive_subject_key e = Some subject ->
  Forall (rule_inv hist m) rs ->
  exists als m', sequence_loop new_id e j subject m rs = Ok (als, m')
    /\ Forall (rule_inv (hist ++ [e]) m') rs
    /\ (forall k, k.1 ∉ map rule_id rs -> m' !! k = m !! k)
    /\ Forall (fun a => Exists (fun r => completed r (hist ++ [e]) a) rs) als.
Proof.
  induction rs as [|r rs IH]; intros m [Hok Hnd] Hj Hd Hi; simpl.
  { exists [], m. split_and!; [done|constructor|done|constructor]. }
  apply Forall_cons in Hok as [(Hr & Hty & Hs) Hok]. apply NoDup_cons in Hnd as [Hn Hnd].
  apply Forall_cons in Hi as [Hi His].
  destruct (step_sequence_spec hist m r subject e j Hr Hty Hs Hj Hd Hi) as (a & m1 & -> & Hi1 & Hf1 & Ha).
  cbn [obind].
  destruct (IH m1) as (als & m2 & -> & His2 & Hf2 & Hals); [done|done|done| |].
  { rewrite Forall_forall in His |- *. intros r' Hr'. apply (rule_inv_frame _ m); [by apply His|].
    intros k Hk. apply Hf1. rewrite Hk. intros E. apply Hn. rewrite <- E. by apply list_elem_of_fmap_2. }
  cbn [obind]. do 2 eexists. split_and!; [done| | |].
  - constructor; [|done]. apply (rule_inv_frame _ m1); [done|].
    intros k Hk. apply Hf2. by rewrite Hk.
  - intros k Hk. apply not_elem_of_cons in Hk as [Hk1 Hk2]. rewrite Hf2, Hf1 by done. done.
  - apply Forall_app. split.
    + destruct a as [al|]; simpl; [|constructor]. constructor; [|constructor]. left. by apply Ha.
    + eapply Forall_impl; [exact Hals|]. intros x. by right.
Qed.

(** An alert of a rule without a sequence: its conditions hold of the event. *)
Definition matched (r : Rule) hist (a : Alert) : Prop :=
  exists e j, e ∈ hist /\ to_value e = Some j
    /\ match conditions r with
       | Some node => holds node j = true /\ eval_node node j = Some (alert_reasons a)
       | None => Forall (fun c => cond_matches j c = true) (match_conditions r)
                 /\ alert_reasons a = map c_reason (match_conditions r)
       end
    /\ alert_rule_id a = rule_id r /\ alert_evidence a = [event_id e].

Lemma collect_matches j cs reasons :
  collect_all (fun c => match field_value j (c_field c) with
                        | Some actual => if matches (c_op c) actual (c_value c)
                                         then Some [c_reason c] else None
                        | None => None
                        end) cs = Some reasons <->
  Forall (fun c => cond_matches j c = true) cs /\ reasons = map c_reason cs.
Proof.
  revert reasons. induction cs as [|c cs IH]; intros reasons; simpl; [naive_solver|].
  rewrite Forall_cons. unfold cond_matches at 1.
  destruct (field_value j (c_field c)) as [v|]; [|naive_solver].
  destruct (matches _ _ _); [|naive_solver].
  destruct (collect_all _ cs) as [rs|].
  - specialize (IH rs). naive_solver.
  - split; [done|]. intros ((_ & Hf) & ->). discriminate (proj2 (IH _) (conj Hf eq_refl)).
Qed.

Lemma evaluate_rule_some r e j a hist :
  to_value e = Some j -> evaluate_rule new_id r e j = Some a -> matched r (hist ++ [e]) a.
Proof.
  intros Hj. unfold evaluate_rule. destruct (conditions r) as [node|] eqn:Hc.
  - destruct (eval_node node j) as [rs|] eqn:En; [|done].
    intros (E1 & E2 & E3)%alert_for_some. exists e, j. rewrite Hc.
    pose proof (eval_node_holds node j) as Hh. rewrite En in Hh.
    split_and!; [set_solver|done|done|congruence|done|done].
  - destruct (collect_all _ _) as [rs|] eqn:En; [|done]. apply collect_matches in En as [Hf ->].
    intros (E1 & E2 & E3)%alert_for_some. exists e, j. rewrite Hc.
    split_and!; [set_solver|done|done|done|done|done].
Qed.

(** What an alert of the engine stands for. *)
Definition justified (rs : list Rule) hist (a : Alert) : Prop :=
  exists r, r ∈ rs /\ (if is_sequence r then completed r hist a else matched r hist a).

Definition engine_inv hist (eng : DetectionEngine) : Prop :=
  Forall (rule_inv hist (sequence_state eng)) (List.filter is_sequence (rules eng)).

Definition rules_ok (rs : list Rule) : Prop :=
  Forall (fun r => rule_ok r = true /\ rule_typed r = true) rs
  /\ NoDup (map rule_id (List.filter is_sequence rs)).

Lemma rules_ok_seq rs : rules_ok rs -> seq_rules_ok (List.filter is_sequence rs).
Proof.
  intros [Hf Hn]. split; [|done]. apply Forall_forall. intros r Hr.
  apply list_elem_of_In, filter_In in Hr as [Hr Hs]. rewrite Forall_forall in Hf.
  destruct (Hf r); [by apply list_elem_of_In|]. done.
Qed.

Lemma evaluate_spec hist eng e :
  rules_ok (rules eng) -> engine_inv hist eng ->
  exists als eng', evaluate to_value new_id eng e = Ok (als, eng')
    /\ rules eng' = rules eng /\ engine_inv (hist ++ [e]) eng'
    /\ Forall (justified (rules eng) (hist ++ [e])) als.
Proof.
  intros Hok Hi.
  assert (engine_inv (hist ++ [e]) eng) as Hi'.
  { eapply Forall_impl; [exact Hi|]. intros r. apply rule_inv_mono. }
  unfold evaluate. destruct (rules eng) as [|r0 rs0] eqn:Er.
  { do 2 eexists. split_and!; [done|done|done|constructor]. }
  rewrite <- Er in *. clear Er r0 rs0.
  destruct (to_value e) as [j|] eqn:Hj; [|do 2 eexists; split_and!; [done|done|done|constructor]].
  set (plain := omap _ _).
  assert (Forall (justified (rules eng) (hist ++ [e])) plain) as Hplain.
  { apply Forall_forall. intros a (r & Hr & Ha)%list_elem_of_omap.
    apply list_elem_of_In, filter_In in Hr as [Hr Hs]. exists r. split; [by apply list_elem_of_In|].
    apply negb_true_iff in Hs. rewrite Hs. by apply (evaluate_rule_some r e j). }
  unfold evaluate_sequence_rules.
  destruct (List.filter is_sequence (rules eng)) as [|r1 rs1] eqn:Ef.
  { cbn [obind]. do 2 eexists. split_and!; [done|done| |by rewrite app_nil_r].
    unfold engine_inv. simpl. rewrite Ef. constructor. }
  rewrite <- Ef. destruct (derive_subject_key e) as [subject|] eqn:Hd; cbn [obind].
  - destruct (sequence_loop_spec hist e j subject (List.filter is_sequence (rules eng))
      (sequence_state eng)) as (als & m' & -> & Him & _ & Hals); [by apply rules_ok_seq|done|done|exact Hi|].
    cbn [obind]. do 2 eexists. split_and!; [done|done|done|]. apply Forall_app. split; [done|].
    eapply Forall_impl; [exact Hals|]. intros a (r & Hr & Hc)%Exists_exists.
    apply list_elem_of_In, filter_In in Hr as [Hr Hs]. exists r. rewrite Hs.
    split; [by apply list_elem_of_In|done].
  - do 2 eexists. split_and!; [done|done|done|]. by rewrite app_nil_r.
Qed.

Lemma justified_mono rs hist more a : justified rs hist a -> justified rs (hist ++ more) a.
Proof.
  intros (r & Hr & Hj). exists r. split; [done|]. destruct (is_sequence r).
  - destruct Hj as (steps & win & subj & evs & ? & ? & [Hs Hm Hk Ho Hw] & Hrest).
    exists steps, win, subj, evs. split_and!; [done|done| |apply Hrest..].
    constructor; try done. by apply sublist_inserts_r.
  - destruct Hj as (e & j & He & Hrest). exists e, j. split; [set_solver|done].
Qed.

Lemma evaluate_batch_spec es : forall hist eng,
  rules_ok (rules eng) -> engine_inv hist eng ->
  exists als eng', evaluate_batch to_value new_id eng es = Ok (als, eng')
    /\ rules eng' = rules eng /\ engine_inv (hist ++ es) eng'
    /\ Forall (justified (rules eng) (hist ++ es)) als.
Proof.
  induction es as [|e es IH]; intros hist eng Hok Hi; simpl.
  { rewrite app_nil_r. exists [], eng. split_and!; [done|done|done|constructor]. }
  destruct (evaluate_spec hist eng e Hok Hi) as (a & eng1 & -> & Hr1 & Hi1 & Ha). cbn [obind].
  destruct (IH (hist ++ [e]) eng1) as (als & eng2 & -> & Hr2 & Hi2 & Hals); [by rewrite Hr1|done|].
  cbn [obind]. rewrite <- app_assoc in *. do 2 eexists. split_and!; [done|congruence|done|].
  rewrite Hr1 in Hals. apply Forall_app. split; [|done].
  eapply Forall_impl; [exact Ha|]. intros x Hx. by apply (justified_mono _ _ es) in Hx; rewrite <- app_assoc in Hx.
Qed.
End Sequences.

End Detect.

(** ** Examples: one field, ["k"], holding the event's provider text *)

Definition example_to_value (e : @CanonicalEvent tjson_lib) : option tjson :=
  Some (TObj [("k", TStr (@provider tjson_lib e))]).

Definition example_cond (v : string) : @Condition tjson_lib :=
  @Build_Condition tjson_lib "k" OpEq (TStr v) ("saw " +:+ v).

Definition example_sequence (id : string) (steps : list string) : @RuleFile tjson_lib :=
  @Build_RuleFile tjson_lib id 1 High [] None (Some 100) (Some (map example_cond steps)).

Definition example_not : @RuleFile tjson_lib :=
  @Build_RuleFile tjson_lib "n" 1 High [] (Some (CNot (Match (example_cond "a")))) None None.

(** Three rule files: two sequences with the same id, and a [not] rule. *)
Definition example_yaml (text : string) : option (@RuleFile tjson_lib) :=
  if (text =? "three")%string then Some (example_sequence "s" ["a"; "b"; "c"])
  else if (text =? "two")%string then Some (example_sequence "s" ["a"; "b"])
  else if (text =? "not")%string then Some example_not
  else None.

Definition example_event (id ts : Z) (text : string) : @CanonicalEvent tjson_lib :=
  @sample_event tjson_lib id ts ProcessExec (Some (sample_process 5)) text TNull.

Definition example_new_id (_ : @Rule tjson_lib) (_ : @CanonicalEvent tjson_lib) : Uuid := 99.

Definition load (files : list (string * option string)) :=
  @load_from_dir tjson_lib example_yaml concrete_sha256 concrete_hex "rules" (Some files).

Definition loaded_rules (files : list (string * option string)) : list (@Rule tjson_lib) :=
  match load files with Ok rs => rs | _ => [] end.

Lemma example_rules_ok (rs : list (@Rule tjson_lib)) :
  forallb (fun r => rule_ok r && rule_typed r) rs = true ->
  bool_decide (NoDup (map rule_id (List.filter is_sequence rs))) = true -> rules_ok rs.
Proof.
  intros Hf Hn%bool_decide_eq_true. split; [|done].
  apply forallb_Forall in Hf. eapply Forall_impl; [exact Hf|]. intros r. apply andb_true_iff.
Qed.

Lemma loaded_rules_ok files : is_ok (load files) = true -> load files = Ok (loaded_rules files).
Proof. unfold loaded_rules. by destruct (load files). Qed.

(** ** Properties *)

(** Condition trees mean what they say: [eval_node] matches exactly when
    the boolean reading of the tree holds, and every reason it reports is the
    reason of a leaf that is not below a [not] and that the event matches. *)
Lemma eval_node_correct `{JsonLib} n j :
  match eval_node n j with
  | Some rs => holds n j = true
      /\ Forall (fun r => exists c, c ∈ positive_leaves n /\ cond_matches j c = true
                                    /\ c_reason c = r) rs
  | None => holds n j = false
  end.
Proof.
  pose proof (eval_node_holds n j) as Hh. destruct (eval_node n j) eqn:E; [|done].
  split; [done|]. by apply eval_node_reasons.
Qed.

Lemma eval_node_correct_witness :
  @holds tjson_lib (All [Match (example_cond "a"); CNot (Match (example_cond "b"))])
    (TObj [("k", TStr "a")]) = true.
Proof.
  pose proof (@eval_node_correct tjson_lib
    (All [Match (example_cond "a"); CNot (Match (example_cond "b"))]) (TObj [("k", TStr "a")])) as He.
  assert (@eval_node tjson_lib (All [Match (example_cond "a"); CNot (Match (example_cond "b"))])
    (TObj [("k", TStr "a")]) = Some ["saw a"]) as E by (vm_compute; reflexivity).
  rewrite E in He. apply He.
Defined.

(** A rule the loader accepts has a non-blank id, exactly one condition
    form, an explanation for every condition, and, if it is a sequence, a
    window and at least two steps; its content hash is that of its text. *)
Lemma loaded_rule_valid `{JsonLib} yaml_parse `{Sha256} `{HexCodec} yaml origin r :
  from_yaml_str yaml_parse yaml origin = Ok r ->
  rule_ok r = true /\ content_hash r = hex_encode (sha256 (bytes_of yaml)).
Proof.
  intros Hl. split; [by eapply from_yaml_str_ok|]. revert Hl. unfold from_yaml_str.
  intros (p & _ & E)%obind_ok. destruct (is_blank _); [done|].
  by apply obind_ok in E as ([] & _ & ([] & _ & [= <-])%obind_ok).
Qed.

Lemma loaded_rule_valid_witness :
  match @from_yaml_str tjson_lib example_yaml concrete_sha256 concrete_hex "three" "f" with
  | Ok r => rule_ok r = true
  | _ => False
  end.
Proof.
  assert (is_ok (@from_yaml_str tjson_lib example_yaml concrete_sha256 concrete_hex "three" "f") = true)
    as Hok by (vm_compute; reflexivity).
  destruct (@from_yaml_str tjson_lib example_yaml concrete_sha256 concrete_hex "three" "f")
    as [r|e|] eqn:E; [|discriminate Hok..].
  exact (proj1 (@loaded_rule_valid tjson_lib example_yaml concrete_sha256 concrete_hex "three" "f" r E)).
Defined.

(** The loaded rule list, and so the order of alerts, does not depend on
    the order in which the directory lists its files. *)
Lemma load_order_independent `{JsonLib} yaml_parse `{Sha256} `{HexCodec} dir es es' :
  NoDup (map fst es) -> es ≡ₚ es' ->
  load_from_dir yaml_parse dir (Some es) = load_from_dir yaml_parse dir (Some es').
Proof.
  intros Hn Hp. unfold load_from_dir. cbn [ok_or obind]. f_equal.
  apply sort_by_unique.
  - intros x y z. unfold file_leb. apply str_leb_trans.
  - intros x y. apply str_leb_total.
  - intros [n t] [n' t'] Hx Hy L1 L2. pose proof (str_leb_antisym _ _ L1 L2) as E. simpl in E. subst n'.
    apply list_elem_of_In, filter_In in Hx as [Hx _], Hy as [Hy _].
    apply list_elem_of_In, list_elem_of_lookup in Hx as [i Hi], Hy as [k Hk].
    assert (i = k) as ->; [|congruence].
    eapply (NoDup_lookup _ _ _ n Hn); rewrite list_lookup_fmap; [by rewrite Hi|by rewrite Hk].
  - by rewrite Hp.
Qed.

Lemma load_order_independent_witness :
  load [("b.yaml", Some "three"); ("a.yml", Some "not")]
  = load [("a.yml", Some "not"); ("b.yaml", Some "three")].
Proof.
  apply (@load_order_independent tjson_lib example_yaml concrete_sha256 concrete_hex).
  - simpl. apply NoDup_cons. split; [set_solver|]. apply NoDup_singleton.
  - apply perm_swap.
Defined.

(** C27. Soundness of the engine: with accepted rules whose sequence ids are
    distinct, evaluating any stream of events never panics, and every alert is
    backed by it: a plain rule's conditions hold of the event it cites; a
    sequence rule's evidence is one event per step, in arrival order, of one
    subject, each matching its step, in time-stamp order and within the rule's
    window of the first. *)
Theorem engine_alerts_justified `{JsonLib} `{HexCodec} to_value new_id rs events :
  rules_ok rs ->
  exists als eng, evaluate_batch to_value new_id (engine_new rs) events = Ok (als, eng)
    /\ Forall (justified to_value rs events) als.
Proof.
  intros Hok.
  destruct (evaluate_batch_spec to_value new_id events [] (engine_new rs)) as (als & eng & E & _ & _ & Ha).
  - done.
  - apply Forall_forall. intros r _ subject s Hs. cbn in Hs. by rewrite lookup_empty in Hs.
  - eauto.
Qed.

Lemma engine_alerts_justified_witness :
  exists als eng,
    @evaluate_batch tjson_lib concrete_hex example_to_value example_new_id
      (engine_new (loaded_rules [("a.yaml", Some "three")]))
      [example_event 1 10 "a"; example_event 2 20 "x"; example_event 3 30 "b"; example_event 4 40 "c"]
    = Ok (als, eng)
    /\ map alert_evidence als = [[1; 3; 4]].
Proof.
  destruct (@engine_alerts_justified tjson_lib concrete_hex example_to_value example_new_id
    (loaded_rules [("a.yaml", Some "three")])
    [example_event 1 10 "a"; example_event 2 20 "x"; example_event 3 30 "b"; example_event 4 40 "c"])
    as (als & eng & E & _).
  - apply example_rules_ok; vm_compute; reflexivity.
  - exists als, eng. split; [exact E|]. apply (f_equal (fun o => match o with
      Ok (a, _) => map alert_evidence a | _ => [] end)) in E. rewrite <- E. vm_compute. reflexivity.
Defined.

(** A rule whose condition tree has no leaf outside a [not] — such as a
    rule with a [not] at its root, which the loader accepts — never produces an
    alert, whether or not the event satisfies it: the match has no reasons, and
    an alert without reasons is dropped. *)
Lemma not_rooted_rule_never_alerts `{JsonLib} new_id r node e j :
  conditions r = Some node -> positive_leaves node = [] ->
  evaluate_rule new_id r e j = None.
Proof.
  intros Hc Hp. unfold evaluate_rule. rewrite Hc. destruct (eval_node node j) as [rs|] eqn:E; [|done].
  apply eval_node_reasons in E. rewrite Hp in E. destruct rs as [|x rs].
  - unfold alert_for, alert_new, alert_validate. by destruct (is_blank (rule_id r)).
  - apply Forall_cons in E as [(c & Hin & _) _]. by apply not_elem_of_nil in Hin.
Qed.

Definition example_not_rule : @Rule tjson_lib :=
  default (@Build_Rule tjson_lib "" 0 High [] None "" None None)
    (head (loaded_rules [("n.yaml", Some "not")])).

Lemma not_rooted_rule_never_alerts_witness :
  rule_ok example_not_rule = true
  /\ holds (CNot (Match (example_cond "a"))) (TObj [("k", TStr "b")]) = true
  /\ @evaluate_rule tjson_lib example_new_id example_not_rule (example_event 1 10 "b")
       (TObj [("k", TStr "b")]) = None.
Proof.
  split; [vm_compute; reflexivity|]. split; [vm_compute; reflexivity|].
  apply (@not_rooted_rule_never_alerts tjson_lib example_new_id example_not_rule
           (CNot (Match (example_cond "a")))); reflexivity.
Defined.

(** The loader accepts two sequence rules with the same id; they share
    their progress, and an event stream that advances the longer one makes the
    engine index the shorter one out of range. *)
Lemma duplicate_rule_ids_panic :
  exists rs, load [("a.yaml", Some "three"); ("b.yaml", Some "two")] = Ok rs
    /\ Forall (fun r => rule_ok r = true) rs
    /\ @evaluate_batch tjson_lib concrete_hex example_to_value example_new_id (engine_new rs)
         [example_event 1 10 "a"; example_event 2 20 "b"] = Panic.
Proof.
  exists (loaded_rules [("a.yaml", Some "three"); ("b.yaml", Some "two")]).
  split; [apply loaded_rules_ok; vm_compute; reflexivity|]. split.
  - apply forallb_Forall. vm_compute. reflexivity.
  - apply is_panic_iff. vm_compute. reflexivity.
Qed.
