(* ===== verification/Correlate.v ===== *)
(** * Correlation: the bounded graph walk of [crates/osiris-correlate/src/lib.rs] *)

From S2P Require Import Prelude BTree Concrete Json Schema.

(** [if seen.insert(x) { out.push(x) }]: keep the first occurrences. *)
Fixpoint dedup (seen : gset Z) (l : list Z) : list Z :=
  match l with
  | [] => []
  | x :: l => if decide (x ∈ seen) then dedup seen l else x :: dedup ({[x]} ∪ seen) l
  end.

Lemma dedup_spec seen l :
  NoDup (dedup seen l) /\ (forall x, x ∈ dedup seen l <-> x ∈ l /\ x ∉ seen).
Proof.
  revert seen. induction l as [|y l IH]; intros seen; simpl.
  - split; [constructor|]. set_solver.
  - case_decide as Hy.
    + destruct (IH seen) as [Hn Hx]. split; [done|]. intros x. rewrite Hx, elem_of_cons. naive_solver.
    + destruct (IH ({[y]} ∪ seen)) as [Hn Hx]. split.
      * constructor; [|done]. rewrite Hx, elem_of_union, elem_of_singleton. tauto.
      * intros x. rewrite !elem_of_cons, Hx, not_elem_of_union, not_elem_of_singleton.
        destruct (decide (x = y)); naive_solver.
Qed.

(** [trait EdgeSource]. *)
Class EdgeSource := { edges_for : EntityRef -> Z -> Z -> list EntityRelationship }.

(** What the walk relies on: the edges it gets touch the entity, and the source identifies
    entities by their storage key. *)
Class EdgeSourceOk `{HexCodec} `{UuidText} (src : EdgeSource) : Prop := {
  edges_touch x since until e : e ∈ edges_for x since until ->
    storage_key (er_from e) = storage_key x \/ storage_key (er_to e) = storage_key x;
  edges_by_key x y since until :
    storage_key x = storage_key y -> edges_for x since until = edges_for y since until;
}.

Record BehavioralChain := {
  seed : EntityRef; chain_edges : list EntityRelationship; chain_event_ids : list Uuid }.

Record CorrelationEngine := { max_depth : nat; window_ns : Z }.

Section Correlate.
Context `{HexCodec} `{UuidText}.

Definition has_relation_touching (c : BehavioralChain) (entity : EntityRef) (r : Relation) : bool :=
  existsb (fun e => bool_decide (er_relation e = r)
    && (String.eqb (storage_key (er_from e)) (storage_key entity)
        || String.eqb (storage_key (er_to e)) (storage_key entity))) (chain_edges c).

Definition edge_key (e : EntityRelationship) : string * string * Z :=
  (storage_key (er_from e), storage_key (er_to e), er_event_id e).

Definition other_end (entity : EntityRef) (e : EntityRelationship) : EntityRef :=
  if String.eqb (storage_key (er_from e)) (storage_key entity) then er_to e else er_from e.

(** The walk's mutable variables. *)
Record walk := {
  visited_entities : gset string;
  visited_edges : gset (string * string * Z);
  next_frontier : list EntityRef;
  all_edges : list EntityRelationship;
}.

(** The body of the innermost loop. *)
Definition visit (entity : EntityRef) (w : walk) (edge : EntityRelationship) : walk :=
  if decide (edge_key edge ∈ visited_edges w) then w
  else
    let other := other_end entity edge in
    let fresh := bool_decide (storage_key other ∉ visited_entities w) in
    {| visited_entities := {[storage_key other]} ∪ visited_entities w;
       visited_edges := {[edge_key edge]} ∪ visited_edges w;
       next_frontier := if fresh then next_frontier w ++ [other] else next_frontier w;
       all_edges := all_edges w ++ [edge] |}.

Context {src : EdgeSource}.

Definition visit_entity (since until : Z) (w : walk) (entity : EntityRef) : walk :=
  fold_left (visit entity) (edges_for entity since until) w.

Definition round (since until : Z) (frontier : list EntityRef) (w : walk) : walk :=
  fold_left (visit_entity since until) frontier
    {| visited_entities := visited_entities w; visited_edges := visited_edges w;
       next_frontier := []; all_edges := all_edges w |}.

Fixpoint rounds (depth : nat) (since until : Z) (frontier : list EntityRef) (w : walk) : walk :=
  match depth with
  | O => w
  | S depth =>
      match frontier with
      | [] => w
      | _ => let w := round since until frontier w in
             rounds depth since until (next_frontier w) w
      end
  end.

Definition edge_leb (a b : EntityRelationship) : bool := er_timestamp a <=? er_timestamp b.

Definition build_chain (eng : CorrelationEngine) (s : EntityRef) (seed_time_ns : Z)
  : BehavioralChain :=
  let since := sat_sub seed_time_ns (window_ns eng) in
  let until := sat_add64 seed_time_ns (window_ns eng) in
  let w0 := {| visited_entities := {[storage_key s]}; visited_edges := ∅; next_frontier := [s];
               all_edges := [] |} in
  let w := rounds (max_depth eng) since until [s] w0 in
  let edges := sort_by edge_leb (all_edges w) in
  {| seed := s; chain_edges := edges; chain_event_ids := dedup ∅ (map er_event_id edges) |}.

(** ** Reachability *)

Section Reach.
Context {src_ok : EdgeSourceOk src}.
Context (since until : Z) (s : EntityRef).

(** [reach n x]: [x] is [n] hops from the seed. *)
Inductive reach : nat -> EntityRef -> Prop :=
| reach_seed : reach 0 s
| reach_step n x e : reach n x -> e ∈ edges_for x since until -> reach (S n) (other_end x e).

(** Every edge of [x] is recorded, and so are its other ends. *)
Definition processed (w : walk) (x : EntityRef) : Prop :=
  forall e, e ∈ edges_for x since until ->
    edge_key e ∈ visited_edges w /\ storage_key (other_end x e) ∈ visited_entities w.

(** Recorded edges: each recorded once, found at an entity within [k] hops, with
    both ends recorded. *)
Record walk_ok (k : nat) (w : walk) : Prop := {
  ok_keys : NoDup (map edge_key (all_edges w));
  ok_visited : forall key, key ∈ visited_edges w <-> key ∈ map edge_key (all_edges w);
  ok_found : Forall (fun e => exists n x, (n < k)%nat /\ reach n x /\ e ∈ edges_for x since until)
               (all_edges w);
  ok_ends : forall a b i, (a, b, i) ∈ visited_edges w ->
    a ∈ visited_entities w /\ b ∈ visited_entities w;
}.

(** What is queued has been recorded. *)
Definition queued (w : walk) : Prop :=
  Forall (fun x => storage_key x ∈ visited_entities w) (next_frontier w).

(** Growth of the walk. *)
Definition grows (w w' : walk) : Prop :=
  visited_entities w ⊆ visited_entities w' /\ visited_edges w ⊆ visited_edges w'
  /\ (forall key, key ∈ visited_entities w' ->
        key ∈ visited_entities w \/ key ∈ map storage_key (next_frontier w'))
  /\ next_frontier w `prefix_of` next_frontier w'
  /\ (queued w -> queued w').

Lemma grows_refl w : grows w w.
Proof. split_and!; try done. auto. Qed.

Lemma grows_trans w1 w2 w3 : grows w1 w2 -> grows w2 w3 -> grows w1 w3.
Proof.
  intros (A1 & B1 & C1 & D1 & E1) (A2 & B2 & C2 & D2 & E2).
  split_and!; [by etrans|by etrans| |by etrans|auto].
  intros key [Hk|Hk]%C2; [|auto]. destruct (C1 _ Hk) as [?|Hn]; [auto|].
  right. destruct D2 as [l ->]. rewrite map_app. set_solver.
Qed.

Lemma ends_touch x e : e ∈ edges_for x since until ->
  (storage_key (er_from e) = storage_key x /\ storage_key (er_to e) = storage_key (other_end x e))
  \/ (storage_key (er_to e) = storage_key x /\ storage_key (er_from e) = storage_key (other_end x e)).
Proof.
  intros Ht%edges_touch. unfold other_end.
  destruct (String.eqb_spec (storage_key (er_from e)) (storage_key x)); naive_solver.
Qed.

Lemma visit_spec k x n w e :
  (n < k)%nat -> reach n x -> storage_key x ∈ visited_entities w ->
  e ∈ edges_for x since until -> walk_ok k w ->
  Forall (reach (S n)) (next_frontier w) ->
  walk_ok k (visit x w e) /\ grows w (visit x w e)
  /\ Forall (reach (S n)) (next_frontier (visit x w e))
  /\ edge_key e ∈ visited_edges (visit x w e)
  /\ storage_key (other_end x e) ∈ visited_entities (visit x w e).
Proof.
  intros Hn Hr Hx He Hok Hnf. unfold visit. destruct (decide _) as [Hv|Hv].
  - split_and!; [done|apply grows_refl|done|done|].
    destruct (ok_ends _ _ Hok _ _ _ Hv) as [Hf Ht].
    destruct (ends_touch x e He) as [[_ <-]|[_ <-]]; done.
  - assert (storage_key (other_end x e) ∈ {[storage_key (other_end x e)]} ∪ visited_entities w)
      as Ho by set_solver.
    destruct Hok as [Hk1 Hk2 Hk3 Hk4]. split_and!; simpl; [|split_and!; simpl| | |done].
    + constructor; simpl.
      * rewrite map_app. apply NoDup_app. split_and!; [done| |apply NoDup_singleton].
        intros key Hkey ->%list_elem_of_singleton. by apply Hv, Hk2.
      * intros key. rewrite map_app. simpl. rewrite elem_of_union, elem_of_app, Hk2. set_solver.
      * apply Forall_app. split; [done|]. constructor; [|constructor]. eauto.
      * intros a b i [E|Hin]%elem_of_union; [|apply Hk4 in Hin; set_solver].
        apply elem_of_singleton in E. injection E as -> -> ->.
        destruct (ends_touch x e He) as [[-> ->]|[-> ->]]; set_solver.
    + set_solver.
    + set_solver.
    + intros key [->%elem_of_singleton|Hin]%elem_of_union; [|by left].
      destruct (bool_decide_reflect (storage_key (other_end x e) ∉ visited_entities w)) as [Hf|Hf];
        [right; rewrite map_app; set_solver|left; by destruct (decide (storage_key (other_end x e) ∈ visited_entities w))].
    + destruct (bool_decide _); [by apply prefix_app_r|done].
    + unfold queued. simpl. intros Hq.
      assert (Forall (fun y => storage_key y ∈ {[storage_key (other_end x e)]} ∪ visited_entities w)
        (next_frontier w)) as Hq' by (eapply Forall_impl; [exact Hq|]; set_solver).
      destruct (bool_decide _); [|exact Hq']. apply Forall_app. split; [exact Hq'|].
      constructor; [done|constructor].
    + destruct (bool_decide _); [|done]. apply Forall_app. split; [done|].
      constructor; [by constructor|constructor].
    + set_solver.
Qed.

Lemma processed_grows w w' x : processed w x -> grows w w' -> processed w' x.
Proof. intros Hp (A & B & _) e He. destruct (Hp e He). split; [by apply B|by apply A]. Qed.

Lemma visit_edges_spec k x n es : forall w,
  (n < k)%nat -> reach n x -> storage_key x ∈ visited_entities w ->
  Forall (fun e => e ∈ edges_for x since until) es -> walk_ok k w ->
  Forall (reach (S n)) (next_frontier w) ->
  let w' := fold_left (visit x) es w in
  walk_ok k w' /\ grows w w' /\ Forall (reach (S n)) (next_frontier w')
  /\ Forall (fun e => edge_key e ∈ visited_edges w'
                      /\ storage_key (other_end x e) ∈ visited_entities w') es.
Proof.
  induction es as [|e es IH]; intros w Hn Hr Hx Hes Hok Hnf; simpl.
  { split_and!; [done|apply grows_refl|done|constructor]. }
  apply Forall_cons in Hes as [He Hes].
  destruct (visit_spec k x n w e Hn Hr Hx He Hok Hnf) as (Hok1 & Hg1 & Hnf1 & Hk1 & Ho1).
  destruct (IH (visit x w e)) as (Hok2 & Hg2 & Hnf2 & Hes2); [done|done| |done|done|done|].
  { by apply Hg1. }
  split_and!; [done|by eapply grows_trans|done|]. constructor; [|done].
  split; [by apply Hg2|by apply Hg2].
Qed.

Lemma visit_entity_spec k x n w :
  (n < k)%nat -> reach n x -> storage_key x ∈ visited_entities w -> walk_ok k w ->
  Forall (reach (S n)) (next_frontier w) ->
  let w' := visit_entity since until w x in
  walk_ok k w' /\ grows w w' /\ Forall (reach (S n)) (next_frontier w') /\ processed w' x.
Proof.
  intros Hn Hr Hx Hok Hnf.
  destruct (visit_edges_spec k x n (edges_for x since until) w) as (A & B & C & D); [done..| |done|done|].
  { by apply Forall_forall. }
  split_and!; try done. rewrite Forall_forall in D. exact D.
Qed.

Lemma visit_all_spec k n frontier : forall w,
  (n < k)%nat -> Forall (reach n) frontier ->
  Forall (fun x => storage_key x ∈ visited_entities w) frontier -> walk_ok k w ->
  Forall (reach (S n)) (next_frontier w) ->
  let w' := fold_left (visit_entity since until) frontier w in
  walk_ok k w' /\ grows w w' /\ Forall (reach (S n)) (next_frontier w')
  /\ Forall (processed w') frontier.
Proof.
  induction frontier as [|x frontier IH]; intros w Hn Hr Hx Hok Hnf; simpl.
  { split_and!; [done|apply grows_refl|done|constructor]. }
  apply Forall_cons in Hr as [Hrx Hr]. apply Forall_cons in Hx as [Hxx Hx].
  destruct (visit_entity_spec k x n w Hn Hrx Hxx Hok Hnf) as (Hok1 & Hg1 & Hnf1 & Hp1).
  destruct (IH (visit_entity since until w x)) as (Hok2 & Hg2 & Hnf2 & Hp2); [done|done| |done|done|].
  { eapply Forall_impl; [exact Hx|]. intros y Hy. by apply Hg1. }
  split_and!; [done|by eapply grows_trans|done|]. constructor; [by eapply processed_grows|done].
Qed.

Lemma processed_by_key w x y : storage_key x = storage_key y -> processed w x -> processed w y.
Proof.
  intros E Hp e He. rewrite <- (edges_by_key x y _ _ E) in He.
  unfold other_end. rewrite <- E. exact (Hp e He).
Qed.

(** The walk after [n] rounds, with [frontier] still to visit. *)
Record level (n : nat) (frontier : list EntityRef) (w : walk) : Prop := {
  lv_ok : walk_ok n w;
  lv_frontier : Forall (reach n) frontier;
  lv_in : Forall (fun x => storage_key x ∈ visited_entities w) frontier;
  lv_reached : forall m x, (m <= n)%nat -> reach m x -> storage_key x ∈ visited_entities w;
  lv_done : forall m x, (m < n)%nat -> reach m x -> processed w x;
  lv_split : forall x, storage_key x ∈ visited_entities w ->
    storage_key x ∈ map storage_key frontier \/ processed w x;
}.

Lemma walk_ok_mono k k' w : (k <= k')%nat -> walk_ok k w -> walk_ok k' w.
Proof.
  intros Hk [A B C D]. constructor; try done. eapply Forall_impl; [exact C|].
  intros e (n & x & Hn & Hx). exists n, x. split; [lia|done].
Qed.

Lemma level_round n frontier w :
  level n frontier w ->
  level (S n) (next_frontier (round since until frontier w)) (round since until frontier w).
Proof.
  intros [Hok Hf Hin Hre Hdo Hsp]. unfold round.
  set (w0 := {| visited_entities := visited_entities w |}).
  assert (walk_ok (S n) w0) as Hok0.
  { apply (walk_ok_mono n); [lia|]. destruct Hok. by constructor. }
  destruct (visit_all_spec (S n) n frontier w0) as (Hok1 & Hg & Hnf & Hpr);
    [lia|done|done|done|constructor|].
  set (w1 := fold_left _ _ _) in *. pose proof Hg as (Ga & Gb & Gc & _).
  assert (forall x, processed w x -> processed w1 x) as Hmono.
  { intros x Hp. apply (processed_grows w0); [|done]. exact Hp. }
  assert (forall m x, (m < S n)%nat -> reach m x -> processed w1 x) as Hdone.
  { intros m x Hm Hr. destruct (decide (m < n)%nat) as [Hlt|Hge]; [by eapply Hmono, Hdo|].
    destruct (Hsp x) as [Hk|Hp]; [apply (Hre m); [lia|done]| |by apply Hmono].
    apply list_elem_of_fmap in Hk as (y & E & Hy). rewrite Forall_forall in Hpr.
    apply (processed_by_key w1 y x); [done|by apply Hpr]. }
  assert (Forall (fun x => storage_key x ∈ visited_entities w1) (next_frontier w1)) as Hnin.
  { apply Hg. constructor. }
  constructor; try done.
  - intros m x Hm Hr. destruct (decide (m <= n)%nat) as [Hle|Hgt].
    + apply Ga. by apply (Hre m).
    + inversion Hr as [|m' y e Hy He]; subst; [lia|]. by apply (Hdone m' y).
  - intros x Hx. destruct (Gc _ Hx) as [Ho|Hn]; [|by left].
    destruct (Hsp x Ho) as [Hk|Hp]; [|right; by apply Hmono]. right.
    apply list_elem_of_fmap in Hk as (y & E & Hy). rewrite Forall_forall in Hpr.
    apply (processed_by_key w1 y x); [done|by apply Hpr].
Qed.

Lemma level_rounds d : forall n frontier w,
  level n frontier w ->
  let w' := rounds d since until frontier w in
  walk_ok (n + d) w' /\ (forall m x, (m < n + d)%nat -> reach m x -> processed w' x).
Proof.
  induction d as [|d IH]; intros n frontier w Hl; cbn [rounds].
  { rewrite Nat.add_0_r. split; [apply Hl|apply Hl]. }
  destruct frontier as [|x frontier].
  - destruct Hl as [Hok _ _ Hre Hdo Hsp]. split; [by apply (walk_ok_mono n); [lia|]|].
    assert (forall m x, reach m x -> processed w x) as Hall.
    { intros m x Hr. destruct (Hsp x) as [Hk|Hp]; [|by apply not_elem_of_nil in Hk|done].
      induction Hr as [|m x e Hr IHr He]; [apply (Hre 0%nat); [lia|constructor]|].
      destruct (Hsp x IHr) as [Hk|Hp]; [by apply not_elem_of_nil in Hk|]. by apply Hp. }
    eauto.
  - rewrite <- Nat.add_succ_comm. apply IH, level_round, Hl.
Qed.

Lemma level_start :
  level 0 [s] {| visited_entities := {[storage_key s]}; visited_edges := ∅; next_frontier := [s];
                 all_edges := [] |}.
Proof.
  constructor; simpl.
  - constructor; simpl; [constructor|set_solver|constructor|set_solver].
  - constructor; [constructor|constructor].
  - constructor; [set_solver|constructor].
  - intros m x Hm Hr. inversion Hr; subst; [set_solver|lia].
  - lia.
  - set_solver.
Qed.
End Reach.
End Correlate.

Lemma edge_leb_trans a b c : edge_leb a b = true -> edge_leb b c = true -> edge_leb a c = true.
Proof. unfold edge_leb. lia. Qed.

Lemma edge_leb_total a b : edge_leb a b = true \/ edge_leb b a = true.
Proof. unfold edge_leb. lia. Qed.

(** ** A source backed by a list of edges *)

Section ListSource.
Context `{HexCodec} `{UuidText} (stored : list EntityRelationship).

Definition touches (x : EntityRef) (e : EntityRelationship) : bool :=
  String.eqb (storage_key (er_from e)) (storage_key x)
  || String.eqb (storage_key (er_to e)) (storage_key x).

Definition list_edges (x : EntityRef) (since until : Z) : list EntityRelationship :=
  List.filter (fun e => touches x e && (since <=? er_timestamp e) && (er_timestamp e <=? until)) stored.

Lemma list_edges_touch x since until e : e ∈ list_edges x since until ->
  storage_key (er_from e) = storage_key x \/ storage_key (er_to e) = storage_key x.
Proof.
  unfold list_edges. rewrite list_elem_of_In, filter_In, !andb_true_iff.
  intros (_ & (Ht & _) & _). unfold touches in Ht. rewrite orb_true_iff, !String.eqb_eq in Ht. done.
Qed.

Lemma list_edges_by_key x y since until :
  storage_key x = storage_key y -> list_edges x since until = list_edges y since until.
Proof. intros E. unfold list_edges, touches. by rewrite E. Qed.

Definition list_source : EdgeSource := {| edges_for := list_edges |}.

Lemma list_source_ok : EdgeSourceOk list_source.
Proof. split; [exact list_edges_touch|exact list_edges_by_key]. Qed.

End ListSource.

(** Every edge of a chain is one the source returned, fewer than [max_depth] hops away. *)
Lemma build_chain_edges `{HexCodec} `{UuidText} {src : EdgeSource} {src_ok : EdgeSourceOk src} eng s t :
  let since := sat_sub t (window_ns eng) in
  let until := sat_add64 t (window_ns eng) in
  Forall (fun e => exists n x, (n < max_depth eng)%nat /\ reach since until s n x
                               /\ e ∈ edges_for x since until) (chain_edges (build_chain eng s t)).
Proof.
  intros since until. unfold build_chain. fold since until. cbn [chain_edges].
  destruct (level_rounds since until s (max_depth eng) 0 [s] _ (level_start since until s)) as [[_ _ Hf _] _].
  by rewrite sort_by_perm.
Qed.

(** ** Properties *)

(** C30. The chain is exactly what the walk's bounds promise: its edges are those
    the source returns, for the time window, at entities fewer than [max_depth]
    hops from the seed, all of them (edges are identified by their ends and event), each
    once, in time order; its event ids are the events of those edges, each once. *)
Theorem build_chain_exact `{HexCodec} `{UuidText} {src : EdgeSource} {src_ok : EdgeSourceOk src}
    eng s t :
  let since := sat_sub t (window_ns eng) in
  let until := sat_add64 t (window_ns eng) in
  let c := build_chain eng s t in
  NoDup (map edge_key (chain_edges c))
  /\ StronglySorted (fun a b => er_timestamp a <= er_timestamp b) (chain_edges c)
  /\ Forall (fun e => exists n x, (n < max_depth eng)%nat /\ reach since until s n x
                                  /\ e ∈ edges_for x since until) (chain_edges c)
  /\ (forall n x e, (n < max_depth eng)%nat -> reach since until s n x ->
        e ∈ edges_for x since until -> edge_key e ∈ map edge_key (chain_edges c))
  /\ NoDup (chain_event_ids c)
  /\ (forall i, i ∈ chain_event_ids c <-> i ∈ map er_event_id (chain_edges c)).
Proof.
  intros since until c. unfold c, build_chain. fold since until. cbn [chain_edges chain_event_ids].
  destruct (level_rounds since until s (max_depth eng) 0 [s] _ (level_start since until s))
    as [[Hk Hv _ _] Hc].
  set (w := rounds _ _ _ _ _) in *. pose proof (sort_by_perm edge_leb (all_edges w)) as Hp.
  destruct (dedup_spec ∅ (map er_event_id (sort_by edge_leb (all_edges w)))) as [Hd Hi].
  split_and!.
  - by rewrite Hp.
  - eapply StronglySorted_weaken; [|apply (sort_by_sorted edge_leb edge_leb_trans edge_leb_total)].
    unfold edge_leb. lia.
  - exact (build_chain_edges eng s t).
  - intros n x e Hn Hr He. rewrite Hp. apply Hv. by apply (Hc n x Hn Hr).
  - exact Hd.
  - intros i. rewrite Hi. set_solver.
Qed.

(** A process wrote a file that another had read; its later connection is outside the window. *)
Definition sample_edges : list EntityRelationship :=
  let p n := EProcess {| pk_bytes := be_bytes 16 n |} in
  let edge a r b i ts := {| er_from := a; er_to := b; er_relation := r; er_event_id := i;
                            er_timestamp := ts |} in
  [edge (p 1) Wrote (EFile 7 9 1) 11 100; edge (p 2) Read (EFile 7 9 1) 12 90;
   edge (p 2) ConnectedTo (EIp "10.0.0.1") 13 300].

Definition sample_chain : BehavioralChain :=
  @build_chain concrete_hex concrete_uuid (@list_source concrete_hex concrete_uuid sample_edges)
    {| max_depth := 3; window_ns := 50 |} (EProcess {| pk_bytes := be_bytes 16 1 |}) 110.

Lemma build_chain_exact_witness :
  map er_event_id (chain_edges sample_chain) = [12; 11] /\ NoDup (chain_event_ids sample_chain).
Proof.
  split; [vm_compute; reflexivity|].
  exact (proj1 (proj2 (proj2 (proj2 (proj2 (@build_chain_exact concrete_hex concrete_uuid
    (@list_source concrete_hex concrete_uuid sample_edges)
    (@list_source_ok concrete_hex concrete_uuid sample_edges) {| max_depth := 3; window_ns := 50 |}
    (EProcess {| pk_bytes := be_bytes 16 1 |}) 110)))))).
Defined.
