(* ===== verification/Baseline.v ===== *)
(** * The frequency baseline: [crates/osiris-baseline/src/lib.rs]

    The engine keeps one SQLite table, (kind, key) to a counter.  The table is a
    finite map here; which statements fail is a parameter, since the engine's
    contract says what a failure leaves behind. *)

From S2P Require Import Prelude BTree Concrete Json Schema.

Inductive FrequencyKind := ParentChildExec | ProcessNetwork | ProcessDns | UserExe.

#[global] Instance frequency_kind_eq_dec : EqDecision FrequencyKind.
Proof. solve_decision. Defined.

Definition kind_as_str (k : FrequencyKind) : string :=
  match k with
  | ParentChildExec => "PARENT_CHILD_EXEC"
  | ProcessNetwork => "PROCESS_NETWORK"
  | ProcessDns => "PROCESS_DNS"
  | UserExe => "USER_EXE"
  end.

Lemma kind_as_str_inj k k' : kind_as_str k = kind_as_str k' -> k = k'.
Proof. by destruct k, k'. Qed.

Inductive Rarity := New | Rare | Common.

#[global] Instance rarity_eq_dec : EqDecision Rarity.
Proof. solve_decision. Defined.

Record Observation := {
  ob_kind : FrequencyKind; ob_key : string; ob_rarity : Rarity; ob_count : Z }.

Inductive BaselineError := BaselineStorage.

(** A row of [baseline_frequency]; its primary key is (kind, key). *)
Record frequency_row := { first_seen : Z; last_seen : Z; row_count : Z }.

Abbreviation frequency_table := (gmap (string * string) frequency_row) (only parsing).

(** [timestamp as i64]. *)
Definition as_i64 (z : Z) : Z := (z + 2 ^ 63) mod 2 ^ 64 - 2 ^ 63.

Definition separator : string := of_bytes [Byte.x01].

Section Baseline.
Context (rare_threshold : Z).
(** Whether the statements of an [upsert] fail on this table. *)
Context (fails : gmap (string * string) frequency_row -> FrequencyKind -> string -> bool).

Definition rarity_of (count : Z) : Rarity :=
  if count =? 1 then New else if count <=? rare_threshold then Rare else Common.

Definition count_in (t : frequency_table) (kind : FrequencyKind) (key : string) : Z :=
  match t !! (kind_as_str kind, key) with Some r => row_count r | None => 0 end.

Definition upsert (t : frequency_table) (kind : FrequencyKind) (key : string) (timestamp : Z)
  : outcome BaselineError Observation * frequency_table :=
  if fails t kind key then (Err BaselineStorage, t)
  else
    let count := count_in t kind key + 1 in
    let row := match t !! (kind_as_str kind, key) with
               | Some r => {| first_seen := first_seen r; last_seen := as_i64 timestamp;
                              row_count := row_count r + 1 |}
               | None => {| first_seen := as_i64 timestamp; last_seen := as_i64 timestamp;
                            row_count := 1 |}
               end in
    (Ok {| ob_kind := kind; ob_key := key; ob_rarity := rarity_of count; ob_count := count |},
     <[(kind_as_str kind, key) := row]> t).

Context `{JsonLib}.

(** The (kind, key) pairs an event contributes, in the order of [observe_on]. *)
Definition pairs (event : CanonicalEvent) : list (FrequencyKind * string) :=
  let is_exit := bool_decide (event_type event = ProcessExit) in
  (match ev_parent_process event, ev_process event, is_exit with
   | Some parent, Some process, false =>
       [(ParentChildExec, exe_path parent +:+ separator +:+ exe_path process)]
   | _, _, _ => []
   end)
  ++ (match ev_process event, ev_network event with
      | Some process, Some network =>
          [(ProcessNetwork, exe_path process +:+ separator +:+ dst_ip network +:+ ":"
                            +:+ dec_string (dst_port network))]
      | _, _ => []
      end)
  ++ (match ev_process event, ev_dns event with
      | Some process, Some dns =>
          [(ProcessDns, exe_path process +:+ separator +:+ dns_query dns)]
      | _, _ => []
      end)
  ++ (match ev_user event, ev_process event with
      | Some user, Some process =>
          [(UserExe, dec_string (uid user) +:+ separator +:+ exe_path process)]
      | _, _ => []
      end).

(** [observations.push(self.upsert(..)?)] for each pair. *)
Fixpoint upsert_all (t : frequency_table) (timestamp : Z) (ps : list (FrequencyKind * string))
  : outcome BaselineError (list Observation) * frequency_table :=
  match ps with
  | [] => (Ok [], t)
  | (k, key) :: ps =>
      match upsert t k key timestamp with
      | (Ok o, t1) =>
          match upsert_all t1 timestamp ps with
          | (Ok os, t2) => (Ok (o :: os), t2)
          | (e, t2) => (e, t2)
          end
      | (Err e, t1) => (Err e, t1)
      | (Panic, t1) => (Panic, t1)
      end
  end.

Definition observe_on (t : frequency_table) (event : CanonicalEvent)
  : outcome BaselineError (list Observation) * frequency_table :=
  upsert_all t (ev_timestamp event) (pairs event).

(** Outside a transaction every statement commits by itself. *)
Definition observe (t : frequency_table) (event : CanonicalEvent)
  : outcome BaselineError (list Observation) * frequency_table := observe_on t event.

Fixpoint observe_each (t : frequency_table) (events : list CanonicalEvent)
  : outcome BaselineError (list (list Observation)) * frequency_table :=
  match events with
  | [] => (Ok [], t)
  | e :: events =>
      match observe_on t e with
      | (Ok o, t1) =>
          match observe_each t1 events with
          | (Ok os, t2) => (Ok (o :: os), t2)
          | (e, t2) => (e, t2)
          end
      | (Err e, t1) => (Err e, t1)
      | (Panic, t1) => (Panic, t1)
      end
  end.

(** One transaction: on any error, the commit's included, it rolls back.
    [begin_fails] and [commit_fails] are the statements around it. *)
Definition observe_batch (begin_fails commit_fails : bool) (t : frequency_table)
    (events : list CanonicalEvent)
  : outcome BaselineError (list (list Observation)) * frequency_table :=
  if begin_fails then (Err BaselineStorage, t)
  else
    match observe_each t events with
    | (Ok os, t') => if commit_fails then (Err BaselineStorage, t) else (Ok os, t')
    | (e, _) => (e, t)
    end.

(** ** Counting *)

Definition occurrences (p : FrequencyKind * string) (ps : list (FrequencyKind * string)) : Z :=
  Z.of_nat (List.length (List.filter (fun q => bool_decide (q = p)) ps)).

(** The reference: each pair's observation from the pairs seen before it. *)
Fixpoint reference (before : list (FrequencyKind * string)) (ps : list (FrequencyKind * string))
  : list Observation :=
  match ps with
  | [] => []
  | p :: ps =>
      let n := occurrences p before + 1 in
      {| ob_kind := p.1; ob_key := p.2; ob_rarity := rarity_of n; ob_count := n |}
      :: reference (before ++ [p]) ps
  end.

(** The table counts exactly the pairs seen. *)
Definition counts (t : frequency_table) (seen : list (FrequencyKind * string)) : Prop :=
  forall k key, count_in t k key = occurrences (k, key) seen.

Lemma occurrences_snoc p seen q :
  occurrences p (seen ++ [q]) = occurrences p seen + (if decide (q = p) then 1 else 0).
Proof.
  unfold occurrences. rewrite List.filter_app, length_app. simpl.
  case_bool_decide; case_decide; try congruence; simpl; lia.
Qed.

Lemma upsert_counts t seen k key ts o t' :
  counts t seen -> upsert t k key ts = (Ok o, t') ->
  counts t' (seen ++ [(k, key)])
  /\ o = {| ob_kind := k; ob_key := key; ob_rarity := rarity_of (occurrences (k, key) seen + 1);
            ob_count := occurrences (k, key) seen + 1 |}.
Proof.
  intros Hc. unfold upsert. destruct (fails t k key); [done|]. intros [= <- <-].
  rewrite Hc. split; [|done]. intros k' key'. rewrite occurrences_snoc, <- Hc. unfold count_in.
  destruct (decide ((k, key) = (k', key'))) as [[= <- <-]|Hne].
  - rewrite lookup_insert_eq. by destruct (t !! _).
  - rewrite lookup_insert_ne; [lia|]. intros [= E1%kind_as_str_inj E2]. congruence.
Qed.

Lemma upsert_all_counts ts ps : forall t seen os t',
  counts t seen -> upsert_all t ts ps = (Ok os, t') ->
  counts t' (seen ++ ps) /\ os = reference seen ps.
Proof.
  induction ps as [|[k key] ps IH]; intros t seen os t' Hc; simpl.
  { intros [= <- <-]. by rewrite app_nil_r. }
  destruct (upsert t k key ts) as [[o|e|] t1] eqn:E; [|done..].
  destruct (upsert_counts _ _ _ _ _ _ _ Hc E) as [Hc1 ->].
  destruct (upsert_all t1 ts ps) as [[os1|e|] t2] eqn:E2; [|done..]. intros [= <- <-].
  destruct (IH _ _ _ _ Hc1 E2) as [Hc2 ->]. by rewrite <- app_assoc in Hc2.
Qed.

Fixpoint reference_each (seen : list (FrequencyKind * string)) (es : list CanonicalEvent)
  : list (list Observation) :=
  match es with
  | [] => []
  | e :: es => reference seen (pairs e) :: reference_each (seen ++ pairs e) es
  end.

Lemma observe_each_counts es : forall t seen os t',
  counts t seen -> observe_each t es = (Ok os, t') ->
  counts t' (seen ++ flat_map pairs es) /\ os = reference_each seen es.
Proof.
  induction es as [|e es IH]; intros t seen os t' Hc; simpl.
  { intros [= <- <-]. by rewrite app_nil_r. }
  destruct (observe_on t e) as [[o|x|] t1] eqn:E; [|done..].
  destruct (upsert_all_counts _ _ _ _ _ _ Hc E) as [Hc1 ->].
  destruct (observe_each t1 es) as [[os1|x|] t2] eqn:E2; [|done..]. intros [= <- <-].
  destruct (IH _ _ _ _ Hc1 E2) as [Hc2 ->]. by rewrite <- app_assoc in Hc2.
Qed.

Lemma upsert_all_total ts ps : forall t,
  (forall t k key, fails t k key = false) -> is_ok (upsert_all t ts ps).1 = true.
Proof.
  induction ps as [|[k key] ps IH]; intros t Hf; simpl; [done|].
  unfold upsert. rewrite Hf. match goal with |- context [upsert_all ?t1 ts ps] =>
    pose proof (IH t1 Hf) as Hi; by destruct (upsert_all t1 ts ps) as [[|e|] t2] end.
Qed.

Lemma observe_each_total es : forall t,
  (forall t k key, fails t k key = false) -> is_ok (observe_each t es).1 = true.
Proof.
  induction es as [|e es IH]; intros t Hf; simpl; [done|].
  pose proof (upsert_all_total (ev_timestamp e) (pairs e) t Hf) as Ho. fold (observe_on t e) in Ho.
  destruct (observe_on t e) as [[o|x|] t1]; [|done..].
  pose proof (IH t1 Hf) as Hi. by destruct (observe_each t1 es) as [[os|x|] t2].
Qed.

End Baseline.

(** ** Properties *)

(** The baseline counts what it has seen: on a fresh table a batch succeeds
    whenever no statement fails, and the [i]-th observation reports one more than
    the number of earlier occurrences of its pair, [NEW] exactly for the first
    occurrence and [RARE] up to the threshold; the table then counts every pair
    of the batch. *)
Lemma observe_batch_counts `{JsonLib} thr fails es :
  (forall t k key, fails t k key = false) ->
  exists t', observe_batch thr fails false false ∅ es = (Ok (reference_each thr [] es), t')
    /\ forall k key, count_in t' k key = occurrences (k, key) (flat_map pairs es).
Proof.
  intros Hf. unfold observe_batch. pose proof (observe_each_total thr fails es ∅ Hf) as Ho.
  destruct (observe_each thr fails ∅ es) as [[os|x|] t'] eqn:E; [|done..].
  destruct (observe_each_counts thr fails es ∅ [] os t') as [Hc ->]; [done|done|].
  exists t'. split; [done|]. exact Hc.
Qed.

Definition baseline_event (host : Z) : @CanonicalEvent tjson_lib :=
  let e := @sample_event tjson_lib 1 10 ProcessExec (Some (sample_process 5)) "" TNull in
  @Build_CanonicalEvent tjson_lib 1 "1" host "b" 10 10 ProcessExec (category ProcessExec) Info
    (@ev_host tjson_lib e) None None (Some (sample_process 5)) (Some (sample_process 4))
    None None None None None None None None None None SEbpf "" None [] [] None TNull.

Lemma observe_batch_counts_witness :
  exists t', @observe_batch 5 (fun _ _ _ => false) tjson_lib false false ∅
               [baseline_event 1; baseline_event 1]
             = (Ok (@reference_each 5 tjson_lib [] [baseline_event 1; baseline_event 1]), t')
    /\ map (map ob_rarity) (@reference_each 5 tjson_lib [] [baseline_event 1; baseline_event 1])
       = [[New]; [Rare]].
Proof.
  destruct (@observe_batch_counts tjson_lib 5 (fun _ _ _ => false)
    [baseline_event 1; baseline_event 1]) as (t' & E & _); [done|].
  exists t'. split; [exact E|]. vm_compute. reflexivity.
Defined.

(** A batch is one transaction: it succeeds exactly when observing its
    events one by one does (and the commit succeeds), with the same observations
    and the same table; on any error the table is unchanged. *)
Lemma observe_batch_atomic `{JsonLib} thr fails begin_fails commit_fails t es :
  match observe_batch thr fails begin_fails commit_fails t es with
  | (Ok os, t') => begin_fails = false /\ commit_fails = false
                   /\ observe_each thr fails t es = (Ok os, t')
  | (_, t') => t' = t
  end.
Proof.
  unfold observe_batch. destruct begin_fails; [done|].
  destruct (observe_each thr fails t es) as [[os|x|] t'] eqn:E; [|done..].
  by destruct commit_fails.
Qed.

(** The second observation of the batch fails: nothing is recorded. *)
Lemma observe_batch_atomic_witness :
  (@observe_batch 5 (fun t k key => 1 <=? count_in t k key) tjson_lib false false ∅
     [baseline_event 1; baseline_event 1]).2 = ∅.
Proof.
  pose proof (@observe_batch_atomic tjson_lib 5 (fun t k key => 1 <=? count_in t k key) false false ∅
    [baseline_event 1; baseline_event 1]) as Ha.
  assert (is_ok (@observe_batch 5 (fun t k key => 1 <=? count_in t k key) tjson_lib false false ∅
     [baseline_event 1; baseline_event 1]).1 = false) as Hf by (vm_compute; reflexivity).
  destruct (@observe_batch _ _ _ _ _ _ _) as [[os|e|] t']; [discriminate Hf|exact Ha|exact Ha].
Defined.

(** The table is not kept per host: after a pair was observed on one host,
    the same pair on a different host is no longer new. *)
Lemma baseline_shared_across_hosts :
  let r := (@observe_batch 5 (fun _ _ _ => false) tjson_lib false false ∅
              [baseline_event 1; baseline_event 2]).1 in
  is_ok r = true
  /\ match r with Ok os => map (map ob_rarity) os = [[New]; [Rare]] | _ => False end.
Proof. split; vm_compute; reflexivity. Qed.
