(* ===== verification/Risk.v ===== *)
(** * The risk engine: [crates/osiris-risk/src/lib.rs] *)

From S2P Require Import Prelude BTree Concrete Json Schema Correlate Baseline.

(** Weights are [i16]. *)
Record SeverityWeights := {
  w_info : Z; w_low : Z; w_medium : Z; w_high : Z; w_critical : Z }.

Definition default_severity_weights : SeverityWeights :=
  {| w_info := 0; w_low := 5; w_medium := 15; w_high := 30; w_critical := 50 |}.

Definition weight_for (w : SeverityWeights) (s : Severity) : Z :=
  match s with
  | Info => w_info w
  | Low => w_low w
  | Medium => w_medium w
  | High => w_high w
  | Critical => w_critical w
  end.

Record RiskConfig := {
  severity_weights : SeverityWeights;
  baseline_new_weight : Z;
  baseline_rare_weight : Z;
  chain_pattern_weight : Z;
}.

Definition default_risk_config : RiskConfig :=
  {| severity_weights := default_severity_weights; baseline_new_weight := 10;
     baseline_rare_weight := 5; chain_pattern_weight := 20 |}.

Definition rarity_label (kind : FrequencyKind) (rarity : Rarity) : string :=
  let subject := match kind with
                 | ParentChildExec => "parent/child process pair"
                 | ProcessNetwork => "process/destination pair"
                 | ProcessDns => "process/DNS-query pair"
                 | UserExe => "user/executable pair"
                 end in
  match rarity with
  | New => "First-seen " +:+ subject +:+ " for this host"
  | Rare => "Rare " +:+ subject +:+ " for this host"
  | Common => "Common " +:+ subject
  end.

(** The sum of an [i32] iterator: additions wrap (in release builds). *)
Definition wrap_i32 (z : Z) : Z := (z + 2 ^ 31) mod 2 ^ 32 - 2 ^ 31.
Definition sum_i32 (l : list Z) : Z := fold_left (fun acc x => wrap_i32 (acc + x)) l 0.

Definition clamp (lo hi z : Z) : Z := Z.max lo (Z.min hi z).

Definition score_severity (score : Z) : Severity :=
  if score <=? 9 then Info
  else if score <=? 29 then Low
  else if score <=? 59 then Medium
  else if score <=? 79 then High
  else Critical.

Section Risk.
Context `{JsonLib} `{HexCodec} `{UuidText} (config : RiskConfig).

Definition alert_reason (event : CanonicalEvent) (a : Alert) : WeightedReason :=
  {| wr_label := default (alert_rule_id a) (head (alert_reasons a));
     wr_weight := weight_for (severity_weights config) (alert_severity a);
     wr_evidence := default (event_id event) (head (alert_evidence a)) |}.

Definition observation_reason (event : CanonicalEvent) (o : Observation) : option WeightedReason :=
  let reason w := Some {| wr_label := rarity_label (ob_kind o) (ob_rarity o); wr_weight := w;
                          wr_evidence := event_id event |} in
  match ob_rarity o with
  | New => reason (baseline_new_weight config)
  | Rare => reason (baseline_rare_weight config)
  | Common => None
  end.

Definition chain_label : string := "Network connection followed by file write".

Definition chain_reasons (event : CanonicalEvent) (chain : option BehavioralChain)
  : list WeightedReason :=
  match chain, ev_process event with
  | Some c, Some p =>
      let entity := EProcess (process_key p) in
      if has_relation_touching c entity ConnectedTo && has_relation_touching c entity Wrote then
        [{| wr_label := chain_label; wr_weight := chain_pattern_weight config;
            wr_evidence := event_id event |}]
      else []
  | _, _ => []
  end.

Definition score (event : CanonicalEvent) (alerts : list Alert) (observations : list Observation)
    (chain : option BehavioralChain) : option RiskScoreRecord :=
  let reasons := map (alert_reason event) alerts
                 ++ omap (observation_reason event) observations
                 ++ chain_reasons event chain in
  match reasons with
  | [] => None
  | _ =>
      let total := sum_i32 (map wr_weight reasons) in
      let s := clamp 0 100 total in
      Some {| rs_event_id := event_id event;
              rs_process_key := option_map process_key (ev_process event);
              rs_host_id := ev_host_id event;
              rs_timestamp := ev_timestamp event;
              rs_score := s;
              rs_severity := score_severity s;
              rs_reasons := reasons;
              rs_related_events := dedup ∅ (map wr_evidence reasons ++ [event_id event]) |}
  end.

End Risk.

(** ** Arithmetic *)

Definition fits_i16 (z : Z) : bool := (- 2 ^ 15 <=? z) && (z <? 2 ^ 15).

Definition sum_Z (l : list Z) : Z := foldr Z.add 0 l.

Lemma wrap_i32_small z : - 2 ^ 31 <= z < 2 ^ 31 -> wrap_i32 z = z.
Proof. intros Hz. unfold wrap_i32. rewrite Z.mod_small; lia. Qed.

(** Fewer than 65536 weights cannot overflow. *)
Lemma sum_i32_exact_aux l : forall acc,
  Forall (fun z => fits_i16 z = true) l ->
  - 2 ^ 31 <= acc - 2 ^ 15 * Z.of_nat (List.length l) ->
  acc + 2 ^ 15 * Z.of_nat (List.length l) < 2 ^ 31 ->
  fold_left (fun acc x => wrap_i32 (acc + x)) l acc = acc + sum_Z l.
Proof.
  induction l as [|x l IH]; intros acc Hf Hlo Hhi; simpl; [lia|].
  apply Forall_cons in Hf as [Hx Hf]. unfold fits_i16 in Hx. cbn [List.length] in *.
  rewrite wrap_i32_small by lia. rewrite IH; [|done|lia|lia]. unfold sum_Z. simpl. lia.
Qed.

Lemma sum_i32_exact l :
  Forall (fun z => fits_i16 z = true) l -> Z.of_nat (List.length l) < 65536 -> sum_i32 l = sum_Z l.
Proof. intros Hf Hl. unfold sum_i32. rewrite sum_i32_exact_aux; [lia|done|lia|lia]. Qed.

Definition config_ok (c : RiskConfig) : bool :=
  fits_i16 (w_info (severity_weights c)) && fits_i16 (w_low (severity_weights c))
  && fits_i16 (w_medium (severity_weights c)) && fits_i16 (w_high (severity_weights c))
  && fits_i16 (w_critical (severity_weights c)) && fits_i16 (baseline_new_weight c)
  && fits_i16 (baseline_rare_weight c) && fits_i16 (chain_pattern_weight c).

Definition config_nonneg (c : RiskConfig) : bool :=
  (0 <=? w_info (severity_weights c)) && (0 <=? w_low (severity_weights c))
  && (0 <=? w_medium (severity_weights c)) && (0 <=? w_high (severity_weights c))
  && (0 <=? w_critical (severity_weights c)) && (0 <=? baseline_new_weight c)
  && (0 <=? baseline_rare_weight c) && (0 <=? chain_pattern_weight c).

Definition severity_rank (s : Severity) : Z :=
  match s with Info => 0 | Low => 1 | Medium => 2 | High => 3 | Critical => 4 end.

Lemma score_severity_mono a b : a <= b -> severity_rank (score_severity a) <= severity_rank (score_severity b).
Proof. intros Hab. unfold score_severity. repeat (case_match; simpl; try lia). Qed.

Section Facts.
Context `{JsonLib} `{HexCodec} `{UuidText} (config : RiskConfig).

(** The reasons behind a score, in order. *)
Definition reasons_of (event : CanonicalEvent) (alerts : list Alert)
    (observations : list Observation) (chain : option BehavioralChain) : list WeightedReason :=
  map (alert_reason config event) alerts ++ omap (observation_reason config event) observations
  ++ chain_reasons config event chain.

(** Every weight comes from the configuration. *)
Lemma reasons_weights (P : Z -> Prop) event alerts obs chain :
  (forall s, P (weight_for (severity_weights config) s)) ->
  P (baseline_new_weight config) -> P (baseline_rare_weight config) ->
  P (chain_pattern_weight config) ->
  Forall (fun r => P (wr_weight r)) (reasons_of event alerts obs chain).
Proof.
  intros Hs Hn Hr Hc. unfold reasons_of. rewrite !Forall_app. split_and!.
  - apply Forall_forall. intros r (a & -> & _)%list_elem_of_fmap. simpl. auto.
  - apply Forall_forall. intros r (o & _ & Ho)%list_elem_of_omap. unfold observation_reason in Ho.
    destruct (ob_rarity o); naive_solver.
  - unfold chain_reasons. repeat case_match; try constructor; auto.
Qed.

Lemma config_ok_weights event alerts obs chain :
  config_ok config = true ->
  Forall (fun z => fits_i16 z = true) (map wr_weight (reasons_of event alerts obs chain)).
Proof.
  unfold config_ok. rewrite !andb_true_iff. intros (((((((? & ?) & ?) & ?) & ?) & ?) & ?) & ?).
  apply Forall_map, (reasons_weights (fun z => fits_i16 z = true)); try done. by intros [].
Qed.

Lemma config_nonneg_weights event alerts obs chain :
  config_nonneg config = true ->
  Forall (fun z => 0 <= z) (map wr_weight (reasons_of event alerts obs chain)).
Proof.
  unfold config_nonneg. rewrite !andb_true_iff, !Z.leb_le.
  intros (((((((? & ?) & ?) & ?) & ?) & ?) & ?) & ?).
  apply Forall_map, (reasons_weights (fun z => 0 <= z)); try done. by intros [].
Qed.

Lemma sum_Z_app l m : sum_Z (l ++ m) = sum_Z l + sum_Z m.
Proof. induction l as [|x l IH]; simpl; [done|]. unfold sum_Z in *. simpl. lia. Qed.

Lemma sum_Z_one x : sum_Z [x] = x.
Proof. apply Z.add_0_r. Qed.
End Facts.

(** ** Properties *)

(** A score is never a bare number: there is a record exactly when some
    input contributes a reason; its score is the clamped sum of the weights of
    its reasons, its severity the band of the score, and its related events are
    the evidence of the reasons and the event itself, each once. *)
Lemma score_explained `{JsonLib} `{HexCodec} `{UuidText} config event alerts obs chain :
  config_ok config = true ->
  Z.of_nat (List.length (reasons_of config event alerts obs chain)) < 65536 ->
  match score config event alerts obs chain with
  | None => reasons_of config event alerts obs chain = []
  | Some r =>
      rs_reasons r = reasons_of config event alerts obs chain /\ rs_reasons r <> []
      /\ rs_score r = clamp 0 100 (sum_Z (map wr_weight (rs_reasons r)))
      /\ 0 <= rs_score r <= 100
      /\ rs_severity r = score_severity (rs_score r)
      /\ NoDup (rs_related_events r)
      /\ (forall i, i ∈ rs_related_events r <->
            i = event_id event \/ i ∈ map wr_evidence (rs_reasons r))
  end.
Proof.
  intros Hc Hl. unfold score. fold (reasons_of config event alerts obs chain).
  destruct (reasons_of config event alerts obs chain) as [|r0 rest] eqn:Er; [done|].
  rewrite <- Er in *. cbn [rs_reasons rs_score rs_severity rs_related_events].
  rewrite sum_i32_exact; [|by apply config_ok_weights|by rewrite length_map].
  destruct (dedup_spec ∅ (map wr_evidence (reasons_of config event alerts obs chain) ++ [event_id event]))
    as [Hd Hi].
  split_and!; [done|by rewrite Er|done|unfold clamp; lia|unfold clamp; lia|done|done|].
  intros i. rewrite Hi, elem_of_app, list_elem_of_singleton. set_solver.
Qed.

(** With non-negative weights evidence only raises the risk: one more alert
    never lowers the score or the severity. *)
Lemma score_monotone `{JsonLib} `{HexCodec} `{UuidText} config event alerts a obs chain r r' :
  config_ok config = true -> config_nonneg config = true ->
  Z.of_nat (List.length (reasons_of config event (alerts ++ [a]) obs chain)) < 65536 ->
  score config event alerts obs chain = Some r ->
  score config event (alerts ++ [a]) obs chain = Some r' ->
  rs_score r <= rs_score r' /\ severity_rank (rs_severity r) <= severity_rank (rs_severity r').
Proof.
  intros Hc Hn Hl Hr Hr'.
  assert (forall al rec, Z.of_nat (List.length (reasons_of config event al obs chain)) < 65536 ->
    score config event al obs chain = Some rec ->
    rs_score rec = clamp 0 100 (sum_Z (map wr_weight (reasons_of config event al obs chain)))
    /\ rs_severity rec = score_severity (rs_score rec)) as Hs.
  { intros al rec Hlen. unfold score. fold (reasons_of config event al obs chain).
    destruct (reasons_of config event al obs chain) eqn:Er; [done|]. rewrite <- Er in *.
    intros [= <-]. cbn [rs_score rs_severity].
    by rewrite sum_i32_exact; [|by apply config_ok_weights|by rewrite length_map]. }
  assert (reasons_of config event (alerts ++ [a]) obs chain
    = map (alert_reason config event) alerts ++ [alert_reason config event a]
      ++ omap (observation_reason config event) obs ++ chain_reasons config event chain) as Happ.
  { unfold reasons_of. rewrite map_app. by rewrite <- app_assoc. }
  destruct (Hs _ _ Hl Hr') as [E1' E2']. destruct (Hs alerts r) as [E1 E2]; [|done|].
  { revert Hl. rewrite Happ. unfold reasons_of. rewrite !length_app. simpl. lia. }
  assert (0 <= wr_weight (alert_reason config event a)) as Hw.
  { pose proof (config_nonneg_weights config event [a] obs chain Hn) as Hf.
    by apply Forall_cons in Hf as [Hf _]. }
  assert (rs_score r <= rs_score r') as Hle.
  { rewrite E1, E1', Happ. unfold reasons_of. rewrite !map_app, !sum_Z_app.
    cbn [map]. rewrite sum_Z_one. unfold clamp. lia. }
  split; [done|]. rewrite E2, E2'. by apply score_severity_mono.
Qed.

Definition risk_alert (sev : Severity) : Alert :=
  {| alert_id := 3; alert_rule_id := "r"; alert_rule_version := 1; alert_rule_content_hash := "";
     alert_severity := sev; alert_status := Open; alert_timestamp := 10; alert_host_id := 7;
     alert_reasons := ["because"]; alert_evidence := [1] |}.

Definition risk_event : @CanonicalEvent tjson_lib :=
  @sample_event tjson_lib 1 10 ProcessExec (Some (sample_process 5)) "" TNull.

Definition risk_score (alerts : list Alert) (chain : option BehavioralChain) :=
  @score tjson_lib concrete_hex concrete_uuid default_risk_config risk_event alerts [] chain.

Lemma score_explained_witness :
  match risk_score [risk_alert High] None with
  | None => False
  | Some r => rs_score r = 30 /\ 0 <= rs_score r <= 100
  end.
Proof.
  pose proof (@score_explained tjson_lib concrete_hex concrete_uuid default_risk_config risk_event
    [risk_alert High] [] None) as Hs. fold (risk_score [risk_alert High] None) in Hs.
  specialize (Hs ltac:(vm_compute; reflexivity) ltac:(vm_compute; reflexivity)).
  destruct (risk_score [risk_alert High] None) as [r|]; [|vm_compute in Hs; discriminate Hs].
  destruct Hs as (Hr & _ & Hsc & Hb & _). split; [|exact Hb].
  rewrite Hsc, Hr. vm_compute. reflexivity.
Defined.

Lemma score_monotone_witness :
  match risk_score [risk_alert High] None, risk_score [risk_alert High; risk_alert Low] None with
  | Some r, Some r' => rs_score r <= rs_score r'
  | _, _ => False
  end.
Proof.
  assert (bool_decide (is_Some (risk_score [risk_alert High] None)) = true) as H1
    by (vm_compute; reflexivity).
  assert (bool_decide (is_Some (risk_score [risk_alert High; risk_alert Low] None)) = true) as H2
    by (vm_compute; reflexivity).
  apply bool_decide_eq_true in H1, H2. destruct H1 as [r Hr], H2 as [r' Hr']. rewrite Hr, Hr'.
  refine (proj1 (@score_monotone tjson_lib concrete_hex concrete_uuid default_risk_config risk_event
    [risk_alert High] (risk_alert Low) [] None r r' _ _ _ Hr Hr')); vm_compute; reflexivity.
Defined.

(** A chain in which the process wrote a file first and connected later. *)
Definition write_then_connect : BehavioralChain :=
  let p := EProcess {| pk_bytes := be_bytes 16 5 |} in
  {| seed := p;
     chain_edges := [{| er_from := p; er_to := EFile 7 1 1; er_relation := Wrote; er_event_id := 1;
                        er_timestamp := 10 |};
                     {| er_from := p; er_to := EIp "10.0.0.1"; er_relation := ConnectedTo;
                        er_event_id := 2; er_timestamp := 20 |}];
     chain_event_ids := [1; 2] |}.

(** The chain reason does not look at the order of the edges: a process that
    wrote a file and only afterwards connected gets the reason "Network
    connection followed by file write". *)
Lemma chain_reason_ignores_order :
  match risk_score [] (Some write_then_connect) with
  | Some r => map wr_label (rs_reasons r) = [chain_label] /\ rs_score r = 20
  | None => False
  end.
Proof. vm_compute. split; reflexivity. Qed.
