(* ===== verification/Health.v ===== *)
(** * Health: [crates/osiris-health]

    Per-sensor health states and their aggregation into the agent's own state,
    which is the worst of them. *)

From S2P Require Import Prelude.

Module Health.

(** ** [state.rs] *)

Inductive HealthState :=
| Healthy
| Degraded (last_error : string)
| Failed (last_error : string).

Definition severity_rank (s : HealthState) : Z :=
  match s with Healthy => 0 | Degraded _ => 1 | Failed _ => 2 end.

Record SensorHealth := {
  sensor_name : string; state : HealthState; events_processed : Z; last_event_at : option Z }.

(** ** [aggregate.rs] *)

Record AgentHealth := { agent_state : HealthState; sensors : list SensorHealth }.

(** [record_sensor]: [retain] the other sensors, then [push]. *)
Definition record_sensor (agg : list SensorHealth) (h : SensorHealth) : list SensorHealth :=
  List.filter (fun s => negb (sensor_name s =? sensor_name h)%string) agg ++ [h].

(** [Iterator::max_by_key]: the last of the maximal elements. *)
Fixpoint max_by_rank (best : HealthState) (l : list HealthState) : HealthState :=
  match l with
  | [] => best
  | s :: l => max_by_rank (if severity_rank s <? severity_rank best then best else s) l
  end.

Definition aggregate (agg : list SensorHealth) : AgentHealth :=
  {| agent_state := match map state agg with [] => Healthy | s :: l => max_by_rank s l end;
     sensors := agg |}.

(** ** Lemmas *)

Lemma max_by_rank_in l : forall best, max_by_rank best l = best \/ In (max_by_rank best l) l.
Proof.
  induction l as [|s l IH]; intros best; simpl; [by left|].
  destruct (severity_rank s <? severity_rank best) eqn:E.
  - destruct (IH best); auto.
  - destruct (IH s) as [->|]; auto.
Qed.

Lemma max_by_rank_le l : forall best s, s = best \/ In s l ->
  severity_rank s <= severity_rank (max_by_rank best l).
Proof.
  induction l as [|x l IH]; intros best s Hs; simpl; [naive_solver lia|].
  destruct (severity_rank x <? severity_rank best) eqn:E.
  - apply Z.ltb_lt in E. destruct Hs as [->|[<-|Hs]]; [by apply IH; left| |by apply IH; right].
    etransitivity; [|apply (IH best); by left]. lia.
  - apply Z.ltb_ge in E. destruct Hs as [->|[<-|Hs]]; [|by apply IH; left|by apply IH; right].
    etransitivity; [|apply (IH x); by left]. lia.
Qed.

(** The reports a run of [record_sensor] leaves: the last one of each sensor. *)
Definition recorded (hs : list SensorHealth) : list SensorHealth := fold_left record_sensor hs [].

Lemma recorded_app hs h : recorded (hs ++ [h]) = record_sensor (recorded hs) h.
Proof. unfold recorded. by rewrite fold_left_app. Qed.

Lemma recorded_in hs : forall h, In h (recorded hs) <->
  exists before after, hs = before ++ h :: after
    /\ Forall (fun s => sensor_name s <> sensor_name h) after.
Proof.
  induction hs as [|x hs IH] using rev_ind; intros h.
  - split; [done|]. intros (b & a & E & _). by destruct b.
  - rewrite recorded_app. unfold record_sensor. rewrite in_app_iff, filter_In, IH. split.
    + intros [[(b & a & -> & Ha) Hn]|[->|[]]].
      * exists b, (a ++ [x]). rewrite <- app_assoc. split; [done|]. apply Forall_app; split; [done|].
        constructor; [|done]. intros E. rewrite E, String.eqb_refl in Hn. done.
      * by exists hs, [].
    + intros (b & a & E & Ha). destruct a as [|y a] using rev_ind.
      * apply app_inj_tail in E as [-> ->]. right; by left.
      * clear IHa. rewrite app_comm_cons, app_assoc in E. apply app_inj_tail in E as [-> ->].
        apply Forall_app in Ha as [Ha Hy]. left. split; [eauto|].
        apply negb_true_iff, String.eqb_neq. intros E. inversion_clear Hy. congruence.
Qed.

End Health.

(** After any sequence of sensor reports the aggregate holds exactly the last report
    of every sensor, each sensor once, and the agent's state is the worst state among
    them: it is one of the reported states (healthy when there is none) and no reported
    state ranks above it. *)
Lemma health_is_worst hs :
  let a := Health.aggregate (Health.recorded hs) in
  (forall h, In h (Health.sensors a) <->
     exists before after, hs = before ++ h :: after
       /\ Forall (fun s => Health.sensor_name s <> Health.sensor_name h) after)
  /\ NoDup (map Health.sensor_name (Health.sensors a))
  /\ (forall h, In h (Health.sensors a) ->
        Health.severity_rank (Health.state h) <= Health.severity_rank (Health.agent_state a))
  /\ (In (Health.agent_state a) (map Health.state (Health.sensors a))
      \/ hs = [] /\ Health.agent_state a = Health.Healthy).
Proof.
  simpl. split; [intros h; apply Health.recorded_in|]. split; [|split].
  - induction hs as [|x hs IH] using rev_ind; [constructor|].
    rewrite Health.recorded_app. unfold Health.record_sensor. rewrite map_app. simpl.
    apply NoDup_app. split; [|split; [|apply NoDup_singleton]].
    + revert IH. induction (Health.recorded hs) as [|y l IHl]; simpl; [constructor|].
      intros [Hy Hl]%NoDup_cons. destruct (_ =? _)%string; simpl; [by apply IHl|].
      apply NoDup_cons. split; [|by apply IHl].
      intros (z & Ez & Hz)%list_elem_of_fmap. apply list_elem_of_In, filter_In in Hz as [Hz _].
      apply Hy, list_elem_of_fmap. exists z. split; [done|]. by apply list_elem_of_In.
    + intros n (z & -> & Hz)%list_elem_of_fmap. apply list_elem_of_In, filter_In in Hz as [_ Hz].
      intros E%list_elem_of_singleton. by rewrite E, String.eqb_refl in Hz.
  - intros h Hh. destruct (map Health.state (Health.recorded hs)) as [|s l] eqn:E.
    + apply map_eq_nil in E. by rewrite E in Hh.
    + apply Health.max_by_rank_le. apply (in_map Health.state) in Hh. rewrite E in Hh.
      destruct Hh as [->|?]; auto.
  - destruct (map Health.state (Health.recorded hs)) as [|s l] eqn:E.
    + right. apply map_eq_nil in E. split; [|done].
      destruct hs as [|x hs] using rev_ind; [done|]. clear IHhs.
      rewrite Health.recorded_app in E. by apply app_eq_nil in E as [_ ?].
    + left. destruct (Health.max_by_rank_in l s) as [->|?]; simpl; auto.
Qed.
