(* ===== verification/RawEvent.v ===== *)
(** * Raw events: [crates/osiris-sensor-api/src/raw_event.rs]

    What the sensors hand to the pipeline: one record per kind of observation, with the
    fields of the source (unsigned integers as [Z]). *)

From S2P Require Import Prelude Schema Health.

Inductive RawEventSource := RAudit | RSynthetic | RProcfs | RContainerApi | RPacket | REbpf.

Record ProcessExecRaw := {
  px_pid : Z; px_ppid : Z; px_uid : Z; px_exe_path : string; px_comm : string;
  px_cmdline : list string; px_timestamp_ns : Z; px_start_time_mono : Z;
  px_source : RawEventSource }.

Record ProcessExitRaw := {
  pt_pid : Z; pt_ppid : Z; pt_uid : Z; pt_comm : string; pt_exe_path : string;
  pt_exit_code : option Z; pt_signal : option Z; pt_timestamp_ns : Z;
  pt_start_time_mono : Z; pt_source : RawEventSource }.

Inductive FileOperation := FoCreate | FoWrite | FoDelete | FoRename.

Record FileEventRaw := {
  fe_operation : FileOperation; fe_path : string; fe_previous_path : option string;
  fe_inode : option Z; fe_device_id : option Z; fe_mode : option Z;
  fe_owner_uid : option Z; fe_owner_gid : option Z;
  fe_pid : Z; fe_ppid : Z; fe_uid : Z; fe_exe_path : string; fe_comm : string;
  fe_timestamp_ns : Z; fe_audit_serial : option Z; fe_source : RawEventSource }.

Inductive NetworkOperation := NoConnect | NoAccept | NoClose.

(** [raw_event::NetworkDirection]. *)
Inductive RawNetworkDirection := RawInbound | RawOutbound.

Record NetworkEventRaw := {
  ne_operation : NetworkOperation; ne_local_addr : string; ne_local_port : Z;
  ne_remote_addr : string; ne_remote_port : Z; ne_proto : string;
  ne_direction : RawNetworkDirection; ne_pid : option Z; ne_uid : Z;
  ne_exe_path : string; ne_comm : string; ne_timestamp_ns : Z; ne_source : RawEventSource }.

Record DnsEventRaw := {
  de_query : string; de_qtype : string; de_response_ips : list string; de_ttl : option Z;
  de_pid : option Z; de_uid : Z; de_exe_path : string; de_comm : string; de_timestamp_ns : Z;
  de_source : RawEventSource }.

Inductive IdentityOperation := IoLogin | IoLogout | IoSessionStart | IoSessionEnd.
Inductive PrivilegeOperation := PoUidChange | PoGidChange | PoSudo.

Record IdentityEventRaw := {
  ie_operation : IdentityOperation; ie_session_id : string; ie_pid : Z; ie_uid : Z;
  ie_auid : option Z; ie_username : option string; ie_terminal : option string;
  ie_remote_addr : option string; ie_auth_method : option string; ie_success : bool;
  ie_exe_path : string; ie_comm : string; ie_timestamp_ns : Z; ie_audit_serial : option Z;
  ie_source : RawEventSource }.

Record PrivilegeEventRaw := {
  pv_operation : PrivilegeOperation; pv_pid : Z; pv_ppid : Z; pv_uid : Z;
  pv_gid : option Z; pv_euid : option Z; pv_egid : option Z; pv_auid : option Z;
  pv_session_id : option string; pv_username : option string;
  pv_target_uid : option Z; pv_target_gid : option Z; pv_command : option string;
  pv_success : bool; pv_exe_path : string; pv_comm : string; pv_timestamp_ns : Z;
  pv_audit_serial : option Z; pv_source : RawEventSource }.

Inductive SystemdOperation := SoStart | SoStop.

Record SystemdEventRaw := {
  sd_operation : SystemdOperation; sd_unit_name : string; sd_pid : Z; sd_uid : Z;
  sd_auid : option Z; sd_session_id : option string; sd_success : bool;
  sd_exe_path : string; sd_comm : string; sd_timestamp_ns : Z; sd_audit_serial : option Z;
  sd_source : RawEventSource }.

Inductive PersistenceCheckpointKind :=
| SystemdUnit | SystemdTimer | Cron | ShellProfile | LdPreload | Sudoers.
Inductive PersistenceOperation := PCreated | PModified | PRemoved.

Record PersistenceEventRaw := {
  pp_operation : PersistenceOperation; pp_checkpoint_kind : PersistenceCheckpointKind;
  pp_path : string; pp_content_hash : option string; pp_size : option Z;
  pp_timestamp_ns : Z; pp_source : RawEventSource }.

Inductive ContainerOperation := CoCreate | CoStart | CoStop | CoDestroy.

Record ContainerEventRaw := {
  ce_operation : ContainerOperation; ce_container_id : string; ce_image : string;
  ce_runtime : string; ce_cgroup_path : string; ce_pid : option Z;
  ce_pod_name : option string; ce_pod_namespace : option string; ce_timestamp_ns : Z;
  ce_source : RawEventSource }.

Record AgentHealthRaw := {
  ah_agent_version : string; ah_health : Health.AgentHealth; ah_timestamp_ns : Z;
  ah_policy_hash : option string }.

Inductive RawEvent :=
| RProcessExec (p : ProcessExecRaw)
| RProcessExit (p : ProcessExitRaw)
| RFile (f : FileEventRaw)
| RNetwork (n : NetworkEventRaw)
| RDns (d : DnsEventRaw)
| RIdentity (i : IdentityEventRaw)
| RPrivilege (p : PrivilegeEventRaw)
| RSystemd (s : SystemdEventRaw)
| RPersistence (p : PersistenceEventRaw)
| RContainer (c : ContainerEventRaw)
| RAgentHealth (a : AgentHealthRaw).

Definition raw_timestamp_ns (raw : RawEvent) : Z :=
  match raw with
  | RProcessExec p => px_timestamp_ns p
  | RProcessExit p => pt_timestamp_ns p
  | RFile f => fe_timestamp_ns f
  | RNetwork n => ne_timestamp_ns n
  | RDns d => de_timestamp_ns d
  | RIdentity i => ie_timestamp_ns i
  | RPrivilege p => pv_timestamp_ns p
  | RSystemd s => sd_timestamp_ns s
  | RPersistence p => pp_timestamp_ns p
  | RContainer c => ce_timestamp_ns c
  | RAgentHealth a => ah_timestamp_ns a
  end.
