(* ===== verification/DnsWire.v ===== *)
(** * DNS packets: [crates/osiris-sensors/dns/src/wire.rs], [frame.rs] and [bpf.rs]

    The wire-format parser, the IP/UDP decoder and the kernel packet filter.
    The filter is data for the kernel's classic BPF machine; an interpreter for
    the instructions it uses gives it its meaning. *)

From S2P Require Import Prelude.

(** ** Slices *)

(** [buf.get(a..b)]. *)
Definition slice (buf : list byte) (a b : nat) : option (list byte) :=
  if (a <=? b)%nat && (b <=? List.length buf)%nat then Some (take (b - a) (drop a buf)) else None.

Definition HEADER_LEN : nat := 12.
Definition MAX_NAME_LEN : Z := 255.
Definition MAX_LABEL_LEN : Z := 63.
Definition MAX_JUMPS : nat := 16.
Definition MAX_ANSWERS : nat := 64.

(** An IP address: its 4 or 16 bytes. *)
Inductive IpAddr := V4 (octets : list byte) | V6 (octets : list byte).

#[global] Instance ip_addr_eq_dec : EqDecision IpAddr.
Proof. solve_decision. Defined.

#[global] Instance ip_addr_countable : Countable IpAddr.
Proof.
  refine (inj_countable' (fun a => match a with V4 l => inl l | V6 l => inr l end)
    (fun s => match s with inl l => V4 l | inr l => V6 l end) _). by intros [].
Defined.

Record SocketAddr := { sa_ip : IpAddr; sa_port : Z }.

#[global] Instance socket_addr_eq_dec : EqDecision SocketAddr.
Proof. solve_decision. Defined.

#[global] Instance socket_addr_countable : Countable SocketAddr.
Proof.
  refine (inj_countable' (fun a => (sa_ip a, sa_port a)) (fun p => {| sa_ip := p.1; sa_port := p.2 |}) _).
  by intros [].
Defined.

(** ** [wire.rs] *)

Record Question := { q_name : string; q_type : Z }.
Record Answer := { rtype : Z; a_ttl : Z; addr : option IpAddr }.
Record DnsMessage := {
  msg_id : Z; is_response : bool; rcode : Z; question : option Question; answers : list Answer }.

Inductive WireError := Truncated | BadName | NameTooLong | TooManyJumps.

Definition read_u16 (buf : list byte) (pos : nat) : outcome WireError Z :=
  let? b := ok_or (slice buf pos (pos + 2)) Truncated in Ok (of_be b).

Definition read_u32 (buf : list byte) (pos : nat) : outcome WireError Z :=
  let? b := ok_or (slice buf pos (pos + 4)) Truncated in Ok (of_be b).

Definition to_ascii_lowercase (b : byte) : char :=
  let v := b2z b in if (65 <=? v) && (v <=? 90) then v + 32 else v.

Definition dot_char : char := 46.

(** The loop of [read_name]; [Panic] is running out of fuel. *)
Fixpoint name_loop (fuel : nat) (buf : list byte) (name : list char) (pos : nat)
    (after : option nat) (jumps : nat) (wire_len : Z) : outcome WireError (list char * nat) :=
  match fuel with
  | O => Panic
  | S fuel =>
      let? len := ok_or (buf !! pos) Truncated in
      let len := b2z len in
      if Z.land len 192 =? 0 then
        if len =? 0 then Ok (name, default (pos + 1)%nat after)
        else if MAX_LABEL_LEN <? len then Err BadName
        else
          let wire_len := wire_len + (len + 1) in
          if MAX_NAME_LEN <? wire_len then Err NameTooLong
          else
            let l := Z.to_nat len in
            let? label := ok_or (slice buf (pos + 1) (pos + 1 + l)) Truncated in
            let name := match name with [] => [] | _ => name ++ [dot_char] end in
            name_loop fuel buf (name ++ map to_ascii_lowercase label) (pos + (1 + l))%nat after jumps
              wire_len
      else if Z.land len 192 =? 192 then
        let? lo := ok_or (buf !! (pos + 1)%nat) Truncated in
        let jumps := (jumps + 1)%nat in
        if (MAX_JUMPS <? jumps)%nat then Err TooManyJumps
        else
          let after := match after with None => Some (pos + 2)%nat | Some a => Some a end in
          name_loop fuel buf name (Z.to_nat (Z.lor (Z.shiftl (Z.land len 63) 8) (b2z lo))) after jumps
            wire_len
      else Err BadName
  end.

(** Each turn spends two bytes of the name budget or one jump. *)
Definition NAME_FUEL : nat := 160.

Definition read_name (buf : list byte) (start : nat) : outcome WireError (list char * nat) :=
  name_loop NAME_FUEL buf [] start None 0 1.

(** [for i in 0..qdcount]: [n] questions left, [first] is the one kept. *)
Fixpoint read_questions (n : nat) (buf : list byte) (pos : nat) (first : option Question)
  : outcome WireError (option Question * nat) :=
  match n with
  | O => Ok (first, pos)
  | S n =>
      let? (name, next) := read_name buf pos in
      let? qtype := read_u16 buf next in
      let? _ := read_u16 buf (next + 2) in
      let q := match first with
               | None => Some {| q_name := string_of_chars name; q_type := qtype |}
               | Some q => Some q
               end in
      read_questions n buf (next + 4) q
  end.

Definition answer_addr (ty : Z) (rdata : list byte) : option IpAddr :=
  if (ty =? 1) && (List.length rdata =? 4)%nat then Some (V4 rdata)
  else if (ty =? 28) && (List.length rdata =? 16)%nat then Some (V6 rdata)
  else None.

Fixpoint read_answers (n : nat) (buf : list byte) (pos : nat) : outcome WireError (list Answer) :=
  match n with
  | O => Ok []
  | S n =>
      let? (_, next) := read_name buf pos in
      let? ty := read_u16 buf next in
      let? ttl := read_u32 buf (next + 4) in
      let? rdlen := read_u16 buf (next + 8) in
      let start := (next + 10)%nat in
      let end_ := (start + Z.to_nat rdlen)%nat in
      let? rdata := ok_or (slice buf start end_) Truncated in
      let? rest := read_answers n buf end_ in
      Ok ({| rtype := ty; a_ttl := ttl; addr := answer_addr ty rdata |} :: rest)
  end.

(** [u16::from_be_bytes([buf[i], buf[i + 1]])], with direct indexing. *)
Definition index_u16 (buf : list byte) (i : nat) : outcome WireError Z :=
  let? hi := or_panic (buf !! i) in
  let? lo := or_panic (buf !! (i + 1)%nat) in
  Ok (of_be [hi; lo]).

Definition parse_message (buf : list byte) : outcome WireError DnsMessage :=
  if (List.length buf <? HEADER_LEN)%nat then Err Truncated
  else
    let? id := index_u16 buf 0 in
    let? flags := index_u16 buf 2 in
    let? qdcount := index_u16 buf 4 in
    let? ancount := index_u16 buf 6 in
    let? (q, pos) := read_questions (Z.to_nat qdcount) buf HEADER_LEN None in
    let? ans := read_answers (Nat.min (Z.to_nat ancount) MAX_ANSWERS) buf pos in
    Ok {| msg_id := id; is_response := negb (Z.land flags 32768 =? 0); rcode := Z.land flags 15;
          question := q; answers := ans |}.

Definition qtype_mnemonic (q : Z) : string :=
  if q =? 1 then "A" else if q =? 2 then "NS" else if q =? 5 then "CNAME"
  else if q =? 6 then "SOA" else if q =? 12 then "PTR" else if q =? 15 then "MX"
  else if q =? 16 then "TXT" else if q =? 28 then "AAAA" else if q =? 33 then "SRV"
  else if q =? 64 then "SVCB" else if q =? 65 then "HTTPS" else if q =? 255 then "ANY"
  else "TYPE" +:+ dec_string q.

(** ** [frame.rs] *)

Definition PROTO_UDP : Z := 17.
Definition UDP_HEADER_LEN : nat := 8.
Definition DNS_PORT : Z := 53.

Record UdpDatagram := { ud_src : SocketAddr; ud_dst : SocketAddr; payload : list byte }.
Inductive Direction := Query | Response.

Definition be16 (b : list byte) (at_ : nat) : option Z := option_map of_be (slice b at_ (at_ + 2)).

Definition decode_udp (seg : list byte) (src dst : IpAddr) : option UdpDatagram :=
  sport ← be16 seg 0; dport ← be16 seg 2; len ← be16 seg 4;
  if (Z.to_nat len <? UDP_HEADER_LEN)%nat then None
  else
    pl ← slice seg UDP_HEADER_LEN (Z.to_nat len);
    Some {| ud_src := {| sa_ip := src; sa_port := sport |};
            ud_dst := {| sa_ip := dst; sa_port := dport |}; payload := pl |}.

Definition decode_v4 (buf : list byte) : option UdpDatagram :=
  b0 ← buf !! 0%nat;
  let hdr := (Z.to_nat (Z.land (b2z b0) 15) * 4)%nat in
  if (hdr <? 20)%nat || (List.length buf <? hdr)%nat then None
  else
    total ← be16 buf 2;
    if (Z.to_nat total <? hdr)%nat then None
    else
      frag ← be16 buf 6;
      if negb (Z.land frag 16383 =? 0)%Z then None
      else
        proto ← buf !! 9%nat;
        if negb (b2z proto =? PROTO_UDP)%Z then None
        else
          src ← slice buf 12 16; dst ← slice buf 16 20;
          seg ← slice buf hdr (Nat.min (Z.to_nat total) (List.length buf));
          decode_udp seg (V4 src) (V4 dst).

Definition decode_v6 (buf : list byte) : option UdpDatagram :=
  if (List.length buf <? 40)%nat then None
  else
    nh ← buf !! 6%nat;
    if negb (b2z nh =? PROTO_UDP) then None
    else
      plen ← be16 buf 4; src ← slice buf 8 24; dst ← slice buf 24 40;
      seg ← slice buf 40 (Nat.min (40 + Z.to_nat plen) (List.length buf));
      decode_udp seg (V6 src) (V6 dst).

Definition decode_l3 (buf : list byte) : option UdpDatagram :=
  b0 ← buf !! 0%nat;
  let v := Z.shiftr (b2z b0) 4 in
  if v =? 4 then decode_v4 buf else if v =? 6 then decode_v6 buf else None.

Definition classify (d : UdpDatagram) : option Direction :=
  if sa_port (ud_src d) =? DNS_PORT then Some Response
  else if sa_port (ud_dst d) =? DNS_PORT then Some Query
  else None.

(** ** [bpf.rs] *)

Record Insn := { code : Z; jt : nat; jf : nat; k : Z }.

Definition BPF_LD : Z := 0.
Definition BPF_LDX : Z := 1.
Definition BPF_JMP : Z := 5.
Definition BPF_RET : Z := 6.
Definition BPF_H : Z := 8.
Definition BPF_B : Z := 16.
Definition BPF_ABS : Z := 32.
Definition BPF_IND : Z := 64.
Definition BPF_MSH : Z := 160.
Definition BPF_JEQ : Z := 16.
Definition BPF_JSET : Z := 64.
Definition BPF_K : Z := 0.
(** [(SKF_AD_OFF + SKF_AD_PROTOCOL) as u32] *)
Definition AD_PROTOCOL : Z := 2 ^ 32 - 4096.
Definition ETH_P_IP : Z := 2048.
Definition ETH_P_IPV6 : Z := 34525.
Definition ACCEPT : Z := 65535.
Definition DROP : Z := 0.

Definition stmt (c k : Z) : Insn := {| code := c; jt := 0; jf := 0; k := k |}.
Definition jump (c k : Z) (t f : nat) : Insn := {| code := c; jt := t; jf := f; k := k |}.
Definition to (from to_ : nat) : nat := (to_ - from - 1)%nat.
Definition JEQ : Z := Z.lor BPF_JMP (Z.lor BPF_JEQ BPF_K).
Definition JSET : Z := Z.lor BPF_JMP (Z.lor BPF_JSET BPF_K).
Definition LD_H_ABS : Z := Z.lor BPF_LD (Z.lor BPF_H BPF_ABS).
Definition LD_B_ABS : Z := Z.lor BPF_LD (Z.lor BPF_B BPF_ABS).
Definition LD_H_IND : Z := Z.lor BPF_LD (Z.lor BPF_H BPF_IND).
Definition LDX_B_MSH : Z := Z.lor BPF_LDX (Z.lor BPF_B BPF_MSH).
Definition RET_K : Z := Z.lor BPF_RET BPF_K.
Definition L_V6 : nat := 11.
Definition L_ACCEPT : nat := 18.
Definition L_DROP : nat := 19.

Definition DNS_FILTER : list Insn :=
  [stmt LD_H_ABS AD_PROTOCOL;
   jump JEQ ETH_P_IP (to 1 2) (to 1 L_V6);
   stmt LD_B_ABS 9;
   jump JEQ 17 (to 3 4) (to 3 L_DROP);
   stmt LD_H_ABS 6;
   jump JSET 8191 (to 5 L_DROP) (to 5 6);
   stmt LDX_B_MSH 0;
   stmt LD_H_IND 0;
   jump JEQ 53 (to 8 L_ACCEPT) (to 8 9);
   stmt LD_H_IND 2;
   jump JEQ 53 (to 10 L_ACCEPT) (to 10 L_DROP);
   jump JEQ ETH_P_IPV6 (to 11 12) (to 11 L_DROP);
   stmt LD_B_ABS 6;
   jump JEQ 17 (to 13 14) (to 13 L_DROP);
   stmt LD_H_ABS 40;
   jump JEQ 53 (to 15 L_ACCEPT) (to 15 16);
   stmt LD_H_ABS 42;
   jump JEQ 53 (to 17 L_ACCEPT) (to 17 L_DROP);
   stmt RET_K ACCEPT;
   stmt RET_K DROP].

(** The kernel's classic BPF machine, for the instructions above: accumulator
    [a], index register [x]; a load outside the packet ends the program with
    verdict 0, and so does anything else it cannot run. *)
Definition load_h (pkt : list byte) (off : Z) : option Z :=
  if off <? 0 then None else be16 pkt (Z.to_nat off).

Definition load_b (pkt : list byte) (off : Z) : option Z :=
  if off <? 0 then None else option_map b2z (pkt !! Z.to_nat off).

Fixpoint bpf_run (fuel : nat) (prog : list Insn) (ethertype : Z) (pkt : list byte) (pc : nat)
    (a x : Z) : Z :=
  match fuel with
  | O => 0
  | S fuel =>
      match prog !! pc with
      | None => 0
      | Some i =>
          let next := bpf_run fuel prog ethertype pkt in
          let load o := match o with Some v => next (S pc) v x | None => 0 end in
          if code i =? RET_K then k i
          else if code i =? LD_H_ABS then
            if k i =? AD_PROTOCOL then next (S pc) ethertype x else load (load_h pkt (k i))
          else if code i =? LD_B_ABS then load (load_b pkt (k i))
          else if code i =? LD_H_IND then load (load_h pkt (x + k i))
          else if code i =? LDX_B_MSH then
            match load_b pkt (k i) with
            | Some v => next (S pc) a (4 * Z.land v 15)
            | None => 0
            end
          else if code i =? JEQ then next (S pc + (if (a =? k i)%Z then jt i else jf i))%nat a x
          else if code i =? JSET then
            next (S pc + (if negb (Z.land a (k i) =? 0)%Z then jt i else jf i))%nat a x
          else 0
      end
  end.

(** The verdict on a packet; the jumps only go forward. *)
Definition filter_packet (ethertype : Z) (pkt : list byte) : Z :=
  bpf_run (S (List.length DNS_FILTER)) DNS_FILTER ethertype pkt 0 0 0.

(** ** Facts about slices *)

Lemma slice_app (pre l post : list byte) a b :
  List.length pre = a -> b = (a + List.length l)%nat -> slice (pre ++ l ++ post) a b = Some l.
Proof.
  intros <- ->. unfold slice. rewrite !length_app.
  destruct (Nat.leb_spec (List.length pre) (List.length pre + List.length l)); [|lia].
  destruct (Nat.leb_spec (List.length pre + List.length l)
    (List.length pre + (List.length l + List.length post))); [|lia]. simpl.
  rewrite drop_app_length. f_equal. rewrite Nat.add_comm, Nat.add_sub. apply take_app_length.
Qed.

Lemma lookup_app_mid (pre post : list byte) b n : List.length pre = n -> (pre ++ b :: post) !! n = Some b.
Proof. intros <-. apply list_lookup_middle. done. Qed.

Lemma read_u16_at pre z post n :
  List.length pre = n -> fits 16 z = true -> read_u16 (pre ++ be_bytes 2 z ++ post) n = Ok z.
Proof.
  intros Hn Hz. unfold read_u16. rewrite (slice_app pre (be_bytes 2 z) post n); [|done|by rewrite length_be_bytes].
  cbn [ok_or obind]. by rewrite of_be_bytes_small.
Qed.

(** ** Names: bounds, totality and round trip *)

Lemma name_loop_total fuel : forall buf name pos after jumps wl,
  1 <= wl <= MAX_NAME_LEN -> (jumps <= MAX_JUMPS)%nat ->
  (MAX_NAME_LEN - wl) + 2 * (Z.of_nat MAX_JUMPS - Z.of_nat jumps) < 2 * Z.of_nat fuel ->
  no_panic (name_loop fuel buf name pos after jumps wl).
Proof.
  unfold MAX_NAME_LEN, MAX_JUMPS.
  induction fuel as [|fuel IH]; intros buf name pos after jumps wl Hwl Hj Hf; [lia|].
  cbn [name_loop]. apply obind_no_panic; [apply ok_or_no_panic|]. intros b _. cbv zeta.
  pose proof (b2z_range b) as Hb.
  destruct (Z.land (b2z b) 192 =? 0); [|destruct (Z.land (b2z b) 192 =? 192); [|discriminate]].
  - destruct (Z.eqb_spec (b2z b) 0); [discriminate|].
    destruct (Z.ltb_spec MAX_LABEL_LEN (b2z b)); [discriminate|].
    destruct (Z.ltb_spec MAX_NAME_LEN (wl + (b2z b + 1))) as [|Hle]; [discriminate|].
    unfold MAX_NAME_LEN in Hle.
    apply obind_no_panic; [apply ok_or_no_panic|]. intros label _. apply IH; lia.
  - apply obind_no_panic; [apply ok_or_no_panic|]. intros lo _.
    destruct (Nat.ltb_spec MAX_JUMPS (jumps + 1)) as [|Hle]; [discriminate|].
    unfold MAX_JUMPS in Hle. apply IH; lia.
Qed.

Lemma read_name_total buf pos : no_panic (read_name buf pos).
Proof. apply name_loop_total; unfold MAX_NAME_LEN, MAX_JUMPS, NAME_FUEL; lia. Qed.

Definition lowercase (c : char) : Prop := 0 <= c < 256 /\ ~ (65 <= c <= 90).

Lemma to_ascii_lowercase_ok b : lowercase (to_ascii_lowercase b).
Proof.
  unfold lowercase, to_ascii_lowercase. pose proof (b2z_range b).
  destruct (Z.leb_spec 65 (b2z b)), (Z.leb_spec (b2z b) 90); simpl; lia.
Qed.

Lemma slice_length buf a b l : slice buf a b = Some l -> List.length l = (b - a)%nat.
Proof.
  unfold slice. destruct (Nat.leb_spec a b); [|done].
  destruct (Nat.leb_spec b (List.length buf)); [|done]. intros [= <-].
  rewrite length_take, length_drop. lia.
Qed.

(** The decoded text is shorter than the wire form, by its first length byte
    and the root byte. *)
Definition name_fits (name : list char) (wl : Z) : Prop :=
  (name = [] \/ Z.of_nat (List.length name) + 2 = wl) /\ (name = [] -> wl = 1)
  /\ wl <= MAX_NAME_LEN /\ Forall lowercase name.

Lemma name_loop_bound fuel : forall buf name pos after jumps wl n next,
  name_fits name wl -> name_loop fuel buf name pos after jumps wl = Ok (n, next) ->
  (List.length n <= 253)%nat /\ Forall lowercase n.
Proof.
  induction fuel as [|fuel IH]; intros buf name pos after jumps wl n next Hn; [done|].
  cbn [name_loop]. intros (b & _ & E)%obind_ok. cbv zeta in E.
  destruct (Z.land (b2z b) 192 =? 0); [|destruct (Z.land (b2z b) 192 =? 192); [|done]].
  - pose proof (b2z_range b) as Hb.
    destruct (Z.eqb_spec (b2z b) 0).
    { injection E as <- _. destruct Hn as ([->|Hl] & _ & Hw & Hf); [simpl; split; [lia|constructor]|].
      unfold MAX_NAME_LEN in Hw. split; [lia|done]. }
    destruct (MAX_LABEL_LEN <? b2z b); [done|].
    destruct (Z.ltb_spec MAX_NAME_LEN (wl + (b2z b + 1))) as [|Hle]; [done|].
    apply obind_ok in E as (label & Hl%ok_or_ok%slice_length & E).
    eapply IH; [|exact E]. destruct Hn as (Hlen & Hnil & _ & Hf).
    assert (Forall lowercase (map to_ascii_lowercase label)) as Hlow.
    { apply Forall_map, Forall_forall. intros x _. apply to_ascii_lowercase_ok. }
    assert (Z.of_nat (List.length label) = b2z b) as Hlab by lia.
    destruct name as [|c name].
    + specialize (Hnil eq_refl) as ->. split_and!; [right| |done|done].
      * rewrite app_nil_l, length_map. lia.
      * intros Hm. apply map_eq_nil in Hm as ->. simpl in Hlab. lia.
    + destruct Hlen as [|Hlen]; [done|]. split_and!; [right| |done|].
      * rewrite !length_app, length_map. simpl in *. lia.
      * done.
      * apply Forall_app. split; [|done]. apply Forall_app. split; [done|].
        constructor; [unfold lowercase, dot_char; lia|constructor].
  - apply obind_ok in E as (lo & _ & E). destruct (MAX_JUMPS <? jumps + 1)%nat; [done|].
    by eapply IH.
Qed.

Lemma land_label n : (n < 64)%nat -> Z.land (Z.of_nat n) 192 = 0.
Proof. intros Hn. do 64 (destruct n as [|n]; [reflexivity|]). lia. Qed.

(** The uncompressed encoding of a name. *)
Definition encode_label (l : list byte) : list byte := z2b (Z.of_nat (List.length l)) :: l.
Definition encode_name (ls : list (list byte)) : list byte := flat_map encode_label ls ++ [Byte.x00].

Definition label_ok (l : list byte) : bool := (1 <=? List.length l)%nat && (List.length l <=? 63)%nat.

(** The dotted, lower-cased text, continued from [name]. *)
Definition text_from (name : list char) (ls : list (list byte)) : list char :=
  fold_left (fun acc l => match acc with [] => [] | _ => acc ++ [dot_char] end
                          ++ map to_ascii_lowercase l) ls name.

Definition name_text (ls : list (list byte)) : string := string_of_chars (text_from [] ls).

Definition wire_length (ls : list (list byte)) : Z := Z.of_nat (List.length (flat_map encode_label ls)).

Lemma label_byte l : label_ok l = true ->
  b2z (z2b (Z.of_nat (List.length l))) = Z.of_nat (List.length l)
  /\ Z.land (Z.of_nat (List.length l)) 192 = 0 /\ 1 <= Z.of_nat (List.length l) <= 63.
Proof.
  unfold label_ok. intros Hb. inv_bools Hb.
  rewrite b2z_z2b, Z.mod_small by lia. split_and!; [done|apply land_label; lia|lia|lia].
Qed.

Lemma name_loop_encoded ls : forall fuel pre post name wl,
  Forall (fun l => label_ok l = true) ls -> (List.length ls < fuel)%nat ->
  wl + wire_length ls <= MAX_NAME_LEN ->
  name_loop fuel (pre ++ encode_name ls ++ post) name (List.length pre) None 0 wl
  = Ok (text_from name ls, (List.length pre + List.length (encode_name ls))%nat).
Proof.
  unfold wire_length, encode_name.
  induction ls as [|l ls IH]; intros fuel pre post name wl Hf Hfu Hw;
    (destruct fuel as [|fuel]; [lia|]); cbn [name_loop].
  - cbn [flat_map app]. rewrite lookup_app_mid by done. done.
  - apply Forall_cons in Hf as [Hl Hf]. destruct (label_byte l Hl) as (Hb & Hand & Hlen).
    set (b := z2b (Z.of_nat (List.length l))) in *.
    set (tl := flat_map encode_label ls ++ [Byte.x00]) in *.
    assert (pre ++ (flat_map encode_label (l :: ls) ++ [Byte.x00]) ++ post = pre ++ b :: l ++ tl ++ post)
      as -> by (unfold tl; cbn [flat_map]; unfold encode_label at 1; rewrite <- !app_assoc; done).
    assert (List.length (flat_map encode_label (l :: ls)) = (1 + List.length l + List.length (flat_map encode_label ls))%nat)
      as Hcount by (cbn [flat_map]; rewrite length_app; done).
    rewrite length_app, Hcount. rewrite Hcount in Hw. cbn [List.length] in Hfu.
    rewrite lookup_app_mid by done. cbn [ok_or obind].
    rewrite Hb, Hand. change (0 =? 0) with true. cbv iota.
    destruct (Z.eqb_spec (Z.of_nat (List.length l)) 0); [lia|].
    destruct (Z.ltb_spec MAX_LABEL_LEN (Z.of_nat (List.length l))) as [Hbad|_];
      [unfold MAX_LABEL_LEN in Hbad; lia|].
    destruct (Z.ltb_spec MAX_NAME_LEN (wl + (Z.of_nat (List.length l) + 1))); [lia|].
    rewrite Nat2Z.id, (cons_middle b pre), app_assoc.
    rewrite (slice_app (pre ++ [b]) l (tl ++ post)) by (rewrite ?length_app; done).
    cbn [ok_or obind]. rewrite app_assoc.
    replace (List.length pre + (1 + List.length l))%nat
      with (List.length ((pre ++ [b]) ++ l)) by (rewrite !length_app; simpl; lia).
    rewrite IH; [|done|lia|lia]. cbn [text_from fold_left].
    f_equal. f_equal. unfold tl. rewrite !length_app. simpl. lia.
Qed.

Lemma labels_count ls :
  Forall (fun l => label_ok l = true) ls -> 2 * Z.of_nat (List.length ls) <= wire_length ls.
Proof.
  unfold wire_length. induction 1 as [|l ls Hl Hf IH]; [simpl; lia|].
  destruct (label_byte l Hl) as (_ & _ & Hlen). cbn [flat_map]. rewrite length_app.
  cbn [List.length]. unfold encode_label at 1. cbn [List.length]. lia.
Qed.

Lemma read_name_encoded ls pre post :
  Forall (fun l => label_ok l = true) ls -> wire_length ls <= 254 ->
  read_name (pre ++ encode_name ls ++ post) (List.length pre)
  = Ok (text_from [] ls, (List.length pre + List.length (encode_name ls))%nat).
Proof.
  intros Hf Hw. apply name_loop_encoded; [done| |unfold MAX_NAME_LEN; lia].
  pose proof (labels_count ls Hf). unfold NAME_FUEL. lia.
Qed.

(** A query as a resolver client sends it: the header, one question, and
    whatever follows. *)
Definition encode_query (id flags nscount arcount : Z) (ls : list (list byte)) (qtype qclass : Z)
    (rest : list byte) : list byte :=
  be_bytes 2 id ++ be_bytes 2 flags ++ be_bytes 2 1 ++ be_bytes 2 0 ++ be_bytes 2 nscount
  ++ be_bytes 2 arcount ++ encode_name ls ++ be_bytes 2 qtype ++ be_bytes 2 qclass ++ rest.

Lemma be_bytes_2 z : exists h l, be_bytes 2 z = [h; l].
Proof.
  pose proof (length_be_bytes 2 z) as Hl. destruct (be_bytes 2 z) as [|h [|l [|]]]; try done. eauto.
Qed.

Lemma index_u16_at pre z post n :
  List.length pre = n -> fits 16 z = true -> index_u16 (pre ++ be_bytes 2 z ++ post) n = Ok z.
Proof.
  intros Hn Hz. unfold index_u16. pose proof (of_be_bytes_small 2 z Hz) as Hb.
  destruct (be_bytes_2 z) as (h & l & E). rewrite E in *.
  change ([h; l] ++ post) with (h :: l :: post).
  rewrite (lookup_app_mid pre (l :: post) h n Hn). cbn [or_panic obind].
  rewrite (cons_middle _ pre), app_assoc.
  rewrite (lookup_app_mid (pre ++ [h]) post l (n + 1)); [|rewrite length_app; simpl; lia].
  cbn [or_panic obind]. by rewrite Hb.
Qed.

Lemma index_u16_total buf i :
  (i + 1 < List.length buf)%nat -> exists z, index_u16 buf i = Ok z.
Proof.
  intros Hi. unfold index_u16.
  destruct (lookup_lt_is_Some_2 buf i) as [a ->]; [lia|].
  destruct (lookup_lt_is_Some_2 buf (i + 1)%nat) as [b ->]; [lia|]. simpl. eauto.
Qed.

Lemma read_u16_total buf pos : no_panic (read_u16 buf pos).
Proof. unfold read_u16. no_panics. Qed.

Lemma read_u32_total buf pos : no_panic (read_u32 buf pos).
Proof. unfold read_u32. no_panics. Qed.

#[export] Hint Resolve read_name_total read_u16_total read_u32_total : panics.

Lemma read_questions_total n : forall buf pos q, no_panic (read_questions n buf pos q).
Proof. induction n as [|n IH]; intros buf pos q; cbn [read_questions]; no_panics; apply IH. Qed.

Lemma read_answers_total n : forall buf pos,
  no_panic (read_answers n buf pos)
  /\ forall l, read_answers n buf pos = Ok l -> List.length l = n.
Proof.
  induction n as [|n IH]; intros buf pos; cbn [read_answers].
  { split; [discriminate|]. by intros l [= <-]. }
  split; [no_panics; by apply IH|]. intros l E. inv_ok E. injection E as <-. simpl. f_equal. by eapply IH.
Qed.

Lemma read_questions_one buf pos name next qtype qclass :
  read_name buf pos = Ok (name, next) -> read_u16 buf next = Ok qtype ->
  read_u16 buf (next + 2) = Ok qclass ->
  read_questions (Z.to_nat 1) buf pos None
  = Ok (Some {| q_name := string_of_chars name; q_type := qtype |}, (next + 4)%nat).
Proof.
  intros Hn Hq Hc. change (Z.to_nat 1) with 1%nat. cbn [read_questions].
  rewrite Hn. cbn [obind]. rewrite Hq. cbn [obind]. by rewrite Hc.
Qed.

Lemma read_no_answers buf pos : read_answers (Nat.min (Z.to_nat 0) MAX_ANSWERS) buf pos = Ok [].
Proof. done. Qed.

Lemma parse_message_ok buf id fl qd an q pos l :
  (HEADER_LEN <= List.length buf)%nat ->
  index_u16 buf 0 = Ok id -> index_u16 buf 2 = Ok fl -> index_u16 buf 4 = Ok qd ->
  index_u16 buf 6 = Ok an -> read_questions (Z.to_nat qd) buf HEADER_LEN None = Ok (q, pos) ->
  read_answers (Nat.min (Z.to_nat an) MAX_ANSWERS) buf pos = Ok l ->
  parse_message buf = Ok {| msg_id := id; is_response := negb (Z.land fl 32768 =? 0);
    rcode := Z.land fl 15; question := q; answers := l |}.
Proof.
  intros Hl H0 H2 H4 H6 Hq Ha. unfold parse_message.
  destruct (Nat.ltb_spec (List.length buf) HEADER_LEN); [lia|].
  rewrite H0. cbn [obind]. rewrite H2. cbn [obind]. rewrite H4. cbn [obind]. rewrite H6. cbn [obind].
  rewrite Hq. cbn [obind]. by rewrite Ha.
Qed.

Section Query.
Context (id flags ns ar : Z) (ls : list (list byte)) (qtype qclass : Z) (rest : list byte).

Definition query_head : list byte :=
  be_bytes 2 id ++ be_bytes 2 flags ++ be_bytes 2 1 ++ be_bytes 2 0 ++ be_bytes 2 ns ++ be_bytes 2 ar.

Lemma query_head_length : List.length query_head = HEADER_LEN.
Proof. unfold query_head. by rewrite !length_app, !length_be_bytes. Qed.

Lemma query_split post : query_head ++ post
  = be_bytes 2 id ++ be_bytes 2 flags ++ be_bytes 2 1 ++ be_bytes 2 0
    ++ (be_bytes 2 ns ++ be_bytes 2 ar ++ post).
Proof. unfold query_head. by rewrite <- !app_assoc. Qed.

Lemma encode_query_split :
  encode_query id flags ns ar ls qtype qclass rest
  = query_head ++ encode_name ls ++ be_bytes 2 qtype ++ be_bytes 2 qclass ++ rest.
Proof. unfold encode_query, query_head. by rewrite <- !app_assoc. Qed.

Lemma query_header :
  fits 16 id = true -> fits 16 flags = true ->
  let buf := encode_query id flags ns ar ls qtype qclass rest in
  (HEADER_LEN <= List.length buf)%nat
  /\ index_u16 buf 0 = Ok id /\ index_u16 buf 2 = Ok flags /\ index_u16 buf 4 = Ok 1
  /\ index_u16 buf 6 = Ok 0.
Proof.
  intros Hid Hfl buf. unfold buf. rewrite encode_query_split.
  split; [rewrite length_app, query_head_length; lia|]. rewrite query_split.
  set (more := be_bytes 2 ns ++ _). split_and!.
  - by apply (index_u16_at []).
  - apply index_u16_at; [apply length_be_bytes|done].
  - rewrite (app_assoc (be_bytes 2 id)). apply index_u16_at; [by rewrite length_app, !length_be_bytes|done].
  - rewrite (app_assoc (be_bytes 2 id)), (app_assoc (_ ++ _)).
    apply index_u16_at; [by rewrite !length_app, !length_be_bytes|done].
Qed.

Lemma query_question :
  Forall (fun l => label_ok l = true) ls -> wire_length ls <= 254 ->
  fits 16 qtype = true -> fits 16 qclass = true ->
  let buf := encode_query id flags ns ar ls qtype qclass rest in
  read_questions (Z.to_nat 1) buf HEADER_LEN None
  = Ok (Some {| q_name := name_text ls; q_type := qtype |},
        (HEADER_LEN + List.length (encode_name ls) + 4)%nat).
Proof.
  intros Hl Hw Hqt Hqc buf. unfold buf. rewrite encode_query_split, <- query_head_length.
  apply (read_questions_one _ _ _ _ qtype qclass).
  - by apply read_name_encoded.
  - rewrite (app_assoc query_head). apply read_u16_at; [by rewrite length_app|done].
  - rewrite (app_assoc query_head), (app_assoc (query_head ++ _)).
    apply read_u16_at; [|done]. rewrite !length_app, length_be_bytes. lia.
Qed.
End Query.

(** ** One instruction at a time *)

Section Steps.
Context (prog : list Insn) (et : Z) (pkt : list byte) (f pc : nat) (a x : Z).

Lemma run_ret v : prog !! pc = Some (stmt RET_K v) -> bpf_run (S f) prog et pkt pc a x = v.
Proof. intros E. cbn [bpf_run]. by rewrite E. Qed.

Lemma run_ethertype : prog !! pc = Some (stmt LD_H_ABS AD_PROTOCOL) ->
  bpf_run (S f) prog et pkt pc a x = bpf_run f prog et pkt (S pc) et x.
Proof. intros E. cbn [bpf_run]. by rewrite E. Qed.

Lemma run_ld_h off : prog !! pc = Some (stmt LD_H_ABS off) -> (off =? AD_PROTOCOL) = false ->
  bpf_run (S f) prog et pkt pc a x =
  match load_h pkt off with Some v => bpf_run f prog et pkt (S pc) v x | None => 0 end.
Proof. intros E Ho. cbn [bpf_run]. rewrite E. cbn [stmt code k]. by rewrite Ho. Qed.

Lemma run_ld_b off : prog !! pc = Some (stmt LD_B_ABS off) ->
  bpf_run (S f) prog et pkt pc a x =
  match load_b pkt off with Some v => bpf_run f prog et pkt (S pc) v x | None => 0 end.
Proof. intros E. cbn [bpf_run]. by rewrite E. Qed.

Lemma run_ld_ind off : prog !! pc = Some (stmt LD_H_IND off) ->
  bpf_run (S f) prog et pkt pc a x =
  match load_h pkt (x + off) with Some v => bpf_run f prog et pkt (S pc) v x | None => 0 end.
Proof. intros E. cbn [bpf_run]. by rewrite E. Qed.

Lemma run_msh off : prog !! pc = Some (stmt LDX_B_MSH off) ->
  bpf_run (S f) prog et pkt pc a x =
  match load_b pkt off with
  | Some v => bpf_run f prog et pkt (S pc) a (4 * Z.land v 15)
  | None => 0
  end.
Proof. intros E. cbn [bpf_run]. by rewrite E. Qed.

Lemma run_jeq v t fl : prog !! pc = Some (jump JEQ v t fl) ->
  bpf_run (S f) prog et pkt pc a x =
  if a =? v then bpf_run f prog et pkt (S pc + t) a x else bpf_run f prog et pkt (S pc + fl) a x.
Proof. intros E. cbn [bpf_run]. rewrite E. cbn [jump code k jt jf]. by destruct (a =? v). Qed.

Lemma run_jset v t fl : prog !! pc = Some (jump JSET v t fl) ->
  bpf_run (S f) prog et pkt pc a x =
  if negb (Z.land a v =? 0) then bpf_run f prog et pkt (S pc + t) a x
  else bpf_run f prog et pkt (S pc + fl) a x.
Proof. intros E. cbn [bpf_run]. rewrite E. cbn [jump code k jt jf]. by destruct (negb _). Qed.
End Steps.

(** ** The filter, unfolded *)

Lemma filter_v4 pkt :
  filter_packet ETH_P_IP pkt =
  match load_b pkt 9 with
  | Some p =>
      if p =? 17 then
        match load_h pkt 6 with
        | Some fr =>
            if negb (Z.land fr 8191 =? 0) then DROP
            else match load_b pkt 0 with
                 | Some v =>
                     match load_h pkt (4 * Z.land v 15 + 0) with
                     | Some sp =>
                         if sp =? 53 then ACCEPT
                         else match load_h pkt (4 * Z.land v 15 + 2) with
                              | Some dp => if dp =? 53 then ACCEPT else DROP
                              | None => 0
                              end
                     | None => 0
                     end
                 | None => 0
                 end
        | None => 0
        end
      else DROP
  | None => 0
  end.
Proof.
  unfold filter_packet. change (S (List.length DNS_FILTER)) with 21%nat.
  rewrite run_ethertype by done. rewrite (run_jeq _ _ _ _ _ _ _ ETH_P_IP (to 1 2) (to 1 L_V6)) by done.
  change (ETH_P_IP =? ETH_P_IP) with true. cbv iota.
  rewrite (run_ld_b _ _ _ _ _ _ _ 9) by done. destruct (load_b pkt 9) as [p|]; [|done].
  rewrite (run_jeq _ _ _ _ _ _ _ 17 (to 3 4) (to 3 L_DROP)) by done. destruct (p =? 17); [|done].
  rewrite (run_ld_h _ _ _ _ _ _ _ 6) by done. destruct (load_h pkt 6) as [fr|]; [|done].
  rewrite (run_jset _ _ _ _ _ _ _ 8191 (to 5 L_DROP) (to 5 6)) by done. destruct (negb _); [done|].
  rewrite (run_msh _ _ _ _ _ _ _ 0) by done. destruct (load_b pkt 0) as [v|]; [|done].
  rewrite (run_ld_ind _ _ _ _ _ _ _ 0) by done. destruct (load_h pkt _) as [sp|]; [|done].
  rewrite (run_jeq _ _ _ _ _ _ _ 53 (to 8 L_ACCEPT) (to 8 9)) by done. destruct (sp =? 53); [done|].
  rewrite (run_ld_ind _ _ _ _ _ _ _ 2) by done. destruct (load_h pkt _) as [dp|]; [|done].
  rewrite (run_jeq _ _ _ _ _ _ _ 53 (to 10 L_ACCEPT) (to 10 L_DROP)) by done. by destruct (dp =? 53).
Qed.

Lemma filter_v6 pkt :
  filter_packet ETH_P_IPV6 pkt =
  match load_b pkt 6 with
  | Some p =>
      if p =? 17 then
        match load_h pkt 40 with
        | Some sp =>
            if sp =? 53 then ACCEPT
            else match load_h pkt 42 with
                 | Some dp => if dp =? 53 then ACCEPT else DROP
                 | None => 0
                 end
        | None => 0
        end
      else DROP
  | None => 0
  end.
Proof.
  unfold filter_packet. change (S (List.length DNS_FILTER)) with 21%nat.
  rewrite run_ethertype by done. rewrite (run_jeq _ _ _ _ _ _ _ ETH_P_IP (to 1 2) (to 1 L_V6)) by done.
  change (ETH_P_IPV6 =? ETH_P_IP) with false. cbv iota.
  rewrite (run_jeq _ _ _ _ _ _ _ ETH_P_IPV6 (to 11 12) (to 11 L_DROP)) by done.
  change (ETH_P_IPV6 =? ETH_P_IPV6) with true. cbv iota.
  rewrite (run_ld_b _ _ _ _ _ _ _ 6) by done. destruct (load_b pkt 6) as [p|]; [|done].
  rewrite (run_jeq _ _ _ _ _ _ _ 17 (to 13 14) (to 13 L_DROP)) by done. destruct (p =? 17); [|done].
  rewrite (run_ld_h _ _ _ _ _ _ _ 40) by done. destruct (load_h pkt 40) as [sp|]; [|done].
  rewrite (run_jeq _ _ _ _ _ _ _ 53 (to 15 L_ACCEPT) (to 15 16)) by done. destruct (sp =? 53); [done|].
  rewrite (run_ld_h _ _ _ _ _ _ _ 42) by done. destruct (load_h pkt 42) as [dp|]; [|done].
  rewrite (run_jeq _ _ _ _ _ _ _ 53 (to 17 L_ACCEPT) (to 17 L_DROP)) by done. by destruct (dp =? 53).
Qed.

Lemma slice_slice buf a b seg i j l :
  slice buf a b = Some seg -> slice seg i j = Some l -> slice buf (a + i) (a + j) = Some l.
Proof.
  unfold slice. destruct (Nat.leb_spec a b); [|done].
  destruct (Nat.leb_spec b (List.length buf)); [|done]. intros [= <-].
  rewrite length_take, length_drop.
  destruct (Nat.leb_spec i j); [|done]. destruct (Nat.leb_spec j (Nat.min (b - a) (List.length buf - a))); [|done].
  intros [= <-]. destruct (Nat.leb_spec (a + i) (a + j)); [|lia].
  destruct (Nat.leb_spec (a + j) (List.length buf)); [|lia]. simpl. f_equal.
  rewrite <- drop_drop. rewrite skipn_firstn_comm, take_take. f_equal. lia.
Qed.

Lemma be16_slice buf a b seg i z :
  slice buf a b = Some seg -> be16 seg i = Some z -> be16 buf (a + i) = Some z.
Proof.
  unfold be16. intros Hs Hz. destruct (slice seg i (i + 2)) as [l|] eqn:E; [|done].
  rewrite <- Nat.add_assoc. by rewrite (slice_slice _ _ _ _ _ _ _ Hs E).
Qed.

Lemma decode_udp_ports seg src dst d :
  decode_udp seg src dst = Some d ->
  be16 seg 0 = Some (sa_port (ud_src d)) /\ be16 seg 2 = Some (sa_port (ud_dst d)).
Proof.
  unfold decode_udp. destruct (be16 seg 0) as [s|]; [|done]. destruct (be16 seg 2) as [t|]; [|done].
  cbn [mbind option_bind]. destruct (be16 seg 4) as [n|]; [|done]. cbn [mbind option_bind].
  destruct (Z.to_nat n <? UDP_HEADER_LEN)%nat; [done|].
  destruct (slice seg UDP_HEADER_LEN (Z.to_nat n)); [|done]. by intros [= <-].
Qed.

Lemma load_b_at buf n b : buf !! n = Some b -> load_b buf (Z.of_nat n) = Some (b2z b).
Proof.
  intros E. unfold load_b. destruct (Z.ltb_spec (Z.of_nat n) 0); [lia|]. by rewrite Nat2Z.id, E.
Qed.

Lemma decode_v4_facts buf d :
  decode_v4 buf = Some d ->
  exists b0 fr, load_b buf 0 = Some (b2z b0) /\ load_b buf 9 = Some 17 /\ load_h buf 6 = Some fr
    /\ Z.land fr 8191 = 0
    /\ load_h buf (4 * Z.land (b2z b0) 15 + 0) = Some (sa_port (ud_src d))
    /\ load_h buf (4 * Z.land (b2z b0) 15 + 2) = Some (sa_port (ud_dst d)).
Proof.
  unfold decode_v4. destruct (buf !! 0%nat) as [b0|] eqn:E0; [|done]. cbn [mbind option_bind]. cbv zeta.
  set (hdr := (Z.to_nat (Z.land (b2z b0) 15) * 4)%nat).
  destruct ((hdr <? 20)%nat || _); [done|].
  destruct (be16 buf 2) as [total|]; [|done]. cbn [mbind option_bind].
  destruct (Z.to_nat total <? hdr)%nat; [done|].
  destruct (be16 buf 6) as [fr|] eqn:E6; [|done]. cbn [mbind option_bind].
  destruct (Z.eqb_spec (Z.land fr 16383) 0) as [Hfr|]; [|done]. cbn [negb].
  destruct (buf !! 9%nat) as [p|] eqn:E9; [|done]. cbn [mbind option_bind].
  destruct (Z.eqb_spec (b2z p) PROTO_UDP) as [Hp|]; [|done]. cbn [negb].
  destruct (slice buf 12 16); [|done]. cbn [mbind option_bind].
  destruct (slice buf 16 20); [|done]. cbn [mbind option_bind].
  destruct (slice buf hdr _) as [seg|] eqn:Es; [|done]. cbn [mbind option_bind].
  intros [Hs Hd]%decode_udp_ports.
  assert (0 <= Z.land (b2z b0) 15) as Hpos by (apply Z.land_nonneg; right; lia).
  exists b0, fr. unfold load_h.
  assert (forall i z, be16 seg i = Some z ->
    (if 4 * Z.land (b2z b0) 15 + Z.of_nat i <? 0 then None
     else be16 buf (Z.to_nat (4 * Z.land (b2z b0) 15 + Z.of_nat i))) = Some z) as Hport.
  { intros i z Hz. destruct (Z.ltb_spec (4 * Z.land (b2z b0) 15 + Z.of_nat i) 0); [lia|].
    replace (Z.to_nat (4 * Z.land (b2z b0) 15 + Z.of_nat i)) with (hdr + i)%nat by (unfold hdr; lia).
    by apply (be16_slice _ _ _ _ _ _ Es). }
  split_and!.
  - exact (load_b_at _ 0 _ E0).
  - change 17 with PROTO_UDP. rewrite <- Hp. exact (load_b_at _ 9 _ E9).
  - exact E6.
  - replace (Z.land fr 8191) with (Z.land (Z.land fr 16383) 8191) by (rewrite <- Z.land_assoc; done).
    by rewrite Hfr.
  - exact (Hport 0%nat _ Hs).
  - exact (Hport 2%nat _ Hd).
Qed.

Lemma decode_v6_facts buf d :
  decode_v6 buf = Some d ->
  load_b buf 6 = Some 17 /\ load_h buf 40 = Some (sa_port (ud_src d))
  /\ load_h buf 42 = Some (sa_port (ud_dst d)).
Proof.
  unfold decode_v6. destruct (List.length buf <? 40)%nat; [done|].
  destruct (buf !! 6%nat) as [p|] eqn:E6; [|done]. cbn [mbind option_bind].
  destruct (Z.eqb_spec (b2z p) PROTO_UDP) as [Hp|]; [|done]. cbn [negb].
  destruct (be16 buf 4) as [plen|]; [|done]. cbn [mbind option_bind].
  destruct (slice buf 8 24); [|done]. cbn [mbind option_bind].
  destruct (slice buf 24 40); [|done]. cbn [mbind option_bind].
  destruct (slice buf 40 _) as [seg|] eqn:Es; [|done]. cbn [mbind option_bind].
  intros [Hs Hd]%decode_udp_ports. unfold load_h. split_and!.
  - change 17 with PROTO_UDP. rewrite <- Hp. exact (load_b_at _ 6 _ E6).
  - exact (be16_slice _ _ _ _ _ _ Es Hs).
  - exact (be16_slice _ _ _ _ _ _ Es Hd).
Qed.

Lemma read_name_bound buf pos name next :
  read_name buf pos = Ok (name, next) -> (List.length name <= 253)%nat /\ Forall lowercase name.
Proof.
  unfold read_name. generalize NAME_FUEL. intros fuel Hn.
  apply (name_loop_bound fuel buf [] pos None 0 1 name next); [|exact Hn].
  split_and!; [by left|done|unfold MAX_NAME_LEN; lia|constructor].
Qed.

Lemma parse_message_safe buf :
  match parse_message buf with
  | Ok m => (List.length (answers m) <= 64)%nat
  | Err _ => True
  | Panic => False
  end.
Proof.
  unfold parse_message. destruct (Nat.ltb_spec (List.length buf) HEADER_LEN) as [|Hl]; [done|].
  unfold HEADER_LEN in Hl.
  destruct (index_u16_total buf 0) as [i ->]; [lia|]. destruct (index_u16_total buf 2) as [fl ->]; [lia|].
  destruct (index_u16_total buf 4) as [q ->]; [lia|]. destruct (index_u16_total buf 6) as [n ->]; [lia|].
  cbn [obind].
  pose proof (read_questions_total (Z.to_nat q) buf HEADER_LEN None) as Hq.
  destruct (read_questions (Z.to_nat q) buf HEADER_LEN None) as [[qs pos]|e|]; [|done|by apply Hq].
  cbn [obind].
  destruct (read_answers_total (Nat.min (Z.to_nat n) MAX_ANSWERS) buf pos) as [Ha Hc].
  revert Ha Hc. generalize (read_answers (Nat.min (Z.to_nat n) MAX_ANSWERS) buf pos).
  intros [l|e|] Ha Hc; [|done|by apply Ha]. cbn [obind answers].
  rewrite (Hc l eq_refl). apply Nat.le_min_r.
Qed.

(** The EtherType the kernel reports for a packet of this IP version. *)
Definition ethertype_of (buf : list byte) : Z :=
  match buf !! 0%nat with
  | Some b => if Z.shiftr (b2z b) 4 =? 4 then ETH_P_IP else ETH_P_IPV6
  | None => 0
  end.

(** ** Properties *)

(** The kernel filter and the user-space decoder agree: of the packets the
    decoder can decode, the filter lets through exactly those it classifies as
    DNS traffic, so no DNS packet is lost in the kernel and no other decodable
    packet reaches the sensor. *)
Lemma dns_filter_agrees buf d :
  decode_l3 buf = Some d ->
  filter_packet (ethertype_of buf) buf = ACCEPT <-> classify d <> None.
Proof.
  unfold decode_l3, ethertype_of. destruct (buf !! 0%nat) as [b0|] eqn:E0; [|done].
  cbn [mbind option_bind]. cbv zeta. unfold classify, DNS_PORT.
  destruct (Z.shiftr (b2z b0) 4 =? 4).
  - intros (b & fr & F0 & F9 & F6 & Ffr & Fs & Fd)%decode_v4_facts.
    rewrite filter_v4, F9, F6, Ffr, F0, Fs, Fd. simpl.
    destruct (sa_port (ud_src d) =? 53), (sa_port (ud_dst d) =? 53); split; done.
  - destruct (Z.shiftr (b2z b0) 4 =? 6); [|done]. intros (F6 & Fs & Fd)%decode_v6_facts.
    rewrite filter_v6, F6, Fs, Fd. simpl.
    destruct (sa_port (ud_src d) =? 53), (sa_port (ud_dst d) =? 53); split; done.
Qed.

(** A 28-byte IPv4/UDP packet from port 53 to port 1000. *)
Definition example_packet : list byte :=
  map z2b [69; 0; 0; 28; 0; 0; 0; 0; 64; 17; 0; 0; 10; 0; 0; 1; 10; 0; 0; 2;
           0; 53; 3; 232; 0; 8; 0; 0].

Lemma dns_filter_agrees_witness :
  match decode_l3 example_packet with
  | Some d => filter_packet (ethertype_of example_packet) example_packet = ACCEPT
              <-> classify d <> None
  | None => False
  end.
Proof.
  destruct (decode_l3 example_packet) as [d|] eqn:E.
  - exact (dns_filter_agrees example_packet d E).
  - vm_compute in E. discriminate E.
Defined.

(** The message parser is total on untrusted bytes: it never panics or
    loops, keeps at most 64 answers, and a name it returns has at most 253
    characters and no upper-case ASCII letters. *)
Lemma parse_message_total buf :
  match parse_message buf with
  | Ok m => (List.length (answers m) <= 64)%nat
  | Err _ => True
  | Panic => False
  end
  /\ forall pos name next, read_name buf pos = Ok (name, next) ->
       (List.length name <= 253)%nat /\ Forall lowercase name.
Proof.
  split; [apply parse_message_safe|apply read_name_bound].
Qed.

(** A well-formed query survives the wire: any name of legal labels, with
    any header flags and whatever follows the question, parses back to its
    lower-cased text, type, id and flags. *)
Lemma query_roundtrip id flags ns ar ls qtype qclass rest :
  Forall (fun z => fits 16 z = true) [id; flags; qtype; qclass] ->
  Forall (fun l => label_ok l = true) ls -> wire_length ls <= 254 ->
  parse_message (encode_query id flags ns ar ls qtype qclass rest) =
  Ok {| msg_id := id; is_response := negb (Z.land flags 32768 =? 0); rcode := Z.land flags 15;
        question := Some {| q_name := name_text ls; q_type := qtype |}; answers := [] |}.
Proof.
  intros Hz Hl Hw. apply Forall_cons in Hz as [Hid Hz]. apply Forall_cons in Hz as [Hfl Hz].
  apply Forall_cons in Hz as [Hqt Hz]. apply Forall_cons in Hz as [Hqc _].
  destruct (query_header id flags ns ar ls qtype qclass rest Hid Hfl) as (Hlen & H0 & H2 & H4 & H6).
  exact (parse_message_ok _ _ _ _ _ _ _ _ Hlen H0 H2 H4 H6
           (query_question id flags ns ar ls qtype qclass rest Hl Hw Hqt Hqc) (read_no_answers _ _)).
Qed.

Lemma query_roundtrip_witness :
  parse_message (encode_query 4660 256 0 0 [bytes_of "WWW"; bytes_of "example"] 1 1 []) =
  Ok {| msg_id := 4660; is_response := false; rcode := 0;
        question := Some {| q_name := "www.example"; q_type := 1 |}; answers := [] |}.
Proof.
  apply (query_roundtrip 4660 256 0 0 [bytes_of "WWW"; bytes_of "example"] 1 1 []);
    [repeat constructor|repeat constructor|vm_compute; discriminate].
Defined.
