(* ===== verification/DnsTracker.v ===== *)
(** * The DNS transaction tracker: [crates/osiris-sensors/dns/src/tracker.rs]

    The tracker keeps a hash map of pending transactions and, beside it, their
    insertion order.  The specification is one queue; the refinement theorem says
    the two structures together behave like it. *)

From S2P Require Import Prelude RawEvent DnsWire.

(** ** [IpAddr::to_string] *)

Definition hex_digit_char (n : Z) : char := if n <? 10 then 48 + n else 87 + n.

(** [{:x}] of a [u16]. *)
Definition hex_u16 (n : Z) : list char :=
  let ds := [n / 4096; n / 256 mod 16; n / 16 mod 16; n mod 16] in
  (fix strip l := match l with
                  | [d] => [hex_digit_char d]
                  | d :: l' => if d =? 0 then strip l' else map hex_digit_char l
                  | [] => []
                  end) ds.

Definition colon : char := 58.

Fixpoint join_hex (l : list Z) : list char :=
  match l with
  | [] => []
  | [x] => hex_u16 x
  | x :: l => hex_u16 x ++ colon :: join_hex l
  end.

Fixpoint segments (l : list byte) : list Z :=
  match l with
  | a :: b :: l => of_be [a; b] :: segments l
  | _ => []
  end.

(** The first longest run of zero segments, as (start, length). *)
Fixpoint longest_zeros (l : list Z) (i : nat) (cur best : nat * nat) : nat * nat :=
  match l with
  | [] => best
  | x :: l =>
      if x =? 0 then
        let cur := if (snd cur =? 0)%nat then (i, 1%nat) else (fst cur, S (snd cur)) in
        longest_zeros l (S i) cur (if (snd best <? snd cur)%nat then cur else best)
      else longest_zeros l (S i) (0%nat, 0%nat) best
  end.

Definition v4_text (l : list byte) : list char :=
  match l with
  | [a; b; c; d] =>
      let t x := map b2z (dec_bytes (b2z x)) in
      t a ++ dot_char :: t b ++ dot_char :: t c ++ dot_char :: t d
  | _ => []
  end.

Definition v6_text (l : list byte) : list char :=
  let segs := segments l in
  if bool_decide (take 5 segs = [0; 0; 0; 0; 0]) && bool_decide (segs !! 5%nat = Some 65535) then
    chars "::ffff:" ++ v4_text (drop 12 l)
  else
    let '(start, len) := longest_zeros segs 0 (0%nat, 0%nat) (0%nat, 0%nat) in
    if (1 <? len)%nat then
      join_hex (take start segs) ++ [colon; colon] ++ join_hex (drop (start + len) segs)
    else join_hex segs.

Definition ip_to_string (a : IpAddr) : string :=
  string_of_chars (match a with V4 l => v4_text l | V6 l => v6_text l end).

(** ** Data *)

Definition TYPE_A : Z := 1.
Definition TYPE_AAAA : Z := 28.

Record TxKey := { tx_client : SocketAddr; tx_server : IpAddr; tx_id : Z }.

#[global] Instance tx_key_eq_dec : EqDecision TxKey.
Proof. solve_decision. Defined.

#[global] Instance tx_key_countable : Countable TxKey.
Proof.
  refine (inj_countable' (fun k => (tx_client k, tx_server k, tx_id k))
    (fun p => {| tx_client := p.1.1; tx_server := p.1.2; tx_id := p.2 |}) _). by intros [].
Defined.

Record Attribution := {
  at_pid : option Z; at_uid : Z; at_exe_path : string; at_comm : string }.

Record TrackerCounters := {
  timeouts : Z; unmatched_responses : Z; overflow_evictions : Z; duplicates : Z }.

(** [SendKey] and [ClaimId] of [send_table.rs]. *)
Record SendKey := { lport : Z; raddr : IpAddr; rport : Z }.

Record PendingAttribution := {
  pa_key : SendKey; pa_laddr : IpAddr; packet_ts_ns : Z; claim : Z }.

Inductive CloseKind := ByResponse | Timeout | Evicted.

Record Closed := {
  event : DnsEventRaw; close_kind : CloseKind; client : SocketAddr;
  closed_pending : option PendingAttribution }.

(** [Instant] and [Duration] are integers on a clock without overflow. *)
Record Pending := {
  seq : Z; deadline : Z; p_client : SocketAddr; query : string; qtype : string;
  attribution : Attribution; owed : option PendingAttribution; timestamp_ns : Z }.

Definition close (p : Pending) (kind : CloseKind) (ips : list string) (ttl : option Z) : Closed :=
  {| event := {| de_query := query p; de_qtype := qtype p; de_response_ips := ips; de_ttl := ttl;
                 de_pid := at_pid (attribution p); de_uid := at_uid (attribution p);
                 de_exe_path := at_exe_path (attribution p); de_comm := at_comm (attribution p);
                 de_timestamp_ns := timestamp_ns p;
                 de_source := RPacket |};
     close_kind := kind; client := p_client p; closed_pending := owed p |}.

Record Tracker := {
  timeout : Z; capacity : nat; pending : gmap TxKey Pending; order : list (Z * TxKey);
  next_seq : Z; counters : TrackerCounters }.

(** ** Operations *)

Definition tracker_new (timeout : Z) (capacity : nat) : Tracker :=
  {| timeout := timeout; capacity := Nat.max capacity 1; pending := ∅; order := [];
     next_seq := 0;
     counters := {| timeouts := 0; unmatched_responses := 0; overflow_evictions := 0;
                    duplicates := 0 |} |}.

Definition contains (t : Tracker) (key : TxKey) : bool :=
  match pending t !! key with Some _ => true | None => false end.

Definition update (t : Tracker) (pend : gmap TxKey Pending) (ord : list (Z * TxKey)) (next : Z)
    (c : TrackerCounters) : Tracker :=
  {| timeout := timeout t; capacity := capacity t; pending := pend; order := ord;
     next_seq := next; counters := c |}.

Definition bump (c : TrackerCounters) (dt du dov dd : Z) : TrackerCounters :=
  {| timeouts := timeouts c + dt; unmatched_responses := unmatched_responses c + du;
     overflow_evictions := overflow_evictions c + dov; duplicates := duplicates c + dd |}.

Definition set_attribution (p : Pending) (a : Attribution) : Pending :=
  {| seq := seq p; deadline := deadline p; p_client := p_client p; query := query p;
     qtype := qtype p; attribution := a; owed := None; timestamp_ns := timestamp_ns p |}.

Definition resolve_pending (t : Tracker) (key : TxKey) (a : Attribution)
  : option PendingAttribution * Tracker :=
  match pending t !! key with
  | Some p =>
      match owed p with
      | Some o => (Some o, update t (<[key := set_attribution p a]> (pending t)) (order t)
                             (next_seq t) (counters t))
      | None => (None, t)
      end
  | None => (None, t)
  end.

(** [BTreeMap::insert]. *)
Fixpoint order_insert (s : Z) (k : TxKey) (l : list (Z * TxKey)) : list (Z * TxKey) :=
  match l with
  | [] => [(s, k)]
  | (s', k') :: l =>
      if s <? s' then (s, k) :: (s', k') :: l
      else if s =? s' then (s, k) :: l
      else (s', k') :: order_insert s k l
  end.

Definition order_remove (s : Z) (l : list (Z * TxKey)) : list (Z * TxKey) :=
  List.filter (fun x => negb (fst x =? s)) l.

(** Making room: the oldest transaction is evicted when the table is full. *)
Definition evict (t : Tracker) : option Closed * Tracker :=
  if (capacity t <=? size (pending t))%nat then
    match order t with
    | (_, oldest) :: rest =>
        match pending t !! oldest with
        | Some p =>
            (Some (close p Evicted [] None),
             update t (delete oldest (pending t)) rest (next_seq t) (bump (counters t) 0 0 1 0))
        | None => (None, update t (pending t) rest (next_seq t) (counters t))
        end
    | [] => (None, t)
    end
  else (None, t).

Definition mk_pending (t : Tracker) (key : TxKey) (q : Question) (a : Attribution)
    (o : option PendingAttribution) (ts now : Z) : Pending :=
  {| seq := next_seq t; deadline := now + timeout t; p_client := tx_client key;
     query := q_name q; qtype := qtype_mnemonic (q_type q); attribution := a; owed := o;
     timestamp_ns := ts |}.

Definition on_query (t : Tracker) (key : TxKey) (msg : DnsMessage) (a : Attribution)
    (o : option PendingAttribution) (ts now : Z) : option Closed * Tracker :=
  match question msg with
  | None => (None, t)
  | Some q =>
      if contains t key then
        (None, update t (pending t) (order t) (next_seq t) (bump (counters t) 0 0 0 1))
      else
        let '(evicted, t) := evict t in
        (evicted,
         update t (<[key := mk_pending t key q a o ts now]> (pending t))
           (order_insert (next_seq t) key (order t)) (next_seq t + 1) (counters t))
  end.

(** The addresses and the smallest TTL of the answers. *)
Fixpoint collect_answers (l : list Answer) (ips : list string) (ttl : option Z)
  : list string * option Z :=
  match l with
  | [] => (ips, ttl)
  | a :: l =>
      if negb (rtype a =? TYPE_A) && negb (rtype a =? TYPE_AAAA) then collect_answers l ips ttl
      else match addr a with
           | Some x => collect_answers l (ips ++ [ip_to_string x])
                         (Some (match ttl with Some t => Z.min t (a_ttl a) | None => a_ttl a end))
           | None => collect_answers l ips ttl
           end
  end.

Definition on_response (t : Tracker) (key : TxKey) (msg : DnsMessage) : option Closed * Tracker :=
  match pending t !! key with
  | None => (None, update t (pending t) (order t) (next_seq t) (bump (counters t) 0 1 0 0))
  | Some p =>
      let '(ips, ttl) := collect_answers (answers msg) [] None in
      (Some (close p ByResponse ips ttl),
       update t (delete key (pending t)) (order_remove (seq p) (order t)) (next_seq t) (counters t))
  end.

(** [order.into_values().filter_map(|key| pending.remove(&key))]. *)
Fixpoint drain_order (ord : list (Z * TxKey)) (pend : gmap TxKey Pending)
  : list Pending * gmap TxKey Pending :=
  match ord with
  | [] => ([], pend)
  | (_, key) :: ord =>
      match pend !! key with
      | Some p => let '(ps, pend) := drain_order ord (delete key pend) in (p :: ps, pend)
      | None => drain_order ord pend
      end
  end.

Definition drain_all (t : Tracker) : list Closed * Tracker :=
  let '(ps, rest) := drain_order (order t) (pending t) in
  (map (fun p => close p Timeout [] None) (ps ++ map snd (map_to_list rest)),
   update t ∅ [] (next_seq t) (counters t)).

Fixpoint expire_loop (now : Z) (ord : list (Z * TxKey)) (pend : gmap TxKey Pending)
  : list Pending * (list (Z * TxKey) * gmap TxKey Pending) :=
  match ord with
  | [] => ([], ([], pend))
  | (s, key) :: rest =>
      match pend !! key with
      | Some p =>
          if deadline p <=? now then
            let '(out, r) := expire_loop now rest (delete key pend) in (p :: out, r)
          else ([], (ord, pend))
      | None => expire_loop now rest pend
      end
  end.

Definition expire (t : Tracker) (now : Z) : list Closed * Tracker :=
  let '(out, (ord, pend)) := expire_loop now (order t) (pending t) in
  (map (fun p => close p Timeout [] None) out,
   update t pend ord (next_seq t) (bump (counters t) (Z.of_nat (List.length out)) 0 0 0)).

(** ** Specification: one queue of transactions, oldest first *)

Abbreviation queue := (list (TxKey * Pending)) (only parsing).

Definition find_entry (k : TxKey) (l : queue) : option Pending :=
  option_map snd (List.find (fun x => bool_decide (x.1 = k)) l).

Definition without (k : TxKey) (l : queue) : queue :=
  List.filter (fun x => negb (bool_decide (x.1 = k))) l.

Definition amend (k : TxKey) (f : Pending -> Pending) (l : queue) : queue :=
  map (fun x => if decide (x.1 = k) then (x.1, f x.2) else x) l.

Inductive op :=
| OQuery (key : TxKey) (msg : DnsMessage) (a : Attribution) (o : option PendingAttribution) (ts now : Z)
| OResponse (key : TxKey) (msg : DnsMessage)
| OResolve (key : TxKey) (a : Attribution)
| OExpire (now : Z)
| ODrain.

Definition step (t : Tracker) (o : op) : list Closed * Tracker :=
  match o with
  | OQuery key msg a ow ts now => let '(c, t) := on_query t key msg a ow ts now in (option_list c, t)
  | OResponse key msg => let '(c, t) := on_response t key msg in (option_list c, t)
  | OResolve key a => ([], (resolve_pending t key a).2)
  | OExpire now => expire t now
  | ODrain => drain_all t
  end.

Record spec := { entries : queue; fresh_seq : Z }.

Section Spec.
Context (tmo : Z) (cap : nat).

Definition spec_evict (l : queue) : list Closed * queue :=
  if (cap <=? List.length l)%nat then
    match l with
    | (_, p) :: l' => ([close p Evicted [] None], l')
    | [] => ([], l)
    end
  else ([], l).

Definition timed_out (x : TxKey * Pending) : Closed := close x.2 Timeout [] None.

Definition spec_step (s : spec) (o : op) : list Closed * spec :=
  let l := entries s in
  let n := fresh_seq s in
  let keep l := {| entries := l; fresh_seq := n |} in
  match o with
  | OQuery key msg a ow ts now =>
      match question msg, find_entry key l with
      | Some q, None =>
          let '(out, l') := spec_evict l in
          let p := {| seq := n; deadline := now + tmo; p_client := tx_client key;
                      query := q_name q; qtype := qtype_mnemonic (q_type q); attribution := a;
                      owed := ow; timestamp_ns := ts |} in
          (out, {| entries := l' ++ [(key, p)]; fresh_seq := n + 1 |})
      | _, _ => ([], s)
      end
  | OResponse key msg =>
      match find_entry key l with
      | Some p => let '(ips, ttl) := collect_answers (answers msg) [] None in
                  ([close p ByResponse ips ttl], keep (without key l))
      | None => ([], s)
      end
  | OResolve key a =>
      ([], keep (amend key (fun p => match owed p with Some _ => set_attribution p a | None => p end) l))
  | OExpire now =>
      (map timed_out (List.filter (fun x => deadline x.2 <=? now) l),
       keep (List.filter (fun x => negb (deadline x.2 <=? now)) l))
  | ODrain => (map timed_out l, keep [])
  end.
End Spec.

(** The clock readings of a run do not go back. *)
Fixpoint clocked (c : Z) (ops : list op) : Prop :=
  match ops with
  | [] => True
  | OQuery _ _ _ _ _ now :: ops => c <= now /\ clocked now ops
  | _ :: ops => clocked c ops
  end.

(** [rep c t s]: the tracker [t] represents the queue [s]; [c] is the last query's
    clock reading. *)
Record rep (c : Z) (t : Tracker) (s : spec) : Prop := {
  rep_order : order t = map (fun x => (seq x.2, x.1)) (entries s);
  rep_pending : pending t = list_to_map (entries s);
  rep_next : next_seq t = fresh_seq s;
  rep_keys : NoDup (map fst (entries s));
  rep_seqs : StronglySorted (fun x y => seq x.2 < seq y.2) (entries s);
  rep_fresh : Forall (fun x => seq x.2 < fresh_seq s) (entries s);
  rep_deadlines : StronglySorted (fun x y => deadline x.2 <= deadline y.2) (entries s);
  rep_clock : Forall (fun x => deadline x.2 <= c + timeout t) (entries s);
  rep_bound : (List.length (entries s) <= capacity t)%nat;
  rep_cap : (1 <= capacity t)%nat;
}.

(** ** Lists as maps *)

Lemma find_entry_map k l : find_entry k l = list_to_map (M := gmap TxKey Pending) l !! k.
Proof.
  unfold find_entry. induction l as [|[k' p] l IH]; simpl; [by rewrite lookup_empty|].
  case_bool_decide as E; simpl.
  - by rewrite E, lookup_insert_eq.
  - by rewrite lookup_insert_ne.
Qed.

Lemma delete_list_to_map k (l : queue) :
  delete k (list_to_map l : gmap TxKey Pending) = list_to_map (without k l).
Proof.
  induction l as [|[k' p] l IH]; simpl; [by rewrite delete_empty|].
  case_bool_decide as E; simpl.
  - by rewrite E, delete_insert_eq.
  - by rewrite delete_insert_ne, IH by done.
Qed.

Lemma amend_list_to_map k f (l : queue) :
  NoDup (map fst l) ->
  (list_to_map (amend k f l) : gmap TxKey Pending) =
  match list_to_map (M := gmap TxKey Pending) l !! k with
  | Some p => <[k := f p]> (list_to_map l)
  | None => list_to_map l
  end.
Proof.
  induction l as [|[k' p] l IH]; simpl; intros Hn; [by rewrite lookup_empty|].
  apply NoDup_cons in Hn as [Hk Hn]. destruct (decide (k' = k)) as [->|Hne]; simpl.
  - rewrite lookup_insert_eq, insert_insert_eq, IH by done.
    rewrite (not_elem_of_list_to_map_1 l k Hk). done.
  - rewrite lookup_insert_ne, IH by done. destruct (list_to_map l !! k); [|done].
    by rewrite insert_insert_ne.
Qed.

Lemma amend_keys k f l : map fst (amend k f l) = map fst l.
Proof. induction l as [|[k' p] l IH]; simpl; [done|]. case_decide; simpl; by rewrite IH. Qed.

(** Removing a queue entry by key removes it from the order by sequence number. *)
Lemma order_remove_entry l k p :
  NoDup (map fst l) -> StronglySorted (fun x y => seq x.2 < seq y.2) l -> (k, p) ∈ l ->
  order_remove (seq p) (map (fun x => (seq x.2, x.1)) l) = map (fun x => (seq x.2, x.1)) (without k l).
Proof.
  intros Hn Hs Hin.
  assert (forall x, x ∈ l -> (seq x.2 =? seq p) = bool_decide (x.1 = k)) as Hiff.
  { intros x Hx. apply list_elem_of_lookup in Hin as [i Hi], Hx as [j Hj].
    destruct (decide (i = j)) as [->|Hne].
    - rewrite Hi in Hj. injection Hj as <-. simpl. by rewrite Z.eqb_refl, bool_decide_true.
    - assert (x.1 <> k) as Hk.
      { intros E. apply Hne. apply (NoDup_lookup _ _ _ k Hn);
          rewrite list_lookup_fmap; [by rewrite Hi|by rewrite Hj; simpl; rewrite E]. }
      rewrite bool_decide_false by done. apply Z.eqb_neq. intros E.
      assert (seq p <> seq x.2); [|congruence].
      destruct (Nat.lt_trichotomy i j) as [Hlt|[|Hlt]]; [|done|].
      + pose proof (StronglySorted_lt _ _ _ _ _ _ Hs Hi Hj Hlt) as Hc. simpl in Hc. lia.
      + pose proof (StronglySorted_lt _ _ _ _ _ _ Hs Hj Hi Hlt) as Hc. simpl in Hc. lia. }
  clear Hin Hn Hs. revert Hiff. unfold order_remove, without.
  induction l as [|x l IH]; intros Hiff; simpl; [done|].
  rewrite (Hiff x) by set_solver. rewrite IH by (intros; apply Hiff; set_solver).
  by case_bool_decide.
Qed.

Lemma order_insert_end s k l : Forall (fun x => fst x < s) l -> order_insert s k l = l ++ [(s, k)].
Proof.
  induction 1 as [|[s' k'] l Hs _ IH]; simpl in *; [done|].
  destruct (Z.ltb_spec s s'); [lia|]. destruct (Z.eqb_spec s s'); [lia|]. by rewrite IH.
Qed.

Lemma contains_find c t s key : rep c t s -> contains t key = match find_entry key (entries s) with Some _ => true | None => false end.
Proof. intros Hr. unfold contains. by rewrite (rep_pending _ _ _ Hr), find_entry_map. Qed.

(** A queue and the tracker it determines, given the tracker's configuration. *)
Lemma rep_filter c t s f cnt :
  rep c t s ->
  (forall l', l' = List.filter f (entries s) ->
    rep c (update t (list_to_map l') (map (fun x => (seq x.2, x.1)) l') (next_seq t) cnt)
      {| entries := l'; fresh_seq := fresh_seq s |}).
Proof.
  intros [Ho Hp Hn Hk Hs Hf Hd Hc Hb Hcap] l' ->. constructor; simpl; try done.
  - by apply filter_nodup.
  - by apply filter_sorted.
  - by apply filter_forall.
  - by apply filter_sorted.
  - by apply filter_forall.
  - pose proof (filter_length_le f (entries s)). lia.
Qed.

Lemma rep_tail c t s x l cnt :
  rep c t s -> entries s = x :: l ->
  rep c (update t (list_to_map l) (map (fun x => (seq x.2, x.1)) l) (next_seq t) cnt)
    {| entries := l; fresh_seq := fresh_seq s |}.
Proof.
  intros [Ho Hp Hn Hk Hs Hf Hd Hc Hb Hcap] E. rewrite E in *.
  apply NoDup_cons in Hk as [_ Hk]. inversion Hs; subst. inversion Hd; subst.
  apply Forall_cons in Hf as [_ Hf]. apply Forall_cons in Hc as [_ Hc]. simpl in Hb.
  constructor; simpl; try done. lia.
Qed.

Lemma rep_update c t s cnt :
  rep c t s -> rep c (update t (pending t) (order t) (next_seq t) cnt) s.
Proof. intros [Ho Hp Hn Hk Hs Hf Hd Hc Hb Hcap]. by constructor. Qed.

Lemma delete_head k p (l : queue) :
  k ∉ map fst l -> delete k (list_to_map ((k, p) :: l) : gmap TxKey Pending) = list_to_map l.
Proof.
  intros Hk. simpl. rewrite delete_insert_id; [done|]. by apply not_elem_of_list_to_map_1.
Qed.

(** Making room leaves space for one more transaction. *)
Lemma evict_spec c t s :
  rep c t s ->
  exists out t1, evict t = (out, t1)
    /\ option_list out = (spec_evict (capacity t) (entries s)).1
    /\ rep c t1 {| entries := (spec_evict (capacity t) (entries s)).2; fresh_seq := fresh_seq s |}
    /\ timeout t1 = timeout t /\ capacity t1 = capacity t
    /\ (List.length (spec_evict (capacity t) (entries s)).2 < capacity t)%nat
    /\ (forall k, k ∉ map fst (entries s) -> k ∉ map fst (spec_evict (capacity t) (entries s)).2).
Proof.
  intros Hr. pose proof Hr as [Ho Hp Hn Hk Hs Hf Hd Hc Hb Hcap].
  unfold evict, spec_evict. rewrite Hp, map_size_list_to_map by exact Hk.
  destruct (Nat.leb_spec (capacity t) (List.length (entries s))) as [Hfull|Hroom].
  - destruct (entries s) as [|[k p] l] eqn:El; [simpl in Hfull; lia|].
    rewrite Ho. simpl. rewrite lookup_insert_eq. do 2 eexists. split; [done|].
    split_and!; try done.
    + simpl in Hk. apply NoDup_cons in Hk as [Hk _].
      change (<[k := p]> (list_to_map l)) with (list_to_map (M := gmap TxKey Pending) ((k, p) :: l)).
      rewrite (delete_head k p l Hk). by apply (rep_tail c t s (k, p)).
    + intros k'. rewrite not_elem_of_cons. tauto.
  - exists None, t. split_and!; try done.
Qed.

Lemma query_refines c t s key msg a ow ts now :
  rep c t s -> c <= now ->
  exists t', step t (OQuery key msg a ow ts now)
    = ((spec_step (timeout t) (capacity t) s (OQuery key msg a ow ts now)).1, t')
    /\ rep now t' (spec_step (timeout t) (capacity t) s (OQuery key msg a ow ts now)).2
    /\ timeout t' = timeout t /\ capacity t' = capacity t.
Proof.
  intros Hr Hc. unfold step, on_query, spec_step. cbn [fst snd].
  assert (rep now t s) as Hr'.
  { destruct Hr. constructor; try done. eapply Forall_impl; [done|]. simpl. lia. }
  destruct (question msg) as [q|]; [|by exists t].
  rewrite (contains_find _ _ _ _ Hr).
  destruct (find_entry key (entries s)) as [p|] eqn:Ef.
  { eexists. split_and!; [done|by apply rep_update|done|done]. }
  destruct (evict_spec c t s Hr) as (out & t1 & -> & Hout & Hr1 & Ht & Hcap & Hlen & Hkeys).
  destruct (spec_evict (capacity t) (entries s)) as [o l'] eqn:Es. simpl in *.
  eexists. rewrite Hout. split_and!; [done| |done|done].
  assert (key ∉ map fst l') as Hkey.
  { apply Hkeys. rewrite find_entry_map in Ef. by apply not_elem_of_list_to_map_2. }
  destruct Hr1 as [Ho Hp Hn Hk Hs Hf Hd Hcl Hb Hc1]. simpl in *. unfold mk_pending.
  rewrite Hn, Ht. constructor; simpl.
  - rewrite Ho, map_app. apply order_insert_end. apply Forall_map. exact Hf.
  - rewrite Hp. symmetry. by apply list_to_map_snoc.
  - done.
  - rewrite map_app. apply NoDup_app. split_and!; [done| |apply NoDup_singleton].
    intros x Hx ->%list_elem_of_singleton. done.
  - apply StronglySorted_snoc; [done|]. exact Hf.
  - apply Forall_app. split; [eapply Forall_impl; [exact Hf|]; simpl; lia|].
    constructor; [simpl; lia|constructor].
  - apply StronglySorted_snoc; [done|]. eapply Forall_impl; [exact Hcl|]. simpl. lia.
  - apply Forall_app. split; [eapply Forall_impl; [exact Hcl|]; simpl; lia|].
    constructor; [simpl; lia|constructor].
  - rewrite length_app. simpl. lia.
  - lia.
Qed.

Lemma response_refines c t s key msg :
  rep c t s ->
  exists t', step t (OResponse key msg)
    = ((spec_step (timeout t) (capacity t) s (OResponse key msg)).1, t')
    /\ rep c t' (spec_step (timeout t) (capacity t) s (OResponse key msg)).2
    /\ timeout t' = timeout t /\ capacity t' = capacity t.
Proof.
  intros Hr. unfold step, on_response, spec_step. rewrite (rep_pending _ _ _ Hr), <- find_entry_map.
  destruct (find_entry key (entries s)) as [p|] eqn:Ef;
    [|eexists; split_and!; [done|by rewrite <- (rep_pending _ _ _ Hr); apply rep_update|done|done]].
  destruct (collect_answers (answers msg) [] None) as [ips ttl]. eexists. split; [done|].
  split; [|done]. simpl. rewrite delete_list_to_map, (rep_order _ _ _ Hr).
  assert ((key, p) ∈ entries s) as Hin.
  { rewrite find_entry_map in Ef. by apply elem_of_list_to_map_2. }
  rewrite (order_remove_entry _ key p); [|apply Hr|apply Hr|done].
  by apply (rep_filter c t s (fun x => negb (bool_decide (x.1 = key)))).
Qed.

Lemma amend_map {B} (g : Pending -> B) k f (l : queue) :
  (forall p, g (f p) = g p) -> map (fun x => (g x.2, x.1)) (amend k f l) = map (fun x => (g x.2, x.1)) l.
Proof.
  intros Hg. induction l as [|[k' p] l IH]; simpl; [done|].
  destruct (decide (k' = k)); simpl; rewrite IH; [by rewrite Hg|done].
Qed.

(** Relations that only look at what [amend] keeps. *)
Lemma amend_forall (P : Pending -> Prop) k f (l : queue) :
  (forall p, P p -> P (f p)) -> Forall (fun x => P x.2) l -> Forall (fun x => P x.2) (amend k f l).
Proof.
  intros Hf. induction 1 as [|[k' p] l Hp _ IH]; simpl; [constructor|].
  destruct (decide (k' = k)); constructor; simpl; auto.
Qed.

Lemma amend_sorted (R : Pending -> Pending -> Prop) k f (l : queue) :
  (forall p q, R p q -> R (f p) q) -> (forall p q, R p q -> R p (f q)) ->
  StronglySorted (fun x y => R x.2 y.2) l -> StronglySorted (fun x y => R x.2 y.2) (amend k f l).
Proof.
  intros H1 H2. induction 1 as [|[k' p] l Hs IH Hp]; simpl; [constructor|].
  destruct (decide (k' = k)); (constructor; [done|]); simpl.
  - apply (amend_forall (R (f p))); [auto|]. eapply Forall_impl; [exact Hp|]. simpl. auto.
  - apply (amend_forall (R p)); auto.
Qed.

Lemma resolve_refines c t s key a :
  rep c t s ->
  exists t', step t (OResolve key a)
    = ((spec_step (timeout t) (capacity t) s (OResolve key a)).1, t')
    /\ rep c t' (spec_step (timeout t) (capacity t) s (OResolve key a)).2
    /\ timeout t' = timeout t /\ capacity t' = capacity t.
Proof.
  intros Hr. set (f := fun p => match owed p with Some _ => set_attribution p a | None => p end).
  assert (pending (resolve_pending t key a).2 = list_to_map (amend key f (entries s))) as Hp.
  { rewrite (amend_list_to_map key f (entries s) (rep_keys _ _ _ Hr)).
    unfold resolve_pending, f. rewrite (rep_pending _ _ _ Hr).
    destruct (list_to_map (entries s) !! key) as [p|] eqn:E; [|by apply Hr].
    destruct (owed p); [done|]. cbn [snd]. rewrite (rep_pending _ _ _ Hr).
    symmetry. by apply insert_id. }
  exists (resolve_pending t key a).2.
  assert (order (resolve_pending t key a).2 = order t /\ next_seq (resolve_pending t key a).2 = next_seq t
    /\ timeout (resolve_pending t key a).2 = timeout t /\ capacity (resolve_pending t key a).2 = capacity t)
    as (Eo & En & Et & Ec).
  { unfold resolve_pending. destruct (pending t !! key) as [p|]; [|done]. by destruct (owed p). }
  split; [done|]. split; [|done]. unfold spec_step. cbn [snd]. fold f.
  assert (forall p, seq (f p) = seq p) as F1 by (intros p; unfold f; by destruct (owed p)).
  assert (forall p, deadline (f p) = deadline p) as F2 by (intros p; unfold f; by destruct (owed p)).
  destruct Hr as [Ho Hp0 Hn Hk Hs Hf Hd Hc Hb Hcap].
  constructor; cbn [entries fresh_seq]; rewrite ?Eo, ?En, ?Et, ?Ec; try done.
  - by rewrite Ho, (amend_map seq).
  - by rewrite amend_keys.
  - apply (amend_sorted (fun p q => seq p < seq q)); [intros; by rewrite F1|intros; by rewrite F1|done].
  - apply (amend_forall (fun p => seq p < fresh_seq s)); [intros; by rewrite F1|done].
  - apply (amend_sorted (fun p q => deadline p <= deadline q)); [intros; by rewrite F2|intros; by rewrite F2|done].
  - apply (amend_forall (fun p => deadline p <= c + timeout t)); [intros; by rewrite F2|done].
  - unfold amend. by rewrite length_map.
Qed.

(** Deadlines grow along the queue, so the entries due are a prefix of it. *)
Lemma expire_loop_filter now l :
  NoDup (map fst l) -> StronglySorted (fun x y => deadline x.2 <= deadline y.2) l ->
  let rest := List.filter (fun x => negb (deadline x.2 <=? now)) l in
  expire_loop now (map (fun x => (seq x.2, x.1)) l) (list_to_map l)
  = (map snd (List.filter (fun x => deadline x.2 <=? now) l),
     (map (fun x => (seq x.2, x.1)) rest, list_to_map rest)).
Proof.
  induction l as [|[k p] l IH]; [done|]. intros [Hk Hn]%NoDup_cons Hs. simpl.
  rewrite lookup_insert_eq. inversion Hs as [|? ? Hs' Hle]; subst.
  destruct (Z.leb_spec (deadline p) now) as [Hdue|Hlate]; simpl.
  - rewrite delete_insert_id by by apply not_elem_of_list_to_map_1. by rewrite (IH Hn Hs').
  - assert (Forall (fun x => (deadline x.2 <=? now) = false) l) as Hall.
    { eapply Forall_impl; [exact Hle|]. simpl. intros x Hx. apply Z.leb_gt. lia. }
    assert (List.filter (fun x => deadline x.2 <=? now) l = []
      /\ List.filter (fun x => negb (deadline x.2 <=? now)) l = l) as [-> ->]; [|done].
    clear -Hall. induction Hall as [|x l Hx _ [IH1 IH2]]; simpl; [done|].
    rewrite Hx. simpl. by rewrite IH1, IH2.
Qed.

Lemma expire_refines c t s now :
  rep c t s ->
  exists t', step t (OExpire now) = ((spec_step (timeout t) (capacity t) s (OExpire now)).1, t')
    /\ rep c t' (spec_step (timeout t) (capacity t) s (OExpire now)).2
    /\ timeout t' = timeout t /\ capacity t' = capacity t.
Proof.
  intros Hr. unfold step, expire, spec_step.
  rewrite (rep_pending _ _ _ Hr), (rep_order _ _ _ Hr).
  rewrite expire_loop_filter by apply Hr. cbn [fst snd]. rewrite map_map.
  eexists. split; [done|]. split; [|done].
  by apply (rep_filter c t s (fun x => negb (deadline x.2 <=? now))).
Qed.

Lemma drain_order_all l :
  NoDup (map fst l) ->
  drain_order (map (fun x => (seq x.2, x.1)) l) (list_to_map l) = (map snd l, ∅).
Proof.
  induction l as [|[k p] l IH]; [done|]. intros [Hk Hn]%NoDup_cons. simpl.
  rewrite lookup_insert_eq, delete_insert_id by by apply not_elem_of_list_to_map_1.
  by rewrite (IH Hn).
Qed.

Lemma drain_refines c t s :
  rep c t s ->
  exists t', step t ODrain = ((spec_step (timeout t) (capacity t) s ODrain).1, t')
    /\ rep c t' (spec_step (timeout t) (capacity t) s ODrain).2
    /\ timeout t' = timeout t /\ capacity t' = capacity t.
Proof.
  intros Hr. unfold step, drain_all, spec_step.
  rewrite (rep_pending _ _ _ Hr), (rep_order _ _ _ Hr), drain_order_all by apply Hr.
  rewrite map_to_list_empty. simpl. rewrite app_nil_r, map_map. eexists. split; [done|].
  split; [|done]. constructor; simpl; try done; try constructor; try apply Hr; lia.
Qed.

(** ** Runs *)

Fixpoint run (t : Tracker) (ops : list op) : list (list Closed) * Tracker :=
  match ops with
  | [] => ([], t)
  | o :: ops => let '(out, t) := step t o in let '(outs, t) := run t ops in (out :: outs, t)
  end.

Fixpoint spec_run (tmo : Z) (cap : nat) (s : spec) (ops : list op) : list (list Closed) * spec :=
  match ops with
  | [] => ([], s)
  | o :: ops =>
      let '(out, s) := spec_step tmo cap s o in
      let '(outs, s) := spec_run tmo cap s ops in (out :: outs, s)
  end.

(** The clock after an operation. *)
Definition tick (c : Z) (o : op) : Z := match o with OQuery _ _ _ _ _ now => now | _ => c end.

Lemma step_refines c t s o ops :
  rep c t s -> clocked c (o :: ops) ->
  exists t', step t o = ((spec_step (timeout t) (capacity t) s o).1, t')
    /\ rep (tick c o) t' (spec_step (timeout t) (capacity t) s o).2
    /\ timeout t' = timeout t /\ capacity t' = capacity t.
Proof.
  intros Hr Hc. destruct o; cbn [tick]; simpl in Hc.
  - by apply (query_refines c), Hc.
  - by apply response_refines.
  - by apply resolve_refines.
  - by apply expire_refines.
  - by apply drain_refines.
Qed.

Lemma clocked_tail c o ops : clocked c (o :: ops) -> clocked (tick c o) ops.
Proof. destruct o; simpl; tauto. Qed.

Lemma run_refines ops c t s :
  rep c t s -> clocked c ops ->
  exists t' c', run t ops = ((spec_run (timeout t) (capacity t) s ops).1, t')
    /\ rep c' t' (spec_run (timeout t) (capacity t) s ops).2
    /\ capacity t' = capacity t.
Proof.
  revert c t s. induction ops as [|o ops IH]; intros c t s Hr Hc; [by exists t, c|].
  destruct (step_refines c t s o ops Hr Hc) as (t1 & E & Hr1 & Et & Ec). simpl. rewrite E.
  destruct (spec_step (timeout t) (capacity t) s o) as [out s1]. simpl in *.
  destruct (IH _ t1 s1 Hr1 (clocked_tail _ _ _ Hc)) as (t2 & c2 & E2 & Hr2 & Ec2).
  rewrite Et, Ec in *. rewrite E2.
  destruct (spec_run (timeout t) (capacity t) s1 ops) as [outs s2]. by exists t2, c2.
Qed.

Definition empty_spec : spec := {| entries := []; fresh_seq := 0 |}.

Lemma rep_new c tmo cap : rep c (tracker_new tmo cap) empty_spec.
Proof. constructor; simpl; try done; try constructor; lia. Qed.

(** ** Accounting *)

Definition is_kind (k : CloseKind) (c : Closed) : bool :=
  match k, close_kind c with
  | ByResponse, ByResponse | Timeout, Timeout | Evicted, Evicted => true
  | _, _ => false
  end.

Definition count_kind (k : CloseKind) (l : list Closed) : Z :=
  Z.of_nat (List.length (List.filter (is_kind k) l)).

Definition is_drain (o : op) : bool := match o with ODrain => true | _ => false end.

Lemma count_kind_app k l l' : count_kind k (l ++ l') = count_kind k l + count_kind k l'.
Proof. unfold count_kind. rewrite List.filter_app, length_app. lia. Qed.

Lemma count_timed_out k l :
  count_kind k (map (fun p => close p Timeout [] None) l)
  = match k with Timeout => Z.of_nat (List.length l) | _ => 0 end.
Proof.
  unfold count_kind. induction l as [|p l IH]; [by destruct k|]. simpl.
  destruct k; simpl in *; lia.
Qed.

(** Both counters of one concrete outcome. *)
Ltac by_counts := split; unfold count_kind; simpl; lia.

Lemma evict_counts t :
  let '(out, t') := evict t in
  overflow_evictions (counters t') = overflow_evictions (counters t) + count_kind Evicted (option_list out)
  /\ timeouts (counters t') = timeouts (counters t) + count_kind Timeout (option_list out).
Proof.
  unfold evict. destruct (_ <=? _)%nat; [|by_counts].
  destruct (order t) as [|[s k] l]; [by_counts|].
  destruct (pending t !! k); by_counts.
Qed.

(** The counters follow what a step hands back; a drain counts no timeouts. *)
Lemma step_counts t o :
  let '(out, t') := step t o in
  overflow_evictions (counters t') = overflow_evictions (counters t) + count_kind Evicted out
  /\ timeouts (counters t') = timeouts (counters t) + (if is_drain o then 0 else count_kind Timeout out).
Proof.
  destruct o as [key msg a ow ts now|key msg|key a|now|]; simpl.
  - unfold on_query. destruct (question msg); [|by_counts].
    destruct (contains t key); [by_counts|].
    pose proof (evict_counts t) as He. destruct (evict t) as [out t1]. exact He.
  - unfold on_response. destruct (pending t !! key); [|by_counts].
    destruct (collect_answers _ _ _). by_counts.
  - unfold resolve_pending. destruct (pending t !! key) as [p|]; [|by_counts].
    destruct (owed p); by_counts.
  - unfold expire. destruct (expire_loop _ _ _) as [out [ord pend]]. rewrite !count_timed_out.
    by_counts.
  - unfold drain_all. destruct (drain_order _ _) as [ps rest]. rewrite count_timed_out.
    by_counts.
Qed.

Lemma run_counts ops t :
  let '(outs, t') := run t ops in
  overflow_evictions (counters t')
    = overflow_evictions (counters t) + count_kind Evicted (concat outs)
  /\ (forallb (fun o => negb (is_drain o)) ops = true ->
      timeouts (counters t') = timeouts (counters t) + count_kind Timeout (concat outs)).
Proof.
  revert t. induction ops as [|o ops IH]; intros t; simpl; [split; [|intros _]; unfold count_kind; simpl; lia|].
  pose proof (step_counts t o) as Hs. destruct (step t o) as [out t1].
  specialize (IH t1). destruct (run t1 ops) as [outs t2]. simpl. rewrite !count_kind_app.
  destruct Hs as [H1 H2], IH as [H3 H4]. split; [lia|]. destruct (is_drain o); [done|].
  simpl. intros E. specialize (H4 E). lia.
Qed.

Lemma without_length k p l :
  NoDup (map fst l) -> find_entry k l = Some p -> List.length l = S (List.length (without k l)).
Proof.
  rewrite find_entry_map. intros Hn E.
  rewrite <- (map_size_list_to_map (M := gmap TxKey) l) by exact Hn.
  rewrite <- (map_size_list_to_map (M := gmap TxKey) (without k l)) by by apply filter_nodup.
  rewrite <- delete_list_to_map, map_size_delete, E.
  assert (size (list_to_map l : gmap TxKey Pending) <> 0%nat); [|lia].
  intros Hz. apply map_size_empty_inv in Hz. by rewrite Hz, lookup_empty in E.
Qed.

Lemma filter_split_length {A} (f : A -> bool) l :
  List.length l = (List.length (List.filter f l) + List.length (List.filter (fun x => negb (f x)) l))%nat.
Proof. induction l as [|x l IH]; simpl; [done|]. destruct (f x); simpl; lia. Qed.

(** Every accepted query is closed once or still pending. *)
Definition balance (s : spec) : Z := fresh_seq s - Z.of_nat (List.length (entries s)).

Lemma spec_step_balance tmo cap s o :
  NoDup (map fst (entries s)) ->
  let '(out, s') := spec_step tmo cap s o in
  balance s' = balance s + Z.of_nat (List.length out).
Proof.
  intros Hn. unfold balance. destruct o as [key msg a ow ts now|key msg|key a|now|]; simpl.
  - destruct (question msg); [|simpl; lia]. destruct (find_entry key (entries s)); [simpl; lia|].
    unfold spec_evict. destruct (_ <=? _)%nat; [destruct (entries s) as [|[k p] l]|];
      simpl; rewrite ?length_app; simpl; lia.
  - destruct (find_entry key (entries s)) as [p|] eqn:E; [|simpl; lia].
    destruct (collect_answers _ _ _). simpl. rewrite (without_length _ _ _ Hn E). lia.
  - unfold amend. rewrite length_map. lia.
  - rewrite length_map. rewrite (filter_split_length (fun x => deadline x.2 <=? now) (entries s)). lia.
  - rewrite length_map. lia.
Qed.

Lemma spec_run_balance ops c t s :
  rep c t s -> clocked c ops ->
  let '(outs, s') := spec_run (timeout t) (capacity t) s ops in
  balance s' = balance s + Z.of_nat (List.length (concat outs)).
Proof.
  revert c t s. induction ops as [|o ops IH]; intros c t s Hr Hc; [simpl; lia|].
  destruct (step_refines c t s o ops Hr Hc) as (t1 & _ & Hr1 & Et & Ec). simpl.
  pose proof (spec_step_balance (timeout t) (capacity t) s o (rep_keys _ _ _ Hr)) as Hb.
  destruct (spec_step (timeout t) (capacity t) s o) as [out s1]. simpl in *.
  pose proof (IH _ t1 s1 Hr1 (clocked_tail _ _ _ Hc)) as IHr. rewrite Et, Ec in IHr.
  destruct (spec_run (timeout t) (capacity t) s1 ops) as [outs s2]. simpl.
  rewrite length_app. lia.
Qed.

(** C35. The tracker refines one queue.  From a new tracker, for every sequence of
    queries, responses, late attributions, expiries and drains whose query clock does
    not go back, each operation closes exactly the transactions the queue closes, in
    the queue's order (an expiry closes every transaction that is due although it
    stops at the first that is not), and the hash map and the insertion order hold
    exactly the queue's entries. *)
Theorem tracker_refines_queue tmo cap ops c :
  clocked c ops ->
  let '(outs, t) := run (tracker_new tmo cap) ops in
  let '(outs', s) := spec_run tmo (Nat.max cap 1) empty_spec ops in
  outs = outs' /\ pending t = list_to_map (entries s)
  /\ order t = map (fun x => (seq x.2, x.1)) (entries s).
Proof.
  intros Hc. destruct (run_refines ops c _ _ (rep_new c tmo cap) Hc) as (t & c' & -> & Hr & _).
  simpl in *. destruct (spec_run _ _ _ _) as [outs s]. split_and!; [done|apply Hr|apply Hr].
Qed.

(** Accounting of transactions: after any run the sequence counter (the number of
    queries accepted) is the number of closed transactions plus the number pending, the
    table never exceeds its capacity (one when built with zero), the eviction counter
    is the number of evictions handed back, and without a drain the timeout counter is
    the number of timeouts handed back. *)
Lemma tracker_accounting tmo cap ops c :
  clocked c ops ->
  let '(outs, t) := run (tracker_new tmo cap) ops in
  next_seq t = Z.of_nat (List.length (concat outs)) + Z.of_nat (size (pending t))
  /\ (size (pending t) <= Nat.max cap 1)%nat
  /\ overflow_evictions (counters t) = count_kind Evicted (concat outs)
  /\ (forallb (fun o => negb (is_drain o)) ops = true ->
      timeouts (counters t) = count_kind Timeout (concat outs)).
Proof.
  intros Hc. pose proof (run_counts ops (tracker_new tmo cap)) as Hcnt.
  pose proof (spec_run_balance ops c _ _ (rep_new c tmo cap) Hc) as Hb.
  destruct (run_refines ops c _ _ (rep_new c tmo cap) Hc) as (t & c' & Er & Hr & Ec).
  rewrite Er in Hcnt |- *. simpl in *. destruct (spec_run _ _ _ _) as [outs s]. simpl in *.
  rewrite (rep_pending _ _ _ Hr), (map_size_list_to_map (M := gmap TxKey)) by apply Hr.
  pose proof (rep_bound _ _ _ Hr) as Hbound. rewrite Ec in Hbound.
  rewrite (rep_next _ _ _ Hr). unfold balance in Hb. simpl in Hb.
  split_and!; [lia|exact Hbound|apply Hcnt|apply Hcnt].
Qed.

(** ** A concrete run *)

Definition sample_key (id : Z) : TxKey :=
  {| tx_client := {| sa_ip := V4 (map z2b [10; 0; 0; 1]); sa_port := 40000 |};
     tx_server := V4 (map z2b [1; 1; 1; 1]); tx_id := id |}.

Definition sample_msg (resp : bool) : DnsMessage :=
  {| msg_id := 7; is_response := resp; rcode := 0;
     question := Some {| q_name := "example.com"; q_type := 1 |};
     answers := [{| rtype := 1; a_ttl := 60; addr := Some (V4 (map z2b [93; 184; 216; 34])) |};
                 {| rtype := 28; a_ttl := 30;
                    addr := Some (V6 (map z2b [32; 1; 13; 184; 0; 0; 0; 0; 0; 0; 0; 0; 0; 0; 0; 1])) |}] |}.

Definition sample_owner : Attribution :=
  {| at_pid := Some 42; at_uid := 1000; at_exe_path := "/usr/bin/curl"; at_comm := "curl" |}.

(** Room for two: the third query evicts the first, the second is answered, the third
    expires. *)
Definition sample_ops : list op :=
  [OQuery (sample_key 1) (sample_msg false) sample_owner None 10 100;
   OQuery (sample_key 2) (sample_msg false) sample_owner None 20 110;
   OQuery (sample_key 2) (sample_msg false) sample_owner None 21 111;
   OQuery (sample_key 3) (sample_msg false) sample_owner None 30 120;
   OResponse (sample_key 2) (sample_msg true);
   OResponse (sample_key 1) (sample_msg true);
   OExpire 125].

Lemma sample_run :
  (run (tracker_new 5 2) sample_ops).1
  = map (fun l => map (fun x => close {| seq := 0; deadline := 0; p_client := tx_client (sample_key 1);
        query := "example.com"; qtype := "A"; attribution := sample_owner; owed := None;
        timestamp_ns := x.1.1 |} x.1.2 (fst x.2) (snd x.2)) l)
    [[]; []; []; [(10, Evicted, ([], None))];
     [(20, ByResponse, (["93.184.216.34"; "2001:db8::1"], Some 30))]; [];
     [(30, Timeout, ([], None))]].
Proof. reflexivity. Qed.

Lemma tracker_refines_queue_witness :
  clocked 100 sample_ops
  /\ (let '(outs, t) := run (tracker_new 5 2) sample_ops in
      let '(outs', s) := spec_run 5 2 empty_spec sample_ops in
      outs = outs' /\ pending t = list_to_map (entries s)
      /\ order t = map (fun x => (seq x.2, x.1)) (entries s)).
Proof.
  assert (clocked 100 sample_ops) as H by (simpl; lia).
  split; [exact H|]. exact (tracker_refines_queue 5 2 sample_ops 100 H).
Defined.

Lemma tracker_accounting_witness :
  clocked 100 sample_ops
  /\ (let '(outs, t) := run (tracker_new 5 2) sample_ops in
      next_seq t = Z.of_nat (List.length (concat outs)) + Z.of_nat (size (pending t))
      /\ (size (pending t) <= Nat.max 2 1)%nat
      /\ overflow_evictions (counters t) = count_kind Evicted (concat outs)
      /\ (forallb (fun o => negb (is_drain o)) sample_ops = true ->
          timeouts (counters t) = count_kind Timeout (concat outs))).
Proof.
  assert (clocked 100 sample_ops) as H by (simpl; lia).
  split; [exact H|]. exact (tracker_accounting 5 2 sample_ops 100 H).
Defined.
