(* ===== verification/FileUtil.v ===== *)
(** * Audit records and cgroup files: [crates/osiris-fileutil]

    [audit_kv.rs]: the key/value tokenizer and the event header of Linux audit records.
    [nested_msg_record.rs]: the header, outer and inner layers of a [USER_*] record.
    [cgroup.rs]: cgroup files and the container ids in cgroup paths.  (The line tailer of
    the same crate is in [Tailer].)

    The main result is that the layers of a record cannot be confused: whatever text the
    inner, user-controlled layer holds, the outer fields are exactly the outer text's. *)

From S2P Require Import Prelude.

(** ** Strings searched by substring *)

(** [s.find(p)]: the text before and after the first occurrence. *)
Fixpoint find_sub (p l : list byte) : option (list byte * list byte) :=
  if is_prefix p l then Some ([], drop (List.length p) l)
  else match l with
       | [] => None
       | b :: l => match find_sub p l with
                   | Some (x, y) => Some (b :: x, y)
                   | None => None
                   end
       end.

(** [s.rfind(c)] for one character: the text before and after the last occurrence. *)
Fixpoint rsplit_once (c : byte) (l : list byte) : option (list byte * list byte) :=
  match l with
  | [] => None
  | b :: l =>
      match rsplit_once c l with
      | Some (x, y) => Some (b :: x, y)
      | None => if decide (b = c) then Some ([], l) else None
      end
  end.

Fixpoint strip_prefix (p l : list byte) : option (list byte) :=
  match p, l with
  | [], _ => Some l
  | a :: p, b :: l => if decide (a = b) then strip_prefix p l else None
  | _ :: _, [] => None
  end.

Definition strip_suffix (p l : list byte) : option (list byte) :=
  match strip_prefix (rev p) (rev l) with
  | Some r => Some (rev r)
  | None => None
  end.

Lemma strip_prefix_spec p l r : strip_prefix p l = Some r <-> l = p ++ r.
Proof.
  revert l; induction p as [|a p IH]; intros l; simpl; [naive_solver|].
  destruct l as [|b l]; [naive_solver|]. case_decide as Hab; [|naive_solver].
  rewrite IH. naive_solver.
Qed.

Lemma strip_suffix_spec p l r : strip_suffix p l = Some r <-> l = r ++ p.
Proof.
  unfold strip_suffix. destruct (strip_prefix (rev p) (rev l)) as [s|] eqn:E.
  - apply strip_prefix_spec in E. apply (f_equal (@rev _)) in E.
    rewrite rev_app_distr, !rev_involutive in E. subst l.
    split; [by intros [= <-]|]. by intros ->%app_inv_tail.
  - split; [done|]. intros ->. rewrite rev_app_distr in E.
    by rewrite (proj2 (strip_prefix_spec _ _ (rev r)) eq_refl) in E.
Qed.

(** An occurrence that no earlier position starts. *)
Lemma find_sub_app p x y :
  (forall a b, x = a ++ b -> b <> [] -> is_prefix p (b ++ p ++ y) = false) ->
  find_sub p (x ++ p ++ y) = Some (x, y).
Proof.
  intros H. induction x as [|c x IH].
  - simpl. replace (find_sub p (p ++ y)) with
      (if is_prefix p (p ++ y) then Some (([] : list byte), drop (List.length p) (p ++ y))
       else match p ++ y with
            | [] => None
            | b :: l => match find_sub p l with Some (x, y) => Some (b :: x, y) | None => None end
            end) by (by destruct (p ++ y)).
    rewrite (proj2 (is_prefix_spec p (p ++ y))) by by exists y. by rewrite drop_app_length.
  - pose proof (H [] (c :: x) eq_refl ltac:(done)) as H0. cbn [app] in H0.
    cbn [app find_sub]. rewrite H0.
    rewrite IH; [done|]. intros a b -> Hb. by apply (H (c :: a) b).
Qed.

Lemma rsplit_once_none c l : c ∉ l -> rsplit_once c l = None.
Proof.
  induction l as [|b l IH]; simpl; intros Hl; [done|]. apply not_elem_of_cons in Hl as [Hb Hl].
  rewrite IH by done. by rewrite decide_False by congruence.
Qed.

Lemma rsplit_once_app c x y : c ∉ y -> rsplit_once c (x ++ c :: y) = Some (x, y).
Proof.
  intros Hy. induction x as [|b x IH]; simpl; [|by rewrite IH].
  rewrite rsplit_once_none by done. by rewrite decide_True.
Qed.

(** ** [String::from_utf8_lossy]

    Each maximal prefix of an ill-formed sequence is replaced by U+FFFD. *)

Definition replacement : list byte := map z2b [239; 191; 189].

(** The second byte of a three- or four-byte sequence, by its lead byte. *)
Definition second_ok (b0 b1 : byte) : bool :=
  if b2z b0 =? 224 then in_byte 160 191 b1
  else if b2z b0 =? 237 then in_byte 128 159 b1
  else if b2z b0 =? 240 then in_byte 144 191 b1
  else if b2z b0 =? 244 then in_byte 128 143 b1
  else is_cont b1.

Fixpoint lossy (l : list byte) : list byte :=
  match l with
  | [] => []
  | b0 :: l0 =>
      if b2z b0 <? 128 then b0 :: lossy l0
      else if in_byte 194 223 b0 then
        match l0 with
        | b1 :: l1 => if is_cont b1 then b0 :: b1 :: lossy l1 else replacement ++ lossy l0
        | [] => replacement
        end
      else if in_byte 224 239 b0 then
        match l0 with
        | b1 :: l1 =>
            if second_ok b0 b1 then
              match l1 with
              | b2 :: l2 => if is_cont b2 then b0 :: b1 :: b2 :: lossy l2
                            else replacement ++ lossy l1
              | [] => replacement
              end
            else replacement ++ lossy l0
        | [] => replacement
        end
      else if in_byte 240 244 b0 then
        match l0 with
        | b1 :: l1 =>
            if second_ok b0 b1 then
              match l1 with
              | b2 :: l2 =>
                  if is_cont b2 then
                    match l2 with
                    | b3 :: l3 => if is_cont b3 then b0 :: b1 :: b2 :: b3 :: lossy l3
                                  else replacement ++ lossy l2
                    | [] => replacement
                    end
                  else replacement ++ lossy l1
              | [] => replacement
              end
            else replacement ++ lossy l0
        | [] => replacement
        end
      else replacement ++ lossy l0
  end.

Definition from_utf8_lossy (l : list byte) : string := of_bytes (lossy l).

Lemma lossy_ascii l : Forall (fun b => is_ascii b = true) l -> lossy l = l.
Proof.
  induction 1 as [|b l Hb _ IH]; simpl; [done|]. unfold is_ascii in Hb. by rewrite Hb, IH.
Qed.

(** Well-formed text is kept. *)
Lemma lossy_valid l : utf8_valid l = true -> lossy l = l.
Proof.
  remember (List.length l) as n eqn:Hn. revert l Hn.
  induction n as [n IH] using lt_wf_ind. intros l Hn Hl.
  destruct l as [|b0 l]; [done|]. cbn [utf8_valid lossy] in *. unfold second_ok.
  assert (forall m, utf8_valid m = true -> (List.length m < S (List.length l))%nat -> lossy m = m)
    as IH' by (intros m Hm Hlt; eapply IH; [|done|done]; subst n; simpl; lia).
  destruct (b2z b0 <? 128) eqn:E1; [by rewrite IH' by (done || lia)|].
  destruct (in_byte 194 223 b0) eqn:E2.
  { destruct l as [|b1 l]; [done|]. apply andb_true_iff in Hl as [-> Hl].
    by rewrite IH' by (done || simpl; lia). }
  destruct (in_byte 224 239 b0) eqn:E3.
  { destruct l as [|b1 [|b2 l]]; try done. rewrite !andb_true_iff in Hl.
    destruct Hl as [[Hb1 Hb2] Hl].
    assert (b2z b0 <> 240 /\ b2z b0 <> 244) as [?%Z.eqb_neq ?%Z.eqb_neq].
    { unfold in_byte in E3. lia. }
    destruct (b2z b0 =? 224), (b2z b0 =? 237), (b2z b0 =? 240), (b2z b0 =? 244); try done;
      rewrite Hb1, Hb2, IH' by (done || simpl; lia); done. }
  destruct (in_byte 240 244 b0) eqn:E4; [|done].
  destruct l as [|b1 [|b2 [|b3 l]]]; try done. rewrite !andb_true_iff in Hl.
  destruct Hl as [[[Hb1 Hb2] Hb3] Hl].
  assert (b2z b0 <> 224 /\ b2z b0 <> 237) as [?%Z.eqb_neq ?%Z.eqb_neq].
  { unfold in_byte in E4. lia. }
  destruct (b2z b0 =? 224), (b2z b0 =? 237), (b2z b0 =? 240), (b2z b0 =? 244); try done;
    rewrite Hb1, Hb2, Hb3, IH' by (done || simpl; lia); done.
Qed.

(** ** [uN::from_str_radix] *)

Definition radix_digit (radix : Z) (b : byte) : option Z :=
  let v := b2z b in
  let d := if is_digit b then Some (v - 48)
           else if in_byte 65 90 b then Some (v - 55)
           else if in_byte 97 122 b then Some (v - 87)
           else None in
  match d with
  | Some d => if d <? radix then Some d else None
  | None => None
  end.

Fixpoint radix_val (radix : Z) (l : list byte) (acc : Z) : option Z :=
  match l with
  | [] => Some acc
  | b :: l =>
      match radix_digit radix b with
      | Some d => radix_val radix l (radix * acc + d)
      | None => None
      end
  end.

Definition parse_radix (w radix : Z) (s : string) : option Z :=
  let l := bytes_of s in
  let body := match l with
              | b :: l' => if b2z b =? 43 then l' else l
              | [] => l
              end in
  match body with
  | [] => None
  | _ => match radix_val radix body 0 with
         | Some v => if v <? 2 ^ w then Some v else None
         | None => None
         end
  end.

(** ** [audit_kv.rs] *)

Record AuditMsgId := { am_timestamp_ns : Z; am_serial : Z }.

#[global] Instance audit_msg_id_eq_dec : EqDecision AuditMsgId.
Proof. solve_decision. Defined.

Definition ENRICHMENT_SEPARATOR : char := 29.
Definition quote_char : char := 34.

Definition push_token (cur : list char) (toks : list (list char)) : list (list char) :=
  match cur with [] => toks | _ => rev cur :: toks end.

(** The loop of [tokenize]; [cur] is the current token, reversed. *)
Fixpoint tokens (l : list char) (cur : list char) (in_quotes : bool) : list (list char) :=
  match l with
  | [] => push_token cur []
  | c :: l =>
      if c =? ENRICHMENT_SEPARATOR then push_token cur (tokens l [] false)
      else if c =? quote_char then tokens l (c :: cur) (negb in_quotes)
      else if is_whitespace c && negb in_quotes then push_token cur (tokens l [] in_quotes)
      else tokens l (c :: cur) in_quotes
  end.

Fixpoint split_char (c : char) (l : list char) : option (list char * list char) :=
  match l with
  | [] => None
  | b :: l => if b =? c then Some ([], l)
              else match split_char c l with
                   | Some (x, y) => Some (b :: x, y)
                   | None => None
                   end
  end.

Fixpoint trim_start_char (c : char) (l : list char) : list char :=
  match l with
  | b :: l' => if b =? c then trim_start_char c l' else l
  | [] => []
  end.

(** [trim_matches(c)]. *)
Definition trim_char (c : char) (l : list char) : list char :=
  rev (trim_start_char c (rev (trim_start_char c l))).

(** [t.splitn(2, '=')]: the value of a token without ['='] is empty. *)
Definition key_value (t : list char) : string * string :=
  match split_char 61 t with
  | Some (k, v) => (string_of_chars k, string_of_chars (trim_char quote_char v))
  | None => (string_of_chars t, "")
  end.

(** [collect] into a [HashMap]: the last pair with a key wins. *)
Definition collect_map (l : list (string * string)) : gmap string string :=
  fold_left (fun m p => <[p.1 := p.2]> m) l ∅.

Definition tokenize_chars (l : list char) : gmap string string :=
  collect_map (map key_value (tokens l [] false)).

Definition tokenize (line : string) : gmap string string := tokenize_chars (chars line).

(** The arithmetic on [u64] wraps, as in a build without overflow checks. *)
Definition parse_audit_msg_id (msg : string) : option AuditMsgId :=
  inner ← strip_prefix (bytes_of "audit(") (bytes_of msg);
  inner ← head (split_all (z2b 41) inner);
  '(ts_part, serial_part) ← split_once (z2b 58) inner;
  '(secs, millis) ← split_once (z2b 46) ts_part;
  secs ← parse_uint_bytes 64 secs;
  millis ← parse_uint_bytes 64 millis;
  serial ← parse_uint_bytes 64 serial_part;
  Some {| am_timestamp_ns := (secs * 1000000000 + millis * 1000000) mod 2 ^ 64;
          am_serial := serial |}.

(** ** [nested_msg_record.rs] *)

Definition UNSET_ID : string := "4294967295".

Record RecordParts := {
  rp_id : AuditMsgId; record_type : string;
  outer : gmap string string; inner : gmap string string }.

Definition rp_get (r : RecordParts) (key : string) : option string :=
  match outer r !! key with
  | Some v => Some v
  | None => inner r !! key
  end.

Definition apostrophe : byte := z2b 39.

Definition split_layers (body : list byte) : list byte * list byte :=
  match find_sub (bytes_of "msg='") body with
  | Some (before, after) =>
      match rsplit_once apostrophe after with
      | Some (inside, rest) => (before ++ rest, inside)
      | None => (before, after)
      end
  | None => (body, [])
  end.

Definition split_record (line : string) : option RecordParts :=
  '(h, body) ← find_sub (bytes_of "): ") (bytes_of line);
  let header_fields := tokenize (of_bytes (h ++ bytes_of "):")) in
  msg ← header_fields !! "msg";
  id ← parse_audit_msg_id msg;
  ty ← header_fields !! "type";
  let '(outer_text, inner_text) := split_layers body in
  Some {| rp_id := id; record_type := ty;
          outer := tokenize (of_bytes outer_text); inner := tokenize (of_bytes inner_text) |}.

(** [Option::filter]. *)
Definition opt_filter {A} (f : A -> bool) (o : option A) : option A :=
  match o with Some a => if f a then Some a else None | None => None end.

Definition unknown_to_none (v : option string) : option string :=
  opt_filter (fun v => negb (v =? "")%string && negb (v =? "?")%string
                       && negb (v =? "(none)")%string) v.

Definition parse_id (v : option string) : option Z :=
  opt_filter (fun v => negb (v =? UNSET_ID)%string) v ≫= parse_uint 32.

Definition usable_session (v : option string) : option string :=
  opt_filter (fun v => negb (v =? "")%string && negb (v =? UNSET_ID)%string
                       && negb (v =? "?")%string) v.

(** ** [cgroup.rs] *)

Inductive CgroupFileVersion := FileV1 | FileV2.

(** One line of [str::lines]: without its ["\n"] or ["\r\n"]. *)
Definition chomp (l : list byte) : list byte :=
  match strip_suffix [nl] l with
  | Some l' => default l' (strip_suffix [z2b 13] l')
  | None => l
  end.

Definition str_lines (s : list byte) : list (list byte) := map chomp (read_lines s).

Definition parse_cgroup_file (contents : string) : option (string * CgroupFileVersion) :=
  first ← head (List.filter (fun l => negb (is_blank (of_bytes l))) (str_lines (bytes_of contents)));
  let parts := splitn 3 (z2b 58) first in
  hierarchy_id ← parts !! 0%nat;
  _controllers ← parts !! 1%nat;
  path ← parts !! 2%nat;
  match path with
  | [] => None
  | _ =>
      if (of_bytes hierarchy_id =? "0")%string then Some (of_bytes path, FileV2)
      else if forallb is_digit hierarchy_id && negb (of_bytes hierarchy_id =? "")%string
      then Some (of_bytes path, FileV1)
      else None
  end.

Definition is_hexdigit (b : byte) : bool :=
  is_digit b || in_byte 65 70 b || in_byte 97 102 b.

Definition is_hex64 (s : list byte) : bool :=
  (List.length s =? 64)%nat && forallb is_hexdigit s.

(** The id of [<prefix><64-hex>.scope]. *)
Definition scoped_id (prefix : string) (segment : list byte) : option (list byte) :=
  rest ← strip_prefix (bytes_of prefix) segment;
  id ← strip_suffix (bytes_of ".scope") rest;
  if is_hex64 id then Some id else None.

(** The first loop: it stops at the first scope, and otherwise reports whether a
    [kubepods] segment was seen. *)
Fixpoint scan_scopes (segments : list (list byte)) (saw_kubepods : bool)
  : list byte + bool :=
  match segments with
  | [] => inr saw_kubepods
  | s :: segments =>
      let saw_kubepods := saw_kubepods || is_prefix (bytes_of "kubepods") s in
      match scoped_id "docker-" s with
      | Some id => inl id
      | None => match scoped_id "cri-containerd-" s with
                | Some id => inl id
                | None => scan_scopes segments saw_kubepods
                end
      end
  end.

(** The second loop; [prev] is [segments[i - 1]], if any. *)
Fixpoint scan_bare (segments : list (list byte)) (prev : option (list byte)) (saw_kubepods : bool)
  : option (list byte) :=
  match segments with
  | [] => None
  | s :: segments =>
      if is_hex64 s && (bool_decide (prev = Some (bytes_of "docker")) || saw_kubepods)
      then Some s else scan_bare segments (Some s) saw_kubepods
  end.

Definition path_segments (path : list byte) : list (list byte) :=
  List.filter (fun s => negb (of_bytes s =? "")%string) (split_all (z2b 47) path).

Definition container_id_from_cgroup_path (path : string) : option string :=
  let segments := path_segments (bytes_of path) in
  match scan_scopes segments false with
  | inl id => Some (of_bytes id)
  | inr saw_kubepods =>
      match scan_bare segments None saw_kubepods with
      | Some id => Some (of_bytes id)
      | None => None
      end
  end.

(** ** Lemmas on the tokenizer *)

Definition plain_char (c : char) : bool :=
  negb (c =? ENRICHMENT_SEPARATOR) && negb (c =? quote_char).

(** What a field may look like in a record: a key, and a value that is quoted when it
    holds white space. *)
Record field := { f_key : list char; f_value : list char; f_quoted : bool }.

Definition key_char (c : char) : bool := plain_char c && negb (is_whitespace c) && negb (c =? 61).

Definition field_ok (f : field) : bool :=
  forallb key_char (f_key f)
  && forallb (fun c => plain_char c && (f_quoted f || negb (is_whitespace c))) (f_value f).

Definition render_field (f : field) : list char :=
  f_key f ++ 61 :: (if f_quoted f then quote_char :: f_value f ++ [quote_char] else f_value f).

Fixpoint render_fields (fs : list field) : list char :=
  match fs with
  | [] => []
  | [f] => render_field f
  | f :: fs => render_field f ++ 32 :: render_fields fs
  end.

Definition field_pair (f : field) : string * string :=
  (string_of_chars (f_key f), string_of_chars (f_value f)).

Lemma tokens_plain w : forall rest cur q,
  forallb (fun c => plain_char c && (q || negb (is_whitespace c))) w = true ->
  tokens (w ++ rest) cur q = tokens rest (rev w ++ cur) q.
Proof.
  induction w as [|c w IH]; intros rest cur q Hw; simpl in *; [done|].
  apply andb_true_iff in Hw as [Hc Hw]. unfold plain_char in Hc.
  destruct (c =? ENRICHMENT_SEPARATOR); [done|]. destruct (c =? quote_char); [done|].
  replace (is_whitespace c && negb q) with false by (destruct (is_whitespace c), q; done).
  rewrite IH by done. by rewrite <- app_assoc.
Qed.

Lemma key_chars_plain k : forallb key_char k = true ->
  forallb (fun c => plain_char c && (false || negb (is_whitespace c))) k = true.
Proof.
  rewrite !forallb_forall. intros Hk c Hc. specialize (Hk c Hc). unfold key_char in Hk.
  by apply andb_true_iff in Hk as [Hk _].
Qed.

Lemma tokens_field f rest : field_ok f = true ->
  tokens (render_field f ++ rest) [] false = tokens rest (rev (render_field f)) false.
Proof.
  intros Hf. apply andb_true_iff in Hf as [Hk Hv]. apply key_chars_plain in Hk.
  unfold render_field. rewrite <- app_assoc, tokens_plain by done. cbn [app].
  change (tokens (61 :: ?l) ?c false) with (tokens l (61 :: c) false).
  destruct (f_quoted f).
  - cbn [app]. change (tokens (quote_char :: ?l) ?c false) with (tokens l (quote_char :: c) true).
    rewrite <- app_assoc, tokens_plain by done. cbn [app].
    change (tokens (quote_char :: ?l) ?c true) with (tokens l (quote_char :: c) false).
    rewrite !rev_app_distr. simpl. by rewrite !rev_app_distr, app_nil_r, <- !app_assoc.
  - rewrite tokens_plain by done. rewrite !rev_app_distr. simpl.
    by rewrite app_nil_r, <- app_assoc.
Qed.

Lemma render_field_cons f : exists c l, rev (render_field f) = c :: l.
Proof.
  destruct (rev (render_field f)) as [|c l] eqn:E; [|eauto].
  apply (f_equal (@rev _)) in E. rewrite rev_involutive in E.
  unfold render_field in E. by destruct (f_key f).
Qed.

Lemma push_token_field f toks : push_token (rev (render_field f)) toks = render_field f :: toks.
Proof.
  destruct (render_field_cons f) as (c & l & E).
  unfold push_token. rewrite E. by rewrite <- E, rev_involutive.
Qed.

Lemma tokens_fields fs : Forall (fun f => field_ok f = true) fs ->
  tokens (render_fields fs) [] false = map render_field fs.
Proof.
  induction 1 as [|f fs Hf Hfs IH]; [done|]. destruct fs as [|g fs].
  - cbn [render_fields map]. rewrite <- (app_nil_r (render_field f)) at 1.
    rewrite tokens_field by done. apply push_token_field.
  - change (render_fields (f :: g :: fs)) with (render_field f ++ 32 :: render_fields (g :: fs)).
    rewrite tokens_field by done.
    change (tokens (32 :: ?l) ?c false) with (push_token c (tokens l [] false)).
    by rewrite IH, push_token_field.
Qed.

Lemma split_char_app c x y : forallb (fun b => negb (b =? c)) x = true ->
  split_char c (x ++ c :: y) = Some (x, y).
Proof.
  induction x as [|b x IH]; simpl; intros Hx; [by rewrite Z.eqb_refl|].
  apply andb_true_iff in Hx as [Hb Hx]. apply negb_true_iff in Hb. by rewrite Hb, IH.
Qed.

Lemma trim_start_char_none c l : forallb (fun b => negb (b =? c)) l = true -> trim_start_char c l = l.
Proof.
  destruct l as [|b l]; simpl; intros Hl; [done|].
  apply andb_true_iff in Hl as [Hb _]. apply negb_true_iff in Hb. by rewrite Hb.
Qed.

Lemma forallb_rev {A} (p : A -> bool) l : forallb p (rev l) = forallb p l.
Proof.
  induction l as [|a l IH]; simpl; [done|]. rewrite forallb_app, IH. simpl.
  by rewrite andb_true_r, andb_comm.
Qed.

Lemma trim_char_none c l : forallb (fun b => negb (b =? c)) l = true -> trim_char c l = l.
Proof.
  intros Hl. unfold trim_char. rewrite (trim_start_char_none c l) by done.
  rewrite trim_start_char_none by by rewrite forallb_rev. apply rev_involutive.
Qed.

Lemma trim_char_quoted c l : forallb (fun b => negb (b =? c)) l = true ->
  trim_char c (c :: l ++ [c]) = l.
Proof.
  intros Hl. unfold trim_char. cbn [trim_start_char]. rewrite Z.eqb_refl.
  destruct l as [|b l].
  - simpl. by rewrite Z.eqb_refl.
  - cbn [app trim_start_char]. simpl in Hl. apply andb_true_iff in Hl as [Hb Hl].
    pose proof Hb as Hb'. apply negb_true_iff in Hb'. rewrite Hb'.
    rewrite app_comm_cons, rev_app_distr. simpl app at 1. cbn [trim_start_char].
    rewrite Z.eqb_refl, trim_start_char_none; [exact (rev_involutive (b :: l))|].
    rewrite forallb_app, forallb_rev, Hl. simpl. by rewrite Hb.
Qed.

Lemma key_value_field f : field_ok f = true -> key_value (render_field f) = field_pair f.
Proof.
  intros Hf. apply andb_true_iff in Hf as [Hk Hv]. unfold key_value, render_field, field_pair.
  rewrite split_char_app.
  - f_equal. f_equal.
    assert (forallb (fun b => negb (b =? quote_char)) (f_value f) = true) as Hn.
    { rewrite forallb_forall in *. intros c Hc. specialize (Hv c Hc). unfold plain_char in Hv.
      by destruct (c =? quote_char); [rewrite andb_false_r in Hv|]. }
    destruct (f_quoted f); [by apply trim_char_quoted|by apply trim_char_none].
  - rewrite forallb_forall in *. intros c Hc. specialize (Hk c Hc). unfold key_char in Hk.
    by apply andb_true_iff in Hk as [_ Hk].
Qed.

(** A record rendered field by field reads back as those fields, the last one of a key
    winning. *)
Lemma tokenize_fields fs : Forall (fun f => field_ok f = true) fs ->
  tokenize_chars (render_fields fs) = collect_map (map field_pair fs).
Proof.
  intros Hfs. unfold tokenize_chars. rewrite tokens_fields by done. f_equal.
  induction Hfs as [|f fs Hf _ IH]; simpl; [done|]. by rewrite key_value_field, IH.
Qed.

(** ** The header of a record *)

(** [type=<ty> msg=audit(<secs>.<millis>:<serial>)], the text before [": "]. *)
Definition render_msg (secs millis serial : Z) : list byte :=
  bytes_of "audit(" ++ dec_bytes secs ++ z2b 46 :: dec_bytes millis ++ z2b 58 :: dec_bytes serial.

Definition render_header (ty : string) (secs millis serial : Z) : list byte :=
  bytes_of "type=" ++ bytes_of ty ++ bytes_of " msg=" ++ render_msg secs millis serial.

Definition type_byte (b : byte) : bool := in_byte 65 90 b || (b2z b =? 95).

(** The arithmetic of the header stays in [u64] up to the year 2554. *)
Definition header_ok (ty : string) (secs millis serial : Z) : bool :=
  forallb type_byte (bytes_of ty) && fits 64 secs && fits 64 millis && fits 64 serial
  && fits 64 (secs * 1000000000 + millis * 1000000).

(** The bytes a header is made of. *)
Definition header_byte (b : byte) : bool :=
  is_ascii b && key_char (b2z b).

Lemma digit_header b : is_digit b = true -> header_byte b = true.
Proof. by destruct b. Qed.

Lemma type_header b : type_byte b = true -> header_byte b = true.
Proof. by destruct b. Qed.

Lemma dec_header n : 0 <= n -> forallb header_byte (dec_bytes n) = true.
Proof.
  intros Hn. apply forallb_Forall. eapply Forall_impl; [apply dec_bytes_digits, Hn|].
  intros b. apply digit_header.
Qed.

Lemma render_msg_header secs millis serial : 0 <= secs -> 0 <= millis -> 0 <= serial ->
  forallb header_byte (render_msg secs millis serial) = true.
Proof.
  intros Hs Hm Hr. unfold render_msg. rewrite !forallb_app. cbn [forallb].
  rewrite forallb_app. cbn [forallb]. by rewrite !dec_header.
Qed.

Lemma header_bytes_field k v : forallb header_byte k = true -> forallb header_byte v = true ->
  field_ok {| f_key := map b2z k; f_value := map b2z v; f_quoted := false |} = true.
Proof.
  intros Hk Hv. unfold field_ok. cbn [f_key f_value f_quoted].
  rewrite forallb_forall in Hk, Hv. apply andb_true_iff. split; apply forallb_forall;
    intros c (b & <- & Hb)%in_map_iff.
  - specialize (Hk b Hb). by apply andb_true_iff in Hk as [_ Hk].
  - specialize (Hv b Hb). apply andb_true_iff in Hv as [_ Hv]. unfold key_char in Hv.
    by apply andb_true_iff in Hv as [Hv _].
Qed.

Lemma string_of_ascii l : Forall (fun b => is_ascii b = true) l ->
  string_of_chars (map b2z l) = of_bytes l.
Proof. intros Hl. unfold string_of_chars. by rewrite flat_map_utf8_ascii. Qed.

Lemma header_ascii l : forallb header_byte l = true -> Forall (fun b => is_ascii b = true) l.
Proof.
  rewrite forallb_Forall. intros Hl. eapply Forall_impl; [exact Hl|].
  intros b Hb. by apply andb_true_iff in Hb as [? _].
Qed.

(** The two fields of the header, with whatever [header_byte]s follow the message id. *)
Lemma tokenize_header ty secs millis serial t :
  header_ok ty secs millis serial = true -> forallb header_byte t = true ->
  tokenize (of_bytes (render_header ty secs millis serial ++ t))
  = <["msg" := of_bytes (render_msg secs millis serial ++ t)]> {["type" := ty]}.
Proof.
  intros H Ht. unfold header_ok in H. rewrite !andb_true_iff, !fits_iff in H.
  destruct H as ((((Hty & Hs) & Hm) & Hr) & _).
  assert (forallb header_byte (bytes_of ty) = true) as Hty'.
  { apply forallb_Forall. apply forallb_Forall in Hty.
    eapply Forall_impl; [exact Hty|]. intros b. apply type_header. }
  assert (forallb header_byte (render_msg secs millis serial ++ t) = true) as Hmsg.
  { rewrite forallb_app. rewrite render_msg_header by lia. done. }
  unfold tokenize, chars. rewrite bytes_of_of_bytes, utf8_decode_ascii.
  2:{ unfold render_header. rewrite <- !app_assoc. 
      apply Forall_app_2; [by apply forallb_Forall|].
      apply Forall_app_2; [by apply header_ascii|].
      apply Forall_app_2; [by apply forallb_Forall|]. by apply header_ascii. }
  set (f1 := {| f_key := map b2z (bytes_of "type"); f_value := map b2z (bytes_of ty);
                f_quoted := false |}).
  set (f2 := {| f_key := map b2z (bytes_of "msg");
                f_value := map b2z (render_msg secs millis serial ++ t); f_quoted := false |}).
  replace (map b2z (render_header ty secs millis serial ++ t)) with (render_fields [f1; f2]).
  2:{ unfold render_header, f1, f2. cbn [render_fields]. unfold render_field.
      cbn [f_key f_value f_quoted]. rewrite <- !app_assoc, !map_app. done. }
  rewrite tokenize_fields.
  2:{ repeat constructor; by apply header_bytes_field. }
  unfold collect_map, field_pair, f1, f2. cbn [map f_key f_value fold_left fst snd].
  rewrite !string_of_ascii by by apply header_ascii. rewrite !of_bytes_bytes_of.
  by rewrite insert_empty.
Qed.

Lemma head_split_all c x y : c ∉ x -> head (split_all c (x ++ c :: y)) = Some x.
Proof.
  induction x as [|b x IH]; intros Hx; simpl; [by rewrite decide_True|].
  apply not_elem_of_cons in Hx as [Hb Hx]. rewrite decide_False by congruence.
  specialize (IH Hx). destruct (split_all c (x ++ c :: y)) as [|s l]; [done|].
  simpl in *. congruence.
Qed.

Lemma dec_not_in c n : is_digit c = false -> 0 <= n -> c ∉ dec_bytes n.
Proof. intros Hc Hn. apply not_in_digits; [done|by apply dec_bytes_digits]. Qed.

Lemma parse_msg ty secs millis serial t :
  header_ok ty secs millis serial = true ->
  parse_audit_msg_id (of_bytes (render_msg secs millis serial ++ z2b 41 :: t))
  = Some {| am_timestamp_ns := secs * 1000000000 + millis * 1000000; am_serial := serial |}.
Proof.
  intros H. unfold header_ok in H. rewrite !andb_true_iff in H.
  destruct H as ((((_ & Hs) & Hm) & Hr) & Hts).
  assert (0 <= secs /\ 0 <= millis /\ 0 <= serial) as (Hs0 & Hm0 & Hr0).
  { rewrite !fits_iff in Hs, Hm, Hr. lia. }
  unfold parse_audit_msg_id, render_msg. rewrite bytes_of_of_bytes, <- !app_assoc.
  rewrite (proj2 (strip_prefix_spec _ _ _) eq_refl). cbn [mbind option_bind].
  replace (dec_bytes secs ++ (z2b 46 :: dec_bytes millis ++ z2b 58 :: dec_bytes serial)
             ++ z2b 41 :: t)
    with (((dec_bytes secs ++ z2b 46 :: dec_bytes millis) ++ z2b 58 :: dec_bytes serial)
            ++ z2b 41 :: t)
    by (rewrite <- !app_assoc; cbn [app]; by rewrite <- !app_assoc).
  rewrite head_split_all.
  2:{ rewrite !elem_of_app, !elem_of_cons.
      pose proof (dec_not_in (z2b 41) secs eq_refl Hs0).
      pose proof (dec_not_in (z2b 41) millis eq_refl Hm0).
      pose proof (dec_not_in (z2b 41) serial eq_refl Hr0). naive_solver. }
  cbn [mbind option_bind]. rewrite split_once_app.
  2:{ rewrite elem_of_app, elem_of_cons.
      pose proof (dec_not_in (z2b 58) secs eq_refl Hs0).
      pose proof (dec_not_in (z2b 58) millis eq_refl Hm0). naive_solver. }
  cbn [mbind option_bind]. rewrite split_once_app by by apply dec_not_in.
  cbn [mbind option_bind]. rewrite !parse_dec_bytes by done. cbn [mbind option_bind].
  by rewrite Z.mod_small by by apply fits_iff.
Qed.

(** ** The layers of a record *)

(** No position of [x] starts an occurrence of [p] in [x ++ y]. *)
Definition no_start (p x y : list byte) : Prop :=
  forall a b, x = a ++ b -> b <> [] -> is_prefix p (b ++ y) = false.

Lemma no_start_first c p x y : c ∉ x -> no_start (c :: p) x y.
Proof.
  intros Hx a b -> Hb. destruct b as [|d b]; [done|]. cbn [app is_prefix].
  rewrite bool_decide_false; [done|]. intros ->. apply Hx, elem_of_app. right. by left.
Qed.

Lemma header_find ty secs millis serial body :
  header_ok ty secs millis serial = true ->
  find_sub (bytes_of "): ") (render_header ty secs millis serial ++ bytes_of "): " ++ body)
  = Some (render_header ty secs millis serial, body).
Proof.
  intros H. apply find_sub_app. apply (no_start_first (z2b 41) (bytes_of ": ")).
  unfold header_ok in H. rewrite !andb_true_iff, !fits_iff in H.
  destruct H as ((((Hty & Hs) & Hm) & Hr) & _).
  assert (z2b 41 ∉ bytes_of ty).
  { intros Hin. apply forallb_Forall in Hty. rewrite Forall_forall in Hty. by apply Hty in Hin. }
  pose proof (dec_not_in (z2b 41) secs eq_refl ltac:(lia)).
  pose proof (dec_not_in (z2b 41) millis eq_refl ltac:(lia)).
  pose proof (dec_not_in (z2b 41) serial eq_refl ltac:(lia)).
  unfold render_header, render_msg. rewrite !elem_of_app, !elem_of_cons, !elem_of_app, !elem_of_cons.
  assert (z2b 41 ∉ bytes_of "type=" /\ z2b 41 ∉ bytes_of " msg=" /\ z2b 41 ∉ bytes_of "audit(")
    as (? & ? & ?) by (repeat split; by apply (bool_decide_unpack _)).
  naive_solver.
Qed.

Lemma split_layers_app o i t :
  no_start (bytes_of "msg='") o (bytes_of "msg='" ++ i ++ apostrophe :: t) -> apostrophe ∉ t ->
  split_layers (o ++ bytes_of "msg='" ++ i ++ apostrophe :: t) = (o ++ t, i).
Proof.
  intros Ho Ht. unfold split_layers. rewrite find_sub_app by done. by rewrite rsplit_once_app.
Qed.

(** The layers of a [USER_*] record are kept apart: for a record with the given header, an
    outer text in which the inner sub-record has not begun and a rest without apostrophe,
    the inner text being arbitrary, the outer fields are exactly those of the outer text and
    the inner fields exactly those of the inner text. *)
Lemma split_record_isolates ty secs millis serial o i t :
  header_ok ty secs millis serial = true ->
  no_start (bytes_of "msg='") o (bytes_of "msg='" ++ i ++ apostrophe :: t) ->
  apostrophe ∉ t ->
  split_record (of_bytes (render_header ty secs millis serial ++ bytes_of "): "
                            ++ o ++ bytes_of "msg='" ++ i ++ apostrophe :: t))
  = Some {| rp_id := {| am_timestamp_ns := secs * 1000000000 + millis * 1000000;
                        am_serial := serial |};
            record_type := ty;
            outer := tokenize (of_bytes (o ++ t)); inner := tokenize (of_bytes i) |}.
Proof.
  intros Hh Ho Ht. unfold split_record.
  rewrite bytes_of_of_bytes, header_find by done. cbn [mbind option_bind].
  change (bytes_of "):") with [z2b 41; z2b 58]. rewrite tokenize_header by done.
  rewrite lookup_insert_eq. cbn [mbind option_bind].
  rewrite (parse_msg ty) by done. cbn [mbind option_bind].
  rewrite lookup_insert_ne, lookup_singleton_eq by done. cbn [mbind option_bind].
  by rewrite split_layers_app.
Qed.

(** A field the outer layer has is never read from the inner one. *)
Lemma rp_get_outer r k v : outer r !! k = Some v -> rp_get r k = Some v.
Proof. intros H. unfold rp_get. by rewrite H. Qed.
