(* ===== verification/AuditText.v ===== *)
(** * The text of Linux audit records

    How the kernel prints the records the sensors read: words separated by blanks, each a
    key and a value; an untrusted value is quoted when every byte is printable ASCII other
    than the quote and printed as upper-case hex otherwise ([audit_log_untrustedstring]).
    The sensors' round-trip theorems are stated over these records; this file shows that
    the tokenizer of [FileUtil] reads them back. *)

From S2P Require Import Prelude FileUtil.

Definition double_quote : byte := z2b 34.
Definition hex_digit (n : Z) : byte := z2b (if n <? 10 then 48 + n else 55 + n).
Definition hex_byte (b : byte) : list byte := [hex_digit (b2z b / 16); hex_digit (b2z b mod 16)].
Definition quotable (b : byte) : bool := in_byte 33 126 b && negb (b2z b =? 34).
Definition upper_hex (b : byte) : bool := is_digit b || in_byte 65 70 b.

Definition render_value (a : list byte) : list byte :=
  if forallb quotable a then double_quote :: a ++ [double_quote] else flat_map hex_byte a.

Record kv := { kv_key : list byte; kv_value : list byte; kv_untrusted : bool }.

Definition render_kv (f : kv) : list byte :=
  kv_key f ++ z2b 61 :: (if kv_untrusted f then render_value (kv_value f) else kv_value f).

Definition key_byte (b : byte) : bool := quotable b && negb (b2z b =? 61).

Definition kv_ok (f : kv) : bool :=
  forallb key_byte (kv_key f) && (kv_untrusted f || forallb quotable (kv_value f)).

(** The value as the tokenizer returns it: without quotes, hex not decoded. *)
Definition logged (f : kv) : list byte :=
  if kv_untrusted f && negb (forallb quotable (kv_value f))
  then flat_map hex_byte (kv_value f) else kv_value f.

Fixpoint unwords (ws : list (list byte)) : list byte :=
  match ws with
  | [] => []
  | [w] => w
  | w :: ws => w ++ z2b 32 :: unwords ws
  end.

Definition kv_type (ty : string) : kv :=
  {| kv_key := bytes_of "type"; kv_value := bytes_of ty; kv_untrusted := false |}.
Definition kv_msg (secs millis serial : Z) : kv :=
  {| kv_key := bytes_of "msg";
     kv_value := render_msg secs millis serial ++ [z2b 41; z2b 58]; kv_untrusted := false |}.

(** A record of the given type in the event with the given header. *)
Definition audit_record_line (ty : string) (secs millis serial : Z) (fs : list kv) : string :=
  of_bytes (unwords (map render_kv (kv_type ty :: kv_msg secs millis serial :: fs))).

Definition audit_event_id (secs millis serial : Z) : AuditMsgId :=
  {| am_timestamp_ns := secs * 1000000000 + millis * 1000000; am_serial := serial |}.

(** ** Values *)

Lemma hex_bytes_upper a : forallb upper_hex (flat_map hex_byte a) = true.
Proof.
  induction a as [|b a IH]; [done|]. cbn [flat_map hex_byte app forallb]. rewrite IH.
  by destruct b.
Qed.

Lemma hex_bytes_even a : Nat.even (List.length (flat_map hex_byte a)) = true.
Proof. induction a as [|b a IH]; [done|]. simpl. exact IH. Qed.

Lemma upper_quotable b : upper_hex b = true -> quotable b = true.
Proof. by destruct b. Qed.

Lemma forallb_impl {A} (p q : A -> bool) l :
  (forall a, p a = true -> q a = true) -> forallb p l = true -> forallb q l = true.
Proof. intros Hpq. rewrite !forallb_forall. auto. Qed.

Lemma hex_bytes_quotable a : forallb quotable (flat_map hex_byte a) = true.
Proof. eapply forallb_impl; [apply upper_quotable|apply hex_bytes_upper]. Qed.

Lemma digit_quotable b : is_digit b = true -> quotable b = true.
Proof. by destruct b. Qed.

Lemma dec_quotable n : 0 <= n -> forallb quotable (dec_bytes n) = true.
Proof.
  intros Hn. apply (forallb_impl is_digit); [apply digit_quotable|].
  by apply forallb_Forall, dec_bytes_digits.
Qed.

(** ** Words: printable ASCII, so that they are exactly the gaps between the blanks *)

Definition word_byte (b : byte) : bool := in_byte 33 126 b.
Definition word_ok (w : list byte) : Prop := w <> [] /\ forallb word_byte w = true.

Lemma word_byte_ascii b : word_byte b = true -> is_ascii b = true.
Proof. by destruct b. Qed.

Lemma word_byte_not_white b : word_byte b = true -> is_whitespace (b2z b) = false.
Proof. by destruct b. Qed.

Lemma quotable_word b : quotable b = true -> word_byte b = true.
Proof. by destruct b. Qed.

Lemma render_value_word a : forallb word_byte (render_value a) = true.
Proof.
  unfold render_value. destruct (forallb quotable a) eqn:E.
  - cbn [forallb]. rewrite forallb_app. simpl. rewrite andb_true_r.
    by eapply forallb_impl; [apply quotable_word|].
  - eapply forallb_impl; [apply quotable_word|apply hex_bytes_quotable].
Qed.

Lemma render_kv_word f : kv_ok f = true -> word_ok (render_kv f).
Proof.
  intros [Hk Hv]%andb_true_iff. unfold render_kv. split; [by destruct (kv_key f)|].
  rewrite forallb_app. cbn [forallb]. apply andb_true_iff. split.
  - eapply forallb_impl; [|exact Hk]. by intros [].
  - apply andb_true_iff. split; [done|]. destruct (kv_untrusted f); [apply render_value_word|].
    by eapply forallb_impl; [apply quotable_word|].
Qed.

Lemma word_ascii w : word_ok w -> Forall (fun b => is_ascii b = true) w.
Proof.
  intros [_ Hw]. apply forallb_Forall. eapply forallb_impl; [apply word_byte_ascii|exact Hw].
Qed.

Lemma unwords_ascii ws : Forall word_ok ws -> Forall (fun b => is_ascii b = true) (unwords ws).
Proof.
  induction 1 as [|w ws Hw Hws IH]; [constructor|]. destruct ws as [|v ws]; [by apply word_ascii|].
  change (unwords (w :: v :: ws)) with (w ++ z2b 32 :: unwords (v :: ws)).
  apply Forall_app_2; [by apply word_ascii|]. by constructor.
Qed.

Lemma split_unwords ws : Forall word_ok ws ->
  split_whitespace (map b2z (unwords ws)) = map (map b2z) ws.
Proof.
  induction 1 as [|w ws [Hne Hw] Hws IH]; [done|].
  assert (map b2z w <> []) by by destruct w.
  assert (Forall (fun c => is_whitespace c = false) (map b2z w)).
  { apply Forall_fmap. apply forallb_Forall in Hw. eapply Forall_impl; [exact Hw|].
    intros b. apply word_byte_not_white. }
  destruct ws as [|v ws]; [by apply split_whitespace_word|].
  change (unwords (w :: v :: ws)) with (w ++ z2b 32 :: unwords (v :: ws)).
  rewrite map_app. cbn [map]. rewrite split_whitespace_cons by done. by rewrite IH.
Qed.

Lemma no_separator ws : Forall word_ok ws -> z2b ENRICHMENT_SEPARATOR ∉ unwords ws.
Proof.
  induction 1 as [|w ws [_ Hw] Hws IH]; [apply not_elem_of_nil|].
  assert (z2b ENRICHMENT_SEPARATOR ∉ w) as Hn.
  { intros Hin. apply forallb_Forall in Hw. rewrite Forall_forall in Hw. by apply Hw in Hin. }
  destruct ws as [|v ws]; [done|].
  change (unwords (w :: v :: ws)) with (w ++ z2b 32 :: unwords (v :: ws)).
  rewrite elem_of_app, elem_of_cons. by intros [?|[?|?]].
Qed.

(** ** Fields *)

Definition kv_field (f : kv) : field :=
  {| f_key := map b2z (kv_key f); f_value := map b2z (logged f);
     f_quoted := kv_untrusted f && forallb quotable (kv_value f) |}.

Definition kv_pair (f : kv) : string * string := (of_bytes (kv_key f), of_bytes (logged f)).

Lemma kv_field_render f : render_field (kv_field f) = map b2z (render_kv f).
Proof.
  unfold render_field, kv_field, render_kv, logged, render_value. cbn [f_key f_value f_quoted].
  destruct (kv_untrusted f), (forallb quotable (kv_value f)); cbn [andb negb];
    rewrite !map_app; cbn [map]; rewrite ?map_app; done.
Qed.

Lemma logged_quotable f : kv_ok f = true -> forallb quotable (logged f) = true.
Proof.
  intros [_ Hv]%andb_true_iff. unfold logged.
  destruct (kv_untrusted f), (forallb quotable (kv_value f)) eqn:E; try done.
  apply hex_bytes_quotable.
Qed.

Lemma kv_field_ok f : kv_ok f = true -> field_ok (kv_field f) = true.
Proof.
  intros Hf. pose proof (logged_quotable f Hf) as Hv. apply andb_true_iff in Hf as [Hk _].
  unfold field_ok, kv_field. cbn [f_key f_value f_quoted]. apply andb_true_iff.
  rewrite forallb_forall in Hk, Hv. split; apply forallb_forall; intros c (b & <- & Hb)%in_map_iff.
  - specialize (Hk b Hb). revert Hk. by destruct b.
  - specialize (Hv b Hb). apply andb_true_iff. split; [revert Hv; by destruct b|].
    apply orb_true_iff. right. revert Hv. by destruct b.
Qed.

Lemma kv_field_pair f : kv_ok f = true -> field_pair (kv_field f) = kv_pair f.
Proof.
  intros Hf. pose proof (logged_quotable f Hf) as Hv. apply andb_true_iff in Hf as [Hk _].
  unfold field_pair, kv_field, kv_pair. cbn [f_key f_value].
  rewrite !string_of_ascii; [done|apply forallb_Forall..].
  - eapply forallb_impl; [|exact Hv]. by intros [].
  - eapply forallb_impl; [|exact Hk]. by intros [].
Qed.

Lemma render_fields_unwords fs ws : map render_field fs = map (map b2z) ws ->
  render_fields fs = map b2z (unwords ws).
Proof.
  revert ws; induction fs as [|f fs IH]; intros [|w ws] E; try done. injection E as E1 E2.
  destruct fs as [|g fs], ws as [|v ws]; try done.
  change (render_fields (f :: g :: fs)) with (render_field f ++ 32 :: render_fields (g :: fs)).
  change (unwords (w :: v :: ws)) with (w ++ z2b 32 :: unwords (v :: ws)).
  rewrite map_app. cbn [map]. by rewrite E1, (IH (v :: ws)).
Qed.

Lemma collect_other k l : forall m, Forall (fun p => p.1 <> k) l ->
  fold_left (fun (m : gmap string string) p => <[p.1 := p.2]> m) l m !! k = m !! k.
Proof.
  induction l as [|p l IH]; intros m Hl; [done|]. inversion_clear Hl.
  simpl. rewrite IH by done. by apply lookup_insert_ne.
Qed.

(** ** Records *)

Section Record.
Context (ty : string) (secs millis serial : Z).
Hypothesis Hheader : header_ok ty secs millis serial = true.

Lemma header_kvs : kv_ok (kv_type ty) = true /\ kv_ok (kv_msg secs millis serial) = true.
Proof.
  unfold header_ok in Hheader. rewrite !andb_true_iff, !fits_iff in Hheader.
  destruct Hheader as ((((Hty & Hs) & Hm) & Hr) & _). split.
  - unfold kv_ok, kv_type. cbn [kv_key kv_value kv_untrusted orb]. apply andb_true_iff.
    split; [done|]. eapply forallb_impl; [|exact Hty]. by intros [].
  - unfold kv_ok, kv_msg, render_msg. cbn [kv_key kv_value kv_untrusted orb]. apply andb_true_iff.
    split; [done|]. rewrite !forallb_app. cbn [forallb]. rewrite forallb_app. cbn [forallb].
    by rewrite !dec_quotable by lia.
Qed.

Lemma record_words fs : Forall (fun f => kv_ok f = true) fs ->
  Forall word_ok (map render_kv (kv_type ty :: kv_msg secs millis serial :: fs)).
Proof.
  intros Hfs. destruct header_kvs as [H1 H2]. apply Forall_fmap.
  repeat constructor; try by apply render_kv_word.
  eapply Forall_impl; [exact Hfs|]. intros f. apply render_kv_word.
Qed.

(** The tokenizer reads a record back. *)
Lemma tokenize_record fs : Forall (fun f => kv_ok f = true) fs ->
  tokenize (audit_record_line ty secs millis serial fs)
  = collect_map (map kv_pair (kv_type ty :: kv_msg secs millis serial :: fs)).
Proof.
  intros Hfs. destruct header_kvs as [H1 H2].
  assert (Forall (fun f => kv_ok f = true) (kv_type ty :: kv_msg secs millis serial :: fs)) as Hall
    by by repeat constructor.
  unfold tokenize, chars, audit_record_line. rewrite bytes_of_of_bytes.
  rewrite utf8_decode_ascii by by apply unwords_ascii, record_words.
  revert Hall. generalize (kv_type ty :: kv_msg secs millis serial :: fs). intros l Hl.
  rewrite <- (render_fields_unwords (map kv_field l)).
  2:{ rewrite !map_map. apply map_ext. apply kv_field_render. }
  rewrite tokenize_fields.
  2:{ apply Forall_fmap. eapply Forall_impl; [exact Hl|]. intros f. apply kv_field_ok. }
  f_equal. rewrite map_map. induction Hl as [|f l Hf _ IH]; [done|]. cbn [map].
  by rewrite kv_field_pair, IH.
Qed.

(** Its type and event id, when no other field has those keys. *)
Lemma record_header fs : Forall (fun f => kv_ok f = true) fs ->
  Forall (fun f => kv_key f <> bytes_of "type" /\ kv_key f <> bytes_of "msg") fs ->
  tokenize (audit_record_line ty secs millis serial fs) !! "type" = Some ty
  /\ tokenize (audit_record_line ty secs millis serial fs) !! "msg" ≫= parse_audit_msg_id
     = Some (audit_event_id secs millis serial).
Proof.
  intros Hfs Hkeys. rewrite tokenize_record by done. unfold collect_map. cbn [map fold_left].
  assert (forall k, k = "type" \/ k = "msg" -> Forall (fun p => p.1 <> k) (map kv_pair fs)) as Hk.
  { intros k Hk. apply Forall_fmap. eapply Forall_impl; [exact Hkeys|].
    intros f [H1 H2] E. cbn in E. apply (f_equal bytes_of) in E. rewrite bytes_of_of_bytes in E.
    destruct Hk as [->| ->]; done. }
  rewrite !collect_other by (apply Hk; auto).
  change (kv_pair (kv_type ty)) with ("type", of_bytes (bytes_of ty)).
  change (kv_pair (kv_msg secs millis serial))
    with ("msg", of_bytes (render_msg secs millis serial ++ z2b 41 :: [z2b 58])).
  rewrite of_bytes_bytes_of. cbn [fst snd]. split; [done|].
  rewrite lookup_insert_eq. cbn [mbind option_bind]. by rewrite (parse_msg ty).
Qed.

End Record.
