(* ===== verification/ProcAudit.v ===== *)
(** * Process sensor, audit backend: [crates/osiris-sensors/process]

    [audit_line.rs]: an exec from a [SYSCALL] record.  [execve.rs]: the argument vector
    from the [EXECVE] records, bounded in number and bytes.  [assembler.rs]: the join of
    both by the id of the kernel's audit event. *)

From S2P Require Import Prelude RawEvent FileUtil AuditText.

(** ** [audit_line.rs] *)

Definition EXECVE_SYSCALL : string := "59".
Definition EXECVEAT_SYSCALL : string := "322".

Definition exec_from_syscall_fields (fields : gmap string string) : option ProcessExecRaw :=
  syscall ← fields !! "syscall";
  if negb (syscall =? EXECVE_SYSCALL)%string && negb (syscall =? EXECVEAT_SYSCALL)%string then None
  else
    pid ← fields !! "pid" ≫= parse_uint 32;
    ppid ← fields !! "ppid" ≫= parse_uint 32;
    uid ← fields !! "uid" ≫= parse_uint 32;
    comm ← fields !! "comm";
    exe_path ← fields !! "exe";
    let timestamp_ns := default 0 (am_timestamp_ns <$> (fields !! "msg" ≫= parse_audit_msg_id)) in
    Some {| px_pid := pid; px_ppid := ppid; px_uid := uid; px_exe_path := exe_path;
            px_comm := comm; px_cmdline := []; px_timestamp_ns := timestamp_ns;
            px_start_time_mono := timestamp_ns; px_source := RAudit |}.

Definition parse_audit_line (line : string) : option ProcessExecRaw :=
  let fields := tokenize line in
  if bool_decide (fields !! "type" = Some "SYSCALL") then exec_from_syscall_fields fields else None.

(** ** [execve.rs] *)

Definition MAX_ARGS : nat := 128.
Definition MAX_ARGV_BYTES : nat := 16 * 1024.

Record Arg := { arg_kept : list byte; received : nat; split_len : option Z; whole : bool }.

Definition arg_default : Arg :=
  {| arg_kept := []; received := 0; split_len := None; whole := false |}.

Definition is_done (a : Arg) : bool :=
  whole a || match split_len a with Some len => len <=? Z.of_nat (received a) | None => false end.

Definition dropped (a : Arg) : bool :=
  match arg_kept a with [] => (0 <? received a)%nat | _ => false end.

Record ArgvCollector := { argc : option Z; args : gmap nat Arg; kept_bytes : nat }.

Definition collector_default : ArgvCollector :=
  {| argc := None; args := ∅; kept_bytes := 0 |}.

(** [hex_nibble] on the upper-case digits [decode_value] has checked. *)
Definition hex_nibble (b : byte) : Z :=
  if in_byte 48 57 b then b2z b - 48 else b2z b - 65 + 10.

Fixpoint hex_pairs (l : list byte) : list byte :=
  match l with
  | h :: l' :: rest => z2b (Z.lor (Z.shiftl (hex_nibble h) 4) (hex_nibble l')) :: hex_pairs rest
  | _ => []
  end.

Definition decode_value (value : list byte) : list byte :=
  match strip_prefix [double_quote] value ≫= strip_suffix [double_quote] with
  | Some inner => inner
  | None =>
      let is_hex := match value with [] => false | _ => true end
                    && Nat.even (List.length value) && forallb upper_hex value in
      if is_hex then hex_pairs value else value
  end.

Definition append_arg (c : ArgvCollector) (index : Z) (value : list byte) (is_whole : bool)
  : ArgvCollector :=
  if Z.of_nat MAX_ARGS <=? index then c
  else
    let decoded := decode_value value in
    let room := (MAX_ARGV_BYTES - kept_bytes c)%nat in
    let n := Nat.min (List.length decoded) room in
    let index := Z.to_nat index in
    let a := default arg_default (args c !! index) in
    {| argc := argc c;
       args := <[index := {| arg_kept := arg_kept a ++ take n decoded;
                             received := received a + List.length decoded;
                             split_len := split_len a; whole := whole a || is_whole |}]> (args c);
       kept_bytes := kept_bytes c + n |}.

Definition set_split_len (c : ArgvCollector) (index : Z) (len : Z) : ArgvCollector :=
  if Z.of_nat MAX_ARGS <=? index then c
  else
    let index := Z.to_nat index in
    let a := default arg_default (args c !! index) in
    {| argc := argc c;
       args := <[index := {| arg_kept := arg_kept a; received := received a;
                             split_len := Some len; whole := whole a |}]> (args c);
       kept_bytes := kept_bytes c |}.

(** One token of the record. *)
Definition feed_token (c : ArgvCollector) (token : list byte) : ArgvCollector :=
  match split_once (z2b 61) token with
  | None => c
  | Some (key, value) =>
      if (of_bytes key =? "argc")%string then
        {| argc := parse_uint_bytes 64 value; args := args c; kept_bytes := kept_bytes c |}
      else
        match strip_prefix (bytes_of "a") key with
        | None => c
        | Some rest =>
            match strip_suffix (bytes_of "_len") rest with
            | Some index =>
                match parse_uint_bytes 64 index, parse_uint_bytes 64 value with
                | Some index, Some len => set_split_len c index len
                | _, _ => c
                end
            | None =>
                match split_once (z2b 91) rest with
                | Some (index, _chunk) =>
                    match parse_uint_bytes 64 index with
                    | Some index => append_arg c index value false
                    | None => c
                    end
                | None =>
                    match parse_uint_bytes 64 rest with
                    | Some index => append_arg c index value true
                    | None => c
                    end
                end
            end
        end
  end.

Definition word_bytes (w : list char) : list byte := flat_map utf8_encode w.

Definition feed (c : ArgvCollector) (line : string) : ArgvCollector :=
  let kernel_fields := default [] (head (split_all (z2b ENRICHMENT_SEPARATOR) (bytes_of line))) in
  fold_left feed_token (map word_bytes (split_whitespace (utf8_decode kernel_fields))) c.

Definition wanted (c : ArgvCollector) : nat :=
  match argc c with
  | Some n => Z.to_nat (Z.min n (Z.of_nat MAX_ARGS))
  | None => MAX_ARGS
  end.

Definition is_complete (c : ArgvCollector) : bool :=
  match argc c with
  | None => false
  | Some _ => forallb (fun i => match args c !! i with Some a => is_done a | None => false end)
                (seq 0 (wanted c))
  end.

(** [map_while]: up to the first argument that is missing or was dropped. *)
Fixpoint kept_args (c : ArgvCollector) (indices : list nat) : list (list byte) :=
  match indices with
  | [] => []
  | i :: indices =>
      match args c !! i with
      | Some a => if dropped a then [] else arg_kept a :: kept_args c indices
      | None => []
      end
  end.

Definition into_argv (c : ArgvCollector) : list string :=
  map from_utf8_lossy (kept_args c (seq 0 (wanted c))).

(** ** [assembler.rs] *)

Record PendingExec := {
  pend_id : AuditMsgId; pend_exec : ProcessExecRaw; pend_argv : ArgvCollector; last_seen : Z }.

Record ExecAssembler := { exec_pending : option PendingExec; completion_timeout : Z }.

Definition exec_new (timeout : Z) : ExecAssembler :=
  {| exec_pending := None; completion_timeout := timeout |}.

Definition with_cmdline (e : ProcessExecRaw) (argv : list string) : ProcessExecRaw :=
  {| px_pid := px_pid e; px_ppid := px_ppid e; px_uid := px_uid e; px_exe_path := px_exe_path e;
     px_comm := px_comm e; px_cmdline := argv; px_timestamp_ns := px_timestamp_ns e;
     px_start_time_mono := px_start_time_mono e; px_source := px_source e |}.

Definition set_pending (s : ExecAssembler) (p : option PendingExec) : ExecAssembler :=
  {| exec_pending := p; completion_timeout := completion_timeout s |}.

Definition exec_take_pending (s : ExecAssembler) : option ProcessExecRaw * ExecAssembler :=
  match exec_pending s with
  | None => (None, s)
  | Some p => (Some (with_cmdline (pend_exec p) (into_argv (pend_argv p))), set_pending s None)
  end.

Definition opt_list {A} (o : option A) : list A := match o with Some a => [a] | None => [] end.

Definition exec_offer (s : ExecAssembler) (line : string) (now : Z)
  : list ProcessExecRaw * ExecAssembler :=
  let fields := tokenize line in
  match fields !! "msg" ≫= parse_audit_msg_id with
  | None => ([], s)
  | Some id =>
      let '(released, s) :=
        match exec_pending s with
        | Some p => if decide (pend_id p = id) then ([], s)
                    else let '(o, s) := exec_take_pending s in (opt_list o, s)
        | None => ([], s)
        end in
      match fields !! "type" with
      | None => (released, s)
      | Some ty =>
          if (ty =? "SYSCALL")%string then
            match exec_from_syscall_fields fields with
            | Some exec =>
                (released, set_pending s (Some {| pend_id := id; pend_exec := exec;
                                                  pend_argv := collector_default;
                                                  last_seen := now |}))
            | None => (released, s)
            end
          else
            match exec_pending s with
            | None => (released, s)
            | Some p =>
                if (ty =? "EXECVE")%string then
                  let argv := feed (pend_argv p) line in
                  let s := set_pending s (Some {| pend_id := pend_id p; pend_exec := pend_exec p;
                                                  pend_argv := argv; last_seen := now |}) in
                  if is_complete argv then
                    let '(o, s) := exec_take_pending s in (released ++ opt_list o, s)
                  else (released, s)
                else
                  (released, set_pending s (Some {| pend_id := pend_id p; pend_exec := pend_exec p;
                                                    pend_argv := pend_argv p; last_seen := now |}))
            end
      end
  end.

(** [Instant::duration_since] saturates at zero. *)
Definition exec_tick (s : ExecAssembler) (now : Z) : option ProcessExecRaw * ExecAssembler :=
  match exec_pending s with
  | Some p => if completion_timeout s <=? Z.max 0 (now - last_seen p) then exec_take_pending s
              else (None, s)
  | None => (None, s)
  end.

Definition exec_flush (s : ExecAssembler) : option ProcessExecRaw * ExecAssembler :=
  exec_take_pending s.

(** ** The records the kernel writes

    As [execve.rs] documents them: an argument is logged whole ([aI=]), or split as its
    length in bytes ([aI_len=]) and its chunks ([aI[J]=]); the pieces may go to any number
    of records of the event, and only the first record carries [argc]. *)

Inductive exec_arg := Whole (a : list byte) | Split (parts : list (list byte)).

Definition arg_bytes (x : exec_arg) : list byte :=
  match x with Whole a => a | Split parts => concat parts end.

Inductive piece :=
| PWhole (i : nat) (a : list byte)
| PLen (i len : nat)
| PChunk (i j : nat) (part : list byte).

Fixpoint arg_chunks (i j : nat) (parts : list (list byte)) : list piece :=
  match parts with
  | [] => []
  | part :: parts => PChunk i j part :: arg_chunks i (S j) parts
  end.

Definition arg_pieces (i : nat) (x : exec_arg) : list piece :=
  match x with
  | Whole a => [PWhole i a]
  | Split parts => PLen i (List.length (concat parts)) :: arg_chunks i 0 parts
  end.

Fixpoint argv_pieces (i : nat) (xs : list exec_arg) : list piece :=
  match xs with
  | [] => []
  | x :: xs => arg_pieces i x ++ argv_pieces (S i) xs
  end.

Definition arg_key (i : nat) (suffix : list byte) : list byte :=
  bytes_of "a" ++ dec_bytes (Z.of_nat i) ++ suffix.

Definition kv_piece (p : piece) : kv :=
  match p with
  | PWhole i a => {| kv_key := arg_key i []; kv_value := a; kv_untrusted := true |}
  | PLen i len => {| kv_key := arg_key i (bytes_of "_len");
                     kv_value := dec_bytes (Z.of_nat len); kv_untrusted := false |}
  | PChunk i j part =>
      {| kv_key := arg_key i (bytes_of "[" ++ dec_bytes (Z.of_nat j) ++ bytes_of "]");
         kv_value := part; kv_untrusted := true |}
  end.

(** The fields of an [EXECVE] record; only the first record of an event carries [argc]. *)
Definition execve_fields (first : option nat) (ps : list piece) : list kv :=
  match first with
  | Some n => {| kv_key := bytes_of "argc"; kv_value := dec_bytes (Z.of_nat n);
                 kv_untrusted := false |} :: map kv_piece ps
  | None => map kv_piece ps
  end.

Definition execve_line (secs millis serial : Z) (first : option nat) (ps : list piece) : string :=
  audit_record_line "EXECVE" secs millis serial (execve_fields first ps).

(** What the collector is meant to keep: arguments up to a byte budget, the one that
    crosses it cut. *)
Fixpoint cap_argv (room : nat) (argv : list (list byte)) : list (list byte) :=
  match argv with
  | [] => []
  | a :: argv =>
      match a, room with
      | _ :: _, O => []
      | _, _ => take room a :: cap_argv (room - List.length a) argv
      end
  end.

Definition total_bytes (argv : list (list byte)) : nat := sum_list (List.length <$> argv).

(** ** Values *)

Lemma hex_pairs_hex a : hex_pairs (flat_map hex_byte a) = a.
Proof.
  induction a as [|b a IH]; [done|]. cbn [flat_map hex_byte app hex_pairs]. rewrite IH.
  f_equal. by destruct b.
Qed.

Lemma decode_render a : decode_value (render_value a) = a.
Proof.
  unfold decode_value, render_value. destruct (forallb quotable a) eqn:E.
  - change (double_quote :: a ++ [double_quote]) with ([double_quote] ++ a ++ [double_quote]).
    rewrite (proj2 (strip_prefix_spec _ _ _) eq_refl). cbn [mbind option_bind].
    by rewrite (proj2 (strip_suffix_spec _ _ _) eq_refl).
  - destruct a as [|b a]; [done|].
    replace (strip_prefix [double_quote] (flat_map hex_byte (b :: a))) with (@None (list byte))
      by (by destruct b).
    cbn [mbind option_bind]. rewrite hex_bytes_even, hex_bytes_upper.
    rewrite hex_pairs_hex. by destruct b.
Qed.

(** ** One token *)

Lemma digits_not_suffix n s r : 0 <= n -> forallb is_digit s = false ->
  dec_bytes n <> r ++ s.
Proof.
  intros Hn Hs E. pose proof (dec_bytes_digits n Hn) as Hd. rewrite E in Hd.
  apply Forall_app in Hd as [_ Hd]. apply forallb_Forall in Hd. congruence.
Qed.

Lemma dec_no_eq i suffix : z2b 61 ∉ suffix -> z2b 61 ∉ arg_key i suffix.
Proof.
  intros Hs. unfold arg_key. rewrite !elem_of_app.
  pose proof (dec_not_in (z2b 61) (Z.of_nat i) eq_refl ltac:(lia)).
  assert (z2b 61 ∉ bytes_of "a") by by apply (bool_decide_unpack _). naive_solver.
Qed.

Lemma arg_key_not_argc i suffix : of_bytes (arg_key i suffix) <> "argc".
Proof.
  intros E%(f_equal bytes_of). rewrite bytes_of_of_bytes in E. unfold arg_key in E.
  change (bytes_of "argc") with (bytes_of "a" ++ bytes_of "rgc") in E.
  apply app_inv_head in E. pose proof (dec_bytes_digits (Z.of_nat i) ltac:(lia)) as Hd.
  destruct (dec_bytes (Z.of_nat i)) as [|d ds] eqn:Ed; [by apply dec_bytes_nonempty in Ed|].
  injection E as -> _. by apply Forall_cons in Hd as [? _].
Qed.

(** What a token of one piece means to the collector. *)
Definition feed_piece (c : ArgvCollector) (p : piece) : ArgvCollector :=
  match p with
  | PWhole i a => append_arg c (Z.of_nat i) (render_value a) true
  | PLen i len => set_split_len c (Z.of_nat i) (Z.of_nat len)
  | PChunk i j part => append_arg c (Z.of_nat i) (render_value part) false
  end.

Definition piece_fits (p : piece) : Prop :=
  match p with
  | PWhole i _ | PChunk i _ _ => fits 64 (Z.of_nat i) = true
  | PLen i len => fits 64 (Z.of_nat i) = true /\ fits 64 (Z.of_nat len) = true
  end.

Lemma feed_token_piece c p : piece_fits p -> feed_token c (render_kv (kv_piece p)) = feed_piece c p.
Proof.
  intros Hp. unfold feed_token, render_kv.
  destruct p as [i a|i len|i j part]; cbn [kv_piece kv_key kv_value kv_untrusted piece_fits] in *;
    rewrite split_once_app.
  all: try (apply dec_no_eq; by apply (bool_decide_unpack _)).
  4: { apply dec_no_eq. rewrite !elem_of_app.
       pose proof (dec_not_in (z2b 61) (Z.of_nat j) eq_refl ltac:(lia)).
       assert (z2b 61 ∉ bytes_of "[" /\ z2b 61 ∉ bytes_of "]") as [??]
         by (split; by apply (bool_decide_unpack _)). naive_solver. }
  all: rewrite (proj2 (String.eqb_neq _ _) (arg_key_not_argc _ _)); unfold arg_key;
    rewrite (proj2 (strip_prefix_spec _ _ _) eq_refl).
  - rewrite app_nil_r. destruct (strip_suffix _ _) as [r|] eqn:E.
    { apply strip_suffix_spec in E. exfalso.
      by apply (digits_not_suffix (Z.of_nat i) (bytes_of "_len") r) in E; [|lia|]. }
    rewrite split_once_none by (apply dec_not_in; [done|lia]). by rewrite parse_dec_bytes.
  - rewrite (proj2 (strip_suffix_spec _ _ _) eq_refl).
    destruct Hp as [H1 H2]. by rewrite !parse_dec_bytes.
  - destruct (strip_suffix _ _) as [r|] eqn:E.
    { apply strip_suffix_spec in E. exfalso. rewrite !app_assoc in E.
      apply (f_equal (@rev _)) in E. by rewrite !rev_app_distr in E. }
    change (bytes_of "[") with [z2b 91]. cbn [app].
    rewrite split_once_app by (apply dec_not_in; [done|lia]). by rewrite parse_dec_bytes.
Qed.

(** ** The collector after the first pieces

    An entry per argument begun: the bytes logged so far, and the length announced for a
    split one. *)

Notation entry := (list byte * option nat)%type (only parsing).

Definition spent (l : list (list byte)) (i : nat) : nat := total_bytes (take i l).

Definition entry_at (l : list entry) (i : nat) (e : entry) : Arg :=
  {| arg_kept := take (MAX_ARGV_BYTES - spent l.*1 i) e.1; received := List.length e.1;
     split_len := Z.of_nat <$> e.2; whole := bool_decide (e.2 = None) |}.

Record coll (n : nat) (l : list entry) (c : ArgvCollector) : Prop := {
  coll_argc : argc c = Some (Z.of_nat n);
  coll_kept : kept_bytes c = Nat.min MAX_ARGV_BYTES (spent l.*1 MAX_ARGS);
  coll_args : forall i, args c !! i = if (i <? MAX_ARGS)%nat then entry_at l i <$> l !! i else None }.

Lemma total_bytes_app l m : total_bytes (l ++ m) = (total_bytes l + total_bytes m)%nat.
Proof. unfold total_bytes. by rewrite fmap_app, sum_list_with_app. Qed.

Lemma total_bytes_concat l : total_bytes l = List.length (concat l).
Proof.
  induction l as [|a l IH]; [done|]. cbn [concat]. rewrite length_app, <- IH. done.
Qed.

Lemma spent_app l m i : (i <= List.length l)%nat -> spent (l ++ m) i = spent l i.
Proof. intros Hi. unfold spent. by rewrite take_app_le. Qed.

Lemma spent_snoc l a : (List.length l < MAX_ARGS)%nat ->
  spent (l ++ [a]) MAX_ARGS = (spent l (List.length l) + List.length a)%nat.
Proof.
  intros Hl. unfold spent. rewrite !take_ge by (rewrite ?length_app; cbn [List.length]; lia).
  rewrite total_bytes_app. unfold total_bytes. simpl. lia.
Qed.

Lemma entry_at_app l m i e : (i <= List.length l)%nat -> entry_at (l ++ m) i e = entry_at l i e.
Proof. intros Hi. unfold entry_at. by rewrite fmap_app, spent_app by by rewrite length_fmap. Qed.

Lemma lookup_snoc_other {A} (l : list A) x i : i <> List.length l -> (l ++ [x]) !! i = l !! i.
Proof.
  intros Hi. destruct (decide (i < List.length l)%nat).
  - by rewrite lookup_app_l by lia.
  - by rewrite !lookup_ge_None_2 by (rewrite ?length_app; cbn [List.length]; lia).
Qed.

(** The last entry is set: what it takes for the collector to be as described. *)
Lemma coll_last n l e c :
  argc c = Some (Z.of_nat n) ->
  kept_bytes c = Nat.min MAX_ARGV_BYTES (spent (l.*1 ++ [e.1]) MAX_ARGS) ->
  (forall i, i <> List.length l ->
     args c !! i = if (i <? MAX_ARGS)%nat then entry_at l i <$> l !! i else None) ->
  (args c !! List.length l
   = if (List.length l <? MAX_ARGS)%nat then Some (entry_at l (List.length l) e) else None) ->
  coll n (l ++ [e]) c.
Proof.
  intros H1 H2 H3 H4. split; [done|by rewrite fmap_app|]. intros i.
  destruct (decide (i = List.length l)) as [->|Hi].
  - rewrite H4. destruct (_ <? _)%nat; [|done].
    rewrite list_lookup_middle by done. simpl. by rewrite entry_at_app by done.
  - rewrite H3 by done. destruct (i <? MAX_ARGS)%nat; [|done]. rewrite lookup_snoc_other by done.
    destruct (l !! i) eqn:E; [|done]. apply lookup_lt_Some in E. simpl.
    by rewrite entry_at_app by lia.
Qed.

Lemma take_step m s (b part : list byte) :
  take (m - s) (b ++ part)
  = take (m - s) b
      ++ take (Nat.min (List.length part) (m - Nat.min m (s + List.length b))) part.
Proof.
  rewrite take_app. f_equal.
  destruct (decide (List.length part <= m - s - List.length b)%nat).
  - rewrite !take_ge by lia. done.
  - f_equal. lia.
Qed.

(** An [aI=] or [aI[J]=] token extends the last entry, or begins one. *)
Lemma coll_append n l b part o ar c w :
  argc c = Some (Z.of_nat n) ->
  kept_bytes c = Nat.min MAX_ARGV_BYTES (spent (l.*1 ++ [b]) MAX_ARGS) ->
  (forall i, i <> List.length l ->
     args c !! i = if (i <? MAX_ARGS)%nat then entry_at l i <$> l !! i else None) ->
  ((MAX_ARGS <= List.length l)%nat -> args c !! List.length l = None) ->
  ((List.length l < MAX_ARGS)%nat -> default arg_default (args c !! List.length l) = ar) ->
  arg_kept ar = take (MAX_ARGV_BYTES - spent l.*1 (List.length l)) b ->
  received ar = List.length b -> split_len ar = Z.of_nat <$> o ->
  whole ar || w = bool_decide (o = None) ->
  coll n (l ++ [(b ++ part, o)]) (append_arg c (Z.of_nat (List.length l)) (render_value part) w).
Proof.
  intros H1 H2 H3 H4 H5 Hk Hr Hs Hw. unfold append_arg.
  destruct (Z.leb_spec (Z.of_nat MAX_ARGS) (Z.of_nat (List.length l))) as [E|E].
  - apply coll_last; [done| |done|].
    + rewrite H2. rewrite !spent_app by (rewrite length_fmap; lia). done.
    + rewrite H4 by lia. by destruct (Nat.ltb_spec (List.length l) MAX_ARGS); [lia|].
  - rewrite decode_render, Nat2Z.id, H5 by lia.
    apply coll_last; cbn [argc kept_bytes args fst snd]; [done| | |].
    + rewrite H2. rewrite !spent_snoc by (rewrite length_fmap; lia). rewrite length_app. lia.
    + intros i Hi. by rewrite lookup_insert_ne, H3.
    + rewrite lookup_insert_eq. destruct (Nat.ltb_spec (List.length l) MAX_ARGS); [|lia].
      unfold entry_at. cbn [fst snd]. f_equal.
      rewrite Hk, Hr, Hs, Hw, length_app, H2, spent_snoc, length_fmap
        by (rewrite length_fmap; lia).
      f_equal. symmetry. apply take_step.
Qed.

Lemma coll_end n l c : coll n l c ->
  kept_bytes c = Nat.min MAX_ARGV_BYTES (spent (l.*1 ++ [[]]) MAX_ARGS)
  /\ args c !! List.length l = None.
Proof.
  intros [_ Hk Ha]. split.
  - rewrite Hk. f_equal. unfold spent. rewrite take_app, total_bytes_app.
    replace (total_bytes (take _ [[]])) with 0%nat; [lia|]. by destruct (_ - _)%nat as [|[]].
  - rewrite Ha, lookup_ge_None_2 by lia. by destruct (_ <? _)%nat.
Qed.

Lemma coll_whole n l a c : coll n l c ->
  coll n (l ++ [(a, None)]) (feed_piece c (PWhole (List.length l) a)).
Proof.
  intros Hc. destruct (coll_end n l c Hc) as [Hk Hn]. destruct Hc as [Hargc _ Ha].
  apply (coll_append n l [] a None arg_default); try done.
  - by rewrite Hn.
  - by rewrite take_nil.
Qed.

Lemma coll_len n l len c : coll n l c ->
  coll n (l ++ [([], Some len)]) (feed_piece c (PLen (List.length l) len)).
Proof.
  intros Hc. destruct (coll_end n l c Hc) as [Hk Hn]. destruct Hc as [Hargc _ Ha].
  cbn [feed_piece]. unfold set_split_len.
  destruct (Z.leb_spec (Z.of_nat MAX_ARGS) (Z.of_nat (List.length l))) as [E|E].
  - apply coll_last; try done. rewrite Hn.
    by destruct (Nat.ltb_spec (List.length l) MAX_ARGS); [lia|].
  - rewrite Nat2Z.id, Hn. apply coll_last; cbn [argc kept_bytes args]; try done.
    + intros i Hi. by rewrite lookup_insert_ne, Ha.
    + rewrite lookup_insert_eq. destruct (Nat.ltb_spec (List.length l) MAX_ARGS); [|lia].
      unfold entry_at. cbn [fst snd]. by rewrite take_nil.
Qed.

Lemma coll_chunk n l b len j part c : coll n (l ++ [(b, Some len)]) c ->
  coll n (l ++ [(b ++ part, Some len)]) (feed_piece c (PChunk (List.length l) j part)).
Proof.
  intros [Hargc Hk Ha]. rewrite fmap_app in Hk.
  assert (forall i, i <> List.length l ->
     args c !! i = if (i <? MAX_ARGS)%nat then entry_at l i <$> l !! i else None) as Ho.
  { intros i Hi. rewrite Ha, lookup_snoc_other by done. destruct (i <? MAX_ARGS)%nat; [|done].
    destruct (l !! i) eqn:E; [|done]. apply lookup_lt_Some in E. simpl.
    by rewrite entry_at_app by lia. }
  specialize (Ha (List.length l)). rewrite lookup_app_r, Nat.sub_diag in Ha by lia. simpl in Ha.
  rewrite entry_at_app in Ha by lia.
  apply (coll_append n l b part (Some len) (entry_at l (List.length l) (b, Some len))); try done.
  - intros Hl. rewrite Ha. by destruct (Nat.ltb_spec (List.length l) MAX_ARGS); [lia|].
  - intros Hl. rewrite Ha. by destruct (Nat.ltb_spec (List.length l) MAX_ARGS); [|lia].
Qed.

(** *** How far the pieces of a vector have come *)

Definition entry_of (x : exec_arg) : entry :=
  match x with
  | Whole a => (a, None)
  | Split parts => (concat parts, Some (List.length (concat parts)))
  end.

Inductive at_piece (xs : list exec_arg) : list entry -> list piece -> Prop :=
| between pre post :
    xs = pre ++ post -> at_piece xs (map entry_of pre) (argv_pieces (List.length pre) post)
| within pre seen parts post :
    xs = pre ++ Split (seen ++ parts) :: post ->
    at_piece xs (map entry_of pre ++ [(concat seen, Some (List.length (concat (seen ++ parts))))])
      (arg_chunks (List.length pre) (List.length seen) parts
         ++ argv_pieces (S (List.length pre)) post).

Lemma within_end xs pre seen post : xs = pre ++ Split seen :: post ->
  exists pre', xs = pre' ++ post /\ List.length pre' = S (List.length pre)
    /\ map entry_of pre' = map entry_of pre ++ [(concat seen, Some (List.length (concat seen)))].
Proof.
  intros ->. exists (pre ++ [Split seen]). rewrite <- app_assoc, length_app, map_app.
  split_and!; [done|cbn [List.length]; lia|done].
Qed.

Lemma feed_between xs pre x post n c :
  xs = pre ++ x :: post -> coll n (map entry_of pre) c ->
  exists p rest l, arg_pieces (List.length pre) x ++ argv_pieces (S (List.length pre)) post = p :: rest
    /\ at_piece xs l rest /\ coll n l (feed_piece c p).
Proof.
  intros -> Hc. destruct x as [a|parts]; cbn [arg_pieces app].
  - eexists _, _, (map entry_of (pre ++ [Whole a])). split; [done|]. split.
    + replace (S (List.length pre)) with (List.length (pre ++ [Whole a]))
        by (rewrite length_app; cbn [List.length]; lia).
      apply between. by rewrite <- app_assoc.
    + rewrite map_app. cbn [map entry_of]. rewrite <- (length_map entry_of pre). by apply coll_whole.
  - eexists _, _, _. split; [done|]. split.
    + by apply (within _ pre [] parts post).
    + cbn [concat]. rewrite <- (length_map entry_of pre). by apply coll_len.
Qed.

Lemma feed_one xs l p rest n c : at_piece xs l (p :: rest) -> coll n l c ->
  exists l', at_piece xs l' rest /\ coll n l' (feed_piece c p).
Proof.
  intros Hat Hc. inversion Hat as [pre post Hxs El Er|pre seen parts post Hxs El Er]; subst l.
  - destruct post as [|x post]; [done|]. cbn [argv_pieces] in Er.
    destruct (feed_between xs pre x post n c Hxs Hc) as (p' & rest' & l' & E & H).
    rewrite E in Er. injection Er as <- <-. by exists l'.
  - destruct parts as [|part parts].
    + rewrite app_nil_r in *. cbn [arg_chunks app] in Er.
      destruct (within_end _ _ _ _ Hxs) as (pre' & Hxs' & Hlen & Hmap).
      rewrite <- Hmap in Hc. rewrite <- Hlen in Er. destruct post as [|x post]; [done|].
      cbn [argv_pieces] in Er.
      destruct (feed_between xs pre' x post n c Hxs' Hc) as (p' & rest' & l' & E & H).
      rewrite E in Er. injection Er as <- <-. by exists l'.
    + cbn [arg_chunks app] in Er. injection Er as <- <-.
      exists (map entry_of pre
        ++ [(concat seen ++ part, Some (List.length (concat (seen ++ part :: parts))))]). split.
      * pose proof (within xs pre (seen ++ [part]) parts post) as Hw.
        rewrite <- app_assoc, concat_app, length_app in Hw. cbn [concat List.length app] in Hw.
        rewrite app_nil_r, Nat.add_1_r in Hw. by apply Hw.
      * rewrite <- (length_map entry_of pre). by apply coll_chunk.
Qed.

Lemma feed_some ps : forall xs l rest n c, at_piece xs l (ps ++ rest) -> coll n l c ->
  exists l', at_piece xs l' rest /\ coll n l' (fold_left feed_piece ps c).
Proof.
  induction ps as [|p ps IH]; intros xs l rest n c Hat Hc; [by exists l|].
  destruct (feed_one _ _ _ _ _ _ Hat Hc) as (l1 & Hat1 & Hc1). by apply (IH xs l1).
Qed.

(** *** Completeness *)

Definition entry_done (e : entry) : bool :=
  match e.2 with None => true | Some len => (len <=? List.length e.1)%nat end.

Lemma is_done_entry l i e : is_done (entry_at l i e) = entry_done e.
Proof.
  destruct e as [b [len|]]; unfold is_done, entry_done, entry_at; cbn [whole split_len received fst snd fmap
    option_fmap option_map]; [|done].
  rewrite bool_decide_eq_false_2 by done. cbn [orb].
  destruct (Nat.leb_spec len (List.length b)); [apply Z.leb_le|apply Z.leb_gt]; lia.
Qed.

Lemma coll_complete n l c : coll n l c ->
  is_complete c = true <->
  forall i, (i < Nat.min n MAX_ARGS)%nat -> exists e, l !! i = Some e /\ entry_done e = true.
Proof.
  intros [Hc _ Ha]. unfold is_complete, wanted. rewrite Hc.
  replace (Z.to_nat (Z.min (Z.of_nat n) (Z.of_nat MAX_ARGS))) with (Nat.min n MAX_ARGS) by lia.
  rewrite forallb_forall. setoid_rewrite in_seq. split.
  - intros H i Hi. specialize (H i ltac:(lia)). rewrite Ha in H.
    destruct (Nat.ltb_spec i MAX_ARGS); [|lia]. destruct (l !! i) as [e|]; [|done].
    exists e. split; [done|]. by rewrite <- (is_done_entry l i).
  - intros H i Hi. destruct (H i) as (e & El & He); [lia|]. rewrite Ha, El.
    destruct (Nat.ltb_spec i MAX_ARGS); [|lia]. simpl. by rewrite is_done_entry.
Qed.

Lemma done_entries pre : Forall (fun e => entry_done e = true) (map entry_of pre).
Proof.
  apply Forall_fmap, Forall_true. intros [a|parts]; [done|]. by apply Nat.leb_le.
Qed.

Lemma arg_pieces_nonempty i x post : arg_pieces i x ++ post <> [].
Proof. by destruct x. Qed.

Lemma at_end xs l : at_piece xs l [] -> l = map entry_of xs.
Proof.
  intros Hat. inversion Hat as [pre post Hxs El Er|pre seen parts post Hxs El Er]; subst l.
  - destruct post as [|x post]; [by rewrite app_nil_r in Hxs; subst|].
    by apply arg_pieces_nonempty in Er.
  - destruct parts; [|done]. rewrite app_nil_r in *. cbn [arg_chunks app] in Er.
    destruct (within_end _ _ _ _ Hxs) as (pre' & Hxs' & _ & <-).
    destruct post as [|x post]; [by rewrite app_nil_r in Hxs'; subst|].
    by apply arg_pieces_nonempty in Er.
Qed.

Lemma end_complete xs l c : at_piece xs l [] -> coll (List.length xs) l c -> is_complete c = true.
Proof.
  intros ->%at_end Hc. apply (coll_complete _ _ _ Hc). intros i Hi.
  destruct (lookup_lt_is_Some_2 (map entry_of xs) i) as [e He]; [rewrite length_map; lia|].
  exists e. split; [done|]. apply (Forall_lookup_1 _ _ _ _ (done_entries xs) He).
Qed.

Lemma entries_bytes xs : (map entry_of xs).*1 = map arg_bytes xs.
Proof. induction xs as [|[] xs IH]; [done|..]; csimpl; by rewrite IH. Qed.

(** A complete collector holds the arguments it will keep, whole. *)
Lemma complete_prefix xs l rest m :
  at_piece xs l rest -> (m <= List.length xs)%nat ->
  (forall i, (i < m)%nat -> exists e, l !! i = Some e /\ entry_done e = true) ->
  (m <= List.length l)%nat /\ take m l.*1 = take m (map arg_bytes xs).
Proof.
  intros Hat Hm Hd. assert (m <= List.length l)%nat as Hl.
  { destruct m as [|m]; [lia|]. destruct (Hd m) as (e & He & _); [lia|].
    apply lookup_lt_Some in He. lia. }
  split; [done|]. inversion Hat as [pre post Hxs El Er|pre seen parts post Hxs El Er]; subst l xs.
  - rewrite length_map in Hl. rewrite entries_bytes, map_app.
    by rewrite take_app_le by by rewrite length_map.
  - rewrite fmap_app, entries_bytes, map_app. rewrite length_app, length_map in Hl.
    destruct (decide (m <= List.length pre)%nat) as [Hle|Hgt].
    { by rewrite !take_app_le by by rewrite length_map. }
    destruct (Hd (List.length pre)) as (e & He & Hdone); [lia|].
    rewrite lookup_app_r, length_map, Nat.sub_diag in He by (rewrite length_map; lia).
    injection He as <-. apply Nat.leb_le in Hdone. cbn [fst snd] in Hdone.
    rewrite concat_app, length_app in Hdone.
    assert (concat parts = []) as Hp by (destruct (concat parts); [done|cbn [List.length] in *; lia]).
    cbn [map arg_bytes]. rewrite concat_app, Hp, app_nil_r. csimpl.
    rewrite (cons_middle (concat seen) (map arg_bytes pre) (map arg_bytes post)), app_assoc.
    symmetry. apply take_app_le. rewrite length_app, length_map. cbn [List.length] in *. lia.
Qed.

Lemma kept_args_coll n l c : coll n l c -> forall m i,
  (i + m <= Nat.min MAX_ARGS (List.length l))%nat ->
  kept_args c (seq i m) = cap_argv (MAX_ARGV_BYTES - spent l.*1 i) (take m (drop i l.*1)).
Proof.
  intros [_ _ Ha]. induction m as [|m IH]; intros i Hm; simpl; [done|].
  rewrite Ha. destruct (Nat.ltb_spec i MAX_ARGS); [|lia].
  destruct (lookup_lt_is_Some_2 l i) as [e Hl]; [lia|]. rewrite Hl. cbn [fmap option_fmap option_map].
  assert (l.*1 !! i = Some e.1) as Hl1 by by rewrite list_lookup_fmap, Hl.
  rewrite (drop_S _ _ _ Hl1). cbn [take cap_argv].
  assert (spent l.*1 (S i) = spent l.*1 i + List.length e.1)%nat as Hs.
  { unfold spent. rewrite (take_S_r _ _ _ Hl1), total_bytes_app. unfold total_bytes. simpl. lia. }
  unfold dropped, entry_at. cbn [arg_kept received]. rewrite IH by lia. rewrite Hs.
  replace (MAX_ARGV_BYTES - (spent l.*1 i + List.length e.1))%nat
    with (MAX_ARGV_BYTES - spent l.*1 i - List.length e.1)%nat by lia.
  destruct (e.1) as [|b a]; [by rewrite take_nil|].
  by destruct (MAX_ARGV_BYTES - spent l.*1 i)%nat.
Qed.

Lemma into_argv_complete xs l rest c :
  at_piece xs l rest -> coll (List.length xs) l c -> is_complete c = true ->
  into_argv c = map from_utf8_lossy (cap_argv MAX_ARGV_BYTES (take MAX_ARGS (map arg_bytes xs))).
Proof.
  intros Hat Hc Hdone. rewrite (coll_complete _ _ _ Hc) in Hdone.
  destruct (complete_prefix xs l rest (Nat.min (List.length xs) MAX_ARGS) Hat ltac:(lia) Hdone) as [Hl E].
  unfold into_argv, wanted. rewrite (coll_argc _ _ _ Hc). f_equal.
  replace (Z.to_nat _) with (Nat.min (List.length xs) MAX_ARGS) by lia.
  rewrite (kept_args_coll _ _ _ Hc) by lia. rewrite drop_0, E. unfold spent. rewrite take_0.
  change (total_bytes []) with 0%nat. rewrite Nat.sub_0_r. f_equal.
  destruct (decide (List.length xs <= MAX_ARGS)%nat).
  - by rewrite !take_ge by (rewrite length_map; lia).
  - f_equal. lia.
Qed.

(** ** Records fed word by word *)

Lemma word_bytes_ascii w : word_ok w -> word_bytes (map b2z w) = w.
Proof. intros Hw. by apply flat_map_utf8_ascii, word_ascii. Qed.

Lemma head_split_none c l : c ∉ l -> head (split_all c l) = Some l.
Proof.
  induction l as [|b l IH]; intros Hl; simpl; [done|].
  apply not_elem_of_cons in Hl as [Hb Hl]. rewrite decide_False by congruence.
  specialize (IH Hl). destruct (split_all c l); [done|]. simpl in *. congruence.
Qed.

Lemma feed_unwords c ws : Forall word_ok ws ->
  feed c (of_bytes (unwords ws)) = fold_left feed_token ws c.
Proof.
  intros Hws. unfold feed. rewrite bytes_of_of_bytes, head_split_none by by apply no_separator.
  cbn [default]. unfold id. rewrite utf8_decode_ascii by by apply unwords_ascii.
  rewrite split_unwords by done. f_equal. rewrite map_map.
  induction Hws as [|w ws Hw _ IH]; [done|]. cbn [map]. by rewrite word_bytes_ascii, IH.
Qed.

Lemma arg_key_ok i suffix : forallb key_byte suffix = true -> forallb key_byte (arg_key i suffix) = true.
Proof.
  intros Hs. unfold arg_key. rewrite !forallb_app, Hs, andb_true_r. apply andb_true_iff.
  split; [done|]. apply (forallb_impl is_digit); [by intros []|].
  apply forallb_Forall, dec_bytes_digits. lia.
Qed.

Lemma kv_piece_ok p : kv_ok (kv_piece p) = true.
Proof.
  destruct p as [i a|i len|i j part]; unfold kv_ok; cbn [kv_piece kv_key kv_value kv_untrusted orb];
    rewrite ?andb_true_r.
  - by apply arg_key_ok.
  - by rewrite arg_key_ok, dec_quotable by (done || lia).
  - apply arg_key_ok. rewrite !forallb_app. apply andb_true_iff. split; [done|].
    rewrite andb_true_r. apply (forallb_impl is_digit); [by intros []|].
    apply forallb_Forall, dec_bytes_digits. lia.
Qed.

Lemma execve_fields_ok first ps : Forall (fun f => kv_ok f = true) (execve_fields first ps).
Proof.
  assert (Forall (fun f => kv_ok f = true) (map kv_piece ps)) as Hps
    by by apply Forall_fmap, Forall_true, kv_piece_ok.
  destruct first as [n|]; cbn [execve_fields]; [constructor|]; try done.
  unfold kv_ok. cbn [kv_key kv_value kv_untrusted orb]. by rewrite dec_quotable by lia.
Qed.

Lemma execve_fields_keys first ps :
  Forall (fun f => kv_key f <> bytes_of "type" /\ kv_key f <> bytes_of "msg") (execve_fields first ps).
Proof.
  assert (Forall (fun f => kv_key f <> bytes_of "type" /\ kv_key f <> bytes_of "msg")
            (map kv_piece ps)) as Hps by by apply Forall_fmap, Forall_true; intros [].
  destruct first as [n|]; cbn [execve_fields]; [constructor|]; done.
Qed.

Lemma feed_pieces ps c : Forall piece_fits ps ->
  fold_left feed_token (map render_kv (map kv_piece ps)) c = fold_left feed_piece ps c.
Proof.
  intros Hps. revert c. induction Hps as [|p ps Hp _ IH]; intros c; [done|].
  cbn [map fold_left]. by rewrite feed_token_piece, IH.
Qed.

Lemma chunks_fit i parts : fits 64 (Z.of_nat i) = true ->
  forall j, Forall piece_fits (arg_chunks i j parts).
Proof. intros Hi. induction parts as [|part parts IH]; intros j; by constructor. Qed.

(** The sizes of a vector in memory fit the machine. *)
Definition sizes_fit (xs : list exec_arg) : Prop :=
  fits 64 (Z.of_nat (List.length xs)) = true
  /\ Forall (fun x => fits 64 (Z.of_nat (List.length (arg_bytes x))) = true) xs.

Lemma pieces_fit xs : forall i, fits 64 (Z.of_nat (i + List.length xs)) = true ->
  Forall (fun x => fits 64 (Z.of_nat (List.length (arg_bytes x))) = true) xs ->
  Forall piece_fits (argv_pieces i xs).
Proof.
  induction xs as [|x xs IH]; intros i Hi Hxs; [constructor|].
  apply Forall_cons in Hxs as [Hx Hxs].
  assert (fits 64 (Z.of_nat i) = true /\ fits 64 (Z.of_nat (S i + List.length xs)) = true) as [H1 H2]
    by (rewrite fits_iff in Hi; rewrite !fits_iff; cbn [List.length] in Hi; lia).
  cbn [argv_pieces]. apply Forall_app. split; [|by apply IH].
  destruct x as [a|parts]; constructor; try done. by apply chunks_fit.
Qed.

Section Feed.
Context (secs millis serial : Z).
Hypothesis Hheader : header_ok "EXECVE" secs millis serial = true.

Lemma feed_execve c first ps :
  feed c (execve_line secs millis serial first ps)
  = fold_left feed_token (map render_kv (execve_fields first ps)) c.
Proof.
  unfold execve_line, audit_record_line.
  rewrite feed_unwords by (apply record_words; [done|apply execve_fields_ok]). done.
Qed.

Lemma feed_record xs l ps rest n c :
  Forall piece_fits ps -> at_piece xs l (ps ++ rest) -> coll n l c ->
  exists l', at_piece xs l' rest /\ coll n l' (feed c (execve_line secs millis serial None ps)).
Proof.
  intros Hps Hat Hc. rewrite feed_execve. cbn [execve_fields]. rewrite feed_pieces by done.
  by apply (feed_some ps xs l).
Qed.

Lemma feed_first xs ps rest :
  fits 64 (Z.of_nat (List.length xs)) = true -> Forall piece_fits ps ->
  argv_pieces 0 xs = ps ++ rest ->
  exists l, at_piece xs l rest
    /\ coll (List.length xs) l
         (feed collector_default (execve_line secs millis serial (Some (List.length xs)) ps)).
Proof.
  intros Hn Hps E. rewrite feed_execve. cbn [execve_fields map fold_left].
  rewrite feed_pieces by done. apply (feed_some ps xs []).
  - rewrite <- E. by apply (between xs [] xs).
  - replace (feed_token collector_default _)
      with {| argc := Some (Z.of_nat (List.length xs)); args := ∅; kept_bytes := 0 |}.
    + split; [done|done|]. intros i. cbn [args map]. rewrite lookup_empty, lookup_nil.
      by destruct (i <? MAX_ARGS)%nat.
    + unfold feed_token, render_kv. cbn [kv_key kv_value kv_untrusted].
      rewrite split_once_app by by apply (bool_decide_unpack _).
      cbn [of_bytes]. by rewrite parse_dec_bytes.
Qed.

End Feed.

(** ** One exec event through the assembler *)

(** What the sensor's loop hands the assembler: a line read at a time, or a tick. *)
Inductive exec_input := Line (line : string) (now : Z) | Tick (now : Z).

Definition exec_step (s : ExecAssembler) (i : exec_input) : list ProcessExecRaw * ExecAssembler :=
  match i with
  | Line line now => exec_offer s line now
  | Tick now => let '(o, s) := exec_tick s now in (opt_list o, s)
  end.

Fixpoint exec_run (s : ExecAssembler) (ins : list exec_input) : list ProcessExecRaw * ExecAssembler :=
  match ins with
  | [] => ([], s)
  | i :: ins =>
      let '(r, s) := exec_step s i in
      let '(rs, s) := exec_run s ins in
      (r ++ rs, s)
  end.

Section Event.
Context (secs millis serial : Z).

(** The [EXECVE] records of one event: the pieces in order, [argc] in the first record. *)
Definition execve_records (n : nat) (chunks : list (list piece)) : list string :=
  match chunks with
  | [] => []
  | ps :: chunks => execve_line secs millis serial (Some n) ps
                      :: map (execve_line secs millis serial None) chunks
  end.

(** The rest of the event as the sensor sees it: its [EXECVE] records in order, and among
    them other records of the event ([CWD], [PATH], [PROCTITLE]), lines with no header and
    ticks before the timeout since the last record. *)
Inductive event_rest (timeout : Z) : Z -> list string -> list exec_input -> Prop :=
| rest_done last : event_rest timeout last [] []
| rest_execve last line lines now ins :
    event_rest timeout now lines ins -> event_rest timeout last (line :: lines) (Line line now :: ins)
| rest_other last lines line ty now ins :
    tokenize line !! "msg" ≫= parse_audit_msg_id = Some (audit_event_id secs millis serial) ->
    tokenize line !! "type" = Some ty -> ty <> "SYSCALL" -> ty <> "EXECVE" ->
    event_rest timeout now lines ins -> event_rest timeout last lines (Line line now :: ins)
| rest_noise last lines line now ins :
    tokenize line !! "msg" ≫= parse_audit_msg_id = None ->
    event_rest timeout last lines ins -> event_rest timeout last lines (Line line now :: ins)
| rest_tick last lines now ins :
    Z.max 0 (now - last) < timeout ->
    event_rest timeout last lines ins -> event_rest timeout last lines (Tick now :: ins).

Hypothesis Hheader : header_ok "EXECVE" secs millis serial = true.

Lemma execve_line_fields first ps :
  tokenize (execve_line secs millis serial first ps) !! "type" = Some "EXECVE"
  /\ tokenize (execve_line secs millis serial first ps) !! "msg" ≫= parse_audit_msg_id
     = Some (audit_event_id secs millis serial).
Proof. apply record_header; [done|apply execve_fields_ok|apply execve_fields_keys]. Qed.

Definition is_execve (line : string) : Prop := exists first ps, line = execve_line secs millis serial first ps.

Lemma records_execve n chunks : Forall is_execve (execve_records n chunks).
Proof.
  destruct chunks as [|ps chunks]; constructor; [by eexists _, _|].
  apply Forall_fmap, Forall_true. intros x. by eexists _, _.
Qed.

(** With no exec open, a line that opens none is skipped. *)
Lemma offer_idle s line now ty : exec_pending s = None ->
  tokenize line !! "type" = Some ty -> ty <> "SYSCALL" -> exec_offer s line now = ([], s).
Proof.
  intros Hs Hty Hne. unfold exec_offer. destruct (_ ≫= _); [|done]. rewrite Hs, Hty.
  rewrite (proj2 (String.eqb_neq _ _) Hne). cbn. by rewrite Hs.
Qed.

Lemma run_idle timeout last lines ins : event_rest timeout last lines ins ->
  Forall is_execve lines -> forall s, exec_pending s = None -> exec_run s ins = ([], s).
Proof.
  induction 1 as [|last line lines now ins _ IH|last lines line ty now ins _ Hty Hne _ _ IH
                 |last lines line now ins Hm _ IH|last lines now ins _ _ IH]; intros Hl s Hs;
    [done|cbn [exec_run exec_step]..].
  - apply Forall_cons in Hl as [(first & ps & ->) Hl].
    rewrite (offer_idle s _ _ "EXECVE"); [by rewrite IH|done|apply execve_line_fields|done].
  - rewrite (offer_idle s _ _ ty) by done. by rewrite IH.
  - unfold exec_offer. rewrite Hm. by rewrite IH.
  - unfold exec_tick. rewrite Hs. by rewrite IH.
Qed.

(** The exec that is open has been fed the pieces before [rest], or nothing yet. *)
Definition fed (xs : list exec_arg) (p : PendingExec) (lines : list string) : Prop :=
  exists chunks,
    (pend_argv p = collector_default /\ chunks <> [] /\ argv_pieces 0 xs = concat chunks
       /\ lines = execve_records (List.length xs) chunks
     \/ (exists l, at_piece xs l (concat chunks) /\ coll (List.length xs) l (pend_argv p)
           /\ is_complete (pend_argv p) = false)
       /\ lines = map (execve_line secs millis serial None) chunks)
    /\ Forall piece_fits (concat chunks).

Lemma fed_some xs p : ~ fed xs p [].
Proof.
  intros (chunks & [(_ & Hne & _ & E)|((l & Hat & Hc & Hn) & E)] & _).
  - by destruct chunks.
  - destruct chunks; [|done]. apply (end_complete _ _ _ Hat) in Hc. congruence.
Qed.

Lemma fed_next xs p line lines : sizes_fit xs -> fed xs p (line :: lines) ->
  let c := feed (pend_argv p) line in
  is_complete c = true
    /\ into_argv c = map from_utf8_lossy (cap_argv MAX_ARGV_BYTES (take MAX_ARGS (map arg_bytes xs)))
  \/ is_complete c = false
    /\ forall now, fed xs {| pend_id := pend_id p; pend_exec := pend_exec p; pend_argv := c;
                             last_seen := now |} lines.
Proof.
  intros [Hn _] (chunks & Hfed & Hfit) c.
  assert (exists ps chunks' l, concat chunks = ps ++ concat chunks'
    /\ lines = map (execve_line secs millis serial None) chunks'
    /\ at_piece xs l (concat chunks') /\ coll (List.length xs) l c)
    as (ps & chunks' & l & E & -> & Hat & Hc).
  { subst c. destruct Hfed as [(-> & _ & E & El)|((l & Hat & Hc & _) & El)];
      (destruct chunks as [|ps chunks]; [done|]); injection El as -> ->;
      cbn [concat] in *; apply Forall_app in Hfit as [Hps _]; exists ps, chunks.
    - destruct (feed_first secs millis serial Hheader xs ps (concat chunks)) as (l & ? & ?); [done..|].
      by exists l.
    - destruct (feed_record secs millis serial Hheader xs l ps (concat chunks) (List.length xs) (pend_argv p))
        as (l' & ? & ?); [done..|]. by exists l'. }
  destruct (is_complete c) eqn:Hd; [left|right]; (split; [done|]).
  - by apply (into_argv_complete xs l (concat chunks')).
  - intros now. exists chunks'. split; [right|].
    + split; [|done]. by exists l.
    + rewrite E in Hfit. by apply Forall_app in Hfit as [_ ?].
Qed.

Lemma run_open xs timeout last lines ins : sizes_fit xs -> event_rest timeout last lines ins ->
  Forall is_execve lines -> forall s p,
  exec_pending s = Some p -> pend_id p = audit_event_id secs millis serial ->
  completion_timeout s = timeout -> last_seen p = last -> fed xs p lines ->
  exec_run s ins
  = ([with_cmdline (pend_exec p)
        (map from_utf8_lossy (cap_argv MAX_ARGV_BYTES (take MAX_ARGS (map arg_bytes xs))))],
     set_pending s None).
Proof.
  intros Hxs. induction 1 as [|last line lines now ins Hrest IH|last lines line ty now ins Hm Hty Hne Hne' _ IH
                 |last lines line now ins Hm _ IH|last lines now ins Ht _ IH];
    intros Hl s p Hs Hid Hto Hlast Hfed; [by apply fed_some in Hfed|cbn [exec_run exec_step]..].
  - apply Forall_cons in Hl as [(first & ps & ->) Hl].
    destruct (execve_line_fields first ps) as [Hty Hmsg].
    set (line := execve_line secs millis serial first ps) in *.
    unfold exec_offer. rewrite Hmsg, Hs, decide_True, Hty by done.
    change ("EXECVE" =? "SYSCALL")%string with false. change ("EXECVE" =? "EXECVE")%string with true.
    cbv iota beta. rewrite Hs.
    destruct (fed_next xs p line lines Hxs Hfed) as [[Hc E]|[Hc Hnext]]; rewrite Hc; cbv iota zeta.
    + cbn [exec_take_pending set_pending exec_pending opt_list app completion_timeout pend_exec pend_argv].
      rewrite E. by rewrite (run_idle _ _ _ _ Hrest Hl).
    + set (p' := {| last_seen := now |}).
      by rewrite (IH Hl (set_pending s (Some p')) p' eq_refl Hid Hto eq_refl (Hnext now)).
  - unfold exec_offer. rewrite Hm, Hs, decide_True, Hty by done.
    rewrite (proj2 (String.eqb_neq _ _) Hne), (proj2 (String.eqb_neq _ _) Hne'). cbv iota beta.
    rewrite Hs. set (p' := {| last_seen := now |}).
    by rewrite (IH Hl (set_pending s (Some p')) p' eq_refl Hid Hto eq_refl).
  - unfold exec_offer. rewrite Hm. by rewrite (IH Hl _ _ Hs Hid Hto Hlast Hfed).
  - unfold exec_tick. rewrite Hs, Hto, Hlast. rewrite (proj2 (Z.leb_gt _ _) Ht).
    by rewrite (IH Hl _ _ Hs Hid Hto Hlast Hfed).
Qed.

(** The [SYSCALL] record releases the exec that was open and opens its own. *)
Lemma offer_syscall s line now e :
  tokenize line !! "type" = Some "SYSCALL" ->
  tokenize line !! "msg" ≫= parse_audit_msg_id = Some (audit_event_id secs millis serial) ->
  exec_from_syscall_fields (tokenize line) = Some e ->
  (forall p, exec_pending s = Some p -> pend_id p <> audit_event_id secs millis serial) ->
  exec_offer s line now
  = (opt_list (exec_take_pending s).1,
     set_pending s (Some {| pend_id := audit_event_id secs millis serial; pend_exec := e;
                            pend_argv := collector_default; last_seen := now |})).
Proof.
  intros Hty Hmsg He Hs. unfold exec_offer, exec_take_pending. rewrite Hmsg, Hty, He.
  change ("SYSCALL" =? "SYSCALL")%string with true.
  destruct (exec_pending s) as [p|] eqn:Ep; [|done]. by rewrite decide_False by by apply Hs.
Qed.

End Event.

Lemma total_bytes_cons a argv : total_bytes (a :: argv) = (List.length a + total_bytes argv)%nat.
Proof. done. Qed.

Lemma cap_argv_total argv : forall room, (total_bytes (cap_argv room argv) <= room)%nat.
Proof.
  induction argv as [|a argv IH]; intros room; [cbn; lia|]. cbn [cap_argv].
  assert (total_bytes (take room a :: cap_argv (room - List.length a) argv) <= room)%nat as H.
  { rewrite total_bytes_cons, length_take. specialize (IH (room - List.length a)%nat). lia. }
  by destruct a, room.
Qed.

Lemma cap_argv_all argv : forall room, (total_bytes argv <= room)%nat -> cap_argv room argv = argv.
Proof.
  induction argv as [|a argv IH]; intros room H; [done|]. rewrite total_bytes_cons in H.
  assert (take room a :: cap_argv (room - List.length a) argv = a :: argv) as E.
  { rewrite take_ge by lia. f_equal. apply IH. lia. }
  cbn [cap_argv]. by destruct a, room.
Qed.

Lemma cap_argv_length argv : forall room, (List.length (cap_argv room argv) <= List.length argv)%nat.
Proof.
  induction argv as [|a argv IH]; intros room; [done|]. cbn [cap_argv].
  destruct a, room; cbn [List.length]; try lia; apply le_n_S, IH.
Qed.

(** C21. An exec is assembled whole: a [SYSCALL] record of an exec, followed by the
    [EXECVE] records of the same audit event, releases exactly one exec with the fields of
    the [SYSCALL] record (after the one that was open), and its command line is the
    argument vector up to 128 arguments and 16 KiB: all of it when it fits, and never more
    than that.  Any argument may be logged whole or split into its length in bytes and
    chunks, the pieces may go to the records in any way (in order), and other records of
    the event, lines with no header and ticks before the timeout may come in between. *)
Theorem exec_event_assembled s line now ins e secs millis serial xs chunks :
  header_ok "EXECVE" secs millis serial = true ->
  tokenize line !! "type" = Some "SYSCALL" ->
  tokenize line !! "msg" ≫= parse_audit_msg_id = Some (audit_event_id secs millis serial) ->
  exec_from_syscall_fields (tokenize line) = Some e ->
  (forall p, exec_pending s = Some p -> pend_id p <> audit_event_id secs millis serial) ->
  sizes_fit xs -> argv_pieces 0 xs = concat chunks -> chunks <> [] ->
  event_rest secs millis serial (completion_timeout s) now
    (execve_records secs millis serial (List.length xs) chunks) ins ->
  let argv := map arg_bytes xs in
  let kept := cap_argv MAX_ARGV_BYTES (take MAX_ARGS argv) in
  exec_run s (Line line now :: ins)
  = (opt_list (exec_take_pending s).1 ++ [with_cmdline e (map from_utf8_lossy kept)],
     set_pending s None)
  /\ (total_bytes kept <= MAX_ARGV_BYTES)%nat /\ (List.length kept <= MAX_ARGS)%nat
  /\ ((List.length argv <= MAX_ARGS)%nat -> (total_bytes argv <= MAX_ARGV_BYTES)%nat -> kept = argv).
Proof.
  intros Hh Hty Hmsg He Hs Hfit Hxs Hne Hrest argv kept. split; [|split; [|split]].
  - cbn [exec_run exec_step]. rewrite (offer_syscall secs millis serial s line now e) by done.
    set (p := {| last_seen := now |}).
    rewrite (run_open secs millis serial Hh xs _ _ _ _ Hfit Hrest (records_execve _ _ _ _ _)
               (set_pending s (Some p)) p); [done..|].
    exists chunks. split; [by left|]. rewrite <- Hxs. apply pieces_fit; apply Hfit.
  - apply cap_argv_total.
  - unfold kept. etransitivity; [apply cap_argv_length|apply firstn_le_length].
  - intros Hl Ht. unfold kept. rewrite take_ge by done. by apply cap_argv_all.
Qed.

(** A command line whose second argument holds a blank and whose third is split, over two
    [EXECVE] records with a [CWD] record and a tick between them. *)
Definition sample_syscall : string :=
  "type=SYSCALL msg=audit(1690000000.123:456): arch=c000003e syscall=59 success=yes ppid=7 pid=42 uid=1000 comm=ls exe=/bin/ls".
Definition sample_cwd : string := "type=CWD msg=audit(1690000000.123:456): cwd=/root".
Definition sample_args : list exec_arg :=
  [Whole (bytes_of "ls"); Whole (bytes_of "a b"); Split [bytes_of "hello"; bytes_of "world"]].
Definition sample_exec : ProcessExecRaw :=
  {| px_pid := 42; px_ppid := 7; px_uid := 1000; px_exe_path := "/bin/ls"; px_comm := "ls";
     px_cmdline := []; px_timestamp_ns := 1690000000123000000;
     px_start_time_mono := 1690000000123000000; px_source := RAudit |}.

Definition sample_chunks : list (list piece) :=
  [[PWhole 0 (bytes_of "ls"); PWhole 1 (bytes_of "a b"); PLen 2 10; PChunk 2 0 (bytes_of "hello")];
   [PChunk 2 1 (bytes_of "world")]].

Definition sample_rest : list exec_input :=
  [Line (execve_line 1690000000 123 456 (Some 3%nat) (nth 0 sample_chunks [])) 1;
   Line sample_cwd 2; Tick 6;
   Line (execve_line 1690000000 123 456 None (nth 1 sample_chunks [])) 6; Tick 8].

Lemma sample_event : event_rest 1690000000 123 456 5 0
  (execve_records 1690000000 123 456 3 sample_chunks) sample_rest.
Proof.
  apply rest_execve. apply (rest_other _ _ _ _ _ _ _ "CWD"); [by vm_compute..|].
  apply rest_tick; [done|]. apply rest_execve. apply rest_tick; [by vm_compute|]. apply rest_done.
Qed.

Lemma exec_event_assembled_witness :
  exec_run (exec_new 5) (Line sample_syscall 0 :: sample_rest)
  = ([with_cmdline sample_exec ["ls"; "a b"; "helloworld"]], exec_new 5).
Proof.
  assert (map from_utf8_lossy (cap_argv MAX_ARGV_BYTES (take MAX_ARGS (map arg_bytes sample_args)))
          = ["ls"; "a b"; "helloworld"]) as Hkept by by vm_compute.
  destruct (exec_event_assembled (exec_new 5) sample_syscall 0 sample_rest sample_exec
              1690000000 123 456 sample_args sample_chunks)
    as (H & _); [by vm_compute..|by repeat constructor|done|done|exact sample_event|].
  rewrite Hkept in H. exact H.
Defined.

(** The kernel prints an executable path that holds a blank as hex, and this parser keeps
    the hex text: [/tmp/a b] is reported as ["2F746D702F612062"]. *)
Lemma exe_path_left_in_hex :
  px_exe_path <$> parse_audit_line
    "type=SYSCALL msg=audit(1690000000.123:456): syscall=59 ppid=7 pid=42 uid=0 comm=x exe=2F746D702F612062"
  = Some "2F746D702F612062"
  /\ decode_value (bytes_of "2F746D702F612062") = bytes_of "/tmp/a b".
Proof. by vm_compute. Qed.
