(* ===== verification/FsAudit.v ===== *)
(** * File system sensor, audit backend: [crates/osiris-sensors/fs]

    [audit_record.rs]: [SYSCALL], [PATH] and [CWD] records.  [assembler.rs]: the records of
    one audit event joined into file events, one group open at a time. *)

From S2P Require Import Prelude Schema RawEvent FileUtil AuditText.

(** ** [audit_record.rs] *)

Inductive NameType := NtParent | NtNormal | NtCreate | NtDelete | NtUnknown.
Inductive SyscallClass := ScWrite | ScCreate | ScDelete | ScRename.

#[global] Instance nametype_eq_dec : EqDecision NameType.
Proof. solve_decision. Defined.
#[global] Instance syscall_class_eq_dec : EqDecision SyscallClass.
Proof. solve_decision. Defined.

Definition syscall_class (nr : Z) : option SyscallClass :=
  if existsb (Z.eqb nr) [2; 257; 437; 85; 76; 77] then Some ScWrite
  else if existsb (Z.eqb nr) [83; 258] then Some ScCreate
  else if existsb (Z.eqb nr) [87; 263; 84] then Some ScDelete
  else if existsb (Z.eqb nr) [82; 264; 316] then Some ScRename
  else None.

Record SyscallRecord := {
  sr_syscall : Z; sr_success : bool; sr_pid : Z; sr_ppid : Z; sr_uid : Z; sr_comm : string;
  sr_exe_path : string; sr_key : option string }.

Record PathRecord := {
  pr_item : Z; pr_name : string; pr_inode : option Z; pr_device_id : option Z;
  pr_mode : option Z; pr_owner_uid : option Z; pr_owner_gid : option Z; nametype : NameType }.

Inductive AuditRecord :=
| ASyscall (s : SyscallRecord)
| APath (p : PathRecord)
| ACwd (cwd : string)
| AOther.

Definition parse_nametype (raw : option string) : NameType :=
  match raw with
  | Some s => if (s =? "PARENT")%string then NtParent
              else if (s =? "NORMAL")%string then NtNormal
              else if (s =? "CREATE")%string then NtCreate
              else if (s =? "DELETE")%string then NtDelete
              else NtUnknown
  | None => NtUnknown
  end.

(** [u8::from_str_radix(pair, 16)] on two checked hex digits. *)
Definition hex_value (b : byte) : Z := default 0 (radix_digit 16 b).

Fixpoint decode_pairs (l : list byte) : list byte :=
  match l with
  | h :: l' :: rest => z2b (16 * hex_value h + hex_value l') :: decode_pairs rest
  | _ => []
  end.

Definition decode_hex (raw : string) : option string :=
  let l := bytes_of raw in
  if (List.length l <? 2)%nat || negb (Nat.even (List.length l)) || negb (forallb is_hexdigit l)
  then None else Some (from_utf8_lossy (decode_pairs l)).

(** The key followed by an opening quote in the raw line tells a quoted value from a hex one. *)
Definition decode_untrusted_string (line key raw_value : string) : string :=
  if is_infix (bytes_of key ++ [z2b 61; z2b 34]) (bytes_of line) then raw_value
  else default raw_value (decode_hex raw_value).

Definition parse_dev (raw : string) : option Z :=
  '(major, minor) ← split_once (z2b 58) (bytes_of raw);
  major ← parse_radix 32 16 (of_bytes major);
  minor ← parse_radix 32 16 (of_bytes minor);
  Some (encode_device_id major minor).

Definition parse_syscall (fields : gmap string string) : option SyscallRecord :=
  syscall ← fields !! "syscall" ≫= parse_uint 32;
  pid ← fields !! "pid" ≫= parse_uint 32;
  ppid ← fields !! "ppid" ≫= parse_uint 32;
  uid ← fields !! "uid" ≫= parse_uint 32;
  Some {| sr_syscall := syscall; sr_success := bool_decide (fields !! "success" = Some "yes");
          sr_pid := pid; sr_ppid := ppid; sr_uid := uid;
          sr_comm := default "" (fields !! "comm"); sr_exe_path := default "" (fields !! "exe");
          sr_key := opt_filter (fun k => negb (k =? "(null)")%string) (fields !! "key") |}.

Definition parse_path (line : string) (fields : gmap string string) : option PathRecord :=
  raw ← fields !! "name";
  let name := decode_untrusted_string line "name" raw in
  if (name =? "")%string || (name =? "(null)")%string then None
  else
    Some {| pr_item := default 0 (fields !! "item" ≫= parse_uint 32);
            pr_name := name;
            pr_inode := fields !! "inode" ≫= parse_uint 64;
            pr_device_id := fields !! "dev" ≫= parse_dev;
            pr_mode := fields !! "mode" ≫= parse_radix 32 8;
            pr_owner_uid := fields !! "ouid" ≫= parse_uint 32;
            pr_owner_gid := fields !! "ogid" ≫= parse_uint 32;
            nametype := parse_nametype (fields !! "nametype") |}.

Definition fs_parse_record (line : string) : option (AuditMsgId * AuditRecord) :=
  let fields := tokenize line in
  msg ← fields !! "msg";
  id ← parse_audit_msg_id msg;
  let ty := default "" (fields !! "type") in
  record ← (if (ty =? "SYSCALL")%string then ASyscall <$> parse_syscall fields
            else if (ty =? "PATH")%string then APath <$> parse_path line fields
            else if (ty =? "CWD")%string then
              (fun cwd => ACwd (decode_untrusted_string line "cwd" cwd)) <$> fields !! "cwd"
            else Some AOther);
  Some (id, record).

(** ** [assembler.rs] *)

Record PendingGroup := {
  pg_id : AuditMsgId; pg_syscall : option SyscallRecord; pg_cwd : option string;
  pg_paths : list PathRecord; pg_last_seen : Z }.

Record AuditEventAssembler := {
  fs_pending : option PendingGroup; fs_completion_timeout : Z; max_paths_per_group : nat }.

Definition fs_new (timeout : Z) : AuditEventAssembler :=
  {| fs_pending := None; fs_completion_timeout := timeout; max_paths_per_group := 64 |}.

Definition fs_set (s : AuditEventAssembler) (p : option PendingGroup) : AuditEventAssembler :=
  {| fs_pending := p; fs_completion_timeout := fs_completion_timeout s;
     max_paths_per_group := max_paths_per_group s |}.

Definition slash : byte := z2b 47.

Fixpoint trim_start_byte (c : byte) (l : list byte) : list byte :=
  match l with
  | b :: l' => if decide (b = c) then trim_start_byte c l' else l
  | [] => []
  end.

(** [cwd.trim_end_matches('/')]. *)
Definition trim_end_slash (s : string) : string :=
  of_bytes (rev (trim_start_byte slash (rev (bytes_of s)))).

Definition absolutize (name : string) (cwd : option string) : string :=
  if str_starts_with name "/" then name
  else match cwd with
       | Some cwd => trim_end_slash cwd +:+ "/" +:+ name
       | None => name
       end.

Definition build_event (id : AuditMsgId) (s : SyscallRecord) (op : FileOperation) (path : string)
    (previous_path : option string) (identity_source : PathRecord) : FileEventRaw :=
  {| fe_operation := op; fe_path := path; fe_previous_path := previous_path;
     fe_inode := pr_inode identity_source; fe_device_id := pr_device_id identity_source;
     fe_mode := pr_mode identity_source; fe_owner_uid := pr_owner_uid identity_source;
     fe_owner_gid := pr_owner_gid identity_source;
     fe_pid := sr_pid s; fe_ppid := sr_ppid s; fe_uid := sr_uid s;
     fe_exe_path := sr_exe_path s; fe_comm := sr_comm s;
     fe_timestamp_ns := am_timestamp_ns id; fe_audit_serial := Some (am_serial id);
     fe_source := RAudit |}.

Definition is_delete (p : PathRecord) : bool := bool_decide (nametype p = NtDelete).
Definition is_create (p : PathRecord) : bool := bool_decide (nametype p = NtCreate).

(** [iter().find(..)] with the position found, which stands for the reference. *)
Fixpoint find_from (f : PathRecord -> bool) (i : nat) (l : list PathRecord)
  : option (nat * PathRecord) :=
  match l with
  | [] => None
  | p :: l => if f p then Some (i, p) else find_from f (S i) l
  end.

(** [iter().rev().find(..)] over the other positions. *)
Fixpoint find_last_other (f : PathRecord -> bool) (skip i : nat) (l : list PathRecord)
  : option PathRecord :=
  match l with
  | [] => None
  | p :: l =>
      match find_last_other f skip (S i) l with
      | Some q => Some q
      | None => if f p && negb (i =? skip)%nat then Some p else None
      end
  end.

Definition rename_event (id : AuditMsgId) (s : SyscallRecord) (cwd : option string)
    (operands : list PathRecord) : option FileEventRaw :=
  '(i, source) ← find_from is_delete 0 operands;
  destination ← match find_from is_create 0 operands with
                | Some (_, d) => Some d
                | None => find_last_other is_delete i 0 operands
                end;
  Some (build_event id s FoRename (absolutize (pr_name destination) cwd)
          (Some (absolutize (pr_name source) cwd)) source).

Definition is_operand (p : PathRecord) : bool :=
  match nametype p with NtParent | NtUnknown => false | _ => true end.

Definition operand_event (id : AuditMsgId) (s : SyscallRecord) (cwd : option string)
    (class : SyscallClass) (p : PathRecord) : option FileEventRaw :=
  op ← match nametype p with
       | NtCreate => Some FoCreate
       | NtDelete => Some FoDelete
       | NtNormal => if decide (class = ScWrite) then Some FoWrite else None
       | _ => None
       end;
  Some (build_event id s op (absolutize (pr_name p) cwd) None p).

Definition group_to_file_events (id : AuditMsgId) (s : SyscallRecord) (cwd : option string)
    (paths : list PathRecord) : list FileEventRaw :=
  if negb (sr_success s) then []
  else match syscall_class (sr_syscall s) with
       | None => []
       | Some class =>
           let operands := List.filter is_operand paths in
           match operands with
           | [] => []
           | _ =>
               if decide (class = ScRename) then option_list (rename_event id s cwd operands)
               else omap (operand_event id s cwd class) operands
           end
       end.

Definition fs_take_pending (s : AuditEventAssembler) : list FileEventRaw * AuditEventAssembler :=
  match fs_pending s with
  | None => ([], s)
  | Some g =>
      (match pg_syscall g with
       | None => []
       | Some sc => group_to_file_events (pg_id g) sc (pg_cwd g) (pg_paths g)
       end, fs_set s None)
  end.

Definition add_record (max_paths : nat) (g : PendingGroup) (r : AuditRecord) (now : Z)
  : PendingGroup :=
  match r with
  | ASyscall sc => {| pg_id := pg_id g; pg_syscall := Some sc; pg_cwd := pg_cwd g;
                      pg_paths := pg_paths g; pg_last_seen := now |}
  | ACwd cwd => {| pg_id := pg_id g; pg_syscall := pg_syscall g; pg_cwd := Some cwd;
                   pg_paths := pg_paths g; pg_last_seen := now |}
  | APath p => {| pg_id := pg_id g; pg_syscall := pg_syscall g; pg_cwd := pg_cwd g;
                  pg_paths := if (List.length (pg_paths g) <? max_paths)%nat
                              then pg_paths g ++ [p] else pg_paths g;
                  pg_last_seen := now |}
  | AOther => {| pg_id := pg_id g; pg_syscall := pg_syscall g; pg_cwd := pg_cwd g;
                 pg_paths := pg_paths g; pg_last_seen := now |}
  end.

Definition empty_group (id : AuditMsgId) (now : Z) : PendingGroup :=
  {| pg_id := id; pg_syscall := None; pg_cwd := None; pg_paths := []; pg_last_seen := now |}.

Definition fs_offer (s : AuditEventAssembler) (line : string) (now : Z)
  : list FileEventRaw * AuditEventAssembler :=
  match fs_parse_record line with
  | None => ([], s)
  | Some (id, record) =>
      let '(emitted, s) :=
        match fs_pending s with
        | Some g => if decide (pg_id g = id) then ([], s) else fs_take_pending s
        | None => ([], s)
        end in
      let group := match fs_pending s with Some g => g | None => empty_group id now end in
      (emitted, fs_set s (Some (add_record (max_paths_per_group s) group record now)))
  end.

Definition fs_tick (s : AuditEventAssembler) (now : Z) : list FileEventRaw * AuditEventAssembler :=
  match fs_pending s with
  | Some g => if fs_completion_timeout s <=? Z.max 0 (now - pg_last_seen g) then fs_take_pending s
              else ([], s)
  | None => ([], s)
  end.

Definition fs_flush (s : AuditEventAssembler) : list FileEventRaw * AuditEventAssembler :=
  fs_take_pending s.

(** ** Reference: the records of a log in maximal runs of one event *)

Fixpoint runs_from (id : AuditMsgId) (rs : list AuditRecord) (l : list (AuditMsgId * AuditRecord))
  : list (AuditMsgId * list AuditRecord) :=
  match l with
  | [] => [(id, rs)]
  | (id', r) :: l =>
      if decide (id = id') then runs_from id (rs ++ [r]) l else (id, rs) :: runs_from id' [r] l
  end.

Definition runs (l : list (AuditMsgId * AuditRecord)) : list (AuditMsgId * list AuditRecord) :=
  match l with
  | [] => []
  | (id, r) :: l => runs_from id [r] l
  end.

Definition syscalls_of (rs : list AuditRecord) : list SyscallRecord :=
  omap (fun r => match r with ASyscall s => Some s | _ => None end) rs.
Definition cwds_of (rs : list AuditRecord) : list string :=
  omap (fun r => match r with ACwd c => Some c | _ => None end) rs.
Definition paths_of (rs : list AuditRecord) : list PathRecord :=
  omap (fun r => match r with APath p => Some p | _ => None end) rs.

(** The last [SYSCALL], the last [CWD] and the first paths of a run decide its events. *)
Definition events_of_run (max_paths : nat) (run : AuditMsgId * list AuditRecord) : list FileEventRaw :=
  match last (syscalls_of run.2) with
  | None => []
  | Some s => group_to_file_events run.1 s (last (cwds_of run.2)) (take max_paths (paths_of run.2))
  end.

Fixpoint fs_offers (s : AuditEventAssembler) (lines : list (string * Z))
  : list FileEventRaw * AuditEventAssembler :=
  match lines with
  | [] => ([], s)
  | (line, now) :: lines =>
      let '(out, s) := fs_offer s line now in
      let '(outs, s) := fs_offers s lines in
      (out ++ outs, s)
  end.

(** A group stands for the records of its run. *)
Record stands_for (max_paths : nat) (g : PendingGroup) (id : AuditMsgId) (rs : list AuditRecord)
  : Prop := {
  st_id : pg_id g = id;
  st_syscall : pg_syscall g = last (syscalls_of rs);
  st_cwd : pg_cwd g = last (cwds_of rs);
  st_paths : pg_paths g = take max_paths (paths_of rs);
}.

Lemma stands_for_empty n id now : stands_for n (empty_group id now) id [].
Proof. constructor; try done. cbn. by rewrite take_nil. Qed.

Lemma stands_for_add n g id rs r now :
  stands_for n g id rs -> stands_for n (add_record n g r now) id (rs ++ [r]).
Proof.
  intros [Hid Hs Hc Hp]. destruct r as [s|p|c|]; constructor;
    cbn [add_record pg_id pg_syscall pg_cwd pg_paths]; unfold syscalls_of, cwds_of, paths_of in *;
    rewrite ?omap_app; cbn [omap list_omap]; rewrite ?app_nil_r, ?last_snoc; try done.
  rewrite Hp. destruct (Nat.ltb_spec (List.length (take n
    (omap (fun r => match r with APath p => Some p | _ => None end) rs))) n) as [Hlt|Hge].
  - rewrite length_take in Hlt. rewrite !take_ge by (rewrite ?length_app; simpl; lia). done.
  - rewrite length_take in Hge. by rewrite take_app_le by lia.
Qed.

Lemma take_pending_run s g id rs :
  fs_pending s = Some g -> stands_for (max_paths_per_group s) g id rs ->
  fs_take_pending s = (events_of_run (max_paths_per_group s) (id, rs), fs_set s None).
Proof.
  intros Hg [Hid Hs Hc Hp]. unfold fs_take_pending, events_of_run. rewrite Hg. cbn [fst snd].
  by rewrite Hs, Hid, Hc, Hp.
Qed.

Definition finish (r : list FileEventRaw * AuditEventAssembler) : list FileEventRaw :=
  r.1 ++ (fs_flush r.2).1.

Lemma offers_run lines : forall s g id rs,
  fs_pending s = Some g -> stands_for (max_paths_per_group s) g id rs ->
  finish (fs_offers s lines)
  = flat_map (events_of_run (max_paths_per_group s))
      (runs_from id rs (omap fs_parse_record (map fst lines))).
Proof.
  induction lines as [|[line now] lines IH]; intros s g id rs Hg Hst.
  { unfold finish. cbn [fs_offers fst snd app map omap list_omap runs_from flat_map].
    unfold fs_flush. by rewrite (take_pending_run _ _ _ _ Hg Hst), app_nil_r. }
  cbn [fs_offers map fst omap list_omap]. unfold fs_offer.
  destruct (fs_parse_record line) as [[id' r]|]; cbn [runs_from].
  2:{ rewrite <- (IH s g) by done. unfold finish. by destruct (fs_offers s lines). }
  rewrite Hg. pose proof (st_id _ _ _ _ Hst) as Hid. rewrite Hid.
  destruct (decide (id = id')) as [<-|Hne].
  - rewrite Hg.
    etransitivity; [|exact (IH (fs_set s (Some (add_record (max_paths_per_group s) g r now)))
                              _ id (rs ++ [r]) eq_refl (stands_for_add _ _ _ _ _ _ Hst))].
    unfold finish. by destruct (fs_offers _ lines).
  - rewrite (take_pending_run _ _ _ _ Hg Hst). cbn [fs_set fs_pending max_paths_per_group flat_map].
    etransitivity; [|apply f_equal;
      exact (IH (fs_set s (Some (add_record (max_paths_per_group s) (empty_group id' now) r now)))
               _ id' [r] eq_refl (stands_for_add _ _ _ [] _ _ (stands_for_empty _ _ _)))].
    unfold finish, fs_set. cbn. destruct (fs_offers _ lines). cbn. by rewrite app_assoc.
Qed.

(** The file system assembler, which keeps one group open and sees one line at a
    time, reports exactly the events of the whole log: over any lines and arrival times,
    the events it emits and the ones of the final flush are those of the log's maximal runs
    of one event id, each computed from the run's last [SYSCALL], its last [CWD] and its
    first 64 paths; lines that do not parse change nothing. *)
Lemma fs_assembler_groups timeout lines :
  let '(out, s) := fs_offers (fs_new timeout) lines in
  out ++ (fs_flush s).1 = flat_map (events_of_run 64) (runs (omap fs_parse_record (map fst lines))).
Proof.
  assert (finish (fs_offers (fs_new timeout) lines)
          = flat_map (events_of_run 64) (runs (omap fs_parse_record (map fst lines)))) as H;
    [|revert H; unfold finish; by destruct (fs_offers (fs_new timeout) lines)].
  generalize (fs_new timeout) as s, (eq_refl : fs_pending (fs_new timeout) = None),
    (eq_refl : max_paths_per_group (fs_new timeout) = 64%nat).
  intros s Hs H64. induction lines as [|[line now] lines IH].
  { unfold finish, fs_flush, fs_take_pending. cbn. by rewrite Hs. }
  cbn [fs_offers map fst omap list_omap]. unfold fs_offer.
  destruct (fs_parse_record line) as [[id r]|].
  2:{ rewrite <- IH. unfold finish. by destruct (fs_offers s lines). }
  rewrite Hs. cbn [runs]. rewrite Hs, <- H64.
  etransitivity;
    [|exact (offers_run lines (fs_set s (Some (add_record (max_paths_per_group s)
                                                 (empty_group id now) r now)))
               _ id [r] eq_refl (stands_for_add _ _ _ [] _ _ (stands_for_empty _ _ _)))].
  unfold finish. by destruct (fs_offers (fs_set _ _) lines).
Qed.

(** ** What an event is made of *)

Lemma find_from_spec f l : forall i j p, find_from f i l = Some (j, p) -> In p l /\ f p = true.
Proof.
  induction l as [|q l IH]; intros i j p E; [done|]. cbn [find_from] in E.
  destruct (f q) eqn:Eq; [simplify_eq; by split; [left|]|].
  apply IH in E as [? ?]. split; [by right|done].
Qed.

Lemma find_last_other_spec f k l : forall i p,
  find_last_other f k i l = Some p -> In p l /\ f p = true.
Proof.
  induction l as [|q l IH]; intros i p E; [done|]. cbn [find_last_other] in E.
  destruct (find_last_other f k (S i) l) as [r|] eqn:Er.
  - simplify_eq. apply IH in Er as [? ?]. split; [by right|done].
  - destruct (f q) eqn:Eq; [|done]. destruct (i =? k)%nat; [done|]. simplify_eq/=. auto.
Qed.

Lemma absolutize_absolute name cwd :
  str_starts_with cwd "/" = true -> str_starts_with (absolutize name (Some cwd)) "/" = true.
Proof.
  intros Hc. unfold absolutize. destruct (str_starts_with name "/") eqn:E; [done|].
  unfold str_starts_with in *. rewrite !bytes_of_app. unfold trim_end_slash.
  rewrite bytes_of_of_bytes.
  assert (forall l m, l = [] \/ is_prefix (bytes_of "/") (rev l) = true ->
            is_prefix (bytes_of "/") (rev (trim_start_byte slash l) ++ bytes_of "/" ++ m) = true)
    as H; [|apply H; right; by rewrite rev_involutive].
  clear. induction l as [|b l IH]; intros m Hl; [done|]. destruct Hl as [?|Hl]; [done|].
  cbn [trim_start_byte]. cbn [rev] in Hl. case_decide as Hb.
  - apply IH. destruct (rev l) as [|c r] eqn:E; [left|by right].
    apply (f_equal (@rev _)) in E. by rewrite rev_involutive in E.
  - cbn [rev]. destruct (rev l); [|done].
    cbn in Hl. rewrite andb_true_r in Hl. by apply bool_decide_eq_true in Hl as <-.
Qed.

(** The source of the identity and the named path of an event, by its operation. *)
Definition backed_by (s : SyscallRecord) (cwd : option string) (src dst : PathRecord)
    (e : FileEventRaw) : Prop :=
  match fe_operation e with
  | FoRename => syscall_class (sr_syscall s) = Some ScRename /\ nametype src = NtDelete
                /\ (nametype dst = NtCreate \/ nametype dst = NtDelete)
                /\ fe_previous_path e = Some (absolutize (pr_name src) cwd)
  | FoCreate => src = dst /\ nametype src = NtCreate /\ fe_previous_path e = None
  | FoDelete => src = dst /\ nametype src = NtDelete /\ fe_previous_path e = None
  | FoWrite => src = dst /\ nametype src = NtNormal /\ fe_previous_path e = None
               /\ syscall_class (sr_syscall s) = Some ScWrite
  end.

Record grounded (id : AuditMsgId) (s : SyscallRecord) (cwd : option string)
    (paths : list PathRecord) (e : FileEventRaw) : Prop := {
  gr_success : sr_success s = true;
  gr_actor : fe_pid e = sr_pid s /\ fe_ppid e = sr_ppid s /\ fe_uid e = sr_uid s
             /\ fe_exe_path e = sr_exe_path s /\ fe_comm e = sr_comm s;
  gr_time : fe_timestamp_ns e = am_timestamp_ns id /\ fe_audit_serial e = Some (am_serial id);
  gr_paths : exists src dst, In src paths /\ In dst paths
    /\ fe_inode e = pr_inode src /\ fe_device_id e = pr_device_id src
    /\ fe_path e = absolutize (pr_name dst) cwd /\ backed_by s cwd src dst e;
}.

Lemma rename_grounded id s cwd ops paths e :
  sr_success s = true -> syscall_class (sr_syscall s) = Some ScRename -> incl ops paths ->
  rename_event id s cwd ops = Some e -> grounded id s cwd paths e.
Proof.
  intros Hs Hc Hin E. unfold rename_event in E.
  destruct (find_from is_delete 0 ops) as [[i src]|] eqn:E1; [|done]. cbn [mbind option_bind] in E.
  apply find_from_spec in E1 as [Hsrc Hdel]. apply bool_decide_eq_true in Hdel.
  assert (exists dst, In dst ops /\ (nametype dst = NtCreate \/ nametype dst = NtDelete)
            /\ e = build_event id s FoRename (absolutize (pr_name dst) cwd)
                     (Some (absolutize (pr_name src) cwd)) src) as (dst & Hdst & Hty & ->).
  { destruct (find_from is_create 0 ops) as [[j d]|] eqn:E2.
    - apply find_from_spec in E2 as [? H2]. apply bool_decide_eq_true in H2.
      cbn in E. simplify_eq. eauto 6.
    - destruct (find_last_other is_delete i 0 ops) as [d|] eqn:E3; [|done].
      apply find_last_other_spec in E3 as [? H3]. apply bool_decide_eq_true in H3.
      cbn in E. simplify_eq. eauto 6. }
  constructor; try done. exists src, dst. unfold backed_by. cbn. auto 10.
Qed.

Lemma operand_grounded id s cwd c paths p e :
  sr_success s = true -> syscall_class (sr_syscall s) = Some c -> In p paths ->
  operand_event id s cwd c p = Some e -> grounded id s cwd paths e.
Proof.
  intros Hs Hc Hp E. unfold operand_event in E.
  assert (exists op, e = build_event id s op (absolutize (pr_name p) cwd) None p
            /\ backed_by s cwd p p e) as (op & -> & Hb).
  { unfold backed_by. destruct (nametype p); try case_decide; cbn in E; simplify_eq; cbn; eauto 8. }
  constructor; try done. by exists p, p.
Qed.

(** A file event says nothing the kernel did not: every event of a group comes from a
    successful file system call; its process, user, time and serial are those of the
    group's [SYSCALL] record; its inode and device belong to a [PATH] record of the group
    whose role fits the operation (a rename keeps the identity of the moved source, and
    names source and destination); its path is that record's, absolute whenever the
    working directory is. *)
Lemma fs_events_grounded id s cwd paths e :
  In e (group_to_file_events id s cwd paths) ->
  grounded id s cwd paths e
  /\ (forall d, cwd = Some d -> str_starts_with d "/" = true ->
        str_starts_with (fe_path e) "/" = true).
Proof.
  intros He. assert (grounded id s cwd paths e) as Hg.
  { unfold group_to_file_events in He. destruct (sr_success s) eqn:Hs; [|done]. cbn [negb] in He.
    destruct (syscall_class (sr_syscall s)) as [c|] eqn:Hc; [|done].
    pose proof (incl_filter is_operand paths) as Hincl.
    destruct (List.filter is_operand paths) as [|p ops] eqn:Ho; [done|].
    destruct (decide (c = ScRename)) as [->|].
    - destruct (rename_event id s cwd (p :: ops)) as [e'|] eqn:E; [|done].
      cbn in He. destruct He as [<-|[]]. by eapply rename_grounded.
    - apply list_elem_of_In, list_elem_of_omap in He as (q & Hq & E).
      eapply operand_grounded; [done..| |exact E]. by apply Hincl, list_elem_of_In. }
  split; [done|]. intros d -> Hd. destruct (gr_paths _ _ _ _ _ Hg) as (src & dst & _ & _ & _ & _ & -> & _).
  by apply absolutize_absolute.
Qed.

Definition sample_path (name : string) (ino : Z) (t : NameType) : PathRecord :=
  {| pr_item := 0; pr_name := name; pr_inode := Some ino; pr_device_id := Some 1; pr_mode := None;
     pr_owner_uid := None; pr_owner_gid := None; nametype := t |}.
Definition sample_rename : SyscallRecord :=
  {| sr_syscall := 82; sr_success := true; sr_pid := 42; sr_ppid := 7; sr_uid := 0;
     sr_comm := "mv"; sr_exe_path := "/bin/mv"; sr_key := None |}.
Definition sample_moved : list PathRecord :=
  [sample_path "/srv" 2 NtParent; sample_path "old" 11 NtDelete; sample_path "new" 12 NtDelete;
   sample_path "new" 11 NtCreate].

Lemma fs_events_grounded_witness :
  exists e, In e (group_to_file_events {| am_timestamp_ns := 5; am_serial := 9 |} sample_rename
                    (Some "/srv/") sample_moved)
    /\ fe_inode e = Some 11 /\ fe_previous_path e = Some "/srv/old" /\ fe_path e = "/srv/new"
    /\ str_starts_with (fe_path e) "/" = true.
Proof.
  eexists. split; [by left|]. split; [done|]. split; [done|]. split; [done|].
  eapply (proj2 (fs_events_grounded {| am_timestamp_ns := 5; am_serial := 9 |} sample_rename
                   (Some "/srv/") sample_moved _ ltac:(by left)) "/srv/"); by vm_compute.
Defined.

(** A file whose name is the text [(null)] is indistinguishable from a [PATH] record
    without a name once the quotes are gone: the record is skipped, and the operation on
    that file is never reported. *)
Lemma null_named_file_invisible secs millis serial fs now s :
  header_ok "PATH" secs millis serial = true -> Forall (fun f => kv_ok f = true) fs ->
  let named := {| kv_key := bytes_of "name"; kv_value := bytes_of "(null)"; kv_untrusted := true |} in
  Forall (fun f => kv_key f <> bytes_of "type" /\ kv_key f <> bytes_of "msg"
                   /\ kv_key f <> bytes_of "name") fs ->
  fs_offer s (audit_record_line "PATH" secs millis serial (fs ++ [named])) now = ([], s).
Proof.
  intros Hh Hfs named Hkeys. unfold fs_offer.
  replace (fs_parse_record _) with (@None (AuditMsgId * AuditRecord)); [done|].
  assert (Forall (fun f => kv_ok f = true) (fs ++ [named])) as Hall by (by apply Forall_app_2; [|repeat constructor]).
  destruct (record_header "PATH" secs millis serial Hh (fs ++ [named]) Hall) as [Hty Hmsg].
  { apply Forall_app_2; [|by repeat constructor]. eapply Forall_impl; [exact Hkeys|]. naive_solver. }
  unfold fs_parse_record. destruct (tokenize _ !! "msg") as [m|] eqn:Em; [|done].
  cbn [mbind option_bind] in *. rewrite Hmsg. cbn [mbind option_bind]. rewrite Hty.
  cbn [default]. unfold id. change ("PATH" =? "SYSCALL")%string with false.
  change ("PATH" =? "PATH")%string with true. cbn iota. unfold parse_path.
  assert (tokenize (audit_record_line "PATH" secs millis serial (fs ++ [named])) !! "name" = Some "(null)")
    as ->.
  { rewrite tokenize_record by done. unfold collect_map.
    rewrite !map_cons, map_app, 2!app_comm_cons, fold_left_app. cbn [map fold_left].
    change (kv_pair named) with ("name", "(null)"). cbn [fst snd]. by rewrite lookup_insert_eq. }
  cbn [mbind option_bind]. unfold decode_untrusted_string.
  destruct (is_infix _ _); [done|]. by vm_compute.
Qed.
