(* ===== verification/IdentityAudit.v ===== *)
(** * Identity and systemd sensors, audit backend

    [crates/osiris-sensors/identity/src/audit_record.rs]: logins, sessions, setuid/setgid
    and sudo from single audit records.  [crates/osiris-sensors/systemd/src/audit_record.rs]:
    unit starts and stops.  Both read records with a user-controlled inner layer; the
    theorem shows that this layer cannot forge the identity of an event. *)

From S2P Require Import Prelude RawEvent FileUtil FsAudit.

(** ** Identity and privilege records *)

Inductive IdentityRecord :=
| IdIdentity (i : IdentityEventRaw)
| IdPrivilege (p : PrivilegeEventRaw).

(** The part after the last ['/'], if not empty. *)
Definition basename (exe_path : string) : option string :=
  let stem := match rsplit_once slash (bytes_of exe_path) with
              | Some (_, s) => s
              | None => bytes_of exe_path
              end in
  match stem with [] => None | _ => Some (of_bytes stem) end.

Definition identity (parts : RecordParts) (operation : IdentityOperation) : option IdentityRecord :=
  session_id ← usable_session (rp_get parts "ses");
  let exe_path := default "" (rp_get parts "exe") in
  pid ← rp_get parts "pid" ≫= parse_uint 32;
  uid ← rp_get parts "uid" ≫= parse_uint 32;
  Some (IdIdentity
    {| ie_operation := operation; ie_session_id := session_id; ie_pid := pid; ie_uid := uid;
       ie_auid := parse_id (rp_get parts "auid");
       ie_username := unknown_to_none (rp_get parts "acct");
       ie_terminal := unknown_to_none (rp_get parts "terminal");
       ie_remote_addr := unknown_to_none (rp_get parts "addr");
       ie_auth_method := basename exe_path;
       ie_success := bool_decide (rp_get parts "res" = Some "success");
       ie_exe_path := exe_path; ie_comm := default "" (basename exe_path);
       ie_timestamp_ns := am_timestamp_ns (rp_id parts);
       ie_audit_serial := Some (am_serial (rp_id parts)); ie_source := RAudit |}).

Definition syscall_privilege (parts : RecordParts) (operation : PrivilegeOperation)
  : option IdentityRecord :=
  let target := opt_filter (fun v => negb (v =? u32_max)) (rp_get parts "a0" ≫= parse_radix 32 16) in
  let '(target_uid, target_gid) := match operation with
                                   | PoUidChange => (target, None)
                                   | PoGidChange => (None, target)
                                   | PoSudo => (None, None)
                                   end in
  pid ← rp_get parts "pid" ≫= parse_uint 32;
  uid ← rp_get parts "uid" ≫= parse_uint 32;
  Some (IdPrivilege
    {| pv_operation := operation; pv_pid := pid;
       pv_ppid := default 0 (rp_get parts "ppid" ≫= parse_uint 32); pv_uid := uid;
       pv_gid := rp_get parts "gid" ≫= parse_uint 32;
       pv_euid := rp_get parts "euid" ≫= parse_uint 32;
       pv_egid := rp_get parts "egid" ≫= parse_uint 32;
       pv_auid := parse_id (rp_get parts "auid");
       pv_session_id := usable_session (rp_get parts "ses"); pv_username := None;
       pv_target_uid := target_uid; pv_target_gid := target_gid; pv_command := None;
       pv_success := bool_decide (rp_get parts "success" = Some "yes");
       pv_exe_path := default "" (rp_get parts "exe"); pv_comm := default "" (rp_get parts "comm");
       pv_timestamp_ns := am_timestamp_ns (rp_id parts);
       pv_audit_serial := Some (am_serial (rp_id parts)); pv_source := RAudit |}).

Definition sudo (parts : RecordParts) (line : string) : option IdentityRecord :=
  let exe_path := default "" (rp_get parts "exe") in
  pid ← rp_get parts "pid" ≫= parse_uint 32;
  uid ← rp_get parts "uid" ≫= parse_uint 32;
  Some (IdPrivilege
    {| pv_operation := PoSudo; pv_pid := pid; pv_ppid := 0; pv_uid := uid;
       pv_gid := None; pv_euid := None; pv_egid := None;
       pv_auid := parse_id (rp_get parts "auid");
       pv_session_id := usable_session (rp_get parts "ses");
       pv_username := unknown_to_none (rp_get parts "acct");
       pv_target_uid := None; pv_target_gid := None;
       pv_command := decode_untrusted_string line "cmd" <$> rp_get parts "cmd";
       pv_success := bool_decide (rp_get parts "res" = Some "success");
       pv_exe_path := exe_path; pv_comm := default "" (basename exe_path);
       pv_timestamp_ns := am_timestamp_ns (rp_id parts);
       pv_audit_serial := Some (am_serial (rp_id parts)); pv_source := RAudit |}).

Definition identity_parse_record (line : string) : option IdentityRecord :=
  parts ← split_record line;
  let ty := record_type parts in
  if (ty =? "USER_LOGIN")%string then identity parts IoLogin
  else if (ty =? "USER_LOGOUT")%string then identity parts IoLogout
  else if (ty =? "USER_START")%string then identity parts IoSessionStart
  else if (ty =? "USER_END")%string then identity parts IoSessionEnd
  else if (ty =? "USER_CMD")%string then sudo parts line
  else if (ty =? "SYSCALL")%string then
    nr ← rp_get parts "syscall" ≫= parse_uint 32;
    if nr =? 105 then syscall_privilege parts PoUidChange
    else if nr =? 106 then syscall_privilege parts PoGidChange
    else None
  else None.

(** ** Systemd records *)

Definition systemd_parse_record (line : string) : option SystemdEventRaw :=
  parts ← split_record line;
  let ty := record_type parts in
  operation ← (if (ty =? "SERVICE_START")%string then Some SoStart
               else if (ty =? "SERVICE_STOP")%string then Some SoStop else None);
  unit ← rp_get parts "unit";
  pid ← rp_get parts "pid" ≫= parse_uint 32;
  uid ← rp_get parts "uid" ≫= parse_uint 32;
  Some {| sd_operation := operation; sd_unit_name := unit; sd_pid := pid; sd_uid := uid;
          sd_auid := parse_id (rp_get parts "auid");
          sd_session_id := usable_session (rp_get parts "ses");
          sd_success := bool_decide (rp_get parts "res" = Some "success");
          sd_exe_path := default "" (rp_get parts "exe");
          sd_comm := default "" (rp_get parts "comm");
          sd_timestamp_ns := am_timestamp_ns (rp_id parts);
          sd_audit_serial := Some (am_serial (rp_id parts)); sd_source := RAudit |}.

(** ** The identity of a session event *)

Definition session_type (ty : string) : option IdentityOperation :=
  if (ty =? "USER_LOGIN")%string then Some IoLogin
  else if (ty =? "USER_LOGOUT")%string then Some IoLogout
  else if (ty =? "USER_START")%string then Some IoSessionStart
  else if (ty =? "USER_END")%string then Some IoSessionEnd
  else None.

Lemma identity_parse_session line parts op :
  split_record line = Some parts -> session_type (record_type parts) = Some op ->
  identity_parse_record line = identity parts op.
Proof.
  intros Hs Hty. unfold identity_parse_record, session_type in *. rewrite Hs. cbn [mbind option_bind].
  by repeat case_match; simplify_eq.
Qed.

(** C20. The user-controlled part of a login record cannot forge whose event it is: for a
    session record with any inner text (quotes, apostrophes and forged fields included),
    the event has the time, serial, operation, pid, uid, login uid and session of the
    header and the outer fields, and a record whose outer session is unset is dropped
    whatever the inner text claims. *)
Theorem session_identity_unforgeable ty op secs millis serial o i t pid uid auid ses :
  header_ok ty secs millis serial = true -> session_type ty = Some op ->
  no_start (bytes_of "msg='") o (bytes_of "msg='" ++ i ++ apostrophe :: t) -> apostrophe ∉ t ->
  let line := of_bytes (render_header ty secs millis serial ++ bytes_of "): "
                          ++ o ++ bytes_of "msg='" ++ i ++ apostrophe :: t) in
  let fields := tokenize (of_bytes (o ++ t)) in
  fields !! "pid" = Some (dec_string pid) -> fits 32 pid = true ->
  fields !! "uid" = Some (dec_string uid) -> fits 32 uid = true ->
  fields !! "auid" = Some auid -> fields !! "ses" = Some ses ->
  match usable_session (Some ses) with
  | Some s =>
      exists r, identity_parse_record line = Some (IdIdentity r)
        /\ ie_operation r = op /\ ie_session_id r = s /\ ie_pid r = pid /\ ie_uid r = uid
        /\ ie_auid r = parse_id (Some auid)
        /\ ie_timestamp_ns r = secs * 1000000000 + millis * 1000000
        /\ ie_audit_serial r = Some serial
  | None => identity_parse_record line = None
  end.
Proof.
  intros Hh Hop Ho Ht line fields Hpid Fp Huid Fu Hauid Hses.
  pose proof (split_record_isolates ty secs millis serial o i t Hh Ho Ht) as Hs.
  fold fields in Hs.
  pose proof (fun k v => rp_get_outer
    {| rp_id := {| am_timestamp_ns := secs * 1000000000 + millis * 1000000; am_serial := serial |};
       record_type := ty; outer := fields; inner := tokenize (of_bytes i) |} k v) as Hget.
  rewrite (identity_parse_session line _ op Hs Hop). unfold identity.
  rewrite (Hget "ses" ses), (Hget "pid" _ Hpid), (Hget "uid" _ Huid), (Hget "auid" auid) by done.
  destruct (usable_session (Some ses)) as [s|]; [|done].
  cbn [mbind option_bind]. rewrite !parse_dec_string by done. cbn [mbind option_bind].
  by eexists.
Qed.

Definition sample_outer : list byte := bytes_of "pid=42 uid=0 auid=1000 ses=3 ".
Definition sample_inner : list byte :=
  bytes_of "op=login acct=" ++ z2b 34 :: bytes_of "o'brien" ++ z2b 34
    :: bytes_of " ses=9' uid=7 pid=1 exe=/usr/sbin/sshd res=success".

Lemma session_identity_unforgeable_witness :
  exists r, identity_parse_record
      (of_bytes (render_header "USER_LOGIN" 1690000000 123 456 ++ bytes_of "): "
                   ++ sample_outer ++ bytes_of "msg='" ++ sample_inner ++ apostrophe :: []))
      = Some (IdIdentity r)
    /\ ie_session_id r = "3" /\ ie_pid r = 42 /\ ie_uid r = 0 /\ ie_auid r = Some 1000.
Proof.
  pose proof (session_identity_unforgeable "USER_LOGIN" IoLogin 1690000000 123 456 sample_outer
    sample_inner [] 42 0 "1000" "3") as H.
  destruct H as (r & Hr & _ & Hs & Hp & Hu & Ha & _); [by vm_compute|done| | |by vm_compute..|].
  - apply (no_start_first (z2b 109) (bytes_of "sg='")). by apply (bool_decide_unpack _).
  - by apply not_elem_of_nil.
  - exists r. split; [exact Hr|]. split; [exact Hs|]. split; [exact Hp|]. split; [exact Hu|].
    rewrite Ha. by vm_compute.
Defined.
