(* ===== verification/Normalize.v ===== *)
(** * Normalisation: [crates/osiris-pipeline/src/normalize.rs]

    One function per kind of raw event, each building the whole canonical event.  The
    fresh [Uuid::now_v7()] is the argument [id]. *)

From S2P Require Import Prelude Concrete Json Schema Health RawEvent FileUtil.

Definition SCHEMA_VERSION : string := "1.0".

Definition schema_source (s : RawEventSource) : Source :=
  match s with
  | RAudit => SAudit | RSynthetic => SSynthetic | RProcfs => SProcfs
  | RContainerApi => SContainerApi | RPacket => SPacket | REbpf => SEbpf
  end.

(** The suffix of a provider name. *)
Definition backend_name (s : RawEventSource) : string :=
  match s with
  | RAudit => "audit" | RSynthetic => "synthetic" | RProcfs => "procfs"
  | RContainerApi => "container_api" | RPacket => "packet" | REbpf => "ebpf"
  end.

Definition process_exec_provider (s : RawEventSource) : string :=
  "process_exec_sensor/" +:+ backend_name s.
Definition filesystem_provider (s : RawEventSource) : string := "filesystem_sensor/" +:+ backend_name s.
Definition network_provider (s : RawEventSource) : string := "network_sensor/" +:+ backend_name s.
Definition identity_provider (s : RawEventSource) : string := "identity_sensor/" +:+ backend_name s.

Definition dns_provider (s : RawEventSource) : string :=
  match s with
  | RSynthetic => "dns_sensor/synthetic"
  | RPacket => "dns_sensor/af_packet"
  | _ => "dns_sensor/unknown"
  end.

Definition file_event_type (op : FileOperation) : EventType :=
  match op with
  | FoCreate => FileCreate | FoWrite => FileWrite | FoDelete => FileDelete | FoRename => FileRename
  end.

Definition network_event_type (op : NetworkOperation) : EventType :=
  match op with
  | NoConnect => NetworkConnect | NoAccept => NetworkAccept | NoClose => NetworkClose
  end.

Definition identity_event_type (op : IdentityOperation) : EventType :=
  match op with
  | IoLogin => SessionLogin | IoLogout => SessionLogout
  | IoSessionStart => SessionCreate | IoSessionEnd => SessionTerminate
  end.

Definition privilege_event_type (op : PrivilegeOperation) : EventType :=
  match op with
  | PoUidChange => PrivilegeUidChange | PoGidChange => PrivilegeGidChange | PoSudo => PrivilegeSudo
  end.

Definition container_event_type (op : ContainerOperation) : EventType :=
  match op with
  | CoCreate => ContainerCreate | CoStart => ContainerStart
  | CoStop => ContainerStop | CoDestroy => ContainerDestroy
  end.

Definition is_none {A} (o : option A) : bool := match o with Some _ => false | None => true end.

Definition build_user_ref (uid_ : Z) (gid_ euid_ egid_ : option Z) (username_ : option string)
    (loginuid_ : option Z) : UserRef * bool :=
  let partial := is_none gid_ || is_none euid_ || is_none egid_ in
  ({| uid := uid_; gid := default uid_ gid_; euid := default uid_ euid_;
      egid := default uid_ egid_; username := username_; loginuid := loginuid_ |}, partial).

Definition partial_tags (partial : bool) : list string :=
  if partial then ["USER_REF_PARTIAL"] else [].

Definition minimal_session (ses : option string) : option SessionRef :=
  (fun s => {| session_id := s; tty := None; remote_addr := None; auth_method := None |}) <$> ses.

Definition unit_type_from_name (n : string) : string :=
  if str_ends_with n ".timer" then "timer" else "service".

(** [path.rsplit('/').next()]: the part after the last ['/']. *)
Definition unit_name_from_path (path : string) : string :=
  match rsplit_once (z2b 47) (bytes_of path) with
  | Some (_, s) => of_bytes s
  | None => path
  end.

Definition classify_persistence_event (raw : PersistenceEventRaw)
  : EventType * Category * option ServiceRef * option string :=
  let systemd ty unit_type_ action disclosed :=
    (ty, CSystemd, Some {| unit_name := unit_name_from_path (pp_path raw);
                           unit_type := unit_type_; service_action := action |}, disclosed) in
  match pp_checkpoint_kind raw, pp_operation raw with
  | SystemdUnit, PCreated => systemd ServiceCreate "service" "create" None
  | SystemdUnit, PModified => systemd ServiceModify "service" "modify" None
  | SystemdUnit, PRemoved => systemd ServiceDelete "service" "delete" None
  | SystemdTimer, PCreated => systemd TimerCreate "timer" "create" None
  | SystemdTimer, PModified => systemd TimerModify "timer" "modify" None
  | SystemdTimer, PRemoved => systemd TimerModify "timer" "delete" (Some "removed")
  | _, PCreated => (PersistenceCreated, CPersistence, None, None)
  | _, PModified => (PersistenceModified, CPersistence, None, None)
  | _, PRemoved => (PersistenceRemoved, CPersistence, None, None)
  end.

Section Normalize.
Context `{JM : JsonMake} `{Sha256}.
Variables (id : Uuid) (host : HostRef) (boot : string).

Definition provisional_process (pid_ : option Z) (exe : string) : option ProcessRef :=
  (fun p => {| process_key := process_key_new (host_ref_id host) boot p 0; pid := p;
               exe_path := exe; cmdline := []; exe_hash := None; start_time_mono := 0 |}) <$> pid_.

Definition normalize_process_exec (raw : ProcessExecRaw) : CanonicalEvent :=
  {| event_id := id; schema_version := SCHEMA_VERSION; ev_host_id := host_ref_id host;
     boot_id := boot; ev_timestamp := px_timestamp_ns raw;
     monotonic_timestamp := px_start_time_mono raw; event_type := ProcessExec;
     ev_category := CProcess; ev_severity := Info; ev_host := host; ev_user := None;
     ev_session := None;
     ev_process := Some {| process_key := process_key_new (host_ref_id host) boot (px_pid raw)
                                            (px_start_time_mono raw);
                           pid := px_pid raw; exe_path := px_exe_path raw;
                           cmdline := px_cmdline raw; exe_hash := None;
                           start_time_mono := px_start_time_mono raw |};
     ev_parent_process := None; ev_thread := None; ev_file := None; ev_network := None;
     ev_dns := None; ev_device := None; ev_service := None; ev_container := None;
     ev_namespace := None; ev_cgroup := None; ev_kernel := None;
     ev_source := schema_source (px_source raw);
     provider := process_exec_provider (px_source raw);
     raw_event := None; relationships := []; tags := []; ev_risk := None;
     event_data := j_obj [("comm", j_str (px_comm raw)); ("ppid", j_int (px_ppid raw));
                          ("uid", j_int (px_uid raw))] |}.

Definition normalize_process_exit (raw : ProcessExitRaw) : CanonicalEvent :=
  {| event_id := id; schema_version := SCHEMA_VERSION; ev_host_id := host_ref_id host;
     boot_id := boot; ev_timestamp := pt_timestamp_ns raw;
     monotonic_timestamp := pt_start_time_mono raw; event_type := ProcessExit;
     ev_category := CProcess; ev_severity := Info; ev_host := host; ev_user := None;
     ev_session := None;
     ev_process := Some {| process_key := process_key_new (host_ref_id host) boot (pt_pid raw)
                                            (pt_start_time_mono raw);
                           pid := pt_pid raw; exe_path := pt_exe_path raw; cmdline := [];
                           exe_hash := None; start_time_mono := pt_start_time_mono raw |};
     ev_parent_process := None; ev_thread := None; ev_file := None; ev_network := None;
     ev_dns := None; ev_device := None; ev_service := None; ev_container := None;
     ev_namespace := None; ev_cgroup := None; ev_kernel := None;
     ev_source := schema_source (pt_source raw);
     provider := process_exec_provider (pt_source raw);
     raw_event := None; relationships := []; tags := []; ev_risk := None;
     event_data := j_obj [("exit_code", j_opt j_int (pt_exit_code raw));
                          ("signal", j_opt j_int (pt_signal raw)); ("comm", j_str (pt_comm raw));
                          ("ppid", j_int (pt_ppid raw)); ("uid", j_int (pt_uid raw))] |}.

(** [Serialize] of the health report. *)
Definition state_members (s : Health.HealthState) : list (string * json) :=
  match s with
  | Health.Healthy => [("state", j_str "HEALTHY")]
  | Health.Degraded e => [("state", j_str "DEGRADED"); ("last_error", j_str e)]
  | Health.Failed e => [("state", j_str "FAILED"); ("last_error", j_str e)]
  end.

Definition health_json (h : Health.AgentHealth) : json :=
  j_obj [("state", j_obj (state_members (Health.agent_state h)));
         ("sensors", j_arr (map (fun s =>
            j_obj [("sensor_name", j_str (Health.sensor_name s));
                   ("state", j_obj (state_members (Health.state s)));
                   ("events_processed", j_int (Health.events_processed s));
                   ("last_event_at", j_opt j_int (Health.last_event_at s))]) (Health.sensors h)))].

Definition normalize_agent_health (raw : AgentHealthRaw) : CanonicalEvent :=
  {| event_id := id; schema_version := SCHEMA_VERSION; ev_host_id := host_ref_id host;
     boot_id := boot; ev_timestamp := ah_timestamp_ns raw;
     monotonic_timestamp := ah_timestamp_ns raw; event_type := AgentHealth;
     ev_category := category AgentHealth;
     ev_severity := match Health.agent_state (ah_health raw) with
                    | Health.Healthy => Info
                    | Health.Degraded _ => Medium
                    | Health.Failed _ => High
                    end;
     ev_host := host; ev_user := None; ev_session := None; ev_process := None;
     ev_parent_process := None; ev_thread := None; ev_file := None; ev_network := None;
     ev_dns := None; ev_device := None; ev_service := None; ev_container := None;
     ev_namespace := None; ev_cgroup := None; ev_kernel := None;
     ev_source := SAgentInternal; provider := "agent/health";
     raw_event := None; relationships := []; tags := []; ev_risk := None;
     event_data := j_obj [("agent_version", j_str (ah_agent_version raw));
                          ("health", health_json (ah_health raw));
                          ("policy_hash", j_opt j_str (ah_policy_hash raw))] |}.

Definition normalize_file_event (raw : FileEventRaw) : CanonicalEvent :=
  {| event_id := id; schema_version := SCHEMA_VERSION; ev_host_id := host_ref_id host;
     boot_id := boot; ev_timestamp := fe_timestamp_ns raw;
     monotonic_timestamp := fe_timestamp_ns raw; event_type := file_event_type (fe_operation raw);
     ev_category := CFile; ev_severity := Info; ev_host := host; ev_user := None;
     ev_session := None;
     ev_process := Some {| process_key := process_key_new (host_ref_id host) boot (fe_pid raw) 0;
                           pid := fe_pid raw; exe_path := fe_exe_path raw; cmdline := [];
                           exe_hash := None; start_time_mono := 0 |};
     ev_parent_process := None; ev_thread := None;
     ev_file := Some {| file_path := fe_path raw; previous_path := fe_previous_path raw;
                        inode := fe_inode raw; device_id := fe_device_id raw; file_size := None;
                        file_mode := fe_mode raw; owner_uid := fe_owner_uid raw;
                        owner_gid := fe_owner_gid raw; file_hash := None |};
     ev_network := None; ev_dns := None; ev_device := None; ev_service := None;
     ev_container := None; ev_namespace := None; ev_cgroup := None; ev_kernel := None;
     ev_source := schema_source (fe_source raw); provider := filesystem_provider (fe_source raw);
     raw_event := None; relationships := []; tags := []; ev_risk := None;
     event_data := j_obj [("comm", j_str (fe_comm raw)); ("ppid", j_int (fe_ppid raw));
                          ("uid", j_int (fe_uid raw));
                          ("audit_serial", j_opt j_int (fe_audit_serial raw))] |}.

(** Outbound: local is the source; inbound: the remote peer is. *)
Definition normalize_network_event (raw : NetworkEventRaw) : CanonicalEvent :=
  let dir := match ne_direction raw with RawOutbound => Outbound | RawInbound => Inbound end in
  let '(sip, sport, dip, dport) :=
    match dir with
    | Outbound => (ne_local_addr raw, ne_local_port raw, ne_remote_addr raw, ne_remote_port raw)
    | Inbound => (ne_remote_addr raw, ne_remote_port raw, ne_local_addr raw, ne_local_port raw)
    end in
  {| event_id := id; schema_version := SCHEMA_VERSION; ev_host_id := host_ref_id host;
     boot_id := boot; ev_timestamp := ne_timestamp_ns raw;
     monotonic_timestamp := ne_timestamp_ns raw; event_type := network_event_type (ne_operation raw);
     ev_category := CNetwork; ev_severity := Info; ev_host := host; ev_user := None;
     ev_session := None; ev_process := provisional_process (ne_pid raw) (ne_exe_path raw);
     ev_parent_process := None; ev_thread := None; ev_file := None;
     ev_network := Some {| src_ip := sip; src_port := sport; dst_ip := dip; dst_port := dport;
                           proto := ne_proto raw; direction := dir; net_bytes := None |};
     ev_dns := None; ev_device := None; ev_service := None; ev_container := None;
     ev_namespace := None; ev_cgroup := None; ev_kernel := None;
     ev_source := schema_source (ne_source raw); provider := network_provider (ne_source raw);
     raw_event := None; relationships := []; tags := []; ev_risk := None;
     event_data := j_obj [("comm", j_str (ne_comm raw)); ("uid", j_int (ne_uid raw))] |}.

Definition normalize_dns_event (raw : DnsEventRaw) : CanonicalEvent :=
  {| event_id := id; schema_version := SCHEMA_VERSION; ev_host_id := host_ref_id host;
     boot_id := boot; ev_timestamp := de_timestamp_ns raw;
     monotonic_timestamp := de_timestamp_ns raw; event_type := DnsQuery;
     ev_category := CDns; ev_severity := Info; ev_host := host; ev_user := None;
     ev_session := None; ev_process := provisional_process (de_pid raw) (de_exe_path raw);
     ev_parent_process := None; ev_thread := None; ev_file := None; ev_network := None;
     ev_dns := Some {| dns_query := de_query raw; dns_qtype := de_qtype raw;
                       response_ips := de_response_ips raw; dns_ttl := de_ttl raw |};
     ev_device := None; ev_service := None; ev_container := None;
     ev_namespace := None; ev_cgroup := None; ev_kernel := None;
     ev_source := schema_source (de_source raw); provider := dns_provider (de_source raw);
     raw_event := None; relationships := []; tags := []; ev_risk := None;
     event_data := j_obj [("comm", j_str (de_comm raw)); ("uid", j_int (de_uid raw))] |}.

Definition normalize_identity_event (raw : IdentityEventRaw) : CanonicalEvent :=
  let '(user, partial) := build_user_ref (ie_uid raw) None None None (ie_username raw) (ie_auid raw) in
  {| event_id := id; schema_version := SCHEMA_VERSION; ev_host_id := host_ref_id host;
     boot_id := boot; ev_timestamp := ie_timestamp_ns raw;
     monotonic_timestamp := ie_timestamp_ns raw; event_type := identity_event_type (ie_operation raw);
     ev_category := CIdentity; ev_severity := Info; ev_host := host; ev_user := Some user;
     ev_session := Some {| session_id := ie_session_id raw; tty := ie_terminal raw;
                           remote_addr := ie_remote_addr raw; auth_method := ie_auth_method raw |};
     ev_process := provisional_process (Some (ie_pid raw)) (ie_exe_path raw);
     ev_parent_process := None; ev_thread := None; ev_file := None; ev_network := None;
     ev_dns := None; ev_device := None; ev_service := None; ev_container := None;
     ev_namespace := None; ev_cgroup := None; ev_kernel := None;
     ev_source := schema_source (ie_source raw); provider := identity_provider (ie_source raw);
     raw_event := None; relationships := []; tags := partial_tags partial; ev_risk := None;
     event_data := j_obj [("comm", j_str (ie_comm raw)); ("auid", j_opt j_int (ie_auid raw));
                          ("success", j_bool (ie_success raw));
                          ("audit_serial", j_opt j_int (ie_audit_serial raw))] |}.

Definition normalize_privilege_event (raw : PrivilegeEventRaw) : CanonicalEvent :=
  let '(user, partial) := build_user_ref (pv_uid raw) (pv_gid raw) (pv_euid raw) (pv_egid raw)
                            (pv_username raw) (pv_auid raw) in
  {| event_id := id; schema_version := SCHEMA_VERSION; ev_host_id := host_ref_id host;
     boot_id := boot; ev_timestamp := pv_timestamp_ns raw;
     monotonic_timestamp := pv_timestamp_ns raw;
     event_type := privilege_event_type (pv_operation raw);
     ev_category := CPrivilege; ev_severity := Info; ev_host := host; ev_user := Some user;
     ev_session := minimal_session (pv_session_id raw);
     ev_process := provisional_process (Some (pv_pid raw)) (pv_exe_path raw);
     ev_parent_process := None; ev_thread := None; ev_file := None; ev_network := None;
     ev_dns := None; ev_device := None; ev_service := None; ev_container := None;
     ev_namespace := None; ev_cgroup := None; ev_kernel := None;
     ev_source := schema_source (pv_source raw); provider := identity_provider (pv_source raw);
     raw_event := None; relationships := []; tags := partial_tags partial; ev_risk := None;
     event_data := j_obj [("comm", j_str (pv_comm raw)); ("ppid", j_int (pv_ppid raw));
                          ("uid", j_int (pv_uid raw)); ("auid", j_opt j_int (pv_auid raw));
                          ("target_uid", j_opt j_int (pv_target_uid raw));
                          ("target_gid", j_opt j_int (pv_target_gid raw));
                          ("command", j_opt j_str (pv_command raw));
                          ("success", j_bool (pv_success raw));
                          ("audit_serial", j_opt j_int (pv_audit_serial raw))] |}.

Definition normalize_systemd_event (raw : SystemdEventRaw) : CanonicalEvent :=
  let '(user, partial) := build_user_ref (sd_uid raw) None None None None (sd_auid raw) in
  {| event_id := id; schema_version := SCHEMA_VERSION; ev_host_id := host_ref_id host;
     boot_id := boot; ev_timestamp := sd_timestamp_ns raw;
     monotonic_timestamp := sd_timestamp_ns raw;
     event_type := match sd_operation raw with SoStart => ServiceStart | SoStop => ServiceStop end;
     ev_category := CSystemd; ev_severity := Info; ev_host := host; ev_user := Some user;
     ev_session := minimal_session (sd_session_id raw);
     ev_process := provisional_process (Some (sd_pid raw)) (sd_exe_path raw);
     ev_parent_process := None; ev_thread := None; ev_file := None; ev_network := None;
     ev_dns := None; ev_device := None;
     ev_service := Some {| unit_name := sd_unit_name raw;
                           unit_type := unit_type_from_name (sd_unit_name raw);
                           service_action := match sd_operation raw with
                                             | SoStart => "start" | SoStop => "stop" end |};
     ev_container := None; ev_namespace := None; ev_cgroup := None; ev_kernel := None;
     ev_source := schema_source (sd_source raw); provider := "systemd_sensor/audit";
     raw_event := None; relationships := []; tags := partial_tags partial; ev_risk := None;
     event_data := j_obj [("comm", j_str (sd_comm raw)); ("auid", j_opt j_int (sd_auid raw));
                          ("success", j_bool (sd_success raw));
                          ("audit_serial", j_opt j_int (sd_audit_serial raw))] |}.

(** [Serialize] of a unit variant: its name. *)
Definition checkpoint_kind_name (k : PersistenceCheckpointKind) : string :=
  match k with
  | SystemdUnit => "SystemdUnit" | SystemdTimer => "SystemdTimer" | Cron => "Cron"
  | ShellProfile => "ShellProfile" | LdPreload => "LdPreload" | Sudoers => "Sudoers"
  end.

Definition normalize_persistence_event (raw : PersistenceEventRaw) : CanonicalEvent :=
  let '(ty, cat, service, disclosed) := classify_persistence_event raw in
  {| event_id := id; schema_version := SCHEMA_VERSION; ev_host_id := host_ref_id host;
     boot_id := boot; ev_timestamp := pp_timestamp_ns raw;
     monotonic_timestamp := pp_timestamp_ns raw; event_type := ty; ev_category := cat;
     ev_severity := Info; ev_host := host; ev_user := None; ev_session := None;
     ev_process := None; ev_parent_process := None; ev_thread := None;
     ev_file := Some {| file_path := pp_path raw; previous_path := None; inode := None;
                        device_id := None; file_size := pp_size raw; file_mode := None;
                        owner_uid := None; owner_gid := None; file_hash := pp_content_hash raw |};
     ev_network := None; ev_dns := None; ev_device := None; ev_service := service;
     ev_container := None; ev_namespace := None; ev_cgroup := None; ev_kernel := None;
     ev_source := schema_source (pp_source raw); provider := "persistence_sensor/procfs";
     raw_event := None; relationships := []; tags := []; ev_risk := None;
     event_data := j_obj (("checkpoint_kind", j_str (checkpoint_kind_name (pp_checkpoint_kind raw)))
                          :: match disclosed with
                             | Some op => [("operation", j_str op)]
                             | None => []
                             end) |}.

Definition normalize_container_event (raw : ContainerEventRaw) : CanonicalEvent :=
  {| event_id := id; schema_version := SCHEMA_VERSION; ev_host_id := host_ref_id host;
     boot_id := boot; ev_timestamp := ce_timestamp_ns raw;
     monotonic_timestamp := ce_timestamp_ns raw;
     event_type := container_event_type (ce_operation raw);
     ev_category := CContainer; ev_severity := Info; ev_host := host; ev_user := None;
     ev_session := None; ev_process := provisional_process (ce_pid raw) "";
     ev_parent_process := None; ev_thread := None; ev_file := None; ev_network := None;
     ev_dns := None; ev_device := None; ev_service := None;
     ev_container := Some {| container_id := ce_container_id raw; image := ce_image raw;
                             container_runtime := ce_runtime raw;
                             pod_ref := match ce_pod_name raw, ce_pod_namespace raw with
                                        | Some n, Some ns => Some {| pod_name := n; pod_namespace := ns |}
                                        | _, _ => None
                                        end |};
     ev_namespace := None;
     ev_cgroup := Some {| cgroup_path := ce_cgroup_path raw; cgroup_id := 0;
                          cgroup_version := CgUnknown |};
     ev_kernel := None;
     ev_source := schema_source (ce_source raw); provider := "container_sensor/cgroup";
     raw_event := None; relationships := []; tags := []; ev_risk := None;
     event_data := j_obj [("observed_transition",
                           j_bool (match ce_operation raw with
                                   | CoCreate | CoDestroy => true | _ => false end))] |}.

Definition normalize (raw : RawEvent) : CanonicalEvent :=
  match raw with
  | RProcessExec p => normalize_process_exec p
  | RProcessExit p => normalize_process_exit p
  | RFile f => normalize_file_event f
  | RNetwork n => normalize_network_event n
  | RDns d => normalize_dns_event d
  | RIdentity i => normalize_identity_event i
  | RPrivilege p => normalize_privilege_event p
  | RSystemd s => normalize_systemd_event s
  | RPersistence p => normalize_persistence_event p
  | RContainer c => normalize_container_event c
  | RAgentHealth a => normalize_agent_health a
  end.

End Normalize.
