(* ===== verification/Resolvers.v ===== *)
(** * Pipeline state: the process, session and namespace resolvers

    [process_resolver.rs], [session_resolver.rs] and [ns_cgroup_resolver.rs] of
    [crates/osiris-pipeline].  The session resolver keeps a reverse index from sessions to
    pids so that a logout does not scan every pid; [session_abs] shows that the index
    changes nothing but the cost. *)

From S2P Require Import Prelude Schema FileUtil.

(** ** [process_resolver.rs] *)

(** [by_pid: HashMap<u32, (ProcessKey, u32)>]. *)
Abbreviation ProcessResolver := (gmap Z (ProcessKey * Z)) (only parsing).

Definition pr_record (pid ppid : Z) (key : ProcessKey) (r : ProcessResolver) : ProcessResolver :=
  <[pid := (key, ppid)]> r.

Definition pr_forget (pid : Z) (r : ProcessResolver) : ProcessResolver := delete pid r.

Definition resolve_parent (r : ProcessResolver) (pid : Z) : option ProcessKey :=
  '(_, ppid) ← r !! pid; fst <$> r !! ppid.

Definition pr_resolve (r : ProcessResolver) (pid : Z) : option ProcessKey := fst <$> r !! pid.

Definition parent_of (r : ProcessResolver) (pid : Z) : option (ProcessKey * Z) :=
  '(_, ppid) ← r !! pid; '(parent_key, _) ← r !! ppid; Some (parent_key, ppid).

(** ** [session_resolver.rs] *)

Record SessionRecord := {
  sess_id : string; sess_uid : Z; sess_username : option string; sess_tty : option string;
  sess_remote_addr : option string; sess_auth_method : option string }.

Record SessionResolver := {
  by_pid : gmap Z string; sessions : gmap string SessionRecord; members : gmap string (gset Z) }.

Definition sessions_new : SessionResolver := {| by_pid := ∅; sessions := ∅; members := ∅ |}.

(** [members.entry(s).or_default().insert(pid)]. *)
Definition add_member (s : string) (pid : Z) (m : gmap string (gset Z)) : gmap string (gset Z) :=
  <[s := {[pid]} ∪ default ∅ (m !! s)]> m.

Definition record_login (pid : Z) (record : SessionRecord) (r : SessionResolver) : SessionResolver :=
  let s := sess_id record in
  {| by_pid := <[pid := s]> (by_pid r); sessions := <[s := record]> (sessions r);
     members := add_member s pid (members r) |}.

Definition attach (pid ppid : Z) (r : SessionResolver) : option string * SessionResolver :=
  match by_pid r !! pid with
  | Some s => (Some s, r)
  | None =>
      if ppid =? 0 then (None, r)
      else match by_pid r !! ppid with
           | None => (None, r)
           | Some s => (Some s, {| by_pid := <[pid := s]> (by_pid r); sessions := sessions r;
                                   members := add_member s pid (members r) |})
           end
  end.

Definition record_for (r : SessionResolver) (s : string) : option SessionRecord := sessions r !! s.

Definition forget_pid (pid : Z) (r : SessionResolver) : SessionResolver :=
  match by_pid r !! pid with
  | None => r
  | Some s =>
      {| by_pid := delete pid (by_pid r); sessions := sessions r;
         members := match members r !! s with
                    | Some pids => <[s := pids ∖ {[pid]}]> (members r)
                    | None => members r
                    end |}
  end.

(** The loop over the removed set: a pid is dropped only if it still maps to the session. *)
Definition drop_members (s : string) (pids : list Z) (m : gmap Z string) : gmap Z string :=
  fold_left (fun m pid => if bool_decide (m !! pid = Some s) then delete pid m else m) pids m.

Definition forget (s : string) (r : SessionResolver) : SessionResolver :=
  match members r !! s with
  | None => {| by_pid := by_pid r; sessions := delete s (sessions r); members := members r |}
  | Some pids => {| by_pid := drop_members s (elements pids) (by_pid r);
                    sessions := delete s (sessions r); members := delete s (members r) |}
  end.

(** ** [ns_cgroup_resolver.rs] *)

(** What [/proc] shows of a process: the text of its cgroup file and of its namespace
    links ([None] when it cannot be read). *)
Record ProcFs := { cgroup_file : Z -> option string; ns_entry : Z -> string -> option string }.

Abbreviation Context := (NamespaceRef * CgroupRef * option ContainerRef)%type (only parsing).

Record NsCgroupResolver := { cache : gmap Z (Z * option Context); cache_ttl : Z }.

Definition MAX_CACHE_ENTRIES : nat := Z.to_nat 65536.
(** 60 seconds in nanoseconds. *)
Definition DEFAULT_TTL : Z := 60 * 1000000000.

Definition ns_new : NsCgroupResolver := {| cache := ∅; cache_ttl := DEFAULT_TTL |}.

Definition parse_ns_target (text : list byte) : option Z :=
  '(before, after) ← split_once (z2b 91) text;
  '(upto, _) ← split_once (z2b 93) text;
  (* [end <= start + 1] *)
  if (List.length upto <=? List.length before + 1)%nat then None
  else parse_uint_bytes 64 (drop (List.length before + 1) upto).

(** [str::trim]. *)
Definition trim (s : string) : string := string_of_chars (trim_chars (chars s)).

Definition ns_inode (fs : ProcFs) (pid : Z) (kind : string) : Z :=
  default 0 (target ← ns_entry fs pid kind; parse_ns_target (bytes_of (trim target))).

Definition read_namespaces (fs : ProcFs) (pid : Z) : NamespaceRef :=
  {| pid_ns := ns_inode fs pid "pid"; net_ns := ns_inode fs pid "net";
     mnt_ns := ns_inode fs pid "mnt"; user_ns := ns_inode fs pid "user";
     ipc_ns := ns_inode fs pid "ipc"; uts_ns := ns_inode fs pid "uts";
     cgroup_ns := ns_inode fs pid "cgroup" |}.

Definition resolve_uncached (fs : ProcFs) (pid : Z) : option Context :=
  contents ← cgroup_file fs pid;
  '(path, file_version) ← parse_cgroup_file contents;
  let cgroup := {| cgroup_path := path; cgroup_id := 0;
                   cgroup_version := match file_version with FileV1 => CgV1 | FileV2 => CgV2 end |} in
  let container := (fun id => {| container_id := id; image := ""; container_runtime := "cgroup";
                                 pod_ref := None |}) <$> container_id_from_cgroup_path path in
  Some (read_namespaces fs pid, cgroup, container).

(** [now] is the monotonic clock; [elapsed] saturates at zero. *)
Definition ns_resolve (fs : ProcFs) (now pid : Z) (r : NsCgroupResolver)
  : option Context * NsCgroupResolver :=
  let miss :=
    let resolved := resolve_uncached fs pid in
    let c := if (MAX_CACHE_ENTRIES <=? size (cache r))%nat then ∅ else cache r in
    (resolved, {| cache := <[pid := (now, resolved)]> c; cache_ttl := cache_ttl r |}) in
  match cache r !! pid with
  | Some (at_, cached) => if Z.max 0 (now - at_) <? cache_ttl r then (cached, r) else miss
  | None => miss
  end.

(** ** The session resolver against its specification

    The specification keeps no index: a logout removes every pid of the session. *)

Record SessionSpec := { sp_of_pid : gmap Z string; sp_sessions : gmap string SessionRecord }.

Inductive session_op :=
| OpLogin (pid : Z) (record : SessionRecord)
| OpAttach (pid ppid : Z)
| OpExit (pid : Z)
| OpLogout (s : string).

Definition session_step (r : SessionResolver) (op : session_op) : option string * SessionResolver :=
  match op with
  | OpLogin pid record => (None, record_login pid record r)
  | OpAttach pid ppid => attach pid ppid r
  | OpExit pid => (None, forget_pid pid r)
  | OpLogout s => (None, forget s r)
  end.

Definition spec_step (sp : SessionSpec) (op : session_op) : option string * SessionSpec :=
  match op with
  | OpLogin pid record =>
      (None, {| sp_of_pid := <[pid := sess_id record]> (sp_of_pid sp);
                sp_sessions := <[sess_id record := record]> (sp_sessions sp) |})
  | OpAttach pid ppid =>
      match sp_of_pid sp !! pid with
      | Some s => (Some s, sp)
      | None =>
          match (if ppid =? 0 then None else sp_of_pid sp !! ppid) with
          | Some s => (Some s, {| sp_of_pid := <[pid := s]> (sp_of_pid sp);
                                  sp_sessions := sp_sessions sp |})
          | None => (None, sp)
          end
      end
  | OpExit pid => (None, {| sp_of_pid := delete pid (sp_of_pid sp); sp_sessions := sp_sessions sp |})
  | OpLogout s =>
      (None, {| sp_of_pid := filter (fun kv => kv.2 <> s) (sp_of_pid sp);
                sp_sessions := delete s (sp_sessions sp) |})
  end.

Fixpoint session_run (r : SessionResolver) (ops : list session_op)
  : list (option string) * SessionResolver :=
  match ops with
  | [] => ([], r)
  | op :: ops => let '(a, r) := session_step r op in
                 let '(answers, r) := session_run r ops in (a :: answers, r)
  end.

Fixpoint spec_run (sp : SessionSpec) (ops : list session_op)
  : list (option string) * SessionSpec :=
  match ops with
  | [] => ([], sp)
  | op :: ops => let '(a, sp) := spec_step sp op in
                 let '(answers, sp) := spec_run sp ops in (a :: answers, sp)
  end.

(** Every mapped pid is in the index of its session, and the session is known under its
    own id. *)
Record session_ok (r : SessionResolver) : Prop := {
  so_member : forall pid s, by_pid r !! pid = Some s -> pid ∈ default ∅ (members r !! s);
  so_known : forall pid s, by_pid r !! pid = Some s -> is_Some (sessions r !! s);
  so_named : forall s rec, sessions r !! s = Some rec -> sess_id rec = s;
}.

Definition session_abs (r : SessionResolver) : SessionSpec :=
  {| sp_of_pid := by_pid r; sp_sessions := sessions r |}.

Lemma drop_members_lookup s pids : forall m p,
  drop_members s pids m !! p
  = if bool_decide (p ∈ pids /\ m !! p = Some s) then None else m !! p.
Proof.
  induction pids as [|q pids IH]; intros m p; cbn [drop_members fold_left].
  - rewrite bool_decide_false; [done|]. intros [H _]. by apply not_elem_of_nil in H.
  - unfold drop_members in IH. rewrite IH. destruct (bool_decide (m !! q = Some s)) eqn:E.
    + apply bool_decide_eq_true in E. destruct (decide (p = q)) as [->|Hpq].
      * rewrite lookup_delete_eq, bool_decide_false by naive_solver.
        rewrite bool_decide_true; [done|]. split; [by left|done].
      * rewrite lookup_delete_ne by done.
        rewrite (bool_decide_ext _ (p ∈ q :: pids /\ m !! p = Some s)); [done|].
        rewrite elem_of_cons. naive_solver.
    + apply bool_decide_eq_false in E.
      rewrite (bool_decide_ext _ (p ∈ q :: pids /\ m !! p = Some s)); [done|].
      rewrite elem_of_cons. naive_solver.
Qed.

Lemma drop_members_filter s pids m :
  (forall p, m !! p = Some s -> p ∈ pids) ->
  drop_members s pids m = filter (fun kv => kv.2 <> s) m.
Proof.
  intros Hin. apply map_eq. intros p. rewrite drop_members_lookup.
  destruct (m !! p) as [s'|] eqn:E.
  - destruct (decide (s' = s)) as [->|Hne].
    + rewrite bool_decide_true by auto. symmetry. apply map_lookup_filter_None.
      right. intros x Hx. rewrite E in Hx. simplify_eq. naive_solver.
    + rewrite bool_decide_false by naive_solver. symmetry. apply map_lookup_filter_Some. auto.
  - rewrite bool_decide_false by naive_solver. symmetry. apply map_lookup_filter_None. by left.
Qed.

Lemma add_member_in s pid m s' p :
  p ∈ default ∅ (add_member s pid m !! s')
  <-> s = s' /\ p = pid \/ p ∈ default ∅ (m !! s').
Proof.
  unfold add_member. destruct (decide (s = s')) as [->|Hne].
  - rewrite lookup_insert_eq. cbn. set_solver.
  - rewrite lookup_insert_ne by done. naive_solver.
Qed.

Lemma login_ok pid rec r : session_ok r -> session_ok (record_login pid rec r).
Proof.
  intros [Hm Hk Hn]. constructor; cbn.
  - intros p s. rewrite lookup_insert_Some, add_member_in. naive_solver.
  - intros p s. rewrite lookup_insert_Some. intros [[_ <-]|[_ H]].
    + rewrite lookup_insert_eq. eauto.
    + rewrite lookup_insert_is_Some. destruct (decide (sess_id rec = s)); [by left|right].
      split; [done|by eapply Hk].
  - intros s rec'. rewrite lookup_insert_Some. naive_solver.
Qed.

Lemma attach_ok pid ppid r : session_ok r -> session_ok (attach pid ppid r).2.
Proof.
  intros Hr. unfold attach. destruct (by_pid r !! pid) eqn:E; [done|].
  destruct (ppid =? 0); [done|]. destruct (by_pid r !! ppid) as [s|] eqn:Ep; [|done].
  destruct Hr as [Hm Hk Hn]. constructor; cbn; [| |done].
  - intros p s'. rewrite lookup_insert_Some, add_member_in. naive_solver.
  - intros p s'. rewrite lookup_insert_Some. naive_solver.
Qed.

Lemma forget_pid_ok pid r : session_ok r -> session_ok (forget_pid pid r).
Proof.
  intros [Hm Hk Hn]. unfold forget_pid. destruct (by_pid r !! pid) as [s|] eqn:E; [|done].
  constructor; cbn; [| |done].
  - intros p s' [Hp Hb]%lookup_delete_Some. specialize (Hm p s' Hb).
    destruct (members r !! s) as [pids|] eqn:Es; [|done].
    destruct (decide (s = s')) as [<-|Hne].
    + rewrite lookup_insert_eq. cbn. rewrite Es in Hm. cbn in Hm. set_solver.
    + by rewrite lookup_insert_ne.
  - intros p s' [_ Hb]%lookup_delete_Some. by eapply Hk.
Qed.

Lemma forget_spec s r : session_ok r ->
  session_abs (forget s r)
  = {| sp_of_pid := filter (fun kv => kv.2 <> s) (by_pid r);
       sp_sessions := delete s (sessions r) |}.
Proof.
  intros [Hm _ _]. unfold forget, session_abs. destruct (members r !! s) as [pids|] eqn:E; cbn; f_equal.
  - apply drop_members_filter. intros p Hp%Hm. rewrite E in Hp. cbn in Hp. by apply elem_of_elements.
  - symmetry. apply map_filter_id. intros p s' Hp. cbn. intros ->. apply Hm in Hp.
    rewrite E in Hp. cbn in Hp. set_solver.
Qed.

Lemma forget_ok s r : session_ok r -> session_ok (forget s r).
Proof.
  intros Hr. pose proof (forget_spec s r Hr) as Hsp. destruct Hr as [Hm Hk Hn].
  unfold session_abs in Hsp. injection Hsp as Hb Hs.
  constructor; rewrite ?Hb, ?Hs.
  - intros p s' [Hp Hne]%map_lookup_filter_Some. cbn in Hne. apply Hm in Hp. unfold forget.
    destruct (members r !! s); cbn; [|done]. by rewrite lookup_delete_ne.
  - intros p s' [Hp Hne]%map_lookup_filter_Some. cbn in Hne.
    rewrite lookup_delete_ne by done. by eapply Hk.
  - intros s' rec [_ H]%lookup_delete_Some. by apply Hn.
Qed.

Lemma session_step_refines r op : session_ok r ->
  session_ok (session_step r op).2
  /\ spec_step (session_abs r) op
     = ((session_step r op).1, session_abs (session_step r op).2).
Proof.
  intros Hr. destruct op as [pid rec|pid ppid|pid|s]; cbn [session_step fst snd].
  - split; [by apply login_ok|done].
  - split; [by apply attach_ok|]. unfold attach, spec_step. cbn [session_abs sp_of_pid].
    destruct (by_pid r !! pid); [done|]. destruct (ppid =? 0); [done|].
    by destruct (by_pid r !! ppid).
  - split; [by apply forget_pid_ok|]. unfold forget_pid, spec_step, session_abs.
    destruct (by_pid r !! pid) eqn:E; cbn; [done|]. by rewrite delete_id.
  - split; [by apply forget_ok|]. cbn [spec_step]. by rewrite forget_spec.
Qed.

(** The session resolver with its reverse index behaves as the plain mapping: over any
    sequence of logins, attachments, process exits and logouts it gives the answers of the
    specification that filters every pid on a logout, ends in the same mapping and the
    same sessions, and every session a pid maps to has a login record under its own id. *)
Lemma session_resolver_refines ops :
  let '(answers, r) := session_run sessions_new ops in
  spec_run {| sp_of_pid := ∅; sp_sessions := ∅ |} ops = (answers, session_abs r)
  /\ (forall pid s, by_pid r !! pid = Some s ->
        exists rec, record_for r s = Some rec /\ sess_id rec = s).
Proof.
  assert (forall ops r, session_ok r ->
    session_ok (session_run r ops).2
    /\ spec_run (session_abs r) ops = ((session_run r ops).1, session_abs (session_run r ops).2))
    as Hrun.
  { clear. induction ops as [|op ops IH]; intros r Hr; [done|]. cbn [session_run spec_run].
    destruct (session_step_refines r op Hr) as [Hok Hsp]. rewrite Hsp.
    destruct (session_step r op) as [a r']. cbn [fst snd] in *.
    destruct (IH r' Hok) as [Hok' Hsp']. rewrite Hsp'. by destruct (session_run r' ops). }
  assert (session_ok sessions_new) as H0 by done.
  destruct (Hrun ops sessions_new H0) as [Hok Hsp].
  destruct (session_run sessions_new ops) as [answers r]. split; [exact Hsp|].
  intros pid s Hpid. destruct (so_known r Hok pid s Hpid) as [rec Hrec].
  exists rec. split; [done|]. by apply (so_named r Hok).
Qed.
