(* ===== verification/Tailer.v ===== *)
(** * The line tailer: [crates/osiris-fileutil/src/line_tailer.rs]

    A reader that polls a growing file.  The specification: whatever the moments of the
    polls, and also when polls fail, every complete line is delivered once, in order. *)

From S2P Require Import Prelude.

(** [path] is the file the environment below stands for. *)
Record LineTailer := { offset : nat; partial : string }.

Definition tailer_new : LineTailer := {| offset := 0; partial := "" |}.

Inductive TailError := TailIo | TailInvalidUtf8.

(** What one poll meets: no file, a failing [open] or [metadata], or a file whose length
    is measured on one content and which is read from a possibly later one; the [seek] or
    the read may fail. *)
Inductive poll_env :=
| Missing
| OpenFails
| Opened (measured at_read : list byte) (io_fails : bool).

Definition nonempty (l : list byte) : bool := match l with [] => false | _ => true end.

Definition kept (lines : list (list byte)) : list string :=
  map of_bytes (List.filter nonempty lines).

Definition poll (t : LineTailer) (env : poll_env) : outcome TailError (list string) * LineTailer :=
  match env with
  | Missing => (Ok [], t)
  | OpenFails => (Err TailIo, t)
  | Opened measured at_read io_fails =>
      let len := List.length measured in
      let t := if (len <? offset t)%nat then {| offset := 0; partial := "" |} else t in
      if (len =? offset t)%nat then (Ok [], t)
      else if io_fails then (Err TailIo, t)
      else
        let chunk := take (len - offset t) (drop (offset t) at_read) in
        if negb (utf8_valid chunk) then (Err TailInvalidUtf8, t)
        else
          let buf := bytes_of (partial t) ++ chunk in
          let lines := split_all nl buf in
          if bool_decide (last buf = Some nl)
          then (Ok (kept (removelast lines)), {| offset := len; partial := "" |})
          else (Ok (kept (removelast lines)),
                {| offset := len; partial := of_bytes (List.last lines []) |})
  end.

(** ** Specification *)

(** The complete, non-empty lines of a content, and what follows its last line break. *)
Definition lines_of (c : list byte) : list string := kept (removelast (split_all nl c)).
Definition tail_of (c : list byte) : list byte := List.last (split_all nl c) [].

(** ** Splitting *)

Lemma split_all_cons c l : exists seg segs, split_all c l = seg :: segs.
Proof.
  destruct l as [|b l]; simpl; [eauto|]. destruct (decide (b = c)); [eauto|].
  destruct (split_all c l); eauto.
Qed.

Lemma removelast_cons {A} (x : A) l : l <> [] -> removelast (x :: l) = x :: removelast l.
Proof. by destruct l. Qed.

Lemma last_cons_ne {A} (x d : A) l : l <> [] -> List.last (x :: l) d = List.last l d.
Proof. by destruct l. Qed.

(** Only the last segment of a prefix can still grow. *)
Lemma split_all_app c a b :
  split_all c (a ++ b) = removelast (split_all c a) ++ split_all c (List.last (split_all c a) [] ++ b).
Proof.
  induction a as [|x a IH]; [done|]. cbn [app split_all].
  destruct (split_all_cons c a) as (seg & segs & E).
  destruct (decide (x = c)) as [->|Hx].
  - rewrite E in IH |- *. by rewrite IH.
  - rewrite IH, E. destruct segs as [|seg' segs]; simpl.
    + by rewrite decide_False.
    + by destruct (split_all c (List.last (seg' :: segs) [] ++ b)).
Qed.

Lemma removelast_app_ne {A} (l m : list A) : m <> [] -> removelast (l ++ m) = l ++ removelast m.
Proof. intros Hm. by apply removelast_app. Qed.

Lemma lines_of_app a b : lines_of (a ++ b) = lines_of a ++ lines_of (tail_of a ++ b).
Proof.
  unfold lines_of, kept, tail_of. rewrite split_all_app.
  destruct (split_all_cons nl (List.last (split_all nl a) [] ++ b)) as (s & ss & E).
  rewrite removelast_app_ne by (by rewrite E). by rewrite List.filter_app, map_app.
Qed.

Lemma last_app_ne {A} (l m : list A) d : m <> [] -> List.last (l ++ m) d = List.last m d.
Proof.
  intros Hm. induction l as [|x l IH]; [done|]. cbn [app].
  rewrite last_cons_ne; [done|]. by destruct l, m.
Qed.

Lemma tail_of_app a b : tail_of (a ++ b) = tail_of (tail_of a ++ b).
Proof.
  unfold tail_of. rewrite split_all_app.
  destruct (split_all_cons nl (List.last (split_all nl a) [] ++ b)) as (s & ss & E).
  by rewrite last_app_ne by (by rewrite E).
Qed.

(** A content that ends in a line break leaves nothing over. *)
Lemma tail_of_closed c : last c = Some nl -> tail_of c = [].
Proof.
  intros [a ->]%last_Some. rewrite tail_of_app. generalize (tail_of a). intros l.
  assert (exists ss, split_all nl (l ++ [nl]) = ss ++ [[]] /\ ss <> []) as (ss & E & _).
  { induction l as [|x l (ss & E & Hne)]; [by exists [[]]|]. cbn [app split_all]. rewrite E.
    destruct (decide (x = nl)); [by exists ([] :: ss)|].
    destruct ss as [|s ss]; [done|]. by exists ((x :: s) :: ss). }
  unfold tail_of. rewrite E. apply last_last.
Qed.

(** ** UTF-8 at the seams *)

Lemma utf8_valid_suffix a b : utf8_valid a = true -> utf8_valid (a ++ b) = true -> utf8_valid b = true.
Proof.
  remember (List.length a) as n eqn:Hn. revert a Hn.
  induction n as [n IH] using lt_wf_ind. intros a Hn Ha Hab.
  destruct a as [|b0 a]; [done|]. cbn [app utf8_valid] in *.
  destruct (b2z b0 <? 128); [apply (IH (List.length a) ltac:(simpl in *; lia) a); auto|].
  destruct (in_byte 194 223 b0).
  { destruct a as [|b1 a]; [done|]. simpl in *. inv_bools Ha. inv_bools Hab.
    by apply (IH (List.length a) ltac:(lia) a). }
  destruct (in_byte 224 239 b0).
  { destruct a as [|b1 [|b2 a]]; [done..|]. simpl in *. rewrite !andb_true_iff in Ha, Hab.
    destruct Ha as [_ Ha], Hab as [_ Hab]. by apply (IH (List.length a) ltac:(lia) a). }
  destruct (in_byte 240 244 b0); [|done].
  destruct a as [|b1 [|b2 [|b3 a]]]; [done..|]. simpl in *. rewrite !andb_true_iff in Ha, Hab.
  destruct Ha as [_ Ha], Hab as [_ Hab]. by apply (IH (List.length a) ltac:(lia) a).
Qed.

(** No byte above 244 occurs in UTF-8. *)
Lemma utf8_valid_bytes l : utf8_valid l = true -> Forall (fun b => b2z b <= 244) l.
Proof.
  remember (List.length l) as n eqn:Hn. revert l Hn.
  induction n as [n IH] using lt_wf_ind. intros l Hn Hl.
  destruct l as [|b0 l]; [constructor|]. cbn [utf8_valid] in Hl.
  pose proof (fun l' (H : (List.length l' < n)%nat) => IH (List.length l') H l' eq_refl) as IH'.
  unfold in_byte, is_cont in Hl. simpl in Hn.
  destruct (Z.ltb_spec (b2z b0) 128); [constructor; [lia|apply IH'; [lia|done]]|].
  destruct ((194 <=? b2z b0) && (b2z b0 <=? 223)) eqn:E1.
  { destruct l as [|b1 l]; [done|]. rewrite andb_true_iff in Hl. destruct Hl as [? ?].
    repeat (constructor; [lia|]). apply IH'; [simpl in *; lia|done]. }
  destruct ((224 <=? b2z b0) && (b2z b0 <=? 239)) eqn:E2.
  { destruct l as [|b1 [|b2 l]]; [done..|]. rewrite !andb_true_iff in Hl. destruct Hl as [[H1 ?] ?].
    assert (b2z b1 <= 244) by (repeat case_match; lia).
    repeat (constructor; [lia|]). apply IH'; [simpl in *; lia|done]. }
  destruct ((240 <=? b2z b0) && (b2z b0 <=? 244)) eqn:E3; [|done].
  destruct l as [|b1 [|b2 [|b3 l]]]; [done..|]. rewrite !andb_true_iff in Hl.
  destruct Hl as [[[H1 ?] ?] ?].
  assert (b2z b1 <= 244) by (repeat case_match; lia).
  repeat (constructor; [lia|]). apply IH'; [simpl in *; lia|done].
Qed.

(** ** Runs *)

(** The file only grows: from content [c] on, every poll measures an extension of what
    was measured before and reads from an extension of that; [c'] is measured last. *)
Inductive growing : list byte -> list poll_env -> list byte -> Prop :=
| growing_nil c : growing c [] c
| growing_missing c envs c' : growing c envs c' -> growing c (Missing :: envs) c'
| growing_open_fails c envs c' : growing c envs c' -> growing c (OpenFails :: envs) c'
| growing_opened c d r io envs c' :
    growing (c ++ d) envs c' -> growing c (Opened (c ++ d) (c ++ d ++ r) io :: envs) c'.

Fixpoint poll_all (t : LineTailer) (envs : list poll_env) : list (list string) * LineTailer :=
  match envs with
  | [] => ([], t)
  | e :: envs =>
      let '(r, t) := poll t e in
      let '(outs, t) := poll_all t envs in
      (match r with Ok ls => ls | _ => [] end :: outs, t)
  end.

(** [delivered c t outs]: the tailer has read a valid prefix of [c], has handed out its
    complete lines and keeps the rest. *)
Record delivered (c : list byte) (t : LineTailer) (outs : list string) : Prop := {
  dl_offset : (offset t <= List.length c)%nat;
  dl_valid : utf8_valid (take (offset t) c) = true;
  dl_partial : bytes_of (partial t) = tail_of (take (offset t) c);
  dl_lines : outs = lines_of (take (offset t) c);
}.

Lemma delivered_grow c d t outs : delivered c t outs -> delivered (c ++ d) t outs.
Proof.
  intros [Ho Hv Hp Hl]. rewrite <- (take_app_le c d) in Hv, Hp, Hl by done.
  constructor; try done. rewrite length_app. lia.
Qed.

Lemma split_offset (c : list byte) n : (n <= List.length c)%nat -> c = take n c ++ drop n c.
Proof. intros. by rewrite take_drop. Qed.

(** One poll of a file that has not shrunk. *)
Lemma poll_opened c r io t outs :
  delivered c t outs ->
  exists res t', poll t (Opened c (c ++ r) io) = (res, t')
    /\ delivered c t' (outs ++ match res with Ok ls => ls | _ => [] end)
    /\ (io = false -> utf8_valid c = true -> exists ls, res = Ok ls /\ outs ++ ls = lines_of c).
Proof.
  intros Hd. pose proof Hd as [Ho Hv Hp Hl]. unfold poll.
  destruct (Nat.ltb_spec (List.length c) (offset t)); [lia|].
  destruct (Nat.eqb_spec (List.length c) (offset t)) as [E|E].
  { do 2 eexists. split; [done|]. rewrite app_nil_r. split; [done|]. intros _ _. exists [].
    split; [done|]. rewrite app_nil_r, Hl, <- E. by rewrite firstn_all. }
  destruct io; [do 2 eexists; split; [done|]; rewrite app_nil_r; done|].
  rewrite drop_app_le, take_app_le, <- (length_drop c (offset t)), firstn_all
    by (rewrite ?length_drop; lia).
  assert (c = take (offset t) c ++ drop (offset t) c) as Hsplit by (by rewrite take_drop).
  destruct (utf8_valid (drop (offset t) c)) eqn:Ev; simpl.
  2:{ do 2 eexists. split; [done|]. rewrite app_nil_r. split; [done|]. intros _ Hc.
      rewrite Hsplit in Hc. apply utf8_valid_suffix in Hc; [congruence|done]. }
  set (buf := bytes_of (partial t) ++ drop (offset t) c).
  assert (lines_of c = outs ++ kept (removelast (split_all nl buf))) as Hlines.
  { rewrite Hsplit, lines_of_app, <- Hl. unfold buf. by rewrite Hp. }
  assert (tail_of c = List.last (split_all nl buf) []) as Htail.
  { rewrite Hsplit, tail_of_app. unfold buf. by rewrite Hp. }
  assert (take (List.length c) c = c) as Hall by apply firstn_all.
  exists (Ok (kept (removelast (split_all nl buf)))).
  destruct (bool_decide (last buf = Some nl)) eqn:Eb; eexists; (split; [done|]); split.
  - constructor; simpl; rewrite ?Hall; [done|rewrite Hsplit; by apply utf8_valid_app| |done].
    apply bool_decide_eq_true in Eb. rewrite Htail. symmetry. by apply tail_of_closed.
  - eauto.
  - constructor; simpl; rewrite ?Hall; [done|rewrite Hsplit; by apply utf8_valid_app| |done].
    by rewrite bytes_of_of_bytes.
  - eauto.
Qed.

Lemma poll_all_delivered c envs c' : growing c envs c' -> forall t outs,
  delivered c t outs ->
  let '(outs', t') := poll_all t envs in delivered c' t' (outs ++ concat outs').
Proof.
  induction 1 as [c|c envs c' _ IH|c envs c' _ IH|c d r io envs c' _ IH]; intros t outs Hd;
    cbn [poll_all].
  - simpl. by rewrite app_nil_r.
  - cbn [poll]. specialize (IH t outs Hd). by destruct (poll_all t envs).
  - cbn [poll]. specialize (IH t outs Hd). by destruct (poll_all t envs).
  - destruct (poll_opened (c ++ d) r io t outs (delivered_grow _ _ _ _ Hd)) as (res & t' & E & Hd' & _).
    rewrite <- app_assoc in E. rewrite E. specialize (IH t' _ Hd'). destruct (poll_all t' envs).
    simpl. by rewrite app_assoc.
Qed.

(** ** Properties *)

(** C37. Every line once: over any schedule of polls of a growing file, with missing
    files, failing calls and reads that cut a character in two in between, the lines
    handed out so far are exactly the complete non-empty lines of the part read, in
    order.  When the whole content is UTF-8, one more poll that meets no I/O error delivers
    exactly the rest (an invalid byte stops the tailer for good:
    [tailer_stuck_on_invalid_byte]). *)
Theorem tailer_exactly_once envs c r :
  growing [] envs c ->
  let '(outs, t) := poll_all tailer_new envs in
  concat outs = lines_of (take (offset t) c)
  /\ (utf8_valid c = true ->
      exists ls, (poll t (Opened c (c ++ r) false)).1 = Ok ls /\ concat outs ++ ls = lines_of c).
Proof.
  intros Hg. pose proof (poll_all_delivered [] envs c Hg tailer_new []) as Hd.
  destruct (poll_all tailer_new envs) as [outs t]. destruct Hd as [Ho Hv Hp Hl]; [by constructor|].
  split; [done|]. intros Hc.
  destruct (poll_opened c r false t (concat outs)) as (res & t' & -> & _ & Hr); [by constructor|].
  by apply Hr.
Qed.

(** Three polls: the second reads half of a two-byte character and fails. *)
Definition sample_prefix : list byte := bytes_of "ab" ++ nl :: bytes_of "c".
Definition sample_rest : list byte := map z2b [195; 169; 10].

Definition sample_polls : list poll_env :=
  [Missing;
   Opened ([] ++ sample_prefix) ([] ++ sample_prefix ++ []) false;
   Opened (sample_prefix ++ take 1 sample_rest) (sample_prefix ++ take 1 sample_rest ++ []) false].

Lemma tailer_exactly_once_witness :
  let c := sample_prefix ++ take 1 sample_rest in
  let '(outs, t) := poll_all tailer_new sample_polls in
  concat outs = ["ab"] /\ (poll t (Opened c c false)).1 = Err TailInvalidUtf8
  /\ (poll t (Opened (sample_prefix ++ sample_rest) (sample_prefix ++ sample_rest) false)).1
     = Ok [of_bytes (bytes_of "c" ++ take 2 sample_rest)].
Proof.
  assert (growing [] sample_polls (sample_prefix ++ take 1 sample_rest)) as Hg.
  { apply growing_missing, growing_opened, (growing_opened ([] ++ sample_prefix)), growing_nil. }
  pose proof (tailer_exactly_once sample_polls (sample_prefix ++ take 1 sample_rest) [] Hg) as Ht.
  destruct (poll_all tailer_new sample_polls) as [outs t] eqn:E. destruct Ht as [Ho _].
  vm_compute in E. injection E as <- <-. split; [exact Ho|]. split; reflexivity.
Defined.

(** A byte that cannot occur in UTF-8 stops the tailer for good: every poll of every
    extension of the file fails and leaves the tailer where it was, so no later line is
    delivered. *)
Lemma tailer_stuck_on_invalid_byte t c r io i b :
  (offset t <= i)%nat -> c !! i = Some b -> 244 < b2z b ->
  exists e, poll t (Opened c (c ++ r) io) = (Err e, t).
Proof.
  intros Hi Hb Hbad. pose proof (lookup_lt_Some _ _ _ Hb) as Hlen. unfold poll.
  destruct (Nat.ltb_spec (List.length c) (offset t)); [lia|].
  destruct (Nat.eqb_spec (List.length c) (offset t)); [lia|]. destruct io; [eauto|].
  rewrite drop_app_le, take_app_le, <- (length_drop c (offset t)), firstn_all
    by (rewrite ?length_drop; lia).
  destruct (utf8_valid (drop (offset t) c)) eqn:Ev; [|eauto].
  apply utf8_valid_bytes in Ev. rewrite Forall_lookup in Ev.
  specialize (Ev (i - offset t)%nat b). rewrite lookup_drop in Ev.
  replace (offset t + (i - offset t))%nat with i in Ev by lia. specialize (Ev Hb). simpl in Ev. lia.
Qed.
