(* ===== verification/Transport.v ===== *)
(** * Agent to server: [crates/osiris-transport]

    Frames on the wire ([frame.rs]), the forwarder that ships the agent's spool file
    ([client.rs]), and the server's side of an agent connection ([server.rs]).  The
    specification is at-least-once delivery: whatever the network, the disk and restarts
    do, the forwarder never moves past an event the server has not processed. *)

From S2P Require Import Prelude Concrete Json Schema Tailer.

(** ** Frames *)

(** The [zstd] crate.  A decoder yields bytes and ends well or with an error; creating it
    may already fail. *)
Class Zstd := {
  zstd_compress : list byte -> option (list byte);
  zstd_decode : list byte -> option (list byte * bool);
  zstd_roundtrip x c : zstd_compress x = Some c -> zstd_decode c = Some (x, true);
}.

Definition MAX_FRAME_LEN : Z := 8 * 1024 * 1024.
Definition MAX_DECOMPRESSED_LEN : Z := 16 * 1024 * 1024.

Inductive FrameError := FIo | FTooLarge (n : Z) | FDecompress | FPayload | FClosed.

Abbreviation zlen l := (Z.of_nat (List.length l)).

Section Frame.
Context `{Zstd} {T : Type} `{Serde T}.

(** The bytes a successful call hands to the connection. *)
Definition write_frame (message : T) : outcome FrameError (list byte) :=
  match to_vec message with
  | None => Err FPayload
  | Some json =>
      match zstd_compress json with
      | None => Err FIo
      | Some compressed =>
          if MAX_FRAME_LEN <? zlen compressed then Err (FTooLarge (zlen compressed))
          else Ok (be_bytes 4 (zlen compressed) ++ compressed)
      end
  end.

(** [read_exact], from the bytes that arrive before the stream ends. *)
Definition read_exact (n : Z) (stream : list byte) : option (list byte * list byte) :=
  if zlen stream <? n then None else Some (take (Z.to_nat n) stream, drop (Z.to_nat n) stream).

(** The message, and what is left of the stream.  The decoder is read up to one byte past
    the limit: an error beyond it is not met, and the frame is refused either way. *)
Definition read_frame (stream : list byte) : outcome FrameError (T * list byte) :=
  match read_exact 4 stream with
  | None => Err FClosed
  | Some (len_buf, stream) =>
      let len := of_be len_buf in
      if MAX_FRAME_LEN <? len then Err (FTooLarge len)
      else
        match read_exact len stream with
        | None => Err FIo
        | Some (compressed, rest) =>
            match zstd_decode compressed with
            | None => Err FDecompress
            | Some (json, finished) =>
                if MAX_DECOMPRESSED_LEN <? zlen json then Err FDecompress
                else if negb finished then Err FDecompress
                else match from_slice json with
                     | None => Err FPayload
                     | Some m => Ok (m, rest)
                     end
            end
        end
  end.

(** What the reader needs of a message beyond what the writer checks. *)
Definition frame_fits (message : T) : Prop :=
  exists json compressed, to_vec message = Some json /\ zstd_compress json = Some compressed /\
    zlen compressed <= MAX_FRAME_LEN /\ zlen json <= MAX_DECOMPRESSED_LEN.

Lemma write_frame_ok m bytes :
  write_frame m = Ok bytes ->
  exists json c, to_vec m = Some json /\ zstd_compress json = Some c /\
    zlen c <= MAX_FRAME_LEN /\ bytes = be_bytes 4 (zlen c) ++ c.
Proof.
  unfold write_frame. destruct (to_vec m) as [json|] eqn:Ej; [|done].
  destruct (zstd_compress json) as [c|] eqn:Ec; [|done].
  destruct (Z.ltb_spec MAX_FRAME_LEN (zlen c)); [done|]. intros [= <-]. by exists json, c.
Qed.

Lemma fits_writes m : frame_fits m -> exists bytes, write_frame m = Ok bytes.
Proof.
  intros (json & c & Hj & Hc & Hl & _). unfold write_frame. rewrite Hj, Hc.
  rewrite (proj2 (Z.ltb_ge _ _)) by lia. eauto.
Qed.

Lemma read_exact_app n a b : zlen a = n -> read_exact n (a ++ b) = Some (a, b).
Proof.
  intros <-. unfold read_exact. rewrite length_app. rewrite (proj2 (Z.ltb_ge _ _)) by lia.
  by rewrite Nat2Z.id, take_app_length, drop_app_length.
Qed.

Lemma read_exact_some n stream a b :
  0 <= n -> read_exact n stream = Some (a, b) -> stream = a ++ b /\ zlen a = n.
Proof.
  unfold read_exact. intros Hn. destruct (Z.ltb_spec (zlen stream) n); [done|]. intros [= <- <-].
  split; [by rewrite take_drop|]. rewrite length_take. lia.
Qed.

(** The prefix of a written frame, read back. *)
Lemma header_of (c : list byte) : zlen c <= MAX_FRAME_LEN -> of_be (be_bytes 4 (zlen c)) = zlen c.
Proof. intros Hl. apply of_be_bytes_small, fits_iff. unfold MAX_FRAME_LEN in Hl. lia. Qed.

Lemma read_written m bytes rest :
  write_frame m = Ok bytes -> frame_fits m -> read_frame (bytes ++ rest) = Ok (m, rest).
Proof.
  intros Hw (json & c & Hj & Hc & Hl & Hd). apply write_frame_ok in Hw as (j' & c' & Hj' & Hc' & _ & ->).
  rewrite Hj in Hj'. injection Hj' as <-. rewrite Hc in Hc'. injection Hc' as <-.
  unfold read_frame. rewrite <- app_assoc, read_exact_app by (rewrite length_be_bytes; done).
  rewrite header_of by done. rewrite (proj2 (Z.ltb_ge _ _)) by lia. rewrite read_exact_app by done.
  rewrite (zstd_roundtrip _ _ Hc), (proj2 (Z.ltb_ge _ _)) by lia. cbn [negb].
  by rewrite (serde_roundtrip _ _ Hj).
Qed.

(** A frame that is cut anywhere is not a message. *)
Lemma torn_frame m bytes n :
  write_frame m = Ok bytes -> (n < List.length bytes)%nat ->
  read_frame (take n bytes) = Err FClosed \/ read_frame (take n bytes) = Err FIo.
Proof.
  intros (json & c & _ & _ & Hl & ->)%write_frame_ok Hn. rewrite length_app, length_be_bytes in Hn.
  unfold read_frame. destruct (read_exact 4 (take n _)) as [[h r]|] eqn:E; [right|by left].
  apply read_exact_some in E as [E Hh]; [|done].
  assert (4 <= n)%nat as H4.
  { apply (f_equal (@List.length _)) in E. rewrite length_take, !length_app, length_be_bytes in E. lia. }
  rewrite take_app_ge in E by (rewrite length_be_bytes; lia). rewrite length_be_bytes in E.
  apply app_inj_1 in E as [<- <-]; [|rewrite length_be_bytes; lia].
  rewrite header_of by done. rewrite (proj2 (Z.ltb_ge _ _)) by lia.
  unfold read_exact. by rewrite length_take, (proj2 (Z.ltb_lt _ _)) by lia.
Qed.

Lemma read_frame_cut m bytes n m' rest :
  write_frame m = Ok bytes -> read_frame (take n bytes) = Ok (m', rest) -> m' = m /\ rest = [].
Proof.
  intros Hw Hread. destruct (decide (n < List.length bytes)%nat) as [Hn|Hn].
  { destruct (torn_frame m bytes n Hw Hn); congruence. }
  rewrite take_ge in Hread by lia. pose proof Hw as (json & c & Hj & Hc & Hl & Hb)%write_frame_ok.
  destruct (decide (zlen json <= MAX_DECOMPRESSED_LEN)) as [Hd|Hd].
  - pose proof (read_written m bytes [] Hw) as Hr. rewrite app_nil_r in Hr.
    rewrite Hr in Hread by (by exists json, c). by injection Hread as <- <-.
  - exfalso. subst bytes. unfold read_frame in Hread. rewrite read_exact_app in Hread by (by rewrite length_be_bytes).
    rewrite header_of in Hread by done. rewrite (proj2 (Z.ltb_ge _ _)) in Hread by lia.
    rewrite <- (app_nil_r c) in Hread at 2. rewrite read_exact_app in Hread by done.
    rewrite (zstd_roundtrip _ _ Hc), (proj2 (Z.ltb_lt _ _)) in Hread by lia. done.
Qed.

(** What the reader accepts is bounded before and after decompression. *)
Lemma read_frame_bounded stream m rest :
  read_frame stream = Ok (m, rest) ->
  exists c json, stream = be_bytes 4 (zlen c) ++ c ++ rest /\ zlen c <= MAX_FRAME_LEN /\
    zstd_decode c = Some (json, true) /\ zlen json <= MAX_DECOMPRESSED_LEN /\ from_slice json = Some m.
Proof.
  unfold read_frame. destruct (read_exact 4 stream) as [[h s]|] eqn:E1; [|done].
  apply read_exact_some in E1 as [-> Hh]; [|done].
  destruct (Z.ltb_spec MAX_FRAME_LEN (of_be h)) as [?|Hm]; [done|].
  destruct (read_exact (of_be h) s) as [[c r]|] eqn:E2; [|done].
  apply read_exact_some in E2 as [-> Hc]; [|apply of_be_range].
  destruct (zstd_decode c) as [[json fin]|] eqn:Ez; [|done].
  destruct (Z.ltb_spec MAX_DECOMPRESSED_LEN (zlen json)); [done|]. destruct fin; [|done]. cbn [negb].
  destruct (from_slice json) as [x|] eqn:Ef; [|done]. intros [= <- <-]. exists c, json.
  split_and!; try done; [|lia]. rewrite Hc.
  replace 4%nat with (List.length h) by lia. by rewrite be_bytes_of_be.
Qed.

(** Reading a connection frame by frame until it ends, as the loops of [serve] and
    [spawn_reader] do.  A frame takes at least four bytes of the stream, which bounds the
    rounds. *)
Fixpoint read_frames (fuel : nat) (stream : list byte) : list T * FrameError :=
  match fuel with
  | O => ([], FClosed)
  | S fuel =>
      match read_frame stream with
      | Ok (m, rest) => let '(ms, e) := read_frames fuel rest in (m :: ms, e)
      | Err e => ([], e)
      | Panic => ([], FIo)
      end
  end.

(** Frames written one after the other and cut anywhere: exactly the whole ones arrive. *)
Lemma frames_arrive ms bs last_m last_b n fuel :
  Forall2 (fun m b => write_frame m = Ok b /\ frame_fits m) ms bs ->
  write_frame last_m = Ok last_b -> (n < List.length last_b)%nat ->
  (List.length (concat bs ++ take n last_b) < fuel)%nat ->
  (read_frames fuel (concat bs ++ take n last_b)).1 = ms.
Proof.
  intros HF Hw Hn. revert fuel. induction HF as [|m b ms bs [Hb Hf] HF IH]; intros fuel Hfuel.
  - destruct fuel as [|fuel]; [done|]. cbn [concat app read_frames].
    by destruct (torn_frame last_m last_b n Hw Hn) as [-> | ->].
  - cbn [concat] in *. rewrite <- app_assoc in *. destruct fuel as [|fuel]; [lia|]. cbn [read_frames].
    rewrite (read_written m b _ Hb Hf).
    assert (0 < List.length b)%nat as Hpos.
    { apply write_frame_ok in Hb as (? & c & _ & _ & _ & ->). rewrite length_app, length_be_bytes. lia. }
    rewrite length_app in Hfuel. specialize (IH fuel ltac:(lia)).
    destruct (read_frames fuel (concat bs ++ take n last_b)) as [l e]. simpl in *. by rewrite IH.
Qed.

End Frame.

(** ** [client.rs]: the forwarder *)

Definition BATCH_MAX_EVENTS : nat := 500.
Definition BATCH_MAX_BYTES : Z := 4 * 1024 * 1024.
(** Nanoseconds. *)
Definition BACKOFF_MIN : Z := 1000000000.
Definition BACKOFF_MAX : Z := 30000000000.

(** The delay to wait now, and the next one. *)
Definition next_delay (b : Z) : Z * Z := (b, Z.min (b * 2) BACKOFF_MAX).

(** The text of [<spool>.offset], if it can be read. *)
Definition load_offset (file : option (list byte)) : Z :=
  match file with
  | None => 0
  | Some text =>
      if utf8_valid text
      then default 0 (parse_uint_bytes 64 (flat_map utf8_encode (trim_chars (utf8_decode text))))
      else 0
  end.

(** Written to a temporary file and renamed: the old text stays when it fails. *)
Definition store_offset (file : option (list byte)) (offset : Z) (written : bool) : option (list byte) :=
  if written then Some (dec_bytes offset) else file.

Section Forwarder.
Context `{JsonLib} (event_from : list byte -> option CanonicalEvent).

Inductive ClientMsg := Batch (seq : Z) (events : list CanonicalEvent).
Inductive ServerMsg := Ack (seq : Z) | Nack (seq : Z) (reason : string) (permanent : bool).

Inductive ReadOutcome := RBatch (events : list CanonicalEvent) (consumed : Z) | RIdle | RTruncated.

(** The lines taken from the window, and the bytes they cover. *)
Fixpoint batch_lines (lines : nat) (chunk : list byte) : list (list byte) * Z :=
  match lines with
  | O => ([], 0)
  | S lines =>
      match split_once nl chunk with
      | None => ([], 0)
      | Some (line, rest) =>
          let '(ls, consumed) := batch_lines lines rest in (line :: ls, zlen line + 1 + consumed)
      end
  end.

(** Empty and unparsable lines are passed over. *)
Definition parse_lines (ls : list (list byte)) : list CanonicalEvent :=
  omap event_from (List.filter nonempty ls).

Definition read_batch (spool : option (list byte)) (offset : Z) : ReadOutcome :=
  match spool with
  | None => RIdle
  | Some file =>
      let len := zlen file in
      if len <? offset then RTruncated
      else if len =? offset then RIdle
      else
        let want := Z.min (len - offset) BATCH_MAX_BYTES in
        let chunk := take (Z.to_nat want) (drop (Z.to_nat offset) file) in
        let '(ls, consumed) := batch_lines BATCH_MAX_EVENTS chunk in
        if consumed =? 0 then
          if BATCH_MAX_BYTES <=? zlen chunk then RBatch [] (zlen chunk) else RIdle
        else RBatch (parse_lines ls) consumed
  end.

Record Forwarder := {
  fw_offset : Z; fw_seq : Z; fw_backoff : Z; fw_rejected : Z; fw_connected : bool }.

(** What [run_forwarder] starts from. *)
Definition forwarder_new (offset_file : option (list byte)) : Forwarder :=
  {| fw_offset := load_offset offset_file; fw_seq := 0; fw_backoff := BACKOFF_MIN; fw_rejected := 0;
     fw_connected := false |}.

(** [seq += 1] on a [u64], as a release build computes it. *)
Definition next_seq_no (seq : Z) : Z := (seq + 1) mod 2 ^ 64.

(** Waiting before the next attempt to connect. *)
Definition reconnect (fw : Forwarder) : Forwarder :=
  {| fw_offset := fw_offset fw; fw_seq := fw_seq fw; fw_backoff := (next_delay (fw_backoff fw)).2;
     fw_rejected := fw_rejected fw; fw_connected := false |}.

(** ** [server.rs]: an agent's connection *)

Definition event_belongs_to_host (host_id : Uuid) (e : CanonicalEvent) : bool :=
  let ref_ok r := match r with
                  | EFile h _ _ | EUser h _ => h =? host_id
                  | _ => true
                  end in
  (ev_host_id e =? host_id) && (host_ref_id (ev_host e) =? host_id) &&
  forallb (fun r => (er_event_id r =? event_id e) && ref_ok (er_from r) && ref_ok (er_to r))
    (relationships e).

(** The subject alternative names of a certificate, as [x509_parser] gives them. *)
Inductive GeneralName := URI (uri : string) | OtherName.

Definition HOST_URI_PREFIX : string := "urn:osiris:host:".

(** [str::strip_prefix]. *)
Definition strip_prefix (p s : string) : option string :=
  if is_prefix (bytes_of p) (bytes_of s)
  then Some (of_bytes (drop (List.length (bytes_of p)) (bytes_of s))) else None.

Context `{UuidText}.

Fixpoint host_id_from_names (names : list GeneralName) : option Uuid :=
  match names with
  | [] => None
  | URI uri :: names =>
      match strip_prefix HOST_URI_PREFIX uri ≫= uuid_parse with
      | Some h => Some h
      | None => host_id_from_names names
      end
  | OtherName :: names => host_id_from_names names
  end.

(** The host a connection is served for: the certificate names one and it is not revoked. *)
Definition admitted_host (cert : list GeneralName) (revoked : list Uuid) : option Uuid :=
  match host_id_from_names cert with
  | Some h => if bool_decide (h ∈ revoked) then None else Some h
  | None => None
  end.

(** The trait [BatchHandler], with the state behind [&self] explicit. *)
Context {S : Type} (handle : S -> Uuid -> list CanonicalEvent -> outcome string unit * S).

(** The reply (none when the handler panics and takes the connection's task with it), the
    handler's state, and the events it has processed. *)
Definition serve_batch (host_id : Uuid) (s : S) (msg : ClientMsg)
  : option ServerMsg * S * list CanonicalEvent :=
  let '(Batch seq events) := msg in
  match List.filter (event_belongs_to_host host_id) events with
  | [] => (Some (Ack seq), s, [])
  | events =>
      let '(r, s) := handle s host_id events in
      match r with
      | Ok _ => (Some (Ack seq), s, events)
      | Err _ => (Some (Nack seq "ingest failed" false), s, [])
      | Panic => (None, s, [])
      end
  end.

(** ** The two ends, the network and the disk *)

Context `{Zstd} `{Serde ClientMsg} `{Serde ServerMsg}.
Context (cert : list GeneralName) (revoked : list Uuid).

(** What happens to one exchange: whether the write reports success, how many bytes of the
    frame arrive ([None] for all), whether the server gets to it only later, how much of
    the reply comes back, and whether it does so in time. *)
Record net := {
  n_sent : bool; n_arrived : option nat; n_late : bool; n_reply : option nat; n_in_time : bool }.

Definition cut (n : option nat) (l : list byte) : list byte :=
  match n with Some n => take n l | None => l end.

(** [y_log] records the batches the handler has processed; the code does not have it. *)
Record Sys := {
  y_spool : list byte; y_offset_file : option (list byte); y_fw : Forwarder;
  y_server : S; y_waiting : list ClientMsg; y_log : list (list CanonicalEvent) }.

Definition with_fw (y : Sys) (fw : Forwarder) : Sys :=
  {| y_spool := y_spool y; y_offset_file := y_offset_file y; y_fw := fw; y_server := y_server y;
     y_waiting := y_waiting y; y_log := y_log y |}.

Definition with_server (y : Sys) (s : S) (waiting : list ClientMsg) (done : list CanonicalEvent) : Sys :=
  {| y_spool := y_spool y; y_offset_file := y_offset_file y; y_fw := y_fw y; y_server := s;
     y_waiting := waiting; y_log := y_log y ++ [done] |}.

Definition with_file (y : Sys) (f : option (list byte)) : Sys :=
  {| y_spool := y_spool y; y_offset_file := f; y_fw := y_fw y; y_server := y_server y;
     y_waiting := y_waiting y; y_log := y_log y |}.

Inductive exchange_result := XNoReply | XReply (m : ServerMsg).

(** The server's loop gets a message. *)
Definition server_gets (y : Sys) (waiting : list ClientMsg) (msg : ClientMsg) : option ServerMsg * Sys :=
  match admitted_host cert revoked with
  | None => (None, with_server y (y_server y) waiting [])
  | Some host_id =>
      let '(reply, s, done) := serve_batch host_id (y_server y) msg in
      (reply, with_server y s waiting done)
  end.

(** Sending a batch and waiting for the reply.  Every way it can fail leads to a new
    connection, so each exchange has fresh streams. *)
Definition exchange (y : Sys) (msg : ClientMsg) (n : net) : exchange_result * Sys :=
  match write_frame msg with
  | Ok frame =>
      match read_frame (T := ClientMsg) (cut (n_arrived n) frame) with
      | Ok (m, _) =>
          if n_late n then
            (XNoReply, with_server y (y_server y) (y_waiting y ++ [m]) [])
          else
            let '(reply, y) := server_gets y (y_waiting y) m in
            match reply with
            | Some reply =>
                match write_frame reply with
                | Ok back =>
                    match read_frame (T := ServerMsg) (cut (n_reply n) back) with
                    | Ok (m, _) => (if n_sent n && n_in_time n then XReply m else XNoReply, y)
                    | _ => (XNoReply, y)
                    end
                | _ => (XNoReply, y)
                end
            | None => (XNoReply, y)
            end
      | _ => (XNoReply, y)
      end
  | _ => (XNoReply, y)
  end.

(** The end of an iteration: the batch is behind us. *)
Definition advance (y : Sys) (consumed backoff rejected : Z) (written : bool) : Sys :=
  let fw := y_fw y in
  let o := fw_offset fw + consumed in
  with_file
    (with_fw y {| fw_offset := o; fw_seq := fw_seq fw; fw_backoff := backoff; fw_rejected := rejected;
                  fw_connected := true |})
    (store_offset (y_offset_file y) o written).

(** One iteration of the inner loop. *)
Definition forward_iter (y : Sys) (read_fails : bool) (n : net) (written : bool) : Sys :=
  let fw := y_fw y in
  if read_fails then
    with_fw y {| fw_offset := fw_offset fw; fw_seq := fw_seq fw;
                 fw_backoff := (next_delay (fw_backoff fw)).2; fw_rejected := fw_rejected fw;
                 fw_connected := true |}
  else
    match read_batch (Some (y_spool y)) (fw_offset fw) with
    | RIdle => y
    | RTruncated =>
        with_file
          (with_fw y {| fw_offset := 0; fw_seq := fw_seq fw; fw_backoff := fw_backoff fw;
                        fw_rejected := fw_rejected fw; fw_connected := true |})
          (store_offset (y_offset_file y) 0 written)
    | RBatch [] consumed => advance y consumed (fw_backoff fw) (fw_rejected fw) written
    | RBatch events consumed =>
        let seq := next_seq_no (fw_seq fw) in
        let '(r, y) := exchange y (Batch seq events) n in
        let fw := {| fw_offset := fw_offset fw; fw_seq := seq; fw_backoff := fw_backoff fw;
                     fw_rejected := fw_rejected fw; fw_connected := true |} in
        match r with
        | XReply (Ack acked) =>
            if acked =? seq then advance (with_fw y fw) consumed BACKOFF_MIN (fw_rejected fw) written
            else with_fw y (reconnect fw)
        | XReply (Nack _ _ true) =>
            advance (with_fw y fw) consumed (fw_backoff fw) (fw_rejected fw + 1) written
        | _ => with_fw y (reconnect fw)
        end
    end.

(** The steps of the whole: the agent appends to its spool, connects or fails to, polls,
    the server gets to a batch that was waiting, the agent is restarted. *)
Inductive sys_op :=
| OAppend (bytes : list byte)
| OConnect (ok : bool)
| OPoll (read_fails : bool) (n : net) (written : bool)
| OLate (i : nat)
| ORestart.

Definition sys_step (y : Sys) (o : sys_op) : Sys :=
  match o with
  | OAppend bytes =>
      {| y_spool := y_spool y ++ bytes; y_offset_file := y_offset_file y; y_fw := y_fw y;
         y_server := y_server y; y_waiting := y_waiting y; y_log := y_log y |}
  | OConnect ok =>
      let fw := y_fw y in
      if fw_connected fw then y
      else if ok then
        with_fw y {| fw_offset := fw_offset fw; fw_seq := fw_seq fw; fw_backoff := fw_backoff fw;
                     fw_rejected := fw_rejected fw; fw_connected := true |}
      else with_fw y (reconnect fw)
  | OPoll read_fails n written =>
      if fw_connected (y_fw y) then forward_iter y read_fails n written else y
  | OLate i =>
      match y_waiting y !! i with
      | Some m => (server_gets y (delete i (y_waiting y)) m).2
      | None => y
      end
  | ORestart => with_fw y (forwarder_new (y_offset_file y))
  end.

Definition sys_run (y : Sys) (ops : list sys_op) : Sys := foldl sys_step y ops.

Definition sys_new (s : S) : Sys :=
  {| y_spool := []; y_offset_file := None; y_fw := forwarder_new None; y_server := s;
     y_waiting := []; y_log := [] |}.

(** ** Lines of the spool *)

(** The events on the complete lines of a content. *)
Definition events_in (c : list byte) : list CanonicalEvent := parse_lines (removelast (split_all nl c)).

(** [o] lies behind a line break, or at the start. *)
Definition aligned (spool : list byte) (o : Z) : Prop :=
  0 <= o <= zlen spool /\ tail_of (take (Z.to_nat o) spool) = [].

(** Every line fits the read window. *)
Definition short_lines (spool : list byte) : Prop :=
  Forall (fun l => zlen l < BATCH_MAX_BYTES) (split_all nl spool).

Lemma split_all_line l r : nl ∉ l -> split_all nl (l ++ nl :: r) = l :: split_all nl r.
Proof.
  induction l as [|b l IH]; intros Hl; cbn [app split_all].
  - by rewrite decide_True.
  - apply not_elem_of_cons in Hl as [Hb Hl]. rewrite decide_False by done. by rewrite IH.
Qed.

Lemma split_all_single l : nl ∉ l -> split_all nl l = [l].
Proof.
  induction l as [|b l IH]; intros Hl; [done|]. cbn [split_all].
  apply not_elem_of_cons in Hl as [Hb Hl]. rewrite decide_False by done. by rewrite IH.
Qed.

Definition unlines (ls : list (list byte)) : list byte := flat_map (fun l => l ++ [nl]) ls.

Lemma split_all_unlines ls r :
  Forall (fun l => nl ∉ l) ls -> split_all nl (unlines ls ++ r) = ls ++ split_all nl r.
Proof.
  induction 1 as [|l ls Hl _ IH]; [done|]. cbn [unlines flat_map app].
  rewrite <- !app_assoc. cbn [app]. rewrite split_all_line by done. by f_equal.
Qed.

Lemma split_all_closed a b :
  tail_of a = [] -> split_all nl (a ++ b) = removelast (split_all nl a) ++ split_all nl b.
Proof. intros Ha. rewrite split_all_app. unfold tail_of in Ha. by rewrite Ha. Qed.

Lemma split_all_ne l : split_all nl l <> [].
Proof. destruct (split_all_cons nl l) as (x & y & ->). done. Qed.

Lemma parse_lines_app a b : parse_lines (a ++ b) = parse_lines a ++ parse_lines b.
Proof. unfold parse_lines. by rewrite List.filter_app, omap_app. Qed.

Lemma parse_lines_length ls : (List.length (parse_lines ls) <= List.length ls)%nat.
Proof.
  unfold parse_lines. induction ls as [|l ls IH]; [done|]. cbn [List.filter].
  destruct (nonempty l); cbn; [|lia]. destruct (event_from l); cbn; lia.
Qed.

Lemma events_closed a b : tail_of a = [] -> events_in (a ++ b) = events_in a ++ events_in b.
Proof.
  intros Ha. unfold events_in. rewrite split_all_closed by done.
  rewrite removelast_app_ne by apply split_all_ne. by rewrite parse_lines_app.
Qed.

Lemma tail_closed a b : tail_of a = [] -> tail_of (a ++ b) = tail_of b.
Proof. intros Ha. by rewrite tail_of_app, Ha. Qed.

Lemma events_unlines ls : Forall (fun l => nl ∉ l) ls -> events_in (unlines ls) = parse_lines ls.
Proof.
  intros Hl. unfold events_in. rewrite <- (app_nil_r (unlines ls)), split_all_unlines by done.
  cbn [split_all]. by rewrite removelast_last.
Qed.

Lemma tail_unlines ls : Forall (fun l => nl ∉ l) ls -> tail_of (unlines ls) = [].
Proof.
  intros Hl. unfold tail_of. rewrite <- (app_nil_r (unlines ls)), split_all_unlines by done.
  cbn [split_all]. by rewrite last_app_ne.
Qed.

(** *** One batch *)

Lemma batch_lines_spec n : forall chunk ls k,
  batch_lines n chunk = (ls, k) ->
  k = zlen (unlines ls) /\ Forall (fun l => nl ∉ l) ls /\ (exists rest, chunk = unlines ls ++ rest) /\
  (List.length ls <= n)%nat /\ (ls = [] -> n <> O -> nl ∉ chunk).
Proof.
  induction n as [|n IH]; intros chunk ls k E; cbn [batch_lines] in E.
  { injection E as <- <-. split_and!; try done. by exists chunk. }
  destruct (split_once nl chunk) as [[line rest]|] eqn:Es.
  - destruct (batch_lines n rest) as [ls' k'] eqn:Eb. injection E as <- <-.
    destruct (IH _ _ _ Eb) as (-> & Hf & (r & ->) & Hn & _).
    apply split_once_some in Es as [-> Hl]. cbn [unlines flat_map List.length].
    split_and!; [|by constructor| |lia|done].
    + fold (unlines ls'). rewrite !length_app. cbn [List.length]. lia.
    + exists r. fold (unlines ls'). by rewrite <- !app_assoc.
  - injection E as <- <-. split_and!; try done; [by exists chunk|cbn; lia|].
    intros _ _ Hin. apply list_elem_of_split_l in Hin as (a & b & -> & Ha).
    by rewrite split_once_app in Es.
Qed.

(** A run of bytes without a line break is part of one line. *)
Lemma split_all_head t b : nl ∉ t -> exists s ss, split_all nl (t ++ b) = (t ++ s) :: ss.
Proof.
  induction t as [|x t IH]; intros Ht; cbn [app split_all].
  - destruct (split_all_cons nl b) as (s & ss & ->). by exists s, ss.
  - apply not_elem_of_cons in Ht as [Hx Ht]. destruct (IH Ht) as (s & ss & ->).
    rewrite decide_False by done. by exists s, ss.
Qed.

Lemma short_window a chunk b :
  short_lines (a ++ chunk ++ b) -> tail_of a = [] -> nl ∉ chunk -> zlen chunk < BATCH_MAX_BYTES.
Proof.
  unfold short_lines. intros Hs Ha Hc. rewrite split_all_closed in Hs by done.
  apply Forall_app in Hs as [_ Hs]. destruct (split_all_head chunk b Hc) as (seg & segs & E).
  rewrite E in Hs. apply Forall_cons in Hs as [Hs _]. rewrite length_app in Hs. lia.
Qed.

Lemma read_batch_spec spool o evs k :
  aligned spool o -> short_lines spool -> read_batch (Some spool) o = RBatch evs k ->
  0 < k /\ aligned spool (o + k) /\
  events_in (take (Z.to_nat (o + k)) spool) = events_in (take (Z.to_nat o) spool) ++ evs /\
  (exists ls, Forall (fun l => nl ∉ l) ls /\ ls <> [] /\ evs = parse_lines ls /\
     (List.length ls <= BATCH_MAX_EVENTS)%nat /\
     exists rest, drop (Z.to_nat o) spool = unlines ls ++ rest /\ k = zlen (unlines ls)).
Proof.
  intros [[Ho1 Ho2] Ht] Hs. unfold read_batch.
  destruct (Z.ltb_spec (zlen spool) o) as [?|_]; [lia|].
  destruct (Z.eqb_spec (zlen spool) o) as [?|Hne]; [done|]. cbv zeta.
  set (want := Z.min _ _). set (chunk := take (Z.to_nat want) _).
  destruct (batch_lines BATCH_MAX_EVENTS chunk) as [ls k'] eqn:E.
  destruct (batch_lines_spec _ _ _ _ E) as (-> & Hf & (rest & Hr) & Hn & Hnone).
  assert (spool = take (Z.to_nat o) spool ++ chunk ++ drop (Z.to_nat want) (drop (Z.to_nat o) spool)) as Hsp.
  { unfold chunk. by rewrite take_drop, take_drop. }
  destruct (Z.eqb_spec (zlen (unlines ls)) 0) as [Hz|Hz].
  - destruct ls as [|l ls].
    2:{ cbn [unlines flat_map] in Hz. rewrite !length_app in Hz. cbn [List.length] in Hz. lia. }
    rewrite Hsp in Hs. apply (short_window _ chunk) in Hs; [|done|by apply Hnone].
    by rewrite (proj2 (Z.leb_gt _ _)) by lia.
  - intros [= <- <-].
    assert (take (Z.to_nat (o + zlen (unlines ls))) spool = take (Z.to_nat o) spool ++ unlines ls) as Htk.
    { rewrite Hsp at 1. rewrite Hr, <- app_assoc, app_assoc.
      rewrite take_app_le; [|rewrite length_app, length_take; lia].
      rewrite take_ge; [done|]. rewrite length_app, length_take. lia. }
    assert (o + zlen (unlines ls) <= zlen spool) as Hle.
    { pose proof (f_equal (@List.length _) Hsp) as Hl. rewrite Hr in Hl.
      rewrite !length_app, length_take in Hl. lia. }
    split_and!.
    + lia.
    + split; [lia|]. rewrite Htk, tail_closed by done. by apply tail_unlines.
    + rewrite Htk, events_closed by done. by rewrite events_unlines.
    + exists ls. split_and!; try done; [by intros ->|].
      exists (rest ++ drop (Z.to_nat want) (drop (Z.to_nat o) spool)). split; [|done].
      rewrite app_assoc, <- Hr. unfold chunk. by rewrite take_drop.
Qed.

(** The events of consecutive lines of the spool, as many as one read can take. *)
Definition spool_window (spool : list byte) (evs : list CanonicalEvent) : Prop :=
  exists a ls rest, spool = a ++ unlines ls ++ rest /\ Forall (fun l => nl ∉ l) ls /\
    (List.length ls <= BATCH_MAX_EVENTS)%nat /\ zlen (unlines ls) <= BATCH_MAX_BYTES /\
    evs = parse_lines ls.

Lemma read_batch_bounded spool o evs k : read_batch (Some spool) o = RBatch evs k -> k <= BATCH_MAX_BYTES.
Proof.
  unfold read_batch. destruct (_ <? _); [done|]. destruct (_ =? _); [done|]. cbv zeta.
  set (want := Z.min _ _). set (chunk := take (Z.to_nat want) _).
  assert (zlen chunk <= BATCH_MAX_BYTES) as Hc.
  { unfold chunk. rewrite length_take. unfold BATCH_MAX_BYTES in *. lia. }
  destruct (batch_lines BATCH_MAX_EVENTS chunk) as [ls k'] eqn:E.
  destruct (batch_lines_spec _ _ _ _ E) as (-> & _ & (rest & Hr) & _).
  apply (f_equal (@List.length _)) in Hr. rewrite length_app in Hr.
  destruct (_ =? _); [destruct (_ <=? _); [|done]|]; intros [= <- <-]; lia.
Qed.

Lemma read_batch_window spool o evs k :
  aligned spool o -> short_lines spool -> read_batch (Some spool) o = RBatch evs k ->
  spool_window spool evs.
Proof.
  intros Ha Hs E. pose proof (read_batch_bounded _ _ _ _ E) as Hk.
  destruct (read_batch_spec _ _ _ _ Ha Hs E) as (_ & _ & _ & ls & Hf & _ & -> & Hn & rest & Hd & ->).
  exists (take (Z.to_nat o) spool), ls, rest. split_and!; try done.
  by rewrite <- Hd, take_drop.
Qed.

(** A line longer than the window is not skipped whole: the window is, and what follows it
    is then read as a line of its own. *)
Lemma oversized_line_tail_is_read window tail :
  nl ∉ window -> zlen window = BATCH_MAX_BYTES -> nl ∉ tail -> zlen tail < BATCH_MAX_BYTES ->
  let spool := window ++ tail ++ [nl] in
  read_batch (Some spool) 0 = RBatch [] (zlen window) /\
  read_batch (Some spool) (zlen window) = RBatch (parse_lines [tail]) (zlen tail + 1).
Proof.
  intros Hw Hl Ht Hs spool. unfold read_batch.
  assert (zlen spool = zlen window + zlen tail + 1) as Hz.
  { subst spool. rewrite !length_app. cbn [List.length]. lia. }
  assert (0 < BATCH_MAX_BYTES) as Hpos by (unfold BATCH_MAX_BYTES; lia). rewrite Hz. split.
  - rewrite (proj2 (Z.ltb_ge _ _)) by lia. rewrite (proj2 (Z.eqb_neq _ _)) by lia. cbv zeta.
    replace (Z.min _ _) with (zlen window) by lia. cbn [drop Z.to_nat]. rewrite Nat2Z.id.
    subst spool. rewrite drop_0, take_app_length.
    assert (batch_lines BATCH_MAX_EVENTS window = ([], 0)) as ->.
    { unfold BATCH_MAX_EVENTS. cbn [batch_lines]. by rewrite split_once_none. }
    cbn. by rewrite (proj2 (Z.leb_le _ _)) by lia.
  - rewrite (proj2 (Z.ltb_ge _ _)) by lia. rewrite (proj2 (Z.eqb_neq _ _)) by lia. cbv zeta.
    rewrite Nat2Z.id. subst spool. rewrite drop_app_length.
    rewrite take_ge by (rewrite length_app; cbn [List.length]; lia).
    assert (batch_lines BATCH_MAX_EVENTS (tail ++ [nl]) = ([tail], zlen tail + 1 + 0)) as ->.
    { unfold BATCH_MAX_EVENTS. cbn [batch_lines]. by rewrite split_once_app. }
    rewrite Z.add_0_r. by rewrite (proj2 (Z.eqb_neq _ _)) by lia.
Qed.

Lemma aligned_app spool o x : aligned spool o -> aligned (spool ++ x) o.
Proof.
  intros [Ho Ht]. split; [rewrite length_app; lia|]. by rewrite take_app_le by lia.
Qed.

(** Growth only adds lines. *)
Lemma short_lines_app a b : short_lines (a ++ b) -> short_lines a.
Proof.
  unfold short_lines. rewrite split_all_app. intros [Hi Hl]%Forall_app.
  rewrite (app_removelast_last [] (split_all_ne a)) at 1. apply Forall_app. split; [done|].
  constructor; [|done]. set (t := List.last (split_all nl a) []) in *.
  assert (nl ∉ t) as Ht.
  { subst t. clear. induction a as [|x a IH]; [apply not_elem_of_nil|]. cbn [split_all].
    destruct (split_all_cons nl a) as (s & ss & E). rewrite E in *.
    destruct (decide (x = nl)) as [->|Hx]; [by rewrite last_cons_ne by done|].
    destruct ss as [|s' ss]; cbn [List.last] in *; [|done]. by apply not_elem_of_cons. }
  destruct (split_all_head t b Ht) as (s & ss & Es).
  rewrite Es in Hl. apply Forall_cons in Hl as [Hl _]. rewrite length_app in Hl. lia.
Qed.

(** ** The stored offset *)

Lemma load_stored o : 0 <= o < 2 ^ 64 -> load_offset (Some (dec_bytes o)) = o.
Proof.
  intros Ho. pose proof (dec_bytes_digits o ltac:(lia)) as Hd.
  assert (Forall (fun b => is_ascii b = true) (dec_bytes o)) as Ha.
  { eapply Forall_impl; [exact Hd|]. intros b Hb. unfold is_digit in Hb. unfold is_ascii. lia. }
  unfold load_offset. rewrite utf8_valid_ascii, utf8_decode_ascii by done.
  rewrite trim_chars_none.
  - rewrite flat_map_utf8_ascii by done. by rewrite parse_dec_bytes by (apply fits_iff; lia).
  - apply Forall_map. eapply Forall_impl; [exact Hd|]. intros b Hb. unfold is_digit in Hb.
    unfold is_whitespace. simpl. lia.
Qed.

(** ** One exchange *)

Lemma read_cut {T} `{Serde T} (m : T) bytes n m' rest :
  write_frame m = Ok bytes -> read_frame (cut n bytes) = Ok (m', rest) -> m' = m.
Proof.
  intros Hw. destruct n as [n|]; cbn [cut].
  - intros Hr. by destruct (read_frame_cut _ _ _ _ _ Hw Hr).
  - rewrite <- (take_ge bytes (List.length bytes)) by lia. intros Hr. by destruct (read_frame_cut _ _ _ _ _ Hw Hr).
Qed.

Abbreviation mine h evs := (List.filter (event_belongs_to_host h) evs).

(** [done] is what an admitted connection's server has processed of [evs]. *)
Definition processed (evs done : list CanonicalEvent) : Prop :=
  exists h, admitted_host cert revoked = Some h /\ done = mine h evs.

Lemma serve_batch_spec h s seq evs reply s' done :
  serve_batch h s (Batch seq evs) = (reply, s', done) ->
  (done = [] \/ done = mine h evs) /\
  match reply with
  | Some (Ack q) => q = seq /\ done = mine h evs
  | Some (Nack _ _ p) => p = false
  | None => True
  end.
Proof.
  unfold serve_batch. destruct (mine h evs) as [|e l] eqn:E.
  { intros [= <- <- <-]. by split; [left|]. }
  destruct (handle s h (e :: l)) as [r s1]. destruct r; intros [= <- <- <-]; (split; [|done]);
    [by right|by left|by left].
Qed.

Lemma server_gets_spec y waiting seq evs reply y' :
  server_gets y waiting (Batch seq evs) = (reply, y') ->
  y_spool y' = y_spool y /\ y_offset_file y' = y_offset_file y /\ y_fw y' = y_fw y /\
  y_waiting y' = waiting /\
  exists done, concat (y_log y') = concat (y_log y) ++ done /\ (done = [] \/ processed evs done) /\
    match reply with
    | Some (Ack q) => q = seq /\ processed evs done
    | Some (Nack _ _ p) => p = false
    | None => True
    end.
Proof.
  unfold server_gets, processed. destruct (admitted_host cert revoked) as [h|].
  2:{ intros [= <- <-]. cbn. split_and!; try done. exists []. rewrite concat_app. cbn. by split_and!; [|left|]. }
  destruct (serve_batch h (y_server y) (Batch seq evs)) as [[rp s] done] eqn:Es.
  intros [= <- <-]. cbn. split_and!; try done. exists done. rewrite concat_app. cbn. rewrite app_nil_r.
  destruct (serve_batch_spec _ _ _ _ _ _ _ Es) as [Hd Hr]. split_and!; [done| |].
  - destruct Hd as [->| ->]; [by left|right; by exists h].
  - destruct rp as [[q|q x p]|]; [|done|done]. destruct Hr as [-> ->]. split; [done|by exists h].
Qed.

(** What an exchange leaves behind, given the answer the forwarder sees. *)
Definition exchanged (seq : Z) (evs : list CanonicalEvent) (y : Sys) (x : exchange_result * Sys) : Prop :=
  let '(r, y') := x in
  y_spool y' = y_spool y /\ y_offset_file y' = y_offset_file y /\ y_fw y' = y_fw y /\
  (y_waiting y' = y_waiting y \/ y_waiting y' = y_waiting y ++ [Batch seq evs]) /\
  exists done, concat (y_log y') = concat (y_log y) ++ done /\ (done = [] \/ processed evs done) /\
    match r with
    | XReply (Ack q) => q = seq /\ processed evs done
    | XReply (Nack _ _ p) => p = false
    | XNoReply => True
    end.

Lemma exchange_spec y seq evs n : exchanged seq evs y (exchange y (Batch seq evs) n).
Proof.
  assert (exchanged seq evs y (XNoReply, y)) as Hsame.
  { split_and!; try done; [by left|]. exists []. rewrite app_nil_r. by split_and!; [|left|]. }
  unfold exchange. destruct (write_frame (Batch seq evs)) as [frame|e|] eqn:Ew; [|done..].
  destruct (read_frame (cut (n_arrived n) frame)) as [[m rest]|e|] eqn:Er; [|done..].
  apply (read_cut _ _ _ _ _ Ew) in Er as ->. destruct (n_late n).
  { cbn. split_and!; try done; [by right|]. exists []. rewrite concat_app. cbn. by split_and!; [|left|]. }
  destruct (server_gets y (y_waiting y) (Batch seq evs)) as [reply y1] eqn:Eg.
  apply server_gets_spec in Eg as (G1 & G2 & G3 & G4 & done & G5 & G6 & G7).
  assert (exchanged seq evs y (XNoReply, y1)) as Hlost.
  { split_and!; try done; [by left|]. by exists done. }
  destruct reply as [reply|]; [|done].
  destruct (write_frame reply) as [back|e|] eqn:Eb; [|done..].
  destruct (read_frame (cut (n_reply n) back)) as [[m r2]|e|] eqn:Ec; [|done..].
  apply (read_cut _ _ _ _ _ Eb) in Ec as ->. destruct (n_sent n && n_in_time n); [|done].
  split_and!; try done; [by left|]. by exists done.
Qed.

(** ** The invariant *)

Context (host : Uuid) (Hadmitted : admitted_host cert revoked = Some host).

(** Every event of this host before [o] has been processed, in order. *)
Definition delivered (y : Sys) (o : Z) : Prop :=
  aligned (y_spool y) o /\
  mine host (events_in (take (Z.to_nat o) (y_spool y))) `sublist_of` concat (y_log y).

Record sys_ok (y : Sys) : Prop := {
  so_mem : delivered y (fw_offset (y_fw y));
  so_file : delivered y (load_offset (y_offset_file y));
  so_log : Forall (fun e => event_belongs_to_host host e = true /\ e ∈ events_in (y_spool y))
             (concat (y_log y));
  so_waiting : Forall (fun '(Batch _ evs) => Forall (fun e => e ∈ events_in (y_spool y)) evs)
                 (y_waiting y) }.

Lemma events_in_app a b : exists x, events_in (a ++ b) = events_in a ++ x.
Proof.
  unfold events_in. rewrite split_all_app.
  rewrite removelast_app_ne by apply split_all_ne. rewrite parse_lines_app. eauto.
Qed.

Lemma delivered_log y y' o :
  y_spool y' = y_spool y -> concat (y_log y) `sublist_of` concat (y_log y') ->
  delivered y o -> delivered y' o.
Proof. intros G1 G2 [Ha Hd]. split; rewrite G1; [done|]. by etransitivity. Qed.

Lemma elem_of_mine h e evs : e ∈ mine h evs <-> event_belongs_to_host h e = true /\ e ∈ evs.
Proof. rewrite !list_elem_of_In, filter_In. tauto. Qed.

Lemma sys_ok_fw y fw :
  sys_ok y -> fw_offset fw = fw_offset (y_fw y) -> sys_ok (with_fw y fw).
Proof. intros [] Ho. constructor; cbn; rewrite ?Ho; done. Qed.

(** Moving the offset, in memory and perhaps on disk. *)
Lemma sys_ok_move y fw written :
  sys_ok y -> delivered y (fw_offset fw) -> zlen (y_spool y) < 2 ^ 64 ->
  sys_ok (with_file (with_fw y fw) (store_offset (y_offset_file y) (fw_offset fw) written)).
Proof.
  intros [Hm Hf Hl Hw] Hd Hlen. constructor; try done. cbn [with_file with_fw y_offset_file].
  unfold store_offset. destruct written; [|done].
  rewrite load_stored; [done|]. destruct Hd as [[Ho _] _]. lia.
Qed.

(** More of the log, more in the queue. *)
Lemma sys_ok_served y y' done evs :
  sys_ok y -> y_spool y' = y_spool y -> y_offset_file y' = y_offset_file y ->
  fw_offset (y_fw y') = fw_offset (y_fw y) ->
  Forall (fun e => e ∈ events_in (y_spool y)) evs ->
  concat (y_log y') = concat (y_log y) ++ done -> (done = [] \/ processed evs done) ->
  Forall (fun '(Batch _ evs) => Forall (fun e => e ∈ events_in (y_spool y)) evs) (y_waiting y') ->
  sys_ok y'.
Proof.
  intros [Hm Hf Hl Hw] E1 E2 E3 Hev E4 Hd Hw'.
  assert (concat (y_log y) `sublist_of` concat (y_log y')) as Hsub by (rewrite E4; by apply sublist_inserts_r).
  constructor; rewrite ?E1, ?E2, ?E3.
  - by apply (delivered_log y).
  - by apply (delivered_log y).
  - rewrite E4. apply Forall_app. split; [done|]. destruct Hd as [->|(h & Eh & ->)]; [constructor|].
    rewrite Hadmitted in Eh. injection Eh as <-. apply Forall_forall. intros e He%elem_of_mine.
    rewrite Forall_forall in Hev. destruct He. auto.
  - done.
Qed.

Lemma batch_in_spool spool o evs k :
  aligned spool o -> short_lines spool -> read_batch (Some spool) o = RBatch evs k ->
  Forall (fun e => e ∈ events_in spool) evs.
Proof.
  intros Ha Hs Hb. destruct (read_batch_spec _ _ _ _ Ha Hs Hb) as (_ & [[H1' H2'] _] & He & _).
  destruct (events_in_app (take (Z.to_nat (o + k)) spool) (drop (Z.to_nat (o + k)) spool)) as (x & Hx).
  rewrite take_drop, He in Hx. apply Forall_forall. intros e Hin. rewrite Hx, !elem_of_app. by left; right.
Qed.

(** Once this host's share of the next batch has been processed, the offset may move. *)
Lemma delivered_next y y' evs k done :
  delivered y (fw_offset (y_fw y)) -> short_lines (y_spool y) ->
  read_batch (Some (y_spool y)) (fw_offset (y_fw y)) = RBatch evs k ->
  y_spool y' = y_spool y -> concat (y_log y') = concat (y_log y) ++ done -> done = mine host evs ->
  delivered y' (fw_offset (y_fw y) + k).
Proof.
  intros [Ha Hd] Hs Hb E1 E2 ->. destruct (read_batch_spec _ _ _ _ Ha Hs Hb) as (_ & Ha' & He & _).
  split; rewrite E1; [done|]. rewrite He, List.filter_app, E2. by apply sublist_app.
Qed.

Lemma forward_iter_spool y read_fails n written : y_spool (forward_iter y read_fails n written) = y_spool y.
Proof.
  unfold forward_iter. destruct read_fails; [done|].
  destruct (read_batch _ _) as [[|e evs] k| |]; try done.
  pose proof (exchange_spec y (next_seq_no (fw_seq (y_fw y))) (e :: evs) n) as X.
  destruct (exchange y _ n) as [r y1]. destruct X as (E1 & _).
  destruct r as [|[q|q reason []]]; [done| |done|done]. by destruct (q =? _).
Qed.

Lemma forward_iter_ok y read_fails n written :
  sys_ok y -> short_lines (y_spool y) -> zlen (y_spool y) < 2 ^ 64 ->
  sys_ok (forward_iter y read_fails n written).
Proof.
  intros Hok Hs Hlen. unfold forward_iter. destruct read_fails; [by apply sys_ok_fw|].
  destruct (read_batch (Some (y_spool y)) (fw_offset (y_fw y))) as [evs k| |] eqn:Eb.
  2:{ done. }
  2:{ exfalso. destruct Hok as [[[[_ Hle] _] _] _ _ _]. unfold read_batch in Eb.
      rewrite (proj2 (Z.ltb_ge _ _)) in Eb by lia. destruct (_ =? _); [done|]. cbv zeta in Eb.
      destruct (batch_lines _ _) as [ls c]. destruct (c =? 0); [|done]. by destruct (_ <=? _). }
  pose proof (so_mem _ Hok) as Hmem. destruct Hmem as [Ha Hd].
  pose proof (batch_in_spool _ _ _ _ Ha Hs Eb) as Hin.
  destruct evs as [|e0 evs0].
  { unfold advance. apply (sys_ok_move y {| fw_offset := _ |}); [done| |done].
    apply (delivered_next y y [] k []); try done. by rewrite app_nil_r. }
  set (evs := e0 :: evs0) in *. set (seq := next_seq_no (fw_seq (y_fw y))).
  pose proof (exchange_spec y seq evs n) as X. destruct (exchange y (Batch seq evs) n) as [r y1].
  destruct X as (E1 & E2 & E3 & E4 & done & E5 & E6 & E7).
  assert (sys_ok y1) as Hok1.
  { eapply (sys_ok_served y y1 done evs); try done; [by rewrite E3|].
    destruct Hok as [_ _ _ Hw]. destruct E4 as [->| ->]; [done|]. apply Forall_app. split; [done|].
    by constructor. }
  set (fw := {| fw_offset := fw_offset (y_fw y); fw_seq := seq |}).
  assert (sys_ok (with_fw y1 fw)) as Hokf by (apply sys_ok_fw; [done|]; by rewrite E3).
  assert (sys_ok (with_fw y1 (reconnect fw))) as Hokr by (apply sys_ok_fw; [done|]; by rewrite E3).
  destruct r as [|[q|q reason p]].
  - done.
  - destruct E7 as [-> Hp]. rewrite Z.eqb_refl. unfold advance. apply (sys_ok_move (with_fw y1 fw) {| fw_offset := _ |}); [done| |by rewrite <- E1 in Hlen].
    destruct Hp as (h & Eh & Hdone). rewrite Hadmitted in Eh. injection Eh as <-.
    apply (delivered_next y (with_fw y1 fw) evs k done); done.
  - by subst p.
Qed.

Lemma sys_step_ok y o :
  sys_ok y -> short_lines (y_spool (sys_step y o)) -> zlen (y_spool (sys_step y o)) < 2 ^ 64 ->
  sys_ok (sys_step y o).
Proof.
  intros Hok. destruct o as [bytes|ok|rf n w|i|]; cbn [sys_step].
  - intros _ _. destruct Hok as [[Ha1 Hd1] [Ha2 Hd2] Hl Hw].
    destruct (events_in_app (y_spool y) bytes) as (x & Hx).
    assert (forall o, aligned (y_spool y) o -> take (Z.to_nat o) (y_spool y ++ bytes) = take (Z.to_nat o) (y_spool y))
      as Htake.
    { intros o [Ho _]. rewrite take_app_le by lia. done. }
    assert (forall e, e ∈ events_in (y_spool y) -> e ∈ events_in (y_spool y ++ bytes)) as Hmono.
    { intros e He. rewrite Hx. apply elem_of_app. by left. }
    constructor; cbn.
    + split; [by apply aligned_app|]. cbn. by rewrite Htake.
    + split; [by apply aligned_app|]. cbn. by rewrite Htake.
    + eapply Forall_impl; [exact Hl|]. intros e [? He]. split; [done|]. by apply Hmono.
    + eapply Forall_impl; [exact Hw|]. intros [seq evs] Hf. eapply Forall_impl; [exact Hf|]. exact Hmono.
  - intros _ _. destruct (fw_connected (y_fw y)); [done|]. by destruct ok; apply sys_ok_fw.
  - destruct (fw_connected (y_fw y)); [|done].
    rewrite forward_iter_spool. by apply forward_iter_ok.
  - intros _ _. destruct (y_waiting y !! i) as [[seq evs]|] eqn:Ei; [|done].
    destruct (server_gets y (delete i (y_waiting y)) (Batch seq evs)) as [reply y1] eqn:Eg.
    apply server_gets_spec in Eg as (E1 & E2 & E3 & E4 & done & E5 & E6 & _). cbn [snd].
    pose proof (so_waiting _ Hok) as Hw. apply (sys_ok_served y y1 done evs); try done; [by rewrite E3| |].
    + rewrite Forall_forall in Hw. by apply (Hw (Batch seq evs)), list_elem_of_lookup_2 with i.
    + rewrite E4. by apply Forall_delete.
  - intros _ _. destruct Hok as [Hm Hf Hl Hw]. by constructor.
Qed.

Lemma sys_run_app y ops ops' : sys_run y (ops ++ ops') = sys_run (sys_run y ops) ops'.
Proof. apply foldl_app. Qed.

(** The spool only grows. *)
Lemma sys_step_spool y o : exists x, y_spool (sys_step y o) = y_spool y ++ x.
Proof.
  destruct o as [bytes|ok|rf n w|i|]; cbn [sys_step]; [by exists bytes|..]; exists []; rewrite app_nil_r.
  - destruct (fw_connected (y_fw y)); [done|]. by destruct ok.
  - destruct (fw_connected (y_fw y)); [|done]. apply forward_iter_spool.
  - destruct (y_waiting y !! i) as [[seq evs]|]; [|done].
    destruct (server_gets y (delete i (y_waiting y)) (Batch seq evs)) as [reply y1] eqn:Eg.
    by apply server_gets_spec in Eg as (E1 & _).
  - done.
Qed.

Lemma sys_run_ok ops : forall y,
  sys_ok y -> short_lines (y_spool (sys_run y ops)) -> zlen (y_spool (sys_run y ops)) < 2 ^ 64 ->
  sys_ok (sys_run y ops).
Proof.
  induction ops as [|o ops IH] using rev_ind; intros y Hok; [done|]. rewrite sys_run_app.
  change (sys_run (sys_run y ops) [o]) with (sys_step (sys_run y ops) o). intros Hs Hlen.
  apply sys_step_ok; [|done..]. destruct (sys_step_spool (sys_run y ops) o) as (x & Hx). rewrite Hx in Hs, Hlen.
  apply IH; [done|by apply short_lines_app in Hs|]. rewrite length_app in Hlen. lia.
Qed.

Lemma sys_ok_new s : sys_ok (sys_new s).
Proof. constructor; try done; (split; [split; [cbn; lia|done]|apply sublist_nil_l]). Qed.

(** ** Catching up *)

Definition good_net : net :=
  {| n_sent := true; n_arrived := None; n_late := false; n_reply := None; n_in_time := true |}.

(** The complete lines behind the offset. *)
Definition behind (y : Sys) : nat :=
  List.length (removelast (split_all nl (drop (Z.to_nat (fw_offset (y_fw y))) (y_spool y)))).

Lemma behind_none y :
  delivered y (fw_offset (y_fw y)) -> behind y = O ->
  mine host (events_in (y_spool y)) `sublist_of` concat (y_log y).
Proof.
  intros [[Ho Ht] Hd] Hb. unfold behind in Hb. apply nil_length_inv in Hb.
  rewrite <- (take_drop (Z.to_nat (fw_offset (y_fw y))) (y_spool y)), events_closed by done.
  unfold events_in at 2. rewrite Hb. cbn. by rewrite app_nil_r.
Qed.

Lemma idle_caught_up y :
  delivered y (fw_offset (y_fw y)) -> read_batch (Some (y_spool y)) (fw_offset (y_fw y)) = RIdle ->
  behind y = O.
Proof.
  intros [[Ho Ht] _]. unfold read_batch, behind. set (o := fw_offset (y_fw y)) in *.
  destruct (Z.ltb_spec (zlen (y_spool y)) o); [done|].
  destruct (Z.eqb_spec (zlen (y_spool y)) o) as [Ez|Ez].
  { intros _. rewrite drop_ge by lia. done. }
  cbv zeta. set (want := Z.min _ _). set (chunk := take (Z.to_nat want) _).
  destruct (batch_lines BATCH_MAX_EVENTS chunk) as [ls k] eqn:E.
  destruct (batch_lines_spec _ _ _ _ E) as (-> & _ & _ & _ & Hnone).
  destruct (Z.eqb_spec (zlen (unlines ls)) 0) as [Hz|Hz]; [|done].
  destruct (Z.leb_spec BATCH_MAX_BYTES (zlen chunk)) as [?|Hsmall]; [done|]. intros _.
  destruct ls as [|l ls].
  2:{ cbn [unlines flat_map] in Hz. rewrite !length_app in Hz. cbn [List.length] in Hz. lia. }
  assert (chunk = drop (Z.to_nat o) (y_spool y)) as <-.
  { unfold chunk. apply take_ge. unfold chunk in Hsmall. rewrite length_take in Hsmall.
    rewrite length_drop in *. lia. }
  by rewrite split_all_single by (by apply Hnone).
Qed.

Lemma next_seq_fits q : fits 64 (next_seq_no q) = true.
Proof. apply fits_iff. unfold next_seq_no. by apply Z.mod_pos_bound. Qed.

Section Catching_up.
Context (handle_ok : forall s evs, exists s', handle s host evs = (Ok tt, s')).
Context (ack_fits : forall seq, fits 64 seq = true -> frame_fits (Ack seq)).

Lemma good_exchange y seq evs :
  fits 64 seq = true -> frame_fits (Batch seq evs) -> exists y', exchange y (Batch seq evs) good_net = (XReply (Ack seq), y').
Proof.
  intros Hq Hf. destruct (fits_writes _ Hf) as (b & Hb). unfold exchange. rewrite Hb. cbn [good_net n_arrived cut].
  pose proof (read_written _ _ [] Hb Hf) as Hr. rewrite app_nil_r in Hr. rewrite Hr. cbn [n_late].
  unfold server_gets, serve_batch. rewrite Hadmitted.
  destruct (fits_writes _ (ack_fits seq Hq)) as (ab & Hab).
  pose proof (read_written _ _ [] Hab (ack_fits seq Hq)) as Har. rewrite app_nil_r in Har.
  destruct (mine host evs) as [|e l]; [|destruct (handle_ok (y_server y) (e :: l)) as (s' & ->)];
    rewrite Hab; cbn [n_reply good_net cut]; rewrite Har; cbn; eauto.
Qed.

Lemma good_poll y written :
  sys_ok y -> short_lines (y_spool y) -> zlen (y_spool y) < 2 ^ 64 -> fw_connected (y_fw y) = true ->
  (forall seq evs, fits 64 seq = true -> spool_window (y_spool y) evs -> frame_fits (Batch seq evs)) ->
  let y' := sys_step y (OPoll false good_net written) in
  fw_connected (y_fw y') = true /\ (behind y' <= pred (behind y))%nat.
Proof.
  intros Hok Hs Hlen Hc Hfit. cbn [sys_step]. rewrite Hc. unfold forward_iter.
  pose proof (so_mem _ Hok) as Hm. destruct (read_batch (Some (y_spool y)) (fw_offset (y_fw y))) as [evs k| |] eqn:Eb.
  2:{ rewrite (idle_caught_up y Hm Eb). done. }
  2:{ exfalso. destruct Hm as [[Ho _] _]. unfold read_batch in Eb.
      rewrite (proj2 (Z.ltb_ge _ _)) in Eb by lia. destruct (_ =? _); [done|]. cbv zeta in Eb.
      destruct (batch_lines _ _) as [ls c]. destruct (c =? 0); [|done]. by destruct (_ <=? _). }
  destruct Hm as [Ha _].
  destruct (read_batch_spec _ _ _ _ Ha Hs Eb) as (Hk & Ha' & _ & ls & Hls & Hne & Hev & Hn & rest & Hdrop & Hkz).
  assert (forall y', y_spool y' = y_spool y -> fw_offset (y_fw y') = fw_offset (y_fw y) + k ->
    (behind y' <= pred (behind y))%nat) as Hless.
  { intros y' E1 E2. unfold behind. rewrite E1, E2. rewrite Z2Nat.inj_add by (destruct Ha; lia).
    rewrite <- drop_drop, Hdrop. subst k. rewrite Nat2Z.id, drop_app_length.
    rewrite split_all_unlines by done. rewrite removelast_app_ne by apply split_all_ne.
    rewrite length_app. destruct ls; [done|]. cbn [List.length]. lia. }
  pose proof (read_batch_window _ _ _ _ Ha Hs Eb) as Hwin.
  destruct evs as [|e0 evs0].
  { split; [done|]. by apply Hless. }
  specialize (Hfit (next_seq_no (fw_seq (y_fw y))) _ (next_seq_fits _) Hwin).
  destruct (good_exchange y _ _ (next_seq_fits _) Hfit) as (y1 & Ex). rewrite Ex.
  pose proof (exchange_spec y (next_seq_no (fw_seq (y_fw y))) (e0 :: evs0) good_net) as X. rewrite Ex in X.
  destruct X as (E1 & _). rewrite Z.eqb_refl. split; [done|]. by apply Hless.
Qed.

Lemma good_polls written m : forall y,
  sys_ok y -> short_lines (y_spool y) -> zlen (y_spool y) < 2 ^ 64 -> fw_connected (y_fw y) = true ->
  (forall seq evs, fits 64 seq = true -> spool_window (y_spool y) evs -> frame_fits (Batch seq evs)) ->
  (behind y <= m)%nat ->
  let y' := sys_run y (repeat (OPoll false good_net written) m) in
  sys_ok y' /\ behind y' = O /\ y_spool y' = y_spool y.
Proof.
  induction m as [|m IH]; intros y Hok Hs Hlen Hc Hfit Hb; cbn [repeat].
  { cbn. split_and!; [done|lia|done]. }
  set (y1 := sys_step y (OPoll false good_net written)).
  change (sys_run y (OPoll false good_net written :: repeat (OPoll false good_net written) m)) with
    (sys_run y1 (repeat (OPoll false good_net written) m)).
  assert (y_spool y1 = y_spool y) as Es.
  { subst y1. cbn [sys_step]. rewrite Hc. apply forward_iter_spool. }
  destruct (good_poll y written Hok Hs Hlen Hc Hfit) as [Hc1 Hb1]. fold y1 in Hc1, Hb1.
  assert (sys_ok y1) as Hok1 by (apply sys_step_ok; [done|by fold y1; rewrite Es..]).
  rewrite <- Es in *. apply IH; (done || lia).
Qed.

End Catching_up.

(** ** Theorems *)

(** C38. At-least-once delivery.  Let every line appended to the spool be shorter than the
    forwarder's 4 MiB read window, and the spool shorter than 2^64 bytes.  However
    connections, frames, replies and handlers fail or come late, whether the offset reaches
    the disk, and however often the agent restarts: every event of the certificate's host
    on a line before the forwarder's offset, in memory or on disk, has been processed by
    the server, in the order of the spool; and the server has processed nothing but events
    of that host that are in the spool.  (A longer line is passed over window by window:
    [oversized_line_tail_is_read].) *)
Theorem forwarder_at_least_once s ops :
  let y := sys_run (sys_new s) ops in
  short_lines (y_spool y) -> zlen (y_spool y) < 2 ^ 64 ->
  (forall o, o = fw_offset (y_fw y) \/ o = load_offset (y_offset_file y) ->
     0 <= o <= zlen (y_spool y) /\
     mine host (events_in (take (Z.to_nat o) (y_spool y))) `sublist_of` concat (y_log y)) /\
  Forall (fun e => event_belongs_to_host host e = true /\ e ∈ events_in (y_spool y)) (concat (y_log y)).
Proof.
  intros y Hs Hlen. destruct (sys_run_ok ops _ (sys_ok_new s) Hs Hlen) as [[[? _] ?] [[? _] ?] Hl _].
  split; [|done]. by intros o [->| ->].
Qed.

(** C39. Eventual delivery.  From any state the system can reach with lines shorter than
    the read window, once the forwarder connects, the exchanges go through, the handler
    succeeds on what it is given and the batches read from the spool (at most 500
    consecutive lines within 4 MiB) fit a frame, as many polls as there are lines deliver
    every event of the certificate's host: nothing in the past can wedge it. *)
Theorem forwarder_catches_up s ops written m :
  let y := sys_run (sys_new s) ops in
  short_lines (y_spool y) -> zlen (y_spool y) < 2 ^ 64 ->
  (forall s evs, exists s', handle s host evs = (Ok tt, s')) ->
  (forall seq, fits 64 seq = true -> frame_fits (Ack seq)) ->
  (forall seq evs, fits 64 seq = true -> spool_window (y_spool y) evs -> frame_fits (Batch seq evs)) ->
  (List.length (split_all nl (y_spool y)) <= m)%nat ->
  mine host (events_in (y_spool y)) `sublist_of`
    concat (y_log (sys_run y (OConnect true :: repeat (OPoll false good_net written) m))).
Proof.
  intros y Hs Hlen Hh Hack Hfit Hm. pose proof (sys_run_ok ops _ (sys_ok_new s) Hs Hlen) as Hok. fold y in Hok.
  set (y1 := sys_step y (OConnect true)).
  assert (y_spool y1 = y_spool y /\ fw_connected (y_fw y1) = true /\ y_log y1 = y_log y) as (E1 & E2 & E3).
  { subst y1. cbn [sys_step]. destruct (fw_connected (y_fw y)) eqn:Ec; done. }
  assert (sys_ok y1) as Hok1 by (apply sys_step_ok; [done|by fold y1; rewrite E1..]).
  change (sys_run y (OConnect true :: ?l)) with (sys_run y1 l). rewrite <- E1 in *.
  destruct (good_polls Hh Hack written m y1 Hok1 Hs Hlen E2 Hfit) as (Hok2 & Hb & Es).
  { etransitivity; [|exact Hm]. unfold behind.
    rewrite <- (take_drop (Z.to_nat (fw_offset (y_fw y1))) (y_spool y1)) at 2.
    destruct (so_mem _ Hok1) as [[_ Ht] _]. rewrite split_all_closed by done. rewrite length_app.
    set (l := split_all nl (drop _ _)). rewrite (app_removelast_last [] (split_all_ne _ : l <> [])) at 2.
    rewrite length_app. lia. }
  rewrite <- Es. apply behind_none; [apply Hok2|done].
Qed.

End Forwarder.

(** ** [IpCounter]: connections per peer address *)

Section IpCounter.
Context {K : Type} `{Countable K}.

Definition ip_acquire (m : gmap K Z) (ip : K) (max : Z) : bool * gmap K Z :=
  let n := default 0 (m !! ip) in
  if max <=? n then (false, <[ip := n]> m) else (true, <[ip := n + 1]> m).

(** Dropping the guard of one connection. *)
Definition ip_release (m : gmap K Z) (ip : K) : gmap K Z :=
  match m !! ip with
  | Some n => if n - 1 =? 0 then delete ip m else <[ip := n - 1]> m
  | None => m
  end.

(** Connections come (and are admitted or not) and go; [held] are the guards alive. *)
Inductive ip_step (max : Z) : gmap K Z * list K -> gmap K Z * list K -> Prop :=
| ip_comes m held ip m' :
    ip_acquire m ip max = (true, m') -> ip_step max (m, held) (m', ip :: held)
| ip_refused m held ip m' :
    ip_acquire m ip max = (false, m') -> ip_step max (m, held) (m', held)
| ip_goes m a ip b :
    ip_step max (m, a ++ ip :: b) (ip_release m ip, a ++ b).

Definition alive (ip : K) (held : list K) : Z :=
  zlen (List.filter (fun x => bool_decide (x = ip)) held).

Definition ip_ok (max : Z) (s : gmap K Z * list K) : Prop :=
  forall ip, default 0 (s.1 !! ip) = alive ip s.2 /\ alive ip s.2 <= max.

Lemma alive_cons (ip x : K) (held : list K) :
  alive ip (x :: held) = alive ip held + (if decide (x = ip) then 1 else 0).
Proof.
  unfold alive. cbn [List.filter]. destruct (decide (x = ip)) as [->|Hx].
  - rewrite bool_decide_eq_true_2 by done. cbn [List.length]. lia.
  - rewrite bool_decide_eq_false_2 by done. lia.
Qed.

Lemma alive_middle (ip x : K) (a b : list K) :
  alive ip (a ++ x :: b) = alive ip (a ++ b) + (if decide (x = ip) then 1 else 0).
Proof.
  pose proof (alive_cons ip x b) as E. unfold alive in *. rewrite !List.filter_app, !length_app. lia.
Qed.

(** The counter is the number of connections of each address, never above the limit. *)
Lemma ip_counter_bounded max s :
  0 <= max -> rtc (ip_step max) (∅, []) s -> ip_ok max s.
Proof.
  intros Hmax. remember (∅, []) as s0 eqn:E0. intros Hr. assert (ip_ok max s0) as H0.
  { subst s0. intros ip. unfold alive. cbn. rewrite lookup_empty. cbn. lia. }
  clear E0. induction Hr as [|s1 s2 s3 Hs _ IH]; [done|]. apply IH. clear IH s3.
  destruct Hs as [m held ip m' E|m held ip m' E|m a ip b]; intros ip'; specialize (H0 ip') as [E1 E2];
    cbn [fst snd] in *.
  - unfold ip_acquire in E. destruct (Z.leb_spec max (default 0 (m !! ip))); simplify_eq.
    rewrite alive_cons. destruct (decide (ip = ip')) as [->|Hn].
    + rewrite lookup_insert_eq. cbn [from_option id]. lia.
    + rewrite lookup_insert_ne by done. lia.
  - unfold ip_acquire in E. destruct (Z.leb_spec max (default 0 (m !! ip))); simplify_eq.
    destruct (decide (ip = ip')) as [->|Hn].
    + rewrite lookup_insert_eq. cbn [from_option id]. lia.
    + rewrite lookup_insert_ne by done. lia.
  - rewrite alive_middle in E1, E2. unfold ip_release. destruct (decide (ip = ip')) as [->|Hn].
    + assert (0 <= alive ip' (a ++ b)) by (unfold alive; lia).
      destruct (m !! ip') as [n|] eqn:El; cbn [from_option id] in E1; [|lia].
      destruct (Z.eqb_spec (n - 1) 0).
      * rewrite lookup_delete_eq. cbn [from_option id]. lia.
      * rewrite lookup_insert_eq. cbn [from_option id]. lia.
    + assert (forall v, default 0 ((<[ip := v]> m) !! ip') = default 0 (m !! ip')) as Hi
        by (intros; by rewrite lookup_insert_ne).
      destruct (m !! ip) as [n|]; [|lia]. destruct (n - 1 =? 0); [|rewrite Hi; lia].
      rewrite lookup_delete_ne by done. lia.
Qed.

End IpCounter.

(** ** Examples *)

(** A connection without compression, and messages as fixed-width numbers. *)
Definition plain_zstd : Zstd.
Proof. refine {| zstd_compress := Some; zstd_decode c := Some (c, true) |}. naive_solver. Defined.

Definition line_event (id : Z) : @CanonicalEvent tjson_lib :=
  sample_event id id FileCreate None "t" (TNull : @json tjson_lib).

(** The number of an event that is a [line_event]. *)
Definition line_id (e : @CanonicalEvent tjson_lib) : option Z :=
  match ev_user e, ev_session e, ev_process e, ev_parent_process e, ev_thread e, ev_file e,
        ev_network e, ev_dns e, ev_device e, ev_service e, ev_container e, ev_namespace e,
        ev_cgroup e, ev_kernel e, raw_event e, relationships e, tags e, ev_risk e,
        (event_data e : tjson), host_cloud (ev_host e), ev_source e with
  | None, None, None, None, None, None, None, None, None, None, None, None, None, None, None, [], [],
    None, TNull, None, SEbpf =>
      if bool_decide (schema_version e = "1" /\ ev_host_id e = 7 /\ boot_id e = "b" /\
           ev_timestamp e = event_id e /\ monotonic_timestamp e = event_id e /\
           event_type e = FileCreate /\ ev_category e = category FileCreate /\ ev_severity e = Info /\
           provider e = "t" /\ host_ref_id (ev_host e) = 7 /\ hostname (ev_host e) = "h" /\
           distro (ev_host e) = "d" /\ kernel_version (ev_host e) = "k" /\ fits 64 (event_id e) = true)
      then Some (event_id e) else None
  | _, _, _, _, _, _, _, _, _, _, _, _, _, _, _, _, _, _, _, _, _ => None
  end.

Lemma line_id_some e id : line_id e = Some id -> e = line_event id /\ fits 64 id = true.
Proof.
  unfold line_id. repeat case_match; try done. intros [= <-].
  match goal with H : bool_decide _ = true |- _ => apply bool_decide_eq_true in H end.
  destruct_and!. split; [|done]. destruct e as [? ? ? ? ? ? ? ? ? [] ]. simpl in *. by subst.
Qed.

Fixpoint decode_ids (fuel : nat) (b : list byte) : list (@CanonicalEvent tjson_lib) :=
  match fuel, b with
  | S fuel, _ :: _ => line_event (of_be (take 8 b)) :: decode_ids fuel (drop 8 b)
  | _, _ => []
  end.

Definition encode_ids (ids : list Z) : list byte := flat_map (be_bytes 8) ids.

Lemma decode_encode ids fuel :
  Forall (fun i => fits 64 i = true) ids -> (List.length (encode_ids ids) <= fuel)%nat ->
  decode_ids fuel (encode_ids ids) = map line_event ids.
Proof.
  intros Hf. revert fuel. induction Hf as [|i ids Hi Hf IH]; intros fuel Hl; [by destruct fuel|].
  cbn [encode_ids flat_map] in *. fold (encode_ids ids) in *. rewrite length_app, length_be_bytes in Hl.
  destruct fuel as [|fuel]; [lia|]. cbn [decode_ids map].
  destruct (be_bytes 8 i ++ encode_ids ids) as [|b l] eqn:E.
  { apply (f_equal (@List.length _)) in E. rewrite length_app, length_be_bytes in E. simpl in E. lia. }
  rewrite <- E, take_app_length' by (by rewrite length_be_bytes). rewrite drop_app_length' by (by rewrite length_be_bytes).
  rewrite of_be_bytes_small by done. f_equal. apply IH. lia.
Qed.

Definition ids_of_events (evs : list (@CanonicalEvent tjson_lib)) : option (list Z) := mapM line_id evs.

Lemma ids_of_events_some evs ids :
  ids_of_events evs = Some ids -> evs = map line_event ids /\ Forall (fun i => fits 64 i = true) ids.
Proof.
  intros H%mapM_Some. induction H as [|e i evs ids He _ IH]; [done|].
  apply line_id_some in He as [-> Hi]. destruct IH as [-> Hf]. split; [done|by constructor].
Qed.

Definition client_serde : Serde (@ClientMsg tjson_lib).
Proof.
  refine {| to_vec m := let '(Batch seq evs) := m in
                        if fits 64 seq then ids ← ids_of_events evs; Some (be_bytes 8 seq ++ encode_ids ids)
                        else None;
            from_slice b := Some (Batch (of_be (take 8 b)) (decode_ids (List.length b) (drop 8 b))) |}.
  intros [seq evs] j. destruct (fits 64 seq) eqn:Hq; [|done].
  destruct (ids_of_events evs) as [ids|] eqn:E; [|done]. apply ids_of_events_some in E as [-> Hf].
  intros Ej. assert (j = be_bytes 8 seq ++ encode_ids ids) as -> by (by injection Ej). rewrite take_app_length' by (by rewrite length_be_bytes).
  rewrite drop_app_length' by (by rewrite length_be_bytes). rewrite of_be_bytes_small by done.
  by rewrite decode_encode by (rewrite ?length_app; try done; lia).
Defined.

Definition server_serde : Serde ServerMsg.
Proof.
  refine {| to_vec m := match m with
                        | Ack seq => if fits 64 seq then Some (Byte.x00 :: be_bytes 8 seq) else None
                        | Nack seq reason false =>
                            if fits 64 seq then Some (Byte.x01 :: be_bytes 8 seq ++ bytes_of reason) else None
                        | _ => None
                        end;
            from_slice b := match b with
                            | Byte.x00 :: b => Some (Ack (of_be b))
                            | _ :: b => Some (Nack (of_be (take 8 b)) (of_bytes (drop 8 b)) false)
                            | [] => None
                            end |}.
  intros [seq|seq reason []] j; [| |]; try done; destruct (fits 64 seq) eqn:Hq; try done; intros Ej.
  - assert (j = Byte.x00 :: be_bytes 8 seq) as -> by (by injection Ej). by rewrite of_be_bytes_small.
  - assert (j = Byte.x01 :: be_bytes 8 seq ++ bytes_of reason) as -> by (by injection Ej).
    rewrite take_app_length' by (by rewrite length_be_bytes). rewrite drop_app_length' by (by rewrite length_be_bytes).
    rewrite of_be_bytes_small by done. by rewrite of_bytes_bytes_of.
Defined.

(** A line is the decimal number of its event; the handler counts what it gets. *)
Definition line_from (b : list byte) : option (@CanonicalEvent tjson_lib) :=
  option_map line_event (parse_uint_bytes 64 b).

Definition counting (n : Z) (_ : Uuid) (evs : list (@CanonicalEvent tjson_lib)) : outcome string unit * Z :=
  (Ok tt, n + zlen evs).

#[local] Existing Instance plain_zstd.
#[local] Existing Instance client_serde.
#[local] Existing Instance server_serde.
#[local] Existing Instance concrete_uuid.

Definition sample_cert : list GeneralName := [OtherName; URI (HOST_URI_PREFIX +:+ uuid_display 7)].

(** The reply to a batch comes too late; the agent is restarted before it can store the
    offset of the next one; then all goes well. *)
Definition too_late : net :=
  {| n_sent := true; n_arrived := None; n_late := false; n_reply := None; n_in_time := false |}.

Definition rough_ops : list sys_op :=
  [OAppend (bytes_of "1" ++ [nl] ++ bytes_of "x" ++ [nl] ++ bytes_of "2"); OConnect true;
   OPoll false too_late true; OAppend ([nl] ++ bytes_of "3" ++ [nl]); OConnect true;
   OPoll false good_net false; ORestart; OConnect true; OPoll false good_net true].

Abbreviation rough_run := (sys_run line_from counting sample_cert [] (sys_new 0) rough_ops).

Example rough_run_resends :
  map (map event_id) (y_log rough_run) = [[1]; [1; 2; 3]; [1; 2; 3]] /\
  fw_offset (y_fw rough_run) = 8 /\ y_server rough_run = 7.
Proof. vm_compute. done. Qed.

Lemma sample_admitted : admitted_host sample_cert [] = Some 7.
Proof. vm_compute. reflexivity. Qed.

Lemma rough_short : short_lines (y_spool rough_run).
Proof.
  assert (forallb (fun l => zlen l <? BATCH_MAX_BYTES) (split_all nl (y_spool rough_run)) = true) as H
    by (vm_compute; reflexivity).
  apply forallb_Forall in H. eapply Forall_impl; [exact H|]. intros l Hl. by apply Z.ltb_lt.
Qed.

Lemma forwarder_at_least_once_witness :
  map event_id (List.filter (event_belongs_to_host 7)
    (events_in line_from (take (Z.to_nat (fw_offset (y_fw rough_run))) (y_spool rough_run)))) = [1; 2; 3] /\
  List.filter (event_belongs_to_host 7)
    (events_in line_from (take (Z.to_nat (fw_offset (y_fw rough_run))) (y_spool rough_run)))
    `sublist_of` concat (y_log rough_run).
Proof.
  split; [vm_compute; reflexivity|].
  apply (forwarder_at_least_once line_from counting sample_cert [] 7 sample_admitted 0 rough_ops rough_short);
    [vm_compute; reflexivity|exact (or_introl eq_refl)].
Defined.

Lemma digits_val_nonneg l : forall acc v, 0 <= acc -> digits_val l acc = Some v -> 0 <= v.
Proof.
  induction l as [|b l IH]; intros acc v Ha H; cbn [digits_val] in H; [by simplify_eq|].
  destruct (digit_val b) as [d|] eqn:E; [|done]. apply IH in H; [done|].
  unfold digit_val in E. case_match; simplify_eq. lia.
Qed.

Lemma line_from_id b e : line_from b = Some e -> is_Some (line_id e).
Proof.
  unfold line_from. destruct (parse_uint_bytes 64 b) as [i|] eqn:E; [|done]. intros [= <-].
  unfold line_id. cbn. rewrite bool_decide_eq_true_2; [by eexists|]. split_and!; try done.
  unfold parse_uint_bytes in E. cbv zeta in E. repeat case_match; simplify_eq; apply fits_iff;
    (split; [by eapply digits_val_nonneg|lia]).
Qed.

Lemma batch_fits spool seq evs :
  fits 64 seq = true -> spool_window line_from spool evs -> frame_fits (Batch seq evs).
Proof.
  intros Hq (a & ls & rest & _ & _ & Hlines & _ & Hev).
  assert (List.length evs <= BATCH_MAX_EVENTS)%nat as Hn.
  { subst evs. etransitivity; [apply parse_lines_length|exact Hlines]. }
  assert (exists ids, ids_of_events evs = Some ids) as (ids & Hi).
  { apply mapM_is_Some. subst evs. apply Forall_forall. intros e He.
    unfold parse_lines in He. apply list_elem_of_omap in He as (l & _ & Hl). by eapply line_from_id. }
  pose proof Hi as [_ Hf]%ids_of_events_some. pose proof (length_mapM _ _ _ Hi) as Hl.
  assert (List.length (encode_ids ids) = 8 * List.length ids)%nat as Hle.
  { clear. induction ids as [|i ids IH]; [done|]. cbn [encode_ids flat_map]. rewrite length_app, length_be_bytes.
    fold (encode_ids ids). rewrite IH. cbn [List.length]. lia. }
  exists (be_bytes 8 seq ++ encode_ids ids), (be_bytes 8 seq ++ encode_ids ids).
  cbn [to_vec client_serde zstd_compress plain_zstd]. rewrite Hq, Hi. rewrite length_app, length_be_bytes, Hle, <- Hl.
  unfold BATCH_MAX_EVENTS, MAX_FRAME_LEN, MAX_DECOMPRESSED_LEN in *. split_and!; (done || lia).
Qed.

Lemma ack_fits seq : fits 64 seq = true -> frame_fits (Ack seq).
Proof.
  intros Hq. exists (Byte.x00 :: be_bytes 8 seq), (Byte.x00 :: be_bytes 8 seq).
  cbn [to_vec server_serde zstd_compress plain_zstd]. rewrite Hq. cbn [List.length]. rewrite length_be_bytes.
  unfold MAX_FRAME_LEN, MAX_DECOMPRESSED_LEN. split_and!; (done || lia).
Qed.

Abbreviation cut_run := (sys_run line_from counting sample_cert [] (sys_new 0) (take 6 rough_ops)).

Lemma cut_short : short_lines (y_spool cut_run).
Proof.
  assert (forallb (fun l => zlen l <? BATCH_MAX_BYTES) (split_all nl (y_spool cut_run)) = true) as H
    by (vm_compute; reflexivity).
  apply forallb_Forall in H. eapply Forall_impl; [exact H|]. intros l Hl. by apply Z.ltb_lt.
Qed.

Lemma forwarder_catches_up_witness :
  List.filter (event_belongs_to_host 7) (events_in line_from (y_spool cut_run)) `sublist_of`
    concat (y_log (sys_run line_from counting sample_cert [] cut_run
      (OConnect true :: repeat (OPoll false good_net true) 5))).
Proof.
  apply (forwarder_catches_up line_from counting sample_cert [] 7 sample_admitted 0 (take 6 rough_ops) true 5).
  - exact cut_short.
  - vm_compute. reflexivity.
  - intros s evs. exists (s + zlen evs). reflexivity.
  - exact ack_fits.
  - exact (batch_fits (y_spool cut_run)).
  - apply Nat.leb_le. vm_compute. reflexivity.
Defined.
