(* ===== verification/Sql.v ===== *)
(** * What the storage back end uses of SQLite

    A table is the list of its rows, in the order of insertion.  Statements may fail; a
    transaction that fails anywhere, its commit included, leaves the tables as they were.
    [SELECT .. ORDER BY .. LIMIT] filters, orders and cuts; the order of rows that the
    [ORDER BY] does not tell apart is the engine's choice. *)

From S2P Require Import Prelude BTree.

(** ** Ordering and comparing *)

Class Sqlite := {
  order_by : forall {R : Type}, (R -> R -> bool) -> list R -> list R;
  order_by_perm {R} (le : R -> R -> bool) l : order_by le l ≡ₚ l;
  order_by_sorted {R} (le : R -> R -> bool) l :
    (forall x y z, le x y = true -> le y z = true -> le x z = true) ->
    (forall x y, le x y = true \/ le y x = true) ->
    StronglySorted (fun x y => le x y = true) (order_by le l);
  (** Numeric affinity applied to a text parameter: the integer it denotes, if any. *)
  sql_numeric : string -> option Z;
  sql_numeric_dec n : 0 <= n < 2 ^ 63 -> sql_numeric (dec_string n) = Some n;
}.

(** Where the order tells the rows apart, the result is determined. *)
Lemma order_by_unique `{Sqlite} {R} (le : R -> R -> bool) l1 l2 :
  (forall x y z, le x y = true -> le y z = true -> le x z = true) ->
  (forall x y, le x y = true \/ le y x = true) ->
  (forall x y, x ∈ l1 -> y ∈ l1 -> le x y = true -> le y x = true -> x = y) ->
  l1 ≡ₚ l2 -> order_by le l1 = order_by le l2.
Proof.
  intros Ht Htot Hanti Hp.
  eapply (StronglySorted_unique_strong (fun x y => le x y = true)); try by apply order_by_sorted.
  - intros x y Hx Hy. rewrite order_by_perm in Hx. rewrite order_by_perm, <- Hp in Hy. auto.
  - by rewrite !order_by_perm.
Qed.

(** [LIMIT ?]: a negative limit is none. *)
Definition sql_limit {R} (n : Z) (l : list R) : list R :=
  if n <? 0 then l else take (Z.to_nat n) l.

(** A bound parameter. *)
Inductive SqlValue := SText (s : string) | SInt (n : Z).

(** Text of a stored integer. *)
Definition sql_text (n : Z) : string :=
  if n <? 0 then "-" +:+ dec_string (- n) else dec_string n.

(** [column = ?] for a TEXT column: text affinity is applied to an integer parameter.
    NULL compares to nothing. *)
Definition text_eq (c : option string) (v : SqlValue) : bool :=
  match c, v with
  | Some s, SText t => String.eqb s t
  | Some s, SInt n => String.eqb s (sql_text n)
  | None, _ => false
  end.

(** [column = ?] for an INTEGER column: numeric affinity is applied to a text parameter. *)
Definition int_eq `{Sqlite} (c : option Z) (v : SqlValue) : bool :=
  match c, v with
  | Some a, SInt n => a =? n
  | Some a, SText t => match sql_numeric t with Some n => a =? n | None => false end
  | None, _ => false
  end.

(** [z as u64] of a stored integer. *)
Definition as_u64 (z : Z) : Z := z mod 2 ^ 64.

(** Collecting rows into values, an error ending the call. *)
Fixpoint collect {E A B} (f : A -> outcome E B) (l : list A) : outcome E (list B) :=
  match l with
  | [] => Ok []
  | x :: l => let? y := f x in let? ys := collect f l in Ok (y :: ys)
  end.

Lemma collect_elem {E A B} (f : A -> outcome E B) l ys y :
  collect f l = Ok ys -> y ∈ ys -> exists x, x ∈ l /\ f x = Ok y.
Proof.
  revert ys. induction l as [|x l IH]; cbn; intros ys Ec Hy.
  - injection Ec as <-. by apply not_elem_of_nil in Hy.
  - destruct (f x) as [z| |] eqn:Ef; cbn in Ec; try done.
    destruct (collect f l) as [zs| |] eqn:El; cbn in Ec; try done. injection Ec as <-.
    apply elem_of_cons in Hy as [->|Hy]; [exists x; split; [by left|done]|].
    destruct (IH zs eq_refl Hy) as (x' & Hx & Ex). exists x'. split; [by right|done].
Qed.

(** Where every row reads, the values come in the order of the rows. *)
Lemma collect_map {E A B} (f : A -> outcome E B) (g : A -> B) l :
  Forall (fun x => f x = Ok (g x)) l -> collect f l = Ok (map g l).
Proof. induction 1 as [|x l Hx _ IH]; cbn; [done|]. by rewrite Hx, IH. Qed.

Lemma collect_total {E A B} (f : A -> outcome E B) l :
  Forall (fun x => exists y, f x = Ok y) l ->
  exists ys, collect f l = Ok ys /\ Forall2 (fun x y => f x = Ok y) l ys.
Proof.
  induction 1 as [|x l (y & Ey) _ (ys & Es & Hys)]; cbn; [by exists []|].
  rewrite Ey. cbn. rewrite Es. cbn. eauto.
Qed.

Lemma collect_perm {E A B} (f : A -> outcome E B) l m ys :
  collect f l = Ok ys -> l ≡ₚ m -> exists zs, collect f m = Ok zs /\ ys ≡ₚ zs.
Proof.
  intros Hc Hp. revert ys Hc. induction Hp as [|x l m _ IH|x y l|l m n _ IH1 _ IH2]; cbn; intros ys Hc.
  - injection Hc as <-. by exists [].
  - destruct (f x) as [z| |]; cbn in *; try done. destruct (collect f l) as [zs| |]; cbn in *; try done.
    injection Hc as <-. destruct (IH zs eq_refl) as (zs' & -> & Hz). cbn. eexists. split; [done|by constructor].
  - destruct (f y) as [b| |], (f x) as [a| |]; cbn in *; try done.
    destruct (collect f l) as [zs| |]; cbn in *; try done. injection Hc as <-.
    eexists. split; [done|apply perm_swap].
  - destruct (IH1 ys Hc) as (zs & Hz & Hyz). destruct (IH2 zs Hz) as (ws & Hw & Hzw).
    exists ws. split; [done|by etrans].
Qed.

(** ** Transactions *)

Inductive StorageError :=
| Backend (message : string)
| Serialize.

Definition sql_error : StorageError := Backend "sqlite".

Section Tx.
(** The tables, and which statement fails. *)
Context {T : Type} (io : nat -> bool).

(** The body of a transaction: counts its statements and changes the tables. *)
Definition tx (A : Type) : Type := nat -> T -> outcome StorageError (A * nat * T).

Definition tx_ret {A} (a : A) : tx A := fun n t => Ok (a, n, t).

Definition tx_bind {A B} (m : tx A) (k : A -> tx B) : tx B :=
  fun n t => match m n t with
             | Ok (a, n, t) => k a n t
             | Err e => Err e
             | Panic => Panic
             end.

(** [x.map_err(..)?] on something that is not a statement. *)
Definition tx_try {A} (o : option A) (e : StorageError) : tx A :=
  fun n t => match o with Some a => Ok (a, n, t) | None => Err e end.

(** [tx.execute(..)?]: the number of changed rows. *)
Definition execute (f : T -> Z * T) : tx Z :=
  fun n t => if io n then Err sql_error else Ok ((f t).1, S n, (f t).2).

(** [for x in l { .. }] over an accumulator. *)
Fixpoint tx_each {X R} (body : R -> X -> tx R) (r : R) (l : list X) : tx R :=
  match l with
  | [] => tx_ret r
  | x :: l => tx_bind (body r x) (fun r => tx_each body r l)
  end.

(** [conn.transaction()?; body; tx.commit()?]: dropping an uncommitted transaction rolls
    it back. *)
Definition transaction {A} (body : tx A) (t : T) : outcome StorageError A * T :=
  if io 0%nat then (Err sql_error, t)
  else match body 1%nat t with
       | Ok (a, n, t') => if io n then (Err sql_error, t) else (Ok a, t')
       | Err e => (Err e, t)
       | Panic => (Panic, t)
       end.

(** A Hoare triple: from [P] the body never panics and, where it succeeds, gives [Q]. *)
Definition triple {A} (P : T -> Prop) (m : tx A) (Q : A -> T -> Prop) : Prop :=
  forall n t, P t -> match m n t with
                     | Ok (a, _, t') => Q a t'
                     | Err _ => True
                     | Panic => False
                     end.

Lemma triple_ret {A} (a : A) (P : T -> Prop) (Q : A -> T -> Prop) :
  (forall t, P t -> Q a t) -> triple P (tx_ret a) Q.
Proof. intros Hq n t Hp. by apply Hq. Qed.

Lemma triple_bind {A B} (m : tx A) (k : A -> tx B) P Q R :
  triple P m Q -> (forall a, triple (Q a) (k a) R) -> triple P (tx_bind m k) R.
Proof.
  intros Hm Hk n t Hp. unfold tx_bind. specialize (Hm n t Hp).
  destruct (m n t) as [[[a n'] t']| |]; [|done..]. by apply Hk.
Qed.

Lemma triple_try {A} (o : option A) e (P : T -> Prop) (Q : A -> T -> Prop) :
  (forall a t, o = Some a -> P t -> Q a t) -> triple P (tx_try o e) Q.
Proof. intros Hq n t Hp. unfold tx_try. destruct o as [a|]; [by apply Hq|done]. Qed.

Lemma triple_execute f (P : T -> Prop) (Q : Z -> T -> Prop) :
  (forall t, P t -> Q (f t).1 (f t).2) -> triple P (execute f) Q.
Proof. intros Hq n t Hp. unfold execute. destruct (io n); [done|]. by apply Hq. Qed.

(** A statement whose count is not used. *)
Lemma triple_statement {A} f (a : A) (P Q : T -> Prop) :
  (forall t, P t -> Q (f t).2) ->
  triple P (tx_bind (execute f) (fun _ => tx_ret a)) (fun _ => Q).
Proof.
  intros Hq. apply triple_bind with (fun _ => Q); [by apply triple_execute|].
  intros k. by apply triple_ret.
Qed.

(** From one known state. *)
Lemma triple_eq {A} (m : tx A) t Q n : triple (eq t) m Q ->
  match m n t with Ok (a, _, t') => Q a t' | Err _ => True | Panic => False end.
Proof. intros Hm. by apply Hm. Qed.

(** A loop keeps an invariant indexed by what it has done so far. *)
Lemma triple_each {X R} (body : R -> X -> tx R) (I : list X -> R -> T -> Prop) l :
  (forall before x after r, l = before ++ x :: after ->
     triple (I before r) (body r x) (I (before ++ [x]))) ->
  forall r, triple (I [] r) (tx_each body r l) (I l).
Proof.
  intros Hb. cut (forall after before, l = before ++ after ->
    forall r, triple (I before r) (tx_each body r after) (I l)).
  { intros Hc r. by apply (Hc l []). }
  induction after as [|x after IH]; intros before E r; cbn [tx_each].
  - apply triple_ret. intros t. by rewrite E, app_nil_r.
  - eapply triple_bind; [by eapply Hb|]. intros r'. apply IH. by rewrite <- app_assoc.
Qed.

Lemma triple_each_inv {X R} (body : R -> X -> tx R) (I : T -> Prop) l :
  Forall (fun x => forall r, triple I (body r x) (fun _ => I)) l ->
  forall r, triple I (tx_each body r l) (fun _ => I).
Proof.
  intros Hb r. apply (triple_each body (fun _ _ => I)). intros before x after r' E.
  rewrite Forall_forall in Hb. apply Hb. rewrite E. apply elem_of_app. right. by left.
Qed.

Lemma triple_weaken {A} (m : tx A) (P P' : T -> Prop) (Q Q' : A -> T -> Prop) :
  triple P m Q -> (forall t, P' t -> P t) -> (forall a t, Q a t -> Q' a t) -> triple P' m Q'.
Proof.
  intros Hm Hp Hq n t Ht. specialize (Hm n t (Hp _ Ht)).
  destruct (m n t) as [[[a ?] t']| |]; auto.
Qed.

(** All or nothing: a transaction establishes its postcondition or changes nothing. *)
Lemma transaction_atomic {A} (body : tx A) (P : T -> Prop) (Q : A -> T -> Prop) t :
  triple P body Q -> P t ->
  match transaction body t with
  | (Ok a, t') => Q a t'
  | (Err _, t') => t' = t
  | (Panic, _) => False
  end.
Proof.
  intros Hb Hp. unfold transaction. destruct (io 0%nat); [done|]. specialize (Hb 1%nat t Hp).
  destruct (body 1%nat t) as [[[a n] t']| |]; [|done..]. by destruct (io n).
Qed.

(** A body that needs no failing statement and no [Err] completes. *)
Definition completes {A} (m : tx A) : Prop :=
  forall n t, (forall k, io k = false) -> exists r, m n t = Ok r.

Lemma completes_ret {A} (a : A) : completes (tx_ret a).
Proof. intros n t _. by eexists. Qed.

Lemma completes_bind {A B} (m : tx A) (k : A -> tx B) :
  completes m -> (forall a, completes (k a)) -> completes (tx_bind m k).
Proof.
  intros Hm Hk n t Hio. unfold tx_bind. destruct (Hm n t Hio) as [[[a n'] t'] ->]. by apply Hk.
Qed.

Lemma completes_try {A} (o : option A) e : is_Some o -> completes (tx_try o e).
Proof. intros [a ->] n t _. by eexists. Qed.

Lemma completes_execute f : completes (execute f).
Proof. intros n t Hio. unfold execute. rewrite Hio. by eexists. Qed.

Lemma completes_each {X R} (body : R -> X -> tx R) l :
  Forall (fun x => forall r, completes (body r x)) l -> forall r, completes (tx_each body r l).
Proof.
  induction 1 as [|x l Hx _ IH]; intros r; cbn [tx_each]; [apply completes_ret|].
  apply completes_bind; auto.
Qed.

Lemma transaction_completes {A} (body : tx A) t :
  completes body -> (forall k, io k = false) ->
  exists a t', transaction body t = (Ok a, t').
Proof.
  intros Hb Hio. unfold transaction. rewrite Hio. destruct (Hb 1%nat t Hio) as [[[a n] t'] ->].
  rewrite Hio. by eexists _, _.
Qed.

End Tx.
Arguments tx T A : clear implicits.

Create HintDb tx discriminated.
#[export] Hint Resolve completes_ret completes_bind completes_try completes_execute : tx.

Declare Scope tx_scope.
Delimit Scope tx_scope with tx.
Notation "'do?' x '<-' m 'in' k" := (tx_bind m (fun x => k))
  (at level 10, x pattern, m at level 100, k at level 200, only parsing) : tx_scope.
Open Scope tx_scope.

(** ** [INSERT OR IGNORE] on a table with a unique key *)

Section Insert.
Context {R K : Type} `{EqDecision K} (key : R -> K).

Definition has_key (k : K) (t : list R) : bool := existsb (fun r => bool_decide (key r = k)) t.

(** The number of inserted rows, and the table. *)
Definition insert_or_ignore (r : R) (t : list R) : Z * list R :=
  if has_key (key r) t then (0, t) else (1, t ++ [r]).

(** [SELECT .. WHERE key = ?] on a unique key. *)
Definition row_of (k : K) (t : list R) : option R := List.find (fun r => bool_decide (key r = k)) t.

Lemma has_key_spec k t : has_key k t = true <-> k ∈ map key t.
Proof.
  unfold has_key. rewrite existsb_exists, list_elem_of_In, in_map_iff.
  split; intros (r & A & B); exists r; split; try done; by apply bool_decide_eq_true in B
    || by apply bool_decide_eq_true_2.
Qed.

Lemma row_of_none k t : row_of k t = None <-> k ∉ map key t.
Proof.
  rewrite <- has_key_spec. unfold row_of, has_key.
  induction t as [|r t IH]; cbn; [done|]. destruct (bool_decide (key r = k)); naive_solver.
Qed.

Lemma row_of_some k t r : row_of k t = Some r -> r ∈ t /\ key r = k.
Proof.
  intros [Hin Hk]%List.find_some. by rewrite list_elem_of_In, <- (bool_decide_eq_true (key r = k)).
Qed.

Lemma row_of_app k t u :
  row_of k (t ++ u) = match row_of k t with Some r => Some r | None => row_of k u end.
Proof. unfold row_of. induction t as [|r t IH]; cbn; [done|]. by destruct (bool_decide _). Qed.

(** First writer wins. *)
Lemma row_of_insert k r t :
  row_of k (insert_or_ignore r t).2
  = match row_of k t with Some r' => Some r' | None => row_of k [r] end.
Proof.
  unfold insert_or_ignore. destruct (has_key (key r) t) eqn:E; cbn [snd]; [|by rewrite row_of_app].
  destruct (row_of k t) eqn:Er; [done|]. apply row_of_none in Er. apply has_key_spec in E.
  cbn. by rewrite bool_decide_eq_false_2 by congruence.
Qed.

Lemma insert_or_ignore_nodup r t :
  NoDup (map key t) -> NoDup (map key (insert_or_ignore r t).2).
Proof.
  intros Hn. unfold insert_or_ignore. destruct (has_key (key r) t) eqn:E; [done|].
  apply not_true_iff_false in E. rewrite has_key_spec in E. cbn [snd]. rewrite map_app.
  apply NoDup_app. split_and!; [done| |by apply NoDup_singleton].
  intros x Hx ->%list_elem_of_singleton. done.
Qed.

Lemma insert_or_ignore_Forall (P : R -> Prop) r t :
  Forall P t -> P r -> Forall P (insert_or_ignore r t).2.
Proof.
  intros Ht Hr. unfold insert_or_ignore. destruct (has_key (key r) t); [done|].
  cbn [snd]. apply Forall_app. by split; [|constructor].
Qed.

Lemma insert_or_ignore_count r t :
  (insert_or_ignore r t).1 = if has_key (key r) t then 0 else 1.
Proof. unfold insert_or_ignore. by destruct (has_key (key r) t). Qed.

(** With unique keys a row is found under its key. *)
Lemma row_of_elem t r : NoDup (map key t) -> r ∈ t -> row_of (key r) t = Some r.
Proof.
  intros Hn Hr. induction t as [|x t IH]; [by apply not_elem_of_nil in Hr|].
  cbn in Hn |- *. apply NoDup_cons in Hn as [Hx Hn]. apply elem_of_cons in Hr as [->|Hr].
  - by rewrite bool_decide_eq_true_2.
  - rewrite bool_decide_eq_false_2; [by apply IH|]. intros E. apply Hx. rewrite E.
    apply list_elem_of_fmap. by exists r.
Qed.

(** A batch of rows, one statement each. *)
Definition insert_all (rows t : list R) : list R :=
  fold_left (fun t r => (insert_or_ignore r t).2) rows t.

Lemma insert_all_snoc rows r t :
  insert_all (rows ++ [r]) t = (insert_or_ignore r (insert_all rows t)).2.
Proof. apply fold_left_app. Qed.

Lemma insert_all_nodup rows t : NoDup (map key t) -> NoDup (map key (insert_all rows t)).
Proof.
  revert t. induction rows as [|r rows IH]; intros t Hn; [done|].
  by apply IH, insert_or_ignore_nodup.
Qed.

Lemma insert_all_Forall (P : R -> Prop) rows t :
  Forall P t -> Forall P rows -> Forall P (insert_all rows t).
Proof.
  intros Ht Hr. revert t Ht. induction Hr as [|r rows Hr _ IH]; intros t Ht; [done|].
  by apply IH, insert_or_ignore_Forall.
Qed.

(** What is stored stays; of the new rows the first with a key is stored. *)
Lemma row_of_insert_all k rows t :
  row_of k (insert_all rows t) = match row_of k t with Some r => Some r | None => row_of k rows end.
Proof.
  revert t. induction rows as [|r rows IH]; intros t; cbn [insert_all fold_left].
  - by destruct (row_of k t).
  - fold (insert_all rows (insert_or_ignore r t).2). rewrite IH, row_of_insert.
    destruct (row_of k t); [done|]. cbn. by destruct (bool_decide (key r = k)).
Qed.

Lemma keys_insert_or_ignore k r t :
  k ∈ map key (insert_or_ignore r t).2 <-> k ∈ map key t \/ k = key r.
Proof.
  unfold insert_or_ignore. destruct (has_key (key r) t) eqn:E; cbn [snd].
  - apply has_key_spec in E. naive_solver.
  - rewrite map_app, elem_of_app. cbn. by rewrite list_elem_of_singleton.
Qed.

Lemma keys_insert_all k rows t :
  k ∈ map key (insert_all rows t) <-> k ∈ map key t \/ k ∈ map key rows.
Proof.
  revert t. induction rows as [|r rows IH]; intros t; cbn [insert_all fold_left map].
  - split; [by left|]. by intros [?|?%not_elem_of_nil].
  - fold (insert_all rows (insert_or_ignore r t).2).
    rewrite IH, keys_insert_or_ignore, elem_of_cons. tauto.
Qed.

Lemma insert_all_known rows t : Forall (fun r => key r ∈ map key t) rows -> insert_all rows t = t.
Proof.
  induction 1 as [|r rows Hr _ IH]; [done|]. cbn [insert_all fold_left].
  unfold insert_or_ignore at 2. apply has_key_spec in Hr. by rewrite Hr.
Qed.

Lemma insert_all_prefix rows t : t `prefix_of` insert_all rows t.
Proof.
  revert t. induction rows as [|r rows IH]; intros t; [done|]. cbn [insert_all fold_left].
  etrans; [|apply IH]. unfold insert_or_ignore. destruct (has_key (key r) t); [done|].
  by apply prefix_app_r.
Qed.

End Insert.

(** ** Cutting an ordered selection *)

Lemma elem_of_sql_limit {R} (x : R) n l : x ∈ sql_limit n l -> x ∈ l.
Proof.
  unfold sql_limit. destruct (n <? 0); [done|]. intros Hx.
  rewrite <- (take_drop (Z.to_nat n) l). apply elem_of_app. by left.
Qed.

Lemma sql_limit_all {R} n (l : list R) : Z.of_nat (List.length l) <= n -> sql_limit n l = l.
Proof. intros Hn. unfold sql_limit. destruct (Z.ltb_spec n 0); [lia|]. apply take_ge. lia. Qed.

Lemma elem_of_order_by `{Sqlite} {R} (le : R -> R -> bool) x l : x ∈ order_by le l <-> x ∈ l.
Proof. by rewrite order_by_perm. Qed.
