(* ===== verification/StoreConcrete.v ===== *)
(** * Instances of the storage interfaces, for the examples

    A database engine that breaks ties by insertion order, and a serialization of any type
    with decidable equality that knows finitely many values: the text of a value is its
    index. *)

From S2P Require Import Prelude Concrete BTree Json Schema Sql.

(** ** The engine *)

Lemma sort_by_sorted_any {R} (le : R -> R -> bool) l :
  (forall x y z, le x y = true -> le y z = true -> le x z = true) ->
  (forall x y, le x y = true \/ le y x = true) ->
  StronglySorted (fun x y => le x y = true) (sort_by le l).
Proof. intros. by apply sort_by_sorted. Qed.

Lemma parse_uint_small n : 0 <= n < 2 ^ 63 -> parse_uint 63 (dec_string n) = Some n.
Proof. intros Hn. by apply parse_dec_string, fits_iff. Qed.

Definition plain_sqlite : Sqlite :=
  {| order_by := @sort_by; order_by_perm := @sort_by_perm; order_by_sorted := @sort_by_sorted_any;
     sql_numeric := parse_uint 63; sql_numeric_dec := parse_uint_small |}.

(** ** Serialization by a table of known values *)

Section Table.
Context {A : Type} `{EqDecision A} (known : list A).

Fixpoint index_of (x : A) (l : list A) : option nat :=
  match l with
  | [] => None
  | y :: l => if decide (x = y) then Some O else option_map S (index_of x l)
  end.

Lemma index_of_lookup x l i : index_of x l = Some i -> l !! i = Some x.
Proof.
  revert i. induction l as [|y l IH]; intros i; cbn; [done|]. destruct (decide (x = y)) as [->|].
  - by intros [= <-].
  - destruct (index_of x l) as [j|]; [|done]. intros [= <-]. cbn. by apply IH.
Qed.

Definition table_to_vec (x : A) : option (list byte) :=
  match index_of x known with
  | Some i => if (i <? 256)%nat then Some [z2b (Z.of_nat i)] else None
  | None => None
  end.

Definition table_from_slice (b : list byte) : option A :=
  match b with [i] => known !! Z.to_nat (b2z i) | _ => None end.

Lemma table_roundtrip x b : table_to_vec x = Some b -> table_from_slice b = Some x.
Proof.
  unfold table_to_vec. destruct (index_of x known) as [i|] eqn:E; [|done].
  destruct (Nat.ltb_spec i 256); [|done]. intros [= <-]. unfold table_from_slice.
  rewrite b2z_z2b, Z.mod_small, Nat2Z.id by lia. by apply index_of_lookup.
Qed.

Definition table_serde : Serde A :=
  {| to_vec := table_to_vec; from_slice := table_from_slice; serde_roundtrip := table_roundtrip |}.

End Table.

(** ** Decidable equality of the data *)

Fixpoint tjson_eqb_eq (v w : tjson) : tjson_eqb v w = true -> v = w.
Proof.
  destruct v as [|b|n|s|l|l], w as [|b'|n'|s'|l'|l']; simpl; try done.
  - by intros ->%Bool.eqb_prop.
  - by intros ->%Z.eqb_eq.
  - by intros ->%String.eqb_eq.
  - intros E. f_equal. revert l' E. induction l as [|a l IH]; intros [|b l']; try done.
    intros [Ha Hl]%andb_true_iff. f_equal; [by apply tjson_eqb_eq|by apply IH].
  - intros E. f_equal. revert l' E. induction l as [|[k a] l IH]; intros [|[k' b] l']; try done.
    intros [[Hk%String.eqb_eq Ha]%andb_true_iff Hl]%andb_true_iff. subst k'.
    f_equal; [f_equal; by apply tjson_eqb_eq|by apply IH].
Qed.

#[export] Instance tjson_eq_dec : EqDecision tjson.
Proof.
  intros v w. refine (cast_if (decide (tjson_eqb v w = true))).
  - by apply tjson_eqb_eq.
  - intros ->. by rewrite tjson_eqb_refl in *.
Defined.

#[export] Instance json_eq_dec : EqDecision (@json tjson_lib) := tjson_eq_dec.

#[export] Instance source_eq_dec : EqDecision Source. Proof. solve_decision. Defined.
#[export] Instance cloud_eq_dec : EqDecision CloudContext. Proof. solve_decision. Defined.
#[export] Instance host_ref_eq_dec : EqDecision HostRef. Proof. solve_decision. Defined.
#[export] Instance user_ref_eq_dec : EqDecision UserRef. Proof. solve_decision. Defined.
#[export] Instance session_ref_eq_dec : EqDecision SessionRef. Proof. solve_decision. Defined.
#[export] Instance process_ref_eq_dec : EqDecision ProcessRef. Proof. solve_decision. Defined.
#[export] Instance thread_ref_eq_dec : EqDecision ThreadRef. Proof. solve_decision. Defined.
#[export] Instance file_ref_eq_dec : EqDecision FileRef. Proof. solve_decision. Defined.
#[export] Instance direction_eq_dec : EqDecision NetworkDirection. Proof. solve_decision. Defined.
#[export] Instance network_ref_eq_dec : EqDecision NetworkRef. Proof. solve_decision. Defined.
#[export] Instance dns_ref_eq_dec : EqDecision DnsRef. Proof. solve_decision. Defined.
#[export] Instance device_ref_eq_dec : EqDecision DeviceRef. Proof. solve_decision. Defined.
#[export] Instance service_ref_eq_dec : EqDecision ServiceRef. Proof. solve_decision. Defined.
#[export] Instance pod_ref_eq_dec : EqDecision PodRef. Proof. solve_decision. Defined.
#[export] Instance container_ref_eq_dec : EqDecision ContainerRef. Proof. solve_decision. Defined.
#[export] Instance namespace_ref_eq_dec : EqDecision NamespaceRef. Proof. solve_decision. Defined.
#[export] Instance cgroup_version_eq_dec : EqDecision CgroupVersion. Proof. solve_decision. Defined.
#[export] Instance cgroup_ref_eq_dec : EqDecision CgroupRef. Proof. solve_decision. Defined.
#[export] Instance kernel_ref_eq_dec : EqDecision KernelRef. Proof. solve_decision. Defined.
#[export] Instance risk_annotation_eq_dec : EqDecision RiskAnnotation. Proof. solve_decision. Defined.
#[export] Instance event_eq_dec : EqDecision (@CanonicalEvent tjson_lib). Proof. solve_decision. Defined.
#[export] Instance alert_status_eq_dec : EqDecision AlertStatus. Proof. solve_decision. Defined.
#[export] Instance alert_eq_dec : EqDecision Alert. Proof. solve_decision. Defined.
