(* ===== verification/Storage.v ===== *)
(** * Event storage: [crates/osiris-storage] and [crates/osiris-storage-sqlite]

    The tables of [SqliteStorage] and every operation of the [Storage] trait on them but
    the paginated [query_events] (in [StoreQuery]).  Events, alerts and risk records are
    kept under their ids, first writer wins; edges under their ends, relation and event. *)

From S2P Require Import Prelude Concrete BTree Json Schema Baseline Sql StoreConcrete.

(** ** Names: the serde text of the enums, without its quotes *)

Definition event_type_name (t : EventType) : string :=
  match t with
  | ProcessExec => "PROCESS_EXEC" | ProcessFork => "PROCESS_FORK" | ProcessExit => "PROCESS_EXIT"
  | FileCreate => "FILE_CREATE" | FileDelete => "FILE_DELETE" | FileRename => "FILE_RENAME"
  | FileMove => "FILE_MOVE" | FileModify => "FILE_MODIFY" | FileWrite => "FILE_WRITE"
  | FileExecute => "FILE_EXECUTE" | FilePermissionChange => "FILE_PERMISSION_CHANGE"
  | FileOwnerChange => "FILE_OWNER_CHANGE" | FileAttributeChange => "FILE_ATTRIBUTE_CHANGE"
  | SocketCreate => "SOCKET_CREATE" | SocketBind => "SOCKET_BIND" | SocketListen => "SOCKET_LISTEN"
  | NetworkConnect => "NETWORK_CONNECT" | NetworkAccept => "NETWORK_ACCEPT"
  | NetworkClose => "NETWORK_CLOSE" | DnsQuery => "DNS_QUERY"
  | SessionLogin => "SESSION_LOGIN" | SessionLogout => "SESSION_LOGOUT"
  | SessionCreate => "SESSION_CREATE" | SessionTerminate => "SESSION_TERMINATE"
  | PrivilegeUidChange => "PRIVILEGE_UID_CHANGE" | PrivilegeGidChange => "PRIVILEGE_GID_CHANGE"
  | PrivilegeCapabilityChange => "PRIVILEGE_CAPABILITY_CHANGE"
  | PrivilegeSudo => "PRIVILEGE_SUDO" | PrivilegeSetuid => "PRIVILEGE_SETUID"
  | ServiceCreate => "SERVICE_CREATE" | ServiceModify => "SERVICE_MODIFY"
  | ServiceStart => "SERVICE_START" | ServiceStop => "SERVICE_STOP"
  | ServiceDelete => "SERVICE_DELETE" | TimerCreate => "TIMER_CREATE"
  | TimerModify => "TIMER_MODIFY" | PersistenceCreated => "PERSISTENCE_CREATED"
  | PersistenceModified => "PERSISTENCE_MODIFIED" | PersistenceRemoved => "PERSISTENCE_REMOVED"
  | ModuleLoad => "MODULE_LOAD" | ModuleUnload => "MODULE_UNLOAD"
  | ContainerCreate => "CONTAINER_CREATE" | ContainerStart => "CONTAINER_START"
  | ContainerStop => "CONTAINER_STOP" | ContainerDestroy => "CONTAINER_DESTROY"
  | LsmDenial => "LSM_DENIAL" | CapabilityUse => "CAPABILITY_USE"
  | AgentHealth => "AGENT_HEALTH" | SensorHealth => "SENSOR_HEALTH"
  | AgentStart => "AGENT_START" | AgentStop => "AGENT_STOP"
  end.

Definition category_name (c : Category) : string :=
  match c with
  | CProcess => "PROCESS" | CFile => "FILE" | CNetwork => "NETWORK" | CDns => "DNS"
  | CIdentity => "IDENTITY" | CPrivilege => "PRIVILEGE" | CSystemd => "SYSTEMD"
  | CPersistence => "PERSISTENCE" | CKernelModule => "KERNEL_MODULE" | CContainer => "CONTAINER"
  | CSecurity => "SECURITY" | CSystem => "SYSTEM"
  end.

Definition relation_name (r : Relation) : string :=
  match r with
  | Spawned => "SPAWNED" | ExecutedAs => "EXECUTED_AS" | Wrote => "WROTE" | Read => "READ"
  | ConnectedTo => "CONNECTED_TO" | ResolvedTo => "RESOLVED_TO"
  | BelongsToContainer => "BELONGS_TO_CONTAINER" | BelongsToPod => "BELONGS_TO_POD"
  | RunsInCgroup => "RUNS_IN_CGROUP" | TriggeredBySession => "TRIGGERED_BY_SESSION"
  end.

Definition all_relations : list Relation :=
  [Spawned; ExecutedAs; Wrote; Read; ConnectedTo; ResolvedTo; BelongsToContainer; BelongsToPod;
   RunsInCgroup; TriggeredBySession].

(** [serde_json::from_value(Value::String(name))]. *)
Definition relation_of_name (s : string) : option Relation :=
  List.find (fun r => String.eqb (relation_name r) s) all_relations.

Definition severity_name (s : Severity) : string :=
  match s with
  | Info => "INFO" | Low => "LOW" | Medium => "MEDIUM" | High => "HIGH" | Critical => "CRITICAL"
  end.

Definition severity_of_name (s : string) : option Severity :=
  List.find (fun v => String.eqb (severity_name v) s) [Info; Low; Medium; High; Critical].

(** ** Tables *)

Record EventRow := {
  col_event_id : string; col_host_id : string; col_timestamp : Z; col_event_type : string;
  col_category : string; col_process_key : option string; col_parent_process_key : option string;
  col_file_path : option string; col_file_inode : option Z; col_file_device_id : option Z;
  col_network_src_ip : option string; col_network_dst_ip : option string;
  col_dns_domain : option string; col_session_id : option string; col_user_uid : option Z;
  col_unit_name : option string; col_container_id : option string; col_raw_json : list byte }.

Record AlertRow := {
  arow_id : string; arow_rule_id : string; arow_rule_version : Z; arow_timestamp : Z;
  arow_host_id : string; arow_raw_json : list byte }.

Record EdgeRow := {
  erow_from : string; erow_to : string; erow_relation : string; erow_event_id : string;
  erow_timestamp : Z }.

Record RiskRow := {
  rrow_event_id : string; rrow_process_key : option string; rrow_host_id : string;
  rrow_timestamp : Z; rrow_score : Z; rrow_severity : string; rrow_related : list byte }.

Record ReasonRow := { qrow_event_id : string; qrow_label : string; qrow_weight : Z; qrow_evidence : string }.

Record Db := {
  db_events : list EventRow;
  db_alerts : list AlertRow;
  db_evidence : list (string * string);
  db_edges : list EdgeRow;
  db_risks : list RiskRow;
  db_reasons : list ReasonRow }.

Definition db_empty : Db := Build_Db [] [] [] [] [] [].

(** Replacing one table. *)
Definition with_events (t : list EventRow) (d : Db) : Db :=
  Build_Db t (db_alerts d) (db_evidence d) (db_edges d) (db_risks d) (db_reasons d).
Definition with_alerts (t : list AlertRow) (d : Db) : Db :=
  Build_Db (db_events d) t (db_evidence d) (db_edges d) (db_risks d) (db_reasons d).
Definition with_evidence (t : list (string * string)) (d : Db) : Db :=
  Build_Db (db_events d) (db_alerts d) t (db_edges d) (db_risks d) (db_reasons d).
Definition with_edges (t : list EdgeRow) (d : Db) : Db :=
  Build_Db (db_events d) (db_alerts d) (db_evidence d) t (db_risks d) (db_reasons d).
Definition with_risks (t : list RiskRow) (d : Db) : Db :=
  Build_Db (db_events d) (db_alerts d) (db_evidence d) (db_edges d) t (db_reasons d).
Definition with_reasons (t : list ReasonRow) (d : Db) : Db :=
  Build_Db (db_events d) (db_alerts d) (db_evidence d) (db_edges d) (db_risks d) t.

(** The unique index of [relationships]. *)
Definition edge_unique (r : EdgeRow) : string * string * string * string :=
  (erow_from r, erow_to r, erow_relation r, erow_event_id r).

(** ** Plans and reports: [plan.rs], [storage.rs] *)

Definition MAX_TENANT_HOSTS : Z := 30000.

Record QueryPlan := {
  qp_event_type : option EventType; qp_process_key : option ProcessKey;
  qp_file_path : option string; qp_file_identity : option FileIdentity;
  qp_network_addr : option string; qp_dns_domain : option string; qp_session_id : option string;
  qp_user_uid : option Z; qp_unit_name : option string; qp_container_id : option string;
  qp_since : option Z; qp_until : option Z; qp_limit : Z; qp_host_ids : option (list string) }.

Definition query_plan_new : QueryPlan :=
  Build_QueryPlan None None None None None None None None None None None None 100 None.

Record AlertQueryPlan := {
  ap_rule_id : option string; ap_evidence_event_ids : list Uuid; ap_since : option Z;
  ap_until : option Z; ap_limit : Z; ap_host_ids : option (list string) }.

Definition alert_plan_new : AlertQueryPlan := Build_AlertQueryPlan None [] None None 100 None.

Record RelationshipQueryPlan := {
  lp_entity : option EntityRef; lp_since : option Z; lp_until : option Z; lp_limit : Z;
  lp_host_ids : option (list string) }.

Definition relationship_plan_new : RelationshipQueryPlan :=
  Build_RelationshipQueryPlan None None None 1000 None.

Record RiskQueryPlan := {
  kp_process_key : option ProcessKey; kp_event_id : option Uuid; kp_since : option Z;
  kp_until : option Z; kp_limit : Z; kp_host_ids : option (list string) }.

Definition risk_plan_new : RiskQueryPlan := Build_RiskQueryPlan None None None None 100 None.

Record WriteReport := { written_count : Z; failed_count : Z }.
Definition report_default : WriteReport := {| written_count := 0; failed_count := 0 |}.

Record StorageHealth := {
  sh_healthy : bool; sh_event_count : Z; sh_last_write_at : option Z; sh_detail : option string }.

(** [x.min(i64::MAX as u64) as i64]. *)
Definition clamp_i64 (x : Z) : Z := as_i64 (Z.min x (2 ^ 63 - 1)).

(** [v as u64] of a stored integer; [as u8] and [as i16] likewise. *)
Definition as_u8 (z : Z) : Z := z mod 2 ^ 8.
Definition as_i16 (z : Z) : Z := (z + 2 ^ 15) mod 2 ^ 16 - 2 ^ 15.

(** The [since] and [until] conditions every query shares. *)
Definition in_window (since until : option Z) (ts : Z) : bool :=
  match since with Some s => clamp_i64 s <=? ts | None => true end
  && match until with Some u => ts <=? clamp_i64 u | None => true end.

Definition host_set_too_large : StorageError := Backend "tenant host set too large (limit 30000)".

(** The condition on a host column that [push_host_filter] appends. *)
Definition push_host_filter (host_ids : option (list string))
  : outcome StorageError (string -> bool) :=
  match host_ids with
  | None => Ok (fun _ => true)
  | Some ids =>
      if MAX_TENANT_HOSTS <? Z.of_nat (List.length ids) then Err host_set_too_large
      else match ids with
           | [] => Ok (fun _ => false)
           | _ => Ok (fun h => existsb (String.eqb h) ids)
           end
  end.

(** A limit of zero is the default. *)
Definition plan_limit (dflt limit : Z) : Z := as_i64 (if limit =? 0 then dflt else limit).

(** An optional condition of a plan. *)
Definition opt_cond {A} (o : option A) (f : A -> bool) : bool :=
  match o with Some a => f a | None => true end.

(** ** Operations *)

Section Storage.
Context `{JsonLib} `{HexCodec} `{UuidText} `{Sqlite}.
Context `{event_serde : !Serde CanonicalEvent} `{alert_serde : !Serde Alert}
        `{ids_serde : !Serde (list Uuid)}.

Definition event_row (e : CanonicalEvent) : option EventRow :=
  match to_vec e with
  | None => None
  | Some raw_json =>
      let file_identity := ev_file e ≫= from_file_ref in
      Some {|
        col_event_id := uuid_display (event_id e);
        col_host_id := uuid_display (ev_host_id e);
        col_timestamp := as_i64 (ev_timestamp e);
        col_event_type := event_type_name (event_type e);
        col_category := category_name (ev_category e);
        col_process_key := option_map (fun p => as_hex (process_key p)) (ev_process e);
        col_parent_process_key := option_map (fun p => as_hex (process_key p)) (ev_parent_process e);
        col_file_path := option_map file_path (ev_file e);
        col_file_inode := option_map (fun i => as_i64 (fi_inode i)) file_identity;
        col_file_device_id := option_map (fun i => as_i64 (fi_device_id i)) file_identity;
        col_network_src_ip := option_map src_ip (ev_network e);
        col_network_dst_ip := option_map dst_ip (ev_network e);
        col_dns_domain := option_map dns_query (ev_dns e);
        col_session_id := option_map session_id (ev_session e);
        col_user_uid := option_map (fun u => as_i64 (uid u)) (ev_user e);
        col_unit_name := option_map unit_name (ev_service e);
        col_container_id := option_map container_id (ev_container e);
        col_raw_json := raw_json |}
  end.

Definition count_change (r : WriteReport) (changed : Z) : WriteReport :=
  if changed =? 1 then {| written_count := written_count r + 1; failed_count := failed_count r |}
  else {| written_count := written_count r; failed_count := failed_count r + 1 |}.

Definition insert_event (row : EventRow) (d : Db) : Z * Db :=
  let (n, t) := insert_or_ignore col_event_id row (db_events d) in
  (n, with_events t d).

Definition write_event (io : nat -> bool) (r : WriteReport) (e : CanonicalEvent) : tx Db WriteReport :=
  do? row <- tx_try (event_row e) Serialize in
  do? changed <- execute io (insert_event row) in
  tx_ret (count_change r changed).

Definition batch_write (io : nat -> bool) (events : list CanonicalEvent) (d : Db)
  : outcome StorageError WriteReport * Db :=
  transaction io (tx_each (write_event io) report_default events) d.

Definition write (io : nat -> bool) (event : CanonicalEvent) (d : Db)
  : outcome StorageError unit * Db :=
  match batch_write io [event] d with
  | (Ok report, d') =>
      if 0 <? failed_count report then (Err (Backend "write failed (duplicate event_id?)"), d')
      else (Ok tt, d')
  | (Err e, d') => (Err e, d')
  | (Panic, d') => (Panic, d')
  end.

(** [io] here says whether the one statement of a query fails. *)
Definition event_owner (io : bool) (id : Uuid) (d : Db) : outcome StorageError (option Uuid) :=
  if io then Err sql_error
  else match row_of col_event_id (uuid_display id) (db_events d) with
       | None => Ok None
       | Some row => let? h := ok_or (uuid_parse (col_host_id row)) (Backend "uuid") in Ok (Some h)
       end.

Definition parse_event (raw_json : list byte) : outcome StorageError CanonicalEvent :=
  ok_or (from_slice raw_json) Serialize.

Definition get_event (io : bool) (id : Uuid) (d : Db)
  : outcome StorageError (option CanonicalEvent) :=
  if io then Err sql_error
  else match row_of col_event_id (uuid_display id) (db_events d) with
       | None => Ok None
       | Some row => let? e := parse_event (col_raw_json row) in Ok (Some e)
       end.

Definition query_where (plan : QueryPlan) (r : EventRow) : bool :=
  opt_cond (qp_event_type plan) (fun t => String.eqb (col_event_type r) (event_type_name t))
  && opt_cond (qp_process_key plan) (fun k => text_eq (col_process_key r) (SText (as_hex k)))
  && opt_cond (qp_file_path plan) (fun p => text_eq (col_file_path r) (SText p))
  && opt_cond (qp_file_identity plan)
       (fun i => int_eq (col_file_inode r) (SInt (as_i64 (fi_inode i)))
                 && int_eq (col_file_device_id r) (SInt (as_i64 (fi_device_id i))))
  && opt_cond (qp_network_addr plan)
       (fun a => text_eq (col_network_src_ip r) (SText a) || text_eq (col_network_dst_ip r) (SText a))
  && opt_cond (qp_dns_domain plan) (fun v => text_eq (col_dns_domain r) (SText v))
  && opt_cond (qp_session_id plan) (fun v => text_eq (col_session_id r) (SText v))
  && opt_cond (qp_user_uid plan) (fun v => int_eq (col_user_uid r) (SInt (as_i64 v)))
  && opt_cond (qp_unit_name plan) (fun v => text_eq (col_unit_name r) (SText v))
  && opt_cond (qp_container_id plan) (fun v => text_eq (col_container_id r) (SText v)).

(** [ORDER BY timestamp ASC LIMIT ?]. *)
Definition select {R} (ts : R -> Z) (n : Z) (l : list R) : list R :=
  sql_limit n (order_by (fun a b => ts a <=? ts b) l).

Definition query (io : bool) (plan : QueryPlan) (d : Db)
  : outcome StorageError (list CanonicalEvent) :=
  let? host := push_host_filter (qp_host_ids plan) in
  if io then Err sql_error
  else collect (fun r => parse_event (col_raw_json r))
         (select col_timestamp (plan_limit 100 (qp_limit plan))
            (List.filter (fun r => query_where plan r && host (col_host_id r)
                          && in_window (qp_since plan) (qp_until plan) (col_timestamp r))
               (db_events d))).

(** *** Alerts *)

Definition alert_row (a : Alert) : option AlertRow :=
  match to_vec a with
  | None => None
  | Some raw_json => Some {|
      arow_id := uuid_display (alert_id a); arow_rule_id := alert_rule_id a;
      arow_rule_version := as_i64 (alert_rule_version a);
      arow_timestamp := as_i64 (alert_timestamp a);
      arow_host_id := uuid_display (alert_host_id a); arow_raw_json := raw_json |}
  end.

Definition insert_alert (row : AlertRow) (d : Db) : Z * Db :=
  let (n, t) := insert_or_ignore arow_id row (db_alerts d) in
  (n, with_alerts t d).

Definition insert_evidence (p : string * string) (d : Db) : Z * Db :=
  let (n, t) := insert_or_ignore id p (db_evidence d) in
  (n, with_evidence t d).

Definition write_evidence (io : nat -> bool) (a : Alert) (_ : unit) (ev : Uuid) : tx Db unit :=
  do? _ <- execute io (insert_evidence (uuid_display (alert_id a), uuid_display ev)) in tx_ret tt.

Definition write_alert (io : nat -> bool) (r : WriteReport) (a : Alert) : tx Db WriteReport :=
  do? row <- tx_try (alert_row a) Serialize in
  do? changed <- execute io (insert_alert row) in
  if changed =? 1 then
    do? _ <- tx_each (write_evidence io a) tt (alert_evidence a) in
    tx_ret (count_change r changed)
  else tx_ret (count_change r changed).

Definition write_alerts (io : nat -> bool) (alerts : list Alert) (d : Db)
  : outcome StorageError WriteReport * Db :=
  transaction io (tx_each (write_alert io) report_default alerts) d.

(** [FROM alerts a [JOIN alert_evidence e ON .. WHERE e.event_id IN (..)]]. *)
Definition alerts_joined (ids : list Uuid) (d : Db) : list AlertRow :=
  match ids with
  | [] => db_alerts d
  | _ =>
      flat_map (fun a =>
        map (fun _ => a)
          (List.filter (fun e => String.eqb e.1 (arow_id a)
                       && existsb (String.eqb e.2) (map uuid_display ids)) (db_evidence d)))
        (db_alerts d)
  end.

(** [SELECT DISTINCT raw_json]. *)
Fixpoint distinct_raw (seen : list (list byte)) (l : list AlertRow) : list AlertRow :=
  match l with
  | [] => []
  | r :: l => if bool_decide (arow_raw_json r ∈ seen) then distinct_raw seen l
              else r :: distinct_raw (arow_raw_json r :: seen) l
  end.

Definition query_alerts (io : bool) (plan : AlertQueryPlan) (d : Db)
  : outcome StorageError (list Alert) :=
  let? host := push_host_filter (ap_host_ids plan) in
  if io then Err sql_error
  else collect (fun r => ok_or (from_slice (arow_raw_json r)) Serialize)
         (select arow_timestamp (plan_limit 100 (ap_limit plan))
            (distinct_raw []
              (List.filter (fun r => opt_cond (ap_rule_id plan) (String.eqb (arow_rule_id r))
                            && host (arow_host_id r)
                            && in_window (ap_since plan) (ap_until plan) (arow_timestamp r))
                (alerts_joined (ap_evidence_event_ids plan) d)))).

(** *** Edges *)

Definition edge_row (e : EntityRelationship) : EdgeRow :=
  {| erow_from := storage_key (er_from e); erow_to := storage_key (er_to e);
     erow_relation := relation_name (er_relation e);
     erow_event_id := uuid_display (er_event_id e); erow_timestamp := as_i64 (er_timestamp e) |}.

Definition insert_edge (row : EdgeRow) (d : Db) : Z * Db :=
  let (n, t) := insert_or_ignore edge_unique row (db_edges d) in
  (n, with_edges t d).

Definition write_edge (io : nat -> bool) (r : WriteReport) (e : EntityRelationship)
  : tx Db WriteReport :=
  do? inserted <- execute io (insert_edge (edge_row e)) in
  tx_ret {| written_count := written_count r + inserted; failed_count := failed_count r |}.

Definition write_relationships (io : nat -> bool) (edges : list EntityRelationship) (d : Db)
  : outcome StorageError WriteReport * Db :=
  transaction io (tx_each (write_edge io) report_default edges) d.

(** The [EXISTS] condition: the edge's event is stored by one of the hosts. *)
Definition edge_host (host_ids : option (list string)) (d : Db)
  : outcome StorageError (EdgeRow -> bool) :=
  match host_ids with
  | None => Ok (fun _ => true)
  | Some ids =>
      if MAX_TENANT_HOSTS <? Z.of_nat (List.length ids) then Err host_set_too_large
      else match ids with
           | [] => Ok (fun _ => false)
           | _ => Ok (fun r => existsb (fun e => String.eqb (col_event_id e) (erow_event_id r)
                                    && existsb (String.eqb (col_host_id e)) ids) (db_events d))
           end
  end.

Definition parse_edge (r : EdgeRow) : outcome StorageError EntityRelationship :=
  let? from := omap_err (fun _ => Backend "entity") (parse_storage_key (erow_from r)) in
  let? to := omap_err (fun _ => Backend "entity") (parse_storage_key (erow_to r)) in
  let? relation := ok_or (relation_of_name (erow_relation r)) Serialize in
  let? id := ok_or (uuid_parse (erow_event_id r)) (Backend "uuid") in
  Ok {| er_from := from; er_to := to; er_relation := relation; er_event_id := id;
        er_timestamp := as_u64 (erow_timestamp r) |}.

Definition touches_key (entity : option EntityRef) (r : EdgeRow) : bool :=
  opt_cond entity (fun x => String.eqb (erow_from r) (storage_key x)
                            || String.eqb (erow_to r) (storage_key x)).

Definition query_relationships (io : bool) (plan : RelationshipQueryPlan) (d : Db)
  : outcome StorageError (list EntityRelationship) :=
  let? host := edge_host (lp_host_ids plan) d in
  if io then Err sql_error
  else collect parse_edge
         (select erow_timestamp (plan_limit 1000 (lp_limit plan))
            (List.filter (fun r => touches_key (lp_entity plan) r && host r
                          && in_window (lp_since plan) (lp_until plan) (erow_timestamp r))
               (db_edges d))).

(** *** Risk scores *)

Definition risk_row (s : RiskScoreRecord) : option RiskRow :=
  match to_vec (rs_related_events s) with
  | None => None
  | Some related_events => Some {|
      rrow_event_id := uuid_display (rs_event_id s);
      rrow_process_key := option_map as_hex (rs_process_key s);
      rrow_host_id := uuid_display (rs_host_id s);
      rrow_timestamp := as_i64 (rs_timestamp s); rrow_score := rs_score s;
      rrow_severity := severity_name (rs_severity s); rrow_related := related_events |}
  end.

Definition reason_row (id : Uuid) (w : WeightedReason) : ReasonRow :=
  {| qrow_event_id := uuid_display id; qrow_label := wr_label w; qrow_weight := wr_weight w;
     qrow_evidence := uuid_display (wr_evidence w) |}.

Definition insert_risk (row : RiskRow) (d : Db) : Z * Db :=
  let (n, t) := insert_or_ignore rrow_event_id row (db_risks d) in
  (n, with_risks t d).

(** A plain [INSERT]: the table has no key. *)
Definition insert_reason (row : ReasonRow) (d : Db) : Z * Db :=
  (1, with_reasons (db_reasons d ++ [row]) d).

Definition write_reason (io : nat -> bool) (id : Uuid) (_ : unit) (w : WeightedReason) : tx Db unit :=
  do? _ <- execute io (insert_reason (reason_row id w)) in tx_ret tt.

Definition write_risk (io : nat -> bool) (r : WriteReport) (s : RiskScoreRecord)
  : tx Db WriteReport :=
  do? row <- tx_try (risk_row s) Serialize in
  do? changed <- execute io (insert_risk row) in
  if changed =? 1 then
    do? _ <- tx_each (write_reason io (rs_event_id s)) tt (rs_reasons s) in
    tx_ret (count_change r changed)
  else tx_ret (count_change r changed).

Definition write_risk_scores (io : nat -> bool) (scores : list RiskScoreRecord) (d : Db)
  : outcome StorageError WriteReport * Db :=
  transaction io (tx_each (write_risk io) report_default scores) d.

Definition parse_reason (q : ReasonRow) : outcome StorageError WeightedReason :=
  let? ev := ok_or (uuid_parse (qrow_evidence q)) (Backend "uuid") in
  Ok {| wr_label := qrow_label q; wr_weight := as_i16 (qrow_weight q); wr_evidence := ev |}.

(** [SELECT .. FROM risk_score_reasons WHERE event_id = ?]: with no [ORDER BY] the rows come
    in the engine's order. *)
Definition parse_risk (d : Db) (r : RiskRow) : outcome StorageError RiskScoreRecord :=
  let? id := ok_or (uuid_parse (rrow_event_id r)) (Backend "uuid") in
  let? sev := ok_or (severity_of_name (rrow_severity r)) Serialize in
  let? related := ok_or (from_slice (rrow_related r)) Serialize in
  let? reasons := collect parse_reason (order_by (fun _ _ => true)
    (List.filter (fun q => String.eqb (qrow_event_id q) (uuid_display id)) (db_reasons d))) in
  let? key := match rrow_process_key r with
              | Some hex => let? k := ok_or (process_key_of_str hex) Serialize in Ok (Some k)
              | None => Ok None
              end in
  let? host := ok_or (uuid_parse (rrow_host_id r)) (Backend "uuid") in
  Ok {| rs_event_id := id; rs_process_key := key; rs_host_id := host;
        rs_timestamp := as_u64 (rrow_timestamp r); rs_score := as_u8 (rrow_score r);
        rs_severity := sev; rs_reasons := reasons; rs_related_events := related |}.

Definition query_risk_scores (io : bool) (plan : RiskQueryPlan) (d : Db)
  : outcome StorageError (list RiskScoreRecord) :=
  let? host := push_host_filter (kp_host_ids plan) in
  if io then Err sql_error
  else collect (parse_risk d)
         (select rrow_timestamp (plan_limit 100 (kp_limit plan))
            (List.filter (fun r =>
                 opt_cond (kp_process_key plan) (fun k => text_eq (rrow_process_key r) (SText (as_hex k)))
                 && opt_cond (kp_event_id plan) (fun i => String.eqb (rrow_event_id r) (uuid_display i))
                 && host (rrow_host_id r)
                 && in_window (kp_since plan) (kp_until plan) (rrow_timestamp r))
               (db_risks d))).

(** *** Deletion and health *)

Definition delete (io : bool) (before_timestamp : Z) (d : Db) : outcome StorageError Z * Db :=
  if io then (Err sql_error, d)
  else
    let old r := col_timestamp r <? as_i64 before_timestamp in
    (Ok (Z.of_nat (List.length (List.filter old (db_events d)))),
     with_events (List.filter (fun r => negb (old r)) (db_events d)) d).

(** [now_ns]: nanoseconds since the epoch, [None] for a clock before it. *)
Definition retention_apply (io : bool) (now_ns : option Z) (max_age_secs : Z) (d : Db)
  : outcome StorageError Z * Db :=
  match now_ns with
  | None => (Err (Backend "clock"), d)
  | Some now =>
      let cutoff := sat_sub (as_u64 now) (Z.min (max_age_secs * 1000000000) u64_max) in
      delete io cutoff d
  end.

(** Whether [COUNT] and [MAX] fail. *)
Definition health (count_fails max_fails : bool) (d : Db) : StorageHealth :=
  if count_fails then
    {| sh_healthy := false; sh_event_count := 0; sh_last_write_at := None;
       sh_detail := Some "event count query failed" |}
  else
    let n := Z.of_nat (List.length (db_events d)) in
    if max_fails then
      {| sh_healthy := false; sh_event_count := n; sh_last_write_at := None;
         sh_detail := Some "last write query failed" |}
    else
      {| sh_healthy := true; sh_event_count := n;
         sh_last_write_at :=
           match map col_timestamp (db_events d) with
           | [] => None
           | t :: ts => Some (as_u64 (fold_left Z.max ts t))
           end;
         sh_detail := None |}.

(** ** Well-formed databases *)

(** What the Rust types guarantee of the values written. *)
Definition event_ok (e : CanonicalEvent) : Prop :=
  fits 128 (event_id e) = true /\ fits 128 (ev_host_id e) = true /\ fits 64 (ev_timestamp e) = true.

Definition edge_ok (e : EntityRelationship) : Prop :=
  entity_ok (er_from e) = true /\ entity_ok (er_to e) = true /\ fits 128 (er_event_id e) = true
  /\ fits 64 (er_timestamp e) = true.

Definition reason_ok (w : WeightedReason) : Prop :=
  - 2 ^ 15 <= wr_weight w < 2 ^ 15 /\ fits 128 (wr_evidence w) = true.

Definition risk_ok (s : RiskScoreRecord) : Prop :=
  fits 128 (rs_event_id s) = true /\ fits 128 (rs_host_id s) = true
  /\ fits 64 (rs_timestamp s) = true /\ fits 8 (rs_score s) = true
  /\ (forall k, rs_process_key s = Some k -> process_key_ok k) /\ Forall reason_ok (rs_reasons s).

(** The reasons stored for an event. *)
Definition reasons_for (id : string) (d : Db) : list ReasonRow :=
  List.filter (fun q => String.eqb (qrow_event_id q) id) (db_reasons d).

Definition risk_row_ok (d : Db) (r : RiskRow) : Prop :=
  exists s, risk_ok s /\ risk_row s = Some r
            /\ reasons_for (rrow_event_id r) d = map (reason_row (rs_event_id s)) (rs_reasons s).

Definition alert_fits (a : Alert) : Prop :=
  fits 128 (alert_id a) = true /\ fits 128 (alert_host_id a) = true
  /\ fits 64 (alert_timestamp a) = true /\ Forall (fun i => fits 128 i = true) (alert_evidence a).

(** Exactly the events an alert cites are joined to it. *)
Definition alert_row_ok (d : Db) (r : AlertRow) : Prop :=
  exists a, alert_fits a /\ alert_row a = Some r
            /\ forall s, (arow_id r, s) ∈ db_evidence d <-> s ∈ map uuid_display (alert_evidence a).

Record db_ok (d : Db) : Prop := {
  events_ok : Forall (fun r => exists e, event_ok e /\ event_row e = Some r) (db_events d);
  events_unique : NoDup (map col_event_id (db_events d));
  alerts_ok : Forall (alert_row_ok d) (db_alerts d);
  alerts_unique : NoDup (map arow_id (db_alerts d));
  evidence_owned : Forall (fun p => p.1 ∈ map arow_id (db_alerts d)) (db_evidence d);
  edges_ok : Forall (fun r => exists e, edge_ok e /\ edge_row e = r) (db_edges d);
  edges_unique : NoDup (map edge_unique (db_edges d));
  risks_ok : Forall (risk_row_ok d) (db_risks d);
  risks_unique : NoDup (map rrow_event_id (db_risks d));
  reasons_owned : Forall (fun q => qrow_event_id q ∈ map rrow_event_id (db_risks d)) (db_reasons d) }.

Lemma db_empty_ok : db_ok db_empty.
Proof. split; cbn; constructor. Qed.

(** ** Writing *)

(** The rows of a batch whose values all serialize. *)
Definition rows_of {A R} (f : A -> option R) (l : list A) (rows : list R) : Prop :=
  Forall2 (fun a r => f a = Some r) l rows.

(** [batch_write] stores the rows whose id is not stored, the first of each id, and counts
    them; an error changes nothing. *)
Lemma batch_write_spec io events d :
  match batch_write io events d with
  | (Ok r, d') => exists rows, rows_of event_row events rows
      /\ d' = with_events (insert_all col_event_id rows (db_events d)) d
      /\ written_count r = Z.of_nat (List.length (db_events d')) - Z.of_nat (List.length (db_events d))
      /\ written_count r + failed_count r = Z.of_nat (List.length events)
  | (Err _, d') => d' = d
  | (Panic, _) => False
  end.
Proof.
  set (I := fun (before : list CanonicalEvent) (r : WriteReport) (t : Db) =>
    exists rows, rows_of event_row before rows
      /\ t = with_events (insert_all col_event_id rows (db_events d)) d
      /\ written_count r = Z.of_nat (List.length (db_events t)) - Z.of_nat (List.length (db_events d))
      /\ written_count r + failed_count r = Z.of_nat (List.length before)).
  apply (transaction_atomic io _ (I [] report_default) (I events)).
  2: { exists []. split_and!; [constructor|by destruct d|cbn; lia|done]. }
  apply triple_each. intros before e after r _.
  unfold write_event. eapply triple_bind; [apply triple_try with (Q := fun row t => event_row e = Some row /\ I before r t); auto|].
  intros row.
  apply triple_bind with (fun changed t => I (before ++ [e]) (count_change r changed) t);
    [|intros changed; by apply triple_ret].
  apply triple_execute. intros t (Er & rows & Hf & -> & Hw & Hs). unfold I.
  exists (rows ++ [row]). rewrite insert_all_snoc.
  unfold insert_event. cbn [db_events with_events] in *.
  set (t := insert_all _ rows _) in *. unfold insert_or_ignore.
  destruct (has_key col_event_id (col_event_id row) t); cbn [fst snd]; unfold count_change; cbn.
  all: split_and!; [apply Forall2_app; [done|by repeat constructor]|done| |]; rewrite ?length_app; cbn; lia.
Qed.

Lemma write_evidence_spec io a l d :
  triple (eq d) (tx_each (write_evidence io a) tt l) (fun _ t =>
    t = with_evidence (insert_all id (map (fun e => (uuid_display (alert_id a), uuid_display e)) l)
                         (db_evidence d)) d).
Proof.
  eapply triple_weaken; [apply (triple_each _ (fun before _ t => t = with_evidence (insert_all id
    (map (fun e => (uuid_display (alert_id a), uuid_display e)) before) (db_evidence d)) d))|
    |auto].
  2: { intros t <-. by destruct d. }
  intros before e after r _. apply triple_statement. intros t ->. rewrite map_app. cbn [map].
  rewrite insert_all_snoc. unfold insert_evidence. cbn [db_evidence with_evidence].
  by destruct (insert_or_ignore _ _ _).
Qed.

Lemma write_reasons_spec io i l d :
  triple (eq d) (tx_each (write_reason io i) tt l) (fun _ t =>
    t = with_reasons (db_reasons d ++ map (reason_row i) l) d).
Proof.
  eapply triple_weaken; [apply (triple_each _ (fun before _ t =>
    t = with_reasons (db_reasons d ++ map (reason_row i) before) d))| |auto].
  2: { intros t <-. cbn. rewrite app_nil_r. by destruct d. }
  intros before w after r _. apply triple_statement. intros t ->. cbn. by rewrite map_app, <- app_assoc.
Qed.

(** A table that gains one row under a new key, with what the row brings along. *)
Lemma write_alert_spec io r a d :
  triple (eq d) (write_alert io r a) (fun _ t =>
    exists row, alert_row a = Some row /\
    t = if has_key arow_id (arow_id row) (db_alerts d) then d
        else with_evidence
               (insert_all id (map (fun e => (arow_id row, uuid_display e)) (alert_evidence a))
                  (db_evidence d))
               (with_alerts (db_alerts d ++ [row]) d)).
Proof.
  unfold write_alert.
  eapply triple_bind; [apply triple_try with (Q := fun row t => alert_row a = Some row /\ d = t); auto|].
  intros row. eapply triple_bind.
  { apply triple_execute with (Q := fun changed t => alert_row a = Some row /\
      (changed, t) = if has_key arow_id (arow_id row) (db_alerts d) then (0, d)
                     else (1, with_alerts (db_alerts d ++ [row]) d)).
    intros t [Er <-]. split; [done|]. unfold insert_alert, insert_or_ignore.
    destruct (has_key _ _ _); cbn; [by destruct d|done]. }
  intros changed n t [Er E]. destruct (has_key _ _ _) eqn:Ek; injection E as -> ->.
  - cbn. exists row. by rewrite Ek.
  - cbn [Z.eqb Pos.eqb]. unfold tx_bind.
    pose proof (triple_eq _ _ _ n (write_evidence_spec io a (alert_evidence a)
                  (with_alerts (db_alerts d ++ [row]) d))) as He.
    destruct (tx_each _ _ _ _ _) as [[[u n'] t']| |]; [|done..]. cbn. exists row. rewrite Ek.
    split; [done|]. rewrite He. unfold alert_row in Er. by destruct (to_vec a); simplify_eq.
Qed.

Lemma write_risk_spec io r s d :
  triple (eq d) (write_risk io r s) (fun _ t =>
    exists row, risk_row s = Some row /\
    t = if has_key rrow_event_id (rrow_event_id row) (db_risks d) then d
        else with_reasons (db_reasons d ++ map (reason_row (rs_event_id s)) (rs_reasons s))
               (with_risks (db_risks d ++ [row]) d)).
Proof.
  unfold write_risk.
  eapply triple_bind; [apply triple_try with (Q := fun row t => risk_row s = Some row /\ d = t); auto|].
  intros row. eapply triple_bind.
  { apply triple_execute with (Q := fun changed t => risk_row s = Some row /\
      (changed, t) = if has_key rrow_event_id (rrow_event_id row) (db_risks d) then (0, d)
                     else (1, with_risks (db_risks d ++ [row]) d)).
    intros t [Er <-]. split; [done|]. unfold insert_risk, insert_or_ignore.
    destruct (has_key _ _ _); cbn; [by destruct d|done]. }
  intros changed n t [Er E]. destruct (has_key _ _ _) eqn:Ek; injection E as -> ->.
  - cbn. exists row. by rewrite Ek.
  - cbn [Z.eqb Pos.eqb]. unfold tx_bind.
    pose proof (triple_eq _ _ _ n (write_reasons_spec io (rs_event_id s) (rs_reasons s)
                  (with_risks (db_risks d ++ [row]) d))) as He.
    destruct (tx_each _ _ _ _ _) as [[[u n'] t']| |]; [|done..]. cbn. exists row. rewrite Ek.
    by split.
Qed.

Lemma write_relationships_spec io edges d :
  match write_relationships io edges d with
  | (Ok r, d') =>
      d' = with_edges (insert_all edge_unique (map edge_row edges) (db_edges d)) d
      /\ written_count r = Z.of_nat (List.length (db_edges d')) - Z.of_nat (List.length (db_edges d))
  | (Err _, d') => d' = d
  | (Panic, _) => False
  end.
Proof.
  set (I := fun (before : list EntityRelationship) (r : WriteReport) (t : Db) =>
    t = with_edges (insert_all edge_unique (map edge_row before) (db_edges d)) d
    /\ written_count r = Z.of_nat (List.length (db_edges t)) - Z.of_nat (List.length (db_edges d))).
  apply (transaction_atomic io _ (I [] report_default) (I edges)).
  2: { split; [by destruct d|cbn; lia]. }
  apply triple_each. intros before e after r _. unfold write_edge.
  apply triple_bind with (fun k t => I (before ++ [e])
    {| written_count := written_count r + k; failed_count := failed_count r |} t);
    [|intros k; by apply triple_ret].
  apply triple_execute. intros t [-> Hw]. unfold I. rewrite map_app. cbn [map].
  rewrite insert_all_snoc. unfold insert_edge. cbn [db_edges with_edges written_count] in *.
  set (t := insert_all _ _ _) in *. unfold insert_or_ignore.
  destruct (has_key _ _ t); cbn [fst snd db_edges with_edges]; (split; [done|]); rewrite ?length_app; cbn; lia.
Qed.

(** ** Every operation keeps the database well formed *)

Lemma elem_of_insert_all_id {A} `{EqDecision A} (x : A) rows t :
  x ∈ insert_all id rows t <-> x ∈ t \/ x ∈ rows.
Proof. pose proof (keys_insert_all id x rows t) as E. by rewrite !map_id in E. Qed.

Lemma db_ok_events d t :
  db_ok d -> Forall (fun r => exists e, event_ok e /\ event_row e = Some r) t ->
  NoDup (map col_event_id t) -> db_ok (with_events t d).
Proof. intros [] Ht Hn. by split. Qed.

Lemma db_ok_edges d t :
  db_ok d -> Forall (fun r => exists e, edge_ok e /\ edge_row e = r) t ->
  NoDup (map edge_unique t) -> db_ok (with_edges t d).
Proof. intros [] Ht Hn. by split. Qed.

Lemma rows_of_Forall {A R} (f : A -> option R) (P : A -> Prop) l rows :
  rows_of f l rows -> Forall P l -> Forall (fun r => exists a, P a /\ f a = Some r) rows.
Proof. induction 1; inversion 1; constructor; eauto. Qed.

Lemma new_key_nodup {R K} `{EqDecision K} (key : R -> K) row t :
  has_key key (key row) t = false -> NoDup (map key t) -> NoDup (map key (t ++ [row])).
Proof.
  intros Hk Hn. pose proof (insert_or_ignore_nodup key row t Hn) as E.
  unfold insert_or_ignore in E. by rewrite Hk in E.
Qed.

Lemma new_key_fresh {R K} `{EqDecision K} (key : R -> K) k t r :
  has_key key k t = false -> r ∈ t -> key r <> k.
Proof.
  intros Hk Hr E. apply not_true_iff_false in Hk. apply Hk, has_key_spec.
  rewrite <- E. apply list_elem_of_fmap. by exists r.
Qed.

Lemma db_ok_alert d a row :
  db_ok d -> alert_fits a -> alert_row a = Some row ->
  has_key arow_id (arow_id row) (db_alerts d) = false ->
  db_ok (with_evidence
           (insert_all id (map (fun e => (arow_id row, uuid_display e)) (alert_evidence a))
              (db_evidence d))
           (with_alerts (db_alerts d ++ [row]) d)).
Proof.
  intros [] Ha Er Hk. split; try done; cbn [with_evidence with_alerts db_evidence db_alerts].
  - apply Forall_app. split; [|apply Forall_singleton].
    + rewrite Forall_forall in alerts_ok0 |- *. intros r Hr.
      destruct (alerts_ok0 r Hr) as (b & Hb & Eb & Hev). exists b. split_and!; try done. intros s.
      cbn. rewrite elem_of_insert_all_id, <- Hev. split; [|by left]. intros [?|Hin]; [done|].
      apply list_elem_of_fmap in Hin as (e & [= E _] & _). by destruct (new_key_fresh _ _ _ r Hk Hr).
    + exists a. split_and!; try done. intros s. cbn. rewrite elem_of_insert_all_id.
      rewrite (list_elem_of_fmap _ (alert_evidence a) (_, s)), (list_elem_of_fmap _ _ s). split.
      * intros [Hin|(e & [= ->] & He)]; [|by exists e]. rewrite Forall_forall in evidence_owned0.
        apply evidence_owned0 in Hin. apply has_key_spec in Hin. cbn in Hin. congruence.
      * intros (e & -> & He). right. by exists e.
  - by apply new_key_nodup.
  - rewrite Forall_forall in evidence_owned0 |- *. intros p. rewrite elem_of_insert_all_id, map_app, elem_of_app.
    intros [Hp|Hp]; [left; by apply evidence_owned0|right].
    apply list_elem_of_fmap in Hp as (e & -> & _). by left.
Qed.

Lemma reasons_for_other i i' l d :
  i <> uuid_display i' ->
  reasons_for i (with_reasons (db_reasons d ++ map (reason_row i') l) d) = reasons_for i d.
Proof.
  intros Hne. unfold reasons_for. cbn. rewrite List.filter_app.
  rewrite (filter_false _ (map _ _)); [by rewrite app_nil_r|].
  apply Forall_forall. intros q Hq. apply list_elem_of_fmap in Hq as (w & -> & _).
  by apply String.eqb_neq.
Qed.

Lemma db_ok_risk d s row :
  db_ok d -> risk_ok s -> risk_row s = Some row ->
  has_key rrow_event_id (rrow_event_id row) (db_risks d) = false ->
  db_ok (with_reasons (db_reasons d ++ map (reason_row (rs_event_id s)) (rs_reasons s))
           (with_risks (db_risks d ++ [row]) d)).
Proof.
  intros [] Hs Er Hk.
  assert (rrow_event_id row = uuid_display (rs_event_id s)) as Eid.
  { unfold risk_row in Er. by destruct (to_vec _); simplify_eq. }
  split; try done; cbn [with_reasons with_risks db_risks db_reasons].
  - apply Forall_app. split; [|apply Forall_singleton].
    + rewrite Forall_forall in risks_ok0 |- *. intros r Hr.
      destruct (risks_ok0 r Hr) as (s' & Hs' & Es' & Hq). exists s'. split_and!; try done.
      rewrite <- Hq. apply (reasons_for_other _ _ _ (with_risks (db_risks d ++ [row]) d)).
      rewrite <- Eid. by apply (new_key_fresh _ _ _ r Hk).
    + exists s. split_and!; try done. unfold reasons_for. cbn. rewrite List.filter_app.
      rewrite (filter_false _ (db_reasons d)), filter_true; [done| |].
      * apply Forall_forall. intros q Hq. apply list_elem_of_fmap in Hq as (w & -> & _).
        by apply String.eqb_eq.
      * eapply Forall_impl; [done|]. cbn. intros q Hq. apply String.eqb_neq. intros E.
        rewrite E in Hq. apply has_key_spec in Hq. congruence.
  - by apply new_key_nodup.
  - rewrite map_app. apply Forall_app. split.
    + eapply Forall_impl; [done|]. cbn. intros q Hq. apply elem_of_app. by left.
    + apply Forall_forall. intros q Hq. apply list_elem_of_fmap in Hq as (w & -> & _).
      apply elem_of_app. right. cbn. rewrite Eid. by left.
Qed.

Lemma batch_write_ok io events d :
  db_ok d -> Forall event_ok events -> db_ok (batch_write io events d).2.
Proof.
  intros Hd He. pose proof (batch_write_spec io events d) as Hs.
  destruct (batch_write io events d) as [[r|e|] d']; cbn [snd]; [|by subst|done].
  destruct Hs as (rows & Hr & -> & _). apply db_ok_events; [done| |].
  - apply insert_all_Forall; [by apply events_ok|by eapply rows_of_Forall].
  - by apply insert_all_nodup, events_unique.
Qed.

Lemma write_relationships_ok io edges d :
  db_ok d -> Forall edge_ok edges -> db_ok (write_relationships io edges d).2.
Proof.
  intros Hd He. pose proof (write_relationships_spec io edges d) as Hs.
  destruct (write_relationships io edges d) as [[r|e|] d']; cbn [snd]; [|by subst|done].
  destruct Hs as [-> _]. apply db_ok_edges; [done| |by apply insert_all_nodup, edges_unique].
  apply insert_all_Forall; [by apply edges_ok|]. apply Forall_forall.
  intros r' Hr. apply list_elem_of_fmap in Hr as (x & -> & Hx). rewrite Forall_forall in He. eauto.
Qed.

(** A loop of writes that each keep the invariant. *)
Lemma transaction_ok {X} io (body : WriteReport -> X -> tx Db WriteReport) r l d :
  db_ok d -> Forall (fun x => forall r d, db_ok d -> triple (eq d) (body r x) (fun _ => db_ok)) l ->
  db_ok (transaction io (tx_each body r l) d).2 /\ (transaction io (tx_each body r l) d).1 <> Panic.
Proof.
  intros Hd Hl. assert (triple db_ok (tx_each body r l) (fun _ => db_ok)) as Ht.
  { apply triple_each_inv. eapply Forall_impl; [exact Hl|]. intros x Hx r' n t Hok.
    by apply (Hx r' t Hok n t). }
  pose proof (transaction_atomic io _ _ _ d Ht Hd) as Ha.
  destruct (transaction io _ d) as [[?| |] ?]; cbn; [done|by subst|done].
Qed.

Lemma write_alerts_ok io alerts d :
  db_ok d -> Forall alert_fits alerts ->
  db_ok (write_alerts io alerts d).2 /\ (write_alerts io alerts d).1 <> Panic.
Proof.
  intros Hd Ha. apply transaction_ok; [done|]. eapply Forall_impl; [exact Ha|].
  intros a Hf r t Ht. eapply triple_weaken; [apply write_alert_spec|done|].
  intros _ t' (row & Er & ->). destruct (has_key _ _ _) eqn:Ek; [done|]. by apply db_ok_alert.
Qed.

Lemma write_risk_scores_ok io scores d :
  db_ok d -> Forall risk_ok scores ->
  db_ok (write_risk_scores io scores d).2 /\ (write_risk_scores io scores d).1 <> Panic.
Proof.
  intros Hd Ha. apply transaction_ok; [done|]. eapply Forall_impl; [exact Ha|].
  intros s Hf r t Ht. eapply triple_weaken; [apply write_risk_spec|done|].
  intros _ t' (row & Er & ->). destruct (has_key _ _ _) eqn:Ek; [done|]. by apply db_ok_risk.
Qed.

Lemma delete_ok io ts d : db_ok d -> db_ok (delete io ts d).2.
Proof.
  intros Hd. unfold delete. destruct io; [done|]. cbn [snd]. apply db_ok_events; [done| |].
  - by apply filter_forall, events_ok.
  - by apply filter_nodup, events_unique.
Qed.

(** The databases the writing operations produce, whatever fails. *)
Inductive store_step : Db -> Db -> Prop :=
| step_batch io events d : Forall event_ok events -> store_step d (batch_write io events d).2
| step_alerts io alerts d : Forall alert_fits alerts -> store_step d (write_alerts io alerts d).2
| step_edges io edges d : Forall edge_ok edges -> store_step d (write_relationships io edges d).2
| step_risk io scores d : Forall risk_ok scores -> store_step d (write_risk_scores io scores d).2
| step_delete io ts d : store_step d (delete io ts d).2.

Lemma store_step_ok d d' : store_step d d' -> db_ok d -> db_ok d'.
Proof.
  destruct 1; intros Hd;
    auto using batch_write_ok, write_relationships_ok, delete_ok.
  - by apply write_alerts_ok.
  - by apply write_risk_scores_ok.
Qed.

Lemma reachable_ok d : rtc store_step db_empty d -> db_ok d.
Proof.
  intros Hr. pose proof db_empty_ok as He. induction Hr; eauto using store_step_ok.
Qed.

(** ** Reading *)

Lemma elem_of_select {R} (ts : R -> Z) n l x : x ∈ select ts n l -> x ∈ l.
Proof. intros Hx%elem_of_sql_limit. by apply elem_of_order_by in Hx. Qed.

Lemma as_u64_as_i64 x : fits 64 x = true -> as_u64 (as_i64 x) = x.
Proof.
  intros Hx%fits_iff. unfold as_u64, as_i64.
  destruct (Z_lt_ge_dec x (2 ^ 63)).
  - rewrite (Z.mod_small (x + 2 ^ 63)) by lia. rewrite Z.mod_small; lia.
  - replace ((x + 2 ^ 63) mod 2 ^ 64) with (x - 2 ^ 63).
    + replace (x - 2 ^ 63 - 2 ^ 63) with (x + (-1) * 2 ^ 64) by lia.
      rewrite Z.mod_add by lia. apply Z.mod_small. lia.
    + apply (Z.mod_unique_pos _ _ 1); lia.
Qed.

Lemma as_i64_small x : 0 <= x < 2 ^ 63 -> as_i64 x = x.
Proof. intros Hx. unfold as_i64. rewrite Z.mod_small; lia. Qed.

Lemma relation_roundtrip r : relation_of_name (relation_name r) = Some r.
Proof. by destruct r. Qed.

Lemma severity_roundtrip s : severity_of_name (severity_name s) = Some s.
Proof. by destruct s. Qed.

Lemma parse_edge_row e : edge_ok e -> parse_edge (edge_row e) = Ok e.
Proof.
  intros (Hf & Ht & Hi & Hs). unfold parse_edge, edge_row.
  cbn [erow_from erow_to erow_relation erow_event_id erow_timestamp].
  rewrite !parse_storage_key_roundtrip, relation_roundtrip, uuid_parse_display by done.
  cbn [omap_err ok_or obind]. rewrite as_u64_as_i64 by done. by destruct e.
Qed.

(** The event stored under an id. *)
Definition stored_event (d : Db) (id : Uuid) : option CanonicalEvent :=
  row_of col_event_id (uuid_display id) (db_events d) ≫= fun r => from_slice (col_raw_json r).

Lemma event_row_fields e r : event_row e = Some r ->
  col_event_id r = uuid_display (event_id e) /\ col_host_id r = uuid_display (ev_host_id e)
  /\ col_timestamp r = as_i64 (ev_timestamp e) /\ from_slice (col_raw_json r) = Some e.
Proof.
  unfold event_row. destruct (to_vec e) as [raw|] eqn:E; [|done]. intros [= <-]. cbn.
  by apply serde_roundtrip in E.
Qed.

(** In a well-formed database a row is the row of the event it reads back. *)
Lemma stored_row d r : db_ok d -> r ∈ db_events d ->
  exists e, event_ok e /\ event_row e = Some r /\ from_slice (col_raw_json r) = Some e
            /\ stored_event d (event_id e) = Some e.
Proof.
  intros Hd Hr. pose proof (events_ok _ Hd) as Hf. rewrite Forall_forall in Hf.
  destruct (Hf r Hr) as (e & He & Er). pose proof (event_row_fields _ _ Er) as (Ei & _ & _ & Ej).
  exists e. split_and!; try done. unfold stored_event. rewrite <- Ei.
  by rewrite (row_of_elem col_event_id _ r (events_unique _ Hd) Hr).
Qed.

Lemma stored_event_spec d id e : db_ok d -> fits 128 id = true -> stored_event d id = Some e ->
  event_id e = id /\ event_ok e /\ exists r, r ∈ db_events d /\ event_row e = Some r.
Proof.
  intros Hd Hid E. unfold stored_event in E. destruct (row_of _ _ _) as [r|] eqn:Er; [|done].
  apply row_of_some in Er as [Hr Ek]. cbn in E.
  destruct (stored_row d r Hd Hr) as (e' & He' & Erow & Ej & _).
  rewrite Ej in E. injection E as ->. split; [|split; [done|by exists r]].
  apply event_row_fields in Erow as (Ei & _). apply uuid_display_inj; [apply He'|done|congruence].
Qed.

(** [get_event] and [event_owner] never fail on their own. *)
Lemma get_event_spec d id : db_ok d -> get_event false id d = Ok (stored_event d id).
Proof.
  intros Hd. unfold get_event, stored_event. destruct (row_of _ _ _) as [r|] eqn:Er; [|done].
  apply row_of_some in Er as [Hr _]. destruct (stored_row d r Hd Hr) as (e & _ & _ & Ej & _).
  unfold parse_event. cbn. by rewrite Ej.
Qed.

Lemma event_owner_spec d id : db_ok d ->
  event_owner false id d = Ok (option_map ev_host_id (stored_event d id)).
Proof.
  intros Hd. unfold event_owner, stored_event. destruct (row_of _ _ _) as [r|] eqn:Er; [|done].
  apply row_of_some in Er as [Hr _]. destruct (stored_row d r Hd Hr) as (e & He & Erow & Ej & _).
  cbn. rewrite Ej. apply event_row_fields in Erow as (_ & -> & _).
  rewrite uuid_parse_display by apply He. done.
Qed.

Lemma push_host_filter_scoped ids f h :
  push_host_filter (Some ids) = Ok f -> f h = true -> h ∈ ids.
Proof.
  unfold push_host_filter. destruct (_ <? _); [done|]. destruct ids as [|i ids]; intros [= <-]; [done|].
  intros (x & Hx & E%String.eqb_eq)%(existsb_exists _ (i :: ids)). subst.
  by apply list_elem_of_In.
Qed.

Lemma edge_host_scoped ids d f r :
  edge_host (Some ids) d = Ok f -> f r = true ->
  exists e, e ∈ db_events d /\ col_event_id e = erow_event_id r /\ col_host_id e ∈ ids.
Proof.
  unfold edge_host. destruct (_ <? _); [done|]. destruct ids as [|i ids]; intros [= <-]; [done|].
  intros (e & He & [E (h & Hh & Eh)%(existsb_exists _ (i :: ids))]%andb_true_iff)%existsb_exists.
  apply String.eqb_eq in E, Eh. subst h. exists e. by rewrite !list_elem_of_In.
Qed.

(** The rows a query returns satisfy its conditions. *)
Lemma query_elem io plan d es e : query io plan d = Ok es -> e ∈ es ->
  exists f r, push_host_filter (qp_host_ids plan) = Ok f /\ r ∈ db_events d
    /\ query_where plan r = true /\ f (col_host_id r) = true
    /\ in_window (qp_since plan) (qp_until plan) (col_timestamp r) = true
    /\ from_slice (col_raw_json r) = Some e.
Proof.
  unfold query. destruct (push_host_filter _) as [f| |]; cbn [obind]; try done.
  destruct io; [done|]. intros Ec He. destruct (collect_elem _ _ _ _ Ec He) as (r & Hr & Ep).
  apply elem_of_select, elem_of_filter_b in Hr as [Hr [[? ?]%andb_true_iff ?]%andb_true_iff].
  apply ok_or_ok in Ep. by exists f, r.
Qed.

Lemma elem_of_distinct r seen l : r ∈ distinct_raw seen l -> r ∈ l.
Proof.
  revert seen. induction l as [|x l IH]; intros seen; cbn; [done|].
  destruct (bool_decide _); [intros Hr; right; by eapply IH|].
  intros [->|Hr]%elem_of_cons; [by left|right; by eapply IH].
Qed.

Lemma elem_of_joined r ids d :
  r ∈ alerts_joined ids d <-> r ∈ db_alerts d /\
    (ids = [] \/ exists i, i ∈ ids /\ (arow_id r, uuid_display i) ∈ db_evidence d).
Proof.
  unfold alerts_joined. destruct ids as [|i0 ids]; [naive_solver|].
  rewrite list_elem_of_In, in_flat_map. split.
  - intros (a & Ha & ((k & s) & <- & Hf)%in_map_iff).
    apply filter_In in Hf as [Hev [E (s' & Hs & E')%existsb_exists]%andb_true_iff].
    apply String.eqb_eq in E, E'. cbn in E, E'. subst. split; [by apply list_elem_of_In|]. right.
    apply in_map_iff in Hs as (i & <- & Hi). exists i. by rewrite !list_elem_of_In.
  - intros (Hr & [?|(i & Hi & Hev)]); [done|]. exists r. split; [by apply list_elem_of_In|].
    apply in_map_iff. exists (arow_id r, uuid_display i). split; [done|].
    apply filter_In. split; [by apply list_elem_of_In|]. apply andb_true_iff.
    split; [by apply String.eqb_eq|]. apply existsb_exists. exists (uuid_display i).
    split; [by apply in_map, list_elem_of_In|by apply String.eqb_eq].
Qed.

Lemma query_alerts_elem io plan d als a : query_alerts io plan d = Ok als -> a ∈ als ->
  exists f r, push_host_filter (ap_host_ids plan) = Ok f
    /\ r ∈ alerts_joined (ap_evidence_event_ids plan) d /\ f (arow_host_id r) = true
    /\ from_slice (arow_raw_json r) = Some a.
Proof.
  unfold query_alerts. destruct (push_host_filter _) as [f| |]; cbn [obind]; try done.
  destruct io; [done|]. intros Ec Ha. destruct (collect_elem _ _ _ _ Ec Ha) as (r & Hr & Ep).
  apply elem_of_select, elem_of_distinct, elem_of_filter_b in Hr
    as [Hr [[? ?]%andb_true_iff ?]%andb_true_iff].
  apply ok_or_ok in Ep. by exists f, r.
Qed.

Lemma alert_row_fields a r : alert_row a = Some r ->
  arow_id r = uuid_display (alert_id a) /\ arow_host_id r = uuid_display (alert_host_id a)
  /\ arow_timestamp r = as_i64 (alert_timestamp a) /\ arow_rule_id r = alert_rule_id a
  /\ from_slice (arow_raw_json r) = Some a.
Proof.
  unfold alert_row. destruct (to_vec a) as [raw|] eqn:E; [|done]. intros [= <-]. cbn.
  by apply serde_roundtrip in E.
Qed.

Lemma query_relationships_elem io plan d es e : query_relationships io plan d = Ok es -> e ∈ es ->
  exists f r, edge_host (lp_host_ids plan) d = Ok f /\ r ∈ db_edges d /\ f r = true
    /\ touches_key (lp_entity plan) r = true
    /\ in_window (lp_since plan) (lp_until plan) (erow_timestamp r) = true /\ parse_edge r = Ok e.
Proof.
  unfold query_relationships. destruct (edge_host _ _) as [f| |]; cbn [obind]; try done.
  destruct io; [done|]. intros Ec He. destruct (collect_elem _ _ _ _ Ec He) as (r & Hr & Ep).
  apply elem_of_select, elem_of_filter_b in Hr as [Hr [[? ?]%andb_true_iff ?]%andb_true_iff].
  by exists f, r.
Qed.

Lemma query_risk_elem io plan d rs s : query_risk_scores io plan d = Ok rs -> s ∈ rs ->
  exists f r, push_host_filter (kp_host_ids plan) = Ok f /\ r ∈ db_risks d
    /\ f (rrow_host_id r) = true /\ parse_risk d r = Ok s.
Proof.
  unfold query_risk_scores. destruct (push_host_filter _) as [f| |]; cbn [obind]; try done.
  destruct io; [done|]. intros Ec Hs. destruct (collect_elem _ _ _ _ Ec Hs) as (r & Hr & Ep).
  apply elem_of_select, elem_of_filter_b in Hr as [Hr [[? ?]%andb_true_iff ?]%andb_true_iff].
  by exists f, r.
Qed.

(** A stored risk record reads back, its reasons in some order. *)
Lemma as_i16_small w : - 2 ^ 15 <= w < 2 ^ 15 -> as_i16 w = w.
Proof. intros Hw. unfold as_i16. rewrite Z.mod_small; lia. Qed.

Lemma parse_reason_row i w : reason_ok w -> parse_reason (reason_row i w) = Ok w.
Proof.
  intros [Hw Hi]. unfold parse_reason, reason_row. cbn [qrow_evidence qrow_label qrow_weight].
  rewrite uuid_parse_display, as_i16_small by done. by destruct w.
Qed.

Definition same_record (s s' : RiskScoreRecord) : Prop :=
  rs_reasons s ≡ₚ rs_reasons s' /\
  s' = {| rs_event_id := rs_event_id s; rs_process_key := rs_process_key s;
          rs_host_id := rs_host_id s; rs_timestamp := rs_timestamp s; rs_score := rs_score s;
          rs_severity := rs_severity s; rs_reasons := rs_reasons s';
          rs_related_events := rs_related_events s |}.

Lemma parse_risk_row d r : db_ok d -> r ∈ db_risks d ->
  exists s s', risk_ok s /\ risk_row s = Some r /\ parse_risk d r = Ok s' /\ same_record s s'.
Proof.
  intros Hd Hr. pose proof (risks_ok _ Hd) as Hf. rewrite Forall_forall in Hf.
  destruct (Hf r Hr) as (s & Hs & Er & Hq). pose proof Hs as (Hi & Hh & Ht & Hsc & Hk & Hw).
  unfold risk_row in Er. destruct (to_vec (rs_related_events s)) as [raw|] eqn:Ev; [|done].
  injection Er as <-. pose proof Ev as Ev'. apply serde_roundtrip in Ev.
  cbn [rrow_event_id] in Hq. unfold reasons_for in Hq.
  assert (exists ws, collect parse_reason (order_by (fun _ _ => true)
    (List.filter (fun q => String.eqb (qrow_event_id q) (uuid_display (rs_event_id s))) (db_reasons d)))
    = Ok ws /\ rs_reasons s ≡ₚ ws) as (ws & Hws & Hp).
  { rewrite Hq. eapply (collect_perm _ (map (reason_row (rs_event_id s)) (rs_reasons s)));
      [|by rewrite order_by_perm].
    clear -Hw. induction Hw as [|w l Hok _ IH]; [done|]. cbn [map collect].
    rewrite parse_reason_row, IH by done. done. }
  exists s, (Build_RiskScoreRecord (rs_event_id s) (rs_process_key s) (rs_host_id s) (rs_timestamp s)
    (rs_score s) (rs_severity s) ws (rs_related_events s)).
  split; [done|]. split; [|split; [|by split]].
  - unfold risk_row. by rewrite Ev'.
  - unfold parse_risk. cbn [rrow_event_id rrow_severity rrow_related rrow_process_key rrow_host_id
      rrow_timestamp rrow_score].
    rewrite uuid_parse_display, severity_roundtrip, Ev by done. cbn [ok_or obind].
    rewrite Hws, uuid_parse_display, as_u64_as_i64 by done. cbn [ok_or obind].
    unfold as_u8. apply fits_iff in Hsc. rewrite Z.mod_small by done.
    destruct (rs_process_key s) as [k|]; cbn; [|done]. by rewrite process_key_of_str_hex by auto.
Qed.

(** ** The abstract store: a map from ids to events where the first writer wins *)

Definition first_writer (events : list CanonicalEvent) (m : Uuid -> option CanonicalEvent)
    (id : Uuid) : option CanonicalEvent :=
  match m id with Some e => Some e | None => List.find (fun e => event_id e =? id) events end.

Lemma rows_of_find events rows id :
  rows_of event_row events rows -> Forall event_ok events -> fits 128 id = true ->
  (row_of col_event_id (uuid_display id) rows ≫= fun r => from_slice (col_raw_json r))
  = List.find (fun e => event_id e =? id) events.
Proof.
  intros Hr He Hid. induction Hr as [|e r events rows Er _ IH]; [done|].
  apply Forall_cons in He as [He Hes]. cbn. pose proof (event_row_fields _ _ Er) as (Ei & _ & _ & Ej).
  rewrite Ei. destruct (Z.eqb_spec (event_id e) id) as [->|Hne].
  - by rewrite bool_decide_eq_true_2.
  - rewrite bool_decide_eq_false_2; [by apply IH|].
    intros E. apply Hne, uuid_display_inj; [apply He|done..].
Qed.

Lemma batch_write_stored io events d r d' id :
  db_ok d -> Forall event_ok events -> fits 128 id = true ->
  batch_write io events d = (Ok r, d') -> stored_event d' id = first_writer events (stored_event d) id.
Proof.
  intros Hd He Hid E. pose proof (batch_write_spec io events d) as Hs. rewrite E in Hs.
  destruct Hs as (rows & Hr & -> & _). unfold stored_event at 1, first_writer. cbn [db_events with_events].
  rewrite row_of_insert_all, <- (rows_of_find _ rows _ Hr He Hid).
  unfold stored_event. destruct (row_of _ _ (db_events d)) as [x|] eqn:Ex; [|done].
  apply row_of_some in Ex as [Hx _]. destruct (stored_row d x Hd Hx) as (e & _ & _ & Ej & _).
  cbn. by rewrite Ej.
Qed.

(** Writing once more what a batch has written changes nothing. *)
Lemma batch_write_again io io' events d r d' :
  batch_write io events d = (Ok r, d') -> (forall k, io' k = false) ->
  batch_write io' events d'
  = (Ok {| written_count := 0; failed_count := Z.of_nat (List.length events) |}, d').
Proof.
  intros E Hio. pose proof (batch_write_spec io events d) as Hs. rewrite E in Hs.
  destruct Hs as (rows & Hr & Ed & _).
  destruct (transaction_completes io' (tx_each (write_event io') report_default events) d')
    as (r' & d'' & E'); [|done|].
  { apply completes_each. clear -Hr. induction Hr as [|e row events rows Er _ IH]; constructor; [|done].
    intros r. unfold write_event. auto 10 using Er with tx. }
  pose proof (batch_write_spec io' events d') as Hs'. unfold batch_write in *. rewrite E' in Hs' |- *.
  destruct Hs' as (rows' & Hr' & Ed' & Hw & Hc).
  assert (rows' = rows) as -> by (eapply Forall2_unique; [exact Hr'|exact Hr|]; congruence).
  rewrite (insert_all_known _ rows (db_events d')) in Ed'.
  - assert (d'' = d') as -> by (rewrite Ed'; by destruct d').
    f_equal. destruct r' as [w f]. cbn in Hw, Hc. f_equal. f_equal; lia.
  - rewrite Ed. cbn. apply Forall_forall. intros row Hrow. apply keys_insert_all. right.
    apply list_elem_of_fmap. by exists row.
Qed.

Lemma batch_write_completes io events d :
  (forall k, io k = false) -> Forall (fun e => is_Some (to_vec e)) events ->
  exists r d', batch_write io events d = (Ok r, d').
Proof.
  intros Hio He. apply transaction_completes; [|done]. apply completes_each.
  eapply Forall_impl; [exact He|]. intros e [raw Hraw] r. unfold write_event.
  apply completes_bind; [apply completes_try; unfold event_row; by rewrite Hraw|]. auto with tx.
Qed.

(** ** Which edges a lookup returns *)

(** An edge read back from the store: written before, at most its timestamp differs from
    the one given in a later write of the same edge. *)
Lemma query_relationships_sound io plan d es e :
  db_ok d -> query_relationships io plan d = Ok es -> e ∈ es ->
  edge_ok e /\ edge_row e ∈ db_edges d
  /\ touches_key (lp_entity plan) (edge_row e) = true
  /\ in_window (lp_since plan) (lp_until plan) (as_i64 (er_timestamp e)) = true.
Proof.
  intros Hd Hq He. destruct (query_relationships_elem _ _ _ _ _ Hq He) as (f & r & _ & Hr & _ & Ht & Hw & Hp).
  pose proof (edges_ok _ Hd) as Hf. rewrite Forall_forall in Hf. destruct (Hf r Hr) as (e' & He' & <-).
  rewrite parse_edge_row in Hp by done. by injection Hp as ->.
Qed.

(** Where the limit does not cut, every stored edge that satisfies the plan is returned. *)
Lemma query_relationships_complete plan d f :
  db_ok d -> edge_host (lp_host_ids plan) d = Ok f ->
  Z.of_nat (List.length (db_edges d)) <= plan_limit 1000 (lp_limit plan) ->
  exists es, query_relationships false plan d = Ok es /\
    forall e, edge_ok e -> edge_row e ∈ db_edges d -> f (edge_row e) = true ->
      touches_key (lp_entity plan) (edge_row e) = true ->
      in_window (lp_since plan) (lp_until plan) (as_i64 (er_timestamp e)) = true -> e ∈ es.
Proof.
  intros Hd Hh Hl. unfold query_relationships. rewrite Hh. cbn [obind]. unfold select.
  set (sel := List.filter _ (db_edges d)).
  assert (Z.of_nat (List.length sel) <= Z.of_nat (List.length (db_edges d))) as Hlen
    by (pose proof (filter_length_le (fun r => touches_key (lp_entity plan) r && f r
          && in_window (lp_since plan) (lp_until plan) (erow_timestamp r)) (db_edges d)); subst sel; lia).
  rewrite sql_limit_all by (rewrite order_by_perm; lia).
  assert (exists es, order_by (fun a b => erow_timestamp a <=? erow_timestamp b) sel = map edge_row es
          /\ Forall edge_ok es) as (es & Ees & Hes).
  { assert (Forall (fun r => exists e, edge_ok e /\ edge_row e = r)
              (order_by (fun a b => erow_timestamp a <=? erow_timestamp b) sel)) as Hf.
    { rewrite order_by_perm. apply filter_forall. by apply edges_ok. }
    induction Hf as [|r l (e & He & <-) _ (es & -> & Hes)]; [by exists []|].
    exists (e :: es). split; [done|by constructor]. }
  rewrite Ees. exists es. split.
  { clear -Hes. induction Hes as [|e es He _ IH]; [done|]. cbn [map collect].
    rewrite parse_edge_row, IH by done. done. }
  intros e He Hin Hfe Ht Hw. assert (edge_row e ∈ map edge_row es) as Hm.
  { rewrite <- Ees, order_by_perm. apply elem_of_filter_b. split; [done|]. by rewrite Ht, Hfe. }
  apply list_elem_of_fmap in Hm as (e' & E & He'). rewrite Forall_forall in Hes.
  assert (e = e') as -> by (pose proof (parse_edge_row e He) as A;
    rewrite E, parse_edge_row in A by auto; by injection A). done.
Qed.

(** ** Alerts are found by the events they cite *)

Lemma stored_alert d r : db_ok d -> r ∈ db_alerts d ->
  exists a, alert_fits a /\ alert_row a = Some r /\ from_slice (arow_raw_json r) = Some a
    /\ forall i, (arow_id r, uuid_display i) ∈ db_evidence d <-> uuid_display i ∈ map uuid_display (alert_evidence a).
Proof.
  intros Hd Hr. pose proof (alerts_ok _ Hd) as Hf. rewrite Forall_forall in Hf.
  destruct (Hf r Hr) as (a & Ha & Er & Hev). exists a.
  pose proof (alert_row_fields _ _ Er) as (_ & _ & _ & _ & Ej). by repeat split; try apply Ha; try apply Hev.
Qed.

Lemma query_alerts_cite io plan d als a :
  db_ok d -> Forall (fun i => fits 128 i = true) (ap_evidence_event_ids plan) ->
  ap_evidence_event_ids plan <> [] ->
  query_alerts io plan d = Ok als -> a ∈ als ->
  exists i, i ∈ ap_evidence_event_ids plan /\ i ∈ alert_evidence a.
Proof.
  intros Hd Hfits Hne Hq Ha. destruct (query_alerts_elem _ _ _ _ _ Hq Ha) as (f & r & _ & Hr & _ & Ej).
  apply elem_of_joined in Hr as [Hr [?|(i & Hi & Hev)]]; [done|].
  destruct (stored_alert d r Hd Hr) as (a' & Hf & _ & Ej' & Hiff).
  rewrite Ej in Ej'. injection Ej' as <-. apply Hiff, list_elem_of_fmap in Hev as (i' & E & Hi').
  destruct Hf as (_ & _ & _ & Hf). rewrite Forall_forall in Hf, Hfits.
  apply uuid_display_inj in E; [|by apply Hfits|by apply Hf]. subst. eauto.
Qed.

End Storage.

(** ** Properties *)

(** C32. The events table implements a map from ids to events in which the first writer
    wins: after a batch that succeeds, every id gives the event stored before or else the
    first one of the batch, the report counts the batch, and sending the batch again changes
    nothing; a batch that fails, at any statement, changes nothing; and without failing
    statements every batch of serializable events succeeds. *)
Theorem event_store_first_writer_wins `{JsonLib} `{HexCodec} `{UuidText} `{Sqlite}
    `{!Serde CanonicalEvent} `{!Serde Alert} `{!Serde (list Uuid)} io events d :
  rtc store_step db_empty d -> Forall event_ok events ->
  Forall (fun e => is_Some (to_vec e)) events ->
  match batch_write io events d with
  | (Ok r, d') =>
      (forall id, fits 128 id = true ->
         get_event false id d' = Ok (first_writer events (stored_event d) id))
      /\ written_count r + failed_count r = Z.of_nat (List.length events)
      /\ (forall io', (forall k, io' k = false) ->
            batch_write io' events d'
            = (Ok {| written_count := 0; failed_count := Z.of_nat (List.length events) |}, d'))
  | (Err _, d') => d' = d
  | (Panic, _) => False
  end
  /\ (forall id, get_event false id d = Ok (stored_event d id))
  /\ ((forall k, io k = false) -> exists r d', batch_write io events d = (Ok r, d')).
Proof.
  intros Hd%reachable_ok He Hs. split_and!; [|by intros; apply get_event_spec|by intros; apply batch_write_completes].
  pose proof (batch_write_spec io events d) as Hspec. pose proof (batch_write_ok io events d Hd He) as Hok.
  destruct (batch_write io events d) as [[r|e|] d'] eqn:E; [|done..]. cbn [snd] in Hok.
  destruct Hspec as (_ & _ & _ & _ & Hc). split_and!; [|done|by intros; eapply batch_write_again].
  intros id Hid. rewrite get_event_spec by done. by rewrite (batch_write_stored io events d r d').
Qed.

(** ** Examples *)

Definition store_event (id host ts : Z) (session : string) : @CanonicalEvent tjson_lib :=
  {| event_id := id; schema_version := "1"; ev_host_id := host; boot_id := "b"; ev_timestamp := ts;
     monotonic_timestamp := ts; event_type := SessionLogin; ev_category := CIdentity;
     ev_severity := Info;
     ev_host := {| host_ref_id := host; hostname := "h"; distro := "d"; kernel_version := "k";
                   host_cloud := None |};
     ev_user := Some {| uid := 1000; gid := 1000; euid := 1000; egid := 1000; username := None;
                        loginuid := None |};
     ev_session := Some {| session_id := session; tty := None; remote_addr := None; auth_method := None |};
     ev_process := None; ev_parent_process := None; ev_thread := None; ev_file := None;
     ev_network := None; ev_dns := None; ev_device := None; ev_service := None;
     ev_container := None; ev_namespace := None; ev_cgroup := None; ev_kernel := None;
     ev_source := SAudit; provider := "t"; raw_event := None; relationships := []; tags := [];
     ev_risk := None; event_data := (TNull : @json tjson_lib) |}.

Definition store_samples : list (@CanonicalEvent tjson_lib) :=
  [store_event 1 7 30 "5"; store_event 2 8 20 "5.0"; store_event 3 7 10 "6"; store_event 1 8 40 "9"].

#[export] Instance sample_json : JsonLib := tjson_lib.
#[export] Instance sample_hex : HexCodec := concrete_hex.
#[export] Instance sample_uuid : UuidText := concrete_uuid.
#[export] Instance sample_sqlite : Sqlite := plain_sqlite.
#[export] Instance sample_event_serde : Serde (@CanonicalEvent tjson_lib) := table_serde store_samples.
#[export] Instance sample_alert_serde : Serde Alert := table_serde [].
#[export] Instance sample_ids_serde : Serde (list Uuid) := table_serde [].

Definition no_fault : nat -> bool := fun _ => false.

(** Two hosts' events, then one reusing an id. *)
Definition sample_db : Db := (batch_write no_fault (take 3 store_samples) db_empty).2.

Lemma store_samples_ok : Forall event_ok store_samples.
Proof. repeat constructor. Qed.

Lemma all_serialize {A} `{Serde A} (l : list A) :
  forallb (fun x => match to_vec x with Some _ => true | None => false end) l = true ->
  Forall (fun x => is_Some (to_vec x)) l.
Proof.
  rewrite forallb_Forall. intros Hl. eapply Forall_impl; [exact Hl|]. cbn. intros x.
  by destruct (to_vec x).
Qed.

Lemma store_samples_text : Forall (fun e => is_Some (to_vec e)) store_samples.
Proof. apply all_serialize. vm_compute. reflexivity. Qed.

Lemma sample_db_reachable : rtc store_step db_empty sample_db.
Proof.
  apply rtc_once, step_batch. apply Forall_take, store_samples_ok.
Qed.

Lemma event_store_first_writer_wins_witness :
  match get_event false 1 (batch_write no_fault (drop 2 store_samples) sample_db).2 with
  | Ok (Some e) => (event_id e =? 1) && (ev_host_id e =? 7)
  | _ => false
  end = true.
Proof.
  destruct (event_store_first_writer_wins no_fault (drop 2 store_samples) sample_db
              sample_db_reachable) as (Hm & _ & Hc).
  - apply Forall_drop, store_samples_ok.
  - apply Forall_drop, store_samples_text.
  - destruct (Hc (fun _ => eq_refl)) as (r & d' & E). rewrite E in Hm |- *.
    destruct Hm as [Hm _]. cbn [snd]. rewrite (Hm 1) by reflexivity. vm_compute. reflexivity.
Defined.
