(* ===== verification/StoreQuery.v ===== *)
(** * Queries in pages: [query_events] of [crates/osiris-storage-sqlite]

    An OQL plan runs as a sequence of SQL queries, each for one page of rows after a
    [(timestamp, event_id)] cursor; part of the filter is pushed into SQL and the whole of
    it is evaluated on every row.  The specification is the plain one: filter all events in
    scope, in order, and cut. *)

From S2P Require Import Prelude Concrete BTree Json Schema QueryLex QueryParse QueryEval.
From S2P Require Import Baseline Sql Storage.

(** ** Pushdown *)

(** The comparisons of a filter that is a conjunction of comparisons. *)
Fixpoint conjunction_leaves (ast : Ast) : option (list (string * Op * Value)) :=
  match ast with
  | Compare field op value => Some [(field, op, value)]
  | And l r =>
      match conjunction_leaves l, conjunction_leaves r with
      | Some lefts, Some rights => Some (lefts ++ rights)
      | _, _ => None
      end
  | Or _ _ | Not _ => None
  end.

(** Rust's [n as i64]: towards zero, saturating, NaN is zero. *)
Definition f64_as_i64 (n : f64) : Z :=
  match n with
  | S754_zero _ | S754_nan => 0
  | S754_infinity s => if s then - 2 ^ 63 else 2 ^ 63 - 1
  | S754_finite s m e =>
      let t := if 0 <=? e then Zpos m * 2 ^ e else Zpos m / 2 ^ (- e) in
      Z.max (- 2 ^ 63) (Z.min (2 ^ 63 - 1) (if s then - t else t))
  end.

Definition SCAN_BATCH_SIZE : Z := 20000.
Definition MAX_SCAN_ROWS : Z := 1000000.

Section Query.
Context `{JsonLib} `{HexCodec} `{UuidText} `{Sqlite} `{event_serde : !Serde CanonicalEvent}.
Context (to_value : CanonicalEvent -> option json).

(** The condition [column = ?] for a field that has a column. *)
Definition pushed_column (field : string) (r : EventRow) : option (SqlValue -> bool) :=
  if String.eqb field "event_type" then Some (text_eq (Some (col_event_type r)))
  else if String.eqb field "category" then Some (text_eq (Some (col_category r)))
  else if String.eqb field "process.process_key" then Some (text_eq (col_process_key r))
  else if String.eqb field "file.path" then Some (text_eq (col_file_path r))
  else if String.eqb field "dns.query" then Some (text_eq (col_dns_domain r))
  else if String.eqb field "session.session_id" then Some (text_eq (col_session_id r))
  else if String.eqb field "user.uid" then Some (int_eq (col_user_uid r))
  else if String.eqb field "service.unit_name" then Some (text_eq (col_unit_name r))
  else if String.eqb field "container.container_id" then Some (text_eq (col_container_id r))
  else None.

Definition pushed_param (v : Value) : option SqlValue :=
  match v with
  | Str s => Some (SText s)
  | Num n => Some (SInt (f64_as_i64 n))
  | VList _ => None
  end.

(** What one comparison adds to the [WHERE] clause. *)
Definition leaf_where (r : EventRow) (leaf : string * Op * Value) : bool :=
  let '(field, op, value) := leaf in
  match op with
  | Eq =>
      match pushed_column field r, pushed_param value with
      | Some cond, Some v => cond v
      | _, _ => true
      end
  | _ => true
  end.

Definition pushed_where (filter : option Ast) (r : EventRow) : bool :=
  opt_cond filter (fun f => opt_cond (conjunction_leaves f) (forallb (leaf_where r))).

(** ** The scan *)

Definition filter_matches (filter : option Ast) (e : CanonicalEvent) : bool :=
  opt_cond filter (eval_ast to_value e).

(** [ORDER BY timestamp ASC, event_id ASC]. *)
Definition row_le (a b : EventRow) : bool :=
  (col_timestamp a <? col_timestamp b)
  || ((col_timestamp a =? col_timestamp b) && negb (str_ltb (col_event_id b) (col_event_id a))).

Definition cursor_of (r : EventRow) : Z * string := (col_timestamp r, col_event_id r).

(** [timestamp > ? OR (timestamp = ? AND event_id > ?)]. *)
Definition after (cursor : option (Z * string)) (r : EventRow) : bool :=
  opt_cond cursor (fun '(ts, id) =>
    (ts <? col_timestamp r) || ((col_timestamp r =? ts) && str_ltb id (col_event_id r))).

(** The rows of one page: collected events, rows read, last row, limit reached. *)
Fixpoint scan_page (filter : option Ast) (limit : Z) (rows : list EventRow)
    (events : list CanonicalEvent) (batch_rows : Z) (last_seen : option (Z * string))
  : outcome StorageError (list CanonicalEvent * Z * option (Z * string) * bool) :=
  match rows with
  | [] => Ok (events, batch_rows, last_seen, false)
  | r :: rows =>
      let? event := parse_event (col_raw_json r) in
      if filter_matches filter event then
        let events := events ++ [event] in
        if limit <=? Z.of_nat (List.length events) then
          Ok (events, batch_rows + 1, Some (cursor_of r), true)
        else scan_page filter limit rows events (batch_rows + 1) (Some (cursor_of r))
      else scan_page filter limit rows events (batch_rows + 1) (Some (cursor_of r))
  end.

(** One query of the loop. *)
Definition page (base : EventRow -> bool) (batch_size : Z) (cursor : option (Z * string)) (d : Db)
  : list EventRow :=
  sql_limit batch_size
    (order_by row_le (List.filter (fun r => base r && after cursor r) (db_events d))).

(** The loop; [io] says which of its queries fails. *)
Fixpoint scan (fuel : nat) (io : nat -> bool) (n : nat) (base : EventRow -> bool)
    (filter : option Ast) (limit batch_size : Z) (d : Db) (events : list CanonicalEvent)
    (cursor : option (Z * string)) (scanned : Z) : outcome StorageError (list CanonicalEvent) :=
  match fuel with
  | O => Panic
  | S fuel =>
      if io n then Err sql_error
      else
        let? (events, batch_rows, last_seen, reached_limit) :=
          scan_page filter limit (page base batch_size cursor d) events 0 None in
        if (reached_limit : bool) then Ok events
        else
          let scanned := scanned + batch_rows in
          if batch_rows <? batch_size then Ok events
          else if MAX_SCAN_ROWS <=? scanned then Ok events
          else match last_seen with
               | Some c =>
                   scan fuel io (S n) base filter limit batch_size d events (Some c) scanned
               | None => Ok events
               end
  end.

Definition query_events_batched (io : nat -> bool) (plan : EventQueryPlan) (batch_size : Z) (d : Db)
  : outcome StorageError (list CanonicalEvent) :=
  if effective_limit plan =? 0 then Ok []
  else
    let? host := push_host_filter (host_ids plan) in
    let base r := pushed_where (filter_ast plan) r && host (col_host_id r)
                  && in_window (since plan) (until plan) (col_timestamp r) in
    scan (S (List.length (db_events d))) io 0 base (filter_ast plan) (effective_limit plan)
      batch_size d [] None 0.

Definition query_events (io : nat -> bool) (plan : EventQueryPlan) (d : Db)
  : outcome StorageError (list CanonicalEvent) :=
  query_events_batched io plan SCAN_BATCH_SIZE d.

(** ** The order of rows is total *)

Lemma row_le_trans a b c : row_le a b = true -> row_le b c = true -> row_le a c = true.
Proof.
  unfold row_le. rewrite !orb_true_iff, !andb_true_iff, !Z.ltb_lt, !Z.eqb_eq.
  intros [?|[? Hab]] [?|[? Hbc]]; [left; lia..|right]. split; [lia|by eapply str_leb_trans].
Qed.

Lemma row_le_total a b : row_le a b = true \/ row_le b a = true.
Proof.
  unfold row_le. rewrite !orb_true_iff, !andb_true_iff, !Z.ltb_lt, !Z.eqb_eq.
  destruct (Z.lt_trichotomy (col_timestamp a) (col_timestamp b)) as [?|[E|?]]; [by left; left| |by right; left].
  rewrite E. destruct (str_leb_total (col_event_id a) (col_event_id b)); [left|right]; by right.
Qed.

Lemma row_le_antisym a b : row_le a b = true -> row_le b a = true -> col_event_id a = col_event_id b.
Proof.
  unfold row_le. rewrite !orb_true_iff, !andb_true_iff, !Z.ltb_lt, !Z.eqb_eq.
  intros [?|[? Hab]] [?|[? Hba]]; [lia..|]. by apply str_leb_antisym.
Qed.

(** [after] of a row's cursor is the strict order. *)
Lemma after_spec a r : after (Some (cursor_of a)) r = negb (row_le r a).
Proof.
  unfold after, cursor_of, row_le, opt_cond.
  destruct (Z.lt_trichotomy (col_timestamp a) (col_timestamp r)) as [Hl|[E|Hl]].
  - rewrite (proj2 (Z.ltb_lt _ _) Hl), (proj2 (Z.ltb_ge (col_timestamp r) _)) by lia.
    by rewrite (proj2 (Z.eqb_neq (col_timestamp r) _)) by lia.
  - rewrite E, Z.ltb_irrefl, Z.eqb_refl. cbn. by rewrite negb_involutive.
  - rewrite (proj2 (Z.ltb_ge (col_timestamp a) _)) by lia.
    rewrite (proj2 (Z.eqb_neq (col_timestamp r) _)), (proj2 (Z.ltb_lt _ _) Hl) by lia. done.
Qed.

(** Any ordered selection from a table with unique ids is the same list. *)
Lemma order_cut_unique l m :
  NoDup (map col_event_id l) -> l ≡ₚ m -> StronglySorted (fun a b => row_le a b = true) m ->
  order_by row_le l = m.
Proof.
  intros Hn Hp Hm. eapply (StronglySorted_unique_strong (fun a b => row_le a b = true)).
  - intros a b Ha Hb H1' H2'. rewrite order_by_perm in Ha. rewrite <- Hp in Hb.
    pose proof (row_le_antisym _ _ H1' H2') as E.
    pose proof (row_of_elem col_event_id l a Hn Ha) as Ea.
    rewrite E, (row_of_elem col_event_id l b Hn Hb) in Ea. congruence.
  - apply order_by_sorted; [apply row_le_trans|apply row_le_total].
  - done.
  - by rewrite order_by_perm.
Qed.

(** ** What the loop computes *)

Definition read_row (r : EventRow) : option CanonicalEvent := from_slice (col_raw_json r).

(** The matching events of some rows, in their order. *)
Definition matching (filter : option Ast) (rows : list EventRow) : list CanonicalEvent :=
  List.filter (filter_matches filter) (omap read_row rows).

Lemma matching_app filter l m : matching filter (l ++ m) = matching filter l ++ matching filter m.
Proof. unfold matching. by rewrite omap_app, List.filter_app. Qed.

Lemma matching_cons filter r e rows : read_row r = Some e ->
  matching filter (r :: rows)
  = (if filter_matches filter e then [e] else []) ++ matching filter rows.
Proof. intros Er. unfold matching. cbn. rewrite Er. cbn. by destruct (filter_matches filter e). Qed.

Definition last_cursor (rows : list EventRow) (c : option (Z * string)) : option (Z * string) :=
  match last rows with Some r => Some (cursor_of r) | None => c end.

Lemma last_cursor_cons r rows c : last_cursor (r :: rows) c = last_cursor rows (Some (cursor_of r)).
Proof. unfold last_cursor. rewrite last_cons. by destruct (last rows). Qed.

(** One page: it stops at the limit or reads all its rows. *)
Lemma scan_page_spec filter limit rows events n c :
  Forall (fun r => is_Some (read_row r)) rows -> Z.of_nat (List.length events) < limit ->
  if Z.of_nat (List.length (events ++ matching filter rows)) <? limit then
    scan_page filter limit rows events n c
    = Ok (events ++ matching filter rows, n + Z.of_nat (List.length rows), last_cursor rows c, false)
  else exists n' c',
    scan_page filter limit rows events n c
    = Ok (take (Z.to_nat limit) (events ++ matching filter rows), n', c', true).
Proof.
  intros Hr. revert events n c. induction Hr as [|r rows [e Er] _ IH]; intros events n c Hl.
  - unfold matching. cbn. rewrite app_nil_r, (proj2 (Z.ltb_lt _ _) Hl), Z.add_0_r. done.
  - rewrite (matching_cons filter r e rows Er). cbn [scan_page]. unfold parse_event.
    change (from_slice (col_raw_json r)) with (read_row r). rewrite Er. cbn [ok_or obind].
    destruct (filter_matches filter e) eqn:Em.
    + destruct (Z.leb_spec limit (Z.of_nat (List.length (events ++ [e])))) as [Hle|Hgt].
      * rewrite app_assoc. rewrite (proj2 (Z.ltb_ge _ _)) by (rewrite length_app; lia).
        eexists _, _. rewrite length_app in Hle. cbn in Hle.
        rewrite take_app_length' by (rewrite length_app; cbn; lia). done.
      * specialize (IH (events ++ [e]) (n + 1) (Some (cursor_of r)) Hgt).
        rewrite <- app_assoc in IH. rewrite last_cursor_cons. cbn [List.length].
        destruct (_ <? limit); [|done]. rewrite IH. f_equal. f_equal. f_equal. f_equal. lia.
    + specialize (IH events (n + 1) (Some (cursor_of r)) Hl).
      rewrite last_cursor_cons. cbn [List.length app].
      destruct (_ <? limit); [|done]. rewrite IH. f_equal. f_equal. f_equal. f_equal. lia.
Qed.

Section Scan.
Context (base : EventRow -> bool) (filter : option Ast) (limit batch_size : Z) (d : Db).
Context (ids : NoDup (map col_event_id (db_events d))).
Context (reads : Forall (fun r => is_Some (read_row r)) (db_events d)).
Context (limit_pos : 0 < limit) (batch_pos : 0 < batch_size).

(** The rows in scope, in order. *)
Definition scoped : list EventRow := order_by row_le (List.filter base (db_events d)).

Lemma scoped_sorted : StronglySorted (fun a b => row_le a b = true) scoped.
Proof. apply order_by_sorted; [apply row_le_trans|apply row_le_total]. Qed.

Lemma scoped_nodup : NoDup (map col_event_id scoped).
Proof. unfold scoped. rewrite order_by_perm. by apply filter_nodup. Qed.

Lemma scoped_reads : Forall (fun r => is_Some (read_row r)) scoped.
Proof. unfold scoped. rewrite order_by_perm. by apply filter_forall. Qed.

Lemma scoped_length : (List.length scoped <= List.length (db_events d))%nat.
Proof. unfold scoped. rewrite order_by_perm. apply filter_length_le. Qed.

(** A cursor that stands after the first [k] rows. *)
Definition at_row (k : nat) (cursor : option (Z * string)) : Prop :=
  match k with
  | O => cursor = None
  | S k => exists r, scoped !! k = Some r /\ cursor = Some (cursor_of r)
  end.

Lemma after_drop k cursor : at_row k cursor -> List.filter (after cursor) scoped = drop k scoped.
Proof.
  destruct k as [|k]; cbn.
  - intros ->. rewrite drop_0. apply filter_true. by apply Forall_forall.
  - intros (r & Hr & ->). rewrite <- (take_drop (S k) scoped) at 1. rewrite List.filter_app.
    pose proof scoped_sorted as Hs. rewrite filter_false, filter_true; [done| |].
    + apply Forall_lookup. intros i x Hx. rewrite lookup_drop in Hx. rewrite after_spec.
      apply negb_true_iff, not_true_iff_false. intros Hle.
      assert (row_le r x = true) as Hle' 
        by (apply (StronglySorted_lt _ _ k (S k + i) r x Hs Hr Hx); lia).
      pose proof (row_le_antisym _ _ Hle Hle') as E.
      pose proof (NoDup_lookup _ (S k + i) k (col_event_id r) scoped_nodup) as Hu.
      rewrite !list_lookup_fmap, Hx, Hr in Hu. cbn in Hu. rewrite E in Hu.
      specialize (Hu eq_refl eq_refl). lia.
    + apply Forall_lookup. intros i x Hx. apply lookup_take_Some in Hx as [Hx Hi].
      rewrite after_spec. apply negb_false_iff.
      destruct (decide (i = k)) as [->|Hne].
      * assert (x = r) as -> by congruence. by destruct (row_le_total r r).
      * apply (StronglySorted_lt _ _ i k x r Hs Hx Hr). lia.
Qed.

Lemma page_spec k cursor : at_row k cursor ->
  page base batch_size cursor d = take (Z.to_nat batch_size) (drop k scoped).
Proof.
  intros Hc. unfold page, sql_limit. destruct (Z.ltb_spec batch_size 0); [lia|]. f_equal.
  rewrite <- (filter_filter (after cursor) base). apply order_cut_unique.
  - by do 2 apply filter_nodup.
  - rewrite <- (after_drop k cursor Hc). unfold scoped. by rewrite order_by_perm.
  - rewrite <- (after_drop k cursor Hc). apply filter_sorted, scoped_sorted.
Qed.

Lemma at_row_next k cursor : at_row k cursor -> (k + Z.to_nat batch_size <= List.length scoped)%nat ->
  exists c, last_cursor (take (Z.to_nat batch_size) (drop k scoped)) None = Some c
            /\ at_row (k + Z.to_nat batch_size) (Some c).
Proof.
  intros _ Hk. set (b := Z.to_nat batch_size) in *. assert (exists b', b = S b') as [b' Eb]
    by (exists (pred b); lia).
  assert (is_Some (scoped !! (k + b')%nat)) as [r Hr] by (apply lookup_lt_is_Some; lia).
  exists (cursor_of r). split.
  - unfold last_cursor. rewrite last_lookup, length_take, length_drop.
    replace (pred _) with b' by lia. rewrite lookup_take_lt by lia. by rewrite lookup_drop, Hr.
  - rewrite Eb, Nat.add_succ_r. cbn. by exists r.
Qed.

(** The rows read at most: the ceiling, rounded up to whole pages. *)
Definition scan_cap : Z := batch_size * ((MAX_SCAN_ROWS + batch_size - 1) / batch_size).

Lemma scan_cap_step q : 0 <= q -> q * batch_size < MAX_SCAN_ROWS ->
  (q + 1) * batch_size <= scan_cap
  /\ (MAX_SCAN_ROWS <= (q + 1) * batch_size -> scan_cap = (q + 1) * batch_size).
Proof.
  intros Hq Hlt. unfold scan_cap. set (m := MAX_SCAN_ROWS) in *.
  assert (q + 1 <= (m + batch_size - 1) / batch_size) as Hle by (apply Z.div_le_lower_bound; nia).
  split; [nia|]. intros Hge. assert ((m + batch_size - 1) / batch_size < q + 2)
    by (apply Z.div_lt_upper_bound; nia). nia.
Qed.

Lemma matching_prefix k j : (k <= j)%nat ->
  limit <= Z.of_nat (List.length (matching filter (take k scoped))) ->
  take (Z.to_nat limit) (matching filter (take j scoped))
  = take (Z.to_nat limit) (matching filter (take k scoped)).
Proof.
  intros Hkj Hl. replace j with (k + (j - k))%nat by lia.
  rewrite <- take_take_drop, matching_app. apply take_app_le. lia.
Qed.

Lemma scan_spec io fuel n k q cursor :
  (forall j, io j = false) -> at_row k cursor -> Z.of_nat k = q * batch_size ->
  Z.of_nat k < MAX_SCAN_ROWS -> (k <= List.length scoped)%nat ->
  Z.of_nat (List.length (matching filter (take k scoped))) < limit ->
  (List.length scoped - k < fuel)%nat ->
  scan fuel io n base filter limit batch_size d (matching filter (take k scoped)) cursor (Z.of_nat k)
  = Ok (take (Z.to_nat limit) (matching filter (take (Z.to_nat scan_cap) scoped))).
Proof.
  intros Hio. revert n k q cursor. induction fuel as [|fuel IH]; intros n k q cursor Hc Hq Hm Hk Hl Hf; [lia|].
  cbn [scan]. rewrite Hio, (page_spec k cursor Hc). set (b := Z.to_nat batch_size).
  assert (Z.of_nat b = batch_size) as Eb by lia. assert (0 <= q) as Hq0 by nia.
  destruct (scan_cap_step q Hq0 ltac:(lia)) as [Hcap Hcap'].
  assert (Forall (fun r => is_Some (read_row r)) (take b (drop k scoped))) as Hr
    by (apply Forall_take, Forall_drop, scoped_reads).
  pose proof (scan_page_spec filter limit _ (matching filter (take k scoped)) 0 None Hr Hl) as Hp.
  rewrite <- matching_app, take_take_drop in Hp.
  destruct (Z.ltb_spec (Z.of_nat (List.length (matching filter (take (k + b) scoped)))) limit) as [Hlt|Hge].
  2: { destruct Hp as (n' & c' & ->). cbn [obind]. f_equal. symmetry. apply matching_prefix; lia. }
  rewrite Hp. cbn [obind]. rewrite length_take, length_drop, Z.add_0_l.
  destruct (Z.ltb_spec (Z.of_nat (b `min` (List.length scoped - k))) batch_size) as [Hshort|Hfull].
  { rewrite !(take_ge scoped) in * by lia. by rewrite take_ge by lia. }
  destruct (Z.leb_spec MAX_SCAN_ROWS (Z.of_nat k + Z.of_nat (b `min` (List.length scoped - k)))) as [Hmax|Hmax].
  { replace (Z.to_nat scan_cap) with (k + b)%nat by lia. by rewrite (take_ge (matching _ _)) by lia. }
  destruct (at_row_next k cursor Hc) as (c & Ec & Hnext); [lia|]. fold b in Ec, Hnext. rewrite Ec.
  replace (Z.of_nat k + Z.of_nat (b `min` (List.length scoped - k))) with (Z.of_nat (k + b)) by lia.
  apply (IH (S n) (k + b)%nat (q + 1)); try done; lia.
Qed.

End Scan.

(** ** The whole query *)

(** The condition the pages put on a row. *)
Definition base_where (plan : EventQueryPlan) (host : string -> bool) (r : EventRow) : bool :=
  pushed_where (filter_ast plan) r && host (col_host_id r)
  && in_window (since plan) (until plan) (col_timestamp r).

Lemma query_events_pages io plan batch_size d host :
  NoDup (map col_event_id (db_events d)) -> Forall (fun r => is_Some (read_row r)) (db_events d) ->
  0 < batch_size -> 0 <= limit plan -> (forall j, io j = false) ->
  push_host_filter (host_ids plan) = Ok host ->
  query_events_batched io plan batch_size d
  = Ok (take (Z.to_nat (effective_limit plan))
          (matching (filter_ast plan)
             (take (Z.to_nat (scan_cap batch_size)) (scoped (base_where plan host) d)))).
Proof.
  intros Hn Hr Hb Hlim Hio Hh. unfold query_events_batched.
  assert (0 <= effective_limit plan) as He.
  { unfold effective_limit, MAX_EVENT_LIMIT, DEFAULT_EVENT_LIMIT. destruct (export plan); lia. }
  destruct (Z.eqb_spec (effective_limit plan) 0) as [->|Hne]; [by rewrite take_0|].
  rewrite Hh. cbn [obind].
  apply (scan_spec (base_where plan host) (filter_ast plan) (effective_limit plan) batch_size d
           Hn Hr ltac:(lia) Hb io _ 0 0 0 None); try done; try lia.
  - rewrite take_0. change (matching _ []) with (@nil CanonicalEvent). cbn [List.length]. lia.
  - pose proof (scoped_length (base_where plan host) d). lia.
Qed.

(** ** Pushdown never loses a match *)

(** The text fields that have a column, and the value both come from. *)
Definition text_fields : list (string * (CanonicalEvent -> option string)) :=
  [("event_type", fun e => Some (event_type_name (event_type e)));
   ("category", fun e => Some (category_name (ev_category e)));
   ("process.process_key", fun e => option_map (fun p => as_hex (process_key p)) (ev_process e));
   ("file.path", fun e => option_map file_path (ev_file e));
   ("dns.query", fun e => option_map dns_query (ev_dns e));
   ("session.session_id", fun e => option_map session_id (ev_session e));
   ("service.unit_name", fun e => option_map unit_name (ev_service e));
   ("container.container_id", fun e => option_map container_id (ev_container e))].

(** What the derived serialization gives the evaluator for the fields that have a column:
    strings for the text fields, and an integer, exact as an [f64], for [user.uid]. *)
Record json_faithful : Prop := {
  jf_text field value e v :
    (field, value) ∈ text_fields -> get_field to_value e field = Some v ->
    exists s, value e = Some s /\ json_as_str v = Some s;
  jf_uid e v :
    get_field to_value e "user.uid" = Some v ->
    exists u x, ev_user e = Some u /\ fits 32 (uid u) = true /\ json_as_str v = None
      /\ json_to_string v = dec_string (uid u) /\ json_as_f64 v = Some x /\ f64_as_i64 x = uid u }.

(** Equality with a number is pushed exactly only for the number column. *)
Definition leaf_safe (leaf : string * Op * Value) : bool :=
  let '(field, op, value) := leaf in
  match op, value with
  | Eq, Num _ => negb (existsb (String.eqb field) (map fst text_fields))
  | _, _ => true
  end.

Definition pushdown_safe (filter : option Ast) : bool :=
  opt_cond filter (fun f => opt_cond (conjunction_leaves f) (forallb leaf_safe)).

Lemma f64_eqb_as_i64 x y : SFeqb x y = true -> f64_as_i64 x = f64_as_i64 y.
Proof.
  unfold SFeqb. destruct x as [[]|[]| |[] m e], y as [[]|[]| |[] m' e']; cbn [SFcompare]; try done.
  all: destruct (Z.compare_spec e e') as [->|?|?]; try done.
  all: change (Pos.compare_cont Datatypes.Eq m m') with (m ?= m')%positive.
  all: by destruct (Pos.compare_spec m m') as [->|?|?].
Qed.

Lemma conjunction_eval e f leaves :
  conjunction_leaves f = Some leaves -> eval_ast to_value e f = true ->
  Forall (fun '(field, op, v) => eval_ast to_value e (Compare field op v) = true) leaves.
Proof.
  revert leaves. induction f as [l IHl r IHr| | |field op v]; intros leaves El Ev; cbn in El; try done.
  - destruct (conjunction_leaves l) as [ll|], (conjunction_leaves r) as [lr|]; try done.
    injection El as <-. cbn in Ev. apply andb_true_iff in Ev as [? ?]. apply Forall_app. auto.
  - injection El as <-. by constructor.
Qed.

(** Finds the entry of [text_fields] a column comes from. *)
Ltac text_field H :=
  let at_index i := solve [eapply H; [apply (list_elem_of_lookup_2 _ i); reflexivity|reflexivity]] in
  first [at_index 0%nat | at_index 1%nat | at_index 2%nat | at_index 3%nat | at_index 4%nat
        | at_index 5%nat | at_index 6%nat | at_index 7%nat].

(** A comparison the evaluator accepts is accepted by its SQL condition. *)
Lemma leaf_pushed e r field op v :
  json_faithful -> event_row e = Some r -> leaf_safe (field, op, v) = true ->
  eval_ast to_value e (Compare field op v) = true -> leaf_where r (field, op, v) = true.
Proof.
  intros Hj Er Hs Ev. cbn in Ev. destruct (get_field to_value e field) as [a|] eqn:Eg; [|done].
  unfold leaf_where. destruct op; try done. cbn in Ev.
  assert (forall value col, (field, value) ∈ text_fields -> value e = col ->
    match pushed_param v with Some w => text_eq col w | None => true end = true) as Htext.
  { intros value col Hin <-. destruct (jf_text Hj _ _ _ _ Hin Eg) as (s & Hv & Hstr).
    destruct v as [t|n|]; cbn [pushed_param]; [|exfalso|done].
    - rewrite Hv. cbn in Ev |- *. unfold as_str_lossy in Ev. by rewrite Hstr in Ev.
    - unfold leaf_safe in Hs. rewrite negb_true_iff in Hs. apply not_true_iff_false in Hs. apply Hs.
      apply existsb_exists. exists field. split; [|by apply String.eqb_refl].
      apply in_map_iff. exists (field, value). split; [done|]. by apply list_elem_of_In. }
  unfold event_row in Er. destruct (to_vec e) as [raw|]; [|done]. injection Er as <-.
  unfold pushed_column. cbn [col_event_type col_category col_process_key col_file_path col_dns_domain
    col_session_id col_user_uid col_unit_name col_container_id].
  repeat (match goal with |- context [String.eqb field ?k] => destruct (String.eqb_spec field k) as [E|_] end;
    [try (subst field; text_field Htext)|]); [|done].
  subst field. destruct (jf_uid Hj _ _ Eg) as (u & x & Hu & Hfit & Hstr & Htxt & Hx & Exu).
  rewrite Hu. cbn [option_map]. apply fits_iff in Hfit. rewrite as_i64_small by lia.
  destruct v as [t|n|]; cbn [pushed_param int_eq]; [| |done].
  - cbn in Ev. unfold as_str_lossy in Ev. rewrite Hstr in Ev. cbn in Ev. apply String.eqb_eq in Ev. subst t.
    rewrite Htxt, sql_numeric_dec by lia. apply Z.eqb_refl.
  - cbn in Ev. unfold as_f64 in Ev. rewrite Hx in Ev. cbn in Ev. apply f64_eqb_as_i64 in Ev.
    rewrite <- Ev, Exu. apply Z.eqb_refl.
Qed.

Lemma pushed_sound filter e r :
  json_faithful -> pushdown_safe filter = true -> event_row e = Some r ->
  filter_matches filter e = true -> pushed_where filter r = true.
Proof.
  intros Hj Hs Er Hm. unfold pushed_where, pushdown_safe, filter_matches, opt_cond in *.
  destruct filter as [f|]; [|done]. destruct (conjunction_leaves f) as [leaves|] eqn:El; [|done].
  pose proof (conjunction_eval e f leaves El Hm) as Hl. rewrite forallb_Forall in Hs |- *. clear El Hm.
  induction Hl as [|[[field op] v] leaves He _ IH]; [constructor|].
  apply Forall_cons in Hs as [Hsl Hss]. constructor; [by eapply leaf_pushed|by apply IH].
Qed.

Lemma matching_pushed filter (p : EventRow -> bool) rows :
  Forall (fun r => forall e, read_row r = Some e -> filter_matches filter e = true -> p r = true) rows ->
  matching filter (List.filter p rows) = matching filter rows.
Proof.
  induction 1 as [|r rows Hr _ IH]; [done|]. cbn [List.filter]. destruct (p r) eqn:Ep.
  - change (r :: ?l) with ([r] ++ l). by rewrite !matching_app, IH.
  - change (r :: rows) with ([r] ++ rows). rewrite matching_app, IH.
    unfold matching at 2. cbn. destruct (read_row r) as [e|] eqn:Er; [|done]. cbn.
    destruct (filter_matches filter e) eqn:Em; [|done]. discriminate (Hr e eq_refl Em).
Qed.

(** ** The reference: filter everything in scope, in order, and cut *)

Definition in_scope (plan : EventQueryPlan) (host : string -> bool) (r : EventRow) : bool :=
  host (col_host_id r) && in_window (since plan) (until plan) (col_timestamp r).

Definition reference_query (plan : EventQueryPlan) (host : string -> bool) (d : Db)
  : list CanonicalEvent :=
  take (Z.to_nat (effective_limit plan))
    (matching (filter_ast plan) (sort_by row_le (List.filter (in_scope plan host) (db_events d)))).

Lemma scoped_pushed plan host d :
  NoDup (map col_event_id (db_events d)) ->
  scoped (base_where plan host) d
  = List.filter (pushed_where (filter_ast plan))
      (sort_by row_le (List.filter (in_scope plan host) (db_events d))).
Proof.
  intros Hn. unfold scoped. apply order_cut_unique.
  - by apply filter_nodup.
  - rewrite sort_by_perm, filter_filter. apply reflexive_eq, filter_ext. intros r _.
    unfold base_where, in_scope. destruct (pushed_where _ r), (host _), (in_window _ _ _); done.
  - apply filter_sorted, sort_by_sorted; [apply row_le_trans|apply row_le_total].
Qed.

End Query.

(** ** Every page respects the conditions of the query *)

Section Sound.
Context `{JsonLib} `{HexCodec} `{UuidText} `{Sqlite} `{event_serde : !Serde CanonicalEvent}.
Context (to_value : CanonicalEvent -> option json).

Lemma scan_page_elem filter limit rows events n c events' n' c' b e :
  scan_page to_value filter limit rows events n c = Ok (events', n', c', b) -> e ∈ events' ->
  e ∈ events \/ exists r, r ∈ rows /\ read_row r = Some e /\ filter_matches to_value filter e = true.
Proof.
  revert events n c. induction rows as [|r rows IH]; intros events n c; cbn.
  - intros [= <- _ _ _]. by left.
  - unfold parse_event. destruct (from_slice (col_raw_json r)) as [ev|] eqn:Er; cbn; [|done].
    assert (forall ms, (e ∈ ms -> e ∈ events \/ e = ev /\ filter_matches to_value filter ev = true) ->
      scan_page to_value filter limit rows ms (n + 1) (Some (cursor_of r)) = Ok (events', n', c', b) ->
      e ∈ events' -> e ∈ events \/ exists r', r' ∈ r :: rows /\ read_row r' = Some e
        /\ filter_matches to_value filter e = true) as Hnext.
    { intros ms Hms Hs He. destruct (IH _ _ _ Hs He) as [Hin|(r' & Hr' & E)].
      - destruct (Hms Hin) as [?|[-> ?]]; [by left|]. right. exists r. split; [by left|done].
      - right. exists r'. split; [by right|done]. }
    destruct (filter_matches to_value filter ev) eqn:Em; [|by apply Hnext; left].
    assert (e ∈ events ++ [ev] -> e ∈ events \/ e = ev /\ true = true) as Hms
      by (by intros [?|?%list_elem_of_singleton]%elem_of_app; [left|right]).
    destruct (limit <=? _); [|by apply Hnext].
    intros [= <- _ _ _] He. destruct (Hms He) as [?|[-> _]]; [by left|].
    right. exists r. split; [by left|done].
Qed.

Lemma elem_of_page base b cursor d r :
  r ∈ page base b cursor d -> r ∈ db_events d /\ base r = true.
Proof.
  intros Hr%elem_of_sql_limit. apply elem_of_order_by, elem_of_filter_b in Hr as [Hr Hb].
  by apply andb_true_iff in Hb as [Hb _].
Qed.

Lemma scan_elem fuel io n base filter limit b d events c s es e :
  scan to_value fuel io n base filter limit b d events c s = Ok es -> e ∈ es ->
  e ∈ events \/ exists r, r ∈ db_events d /\ base r = true /\ read_row r = Some e
    /\ filter_matches to_value filter e = true.
Proof.
  revert n events c s. induction fuel as [|fuel IH]; intros n events c s; cbn [scan]; [done|].
  destruct (io n); [done|].
  destruct (scan_page _ _ _ _ _ _ _) as [[[[ms k] c'] stop]| |] eqn:Ep; cbn [obind]; try done.
  assert (e ∈ ms -> e ∈ events \/ exists r, r ∈ db_events d /\ base r = true /\ read_row r = Some e
    /\ filter_matches to_value filter e = true) as Hms.
  { intros He. destruct (scan_page_elem _ _ _ _ _ _ _ _ _ _ _ Ep He) as [?|(r & Hr & E)]; [by left|].
    right. apply elem_of_page in Hr as [? ?]. by exists r. }
  assert (Ok (E := StorageError) ms = Ok es -> e ∈ es -> e ∈ events \/
    exists r, r ∈ db_events d /\ base r = true /\ read_row r = Some e
      /\ filter_matches to_value filter e = true) as Hret by (by intros [= <-]).
  destruct stop; [done|]. destruct (k <? b); [done|]. destruct (_ <=? _); [done|].
  destruct c' as [c'|]; [|done]. intros Hs He. destruct (IH _ _ _ _ Hs He) as [?|?]; auto.
Qed.

Lemma query_events_elem io plan b d es e :
  query_events_batched to_value io plan b d = Ok es -> e ∈ es ->
  exists host r, push_host_filter (host_ids plan) = Ok host /\ r ∈ db_events d
    /\ base_where plan host r = true /\ read_row r = Some e /\ filter_matches to_value (filter_ast plan) e = true.
Proof.
  unfold query_events_batched. destruct (_ =? 0).
  { intros [= <-] He. by apply not_elem_of_nil in He. }
  destruct (push_host_filter (host_ids plan)) as [host| |]; cbn [obind]; try done.
  intros Hs He. destruct (scan_elem _ _ _ _ _ _ _ _ _ _ _ _ _ Hs He) as [Hn|(r & Hr & Hb & E)].
  - by apply not_elem_of_nil in Hn.
  - by exists host, r.
Qed.
End Sound.

(** ** Properties *)

(** Without failures, within the cap on scanned rows. *)
Lemma query_events_exact `{JsonLib} `{HexCodec} `{UuidText} `{Sqlite}
    `{!Serde CanonicalEvent} `{!Serde Alert} `{!Serde (list Uuid)} to_value io plan b d host :
  json_faithful to_value -> rtc store_step db_empty d -> pushdown_safe (filter_ast plan) = true ->
  (forall j, io j = false) -> 0 < b -> 0 <= limit plan ->
  push_host_filter (host_ids plan) = Ok host ->
  Z.of_nat (List.length (db_events d)) <= MAX_SCAN_ROWS ->
  query_events_batched to_value io plan b d = Ok (reference_query to_value plan host d).
Proof.
  intros Hj Hd%reachable_ok Hs Hio Hb Hl Hh Hmax.
  assert (Forall (fun r => is_Some (read_row r)) (db_events d)) as Hreads.
  { apply Forall_forall. intros r Hr. destruct (stored_row d r Hd Hr) as (e & _ & _ & Ej & _).
    by exists e. }
  pose proof (events_unique _ Hd) as Hn.
  rewrite (query_events_pages to_value io plan b d host) by done.
  rewrite (take_ge (scoped _ _)).
  - unfold reference_query. rewrite scoped_pushed by done. rewrite matching_pushed; [done|].
    rewrite sort_by_perm. apply filter_forall, Forall_forall. intros r Hr e Er Hm.
    destruct (stored_row d r Hd Hr) as (e' & _ & Erow & Ej & _).
    unfold read_row in Er. rewrite Ej in Er. injection Er as ->. by eapply pushed_sound.
  - pose proof (scoped_length (base_where plan host) d).
    assert (MAX_SCAN_ROWS <= scan_cap b); [|lia]. unfold scan_cap.
    pose proof (Z.mul_succ_div_gt (MAX_SCAN_ROWS + b - 1) b Hb). nia.
Qed.

(** C33. An OQL query over the store is the plain one: whatever the page size, the pages
    and the part of the filter pushed into SQL give exactly the events of the hosts and
    the time window that satisfy the whole filter, ordered by time and id, cut at the
    plan's limit. The store holds at most [MAX_SCAN_ROWS] (a million) events, no statement
    fails, the host scope names at most 30,000 hosts, and the filter is [pushdown_safe]:
    numbers are compared for equality with number columns only (otherwise matches can be
    missed: [number_pushdown_underfetches]). *)
Theorem query_events_correct `{JsonLib} `{HexCodec} `{UuidText} `{Sqlite}
    `{!Serde CanonicalEvent} `{!Serde Alert} `{!Serde (list Uuid)} to_value io plan b d host :
  json_faithful to_value -> rtc store_step db_empty d -> pushdown_safe (filter_ast plan) = true ->
  (forall j, io j = false) -> 0 < b -> 0 <= limit plan ->
  push_host_filter (host_ids plan) = Ok host ->
  Z.of_nat (List.length (db_events d)) <= MAX_SCAN_ROWS ->
  query_events_batched to_value io plan b d = Ok (reference_query to_value plan host d).
Proof. apply query_events_exact. Qed.

(** A host of the list. *)
Definition host_in `{UuidText} (ids : list string) (h : Uuid) : Prop :=
  fits 128 h = true /\ uuid_display h ∈ ids.

(** Whatever was written, deleted and failed before, a query restricted to some hosts returns
    only events, alerts and risk records of those hosts, and only edges whose source event is
    stored by one of them. *)
Lemma queries_scoped `{JsonLib} `{HexCodec} `{UuidText} `{Sqlite}
    `{!Serde CanonicalEvent} `{!Serde Alert} `{!Serde (list Uuid)} to_value d ids :
  rtc store_step db_empty d ->
  (forall io plan es, qp_host_ids plan = Some ids -> query io plan d = Ok es ->
     Forall (fun e => host_in ids (ev_host_id e)) es)
  /\ (forall io plan b es, host_ids plan = Some ids -> query_events_batched to_value io plan b d = Ok es ->
     Forall (fun e => host_in ids (ev_host_id e)) es)
  /\ (forall io plan als, ap_host_ids plan = Some ids -> query_alerts io plan d = Ok als ->
     Forall (fun a => host_in ids (alert_host_id a)) als)
  /\ (forall io plan rs, kp_host_ids plan = Some ids -> query_risk_scores io plan d = Ok rs ->
     Forall (fun s => host_in ids (rs_host_id s)) rs)
  /\ (forall io plan es, lp_host_ids plan = Some ids -> query_relationships io plan d = Ok es ->
     Forall (fun x => exists e, get_event false (er_event_id x) d = Ok (Some e)
                                /\ host_in ids (ev_host_id e)) es).
Proof.
  intros Hd%reachable_ok.
  assert (forall r e, r ∈ db_events d -> read_row r = Some e ->
    fits 128 (ev_host_id e) = true /\ col_host_id r = uuid_display (ev_host_id e)) as Hhost.
  { intros r e Hr Er. destruct (stored_row d r Hd Hr) as (e' & (_ & Hfit & _) & Erow & Ej & _).
    unfold read_row in Er. rewrite Ej in Er. injection Er as ->. by apply event_row_fields in Erow as (_ & ? & _). }
  split_and!; intros io plan; [|intros b| | |]; intros es Hids Hq; apply Forall_forall; intros x Hx.
  - destruct (query_elem _ _ _ _ _ Hq Hx) as (f & r & Hf & Hr & _ & Hfr & _ & Er). rewrite Hids in Hf.
    destruct (Hhost r x Hr Er) as [Hfit Eh]. split; [done|]. rewrite <- Eh. by eapply push_host_filter_scoped.
  - destruct (query_events_elem _ _ _ _ _ _ _ Hq Hx) as (f & r & Hf & Hr & Hb & Er & _). rewrite Hids in Hf.
    destruct (Hhost r x Hr Er) as [Hfit Eh]. split; [done|]. rewrite <- Eh. unfold base_where in Hb. inv_bools Hb. by eapply push_host_filter_scoped.
  - destruct (query_alerts_elem _ _ _ _ _ Hq Hx) as (f & r & Hf & Hr & Hfr & Er). rewrite Hids in Hf.
    apply elem_of_joined in Hr as [Hr _]. destruct (stored_alert d r Hd Hr) as (a & (_ & Hfit & _) & Erow & Ej & _).
    rewrite Ej in Er. injection Er as ->. split; [done|]. apply alert_row_fields in Erow as (_ & <- & _).
    by eapply push_host_filter_scoped.
  - destruct (query_risk_elem _ _ _ _ _ Hq Hx) as (f & r & Hf & Hr & Hfr & Ep). rewrite Hids in Hf.
    destruct (parse_risk_row d r Hd Hr) as (s & s' & (_ & Hfit & _) & Erow & Ep' & _ & Es'). rewrite Ep in Ep'.
    injection Ep' as ->. rewrite Es'. cbn [rs_host_id]. split; [done|].
    unfold risk_row in Erow. destruct (to_vec _); [|done]. injection Erow as <-.
    by eapply (push_host_filter_scoped ids f).
  - destruct (query_relationships_elem _ _ _ _ _ Hq Hx) as (f & r & Hf & Hr & Hfr & _ & _ & Ep).
    rewrite Hids in Hf. destruct (edge_host_scoped ids d f r Hf Hfr) as (er & Her & Eid & Hin).
    destruct (stored_row d er Hd Her) as (e & (Hei & Hfit & Hts) & Erow & Ej & Hst). exists e.
    apply event_row_fields in Erow as (Ei & Eh & _). split; [|split; [done|by rewrite <- Eh]].
    rewrite get_event_spec by done. unfold stored_event in Hst |- *.
    pose proof (edges_ok _ Hd) as Hf'. rewrite Forall_forall in Hf'.
    destruct (Hf' r Hr) as (x' & Hx' & <-). rewrite parse_edge_row in Ep by done.
    injection Ep as ->. cbn [edge_row erow_event_id] in Eid. rewrite <- Eid, Ei. by rewrite Hst.
Qed.

(** ** Examples *)

(** The members the evaluator reads; a [uid] is a number where it fits. *)
Definition obj1 {A} (k : string) (f : A -> string) (o : option A) : tjson :=
  match o with Some a => TObj [(k, Json.TStr (f a))] | None => TNull end.

Definition store_to_value (e : @CanonicalEvent tjson_lib) : option (@json tjson_lib) :=
  Some (TObj [
    ("event_type", Json.TStr (event_type_name (event_type e)));
    ("category", Json.TStr (category_name (ev_category e)));
    ("process", obj1 "process_key" (fun p => as_hex (process_key p)) (ev_process e));
    ("file", obj1 "path" file_path (ev_file e));
    ("dns", obj1 "query" dns_query (ev_dns e));
    ("session", obj1 "session_id" session_id (ev_session e));
    ("service", obj1 "unit_name" unit_name (ev_service e));
    ("container", obj1 "container_id" container_id (ev_container e));
    ("user", match ev_user e with
             | Some u => if fits 32 (uid u) && (f64_as_i64 (f64_of_Z (uid u)) =? uid u)
                         then TObj [("uid", Json.TNum (uid u))] else TNull
             | None => TNull
             end)]).

(** Evaluates the path of a field. *)
Ltac read_path H :=
  unfold get_field, store_to_value in H;
  match type of H with
  | context [path_parts ?f] =>
      let p := eval vm_compute in (path_parts f) in
      replace (path_parts f) with p in H by (vm_compute; reflexivity)
  end; cbn [walk json_get tjson_lib sample_json tjson_get assoc_get] in H.

Lemma store_to_value_faithful : json_faithful store_to_value.
Proof.
  split.
  - intros field value e v Hin Hg. unfold text_fields in Hin.
    repeat (apply elem_of_cons in Hin as [[= -> ->]|Hin]); [..|by apply not_elem_of_nil in Hin].
    all: read_path Hg.
    1-2: injection Hg as <-; by eexists.
    all: unfold obj1 in Hg; match goal with |- context [option_map _ ?o] => destruct o as [x|] end; [|done].
    all: cbn in Hg; injection Hg as <-; by eexists.
  - intros e v Hg. read_path Hg.
    destruct (ev_user e) as [u|]; [|done].
    destruct (fits 32 (uid u)) eqn:Ef; cbn in Hg; [|done].
    destruct (f64_as_i64 (f64_of_Z (uid u)) =? uid u) eqn:Ex; cbn in Hg; [|done]. injection Hg as <-.
    exists u, (f64_of_Z (uid u)). apply Z.eqb_eq in Ex. split_and!; try done. cbn.
    apply fits_iff in Ef. destruct (Z.ltb_spec (uid u) 0); [lia|done].
Qed.

Definition host_seven : list string := [uuid_display 7].

(** Session logins of user 1000 on host 7. *)
Definition login_plan : EventQueryPlan :=
  {| filter_ast := Some (And (Compare "event_type" Eq (Str "SESSION_LOGIN"))
                             (Compare "user.uid" Eq (Num (f64_of_Z 1000))));
     since := Some 5; until := None; limit := 10; export := false; host_ids := Some host_seven |}.

Definition event_ids_of (o : outcome StorageError (list (@CanonicalEvent tjson_lib))) : list Z :=
  match o with Ok es => map event_id es | _ => [] end.

Lemma query_events_correct_witness :
  event_ids_of (query_events_batched store_to_value no_fault login_plan 1 sample_db) = [3; 1].
Proof.
  rewrite (query_events_correct store_to_value no_fault login_plan 1 sample_db
             (fun h => existsb (String.eqb h) host_seven) store_to_value_faithful sample_db_reachable);
    [vm_compute; reflexivity|reflexivity|reflexivity|reflexivity|vm_compute; congruence|reflexivity
    |vm_compute; congruence].
Defined.

(** Equality of a number with a text column is pushed as the text of the truncated number:
    the stored session "5.0" satisfies the filter but no row is fetched. *)
Definition number_on_text_plan : EventQueryPlan :=
  {| filter_ast := Some (Compare "session.session_id" Eq (Num (f64_of_Z 5)));
     since := None; until := None; limit := 10; export := false;
     host_ids := Some [uuid_display 8] |}.

Lemma number_pushdown_underfetches :
  eval_ast store_to_value (store_event 2 8 20 "5.0")
    (Compare "session.session_id" Eq (Num (f64_of_Z 5))) = true
  /\ event_ids_of (Ok (reference_query store_to_value number_on_text_plan
                         (String.eqb (uuid_display 8)) sample_db)) = [2]
  /\ event_ids_of (query_events store_to_value no_fault number_on_text_plan sample_db) = [].
Proof. split_and!; vm_compute; reflexivity. Qed.

(** Retention forgets who owned an event id, but the edges of the event stay: a host that
    reuses the id is then taken for the source of the old edge. *)
Definition old_edge : EntityRelationship :=
  {| er_from := EUser 8 0; er_to := ESession "5.0"; er_relation := TriggeredBySession;
     er_event_id := 1; er_timestamp := 30 |}.

Definition host_eight_plan : RelationshipQueryPlan :=
  {| lp_entity := None; lp_since := None; lp_until := None; lp_limit := 0;
     lp_host_ids := Some [uuid_display 8] |}.

Definition edges_seen (o : outcome StorageError (list EntityRelationship)) : nat :=
  match o with Ok es => List.length es | _ => 0 end.

Lemma deleted_id_moves_edges :
  let d1 := (write_relationships no_fault [old_edge] sample_db).2 in
  let d2 := (delete false 35 d1).2 in
  let d3 := (batch_write no_fault [store_event 1 8 40 "9"] d2).2 in
  edges_seen (query_relationships false host_eight_plan d1) = 0%nat
  /\ edges_seen (query_relationships false host_eight_plan d3) = 1%nat.
Proof. split; vm_compute; reflexivity. Qed.
