(* ===== verification/Fleet.v ===== *)
(** * The fleet: hosts, groups and group policies ([crates/osiris-fleet])

    The tables of [hosts.db]: registered hosts with their last heartbeat ([lib.rs]), tenant
    scoped groups and their members ([groups.rs]), group policies and the state of their
    delivery ([policies.rs]).  Ids are kept as uuids where the columns hold their text. *)

From S2P Require Import Prelude Concrete BTree Json Schema Policy Health Sql.

(** ** [lib.rs]: the host registry *)

(** [i64::try_from(value).unwrap_or(i64::MAX)]. *)
Definition to_stored_i64 (value : Z) : Z := Z.min value (2 ^ 63 - 1).

Record HostRow := {
  hr_host_id : Uuid; hr_hostname : string; hr_distro : string; hr_kernel_version : string;
  hr_agent_version : string; hr_enrolled_at : Z; hr_last_seen : Z;
  hr_health_state : Health.HealthState; hr_cloud_provider : option string;
  hr_cloud_instance_id : option string; hr_cloud_region : option string;
  hr_applied_policy_hash : option string }.

Inductive FleetError := FleetSqlite.

Abbreviation hosts_table := (gmap Uuid HostRow) (only parsing).

(** A row as the [INSERT] writes it: the heartbeat's time twice. *)
Definition enrolled (row : HostRow) : HostRow :=
  let ts := to_stored_i64 (hr_last_seen row) in
  {| hr_host_id := hr_host_id row; hr_hostname := hr_hostname row; hr_distro := hr_distro row;
     hr_kernel_version := hr_kernel_version row; hr_agent_version := hr_agent_version row;
     hr_enrolled_at := ts; hr_last_seen := ts; hr_health_state := hr_health_state row;
     hr_cloud_provider := hr_cloud_provider row; hr_cloud_instance_id := hr_cloud_instance_id row;
     hr_cloud_region := hr_cloud_region row; hr_applied_policy_hash := hr_applied_policy_hash row |}.

(** [ON CONFLICT DO UPDATE SET ..]: everything but the enrolment time. *)
Definition updated (old new : HostRow) : HostRow :=
  {| hr_host_id := hr_host_id old; hr_hostname := hr_hostname new; hr_distro := hr_distro new;
     hr_kernel_version := hr_kernel_version new; hr_agent_version := hr_agent_version new;
     hr_enrolled_at := hr_enrolled_at old; hr_last_seen := Z.max (hr_last_seen old) (hr_last_seen new);
     hr_health_state := hr_health_state new; hr_cloud_provider := hr_cloud_provider new;
     hr_cloud_instance_id := hr_cloud_instance_id new; hr_cloud_region := hr_cloud_region new;
     hr_applied_policy_hash := hr_applied_policy_hash new |}.

Definition upsert_heartbeat (io : bool) (row : HostRow) (t : hosts_table)
  : outcome FleetError unit * hosts_table :=
  if io then (Err FleetSqlite, t)
  else
    let new := enrolled row in
    (Ok tt,
     match t !! hr_host_id row with
     | None => <[hr_host_id row := new]> t
     | Some old =>
         if hr_last_seen old <=? hr_last_seen new
         then <[hr_host_id row := updated old new]> t else t
     end).

Definition host_get (io : bool) (id : Uuid) (t : hosts_table) : outcome FleetError (option HostRow) :=
  if io then Err FleetSqlite else Ok (t !! id).

(** ** What a sequence of heartbeats leaves *)

(** What a row says but for when the host enrolled. *)
Definition report (r : HostRow) :=
  (hr_hostname r, hr_distro r, hr_kernel_version r, hr_agent_version r, hr_last_seen r,
   hr_health_state r, hr_cloud_provider r, hr_cloud_instance_id r, hr_cloud_region r,
   hr_applied_policy_hash r).

Definition heartbeats (rows : list HostRow) (t : hosts_table) : hosts_table :=
  fold_left (fun t row => (upsert_heartbeat false row t).2) rows t.

(** The heartbeats of one host, as stored. *)
Definition of_host (id : Uuid) (rows : list HostRow) : list HostRow :=
  map enrolled (List.filter (fun r => hr_host_id r =? id) rows).

(** Later than all before it, or as late. *)
Definition newest (best : HostRow) (rows : list HostRow) : HostRow :=
  fold_left (fun best r => if hr_last_seen best <=? hr_last_seen r then r else best) rows best.

Lemma heartbeats_spec id rows t :
  heartbeats rows t !! id
  = match t !! id with
    | Some old => Some (fold_left (fun old r => if hr_last_seen old <=? hr_last_seen r
                                               then updated old r else old) (of_host id rows) old)
    | None => match of_host id rows with
              | [] => None
              | r :: rs => Some (fold_left (fun old r => if hr_last_seen old <=? hr_last_seen r
                                                         then updated old r else old) rs r)
              end
    end.
Proof.
  revert t. induction rows as [|row rows IH]; intros t; cbn [heartbeats fold_left].
  { cbn. by destruct (t !! id). }
  fold (heartbeats rows (upsert_heartbeat false row t).2). rewrite IH. unfold of_host at 3 4.
  cbn [List.filter upsert_heartbeat snd]. destruct (Z.eqb_spec (hr_host_id row) id) as [<-|Hne].
  - cbn [map]. fold (of_host (hr_host_id row) rows).
    destruct (t !! hr_host_id row) as [old|] eqn:E.
    + cbn [fold_left]. destruct (_ <=? _); [by rewrite lookup_insert_eq|by rewrite E].
    + by rewrite lookup_insert_eq.
  - fold (of_host id rows).
    assert (forall r, <[hr_host_id row := r]> t !! id = t !! id) as Hi by (intros; by rewrite lookup_insert_ne).
    destruct (t !! hr_host_id row); [destruct (_ <=? _)|]; by rewrite ?Hi.
Qed.

Lemma updated_report old r : hr_last_seen old <= hr_last_seen r -> report (updated old r) = report r.
Proof. intros Hle. unfold report, updated. cbn. by rewrite Z.max_r by lia. Qed.

Lemma report_last_seen a b : report a = report b -> hr_last_seen a = hr_last_seen b.
Proof. unfold report. congruence. Qed.

(** The row reports the newest heartbeat and keeps the enrolment of the first. *)
Lemma fold_newest rows old best :
  report old = report best ->
  let row := fold_left (fun old r => if hr_last_seen old <=? hr_last_seen r then updated old r else old) rows old in
  report row = report (newest best rows) /\ hr_enrolled_at row = hr_enrolled_at old.
Proof.
  revert old best. induction rows as [|r rows IH]; intros old best E; cbn [fold_left newest]; [done|].
  pose proof (report_last_seen _ _ E) as El. rewrite El.
  destruct (Z.leb_spec (hr_last_seen best) (hr_last_seen r)).
  - apply (IH (updated old r) r). apply updated_report. lia.
  - by apply IH.
Qed.

Lemma newest_max rows best r :
  r ∈ best :: rows -> hr_last_seen r <= hr_last_seen (newest best rows).
Proof.
  revert best r. induction rows as [|x rows IH]; intros best r Hr; cbn [newest fold_left].
  - apply list_elem_of_singleton in Hr as ->. lia.
  - fold (newest (if hr_last_seen best <=? hr_last_seen x then x else best) rows).
    set (b := if _ <=? _ then _ else _).
    assert (hr_last_seen b <= hr_last_seen (newest b rows)) as Hb by (apply IH; by left).
    rewrite !elem_of_cons in Hr. destruct Hr as [->|[->|Hr]]; [| |apply IH; by right].
    all: subst b; destruct (Z.leb_spec (hr_last_seen best) (hr_last_seen x)); lia.
Qed.

Lemma newest_elem rows best : newest best rows ∈ best :: rows.
Proof.
  revert best. induction rows as [|x rows IH]; intros best; cbn [newest fold_left]; [by left|].
  fold (newest (if hr_last_seen best <=? hr_last_seen x then x else best) rows).
  specialize (IH (if hr_last_seen best <=? hr_last_seen x then x else best)).
  rewrite !elem_of_cons in *. destruct (_ <=? _); tauto.
Qed.

(** Two arrival orders of heartbeats with distinct times leave the same report. *)
Lemma heartbeats_order_independent id rows rows' :
  rows ≡ₚ rows' -> NoDup (map hr_last_seen (of_host id rows)) ->
  option_map report (heartbeats rows ∅ !! id) = option_map report (heartbeats rows' ∅ !! id).
Proof.
  intros Hp Hn. rewrite !heartbeats_spec, lookup_empty.
  assert (of_host id rows ≡ₚ of_host id rows') as Hh by (unfold of_host; by rewrite Hp).
  destruct (of_host id rows) as [|r rs] eqn:E, (of_host id rows') as [|r' rs'] eqn:E'.
  - done.
  - by apply Permutation_nil_cons in Hh.
  - symmetry in Hh. by apply Permutation_nil_cons in Hh.
  - cbn [option_map]. f_equal.
    rewrite (proj1 (fold_newest rs r r eq_refl)), (proj1 (fold_newest rs' r' r' eq_refl)). f_equal.
    pose proof (newest_elem rs r) as H1. pose proof (newest_elem rs' r') as H2.
    assert (hr_last_seen (newest r rs) = hr_last_seen (newest r' rs')) as El.
    { apply Z.le_antisymm; apply newest_max; [rewrite <- Hh|rewrite Hh]; done. }
    rewrite <- Hh in H2. apply list_elem_of_lookup in H1 as [i Hi], H2 as [j Hj].
    assert (i = j) as -> by (eapply NoDup_lookup; [exact Hn| |]; rewrite list_lookup_fmap, ?Hi, ?Hj;
      cbn; by rewrite ?El). congruence.
Qed.

(** No row is seen in the future of the clock that capped its heartbeats. *)
Lemma heartbeats_capped id rows now row :
  Forall (fun r => hr_last_seen r <= now) rows -> heartbeats rows ∅ !! id = Some row ->
  hr_last_seen row <= now /\ hr_enrolled_at row <= hr_last_seen row.
Proof.
  intros Hf E. rewrite heartbeats_spec, lookup_empty in E.
  destruct (of_host id rows) as [|r rs] eqn:Eh; [done|]. injection E as <-.
  destruct (fold_newest rs r r eq_refl) as [Er En]. rewrite En, (report_last_seen _ _ Er).
  assert (forall x, x ∈ r :: rs -> hr_last_seen x <= now /\ hr_enrolled_at x = hr_last_seen x) as Hx.
  { rewrite <- Eh. intros x Hx. unfold of_host in Hx. apply list_elem_of_fmap in Hx as (y & -> & Hy).
    apply elem_of_filter_b in Hy as [Hy _]. rewrite Forall_forall in Hf. apply Hf in Hy.
    cbn. unfold to_stored_i64. lia. }
  split; [by apply Hx, newest_elem|]. rewrite (proj2 (Hx r ltac:(by left))).
  apply newest_max. by left.
Qed.
