(* ===== verification/Groups.v ===== *)
(** * Host groups, group policies and tenants

    [crates/osiris-fleet/src/groups.rs] and [policies.rs]: tenant scoped groups of registered
    hosts, the policy of a group and the state of its delivery, tables of one database whose
    foreign keys are enforced.  [crates/osiris-tenancy/src/store.rs]: tenants and the tenant
    of a host.  Ids are kept as uuids where the columns hold their text. *)

From S2P Require Import Prelude Concrete BTree Json Schema Policy Health Sql StoreConcrete Fleet.

(** ** [groups.rs]: data *)

Definition MAX_GROUP_NAME_CHARS : Z := 64.

Inductive GroupScope := ScopePlatform | ScopeTenant (t : Uuid).

Definition tenant_param (s : GroupScope) : option Uuid :=
  match s with ScopePlatform => None | ScopeTenant t => Some t end.

Record HostGroup := {
  hg_group_id : Uuid; hg_name : string; hg_tenant_id : option Uuid; hg_created_at : Z;
  hg_member_count : Z }.

Record GroupRef := { gref_group_id : Uuid; gref_name : string }.

Inductive GroupError :=
| InvalidName
| InvalidPolicy
| GroupNotFound
| DuplicateName
| UnknownHost
| GroupBackend.

(** [char::is_control]: the general category Cc. *)
Definition is_control (c : char) : bool := (c <=? 31) || ((127 <=? c) && (c <=? 159)).

Definition validate_group_name (raw : string) : outcome GroupError string :=
  let name := trim_chars (chars raw) in
  match name with
  | [] => Err InvalidName
  | _ =>
      if MAX_GROUP_NAME_CHARS <? Z.of_nat (List.length name) then Err InvalidName
      else if existsb is_control name then Err InvalidName
      else Ok (string_of_chars name)
  end.

(** ** [policies.rs]: data *)

Inductive DeliveryResult := DExecuted | DRefused | DFailed | DOffline | DTimedOut.

Definition as_str (r : DeliveryResult) : string :=
  match r with
  | DExecuted => "EXECUTED" | DRefused => "REFUSED" | DFailed => "FAILED"
  | DOffline => "OFFLINE" | DTimedOut => "TIMED_OUT"
  end.

Definition delivery_parse (s : string) : option DeliveryResult :=
  List.find (fun r => String.eqb (as_str r) s) [DExecuted; DRefused; DFailed; DOffline; DTimedOut].

Record DeliveryRow := {
  dr_host_id : Uuid; dr_desired_hash : string; dr_last_sent_at : Z;
  dr_last_result : DeliveryResult; dr_last_error : option string }.

(** ** The tables *)

Record GroupRow := { grow_name : string; grow_tenant : option Uuid; grow_created_at : Z }.
Record PolicyRow := { prow_json : list byte; prow_updated_at : Z; prow_updated_by : string }.
Record StoredDelivery := {
  drow_desired_hash : string; drow_last_sent_at : Z; drow_last_result : string;
  drow_last_error : option string }.

Record FleetDb := {
  f_hosts : gmap Uuid HostRow;
  f_groups : gmap Uuid GroupRow;
  f_members : gmap (Uuid * Uuid) Z;
  f_policies : gmap Uuid PolicyRow;
  f_deliveries : gmap Uuid StoredDelivery }.

Definition fleet_empty : FleetDb := Build_FleetDb ∅ ∅ ∅ ∅ ∅.

Definition with_hosts (t : gmap Uuid HostRow) (d : FleetDb) : FleetDb :=
  Build_FleetDb t (f_groups d) (f_members d) (f_policies d) (f_deliveries d).
Definition with_groups (t : gmap Uuid GroupRow) (d : FleetDb) : FleetDb :=
  Build_FleetDb (f_hosts d) t (f_members d) (f_policies d) (f_deliveries d).
Definition with_members (t : gmap (Uuid * Uuid) Z) (d : FleetDb) : FleetDb :=
  Build_FleetDb (f_hosts d) (f_groups d) t (f_policies d) (f_deliveries d).
Definition with_policies (t : gmap Uuid PolicyRow) (d : FleetDb) : FleetDb :=
  Build_FleetDb (f_hosts d) (f_groups d) (f_members d) t (f_deliveries d).
Definition with_deliveries (t : gmap Uuid StoredDelivery) (d : FleetDb) : FleetDb :=
  Build_FleetDb (f_hosts d) (f_groups d) (f_members d) (f_policies d) t.

(** The unique index on [COALESCE(tenant_id, ''), name]: another group with this key. *)
Definition name_taken (own : Uuid) (tenant : option Uuid) (name : string) (d : FleetDb) : bool :=
  existsb (fun '(g, r) => negb (g =? own) && bool_decide (grow_tenant r = tenant)
                          && String.eqb (grow_name r) name) (map_to_list (f_groups d)).

(** [(?N IS NULL OR g.tenant_id = ?N)]. *)
Definition visible (scope : GroupScope) (r : GroupRow) : bool :=
  match tenant_param scope with
  | None => true
  | Some t => bool_decide (grow_tenant r = Some t)
  end.

Section Stores.
Context `{UuidText} `{Sqlite} `{policy_serde : !Serde GroupPolicy}.

(** ** [groups.rs]: operations.  Every statement may fail. *)

Definition member_count (g : Uuid) (d : FleetDb) : Z :=
  Z.of_nat (List.length (List.filter (fun '(m, _) => m.1 =? g) (map_to_list (f_members d)))).

Definition group_from (g : Uuid) (r : GroupRow) (d : FleetDb) : HostGroup :=
  {| hg_group_id := g; hg_name := grow_name r; hg_tenant_id := grow_tenant r;
     hg_created_at := as_u64 (grow_created_at r); hg_member_count := member_count g d |}.

Definition get_in_scope (io : bool) (scope : GroupScope) (g : Uuid) (d : FleetDb)
  : outcome GroupError HostGroup :=
  if io then Err GroupBackend
  else match f_groups d !! g with
       | Some r => if visible scope r then Ok (group_from g r d) else Err GroupNotFound
       | None => Err GroupNotFound
       end.

(** [new_id] is a fresh uuid, so a taken primary key is an error of the back end. *)
Definition create (io : bool) (new_id now : Z) (scope : GroupScope) (tenant_id : option Uuid)
    (name : string) (d : FleetDb) : outcome GroupError HostGroup * FleetDb :=
  match validate_group_name name with
  | Ok name =>
      let owner := match scope with ScopeTenant t => Some t | ScopePlatform => tenant_id end in
      let group := {| hg_group_id := new_id; hg_name := name; hg_tenant_id := owner;
                      hg_created_at := now; hg_member_count := 0 |} in
      if io then (Err GroupBackend, d)
      else if bool_decide (is_Some (f_groups d !! new_id)) then (Err GroupBackend, d)
      else if name_taken new_id owner name d then (Err DuplicateName, d)
      else (Ok group,
            with_groups (<[new_id := {| grow_name := name; grow_tenant := owner;
                                        grow_created_at := to_stored_i64 now |}]> (f_groups d)) d)
  | Err e => (Err e, d)
  | Panic => (Panic, d)
  end.

(** [ORDER BY g.name, g.group_id]. *)
Definition name_id_le (a b : string * Uuid) : bool :=
  str_ltb a.1 b.1 || (String.eqb a.1 b.1 && negb (str_ltb (uuid_display b.2) (uuid_display a.2))).

Definition group_list (io : bool) (scope : GroupScope) (d : FleetDb) : outcome GroupError (list HostGroup) :=
  if io then Err GroupBackend
  else Ok (map (fun '(g, r) => group_from g r d)
             (order_by (fun a b => name_id_le (grow_name a.2, a.1) (grow_name b.2, b.1))
                (List.filter (fun '(_, r) => visible scope r) (map_to_list (f_groups d))))).

Definition rename (io io' : bool) (scope : GroupScope) (g : Uuid) (name : string) (d : FleetDb)
  : outcome GroupError HostGroup * FleetDb :=
  match validate_group_name name with
  | Ok name =>
      if io then (Err GroupBackend, d)
      else match f_groups d !! g with
           | Some r =>
               if visible scope r then
                 if name_taken g (grow_tenant r) name d then (Err DuplicateName, d)
                 else
                   let d := with_groups (<[g := {| grow_name := name; grow_tenant := grow_tenant r;
                                                   grow_created_at := grow_created_at r |}]> (f_groups d)) d in
                   (get_in_scope io' scope g d, d)
               else (Err GroupNotFound, d)
           | None => (Err GroupNotFound, d)
           end
  | Err e => (Err e, d)
  | Panic => (Panic, d)
  end.

(** The rows of other tables that refer to the group go with it. *)
Definition group_delete (io : bool) (scope : GroupScope) (g : Uuid) (d : FleetDb)
  : outcome GroupError unit * FleetDb :=
  if io then (Err GroupBackend, d)
  else match f_groups d !! g with
       | Some r =>
           if visible scope r then
             (Ok tt,
              with_policies (base.delete g (f_policies d))
                (with_members (filter (fun m => m.1.1 <> g) (f_members d))
                  (with_groups (base.delete g (f_groups d)) d)))
           else (Err GroupNotFound, d)
       | None => (Err GroupNotFound, d)
       end.

(** [self.get_in_scope(..)?] before a statement. *)
Definition in_scope_then {A} (io : bool) (scope : GroupScope) (g : Uuid) (d : FleetDb)
    (k : outcome GroupError A * FleetDb) : outcome GroupError A * FleetDb :=
  match get_in_scope io scope g d with
  | Ok _ => k
  | Err e => (Err e, d)
  | Panic => (Panic, d)
  end.

Definition add_member (io io' : bool) (now : Z) (scope : GroupScope) (g h : Uuid) (d : FleetDb)
  : outcome GroupError unit * FleetDb :=
  in_scope_then io scope g d
    (if io' then (Err GroupBackend, d)
     else match f_members d !! (g, h) with
          | Some _ => (Ok tt, d)
          | None =>
              match f_hosts d !! h with
              | Some _ => (Ok tt, with_members (<[(g, h) := to_stored_i64 now]> (f_members d)) d)
              | None => (Err UnknownHost, d)
              end
          end).

Definition remove_member (io io' : bool) (scope : GroupScope) (g h : Uuid) (d : FleetDb)
  : outcome GroupError unit * FleetDb :=
  in_scope_then io scope g d
    (if io' then (Err GroupBackend, d) else (Ok tt, with_members (base.delete (g, h) (f_members d)) d)).

Definition hosts_of_group_raw (io : bool) (g : Uuid) (d : FleetDb) : outcome GroupError (list Uuid) :=
  if io then Err GroupBackend
  else Ok (order_by (fun a b => negb (str_ltb (uuid_display b) (uuid_display a)))
             (map (fun m => m.1.2) (List.filter (fun m => m.1.1 =? g) (map_to_list (f_members d))))).

Definition members (io io' : bool) (scope : GroupScope) (g : Uuid) (d : FleetDb)
  : outcome GroupError (list Uuid) :=
  let? _ := get_in_scope io scope g d in hosts_of_group_raw io' g d.

(** [out.entry(host).or_default().push(x)]. *)
Definition push_row {B} (out : gmap Uuid (list B)) (row : Uuid * B) : gmap Uuid (list B) :=
  <[row.1 := default [] (out !! row.1) ++ [row.2]]> out.

(** Members joined with the groups in scope. *)
Definition member_rows (scope : GroupScope) (d : FleetDb) : list (Uuid * GroupRef) :=
  omap (fun '((g, h), _) =>
    match f_groups d !! g with
    | Some r => if visible scope r
                then Some (h, {| gref_group_id := g; gref_name := grow_name r |}) else None
    | None => None
    end) (map_to_list (f_members d)).

Definition row_le (a b : Uuid * GroupRef) : bool :=
  name_id_le (gref_name a.2, gref_group_id a.2) (gref_name b.2, gref_group_id b.2).

Definition groups_of (io : bool) (scope : GroupScope) (host_ids : list Uuid) (d : FleetDb)
  : outcome GroupError (gmap Uuid (list GroupRef)) :=
  if io then Err GroupBackend
  else Ok (fold_left push_row
             (List.filter (fun r => bool_decide (r.1 ∈ host_ids)) (order_by row_le (member_rows scope d))) ∅).

(** ** [policies.rs]: operations *)

Definition get_policy (io io' : bool) (scope : GroupScope) (g : Uuid) (d : FleetDb)
  : outcome GroupError (option GroupPolicy) :=
  let? _ := get_in_scope io scope g d in
  if io' then Err GroupBackend
  else match f_policies d !! g with
       | Some p => let? p := ok_or (from_slice (prow_json p)) GroupBackend in Ok (Some p)
       | None => Ok None
       end.

Definition set_policy (io io' : bool) (now : Z) (scope : GroupScope) (g : Uuid) (p : GroupPolicy)
    (updated_by : string) (d : FleetDb) : outcome GroupError unit * FleetDb :=
  match group_policy_validate p with
  | Ok _ =>
      match to_vec p with
      | Some json =>
          in_scope_then io scope g d
            (if io' then (Err GroupBackend, d)
             else (Ok tt, with_policies (<[g := {| prow_json := json; prow_updated_at := to_stored_i64 now;
                                                   prow_updated_by := updated_by |}]> (f_policies d)) d))
      | None => (Err GroupBackend, d)
      end
  | Err _ => (Err InvalidPolicy, d)
  | Panic => (Panic, d)
  end.

Definition clear_policy (io io' : bool) (scope : GroupScope) (g : Uuid) (d : FleetDb)
  : outcome GroupError unit * FleetDb :=
  in_scope_then io scope g d
    (if io' then (Err GroupBackend, d) else (Ok tt, with_policies (base.delete g (f_policies d)) d)).

(** [HOST_POLICIES]: members joined with the policies and groups. *)
Definition host_policies (d : FleetDb) : list (Uuid * (Uuid * option Uuid * list byte)) :=
  order_by (fun _ _ => true)
    (omap (fun '((g, h), _) =>
       match f_policies d !! g, f_groups d !! g with
       | Some p, Some r => Some (h, (g, grow_tenant r, prow_json p))
       | _, _ => None
       end) (map_to_list (f_members d))).

Definition policy_input (row : Uuid * option Uuid * list byte) : outcome GroupError GroupPolicyInput :=
  let '(g, tenant, json) := row in
  let? p := ok_or (from_slice json) GroupBackend in
  Ok {| group_id := g; group_tenant := tenant; policy := p |}.

Definition policies_for_host (io : bool) (h : Uuid) (d : FleetDb) : outcome GroupError (list GroupPolicyInput) :=
  if io then Err GroupBackend
  else collect (fun r => policy_input r.2) (List.filter (fun r => r.1 =? h) (host_policies d)).

Definition all_host_policies (io : bool) (d : FleetDb)
  : outcome GroupError (gmap Uuid (list GroupPolicyInput)) :=
  if io then Err GroupBackend
  else
    let? rows := collect (fun r => let? i := policy_input r.2 in Ok (r.1, i)) (host_policies d) in
    Ok (fold_left push_row rows ∅).

Definition record_delivery (io : bool) (row : DeliveryRow) (d : FleetDb) : outcome GroupError unit * FleetDb :=
  if io then (Err GroupBackend, d)
  else match f_hosts d !! dr_host_id row with
       | Some _ =>
           (Ok tt, with_deliveries (<[dr_host_id row :=
              {| drow_desired_hash := dr_desired_hash row;
                 drow_last_sent_at := to_stored_i64 (dr_last_sent_at row);
                 drow_last_result := as_str (dr_last_result row);
                 drow_last_error := dr_last_error row |}]> (f_deliveries d)) d)
       | None => (Err GroupBackend, d)
       end.

Definition delivery_from (h : Uuid) (r : StoredDelivery) : outcome GroupError DeliveryRow :=
  let? result := ok_or (delivery_parse (drow_last_result r)) GroupBackend in
  Ok {| dr_host_id := h; dr_desired_hash := drow_desired_hash r;
        dr_last_sent_at := as_u64 (drow_last_sent_at r); dr_last_result := result;
        dr_last_error := drow_last_error r |}.

Definition delivery (io : bool) (h : Uuid) (d : FleetDb) : outcome GroupError (option DeliveryRow) :=
  if io then Err GroupBackend
  else match f_deliveries d !! h with
       | Some r => let? row := delivery_from h r in Ok (Some row)
       | None => Ok None
       end.

Definition all_deliveries (io : bool) (d : FleetDb) : outcome GroupError (gmap Uuid DeliveryRow) :=
  if io then Err GroupBackend
  else
    let? rows := collect (fun '(h, r) => delivery_from h r) (map_to_list (f_deliveries d)) in
    Ok (list_to_map (map (fun r => (dr_host_id r, r)) rows)).

(** ** The invariant of the tables *)

(** Foreign keys hold, names are unique in their tenant, stored texts read back. *)
Record fleet_ok (d : FleetDb) : Prop := {
  fo_members g h x : f_members d !! (g, h) = Some x -> is_Some (f_groups d !! g) /\ is_Some (f_hosts d !! h);
  fo_policies g p : f_policies d !! g = Some p ->
    is_Some (f_groups d !! g)
    /\ exists q, from_slice (prow_json p) = Some q /\ group_policy_validate q = Ok tt;
  fo_deliveries h r : f_deliveries d !! h = Some r ->
    is_Some (f_hosts d !! h) /\ is_Some (delivery_parse (drow_last_result r));
  fo_names g g' r r' : f_groups d !! g = Some r -> f_groups d !! g' = Some r' ->
    grow_tenant r = grow_tenant r' -> grow_name r = grow_name r' -> g = g' }.

(** What an operator asks of the store; failures of the statements are part of it. *)
Inductive group_op :=
| OpCreate (io : bool) (new_id now : Z) (tenant_id : option Uuid) (name : string)
| OpRename (io io' : bool) (g : Uuid) (name : string)
| OpDelete (io : bool) (g : Uuid)
| OpAdd (io io' : bool) (now : Z) (g h : Uuid)
| OpRemove (io io' : bool) (g h : Uuid)
| OpSet (io io' : bool) (now : Z) (g : Uuid) (p : GroupPolicy) (updated_by : string)
| OpClear (io io' : bool) (g : Uuid).

Definition answered {A} (f : A -> option HostGroup) (r : outcome GroupError A * FleetDb)
  : outcome GroupError (option HostGroup) * FleetDb :=
  (let? a := r.1 in Ok (f a), r.2).

Definition group_step (scope : GroupScope) (o : group_op) (d : FleetDb)
  : outcome GroupError (option HostGroup) * FleetDb :=
  let no_group (r : outcome GroupError unit * FleetDb) := answered (fun _ => None) r in
  match o with
  | OpCreate io new_id now tenant_id name => answered Some (create io new_id now scope tenant_id name d)
  | OpRename io io' g name => answered Some (rename io io' scope g name d)
  | OpDelete io g => no_group (group_delete io scope g d)
  | OpAdd io io' now g h => no_group (add_member io io' now scope g h d)
  | OpRemove io io' g h => no_group (remove_member io io' scope g h d)
  | OpSet io io' now g p updated_by => no_group (set_policy io io' now scope g p updated_by d)
  | OpClear io io' g => no_group (clear_policy io io' scope g d)
  end.

(** Everything that changes the database. *)
Inductive fleet_step : FleetDb -> FleetDb -> Prop :=
| step_group scope o d : fleet_step d (group_step scope o d).2
| step_heartbeat io row d : fleet_step d (with_hosts (upsert_heartbeat io row (f_hosts d)).2 d)
| step_delivery io row d : fleet_step d (record_delivery io row d).2.

Lemma name_taken_spec own tenant name d :
  name_taken own tenant name d = true <->
  exists g r, f_groups d !! g = Some r /\ g <> own /\ grow_tenant r = tenant /\ grow_name r = name.
Proof.
  unfold name_taken. rewrite existsb_exists. split.
  - intros ((g & r) & Hin & [[Hg Ht]%andb_true_iff Hn]%andb_true_iff). exists g, r.
    rewrite <- list_elem_of_In in Hin. apply elem_of_map_to_list in Hin.
    apply negb_true_iff, Z.eqb_neq in Hg. apply bool_decide_eq_true in Ht. apply String.eqb_eq in Hn. done.
  - intros (g & r & Hg & Hne & Ht & Hn). exists (g, r).
    rewrite <- list_elem_of_In, elem_of_map_to_list. split; [done|].
    rewrite !andb_true_iff, negb_true_iff, Z.eqb_neq, bool_decide_eq_true, String.eqb_eq. done.
Qed.

Lemma visible_tenant t r : visible (ScopeTenant t) r = true <-> grow_tenant r = Some t.
Proof. unfold visible. cbn. apply bool_decide_eq_true. Qed.

Lemma get_in_scope_ok io scope g d hg :
  get_in_scope io scope g d = Ok hg ->
  exists r, f_groups d !! g = Some r /\ visible scope r = true /\ hg = group_from g r d.
Proof.
  unfold get_in_scope. destruct io; [done|]. destruct (f_groups d !! g) as [r|]; [|done].
  destruct (visible scope r) eqn:E; [|done]. intros [= <-]. eauto.
Qed.

(** Every operation answers without a panic, whatever fails. *)
Lemma validate_group_name_no_panic name : no_panic (validate_group_name name).
Proof. unfold validate_group_name. destruct (trim_chars _); [done|]. by repeat case_match. Qed.

Lemma group_step_no_panic scope o d : no_panic (group_step scope o d).1.
Proof.
  pose proof validate_group_name_no_panic as Hv. pose proof validate_fields_no_panic as Hp.
  assert (forall io g, no_panic (get_in_scope io scope g d)) as Hg.
  { intros io g. unfold get_in_scope. by repeat case_match. }
  destruct o; cbn [group_step answered fst]; unfold create, rename, group_delete, add_member, remove_member,
    set_policy, clear_policy, in_scope_then, group_policy_validate, get_in_scope in *;
    repeat match goal with
    | |- context [validate_group_name ?n] => specialize (Hv n); destruct (validate_group_name n)
    | |- context [validate_fields ?a ?b] => specialize (Hp a b); destruct (validate_fields a b)
    end; try done; repeat case_match; simplify_eq/=; done.
Qed.

(** ** What an operation changes *)

Definition owned (scope : GroupScope) (g : Uuid) (d : FleetDb) : Prop :=
  exists r, f_groups d !! g = Some r /\ visible scope r = true.

Inductive group_change (scope : GroupScope) (d : FleetDb) : FleetDb -> Prop :=
| ch_none : group_change scope d d
| ch_group g r :
    (owned scope g d \/ f_groups d !! g = None) -> visible scope r = true ->
    (forall r0, f_groups d !! g = Some r0 -> grow_tenant r = grow_tenant r0) ->
    name_taken g (grow_tenant r) (grow_name r) d = false ->
    group_change scope d (with_groups (<[g := r]> (f_groups d)) d)
| ch_delete g : owned scope g d ->
    group_change scope d
      (with_policies (base.delete g (f_policies d))
        (with_members (filter (fun m => m.1.1 <> g) (f_members d))
          (with_groups (base.delete g (f_groups d)) d)))
| ch_add g h x : owned scope g d -> is_Some (f_hosts d !! h) ->
    group_change scope d (with_members (<[(g, h) := x]> (f_members d)) d)
| ch_remove g h : owned scope g d ->
    group_change scope d (with_members (base.delete (g, h) (f_members d)) d)
| ch_set g p q : owned scope g d -> from_slice (prow_json p) = Some q -> group_policy_validate q = Ok tt ->
    group_change scope d (with_policies (<[g := p]> (f_policies d)) d)
| ch_clear g : owned scope g d ->
    group_change scope d (with_policies (base.delete g (f_policies d)) d).

Lemma in_scope_then_change {A} io scope g d (k : outcome GroupError A * FleetDb) :
  (owned scope g d -> group_change scope d k.2) -> group_change scope d (in_scope_then io scope g d k).2.
Proof.
  intros Hk. unfold in_scope_then. destruct (get_in_scope io scope g d) as [hg| |] eqn:E;
    [|constructor..]. apply get_in_scope_ok in E as (r & Hr & Hv & _). apply Hk. by exists r.
Qed.

Lemma create_change io id now scope tenant name d :
  group_change scope d (create io id now scope tenant name d).2.
Proof.
  unfold create. destruct (validate_group_name name) as [nm| |]; [|constructor..].
  destruct io; [constructor|]. destruct (f_groups d !! id) as [r|] eqn:Eg; cbn; [constructor|].
  destruct (name_taken _ _ _ _) eqn:En; cbn; [constructor|]. apply ch_group; [by right| | |done].
  - destruct scope; [done|]. by apply visible_tenant.
  - intros r0. congruence.
Qed.

Lemma rename_change io io' scope g name d : group_change scope d (rename io io' scope g name d).2.
Proof.
  unfold rename. destruct (validate_group_name name) as [nm| |]; [|constructor..].
  destruct io; [constructor|]. destruct (f_groups d !! g) as [r|] eqn:Eg; [|constructor].
  destruct (visible scope r) eqn:Ev; [|constructor].
  destruct (name_taken _ _ _ _) eqn:En; cbn; [constructor|].
  apply ch_group; [left; by exists r|done| |done]. intros r0. rewrite Eg. by intros [= <-].
Qed.

Lemma delete_change io scope g d : group_change scope d (group_delete io scope g d).2.
Proof.
  unfold group_delete. destruct io; [constructor|]. destruct (f_groups d !! g) as [r|] eqn:Eg; [|constructor].
  destruct (visible scope r) eqn:Ev; [|constructor]. apply ch_delete. by exists r.
Qed.

Lemma group_step_change scope o d : group_change scope d (group_step scope o d).2.
Proof.
  destruct o; cbn [group_step answered snd]; auto using create_change, rename_change, delete_change.
  - apply in_scope_then_change. intros Ho. destruct io'; [constructor|].
    destruct (f_members d !! _); [constructor|]. destruct (f_hosts d !! h) eqn:E; [|constructor].
    by constructor.
  - apply in_scope_then_change. intros Ho. destruct io'; by constructor.
  - unfold set_policy. destruct (group_policy_validate p) as [[]| |] eqn:Ep; [|constructor..].
    destruct (to_vec p) as [j|] eqn:Ej; [|constructor]. apply in_scope_then_change. intros Ho.
    destruct io'; [constructor|]. by eapply ch_set; [done|apply serde_roundtrip|].
  - apply in_scope_then_change. intros Ho. destruct io'; by constructor.
Qed.

(** ** The invariant holds *)

Lemma change_groups_some scope d d' g : group_change scope d d' ->
  is_Some (f_groups d !! g) -> is_Some (f_groups d' !! g) \/
  (f_policies d' !! g = None /\ forall h, f_members d' !! (g, h) = None).
Proof.
  intros Hc Hg. destruct Hc as [|g' r|g' Ho| | | |]; cbn; auto.
  - left. destruct (decide (g = g')) as [->|]; [by rewrite lookup_insert_eq|by rewrite lookup_insert_ne].
  - destruct (decide (g = g')) as [->|].
    + right. split; [apply lookup_delete_eq|]. intros h. apply map_lookup_filter_None. right. naive_solver.
    + left. by rewrite lookup_delete_ne.
Qed.

Lemma owned_some scope g d : owned scope g d -> is_Some (f_groups d !! g).
Proof. intros (r & -> & _). eauto. Qed.

Lemma insert_is_some {V} (m : gmap Uuid V) k v g : is_Some (m !! g) -> is_Some (<[k := v]> m !! g).
Proof. rewrite lookup_insert_is_Some. destruct (decide (k = g)); auto. Qed.

Lemma change_names scope d d' : fleet_ok d -> group_change scope d d' ->
  forall g g' r r', f_groups d' !! g = Some r -> f_groups d' !! g' = Some r' ->
    grow_tenant r = grow_tenant r' -> grow_name r = grow_name r' -> g = g'.
Proof.
  intros Hd Hc g g' r r' Hg Hg' Ht Hm. pose proof (fo_names d Hd) as Hn.
  destruct Hc as [|k r0 _ _ _ Hfree| | | | |]; cbn in Hg, Hg'; eauto.
  - apply not_true_iff_false in Hfree. rewrite name_taken_spec in Hfree.
    apply lookup_insert_Some in Hg as [[<- <-]|[Hne Hg]], Hg' as [[<- <-]|[Hne' Hg']]; eauto;
      destruct Hfree; [exists g', r'|exists g, r]; auto.
  - apply lookup_delete_Some in Hg as [_ Hg], Hg' as [_ Hg']. eauto.
Qed.

Lemma change_ok scope d d' : fleet_ok d -> group_change scope d d' -> fleet_ok d'.
Proof.
  intros Hd Hc. split; [| | |by eapply change_names].
  - intros g h x. destruct Hc as [|k r|k|k h' y|k h'|k p|k]; cbn; intros Hm; try by eapply (fo_members d).
    + destruct (fo_members d Hd _ _ _ Hm). auto using insert_is_some.
    + apply map_lookup_filter_Some in Hm as [Hm Hne]. destruct (fo_members d Hd _ _ _ Hm).
      by rewrite lookup_delete_ne by (cbn in Hne; congruence).
    + apply lookup_insert_Some in Hm as [[[= -> ->] _]|[_ Hm]]; [|by eapply (fo_members d)].
      eauto using owned_some.
    + apply lookup_delete_Some in Hm as [_ Hm]. by eapply (fo_members d).
  - intros g q. destruct Hc as [|k r|k|k h' y|k h'|k p|k]; cbn; intros Hm; try by eapply (fo_policies d).
    + destruct (fo_policies d Hd _ _ Hm). auto using insert_is_some.
    + apply lookup_delete_Some in Hm as [Hne Hm]. rewrite lookup_delete_ne by done. by apply (fo_policies d).
    + apply lookup_insert_Some in Hm as [[<- <-]|[_ Hm]]; [|by apply (fo_policies d)].
      split; [by eapply owned_some|eauto].
    + apply lookup_delete_Some in Hm as [_ Hm]. by apply (fo_policies d).
  - intros h r. destruct Hc; cbn; apply (fo_deliveries d Hd).
Qed.

Lemma heartbeat_hosts io row t h : is_Some (t !! h) -> is_Some ((upsert_heartbeat io row t).2 !! h).
Proof.
  unfold upsert_heartbeat. destruct io; [done|]. cbn. intros Hh.
  destruct (t !! hr_host_id row) as [old|]; [destruct (hr_last_seen old <=? _)|]; auto using insert_is_some.
Qed.

Lemma delivery_parse_as_str r : delivery_parse (as_str r) = Some r.
Proof. by destruct r. Qed.

Lemma fleet_step_ok d d' : fleet_step d d' -> fleet_ok d -> fleet_ok d'.
Proof.
  intros [scope o d0|io row d0|io row d0] Hd.
  - eapply change_ok; [done|apply group_step_change].
  - split; cbn; [| | |apply (fo_names d0 Hd)].
    + intros g h x Hm. destruct (fo_members d0 Hd _ _ _ Hm). auto using heartbeat_hosts.
    + apply (fo_policies d0 Hd).
    + intros h r Hr. destruct (fo_deliveries d0 Hd _ _ Hr). auto using heartbeat_hosts.
  - unfold record_delivery. destruct io; [done|].
    destruct (f_hosts d0 !! dr_host_id row) as [hr|] eqn:E; [|done].
    split; cbn; [apply (fo_members d0 Hd)|apply (fo_policies d0 Hd)| |apply (fo_names d0 Hd)].
    intros h r [[<- <-]|[_ Hr]]%lookup_insert_Some; [|by apply (fo_deliveries d0 Hd)].
    split; [rewrite E; eauto|]. change (is_Some (delivery_parse (as_str (dr_last_result row)))).
    rewrite delivery_parse_as_str. eauto.
Qed.

Lemma fleet_empty_ok : fleet_ok fleet_empty.
Proof. split; cbn; intros *; rewrite lookup_empty; done. Qed.

Lemma fleet_reachable_ok d : rtc fleet_step fleet_empty d -> fleet_ok d.
Proof.
  intros Hr. pose proof fleet_empty_ok as He. induction Hr; eauto using fleet_step_ok.
Qed.

(** ** A tenant's operations and the rest of the fleet *)

(** Everything outside the tenant is as before. *)
Record untouched (t : Uuid) (d d' : FleetDb) : Prop := {
  un_groups g r : grow_tenant r <> Some t -> f_groups d !! g = Some r <-> f_groups d' !! g = Some r;
  un_rest g r : f_groups d !! g = Some r -> grow_tenant r <> Some t ->
    f_policies d' !! g = f_policies d !! g /\ forall h, f_members d' !! (g, h) = f_members d !! (g, h);
  un_hosts : f_hosts d' = f_hosts d;
  un_deliveries : f_deliveries d' = f_deliveries d }.

#[local] Instance untouched_preorder t : PreOrder (untouched t).
Proof.
  split; [by split|]. intros d1 d2 d3 H1 H2. split.
  - intros g r Hr. by rewrite (un_groups _ _ _ H1 g r Hr), (un_groups _ _ _ H2 g r Hr).
  - intros g r Hg Hr. destruct (un_rest _ _ _ H1 g r Hg Hr) as [<- Hm].
    apply (un_groups _ _ _ H1 g r Hr) in Hg. destruct (un_rest _ _ _ H2 g r Hg Hr) as [<- Hm'].
    split; [done|]. intros h. by rewrite Hm'.
  - by rewrite (un_hosts _ _ _ H2), (un_hosts _ _ _ H1).
  - by rewrite (un_deliveries _ _ _ H2), (un_deliveries _ _ _ H1).
Qed.

Lemma owned_foreign t g d r :
  owned (ScopeTenant t) g d -> f_groups d !! g = Some r -> grow_tenant r <> Some t -> False.
Proof. intros (r' & E & Hv%visible_tenant) E' Hr. congruence. Qed.

Lemma change_untouched t d d' : group_change (ScopeTenant t) d d' -> untouched t d d'.
Proof.
  intros Hc. destruct Hc as [|g r Hg Hv%visible_tenant _ _|g Ho|g h x Ho _|g h Ho|g p q Ho _ _|g Ho];
    [done|split; cbn; try done..].
  - intros k r' Hr. rewrite lookup_insert_Some. split; [|naive_solver]. intros Hk. right. split; [|done].
    intros ->. destruct Hg as [Ho|Hn]; [by eapply owned_foreign|congruence].
  - intros k r' Hr. rewrite lookup_delete_Some. split; [|naive_solver]. intros Hk. split; [|done].
    intros ->. by eapply owned_foreign.
  - intros k r' Hk Hr. assert (k <> g) as Hne by (intros ->; by eapply owned_foreign).
    split; [by rewrite lookup_delete_ne|]. intros h. apply option_eq. intros x.
    rewrite map_lookup_filter_Some. naive_solver.
  - intros k r' Hk Hr. assert (k <> g) as Hne by (intros ->; by eapply owned_foreign).
    split; [done|]. intros h'. rewrite lookup_insert_ne; [done|congruence].
  - intros k r' Hk Hr. assert (k <> g) as Hne by (intros ->; by eapply owned_foreign).
    split; [done|]. intros h'. rewrite lookup_delete_ne; [done|congruence].
  - intros k r' Hk Hr. assert (k <> g) as Hne by (intros ->; by eapply owned_foreign).
    split; [by rewrite lookup_insert_ne|done].
  - intros k r' Hk Hr. assert (k <> g) as Hne by (intros ->; by eapply owned_foreign).
    split; [by rewrite lookup_delete_ne|done].
Qed.

Definition group_run (scope : GroupScope) (ops : list group_op) (d : FleetDb) : FleetDb :=
  fold_left (fun d o => (group_step scope o d).2) ops d.

Lemma group_run_untouched t ops d : untouched t d (group_run (ScopeTenant t) ops d).
Proof.
  revert d. induction ops as [|o ops IH]; intros d; cbn; [done|].
  etrans; [apply change_untouched, group_step_change|apply IH].
Qed.

Lemma group_run_ok scope ops d : fleet_ok d -> fleet_ok (group_run scope ops d).
Proof.
  revert d. induction ops as [|o ops IH]; intros d Hd; cbn; [done|].
  apply IH. eapply change_ok; [done|apply group_step_change].
Qed.

(** ** The policies of a host *)

Definition input_of (row : Uuid * option Uuid * list byte) (i : GroupPolicyInput) : Prop :=
  row.1.1 = group_id i /\ row.1.2 = group_tenant i /\ from_slice row.2 = Some (policy i).

(** Group [group_id i] has the host as a member, this tenant, and this policy. *)
Definition applies_to (d : FleetDb) (h : Uuid) (i : GroupPolicyInput) : Prop :=
  is_Some (f_members d !! (group_id i, h))
  /\ (exists r, f_groups d !! group_id i = Some r /\ grow_tenant r = group_tenant i)
  /\ (exists p, f_policies d !! group_id i = Some p /\ from_slice (prow_json p) = Some (policy i)).

Lemma elem_of_host_policies d h g t j :
  (h, (g, t, j)) ∈ host_policies d <->
  is_Some (f_members d !! (g, h)) /\ (exists r, f_groups d !! g = Some r /\ grow_tenant r = t)
  /\ (exists p, f_policies d !! g = Some p /\ prow_json p = j).
Proof.
  unfold host_policies. rewrite order_by_perm, list_elem_of_omap. split.
  - intros ([[g' h'] x] & Hm & E). apply elem_of_map_to_list in Hm.
    destruct (f_policies d !! g') as [p|] eqn:Ep; [|done]. destruct (f_groups d !! g') as [r|] eqn:Er; [|done].
    injection E as -> -> <- <-. eauto 10.
  - intros ([x Hx] & (r & Er & <-) & (p & Ep & <-)). exists ((g, h), x). rewrite elem_of_map_to_list.
    split; [done|]. by rewrite Ep, Er.
Qed.

Lemma host_policies_nodup d : NoDup (map (fun r => (r.2.1.1, r.1)) (host_policies d)).
Proof.
  unfold host_policies. rewrite order_by_perm. eapply omap_nodup; [|apply NoDup_fst_map_to_list].
  intros [[g h] x] [h' [[g' t] j]]. cbn. by repeat case_match; intros [= <- <- <- <-].
Qed.

Lemma policy_input_spec g t j i :
  policy_input (g, t, j) = Ok i <-> g = group_id i /\ t = group_tenant i /\ from_slice j = Some (policy i).
Proof.
  unfold policy_input. destruct (from_slice j) as [p|]; cbn; [|naive_solver].
  split; [by intros [= <-]|]. intros (-> & -> & [= ->]). by destruct i.
Qed.

Lemma policies_for_host_spec d h : fleet_ok d ->
  exists ins, policies_for_host false h d = Ok ins /\ NoDup (map group_id ins)
             /\ forall i, i ∈ ins <-> applies_to d h i.
Proof.
  intros Hd. unfold policies_for_host.
  set (rows := List.filter (fun r => r.1 =? h) (host_policies d)).
  assert (forall h' g t j, (h', (g, t, j)) ∈ rows -> h' = h /\ (h, (g, t, j)) ∈ host_policies d) as Hrows.
  { intros h' g t j [Hin Eh%Z.eqb_eq]%elem_of_filter_b. cbn in Eh. by subst. }
  destruct (collect_total (fun r => policy_input r.2) rows) as (ins & Ec & Hf).
  { apply Forall_forall. intros [h' [[g t] j]] Hin. destruct (Hrows _ _ _ _ Hin) as [-> Hin'].
    apply elem_of_host_policies in Hin' as (_ & _ & p & Hp & <-).
    destruct (fo_policies d Hd _ _ Hp) as (_ & q & Hq & _).
    exists {| group_id := g; group_tenant := t; policy := q |}. by apply policy_input_spec. }
  exists ins. split; [done|].
  assert (map group_id ins = map (fun r => r.2.1.1) rows) as Eids.
  { clear -Hf. induction Hf as [|[h' [[g t] j]] i rows ins Hi _ IH]; cbn; [done|].
    apply policy_input_spec in Hi as (-> & _). by f_equal. }
  split.
  - rewrite Eids. apply (NoDup_fmap_1 (fun g => (g, h))). rewrite map_map.
    rewrite (map_ext_in _ (fun r => (r.2.1.1, r.1))); [apply filter_nodup, host_policies_nodup|].
    intros [h' [[g t] j]] Hin%list_elem_of_In. destruct (Hrows _ _ _ _ Hin) as [-> _]. done.
  - intros i. split.
    + intros Hi. destruct (collect_elem _ _ _ _ Ec Hi) as ([h' [[g t] j]] & Hin & Ei).
      destruct (Hrows _ _ _ _ Hin) as [-> Hin']. apply policy_input_spec in Ei as (-> & -> & Ej).
      apply elem_of_host_policies in Hin' as (Hm & Hr & p & Hp & <-). unfold applies_to. eauto.
    + intros (Hm & Hr & p & Hp & Hq).
      assert ((h, (group_id i, group_tenant i, prow_json p)) ∈ rows) as Hin.
      { apply elem_of_filter_b. split; [apply elem_of_host_policies; eauto|apply Z.eqb_refl]. }
      apply list_elem_of_lookup in Hin as [k Hk]. destruct (Forall2_lookup_l _ _ _ _ _ Hf Hk) as (i' & Hi' & Ei).
      assert (i' = i) as -> by (apply policy_input_spec in Ei as (? & ? & ?); destruct i, i'; cbn in *; congruence).
      by eapply list_elem_of_lookup_2.
Qed.

Lemma untouched_applies t d d' h i :
  fleet_ok d -> fleet_ok d' -> untouched t d d' -> group_tenant i <> Some t ->
  applies_to d h i <-> applies_to d' h i.
Proof.
  intros Hd Hd' Hu Hi. unfold applies_to.
  assert (forall r, grow_tenant r = group_tenant i ->
    f_groups d !! group_id i = Some r <-> f_groups d' !! group_id i = Some r) as Hg.
  { intros r Hr. apply (un_groups _ _ _ Hu). congruence. }
  assert (forall r, f_groups d !! group_id i = Some r -> grow_tenant r = group_tenant i ->
    f_policies d' !! group_id i = f_policies d !! group_id i
    /\ forall h, f_members d' !! (group_id i, h) = f_members d !! (group_id i, h)) as Hr.
  { intros r Er Et. apply (un_rest _ _ _ Hu _ r Er). congruence. }
  split; intros (Hm & (r & Er & Et) & Hp).
  - destruct (Hr r Er Et) as [-> ->]. split; [done|]. split; [|done]. exists r. by rewrite <- Hg.
  - rewrite <- (Hg r Et) in Er. destruct (Hr r Er Et) as [E1 E2]. rewrite E1 in Hp. rewrite E2 in Hm. eauto.
Qed.

(** ** What a tenant sees *)

(** Two databases a tenant cannot tell apart: its groups with their members and policies, and
    which hosts are registered. *)
Record same_view (t : Uuid) (d1 d2 : FleetDb) : Prop := {
  sv_groups g r : grow_tenant r = Some t -> f_groups d1 !! g = Some r <-> f_groups d2 !! g = Some r;
  sv_rest g r : f_groups d1 !! g = Some r -> grow_tenant r = Some t ->
    f_policies d1 !! g = f_policies d2 !! g /\ forall h, f_members d1 !! (g, h) = f_members d2 !! (g, h);
  sv_hosts h : is_Some (f_hosts d1 !! h) <-> is_Some (f_hosts d2 !! h) }.

#[local] Instance same_view_equiv t : Equivalence (same_view t).
Proof.
  split; [done|intros d1 d2 Hv|intros d1 d2 d3 H1 H2]; split.
  - intros g r Hr. symmetry. by apply (sv_groups _ _ _ Hv).
  - intros g r Hg Hr. apply (sv_groups _ _ _ Hv) in Hg; [|done].
    destruct (sv_rest _ _ _ Hv g r Hg Hr) as [E Em]. by split.
  - intros h. symmetry. apply (sv_hosts _ _ _ Hv).
  - intros g r Hr. by rewrite (sv_groups _ _ _ H1 g r Hr), (sv_groups _ _ _ H2 g r Hr).
  - intros g r Hg Hr. destruct (sv_rest _ _ _ H1 g r Hg Hr) as [-> Hm].
    apply (sv_groups _ _ _ H1 g r Hr) in Hg. destruct (sv_rest _ _ _ H2 g r Hg Hr) as [-> Hm'].
    split; [done|]. intros h. by rewrite Hm.
  - intros h. by rewrite (sv_hosts _ _ _ H1), (sv_hosts _ _ _ H2).
Qed.

Definition seen_group (t : Uuid) (d : FleetDb) (g : Uuid) : option GroupRow :=
  f_groups d !! g ≫= fun r => if visible (ScopeTenant t) r then Some r else None.

Lemma seen_group_some t d g r :
  seen_group t d g = Some r <-> f_groups d !! g = Some r /\ grow_tenant r = Some t.
Proof.
  unfold seen_group. rewrite bind_Some. setoid_rewrite <- visible_tenant. split.
  - intros (r' & -> & E). destruct (visible (ScopeTenant t) r') eqn:Ev; [|done]. injection E as <-. done.
  - intros [E Ev]. exists r. by rewrite Ev.
Qed.

Lemma unseen t d g : seen_group t d g = None ->
  f_groups d !! g = None \/ exists r, f_groups d !! g = Some r /\ visible (ScopeTenant t) r = false.
Proof.
  unfold seen_group. destruct (f_groups d !! g) as [r|]; [|by left]. cbn [mbind option_bind].
  destruct (visible (ScopeTenant t) r) eqn:E; [done|]. right. eauto.
Qed.

Lemma get_in_scope_seen io t g d :
  get_in_scope io (ScopeTenant t) g d
  = if io then Err GroupBackend
    else match seen_group t d g with Some r => Ok (group_from g r d) | None => Err GroupNotFound end.
Proof.
  unfold get_in_scope, seen_group. destruct io; [done|]. destruct (f_groups d !! g) as [r|]; [|done].
  cbn [mbind option_bind]. by destruct (visible (ScopeTenant t) r).
Qed.

(** The same entries of two maps, as lists. *)
Lemma filter_map_to_list_perm {K V} `{Countable K} (f : K * V -> bool) (m1 m2 : gmap K V) :
  (forall k x, f (k, x) = true -> m1 !! k = Some x <-> m2 !! k = Some x) ->
  List.filter f (map_to_list m1) ≡ₚ List.filter f (map_to_list m2).
Proof.
  intros Hf.
  assert (forall m : gmap K V, NoDup (List.filter f (map_to_list m))) as Hn.
  { intros m. rewrite <- (map_id (List.filter _ _)). apply filter_nodup. rewrite map_id.
    apply NoDup_map_to_list. }
  apply NoDup_Permutation; [apply Hn..|]. intros [k x]. rewrite !elem_of_filter_b, !elem_of_map_to_list.
  naive_solver.
Qed.

Section View.
Context (t : Uuid) (d1 d2 : FleetDb) (Hv : same_view t d1 d2).

Lemma view_seen g : seen_group t d1 g = seen_group t d2 g.
Proof.
  apply option_eq. intros r. rewrite !seen_group_some. pose proof (sv_groups _ _ _ Hv g r). tauto.
Qed.

Lemma view_members g r : seen_group t d1 g = Some r ->
  List.filter (fun m => m.1.1 =? g) (map_to_list (f_members d1))
  ≡ₚ List.filter (fun m => m.1.1 =? g) (map_to_list (f_members d2)).
Proof.
  intros [Hg Hr]%seen_group_some. destruct (sv_rest _ _ _ Hv g r Hg Hr) as [_ Hm].
  apply filter_map_to_list_perm. intros [g' h] x E%Z.eqb_eq. cbn in E. subst g'. by rewrite Hm.
Qed.

Lemma view_group_from g r : seen_group t d1 g = Some r -> group_from g r d1 = group_from g r d2.
Proof.
  intros Hg. unfold group_from. f_equal. unfold member_count. f_equal.
  assert (forall l : list (Uuid * Uuid * Z), List.filter (fun '(m, _) => m.1 =? g) l
    = List.filter (fun m => m.1.1 =? g) l) as E by (intros l; apply filter_ext; by intros [[]]).
  rewrite !E. by rewrite (view_members g r Hg).
Qed.

Lemma view_get io g : get_in_scope io (ScopeTenant t) g d1 = get_in_scope io (ScopeTenant t) g d2.
Proof.
  rewrite !get_in_scope_seen. rewrite <- view_seen. destruct io; [done|].
  destruct (seen_group t d1 g) as [r|] eqn:E; [|done]. by rewrite (view_group_from g r E).
Qed.

Lemma view_name_taken own name : name_taken own (Some t) name d1 = name_taken own (Some t) name d2.
Proof.
  apply Bool.eq_true_iff_eq. rewrite !name_taken_spec.
  split; intros (g & r & Hg & ? & Ht & ?); exists g, r; split; [|done| |done]; by apply (sv_groups _ _ _ Hv).
Qed.

(** The same change on both sides. *)
Lemma view_put g r : grow_tenant r = Some t ->
  f_policies d1 !! g = f_policies d2 !! g -> (forall h, f_members d1 !! (g, h) = f_members d2 !! (g, h)) ->
  same_view t (with_groups (<[g := r]> (f_groups d1)) d1) (with_groups (<[g := r]> (f_groups d2)) d2).
Proof.
  intros Hr Hp Hm. split; cbn; [| |apply Hv].
  - intros k r' Hr'. rewrite !lookup_insert_Some. pose proof (sv_groups _ _ _ Hv k r' Hr'). tauto.
  - intros k r' [[<- <-]|[Hne Hk]]%lookup_insert_Some Hr'; [done|]. by eapply (sv_rest _ _ _ Hv).
Qed.

Lemma view_delete g :
  same_view t
    (with_policies (base.delete g (f_policies d1)) (with_members (filter (fun m => m.1.1 <> g) (f_members d1))
      (with_groups (base.delete g (f_groups d1)) d1)))
    (with_policies (base.delete g (f_policies d2)) (with_members (filter (fun m => m.1.1 <> g) (f_members d2))
      (with_groups (base.delete g (f_groups d2)) d2))).
Proof.
  split; cbn; [| |apply Hv].
  - intros k r' Hr'. rewrite !lookup_delete_Some. pose proof (sv_groups _ _ _ Hv k r' Hr'). tauto.
  - intros k r' [Hne Hk]%lookup_delete_Some Hr'. destruct (sv_rest _ _ _ Hv k r' Hk Hr') as [Hp Hm].
    split; [by rewrite !lookup_delete_ne|]. intros h. apply option_eq. intros x.
    by rewrite !map_lookup_filter_Some, Hm.
Qed.

Lemma view_members_change (f : gmap (Uuid * Uuid) Z -> gmap (Uuid * Uuid) Z) :
  (forall m1 m2 k, m1 !! k = m2 !! k -> f m1 !! k = f m2 !! k) ->
  same_view t (with_members (f (f_members d1)) d1) (with_members (f (f_members d2)) d2).
Proof.
  intros Hf. split; cbn; [apply Hv| |apply Hv]. intros k r' Hk Hr'.
  destruct (sv_rest _ _ _ Hv k r' Hk Hr') as [Hp Hm]. split; [done|]. intros h. by apply Hf.
Qed.

Lemma view_policies_change (f : gmap Uuid PolicyRow -> gmap Uuid PolicyRow) :
  (forall m1 m2 k, m1 !! k = m2 !! k -> f m1 !! k = f m2 !! k) ->
  same_view t (with_policies (f (f_policies d1)) d1) (with_policies (f (f_policies d2)) d2).
Proof.
  intros Hf. split; cbn; [apply Hv| |apply Hv]. intros k r' Hk Hr'.
  destruct (sv_rest _ _ _ Hv k r' Hk Hr') as [Hp Hm]. split; [by apply Hf|done].
Qed.

(** Both sides answer the same and still look the same. *)
Definition agree {A} (x y : outcome GroupError A * FleetDb) : Prop := x.1 = y.1 /\ same_view t x.2 y.2.

Lemma agree_answered {A} (f : A -> option HostGroup) x y : agree x y -> agree (answered f x) (answered f y).
Proof. intros [E Hs]. split; [cbn; by rewrite E|done]. Qed.

Lemma agree_then {A} io g (k1 k2 : outcome GroupError A * FleetDb) :
  (forall r, seen_group t d1 g = Some r -> agree k1 k2) ->
  agree (in_scope_then io (ScopeTenant t) g d1 k1) (in_scope_then io (ScopeTenant t) g d2 k2).
Proof.
  intros Hk. unfold in_scope_then. pose proof (get_in_scope_seen io t g d1) as Es. rewrite <- view_get.
  destruct (get_in_scope io (ScopeTenant t) g d1) as [hg| |]; [|done..].
  destruct io; [done|]. destruct (seen_group t d1 g) as [r|] eqn:E; [|done]. by eapply Hk.
Qed.

End View.

Definition fresh_id (o : group_op) (d : FleetDb) : Prop :=
  match o with OpCreate _ new_id _ _ _ => f_groups d !! new_id = None | _ => True end.

Lemma no_group_no_rows d g : fleet_ok d -> f_groups d !! g = None ->
  f_policies d !! g = None /\ forall h, f_members d !! (g, h) = None.
Proof.
  intros Hd Hg. split; [|intros h]; apply eq_None_not_Some; intros [x Hx].
  - apply (fo_policies d Hd) in Hx as [[r Hr] _]. congruence.
  - apply (fo_members d Hd) in Hx as [[r Hr] _]. congruence.
Qed.

Section Agree.
Context (t : Uuid) (d1 d2 : FleetDb) (Hv : same_view t d1 d2) (Hok1 : fleet_ok d1) (Hok2 : fleet_ok d2).

Lemma agree_create io id now tenant name :
  f_groups d1 !! id = None -> f_groups d2 !! id = None ->
  agree t (create io id now (ScopeTenant t) tenant name d1) (create io id now (ScopeTenant t) tenant name d2).
Proof.
  intros H1 H2. unfold create. destruct (validate_group_name name) as [nm| |]; [|done..]. destruct io; [done|].
  rewrite H1, H2. rewrite !bool_decide_eq_false_2 by (by intros [? ?]). rewrite <- (view_name_taken t d1 d2 Hv).
  destruct (name_taken _ _ _ _); [done|]. split; [done|]. cbn [snd].
  destruct (no_group_no_rows d1 id Hok1 H1) as [P1 M1]. destruct (no_group_no_rows d2 id Hok2 H2) as [P2 M2].
  apply view_put; [done|done|congruence|]. intros h. by rewrite M1, M2.
Qed.

Lemma agree_rename io io' g name :
  agree t (rename io io' (ScopeTenant t) g name d1) (rename io io' (ScopeTenant t) g name d2).
Proof.
  unfold rename. destruct (validate_group_name name) as [nm| |]; [|done..]. destruct io; [done|].
  pose proof (view_seen t d1 d2 Hv g) as Es.
  destruct (seen_group t d1 g) as [r|] eqn:E.
  - symmetry in Es. apply seen_group_some in E as [E1 Et], Es as [E2 _]. rewrite E1, E2.
    pose proof (proj2 (visible_tenant t r) Et) as ->. rewrite Et, <- (view_name_taken t d1 d2 Hv).
    destruct (name_taken _ _ _ _); [done|]. destruct (sv_rest _ _ _ Hv g r E1 Et) as [Hp Hm].
    assert (same_view t (with_groups (<[g := {| grow_name := nm; grow_tenant := Some t;
        grow_created_at := grow_created_at r |}]> (f_groups d1)) d1)
      (with_groups (<[g := {| grow_name := nm; grow_tenant := Some t;
        grow_created_at := grow_created_at r |}]> (f_groups d2)) d2)) as Hn by by apply view_put.
    split; [by apply view_get|done].
  - by destruct (unseen t d1 g E) as [->|(r1 & -> & ->)], (unseen t d2 g (eq_sym Es)) as [->|(r2 & -> & ->)].
Qed.

Lemma agree_delete io g :
  agree t (group_delete io (ScopeTenant t) g d1) (group_delete io (ScopeTenant t) g d2).
Proof.
  unfold group_delete. destruct io; [done|]. pose proof (view_seen t d1 d2 Hv g) as Es.
  destruct (seen_group t d1 g) as [r|] eqn:E.
  - symmetry in Es. apply seen_group_some in E as [-> Et], Es as [-> _].
    rewrite (proj2 (visible_tenant t r) Et). split; [done|by apply view_delete].
  - by destruct (unseen t d1 g E) as [->|(r1 & -> & ->)], (unseen t d2 g (eq_sym Es)) as [->|(r2 & -> & ->)].
Qed.

Lemma agree_add io io' now g h :
  agree t (add_member io io' now (ScopeTenant t) g h d1) (add_member io io' now (ScopeTenant t) g h d2).
Proof.
  apply agree_then; [done|]. intros r [Hg Ht]%seen_group_some. destruct io'; [done|].
  destruct (sv_rest _ _ _ Hv g r Hg Ht) as [_ Hm]. rewrite Hm. destruct (f_members d2 !! (g, h)); [done|].
  pose proof (sv_hosts _ _ _ Hv h) as Hh.
  destruct (f_hosts d1 !! h), (f_hosts d2 !! h); [| | |done].
  - split; [done|]. apply (view_members_change t d1 d2 Hv (insert (g, h) (to_stored_i64 now))).
    intros m1 m2 k E. rewrite !lookup_insert. by destruct (decide _).
  - destruct (proj1 Hh) as [? ?]; eauto. done.
  - destruct (proj2 Hh) as [? ?]; eauto. done.
Qed.

Lemma agree_step o : fresh_id o d1 -> fresh_id o d2 ->
  agree t (group_step (ScopeTenant t) o d1) (group_step (ScopeTenant t) o d2).
Proof.
  intros H1 H2. destruct o; cbn [group_step]; apply agree_answered;
    auto using agree_create, agree_rename, agree_delete, agree_add.
  - apply agree_then; [done|]. intros r _. destruct io'; [done|]. split; [done|].
    apply (view_members_change t d1 d2 Hv (base.delete (g, h))).
    intros m1 m2 k E. rewrite !lookup_delete. by destruct (decide _).
  - unfold set_policy. destruct (group_policy_validate p); [|done..]. destruct (to_vec p) as [j|]; [|done].
    apply agree_then; [done|]. intros r _. destruct io'; [done|]. split; [done|].
    apply (view_policies_change t d1 d2 Hv (insert g _)).
    intros m1 m2 k E. rewrite !lookup_insert. by destruct (decide _).
  - apply agree_then; [done|]. intros r _. destruct io'; [done|]. split; [done|].
    apply (view_policies_change t d1 d2 Hv (base.delete g)).
    intros m1 m2 k E. rewrite !lookup_delete. by destruct (decide _).
Qed.

End Agree.

(** ** Reading *)

Lemma name_id_le_trans a b c : name_id_le a b = true -> name_id_le b c = true -> name_id_le a c = true.
Proof.
  unfold name_id_le. rewrite !orb_true_iff, !andb_true_iff, !String.eqb_eq.
  intros [Hab|[Eab Hab]] [Hbc|[Ebc Hbc]].
  - left. by eapply str_ltb_trans.
  - left. by rewrite <- Ebc.
  - left. by rewrite Eab.
  - right. split; [congruence|]. by eapply str_leb_trans.
Qed.

Lemma name_id_le_total a b : name_id_le a b = true \/ name_id_le b a = true.
Proof.
  unfold name_id_le. rewrite !orb_true_iff, !andb_true_iff, !String.eqb_eq.
  destruct (decide (a.1 = b.1)) as [E|Hne].
  - rewrite E. destruct (str_ltb (uuid_display b.2) (uuid_display a.2)) eqn:L; [|by left; right].
    right. right. split; [done|]. by rewrite (str_ltb_asym _ _ L).
  - destruct (str_ltb a.1 b.1) eqn:L; [by left; left|]. right. left. by apply str_ltb_total.
Qed.

Lemma name_id_le_name a b : name_id_le a b = true -> name_id_le b a = true -> a.1 = b.1.
Proof.
  unfold name_id_le. rewrite !orb_true_iff, !andb_true_iff, !String.eqb_eq.
  intros [Hab|[Eab _]] [Hba|[Eba _]]; try congruence.
  rewrite (str_ltb_asym _ _ Hab) in Hba. done.
Qed.

Lemma fold_push_rows {B} (rows : list (Uuid * B)) (m : gmap Uuid (list B)) h :
  fold_left push_row rows m !! h
  = match m !! h, map snd (List.filter (fun r => r.1 =? h) rows) with
    | None, [] => None
    | o, l => Some (default [] o ++ l)
    end.
Proof.
  revert m. induction rows as [|[h' x] rows IH]; intros m; cbn [fold_left].
  - cbn. destruct (m !! h); [cbn; by rewrite app_nil_r|done].
  - rewrite IH. unfold push_row. cbn [fst snd List.filter]. destruct (Z.eqb_spec h' h) as [->|Hne].
    + rewrite lookup_insert_eq. cbn [map snd default]. destruct (m !! h) as [l|]; cbn; by rewrite <- ?app_assoc.
    + by rewrite lookup_insert_ne by done.
Qed.

(** Asking for all hosts at once gives what asking for one gives. *)
Lemma all_host_policies_spec d m h :
  all_host_policies false d = Ok m -> policies_for_host false h d = Ok (default [] (m !! h)).
Proof.
  unfold all_host_policies, policies_for_host. cbn [obind].
  destruct (collect _ (host_policies d)) as [rows| |] eqn:Ec; cbn [obind]; try done. intros [= <-].
  rewrite fold_push_rows, lookup_empty. revert rows Ec.
  induction (host_policies d) as [|[h' row] l IH]; cbn [collect]; intros rows Ec.
  { by injection Ec as <-. }
  cbn [snd fst] in Ec. destruct (policy_input row) as [i| |] eqn:Ei; cbn in Ec; try done.
  destruct (collect _ l) as [rs| |]; cbn in Ec; try done. injection Ec as <-. specialize (IH rs eq_refl).
  cbn [List.filter fst]. destruct (h' =? h); cbn [collect snd]; [|done].
  rewrite Ei. cbn [obind map snd]. rewrite IH. cbn. by destruct (map _ _).
Qed.

Section Reads.
Context (t : Uuid) (d1 d2 : FleetDb) (Hv : same_view t d1 d2) (Hok1 : fleet_ok d1).

Lemma agree_list io : group_list io (ScopeTenant t) d1 = group_list io (ScopeTenant t) d2.
Proof.
  unfold group_list. destruct io; [done|]. f_equal.
  set (f := fun '(_, r) => visible (ScopeTenant t) r).
  assert (List.filter f (map_to_list (f_groups d1)) ≡ₚ List.filter f (map_to_list (f_groups d2))) as Hp.
  { apply filter_map_to_list_perm. intros g r Hr%visible_tenant. by apply (sv_groups _ _ _ Hv). }
  assert (forall x, x ∈ List.filter f (map_to_list (f_groups d1)) ->
    f_groups d1 !! x.1 = Some x.2 /\ grow_tenant x.2 = Some t) as Hx.
  { intros [g r] [Hg%elem_of_map_to_list Hr%visible_tenant]%elem_of_filter_b. done. }
  rewrite <- (order_by_unique _ _ _ (fun x y z => name_id_le_trans _ _ _) (fun x y => name_id_le_total _ _))
    with (2 := Hp).
  - apply map_ext_in. intros [g r] Hin%list_elem_of_In. rewrite order_by_perm in Hin.
    apply (view_group_from t d1 d2 Hv). by apply seen_group_some, (Hx (g, r)).
  - intros [g r] [g' r'] [Hg Ht]%Hx [Hg' Ht']%Hx L L'. cbn in *.
    assert (g = g') as -> by (eapply (fo_names d1 Hok1); [done|done|congruence|by apply (name_id_le_name _ _ L L')]).
    congruence.
Qed.

Lemma uuid_le_trans a b c :
  negb (str_ltb (uuid_display b) (uuid_display a)) = true ->
  negb (str_ltb (uuid_display c) (uuid_display b)) = true ->
  negb (str_ltb (uuid_display c) (uuid_display a)) = true.
Proof. apply str_leb_trans. Qed.

Lemma uuid_le_total a b :
  negb (str_ltb (uuid_display b) (uuid_display a)) = true \/ negb (str_ltb (uuid_display a) (uuid_display b)) = true.
Proof.
  destruct (str_ltb (uuid_display b) (uuid_display a)) eqn:L; [|by left]. right. by rewrite (str_ltb_asym _ _ L).
Qed.

Lemma agree_get_policy io io' g :
  get_policy io io' (ScopeTenant t) g d1 = get_policy io io' (ScopeTenant t) g d2.
Proof.
  unfold get_policy. pose proof (get_in_scope_seen io t g d1) as Es. rewrite <- (view_get t d1 d2 Hv).
  destruct (get_in_scope io (ScopeTenant t) g d1) as [hg| |]; cbn [obind]; [|done..].
  destruct io; [done|]. destruct (seen_group t d1 g) as [r|] eqn:E; [|done].
  apply seen_group_some in E as [Hg Ht]. by rewrite (proj1 (sv_rest _ _ _ Hv g r Hg Ht)).
Qed.

(** The registry keeps ids that fit, so their texts tell them apart. *)
Lemma agree_members io io' g :
  (forall h, is_Some (f_hosts d1 !! h) -> fits 128 h = true) ->
  members io io' (ScopeTenant t) g d1 = members io io' (ScopeTenant t) g d2.
Proof.
  intros Hfit. unfold members. pose proof (get_in_scope_seen io t g d1) as Es.
  rewrite <- (view_get t d1 d2 Hv). destruct (get_in_scope io (ScopeTenant t) g d1) as [hg| |]; cbn [obind]; [|done..].
  destruct io; [done|]. destruct (seen_group t d1 g) as [r|] eqn:E; [|done].
  unfold hosts_of_group_raw. destruct io'; [done|]. f_equal.
  apply order_by_unique; [apply uuid_le_trans|apply uuid_le_total| |].
  - assert (forall h, h ∈ map (fun m => m.1.2) (List.filter (fun m => m.1.1 =? g) (map_to_list (f_members d1))) ->
      fits 128 h = true) as Hf.
    { intros h ([[g' h'] x] & -> & [Hm%elem_of_map_to_list _]%elem_of_filter_b)%list_elem_of_fmap.
      apply Hfit, (fo_members d1 Hok1 _ _ _ Hm). }
    intros h h' Hh%Hf Hh'%Hf L L'. apply uuid_display_inj; [done..|]. apply negb_true_iff in L, L'.
    destruct (decide (uuid_display h = uuid_display h')) as [|Hne]; [done|].
    rewrite (str_ltb_total _ _ L') in L; congruence.
  - by rewrite (view_members t d1 d2 Hv g r E).
Qed.

Lemma elem_of_member_rows d h c :
  (h, c) ∈ member_rows (ScopeTenant t) d <->
  is_Some (f_members d !! (gref_group_id c, h))
  /\ exists r, f_groups d !! gref_group_id c = Some r /\ grow_tenant r = Some t /\ grow_name r = gref_name c.
Proof.
  unfold member_rows. rewrite list_elem_of_omap. split.
  - intros ([[g h'] x] & Hm & E). apply elem_of_map_to_list in Hm.
    destruct (f_groups d !! g) as [r|] eqn:Er; [|done]. destruct (visible (ScopeTenant t) r) eqn:Ev; [|done].
    injection E as <- <-. apply visible_tenant in Ev. cbn. eauto.
  - intros ([x Hx] & r & Er & Et & En). exists ((gref_group_id c, h), x). rewrite elem_of_map_to_list.
    split; [done|]. rewrite Er, (proj2 (visible_tenant t r) Et), En. by destruct c.
Qed.

Lemma member_rows_nodup d : NoDup (map (fun r => (gref_group_id r.2, r.1)) (member_rows (ScopeTenant t) d)).
Proof.
  unfold member_rows. eapply omap_nodup; [|apply NoDup_fst_map_to_list].
  intros [[g h] x] [h' c]. cbn. by repeat case_match; intros [= <- <-].
Qed.

Lemma member_rows_perm : member_rows (ScopeTenant t) d1 ≡ₚ member_rows (ScopeTenant t) d2.
Proof.
  apply NoDup_Permutation; [eapply NoDup_fmap_1, member_rows_nodup..|]. intros [h c].
  rewrite !elem_of_member_rows. split; intros (Hm & r & Hg & Ht & Hn).
  - destruct (sv_rest _ _ _ Hv _ r Hg Ht) as [_ Em]. rewrite Em in Hm. split; [done|].
    exists r. by rewrite <- (sv_groups _ _ _ Hv _ r Ht).
  - rewrite <- (sv_groups _ _ _ Hv _ r Ht) in Hg. destruct (sv_rest _ _ _ Hv _ r Hg Ht) as [_ Em].
    rewrite Em. eauto.
Qed.

(** One host's rows have different names, so their order is determined. *)
Lemma agree_groups_of io hs : groups_of io (ScopeTenant t) hs d1 = groups_of io (ScopeTenant t) hs d2.
Proof.
  unfold groups_of. destruct io; [done|]. f_equal. apply map_eq. intros h.
  rewrite !fold_push_rows, lookup_empty. set (sel := fun d => List.filter (fun r => r.1 =? h)
    (List.filter (fun r => bool_decide (r.1 ∈ hs)) (order_by row_le (member_rows (ScopeTenant t) d)))).
  assert (sel d1 = sel d2) as E; [|unfold sel in E; by rewrite E].
  assert (forall d, StronglySorted (fun a b => row_le a b = true) (sel d)) as Hs.
  { intros d. do 2 apply filter_sorted. apply order_by_sorted; [intros ? ? ?; apply name_id_le_trans|].
    intros ? ?. apply name_id_le_total. }
  assert (sel d1 ≡ₚ sel d2) as Hp by (unfold sel; by rewrite !order_by_perm, member_rows_perm).
  eapply (StronglySorted_unique_strong (fun a b => row_le a b = true)); [|apply Hs|apply Hs|exact Hp].
  assert (forall a, a ∈ sel d1 -> a.1 = h /\ a ∈ member_rows (ScopeTenant t) d1) as Ha.
  { intros a [[Hin _]%elem_of_filter_b Eh%Z.eqb_eq]%elem_of_filter_b. by rewrite order_by_perm in Hin. }
  intros [h1 a] [h2 b] [E1 H1]%Ha Hb L1 L2. rewrite <- Hp in Hb. apply Ha in Hb as [E2 H2]. cbn in E1, E2. subst h1 h2.
  apply elem_of_member_rows in H1 as (_ & r1 & G1 & T1 & N1), H2 as (_ & r2 & G2 & T2 & N2).
  pose proof (name_id_le_name _ _ L1 L2) as En. cbn in En. f_equal.
  pose proof (fo_names d1 Hok1 _ _ r1 r2 G1 G2 ltac:(congruence) ltac:(congruence)) as Eg.
  destruct a, b; cbn in Eg, En. congruence.
Qed.

End Reads.

(** ** Properties *)

(** C23. An operation in the scope of a tenant leaves the groups, members and policies of every
    other tenant, and the platform's, exactly as they were; and neither its answer nor anything
    the tenant can read afterwards depends on them: on two databases the tenant cannot tell
    apart it answers the same, and they stay indistinguishable, through every read. *)
Theorem tenants_do_not_interfere t o d1 d2 :
  rtc fleet_step fleet_empty d1 -> rtc fleet_step fleet_empty d2 ->
  fresh_id o d1 -> fresh_id o d2 -> same_view t d1 d2 ->
  let r1 := group_step (ScopeTenant t) o d1 in
  let r2 := group_step (ScopeTenant t) o d2 in
  untouched t d1 r1.2 /\ r1.1 = r2.1 /\ same_view t r1.2 r2.2
  /\ (forall io, group_list io (ScopeTenant t) r1.2 = group_list io (ScopeTenant t) r2.2)
  /\ (forall io g, get_in_scope io (ScopeTenant t) g r1.2 = get_in_scope io (ScopeTenant t) g r2.2)
  /\ (forall io hs, groups_of io (ScopeTenant t) hs r1.2 = groups_of io (ScopeTenant t) hs r2.2)
  /\ (forall io io' g, get_policy io io' (ScopeTenant t) g r1.2 = get_policy io io' (ScopeTenant t) g r2.2).
Proof.
  intros Hd1%fleet_reachable_ok Hd2%fleet_reachable_ok Hf1 Hf2 Hv r1 r2.
  destruct (agree_step t d1 d2 Hv Hd1 Hd2 o Hf1 Hf2) as [Er Hs].
  assert (fleet_ok r1.2) as Hok by (eapply change_ok; [exact Hd1|apply group_step_change]).
  split; [apply change_untouched, group_step_change|]. split; [done|]. split; [done|].
  split_and!; intros; [by apply agree_list|by apply view_get|by apply agree_groups_of|by apply agree_get_policy].
Qed.

(** Whatever a tenant does with its groups, the policy resolved for a host that is not its
    own (another tenant's or nobody's) does not change, nor do the recorded sources of its
    fields. *)
Lemma tenant_policies_isolated t ops d h host_tenant :
  rtc fleet_step fleet_empty d -> host_tenant <> Some t ->
  exists before after,
    policies_for_host false h d = Ok before
    /\ policies_for_host false h (group_run (ScopeTenant t) ops d) = Ok after
    /\ resolve host_tenant after = resolve host_tenant before.
Proof.
  intros Hd%fleet_reachable_ok Ht. pose proof (group_run_ok (ScopeTenant t) ops d Hd) as Hd'.
  destruct (policies_for_host_spec d h Hd) as (before & Eb & Nb & Hb).
  destruct (policies_for_host_spec _ h Hd') as (after & Ea & Na & Ha).
  exists before, after. split_and!; [done..|]. apply resolve_ext; [done..|]. intros i Hi.
  rewrite Ha, Hb. symmetry. apply (untouched_applies t); [done|done|apply group_run_untouched|].
  intros Et. unfold relevant, tier_for in Hi. rewrite Et in Hi. by destruct (decide _).
Qed.

End Stores.

(** ** Examples *)

#[local] Instance group_policy_eq_dec : EqDecision GroupPolicy.
Proof. solve_decision. Defined.

Definition quiet_policy : GroupPolicy :=
  {| gp_telemetry_level := Some Minimal; gp_sensors := [("dns", false)]; gp_heartbeat := Some 60;
     gp_priority := 5 |}.
Definition loud_policy : GroupPolicy :=
  {| gp_telemetry_level := Some Forensic; gp_sensors := []; gp_heartbeat := None; gp_priority := 9 |}.

#[local] Instance groups_serde : Serde GroupPolicy := table_serde [quiet_policy; loud_policy].
#[local] Instance groups_uuid : UuidText := concrete_uuid.
#[local] Instance groups_sqlite : Sqlite := plain_sqlite.

Definition some_host (h : Uuid) : HostRow :=
  {| hr_host_id := h; hr_hostname := "h"; hr_distro := "d"; hr_kernel_version := "k";
     hr_agent_version := "1"; hr_enrolled_at := 5; hr_last_seen := 5; hr_health_state := Health.Healthy;
     hr_cloud_provider := None; hr_cloud_instance_id := None; hr_cloud_region := None;
     hr_applied_policy_hash := None |}.

(** Tenant 1's group 10 on host 7; tenant 2 then makes its own group of the same name, takes
    host 7 in and gives it another policy. *)
Definition fleet_one : FleetDb :=
  group_run (ScopeTenant 1)
    [OpCreate false 10 3 None "edge"; OpAdd false false 4 10 7; OpSet false false 5 10 quiet_policy "ann"]
    (with_hosts (upsert_heartbeat false (some_host 7) ∅).2 fleet_empty).

Definition tenant_two_ops : list group_op :=
  [OpCreate false 20 6 None "edge"; OpAdd false false 7 20 7; OpSet false false 8 20 loud_policy "bob";
   OpDelete false 10; OpRemove false false 10 7].

Lemma group_run_steps scope ops d : rtc fleet_step d (group_run scope ops d).
Proof.
  revert d. induction ops as [|o ops IH]; intros d; cbn; [done|]. eapply rtc_l; [apply step_group|apply IH].
Qed.

Lemma fleet_one_reachable : rtc fleet_step fleet_empty fleet_one.
Proof.
  eapply rtc_l; [apply (step_heartbeat false (some_host 7))|]. apply group_run_steps.
Qed.

Definition level_for (tenant : option Uuid) (d : FleetDb) : option TelemetryLevel :=
  match policies_for_host false 7 d with
  | Ok inputs => telemetry_level (effective (resolve tenant inputs))
  | _ => None
  end.

Lemma tenant_policies_isolated_witness :
  let d := group_run (ScopeTenant 2) tenant_two_ops fleet_one in
  level_for (Some 1) d = Some Minimal /\ level_for (Some 2) d = Some Forensic
  /\ level_for (Some 1) d = level_for (Some 1) fleet_one.
Proof.
  split; [vm_compute; reflexivity|]. split; [vm_compute; reflexivity|]. unfold level_for.
  destruct (tenant_policies_isolated 2 tenant_two_ops fleet_one 7 (Some 1) fleet_one_reachable) as
    (b & a & -> & -> & ->); [discriminate|reflexivity].
Defined.

(** Tenant 2 cannot tell whether tenant 1 has a group of the same name. *)
Lemma tenants_do_not_interfere_witness :
  let d0 := with_hosts (f_hosts fleet_one) fleet_empty in
  let o := OpCreate false 20 6 None "edge" in
  (group_step (ScopeTenant 2) o fleet_one).1 = (group_step (ScopeTenant 2) o d0).1
  /\ untouched 2 fleet_one (group_step (ScopeTenant 2) o fleet_one).2.
Proof.
  cbv zeta.
  assert (same_view 2 fleet_one (with_hosts (f_hosts fleet_one) fleet_empty)) as Hv.
  { assert (f_groups fleet_one = {[10 := {| grow_name := "edge"; grow_tenant := Some 1; grow_created_at := 3 |}]})
      as Eg by (vm_compute; reflexivity).
    assert (forall g r, f_groups fleet_one !! g = Some r -> grow_tenant r = Some 2 -> False) as Hg.
    { intros g r. rewrite Eg. intros [_ <-]%lookup_singleton_Some. done. }
    split; [|by intros g r Hr Ht; destruct (Hg g r)|done].
    intros g r Hr. split; [by intros E; destruct (Hg g r)|]. cbn. by rewrite lookup_empty. }
  destruct (tenants_do_not_interfere 2 (OpCreate false 20 6 None "edge") fleet_one
    (with_hosts (f_hosts fleet_one) fleet_empty) fleet_one_reachable) as (Hu & Ha & _).
  - apply rtc_once. apply (step_heartbeat false (some_host 7)).
  - vm_compute. reflexivity.
  - vm_compute. reflexivity.
  - exact Hv.
  - split; [exact Ha|exact Hu].
Defined.
