(* ===== verification/Tenancy.v ===== *)
(** * Tenants: [crates/osiris-tenancy/src/store.rs]

    Tenants and the tenant of each host, over two tables.  Ids are kept as uuids where the
    columns hold their text; every statement may fail. *)

From S2P Require Import Prelude Concrete BTree Json Schema Baseline Sql.

Definition MAX_NAME_LEN : Z := 128.

Record Tenant := { tn_tenant_id : Uuid; tn_name : string; tn_created_at : Z }.

Inductive TenantStoreError :=
| TDuplicateName (name : string)
| TInvalidName (name : string)
| UnknownTenant (t : Uuid)
| TBackend.

Record TenantRow := { trow_name : string; trow_created_at : Z }.

Record TenantDb := { t_tenants : gmap Uuid TenantRow; t_hosts : gmap Uuid Uuid }.

Definition tenants_empty : TenantDb := {| t_tenants := ∅; t_hosts := ∅ |}.

Definition row_to_tenant (t : Uuid) (r : TenantRow) : Tenant :=
  {| tn_tenant_id := t; tn_name := trow_name r; tn_created_at := as_u64 (trow_created_at r) |}.

(** [UNIQUE constraint failed] also for the primary key. *)
Definition tenant_taken (id : Uuid) (name : string) (d : TenantDb) : bool :=
  existsb (fun '(t, r) => (t =? id) || String.eqb (trow_name r) name) (map_to_list (t_tenants d)).

Definition create_tenant (io : bool) (new_id now : Z) (name : string) (d : TenantDb)
  : outcome TenantStoreError Tenant * TenantDb :=
  let name := string_of_chars (trim_chars (chars name)) in
  let len := Z.of_nat (List.length (bytes_of name)) in
  if (len =? 0) || (MAX_NAME_LEN <? len) then (Err (TInvalidName name), d)
  else if io then (Err TBackend, d)
  else if tenant_taken new_id name d then (Err (TDuplicateName name), d)
  else (Ok {| tn_tenant_id := new_id; tn_name := name; tn_created_at := now |},
        {| t_tenants := <[new_id := {| trow_name := name; trow_created_at := as_i64 now |}]> (t_tenants d);
           t_hosts := t_hosts d |}).

(** [ORDER BY created_at ASC, name ASC]. *)
Definition tenant_le (a b : Uuid * TenantRow) : bool :=
  (trow_created_at a.2 <? trow_created_at b.2)
  || ((trow_created_at a.2 =? trow_created_at b.2) && negb (str_ltb (trow_name b.2) (trow_name a.2))).

Definition list_tenants `{Sqlite} (io : bool) (d : TenantDb) : outcome TenantStoreError (list Tenant) :=
  if io then Err TBackend
  else Ok (map (fun '(t, r) => row_to_tenant t r) (order_by tenant_le (map_to_list (t_tenants d)))).

Definition get_tenant (io : bool) (t : Uuid) (d : TenantDb) : outcome TenantStoreError (option Tenant) :=
  if io then Err TBackend else Ok (option_map (row_to_tenant t) (t_tenants d !! t)).

Definition assign_host (io io' : bool) (h t : Uuid) (d : TenantDb) : outcome TenantStoreError unit * TenantDb :=
  match get_tenant io t d with
  | Ok None => (Err (UnknownTenant t), d)
  | Ok (Some _) =>
      if io' then (Err TBackend, d)
      else (Ok tt, {| t_tenants := t_tenants d; t_hosts := <[h := t]> (t_hosts d) |})
  | Err e => (Err e, d)
  | Panic => (Panic, d)
  end.

Definition unassign_host (io : bool) (h : Uuid) (d : TenantDb) : outcome TenantStoreError unit * TenantDb :=
  if io then (Err TBackend, d)
  else (Ok tt, {| t_tenants := t_tenants d; t_hosts := delete h (t_hosts d) |}).

Definition hosts_of (io : bool) (t : Uuid) (d : TenantDb) : outcome TenantStoreError (gset Uuid) :=
  if io then Err TBackend
  else Ok (list_to_set (map fst (List.filter (fun '(_, t') => t' =? t) (map_to_list (t_hosts d))))).

Definition tenant_of (io : bool) (h : Uuid) (d : TenantDb) : outcome TenantStoreError (option Uuid) :=
  if io then Err TBackend else Ok (t_hosts d !! h).

(** ** The invariant *)

Inductive tenant_step : TenantDb -> TenantDb -> Prop :=
| step_create io id now name d : tenant_step d (create_tenant io id now name d).2
| step_assign io io' h t d : tenant_step d (assign_host io io' h t d).2
| step_unassign io h d : tenant_step d (unassign_host io h d).2.

(** Names are unique, trimmed names of bounded length, and hosts belong to tenants that exist. *)
Record tenants_ok (d : TenantDb) : Prop := {
  to_names t t' r r' : t_tenants d !! t = Some r -> t_tenants d !! t' = Some r' ->
    trow_name r = trow_name r' -> t = t';
  to_bounded t r : t_tenants d !! t = Some r ->
    0 < Z.of_nat (List.length (bytes_of (trow_name r))) <= MAX_NAME_LEN;
  to_hosts h t : t_hosts d !! h = Some t -> is_Some (t_tenants d !! t) }.

Lemma tenant_taken_spec id name d : tenant_taken id name d = false ->
  t_tenants d !! id = None /\ forall t r, t_tenants d !! t = Some r -> trow_name r <> name.
Proof.
  unfold tenant_taken. intros E.
  assert (forall t r, t_tenants d !! t = Some r -> t <> id /\ trow_name r <> name) as Hn.
  { intros t r Ht. apply elem_of_map_to_list, list_elem_of_In in Ht. apply not_true_iff_false in E.
    split; intros <-; destruct E; apply existsb_exists; eexists; (split; [exact Ht|]); cbn.
    - by rewrite Z.eqb_refl.
    - rewrite String.eqb_refl. apply orb_true_r. }
  split; [|by intros t r Ht; apply (Hn t r)]. apply eq_None_not_Some. intros [r Hr]. by destruct (Hn id r Hr).
Qed.

Lemma tenant_step_ok d d' : tenant_step d d' -> tenants_ok d -> tenants_ok d'.
Proof.
  intros [io id now name d0|io io' h t d0|io h d0] Hd.
  - unfold create_tenant. destruct ((_ =? 0) || _) eqn:El; [done|]. destruct io; [done|].
    destruct (tenant_taken _ _ _) eqn:Et; [done|]. apply tenant_taken_spec in Et as [Hid Hnm].
    apply orb_false_iff in El as [E0 E1]. split; cbn [t_tenants t_hosts snd].
    + intros t t' r r' [[<- <-]|[Hne Ht]]%lookup_insert_Some [[<- <-]|[Hne' Ht']]%lookup_insert_Some E; [done| | |].
      * by destruct (Hnm t' r' Ht').
      * by destruct (Hnm t r Ht).
      * by eapply (to_names d0 Hd).
    + intros t r [[<- <-]|[Hne Ht]]%lookup_insert_Some; [cbn [trow_name]; lia|by eapply (to_bounded d0 Hd)].
    + intros h t Ht. apply lookup_insert_is_Some. destruct (decide (id = t)); [by left|]. right.
      split; [done|]. by eapply (to_hosts d0 Hd).
  - unfold assign_host, get_tenant. destruct io; [done|]. destruct (t_tenants d0 !! t) as [r|] eqn:Et; [|done].
    destruct io'; [done|]. cbn. split; [apply Hd|apply Hd|]. cbn.
    intros h' t' [[<- <-]|[_ Hh]]%lookup_insert_Some; [eauto|by eapply (to_hosts d0 Hd)].
  - unfold unassign_host. destruct io; [done|]. split; [apply Hd|apply Hd|]. cbn.
    intros h' t' [_ Hh]%lookup_delete_Some. by eapply (to_hosts d0 Hd).
Qed.

Lemma tenants_reachable_ok d : rtc tenant_step tenants_empty d -> tenants_ok d.
Proof.
  intros Hr. assert (tenants_ok tenants_empty) as He by (split; cbn; intros *; by rewrite lookup_empty).
  induction Hr; eauto using tenant_step_ok.
Qed.

(** A host is in the set of exactly the tenant it is assigned to. *)
Lemma hosts_of_spec t d h : h ∈ (match hosts_of false t d with Ok s => s | _ => ∅ end) <-> t_hosts d !! h = Some t.
Proof.
  cbn. rewrite elem_of_list_to_set, list_elem_of_fmap. split.
  - intros ([h' t'] & -> & [Hm%elem_of_map_to_list E%Z.eqb_eq]%elem_of_filter_b). by subst.
  - intros Hh. exists (h, t). split; [done|]. apply elem_of_filter_b.
    rewrite elem_of_map_to_list. split; [done|apply Z.eqb_refl].
Qed.
