(* ===== verification/AgentPolicy.v ===== *)
(** * Policies on the agent: [crates/osiris-agent/src]

    The persisted overlay and the live settings ([policy.rs]), the sensors an agent starts,
    stops and skips ([agent.rs]), and the executor of signed policy commands
    ([policy_exec.rs]), an instance of the executor interface of [Guard].  Starting a sensor
    is an argument of each call: [None], or the reason it did not start. *)

From S2P Require Import Prelude Concrete BTree Json Schema Policy Envelope Replay Guard.
From S2P Require Import Health RawEvent Sql StoreConcrete.

Section AgentPolicy.
Context `{JsonLib} `{Sha256} `{HexCodec} `{effective_serde : !Serde EffectivePolicy}.

(** ** The overlay file *)

(** What reading the file gives: nothing when it is absent or cannot be read. *)
Definition load_overlay (file : option (list byte)) : option EffectivePolicy :=
  match file with
  | None => None
  | Some text =>
      if utf8_valid text then
        match from_slice text with
        | Some p => match effective_validate p with Ok _ => Some p | _ => None end
        | None => None
        end
      else None
  end.

(** [Err] for a failing removal, write or rename: the file is then as it was. *)
Definition save_overlay (io : option string) (policy : EffectivePolicy) (file : option (list byte))
  : outcome string unit * option (list byte) :=
  if is_empty policy then (match io with Some e => (Err e, file) | None => (Ok tt, None) end)
  else match to_vec policy with
       | Some text => match io with Some e => (Err e, file) | None => (Ok tt, Some text) end
       | None => (Panic, file)
       end.

(** ** The live settings *)

Record PolicyRuntime := {
  rt_level : Z; rt_base_heartbeat_secs : Z; rt_heartbeat : Z; rt_applied : EffectivePolicy }.

Definition runtime_new (base_heartbeat_secs : Z) : PolicyRuntime :=
  let base := Z.max base_heartbeat_secs 1 in
  {| rt_level := 0; rt_base_heartbeat_secs := base; rt_heartbeat := base;
     rt_applied := default_effective |}.

Definition runtime_allows (rt : PolicyRuntime) (t : EventType) : bool := allows (from_code (rt_level rt)) t.

Definition clear_argv (p : ProcessRef) : ProcessRef :=
  {| process_key := process_key p; pid := pid p; exe_path := exe_path p; cmdline := [];
     exe_hash := exe_hash p; start_time_mono := start_time_mono p |}.

Definition apply_field_rules (rt : PolicyRuntime) (e : CanonicalEvent) : CanonicalEvent :=
  if includes_argv (from_code (rt_level rt)) then e
  else
    {| event_id := event_id e; schema_version := schema_version e; ev_host_id := ev_host_id e;
       boot_id := boot_id e; ev_timestamp := ev_timestamp e;
       monotonic_timestamp := monotonic_timestamp e; event_type := event_type e;
       ev_category := ev_category e; ev_severity := ev_severity e; ev_host := ev_host e;
       ev_user := ev_user e; ev_session := ev_session e;
       ev_process := option_map clear_argv (ev_process e);
       ev_parent_process := option_map clear_argv (ev_parent_process e);
       ev_thread := ev_thread e; ev_file := ev_file e; ev_network := ev_network e; ev_dns := ev_dns e;
       ev_device := ev_device e; ev_service := ev_service e; ev_container := ev_container e;
       ev_namespace := ev_namespace e; ev_cgroup := ev_cgroup e; ev_kernel := ev_kernel e;
       ev_source := ev_source e; provider := provider e; raw_event := raw_event e;
       relationships := relationships e; tags := tags e; ev_risk := ev_risk e;
       event_data := event_data e |}.

(** [policy_hash_hex]: [None] for the empty policy. *)
Definition runtime_hash_hex (rt : PolicyRuntime) : outcome Empty_set (option string) :=
  if is_empty (rt_applied rt) then Ok None else let? h := hash_hex (rt_applied rt) in Ok (Some h).

Definition runtime_set (policy : EffectivePolicy) (rt : PolicyRuntime) : PolicyRuntime :=
  {| rt_level := match telemetry_level policy with Some l => code l | None => 0 end;
     rt_base_heartbeat_secs := rt_base_heartbeat_secs rt;
     rt_heartbeat := default (rt_base_heartbeat_secs rt) (heartbeat_interval_secs policy);
     rt_applied := policy |}.

(** ** The agent's sensors *)

Definition DISABLED_BY_POLICY : string := "disabled by policy".

Definition STARTUP_ORDER : list string :=
  ["process_exec"; "filesystem"; "network"; "identity"; "systemd"; "persistence"; "container"; "dns"].

Record SkippedSensor := { sk_name : string; sk_reason : string }.

Inductive SensorChange := Started | Stopped | Unchanged | NotConfigured | StartFailed (reason : string).

Record AgentState := {
  a_sensors : list string;
  a_skipped : list SkippedSensor;
  a_policy : PolicyRuntime;
  a_overlay : option (list byte) }.

Definition with_sensors (l : list string) (a : AgentState) : AgentState :=
  Build_AgentState l (a_skipped a) (a_policy a) (a_overlay a).
Definition with_skipped (l : list SkippedSensor) (a : AgentState) : AgentState :=
  Build_AgentState (a_sensors a) l (a_policy a) (a_overlay a).
Definition with_policy (p : PolicyRuntime) (a : AgentState) : AgentState :=
  Build_AgentState (a_sensors a) (a_skipped a) p (a_overlay a).
Definition with_overlay (o : option (list byte)) (a : AgentState) : AgentState :=
  Build_AgentState (a_sensors a) (a_skipped a) (a_policy a) o.

(** The configuration: which sensors [build_sensor] builds, the heartbeat interval. *)
Context (configured : string -> bool) (health_interval_secs : Z).

(** The loop that starts the candidates. *)
Definition start_sensors (starts : string -> option string) (names : list string)
  : list string * list SkippedSensor :=
  (List.filter (fun n => match starts n with None => true | Some _ => false end) names,
   omap (fun n => option_map (Build_SkippedSensor n) (starts n)) names).

Definition disabled_in (p : EffectivePolicy) (n : string) : bool :=
  match bt_get n (sensors p) with Some b => negb b | None => false end.

(** The part of [Agent::start] that policies govern. *)
Definition agent_start (starts : string -> option string) (file : option (list byte)) : AgentState :=
  let overlay := default default_effective (load_overlay file) in
  let built := List.filter configured STARTUP_ORDER in
  let '(running, failed) := start_sensors starts (List.filter (fun n => negb (disabled_in overlay n)) built) in
  {| a_sensors := running;
     a_skipped := map (fun n => {| sk_name := n; sk_reason := DISABLED_BY_POLICY |})
                    (List.filter (disabled_in overlay) built) ++ failed;
     a_policy := runtime_set overlay (runtime_new health_interval_secs);
     a_overlay := file |}.

Definition is_disabled_entry (n : string) (s : SkippedSensor) : bool :=
  String.eqb (sk_name s) n && String.eqb (sk_reason s) DISABLED_BY_POLICY.

Definition mark_disabled (n : string) (disabled : bool) (a : AgentState) : AgentState :=
  let kept := List.filter (fun s => negb (is_disabled_entry n s)) (a_skipped a) in
  with_skipped (if disabled then kept ++ [{| sk_name := n; sk_reason := DISABLED_BY_POLICY |}] else kept) a.

(** [sensors.remove(position)]. *)
Fixpoint remove_first (n : string) (l : list string) : list string :=
  match l with
  | [] => []
  | m :: l => if String.eqb m n then l else m :: remove_first n l
  end.

Definition set_sensor_enabled (starts : string -> option string) (n : string) (enabled : bool)
    (a : AgentState) : SensorChange * AgentState :=
  let running := existsb (fun m => String.eqb m n) (a_sensors a) in
  match enabled, running with
  | false, true => (Stopped, mark_disabled n true (with_sensors (remove_first n (a_sensors a)) a))
  | false, false => (Unchanged, if configured n then mark_disabled n true a else a)
  | true, true => (Unchanged, a)
  | true, false =>
      if existsb (is_disabled_entry n) (a_skipped a) then
        let a := mark_disabled n false a in
        if configured n then
          match starts n with
          | None => (Started, with_sensors (a_sensors a ++ [n]) a)
          | Some reason =>
              (StartFailed reason,
               with_skipped (List.filter (fun s => negb (String.eqb (sk_name s) n)) (a_skipped a)
                             ++ [{| sk_name := n; sk_reason := reason |}]) a)
          end
        else (NotConfigured, a)
      else (Unchanged, a)
  end.

Definition level_text (l : option TelemetryLevel) : string :=
  match l with
  | None => "unset"
  | Some Minimal => "MINIMAL"
  | Some Standard => "STANDARD"
  | Some Detailed => "DETAILED"
  | Some Forensic => "FORENSIC"
  end.

Definition change_note (n : string) (c : SensorChange) : list string :=
  match c with
  | Started => [n +:+ " on"]
  | Stopped => [n +:+ " off"]
  | StartFailed r => [n +:+ " failed: " +:+ r]
  | Unchanged | NotConfigured => []
  end.

(** [notes.join("; ")]. *)
Fixpoint join (sep : string) (l : list string) : string :=
  match l with
  | [] => ""
  | [s] => s
  | s :: l => s +:+ sep +:+ join sep l
  end.

Definition switch_sensors (starts : string -> option string) (policy : EffectivePolicy)
    (names : list string) (r : list string * AgentState) : list string * AgentState :=
  fold_left (fun '(notes, a) n =>
    let (c, a) := set_sensor_enabled starts n (default true (bt_get n (sensors policy))) a in
    (notes ++ change_note n c, a)) names r.

Definition agent_apply_policy (starts : string -> option string) (policy : EffectivePolicy)
    (a : AgentState) : string * AgentState :=
  let a := with_policy (runtime_set policy (a_policy a)) a in
  let '(notes, a) :=
    switch_sensors starts policy KNOWN_SENSORS (["level " +:+ level_text (telemetry_level policy)], a) in
  let notes := match heartbeat_interval_secs policy with
               | Some h => notes ++ ["heartbeat " +:+ dec_string h +:+ "s"]
               | None => notes
               end in
  (join "; " notes, a).

(** The report the agent's health task sends. *)
Definition agent_heartbeat (version : string) (statuses : list Health.SensorHealth) (now : Z)
    (a : AgentState) : outcome Empty_set AgentHealthRaw :=
  let? h := runtime_hash_hex (a_policy a) in
  Ok {| ah_agent_version := version;
        ah_health := Health.aggregate (fold_left Health.record_sensor statuses []);
        ah_timestamp_ns := now; ah_policy_hash := h |}.

(** ** The executor of policy commands *)

Definition on_off (b : option bool) : string :=
  match b with None => "unset" | Some true => "on" | Some false => "off" end.

Definition secs_text (h : option Z) : string :=
  match h with None => "unset" | Some s => dec_string s +:+ "s" end.

Definition describe_diff (current next : EffectivePolicy) : string :=
  let level :=
    if bool_decide (telemetry_level current = telemetry_level next) then []
    else ["level " +:+ level_text (telemetry_level current) +:+ " -> " +:+ level_text (telemetry_level next)] in
  let sensor n :=
    let a := bt_get n (sensors current) in
    let b := bt_get n (sensors next) in
    if bool_decide (a = b) then [] else [n +:+ " " +:+ on_off a +:+ " -> " +:+ on_off b] in
  let heartbeat :=
    if bool_decide (heartbeat_interval_secs current = heartbeat_interval_secs next) then []
    else ["heartbeat " +:+ secs_text (heartbeat_interval_secs current) +:+ " -> "
          +:+ secs_text (heartbeat_interval_secs next)] in
  match (level ++ flat_map sensor KNOWN_SENSORS ++ heartbeat)%list with
  | [] => "no change"
  | parts => join "; " parts
  end.

Definition policy_detail (s : string) : ExecDetail :=
  {| summary := s; detail_quarantine_id := None; detail_sha256 := None; signal := None |}.

Definition fail (c : FailCode) (message : string) : ExecFailure :=
  {| fail_code := c; fail_message := message |}.

(** [upgrade] is whether the agent is still there, [io] the error of persisting.  A panic is
    what the command handler makes of it. *)
Definition exec_apply_policy (upgrade : bool) (io : option string) (starts : string -> option string) (a : AgentState)
    (payload : PolicyPayload) (dry : bool) : (ExecDetail + ExecFailure) * AgentState :=
  match to_effective payload with
  | Err m => (inr (fail InvalidRequest m), a)
  | Panic => (inr (fail Io "executor panicked"), a)
  | Ok next =>
      if negb upgrade then (inr (fail Io "agent is shutting down"), a)
      else if dry then (inl (policy_detail ("would apply: " +:+ describe_diff (rt_applied (a_policy a)) next)), a)
      else match save_overlay io next (a_overlay a) with
           | (Ok _, file) =>
               let (s, a) := agent_apply_policy starts next (with_overlay file a) in
               (inl (policy_detail s), a)
           | (Err e, file) => (inr (fail Io ("cannot persist policy: " +:+ e)), with_overlay file a)
           | (Panic, file) => (inr (fail Io "executor panicked"), with_overlay file a)
           end
  end.

(** [PolicyAwareExecutor]: policies for the agent, everything else for the inner executor. *)
Definition policy_executor {S} (inner : ActionExecutor S) (upgrade : bool) (io : option string)
    (starts : string -> option string) : ActionExecutor (AgentState * S) :=
  {| terminate s pid exe at_ns dry :=
       let (r, i) := terminate _ inner s.2 pid exe at_ns dry in (r, (s.1, i));
     quarantine s path inode dev dry :=
       let (r, i) := quarantine _ inner s.2 path inode dev dry in (r, (s.1, i));
     restore s id dry := let (r, i) := restore _ inner s.2 id dry in (r, (s.1, i));
     apply_policy s p dry := let (r, a) := exec_apply_policy upgrade io starts s.1 p dry in (r, (a, s.2)) |}.

(** ** What the sensors settle to *)

Section Settle.
(** Starting a sensor has the same outcome whenever it is tried. *)
Context (starts : string -> option string) (Hreason : forall n, starts n <> Some DISABLED_BY_POLICY).

Definition marked (n : string) (a : AgentState) : bool := existsb (is_disabled_entry n) (a_skipped a).

Definition startable (n : string) : Prop := n ∈ KNOWN_SENSORS /\ configured n = true /\ starts n = None.

(** A sensor that could run is running, or marked as disabled, never both. *)
Record settled (a : AgentState) : Prop := {
  st_nodup : NoDup (a_sensors a);
  st_running n : n ∈ a_sensors a -> startable n;
  st_marked n : marked n a = true -> n ∈ KNOWN_SENSORS /\ configured n = true /\ n ∉ a_sensors a;
  st_either n : startable n -> n ∈ a_sensors a \/ marked n a = true }.

(** The sensors are those the policy [p] asks for. *)
Record runs_policy (p : EffectivePolicy) (a : AgentState) : Prop := {
  rp_nodup : NoDup (a_sensors a);
  rp_running n : n ∈ a_sensors a <-> startable n /\ disabled_in p n = false;
  rp_marked n : marked n a = true <-> n ∈ KNOWN_SENSORS /\ configured n = true /\ disabled_in p n = true }.

Lemma runs_settled p a : runs_policy p a -> settled a.
Proof.
  intros Hr. split; [apply Hr| | |].
  - intros n Hn. by apply (rp_running _ _ Hr).
  - intros n (Hk & Hc & Hd)%(rp_marked _ _ Hr). split_and!; [done..|]. rewrite (rp_running _ _ Hr), Hd. naive_solver.
  - intros n Hs. destruct (disabled_in p n) eqn:E; [right|left].
    + apply (rp_marked _ _ Hr). destruct Hs as (? & ? & _). done.
    + by apply (rp_running _ _ Hr).
Qed.

Lemma running_elem n a : existsb (fun m => String.eqb m n) (a_sensors a) = true <-> n ∈ a_sensors a.
Proof.
  rewrite existsb_exists, list_elem_of_In. split.
  - intros (m & Hm & ->%String.eqb_eq). done.
  - intros Hn. exists n. by rewrite String.eqb_refl.
Qed.

Lemma elem_of_remove_first n m l : NoDup l -> m ∈ remove_first n l <-> m ∈ l /\ m <> n.
Proof.
  induction l as [|x l IH]; cbn; intros Hn; [set_solver|]. apply NoDup_cons in Hn as [Hx Hl].
  destruct (String.eqb_spec x n) as [->|Hne]; [set_solver|]. rewrite !elem_of_cons, IH by done. naive_solver.
Qed.

Lemma remove_first_nodup n l : NoDup l -> NoDup (remove_first n l).
Proof.
  induction l as [|x l IH]; cbn; intros Hn; [constructor|]. pose proof Hn as [Hx Hl]%NoDup_cons.
  destruct (String.eqb x n); [done|]. apply NoDup_cons. split; [|by apply IH].
  rewrite elem_of_remove_first by done. naive_solver.
Qed.

Lemma entry_disabled n m : is_disabled_entry m {| sk_name := n; sk_reason := DISABLED_BY_POLICY |} = String.eqb n m.
Proof. unfold is_disabled_entry. cbn [sk_name sk_reason]. by rewrite String.eqb_refl, andb_true_r. Qed.

Lemma existsb_filter_negb {A} (f g : A -> bool) l :
  existsb f (List.filter (fun x => negb (g x)) l) = existsb (fun x => f x && negb (g x)) l.
Proof.
  induction l as [|x l IH]; cbn; [done|]. destruct (g x); cbn; rewrite IH; [by rewrite andb_false_r|by rewrite andb_true_r].
Qed.

Lemma existsb_ext_in {A} (f g : A -> bool) l : (forall x, f x = g x) -> existsb f l = existsb g l.
Proof. intros E. induction l as [|x l IH]; cbn; [done|]. by rewrite E, IH. Qed.

Lemma marked_mark n m d a : marked m (mark_disabled n d a) = if String.eqb n m then d else marked m a.
Proof.
  unfold marked, mark_disabled. cbn [a_skipped with_skipped].
  assert (existsb (is_disabled_entry m) (List.filter (fun s => negb (is_disabled_entry n s)) (a_skipped a))
    = if String.eqb n m then false else existsb (is_disabled_entry m) (a_skipped a)) as E.
  { rewrite existsb_filter_negb. destruct (String.eqb_spec n m) as [->|Hne].
    - induction (a_skipped a) as [|s l IH]; cbn; [done|]. by rewrite IH, andb_negb_r.
    - apply existsb_ext_in. intros s. unfold is_disabled_entry.
      destruct (String.eqb_spec (sk_name s) m) as [->|]; cbn; [|done].
      destruct (String.eqb_spec m n) as [->|]; [done|]. cbn. by rewrite andb_true_r. }
  destruct d; [|done]. rewrite existsb_app, E. cbn. rewrite entry_disabled, orb_false_r.
  by destruct (String.eqb n m); rewrite ?orb_true_r, ?orb_false_r.
Qed.

Lemma marked_failed n m reason a : starts n = Some reason -> marked n a = false ->
  marked m (with_skipped (List.filter (fun s => negb (String.eqb (sk_name s) n)) (a_skipped a)
                          ++ [{| sk_name := n; sk_reason := reason |}]) a) = marked m a.
Proof.
  intros Hs Hn. unfold marked in *. cbn [a_skipped with_skipped]. rewrite existsb_app, existsb_filter_negb. cbn.
  assert (is_disabled_entry m {| sk_name := n; sk_reason := reason |} = false) as ->.
  { unfold is_disabled_entry. cbn. apply andb_false_iff. right. apply String.eqb_neq. intros ->.
    by apply (Hreason n). }
  rewrite orb_false_r. induction (a_skipped a) as [|s l IH]; cbn in *; [done|].
  apply orb_false_iff in Hn as [Hs' Hl]. rewrite IH by done. f_equal. unfold is_disabled_entry in *.
  destruct (String.eqb_spec (sk_name s) n) as [E|]; cbn; [|by rewrite andb_true_r].
  rewrite andb_false_r. cbn in Hs'. rewrite Hs'. by rewrite andb_false_r.
Qed.

(** Switching one sensor settles it, and leaves the others alone. *)
Definition switched (n : string) (enabled : bool) (a a' : AgentState) : Prop :=
  settled a'
  /\ (n ∈ a_sensors a' <-> startable n /\ enabled = true)
  /\ (marked n a' = true <-> configured n = true /\ enabled = false)
  /\ (forall m, m <> n -> (m ∈ a_sensors a' <-> m ∈ a_sensors a) /\ marked m a' = marked m a)
  /\ a_policy a' = a_policy a /\ a_overlay a' = a_overlay a.

Section Switch.
Context (n : string) (a : AgentState) (Hk : n ∈ KNOWN_SENSORS) (Hs : settled a).

Lemma switch_failed reason : n ∉ a_sensors a -> starts n = Some reason ->
  switched n true a
    (with_skipped (List.filter (fun s => negb (String.eqb (sk_name s) n)) (a_skipped (mark_disabled n false a))
                   ++ [{| sk_name := n; sk_reason := reason |}]) (mark_disabled n false a)).
Proof.
  intros Hn Est. set (a' := with_skipped _ _).
  assert (forall m, marked m a' = if String.eqb n m then false else marked m a) as Hm.
  { intros m. unfold a'. rewrite (marked_failed n m reason _ Est); rewrite marked_mark; [done|by rewrite String.eqb_refl]. }
  split_and!; [split| | | |done|done].
  - apply Hs.
  - apply Hs.
  - intros m. rewrite Hm. destruct (String.eqb n m); [done|apply Hs].
  - intros m Hst. rewrite Hm. destruct (String.eqb_spec n m) as [<-|]; [|by apply Hs].
    destruct Hst as (_ & _ & ?). congruence.
  - unfold startable. cbn. split; [done|]. intros [(_ & _ & ?) _]. congruence.
  - rewrite Hm, String.eqb_refl. naive_solver.
  - intros m Hne. rewrite Hm. destruct (String.eqb_spec n m); [congruence|done].
Qed.

Lemma switch_started : n ∉ a_sensors a -> configured n = true -> starts n = None ->
  switched n true a (with_sensors (a_sensors (mark_disabled n false a) ++ [n]) (mark_disabled n false a)).
Proof.
  intros Hn Hc Est. set (a' := with_sensors _ _).
  assert (forall m, marked m a' = if String.eqb n m then false else marked m a) as Hm
    by (intros m; apply (marked_mark n m false a)).
  assert (a_sensors a' = a_sensors a ++ [n]) as Ea by done. assert (a_policy a' = a_policy a) as Ep by done.
  assert (a_overlay a' = a_overlay a) as Eo by done. clearbody a'.
  split_and!; [split| | | |done|done]; rewrite ?Hm, ?String.eqb_refl; try intros m;
    rewrite ?Ea, ?elem_of_app, ?list_elem_of_singleton.
  - apply NoDup_app. split_and!; [apply Hs|set_solver|apply NoDup_singleton].
  - intros [Hr|Hr]; [by apply Hs|by subst].
  - rewrite Hm. destruct (String.eqb_spec n m) as [<-|]; [done|]. intros (? & ? & ?)%(st_marked _ Hs). set_solver.
  - intros Hst. rewrite Hm. destruct (String.eqb_spec n m) as [<-|]; [auto|]. destruct (st_either _ Hs m Hst); auto.
  - unfold startable. naive_solver.
  - naive_solver.
  - intros Hne. rewrite Hm. destruct (String.eqb_spec n m); [congruence|]. naive_solver.
Qed.

Lemma switch_stopped : n ∈ a_sensors a ->
  switched n false a (mark_disabled n true (with_sensors (remove_first n (a_sensors a)) a)).
Proof.
  intros Hn. pose proof (st_running _ Hs n Hn) as Hst. pose proof (st_nodup _ Hs) as Hnd.
  set (a' := mark_disabled _ _ _).
  assert (forall m, marked m a' = if String.eqb n m then true else marked m a) as Hm
    by (intros m; apply (marked_mark n m true (with_sensors _ a))).
  assert (a_sensors a' = remove_first n (a_sensors a)) as Ea by done. assert (a_policy a' = a_policy a) as Ep by done.
  assert (a_overlay a' = a_overlay a) as Eo by done. clearbody a'.
  split_and!; [split| | | |done|done]; rewrite ?Hm, ?String.eqb_refl; try intros m;
    rewrite ?Ea, ?elem_of_remove_first by done.
  - by apply remove_first_nodup.
  - intros [Hr _]. by apply Hs.
  - rewrite Hm. destruct (String.eqb_spec n m) as [<-|]; [destruct Hst as (? & ? & _); naive_solver|].
    intros (? & ? & ?)%(st_marked _ Hs). naive_solver.
  - intros Hr. rewrite Hm. destruct (String.eqb_spec n m) as [<-|]; [auto|]. destruct (st_either _ Hs m Hr); auto.
  - naive_solver.
  - destruct Hst as (_ & ? & _). naive_solver.
  - intros Hne. rewrite Hm. destruct (String.eqb_spec n m); [congruence|]. naive_solver.
Qed.

Lemma switch_marked : n ∉ a_sensors a -> configured n = true -> switched n false a (mark_disabled n true a).
Proof.
  intros Hn Hc. split_and!; [split| | | |done|done].
  - apply Hs.
  - apply Hs.
  - intros m. rewrite marked_mark. destruct (String.eqb_spec n m) as [<-|]; [done|apply Hs].
  - intros m Hm. rewrite marked_mark. destruct (String.eqb_spec n m); [auto|by apply Hs].
  - cbn. naive_solver.
  - rewrite marked_mark, String.eqb_refl. naive_solver.
  - intros m Hne. rewrite marked_mark. by destruct (String.eqb_spec n m).
Qed.

Lemma set_sensor_settles enabled : switched n enabled a (set_sensor_enabled starts n enabled a).2.
Proof.
  unfold set_sensor_enabled. pose proof (running_elem n a) as Hrun. pose proof (st_marked _ Hs n) as Sm.
  pose proof (st_either _ Hs n) as Se. pose proof (st_running _ Hs n) as Sr.
  destruct enabled, (existsb (fun m => String.eqb m n) (a_sensors a)) eqn:Er.
  - apply proj1 in Hrun. specialize (Hrun eq_refl). split; [done|]. split; [naive_solver|]. split; [|done].
    split; [|naive_solver]. intros Hm. by apply Sm in Hm as (_ & _ & Hn).
  - assert (n ∉ a_sensors a) as Hn by (by rewrite <- Hrun).
    destruct (existsb (is_disabled_entry n) (a_skipped a)) eqn:Em; fold (marked n a) in Em.
    + destruct (Sm Em) as (_ & Hc & _). rewrite Hc.
      destruct (starts n) as [reason|] eqn:Est; [by apply switch_failed|by apply switch_started].
    + cbn [snd]. split; [done|]. split; [|split; [rewrite Em; naive_solver|done]].
      split; [done|]. intros [Hst _]. destruct (Se Hst) as [|Hm]; [done|]. by rewrite Em in Hm.
  - by apply switch_stopped, Hrun.
  - assert (n ∉ a_sensors a) as Hn by (by rewrite <- Hrun). cbn [snd].
    destruct (configured n) eqn:Ec; [by apply switch_marked|].
    split; [done|]. split; [naive_solver|]. split; [|done]. rewrite Ec. split; [|naive_solver].
    intros (_ & ? & _)%Sm. congruence.
Qed.

End Switch.

Lemma switch_sensors_spec p names notes a : NoDup names -> Forall (fun n => n ∈ KNOWN_SENSORS) names -> settled a ->
  let a' := (switch_sensors starts p names (notes, a)).2 in
  settled a'
  /\ (forall n, n ∈ names -> (n ∈ a_sensors a' <-> startable n /\ disabled_in p n = false)
                             /\ (marked n a' = true <-> configured n = true /\ disabled_in p n = true))
  /\ (forall n, n ∉ names -> (n ∈ a_sensors a' <-> n ∈ a_sensors a) /\ marked n a' = marked n a)
  /\ a_policy a' = a_policy a /\ a_overlay a' = a_overlay a.
Proof.
  revert notes a. induction names as [|n names IH]; intros notes a Hn Hk Hs.
  { cbn. split_and!; try done. set_solver. }
  apply NoDup_cons in Hn as [Hnin Hn]. apply Forall_cons in Hk as [Hk Hks].
  pose proof (set_sensor_settles n a Hk Hs (default true (bt_get n (sensors p)))) as Hsw.
  unfold switch_sensors. cbn [fold_left].
  destruct (set_sensor_enabled starts n _ a) as [c a1]. cbn [snd] in Hsw.
  change (fold_left _ names _) with (switch_sensors starts p names (notes ++ change_note n c, a1)).
  destruct Hsw as (Hs1 & Hr & Hm & Ho & Ep & Eo).
  destruct (IH (notes ++ change_note n c) a1 Hn Hks Hs1) as (Hs2 & Hin & Hout & Ep2 & Eo2).
  assert (default true (bt_get n (sensors p)) = negb (disabled_in p n)) as Ed.
  { unfold disabled_in. destruct (bt_get n (sensors p)) as [[]|]; done. }
  rewrite Ed, ?negb_true_iff, ?negb_false_iff in *.
  split; [done|]. split_and!; [| |by rewrite Ep2|by rewrite Eo2].
  - intros m [->|Hm']%elem_of_cons; [|by apply Hin]. destruct (Hout n Hnin) as [E1 ->]. by rewrite E1.
  - intros m Hm'. apply not_elem_of_cons in Hm' as [Hne Hm']. destruct (Hout m Hm') as [E1 E2].
    destruct (Ho m Hne) as [E3 E4]. by rewrite E1, E2, E3, E4.
Qed.

Lemma known_nodup : NoDup KNOWN_SENSORS.
Proof. by apply (bool_decide_unpack (NoDup KNOWN_SENSORS)). Qed.

Lemma apply_policy_runs p a : settled a ->
  let a' := (agent_apply_policy starts p a).2 in
  runs_policy p a' /\ a_policy a' = runtime_set p (a_policy a) /\ a_overlay a' = a_overlay a.
Proof.
  intros Hs. unfold agent_apply_policy. set (a0 := with_policy _ a).
  assert (settled a0) as Hs0 by (destruct Hs; by split).
  pose proof (switch_sensors_spec p KNOWN_SENSORS ["level " +:+ level_text (telemetry_level p)] a0 known_nodup) as Hsw.
  destruct (switch_sensors starts p KNOWN_SENSORS _) as [notes a1]. cbn [snd] in *.
  destruct Hsw as (Hs1 & Hin & Hout & Ep & Eo); [by apply Forall_forall|done|].
  split; [split|by rewrite Ep].
  - apply Hs1.
  - intros n. destruct (decide (n ∈ KNOWN_SENSORS)) as [Hk|Hk]; [by apply Hin|].
    split; [by intros [? _]%(st_running _ Hs1)|by intros [[? _] _]].
  - intros n. destruct (decide (n ∈ KNOWN_SENSORS)) as [Hk|Hk]; [rewrite (proj2 (Hin n Hk)); naive_solver|].
    split; [by intros (? & _)%(st_marked _ Hs1)|by intros [? _]].
Qed.

(** An agent that gets the payload of a valid policy runs that policy. *)
Lemma exec_applies e p a : keys_sorted (Policy.sensors e) = true -> effective_validate e = Ok tt ->
  from_effective e = Ok p -> is_Some (to_vec e) -> settled a ->
  exists detail a', exec_apply_policy true None starts a p false = (inl detail, a')
    /\ runs_policy e a' /\ rt_applied (a_policy a') = e.
Proof.
  intros Hs Hv Hf [j Hj] Ha. unfold exec_apply_policy. rewrite (proj2 (to_effective_ok p e)) by done. cbn [negb].
  assert (exists file, save_overlay None e (a_overlay a) = (Ok tt, file)) as [file ->].
  { unfold save_overlay. rewrite Hj. destruct (is_empty e); by eexists. }
  pose proof (apply_policy_runs e (with_overlay file a)) as Hr.
  destruct (agent_apply_policy starts e (with_overlay file a)) as [s a'] eqn:E. cbn [snd] in Hr.
  destruct Hr as (Hr & Hp & _); [by destruct Ha|].
  exists (policy_detail s), a'. by rewrite Hp.
Qed.

Lemma startup_known : STARTUP_ORDER ≡ₚ KNOWN_SENSORS.
Proof.
  apply NoDup_Permutation; [|apply known_nodup|].
  - by apply (bool_decide_unpack (NoDup STARTUP_ORDER)).
  - intros n. unfold STARTUP_ORDER, KNOWN_SENSORS. set_solver.
Qed.

Lemma start_runs_policy file :
  runs_policy (default default_effective (load_overlay file)) (agent_start starts file).
Proof.
  unfold agent_start, start_sensors. set (p := default _ _). cbv beta iota zeta.
  assert (forall n f, n ∈ List.filter f (List.filter configured STARTUP_ORDER)
    <-> n ∈ KNOWN_SENSORS /\ configured n = true /\ f n = true) as Hf.
  { intros n f. rewrite !elem_of_filter_b, startup_known. naive_solver. }
  split; cbn [a_sensors].
  - rewrite <- (map_id (List.filter _ _)). do 3 apply filter_nodup. rewrite map_id, startup_known. apply known_nodup.
  - intros n. rewrite elem_of_filter_b, Hf, negb_true_iff. unfold startable. destruct (starts n); split.
    + by intros [_ ?].
    + by intros [(_ & _ & ?) _].
    + by intros [(? & ? & ?) _].
    + by intros [(? & ? & _) ?].
  - intros n. unfold marked. cbn [a_skipped]. rewrite existsb_app, orb_true_iff, !existsb_exists. split.
    + intros [(s & Hs & E)|(s & Hs & E)].
      * apply in_map_iff in Hs as (m & <- & Hm). rewrite entry_disabled in E. apply String.eqb_eq in E as ->.
        by apply list_elem_of_In, Hf in Hm.
      * apply list_elem_of_In, list_elem_of_omap in Hs as (m & _ & Hs). destruct (starts m) as [r|] eqn:Er; [|done].
        injection Hs as <-. unfold is_disabled_entry in E. apply andb_true_iff in E as [_ E%String.eqb_eq].
        cbn in E. subst r. by destruct (Hreason m).
    + intros Hn. left. exists {| sk_name := n; sk_reason := DISABLED_BY_POLICY |}.
      rewrite entry_disabled, String.eqb_refl. split; [|done]. apply in_map_iff. exists n. split; [done|].
      by apply list_elem_of_In, Hf.
Qed.

(** ** Live application and restart *)

(** [serde_json] writes UTF-8. *)
Context (Hutf : forall p text, to_vec (T := EffectivePolicy) p = Some text -> utf8_valid text = true).

Record agent_inv (a : AgentState) : Prop := {
  ai_overlay : default default_effective (load_overlay (a_overlay a)) = rt_applied (a_policy a);
  ai_runtime : a_policy a = runtime_set (rt_applied (a_policy a)) (runtime_new health_interval_secs);
  ai_runs : runs_policy (rt_applied (a_policy a)) a }.

Lemma is_empty_default p : is_empty p = true -> p = default_effective.
Proof. destruct p as [[] [] []]; done. Qed.

Lemma load_saved p file file' : effective_validate p = Ok tt ->
  save_overlay None p file = (Ok tt, file') -> default default_effective (load_overlay file') = p.
Proof.
  intros Hv. unfold save_overlay. destruct (is_empty p) eqn:E.
  - intros [= <-]. cbn. by rewrite (is_empty_default p E).
  - destruct (to_vec p) as [text|] eqn:Et; [|done]. intros [= <-]. cbn.
    rewrite (Hutf _ _ Et), (serde_roundtrip _ _ Et). by rewrite Hv.
Qed.

Lemma start_inv file : agent_inv (agent_start starts file).
Proof. split; [done|done|apply start_runs_policy]. Qed.

Lemma exec_apply_inv upgrade io a payload dry :
  agent_inv a -> agent_inv (exec_apply_policy upgrade io starts a payload dry).2.
Proof.
  intros Ha. unfold exec_apply_policy. destruct (to_effective payload) as [next| |] eqn:Et; [|done..].
  destruct upgrade; [|done]. destruct dry; [done|]. cbn [negb].
  assert (with_overlay (a_overlay a) a = a) as Esame by (by destruct a).
  destruct (save_overlay io next (a_overlay a)) as [[[]| |] file] eqn:Es.
  - assert (io = None) as -> by (unfold save_overlay in Es; destruct io, (is_empty next), (to_vec next); done).
    apply to_effective_ok in Et as (_ & Hv & _).
    pose proof (apply_policy_runs next (with_overlay file a)) as Hr.
    destruct (agent_apply_policy starts next (with_overlay file a)) as [s a']. cbn [snd] in *.
    destruct Hr as (Hr & Ep & Eo); [destruct (runs_settled _ _ (ai_runs _ Ha)); by split|].
    split; rewrite ?Eo, Ep; cbn; [by eapply load_saved| |done].
    rewrite (ai_runtime _ Ha). done.
  - assert (file = a_overlay a) as -> by
      (unfold save_overlay in Es; destruct (is_empty next), io, (to_vec next); congruence).
    cbn [snd]. by rewrite Esame.
  - assert (file = a_overlay a) as -> by
      (unfold save_overlay in Es; destruct (is_empty next), io, (to_vec next); congruence).
    cbn [snd]. by rewrite Esame.
Qed.

(** A policy command as it arrives: still an agent, failing disk, payload, dry run. *)
Definition policy_command : Type := bool * option string * PolicyPayload * bool.

Definition policy_run (cmds : list policy_command) (a : AgentState) : AgentState :=
  fold_left (fun a '(upgrade, io, payload, dry) => (exec_apply_policy upgrade io starts a payload dry).2) cmds a.

Lemma policy_run_inv cmds a : agent_inv a -> agent_inv (policy_run cmds a).
Proof.
  revert a. induction cmds as [|[[[up io] pl] dry] cmds IH]; intros a Ha; [done|].
  apply IH. by apply exec_apply_inv.
Qed.

(** C24. Applying policies live and restarting on the file they left agree: after any sequence
    of policy commands (valid or not, dry runs, with failing disks), provided that each sensor
    always starts or never does ([starts], as its build and host allow: a start that fails now
    and succeeds later is outside), an agent that restarts
    runs the same sensors, has the same ones disabled by policy, and the same level, heartbeat
    and reported policy as the one that kept running. *)
Theorem live_policy_is_restart_policy cmds file :
  let a := policy_run cmds (agent_start starts file) in
  let b := agent_start starts (a_overlay a) in
  a_sensors a ≡ₚ a_sensors b /\ (forall n, marked n a = marked n b) /\ a_policy a = a_policy b.
Proof.
  intros a b. pose proof (policy_run_inv cmds _ (start_inv file)) as Ha. fold a in Ha.
  pose proof (start_runs_policy (a_overlay a)) as Hb. fold b in Hb. rewrite (ai_overlay _ Ha) in Hb.
  pose proof (ai_runs _ Ha) as Hr. split_and!.
  - apply NoDup_Permutation; [apply Hr|apply Hb|]. intros n. by rewrite (rp_running _ _ Hr), (rp_running _ _ Hb).
  - intros n. apply Bool.eq_true_iff_eq. by rewrite (rp_marked _ _ Hr), (rp_marked _ _ Hb).
  - rewrite (ai_runtime _ Ha). unfold b, agent_start. cbn. by rewrite (ai_overlay _ Ha).
Qed.

End Settle.
End AgentPolicy.

(** ** Example *)

Definition dns_off : EffectivePolicy :=
  {| telemetry_level := Some Minimal; sensors := [("dns", false)]; heartbeat_interval_secs := Some 60 |}.

#[local] Instance overlay_serde : Serde EffectivePolicy := table_serde [dns_off].
#[local] Instance overlay_sha : Sha256 := concrete_sha256.

Lemma overlay_utf8 (p : EffectivePolicy) text : to_vec p = Some text -> utf8_valid text = true.
Proof.
  cbn. unfold table_to_vec, index_of. destruct (decide (p = dns_off)); [|done]. intros [= <-]. reflexivity.
Qed.

Definition dns_off_payload : PolicyPayload :=
  match from_effective dns_off with Ok p => p | _ => Build_PolicyPayload None [] None [] end.

(** The DNS and network sensors are configured; the disk fails at first. *)
Definition two_sensors (n : string) : bool := String.eqb n "dns" || String.eqb n "network".

Definition after_commands : AgentState :=
  policy_run two_sensors (fun _ => None) [(true, Some "disk full", dns_off_payload, false); (true, None, dns_off_payload, true);
    (true, None, dns_off_payload, false)] (agent_start two_sensors 30 (fun _ => None) None).

Lemma live_policy_is_restart_policy_witness :
  a_sensors after_commands = ["network"] /\ marked "dns" after_commands = true
  /\ a_sensors after_commands ≡ₚ a_sensors (agent_start two_sensors 30 (fun _ => None) (a_overlay after_commands))
  /\ a_policy after_commands = a_policy (agent_start two_sensors 30 (fun _ => None) (a_overlay after_commands)).
Proof.
  split; [vm_compute; reflexivity|]. split; [vm_compute; reflexivity|].
  destruct (live_policy_is_restart_policy two_sensors 30 (fun _ => None) (fun _ => ltac:(discriminate)) overlay_utf8
    [(true, Some "disk full", dns_off_payload, false); (true, None, dns_off_payload, true); (true, None, dns_off_payload, false)]
    None) as (Hs & _ & Hp).
  split; [exact Hs|exact Hp].
Defined.
