(* ===== verification/Ingest.v ===== *)
(** * Ingestion: [crates/osiris-server/src/ingest.rs]

    A batch of events on the server: ownership check, storage, detection, edges, baseline,
    correlation and risk, then the live stream, the exporters and the host registry.  Every
    statement on the way may fail; what happened before stays. *)

From S2P Require Import Prelude Concrete BTree Json Schema Policy Health Detect.
From S2P Require Import Correlate Baseline Risk Transport Sql StoreConcrete Storage StoreQuery.
From S2P Require Import Fleet.

Section Ingest.
Context `{JsonLib} `{HexCodec} `{UuidText} `{Sha256} `{Sqlite}.
Context `{event_serde : !Serde CanonicalEvent} `{alert_serde : !Serde Alert}
        `{ids_serde : !Serde (list Uuid)}.
(** [serde_json::to_value] of an event, and [from_value] of the health report in one. *)
Context (to_value : CanonicalEvent -> option json) (health_of : json -> option Health.AgentHealth).
(** The configuration of the engines, and whether exporters are configured. *)
Context (risk_config : RiskConfig) (correlation : CorrelationEngine) (rare_threshold : Z)
        (exporters : bool).

(** What is outside the code during one call: the failing statements, fresh alert ids, the
    state a panicking detection leaves behind, subscribers of the stream, the clock. *)
Record Weather := {
  w_owner : nat -> bool;
  w_batch : nat -> bool;
  w_alerts : nat -> bool;
  w_edges : nat -> bool;
  w_risk : nat -> bool;
  w_lookup : string -> Z -> Z -> bool;
  w_baseline : gmap (string * string) frequency_row -> FrequencyKind -> string -> bool;
  w_baseline_tx : bool * bool;
  w_new_id : Rule -> CanonicalEvent -> Uuid;
  w_panicked : DetectionEngine;
  w_subscribers : bool;
  w_now : Z;
  w_registry : nat -> bool }.

Record State := {
  s_db : Db;
  s_detect : DetectionEngine;
  s_baseline : gmap (string * string) frequency_row;
  s_hosts : gmap Uuid HostRow;
  s_published : list (list CanonicalEvent);
  s_exported : list (list CanonicalEvent * list Alert);
  s_reconcile : list (list Uuid) }.

Definition with_db (d : Db) (s : State) : State :=
  Build_State d (s_detect s) (s_baseline s) (s_hosts s) (s_published s) (s_exported s) (s_reconcile s).
Definition with_detect (e : DetectionEngine) (s : State) : State :=
  Build_State (s_db s) e (s_baseline s) (s_hosts s) (s_published s) (s_exported s) (s_reconcile s).
Definition with_baseline (t : gmap (string * string) frequency_row) (s : State) : State :=
  Build_State (s_db s) (s_detect s) t (s_hosts s) (s_published s) (s_exported s) (s_reconcile s).

(** ** The steps of a batch: state is kept also where a step fails *)

Definition step (A : Type) : Type := State -> outcome StorageError A * State.

Definition step_ret {A} (a : A) : step A := fun s => (Ok a, s).

Definition step_bind {A B} (m : step A) (k : A -> step B) : step B :=
  fun s => match m s with
           | (Ok a, s) => k a s
           | (Err e, s) => (Err e, s)
           | (Panic, s) => (Panic, s)
           end.

Local Notation "'let!' x ':=' m 'in' k" := (step_bind m (fun x => k))
  (at level 10, x pattern, m at level 100, k at level 200, only parsing).

Definition on_db {A} (f : Db -> outcome StorageError A * Db) : step A :=
  fun s => let (r, d) := f (s_db s) in (r, with_db d s).

(** [if !l.is_empty() { m? }]. *)
Definition unless_empty {X A} (l : list X) (m : step A) : step unit :=
  match l with [] => step_ret tt | _ => let! _ := m in step_ret tt end.

(** ** The ownership check *)

Fixpoint keep_events (fails : nat -> bool) (i : nat) (d : Db) (seen : gset Uuid)
    (events : list CanonicalEvent)
  : outcome StorageError (list CanonicalEvent * list bool) :=
  match events with
  | [] => Ok ([], [])
  | e :: events =>
      let? owner := event_owner (fails i) (event_id e) d in
      let foreign := match owner with Some o => negb (o =? ev_host_id e) | None => false end in
      if foreign then keep_events fails (S i) d seen events
      else
        let fresh := bool_decide (event_id e ∉ seen)
                     && match owner with None => true | Some _ => false end in
        let? (kept, is_new) := keep_events fails (S i) d ({[event_id e]} ∪ seen) events in
        Ok (e :: kept, if exporters then fresh :: is_new else is_new)
  end.

(** ** Correlation and risk *)

(** The edges of one host, for the walk: a failing query is no edges. *)
Definition storage_source (host_id : string) (fails : string -> Z -> Z -> bool) (d : Db)
  : EdgeSource :=
  {| edges_for entity since until :=
       match query_relationships (fails (storage_key entity) since until)
               {| lp_entity := Some entity; lp_since := Some since; lp_until := Some until;
                  lp_limit := lp_limit relationship_plan_new; lp_host_ids := Some [host_id] |} d with
       | Ok edges => edges
       | _ => []
       end |}.

Definition correlate_and_score (w : Weather) (d : Db) (event : CanonicalEvent)
    (alerts_for_event : list Alert) (observations : list Observation) : option RiskScoreRecord :=
  match ev_process event with
  | None => None
  | Some process =>
      let source := storage_source (uuid_display (ev_host_id event)) (w_lookup w) d in
      let chain := @build_chain _ _ source correlation (EProcess (process_key process))
                     (ev_timestamp event) in
      score risk_config event alerts_for_event observations (Some chain)
  end.

(** The loop over the process events; [observations.next().unwrap_or_default()]. *)
Fixpoint score_events (w : Weather) (d : Db) (alerts : list Alert) (events : list CanonicalEvent)
    (observations : list (list Observation)) : list RiskScoreRecord :=
  match events with
  | [] => []
  | e :: events =>
      let alerts_for_event :=
        List.filter (fun a => bool_decide (event_id e ∈ alert_evidence a)) alerts in
      option_list (correlate_and_score w d e alerts_for_event (hd [] observations))
      ++ score_events w d alerts events (tl observations)
  end.

Definition detect (w : Weather) (events : list CanonicalEvent) : step (list Alert) :=
  fun s => match evaluate_batch to_value (w_new_id w) (s_detect s) events with
           | Ok (alerts, engine) => (Ok alerts, with_detect engine s)
           | _ => (Panic, with_detect (w_panicked w) s)
           end.

(** A failing baseline leaves the batch without observations. *)
Definition observe_events (w : Weather) (events : list CanonicalEvent)
  : step (list (list Observation)) :=
  fun s => match observe_batch rare_threshold (w_baseline w) (w_baseline_tx w).1 (w_baseline_tx w).2
                   (s_baseline s) events with
           | (Ok obs, t) => (Ok obs, with_baseline t s)
           | (_, t) => (Ok (map (fun _ => []) events), with_baseline t s)
           end.

Definition has_process (e : CanonicalEvent) : bool :=
  match ev_process e with Some _ => true | None => false end.

(** The events of [l] whose flag is set. *)
Definition flagged (l : list CanonicalEvent) (flags : list bool) : list CanonicalEvent :=
  map fst (List.filter snd (zip l flags)).

(** Everything after the ownership check, in the blocking task. *)
Definition analyse (w : Weather) (events : list CanonicalEvent) (is_new : list bool)
  : step (list Alert) :=
  let! _ := on_db (batch_write (w_batch w) events) in
  let! alerts := detect w events in
  let! _ := unless_empty alerts (on_db (write_alerts (w_alerts w) alerts)) in
  let edges := flat_map relationships events in
  let! _ := unless_empty edges (on_db (write_relationships (w_edges w) edges)) in
  let process_events := List.filter has_process events in
  let! observations := observe_events w process_events in
  let! d := (fun s => (Ok (s_db s), s)) in
  let risk_records := score_events w d alerts process_events observations in
  let! _ := unless_empty risk_records (on_db (write_risk_scores (w_risk w) risk_records)) in
  step_ret (if exporters
            then let new_ids := map event_id (flagged events is_new) in
                 List.filter (fun a => existsb (fun i => bool_decide (i ∈ new_ids)) (alert_evidence a))
                   alerts
            else []).

(** ** Heartbeats *)

Definition is_policy_hash (s : string) : bool :=
  let b := bytes_of s in
  (List.length b =? 64)%nat
  && forallb (fun c => is_digit c || ((97 <=? b2z c) && (b2z c <=? 102))) b.

Definition reported_policy_hash (event_data : json) : outcome Empty_set (option string) :=
  match json_get event_data "policy_hash" with
  | None => Ok None
  | Some v =>
      if json_is_null v then let? h := empty_policy_hash_hex in Ok (Some h)
      else Ok (match json_as_str v with
               | Some s => if is_policy_hash s then Some s else None
               | None => None
               end)
  end.

(** The row of a heartbeat, its time capped at the server's clock; [None] for malformed data. *)
Definition heartbeat_row (server_now : Z) (event : CanonicalEvent)
  : outcome Empty_set (option HostRow) :=
  match json_get (event_data event) "agent_version" ≫= json_as_str,
        json_get (event_data event) "health" ≫= health_of with
  | Some agent_version, Some health =>
      let clamped_ts := Z.min (ev_timestamp event) server_now in
      let cloud := host_cloud (ev_host event) in
      let? hash := reported_policy_hash (event_data event) in
      Ok (Some {| hr_host_id := ev_host_id event; hr_hostname := hostname (ev_host event);
                  hr_distro := distro (ev_host event);
                  hr_kernel_version := kernel_version (ev_host event);
                  hr_agent_version := agent_version; hr_enrolled_at := clamped_ts;
                  hr_last_seen := clamped_ts; hr_health_state := Health.agent_state health;
                  hr_cloud_provider := option_map cloud_provider cloud;
                  hr_cloud_instance_id := cloud ≫= cloud_instance_id;
                  hr_cloud_region := cloud ≫= cloud_region;
                  hr_applied_policy_hash := hash |})
  | _, _ => Ok None
  end.

(** The registry task; [false] when it panics. *)
Fixpoint register_heartbeats (w : Weather) (i : nat) (events : list CanonicalEvent)
    (t : gmap Uuid HostRow) : bool * gmap Uuid HostRow :=
  match events with
  | [] => (true, t)
  | e :: events =>
      match heartbeat_row (w_now w) e with
      | Ok (Some row) =>
          register_heartbeats w (S i) events (upsert_heartbeat (w_registry w i) row t).2
      | Ok None => register_heartbeats w (S i) events t
      | _ => (false, t)
      end
  end.

(** Distinct, in the order of their first occurrence. *)
Fixpoint distinct_hosts (seen : gset Uuid) (l : list Uuid) : list Uuid :=
  match l with
  | [] => []
  | h :: l => if bool_decide (h ∈ seen) then distinct_hosts seen l
              else h :: distinct_hosts ({[h]} ∪ seen) l
  end.

(** ** The whole call *)

Definition offered (kept : list CanonicalEvent) (is_new : list bool) : list CanonicalEvent :=
  if forallb id is_new then kept else flagged kept is_new.

(** What follows a successful task: the stream, the exporters, the registry. *)
Definition finish (w : Weather) (kept : list CanonicalEvent) (is_new : list bool)
    (export_alerts : list Alert) (health_events : list CanonicalEvent) (s : State) : State :=
  let '(done, hosts) :=
    match health_events with
    | [] => (false, s_hosts s)
    | _ => register_heartbeats w 0 health_events (s_hosts s)
    end in
  {| s_db := s_db s; s_detect := s_detect s; s_baseline := s_baseline s; s_hosts := hosts;
     s_published := if w_subscribers w then s_published s ++ [kept] else s_published s;
     s_exported := if exporters then s_exported s ++ [(offered kept is_new, export_alerts)]
                   else s_exported s;
     s_reconcile := if (done : bool)
                    then s_reconcile s ++ [distinct_hosts ∅ (map ev_host_id health_events)]
                    else s_reconcile s |}.

Definition ingest (w : Weather) (events : list CanonicalEvent) (s : State)
  : outcome string unit * State :=
  match events with
  | [] => (Ok tt, s)
  | _ =>
      let health_events :=
        List.filter (fun e => bool_decide (event_type e = AgentHealth)) events in
      match keep_events (w_owner w) 0 (s_db s) ∅ events with
      | Ok (kept, is_new) =>
          match analyse w kept is_new s with
          | (Ok export_alerts, s) => (Ok tt, finish w kept is_new export_alerts health_events s)
          | (Err _, s) => (Err "storage", s)
          | (Panic, s) => (Err "ingest task panicked or was cancelled", s)
          end
      | Err _ => (Err "storage", s)
      | Panic => (Err "ingest task panicked or was cancelled", s)
      end
  end.

(** ** The ownership check keeps what its host may claim *)

Lemma keep_events_spec fails d events : db_ok d -> forall i seen kept is_new,
  keep_events fails i d seen events = Ok (kept, is_new) ->
  kept `sublist_of` events
  /\ Forall (fun e => forall o, stored_event d (event_id e) = Some o -> ev_host_id o = ev_host_id e) kept
  /\ (exporters = true -> List.length is_new = List.length kept).
Proof.
  intros Hd. induction events as [|e events IH]; intros i seen kept is_new; cbn [keep_events].
  { intros [= <- <-]. split_and!; [done|constructor|done]. }
  unfold event_owner at 1. destruct (fails i); [done|].
  change (if false then ?a else ?b) with b.
  pose proof (event_owner_spec d (event_id e) Hd) as Ho. unfold event_owner in Ho. rewrite Ho.
  cbn [obind]. destruct (match option_map _ _ with Some _ => _ | None => _ end) eqn:Ef.
  { intros E. destruct (IH _ _ _ _ E) as (Hs & Hf & Hl). split_and!; [by constructor|done|done]. }
  destruct (keep_events _ _ _ _ _) as [[kept' is_new']| |] eqn:E; cbn [obind]; try done.
  intros [= <- <-]. destruct (IH _ _ _ _ E) as (Hs & Hf & Hl). split_and!.
  - by constructor.
  - constructor; [|done]. intros o Eo. rewrite Eo in Ef. cbn in Ef.
    apply negb_false_iff, Z.eqb_eq in Ef. done.
  - destruct exporters; [|done]. intros _. cbn. by rewrite Hl.
Qed.

(** ** What ingestion writes is well formed *)

Definition event_wf (e : CanonicalEvent) : Prop :=
  event_ok e /\ Forall edge_ok (relationships e)
  /\ (forall p, ev_process e = Some p -> process_key_ok (process_key p)).

Definition detect_wf (eng : DetectionEngine) : Prop :=
  forall k st, sequence_state eng !! k = Some st -> Forall (fun i => fits 128 i = true) (event_ids st).

(** The detection engine on one event. *)
Section Alerts.
Context (new_id : Rule -> CanonicalEvent -> Uuid) (e : CanonicalEvent).
Context (He : event_ok e) (Hid : forall r, fits 128 (new_id r e) = true).

Lemma alert_for_fits r reasons evidence a :
  Forall (fun i => fits 128 i = true) evidence ->
  alert_for new_id r e reasons evidence = Some a -> alert_fits a.
Proof.
  intros Hev. unfold alert_for, alert_new. destruct (alert_validate _ _ _); cbn; try done.
  intros [= <-]. destruct He as (Hi & Hh & Ht). repeat split; cbn; auto.
Qed.

Lemma evaluate_rule_fits r j a : evaluate_rule new_id r e j = Some a -> alert_fits a.
Proof.
  unfold evaluate_rule. case_match; [|done]. apply alert_for_fits. constructor; [apply He|constructor].
Qed.

Definition state_wf (m : gmap (string * string) SequenceState) : Prop :=
  forall k st, m !! k = Some st -> Forall (fun i => fits 128 i = true) (event_ids st).

Lemma state_wf_delete m k : state_wf m -> state_wf (base.delete k m).
Proof. intros Hm k' st [_ E]%lookup_delete_Some. by eapply Hm. Qed.

Lemma drop_stale_wf win key m : state_wf m -> state_wf (drop_stale e win key m).
Proof. intros Hm. unfold drop_stale. destruct (match _ with Some _ => _ | None => _ end); [by apply state_wf_delete|done]. Qed.

Lemma step_sequence_fits j subject m r o m' :
  state_wf m -> step_sequence new_id e j subject m r = Ok (o, m') ->
  (forall a, o = Some a -> alert_fits a) /\ state_wf m'.
Proof.
  intros Hm. unfold step_sequence.
  destruct (sequence r) as [steps|]; cbn [or_panic obind]; [|done].
  destruct (window r) as [win|]; cbn [or_panic obind]; [|done].
  pose proof (drop_stale_wf win (rule_id r, subject) m Hm) as Hm1.
  set (m1 := drop_stale e win (rule_id r, subject) m) in *.
  destruct (steps !! _) as [c|]; cbn [or_panic obind]; [|done].
  destruct (negb (cond_matches j c)); [by intros [= <- <-]|].
  destruct (_ && negb _); [by intros [= <- <-]|].
  set (entry := match m1 !! _ with Some s => s | None => _ end).
  assert (Forall (fun i => fits 128 i = true) (event_ids entry ++ [event_id e])) as Hev.
  { apply Forall_app. split; [|constructor; [apply He|constructor]].
    subst entry. destruct (m1 !! _) as [st|] eqn:Est; [by eapply Hm1|constructor]. }
  destruct (_ =? _)%nat; intros [= <- <-].
  - split; [intros a Ha; by eapply alert_for_fits|by apply state_wf_delete].
  - split; [done|]. intros k st. rewrite lookup_insert_Some. intros [[_ <-]|[_ E]]; [done|by eapply Hm1].
Qed.

Lemma sequence_loop_fits j subject rs m als m' :
  state_wf m -> sequence_loop new_id e j subject m rs = Ok (als, m') ->
  Forall alert_fits als /\ state_wf m'.
Proof.
  revert m als. induction rs as [|r rs IH]; intros m als Hm; cbn [sequence_loop].
  { intros [= <- <-]. by split. }
  destruct (step_sequence new_id e j subject m r) as [[o m1]| |] eqn:E1; cbn [obind]; try done.
  destruct (step_sequence_fits _ _ _ _ _ _ Hm E1) as [Ho Hm1].
  destruct (sequence_loop new_id e j subject m1 rs) as [[als' m2]| |] eqn:E2; cbn [obind]; try done.
  intros [= <- <-]. destruct (IH _ _ Hm1 E2) as [Hals Hm2]. split; [|done].
  apply Forall_app. split; [|done]. destruct o as [a|]; [by apply Forall_singleton, Ho|constructor].
Qed.

Lemma evaluate_fits eng als eng' :
  detect_wf eng -> evaluate to_value new_id eng e = Ok (als, eng') ->
  Forall alert_fits als /\ detect_wf eng'.
Proof.
  intros Hw. unfold evaluate. destruct (rules eng) as [|r0 rs0] eqn:Er; [by intros [= <- <-]|].
  rewrite <- Er. destruct (to_value e) as [j|]; [|by intros [= <- <-]].
  destruct (evaluate_sequence_rules new_id eng e j) as [[als' m]| |] eqn:E; cbn [obind]; try done.
  intros [= <- <-].
  assert (Forall alert_fits als' /\ state_wf m) as [Hs Hm].
  { unfold evaluate_sequence_rules in E. destruct (List.filter is_sequence (rules eng)) as [|r rs]; [by simplify_eq|].
    destruct (derive_subject_key e) as [subject|]; [|by simplify_eq].
    by eapply sequence_loop_fits. }
  split; [|done]. apply Forall_app. split; [|done].
  apply Forall_forall. intros a (r & _ & Ha)%list_elem_of_omap. by eapply evaluate_rule_fits.
Qed.
End Alerts.

Lemma evaluate_batch_fits new_id events eng als eng' :
  Forall event_ok events -> (forall r e, fits 128 (new_id r e) = true) -> detect_wf eng ->
  evaluate_batch to_value new_id eng events = Ok (als, eng') ->
  Forall alert_fits als /\ detect_wf eng'.
Proof.
  intros He Hid. revert eng als. induction He as [|e events He _ IH]; intros eng als Hw; cbn [evaluate_batch].
  { intros [= <- <-]. by split. }
  destruct (evaluate to_value new_id eng e) as [[a eng1]| |] eqn:E1; cbn [obind]; try done.
  destruct (evaluate_fits new_id e He (fun r => Hid r e) _ _ _ Hw E1) as [Ha Hw1].
  destruct (evaluate_batch to_value new_id eng1 events) as [[als' eng2]| |] eqn:E2; cbn [obind]; try done.
  intros [= <- <-]. destruct (IH _ _ Hw1 E2). split; [by apply Forall_app|done].
Qed.

Lemma score_fits e alerts obs chain s :
  config_ok risk_config = true -> event_wf e -> Forall alert_fits alerts ->
  score risk_config e alerts obs chain = Some s -> risk_ok s.
Proof.
  intros Hc (He & _ & Hp) Ha. unfold score.
  pose proof (config_ok_weights risk_config e alerts obs chain Hc) as Hw.
  fold (reasons_of risk_config e alerts obs chain).
  assert (Forall (fun r => fits 128 (wr_evidence r) = true) (reasons_of risk_config e alerts obs chain)) as Hev.
  { unfold reasons_of. rewrite !Forall_app. split_and!.
    - apply Forall_forall. intros r (a & -> & Hin)%list_elem_of_fmap. cbn.
      rewrite Forall_forall in Ha. destruct (Ha a Hin) as (_ & _ & _ & Hf).
      destruct (alert_evidence a) as [|i l]; cbn; [apply He|by inversion Hf].
    - apply Forall_forall. intros r (o & _ & Ho)%list_elem_of_omap. unfold observation_reason in Ho.
      destruct (ob_rarity o); simplify_eq; cbn; apply He.
    - unfold chain_reasons. repeat case_match; constructor; try constructor. apply He. }
  destruct (reasons_of risk_config e alerts obs chain) as [|w ws] eqn:Er; [done|].
  intros [= <-]. destruct He as (Hi & Hh & Ht). repeat split; cbn; try done.
  - apply fits_iff. unfold clamp. lia.
  - intros k Hk. destruct (ev_process e) as [p|]; [|done]. injection Hk as <-. by apply Hp.
  - apply Forall_map in Hw. change (w :: ws) with ([] ++ (w :: ws)) in *. apply Forall_forall.
    intros r Hr. rewrite Forall_forall in Hw, Hev. specialize (Hw r Hr). specialize (Hev r Hr).
    unfold fits_i16 in Hw. split; [lia|done].
Qed.

Lemma score_events_fits w d alerts events obs :
  config_ok risk_config = true -> Forall event_wf events -> Forall alert_fits alerts ->
  Forall risk_ok (score_events w d alerts events obs).
Proof.
  intros Hc He Ha. revert obs. induction He as [|e events He _ IH]; intros obs; cbn [score_events]; [constructor|].
  apply Forall_app. split; [|done].
  destruct (correlate_and_score _ _ _ _ _) as [s|] eqn:E; [|constructor].
  apply Forall_singleton. unfold correlate_and_score in E. destruct (ev_process e); [|done].
  eapply score_fits; [done|done| |exact E]. by apply filter_forall.
Qed.

(** ** What the steps change *)

(** [m] from [P]: a value ends in [Q], an error or a panic in [E]. *)
Definition step_triple {A} (P : State -> Prop) (m : step A) (Q : A -> State -> Prop)
    (E : State -> Prop) : Prop :=
  forall s, P s -> match m s with (Ok a, s') => Q a s' | (_, s') => E s' end.

Lemma step_triple_ret {A} (a : A) (P : State -> Prop) (Q : A -> State -> Prop) E :
  (forall s, P s -> Q a s) -> step_triple P (step_ret a) Q E.
Proof. intros Hq s Hp. by apply Hq. Qed.

Lemma step_triple_bind {A B} (m : step A) (k : A -> step B) P Q R E :
  step_triple P m Q E -> (forall a, step_triple (Q a) (k a) R E) ->
  step_triple P (step_bind m k) R E.
Proof.
  intros Hm Hk s Hp. unfold step_bind. specialize (Hm s Hp).
  destruct (m s) as [[a|e|] s']; [|done..]. by apply Hk.
Qed.

Lemma step_triple_unless {X A} (l : list X) (m : step A) P Q E :
  (l = [] -> forall s, P s -> Q tt s) -> (l <> [] -> step_triple P m (fun _ => Q tt) E) ->
  step_triple P (unless_empty l m) Q E.
Proof.
  intros Hn Hc. destruct l as [|x l]; cbn [unless_empty].
  - apply step_triple_ret. by apply Hn.
  - eapply step_triple_bind; [by apply Hc|]. intros a. by apply step_triple_ret.
Qed.

(** Writes of alerts and of risk records leave events and edges alone. *)
Definition same_graph (d d' : Db) : Prop := db_events d' = db_events d /\ db_edges d' = db_edges d.

Lemma transaction_frame {X} io (body : WriteReport -> X -> tx Db WriteReport) r l d :
  Forall (fun x => forall r t, same_graph d t -> triple (eq t) (body r x) (fun _ => same_graph d)) l ->
  same_graph d (transaction io (tx_each body r l) d).2.
Proof.
  intros Hl. assert (triple (same_graph d) (tx_each body r l) (fun _ => same_graph d)) as Ht.
  { apply triple_each_inv. eapply Forall_impl; [exact Hl|]. intros x Hx r' n t Hok.
    by apply (Hx r' t Hok n t). }
  pose proof (transaction_atomic io _ _ _ d Ht ltac:(by split)) as Ha.
  destruct (transaction io _ d) as [[?| |] ?]; cbn; [done|by subst|done].
Qed.

Lemma write_alerts_frame io alerts d : same_graph d (write_alerts io alerts d).2.
Proof.
  apply transaction_frame, Forall_forall. intros a _ r t Hg.
  eapply triple_weaken; [apply write_alert_spec|done|]. intros _ t' (row & _ & ->).
  by destruct (has_key _ _ _).
Qed.

Lemma write_risk_scores_frame io scores d : same_graph d (write_risk_scores io scores d).2.
Proof.
  apply transaction_frame, Forall_forall. intros s _ r t Hg.
  eapply triple_weaken; [apply write_risk_spec|done|]. intros _ t' (row & _ & ->).
  by destruct (has_key _ _ _).
Qed.

(** ** One batch *)

Record weather_ok (w : Weather) : Prop := {
  wo_ids r e : fits 128 (w_new_id w r e) = true;
  wo_panicked : detect_wf (w_panicked w) }.

(** Everything but the store and the engines. *)
Definition outside (s : State) := (s_hosts s, s_published s, s_exported s, s_reconcile s).

Section Batch.
Context (w : Weather) (kept : list CanonicalEvent) (is_new : list bool) (s0 : State).
Context (Hw : weather_ok w) (Hkept : Forall event_wf kept) (Hconf : config_ok risk_config = true).
Context (Hdb : db_ok (s_db s0)) (Hdet : detect_wf (s_detect s0)).

Abbreviation edge_rows := (map edge_row (flat_map relationships kept)).

(** The store after the batch was written, and perhaps its edges. *)
Definition written (s : State) : Prop :=
  outside s = outside s0 /\ detect_wf (s_detect s) /\ rtc store_step (s_db s0) (s_db s)
  /\ exists rep d1, batch_write (w_batch w) kept (s_db s0) = (Ok rep, d1)
     /\ db_events (s_db s) = db_events d1
     /\ (db_edges (s_db s) = db_edges (s_db s0)
         \/ db_edges (s_db s) = insert_all edge_unique edge_rows (db_edges (s_db s0))).

Definition left_alone (s : State) : Prop :=
  written s \/ (outside s = outside s0 /\ detect_wf (s_detect s) /\ s_db s = s_db s0).

Lemma on_db_graph {A} (f : Db -> outcome StorageError A * Db) :
  (forall d, same_graph d (f d).2) -> (forall d, rtc store_step d (f d).2) ->
  step_triple written (on_db f) (fun _ => written) left_alone.
Proof.
  intros Hg Hs s (Ho & Hd & Hr & rep & d1 & Eb & Ee & Ed). unfold on_db.
  specialize (Hg (s_db s)). specialize (Hs (s_db s)). destruct (f (s_db s)) as [r d]. cbn in Hg, Hs.
  assert (written (with_db d s)) as Hwr.
  { split_and!; [done|done|by etrans|]. exists rep, d1. destruct Hg as [E1 E2]. cbn. by rewrite E1, E2. }
  destruct r; [done|by left..].
Qed.

Lemma edges_of_kept : Forall edge_ok (flat_map relationships kept).
Proof.
  apply Forall_forall. intros x Hx. rewrite list_elem_of_In, in_flat_map in Hx.
  destruct Hx as (e & He & Hx). rewrite Forall_forall in Hkept.
  destruct (Hkept e) as (_ & Hf & _); [by apply list_elem_of_In|].
  rewrite Forall_forall in Hf. by apply Hf, list_elem_of_In.
Qed.

Lemma kept_ok : Forall event_ok kept.
Proof. eapply Forall_impl; [exact Hkept|]. by intros e (He & _). Qed.

Lemma write_step : step_triple (eq s0) (on_db (batch_write (w_batch w) kept))
  (fun _ s => written s /\ db_edges (s_db s) = db_edges (s_db s0)) left_alone.
Proof.
  intros s <-. unfold on_db.
  pose proof (step_batch (w_batch w) kept (s_db s0) kept_ok) as Hstep.
  pose proof (batch_write_spec (w_batch w) kept (s_db s0)) as Hspec.
  destruct (batch_write (w_batch w) kept (s_db s0)) as [[rep|e|] d1] eqn:E; cbn in Hstep.
  - destruct Hspec as (rows & _ & -> & _).
    assert (written (with_db (with_events (insert_all col_event_id rows (db_events (s_db s0))) (s_db s0)) s0)) as Hwr.
    { split_and!; [done|done|by apply rtc_once|]. eexists _, _. split; [exact E|]. split; [done|by left]. }
    by split.
  - subst d1. right. by destruct s0.
  - done.
Qed.

Lemma detect_step : step_triple (fun s => written s /\ db_edges (s_db s) = db_edges (s_db s0)) (detect w kept)
  (fun als s => Forall alert_fits als /\ written s /\ db_edges (s_db s) = db_edges (s_db s0)) left_alone.
Proof.
  intros s [(Ho & Hd & Hr & Hb) Hg]. unfold detect.
  destruct (evaluate_batch to_value (w_new_id w) (s_detect s) kept) as [[als eng]| |] eqn:E.
  - destruct (evaluate_batch_fits _ _ _ _ _ kept_ok (wo_ids w Hw) Hd E) as [Ha He]. by split_and!.
  - left. split_and!; [done|apply (wo_panicked w Hw)|done|done].
  - left. split_and!; [done|apply (wo_panicked w Hw)|done|done].
Qed.

Lemma edges_step : step_triple (fun s => written s /\ db_edges (s_db s) = db_edges (s_db s0))
  (on_db (write_relationships (w_edges w) (flat_map relationships kept))) (fun _ => written) left_alone.
Proof.
  intros s [(Ho & Hd & Hr & rep & d1 & Eb & Ee & _) Hg]. unfold on_db.
  pose proof (step_edges (w_edges w) _ (s_db s) edges_of_kept) as Hstep.
  pose proof (write_relationships_spec (w_edges w) (flat_map relationships kept) (s_db s)) as Hspec.
  destruct (write_relationships _ _ _) as [[r|e|] d]; cbn in Hstep; [|subst d|done].
  - destruct Hspec as [-> _]. split_and!; [done|done|by eapply rtc_r|]. exists rep, d1.
    split_and!; [done|done|]. right. cbn. by rewrite Hg.
  - left. replace (with_db (s_db s) s) with s by (by destruct s). split_and!; try done. eauto 10.
Qed.

(** The edges are written where all steps up to them succeed. *)
Lemma analyse_spec :
  match analyse w kept is_new s0 with (Ok _, s) => written s | (_, s) => left_alone s end.
Proof.
  cut (step_triple (eq s0) (analyse w kept is_new) (fun _ => written) left_alone).
  { intros Hs. specialize (Hs s0 eq_refl). by destruct (analyse w kept is_new s0) as [[]]. }
  unfold analyse. eapply step_triple_bind; [apply write_step|]. intros rep.
  eapply step_triple_bind; [apply detect_step|]. intros als.
  apply step_triple_bind with (fun _ s => Forall alert_fits als /\ written s
    /\ db_edges (s_db s) = db_edges (s_db s0)).
  { apply step_triple_unless; [by intros _ s Hs|]. intros _ s (Ha & Hwr & Hg).
    pose proof (on_db_graph (write_alerts (w_alerts w) als) (write_alerts_frame _ _)
      (fun d => rtc_once _ _ (step_alerts (w_alerts w) als d Ha)) s Hwr) as Hs.
    pose proof (write_alerts_frame (w_alerts w) als (s_db s)) as [_ Hf].
    unfold on_db in *. destruct (write_alerts (w_alerts w) als (s_db s)) as [[r|e|] d]; [|done..].
    split_and!; try done. cbn in Hf |- *. congruence. }
  intros u1. apply step_triple_bind with (fun _ s => Forall alert_fits als /\ written s).
  { apply step_triple_unless; [by intros _ s (? & ? & _)|]. intros _ s (Ha & Hwr & Hg).
    pose proof (edges_step s (conj Hwr Hg)) as Hs. by destruct (on_db _ s) as [[]]. }
  intros u2. apply step_triple_bind with (fun _ s => Forall alert_fits als /\ written s).
  { intros s (Ha & Hwr). unfold observe_events. by destruct (observe_batch _ _ _ _ _ _) as [[]]. }
  intros obs. apply step_triple_bind with (fun _ s => Forall alert_fits als /\ written s); [by intros s|].
  intros d. apply step_triple_bind with (fun _ => written); [|intros u3; by apply step_triple_ret].
  apply step_triple_unless; [by intros _ s [_ Hwr]|]. intros _ s (Ha & Hwr).
  apply on_db_graph; [apply write_risk_scores_frame| |done]. intros d'. apply rtc_once, step_risk.
  apply score_events_fits; [done| |done]. by apply filter_forall.
Qed.

End Batch.

(** ** The store as a source of edges *)

Lemma storage_source_edge host fails d x since until e :
  db_ok d -> e ∈ (@edges_for (storage_source host fails d)) x since until ->
  edge_ok e /\ edge_row e ∈ db_edges d /\ touches_key (Some x) (edge_row e) = true
  /\ exists r, r ∈ db_events d /\ col_event_id r = uuid_display (er_event_id e) /\ col_host_id r = host.
Proof.
  intros Hd He. cbn in He. destruct (query_relationships _ _ d) as [es| |] eqn:Eq;
    [|by apply not_elem_of_nil in He..].
  destruct (query_relationships_sound _ _ _ _ _ Hd Eq He) as (Hok & Hin & Ht & _). split_and!; try done.
  destruct (query_relationships_elem _ _ _ _ _ Eq He) as (f & r & Hf & Hr & Hfr & _ & _ & Hp).
  pose proof (edges_ok _ Hd) as Hall. rewrite Forall_forall in Hall. destruct (Hall r Hr) as (e' & He' & <-).
  rewrite parse_edge_row in Hp by done. injection Hp as ->.
  destruct (edge_host_scoped [host] d f (edge_row e) Hf Hfr) as (er & Her & Eid & Hh).
  exists er. split_and!; [done|done|]. by apply list_elem_of_singleton in Hh.
Qed.

Lemma storage_source_ok host fails d : db_ok d -> EdgeSourceOk (storage_source host fails d).
Proof.
  intros Hd. split.
  - intros x since until e He. destruct (storage_source_edge _ _ _ _ _ _ _ Hd He) as (_ & _ & Ht & _).
    unfold touches_key, opt_cond, edge_row in Ht. cbn [erow_from erow_to] in Ht.
    by rewrite orb_true_iff, !String.eqb_eq in Ht.
  - intros x y since until E. cbn [edges_for storage_source]. unfold query_relationships, touches_key.
    cbn [lp_entity lp_since lp_until lp_limit lp_host_ids opt_cond]. by rewrite E.
Qed.

(** ** New events *)

Lemma keep_events_new fails d events : db_ok d -> exporters = true -> forall i seen kept is_new,
  keep_events fails i d seen events = Ok (kept, is_new) ->
  NoDup (map event_id (flagged kept is_new))
  /\ Forall (fun e => event_id e ∉ seen /\ stored_event d (event_id e) = None
             /\ List.find (fun x => event_id x =? event_id e) kept = Some e) (flagged kept is_new).
Proof.
  intros Hd Hex. induction events as [|e events IH]; intros i seen kept is_new; cbn [keep_events].
  { intros [= <- <-]. split; constructor. }
  unfold event_owner at 1. destruct (fails i); [done|]. change (if false then ?a else ?b) with b.
  pose proof (event_owner_spec d (event_id e) Hd) as Ho. unfold event_owner in Ho. rewrite Ho.
  cbn [obind]. destruct (match option_map _ _ with Some _ => _ | None => _ end); [by apply IH|].
  destruct (keep_events _ _ _ _ _) as [[kept' is_new']| |] eqn:E; cbn [obind]; try done.
  rewrite Hex. intros [= <- <-]. destruct (IH _ _ _ _ E) as [Hn Hf].
  assert (Forall (fun x => event_id x <> event_id e /\ event_id x ∉ seen /\ stored_event d (event_id x) = None
    /\ List.find (fun y => event_id y =? event_id x) (e :: kept') = Some x) (flagged kept' is_new')) as Hf'.
  { eapply Forall_impl; [exact Hf|]. cbn. intros x (Hx & Hs & Hfind).
    apply not_elem_of_union in Hx as [Hx Hx']. rewrite elem_of_singleton in Hx.
    split_and!; try done. cbn. by destruct (Z.eqb_spec (event_id e) (event_id x)). }
  unfold flagged. cbn [zip zip_with List.filter snd]. destruct (bool_decide _ && _) eqn:Efr; cbn [map fst].
  - apply andb_true_iff in Efr as [Hs%bool_decide_eq_true Hst]. fold (flagged kept' is_new'). split.
    + constructor; [|done]. intros Hin. apply list_elem_of_fmap in Hin as (x & Ex & Hx).
      rewrite Forall_forall in Hf'. by destruct (Hf' x Hx).
    + constructor; [|by eapply Forall_impl; [exact Hf'|]; naive_solver]. split_and!; [done| |].
      * by destruct (stored_event d (event_id e)).
      * cbn. by rewrite Z.eqb_refl.
  - fold (flagged kept' is_new'). split; [done|]. eapply Forall_impl; [exact Hf'|]. naive_solver.
Qed.

Lemma offered_flagged kept is_new :
  List.length is_new = List.length kept -> offered kept is_new = flagged kept is_new.
Proof.
  intros Hl. unfold offered. destruct (forallb id is_new) eqn:E; [|done]. symmetry.
  unfold flagged. revert is_new Hl E. induction kept as [|e kept IH]; intros [|b is_new] Hl E; try done.
  cbn in *. apply andb_true_iff in E as [Eb E]. unfold id in Eb. subst b. cbn. f_equal. apply IH; [lia|done].
Qed.

(** ** Runs *)

(** A batch as the server takes it from one agent's connection. *)
Record Sent := { b_host : Uuid; b_weather : Weather; b_events : list CanonicalEvent }.

Definition sent_ok (b : Sent) : Prop :=
  weather_ok (b_weather b) /\ Forall event_wf (b_events b)
  /\ Forall (fun e => event_belongs_to_host (b_host b) e = true) (b_events b).

Definition ingest_run (batches : list Sent) (s : State) : State :=
  fold_left (fun s b => (ingest (b_weather b) (b_events b) s).2) batches s.

Definition ingest_start (rules : list Rule) : State :=
  Build_State db_empty (engine_new rules) ∅ ∅ [] [] [].

Definition exported_events (s : State) : list CanonicalEvent := concat (map fst (s_exported s)).

(** The source of an edge row: a submitted event whose id is stored by the same host. *)
Definition sourced (hist : list Sent) (d : Db) (r : EdgeRow) : Prop :=
  exists b e x ev, b ∈ hist /\ e ∈ b_events b /\ x ∈ relationships e /\ edge_ok x /\ r = edge_row x
    /\ stored_event d (er_event_id x) = Some ev /\ ev_host_id ev = b_host b.

(** The invariant of a run. *)
Record run_ok (hist : list Sent) (s : State) : Prop := {
  ro_store : rtc store_step db_empty (s_db s);
  ro_detect : detect_wf (s_detect s);
  ro_edges : Forall (sourced hist (s_db s)) (db_edges (s_db s));
  ro_once : NoDup (map event_id (exported_events s));
  ro_stored : Forall (fun e => event_ok e /\ stored_event (s_db s) (event_id e) = Some e) (exported_events s) }.

Lemma stored_event_events d d' id : db_events d' = db_events d -> stored_event d' id = stored_event d id.
Proof. intros E. unfold stored_event. by rewrite E. Qed.

Lemma belongs_host h e : event_belongs_to_host h e = true ->
  ev_host_id e = h /\ Forall (fun x => er_event_id x = event_id e) (relationships e).
Proof.
  unfold event_belongs_to_host. rewrite !andb_true_iff, Z.eqb_eq, forallb_Forall. intros [[-> _] Hf].
  split; [done|]. eapply Forall_impl; [exact Hf|]. cbn. intros x Hx. inv_bools Hx. done.
Qed.

Lemma sublist_forall {A} (P : A -> Prop) l k : l `sublist_of` k -> Forall P k -> Forall P l.
Proof.
  intros Hs. rewrite !Forall_forall. intros Hk x Hx. apply Hk. by eapply sublist_subseteq.
Qed.

Lemma elem_of_insert_all {R K} `{EqDecision K} (key : R -> K) rows t r :
  r ∈ insert_all key rows t -> r ∈ t \/ r ∈ rows.
Proof.
  assert (Forall (fun r => r ∈ t \/ r ∈ rows) (insert_all key rows t)) as Hf.
  { apply insert_all_Forall; apply Forall_forall; auto. }
  rewrite Forall_forall in Hf. apply Hf.
Qed.

(** What a written batch leaves in the store. *)
Lemma written_stored w kept s0 s id :
  db_ok (s_db s0) -> Forall event_wf kept -> written w kept s0 s -> fits 128 id = true ->
  stored_event (s_db s) id = first_writer kept (stored_event (s_db s0)) id.
Proof.
  intros Hdb Hk (_ & _ & _ & rep & d1 & Eb & Ee & _) Hid.
  rewrite (stored_event_events d1 (s_db s)) by done.
  eapply batch_write_stored; [done| |done|exact Eb]. eapply Forall_impl; [exact Hk|]. by intros e (He & _).
Qed.

(** Who stored an event does not change. *)
Lemma written_keeps w kept s0 s id e :
  db_ok (s_db s0) -> Forall event_wf kept -> written w kept s0 s -> fits 128 id = true ->
  stored_event (s_db s0) id = Some e -> stored_event (s_db s) id = Some e.
Proof. intros Hdb Hk Hw Hid E. rewrite (written_stored w kept s0 s) by done. unfold first_writer. by rewrite E. Qed.

(** The event stored under a kept event's id is of its host. *)
Lemma written_owner w kept s0 s b e :
  db_ok (s_db s0) -> Forall event_wf kept -> written w kept s0 s ->
  Forall (fun e => event_belongs_to_host (b_host b) e = true) kept ->
  Forall (fun e => forall o, stored_event (s_db s0) (event_id e) = Some o -> ev_host_id o = ev_host_id e) kept ->
  e ∈ kept ->
  exists ev, stored_event (s_db s) (event_id e) = Some ev /\ ev_host_id ev = b_host b.
Proof.
  intros Hdb Hk Hw Hb Ho He. rewrite Forall_forall in Hb, Ho. pose proof Hk as Hk'.
  rewrite Forall_forall in Hk'. destruct (Hk' e He) as ((Hi & _) & _).
  rewrite (written_stored w kept s0 s) by done. unfold first_writer.
  destruct (stored_event (s_db s0) (event_id e)) as [o|] eqn:Eo.
  - exists o. split; [done|]. rewrite (Ho e He o Eo). by apply belongs_host, Hb.
  - destruct (List.find (fun x => event_id x =? event_id e) kept) as [x|] eqn:Ef.
    + exists x. split; [done|]. apply List.find_some in Ef as [Hx _].
      by apply belongs_host, Hb, list_elem_of_In.
    + pose proof (List.find_none _ _ Ef e (proj1 (list_elem_of_In _ _) He)) as Hn. cbn in Hn.
      by rewrite Z.eqb_refl in Hn.
Qed.

Lemma sourced_more hist b d r : sourced hist d r -> sourced (hist ++ [b]) d r.
Proof.
  intros (b' & e & x & ev & Hin & Hrest). exists b', e, x, ev. split; [|done]. apply elem_of_app. by left.
Qed.

Lemma written_edges hist b kept s s' :
  db_ok (s_db s) -> Forall (sourced hist (s_db s)) (db_edges (s_db s)) ->
  kept `sublist_of` b_events b -> Forall event_wf kept ->
  Forall (fun e => event_belongs_to_host (b_host b) e = true) kept ->
  Forall (fun e => forall o, stored_event (s_db s) (event_id e) = Some o -> ev_host_id o = ev_host_id e) kept ->
  written (b_weather b) kept s s' ->
  Forall (sourced (hist ++ [b]) (s_db s')) (db_edges (s_db s')).
Proof.
  intros Hdb Hsrc Hsub Hkwf Hkbel Hown Hs'. pose proof Hs' as (_ & _ & _ & _ & _ & _ & _ & Hedges).
  rewrite Forall_forall in Hsrc.
  assert (forall r, r ∈ db_edges (s_db s) -> sourced (hist ++ [b]) (s_db s') r) as Hold.
  { intros r Hin. apply sourced_more. destruct (Hsrc r Hin) as (b' & e & x & ev & ? & ? & ? & Hx & ? & Est & ?).
    exists b', e, x, ev. do 5 (split; [done|]). split; [|done]. eapply written_keeps; try done. apply Hx. }
  apply Forall_forall. intros r Hin. destruct Hedges as [E|E]; rewrite E in Hin; [by apply Hold|].
  apply elem_of_insert_all in Hin as [Hin|Hin]; [by apply Hold|].
  apply list_elem_of_fmap in Hin as (x & -> & Hx). rewrite list_elem_of_In, in_flat_map in Hx.
  destruct Hx as (e & He & Hx). apply list_elem_of_In in He, Hx.
  destruct (written_owner _ _ _ _ b e Hdb Hkwf Hs' Hkbel Hown He) as (ev & Est & Eh).
  rewrite Forall_forall in Hkbel, Hkwf. destruct (belongs_host _ _ (Hkbel e He)) as [_ Hids].
  rewrite Forall_forall in Hids. destruct (Hkwf e He) as (_ & Hxs & _). rewrite Forall_forall in Hxs.
  exists b, e, x, ev. split; [apply elem_of_app; right; by left|].
  split; [by eapply sublist_subseteq|]. split; [done|]. split; [by apply Hxs|]. split; [done|].
  by rewrite (Hids x Hx).
Qed.

(** What was exported stays stored. *)
Lemma written_exports w kept s s' (es : list CanonicalEvent) :
  db_ok (s_db s) -> Forall event_wf kept -> written w kept s s' ->
  Forall (fun e => event_ok e /\ stored_event (s_db s) (event_id e) = Some e) es ->
  Forall (fun e => event_ok e /\ stored_event (s_db s') (event_id e) = Some e) es.
Proof.
  intros Hdb Hk Hw Hes. eapply Forall_impl; [exact Hes|]. cbn. intros e [He Est]. split; [done|].
  eapply written_keeps; try done. apply He.
Qed.

(** What a successful batch exports is new, and stored as exported. *)
Lemma offered_new w fails kept is_new s s' events :
  exporters = true -> db_ok (s_db s) -> Forall event_wf kept ->
  keep_events fails 0 (s_db s) ∅ events = Ok (kept, is_new) -> written w kept s s' ->
  NoDup (map event_id (offered kept is_new))
  /\ Forall (fun e => stored_event (s_db s) (event_id e) = None) (offered kept is_new)
  /\ Forall (fun e => event_ok e /\ stored_event (s_db s') (event_id e) = Some e) (offered kept is_new).
Proof.
  intros Hex Hdb Hk Ek Hw. destruct (keep_events_spec _ _ _ Hdb _ _ _ _ Ek) as (_ & _ & Hlen).
  rewrite offered_flagged by auto. destruct (keep_events_new _ _ _ Hdb Hex _ _ _ _ Ek) as [Hn Hf].
  split_and!; [done|eapply Forall_impl; [exact Hf|naive_solver]|].
  eapply Forall_impl; [exact Hf|]. cbn. intros e (_ & Hnone & Hfind).
  assert (event_wf e) as (He & _) by (rewrite Forall_forall in Hk; apply Hk, list_elem_of_In;
    by apply List.find_some in Hfind as [? _]).
  split; [done|]. rewrite (written_stored w kept s s') by (done || apply He). unfold first_writer.
  by rewrite Hnone.
Qed.

Lemma run_ok_more hist b s : run_ok hist s -> run_ok (hist ++ [b]) s.
Proof.
  intros []. split; try done. eapply Forall_impl; [done|]. intros r. apply sourced_more.
Qed.

Lemma ingest_ok hist s b :
  config_ok risk_config = true -> run_ok hist s -> sent_ok b ->
  run_ok (hist ++ [b]) (ingest (b_weather b) (b_events b) s).2.
Proof.
  intros Hc Hs (Hw & Hwf & Hbel). pose proof (run_ok_more hist b s Hs) as Hsame.
  unfold ingest. destruct (b_events b) as [|e0 es0] eqn:Eb; [done|]. rewrite <- Eb in *. clear Eb e0 es0.
  pose proof (reachable_ok _ (ro_store _ _ Hs)) as Hdb.
  destruct (keep_events _ _ _ _ _) as [[kept is_new]| |] eqn:Ek; [|done..].
  destruct (keep_events_spec _ _ _ Hdb _ _ _ _ Ek) as (Hsub & Hown & _).
  assert (Forall event_wf kept) as Hkwf by (by eapply sublist_forall).
  assert (Forall (fun e => event_belongs_to_host (b_host b) e = true) kept) as Hkbel
    by (by eapply sublist_forall).
  pose proof (analyse_spec (b_weather b) kept is_new s Hw Hkwf Hc Hdb (ro_detect _ _ Hs)) as Ha.
  assert (forall s', written (b_weather b) kept s s' -> run_ok (hist ++ [b]) s') as Hwr.
  { intros s' Hs'. pose proof Hs' as ([= _ _ Eexp _] & Hd & Hr & _).
    assert (exported_events s' = exported_events s) as Ex by (unfold exported_events; by rewrite Eexp).
    split; [by etrans; [apply (ro_store _ _ Hs)|]|done|by eapply written_edges; [| |exact Hsub|..|exact Hs']; try done; apply (ro_edges _ _ Hs)|rewrite Ex; apply (ro_once _ _ Hs)|].
    rewrite Ex. eapply written_exports; try done. apply (ro_stored _ _ Hs). }
  assert (forall s', left_alone (b_weather b) kept s s' -> run_ok (hist ++ [b]) s') as Hal.
  { intros s' [Hs'|([= _ _ Eexp _] & Hd & Edb)]; [by apply Hwr|]. destruct Hsame.
    unfold exported_events in *. split; unfold exported_events; rewrite ?Edb, ?Eexp; done. }
  destruct (analyse _ _ _ _) as [[als|e|] s']; cbn [snd]; [|by apply Hal..].
  pose proof (Hwr s' Ha) as []. pose proof Ha as ([= _ _ Eexp _] & _).
  unfold finish. destruct (match List.filter _ _ with [] => _ | _ => _ end) as [fin hosts].
  destruct exporters eqn:Hex; [|by split].
  destruct (offered_new _ _ _ _ _ _ _ Hex Hdb Hkwf Ek Ha) as (Hn & Hnone & Hst).
  split; cbn [s_db s_detect]; try done; unfold exported_events; cbn [s_exported];
    rewrite map_app, concat_app; cbn [map fst concat]; rewrite app_nil_r; fold (exported_events s').
  - rewrite map_app. apply NoDup_app. split_and!; [done| |done]. intros i Hi Hi'.
    apply list_elem_of_fmap in Hi as (x & -> & Hx), Hi' as (y & Exy & Hy).
    rewrite Forall_forall in Hnone. specialize (Hnone y Hy). rewrite <- Exy in Hnone.
    pose proof (ro_stored _ _ Hs) as Hold. rewrite Forall_forall in Hold.
    destruct (Hold x) as [_ Est]; [|congruence]. unfold exported_events in Hx |- *. by rewrite <- Eexp.
  - by apply Forall_app.
Qed.

Lemma ingest_run_ok batches rules :
  config_ok risk_config = true -> Forall sent_ok batches ->
  run_ok batches (ingest_run batches (ingest_start rules)).
Proof.
  intros Hc. induction batches as [|b batches IH] using rev_ind; intros Hb.
  - split; cbn; try constructor. intros k st. cbn. by rewrite lookup_empty.
  - apply Forall_app in Hb as [Hbs Hb]. unfold ingest_run. rewrite fold_left_app. cbn.
    apply ingest_ok; [done|by apply IH|by inversion Hb].
Qed.

(** ** Properties *)

(** C31. Whatever batches agents send (each already limited to its own host's events by the
    transport), when each batch is finished before the next begins (two ingested at once can
    mix: [concurrent_batches_mix_chains]), whichever statements fail on the way, and whatever event ids, process keys or
    entities an agent makes up: every edge of a chain correlated for host [h] is a relationship
    of an event that host [h] itself submitted. *)
Theorem ingest_chains_host_isolated batches rules h fails eng seed t :
  config_ok risk_config = true -> Forall sent_ok batches -> fits 128 h = true ->
  Forall (fun x => exists b e, b ∈ batches /\ b_host b = h /\ e ∈ b_events b /\ x ∈ relationships e)
    (chain_edges (@build_chain _ _
      (storage_source (uuid_display h) fails (s_db (ingest_run batches (ingest_start rules)))) eng seed t)).
Proof.
  intros Hc Hb Hh. pose proof (ingest_run_ok batches rules Hc Hb) as Hrun.
  set (d := s_db _). assert (db_ok d) as Hd by apply reachable_ok, (ro_store _ _ Hrun).
  pose proof (storage_source_ok (uuid_display h) fails d Hd) as src_ok.
  eapply Forall_impl; [exact (build_chain_edges eng seed t)|]. cbn beta. intros x (n & y & _ & _ & Hx).
  destruct (storage_source_edge _ _ _ _ _ _ _ Hd Hx) as (Hok & Hin & _ & r & Hr & Eid & Eh).
  pose proof (ro_edges _ _ Hrun) as Hsrc. rewrite Forall_forall in Hsrc.
  destruct (Hsrc _ Hin) as (b & e & x' & ev & Hbin & He & Hx' & Hok' & Ex & Est & Ehost).
  assert (x = x') as <-.
  { apply (f_equal parse_edge) in Ex. rewrite !parse_edge_row in Ex by done. by injection Ex. }
  exists b, e. split_and!; [done| |done|done].
  destruct (stored_row d r Hd Hr) as (e' & He' & Erow & _ & Est').
  apply event_row_fields in Erow as (Eid' & Eh' & _).
  assert (event_id e' = er_event_id x) as Ei by (apply uuid_display_inj; [apply He'|apply Hok|congruence]).
  rewrite Ei in Est'. fold d in Est. rewrite Est in Est'. injection Est' as ->. rewrite <- Ehost.
  apply uuid_display_inj; [apply He'|done|congruence].
Qed.

(** The exporters see each event id at most once, over all batches and their resends,
    and what they see is the event that was stored under it. *)
Lemma ingest_exports_once batches rules :
  config_ok risk_config = true -> Forall sent_ok batches ->
  let s := ingest_run batches (ingest_start rules) in
  NoDup (map event_id (exported_events s))
  /\ Forall (fun e => get_event false (event_id e) (s_db s) = Ok (Some e)) (exported_events s).
Proof.
  intros Hc Hb s. pose proof (ingest_run_ok batches rules Hc Hb) as Hrun.
  split; [apply (ro_once _ _ Hrun)|].
  eapply Forall_impl; [apply (ro_stored _ _ Hrun)|]. cbn beta. intros e [_ He].
  rewrite get_event_spec; [by fold s in He; rewrite He|].
  apply reachable_ok, (ro_store _ _ Hrun).
Qed.

End Ingest.

(** ** Examples *)

(** A process of host [host] in relation to [to]. *)
Definition ingest_event (id host ts : Z) (r : Relation) (to : EntityRef) : @CanonicalEvent tjson_lib :=
  let key := {| pk_bytes := be_bytes 16 1 |} in
  {| event_id := id; schema_version := "1"; ev_host_id := host; boot_id := "b"; ev_timestamp := ts;
     monotonic_timestamp := ts; event_type := FileWrite; ev_category := CFile; ev_severity := Info;
     ev_host := {| host_ref_id := host; hostname := "h"; distro := "d"; kernel_version := "k";
                   host_cloud := None |};
     ev_user := None; ev_session := None;
     ev_process := Some {| process_key := key; pid := 5; exe_path := "/bin/x"; cmdline := [];
                           exe_hash := None; start_time_mono := 1 |};
     ev_parent_process := None; ev_thread := None; ev_file := None;
     ev_network := None; ev_dns := None; ev_device := None; ev_service := None;
     ev_container := None; ev_namespace := None; ev_cgroup := None; ev_kernel := None;
     ev_source := SAudit; provider := "t"; raw_event := None;
     relationships := [{| er_from := EProcess key; er_to := to; er_relation := r; er_event_id := id;
                          er_timestamp := ts |}];
     tags := []; ev_risk := None; event_data := (TNull : @json tjson_lib) |}.

(** Host 8 claims host 7's process key, and an event id of host 7. *)
Definition event_of_seven := ingest_event 1 7 30 Wrote (EFile 7 9 1).
Definition event_of_eight := ingest_event 2 8 31 ConnectedTo (EIp "10.0.0.1").
Definition event_stolen := ingest_event 1 8 32 ConnectedTo (EIp "10.0.0.2").

#[local] Instance ingest_serde : Serde (@CanonicalEvent tjson_lib) :=
  table_serde [event_of_seven; event_of_eight; event_stolen].
#[local] Instance ingest_sha : Sha256 := concrete_sha256.

Definition calm : Weather :=
  {| w_owner := no_fault; w_batch := no_fault; w_alerts := no_fault; w_edges := no_fault;
     w_risk := no_fault; w_lookup := fun _ _ _ => false; w_baseline := fun _ _ _ => false;
     w_baseline_tx := (false, false); w_new_id := fun _ _ => 99; w_panicked := engine_new [];
     w_subscribers := true; w_now := 100; w_registry := no_fault |}.

Definition three_batches : list Sent :=
  [{| b_host := 7; b_weather := calm; b_events := [event_of_seven] |};
   {| b_host := 8; b_weather := calm; b_events := [event_of_eight; event_stolen] |};
   {| b_host := 7; b_weather := calm; b_events := [event_of_seven] |}].

Definition walk_three : CorrelationEngine := {| max_depth := 3; window_ns := 50 |}.

Abbreviation ingest_run_c :=
  (ingest_run (fun _ => Some (TNull : @json tjson_lib)) (fun _ => None) default_risk_config walk_three 3 true).

Abbreviation chain_of_seven d :=
  (chain_edges (@build_chain _ _ (storage_source (uuid_display 7) (fun _ _ _ => false) d) walk_three
     (EProcess {| pk_bytes := be_bytes 16 1 |}) 40)).

Lemma three_batches_ok : Forall sent_ok three_batches.
Proof.
  assert (weather_ok calm) as Hw.
  { split; [reflexivity|]. intros k st E. cbn in E. by rewrite lookup_empty in E. }
  repeat constructor; try apply Hw; try (intros p; intros [= <-]; vm_compute; reflexivity);
    vm_compute; reflexivity.
Qed.

Lemma ingest_chains_host_isolated_witness :
  let d := s_db (ingest_run_c three_batches (ingest_start [])) in
  map er_event_id (chain_of_seven d) = [1]
  /\ Forall (fun x => exists b e, b ∈ three_batches /\ b_host b = 7 /\ e ∈ b_events b
                                  /\ x ∈ relationships e) (chain_of_seven d).
Proof.
  split; [vm_compute; reflexivity|].
  exact (ingest_chains_host_isolated _ (fun _ => None) default_risk_config walk_three 3 true
    three_batches [] 7 (fun _ _ _ => false) walk_three _ 40 eq_refl three_batches_ok eq_refl).
Defined.

(** The resent and the stolen event are not exported. *)
Lemma ingest_exports_once_witness :
  let s := ingest_run_c three_batches (ingest_start []) in
  map event_id (exported_events s) = [1; 2] /\ NoDup (map event_id (exported_events s)).
Proof.
  split; [vm_compute; reflexivity|].
  exact (proj1 (ingest_exports_once _ (fun _ => None) default_risk_config walk_three 3 true
    three_batches [] eq_refl three_batches_ok)).
Defined.

(** Two connections' batches are not taken one after the other: a batch of host 8 whose
    ownership check came before host 7's batch was stored, and whose writes came after, leaves
    its edge in the chain of host 7. *)
Lemma concurrent_batches_mix_chains :
  let start := ingest_start [] in
  match keep_events true no_fault 0 (s_db start) ∅ [event_stolen] with
  | Ok (kept, is_new) =>
      let s1 := ingest_run_c (take 1 three_batches) start in
      let s2 := (analyse (fun _ => Some (TNull : @json tjson_lib)) default_risk_config walk_three 3 true
                   calm kept is_new s1).2 in
      map er_to (chain_of_seven (s_db s2)) = [EFile 7 9 1; EIp "10.0.0.2"]
  | _ => False
  end.
Proof. vm_compute. reflexivity. Qed.
