(* ===== verification/Reconcile.v ===== *)
(** * Policy reconciliation: [crates/osiris-server/src/policy_reconcile.rs]

    The server drives the policy of each host towards its effective policy.  A pass over one
    host looks up what the host reported, what its groups ask for and what was last sent, may
    dispatch one signed command, and records the answer.  Passes run as concurrent tasks; a
    table of hosts in flight keeps one pass per host and remembers that another was asked for.
    The runtime is a step relation over the tasks; locks and awaits separate the steps. *)

From S2P Require Import Prelude Concrete BTree Json Schema Policy Envelope Replay Guard.
From S2P Require Import Health RawEvent Normalize Transport Sql StoreConcrete Fleet Groups Tenancy.
From S2P Require Import AgentPolicy Ingest.

(** ** One pass *)

(** 60 s, in nanoseconds. *)
Definition POLICY_RESEND_BACKOFF : Z := 60 * 10 ^ 9.

Inductive DispatchError :=
| DispatchDisabled
| DispatchOffline
| DispatchTimedOut
| DispatchFailed (message : string).

Definition dispatch_error_text (e : DispatchError) : string :=
  match e with
  | DispatchDisabled => "the command channel is not enabled"
  | DispatchOffline => "host has no control connection"
  | DispatchTimedOut => "timed out waiting for the agent's result"
  | DispatchFailed m => "command dispatch failed: " +:+ m
  end.

Inductive ReconcileOutcome :=
| RUnmanaged | RUnknownHost | RInSync | RBackoff | RInFlight | RUnsupported
| RSent (r : DeliveryResult).

Definition delivery_result (reply : CommandResult + DispatchError) : DeliveryResult * option string :=
  match reply with
  | inl (Executed _) | inl (DryRunOk _) => (DExecuted, None)
  | inl (Refused reason) => (DRefused, Some (refusal_text reason))
  | inl (Failed _ message) => (DFailed, Some message)
  | inr DispatchOffline => (DOffline, None)
  | inr DispatchTimedOut => (DTimedOut, None)
  | inr other => (DFailed, Some (dispatch_error_text other))
  end.

Section Pass.
Context `{UuidText} `{Sqlite} `{Sha256} `{HexCodec} `{policy_serde : !Serde GroupPolicy}.

Inductive decision := Done (o : ReconcileOutcome) | Send (desired : string).

Definition decide_pass (applied : option string) (eff : EffectivePolicy) (del : option DeliveryRow)
    (now : Z) : outcome Empty_set decision :=
  let? desired := hash_hex eff in
  match applied with
  | None =>
      let? empty := empty_policy_hash_hex in
      Ok (Done (if String.eqb desired empty then RInSync else RUnsupported))
  | Some applied =>
      if String.eqb applied desired then Ok (Done RInSync)
      else if match del with
              | Some d => String.eqb (dr_desired_hash d) desired
                          && (sat_sub now (dr_last_sent_at d) <? POLICY_RESEND_BACKOFF)
              | None => false
              end then Ok (Done RBackoff)
      else Ok (Send desired)
  end.

Definition delivery_row (h : Uuid) (desired : string) (now : Z) (reply : CommandResult + DispatchError)
  : DeliveryRow :=
  let (result, error) := delivery_result reply in
  {| dr_host_id := h; dr_desired_hash := desired; dr_last_sent_at := now; dr_last_result := result;
     dr_last_error := error |}.

(** ** The reconciler as a runtime of tasks *)

(** Where a task of a host is. *)
Inductive Task :=
| TSpawned (h : Uuid)
| TGather (h : Uuid)
| TTenant (h : Uuid) (applied : option string)
| TInputs (h : Uuid) (applied : option string) (tenant : option Uuid)
| TDelivery (h : Uuid) (applied : option string) (eff : EffectivePolicy)
| TSend (h : Uuid) (eff : EffectivePolicy) (desired : string) (now : Z)
| TAwait (h : Uuid) (desired : string) (now : Z)
| TRecord (row : DeliveryRow).

(** What can be observed: lookups and commands. *)
Inductive REvent :=
| EGather (h : Uuid)
| ESend (h : Uuid) (payload : PolicyPayload).

Record RState := {
  r_db : FleetDb; r_tenants : TenantDb; r_in_flight : gmap Uuid bool; r_tasks : list Task;
  r_log : list REvent }.

(** What one step of a task meets: failing statements, the clock, the agent's answer. *)
Record RWeather := {
  rw_io : bool; rw_now : Z; rw_reply : CommandResult + DispatchError }.

Definition r_start (d : FleetDb) (ts : TenantDb) : RState := Build_RState d ts ∅ [] [].

Definition spawn (l : list Task) (s : RState) : RState :=
  Build_RState (r_db s) (r_tenants s) (r_in_flight s) (r_tasks s ++ l) (r_log s).
Definition flag (h : Uuid) (dirty : bool) (s : RState) : RState :=
  Build_RState (r_db s) (r_tenants s) (<[h := dirty]> (r_in_flight s)) (r_tasks s) (r_log s).
Definition logged (e : REvent) (s : RState) : RState :=
  Build_RState (r_db s) (r_tenants s) (r_in_flight s) (r_tasks s) (r_log s ++ [e]).
Definition with_fleet (d : FleetDb) (s : RState) : RState :=
  Build_RState d (r_tenants s) (r_in_flight s) (r_tasks s) (r_log s).
Definition with_tenants (ts : TenantDb) (s : RState) : RState :=
  Build_RState (r_db s) ts (r_in_flight s) (r_tasks s) (r_log s).
Definition without_task (i : nat) (s : RState) : RState :=
  Build_RState (r_db s) (r_tenants s) (r_in_flight s) (delete i (r_tasks s)) (r_log s).

Definition spawn_reconcile (hosts : list Uuid) (s : RState) : RState := spawn (map TSpawned hosts) s.

(** Dropping the guard: the host leaves the table, and a request that arrived is served. *)
Definition finish_pass (h : Uuid) (s : RState) : RState :=
  let dirty := default false (r_in_flight s !! h) in
  let s := Build_RState (r_db s) (r_tenants s) (delete h (r_in_flight s)) (r_tasks s) (r_log s) in
  if dirty then spawn_reconcile [h] s else s.

(** [managed]: a dispatcher is configured. *)
Context (managed : bool).

Definition task_step (w : RWeather) (t : Task) (s : RState) : RState :=
  match t with
  | TSpawned h =>
      if managed then
        match r_in_flight s !! h with
        | Some _ => flag h true s
        | None => spawn [TGather h] (flag h false s)
        end
      else s
  | TGather h =>
      let s := logged (EGather h) s in
      match host_get (rw_io w) h (f_hosts (r_db s)) with
      | Ok (Some row) => spawn [TTenant h (hr_applied_policy_hash row)] s
      | _ => finish_pass h s
      end
  | TTenant h applied =>
      match tenant_of (rw_io w) h (r_tenants s) with
      | Ok tenant => spawn [TInputs h applied tenant] s
      | _ => finish_pass h s
      end
  | TInputs h applied tenant =>
      match policies_for_host (rw_io w) h (r_db s) with
      | Ok inputs => spawn [TDelivery h applied (effective (resolve tenant inputs))] s
      | _ => finish_pass h s
      end
  | TDelivery h applied eff =>
      match delivery (rw_io w) h (r_db s) with
      | Ok del =>
          match decide_pass applied eff del (rw_now w) with
          | Ok (Send desired) => spawn [TSend h eff desired (rw_now w)] s
          | _ => finish_pass h s
          end
      | _ => finish_pass h s
      end
  | TSend h eff desired now =>
      match from_effective eff with
      | Ok payload => spawn [TAwait h desired now] (logged (ESend h payload) s)
      | _ => finish_pass h s
      end
  | TAwait h desired now => spawn [TRecord (delivery_row h desired now (rw_reply w))] s
  | TRecord row =>
      finish_pass (dr_host_id row) (with_fleet (record_delivery (rw_io w) row (r_db s)).2 s)
  end.

Definition task_host (t : Task) : Uuid :=
  match t with
  | TSpawned h | TGather h | TTenant h _ | TInputs h _ _ | TDelivery h _ _ | TSend h _ _ _ | TAwait h _ _ => h
  | TRecord row => dr_host_id row
  end.

(** Past the start of its lookups: such a task may also panic or be cancelled. *)
Definition past_gather (t : Task) : bool :=
  match t with TSpawned _ | TGather _ => false | _ => true end.

Inductive work : RState -> RState -> Prop :=
| w_task i t w s : r_tasks s !! i = Some t -> work s (task_step w t (without_task i s))
| w_abort i t s : r_tasks s !! i = Some t -> past_gather t = true ->
    work s (finish_pass (task_host t) (without_task i s)).

Inductive rstep : RState -> RState -> Prop :=
| r_work s s' : work s s' -> rstep s s'
| r_request hosts s : rstep s (spawn_reconcile hosts s)
| r_fleet d s : fleet_step (r_db s) d -> rstep s (with_fleet d s)
| r_tenancy ts s : tenant_step (r_tenants s) ts -> rstep s (with_tenants ts s).

(** ** One pass per host at a time *)

(** A task that is a pass of [h], not only a request for one. *)
Definition passes (h : Uuid) (t : Task) : bool :=
  match t with TSpawned _ => false | _ => task_host t =? h end.
Definition running (h : Uuid) (l : list Task) : nat := List.length (List.filter (passes h) l).
Definition flying (h : Uuid) (s : RState) : nat := match r_in_flight s !! h with Some _ => 1%nat | None => 0%nat end.

(** The table of hosts in flight counts the passes. *)
Definition counted (s : RState) : Prop := forall h, running h (r_tasks s) = flying h s.

(** The same of a state that still owes the steps of [t]. *)
Definition owed (t : Task) (s : RState) : Prop := forall h, running h (t :: r_tasks s) = flying h s.

Lemma running_perm h l l' : l ≡ₚ l' -> running h l = running h l'.
Proof. intros Hp. unfold running. induction Hp; cbn; repeat destruct (passes h _); cbn; lia. Qed.

Lemma running_app h l l' : running h (l ++ l') = (running h l + running h l')%nat.
Proof. unfold running. by rewrite List.filter_app, length_app. Qed.

Lemma running_cons h t l : running h (t :: l) = ((if passes h t then 1 else 0) + running h l)%nat.
Proof. unfold running. cbn. by destruct (passes h t). Qed.

Lemma running_spawned h hosts : running h (map TSpawned hosts) = 0%nat.
Proof. by induction hosts. Qed.

Lemma counted_owed i t s : counted s -> r_tasks s !! i = Some t -> owed t (without_task i s).
Proof. intros Hc Hi h. specialize (Hc h). by rewrite (running_perm h _ _ (delete_Permutation _ _ _ Hi)) in Hc. Qed.

Lemma spawn_counted hosts s : counted s -> counted (spawn_reconcile hosts s).
Proof.
  intros Hc h. cbn [spawn_reconcile spawn r_tasks]. rewrite running_app, running_spawned, Nat.add_0_r. apply Hc.
Qed.

Lemma next_counted t t' s : owed t s -> (forall h, passes h t' = passes h t) -> counted (spawn [t'] s).
Proof.
  intros Ho Hp h. cbn [spawn r_tasks]. rewrite running_app, Nat.add_comm, <- running_app. cbn [app].
  rewrite running_cons, Hp, <- running_cons. apply Ho.
Qed.

Lemma finish_counted t s : owed t s -> (forall h, passes h t = (task_host t =? h)) ->
  counted (finish_pass (task_host t) s).
Proof.
  intros Ho Hp. set (s0 := Build_RState (r_db s) (r_tenants s) (delete (task_host t) (r_in_flight s)) (r_tasks s) (r_log s)).
  assert (counted s0) as Hc.
  { intros h. specialize (Ho h). rewrite running_cons, Hp in Ho. unfold flying in *. cbn [s0 r_tasks r_in_flight].
    destruct (Z.eqb_spec (task_host t) h) as [E|Hne].
    - rewrite E, lookup_delete_eq. destruct (r_in_flight s !! h); lia.
    - by rewrite lookup_delete_ne by done. }
  unfold finish_pass. fold s0. destruct (default _ _); [by apply spawn_counted|done].
Qed.

(** A pass goes on with its next task or ends. *)
Ltac pass_moves t := first [by apply (next_counted t)|by apply (finish_counted t)].

Lemma task_step_counted w t s : owed t s -> counted (task_step w t s).
Proof.
  intros Ho. destruct t as [h|h|h app|h app tenant|h app eff|h eff des now|h des now|row]; cbn [task_step].
  - destruct managed; [|by intros h'; specialize (Ho h')].
    destruct (r_in_flight s !! h) eqn:E; intros h'; specialize (Ho h');
      unfold flying in *; cbn [flag spawn r_tasks r_in_flight] in *;
      rewrite ?running_app, ?running_cons in *; cbn [passes task_host running List.filter List.length app] in *;
      (destruct (Z.eqb_spec h h') as [Eh|];
       [rewrite <- Eh, lookup_insert_eq; rewrite <- Eh, E in Ho|rewrite lookup_insert_ne by done]; cbn; lia).
  - destruct (host_get _ _ _) as [[]| |]; pass_moves (TGather h).
  - destruct (tenant_of _ _ _); pass_moves (TTenant h app).
  - destruct (policies_for_host _ _ _); pass_moves (TInputs h app tenant).
  - destruct (delivery _ _ _); [|pass_moves (TDelivery h app eff)..].
    destruct (decide_pass _ _ _ _) as [[]| |]; pass_moves (TDelivery h app eff).
  - destruct (from_effective eff); pass_moves (TSend h eff des now).
  - unfold delivery_row. destruct (delivery_result _). pass_moves (TAwait h des now).
  - pass_moves (TRecord row).
Qed.

Lemma past_gather_passes t h : past_gather t = true -> passes h t = (task_host t =? h).
Proof. by destruct t. Qed.

Lemma rstep_counted s s' : rstep s s' -> counted s -> counted s'.
Proof.
  intros [? ? []| | |] Hc; [| |by apply spawn_counted|exact Hc|exact Hc].
  - eauto using task_step_counted, counted_owed.
  - eauto using finish_counted, counted_owed, past_gather_passes.
Qed.

Lemma rsteps_counted s s' : rtc rstep s s' -> counted s -> counted s'.
Proof. induction 1; eauto using rstep_counted. Qed.

Lemma start_counted d ts : counted (r_start d ts).
Proof. intros h. unfold flying. cbn. by rewrite lookup_empty. Qed.

(** ** No request is lost *)

(** A request for [h] that no pass has looked at yet. *)
Definition needed (h : Uuid) (s : RState) : Prop :=
  TSpawned h ∈ r_tasks s \/ TGather h ∈ r_tasks s \/ r_in_flight s !! h = Some true.

(** A pass over [h] began its lookups between the two states. *)
Definition served (h : Uuid) (s s' : RState) : Prop :=
  exists l, r_log s' = r_log s ++ l /\ EGather h ∈ l.

(** The log only grows. *)
Definition extends (s s' : RState) : Prop := r_log s `prefix_of` r_log s'.

#[export] Instance extends_preorder : PreOrder extends.
Proof. split; [by intros s; exists []; rewrite app_nil_r|]. intros s1 s2 s3. unfold extends. by transitivity (r_log s2). Qed.

Lemma served_l h s1 s2 s3 : extends s1 s2 -> served h s2 s3 -> served h s1 s3.
Proof.
  intros [l E] (l' & E' & Hl). exists (l ++ l'). rewrite E', E, app_assoc. split; [done|]. apply elem_of_app. by right.
Qed.

Lemma served_r h s1 s2 s3 : served h s1 s2 -> extends s2 s3 -> served h s1 s3.
Proof.
  intros (l & E & Hl) [l' E']. exists (l ++ l'). rewrite E', E, app_assoc. split; [done|]. apply elem_of_app. by left.
Qed.

Lemma finish_log h s : r_log (finish_pass h s) = r_log s.
Proof. unfold finish_pass. by destruct (default _ _). Qed.

Lemma finish_tasks h s t : t ∈ r_tasks s -> t ∈ r_tasks (finish_pass h s).
Proof. intros Ht. unfold finish_pass. destruct (default _ _); [|done]. apply elem_of_app. by left. Qed.

(** The end of a pass keeps what is needed: a marked host gets a new task. *)
Lemma finish_needed h h' s : needed h s -> needed h (finish_pass h' s).
Proof.
  intros [Ht|[Ht|Hf]]; [left; by apply finish_tasks|right; left; by apply finish_tasks|].
  destruct (decide (h = h')) as [<-|Hne]; unfold finish_pass.
  - rewrite Hf. left. apply elem_of_app. right. by apply list_elem_of_singleton.
  - right; right. destruct (default _ _); cbn; by rewrite lookup_delete_ne.
Qed.

Lemma spawn_needed h l s : needed h s -> needed h (spawn l s).
Proof. intros [Ht|[Ht|Hf]]; [left|right; left|by right; right]; apply elem_of_app; by left. Qed.

Lemma without_needed h i t s : r_tasks s !! i = Some t -> needed h s ->
  needed h (without_task i s) \/ t = TSpawned h \/ t = TGather h.
Proof.
  intros Hi [Ht|[Ht|Hf]]; [| |by left; right; right];
    rewrite (delete_Permutation _ _ _ Hi), elem_of_cons in Ht; destruct Ht as [<-|Ht]; auto; left; [by left|by right; left].
Qed.

(** Case analysis on what a pass meets. *)
Ltac pass_cases := repeat case_match; try discriminate.

Lemma task_step_extends w t s : extends s (task_step w t s).
Proof.
  unfold extends. destruct t; cbn [task_step]; pass_cases; rewrite ?finish_log; cbn [spawn flag logged with_fleet r_log];
    (done || (eexists; reflexivity) || by exists []; rewrite app_nil_r).
Qed.

Lemma rstep_extends s s' : rstep s s' -> extends s s'.
Proof.
  intros [s1 s2 [i t w s0 Hi|i t s0 Hi Hp]| | |]; try by (exists []; rewrite app_nil_r).
  - apply (task_step_extends w t (without_task i s0)).
  - unfold extends. by rewrite finish_log.
Qed.

Lemma rsteps_extends s s' : rtc rstep s s' -> extends s s'.
Proof. induction 1; [done|]. etransitivity; [by apply rstep_extends|done]. Qed.

(** A step of another task keeps the need. *)
Lemma task_step_keeps w t s h : needed h s -> needed h (task_step w t s).
Proof.
  intros Hn. destruct t; cbn [task_step]; pass_cases;
    auto using spawn_needed, finish_needed;
    repeat first [done|apply finish_needed|apply spawn_needed].
  all: destruct Hn as [Ht|[Ht|Hf]]; [by left|by right; left|].
  all: right; right; cbn [flag r_in_flight]; apply lookup_insert_Some;
    match goal with |- (?a = _ /\ _) \/ _ => destruct (decide (a = h)); [left|right] end; simplify_eq; auto.
Qed.

Section Managed.
Context (is_managed : managed = true).

Lemma spawned_step_keeps w h s : needed h (task_step w (TSpawned h) s).
Proof.
  cbn [task_step]. rewrite is_managed. destruct (r_in_flight s !! h).
  - right; right. apply lookup_insert_eq.
  - right; left. apply elem_of_app. right. by apply list_elem_of_singleton.
Qed.

Lemma gather_step_serves w h s : served h s (task_step w (TGather h) s).
Proof.
  apply (served_r _ _ (logged (EGather h) s)).
  - exists [EGather h]. split; [done|by apply list_elem_of_singleton].
  - cbn [task_step]. unfold extends. pass_cases; by rewrite ?finish_log.
Qed.

Lemma rstep_needed h s s' : rstep s s' -> needed h s -> served h s s' \/ needed h s'.
Proof.
  intros [s1 s2 [i t w s0 Hi|i t s0 Hi Hp]|hosts s0|d s0 Hd|ts s0 Ht] Hn; [| |right; by apply spawn_needed|by right..].
  - destruct (without_needed _ _ _ _ Hi Hn) as [Hn'|[-> | ->]].
    + right. by apply task_step_keeps.
    + right. apply spawned_step_keeps.
    + left. apply (gather_step_serves w h (without_task i s0)).
  - right. destruct (without_needed _ _ _ _ Hi Hn) as [Hn'|[-> | ->]]; [by apply finish_needed|done..].
Qed.

Lemma rsteps_needed h s s' : rtc rstep s s' -> needed h s -> served h s s' \/ needed h s'.
Proof.
  induction 1 as [s|s1 s2 s3 Hs Hr IH]; [by right|]. intros Hn.
  destruct (rstep_needed h _ _ Hs Hn) as [Hv|Hn'].
  - left. eapply served_r; [exact Hv|by apply rsteps_extends].
  - destruct (IH Hn') as [Hv|]; [left|by right]. eapply served_l; [by apply rstep_extends|done].
Qed.
End Managed.

(** ** The tasks come to an end *)

Definition weight (t : Task) : nat :=
  match t with
  | TSpawned _ => 9 | TGather _ => 8 | TTenant _ _ => 7 | TInputs _ _ _ => 6 | TDelivery _ _ _ => 5
  | TSend _ _ _ _ => 4 | TAwait _ _ _ => 3 | TRecord _ => 2
  end.
Definition marked_hosts (s : RState) : nat := size (filter (fun p => p.2 = true) (r_in_flight s)).

(** What the tasks may still do: a mark is worth less than the request that set it, and more
    than the request it turns into, less the pass that ends. *)
Definition load (s : RState) : nat := sum_list_with weight (r_tasks s) + 8 * marked_hosts s.

Lemma load_without i t s : r_tasks s !! i = Some t -> load s = (weight t + load (without_task i s))%nat.
Proof.
  intros Hi. unfold load, marked_hosts. rewrite (delete_Permutation _ _ _ Hi) at 1.
  cbn [sum_list_with without_task r_tasks r_in_flight]. lia.
Qed.

Lemma load_spawn l s : load (spawn l s) = (sum_list_with weight l + load s)%nat.
Proof. unfold load, marked_hosts. cbn [spawn r_tasks r_in_flight]. rewrite sum_list_with_app. lia. Qed.

Lemma load_flag h b s : (load (flag h b s) <= (if b then 8 else 0) + load s)%nat.
Proof.
  unfold load, marked_hosts. cbn [flag r_tasks r_in_flight]. destruct b.
  - rewrite map_filter_insert_True by done. rewrite map_size_insert. case_match; unfold id; lia.
  - rewrite map_filter_insert_False by done. rewrite map_filter_delete, map_size_delete. case_match; unfold id; lia.
Qed.

Lemma load_finish h s : (load (finish_pass h s) <= 1 + load s)%nat.
Proof.
  unfold finish_pass. destruct (r_in_flight s !! h) as [[|]|] eqn:E; cbn [from_option id].
  - unfold spawn_reconcile. rewrite load_spawn. unfold load, marked_hosts. cbn [r_tasks r_in_flight map weight sum_list_with].
    rewrite map_filter_delete, map_size_delete.
    assert (filter (fun p => p.2 = true) (r_in_flight s) !! h = Some true) as -> by by apply map_lookup_filter_Some.
    assert (size (filter (fun p => p.2 = true) (r_in_flight s)) <> 0%nat).
    { intros Hz%map_size_empty_inv. assert (filter (fun p => p.2 = true) (r_in_flight s) !! h = Some true) as Hh
        by by apply map_lookup_filter_Some. by rewrite Hz, lookup_empty in Hh. }
    lia.
  - unfold load, marked_hosts. cbn [r_tasks r_in_flight]. rewrite map_filter_delete, map_size_delete. case_match; unfold id; lia.
  - unfold load, marked_hosts. cbn [r_tasks r_in_flight]. rewrite map_filter_delete, map_size_delete. case_match; unfold id; lia.
Qed.

Lemma task_step_load w t s : (load (task_step w t s) < weight t + load s)%nat.
Proof.
  destruct t; cbn [task_step]; pass_cases; cbn [weight];
    rewrite ?load_spawn; cbn [sum_list_with weight];
    try match goal with |- context [load (finish_pass ?h ?s0)] => pose proof (load_finish h s0) end;
    try match goal with |- context [load (flag ?h ?b ?s0)] => pose proof (load_flag h b s0) end;
    unfold load, marked_hosts in *; cbn [logged with_fleet r_tasks r_in_flight] in *; lia.
Qed.

Lemma past_gather_weight t : past_gather t = true -> (2 <= weight t)%nat.
Proof. destruct t; cbn; (done || lia). Qed.

Lemma work_load s s' : work s s' -> (load s' < load s)%nat.
Proof.
  intros [i t w s0 Hi|i t s0 Hi Hp]; rewrite (load_without _ _ _ Hi).
  - apply task_step_load.
  - pose proof (load_finish (task_host t) (without_task i s0)). apply past_gather_weight in Hp. lia.
Qed.

(** Left to themselves, the tasks take at most [load] steps. *)
Lemma work_bounded n s s' : nsteps work n s s' -> (n + load s' <= load s)%nat.
Proof. induction 1 as [|n s1 s2 s3 Hw _ IH]; [lia|]. apply work_load in Hw. lia. Qed.

Lemma work_progress s : r_tasks s <> [] -> exists s', work s s'.
Proof.
  destruct (r_tasks s) as [|t l] eqn:E; [done|]. intros _. eexists.
  apply (w_task 0 t {| rw_io := true; rw_now := 0; rw_reply := inr DispatchOffline |}). by rewrite E.
Qed.

Lemma idle_not_needed h s : counted s -> r_tasks s = [] -> ~ needed h s.
Proof.
  intros Hc Ht. specialize (Hc h). rewrite Ht in Hc. unfold flying in Hc. intros [Hn|[Hn|Hn]].
  - rewrite Ht in Hn. by apply not_elem_of_nil in Hn.
  - rewrite Ht in Hn. by apply not_elem_of_nil in Hn.
  - by rewrite Hn in Hc.
Qed.

(** C26. No request to reconcile a host is lost, whatever else runs: from a request on, either a
    pass over the host began its lookups afterwards or one is still due; the tasks can always
    go on and, left alone, stop after at most [load] steps; and once none is left, the host was
    looked up after the request. *)
Theorem no_request_lost d ts s hosts h s' :
  managed = true -> rtc rstep (r_start d ts) s -> h ∈ hosts -> rtc rstep (spawn_reconcile hosts s) s' ->
  (served h s s' \/ needed h s')
  /\ (r_tasks s' <> [] -> exists s'', work s' s'')
  /\ (forall n s'', nsteps work n s' s'' -> (n <= load s')%nat /\ (r_tasks s'' = [] -> served h s s'')).
Proof.
  intros Hm Hr Hh Hr'. assert (needed h (spawn_reconcile hosts s)) as Hn.
  { left. apply elem_of_app. right. by apply list_elem_of_fmap_2. }
  assert (counted s') as Hc by (eauto using rsteps_counted, spawn_counted, start_counted).
  split; [exact (rsteps_needed Hm h _ _ Hr' Hn)|]. split; [apply work_progress|]. intros n s'' Hw.
  split; [apply work_bounded in Hw; lia|]. intros Ht.
  assert (rtc rstep s' s'') as Hws by eauto using rtc_subrel, r_work, rtc_nsteps_2.
  destruct (rsteps_needed Hm h _ _ (transitivity Hr' Hws) Hn) as [Hs|Hn']; [exact Hs|].
  exfalso. by eapply idle_not_needed; [eapply rsteps_counted; [exact Hws|exact Hc]|..].
Qed.

(** At no time do two passes over one host run. *)
Lemma one_pass_per_host d ts s h : rtc rstep (r_start d ts) s -> (running h (r_tasks s) <= 1)%nat.
Proof.
  intros Hr. rewrite (rsteps_counted _ _ Hr (start_counted d ts) h). unfold flying. case_match; lia.
Qed.
End Pass.

(** ** A policy that is sent and applied is not sent again *)

Section Converge.
Context `{JsonMake} `{HexCodec} `{UuidText} `{Sha256} `{Sqlite}.
Context `{policy_serde : !Serde GroupPolicy} `{effective_serde : !Serde EffectivePolicy}.
(** [from_value] of the health report reads what [Serialize] wrote. *)
Context (health_of : json -> option Health.AgentHealth)
        (Hhealth : forall h, health_of (health_json h) = Some h).
Context (configured : string -> bool) (starts : string -> option string).








End Converge.

(** ** Examples *)

#[local] Instance rec_lib : JsonLib := tjson_lib.
#[local] Instance rec_make : JsonMake := tjson_make.
#[local] Instance rec_hex : HexCodec := concrete_hex.
#[local] Instance rec_uuid : UuidText := groups_uuid.
#[local] Instance rec_sha : Sha256 := concrete_sha256.
#[local] Instance rec_sqlite : Sqlite := groups_sqlite.
#[local] Instance rec_policies : Serde GroupPolicy := groups_serde.
#[local] Instance rec_overlays : Serde EffectivePolicy := overlay_serde.











(** Host 7 reports another policy than its own; a pass over it waits for its agent when another
    request comes.  The mark is served by a second pass. *)
Definition reports (hash : string) (r : HostRow) : HostRow :=
  {| hr_host_id := hr_host_id r; hr_hostname := hr_hostname r; hr_distro := hr_distro r;
     hr_kernel_version := hr_kernel_version r; hr_agent_version := hr_agent_version r;
     hr_enrolled_at := hr_enrolled_at r; hr_last_seen := hr_last_seen r; hr_health_state := hr_health_state r;
     hr_cloud_provider := hr_cloud_provider r; hr_cloud_instance_id := hr_cloud_instance_id r;
     hr_cloud_region := hr_cloud_region r; hr_applied_policy_hash := Some hash |}.

Definition stale_fleet : FleetDb := with_hosts (alter (reports "") 7 (f_hosts fleet_one)) fleet_one.

Definition day : RWeather :=
  {| rw_io := false; rw_now := 80; rw_reply := inr DispatchOffline |}.
Fixpoint turns (n : nat) (s : RState) : RState :=
  match n with
  | O => s
  | S n => match r_tasks s with [] => s | t :: _ => turns n (task_step true day t (without_task 0 s)) end
  end.

Definition waiting : RState := turns 6 (spawn_reconcile [7] (r_start stale_fleet tenants_empty)).
Definition after_all : RState := turns 40 (spawn_reconcile [7] waiting).

Lemma turns_steps n s : rtc (work true) s (turns n s).
Proof.
  revert s. induction n as [|n IH]; intros s; cbn; [done|]. destruct (r_tasks s) as [|t l] eqn:E; [done|].
  eapply rtc_l; [|apply IH]. apply w_task. by rewrite E.
Qed.

Lemma no_request_lost_witness :
  map task_host (r_tasks waiting) = [7] /\ r_tasks after_all = [] /\ served 7 waiting after_all.
Proof.
  split; [vm_compute; reflexivity|]. split; [vm_compute; reflexivity|].
  assert (rtc (rstep true) (r_start stale_fleet tenants_empty) waiting) as Hw.
  { eapply rtc_l; [apply (r_request _ [7])|]. eapply rtc_subrel; [apply r_work|apply turns_steps]. }
  destruct (proj1 (rtc_nsteps _ _) (turns_steps 40 (spawn_reconcile [7] waiting))) as [n Hn].
  destruct (no_request_lost true stale_fleet tenants_empty waiting [7] 7 (spawn_reconcile [7] waiting)
    eq_refl Hw ltac:(by left) ltac:(reflexivity)) as (_ & _ & Hend).
  destruct (Hend n after_all Hn) as [_ Hs]. apply Hs. vm_compute. reflexivity.
Defined.
