(* ===== verification/Control.v ===== *)
(** * The command channel: [osiris-transport/src/control.rs], [osiris-server/src/control.rs]

    The server pushes signed commands down one connection per host and matches the agent's
    results by command id.  The hub, the connection tasks and the callers that wait are one
    step relation; locks, channels and awaits separate the steps.  Connections are numbered
    as the hub numbers them, callers by the order of their calls.  The dispatcher builds and
    signs what is sent. *)

From S2P Require Import Prelude Concrete BTree Schema Policy Envelope Replay Guard Sql Reconcile.

(** ** The hub *)

(** Commands queued towards one connection. *)
Definition COMMAND_QUEUE : nat := 32.

Inductive SendError := SOffline | STimedOut | SDisconnected | SDuplicate.

Definition send_error_text (e : SendError) : string :=
  match e with
  | SOffline => "host has no control connection"
  | STimedOut => "timed out waiting for the agent's result"
  | SDisconnected => "the control connection was lost or replaced"
  | SDuplicate => "a command with this id is already pending"
  end.

Abbreviation reply := (CommandResult + SendError)%type (only parsing).

(** A connection task: the receiving end of its queue, and the callers whose commands it wrote. *)
Record Conn := {
  c_host : Uuid; c_queue : list (nat * SignedCommand); c_pending : gmap Uuid nat; c_replaced : bool;
  c_open : bool }.

(** A call of [send]: waiting for room in the queue, waiting for the result, done. *)
Inductive CallState := Sending | Waiting | Done (r : CommandResult + SendError).

Record Call := { k_host : Uuid; k_cmd : SignedCommand; k_conn : nat; k_state : CallState }.

Inductive HubEvent :=
| EWritten (conn call : nat) (cmd : SignedCommand)
| EResult (conn : nat) (id : Uuid) (result : CommandResult) (call : option nat).

Record Hub := {
  h_conns : gmap Uuid nat; h_next : nat; h_tasks : gmap nat Conn; h_calls : gmap nat Call;
  h_log : list HubEvent }.

Definition hub_start : Hub := Build_Hub ∅ 0 ∅ ∅ [].

Definition with_conns (m : gmap Uuid nat) (s : Hub) : Hub := Build_Hub m (h_next s) (h_tasks s) (h_calls s) (h_log s).
Definition with_tasks (m : gmap nat Conn) (s : Hub) : Hub := Build_Hub (h_conns s) (h_next s) m (h_calls s) (h_log s).
Definition with_calls (m : gmap nat Call) (s : Hub) : Hub := Build_Hub (h_conns s) (h_next s) (h_tasks s) m (h_log s).
Definition recorded (e : HubEvent) (s : Hub) : Hub :=
  Build_Hub (h_conns s) (h_next s) (h_tasks s) (h_calls s) (h_log s ++ [e]).

Definition with_queue (q : list (nat * SignedCommand)) (c : Conn) : Conn :=
  Build_Conn (c_host c) q (c_pending c) (c_replaced c) (c_open c).
Definition with_pending (p : gmap Uuid nat) (c : Conn) : Conn :=
  Build_Conn (c_host c) (c_queue c) p (c_replaced c) (c_open c).
Definition replace_conn (c : Conn) : Conn := Build_Conn (c_host c) (c_queue c) (c_pending c) true (c_open c).
(** The task returned: its queue and pending senders are dropped. *)
Definition close_conn (c : Conn) : Conn := Build_Conn (c_host c) [] ∅ (c_replaced c) false.
Definition with_state (st : CallState) (k : Call) : Call := Build_Call (k_host k) (k_cmd k) (k_conn k) st.

Definition set_conn (i : nat) (c : Conn) (s : Hub) : Hub := with_tasks (<[i := c]> (h_tasks s)) s.
Definition set_call (k : nat) (st : CallState) (s : Hub) : Hub := with_calls (alter (with_state st) k (h_calls s)) s.

(** [sender.is_closed()] is false. *)
Definition listening (s : Hub) (k : nat) : bool :=
  match h_calls s !! k with
  | Some c => match k_state c with Waiting => true | _ => false end
  | None => false
  end.

(** Sending on the oneshot channel: nobody may be there any more. *)
Definition resolve_call (k : nat) (r : CommandResult + SendError) (s : Hub) : Hub :=
  if listening s k then set_call k (Done r) s else s.

Definition connected (s : Hub) (host : Uuid) : bool :=
  match h_conns s !! host with
  | Some i => match h_tasks s !! i with Some c => c_open c | None => false end
  | None => false
  end.

(** [register]: the new connection takes the place of an older one, which is cancelled. *)
Definition register (host : Uuid) (s : Hub) : Hub :=
  let id := S (h_next s) in
  let tasks := match h_conns s !! host with
               | Some old => alter replace_conn old (h_tasks s)
               | None => h_tasks s
               end in
  Build_Hub (<[host := id]> (h_conns s)) id
    (<[id := {| c_host := host; c_queue := []; c_pending := ∅; c_replaced := false; c_open := true |}]> tasks)
    (h_calls s) (h_log s).

Definition unregister (host : Uuid) (id : nat) (s : Hub) : Hub :=
  if bool_decide (h_conns s !! host = Some id) then with_conns (delete host (h_conns s)) s else s.

(** The start of [send], as call number [k]. *)
Definition start_send (k : nat) (host : Uuid) (cmd : SignedCommand) (s : Hub) : Hub :=
  let call conn st := {| k_host := host; k_cmd := cmd; k_conn := conn; k_state := st |} in
  with_calls (<[k := match h_conns s !! host with
                     | Some i => call i Sending
                     | None => call 0%nat (Done (inr SOffline))
                     end]> (h_calls s)) s.

(** [tx.send]: waits for room, fails when the task is gone. *)
Definition enqueue (k : nat) (s : Hub) : option Hub :=
  c ← h_calls s !! k;
  match k_state c, h_tasks s !! k_conn c with
  | Sending, Some t =>
      if negb (c_open t) then Some (set_call k (Done (inr SDisconnected)) s)
      else if (List.length (c_queue t) <? COMMAND_QUEUE)%nat
      then Some (set_call k Waiting (set_conn (k_conn c) (with_queue (c_queue t ++ [(k, k_cmd c)]) t) s))
      else None
  | _, _ => None
  end.

(** The timeout of [send]: its receiver is dropped. *)
Definition call_timeout (k : nat) (s : Hub) : option Hub :=
  c ← h_calls s !! k;
  match k_state c with
  | Done _ => None
  | Sending | Waiting => Some (set_call k (Done (inr STimedOut)) s)
  end.

(** ** The connection task *)

(** The senders a task holds: of commands in its queue, and of written ones. *)
Definition held (t : Conn) : list nat := map fst (c_queue t) ++ map snd (map_to_list (c_pending t)).

(** Dropping a sender tells its caller [Disconnected]. *)
Definition drop_senders (l : list nat) (s : Hub) : Hub :=
  fold_left (fun s k => resolve_call k (inr SDisconnected) s) l s.

(** The task returns, for whatever reason. *)
Definition end_task (i : nat) (s : Hub) : option Hub :=
  t ← h_tasks s !! i;
  if c_open t then Some (unregister (c_host t) i (set_conn i (close_conn t) (drop_senders (held t) s))) else None.

(** [cmd_rx.recv()]: the oldest queued command is written, unless the connection is being
    replaced or its id is pending for a caller who still waits. *)
Definition take_command (i : nat) (s : Hub) : option Hub :=
  t ← h_tasks s !! i;
  match c_queue t with
  | (k, cmd) :: q =>
      if c_open t && negb (c_replaced t) then
        let id := command_id (command cmd) in
        let t := with_queue q t in
        match c_pending t !! id with
        | Some k' =>
            if listening s k' then Some (resolve_call k (inr SDuplicate) (set_conn i t s))
            else Some (recorded (EWritten i k cmd) (set_conn i (with_pending (<[id := k]> (c_pending t)) t) s))
        | None => Some (recorded (EWritten i k cmd) (set_conn i (with_pending (<[id := k]> (c_pending t)) t) s))
        end
      else None
  | [] => None
  end.

(** A [Result] frame of the agent. *)
Definition take_result (i : nat) (id : Uuid) (result : CommandResult) (s : Hub) : option Hub :=
  t ← h_tasks s !! i;
  if c_open t then
    match c_pending t !! id with
    | Some k =>
        Some (recorded (EResult i id result (if listening s k then Some k else None))
               (resolve_call k (inl result) (set_conn i (with_pending (delete id (c_pending t)) t) s)))
    | None => Some (recorded (EResult i id result None) s)
    end
  else None.

(** The ping timer forgets callers who gave up. *)
Definition ping (i : nat) (s : Hub) : option Hub :=
  t ← h_tasks s !! i;
  if c_open t
  then Some (set_conn i (with_pending (filter (fun p => listening s p.2 = true) (c_pending t)) t) s)
  else None.

(** A step of the server: a connection that said hello, a call, a task. *)
Inductive hub_step : Hub -> Hub -> Prop :=
| h_register host s : hub_step s (register host s)
| h_send k host cmd s : h_calls s !! k = None -> hub_step s (start_send k host cmd s)
| h_enqueue k s s' : enqueue k s = Some s' -> hub_step s s'
| h_timeout k s s' : call_timeout k s = Some s' -> hub_step s s'
| h_take i s s' : take_command i s = Some s' -> hub_step s s'
| h_result i id result s s' : take_result i id result s = Some s' -> hub_step s s'
| h_ping i s s' : ping i s = Some s' -> hub_step s s'
| h_end i s s' : end_task i s = Some s' -> hub_step s s'.

(** ** What holds of every state *)

Definition written (s : Hub) (k : nat) : Prop := exists i cmd, EWritten i k cmd ∈ h_log s.
Definition writer (e : HubEvent) : option nat := match e with EWritten _ k _ => Some k | _ => None end.
Definition answered (e : HubEvent) : option nat := match e with EResult _ _ _ o => o | _ => None end.

(** The log from the writing of a command to its result. *)
Definition answered_by (log : list HubEvent) (k : nat) (c : Call) (r : CommandResult) : Prop :=
  exists pre mid post, log = pre ++ EWritten (k_conn c) k (k_cmd c) :: mid
                         ++ EResult (k_conn c) (command_id (command (k_cmd c))) r (Some k) :: post.

(** The task a call was handed to. *)
Definition on_conn (s : Hub) (c : Call) : Prop :=
  exists t, h_tasks s !! k_conn c = Some t /\ c_host t = k_host c.

Definition call_ok (s : Hub) (k : nat) (c : Call) : Prop :=
  match k_state c with
  | Sending => on_conn s c
  | Waiting =>
      on_conn s c /\ exists t, h_tasks s !! k_conn c = Some t /\ c_open t = true
        /\ ((k, k_cmd c) ∈ c_queue t \/ c_pending t !! command_id (command (k_cmd c)) = Some k)
  | Done (inl r) => on_conn s c /\ answered_by (h_log s) k c r
  | Done (inr _) => True
  end.

Definition started (s : Hub) (i k : nat) (cmd : SignedCommand) : Prop :=
  exists c, h_calls s !! k = Some c /\ k_cmd c = cmd /\ k_conn c = i /\ k_state c <> Sending.

Record task_ok (s : Hub) (i : nat) (t : Conn) : Prop := {
  tk_queue k cmd : (k, cmd) ∈ c_queue t -> started s i k cmd /\ ~ written s k;
  tk_distinct : NoDup (map fst (c_queue t));
  tk_pending id k : c_pending t !! id = Some k ->
    exists cmd, command_id (command cmd) = id /\ started s i k cmd /\ EWritten i k cmd ∈ h_log s;
  tk_closed : c_open t = false -> c_queue t = [] /\ c_pending t = ∅;
  tk_known : (i <= h_next s)%nat }.

Record hub_ok (s : Hub) : Prop := {
  hb_calls k c : h_calls s !! k = Some c -> call_ok s k c;
  hb_tasks i t : h_tasks s !! i = Some t -> task_ok s i t;
  (** The connection of a host is the one that is not replaced. *)
  hb_conns host i : h_conns s !! host = Some i <->
    exists t, h_tasks s !! i = Some t /\ c_host t = host /\ c_open t = true /\ c_replaced t = false;
  hb_writers : NoDup (omap writer (h_log s));
  hb_answers : NoDup (omap answered (h_log s));
  hb_started k : written s k -> exists i cmd, started s i k cmd;
  hb_answered i id r k : EResult i id r (Some k) ∈ h_log s ->
    exists c, h_calls s !! k = Some c /\ k_state c = Done (inl r) }.

Lemma hub_start_ok : hub_ok hub_start.
Proof.
  split; cbn; try by intros *; rewrite lookup_empty.
  - intros host i. rewrite lookup_empty. split; [done|]. intros (t & Ht & _). by rewrite lookup_empty in Ht.
  - constructor.
  - constructor.
  - intros k (i & cmd & Hin). by apply not_elem_of_nil in Hin.
  - intros i id r k Hin. by apply not_elem_of_nil in Hin.
Qed.

Lemma listening_spec s k : listening s k = true <-> exists c, h_calls s !! k = Some c /\ k_state c = Waiting.
Proof.
  unfold listening. destruct (h_calls s !! k) as [c|]; [|naive_solver].
  destruct (k_state c) eqn:E; naive_solver congruence.
Qed.

(** ** A caller gives up or is told that it failed *)

Lemma set_call_lookup k st s k' :
  h_calls (set_call k st s) !! k' = (if decide (k = k') then with_state st else id) <$> h_calls s !! k'.
Proof.
  cbn. destruct (decide (k = k')) as [<-|Hne]; [by rewrite lookup_alter_eq|].
  rewrite lookup_alter_ne by done. by destruct (h_calls s !! k').
Qed.

Lemma started_set_call k st s i k' cmd : st <> Sending -> started s i k' cmd -> started (set_call k st s) i k' cmd.
Proof.
  intros Hst (c & Hc & Ecmd & Ei & Es). unfold started. rewrite set_call_lookup, Hc. cbn.
  destruct (decide (k = k')); eexists; split; [done|done| |]; done.
Qed.

Lemma set_call_ok k c st s : hub_ok s -> h_calls s !! k = Some c -> (forall r, k_state c <> Done r) ->
  st <> Sending -> call_ok s k (with_state st c) -> hub_ok (set_call k st s).
Proof.
  intros Hs Hk Hnd Hst Hc. split.
  - intros k' c'. rewrite set_call_lookup. destruct (decide (k = k')) as [<-|Hne].
    + rewrite Hk. intros [= <-]. exact Hc.
    + rewrite option_fmap_id. apply (hb_calls s Hs).
  - intros i t Ht. destruct (hb_tasks s Hs i t Ht) as [Hq Hd Hp Hcl Hkn]. split; try done.
    + intros k' cmd Hin. destruct (Hq k' cmd Hin) as [Hsq Hw]. split; [by apply started_set_call|exact Hw].
    + intros id k' Hpk. destruct (Hp id k' Hpk) as (cmd & Hid & Hsd & Hw). exists cmd.
      split; [done|]. split; [by apply started_set_call|exact Hw].
  - apply (hb_conns s Hs).
  - apply (hb_writers s Hs).
  - apply (hb_answers s Hs).
  - intros k' Hw. destruct (hb_started s Hs k' Hw) as (i & cmd & Hsd). exists i, cmd. by apply started_set_call.
  - intros i id r k' Hin. destruct (hb_answered s Hs i id r k' Hin) as (c' & Hc' & Hst').
    exists c'. rewrite set_call_lookup, Hc'. destruct (decide (k = k')) as [<-|Hne]; [|done].
    exfalso. assert (c' = c) as -> by congruence. by eapply Hnd.
Qed.

Lemma resolve_failed_ok k e s : hub_ok s -> hub_ok (resolve_call k (inr e) s).
Proof.
  intros Hs. unfold resolve_call. destruct (listening s k) eqn:El; [|done].
  apply listening_spec in El as (c & Hc & Hst). apply (set_call_ok k c); try done; congruence.
Qed.

Lemma drop_senders_ok l s : hub_ok s -> hub_ok (drop_senders l s).
Proof. revert s. induction l as [|k l IH]; intros s Hs; [done|]. apply IH. by apply resolve_failed_ok. Qed.

(** Only calls change. *)
Lemma resolve_same k r s :
  h_tasks (resolve_call k r s) = h_tasks s /\ h_conns (resolve_call k r s) = h_conns s
  /\ h_next (resolve_call k r s) = h_next s /\ h_log (resolve_call k r s) = h_log s.
Proof. unfold resolve_call. by destruct (listening s k). Qed.

Lemma drop_same l s : h_tasks (drop_senders l s) = h_tasks s /\ h_conns (drop_senders l s) = h_conns s
  /\ h_next (drop_senders l s) = h_next s /\ h_log (drop_senders l s) = h_log s.
Proof.
  revert s. induction l as [|k l IH]; intros s; [done|].
  destruct (IH (resolve_call k (inr SDisconnected) s)) as (Et & Ec & En & El).
  destruct (resolve_same k (inr SDisconnected) s) as (Et' & Ec' & En' & El').
  split_and!; etransitivity; eassumption.
Qed.

Lemma resolve_listening k r s k' : listening (resolve_call k r s) k' = true -> listening s k' = true /\ k' <> k.
Proof.
  unfold resolve_call. destruct (listening s k) eqn:El.
  - rewrite !listening_spec. intros (c & Hc & Hst). rewrite set_call_lookup in Hc.
    destruct (h_calls s !! k') as [c0|] eqn:E; [|done]. destruct (decide (k = k')) as [<-|Hne]; cbn in Hc; injection Hc as <-.
    + done.
    + by split; [exists c0|].
  - intros Hl. split; [done|]. intros ->. congruence.
Qed.

Lemma drop_listening l s k : listening (drop_senders l s) k = true -> listening s k = true /\ k ∉ l.
Proof.
  revert s. induction l as [|k' l IH]; intros s Hl; [by split; [|apply not_elem_of_nil]|].
  apply IH in Hl as [Hl Hn]. apply resolve_listening in Hl as [Hl Hne]. split; [done|]. by apply not_elem_of_cons.
Qed.

(** ** A task changes what it holds *)

Lemma conns_same_flags s i t t' : hub_ok s -> h_tasks s !! i = Some t ->
  c_host t' = c_host t -> c_open t' = c_open t -> c_replaced t' = c_replaced t ->
  forall host j, h_conns s !! host = Some j <->
    exists u, <[i := t']> (h_tasks s) !! j = Some u /\ c_host u = host /\ c_open u = true /\ c_replaced u = false.
Proof.
  intros Hs Ht Eh Eo Er host j. rewrite (hb_conns s Hs). destruct (decide (i = j)) as [<-|Hne].
  - rewrite lookup_insert_eq, Ht. split; intros (u & [= <-] & Hu); eexists; split; try done; by rewrite ?Eh, ?Eo, ?Er in *.
  - by rewrite lookup_insert_ne by done.
Qed.

(** Dropping entries nobody listens to. *)
Lemma shrink_ok i t t' m s : hub_ok s -> h_tasks s !! i = Some t -> c_host t' = c_host t ->
  c_queue t' `sublist_of` c_queue t -> c_pending t' ⊆ c_pending t ->
  (c_open t' = false -> c_queue t' = [] /\ c_pending t' = ∅) ->
  (forall k c, h_calls s !! k = Some c -> k_state c = Waiting -> k_conn c = i -> c_open t' = true
     /\ ((k, k_cmd c) ∈ c_queue t' \/ c_pending t' !! command_id (command (k_cmd c)) = Some k)) ->
  (forall host j, m !! host = Some j <->
    exists u, <[i := t']> (h_tasks s) !! j = Some u /\ c_host u = host /\ c_open u = true /\ c_replaced u = false) ->
  hub_ok (with_conns m (set_conn i t' s)).
Proof.
  intros Hs Ht Eh Hq Hp Hcl Hw Hm.
  assert (forall c, on_conn s c -> on_conn (with_conns m (set_conn i t' s)) c) as Hon.
  { intros c (u & Hu & Euh). unfold on_conn. cbn. destruct (decide (i = k_conn c)) as [->|Hne].
    - rewrite lookup_insert_eq. exists t'. split; [done|]. rewrite Hu in Ht. injection Ht as ->. by rewrite Eh.
    - rewrite lookup_insert_ne by done. by exists u. }
  split; try apply Hs; try exact Hm.
  - intros k c Hk. pose proof (hb_calls s Hs k c Hk) as Hc. unfold call_ok in *.
    destruct (k_state c) as [| |[r|e]] eqn:Est; [by apply Hon| |destruct Hc; split; [by apply Hon|done]|done].
    destruct Hc as (Hoc & u & Hu & Hou & Hin). split; [by apply Hon|]. cbn.
    destruct (decide (i = k_conn c)) as [Ei|Hne].
    + rewrite <- Ei, lookup_insert_eq. exists t'. split; [done|]. by apply Hw.
    + rewrite lookup_insert_ne by done. by exists u.
  - intros j u. cbn. intros [[<- <-]|[Hne Hu]]%lookup_insert_Some; [|by destruct (hb_tasks s Hs j u Hu)].
    destruct (hb_tasks s Hs i t Ht) as [Kq Kd Kp Kc Kn]. split; try done.
    + intros k cmd Hin. apply Kq. by eapply elem_of_sublist.
    + eapply sublist_NoDup; [exact Kd|]. clear -Hq. induction Hq; cbn; by constructor.
    + intros id k Hpk. apply Kp. by eapply lookup_weaken.
Qed.

(** ** Each step keeps the invariant *)

Lemma set_conn_resolve i t k r s : set_conn i t (resolve_call k r s) = resolve_call k r (set_conn i t s).
Proof. unfold resolve_call. change (listening (set_conn i t s) k) with (listening s k). by destruct (listening s k). Qed.

Lemma resolve_waiting k r s k' c : h_calls (resolve_call k r s) !! k' = Some c -> k_state c = Waiting ->
  h_calls s !! k' = Some c /\ k' <> k.
Proof.
  intros Hc Hst. assert (listening (resolve_call k r s) k' = true) as [Hl Hne]%resolve_listening
    by (apply listening_spec; by exists c).
  split; [|done]. revert Hc. unfold resolve_call. destruct (listening s k); [|done].
  rewrite set_call_lookup, decide_False by done. by rewrite option_fmap_id.
Qed.

Lemma drop_waiting l s k c : h_calls (drop_senders l s) !! k = Some c -> k_state c = Waiting ->
  h_calls s !! k = Some c /\ k ∉ l.
Proof.
  revert s. induction l as [|k' l IH]; intros s Hc Hst; [by split; [|apply not_elem_of_nil]|].
  destruct (IH _ Hc Hst) as [Hc' Hn]. apply resolve_waiting in Hc' as [Hc' Hne]; [|done].
  split; [done|]. by apply not_elem_of_cons.
Qed.

(** What the task of a waiting caller holds. *)
Lemma waiting_held s k c : hub_ok s -> h_calls s !! k = Some c -> k_state c = Waiting ->
  exists t, h_tasks s !! k_conn c = Some t /\ c_open t = true
    /\ ((k, k_cmd c) ∈ c_queue t \/ c_pending t !! command_id (command (k_cmd c)) = Some k).
Proof. intros Hs Hk Hst. pose proof (hb_calls s Hs k c Hk) as Hc. unfold call_ok in Hc. rewrite Hst in Hc. apply Hc. Qed.

Lemma end_task_ok i s s' : hub_ok s -> end_task i s = Some s' -> hub_ok s'.
Proof.
  intros Hs. unfold end_task. destruct (h_tasks s !! i) as [t|] eqn:Ht; cbn; [|done].
  destruct (c_open t) eqn:Eo; [|done]. intros [= <-].
  destruct (drop_same (held t) s) as (Et & Ec & En & El).
  set (d := drop_senders (held t) s) in *. pose proof (drop_senders_ok (held t) s Hs) as Hd. fold d in Hd.
  set (m := if bool_decide (h_conns d !! c_host t = Some i) then delete (c_host t) (h_conns d) else h_conns d).
  assert (unregister (c_host t) i (set_conn i (close_conn t) d) = with_conns m (set_conn i (close_conn t) d)) as ->.
  { unfold unregister, m. cbn. by destruct (bool_decide _). }
  apply (shrink_ok i t); try done; [by rewrite Et|apply sublist_nil_l|apply map_empty_subseteq| |].
  - intros k c Hk Hst Hi. destruct (drop_waiting _ _ _ _ Hk Hst) as [Hk' Hn].
    destruct (waiting_held s k c Hs Hk' Hst) as (u & Hu & _ & Hin). rewrite Hi, Ht in Hu. injection Hu as <-.
    destruct Hn. unfold held. apply elem_of_app. destruct Hin as [Hin|Hin].
    + left. apply list_elem_of_fmap. by exists (k, k_cmd c).
    + right. apply list_elem_of_fmap. exists (command_id (command (k_cmd c)), k). split; [done|].
      by apply elem_of_map_to_list.
  - intros host j. assert (m !! host = Some j <-> h_conns s !! host = Some j /\ j <> i) as ->.
    { unfold m. rewrite Ec. pose proof (hb_conns s Hs) as Hc. case_bool_decide as E.
      - destruct (decide (host = c_host t)) as [->|Hne].
        + rewrite lookup_delete_eq, E. split; [done|]. intros [[= <-] ?]. done.
        + rewrite lookup_delete_ne by done. split; [|tauto]. intros H. split; [done|]. intros ->.
          apply Hc in H as (u & Hu & Hh & _). rewrite Ht in Hu. injection Hu as <-. done.
      - split; [|tauto]. intros H. split; [done|]. intros ->. pose proof H as H'.
        apply Hc in H' as (u & Hu & Hh & _). rewrite Ht in Hu. injection Hu as <-. by rewrite Hh in E. }
    rewrite (hb_conns s Hs), Et. split.
    + intros [(u & Hu & Hrest) Hne]. exists u. by rewrite lookup_insert_ne.
    + intros (u & [[<- <-]|[Hne Hu]]%lookup_insert_Some & Hrest); [by destruct Hrest as (_ & ? & _)|].
      split; [by exists u|done].
Qed.

Lemma ping_ok i s s' : hub_ok s -> ping i s = Some s' -> hub_ok s'.
Proof.
  intros Hs. unfold ping. destruct (h_tasks s !! i) as [t|] eqn:Ht; cbn; [|done].
  destruct (c_open t) eqn:Eo; [|done]. intros [= <-].
  apply (shrink_ok i t _ (h_conns s)); try done; [apply map_filter_subseteq|by cbn; rewrite Eo| |by apply (conns_same_flags s i t)].
  intros k c Hk Hst Hi. destruct (waiting_held s k c Hs Hk Hst) as (u & Hu & _ & Hin).
  rewrite Hi, Ht in Hu. injection Hu as <-. split; [done|]. destruct Hin as [Hin|Hin]; [by left|right].
  cbn. apply map_lookup_filter_Some. split; [done|]. cbn. apply listening_spec. by exists c.
Qed.

(** The connection a newer one displaces. *)
Definition displaced (host : Uuid) (s : Hub) : gmap nat Conn :=
  match h_conns s !! host with Some old => alter replace_conn old (h_tasks s) | None => h_tasks s end.

Lemma displaced_ok host s : hub_ok s -> hub_ok (with_conns (delete host (h_conns s)) (with_tasks (displaced host s) s)).
Proof.
  intros Hs. unfold displaced. destruct (h_conns s !! host) as [old|] eqn:E.
  - pose proof E as (t & Ht & Hh & Ho & Hr)%(hb_conns s Hs).
    replace (alter replace_conn old (h_tasks s)) with (<[old := replace_conn t]> (h_tasks s)).
    2:{ apply map_eq. intros j. destruct (decide (old = j)) as [->|Hne].
        - by rewrite lookup_insert_eq, lookup_alter_eq, Ht.
        - by rewrite lookup_insert_ne, lookup_alter_ne. }
    apply (shrink_ok old t); try done; [by cbn; rewrite Ho| |].
    + intros k c Hk Hst Hi. destruct (waiting_held s k c Hs Hk Hst) as (u & Hu & Hou & Hin).
      rewrite Hi, Ht in Hu. by injection Hu as <-.
    + intros h j. destruct (decide (h = host)) as [->|Hne].
      * rewrite lookup_delete_eq. split; [done|].
        intros (u & [[<- <-]|[Hne Hu]]%lookup_insert_Some & Hh' & Ho' & Hr'); [done|].
        assert (h_conns s !! host = Some j) by (apply (hb_conns s Hs); by exists u). congruence.
      * rewrite lookup_delete_ne, (hb_conns s Hs) by done. split; intros (u & Hu & Hrest).
        -- exists u. rewrite lookup_insert_ne; [done|]. intros ->. rewrite Ht in Hu. injection Hu as <-.
           destruct Hrest as [<- _]. done.
        -- apply lookup_insert_Some in Hu as [[<- <-]|[Hne' Hu]]; [by destruct Hrest as (_ & _ & ?)|by exists u].
  - rewrite delete_id by done. by destruct s.
Qed.


Lemma register_ok host s : hub_ok s -> hub_ok (register host s).
Proof.
  intros Hs. unfold register. fold (displaced host s). set (tasks := displaced host s).
  pose proof (displaced_ok host s Hs) as H1. fold tasks in H1.
  revert H1. set (s1 := with_conns _ _). intros H1.
  assert (forall i u, tasks !! i = Some u -> i <> S (h_next s)) as Hfr.
  { intros i u Hu ->. pose proof (tk_known _ _ _ (hb_tasks s1 H1 _ u Hu)) as H. cbn in H. lia. }
  split; cbn; try apply H1.
  - intros k c Hk. pose proof (hb_calls s1 H1 k c Hk) as Hc.
    assert (on_conn s1 c -> exists u, <[S (h_next s) := Build_Conn host [] ∅ false true]> tasks !! k_conn c = Some u /\ c_host u = k_host c) as Hon.
    { intros (u & Hu & Eu). exists u. split; [|done]. rewrite lookup_insert_ne; [done|]. intros E. by eapply (Hfr _ _ Hu). }
    unfold call_ok in *. destruct (k_state c) as [| |[r|e]]; [by apply Hon| |destruct Hc; split; [by apply Hon|done]|done].
    destruct Hc as (Hoc & u & Hu & Hrest). split; [by apply Hon|]. exists u. split; [|done]. cbn.
    rewrite lookup_insert_ne; [done|]. intros E. by eapply (Hfr _ _ Hu).
  - intros i u [[<- <-]|[Hne Hu]]%lookup_insert_Some.
    + split; cbn; [intros k cmd []%not_elem_of_nil|constructor| |done|lia].
      intros id k H. by rewrite lookup_empty in H.
    + destruct (hb_tasks s1 H1 i u Hu) as [Kq Kd Kp Kc Kn]. split; try done. cbn in *. lia.
  - intros h j. destruct (decide (h = host)) as [->|Hne].
    + rewrite lookup_insert_eq. split.
      * intros [= <-]. exists (Build_Conn host [] ∅ false true). by rewrite lookup_insert_eq.
      * intros (u & [[<- _]|[_ Hu]]%lookup_insert_Some & Hrest); [done|].
        assert (h_conns s1 !! host = Some j) as Hd by (apply (hb_conns s1 H1); by exists u).
        cbn in Hd. by rewrite lookup_delete_eq in Hd.
    + rewrite lookup_insert_ne by done. transitivity (h_conns s1 !! h = Some j).
      * cbn. by rewrite lookup_delete_ne.
      * rewrite (hb_conns s1 H1). split; intros (u & Hu & Hrest).
        -- exists u. rewrite lookup_insert_ne; [done|]. intros E. by eapply (Hfr _ _ Hu).
        -- apply lookup_insert_Some in Hu as [[_ <-]|[_ Hu]]; [by destruct Hrest as [<- _]|by exists u].
Qed.

Lemma start_send_ok k host cmd s : hub_ok s -> h_calls s !! k = None -> hub_ok (start_send k host cmd s).
Proof.
  intros Hs Hk. unfold start_send. set (c := match h_conns s !! host with Some _ => _ | None => _ end).
  assert (forall i k' cmd', started s i k' cmd' -> started (with_calls (<[k := c]> (h_calls s)) s) i k' cmd') as Hst.
  { intros i k' cmd' (c' & Hc' & Hrest). exists c'. split; [|done]. cbn. rewrite lookup_insert_ne; congruence. }
  split; try apply Hs.
  - intros k' c'. cbn. intros [[<- <-]|[Hne Hc']]%lookup_insert_Some; [|exact (hb_calls s Hs k' c' Hc')].
    unfold c. destruct (h_conns s !! host) as [i|] eqn:E; cbn; [|done].
    apply (hb_conns s Hs) in E as (t & Ht & Hh & _). by exists t.
  - intros i t Ht. destruct (hb_tasks s Hs i t Ht) as [Kq Kd Kp Kc Kn]. split; try done.
    + intros k' cmd' Hin. destruct (Kq k' cmd' Hin). split; [by apply Hst|done].
    + intros id k' Hp. destruct (Kp id k' Hp) as (cmd' & ? & ? & ?). exists cmd'. split; [done|]. split; [by apply Hst|done].
  - intros k' Hw. destruct (hb_started s Hs k' Hw) as (i & cmd' & ?). exists i, cmd'. by apply Hst.
  - intros i id r k' Hin. destruct (hb_answered s Hs i id r k' Hin) as (c' & Hc' & Hd). exists c'.
    split; [|done]. cbn. rewrite lookup_insert_ne; congruence.
Qed.

Lemma timeout_ok k s s' : hub_ok s -> call_timeout k s = Some s' -> hub_ok s'.
Proof.
  intros Hs. unfold call_timeout. destruct (h_calls s !! k) as [c|] eqn:Hk; cbn; [|done].
  destruct (k_state c) eqn:Est; intros [= <-]; apply (set_call_ok k c); try done; congruence.
Qed.

(** What a call needs from the tasks and the log survives a longer log. *)
Lemma answered_by_app log es k c r : answered_by log k c r -> answered_by (log ++ es) k c r.
Proof.
  intros (pre & mid & post & ->). exists pre, mid, (post ++ es). by rewrite <- !app_assoc, <- !app_comm_cons, <- app_assoc.
Qed.

Lemma call_ok_recorded e s k c : call_ok s k c -> call_ok (recorded e s) k c.
Proof.
  unfold call_ok. destruct (k_state c) as [| |[r|err]]; try done.
  intros [Hon Ha]. split; [done|]. by apply answered_by_app.
Qed.

Lemma in_recorded e s x : x ∈ h_log (recorded e s) <-> x ∈ h_log s \/ x = e.
Proof. cbn. rewrite elem_of_app. by rewrite list_elem_of_singleton. Qed.

Lemma written_recorded e s k : written (recorded e s) k <-> written s k \/ writer e = Some k.
Proof.
  unfold written. split.
  - intros (i & cmd & [Hin|<-]%in_recorded); [left; by exists i, cmd|by right].
  - intros [(i & cmd & Hin)|He].
    + exists i, cmd. apply in_recorded. by left.
    + destruct e; [|done]. injection He as ->. exists conn, cmd. apply in_recorded. by right.
Qed.

Lemma omap_snoc {A B} (f : A -> option B) l x b : NoDup (omap f l) ->
  (f x = Some b -> b ∉ omap f l) -> (f x = None \/ f x = Some b) -> NoDup (omap f (l ++ [x])).
Proof.
  intros Hl Hb. rewrite omap_app. cbn. intros [->| E]; [by rewrite app_nil_r|].
  rewrite E. apply NoDup_app. split; [done|]. split; [|apply NoDup_singleton].
  intros y Hy ->%list_elem_of_singleton. by apply (Hb E).
Qed.

(** A result nobody waits for. *)
Lemma unknown_result_ok i id r s : hub_ok s -> hub_ok (recorded (EResult i id r None) s).
Proof.
  intros Hs. split; try apply Hs.
  - intros k c Hk. apply call_ok_recorded. by apply (hb_calls s Hs).
  - intros j t Ht. destruct (hb_tasks s Hs j t Ht) as [Kq Kd Kp Kc Kn]. split; try done.
    + intros k cmd Hin. destruct (Kq k cmd Hin) as [? Hw]. split; [done|]. by intros [?|?]%written_recorded.
    + intros id' k Hp. destruct (Kp id' k Hp) as (cmd & ? & ? & ?). exists cmd. split; [done|]. split; [done|].
      apply in_recorded. by left.
  - cbn. rewrite omap_app. cbn. rewrite app_nil_r. apply (hb_writers s Hs).
  - cbn. rewrite omap_app. cbn. rewrite app_nil_r. apply (hb_answers s Hs).
  - intros k [Hw|?]%written_recorded; [|done]. destruct (hb_started s Hs k Hw) as (j & cmd & Hst). by exists j, cmd.
  - intros j id' r' k [Hin|?]%in_recorded; [|done]. by apply (hb_answered s Hs j id' r' k).
Qed.

(** The caller of a written command gets its result. *)
Lemma answer_ok k c r s : hub_ok s -> h_calls s !! k = Some c -> k_state c = Waiting ->
  EWritten (k_conn c) k (k_cmd c) ∈ h_log s ->
  hub_ok (recorded (EResult (k_conn c) (command_id (command (k_cmd c))) r (Some k)) (set_call k (Done (inl r)) s)).
Proof.
  intros Hs Hk Hst Hw. set (e := EResult _ _ _ _).
  assert (forall j k' cmd, started s j k' cmd -> started (recorded e (set_call k (Done (inl r)) s)) j k' cmd) as Hsd.
  { intros j k' cmd H. by apply (started_set_call k (Done (inl r))) in H. }
  split.
  - intros k' c' Hc'.
    change (h_calls (set_call k (Done (inl r)) s) !! k' = Some c') in Hc'. rewrite set_call_lookup in Hc'.
    destruct (decide (k = k')) as [<-|Hne].
    + rewrite Hk in Hc'. injection Hc' as <-. unfold call_ok. cbn. split.
      * pose proof (hb_calls s Hs k c Hk) as H. unfold call_ok in H. rewrite Hst in H. apply H.
      * apply list_elem_of_split in Hw as (pre & post & E). exists pre, post, []. cbn. rewrite E.
        by rewrite <- app_assoc.
    + rewrite option_fmap_id in Hc'. apply (call_ok_recorded e (set_call k (Done (inl r)) s)).
      exact (hb_calls s Hs k' c' Hc').
  - intros j t Ht. destruct (hb_tasks s Hs j t Ht) as [Kq Kd Kp Kc Kn]. split; try done.
    + intros k' cmd Hin. destruct (Kq k' cmd Hin) as [? Hnw]. split; [by apply Hsd|]. by intros [?|?]%written_recorded.
    + intros id' k' Hp. destruct (Kp id' k' Hp) as (cmd & ? & ? & ?). exists cmd. split; [done|]. split; [by apply Hsd|].
      apply in_recorded. by left.
  - apply (hb_conns s Hs).
  - cbn. rewrite omap_app. cbn. rewrite app_nil_r. apply (hb_writers s Hs).
  - apply (omap_snoc answered (h_log s) e k (hb_answers s Hs)); [|by right].
    intros _ (x & Hx & Ex)%list_elem_of_omap. destruct x; cbn in Ex; [done|]. subst call.
    apply (hb_answered s Hs) in Hx as (c' & Hc' & Hd). congruence.
  - intros k' [Hw'|?]%written_recorded; [|done]. destruct (hb_started s Hs k' Hw') as (j & cmd & ?). exists j, cmd. by apply Hsd.
  - intros j id' r' k' [Hin|E]%in_recorded.
    + destruct (hb_answered s Hs j id' r' k' Hin) as (c' & Hc' & Hd). exists c'. split; [|done].
      change (h_calls (set_call k (Done (inl r)) s) !! k' = Some c'). rewrite set_call_lookup, decide_False, option_fmap_id; [done|].
      intros ->. congruence.
    + injection E as -> -> -> ->. exists (with_state (Done (inl r)) c). split; [|done].
      change (h_calls (set_call k (Done (inl r)) s) !! k = Some (with_state (Done (inl r)) c)).
      by rewrite set_call_lookup, decide_True, Hk.
Qed.

Lemma take_result_ok i id r s s' : hub_ok s -> take_result i id r s = Some s' -> hub_ok s'.
Proof.
  intros Hs. unfold take_result. destruct (h_tasks s !! i) as [t|] eqn:Ht; cbn; [|done].
  destruct (c_open t) eqn:Eo; [|done]. destruct (c_pending t !! id) as [k|] eqn:Ep; intros [= <-].
  2:{ by apply unknown_result_ok. }
  destruct (tk_pending _ _ _ (hb_tasks s Hs i t Ht) id k Ep) as (cmd & Hid & (c & Hc & Ec & Ei & Hns) & Hw).
  set (t' := with_pending (delete id (c_pending t)) t).
  assert (forall s1, hub_ok s1 -> h_tasks s1 = h_tasks s -> listening s1 k = false -> hub_ok (set_conn i t' s1)) as Hshrink.
  { intros s1 H1 Et Hl. rewrite <- Et in Ht.
    apply (shrink_ok i t _ (h_conns s1)); try done; [apply delete_subseteq|by cbn; rewrite Eo| |by apply (conns_same_flags s1 i t)].
    intros k' c' Hk' Hst' Hi'. destruct (waiting_held s1 k' c' H1 Hk' Hst') as (u & Hu & _ & Hin).
    rewrite Hi', Ht in Hu. injection Hu as <-. split; [done|]. destruct Hin as [Hin|Hin]; [by left|right]. cbn.
    rewrite lookup_delete_ne; [done|]. intros E. rewrite <- E, Ep in Hin. injection Hin as <-.
    assert (listening s1 k = true) by (apply listening_spec; by exists c'). congruence. }
  unfold resolve_call. change (listening (set_conn i t' s) k) with (listening s k).
  destruct (listening s k) eqn:El.
  - apply listening_spec in El as (c' & Hc' & Hst). rewrite Hc in Hc'. injection Hc' as <-.
    change (hub_ok (set_conn i t' (recorded (EResult i id r (Some k)) (set_call k (Done (inl r)) s)))).
    subst. apply Hshrink; [by apply answer_ok|done|].
    change (listening (set_call k (Done (inl r)) s) k = false). unfold listening. by rewrite set_call_lookup, decide_True, Hc.
  - change (hub_ok (set_conn i t' (recorded (EResult i id r None) s))). apply Hshrink; [by apply unknown_result_ok|done|done].
Qed.

(** The task changes, and the log with it, so that every waiting caller is still held. *)
Lemma call_ok_set_conn i t t' s k c : h_tasks s !! i = Some t -> c_host t' = c_host t -> call_ok s k c ->
  (k_state c = Waiting -> k_conn c = i -> c_open t' = true
     /\ ((k, k_cmd c) ∈ c_queue t' \/ c_pending t' !! command_id (command (k_cmd c)) = Some k)) ->
  call_ok (set_conn i t' s) k c.
Proof.
  intros Ht Eh Hc Hw.
  assert (on_conn s c -> on_conn (set_conn i t' s) c) as Hon.
  { intros (u & Hu & Euh). unfold on_conn. cbn. destruct (decide (i = k_conn c)) as [->|Hne].
    - rewrite lookup_insert_eq. exists t'. split; [done|]. rewrite Hu in Ht. injection Ht as ->. by rewrite Eh.
    - rewrite lookup_insert_ne by done. by exists u. }
  unfold call_ok in *. destruct (k_state c) as [| |[r|e]]; [by apply Hon| |destruct Hc; split; [by apply Hon|done]|done].
  destruct Hc as (Hoc & u & Hu & Hou & Hin). split; [by apply Hon|]. cbn.
  destruct (decide (i = k_conn c)) as [Ei|Hne].
  - rewrite <- Ei, lookup_insert_eq. exists t'. split; [done|]. by apply Hw.
  - rewrite lookup_insert_ne by done. by exists u.
Qed.

(** The head of the queue is written. *)
Lemma write_ok i t k cmd q s : hub_ok s -> h_tasks s !! i = Some t -> c_open t = true -> c_queue t = (k, cmd) :: q ->
  (forall k', c_pending t !! command_id (command cmd) = Some k' -> listening s k' = false) ->
  hub_ok (recorded (EWritten i k cmd)
    (set_conn i (with_pending (<[command_id (command cmd) := k]> (c_pending t)) (with_queue q t)) s)).
Proof.
  intros Hs Ht Eo Eq Hpend. set (t' := with_pending _ _). set (e := EWritten i k cmd).
  destruct (hb_tasks s Hs i t Ht) as [Kq Kd Kp Kc Kn]. rewrite Eq in Kq, Kd. cbn in Kd. apply NoDup_cons in Kd as [Kh Kd].
  destruct (Kq k cmd) as [Hsk Hnw]; [apply list_elem_of_here|].
  split.
  - intros k' c Hk'. apply call_ok_recorded. apply (call_ok_set_conn i t); [done|done|by apply (hb_calls s Hs)|].
    intros Hst Hi. destruct (waiting_held s k' c Hs Hk' Hst) as (u & Hu & _ & Hin).
    rewrite Hi, Ht in Hu. injection Hu as <-. split; [done|]. cbn. rewrite Eq in Hin. destruct Hin as [Hin|Hin].
    + apply elem_of_cons in Hin as [[= -> ->]|Hin]; [right; by rewrite lookup_insert_eq|by left].
    + right. rewrite lookup_insert_ne; [done|]. intros E. rewrite <- E in Hin.
      assert (listening s k' = true) by (apply listening_spec; by exists c). rewrite (Hpend k' Hin) in H. done.
  - intros j u. cbn. intros [[<- <-]|[Hne Hu]]%lookup_insert_Some.
    + split; cbn.
      * intros k' cmd' Hin. destruct (Kq k' cmd') as [Hs' Hw']; [by apply list_elem_of_further|]. split; [done|].
        intros [?|[= ->]]%written_recorded; [done|]. apply Kh. apply list_elem_of_fmap. by exists (k', cmd').
      * done.
      * intros id' k' [[<- <-]|[_ Hp]]%lookup_insert_Some.
        -- exists cmd. split; [done|]. split; [done|]. apply in_recorded. by right.
        -- destruct (Kp id' k' Hp) as (cmd' & ? & ? & ?). exists cmd'. split; [done|]. split; [done|]. apply in_recorded. by left.
      * by rewrite Eo.
      * done.
    + destruct (hb_tasks s Hs j u Hu) as [Jq Jd Jp Jc Jn]. split; try done.
      * intros k' cmd' Hin. destruct (Jq k' cmd' Hin) as [Hs' Hw']. split; [done|].
        intros [?|[= ->]]%written_recorded; [done|].
        destruct Hs' as (c1 & Hc1 & _ & Hi1 & _), Hsk as (c2 & Hc2 & _ & Hi2 & _). congruence.
      * intros id' k' Hp. destruct (Jp id' k' Hp) as (cmd' & ? & ? & ?). exists cmd'. split; [done|]. split; [done|].
        apply in_recorded. by left.
  - by apply (conns_same_flags s i t).
  - apply (omap_snoc writer (h_log s) e k (hb_writers s Hs)); [|by right].
    intros _ (x & Hx & Ex)%list_elem_of_omap. destruct x; [|done]. injection Ex as ->. apply Hnw. by exists conn, cmd0.
  - cbn. rewrite omap_app. cbn. rewrite app_nil_r. apply (hb_answers s Hs).
  - intros k' [Hw|[= <-]]%written_recorded; [exact (hb_started s Hs k' Hw)|by exists i, cmd].
  - intros j id' r k' [Hin|?]%in_recorded; [|done]. by apply (hb_answered s Hs j id' r k').
Qed.

Lemma take_command_ok i s s' : hub_ok s -> take_command i s = Some s' -> hub_ok s'.
Proof.
  intros Hs. unfold take_command. destruct (h_tasks s !! i) as [t|] eqn:Ht; cbn; [|done].
  destruct (c_queue t) as [|[k cmd] q] eqn:Eq; [done|].
  destruct (c_open t) eqn:Eo; [|done]. destruct (c_replaced t); [done|]. cbn.
  destruct (c_pending t !! command_id (command cmd)) as [k'|] eqn:Ep; [destruct (listening s k') eqn:El|].
  2-3: intros [= <-]; apply (write_ok i t k cmd q s Hs Ht Eo Eq); intros ?; rewrite Ep; by intros [= <-].
  intros [= <-]. rewrite <- set_conn_resolve. pose proof (resolve_failed_ok k SDuplicate s Hs) as H1.
  assert (h_tasks (resolve_call k (inr SDuplicate) s) !! i = Some t) as Ht1 by by rewrite (proj1 (resolve_same _ _ _)).
  apply (shrink_ok i t _ (h_conns (resolve_call k (inr SDuplicate) s))); try done.
  - cbn. rewrite Eq. by constructor.
  - cbn. by rewrite Eo.
  - intros k1 c Hk1 Hst Hi. apply resolve_waiting in Hk1 as [Hk1 Hne]; [|done].
    destruct (waiting_held s k1 c Hs Hk1 Hst) as (u & Hu & _ & Hin). rewrite Hi, Ht in Hu. injection Hu as <-.
    split; [done|]. rewrite Eq in Hin. destruct Hin as [Hin|Hin]; [left|by right].
    apply elem_of_cons in Hin as [[= -> _]|Hin]; done.
  - by apply (conns_same_flags _ i t).
Qed.

Lemma enqueue_ok k s s' : hub_ok s -> enqueue k s = Some s' -> hub_ok s'.
Proof.
  intros Hs. unfold enqueue. destruct (h_calls s !! k) as [c|] eqn:Hk; cbn; [|done].
  destruct (k_state c) eqn:Est; [|done|done]. destruct (h_tasks s !! k_conn c) as [t|] eqn:Ht; [|done].
  destruct (c_open t) eqn:Eo; cbn.
  2:{ intros [= <-]. apply (set_call_ok k c); try done; congruence. }
  case_match; [|done]. intros [= <-]. set (t' := with_queue (c_queue t ++ [(k, k_cmd c)]) t).
  assert (forall j k' cmd, started s j k' cmd -> k' <> k) as Hnk.
  { intros j k' cmd (c' & Hc' & _ & _ & Hns) ->. congruence. }
  assert (forall j k' cmd, started s j k' cmd -> started (set_call k Waiting (set_conn (k_conn c) t' s)) j k' cmd) as Hsd.
  { intros j k' cmd Hst. by apply (started_set_call k Waiting) in Hst. }
  split; try apply Hs.
  - intros k' c'. rewrite set_call_lookup. cbn [set_conn with_tasks h_calls]. destruct (decide (k = k')) as [<-|Hne].
    + rewrite Hk. intros [= <-]. pose proof (hb_calls s Hs k c Hk) as Hc. unfold call_ok in Hc. rewrite Est in Hc.
      unfold call_ok. cbn. destruct Hc as (u & Hu & Eh). rewrite Ht in Hu. injection Hu as <-. split.
      * exists t'. cbn. by rewrite lookup_insert_eq.
      * exists t'. cbn. rewrite lookup_insert_eq. split; [done|]. split; [done|]. left. apply elem_of_app. right.
        by apply list_elem_of_singleton.
    + rewrite option_fmap_id. intros Hc'.
      apply (call_ok_set_conn (k_conn c) t t' s k' c' Ht); [done|by apply (hb_calls s Hs)|]. intros Hst Hi.
      destruct (waiting_held s k' c' Hs Hc' Hst) as (u & Hu & _ & Hin). rewrite Hi, Ht in Hu. injection Hu as <-.
      split; [done|]. destruct Hin; [left|by right]. cbn. apply elem_of_app. by left.
  - intros j u. cbn. intros [[<- <-]|[Hne Hu]]%lookup_insert_Some.
    + destruct (hb_tasks s Hs _ t Ht) as [Kq Kd Kp Kc Kn]. split; cbn; try done.
      * intros k' cmd [Hin|[= -> ->]%list_elem_of_singleton]%elem_of_app.
        -- destruct (Kq k' cmd Hin). split; [by apply Hsd|done].
        -- split; [by exists (with_state Waiting c); rewrite set_call_lookup, decide_True by done; cbn; rewrite Hk|].
           intros (j & cmd & Hst)%(hb_started s Hs). by apply Hnk in Hst.
      * rewrite map_app. apply NoDup_app. split; [done|]. split; [|apply NoDup_singleton].
        intros k' ([k1 cmd] & E & Hin)%list_elem_of_fmap Ek%list_elem_of_singleton. cbn in E. subst k' k1.
        destruct (Kq k cmd Hin) as [Hst _]. by apply Hnk in Hst.
      * intros id k' Hp. destruct (Kp id k' Hp) as (cmd & ? & ? & ?). exists cmd. split; [done|]. split; [by apply Hsd|done].
      * by rewrite Eo.
    + destruct (hb_tasks s Hs j u Hu) as [Kq Kd Kp Kc Kn]. split; try done.
      * intros k' cmd Hin. destruct (Kq k' cmd Hin). split; [by apply Hsd|done].
      * intros id k' Hp. destruct (Kp id k' Hp) as (cmd & ? & ? & ?). exists cmd. split; [done|]. split; [by apply Hsd|done].
  - by apply (conns_same_flags s (k_conn c) t).
  - intros k' Hw. destruct (hb_started s Hs k' Hw) as (j & cmd & ?). exists j, cmd. by apply Hsd.
  - intros j id r k' Hin. destruct (hb_answered s Hs j id r k' Hin) as (c' & Hc' & Hd). exists c'. split; [|done].
    rewrite set_call_lookup, decide_False, option_fmap_id; [done|]. intros ->. congruence.
Qed.

(** ** Every reachable state *)

Lemma hub_step_ok s s' : hub_ok s -> hub_step s s' -> hub_ok s'.
Proof.
  intros Hs Hst. revert Hs.
  destruct Hst as [host s|k host cmd s Hk|k s s1 H|k s s1 H|i s s1 H|i id r s s1 H|i s s1 H|i s s1 H]; intros Hs.
  - by apply register_ok.
  - by apply start_send_ok.
  - by eapply enqueue_ok.
  - by eapply timeout_ok.
  - by eapply take_command_ok.
  - by eapply take_result_ok.
  - by eapply ping_ok.
  - by eapply end_task_ok.
Qed.

Lemma hub_reach_ok s : rtc hub_step hub_start s -> hub_ok s.
Proof. intros H. eapply (rtc_ind_r (fun s => hub_ok s)); [apply hub_start_ok| |exact H]. intros. by eapply hub_step_ok. Qed.

(** No caller waits on a task that ended. *)
Lemma end_task_releases i s s' : rtc hub_step hub_start s -> end_task i s = Some s' ->
  forall k c, h_calls s' !! k = Some c -> k_conn c = i -> k_state c <> Waiting.
Proof.
  intros Hr He k c Hk Hi Hst. pose proof (end_task_ok i s s' (hub_reach_ok s Hr) He) as Hs'.
  destruct (waiting_held s' k c Hs' Hk Hst) as (t & Ht & Ho & _). rewrite Hi in Ht. revert He Ht.
  unfold end_task. destruct (h_tasks s !! i) as [u|]; cbn; [|done]. destruct (c_open u); [|done].
  intros [= <-]. unfold unregister. destruct (bool_decide _); cbn; rewrite lookup_insert_eq; by intros [= <-].
Qed.

(** C4. In every state the control hub can reach, whatever the order of registrations, calls,
    timeouts, task ends, replacements and agents' frames: a call that returned a result got it
    from a connection of the host it named, in a result frame with its command's id that came
    after its command had been written there; a call that waits is held by a task that is still
    running, in its queue or among its pending senders; no call's command is written twice and
    no two result frames answer one call. *)
Theorem results_reach_their_caller s k c : rtc hub_step hub_start s -> h_calls s !! k = Some c ->
  (forall r, k_state c = Done (inl r) -> on_conn s c /\ answered_by (h_log s) k c r)
  /\ (k_state c = Waiting -> exists t, h_tasks s !! k_conn c = Some t /\ c_open t = true /\ k ∈ held t)
  /\ NoDup (omap writer (h_log s)) /\ NoDup (omap answered (h_log s)).
Proof.
  intros Hr Hk. pose proof (hub_reach_ok s Hr) as Hs. split; [|split; [|split; apply Hs]].
  - intros r Hst. pose proof (hb_calls s Hs k c Hk) as Hc. unfold call_ok in Hc. by rewrite Hst in Hc.
  - intros Hst. destruct (waiting_held s k c Hs Hk Hst) as (t & Ht & Ho & Hin). exists t. split; [done|]. split; [done|].
    unfold held. apply elem_of_app. destruct Hin as [Hin|Hin]; [left|right]; apply list_elem_of_fmap.
    + by exists (k, k_cmd c).
    + exists (command_id (command (k_cmd c)), k). split; [done|]. by apply elem_of_map_to_list.
Qed.

(** ** The dispatcher *)

(** Upper bound of a command's validity window: [Guard.MAX_TTL_MS], and the slack added to
    the timeout. *)
Definition TTL_SLACK_MS : Z := 5000.

Definition map_send_error (e : SendError) : DispatchError :=
  match e with
  | SOffline => DispatchOffline
  | STimedOut => DispatchTimedOut
  | SDisconnected | SDuplicate => DispatchFailed (send_error_text e)
  end.

Section Dispatcher.
Context `{Ed25519}.

Record HubDispatcher := { hd_key : SigningKey; hd_timeout_ms : Z }.

(** Release arithmetic on [u64] wraps. *)
Definition wrap64 (n : Z) : Z := n mod 2 ^ 64.

Definition ttl_of (d : HubDispatcher) : Z :=
  Z.min (wrap64 (wrap64 (hd_timeout_ms d) + TTL_SLACK_MS)) Guard.MAX_TTL_MS.

(** [id] and [nonce] are the random values. *)
Definition build_command (d : HubDispatcher) (id : Uuid) (nonce : list byte) (now_ms : Z) (host : Uuid)
    (act : CommandAction) (dry : bool) (actor reason : string) : Command :=
  {| command_id := id; cmd_host_id := host; action := act; dry_run := dry; issued_at_ms := now_ms;
     expires_at_ms := wrap64 (now_ms + ttl_of d); nonce := nonce; actor := actor; reason := reason |}.

(** [None] is a clock before the epoch. *)
Definition build (d : HubDispatcher) (id : Uuid) (nonce : list byte) (now : option Z) (host : Uuid)
    (act : CommandAction) (dry : bool) (actor reason : string) : outcome DispatchError SignedCommand :=
  let? now_ms := ok_or now (DispatchFailed "system clock before unix epoch") in
  lift (sign (build_command d id nonce (wrap64 now_ms) host act dry actor reason) (hd_key d)).

(** [dispatch] up to its wait, as call [k] of the hub; what it returns. *)
Definition dispatch_start (k : nat) (host : Uuid) (built : outcome DispatchError SignedCommand) (s : Hub) : Hub :=
  match built with Ok sc => start_send k host sc s | _ => s end.

Definition dispatch_reply (built : outcome DispatchError SignedCommand) (reply : CommandResult + SendError)
  : outcome DispatchError CommandResult :=
  let? _ := built in match reply with inl r => Ok r | inr e => Err (map_send_error e) end.

Lemma sign_verifies c k sc : sign c k = Ok sc -> command sc = c /\ verify sc (verifying_key k) = Ok tt.
Proof.
  intros (b & Hb & [= <-])%obind_ok. split; [done|]. unfold verify. cbn [command signature].
  rewrite sig_from_to. cbn [ok_or obind]. rewrite (proj2 (lift_ok _ b) Hb). cbn [obind]. by rewrite verify_signed.
Qed.

Lemma ttl_bound d : 0 <= ttl_of d <= Guard.MAX_TTL_MS.
Proof. unfold ttl_of, wrap64, Guard.MAX_TTL_MS. pose proof (Z.mod_pos_bound (hd_timeout_ms d mod 2 ^ 64 + TTL_SLACK_MS) (2 ^ 64)). lia. Qed.

(** C3. The server and the agent's guard agree on the window: a command the dispatcher built and
    signed passes the checks of a guard that holds the dispatcher's key exactly when the guard is
    of the addressed host and its clock is neither more than the skew behind the dispatcher's
    nor at or past the time-to-live, which is the wait timeout plus the slack and never more
    than the guard accepts. *)
Theorem dispatched_commands_admissible d id nonce now host act dry actor reason sc (g : Guard) t :
  build d id nonce (Some now) host act dry actor reason = Ok sc ->
  g_key g = verifying_key (hd_key d) -> 0 <= now < 2 ^ 64 - Guard.MAX_TTL_MS -> fits 64 t = true ->
  precheck g sc t = Ok tt <-> host = g_host_id g /\ now <= t + SKEW_MS /\ t < now + ttl_of d.
Proof.
  unfold build. cbn [ok_or obind]. intros Hb%lift_ok Hkey Hnow Ht. apply sign_verifies in Hb as [Ec Hv].
  pose proof (ttl_bound d) as Hb. rewrite precheck_ok, Hkey, Ec. cbn.
  assert (wrap64 now = now) as -> by (unfold wrap64, Guard.MAX_TTL_MS in *; apply Z.mod_small; lia).
  assert (wrap64 (now + ttl_of d) = now + ttl_of d) as ->
    by (unfold wrap64, Guard.MAX_TTL_MS in *; apply Z.mod_small; lia).
  unfold sat_sub, sat_add64, u64_max, fits, SKEW_MS in *. split.
  - intros (_ & Hh & _ & Hi & Hx). split; [done|]. lia.
  - intros (Hh & Hi & Hx). split; [done|]. split; [done|]. split; [lia|]. split; [|lia].
    apply Z.min_glb; [done|]. unfold Guard.MAX_TTL_MS in *. lia.
Qed.

End Dispatcher.

(** ** Witnesses *)

Inductive hub_act :=
| ARegister (host : Uuid) | ASend (k : nat) (host : Uuid) (cmd : SignedCommand) | AEnqueue (k : nat)
| ATake (i : nat) | AResult (i : nat) (id : Uuid) (r : CommandResult) | AEnd (i : nat).

Definition hub_do (a : hub_act) (s : Hub) : option Hub :=
  match a with
  | ARegister host => Some (register host s)
  | ASend k host cmd => if h_calls s !! k then None else Some (start_send k host cmd s)
  | AEnqueue k => enqueue k s
  | ATake i => take_command i s
  | AResult i id r => take_result i id r s
  | AEnd i => end_task i s
  end.

Lemma hub_do_step a s s' : hub_do a s = Some s' -> hub_step s s'.
Proof.
  destruct a; cbn; [intros [= <-]; constructor| |by apply h_enqueue|by apply h_take|by apply h_result|by apply h_end].
  destruct (h_calls s !! k) eqn:E; [done|]. intros [= <-]. by constructor.
Qed.

Fixpoint hub_run (l : list hub_act) (s : Hub) : option Hub :=
  match l with [] => Some s | a :: l => s ← hub_do a s; hub_run l s end.

Lemma hub_run_steps l s s' : hub_run l s = Some s' -> rtc hub_step s s'.
Proof.
  revert s. induction l as [|a l IH]; intros s; cbn; [by intros [= <-]|].
  destruct (hub_do a s) as [s1|] eqn:E; [|done]. intros H. eapply rtc_l; [by eapply hub_do_step|by apply IH].
Qed.

(** A host connects, is sent a command, answers, is sent another and is lost before its answer. *)
Definition hub_trace : list hub_act :=
  [ARegister 2; ASend 0 2 example_signed; AEnqueue 0; ATake 1; AResult 1 (command_id example_command) (Refused RBusy);
   ASend 1 2 example_signed; AEnqueue 1; ATake 1; AEnd 1].

Definition hub_end : Hub := default hub_start (hub_run hub_trace hub_start).

Lemma hub_trace_reached : rtc hub_step hub_start hub_end.
Proof.
  apply (hub_run_steps hub_trace). unfold hub_end. destruct (hub_run hub_trace hub_start) eqn:E; [done|].
  by vm_compute in E.
Qed.

(** The first call got its answer, the second learned of the loss. *)
Lemma hub_trace_states : (k_state <$> h_calls hub_end !! 0%nat) = Some (Done (inl (Refused RBusy)))
  /\ (k_state <$> h_calls hub_end !! 1%nat) = Some (Done (inr SDisconnected)) /\ connected hub_end 2 = false.
Proof. by vm_compute. Qed.

Lemma results_reach_their_caller_witness :
  answered_by (h_log hub_end) 0 (Build_Call 2 example_signed 1 (Done (inl (Refused RBusy)))) (Refused RBusy).
Proof. by apply (results_reach_their_caller hub_end 0 _ hub_trace_reached). Defined.

(** Built at 1000 with a timeout of 30 s: good from 60 s before to 35 s after. *)
Lemma dispatched_commands_admissible_witness :
  exists sc, @build toy_ed25519 (@Build_HubDispatcher toy_ed25519 9 30000) 7 (repeat Byte.x01 16) (Some 1000000) 2
    (RestoreFile 3) false "alice" "" = Ok sc
  /\ @precheck toy_ed25519 example_guard sc 1034999 = Ok tt.
Proof.
  eexists. split; [vm_compute; reflexivity|].
  eapply (@dispatched_commands_admissible toy_ed25519 (@Build_HubDispatcher toy_ed25519 9 30000) 7 (repeat Byte.x01 16)
            1000000 2 (RestoreFile 3) false "alice" "" _ example_guard 1034999); vm_compute; try done; try reflexivity.
Defined.
