(* ===== verification/SendTable.v ===== *)
(** * The kernel send table: [crates/osiris-sensors/dns/src/send_table.rs]

    The table joins captured query packets with the kernel's records of UDP sends.
    Packet and record race: a packet that arrives first claims its place, and packets
    seen later must not take the record it waits for.  The code keeps that promise with
    a vector of reserved slots; the specification is the greedy matching of claims to
    entries in rank order ([match_claims]). *)

From S2P Require Import Prelude BTree RawEvent DnsWire DnsTracker.

Definition LOOKBACK_NS : Z := 2000000000.
Definition SLACK_NS : Z := 5000000.
Definition TTL_NS : Z := 10000000000.
Definition QUEUE_MAX : Z := 8.
Definition CAPACITY : Z := 16384.

(** ** Addresses *)

(** [IpAddr::to_canonical]: an IPv4-mapped IPv6 address becomes the IPv4 address. *)
Definition mapped_prefix : list byte := repeat Byte.x00 10 ++ [Byte.xff; Byte.xff].

Definition to_canonical (a : IpAddr) : IpAddr :=
  match a with
  | V4 _ => a
  | V6 l => if bool_decide (take 12 l = mapped_prefix) then V4 (drop 12 l) else a
  end.

Definition is_unspecified (a : IpAddr) : bool :=
  forallb (fun b => b2z b =? 0) (match a with V4 l | V6 l => l end).

#[global] Instance send_key_eq_dec : EqDecision SendKey.
Proof. solve_decision. Defined.

#[global] Instance send_key_countable : Countable SendKey.
Proof.
  refine (inj_countable' (fun k => (lport k, raddr k, rport k))
    (fun p => {| lport := p.1.1; raddr := p.1.2; rport := p.2 |}) _). by intros [].
Defined.

Definition send_key (local remote : SocketAddr) : SendKey :=
  {| lport := sa_port local; raddr := to_canonical (sa_ip remote); rport := sa_port remote |}.

(** ** Data *)

Record KernelSend := {
  ks_key : SendKey; ks_laddr : IpAddr; ks_sent_wall_ns : Z; ks_owner : Attribution }.

Record SendTableCounters := {
  inserted : Z; consumed : Z; evicted : Z; expired : Z; claims_dropped : Z;
  tombstone_consumed : Z }.

Record Entry := { e_seq : Z; e_laddr : IpAddr; e_sent_wall_ns : Z; e_owner : Attribution }.

Record Claim := { c_id : Z; c_laddr : IpAddr; c_packet_wall_ns : Z; c_tomb : bool }.

(** The index [claim_keys] is a [BTreeMap] of which only the first key is ever asked for
    in order; [len] is kept beside the map, as in the code. *)
Record SendTable := {
  st_map : gmap SendKey (list Entry);
  st_order : list (Z * SendKey);
  st_next_seq : Z;
  st_len : Z;
  st_counters : SendTableCounters;
  st_claims : gmap SendKey (list Claim);
  st_claim_keys : gmap Z SendKey;
  st_next_claim : Z;
  st_inserted_watch : Z }.

Definition no_counters : SendTableCounters :=
  {| inserted := 0; consumed := 0; evicted := 0; expired := 0; claims_dropped := 0;
     tombstone_consumed := 0 |}.

Definition send_table_new : SendTable :=
  {| st_map := ∅; st_order := []; st_next_seq := 0; st_len := 0; st_counters := no_counters;
     st_claims := ∅; st_claim_keys := ∅; st_next_claim := 0; st_inserted_watch := 0 |}.

(** [u64] counters advanced by [+=]; they wrap only after [2^64] steps. *)
Definition count (c : SendTableCounters) (di dc dv dx dd dt : Z) : SendTableCounters :=
  {| inserted := inserted c + di; consumed := consumed c + dc; evicted := evicted c + dv;
     expired := expired c + dx; claims_dropped := claims_dropped c + dd;
     tombstone_consumed := tombstone_consumed c + dt |}.

Definition with_queues (t : SendTable) (m : gmap SendKey (list Entry)) (len : Z)
    (c : SendTableCounters) : SendTable :=
  {| st_map := m; st_order := st_order t; st_next_seq := st_next_seq t; st_len := len;
     st_counters := c; st_claims := st_claims t; st_claim_keys := st_claim_keys t;
     st_next_claim := st_next_claim t; st_inserted_watch := st_inserted_watch t |}.

Definition with_order (t : SendTable) (o : list (Z * SendKey)) : SendTable :=
  {| st_map := st_map t; st_order := o; st_next_seq := st_next_seq t; st_len := st_len t;
     st_counters := st_counters t; st_claims := st_claims t; st_claim_keys := st_claim_keys t;
     st_next_claim := st_next_claim t; st_inserted_watch := st_inserted_watch t |}.

Definition with_claims (t : SendTable) (cs : gmap SendKey (list Claim)) (ks : gmap Z SendKey)
    (next : Z) (c : SendTableCounters) : SendTable :=
  {| st_map := st_map t; st_order := st_order t; st_next_seq := st_next_seq t; st_len := st_len t;
     st_counters := c; st_claims := cs; st_claim_keys := ks; st_next_claim := next;
     st_inserted_watch := st_inserted_watch t |}.

(** Removing a queue or a list of claims that has become empty. *)
Definition put_list {A} (k : SendKey) (l : list A) (m : gmap SendKey (list A)) :
    gmap SendKey (list A) :=
  match l with [] => delete k m | _ => <[k := l]> m end.

Definition queue_of (t : SendTable) (key : SendKey) : list Entry :=
  default [] (st_map t !! key).

Definition claims_of (t : SendTable) (key : SendKey) : list Claim :=
  default [] (st_claims t !! key).

(** ** Eligibility and reservation *)

Definition rank (c : Claim) : Z * Z := (c_packet_wall_ns c, c_id c).

(** The order of Rust's tuples. *)
Definition rank_ltb (x y : Z * Z) : bool := (x.1 <? y.1) || ((x.1 =? y.1) && (x.2 <? y.2)).

Definition locals_compatible (entry packet : IpAddr) : bool :=
  let e := to_canonical entry in
  let p := to_canonical packet in
  is_unspecified e || is_unspecified p || bool_decide (e = p).

Definition eligible (e : Entry) (laddr : IpAddr) (packet_wall_ns : Z) : bool :=
  (sat_sub packet_wall_ns LOOKBACK_NS <=? e_sent_wall_ns e) &&
  (e_sent_wall_ns e <=? sat_add64 packet_wall_ns SLACK_NS) &&
  locals_compatible (e_laddr e) laddr.

(** [(0..queue.len()).find(|&i| !reserved[i] && eligible(&queue[i], ..))]. *)
Fixpoint find_slot (queue : list Entry) (reserved : list bool) (laddr : IpAddr) (ts : Z)
  : option nat :=
  match queue, reserved with
  | e :: queue, r :: reserved =>
      if negb r && eligible e laddr ts then Some 0%nat
      else option_map S (find_slot queue reserved laddr ts)
  | _, _ => None
  end.

Fixpoint reserve_loop (queue : list Entry) (claims : list Claim) (ci : nat) (limit : Z * Z)
    (reserved : list bool) (assigned : list (nat * nat)) : list bool * list (nat * nat) :=
  match claims with
  | [] => (reserved, assigned)
  | c :: claims =>
      if negb (rank_ltb (rank c) limit) then (reserved, assigned)
      else match find_slot queue reserved (c_laddr c) (c_packet_wall_ns c) with
           | Some i => reserve_loop queue claims (S ci) limit (<[i := true]> reserved)
                         (assigned ++ [(ci, i)])
           | None => reserve_loop queue claims (S ci) limit reserved assigned
           end
  end.

(** The reserved slots, and the calls of [on_assign] in order. *)
Definition reserve (queue : list Entry) (claims : list Claim) (limit : Z * Z)
  : list bool * list (nat * nat) :=
  reserve_loop queue claims 0 limit (repeat false (List.length queue)) [].

(** ** Operations *)

(** [entries.sort_unstable(); for &ei in entries.iter().rev() { queue.remove(ei); }]. *)
Definition remove_indices (entries : list nat) (queue : list Entry) : list Entry :=
  foldl (fun q ei => delete ei q) queue (rev (sort_by Nat.leb entries)).

Definition settle_tombstones (t : SendTable) (key : SendKey) : SendTable :=
  match st_claims t !! key, st_map t !! key with
  | Some claims, Some queue =>
      if negb (existsb c_tomb claims) then t
      else
        let assigned := (reserve queue claims (u64_max, u64_max)).2 in
        let hits := omap (fun a => c ← claims !! a.1; if c_tomb c then Some (a.2, c_id c) else None)
                      assigned in
        let entries := map fst hits in
        let dead := map snd hits in
        match dead with
        | [] => t
        | _ =>
            let queue := remove_indices entries queue in
            let claims := List.filter (fun c => negb (bool_decide (c_id c ∈ dead))) claims in
            let n := Z.of_nat (List.length entries) in
            with_claims
              (with_queues t (put_list key queue (st_map t)) (sat_sub (st_len t) n)
                 (count (st_counters t) 0 0 0 0 0 n))
              (put_list key claims (st_claims t))
              (foldl (fun m id => delete id m) (st_claim_keys t) dead)
              (st_next_claim t) (count (st_counters t) 0 0 0 0 0 n)
        end
  | _, _ => t
  end.

(** Pops the order list until it reaches a live entry, and drops that entry. *)
Fixpoint evict_from (order : list (Z * SendKey)) (t : SendTable) : bool * SendTable :=
  match order with
  | [] => (false, with_order t [])
  | (seq, key) :: order =>
      match st_map t !! key with
      | None => evict_from order t
      | Some queue =>
          match list_find (fun e => e_seq e = seq) queue with
          | None => evict_from order t
          | Some (pos, _) =>
              (true, with_order
                       (with_queues t (put_list key (delete pos queue) (st_map t))
                          (sat_sub (st_len t) 1) (count (st_counters t) 0 0 1 0 0 0))
                       order)
          end
      end
  end.

Definition evict_oldest (t : SendTable) : bool * SendTable := evict_from (st_order t) t.

(** [while self.len > CAPACITY { if !self.evict_oldest() { break } }]. *)
Fixpoint evict_over (fuel : nat) (t : SendTable) : SendTable :=
  match fuel with
  | O => t
  | S fuel =>
      if CAPACITY <? st_len t then
        let '(found, t) := evict_oldest t in if found then evict_over fuel t else t
      else t
  end.

Definition live (m : gmap SendKey (list Entry)) (x : Z * SendKey) : bool :=
  match m !! x.2 with
  | Some q => existsb (fun e => e_seq e =? x.1) q
  | None => false
  end.

Definition compact_order (t : SendTable) : SendTable :=
  if Z.of_nat (List.length (st_order t)) <=? CAPACITY * 2 then t
  else with_order t (List.filter (live (st_map t)) (st_order t)).

Definition publish (t : SendTable) : SendTable :=
  {| st_map := st_map t; st_order := st_order t; st_next_seq := st_next_seq t;
     st_len := st_len t; st_counters := st_counters t; st_claims := st_claims t;
     st_claim_keys := st_claim_keys t; st_next_claim := st_next_claim t;
     st_inserted_watch := inserted (st_counters t) |}.

(** The queue with room for one more: its front goes when it is full. *)
Definition make_room (queue : list Entry) : bool * list Entry :=
  if QUEUE_MAX <=? Z.of_nat (List.length queue) then
    match queue with _ :: q => (true, q) | [] => (false, []) end
  else (false, queue).

Definition push_entry (t : SendTable) (send : KernelSend) : SendTable :=
  let seq := st_next_seq t in
  let '(full, queue) := make_room (queue_of t (ks_key send)) in
  let entry := {| e_seq := seq; e_laddr := ks_laddr send; e_sent_wall_ns := ks_sent_wall_ns send;
                  e_owner := ks_owner send |} in
  let len := if full then sat_sub (st_len t) 1 else st_len t in
  {| st_map := <[ks_key send := queue ++ [entry]]> (st_map t);
     st_order := st_order t ++ [(seq, ks_key send)];
     st_next_seq := (seq + 1) mod 2 ^ 64;
     st_len := len + 1;
     st_counters := count (st_counters t) 1 0 (if full then 1 else 0) 0 0 0;
     st_claims := st_claims t; st_claim_keys := st_claim_keys t;
     st_next_claim := st_next_claim t; st_inserted_watch := st_inserted_watch t |}.

Definition table_insert (t : SendTable) (send : KernelSend) : SendTable :=
  let t := push_entry t send in
  let t := publish (settle_tombstones t (ks_key send)) in
  compact_order (evict_over (S (List.length (st_order t))) t).

Definition take_ranked (t : SendTable) (key : SendKey) (laddr : IpAddr) (packet_wall_ns : Z)
    (rk : Z * Z) : option Attribution * SendTable :=
  match st_map t !! key with
  | None => (None, t)
  | Some queue =>
      let claims := claims_of t key in
      let lo := sat_sub packet_wall_ns LOOKBACK_NS in
      let cutoff := match claims with
                    | [] => lo
                    | c :: _ => Z.min lo (sat_sub (c_packet_wall_ns c) LOOKBACK_NS)
                    end in
      let kept := List.filter (fun e => cutoff <=? e_sent_wall_ns e) queue in
      let dropped := Z.of_nat (List.length queue) - Z.of_nat (List.length kept) in
      let len := sat_sub (st_len t) dropped in
      let c := count (st_counters t) 0 0 0 dropped 0 0 in
      let pos := match claims with
                 | [] => option_map fst (list_find (fun e => eligible e laddr packet_wall_ns = true) kept)
                 | _ => find_slot kept (reserve kept claims rk).1 laddr packet_wall_ns
                 end in
      match pos ≫= (fun p => e ← kept !! p; Some (p, e)) with
      | Some (p, e) =>
          (Some (e_owner e),
           with_queues t (put_list key (delete p kept) (st_map t)) (sat_sub len 1)
             (count c 0 1 0 0 0 0))
      | None => (None, with_queues t (put_list key kept (st_map t)) len c)
      end
  end.

Definition table_take (t : SendTable) (key : SendKey) (laddr : IpAddr) (packet_wall_ns : Z)
  : option Attribution * SendTable :=
  take_ranked t key laddr packet_wall_ns (packet_wall_ns, u64_max).

Definition detach_claim (t : SendTable) (id : Z) (key : SendKey) : SendTable :=
  match st_claims t !! key with
  | None => t
  | Some list =>
      with_claims t
        (put_list key (List.filter (fun c => negb (c_id c =? id)) list) (st_claims t))
        (st_claim_keys t) (st_next_claim t) (st_counters t)
  end.

Definition release (t : SendTable) (claim : Z) : SendTable :=
  match st_claim_keys t !! claim with
  | None => t
  | Some key =>
      detach_claim
        (with_claims t (st_claims t) (delete claim (st_claim_keys t)) (st_next_claim t)
           (st_counters t)) claim key
  end.

Definition take_claimed (t : SendTable) (claim : Z) (key : SendKey) (laddr : IpAddr)
    (packet_wall_ns : Z) : option Attribution * SendTable :=
  let '(hit, t) := take_ranked t key laddr packet_wall_ns (packet_wall_ns, claim) in
  match hit with
  | Some _ => (hit, release t claim)
  | None => (None, t)
  end.

(** [list.partition_point(|c| c.rank() < rank)] on a list sorted by rank. *)
Definition insert_claim (c : Claim) (l : list Claim) : list Claim :=
  let '(before, after) :=
    (fix split l := match l with
                    | x :: l' => if rank_ltb (rank x) (rank c)
                                 then let '(a, b) := split l' in (x :: a, b) else ([], l)
                    | [] => ([], [])
                    end) l in
  before ++ c :: after.

(** [BTreeMap::pop_first]. *)
Definition first_key (m : gmap Z SendKey) : option (Z * SendKey) :=
  foldr (fun x acc => match acc with
                      | Some y => if x.1 <? y.1 then Some x else acc
                      | None => Some x
                      end) None (map_to_list m).

Fixpoint drop_claims (fuel : nat) (t : SendTable) : SendTable :=
  match fuel with
  | O => t
  | S fuel =>
      if CAPACITY <? Z.of_nat (size (st_claim_keys t)) then
        match first_key (st_claim_keys t) with
        | None => t
        | Some (old, k) =>
            let t := with_claims t (st_claims t) (delete old (st_claim_keys t)) (st_next_claim t)
                       (st_counters t) in
            let t := detach_claim t old k in
            drop_claims fuel
              (with_claims t (st_claims t) (st_claim_keys t) (st_next_claim t)
                 (count (st_counters t) 0 0 0 0 1 0))
        end
      else t
  end.

Definition table_claim (t : SendTable) (key : SendKey) (laddr : IpAddr) (packet_wall_ns : Z)
  : Z * SendTable :=
  let id := st_next_claim t in
  let c := {| c_id := id; c_laddr := laddr; c_packet_wall_ns := packet_wall_ns; c_tomb := false |} in
  let t := with_claims t (<[key := insert_claim c (claims_of t key)]> (st_claims t))
             (<[id := key]> (st_claim_keys t)) (id + 1) (st_counters t) in
  (id, drop_claims (S (size (st_claim_keys t))) t).

(** The first claim of the list with that id becomes a tombstone. *)
Fixpoint entomb (id : Z) (l : list Claim) : list Claim :=
  match l with
  | [] => []
  | c :: l =>
      if c_id c =? id then
        {| c_id := c_id c; c_laddr := c_laddr c; c_packet_wall_ns := c_packet_wall_ns c;
           c_tomb := true |} :: l
      else c :: entomb id l
  end.

Definition abandon (t : SendTable) (claim : Z) : SendTable :=
  match st_claim_keys t !! claim with
  | None => t
  | Some key =>
      let t := match st_claims t !! key with
               | Some l => with_claims t (<[key := entomb claim l]> (st_claims t))
                             (st_claim_keys t) (st_next_claim t) (st_counters t)
               | None => t
               end in
      settle_tombstones t key
  end.

Definition retain_lists {A} (f : A -> bool) (m : gmap SendKey (list A)) : gmap SendKey (list A) :=
  omap (fun l => match List.filter f l with [] => None | l' => Some l' end) m.

(** Entries over all queues. *)
Definition total {A} (m : gmap SendKey (list A)) : nat :=
  map_fold (fun _ l n => List.length l + n)%nat 0%nat m.

Definition table_expire (t : SendTable) (now_wall_ns : Z) : SendTable :=
  let cutoff := sat_sub now_wall_ns TTL_NS in
  let m := retain_lists (fun e => cutoff <=? e_sent_wall_ns e) (st_map t) in
  let removed := Z.of_nat (total (st_map t)) - Z.of_nat (total m) in
  let t := compact_order
             (with_queues t m (sat_sub (st_len t) removed)
                (count (st_counters t) 0 0 0 removed 0 0)) in
  let gone := map_fold (fun _ l acc =>
                map c_id (List.filter (fun c => negb (cutoff <=? c_packet_wall_ns c)) l) ++ acc) []
                (st_claims t) in
  with_claims t (retain_lists (fun c => cutoff <=? c_packet_wall_ns c) (st_claims t))
    (foldl (fun ks id => delete id ks) (st_claim_keys t) gone) (st_next_claim t) (st_counters t).

(** ** The table as a multiset of entries *)

Definition tag (k : SendKey) (q : list Entry) : list (SendKey * Entry) := map (pair k) q.

Definition entries_in (m : gmap SendKey (list Entry)) : list (SendKey * Entry) :=
  map_to_list m ≫= (fun x => tag x.1 x.2).

Abbreviation stored t := (entries_in (st_map t)).

#[global] Instance bind_perm_proper {A B} (f : A -> list B) : Proper ((≡ₚ) ==> (≡ₚ)) (mbind f).
Proof. intros l l' H. by apply bind_Permutation. Qed.

Lemma entries_insert k q m : m !! k = None -> entries_in (<[k := q]> m) ≡ₚ tag k q ++ entries_in m.
Proof. intros H. unfold entries_in. by rewrite map_to_list_insert. Qed.

Lemma entries_split k m : entries_in m ≡ₚ tag k (default [] (m !! k)) ++ entries_in (delete k m).
Proof.
  destruct (m !! k) as [q|] eqn:E; simpl.
  - rewrite <- entries_insert by apply lookup_delete_eq. by rewrite insert_delete_id.
  - by rewrite delete_id.
Qed.

Lemma delete_put {A} k (l : list A) m : delete k (put_list k l m) = delete k m.
Proof. destruct l; simpl; [by rewrite delete_delete_eq|by rewrite delete_insert_eq]. Qed.

Lemma lookup_put {A} k (l : list A) m : default [] (put_list k l m !! k) = l.
Proof. destruct l; simpl; [by rewrite lookup_delete_eq|by rewrite lookup_insert_eq]. Qed.

Lemma lookup_put_ne {A} k k' (l : list A) m : k <> k' -> put_list k l m !! k' = m !! k'.
Proof. intros. destruct l; simpl; [by rewrite lookup_delete_ne|by rewrite lookup_insert_ne]. Qed.

Lemma entries_put k q m : entries_in (put_list k q m) ≡ₚ tag k q ++ entries_in (delete k m).
Proof. by rewrite (entries_split k), lookup_put, delete_put. Qed.

Lemma total_entries m : total m = List.length (entries_in m).
Proof.
  unfold total. induction m as [|k q m Hk Hf IH] using map_first_key_ind; [done|].
  rewrite map_fold_insert_first_key by done. rewrite (entries_insert k q m Hk), length_app, IH.
  unfold tag. by rewrite length_map.
Qed.

Definition kept (f : Entry -> bool) (l : list (SendKey * Entry)) : list (SendKey * Entry) :=
  List.filter (fun x => f x.2) l.

Lemma kept_app f l l' : kept f (l ++ l') = kept f l ++ kept f l'.
Proof. apply List.filter_app. Qed.

Lemma kept_tag f k q : kept f (tag k q) = tag k (List.filter f q).
Proof. induction q as [|e q IH]; simpl; [done|]. destruct (f e); simpl; by rewrite IH. Qed.

Lemma filter_negb_perm {A} (f : A -> bool) l :
  l ≡ₚ List.filter (fun x => negb (f x)) l ++ List.filter f l.
Proof.
  induction l as [|x l IH]; simpl; [done|]. destruct (f x); simpl.
  - rewrite <- Permutation_middle. by f_equiv.
  - by f_equiv.
Qed.

Lemma lookup_retain {A} (f : A -> bool) m k :
  default [] (retain_lists f m !! k) = List.filter f (default [] (m !! k)).
Proof.
  unfold retain_lists. rewrite lookup_omap. destruct (m !! k) as [l|]; simpl; [|done].
  by destruct (List.filter f l).
Qed.

Lemma retain_insert {A} (f : A -> bool) k l (m : gmap SendKey (list A)) :
  m !! k = None -> retain_lists f (<[k := l]> m) = put_list k (List.filter f l) (retain_lists f m).
Proof.
  intros Hk. unfold retain_lists. rewrite omap_insert.
  by destruct (List.filter f l).
Qed.

Lemma entries_retain f m : entries_in (retain_lists f m) ≡ₚ kept f (entries_in m).
Proof.
  induction m as [|k q m Hk Hf IH] using map_first_key_ind; [done|].
  rewrite retain_insert, entries_put by done.
  rewrite delete_id by (unfold retain_lists; by rewrite lookup_omap, Hk).
  rewrite IH. unfold kept at 2. rewrite (entries_insert k q m Hk).
  fold (kept f (tag k q ++ entries_in m)). by rewrite kept_app, kept_tag.
Qed.

Lemma delete_pos {A} (l : list A) p e : l !! p = Some e -> l ≡ₚ e :: delete p l.
Proof. intros H. by apply delete_Permutation. Qed.

(** What an operation does to the stored entries: [new] came in, [hits] were handed out,
    [lost] were dropped, and the counters say so. *)
Definition moves (t t' : SendTable) (new hits lost : list (SendKey * Entry)) : Prop :=
  new ++ stored t ≡ₚ hits ++ lost ++ stored t' /\
  inserted (st_counters t') = inserted (st_counters t) + Z.of_nat (List.length new) /\
  consumed (st_counters t') = consumed (st_counters t) + Z.of_nat (List.length hits) /\
  evicted (st_counters t') + expired (st_counters t') + tombstone_consumed (st_counters t') =
    evicted (st_counters t) + expired (st_counters t) + tombstone_consumed (st_counters t) +
    Z.of_nat (List.length lost) /\
  (st_len t = Z.of_nat (List.length (stored t)) -> st_len t' = Z.of_nat (List.length (stored t'))).

Lemma moves_refl t : moves t t [] [] [].
Proof. unfold moves; simpl; split_and!; (done || lia). Qed.

Lemma moves_trans t1 t2 t3 n1 h1 l1 n2 h2 l2 :
  moves t1 t2 n1 h1 l1 -> moves t2 t3 n2 h2 l2 ->
  moves t1 t3 (n2 ++ n1) (h1 ++ h2) (l1 ++ l2).
Proof.
  intros (P1 & I1 & C1 & X1 & L1) (P2 & I2 & C2 & X2 & L2).
  unfold moves. rewrite !length_app, !Nat2Z.inj_add. split_and!; try lia.
  rewrite <- !app_assoc, P1.
  transitivity (h1 ++ l1 ++ (n2 ++ stored t2)); [solve_Permutation|].
  rewrite P2. solve_Permutation.
Qed.

(** Same entries, same counters: [moves] does not see the rest. *)
Lemma moves_same t t' :
  st_map t' = st_map t -> st_len t' = st_len t ->
  (exists d, st_counters t' = count (st_counters t) 0 0 0 0 d 0) -> moves t t' [] [] [].
Proof.
  intros Hm Hl [d Hc]. unfold moves. rewrite Hm, Hl, Hc. simpl. split_and!; (done || lia).
Qed.

(** ** What operations leave of a table *)

(** Queues only lose entries, the order list only loses slots, and every entry that is
    still there keeps its slot. *)
Record shrinks (t t' : SendTable) : Prop := {
  sh_queue k : queue_of t' k `sublist_of` queue_of t k;
  sh_nonempty : map_Forall (fun _ q => q <> []) (st_map t) -> map_Forall (fun _ q => q <> []) (st_map t');
  sh_order : st_order t' `sublist_of` st_order t;
  sh_cover x : x ∈ st_order t -> live (st_map t') x = true -> x ∈ st_order t';
  sh_seq : st_next_seq t' = st_next_seq t }.

Lemma live_iff m x : live m x = true <-> exists e, e ∈ default [] (m !! x.2) /\ e_seq e = x.1.
Proof.
  unfold live. destruct (m !! x.2) as [q|]; simpl.
  - rewrite existsb_exists. setoid_rewrite Z.eqb_eq. by setoid_rewrite list_elem_of_In.
  - split; [done|]. intros (e & He & _). by apply not_elem_of_nil in He.
Qed.

Lemma live_shrinks t t' x : shrinks t t' -> live (st_map t') x = true -> live (st_map t) x = true.
Proof.
  intros S. rewrite !live_iff. intros (e & He & Hs). exists e. split; [|done].
  eapply elem_of_sublist; [exact He|apply (sh_queue _ _ S)].
Qed.

Lemma shrinks_refl t : shrinks t t.
Proof. by constructor. Qed.

Lemma shrinks_trans t1 t2 t3 : shrinks t1 t2 -> shrinks t2 t3 -> shrinks t1 t3.
Proof.
  intros S1 S2. constructor.
  - intros k. etrans; [apply (sh_queue _ _ S2)|apply (sh_queue _ _ S1)].
  - intros H. by apply (sh_nonempty _ _ S2), (sh_nonempty _ _ S1).
  - etrans; [apply (sh_order _ _ S2)|apply (sh_order _ _ S1)].
  - intros x Hx Hl. apply (sh_cover _ _ S2); [|done]. apply (sh_cover _ _ S1); [done|].
    by eapply live_shrinks.
  - by rewrite (sh_seq _ _ S2), (sh_seq _ _ S1).
Qed.

Lemma put_nonempty {A} k (l : list A) (m : gmap SendKey (list A)) :
  map_Forall (fun _ q => q <> []) m -> map_Forall (fun _ q => q <> []) (put_list k l m).
Proof.
  intros H. destruct l; simpl; [by apply map_Forall_delete|by apply map_Forall_insert_2].
Qed.

(** Changing one queue, nothing else. *)
Lemma shrinks_put t t' k q :
  q `sublist_of` queue_of t k -> st_map t' = put_list k q (st_map t) ->
  st_order t' = st_order t -> st_next_seq t' = st_next_seq t -> shrinks t t'.
Proof.
  intros Hq Hm Ho Hs. constructor; rewrite ?Ho, ?Hm; try done.
  - intros k'. unfold queue_of. rewrite Hm. destruct (decide (k = k')) as [->|Hk].
    + by rewrite lookup_put.
    + by rewrite lookup_put_ne.
  - apply put_nonempty.
Qed.

Lemma shrinks_same t t' :
  st_map t' = st_map t -> st_order t' = st_order t -> st_next_seq t' = st_next_seq t -> shrinks t t'.
Proof. intros Hm Ho Hs. constructor; unfold queue_of; by rewrite ?Hm, ?Ho. Qed.

(** ** Specification: greedy matching in rank order *)

(** The first eligible entry, and the others. *)
Fixpoint pick (laddr : IpAddr) (ts : Z) (l : list Entry) : option (Entry * list Entry) :=
  match l with
  | [] => None
  | e :: l => if eligible e laddr ts then Some (e, l)
              else option_map (fun x => (x.1, e :: x.2)) (pick laddr ts l)
  end.

Fixpoint match_claims (cs : list Claim) (l : list Entry) : list (Claim * Entry) * list Entry :=
  match cs with
  | [] => ([], l)
  | c :: cs =>
      match pick (c_laddr c) (c_packet_wall_ns c) l with
      | Some (e, l') => let '(ps, rest) := match_claims cs l' in ((c, e) :: ps, rest)
      | None => match_claims cs l
      end
  end.

Definition senior (limit : Z * Z) (cs : list Claim) : list Claim :=
  List.filter (fun c => rank_ltb (rank c) limit) cs.

Lemma pick_some laddr ts l e l' :
  pick laddr ts l = Some (e, l') ->
  exists a b, l = a ++ e :: b /\ l' = a ++ b /\ eligible e laddr ts = true /\
              Forall (fun x => eligible x laddr ts = false) a.
Proof.
  revert l'. induction l as [|x l IH]; simpl; intros l' H; [done|].
  destruct (eligible x laddr ts) eqn:Ex; simplify_eq.
  - by exists [], l'.
  - destruct (pick laddr ts l) as [[y m]|]; simplify_eq/=.
    destruct (IH _ eq_refl) as (a & b & -> & -> & He & Ha). exists (x :: a), b. auto.
Qed.

Lemma pick_nothing laddr ts l : pick laddr ts l = None <-> Forall (fun e => eligible e laddr ts = false) l.
Proof.
  induction l as [|e l IH]; simpl; [done|]. rewrite Forall_cons.
  destruct (eligible e laddr ts); [naive_solver|].
  destruct (pick laddr ts l) as [[]|]; simpl; naive_solver.
Qed.

Lemma pick_filter laddr ts (g : Entry -> bool) l :
  match pick laddr ts l with
  | Some (e, l') =>
      if g e then pick laddr ts (List.filter g l) = Some (e, List.filter g l')
      else List.filter g l = List.filter g l'
  | None => pick laddr ts (List.filter g l) = None
  end.
Proof.
  induction l as [|x l IH]; simpl; [done|]. destruct (eligible x laddr ts) eqn:Ex.
  - destruct (g x) eqn:Gx; simpl; [by rewrite Ex|done].
  - destruct (pick laddr ts l) as [[e l']|] eqn:P; simpl.
    + destruct (g e) eqn:Ge, (g x) eqn:Gx; simpl; rewrite ?Ex, ?IH; done.
    + destruct (g x); simpl; rewrite ?Ex, IH; done.
Qed.

(** Dropping claims together with the entries matched to them, and entries matched to
    nobody, changes nothing for the others. *)
Lemma match_without (f : Claim -> bool) (g : Entry -> bool) cs l ps rest :
  match_claims cs l = (ps, rest) -> Forall (fun p => f p.1 = g p.2) ps ->
  match_claims (List.filter f cs) (List.filter g l) =
    (List.filter (fun p => f p.1) ps, List.filter g rest).
Proof.
  revert l ps rest. induction cs as [|c cs IH]; simpl; intros l ps rest H HF; [by simplify_eq|].
  pose proof (pick_filter (c_laddr c) (c_packet_wall_ns c) g l) as Pf.
  destruct (pick _ _ l) as [[e l']|] eqn:P.
  - destruct (match_claims cs l') as [ps' rest'] eqn:M. simplify_eq.
    apply Forall_cons in HF as [He HF]. simpl in He. specialize (IH _ _ _ M HF).
    rewrite <- He in Pf. simpl. destruct (f c); simpl.
    + by rewrite Pf, IH.
    + by rewrite Pf.
  - destruct (f c); simpl; [rewrite Pf|]; by apply IH.
Qed.

Lemma match_perm cs l ps rest : match_claims cs l = (ps, rest) -> l ≡ₚ map snd ps ++ rest.
Proof.
  revert l ps rest. induction cs as [|c cs IH]; simpl; intros l ps rest H; [by simplify_eq|].
  destruct (pick _ _ l) as [[e l']|] eqn:P; [|by apply IH].
  destruct (match_claims cs l') as [ps' rest'] eqn:M. simplify_eq. simpl.
  rewrite <- (IH _ _ _ M). apply pick_some in P as (a & b & -> & -> & _). by rewrite Permutation_middle.
Qed.

Lemma match_claims_sublist cs l ps rest : match_claims cs l = (ps, rest) -> map fst ps `sublist_of` cs.
Proof.
  revert l ps rest. induction cs as [|c cs IH]; simpl; intros l ps rest H; simplify_eq/=; [done|].
  destruct (pick _ _ l) as [[e l']|] eqn:P; [|by constructor; eapply IH].
  destruct (match_claims cs l') as [ps' rest'] eqn:M. simplify_eq. simpl. constructor. by eapply IH.
Qed.

Lemma match_eligible cs l ps rest :
  match_claims cs l = (ps, rest) ->
  Forall (fun p => eligible p.2 (c_laddr p.1) (c_packet_wall_ns p.1) = true) ps.
Proof.
  revert l ps rest. induction cs as [|c cs IH]; simpl; intros l ps rest H; simplify_eq/=; [done|].
  destruct (pick _ _ l) as [[e l']|] eqn:P; [|by eapply IH].
  destruct (match_claims cs l') as [ps' rest'] eqn:M. simplify_eq.
  apply pick_some in P as (a & b & _ & _ & He & _). constructor; [done|by eapply IH].
Qed.

Lemma match_app cs1 cs2 l :
  match_claims (cs1 ++ cs2) l =
    let '(ps1, r1) := match_claims cs1 l in
    let '(ps2, r2) := match_claims cs2 r1 in (ps1 ++ ps2, r2).
Proof.
  revert l. induction cs1 as [|c cs1 IH]; simpl; intros l; [by destruct (match_claims cs2 l)|].
  destruct (pick _ _ l) as [[e l']|]; rewrite IH; [|done].
  destruct (match_claims cs1 l') as [ps1 r1]. by destruct (match_claims cs2 r1).
Qed.

(** ** The reserved slots are the greedy matching *)

Fixpoint avail (r : list bool) (q : list Entry) : list Entry :=
  match r, q with
  | b :: r, e :: q => if b then avail r q else e :: avail r q
  | _, _ => []
  end.

Lemma avail_all q : avail (repeat false (List.length q)) q = q.
Proof. induction q as [|e q IH]; simpl; [done|by rewrite IH]. Qed.

Lemma find_slot_pick q r laddr ts :
  List.length r = List.length q ->
  match find_slot q r laddr ts with
  | Some i => r !! i = Some false /\
      exists e, q !! i = Some e /\ pick laddr ts (avail r q) = Some (e, avail (<[i := true]> r) q)
  | None => pick laddr ts (avail r q) = None
  end.
Proof.
  revert r. induction q as [|e q IH]; intros [|b r] H; simplify_eq/=; [done|].
  specialize (IH r H). destruct b; simpl.
  - destruct (find_slot q r laddr ts) as [i|]; simpl; [|done].
    destruct IH as (Hr & x & Hx & IH). split; [done|]. exists x. by rewrite IH.
  - destruct (eligible e laddr ts) eqn:E; simpl; [split; [done|]; by exists e|].
    destruct (find_slot q r laddr ts) as [i|]; simpl.
    + destruct IH as (Hr & x & Hx & IH). split; [done|]. exists x. by rewrite IH.
    + by rewrite IH.
Qed.

Definition rank_lt (x y : Z * Z) : Prop := rank_ltb x y = true.

Lemma rank_lt_iff x y : rank_lt x y <-> x.1 < y.1 \/ x.1 = y.1 /\ x.2 < y.2.
Proof. unfold rank_lt, rank_ltb. lia. Qed.

Abbreviation ranked := (StronglySorted (fun c d => rank_lt (rank c) (rank d))).

(** On a ranked list the loop's [break] stops exactly at the claims it must skip. *)
Lemma senior_break limit c cs :
  ranked (c :: cs) -> rank_ltb (rank c) limit = false -> senior limit (c :: cs) = [].
Proof.
  intros H E. unfold senior. simpl. rewrite E.
  apply StronglySorted_inv in H as [_ H]. induction H as [|d cs Hd _ IH]; simpl; [done|].
  destruct (rank_ltb (rank d) limit) eqn:F; [|done].
  apply rank_lt_iff in Hd, F. assert (rank_lt (rank c) limit); [|congruence].
  apply rank_lt_iff. lia.
Qed.

Lemma reserve_loop_spec q limit cs ci r asg r' asg' :
  List.length r = List.length q -> ranked cs ->
  reserve_loop q cs ci limit r asg = (r', asg') ->
  exists new ps, asg' = asg ++ new /\ List.length r' = List.length q /\
    match_claims (senior limit cs) (avail r q) = (ps, avail r' q) /\
    Forall2 (fun a p => (ci <= a.1)%nat /\ cs !! (a.1 - ci)%nat = Some p.1 /\ q !! a.2 = Some p.2) new ps /\
    Forall (fun i => r !! i = Some false) (map snd new) /\ NoDup (map snd new).
Proof.
  revert ci r asg. induction cs as [|c cs IH]; intros ci r asg Hr Hs H; simpl in H.
  { simplify_eq. exists [], []. rewrite app_nil_r. split_and!; try done; constructor. }
  destruct (rank_ltb (rank c) limit) eqn:Hc; simpl in H.
  2:{ simplify_eq. exists [], []. rewrite (senior_break _ _ _ Hs Hc), app_nil_r.
      split_and!; try done; constructor. }
  apply StronglySorted_inv in Hs as [Hs _].
  assert (senior limit (c :: cs) = c :: senior limit cs) as -> by (unfold senior; simpl; by rewrite Hc).
  assert (forall new ps, Forall2 (fun a p => (S ci <= a.1)%nat /\ cs !! (a.1 - S ci)%nat = Some p.1 /\
            q !! a.2 = Some p.2) new ps ->
          Forall2 (fun a p => (ci <= a.1)%nat /\ (c :: cs) !! (a.1 - ci)%nat = Some p.1 /\
            q !! a.2 = Some p.2) new ps) as Hshift.
  { intros new ps F. eapply Forall2_impl; [exact F|]. intros a p (Hle & Hx & Hy).
    replace (a.1 - ci)%nat with (S (a.1 - S ci)) by lia. split_and!; [lia|done|done]. }
  pose proof (find_slot_pick q r (c_laddr c) (c_packet_wall_ns c) Hr) as Hf. simpl.
  destruct (find_slot q r (c_laddr c) (c_packet_wall_ns c)) as [i|].
  - destruct Hf as (Hi & e & He & ->).
    apply IH in H as (new & ps & -> & Hl & HM & HF & Hfree & Hnd); [|by rewrite length_insert|done].
    exists ((ci, i) :: new), ((c, e) :: ps). rewrite HM, <- app_assoc.
    assert (forall j, j ∈ map snd new -> i <> j /\ r !! j = Some false) as Hnew.
    { intros j Hj. rewrite Forall_forall in Hfree. specialize (Hfree j Hj).
      destruct (decide (i = j)) as [->|Hne]; [|by rewrite list_lookup_insert_ne in Hfree].
      rewrite list_lookup_insert_eq in Hfree; [done|by eapply lookup_lt_Some]. }
    split_and!; try done.
    + constructor; [|by apply Hshift]. simpl. rewrite Nat.sub_diag. by split_and!.
    + simpl. constructor; [done|]. apply Forall_forall. intros j Hj. by apply Hnew.
    + simpl. constructor; [|done]. intros Hj. by apply Hnew in Hj as [? _].
  - rewrite Hf. apply IH in H as (new & ps & -> & Hl & HM & HF & Hfree & Hnd); [|done|done].
    exists new, ps. split_and!; try done. by apply Hshift.
Qed.

Lemma reserve_spec q cs limit :
  ranked cs ->
  exists ps, match_claims (senior limit cs) q = (ps, avail (reserve q cs limit).1 q) /\
    List.length (reserve q cs limit).1 = List.length q /\
    Forall2 (fun a p => cs !! a.1 = Some p.1 /\ q !! a.2 = Some p.2) (reserve q cs limit).2 ps /\
    NoDup (map snd (reserve q cs limit).2).
Proof.
  intros Hs. unfold reserve. destruct (reserve_loop _ _ _ _ _ _) as [r' asg'] eqn:E.
  apply reserve_loop_spec in E as (new & ps & -> & Hl & HM & HF & _ & Hnd); [|by rewrite repeat_length|done].
  rewrite avail_all in HM. exists ps. split_and!; try done.
  simpl. eapply Forall2_impl; [exact HF|]. intros a p (_ & H1 & H2). by rewrite Nat.sub_0_r in H1.
Qed.

(** ** Taking *)

Abbreviation sequenced q := (StronglySorted Z.lt (map e_seq q)).

Definition not_seq (s : Z) (e : Entry) : bool := negb (e_seq e =? s).

Definition cutoff_of (cs : list Claim) (ts : Z) : Z :=
  match cs with
  | [] => sat_sub ts LOOKBACK_NS
  | c :: _ => Z.min (sat_sub ts LOOKBACK_NS) (sat_sub (c_packet_wall_ns c) LOOKBACK_NS)
  end.

Definition fresh_for (cs : list Claim) (ts : Z) (q : list Entry) : list Entry :=
  List.filter (fun e => cutoff_of cs ts <=? e_sent_wall_ns e) q.

(** What a packet gets: the oldest eligible entry the claims before it leave over. *)
Definition spec_take (cs : list Claim) (q : list Entry) (laddr : IpAddr) (ts : Z) (rk : Z * Z)
  : option Entry * list Entry :=
  let q := fresh_for cs ts q in
  match pick laddr ts (match_claims (senior rk cs) q).2 with
  | Some (e, _) => (Some e, List.filter (not_seq (e_seq e)) q)
  | None => (None, q)
  end.

Lemma delete_filter q p e :
  sequenced q -> q !! p = Some e -> delete p q = List.filter (not_seq (e_seq e)) q.
Proof.
  revert p. induction q as [|x q IH]; intros [|p] Hs H; simplify_eq/=.
  - unfold not_seq at 1. rewrite Z.eqb_refl. simpl. symmetry. apply filter_true.
    apply StronglySorted_inv in Hs as [_ Hs]. apply (proj1 (List.Forall_map _ _ _)) in Hs.
    eapply Forall_impl; [exact Hs|]. unfold not_seq. simpl. intros. lia.
  - apply StronglySorted_inv in Hs as [Hs Hx]. rewrite (IH p Hs H). unfold not_seq at 2.
    rewrite Forall_forall in Hx. specialize (Hx (e_seq e)).
    replace (e_seq x =? e_seq e) with false; [done|].
    symmetry. apply Z.eqb_neq. apply list_elem_of_lookup_2 in H.
    specialize (Hx ltac:(by apply list_elem_of_fmap_2)). lia.
Qed.

Lemma sequenced_sublist q q' : q' `sublist_of` q -> sequenced q -> sequenced q'.
Proof.
  induction 1 as [|x q' q Hq IH|x q' q Hq IH]; simpl; intros H; [done| |].
  - apply StronglySorted_inv in H as [H Hx]. constructor; [by apply IH|].
    apply Forall_forall. intros y Hy. rewrite Forall_forall in Hx. apply Hx.
    apply list_elem_of_fmap in Hy as (z & -> & Hz). apply list_elem_of_fmap_2.
    by eapply elem_of_sublist.
  - apply StronglySorted_inv in H as [H _]. by apply IH.
Qed.

Lemma find_slot_none q laddr ts :
  find_slot q (repeat false (List.length q)) laddr ts =
  option_map fst (list_find (fun e => eligible e laddr ts = true) q).
Proof.
  induction q as [|e q IH]; simpl; [done|].
  destruct (decide (eligible e laddr ts = true)) as [->|H]; [done|].
  apply not_true_is_false in H as ->. rewrite IH. by destruct (list_find _ q) as [[]|].
Qed.

(** The slot the code finds is the entry the specification picks. *)
Lemma take_slot q cs laddr ts rk :
  ranked cs ->
  match find_slot q (reserve q cs rk).1 laddr ts with
  | Some p => exists e rest, q !! p = Some e /\
                pick laddr ts (match_claims (senior rk cs) q).2 = Some (e, rest)
  | None => pick laddr ts (match_claims (senior rk cs) q).2 = None
  end.
Proof.
  intros Hs. destruct (reserve_spec q cs rk Hs) as (ps & HM & Hl & _). rewrite HM. simpl.
  pose proof (find_slot_pick q _ laddr ts Hl) as Hf.
  destruct (find_slot _ _ _ _) as [p|]; [|done].
  destruct Hf as (_ & e & He & Hp). rewrite Hp. eauto.
Qed.

(** The parts of a table a take leaves alone. *)
Definition same_rest (t t' : SendTable) : Prop :=
  st_order t' = st_order t /\ st_next_seq t' = st_next_seq t /\ st_claims t' = st_claims t /\
  st_claim_keys t' = st_claim_keys t /\ st_next_claim t' = st_next_claim t.

Lemma moves_put t key q m len c hits lost :
  queue_of t key ≡ₚ hits ++ lost ++ q -> m = put_list key q (st_map t) ->
  len = sat_sub (st_len t) (Z.of_nat (List.length hits + List.length lost)) ->
  inserted c = inserted (st_counters t) ->
  consumed c = consumed (st_counters t) + Z.of_nat (List.length hits) ->
  evicted c + expired c + tombstone_consumed c =
    evicted (st_counters t) + expired (st_counters t) + tombstone_consumed (st_counters t) +
    Z.of_nat (List.length lost) ->
  moves t (with_queues t m len c) [] (tag key hits) (tag key lost).
Proof.
  intros HP -> -> Hi Hc Hx. unfold moves, with_queues. cbn [st_map st_counters st_len].
  assert (stored t ≡ₚ tag key hits ++ tag key lost ++ entries_in (put_list key q (st_map t))) as Hst.
  { rewrite entries_put, (entries_split key (st_map t)). fold (queue_of t key). unfold tag.
    rewrite HP, !map_app. solve_Permutation. }
  unfold tag in *. rewrite !length_map. split_and!; [done|simpl; lia|lia|lia|].
  intros ->. rewrite Hst, !length_app, !length_map. unfold sat_sub. lia.
Qed.

Lemma sat_sub_sub a b c : 0 <= b -> 0 <= c -> sat_sub (sat_sub a b) c = sat_sub a (b + c).
Proof. unfold sat_sub. lia. Qed.

Lemma filter_split_lengths {A} (f : A -> bool) l :
  Z.of_nat (List.length l) - Z.of_nat (List.length (List.filter f l)) =
  Z.of_nat (List.length (List.filter (fun x => negb (f x)) l)).
Proof. rewrite (filter_negb_perm f l) at 1. rewrite length_app. lia. Qed.

Lemma take_ranked_effect t key laddr ts rk hit t' :
  ranked (claims_of t key) -> sequenced (queue_of t key) ->
  take_ranked t key laddr ts rk = (hit, t') ->
  exists o q lost, spec_take (claims_of t key) (queue_of t key) laddr ts rk = (o, q) /\
    hit = option_map e_owner o /\ st_map t' = put_list key q (st_map t) /\ same_rest t t' /\
    moves t t' [] (tag key (option_list o)) (tag key lost).
Proof.
  intros Hr Hs. unfold take_ranked. fold (cutoff_of (claims_of t key) ts).
  destruct (st_map t !! key) as [queue|] eqn:Hq.
  2:{ intros. simplify_eq. exists None, [], []. unfold queue_of. rewrite Hq. simpl.
      unfold spec_take, fresh_for. simpl. rewrite delete_id by done.
      assert (pick laddr ts (match_claims (senior rk (claims_of t' key)) []).2 = None) as ->.
      { induction (senior rk (claims_of t' key)) as [|c cs IH]; simpl; done. }
      split_and!; try done. apply moves_refl. }
  assert (queue_of t key = queue) as Eq by (unfold queue_of; by rewrite Hq).
  rewrite Eq in *. set (cs := claims_of t key) in *.
  change (List.filter (fun e => cutoff_of cs ts <=? e_sent_wall_ns e) queue) with (fresh_for cs ts queue).
  set (k := fresh_for cs ts queue) in *. unfold spec_take. fold k.
  assert (match cs with [] => option_map fst (list_find (fun e => eligible e laddr ts = true) k)
          | _ => find_slot k (reserve k cs rk).1 laddr ts end =
          find_slot k (reserve k cs rk).1 laddr ts) as ->.
  { destruct cs; [|done]. unfold reserve. simpl. by rewrite find_slot_none. }
  assert (sequenced k) as Hk by (eapply sequenced_sublist; [apply filter_sublist|done]).
  pose proof (take_slot k cs laddr ts rk Hr) as Ht.
  set (lost := List.filter (fun e => negb (cutoff_of cs ts <=? e_sent_wall_ns e)) queue).
  assert (Z.of_nat (List.length queue) - Z.of_nat (List.length k) = Z.of_nat (List.length lost)) as ->
    by apply filter_split_lengths.
  assert (queue ≡ₚ lost ++ k) as HP by apply filter_negb_perm.
  destruct (find_slot k (reserve k cs rk).1 laddr ts) as [p|]; cbn [mbind option_bind].
  - destruct Ht as (e & rest & He & ->). rewrite He. cbn [mbind option_bind]. intros [= <- <-].
    exists (Some e), (List.filter (not_seq (e_seq e)) k), lost.
    rewrite <- (delete_filter k p e) by done. split_and!; try done.
    apply (moves_put t key (delete p k) _ _ _ [e] lost); try done; try (cbn -[Z.of_nat]; lia).
    + rewrite Eq, HP. rewrite (delete_pos k p e He) at 1. solve_Permutation.
    + rewrite sat_sub_sub by lia. f_equal. cbn [List.length]. lia.
  - rewrite Ht. intros [= <- <-]. exists None, k, lost. split_and!; try done.
    apply (moves_put t key k _ _ _ [] lost); try done; try (cbn -[Z.of_nat]; lia). by rewrite Eq.
Qed.

(** ** Settling tombstones *)

Definition not_in (ids : list Z) (id : Z) : bool := negb (bool_decide (id ∈ ids)).

Lemma not_in_true ids id : not_in ids id = true <-> id ∉ ids.
Proof. unfold not_in. by rewrite negb_true_iff, bool_decide_eq_false. Qed.

Lemma not_in_false ids id : not_in ids id = false <-> id ∈ ids.
Proof. unfold not_in. by rewrite negb_false_iff, bool_decide_eq_true. Qed.

Lemma remove_descending ds es q :
  sequenced q -> StronglySorted (fun i j => j < i)%nat ds ->
  Forall2 (fun d e => q !! d = Some e) ds es ->
  foldl (fun q d => delete d q) q ds = List.filter (fun e => not_in (map e_seq es) (e_seq e)) q /\
  q ≡ₚ es ++ foldl (fun q d => delete d q) q ds.
Proof.
  intros Hq Hd F. revert q Hq Hd F. revert es.
  induction ds as [|d ds IH]; intros es q Hq Hd F; inversion F as [|? e ? es' He F']; subst; simpl.
  { split; [|done]. symmetry. by apply filter_true, Forall_true. }
  apply StronglySorted_inv in Hd as [Hd Hlt].
  destruct (IH es' (delete d q)) as [IH1 IH2]; [|done| |].
  - eapply sequenced_sublist; [apply sublist_delete|done].
  - rewrite Forall_forall in Hlt.
    assert (forall i, i ∈ ds -> (i < d)%nat) as Hlt' by done. clear -F' Hlt'.
    induction F' as [|i x ds es H F IH]; constructor.
    + rewrite list_lookup_delete_lt by (apply Hlt'; left). done.
    + apply IH. intros j Hj. apply Hlt'. by right.
  - split.
    + rewrite IH1, (delete_filter q d e) by done. rewrite filter_filter. apply filter_ext.
      intros x _. unfold not_seq, not_in. simpl. rewrite <- negb_orb. f_equal.
      destruct (Z.eqb_spec (e_seq x) (e_seq e)) as [->|Hne]; simpl.
      * symmetry. apply bool_decide_eq_true. left.
      * apply bool_decide_ext. rewrite elem_of_cons. naive_solver.
    + rewrite (delete_pos q d e He) at 1. by rewrite IH2 at 1.
Qed.

Lemma descending_sort l : NoDup l -> StronglySorted (fun i j => j < i)%nat (rev (sort_by Nat.leb l)).
Proof.
  intros Hn.
  assert (StronglySorted (fun i j => i < j)%nat (sort_by Nat.leb l)) as Hs.
  { assert (StronglySorted (fun i j => (i <=? j)%nat = true) (sort_by Nat.leb l)) as H
      by (apply sort_by_sorted; [intros ??? ?%Nat.leb_le ?%Nat.leb_le; apply Nat.leb_le; lia|
           intros i j; destruct (Nat.le_ge_cases i j); [left|right]; by apply Nat.leb_le]).
    rewrite <- (sort_by_perm Nat.leb l) in Hn. induction H as [|i l' H IH Hi]; constructor.
    - apply IH. by apply NoDup_cons in Hn as [_ ?].
    - apply NoDup_cons in Hn as [Hn _]. rewrite Forall_forall in *. intros j Hj.
      specialize (Hi j Hj). apply Nat.leb_le in Hi. assert (i <> j) by (intros ->; done). lia. }
  induction Hs as [|i l' H IH Hi]; simpl; [constructor|].
  apply StronglySorted_snoc; [done|]. apply Forall_forall. intros j Hj.
  rewrite <- Permutation_rev in Hj. rewrite Forall_forall in Hi. by apply Hi.
Qed.

Lemma Forall2_perm {A B} (R : A -> B -> Prop) l l' k :
  Forall2 R l k -> l ≡ₚ l' -> exists k', k ≡ₚ k' /\ Forall2 R l' k'.
Proof.
  intros F P. revert k F. induction P as [|x l l' _ IH|x y l|l l1 l2 _ IH1 _ IH2]; intros k F.
  - inversion F; subst. by exists [].
  - inversion F as [|? b ? k0 Hb F']; subst. destruct (IH _ F') as (k' & Hk & Hf).
    exists (b :: k'). split; [by f_equiv|by constructor].
  - inversion F as [|? a ? k0 Ha F']; subst. inversion F' as [|? b ? k1 Hb F'']; subst.
    exists (b :: a :: k1). split; [apply perm_swap|by repeat constructor].
  - destruct (IH1 _ F) as (k1 & H1 & F1). destruct (IH2 _ F1) as (k2 & H2 & F2).
    exists k2. split; [by etrans|done].
Qed.

Lemma remove_indices_spec ix es q :
  sequenced q -> NoDup ix -> Forall2 (fun d e => q !! d = Some e) ix es ->
  remove_indices ix q = List.filter (fun e => not_in (map e_seq es) (e_seq e)) q /\
  q ≡ₚ es ++ remove_indices ix q.
Proof.
  intros Hq Hn F. unfold remove_indices.
  assert (ix ≡ₚ rev (sort_by Nat.leb ix)) as Hp
    by (by rewrite <- Permutation_rev, (sort_by_perm Nat.leb ix)).
  destruct (Forall2_perm _ _ _ _ F Hp) as (es' & He & F').
  destruct (remove_descending _ es' q Hq (descending_sort ix Hn) F') as [H1 H2]. split.
  - rewrite H1. apply filter_ext. intros x _. unfold not_in. f_equal. apply bool_decide_ext.
    by rewrite He.
  - rewrite H2 at 1. by rewrite He.
Qed.

Definition top_rank : Z * Z := (u64_max, u64_max).

(** The tombstones among the matched claims. *)
Definition settled_pairs (cs : list Claim) (q : list Entry) : list (Claim * Entry) :=
  List.filter (fun p => c_tomb p.1) (match_claims (senior top_rank cs) q).1.

Definition dead_ids cs q : list Z := map (fun p => c_id p.1) (settled_pairs cs q).
Definition dead_entries cs q : list Entry := map snd (settled_pairs cs q).

Lemma settle_hits cs q :
  ranked cs ->
  let hits := omap (fun a => c ← cs !! a.1; if c_tomb c then Some (a.2, c_id c) else None)
                (reserve q cs top_rank).2 in
  Forall2 (fun i e => q !! i = Some e) (map fst hits) (dead_entries cs q) /\
  map snd hits = dead_ids cs q /\ NoDup (map fst hits).
Proof.
  intros Hr. destruct (reserve_spec q cs top_rank Hr) as (ps & HM & _ & HF & Hn).
  unfold dead_entries, dead_ids, settled_pairs. rewrite HM. simpl. clear HM.
  induction HF as [|[i j] [c e] asg ps [Hc He] _ IH]; simpl in *; [by repeat constructor|].
  apply NoDup_cons in Hn as [Hj Hn]. destruct (IH Hn) as (IH1 & IH2 & IH3).
  rewrite Hc. simpl. destruct (c_tomb c); simpl; [|by split_and!].
  split_and!; [by constructor|by f_equal|]. constructor; [|done].
  intros Hx. apply Hj. apply list_elem_of_fmap in Hx as ([x y] & -> & Hx).
  apply list_elem_of_omap in Hx as (a & Ha & Hx). simpl.
  destruct (cs !! a.1) as [d|]; simplify_eq/=. destruct (c_tomb d); simplify_eq.
  apply list_elem_of_fmap. by exists a.
Qed.

Lemma settle_effect t key :
  ranked (claims_of t key) -> sequenced (queue_of t key) ->
  let cs := claims_of t key in
  let q := queue_of t key in
  let t' := settle_tombstones t key in
  t' = t /\ dead_ids cs q = [] \/
  st_map t' = put_list key (List.filter (fun e => not_in (map e_seq (dead_entries cs q)) (e_seq e)) q)
                (st_map t) /\
  st_claims t' = put_list key (List.filter (fun c => not_in (dead_ids cs q) (c_id c)) cs) (st_claims t) /\
  st_claim_keys t' = foldl (fun m id => delete id m) (st_claim_keys t) (dead_ids cs q) /\
  st_order t' = st_order t /\ st_next_seq t' = st_next_seq t /\ st_next_claim t' = st_next_claim t /\
  moves t t' [] [] (tag key (dead_entries cs q)).
Proof.
  intros Hr Hs cs q t'. subst t'. unfold settle_tombstones.
  destruct (st_claims t !! key) as [cs0|] eqn:Ec.
  2:{ left. split; [done|]. subst cs. unfold claims_of. by rewrite Ec. }
  assert (cs = cs0) as <- by (subst cs; unfold claims_of; by rewrite Ec).
  destruct (st_map t !! key) as [q0|] eqn:Eq.
  2:{ left. split; [done|]. subst q. unfold queue_of, dead_ids, settled_pairs. rewrite Eq. simpl.
      assert (forall l, (match_claims l []).1 = []) as ->; [|done].
      induction l as [|c l IH]; simpl; done. }
  assert (q = q0) as <- by (subst q; unfold queue_of; by rewrite Eq).
  destruct (settle_hits cs q Hr) as (H1 & H2 & H3). fold top_rank.
  destruct (existsb c_tomb cs) eqn:Et; simpl.
  2:{ left. split; [done|]. unfold dead_ids, settled_pairs.
      destruct (match_claims (senior top_rank cs) q) as [ps rest] eqn:M.
      apply match_claims_sublist in M. simpl.
      assert (forall p, p ∈ ps -> c_tomb p.1 = false) as Hf.
      { intros p Hp. apply not_true_is_false. intros Hx. apply not_true_iff_false in Et. apply Et.
        apply existsb_exists. exists p.1. split; [|done]. apply list_elem_of_In.
        eapply elem_of_sublist; [|apply (filter_sublist (fun c => rank_ltb (rank c) top_rank))].
        eapply elem_of_sublist; [|exact M]. by apply list_elem_of_fmap_2. }
      clear -Hf. induction ps as [|p ps IH]; simpl; [done|].
      rewrite (Hf p) by left. apply IH. intros x Hx. apply Hf. by right. }
  set (hits := omap _ _) in *. rewrite H2.
  destruct (dead_ids cs q) as [|d ds] eqn:Ed; [by left|]. right.
  destruct (remove_indices_spec _ _ q Hs H3 H1) as [R1 R2].
  assert (List.length (map fst hits) = List.length (dead_entries cs q)) as Hlen
    by (by eapply Forall2_length).
  rewrite Hlen. split_and!; try done; [by cbn; rewrite R1|].
  pose proof (moves_put t key (remove_indices (map fst hits) q)
    (put_list key (remove_indices (map fst hits) q) (st_map t))
    (sat_sub (st_len t) (Z.of_nat (List.length (dead_entries cs q))))
    (count (st_counters t) 0 0 0 0 0 (Z.of_nat (List.length (dead_entries cs q))))
    [] (dead_entries cs q)) as Hm.
  apply Hm; try done; cbn -[Z.of_nat]; lia.
Qed.

(** ** Eviction and compaction *)

Lemma moves_order t o : moves t (with_order t o) [] [] [].
Proof.
  apply moves_same; try done. exists 0. unfold with_order, count. simpl.
  rewrite !Z.add_0_r. by destruct (st_counters t).
Qed.

Lemma evict_from_effect order t found t' :
  (forall k, sequenced (queue_of t k)) -> evict_from order t = (found, t') ->
  exists lost, moves t t' [] [] lost /\ shrinks (with_order t order) t' /\
    same_rest (with_order t (st_order t')) t' /\
    List.length lost = (if found then 1%nat else 0%nat) /\
    (found = false -> Forall (fun x => live (st_map t) x = false) order).
Proof.
  intros Hseq. revert t'. induction order as [|[s k] order IH]; simpl; intros t' H.
  { simplify_eq. exists []. split_and!; try done. apply moves_order. }
  assert (forall x, live (st_map t) (s, k) = false -> x ∈ (s, k) :: order ->
            live (st_map t') x = true ->
            shrinks (with_order t order) t' -> x ∈ st_order t') as Hcov.
  { intros x Hd Hx Hl S. apply (sh_cover _ _ S); [|done]. apply elem_of_cons in Hx as [->|Hx]; [|done].
    apply (live_shrinks _ _ _ S) in Hl. simpl in Hl. congruence. }
  assert (live (st_map t) (s, k) = false -> evict_from order t = (found, t') ->
    exists lost, moves t t' [] [] lost /\ shrinks (with_order t ((s, k) :: order)) t' /\
    same_rest (with_order t (st_order t')) t' /\
    List.length lost = (if found then 1%nat else 0%nat) /\
    (found = false -> Forall (fun x => live (st_map t) x = false) ((s, k) :: order))) as Hskip.
  { intros Hd H'. apply IH in H' as (lost & Hm & S & Hr & Hl & Hf). exists lost.
    split_and!; try done; [|by intros; constructor; auto].
    destruct S. constructor; try done; [by apply sublist_cons|].
    intros x Hx Hxl. by apply Hcov. }
  destruct (st_map t !! k) as [q|] eqn:Hq.
  2:{ apply Hskip; [|done]. unfold live. simpl. by rewrite Hq. }
  destruct (list_find (fun e => e_seq e = s) q) as [[pos e]|] eqn:Hf.
  2:{ apply Hskip; [|done]. apply not_true_iff_false. rewrite live_iff. simpl. rewrite Hq. simpl.
      apply list_find_None in Hf. rewrite Forall_forall in Hf. intros (e & He & Hs). by apply (Hf e). }
  apply list_find_Some in Hf as (Hp & He & _). injection H as <- <-.
  assert (queue_of t k = q) as Hk by (unfold queue_of; by rewrite Hq).
  exists (tag k [e]). split_and!; try done.
  - eapply (moves_trans _ _ _ [] [] (tag k [e]) [] [] []); [|apply moves_order].
    apply (moves_put t k (delete pos q) _ _ _ [] [e]); try done; cbn -[Z.of_nat]; try lia.
    unfold queue_of. rewrite Hq. by apply delete_pos.
  - constructor; simpl.
    + intros k'. unfold queue_of; simpl. destruct (decide (k = k')) as [<-|Hne].
      * rewrite lookup_put, Hq. apply sublist_delete.
      * by rewrite lookup_put_ne.
    + apply put_nonempty.
    + by apply sublist_cons.
    + intros x Hx Hl. apply elem_of_cons in Hx as [->|Hx]; [|done]. exfalso.
      apply live_iff in Hl as (e' & He' & Hs). simpl in *. rewrite lookup_put in He'.
      specialize (Hseq k). rewrite Hk in Hseq. rewrite (delete_filter q pos e Hseq Hp) in He'.
      apply list_elem_of_In, List.filter_In in He' as [_ He']. unfold not_seq in He'. lia.
    + done.
Qed.

(** ** The invariant of the entries *)

Record core (t : SendTable) : Prop := {
  co_len : st_len t = Z.of_nat (List.length (stored t));
  co_nonempty : map_Forall (fun _ q => q <> []) (st_map t);
  co_queue k : Z.of_nat (List.length (queue_of t k)) <= QUEUE_MAX;
  co_seq k : sequenced (queue_of t k);
  co_order : StronglySorted (fun x y => x.1 < y.1) (st_order t);
  co_old : Forall (fun x => x.1 < st_next_seq t) (st_order t);
  co_cover x : live (st_map t) x = true -> x ∈ st_order t;
  co_account : inserted (st_counters t) = consumed (st_counters t) + evicted (st_counters t) +
                 expired (st_counters t) + tombstone_consumed (st_counters t) + st_len t;
  co_next : st_next_seq t = inserted (st_counters t);
  co_count : 0 <= inserted (st_counters t) }.

Lemma sublist_sorted {A} (R : A -> A -> Prop) l l' :
  l' `sublist_of` l -> StronglySorted R l -> StronglySorted R l'.
Proof.
  induction 1 as [|x l' l Hl IH|x l' l Hl IH]; intros H; [done| |];
    apply StronglySorted_inv in H as [H Hx]; [|by apply IH].
  constructor; [by apply IH|]. rewrite Forall_forall in *. intros y Hy. apply Hx.
  by eapply elem_of_sublist.
Qed.

Lemma core_step t t' hits lost : core t -> shrinks t t' -> moves t t' [] hits lost -> core t'.
Proof.
  intros C S (P & I & Co & X & L). specialize (L (co_len _ C)).
  apply Permutation_length in P. rewrite !length_app in P. simpl in P, I.
  pose proof (co_len _ C). pose proof (co_account _ C). constructor; try done.
  - by apply (sh_nonempty _ _ S), co_nonempty.
  - intros k. pose proof (co_queue _ C k). pose proof (sublist_length _ _ (sh_queue _ _ S k)). lia.
  - intros k. eapply sequenced_sublist; [apply (sh_queue _ _ S)|apply (co_seq _ C)].
  - eapply sublist_sorted; [apply (sh_order _ _ S)|apply (co_order _ C)].
  - rewrite (sh_seq _ _ S). pose proof (co_old _ C) as Ho. rewrite Forall_forall in *.
    intros x Hx. apply Ho. eapply elem_of_sublist; [exact Hx|apply (sh_order _ _ S)].
  - intros x Hx. apply (sh_cover _ _ S); [|done]. apply (co_cover _ C). by eapply live_shrinks.
  - lia.
  - rewrite (sh_seq _ _ S). pose proof (co_next _ C). lia.
  - pose proof (co_count _ C). lia.
Qed.

Lemma elem_stored k e m : (k, e) ∈ entries_in m <-> e ∈ default [] (m !! k).
Proof.
  unfold entries_in. rewrite list_elem_of_bind. split.
  - intros ([k' q] & He & Hq). simpl in He. apply list_elem_of_fmap in He as (x & ? & Hx). simplify_eq.
    apply elem_of_map_to_list in Hq. by rewrite Hq.
  - intros He. destruct (m !! k) as [q|] eqn:E; [|by apply not_elem_of_nil in He].
    exists (k, q). split; [|by apply elem_of_map_to_list]. by apply list_elem_of_fmap_2.
Qed.

Definition slot (x : SendKey * Entry) : Z * SendKey := (e_seq x.2, x.1).

Lemma live_slot m x : live m x = true <-> x ∈ map slot (entries_in m).
Proof.
  rewrite live_iff, list_elem_of_fmap. split.
  - intros (e & He & Hs). exists (x.2, e). unfold slot. simpl. rewrite Hs. split; [by destruct x|].
    by apply elem_stored.
  - intros ([k e] & -> & He). simpl. apply elem_stored in He. eauto.
Qed.

Lemma sorted_NoDup {A} (f : A -> Z) (l : list A) : StronglySorted (fun x y => f x < f y) l -> NoDup l.
Proof.
  induction 1 as [|x l H IH Hx]; constructor; [|done]. intros Hin.
  rewrite Forall_forall in Hx. specialize (Hx x Hin). lia.
Qed.

Lemma live_order_short t :
  core t -> (List.length (List.filter (live (st_map t)) (st_order t)) <= List.length (stored t))%nat.
Proof.
  intros C. rewrite <- (length_map slot (stored t)). apply submseteq_length, NoDup_submseteq.
  - eapply (sorted_NoDup fst), sublist_sorted; [apply filter_sublist|apply (co_order _ C)].
  - intros x Hx. apply list_elem_of_In, List.filter_In in Hx as [_ Hx]. by apply live_slot.
Qed.

Definition same_claims (t t' : SendTable) : Prop :=
  st_claims t' = st_claims t /\ st_claim_keys t' = st_claim_keys t /\
  st_next_claim t' = st_next_claim t.

Lemma compact_effect t :
  core t -> st_len t <= CAPACITY ->
  let t' := compact_order t in
  core t' /\ moves t t' [] [] [] /\ shrinks t t' /\ same_claims t t' /\
  Z.of_nat (List.length (st_order t')) <= CAPACITY * 2.
Proof.
  intros C Hl t'. subst t'. unfold compact_order.
  destruct (Z.leb_spec (Z.of_nat (List.length (st_order t))) (CAPACITY * 2)) as [H|H].
  { split_and!; [done|apply moves_refl|apply shrinks_refl|done..]. }
  assert (shrinks t (with_order t (List.filter (live (st_map t)) (st_order t)))) as S.
  { constructor; try done; simpl; [apply filter_sublist|]. intros x Hx Hxl.
    apply list_elem_of_In, List.filter_In. split; [by apply list_elem_of_In|done]. }
  split_and!; try done; [|apply moves_order|].
  - eapply core_step; [done|done|apply moves_order].
  - simpl. pose proof (live_order_short t C). pose proof (co_len _ C). unfold CAPACITY in *. lia.
Qed.

Lemma order_of_stored t : core t -> st_len t <> 0 -> exists x, x ∈ st_order t /\ live (st_map t) x = true.
Proof.
  intros C H. rewrite (co_len _ C) in H. destruct (stored t) as [|x l] eqn:E; [done|].
  assert (live (st_map t) (slot x) = true) as Hx by (apply live_slot; rewrite E; left).
  exists (slot x). split; [by apply (co_cover _ C)|done].
Qed.

Lemma evict_over_effect fuel t :
  core t -> st_len t <= CAPACITY + Z.of_nat fuel ->
  exists lost, let t' := evict_over fuel t in
    core t' /\ moves t t' [] [] lost /\ shrinks t t' /\ same_claims t t' /\ st_len t' <= CAPACITY.
Proof.
  revert t. induction fuel as [|fuel IH]; intros t C Hl; simpl.
  { exists []. split_and!; [done|apply moves_refl|apply shrinks_refl|done..|lia]. }
  destruct (Z.ltb_spec CAPACITY (st_len t)) as [H|H].
  2:{ exists []. split_and!; [done|apply moves_refl|apply shrinks_refl|done..]. }
  destruct (evict_oldest t) as [found t1] eqn:E.
  apply evict_from_effect in E as (lost & Hm & S & Hr & Hlen & Hf); [|apply (co_seq _ C)].
  destruct found.
  2:{ exfalso. destruct (order_of_stored t C) as (x & Hx & Hxl); [unfold CAPACITY in *; lia|].
      specialize (Hf eq_refl). rewrite Forall_forall in Hf. rewrite (Hf x Hx) in Hxl. done. }
  assert (with_order t (st_order t) = t) as Ht by (by destruct t). rewrite Ht in S.
  assert (core t1) as C1 by (by eapply core_step).
  destruct (IH t1 C1) as (lost' & C' & Hm' & S' & Hc' & Hl').
  - pose proof Hm as (P & _ & _ & _ & L). apply Permutation_length in P.
    rewrite !length_app in P. simpl in P. pose proof (co_len _ C1). pose proof (co_len _ C). lia.
  - exists (lost ++ lost'). split_and!; try done.
    + apply (moves_trans _ _ _ [] [] lost [] [] lost' Hm Hm').
    + by eapply shrinks_trans.
    + destruct Hr as (_ & _ & ? & ? & ?), Hc' as (? & ? & ?). simpl in *. split_and!; congruence.
Qed.

(** ** Insertion *)

Definition entry_for (t : SendTable) (s : KernelSend) : Entry :=
  {| e_seq := st_next_seq t; e_laddr := ks_laddr s; e_sent_wall_ns := ks_sent_wall_ns s;
     e_owner := ks_owner s |}.

Lemma make_room_spec q full q' :
  make_room q = (full, q') ->
  exists lost, q = lost ++ q' /\ List.length lost = (if full then 1%nat else 0%nat) /\
    (Z.of_nat (List.length q) <= QUEUE_MAX -> Z.of_nat (List.length q') < QUEUE_MAX).
Proof.
  unfold make_room. destruct (Z.leb_spec QUEUE_MAX (Z.of_nat (List.length q))) as [H|H].
  - destruct q as [|e q]; intros [= <- <-]; [exists []|exists [e]]; simpl in *; split_and!; try done; lia.
  - intros [= <- <-]. exists []. split_and!; (done || lia).
Qed.

Lemma push_queue t s full q :
  make_room (queue_of t (ks_key s)) = (full, q) ->
  st_map (push_entry t s) = <[ks_key s := q ++ [entry_for t s]]> (st_map t) /\
  st_len (push_entry t s) = (if full then sat_sub (st_len t) 1 else st_len t) + 1 /\
  st_counters (push_entry t s) = count (st_counters t) 1 0 (if full then 1 else 0) 0 0 0.
Proof. intros E. unfold push_entry. by rewrite E. Qed.

Lemma entries_insert_any k q m :
  entries_in (<[k := q]> m) ≡ₚ tag k q ++ entries_in (delete k m).
Proof. by rewrite (entries_split k), lookup_insert_eq, delete_insert_eq. Qed.

Lemma push_moves t s :
  exists lost, moves t (push_entry t s) [(ks_key s, entry_for t s)] [] lost.
Proof.
  destruct (make_room (queue_of t (ks_key s))) as [full q] eqn:E.
  destruct (push_queue t s full q E) as (Hm & Hl & Hc).
  destruct (make_room_spec _ _ _ E) as (lost & Hq & Hlost & _).
  exists (tag (ks_key s) lost). unfold moves. rewrite Hm, Hl, Hc.
  assert ((ks_key s, entry_for t s) :: stored t ≡ₚ
    tag (ks_key s) lost ++ entries_in (<[ks_key s := q ++ [entry_for t s]]> (st_map t))) as HP.
  { rewrite entries_insert_any, (entries_split (ks_key s) (st_map t)).
    fold (queue_of t (ks_key s)). rewrite Hq. unfold tag. rewrite !map_app. simpl. solve_Permutation. }
  unfold tag in *. apply Permutation_length in HP as HL. simpl in HL.
  rewrite length_app, length_map in HL. rewrite length_map.
  pose proof (Permutation_length (entries_split (ks_key s) (st_map t))) as HS.
  fold (queue_of t (ks_key s)) in HS. rewrite Hq in HS. unfold tag in HS.
  rewrite length_app, length_map, length_app in HS.
  split_and!; [exact HP|destruct full; cbn -[Z.of_nat Z.add] in *; unfold sat_sub..]; lia.
Qed.

Lemma queue_push t s full q k :
  make_room (queue_of t (ks_key s)) = (full, q) ->
  queue_of (push_entry t s) k = if decide (ks_key s = k) then q ++ [entry_for t s] else queue_of t k.
Proof.
  intros E. unfold queue_of at 1. rewrite (proj1 (push_queue t s full q E)).
  destruct (decide _) as [<-|Hk]; [by rewrite lookup_insert_eq|by rewrite lookup_insert_ne].
Qed.

Lemma sequenced_old t k e : core t -> e ∈ queue_of t k -> e_seq e < st_next_seq t.
Proof.
  intros C He. pose proof (co_old _ C) as Ho. rewrite Forall_forall in Ho.
  apply (Ho (e_seq e, k)). apply (co_cover _ C), live_iff. by exists e.
Qed.

Lemma core_push t s :
  core t -> inserted (st_counters t) < u64_max -> core (push_entry t s).
Proof.
  intros C Hi. destruct (push_moves t s) as (lost & P & I & Co & X & L).
  specialize (L (co_len _ C)). apply Permutation_length in P. rewrite !length_app in P. simpl in P, I, Co.
  destruct (make_room (queue_of t (ks_key s))) as [full q] eqn:E.
  pose proof (queue_push t s full q) as Hqueue.
  destruct (make_room_spec _ _ _ E) as (front & Hq & _ & Hroom).
  pose proof (co_account _ C). pose proof (co_len _ C). pose proof (co_next _ C) as Hn.
  assert (st_next_seq (push_entry t s) = st_next_seq t + 1) as Hnext.
  { unfold push_entry. rewrite E. simpl. apply Z.mod_small. unfold u64_max in Hi.
    pose proof (co_count _ C). lia. }
  assert (st_order (push_entry t s) = st_order t ++ [(st_next_seq t, ks_key s)]) as Ho
    by (unfold push_entry; by rewrite E).
  constructor; rewrite ?Ho, ?Hnext.
  - done.
  - rewrite (proj1 (push_queue t s full q E)). apply map_Forall_insert_2; [by destruct q|]. apply (co_nonempty _ C).
  - intros k. rewrite (Hqueue k E). destruct (decide _) as [<-|]; [|apply (co_queue _ C)].
    rewrite length_app. simpl. pose proof (co_queue _ C (ks_key s)). lia.
  - intros k. rewrite (Hqueue k E). destruct (decide _) as [<-|]; [|apply (co_seq _ C)].
    rewrite map_app. simpl. apply StronglySorted_snoc.
    + eapply sequenced_sublist; [|apply (co_seq _ C (ks_key s))]. rewrite Hq. by apply sublist_inserts_l.
    + apply Forall_forall. intros z Hz. apply list_elem_of_fmap in Hz as (e & -> & He).
      apply (sequenced_old t (ks_key s) e C). rewrite Hq. apply elem_of_app. by right.
  - apply StronglySorted_snoc; [apply (co_order _ C)|]. apply (co_old _ C).
  - apply Forall_app. split; [|constructor; [simpl; lia|done]].
    eapply Forall_impl; [apply (co_old _ C)|]. simpl. lia.
  - intros x Hx. apply elem_of_app. apply live_iff in Hx as (e & He & Hs).
    change (e ∈ queue_of (push_entry t s) x.2) in He. rewrite (Hqueue _ E) in He.
    destruct (decide _) as [Hk|]; [|left; apply (co_cover _ C), live_iff; eauto].
    apply elem_of_app in He as [He|He].
    + left. apply (co_cover _ C), live_iff. exists e. split; [|done].
      fold (queue_of t x.2). rewrite <- Hk, Hq. apply elem_of_app. by right.
    + apply list_elem_of_singleton in He as ->. right. apply list_elem_of_singleton.
      destruct x. simpl in *. by subst.
  - lia.
  - lia.
  - pose proof (co_count _ C). lia.
Qed.

(** ** The invariant of the claims *)

Record claims_wf (t : SendTable) : Prop := {
  cw_nonempty : map_Forall (fun _ l => l <> []) (st_claims t);
  cw_ranked k : ranked (claims_of t k);
  cw_nodup k : NoDup (map c_id (claims_of t k));
  cw_key k c : c ∈ claims_of t k -> st_claim_keys t !! c_id c = Some k;
  cw_claim id k : st_claim_keys t !! id = Some k -> exists c, c ∈ claims_of t k /\ c_id c = id;
  cw_fresh id k : st_claim_keys t !! id = Some k -> id < st_next_claim t }.

Lemma claims_of_eq t t' k : st_claims t' = st_claims t -> claims_of t' k = claims_of t k.
Proof. intros H. unfold claims_of. by rewrite H. Qed.

Lemma claims_wf_same t t' : same_claims t t' -> claims_wf t -> claims_wf t'.
Proof.
  intros (H1 & H2 & H3) W. destruct W. unfold claims_of in *.
  constructor; unfold claims_of; rewrite ?H1, ?H2, ?H3; done.
Qed.

(** Dropping the claims with some ids, from the lists and from the index. *)
Lemma claims_wf_drop t t' (keep : Z -> bool) :
  claims_wf t -> map_Forall (fun _ l => l <> []) (st_claims t') ->
  (forall k, claims_of t' k = List.filter (fun c => keep (c_id c)) (claims_of t k)) ->
  (forall id, st_claim_keys t' !! id = if keep id then st_claim_keys t !! id else None) ->
  st_next_claim t' = st_next_claim t -> claims_wf t'.
Proof.
  intros W Hne Hc Hk Hn. constructor; try done.
  - intros k. rewrite Hc. eapply sublist_sorted; [apply filter_sublist|apply (cw_ranked _ W)].
  - intros k. rewrite Hc. pose proof (cw_nodup _ W k) as Hd. clear -Hd.
    induction (claims_of t k) as [|c l IH]; simpl in *; [done|].
    apply NoDup_cons in Hd as [Hx Hd]. destruct (keep (c_id c)); [|by apply IH].
    simpl. constructor; [|by apply IH]. intros Hin. apply Hx.
    apply list_elem_of_fmap in Hin as (d & -> & Hd'). apply list_elem_of_fmap_2.
    eapply elem_of_sublist; [exact Hd'|apply filter_sublist].
  - intros k c. rewrite Hc. intros H%list_elem_of_In%List.filter_In. destruct H as [H Hkeep].
    rewrite Hk, Hkeep. apply (cw_key _ W). by apply list_elem_of_In.
  - intros id k. rewrite Hk. destruct (keep id) eqn:E; [|done]. intros H.
    destruct (cw_claim _ W id k H) as (c & Hin & <-). exists c. split; [|done]. rewrite Hc.
    apply list_elem_of_In, List.filter_In. split; [by apply list_elem_of_In|done].
  - intros id k. rewrite Hk, Hn. destruct (keep id); [|done]. apply (cw_fresh _ W).
Qed.

Lemma lookup_foldl_delete (m : gmap Z SendKey) ids id :
  foldl (fun m id => delete id m) m ids !! id = if not_in ids id then m !! id else None.
Proof.
  revert m. induction ids as [|x ids IH]; intros m; [done|]. simpl. rewrite IH.
  unfold not_in. destruct (bool_decide (id ∈ ids)) eqn:E; simpl.
  - apply bool_decide_eq_true in E. rewrite bool_decide_eq_true_2 by (by right). done.
  - apply bool_decide_eq_false in E. destruct (decide (id = x)) as [->|Hne].
    + rewrite lookup_delete_eq, bool_decide_eq_true_2 by left. done.
    + rewrite lookup_delete_ne, bool_decide_eq_false_2 by (rewrite ?elem_of_cons; naive_solver). done.
Qed.

(** The ids of one key's claims are not those of another's. *)
Lemma foreign_ids t k k' ids :
  claims_wf t -> (forall id, id ∈ ids -> st_claim_keys t !! id = Some k) -> k <> k' ->
  claims_of t k' = List.filter (fun c => not_in ids (c_id c)) (claims_of t k').
Proof.
  intros W H Hk. symmetry. apply filter_true, Forall_forall. intros c Hc. apply not_in_true.
  intros Hin. apply H in Hin. apply (cw_key _ W) in Hc. congruence.
Qed.

Lemma claims_of_put t t' key l k :
  st_claims t' = put_list key l (st_claims t) ->
  claims_of t' k = if decide (key = k) then l else claims_of t k.
Proof.
  intros H. unfold claims_of. rewrite H. destruct (decide _) as [<-|Hk]; [apply lookup_put|by rewrite lookup_put_ne].
Qed.

Lemma drop_ids_wf t t' key ids :
  claims_wf t -> (forall id, id ∈ ids -> st_claim_keys t !! id = Some key) ->
  st_claims t' = put_list key (List.filter (fun c => not_in ids (c_id c)) (claims_of t key)) (st_claims t) ->
  st_claim_keys t' = foldl (fun m id => delete id m) (st_claim_keys t) ids ->
  st_next_claim t' = st_next_claim t -> claims_wf t'.
Proof.
  intros W H Hc Hk Hn. apply (claims_wf_drop t t' (not_in ids)); try done.
  - rewrite Hc. apply put_nonempty, (cw_nonempty _ W).
  - intros k. rewrite (claims_of_put _ _ _ _ _ Hc). destruct (decide _) as [<-|Hne]; [done|].
    by eapply foreign_ids.
  - intros id. rewrite Hk. apply lookup_foldl_delete.
Qed.

Lemma dead_ids_keyed t key id :
  claims_wf t -> id ∈ dead_ids (claims_of t key) (queue_of t key) -> st_claim_keys t !! id = Some key.
Proof.
  intros W H. apply list_elem_of_fmap in H as ([c e] & -> & Hp). simpl. apply (cw_key _ W).
  unfold settled_pairs in Hp. apply list_elem_of_In, List.filter_In in Hp as [Hp _].
  destruct (match_claims (senior top_rank (claims_of t key)) (queue_of t key)) as [ps rest] eqn:M.
  apply match_claims_sublist in M. eapply elem_of_sublist; [|apply filter_sublist].
  eapply elem_of_sublist; [|exact M]. apply list_elem_of_fmap. exists (c, e). split; [done|].
  by apply list_elem_of_In.
Qed.

Lemma settle_wf t key :
  core t -> claims_wf t ->
  exists lost, let t' := settle_tombstones t key in
    core t' /\ claims_wf t' /\ moves t t' [] [] lost /\ shrinks t t' /\
    st_claim_keys t' ⊆ st_claim_keys t.
Proof.
  intros C W. destruct (settle_effect t key (cw_ranked _ W key) (co_seq _ C key)) as [[-> _]|H].
  { exists []. split_and!; [done|done|apply moves_refl|apply shrinks_refl|done]. }
  destruct H as (Hm & Hc & Hk & Ho & Hs & Hn & Hmv). eexists. cbv zeta.
  assert (shrinks t (settle_tombstones t key)) as S.
  { eapply shrinks_put; [|exact Hm|exact Ho|exact Hs]. apply filter_sublist. }
  split_and!; try done.
  - by eapply core_step.
  - eapply drop_ids_wf; [exact W| |exact Hc|exact Hk|exact Hn]. intros id. by apply dead_ids_keyed.
  - rewrite Hk. apply map_subseteq_spec. intros i x. rewrite lookup_foldl_delete.
    by destruct (not_in _ i).
Qed.

(** ** Every operation keeps the invariant *)

Record wf (t : SendTable) : Prop := {
  wf_core : core t;
  wf_claims : claims_wf t;
  wf_cap : st_len t <= CAPACITY;
  wf_order : Z.of_nat (List.length (st_order t)) <= CAPACITY * 2;
  wf_index : Z.of_nat (size (st_claim_keys t)) <= CAPACITY }.

Lemma size_mono (m m' : gmap Z SendKey) n :
  m' ⊆ m -> Z.of_nat (size m) <= n -> Z.of_nat (size m') <= n.
Proof. intros H. pose proof (map_subseteq_size _ _ H). lia. Qed.

Lemma wf_new : wf send_table_new.
Proof.
  assert (forall A k, default [] ((∅ : gmap SendKey (list A)) !! k) = []) as Hd
    by (intros; by rewrite lookup_empty).
  constructor; simpl; try (unfold CAPACITY; rewrite ?map_size_empty; lia).
  - constructor; simpl; try done; try constructor.
  - constructor; unfold claims_of; simpl; try done.
    + intros k. rewrite Hd. constructor.
    + intros k. rewrite Hd. constructor.
    + intros k c. rewrite Hd. by intros ?%not_elem_of_nil.
Qed.

Lemma insert_wf t s :
  wf t -> inserted (st_counters t) < u64_max ->
  exists lost, wf (table_insert t s) /\
    moves t (table_insert t s) [(ks_key s, entry_for t s)] [] lost.
Proof.
  intros W Hi. unfold table_insert. destruct (push_moves t s) as (l1 & M1).
  set (t1 := push_entry t s) in *. assert (core t1) as C1 by (by apply core_push; [apply W|]).
  assert (same_claims t t1) as Sc by (subst t1; unfold push_entry; by destruct (make_room _)).
  assert (claims_wf t1) as W1 by (eapply claims_wf_same, W; exact Sc).
  destruct (settle_wf t1 (ks_key s) C1 W1) as (l2 & C2 & W2 & M2 & S2 & K2).
  set (t2 := settle_tombstones t1 (ks_key s)) in *.
  assert (moves t2 (publish t2) [] [] []) as M3.
  { apply moves_same; try done. exists 0. unfold count. simpl. rewrite !Z.add_0_r. by destruct (st_counters t2). }
  assert (core (publish t2)) as C3 by (eapply core_step; [exact C2|by apply shrinks_same|exact M3]).
  assert (claims_wf (publish t2)) as W3 by (by eapply claims_wf_same, W2).
  set (t3 := publish t2) in *.
  destruct (evict_over_effect (S (List.length (st_order t3))) t3 C3) as (l4 & C4 & M4 & S4 & Sc4 & L4).
  { pose proof (moves_trans _ _ _ _ _ _ _ _ _ M1 (moves_trans _ _ _ _ _ _ _ _ _ M2 M3)) as (P & _).
    apply Permutation_length in P. rewrite !length_app in P. cbn [List.length] in P.
    pose proof (wf_cap _ W). pose proof (co_len _ (wf_core _ W)). pose proof (co_len _ C3). lia. }
  set (t4 := evict_over _ t3) in *.
  destruct (compact_effect t4 C4 L4) as (C5 & M5 & S5 & Sc5 & O5).
  exists (l1 ++ l2 ++ l4). split.
  - assert (same_claims t3 (compact_order t4)) as Sc6.
    { destruct Sc4 as (? & ? & ?), Sc5 as (? & ? & ?). split_and!; congruence. }
    constructor; try done.
    + by eapply claims_wf_same.
    + pose proof M5 as (P & _ & _ & _ & L). apply Permutation_length in P.
      pose proof (co_len _ C5). pose proof (co_len _ C4). simpl in P. lia.
    + rewrite (proj1 (proj2 Sc6)). eapply size_mono; [exact K2|].
      rewrite (proj1 (proj2 Sc)). apply W.
  - pose proof (moves_trans _ _ _ _ _ _ _ _ _ M1 (moves_trans _ _ _ _ _ _ _ _ _ M2
      (moves_trans _ _ _ _ _ _ _ _ _ M3 (moves_trans _ _ _ _ _ _ _ _ _ M4 M5)))) as M.
    simpl in M. by rewrite app_nil_r in M.
Qed.

Lemma spec_take_sublist cs q laddr ts rk o q' :
  spec_take cs q laddr ts rk = (o, q') -> q' `sublist_of` q.
Proof.
  unfold spec_take. destruct (pick _ _ _) as [[e rest]|]; intros [= <- <-].
  - etrans; [apply filter_sublist|apply filter_sublist].
  - apply filter_sublist.
Qed.

Lemma spec_take_hit cs q laddr ts rk e q' :
  spec_take cs q laddr ts rk = (Some e, q') -> e ∈ q /\ eligible e laddr ts = true.
Proof.
  unfold spec_take. destruct (match_claims _ _) as [ps rest] eqn:M. simpl.
  destruct (pick laddr ts rest) as [[x r]|] eqn:P; intros H; simplify_eq.
  apply pick_some in P as (a & b & -> & _ & He & _). split; [|done].
  apply match_perm in M.
  assert (e ∈ fresh_for cs ts q) as Hin by (rewrite M, !elem_of_app; right; right; left).
  eapply elem_of_sublist; [exact Hin|apply filter_sublist].
Qed.

Lemma take_wf t key laddr ts rk hit t' :
  wf t -> take_ranked t key laddr ts rk = (hit, t') ->
  exists o lost, wf t' /\ same_claims t t' /\ hit = option_map e_owner o /\
    moves t t' [] (tag key (option_list o)) lost /\
    Forall (fun e => eligible e laddr ts = true) (option_list o).
Proof.
  intros W H. apply take_ranked_effect in H as (o & q & lost & Hs & Hh & Hm & Hr & Hmv).
  2:{ apply (cw_ranked _ (wf_claims _ W)). } 2:{ apply (co_seq _ (wf_core _ W)). }
  destruct Hr as (Ho & Hn & Hc & Hk & Hnc).
  assert (shrinks t t') as S by (eapply shrinks_put; [by eapply spec_take_sublist|done..]).
  assert (core t') as C' by (eapply core_step; [apply W|done|exact Hmv]).
  exists o, (tag key lost). split_and!; try done.
  - constructor; try done.
    + eapply claims_wf_same, W; done.
    + pose proof Hmv as (P & _). apply Permutation_length in P. rewrite !length_app in P. simpl in P.
      pose proof (co_len _ C'). pose proof (co_len _ (wf_core _ W)). pose proof (wf_cap _ W). lia.
    + rewrite Ho. apply W.
    + rewrite Hk. apply W.
  - destruct o as [e|]; simpl; [|done]. constructor; [|done]. by apply spec_take_hit in Hs as [_ ?].
Qed.

(** Operations on claims leave the entries alone. *)
Definition same_entries (t t' : SendTable) : Prop :=
  st_map t' = st_map t /\ st_order t' = st_order t /\ st_next_seq t' = st_next_seq t /\
  st_len t' = st_len t /\ exists d, st_counters t' = count (st_counters t) 0 0 0 0 d 0.

Lemma count_zero c : count c 0 0 0 0 0 0 = c.
Proof. unfold count. rewrite !Z.add_0_r. by destruct c. Qed.

Lemma same_entries_refl t : same_entries t t.
Proof. split_and!; try done. exists 0. by rewrite count_zero. Qed.

Lemma same_entries_trans t1 t2 t3 : same_entries t1 t2 -> same_entries t2 t3 -> same_entries t1 t3.
Proof.
  intros (A1 & A2 & A3 & A4 & d1 & A5) (B1 & B2 & B3 & B4 & d2 & B5).
  split_and!; try congruence. exists (d1 + d2). rewrite B5, A5. unfold count. simpl. f_equal; lia.
Qed.

Lemma same_entries_wf t t' :
  wf t -> same_entries t t' -> claims_wf t' -> Z.of_nat (size (st_claim_keys t')) <= CAPACITY ->
  wf t' /\ moves t t' [] [] [].
Proof.
  intros W (H1 & H2 & H3 & H4 & H5) Wc Hs.
  assert (moves t t' [] [] []) as M by (by apply moves_same).
  split; [|done]. constructor; try done.
  - eapply core_step; [apply W|by apply shrinks_same|exact M].
  - rewrite H4. apply W.
  - rewrite H2. apply W.
Qed.

Lemma claims_of_lookup t key l : st_claims t !! key = Some l -> claims_of t key = l.
Proof. unfold claims_of. by intros ->. Qed.

Lemma not_in_one id c : negb (c =? id) = not_in [id] c.
Proof.
  unfold not_in. f_equal. destruct (Z.eqb_spec c id) as [->|H]; symmetry.
  - apply bool_decide_eq_true. left.
  - apply bool_decide_eq_false. by rewrite list_elem_of_singleton.
Qed.

(** Removing an id from the index and its claim from its list. *)
Definition forget (t : SendTable) (id : Z) (key : SendKey) : SendTable :=
  detach_claim (with_claims t (st_claims t) (delete id (st_claim_keys t)) (st_next_claim t)
                  (st_counters t)) id key.

Lemma forget_effect t id key :
  claims_wf t -> st_claim_keys t !! id = Some key ->
  claims_wf (forget t id key) /\ same_entries t (forget t id key) /\
  st_claim_keys (forget t id key) = delete id (st_claim_keys t) /\
  claims_of (forget t id key) key = List.filter (fun c => not_in [id] (c_id c)) (claims_of t key).
Proof.
  intros W H. destruct (cw_claim _ W id key H) as (c & Hc & _).
  unfold forget, detach_claim. simpl.
  destruct (st_claims t !! key) as [l|] eqn:El.
  2:{ unfold claims_of in Hc. rewrite El in Hc. by apply not_elem_of_nil in Hc. }
  assert (List.filter (fun c => negb (c_id c =? id)) l =
          List.filter (fun c => not_in [id] (c_id c)) (claims_of t key)) as ->.
  { rewrite (claims_of_lookup _ _ _ El). apply filter_ext. intros d _. apply not_in_one. }
  split_and!; try done.
  - eapply (drop_ids_wf t _ key [id]); try done.
    intros id' ->%list_elem_of_singleton. done.
  - unfold same_entries. split_and!; try done. exists 0. by rewrite count_zero.
  - unfold claims_of at 1. simpl. apply lookup_put.
Qed.

Lemma release_wf t id : wf t -> wf (release t id) /\ moves t (release t id) [] [] [].
Proof.
  intros W. unfold release. destruct (st_claim_keys t !! id) as [key|] eqn:E.
  2:{ split; [done|apply moves_refl]. }
  destruct (forget_effect t id key (wf_claims _ W) E) as (Wc & Se & Hk & _).
  apply same_entries_wf; try done. fold (forget t id key). rewrite Hk.
  eapply size_mono, W. apply delete_subseteq.
Qed.

Lemma insert_claim_split c l :
  exists a b, insert_claim c l = a ++ c :: b /\ l = a ++ b /\
    Forall (fun x => rank_lt (rank x) (rank c)) a /\
    match b with [] => True | x :: _ => rank_ltb (rank x) (rank c) = false end.
Proof.
  unfold insert_claim. induction l as [|x l IH]; [by exists [], []|].
  destruct (rank_ltb (rank x) (rank c)) eqn:E; [|by exists [], (x :: l)].
  set (split := (fix split l := match l with
                    | x :: l' => if rank_ltb (rank x) (rank c)
                                 then let '(a, b) := split l' in (x :: a, b) else ([], l)
                    | [] => ([], [])
                    end)) in *.
  destruct (split l) as [a b]. destruct IH as (a' & b' & H1 & -> & Ha & Hb).
  exists (x :: a'), b'. split_and!; try done; [simpl; by rewrite H1|by constructor].
Qed.

Lemma insert_claim_ranked c l :
  ranked l -> Forall (fun x => c_id x < c_id c) l -> ranked (insert_claim c l).
Proof.
  intros Hr Hid. destruct (insert_claim_split c l) as (a & b & -> & -> & Ha & Hb).
  apply Forall_app in Hid as [_ Hid]. induction Ha as [|x a Hx Ha IH]; simpl in *.
  - constructor; [done|]. destruct b as [|y b]; [done|].
    apply Forall_cons in Hid as [Hy _]. apply StronglySorted_inv in Hr as [_ Hr].
    assert (rank_lt (rank c) (rank y)) as Hcy.
    { apply rank_lt_iff. apply not_true_iff_false in Hb. fold (rank_lt (rank y) (rank c)) in Hb.
      rewrite rank_lt_iff in Hb. unfold rank in *. simpl in *. lia. }
    constructor; [done|]. eapply Forall_impl; [exact Hr|]. intros z Hz. rewrite rank_lt_iff in *. lia.
  - apply StronglySorted_inv in Hr as [Hr Hf]. constructor; [by apply IH|].
    apply Forall_app in Hf as [Hfa Hfb]. apply Forall_app. split; [done|]. by constructor.
Qed.

Lemma insert_claim_perm c l : insert_claim c l ≡ₚ c :: l.
Proof. destruct (insert_claim_split c l) as (a & b & -> & -> & _). by rewrite Permutation_middle. Qed.

Definition add_claim (t : SendTable) (key : SendKey) (laddr : IpAddr) (ts : Z) : SendTable :=
  let id := st_next_claim t in
  let c := {| c_id := id; c_laddr := laddr; c_packet_wall_ns := ts; c_tomb := false |} in
  with_claims t (<[key := insert_claim c (claims_of t key)]> (st_claims t))
    (<[id := key]> (st_claim_keys t)) (id + 1) (st_counters t).

Lemma fresh_claim t k c : claims_wf t -> c ∈ claims_of t k -> c_id c < st_next_claim t.
Proof. intros W Hc. eapply (cw_fresh _ W), (cw_key _ W), Hc. Qed.

Lemma add_claim_wf t key laddr ts : claims_wf t -> claims_wf (add_claim t key laddr ts).
Proof.
  intros W. unfold add_claim. set (c := {| c_id := _; c_laddr := laddr |}). set (t' := with_claims _ _ _ _ _).
  assert (forall k, claims_of t' k = if decide (key = k) then insert_claim c (claims_of t key)
            else claims_of t k) as Hc.
  { intros k. unfold claims_of at 1. simpl.
    destruct (decide _) as [<-|Hk]; [by rewrite lookup_insert_eq|by rewrite lookup_insert_ne]. }
  assert (st_claim_keys t !! st_next_claim t = None) as Hfresh.
  { destruct (_ !! _) as [k|] eqn:E; [|done]. apply (cw_fresh _ W) in E. lia. }
  constructor.
  - simpl. apply map_Forall_insert_2; [|apply (cw_nonempty _ W)].
    destruct (insert_claim_split c (claims_of t key)) as (a & b & -> & _). by destruct a.
  - intros k. rewrite Hc. destruct (decide _) as [<-|]; [|apply (cw_ranked _ W)].
    apply insert_claim_ranked; [apply (cw_ranked _ W)|]. apply Forall_forall. intros x Hx.
    by eapply fresh_claim.
  - intros k. rewrite Hc. destruct (decide _) as [<-|]; [|apply (cw_nodup _ W)].
    rewrite insert_claim_perm. simpl. constructor; [|apply (cw_nodup _ W)].
    intros (x & Hx & Hin)%list_elem_of_fmap. pose proof (fresh_claim t key x W Hin). lia.
  - intros k d. rewrite Hc. simpl. destruct (decide _) as [<-|Hk].
    + rewrite insert_claim_perm. intros [->|Hd]%elem_of_cons; [by rewrite lookup_insert_eq|].
      pose proof (fresh_claim t key d W Hd). rewrite lookup_insert_ne by lia. by apply (cw_key _ W).
    + intros Hd. pose proof (fresh_claim t k d W Hd). rewrite lookup_insert_ne by lia. by apply (cw_key _ W).
  - intros id k. simpl. rewrite Hc. destruct (decide (st_next_claim t = id)) as [<-|Hne].
    + rewrite lookup_insert_eq. intros [= <-]. rewrite decide_True by done. exists c.
      split; [rewrite insert_claim_perm; left|done].
    + rewrite lookup_insert_ne by done. intros H. destruct (cw_claim _ W id k H) as (d & Hd & <-).
      exists d. split; [|done]. destruct (decide _) as [<-|]; [rewrite insert_claim_perm; by right|done].
  - intros id k. simpl. destruct (decide (st_next_claim t = id)) as [<-|Hne]; [lia|].
    rewrite lookup_insert_ne by done. intros H%(cw_fresh _ W). lia.
Qed.

Lemma first_key_spec m :
  match first_key m with
  | Some (k, v) => m !! k = Some v /\ (forall k' v', m !! k' = Some v' -> k <= k')
  | None => m = ∅
  end.
Proof.
  unfold first_key. assert (forall l, match foldr (fun x acc => match acc with
      | Some y => if x.1 <? y.1 then Some x else acc | None => Some x end) None l with
      | Some x => x ∈ l /\ (forall y, y ∈ l -> x.1 <= (y : Z * SendKey).1) | None => l = [] end) as H.
  { induction l as [|x l IH]; simpl; [done|].
    destruct (foldr _ None l) as [y|]; [|subst l].
    - destruct IH as [Hy IH]. destruct (Z.ltb_spec x.1 y.1).
      + split; [left|]. intros z [->|Hz]%elem_of_cons; [lia|]. specialize (IH z Hz). lia.
      + split; [by right|]. intros z [->|Hz]%elem_of_cons; [lia|by apply IH].
    - split; [left|]. intros z [->|Hz]%elem_of_cons; [lia|by apply not_elem_of_nil in Hz]. }
  specialize (H (map_to_list m)). destruct (foldr _ None _) as [[k v]|].
  - destruct H as [H1 H2]. split; [by apply elem_of_map_to_list|]. intros k' v' Hk.
    apply elem_of_map_to_list in Hk. apply (H2 _ Hk).
  - by apply map_to_list_empty_iff.
Qed.

Lemma drop_claims_effect fuel t :
  claims_wf t -> Z.of_nat (size (st_claim_keys t)) <= CAPACITY + Z.of_nat fuel ->
  let t' := drop_claims fuel t in
  claims_wf t' /\ same_entries t t' /\ Z.of_nat (size (st_claim_keys t')) <= CAPACITY.
Proof.
  revert t. induction fuel as [|fuel IH]; intros t W H; simpl.
  { split_and!; [done|apply same_entries_refl|lia]. }
  destruct (Z.ltb_spec CAPACITY (Z.of_nat (size (st_claim_keys t)))) as [Hc|Hc].
  2:{ split_and!; [done|apply same_entries_refl|done]. }
  pose proof (first_key_spec (st_claim_keys t)) as Hf.
  destruct (first_key (st_claim_keys t)) as [[old k]|].
  2:{ exfalso. rewrite Hf, map_size_empty in Hc. unfold CAPACITY in Hc. lia. }
  destruct Hf as [Hf _]. destruct (forget_effect t old k W Hf) as (W1 & S1 & K1 & _).
  fold (forget t old k). set (t1 := forget t old k) in *. set (t2 := with_claims t1 _ _ _ _).
  assert (claims_wf t2) as W2 by (by eapply claims_wf_same, W1).
  destruct (IH t2 W2) as (W3 & S3 & C3).
  { change (st_claim_keys t2) with (st_claim_keys t1). rewrite K1, map_size_delete_Some by eauto. unfold CAPACITY in *. lia. }
  split_and!; [done| |done]. eapply same_entries_trans; [exact S1|].
  eapply same_entries_trans; [|exact S3]. unfold same_entries. split_and!; try done. by exists 1.
Qed.

Lemma claim_wf t key laddr ts :
  wf t -> wf (table_claim t key laddr ts).2 /\ moves t (table_claim t key laddr ts).2 [] [] [].
Proof.
  intros W. assert ((table_claim t key laddr ts).2 =
    drop_claims (S (size (st_claim_keys (add_claim t key laddr ts)))) (add_claim t key laddr ts)) as ->
    by reflexivity.
  pose proof (add_claim_wf t key laddr ts (wf_claims _ W)) as Wa.
  destruct (drop_claims_effect (S (size (st_claim_keys (add_claim t key laddr ts))))
    (add_claim t key laddr ts) Wa) as (Wd & Sd & Cd); [unfold CAPACITY; lia|].
  by apply same_entries_wf.
Qed.


Definition same_claim (c d : Claim) : Prop :=
  c_id c = c_id d /\ c_laddr c = c_laddr d /\ c_packet_wall_ns c = c_packet_wall_ns d.

Lemma entomb_same id l : Forall2 same_claim (entomb id l) l.
Proof.
  induction l as [|c l IH]; simpl; [done|]. destruct (c_id c =? id); constructor; try done.
  clear. by induction l; constructor.
Qed.

Lemma same_claims_ranked l l' : Forall2 same_claim l' l -> ranked l -> ranked l'.
Proof.
  induction 1 as [|c' c l' l (H1 & H2 & H3) F IH]; intros Hr; [done|].
  apply StronglySorted_inv in Hr as [Hr Hc]. constructor; [by apply IH|].
  clear IH Hr. induction F as [|d' d l' l (D1 & D2 & D3) F IH]; [done|].
  apply Forall_cons in Hc as [Hd Hc]. constructor; [|by apply IH].
  unfold rank in *. by rewrite H1, H3, D1, D3.
Qed.

Lemma same_claims_ids l l' : Forall2 same_claim l' l -> map c_id l' = map c_id l.
Proof. induction 1 as [|c' c l' l (H & _) F IH]; simpl; [done|]. by rewrite H, IH. Qed.

Lemma elem_ids (P : Z -> Prop) l l' :
  map c_id l' = map c_id l -> (forall c, c ∈ l -> P (c_id c)) -> forall c, c ∈ l' -> P (c_id c).
Proof.
  intros H HP c Hc. assert (c_id c ∈ map c_id l) as Hin by (rewrite <- H; by apply list_elem_of_fmap_2).
  apply list_elem_of_fmap in Hin as (d & -> & Hd). by apply HP.
Qed.

(** Replacing one key's claims by claims with the same ids and packets. *)
Lemma relabel_wf t t' key l :
  claims_wf t -> Forall2 same_claim l (claims_of t key) -> l <> [] ->
  st_claims t' = <[key := l]> (st_claims t) -> st_claim_keys t' = st_claim_keys t ->
  st_next_claim t' = st_next_claim t -> claims_wf t'.
Proof.
  intros W F Hl Hc Hk Hn.
  assert (forall k, claims_of t' k = if decide (key = k) then l else claims_of t k) as Hof.
  { intros k. unfold claims_of. rewrite Hc.
    destruct (decide _) as [<-|?]; [by rewrite lookup_insert_eq|by rewrite lookup_insert_ne]. }
  pose proof (same_claims_ids _ _ F) as Hids. constructor; rewrite ?Hc, ?Hk, ?Hn.
  - apply map_Forall_insert_2; [done|apply (cw_nonempty _ W)].
  - intros k. rewrite Hof. destruct (decide _) as [<-|]; [|apply (cw_ranked _ W)].
    eapply same_claims_ranked; [done|apply (cw_ranked _ W)].
  - intros k. rewrite Hof. destruct (decide _) as [<-|]; [|apply (cw_nodup _ W)].
    rewrite Hids. apply (cw_nodup _ W).
  - intros k c. rewrite Hof. destruct (decide _) as [<-|]; [|apply (cw_key _ W)].
    apply (elem_ids (fun id => st_claim_keys t !! id = Some key) (claims_of t key)); [done|].
    apply (cw_key _ W).
  - intros id k H. destruct (cw_claim _ W id k H) as (c & Hin & <-). rewrite Hof.
    destruct (decide _) as [<-|]; [|by exists c].
    assert (c_id c ∈ map c_id l) as Hx by (rewrite Hids; by apply list_elem_of_fmap_2).
    apply list_elem_of_fmap in Hx as (d & Hd & Hin'). by exists d.
  - apply (cw_fresh _ W).
Qed.

Lemma abandon_wf t id :
  wf t -> exists lost, wf (abandon t id) /\ moves t (abandon t id) [] [] lost.
Proof.
  intros W. unfold abandon. destruct (st_claim_keys t !! id) as [key|] eqn:E.
  2:{ exists []. split; [done|apply moves_refl]. }
  set (t1 := match st_claims t !! key with Some l => _ | None => t end).
  assert (wf t1 /\ moves t t1 [] [] []) as [W1 M1].
  { subst t1. destruct (st_claims t !! key) as [l|] eqn:El; [|split; [done|apply moves_refl]].
    pose proof (claims_of_lookup _ _ _ El) as Hl. apply same_entries_wf; [done| | |apply W].
    - unfold same_entries. split_and!; try done. exists 0. by rewrite count_zero.
    - eapply relabel_wf; [apply W| | |done..]; [rewrite Hl; apply entomb_same|].
      pose proof (cw_nonempty _ (wf_claims _ W) key l El) as Hne.
      destruct l as [|c l]; [done|]. simpl. by destruct (c_id c =? id). }
  destruct (settle_wf t1 key (wf_core _ W1) (wf_claims _ W1)) as (lost & C2 & W2 & M2 & S2 & K2).
  exists lost. split; [|by apply (moves_trans _ _ _ [] [] [] [] [] lost M1 M2)].
  constructor; try done.
  - pose proof M2 as (P & _). apply Permutation_length in P. rewrite !length_app in P. simpl in P.
    pose proof (co_len _ C2). pose proof (co_len _ (wf_core _ W1)). pose proof (wf_cap _ W1). lia.
  - pose proof (sublist_length _ _ (sh_order _ _ S2)). pose proof (wf_order _ W1). lia.
  - eapply size_mono; [exact K2|apply W1].
Qed.

Lemma take_claimed_wf t id key laddr ts hit t' :
  wf t -> take_claimed t id key laddr ts = (hit, t') ->
  exists o lost, wf t' /\ hit = option_map e_owner o /\
    moves t t' [] (tag key (option_list o)) lost /\
    Forall (fun e => eligible e laddr ts = true) (option_list o).
Proof.
  intros W. unfold take_claimed. destruct (take_ranked _ _ _ _ _) as [h t1] eqn:E.
  destruct (take_wf _ _ _ _ _ _ _ W E) as (o & lost & W1 & _ & -> & M1 & He).
  destruct o as [e|]; simpl; intros [= <- <-]; [|by exists None, lost].
  destruct (release_wf t1 id W1) as [W2 M2]. exists (Some e), lost. split_and!; try done.
  pose proof (moves_trans _ _ _ _ _ _ _ _ _ M1 M2) as M. by rewrite !app_nil_r in M.
Qed.

Lemma retain_nonempty {A} (f : A -> bool) (m : gmap SendKey (list A)) :
  map_Forall (fun _ l => l <> []) (retain_lists f m).
Proof.
  intros k l H. unfold retain_lists in H. apply lookup_omap_Some in H as (l0 & H & _).
  by destruct (List.filter f l0); simplify_eq.
Qed.

Definition expired_queues (t : SendTable) (cutoff : Z) : SendTable :=
  let m := retain_lists (fun e => cutoff <=? e_sent_wall_ns e) (st_map t) in
  let removed := Z.of_nat (total (st_map t)) - Z.of_nat (total m) in
  with_queues t m (sat_sub (st_len t) removed) (count (st_counters t) 0 0 0 removed 0 0).

Lemma expired_queues_effect t cutoff :
  core t -> exists lost, core (expired_queues t cutoff) /\ moves t (expired_queues t cutoff) [] [] lost /\
    shrinks t (expired_queues t cutoff).
Proof.
  intros C. set (f := fun e => cutoff <=? e_sent_wall_ns e).
  exists (kept (fun e => negb (f e)) (stored t)).
  assert (shrinks t (expired_queues t cutoff)) as S.
  { constructor; try done; simpl.
    - intros k. unfold queue_of. simpl. rewrite lookup_retain. apply filter_sublist.
    - intros _. apply retain_nonempty. }
  assert (moves t (expired_queues t cutoff) [] [] (kept (fun e => negb (f e)) (stored t))) as M.
  { unfold moves, expired_queues. simpl. fold f. rewrite !total_entries.
    assert (stored t ≡ₚ kept (fun e => negb (f e)) (stored t) ++ entries_in (retain_lists f (st_map t))) as HP.
    { rewrite entries_retain. unfold kept. apply (filter_negb_perm (fun x => f x.2)). }
    apply Permutation_length in HP as HL. rewrite length_app in HL.
    split_and!; try done; try lia. unfold sat_sub. lia. }
  split_and!; try done. by eapply core_step.
Qed.

Definition gone_ids (keep : Claim -> bool) (m : gmap SendKey (list Claim)) : list Z :=
  map_fold (fun _ l acc => map c_id (List.filter (fun c => negb (keep c)) l) ++ acc) [] m.

Lemma gone_ids_spec keep m id :
  id ∈ gone_ids keep m <->
  exists k c, c ∈ default [] (m !! k) /\ keep c = false /\ c_id c = id.
Proof.
  unfold gone_ids. induction m as [|k l m Hk Hf IH] using map_first_key_ind.
  { rewrite map_fold_empty. split; [by intros ?%not_elem_of_nil|].
    intros (k & c & Hc & _). rewrite lookup_empty in Hc. by apply not_elem_of_nil in Hc. }
  rewrite map_fold_insert_first_key by done. rewrite elem_of_app, IH, list_elem_of_fmap. split.
  - intros [(c & -> & Hc)|(k' & c & Hc & H)].
    + apply list_elem_of_In, List.filter_In in Hc as [Hc Hn]. exists k, c. rewrite lookup_insert_eq.
      split_and!; [by apply list_elem_of_In|by apply negb_true_iff|done].
    + exists k', c. rewrite lookup_insert_ne; [done|]. intros ->. rewrite Hk in Hc.
      by apply not_elem_of_nil in Hc.
  - intros (k' & c & Hc & Hn & Hid). destruct (decide (k = k')) as [<-|Hne].
    + left. exists c. rewrite lookup_insert_eq in Hc. split; [done|].
      apply list_elem_of_In, List.filter_In. split; [by apply list_elem_of_In|by rewrite Hn].
    + right. exists k', c. by rewrite lookup_insert_ne in Hc.
Qed.

Lemma same_id_same_claim t k c d :
  claims_wf t -> c ∈ claims_of t k -> d ∈ claims_of t k -> c_id c = c_id d -> c = d.
Proof.
  intros W Hc Hd He. pose proof (cw_nodup _ W k) as Hn.
  apply list_elem_of_lookup in Hc as (i & Hi). apply list_elem_of_lookup in Hd as (j & Hj).
  assert (i = j) as ->; [|congruence]. eapply (NoDup_lookup _ i j (c_id d) Hn);
    change (map c_id (claims_of t k)) with (c_id <$> claims_of t k); rewrite list_lookup_fmap.
  - rewrite Hi. simpl. by rewrite He.
  - by rewrite Hj.
Qed.

Lemma retain_claims_wf t t' keep :
  claims_wf t -> st_claims t' = retain_lists keep (st_claims t) ->
  st_claim_keys t' = foldl (fun ks id => delete id ks) (st_claim_keys t) (gone_ids keep (st_claims t)) ->
  st_next_claim t' = st_next_claim t -> claims_wf t'.
Proof.
  intros W Hc Hk Hn. apply (claims_wf_drop t t' (not_in (gone_ids keep (st_claims t)))); try done.
  - rewrite Hc. apply retain_nonempty.
  - intros k. unfold claims_of at 1. rewrite Hc, lookup_retain. fold (claims_of t k).
    apply filter_ext. intros c Hin. destruct (keep c) eqn:E; symmetry.
    + apply not_in_true. intros (k' & d & Hd & Hkeep & Hid)%gone_ids_spec.
      fold (claims_of t k') in Hd. assert (k = k') as <-.
      { apply (cw_key _ W) in Hin, Hd. rewrite Hid in Hd. congruence. }
      rewrite (same_id_same_claim t k d c) in Hkeep by done. congruence.
    + apply not_in_false, gone_ids_spec. by exists k, c.
  - intros id. rewrite Hk. apply lookup_foldl_delete.
Qed.

Lemma expire_wf t now :
  wf t -> exists lost, wf (table_expire t now) /\ moves t (table_expire t now) [] [] lost.
Proof.
  intros W. set (cutoff := sat_sub now TTL_NS).
  destruct (expired_queues_effect t cutoff (wf_core _ W)) as (lost & C1 & M1 & S1).
  assert (st_len (expired_queues t cutoff) <= CAPACITY) as Hl.
  { pose proof M1 as (P & _). apply Permutation_length in P. rewrite !length_app in P. simpl in P.
    pose proof (co_len _ C1) as H1. simpl in H1 |- *. pose proof (co_len _ (wf_core _ W)).
    pose proof (wf_cap _ W). lia. }
  destruct (compact_effect _ C1 Hl) as (C2 & M2 & S2 & Sc2 & O2).
  set (t2 := compact_order (expired_queues t cutoff)) in *.
  assert (same_claims t t2) as Sc.
  { destruct Sc2 as (H1 & H2 & H3). by split_and!. }
  assert (claims_wf t2) as W2 by (eapply claims_wf_same, W; exact Sc).
  assert (wf t2) as Wt2.
  { constructor; try done.
    - pose proof M2 as (P & _). apply Permutation_length in P. rewrite !length_app in P. simpl in P.
      pose proof (co_len _ C2). pose proof (co_len _ C1) as H1. simpl in H1, Hl. lia.
    - rewrite (proj1 (proj2 Sc)). apply W. }
  destruct (same_entries_wf t2 (table_expire t now) Wt2) as [W3 M3].
  - unfold same_entries. split_and!; try done. exists 0. by rewrite count_zero.
  - by eapply retain_claims_wf.
  - eapply size_mono; [|apply Wt2]. apply map_subseteq_spec. intros i x. simpl.
    rewrite lookup_foldl_delete. by destruct (not_in _ i).
  - exists lost. split; [done|].
    pose proof (moves_trans _ _ _ _ _ _ _ _ _ M1 (moves_trans _ _ _ _ _ _ _ _ _ M2 M3)) as M.
    simpl in M. by rewrite app_nil_r in M.
Qed.

(** ** Runs *)

Inductive table_op :=
| TInsert (send : KernelSend)
| TTake (key : SendKey) (laddr : IpAddr) (packet_wall_ns : Z)
| TClaim (key : SendKey) (laddr : IpAddr) (packet_wall_ns : Z)
| TTakeClaimed (claim : Z) (key : SendKey) (laddr : IpAddr) (packet_wall_ns : Z)
| TAbandon (claim : Z)
| TRelease (claim : Z)
| TExpire (now_wall_ns : Z).

(** A packet joined with an owner. *)
Record join := { j_key : SendKey; j_laddr : IpAddr; j_packet_ns : Z; j_owner : Attribution }.

Definition joined_by (key : SendKey) (laddr : IpAddr) (ts : Z) (hit : option Attribution) : list join :=
  map (fun a => {| j_key := key; j_laddr := laddr; j_packet_ns := ts; j_owner := a |}) (option_list hit).

Definition table_step (t : SendTable) (o : table_op) : list join * SendTable :=
  match o with
  | TInsert s => ([], table_insert t s)
  | TTake key laddr ts => let '(hit, t) := table_take t key laddr ts in (joined_by key laddr ts hit, t)
  | TClaim key laddr ts => ([], (table_claim t key laddr ts).2)
  | TTakeClaimed id key laddr ts =>
      let '(hit, t) := take_claimed t id key laddr ts in (joined_by key laddr ts hit, t)
  | TAbandon id => ([], abandon t id)
  | TRelease id => ([], release t id)
  | TExpire now => ([], table_expire t now)
  end.

Fixpoint table_run (t : SendTable) (ops : list table_op) : list join * SendTable :=
  match ops with
  | [] => ([], t)
  | o :: ops => let '(js, t) := table_step t o in
                let '(js', t) := table_run t ops in (js ++ js', t)
  end.

Definition sent_by (o : table_op) : list KernelSend := match o with TInsert s => [s] | _ => [] end.

Definition entry_send (x : SendKey * Entry) : KernelSend :=
  {| ks_key := x.1; ks_laddr := e_laddr x.2; ks_sent_wall_ns := e_sent_wall_ns x.2;
     ks_owner := e_owner x.2 |}.

(** A join is right when the packet carries the send's key, lies in its window and agrees
    with its local address. *)
Definition rightly_joined (s : KernelSend) (j : join) : Prop :=
  ks_key s = j_key j /\ ks_owner s = j_owner j /\
  sat_sub (j_packet_ns j) LOOKBACK_NS <= ks_sent_wall_ns s <= sat_add64 (j_packet_ns j) SLACK_NS /\
  locals_compatible (ks_laddr s) (j_laddr j) = true.

Lemma hits_joined key laddr ts o :
  Forall (fun e => eligible e laddr ts = true) (option_list o) ->
  Forall2 rightly_joined (map entry_send (tag key (option_list o)))
    (joined_by key laddr ts (option_map e_owner o)).
Proof.
  destruct o as [e|]; simpl; intros H; constructor; [|constructor].
  apply Forall_cons in H as [H _]. unfold eligible in H. rewrite !andb_true_iff, !Z.leb_le in H.
  destruct H as [[H1 H2] H3]. by split_and!.
Qed.

Lemma table_step_wf t o js t' :
  wf t -> inserted (st_counters t) + Z.of_nat (List.length (sent_by o)) <= u64_max ->
  table_step t o = (js, t') ->
  exists new hits lost, wf t' /\ moves t t' new hits lost /\ map entry_send new = sent_by o /\
    Forall2 rightly_joined (map entry_send hits) js.
Proof.
  intros W Hi H. destruct o as [s|key laddr ts|key laddr ts|id key laddr ts|id|id|now]; simpl in *.
  - injection H as <- <-. destruct (insert_wf t s W ltac:(lia)) as (lost & W' & M).
    exists [(ks_key s, entry_for t s)], [], lost. split_and!; try done.
    simpl. unfold entry_send, entry_for. simpl. by destruct s.
  - unfold table_take in H. destruct (take_ranked _ _ _ _ _) as [hit t1] eqn:E. injection H as <- <-.
    destruct (take_wf _ _ _ _ _ _ _ W E) as (o & lost & W' & _ & -> & M & He).
    exists [], (tag key (option_list o)), lost. split_and!; try done. by apply hits_joined.
  - injection H as <- <-. destruct (claim_wf t key laddr ts W) as [W' M]. by exists [], [], [].
  - destruct (take_claimed _ _ _ _ _) as [hit t1] eqn:E. injection H as <- <-.
    destruct (take_claimed_wf _ _ _ _ _ _ _ W E) as (o & lost & W' & -> & M & He).
    exists [], (tag key (option_list o)), lost. split_and!; try done. by apply hits_joined.
  - injection H as <- <-. destruct (abandon_wf t id W) as (lost & W' & M). by exists [], [], lost.
  - injection H as <- <-. destruct (release_wf t id W) as [W' M]. by exists [], [], [].
  - injection H as <- <-. destruct (expire_wf t now W) as (lost & W' & M). by exists [], [], lost.
Qed.

Lemma table_run_wf ops t js t' :
  wf t -> inserted (st_counters t) + Z.of_nat (List.length (flat_map sent_by ops)) <= u64_max ->
  table_run t ops = (js, t') ->
  exists new hits lost, wf t' /\ moves t t' new hits lost /\
    map entry_send new ≡ₚ flat_map sent_by ops /\ Forall2 rightly_joined (map entry_send hits) js.
Proof.
  revert t js. induction ops as [|o ops IH]; simpl; intros t js W Hi H.
  { injection H as <- <-. exists [], [], []. split_and!; try done; apply moves_refl. }
  rewrite length_app in Hi.
  destruct (table_step t o) as [js1 t1] eqn:E. destruct (table_run t1 ops) as [js2 t2] eqn:E2.
  injection H as <- <-.
  destruct (table_step_wf t o js1 t1 W ltac:(lia) E) as (n1 & h1 & l1 & W1 & M1 & Hn1 & F1).
  assert (List.length n1 = List.length (sent_by o)) as Hl by (by rewrite <- Hn1, length_map).
  destruct (IH t1 js2 W1) as (n2 & h2 & l2 & W2 & M2 & Hn2 & F2); [|done|].
  { destruct M1 as (_ & I & _). lia. }
  exists (n2 ++ n1), (h1 ++ h2), (l1 ++ l2). split_and!; try done.
  - by eapply moves_trans.
  - rewrite map_app, Hn1, Hn2. apply Permutation_app_comm.
  - rewrite map_app. by apply Forall2_app.
Qed.

(** ** Reservations *)

Definition reserved_in (cs : list Claim) (q : list Entry) (id : Z) : option Entry :=
  option_map snd (List.find (fun p => c_id p.1 =? id) (match_claims cs q).1).

(** The entry a waiting packet will get. *)
Definition reserved_for (t : SendTable) (key : SendKey) (id : Z) : option Entry :=
  reserved_in (claims_of t key) (queue_of t key) id.

Lemma ranked_split limit cs :
  ranked cs -> exists junior, cs = senior limit cs ++ junior /\
    Forall (fun c => rank_ltb (rank c) limit = false) junior.
Proof.
  induction cs as [|c cs IH]; intros Hr; [by exists []|].
  destruct (rank_ltb (rank c) limit) eqn:E.
  - apply StronglySorted_inv in Hr as [Hr _]. destruct (IH Hr) as (junior & H1 & H2).
    exists junior. split; [|done]. unfold senior in *. simpl. rewrite E. simpl. by f_equal.
  - pose proof (senior_break limit c cs Hr E) as Hs. exists (c :: cs). rewrite Hs. split; [done|].
    apply Forall_forall. intros d Hd. apply not_true_is_false. intros Hx.
    assert (d ∈ senior limit (c :: cs)) as Hin.
    { apply list_elem_of_In, List.filter_In. split; [by apply list_elem_of_In|done]. }
    rewrite Hs in Hin. by apply not_elem_of_nil in Hin.
Qed.

Lemma find_app {A} (f : A -> bool) l l' :
  List.find f (l ++ l') = match List.find f l with Some x => Some x | None => List.find f l' end.
Proof. induction l as [|x l IH]; simpl; [done|]. by destruct (f x). Qed.

Lemma find_none {A} (f : A -> bool) l : (forall x, x ∈ l -> f x = false) -> List.find f l = None.
Proof.
  induction l as [|x l IH]; simpl; intros H; [done|]. rewrite (H x) by left.
  apply IH. intros y Hy. apply H. by right.
Qed.

(** Only claims of a prefix matter to the claims in it. *)
Lemma reserved_prefix cs1 cs2 q id :
  (forall c, c ∈ cs2 -> c_id c <> id) -> reserved_in (cs1 ++ cs2) q id = reserved_in cs1 q id.
Proof.
  intros H. unfold reserved_in. rewrite match_app.
  destruct (match_claims cs1 q) as [ps1 r1]. destruct (match_claims cs2 r1) as [ps2 r2] eqn:M.
  simpl. rewrite find_app. destruct (List.find _ ps1) as [p|]; [done|].
  rewrite find_none; [done|]. intros p Hp. apply match_claims_sublist in M.
  apply Z.eqb_neq, H. eapply elem_of_sublist; [|exact M]. by apply list_elem_of_fmap_2.
Qed.

(** Every entry a claim could take survives the cut. *)
Lemma cutoff_safe cs ts c e :
  ranked cs -> c ∈ cs -> eligible e (c_laddr c) (c_packet_wall_ns c) = true ->
  (cutoff_of cs ts <=? e_sent_wall_ns e) = true.
Proof.
  intros Hr Hc He. unfold eligible in He. rewrite !andb_true_iff, Z.leb_le in He.
  destruct He as [[He _] _]. apply Z.leb_le. destruct cs as [|d cs]; [by apply not_elem_of_nil in Hc|].
  apply StronglySorted_inv in Hr as [_ Hr]. simpl. unfold sat_sub in *.
  assert (c_packet_wall_ns d <= c_packet_wall_ns c); [|lia].
  apply elem_of_cons in Hc as [->|Hc]; [lia|]. rewrite Forall_forall in Hr.
  specialize (Hr c Hc). apply rank_lt_iff in Hr. unfold rank in Hr. simpl in Hr. lia.
Qed.

Lemma match_fresh cs cs' ts q ps rest :
  ranked cs -> cs' `sublist_of` cs -> match_claims cs' q = (ps, rest) ->
  match_claims cs' (fresh_for cs ts q) = (ps, fresh_for cs ts rest).
Proof.
  intros Hr Hs M. pose proof (match_eligible _ _ _ _ M) as He.
  pose proof (match_claims_sublist _ _ _ _ M) as Hc.
  apply (match_without (fun _ => true) (fun e => cutoff_of cs ts <=? e_sent_wall_ns e)) in M.
  - rewrite (filter_true (fun _ : Claim => true)), (filter_true (fun _ : Claim * Entry => true)) in M
      by (by apply Forall_true). done.
  - rewrite Forall_forall in He |- *. intros p Hp. symmetry. apply (cutoff_safe cs ts p.1 p.2 Hr); [|by apply He].
    eapply elem_of_sublist; [|exact Hs]. eapply elem_of_sublist; [|exact Hc]. by apply list_elem_of_fmap_2.
Qed.

Lemma reserved_fresh cs cs' ts q id :
  ranked cs -> cs' `sublist_of` cs -> reserved_in cs' (fresh_for cs ts q) id = reserved_in cs' q id.
Proof.
  intros Hr Hs. unfold reserved_in. destruct (match_claims cs' q) as [ps rest] eqn:M.
  by rewrite (match_fresh cs cs' ts q ps rest).
Qed.

Lemma sequenced_seq_inj q e e' : sequenced q -> e ∈ q -> e' ∈ q -> e_seq e = e_seq e' -> e = e'.
Proof.
  intros Hs He He' Heq. apply list_elem_of_lookup in He as (i & Hi).
  apply list_elem_of_lookup in He' as (j & Hj).
  destruct (Nat.lt_trichotomy i j) as [H|[->|H]]; [|congruence|]; exfalso.
  - pose proof (StronglySorted_lt _ _ i j (e_seq e) (e_seq e') Hs) as Hlt.
    change (map e_seq q) with (e_seq <$> q) in Hlt. rewrite !list_lookup_fmap, Hi, Hj in Hlt.
    specialize (Hlt eq_refl eq_refl H). lia.
  - pose proof (StronglySorted_lt _ _ j i (e_seq e') (e_seq e) Hs) as Hlt.
    change (map e_seq q) with (e_seq <$> q) in Hlt. rewrite !list_lookup_fmap, Hi, Hj in Hlt.
    specialize (Hlt eq_refl eq_refl H). lia.
Qed.

(** Taking for a packet leaves the reservations of the claims before it as they are. *)
Lemma spec_take_reserved cs q laddr ts rk o q' c :
  ranked cs -> NoDup (map c_id cs) -> sequenced q -> spec_take cs q laddr ts rk = (o, q') ->
  c ∈ cs -> rank_lt (rank c) rk -> reserved_in cs q' (c_id c) = reserved_in cs q (c_id c).
Proof.
  intros Hr Hn Hs H Hc Hlt. destruct (ranked_split rk cs Hr) as (junior & Hcs & Hj).
  assert (forall d, d ∈ junior -> c_id d <> c_id c) as Hid.
  { intros d Hd Heq. assert (c ∈ senior rk cs) as Hin.
    { apply list_elem_of_In, List.filter_In. split; [by apply list_elem_of_In|done]. }
    rewrite Hcs, map_app, NoDup_app in Hn. destruct Hn as (_ & Hn & _).
    apply (Hn (c_id c)); [by apply list_elem_of_fmap_2|]. rewrite <- Heq. by apply list_elem_of_fmap_2. }
  assert (forall l, reserved_in cs l (c_id c) = reserved_in (senior rk cs) l (c_id c)) as Hsen.
  { intros l. rewrite Hcs at 1. by apply reserved_prefix. }
  rewrite !Hsen. rewrite <- (reserved_fresh cs (senior rk cs) ts q) by (done || apply filter_sublist).
  unfold spec_take in H. destruct (match_claims (senior rk cs) (fresh_for cs ts q)) as [ps rest] eqn:M.
  simpl in H. destruct (pick laddr ts rest) as [[e r]|] eqn:P; injection H as <- <-; [|done].
  unfold reserved_in. pose proof (match_perm _ _ _ _ M) as HP. rewrite M.
  apply (match_without (fun _ => true) (not_seq (e_seq e))) in M.
  { rewrite (filter_true (fun _ : Claim => true)), (filter_true (fun _ : Claim * Entry => true)) in M
      by (by apply Forall_true). by rewrite M. }
  apply pick_some in P as (a & b & -> & _ & _ & _). apply Forall_forall. intros p Hp. symmetry.
  unfold not_seq. apply negb_true_iff, Z.eqb_neq. intros Heq.
  assert (sequenced (fresh_for cs ts q)) as Hsf by (eapply sequenced_sublist; [apply filter_sublist|done]).
  assert (NoDup (fresh_for cs ts q)) as Hnd.
  { eapply (NoDup_fmap_1 e_seq). change (e_seq <$> ?l) with (map e_seq l). by apply (sorted_NoDup id). }
  assert (p.2 ∈ fresh_for cs ts q) as Hin.
  { rewrite HP. apply elem_of_app. left. by apply list_elem_of_fmap_2. }
  assert (e ∈ fresh_for cs ts q) as Hin'.
  { rewrite HP. rewrite !elem_of_app. right. right. left. }
  pose proof (sequenced_seq_inj _ _ _ Hsf Hin Hin' Heq) as Heq'.
  rewrite HP, NoDup_app in Hnd. destruct Hnd as (_ & Hnd & _). apply (Hnd e).
  - rewrite <- Heq'. by apply list_elem_of_fmap_2.
  - rewrite elem_of_app. right. left.
Qed.

Lemma ranked_own cs c :
  ranked cs -> c ∈ cs -> exists rest, cs = senior (rank c) cs ++ c :: rest.
Proof.
  intros Hr Hc. destruct (ranked_split (rank c) cs Hr) as (junior & Hcs & Hj).
  assert (forall x y : Z * Z, rank_lt x y -> rank_lt y x -> False) as Hirr.
  { intros x y H1 H2. rewrite rank_lt_iff in *. lia. }
  assert (c ∈ junior) as Hin.
  { pose proof Hc as Hc'. rewrite Hcs, elem_of_app in Hc'. destruct Hc' as [H|H]; [|done].
    apply list_elem_of_In, List.filter_In in H as [_ H]. exfalso. by apply (Hirr (rank c) (rank c)). }
  destruct junior as [|d rest]; [by apply not_elem_of_nil in Hin|].
  exists rest. apply elem_of_cons in Hin as [->|Hin]; [done|]. exfalso.
  rewrite Hcs in Hr. apply Forall_cons in Hj as [Hd _].
  assert (ranked (d :: rest)) as Hr'.
  { clear -Hr. induction (senior (rank c) cs) as [|x l IH]; [done|].
    apply IH. by apply StronglySorted_inv in Hr as [? _]. }
  apply StronglySorted_inv in Hr' as [_ Hf]. rewrite Forall_forall in Hf. specialize (Hf c Hin).
  unfold rank_lt in Hf. congruence.
Qed.

Lemma nodup_middle_id cs1 c cs2 :
  NoDup (map c_id (cs1 ++ c :: cs2)) ->
  (forall d, d ∈ cs1 -> c_id d <> c_id c) /\ (forall d, d ∈ cs2 -> c_id d <> c_id c).
Proof.
  rewrite map_app, NoDup_app. simpl. rewrite NoDup_cons. intros (_ & H1 & H2 & _). split; intros d Hd Heq.
  - apply (H1 (c_id d)); [by apply list_elem_of_fmap_2|]. rewrite Heq. left.
  - apply H2. rewrite <- Heq. by apply list_elem_of_fmap_2.
Qed.

(** A waiting packet gets exactly what is reserved for it. *)
Lemma spec_take_own cs q c :
  ranked cs -> NoDup (map c_id cs) -> c ∈ cs ->
  (spec_take cs q (c_laddr c) (c_packet_wall_ns c) (rank c)).1 = reserved_in cs q (c_id c).
Proof.
  intros Hr Hn Hc. rewrite <- (reserved_fresh cs cs (c_packet_wall_ns c) q) by done.
  unfold spec_take. set (q' := fresh_for cs (c_packet_wall_ns c) q).
  destruct (ranked_own cs c Hr Hc) as (rest & Hcs). set (sn := senior (rank c) cs) in *.
  rewrite Hcs in Hn. destruct (nodup_middle_id _ _ _ Hn) as [Hbefore Hafter].
  rewrite Hcs. change (c :: rest) with ([c] ++ rest). rewrite app_assoc, reserved_prefix by done.
  unfold reserved_in. rewrite match_app. destruct (match_claims sn q') as [ps r] eqn:M. simpl.
  assert (List.find (fun p => c_id p.1 =? c_id c) ps = None) as Hf.
  { apply find_none. intros p Hp. apply Z.eqb_neq, Hbefore. apply match_claims_sublist in M.
    eapply elem_of_sublist; [|exact M]. by apply list_elem_of_fmap_2. }
  destruct (pick (c_laddr c) (c_packet_wall_ns c) r) as [[e r']|]; simpl; rewrite find_app, Hf; [|done].
  simpl. by rewrite Z.eqb_refl.
Qed.

(** A packet misses only when the claims before it reserve all it could take. *)
Lemma spec_take_miss cs q laddr ts rk q' e :
  ranked cs -> NoDup (map c_id cs) -> spec_take cs q laddr ts rk = (None, q') ->
  e ∈ q -> eligible e laddr ts = true ->
  exists c, c ∈ cs /\ rank_lt (rank c) rk /\ reserved_in cs q (c_id c) = Some e.
Proof.
  intros Hr Hn H Hin He. unfold spec_take in H.
  destruct (match_claims (senior rk cs) (fresh_for cs ts q)) as [ps rest] eqn:M. simpl in H.
  destruct (pick laddr ts rest) as [[x r]|] eqn:P; [done|]. apply pick_nothing in P.
  assert (e ∈ fresh_for cs ts q) as Hf.
  { apply list_elem_of_In, List.filter_In. split; [by apply list_elem_of_In|].
    unfold eligible in He. rewrite !andb_true_iff, Z.leb_le in He. apply Z.leb_le.
    unfold cutoff_of. destruct cs; lia. }
  pose proof (match_perm _ _ _ _ M) as HP. rewrite HP, elem_of_app in Hf.
  destruct Hf as [Hf|Hf]; [|rewrite Forall_forall in P; rewrite (P e Hf) in He; done].
  apply list_elem_of_fmap in Hf as ([c e'] & Hx & Hp). simpl in Hx. subst e'.
  pose proof (match_claims_sublist _ _ _ _ M) as Hsub.
  assert (c ∈ senior rk cs) as Hc.
  { eapply elem_of_sublist; [|exact Hsub]. apply list_elem_of_fmap. by exists (c, e). }
  pose proof Hc as Hc2. apply list_elem_of_In, List.filter_In in Hc as [Hc Hlt].
  exists c. split_and!; [by apply list_elem_of_In|done|].
  destruct (ranked_split rk cs Hr) as (junior & Hcs & _).
  rewrite Hcs in Hn |- *. rewrite map_app, NoDup_app in Hn. destruct Hn as (Hn1 & Hn2 & _).
  rewrite reserved_prefix.
  2:{ intros d Hd Heq. apply (Hn2 (c_id c)); [by apply list_elem_of_fmap_2|].
      rewrite <- Heq. by apply list_elem_of_fmap_2. }
  rewrite <- (reserved_fresh cs (senior rk cs) ts q) by (done || apply filter_sublist).
  unfold reserved_in. rewrite M. simpl.
  assert (NoDup (map (fun p => c_id p.1) ps)) as Hnp.
  { rewrite <- (map_map fst c_id). eapply sublist_NoDup; [exact Hn1|].
    clear -Hsub. induction Hsub; simpl; constructor; done. }
  clear -Hp Hnp. induction ps as [|p ps IH]; [by apply not_elem_of_nil in Hp|]. simpl in *.
  apply NoDup_cons in Hnp as [Hx Hnp]. apply elem_of_cons in Hp as [<-|Hp]; simpl.
  - by rewrite Z.eqb_refl.
  - destruct (Z.eqb_spec (c_id p.1) (c_id c)) as [Heq|_]; [|by apply IH].
    exfalso. apply Hx. rewrite Heq. apply list_elem_of_fmap. by exists (c, e).
Qed.

Lemma queue_of_put t t' key q : st_map t' = put_list key q (st_map t) -> queue_of t' key = q.
Proof. intros H. unfold queue_of. rewrite H. apply lookup_put. Qed.

Lemma take_reservations t key laddr ts rk hit t' :
  wf t -> take_ranked t key laddr ts rk = (hit, t') ->
  (forall c, c ∈ claims_of t key -> rank_lt (rank c) rk ->
     reserved_for t' key (c_id c) = reserved_for t key (c_id c)) /\
  (hit = None -> forall e, e ∈ queue_of t key -> eligible e laddr ts = true ->
     exists c, c ∈ claims_of t key /\ rank_lt (rank c) rk /\ reserved_for t key (c_id c) = Some e).
Proof.
  intros W H. pose proof (cw_ranked _ (wf_claims _ W) key) as Hr.
  pose proof (cw_nodup _ (wf_claims _ W) key) as Hn. pose proof (co_seq _ (wf_core _ W) key) as Hs.
  apply take_ranked_effect in H as (o & q & lost & Ht & -> & Hm & (_ & _ & Hc & _) & _); [|done..].
  unfold reserved_for. rewrite (queue_of_put _ _ _ _ Hm), (claims_of_eq t t' key Hc). split.
  - intros c Hin Hlt. by eapply spec_take_reserved.
  - intros Ho e Hin He. destruct o; [done|]. by eapply spec_take_miss.
Qed.

Lemma take_claimed_reserved t key c :
  wf t -> c ∈ claims_of t key ->
  (take_claimed t (c_id c) key (c_laddr c) (c_packet_wall_ns c)).1 =
    option_map e_owner (reserved_for t key (c_id c)).
Proof.
  intros W Hc. unfold take_claimed. fold (rank c).
  destruct (take_ranked t key (c_laddr c) (c_packet_wall_ns c) (rank c)) as [hit t'] eqn:E.
  pose proof (cw_ranked _ (wf_claims _ W) key) as Hr. pose proof (cw_nodup _ (wf_claims _ W) key) as Hn.
  apply take_ranked_effect in E as (o & q & lost & Ht & -> & _); [|done|apply (co_seq _ (wf_core _ W))].
  pose proof (spec_take_own (claims_of t key) (queue_of t key) c Hr Hn Hc) as Ho.
  rewrite Ht in Ho. simpl in Ho. unfold reserved_for. rewrite <- Ho. by destruct o.
Qed.

(** ** Late records *)

Lemma reserved_pair cs q id e :
  reserved_in cs q id = Some e -> exists c, (c, e) ∈ (match_claims cs q).1 /\ c_id c = id.
Proof.
  unfold reserved_in. destruct (List.find _ _) as [[c x]|] eqn:E; [|done]. simpl. intros [= ->].
  apply List.find_some in E as [Hin Hid]. exists c. split; [by apply list_elem_of_In|].
  simpl in Hid. lia.
Qed.

Lemma settle_absorbs t key c e :
  core t -> claims_wf t -> c ∈ claims_of t key -> c_tomb c = true -> rank_lt (rank c) top_rank ->
  reserved_for t key (c_id c) = Some e -> e ∉ queue_of (settle_tombstones t key) key.
Proof.
  intros C W Hc Ht Hlt He. unfold reserved_for in He.
  pose proof (cw_ranked _ W key) as Hr. pose proof (cw_nodup _ W key) as Hn.
  destruct (ranked_split top_rank _ Hr) as (junior & Hcs & _).
  assert (c ∈ senior top_rank (claims_of t key)) as Hsen.
  { apply list_elem_of_In, List.filter_In. split; [by apply list_elem_of_In|done]. }
  rewrite Hcs, reserved_prefix in He.
  2:{ intros d Hd Heq. rewrite Hcs, map_app, NoDup_app in Hn. destruct Hn as (_ & Hn & _).
      apply (Hn (c_id c)); [by apply list_elem_of_fmap_2|]. rewrite <- Heq. by apply list_elem_of_fmap_2. }
  apply reserved_pair in He as (d & Hp & Hid).
  destruct (match_claims (senior top_rank (claims_of t key)) (queue_of t key)) as [ps rest] eqn:M.
  assert (d = c) as ->.
  { pose proof (match_claims_sublist _ _ _ _ M) as Hsub.
    apply (same_id_same_claim t key); try done.
    eapply elem_of_sublist; [|apply (filter_sublist (fun c => rank_ltb (rank c) top_rank))].
    eapply elem_of_sublist; [|exact Hsub]. apply list_elem_of_fmap. by exists (d, e). }
  assert ((c, e) ∈ settled_pairs (claims_of t key) (queue_of t key)) as Hs.
  { unfold settled_pairs. rewrite M. apply list_elem_of_In, List.filter_In.
    split; [by apply list_elem_of_In|done]. }
  destruct (settle_effect t key Hr (co_seq _ C key)) as [[_ Hd]|(Hm & _)].
  { exfalso. assert (c_id c ∈ dead_ids (claims_of t key) (queue_of t key)) as Hx.
    { apply list_elem_of_fmap. by exists (c, e). }
    rewrite Hd in Hx. by apply not_elem_of_nil in Hx. }
  rewrite (queue_of_put _ _ _ _ Hm). intros Hin. apply list_elem_of_In, List.filter_In in Hin as [_ Hin].
  apply not_in_true in Hin. apply Hin. apply list_elem_of_fmap. exists e. split; [done|].
  apply list_elem_of_fmap. by exists (c, e).
Qed.

Lemma push_claims t s key : claims_of (push_entry t s) key = claims_of t key.
Proof. unfold push_entry. by destruct (make_room _). Qed.

Lemma insert_absorbs t s c :
  wf t -> inserted (st_counters t) < u64_max -> c ∈ claims_of t (ks_key s) -> c_tomb c = true ->
  rank_lt (rank c) top_rank ->
  reserved_for (push_entry t s) (ks_key s) (c_id c) = Some (entry_for t s) ->
  entry_for t s ∉ queue_of (table_insert t s) (ks_key s).
Proof.
  intros W Hi Hc Ht Hlt He. set (t1 := push_entry t s) in *.
  assert (core t1) as C1 by (by apply core_push; [apply W|]).
  assert (claims_wf t1) as W1.
  { eapply claims_wf_same, W. subst t1. unfold push_entry. by destruct (make_room _). }
  rewrite <- (push_claims t s) in Hc. fold t1 in Hc.
  pose proof (settle_absorbs t1 (ks_key s) c _ C1 W1 Hc Ht Hlt He) as Habs.
  destruct (settle_wf t1 (ks_key s) C1 W1) as (l2 & C2 & W2 & M2 & S2 & _).
  unfold table_insert. fold t1. set (t2 := settle_tombstones t1 (ks_key s)) in *.
  assert (core (publish t2)) as C3.
  { eapply core_step; [exact C2|by apply shrinks_same|]. apply moves_same; try done.
    exists 0. by rewrite count_zero. }
  destruct (evict_over_effect (S (List.length (st_order (publish t2)))) (publish t2) C3)
    as (l4 & C4 & M4 & S4 & _ & L4).
  { destruct (push_moves t s) as (l1 & P1 & _). apply Permutation_length in P1.
    destruct M2 as (P2 & _). apply Permutation_length in P2. rewrite !length_app in P1, P2.
    cbn [List.length] in P1, P2. fold t1 in P1. pose proof (wf_cap _ W). pose proof (co_len _ (wf_core _ W)).
    pose proof (co_len _ C2) as HL. change (st_len (publish t2)) with (st_len t2). lia. }
  destruct (compact_effect _ C4 L4) as (_ & _ & S5 & _). intros Hin. apply Habs.
  eapply elem_of_sublist; [|apply (sh_queue _ _ S4)].
  eapply elem_of_sublist; [exact Hin|apply (sh_queue _ _ S5)].
Qed.

(** ** Theorems *)

(** In every state the table can reach (below [2^64] sends), the length it keeps is
    the number of entries it holds and at most 16384, no queue is longer than 8, the
    order list has at most 32768 slots and a slot for every entry, at most 16384 claims
    are indexed, each in the list of its key, and every send ever inserted is counted
    exactly once: handed out, evicted, expired, consumed by a tombstone, or still there. *)
Lemma send_table_bounded ops js t :
  Z.of_nat (List.length (flat_map sent_by ops)) <= u64_max ->
  table_run send_table_new ops = (js, t) ->
  st_len t = Z.of_nat (total (st_map t)) /\ st_len t <= CAPACITY /\
  (forall key, Z.of_nat (List.length (queue_of t key)) <= QUEUE_MAX) /\
  Z.of_nat (List.length (st_order t)) <= CAPACITY * 2 /\
  (forall key e, e ∈ queue_of t key -> (e_seq e, key) ∈ st_order t) /\
  Z.of_nat (size (st_claim_keys t)) <= CAPACITY /\
  (forall id key, st_claim_keys t !! id = Some key <-> exists c, c ∈ claims_of t key /\ c_id c = id) /\
  Z.of_nat (List.length (flat_map sent_by ops)) =
    consumed (st_counters t) + evicted (st_counters t) + expired (st_counters t) +
    tombstone_consumed (st_counters t) + st_len t /\
  consumed (st_counters t) = Z.of_nat (List.length js).
Proof.
  intros Hb H. destruct (table_run_wf ops _ _ _ wf_new Hb H) as (new & hits & lost & W & M & Hn & F).
  pose proof (wf_core _ W) as C. pose proof (wf_claims _ W) as Cw. destruct M as (_ & I & Co & _).
  apply Permutation_length in Hn. rewrite length_map in Hn. apply Forall2_length in F.
  rewrite length_map in F. simpl in I, Co. split_and!.
  - rewrite total_entries. apply C.
  - apply W.
  - apply C.
  - apply W.
  - intros key e He. apply (co_cover _ C), live_iff. by exists e.
  - apply W.
  - intros id key. split; [apply (cw_claim _ Cw)|]. intros (c & Hc & <-). by apply (cw_key _ Cw).
  - pose proof (co_account _ C). lia.
  - lia.
Qed.

(** Over any run, the packets that were given an owner are matched one to one with
    distinct inserted sends: same key, same owner, sent at most 2 s before and 5 ms after
    the packet, with compatible local addresses.  No send is handed out twice. *)
Lemma sends_joined_at_most_once ops js t :
  Z.of_nat (List.length (flat_map sent_by ops)) <= u64_max ->
  table_run send_table_new ops = (js, t) ->
  exists used, used ⊆+ flat_map sent_by ops /\ Forall2 rightly_joined used js.
Proof.
  intros Hb H. destruct (table_run_wf ops _ _ _ wf_new Hb H) as (new & hits & lost & W & M & Hn & F).
  exists (map entry_send hits). split; [|done]. rewrite <- Hn. destruct M as (P & _).
  change (stored send_table_new) with (@nil (SendKey * Entry)) in P. rewrite app_nil_r in P.
  rewrite P, map_app. apply submseteq_inserts_r. done.
Qed.

(** No overtaking: when a packet looks for its send, every claim of an older packet on
    the key keeps the entry reserved for it, and the packet comes away empty only if each
    entry it could take is reserved for such a claim.  A waiting packet that asks again
    gets exactly the entry reserved for it. *)
Lemma no_overtaking ops js t key :
  Z.of_nat (List.length (flat_map sent_by ops)) <= u64_max ->
  table_run send_table_new ops = (js, t) ->
  (forall laddr ts hit t', table_take t key laddr ts = (hit, t') ->
     (forall c, c ∈ claims_of t key -> c_packet_wall_ns c <= ts -> c_id c < u64_max ->
        reserved_for t' key (c_id c) = reserved_for t key (c_id c)) /\
     (hit = None -> forall e, e ∈ queue_of t key -> eligible e laddr ts = true ->
        exists c, c ∈ claims_of t key /\ c_packet_wall_ns c <= ts /\
                  reserved_for t key (c_id c) = Some e)) /\
  (forall c, c ∈ claims_of t key ->
     (take_claimed t (c_id c) key (c_laddr c) (c_packet_wall_ns c)).1 =
       option_map e_owner (reserved_for t key (c_id c))).
Proof.
  intros Hb H. destruct (table_run_wf ops _ _ _ wf_new Hb H) as (_ & _ & _ & W & _).
  split; [|intros c; by apply take_claimed_reserved].
  intros laddr ts hit t' Ht. destruct (take_reservations _ _ _ _ _ _ _ W Ht) as [H1 H2]. split.
  - intros c Hc Hts Hid. apply H1; [done|]. apply rank_lt_iff. unfold rank. simpl. lia.
  - intros Hh e Hin He. destruct (H2 Hh e Hin He) as (c & Hc & Hlt & Hres). exists c.
    split_and!; try done. apply rank_lt_iff in Hlt. unfold rank in Hlt. simpl in Hlt. lia.
Qed.

(** The record of a packet that was given up is consumed when it arrives: if the new
    entry is the one reserved for a tombstone, it is in the table no more once the
    insertion is done, so no later packet can take it. *)
Lemma late_record_absorbed ops js t s c :
  Z.of_nat (List.length (flat_map sent_by ops)) < u64_max ->
  table_run send_table_new ops = (js, t) ->
  c ∈ claims_of t (ks_key s) -> c_tomb c = true ->
  c_packet_wall_ns c <= u64_max -> c_id c < u64_max ->
  reserved_for (push_entry t s) (ks_key s) (c_id c) = Some (entry_for t s) ->
  entry_for t s ∉ queue_of (table_insert t s) (ks_key s).
Proof.
  intros Hb H Hc Ht Hts Hid He.
  destruct (table_run_wf ops _ _ _ wf_new ltac:(simpl; lia) H) as (new & hits & lost & W & M & Hn & _).
  apply (insert_absorbs t s c); try done.
  - destruct M as (_ & I & _). apply Permutation_length in Hn. rewrite length_map in Hn. simpl in I. lia.
  - apply rank_lt_iff. unfold rank, top_rank. simpl. lia.
Qed.

(** ** Examples *)

(** Two packets on one port; the record of the first is late. *)
Definition sample_local : IpAddr := V4 [Byte.x0a; Byte.x00; Byte.x00; Byte.x02].
Definition sample_send_key : SendKey :=
  {| lport := 40000; raddr := V4 [Byte.x08; Byte.x08; Byte.x08; Byte.x08]; rport := 53 |}.

Definition sample_send (pid ns : Z) : KernelSend :=
  {| ks_key := sample_send_key; ks_laddr := sample_local; ks_sent_wall_ns := ns;
     ks_owner := {| at_pid := Some pid; at_uid := 0; at_exe_path := "/usr/bin/dig"; at_comm := "dig" |} |}.

Definition first_ns : Z := 5000000000.
Definition second_ns : Z := 5000100000.

Definition waiting_ops : list table_op :=
  [TClaim sample_send_key sample_local first_ns; TInsert (sample_send 7 first_ns);
   TTake sample_send_key sample_local second_ns;
   TTakeClaimed 0 sample_send_key sample_local first_ns].

(** The newer packet gets nothing, the waiting one its record. *)
Example waiting_run :
  map (fun j => (j_packet_ns j, at_pid (j_owner j))) (table_run send_table_new waiting_ops).1 =
    [(first_ns, Some 7)].
Proof. vm_compute. reflexivity. Qed.

Lemma send_table_bounded_witness :
  exists js t, table_run send_table_new waiting_ops = (js, t) /\ st_len t = 0 /\
    consumed (st_counters t) = 1 /\ (forall key, Z.of_nat (List.length (queue_of t key)) <= QUEUE_MAX).
Proof.
  do 2 eexists. split; [vm_compute; reflexivity|].
  split; [reflexivity|]. split; [reflexivity|].
  eapply (send_table_bounded waiting_ops); [vm_compute; discriminate|vm_compute; reflexivity].
Defined.

Lemma sends_joined_at_most_once_witness :
  exists used, used ⊆+ flat_map sent_by waiting_ops /\
    Forall2 rightly_joined used (table_run send_table_new waiting_ops).1.
Proof.
  apply (sends_joined_at_most_once waiting_ops _ (table_run send_table_new waiting_ops).2);
    [vm_compute; discriminate|exact (surjective_pairing (table_run send_table_new waiting_ops))].
Defined.

Definition waiting_table : SendTable := (table_run send_table_new (take 2 waiting_ops)).2.

Lemma no_overtaking_witness :
  exists c, c ∈ claims_of waiting_table sample_send_key /\
    option_map (fun e => at_pid (e_owner e)) (reserved_for waiting_table sample_send_key 0) =
      Some (Some 7) /\
    (table_take waiting_table sample_send_key sample_local second_ns).1 = None /\
    (take_claimed waiting_table (c_id c) sample_send_key (c_laddr c) (c_packet_wall_ns c)).1 =
      option_map e_owner (reserved_for waiting_table sample_send_key (c_id c)).
Proof.
  set (c := {| c_id := 0; c_laddr := sample_local; c_packet_wall_ns := first_ns; c_tomb := false |}).
  assert (c ∈ claims_of waiting_table sample_send_key) as Hc.
  { replace (claims_of waiting_table sample_send_key) with [c] by (vm_compute; reflexivity). left. }
  exists c. split; [exact Hc|]. split; [vm_compute; reflexivity|]. split; [vm_compute; reflexivity|].
  apply (no_overtaking (take 2 waiting_ops) (table_run send_table_new (take 2 waiting_ops)).1
    waiting_table sample_send_key);
    [vm_compute; discriminate|exact (surjective_pairing (table_run send_table_new (take 2 waiting_ops)))|
     exact Hc].
Defined.

Definition abandoned_ops : list table_op :=
  [TClaim sample_send_key sample_local first_ns; TAbandon 0].

Definition abandoned_table : SendTable := (table_run send_table_new abandoned_ops).2.

Lemma late_record_absorbed_witness :
  entry_for abandoned_table (sample_send 7 first_ns)
    ∉ queue_of (table_insert abandoned_table (sample_send 7 first_ns)) sample_send_key /\
  tombstone_consumed (st_counters (table_insert abandoned_table (sample_send 7 first_ns))) = 1.
Proof.
  split; [|vm_compute; reflexivity].
  set (c := {| c_id := 0; c_laddr := sample_local; c_packet_wall_ns := first_ns; c_tomb := true |}).
  apply (late_record_absorbed abandoned_ops (table_run send_table_new abandoned_ops).1
    abandoned_table (sample_send 7 first_ns) c).
  - vm_compute. reflexivity.
  - exact (surjective_pairing (table_run send_table_new abandoned_ops)).
  - replace (claims_of abandoned_table (ks_key (sample_send 7 first_ns))) with [c]
      by (vm_compute; reflexivity). left.
  - reflexivity.
  - vm_compute. discriminate.
  - vm_compute. reflexivity.
  - vm_compute. reflexivity.
Defined.
