(* ===== verification/EbpfRecord.v ===== *)
(** * Kernel records: [crates/osiris-ebpf] and the eBPF backends of the sensors

    The BPF programs write C structs into a ring buffer; user space reads them back as
    untrusted bytes.  [read_struct] follows the natural alignment of [repr(C)], so the
    layouts the tests of the source pin are consequences, and [image] is what the kernel
    writes.  The second half turns decoded records into raw events: executable paths tied
    to a record, argument vectors, clocks. *)

From S2P Require Import Prelude Schema RawEvent FileUtil DnsWire DnsTracker ProcAudit SendTable.

Module Ebpf.

(** ** C layouts *)

(** A field: an integer of [n] bytes, aligned to its size, or a byte array. *)
Inductive cty := CU (n : nat) | CA (n : nat).

Definition csize (f : cty) : nat := match f with CU n | CA n => n end.
Definition calign (f : cty) : nat := match f with CU n => n | CA _ => 1%nat end.

Definition align_up (off a : nat) : nat := ((off + a - 1) / a * a)%nat.

Fixpoint place (off : nat) (fs : list cty) : list nat :=
  match fs with
  | [] => []
  | f :: fs => let o := align_up off (calign f) in o :: place (o + csize f) fs
  end.

Fixpoint end_of (off : nat) (fs : list cty) : nat :=
  match fs with
  | [] => off
  | f :: fs => end_of (align_up off (calign f) + csize f) fs
  end.

Definition size_of (fs : list cty) : nat :=
  align_up (end_of 0 fs) (foldr (fun f n => Nat.max (calign f) n) 1%nat fs).

Fixpoint fields_at (off : nat) (fs : list cty) (bytes : list byte) : list (list byte) :=
  match fs with
  | [] => []
  | f :: fs => let o := align_up off (calign f) in
               take (csize f) (drop o bytes) :: fields_at (o + csize f) fs bytes
  end.

(** [read::<T>]: the assertion on the length, then the fields in place. *)
Definition read_struct {E} (fs : list cty) (bytes : list byte) : outcome E (list (list byte)) :=
  if (size_of fs <=? List.length bytes)%nat then Ok (fields_at 0 fs bytes) else Panic.

(** ** The structs *)

Definition COMM_LEN : nat := 16.
Definition ARGS_MAX : nat := N.to_nat 4096.
Definition FILENAME_MAX : nat := N.to_nat 256.
Definition PATH_CAP : nat := N.to_nat 1024.

Record RecordHeader := { schema_version : Z; kind : Z }.

Definition HEADER : list cty := [CU 4; CU 4].

Record ExecRecord := {
  er_pid : Z; er_ppid : Z; er_uid : Z; er_gid : Z; er_ktime_ns : Z; er_start_boottime_ns : Z;
  er_comm : list byte; er_filename_len : Z; er_args_len : Z; er_args_truncated : Z;
  er_exe_dev : Z; er_exe_ino : Z; er_filename : list byte; er_args : list byte }.

Definition EXEC : list cty :=
  HEADER ++ [CU 4; CU 4; CU 4; CU 4; CU 8; CU 8; CA COMM_LEN; CU 4; CU 4; CU 1; CA 3; CU 4; CU 8;
             CA FILENAME_MAX; CA ARGS_MAX].

Record ExitRecord := {
  xr_pid : Z; xr_ppid : Z; xr_uid : Z; xr_exit_status : Z; xr_ktime_ns : Z;
  xr_start_boottime_ns : Z; xr_comm : list byte }.

Definition EXIT : list cty := HEADER ++ [CU 4; CU 4; CU 4; CU 4; CU 8; CU 8; CA COMM_LEN].

Record FsRecord := {
  fr_pid : Z; fr_ppid : Z; fr_uid : Z; fr_ret : Z; fr_ktime_ns : Z; fr_comm : list byte;
  fr_exe_dev : Z; fr_dev : Z; fr_exe_ino : Z; fr_ino : Z; fr_mode : Z; fr_owner_uid : Z;
  fr_owner_gid : Z; fr_has_inode : Z; fr_path_truncated : Z; fr_old_path_truncated : Z;
  fr_path_len : Z; fr_old_path_len : Z; fr_path : list byte; fr_old_path : list byte }.

Definition FS : list cty :=
  HEADER ++ [CU 4; CU 4; CU 4; CU 4; CU 8; CA COMM_LEN; CU 4; CU 4; CU 8; CU 8; CU 4; CU 4; CU 4;
             CU 1; CU 1; CU 1; CU 1; CU 2; CU 2; CU 4; CA PATH_CAP; CA PATH_CAP].

Record NetRecord := {
  nr_pid : Z; nr_uid : Z; nr_ktime_ns : Z; nr_comm : list byte; nr_family : Z; nr_lport : Z;
  nr_rport : Z; nr_direction : Z; nr_laddr : list byte; nr_raddr : list byte; nr_exe_dev : Z;
  nr_exe_ino : Z }.

Definition NET : list cty :=
  HEADER ++ [CU 4; CU 4; CU 8; CA COMM_LEN; CU 2; CU 2; CU 2; CU 1; CU 1; CA 16; CA 16; CU 4; CU 4;
             CU 8].

Record DnsRecord := {
  dr_pid : Z; dr_tid : Z; dr_uid : Z; dr_family : Z; dr_lport : Z; dr_ktime_ns : Z;
  dr_comm : list byte; dr_exe_dev : Z; dr_netns_ino : Z; dr_exe_ino : Z; dr_rport : Z;
  dr_laddr : list byte; dr_raddr : list byte }.

Definition DNS : list cty :=
  HEADER ++ [CU 4; CU 4; CU 4; CU 2; CU 2; CU 8; CA COMM_LEN; CU 4; CU 4; CU 8; CU 2; CU 2; CU 4;
             CA 16; CA 16].

(** ** Decoded records *)

Record ExeIdentity := { ei_dev : Z; ei_ino : Z }.

#[global] Instance exe_identity_eq_dec : EqDecision ExeIdentity.
Proof. solve_decision. Defined.

Record ExecEvent := {
  ee_pid : Z; ee_ppid : Z; ee_uid : Z; ee_ktime_ns : Z; ee_start_boottime_ns : Z;
  ee_comm : string; ee_filename : string; ee_args : list byte; ee_args_truncated : bool;
  ee_exe : option ExeIdentity }.

Record ExitEvent := {
  xe_pid : Z; xe_ppid : Z; xe_uid : Z; xe_exit_status : Z; xe_ktime_ns : Z;
  xe_start_boottime_ns : Z; xe_comm : string }.

Inductive Record_ := Exec (e : ExecEvent) | Exit (e : ExitEvent).

Inductive FsKind := Create | Write_ | Delete | Rename.

Record FsInode := {
  fi_dev : Z; fi_ino : Z; fi_mode : Z; fi_owner_uid : Z; fi_owner_gid : Z }.

Record FsEvent := {
  fv_kind : FsKind; fv_pid : Z; fv_ppid : Z; fv_uid : Z; fv_ret : Z; fv_ktime_ns : Z;
  fv_comm : string; fv_exe : option ExeIdentity; fv_inode : option FsInode; fv_path : list byte;
  fv_path_truncated : bool; fv_old_path : option (list byte); fv_old_path_truncated : bool }.

Inductive NetKind := Connect | Accept | Close.

Record NetEvent := {
  nv_kind : NetKind; nv_pid : Z; nv_uid : Z; nv_ktime_ns : Z; nv_comm : string; nv_family : Z;
  nv_lport : Z; nv_rport : Z; nv_direction : Z; nv_laddr : list byte; nv_raddr : list byte;
  nv_exe : option ExeIdentity }.

Record DnsSendEvent := {
  ds_pid : Z; ds_tid : Z; ds_uid : Z; ds_ktime_ns : Z; ds_comm : string;
  ds_exe : option ExeIdentity; ds_netns_ino : Z; ds_local : SocketAddr; ds_remote : SocketAddr }.

Inductive DecodeError :=
| ShorterThanHeader (got : nat)
| UnsupportedVersion (v : Z)
| UnknownKind (k : Z)
| Truncated (k : Z) (got need : nat)
| UnknownFamily (f : Z)
| UnknownDirection (d : Z)
| PathTooLong (field : string) (len : Z).

(** ** Reading the structs *)

Definition read_header (bytes : list byte) : outcome DecodeError RecordHeader :=
  let? fs := read_struct HEADER bytes in
  match fs with
  | [v; k] => Ok {| schema_version := of_le v; kind := of_le k |}
  | _ => Panic
  end.

Definition read_exec (bytes : list byte) : outcome DecodeError ExecRecord :=
  let? fs := read_struct EXEC bytes in
  match fs with
  | [_; _; pid; ppid; uid; gid; kt; bt; comm; fl; al; at_; _; dev; ino; filename; args] =>
      Ok {| er_pid := of_le pid; er_ppid := of_le ppid; er_uid := of_le uid; er_gid := of_le gid;
            er_ktime_ns := of_le kt; er_start_boottime_ns := of_le bt; er_comm := comm;
            er_filename_len := of_le fl; er_args_len := of_le al; er_args_truncated := of_le at_;
            er_exe_dev := of_le dev; er_exe_ino := of_le ino; er_filename := filename;
            er_args := args |}
  | _ => Panic
  end.

Definition read_exit (bytes : list byte) : outcome DecodeError ExitRecord :=
  let? fs := read_struct EXIT bytes in
  match fs with
  | [_; _; pid; ppid; uid; st; kt; bt; comm] =>
      Ok {| xr_pid := of_le pid; xr_ppid := of_le ppid; xr_uid := of_le uid;
            xr_exit_status := of_le st; xr_ktime_ns := of_le kt; xr_start_boottime_ns := of_le bt;
            xr_comm := comm |}
  | _ => Panic
  end.

(** [u32] bits read as [i32]. *)
Definition as_i32 (z : Z) : Z := if z <? 2 ^ 31 then z else z - 2 ^ 32.

Definition read_fs (bytes : list byte) : outcome DecodeError FsRecord :=
  let? fs := read_struct FS bytes in
  match fs with
  | [_; _; pid; ppid; uid; ret; kt; comm; xdev; dev; xino; ino; mode; ou; og; hi; pt; opt; _; pl; opl;
     _; path; old] =>
      Ok {| fr_pid := of_le pid; fr_ppid := of_le ppid; fr_uid := of_le uid;
            fr_ret := as_i32 (of_le ret); fr_ktime_ns := of_le kt; fr_comm := comm;
            fr_exe_dev := of_le xdev; fr_dev := of_le dev; fr_exe_ino := of_le xino;
            fr_ino := of_le ino; fr_mode := of_le mode; fr_owner_uid := of_le ou;
            fr_owner_gid := of_le og; fr_has_inode := of_le hi; fr_path_truncated := of_le pt;
            fr_old_path_truncated := of_le opt; fr_path_len := of_le pl;
            fr_old_path_len := of_le opl; fr_path := path; fr_old_path := old |}
  | _ => Panic
  end.

Definition read_net (bytes : list byte) : outcome DecodeError NetRecord :=
  let? fs := read_struct NET bytes in
  match fs with
  | [_; _; pid; uid; kt; comm; fam; lp; rp; dir; _; la; ra; dev; _; ino] =>
      Ok {| nr_pid := of_le pid; nr_uid := of_le uid; nr_ktime_ns := of_le kt; nr_comm := comm;
            nr_family := of_le fam; nr_lport := of_le lp; nr_rport := of_le rp;
            nr_direction := of_le dir; nr_laddr := la; nr_raddr := ra; nr_exe_dev := of_le dev;
            nr_exe_ino := of_le ino |}
  | _ => Panic
  end.

Definition read_dns (bytes : list byte) : outcome DecodeError DnsRecord :=
  let? fs := read_struct DNS bytes in
  match fs with
  | [_; _; pid; tid; uid; fam; lp; kt; comm; dev; ns; ino; rp; _; _; la; ra] =>
      Ok {| dr_pid := of_le pid; dr_tid := of_le tid; dr_uid := of_le uid; dr_family := of_le fam;
            dr_lport := of_le lp; dr_ktime_ns := of_le kt; dr_comm := comm; dr_exe_dev := of_le dev;
            dr_netns_ino := of_le ns; dr_exe_ino := of_le ino; dr_rport := of_le rp; dr_laddr := la;
            dr_raddr := ra |}
  | _ => Panic
  end.

(** ** [exe.rs]: devices *)

Definition dev_to_user (kernel_dev : Z) : Z :=
  let major := Z.shiftr kernel_dev 20 in
  let minor := Z.land kernel_dev 1048575 in
  Z.lor (Z.lor (Z.lor (Z.shiftl (Z.land major 4294963200) 32) (Z.shiftl (Z.land major 4095) 8))
           (Z.shiftl (Z.land minor 4294967040) 12))
    (Z.land minor 255).

Definition dev_from_user (st_dev : Z) : Z :=
  let major := Z.lor (Z.land (Z.shiftr st_dev 8) 4095) (Z.land (Z.shiftr st_dev 32) 4294963200) in
  let minor := Z.lor (Z.land st_dev 255) (Z.land (Z.shiftr st_dev 12) 4294967040) in
  Z.lor (Z.shiftl (Z.land major 4095) 20) (Z.land minor 1048575) mod 2 ^ 32.

(** ** Decoding *)

Definition PROCESS_SCHEMA_VERSION : Z := 2.
Definition FS_SCHEMA_VERSION : Z := 1.
Definition NET_SCHEMA_VERSION : Z := 1.
Definition DNS_SCHEMA_VERSION : Z := 1.
Definition KIND_EXEC : Z := 1.
Definition KIND_EXIT : Z := 2.
Definition AF_INET : Z := 2.
Definition AF_INET6 : Z := 10.
Definition DIR_OUTBOUND : Z := 1.
Definition DIR_INBOUND : Z := 2.
Definition KIND_DNS_SEND : Z := 10.

(** [&b[..n]]. *)
Definition upto {E} (n : nat) (b : list byte) : outcome E (list byte) :=
  if (n <=? List.length b)%nat then Ok (take n b) else Panic.

Fixpoint until_nul (b : list byte) : list byte :=
  match b with
  | [] => []
  | x :: b => if b2z x =? 0 then [] else x :: until_nul b
  end.

Definition c_string (bytes : list byte) (len : nat) : string :=
  from_utf8_lossy (until_nul (take (Nat.min len (List.length bytes)) bytes)).

Definition identity_of (dev ino : Z) : option ExeIdentity :=
  if negb (ino =? 0) then Some {| ei_dev := dev_to_user dev; ei_ino := ino |} else None.

(** The checks every decoder starts with. *)
Definition check_header (version : Z) (bytes : list byte) : outcome DecodeError RecordHeader :=
  if (List.length bytes <? size_of HEADER)%nat then Err (ShorterThanHeader (List.length bytes))
  else
    let? hdr := read_header bytes in
    if negb (schema_version hdr =? version) then Err (UnsupportedVersion (schema_version hdr))
    else Ok hdr.

Definition check_length (k : Z) (need : nat) (bytes : list byte) : outcome DecodeError unit :=
  if (List.length bytes <? need)%nat then Err (Truncated k (List.length bytes) need) else Ok tt.

Definition decode (bytes : list byte) : outcome DecodeError Record_ :=
  let? hdr := check_header PROCESS_SCHEMA_VERSION bytes in
  let? need := (if kind hdr =? KIND_EXEC then Ok (size_of EXEC)
                else if kind hdr =? KIND_EXIT then Ok (size_of EXIT)
                else Err (UnknownKind (kind hdr))) in
  let? _ := check_length (kind hdr) need bytes in
  if kind hdr =? KIND_EXEC then
    let? r := read_exec bytes in
    let args_len := Nat.min (Z.to_nat (er_args_len r)) ARGS_MAX in
    let? args := upto args_len (er_args r) in
    Ok (Exec {| ee_pid := er_pid r; ee_ppid := er_ppid r; ee_uid := er_uid r;
                ee_ktime_ns := er_ktime_ns r; ee_start_boottime_ns := er_start_boottime_ns r;
                ee_comm := c_string (er_comm r) COMM_LEN;
                ee_filename := c_string (er_filename r)
                                 (Nat.min (Z.to_nat (er_filename_len r)) FILENAME_MAX);
                ee_args := args; ee_args_truncated := negb (er_args_truncated r =? 0);
                ee_exe := identity_of (er_exe_dev r) (er_exe_ino r) |})
  else
    let? r := read_exit bytes in
    Ok (Exit {| xe_pid := xr_pid r; xe_ppid := xr_ppid r; xe_uid := xr_uid r;
                xe_exit_status := xr_exit_status r; xe_ktime_ns := xr_ktime_ns r;
                xe_start_boottime_ns := xr_start_boottime_ns r;
                xe_comm := c_string (xr_comm r) COMM_LEN |}).

Definition fs_kind (k : Z) : outcome DecodeError FsKind :=
  if k =? 6 then Ok Create else if k =? 7 then Ok Write_ else if k =? 8 then Ok Delete
  else if k =? 9 then Ok Rename else Err (UnknownKind k).

Definition is_rename (k : FsKind) : bool := match k with Rename => true | _ => false end.

Definition decode_fs (bytes : list byte) : outcome DecodeError FsEvent :=
  let? hdr := check_header FS_SCHEMA_VERSION bytes in
  let? k := fs_kind (kind hdr) in
  let? _ := check_length (kind hdr) (size_of FS) bytes in
  let? r := read_fs bytes in
  if (PATH_CAP <? Z.to_nat (fr_path_len r))%nat then Err (PathTooLong "path" (fr_path_len r))
  else if is_rename k && (PATH_CAP <? Z.to_nat (fr_old_path_len r))%nat then
    Err (PathTooLong "old_path" (fr_old_path_len r))
  else
    let? path := upto (Z.to_nat (fr_path_len r)) (fr_path r) in
    let? old := (if is_rename k
                 then let? o := upto (Z.to_nat (fr_old_path_len r)) (fr_old_path r) in Ok (Some o)
                 else Ok None) in
    Ok {| fv_kind := k; fv_pid := fr_pid r; fv_ppid := fr_ppid r; fv_uid := fr_uid r;
          fv_ret := fr_ret r; fv_ktime_ns := fr_ktime_ns r; fv_comm := c_string (fr_comm r) COMM_LEN;
          fv_exe := identity_of (fr_exe_dev r) (fr_exe_ino r);
          fv_inode := (if negb (fr_has_inode r =? 0) && negb (fr_ino r =? 0)
                       then Some {| fi_dev := fr_dev r; fi_ino := fr_ino r; fi_mode := fr_mode r;
                                    fi_owner_uid := fr_owner_uid r; fi_owner_gid := fr_owner_gid r |}
                       else None);
          fv_path := path; fv_path_truncated := negb (fr_path_truncated r =? 0);
          fv_old_path := old;
          fv_old_path_truncated := is_rename k && negb (fr_old_path_truncated r =? 0) |}.

Definition net_kind (k : Z) : outcome DecodeError NetKind :=
  if k =? 3 then Ok Connect else if k =? 4 then Ok Accept else if k =? 5 then Ok Close
  else Err (UnknownKind k).

Definition known_family (f : Z) : bool := (f =? AF_INET) || (f =? AF_INET6).

Definition decode_net (bytes : list byte) : outcome DecodeError NetEvent :=
  let? hdr := check_header NET_SCHEMA_VERSION bytes in
  let? k := net_kind (kind hdr) in
  let? _ := check_length (kind hdr) (size_of NET) bytes in
  let? r := read_net bytes in
  if negb (known_family (nr_family r)) then Err (UnknownFamily (nr_family r))
  else if negb (nr_direction r =? DIR_OUTBOUND) && negb (nr_direction r =? DIR_INBOUND) then
    Err (UnknownDirection (nr_direction r))
  else
    Ok {| nv_kind := k; nv_pid := nr_pid r; nv_uid := nr_uid r; nv_ktime_ns := nr_ktime_ns r;
          nv_comm := c_string (nr_comm r) COMM_LEN; nv_family := nr_family r; nv_lport := nr_lport r;
          nv_rport := nr_rport r; nv_direction := nr_direction r; nv_laddr := nr_laddr r;
          nv_raddr := nr_raddr r; nv_exe := identity_of (nr_exe_dev r) (nr_exe_ino r) |}.

(** [bytes[0]] to [bytes[3]] of a 16-byte array. *)
Definition addr (family : Z) (bytes : list byte) (port : Z) : SocketAddr :=
  {| sa_ip := (if family =? AF_INET then V4 (take 4 bytes) else V6 bytes); sa_port := port |}.

Definition decode_dns (bytes : list byte) : outcome DecodeError DnsSendEvent :=
  let? hdr := check_header DNS_SCHEMA_VERSION bytes in
  if negb (kind hdr =? KIND_DNS_SEND) then Err (UnknownKind (kind hdr))
  else
    let? _ := check_length (kind hdr) (size_of DNS) bytes in
    let? r := read_dns bytes in
    if negb (known_family (dr_family r)) then Err (UnknownFamily (dr_family r))
    else
      Ok {| ds_pid := dr_pid r; ds_tid := dr_tid r; ds_uid := dr_uid r; ds_ktime_ns := dr_ktime_ns r;
            ds_comm := c_string (dr_comm r) COMM_LEN;
            ds_exe := identity_of (dr_exe_dev r) (dr_exe_ino r); ds_netns_ino := dr_netns_ino r;
            ds_local := addr (dr_family r) (dr_laddr r) (dr_lport r);
            ds_remote := addr (dr_family r) (dr_raddr r) (dr_rport r) |}.

(** Exit code or signal of a Linux wait status. *)
Definition decode_wait_status (status : Z) : option Z * option Z :=
  let sig := Z.land status 127 in
  if sig =? 0 then (Some (Z.land (Z.shiftr status 8) 255), None) else (None, Some sig).

(** ** [exe.rs]: tying a link to a record *)

(** What the three reads of [/proc/<pid>] return, in the order they are made: the target of
    [exe], [stat] of [exe], the bytes of [comm]. *)
Record ProcReads := {
  pr_link : option (list byte); pr_stat : option ExeIdentity; pr_comm : option (list byte) }.

Definition newline : byte := Byte.x0a.

(** [comm] without its trailing newline. *)
Definition proc_comm (p : ProcReads) : option (list byte) :=
  option_map (fun c => default c (strip_suffix [newline] c)) (pr_comm p).

Definition COMM_MAX_BYTES : nat := 15.

Definition same_comm (comm : list byte) (record_comm : string) : bool :=
  bool_decide (from_utf8_lossy (take COMM_MAX_BYTES comm) = record_comm).

Definition comm_checked_link (link : option string) (comm : option (list byte)) (record_comm : string)
  : option string :=
  match link, comm with
  | Some link, Some comm => if same_comm comm record_comm then Some link else None
  | _, _ => None
  end.

Definition resolve_exe (p : ProcReads) (exe : option ExeIdentity) (record_comm : string)
  : option string :=
  match pr_link p with
  | None => None
  | Some l =>
      let link := from_utf8_lossy l in
      if match exe with Some _ => bool_decide (pr_stat p = exe) | None => false end then Some link
      else comm_checked_link (Some link) (proc_comm p) record_comm
  end.

(** ** The backends: records to raw events *)

(** [ktime_ns + offset] in [i128], clamped to [u64]. *)
Definition wall_clock_ns (ktime_ns offset : Z) : Z :=
  Z.max 0 (Z.min (ktime_ns + offset) u64_max).

Definition NS_PER_CLOCK_TICK : Z := 10000000.
Definition start_time_ticks (start_boottime_ns : Z) : Z := start_boottime_ns / NS_PER_CLOCK_TICK.

Definition nul : byte := Byte.x00.

(** The loop of [split_argv] over the arguments, with the bytes kept so far. *)
Fixpoint split_loop (args : list (list byte)) (kept : nat) : list string :=
  match args with
  | [] => []
  | arg :: args =>
      let n := Nat.min (List.length arg) (MAX_ARGV_BYTES - kept) in
      if (n =? 0)%nat && negb (List.length arg =? 0)%nat then []
      else from_utf8_lossy (take n arg) :: split_loop args (kept + n)
  end.

Definition split_argv (bytes : list byte) : list string :=
  match bytes with
  | [] => []
  | _ =>
      let body := default bytes (strip_suffix [nul] bytes) in
      split_loop (take MAX_ARGS (split_all nul body)) 0
  end.

Definition exec_to_raw (e : ExecEvent) (offset : Z) (p : ProcReads) : ProcessExecRaw :=
  {| px_pid := ee_pid e; px_ppid := ee_ppid e; px_uid := ee_uid e;
     px_exe_path := default (ee_filename e) (resolve_exe p (ee_exe e) (ee_comm e));
     px_comm := ee_comm e; px_cmdline := split_argv (ee_args e);
     px_timestamp_ns := wall_clock_ns (ee_ktime_ns e) offset;
     px_start_time_mono := start_time_ticks (ee_start_boottime_ns e); px_source := REbpf |}.

Definition exit_to_raw (e : ExitEvent) (offset : Z) (exe_path : string) : ProcessExitRaw :=
  let '(exit_code, signal) := decode_wait_status (xe_exit_status e) in
  {| pt_pid := xe_pid e; pt_ppid := xe_ppid e; pt_uid := xe_uid e; pt_comm := xe_comm e;
     pt_exe_path := exe_path; pt_exit_code := exit_code; pt_signal := signal;
     pt_timestamp_ns := wall_clock_ns (xe_ktime_ns e) offset;
     pt_start_time_mono := start_time_ticks (xe_start_boottime_ns e); pt_source := REbpf |}.

(** U+2026 and a slash in front of the tail of a path. *)
Definition render_path (bytes : list byte) (truncated : bool) : string :=
  let text := from_utf8_lossy bytes in
  if truncated then (of_bytes (map z2b [226; 128; 166; 47]) +:+ text)%string else text.

(** [exe_path] is the path the caller's index gives for the record. *)
Definition fs_to_raw_indexed (e : FsEvent) (offset : Z) (exe_path : string) : FileEventRaw :=
  {| fe_operation := match fv_kind e with Create => FoCreate | Write_ => FoWrite | Delete => FoDelete
                     | Rename => FoRename end;
     fe_path := render_path (fv_path e) (fv_path_truncated e);
     fe_previous_path := match fv_kind e with
                         | Rename => Some (render_path (default [] (fv_old_path e)) (fv_old_path_truncated e))
                         | _ => None
                         end;
     fe_inode := option_map fi_ino (fv_inode e);
     fe_device_id := option_map (fun i => encode_device_id (Z.shiftr (fi_dev i) 20)
                                            (Z.land (fi_dev i) 1048575)) (fv_inode e);
     fe_mode := option_map fi_mode (fv_inode e);
     fe_owner_uid := option_map fi_owner_uid (fv_inode e);
     fe_owner_gid := option_map fi_owner_gid (fv_inode e);
     fe_pid := fv_pid e; fe_ppid := fv_ppid e; fe_uid := fv_uid e; fe_exe_path := exe_path;
     fe_comm := fv_comm e; fe_timestamp_ns := wall_clock_ns (fv_ktime_ns e) offset;
     fe_audit_serial := None; fe_source := REbpf |}.

Definition render_addr (family : Z) (a : list byte) : string :=
  if family =? AF_INET then ip_to_string (V4 (take 4 a)) else ip_to_string (to_canonical (V6 a)).

Definition net_direction (e : NetEvent) : RawNetworkDirection :=
  match nv_kind e with
  | Connect => RawOutbound
  | Accept => RawInbound
  | Close => if nv_direction e =? DIR_INBOUND then RawInbound else RawOutbound
  end.

Definition net_to_raw (e : NetEvent) (offset : Z) (p : ProcReads) : NetworkEventRaw :=
  {| ne_operation := match nv_kind e with Connect => NoConnect | Accept => NoAccept | Close => NoClose end;
     ne_local_addr := render_addr (nv_family e) (nv_laddr e); ne_local_port := nv_lport e;
     ne_remote_addr := render_addr (nv_family e) (nv_raddr e); ne_remote_port := nv_rport e;
     ne_proto := "tcp"; ne_direction := net_direction e; ne_pid := Some (nv_pid e); ne_uid := nv_uid e;
     ne_exe_path := default "" (resolve_exe p (nv_exe e) (nv_comm e)); ne_comm := nv_comm e;
     ne_timestamp_ns := wall_clock_ns (nv_ktime_ns e) offset; ne_source := REbpf |}.

Definition send_from_event (e : DnsSendEvent) (offset : Z) (p : ProcReads) : KernelSend :=
  {| ks_key := send_key (ds_local e) (ds_remote e); ks_laddr := sa_ip (ds_local e);
     ks_sent_wall_ns := wall_clock_ns (ds_ktime_ns e) offset;
     ks_owner := {| at_pid := Some (ds_pid e); at_uid := ds_uid e;
                    at_exe_path := default "" (resolve_exe p (ds_exe e) (ds_comm e));
                    at_comm := ds_comm e |} |}.

(** ** What the kernel writes *)

Fixpoint emit (off : nat) (fs : list cty) (vals : list (list byte)) : list byte :=
  match fs, vals with
  | f :: fs, v :: vals =>
      let o := align_up off (calign f) in
      repeat nul (o - off) ++ v ++ emit (o + csize f) fs vals
  | _, _ => []
  end.

(** A struct with zeroed padding. *)
Definition image (fs : list cty) (vals : list (list byte)) : list byte :=
  emit 0 fs vals ++ repeat nul (size_of fs - end_of 0 fs).

Lemma align_up_ge off a : (0 < a)%nat -> (off <= align_up off a)%nat.
Proof.
  intros Ha. unfold align_up. pose proof (Nat.div_mod (off + a - 1) a ltac:(lia)).
  pose proof (Nat.mod_upper_bound (off + a - 1) a ltac:(lia)). nia.
Qed.

Abbreviation aligned fs := (Forall (fun f => (0 < calign f)%nat) fs).
Abbreviation shaped fs vals := (Forall2 (fun f (v : list byte) => List.length v = csize f) fs vals).

Lemma end_of_ge fs : forall off, aligned fs -> (off <= end_of off fs)%nat.
Proof.
  induction fs as [|f fs IH]; intros off H; simpl; [lia|]. apply Forall_cons in H as [Hf H].
  pose proof (align_up_ge off (calign f) Hf). specialize (IH (align_up off (calign f) + csize f)%nat H). lia.
Qed.

Lemma length_emit fs vals : forall off,
  aligned fs -> shaped fs vals -> (off + List.length (emit off fs vals) = end_of off fs)%nat.
Proof.
  intros off Ha H. revert off Ha. induction H as [|f v fs vals Hv _ IH]; intros off Ha; simpl; [lia|].
  apply Forall_cons in Ha as [Hf Ha]. pose proof (align_up_ge off (calign f) Hf).
  rewrite !length_app, repeat_length, Hv. rewrite <- (IH _ Ha). lia.
Qed.

Lemma fields_emit fs vals : forall p rest,
  aligned fs -> shaped fs vals ->
  fields_at (List.length p) fs (p ++ emit (List.length p) fs vals ++ rest) = vals.
Proof.
  intros p rest Ha H. revert p Ha. induction H as [|f v fs vals Hv _ IH]; intros p Ha; cbn [fields_at emit]; [done|].
  apply Forall_cons in Ha as [Hf Ha]. pose proof (align_up_ge (List.length p) (calign f) Hf).
  set (o := align_up (List.length p) (calign f)) in *.
  set (pad := repeat nul (o - List.length p)).
  assert (List.length (p ++ pad) = o) as Ho by (rewrite length_app; unfold pad; rewrite repeat_length; lia).
  assert (List.length (p ++ pad ++ v) = (o + csize f)%nat) as Hov
    by (rewrite app_assoc, length_app, Ho, Hv; lia).
  specialize (IH (p ++ pad ++ v) Ha). rewrite Hov in IH.
  rewrite <- !app_assoc in IH |- *. rewrite IH. f_equal.
  rewrite (app_assoc p pad), <- Ho, drop_app_length, <- Hv. apply take_app_length.
Qed.

Lemma size_of_ge fs : (end_of 0 fs <= size_of fs)%nat.
Proof.
  unfold size_of. apply align_up_ge. induction fs as [|f fs IH]; simpl; lia.
Qed.

Lemma read_image {E} fs vals rest :
  aligned fs -> shaped fs vals -> read_struct (E := E) fs (image fs vals ++ rest) = Ok vals.
Proof.
  intros Ha Hv. unfold read_struct, image.
  pose proof (length_emit fs vals 0 Ha Hv). pose proof (size_of_ge fs).
  rewrite (proj2 (Nat.leb_le _ _)) by (rewrite !length_app, repeat_length; lia).
  f_equal. rewrite <- app_assoc. by apply (fields_emit fs vals []).
Qed.

Lemma length_image fs vals : aligned fs -> shaped fs vals -> List.length (image fs vals) = size_of fs.
Proof.
  intros Ha Hv. unfold image. rewrite length_app, repeat_length.
  pose proof (length_emit fs vals 0 Ha Hv). pose proof (size_of_ge fs). lia.
Qed.

(** The first fields of a struct are those of its header. *)
Lemma read_header_image fs v k vals rest :
  aligned (CU 4 :: CU 4 :: fs) -> shaped (CU 4 :: CU 4 :: fs) (v :: k :: vals) ->
  read_header (image (CU 4 :: CU 4 :: fs) (v :: k :: vals) ++ rest) =
    Ok {| schema_version := of_le v; kind := of_le k |}.
Proof.
  intros Ha Hv. unfold read_header.
  inversion Hv as [|? ? ? ? H1 Hv1]; subst. inversion Hv1 as [|? ? ? ? H2 Hv2]; subst.
  assert (image (CU 4 :: CU 4 :: fs) (v :: k :: vals) ++ rest =
          image HEADER [v; k] ++ (emit 8 fs vals ++ repeat nul (size_of (CU 4 :: CU 4 :: fs) -
            end_of 0 (CU 4 :: CU 4 :: fs)) ++ rest)) as ->.
  { unfold image. cbn [emit HEADER]. change (align_up 0 (calign (CU 4))) with 0%nat.
    change (align_up (0 + csize (CU 4)) (calign (CU 4))) with 4%nat. simpl.
    by rewrite <- !app_assoc. }
  rewrite read_image; [done|by repeat constructor|by repeat constructor].
Qed.

(** The layouts are those the kernel side asserts. *)
Lemma layouts_pinned :
  size_of HEADER = 8%nat /\ size_of EXEC = 4432%nat /\ size_of EXIT = 56%nat /\ size_of FS = 2144%nat /\
  size_of NET = 96%nat /\ size_of DNS = 104%nat /\
  place 0 EXEC = [0; 4; 8; 12; 16; 20; 24; 32; 40; 56; 60; 64; 65; 68; 72; 80; 336]%nat /\
  place 0 EXIT = [0; 4; 8; 12; 16; 20; 24; 32; 40]%nat /\
  place 0 FS = [0; 4; 8; 12; 16; 20; 24; 32; 48; 52; 56; 64; 72; 76; 80; 84; 85; 86; 87; 88; 90; 92;
                96; 1120]%nat /\
  place 0 NET = [0; 4; 8; 12; 16; 24; 40; 42; 44; 46; 47; 48; 64; 80; 84; 88]%nat /\
  place 0 DNS = [0; 4; 8; 12; 16; 20; 22; 24; 32; 48; 52; 56; 64; 66; 68; 72; 88]%nat.
Proof. vm_compute. repeat split. Qed.

(** ** Totality *)

Lemma read_struct_ok {E} fs bytes :
  (size_of fs <= List.length bytes)%nat -> read_struct (E := E) fs bytes = Ok (fields_at 0 fs bytes).
Proof. intros H. unfold read_struct. by rewrite (proj2 (Nat.leb_le _ _) H). Qed.

Lemma length_slice n o (bytes : list byte) :
  (o + n <= List.length bytes)%nat -> List.length (take n (drop o bytes)) = n.
Proof. intros H. rewrite length_take, length_drop. lia. Qed.

Lemma check_length_ok k need bytes u : check_length k need bytes = Ok u -> (need <= List.length bytes)%nat.
Proof. unfold check_length. destruct (Nat.ltb_spec (List.length bytes) need); [done|]. intros. lia. Qed.

Lemma check_header_total v bytes : no_panic (check_header v bytes).
Proof.
  unfold check_header, read_header. destruct (Nat.ltb_spec (List.length bytes) (size_of HEADER)) as [H|H]; [done|].
  rewrite read_struct_ok by done. cbn [obind fields_at HEADER].
  by destruct (negb _).
Qed.
#[export] Hint Resolve check_header_total : panics.

Lemma check_length_total k need bytes : no_panic (check_length k need bytes).
Proof. unfold check_length. by destruct (_ <? _)%nat. Qed.

Lemma upto_total {E} n b : (n <= List.length b)%nat -> no_panic (upto (E := E) n b).
Proof. intros H. unfold upto. by rewrite (proj2 (Nat.leb_le _ _) H). Qed.

Lemma read_exec_total bytes :
  (size_of EXEC <= List.length bytes)%nat ->
  exists r, read_exec bytes = Ok r /\ List.length (er_args r) = ARGS_MAX.
Proof.
  intros H. unfold read_exec. rewrite read_struct_ok by done.
  cbn [obind fields_at EXEC HEADER app]. eexists. split; [reflexivity|]. cbn [er_args].
  assert (size_of EXEC = 336 + ARGS_MAX)%nat as He by (vm_compute; reflexivity).
  assert (forall o, o = 336%nat -> List.length (take (csize (CA ARGS_MAX)) (drop o bytes)) = ARGS_MAX) as Hl.
  { intros o ->. cbn [csize]. apply length_slice. lia. }
  apply Hl. vm_compute. reflexivity.
Qed.

Lemma read_fs_total bytes :
  (size_of FS <= List.length bytes)%nat ->
  exists r, read_fs bytes = Ok r /\ List.length (fr_path r) = PATH_CAP /\
    List.length (fr_old_path r) = PATH_CAP.
Proof.
  intros H. unfold read_fs. rewrite read_struct_ok by done.
  cbn [obind fields_at FS HEADER app]. eexists. split; [reflexivity|]. cbn [fr_path fr_old_path].
  assert (size_of FS = 96 + PATH_CAP + PATH_CAP)%nat as He by (vm_compute; reflexivity).
  assert (forall o, (o + PATH_CAP <= size_of FS)%nat ->
    List.length (take (csize (CA PATH_CAP)) (drop o bytes)) = PATH_CAP) as Hl.
  { intros o Ho. cbn [csize]. apply length_slice. lia. }
  split; apply Hl; apply Nat.leb_le; vm_compute; reflexivity.
Qed.

Lemma decode_total bytes : no_panic (decode bytes).
Proof.
  unfold decode. apply obind_no_panic; [apply check_header_total|]. intros hdr _.
  destruct (kind hdr =? KIND_EXEC) eqn:E; cbn [obind].
  - apply obind_no_panic; [apply check_length_total|]. intros u Hu. apply check_length_ok in Hu.
    destruct (read_exec_total bytes Hu) as (r & -> & Hl). cbn [obind].
    apply obind_no_panic; [|done]. apply upto_total. lia.
  - destruct (kind hdr =? KIND_EXIT) eqn:E2; cbn [obind]; [|done].
    apply obind_no_panic; [apply check_length_total|]. intros u Hu. apply check_length_ok in Hu.
    unfold read_exit. rewrite read_struct_ok by done. by cbn [obind fields_at EXIT HEADER app].
Qed.

Lemma decode_fs_total bytes : no_panic (decode_fs bytes).
Proof.
  unfold decode_fs. apply obind_no_panic; [apply check_header_total|]. intros hdr _.
  apply obind_no_panic; [unfold fs_kind; by repeat case_match|]. intros k _.
  apply obind_no_panic; [apply check_length_total|]. intros u Hu. apply check_length_ok in Hu.
  destruct (read_fs_total bytes Hu) as (r & -> & H1 & H2). cbn [obind].
  destruct (Nat.ltb_spec PATH_CAP (Z.to_nat (fr_path_len r))) as [Hp|Hp]; [done|].
  destruct (is_rename k && (PATH_CAP <? Z.to_nat (fr_old_path_len r))%nat) eqn:E; [done|].
  apply obind_no_panic; [by apply upto_total; rewrite H1|]. intros path _.
  apply obind_no_panic; [|done]. destruct (is_rename k); [|done].
  apply obind_no_panic; [|done]. apply upto_total. rewrite H2. simpl in E.
  by apply Nat.ltb_ge in E.
Qed.

Lemma decode_net_total bytes : no_panic (decode_net bytes).
Proof.
  unfold decode_net. apply obind_no_panic; [apply check_header_total|]. intros hdr _.
  apply obind_no_panic; [unfold net_kind; by repeat case_match|]. intros k _.
  apply obind_no_panic; [apply check_length_total|]. intros u Hu. apply check_length_ok in Hu.
  unfold read_net. rewrite read_struct_ok by done. cbn [obind fields_at NET HEADER app].
  by repeat case_match.
Qed.

Lemma decode_dns_total bytes : no_panic (decode_dns bytes).
Proof.
  unfold decode_dns. apply obind_no_panic; [apply check_header_total|]. intros hdr _.
  destruct (negb _); [done|].
  apply obind_no_panic; [apply check_length_total|]. intros u Hu. apply check_length_ok in Hu.
  unfold read_dns. rewrite read_struct_ok by done. cbn [obind fields_at DNS HEADER app].
  by repeat case_match.
Qed.

(** ** Devices *)

Lemma land_low x n : 0 <= n -> Z.land x (2 ^ n - 1) = x mod 2 ^ n.
Proof. intros. rewrite <- Z.land_ones by done. f_equal. rewrite Z.ones_equiv. lia. Qed.

(** Clearing the low [n] bits of a [w]-bit number. *)
Lemma land_high x n w : 0 <= n <= w -> 0 <= x < 2 ^ w -> Z.land x (2 ^ w - 2 ^ n) = x / 2 ^ n * 2 ^ n.
Proof.
  intros Hn Hx. apply Z.bits_inj'. intros i Hi. rewrite Z.land_spec.
  rewrite <- Z.shiftr_div_pow2, <- Z.shiftl_mul_pow2 by lia.
  assert (2 ^ w - 2 ^ n = Z.shiftl (Z.ones (w - n)) n) as ->.
  { rewrite Z.shiftl_mul_pow2, Z.ones_equiv by lia.
    replace (2 ^ w) with (2 ^ (w - n) * 2 ^ n); [lia|]. rewrite <- Z.pow_add_r by lia. f_equal. lia. }
  rewrite !Z.shiftl_spec by lia. destruct (Z.ltb_spec i n).
  - rewrite !(Z.testbit_neg_r _ (i - n)) by lia. apply andb_false_r.
  - rewrite Z.shiftr_spec by lia. replace (i - n + n) with i by lia.
    rewrite Z.testbit_ones by lia. destruct (Z.ltb_spec i w).
    + replace (0 <=? i - n) with true by lia. replace (i - n <? w - n) with true by lia. apply andb_true_r.
    + assert (Z.testbit x i = false) as ->; [|done].
      destruct (Z.eq_dec x 0) as [->|]; [apply Z.bits_0|]. apply Z.bits_above_log2; [lia|].
      apply Z.log2_lt_pow2; [lia|]. assert (2 ^ w <= 2 ^ i) by (apply Z.pow_le_mono_r; lia). lia.
Qed.

Lemma dev_to_user_sum d :
  0 <= d < 2 ^ 32 ->
  dev_to_user d = d / 2 ^ 20 * 2 ^ 8 + d mod 2 ^ 20 / 2 ^ 8 * 2 ^ 20 + d mod 2 ^ 8.
Proof.
  intros H. unfold dev_to_user. rewrite Z.shiftr_div_pow2 by lia.
  change 1048575 with (2 ^ 20 - 1). change 4294963200 with (2 ^ 32 - 2 ^ 12).
  change 4095 with (2 ^ 12 - 1). change 4294967040 with (2 ^ 32 - 2 ^ 8). change 255 with (2 ^ 8 - 1).
  rewrite !land_low by lia.
  assert (0 <= d / 2 ^ 20 < 2 ^ 12) as Hm by (split; [apply Z.div_pos; lia|apply Z.div_lt_upper_bound; lia]).
  pose proof (Z.mod_pos_bound d (2 ^ 20) ltac:(lia)) as Hn.
  rewrite !land_high by lia. rewrite (Z.div_small (d / 2 ^ 20)), (Z.mod_small (d / 2 ^ 20)) by lia.
  rewrite Z.mul_0_l, Z.shiftl_0_l, Z.lor_0_l, !Z.shiftl_mul_pow2 by lia.
  replace ((d mod 2 ^ 20) mod 2 ^ 8) with (d mod 2 ^ 8).
  2:{ rewrite (Z.div_mod d (2 ^ 20)) at 1 by lia. rewrite Z.add_comm.
      replace (2 ^ 20 * (d / 2 ^ 20)) with (d / 2 ^ 20 * 2 ^ 12 * 2 ^ 8) by lia. by rewrite Z_mod_plus_full. }
  pose proof (Z.mod_pos_bound d (2 ^ 8) ltac:(lia)) as Hb.
  set (ma := d / 2 ^ 20) in *. set (hi := d mod 2 ^ 20 / 2 ^ 8). set (lo := d mod 2 ^ 8) in *.
  replace (hi * 2 ^ 8 * 2 ^ 12) with (Z.shiftl hi 20) by (rewrite Z.shiftl_mul_pow2; lia).
  rewrite (Z.lor_comm (ma * 2 ^ 8)), lor_shiftl_add by lia.
  replace (hi * 2 ^ 20 + ma * 2 ^ 8) with (Z.shiftl (hi * 2 ^ 12 + ma) 8)
    by (rewrite !Z.shiftl_mul_pow2; lia).
  rewrite lor_shiftl_add by lia. lia.
Qed.

Lemma dev_roundtrip d : 0 <= d < 2 ^ 32 -> dev_from_user (dev_to_user d) = d.
Proof.
  intros H. rewrite dev_to_user_sum by done. unfold dev_from_user.
  set (ma := d / 2 ^ 20). set (mi := d mod 2 ^ 20). set (hi := mi / 2 ^ 8). set (lo := d mod 2 ^ 8).
  assert (0 <= ma < 2 ^ 12) as Hma by (split; [apply Z.div_pos; lia|apply Z.div_lt_upper_bound; lia]).
  assert (0 <= mi < 2 ^ 20) as Hmi by (apply Z.mod_pos_bound; lia).
  assert (0 <= hi < 2 ^ 12) as Hhi by (split; [apply Z.div_pos; lia|apply Z.div_lt_upper_bound; lia]).
  assert (0 <= lo < 2 ^ 8) as Hlo by (apply Z.mod_pos_bound; lia).
  assert (mi = hi * 2 ^ 8 + lo) as Hmi'.
  { unfold hi, lo. assert (d mod 2 ^ 8 = mi mod 2 ^ 8) as ->.
    { unfold mi. rewrite (Z.div_mod d (2 ^ 20)) at 1 by lia. rewrite Z.add_comm.
      replace (2 ^ 20 * (d / 2 ^ 20)) with (d / 2 ^ 20 * 2 ^ 12 * 2 ^ 8) by lia. by rewrite Z_mod_plus_full. }
    pose proof (Z.div_mod mi (2 ^ 8) ltac:(lia)). lia. }
  set (u := ma * 2 ^ 8 + hi * 2 ^ 20 + lo).
  change 4095 with (2 ^ 12 - 1). change 255 with (2 ^ 8 - 1). change 1048575 with (2 ^ 20 - 1).
  change 4294963200 with (2 ^ 32 - 2 ^ 12). change 4294967040 with (2 ^ 32 - 2 ^ 8).
  rewrite !Z.shiftr_div_pow2 by lia.
  assert (u / 2 ^ 8 = hi * 2 ^ 12 + ma) as -> by (symmetry; apply (Z.div_unique_pos _ _ _ lo); lia).
  assert (u / 2 ^ 32 = 0) as -> by (apply Z.div_small; lia).
  assert (u / 2 ^ 12 = hi * 2 ^ 8 + ma / 2 ^ 4) as ->.
  { pose proof (Z.div_mod ma (2 ^ 4) ltac:(lia)). pose proof (Z.mod_pos_bound ma (2 ^ 4) ltac:(lia)).
    symmetry. apply (Z.div_unique_pos _ _ _ (ma mod 2 ^ 4 * 2 ^ 8 + lo)); lia. }
  assert (0 <= ma / 2 ^ 4 < 2 ^ 8) by (split; [apply Z.div_pos; lia|apply Z.div_lt_upper_bound; lia]).
  rewrite !land_low, !land_high by lia. rewrite Z.lor_0_r.
  assert (u mod 2 ^ 8 = lo) as -> by (symmetry; apply (Z.mod_unique_pos _ _ (hi * 2 ^ 12 + ma)); lia).
  assert ((hi * 2 ^ 12 + ma) mod 2 ^ 12 = ma) as -> by (symmetry; apply (Z.mod_unique_pos _ _ hi); lia).
  assert ((hi * 2 ^ 8 + ma / 2 ^ 4) / 2 ^ 8 = hi) as ->
    by (symmetry; apply (Z.div_unique_pos _ _ _ (ma / 2 ^ 4)); lia).
  rewrite (Z.mod_small ma) by lia. rewrite (Z.lor_comm lo).
  replace (hi * 2 ^ 8) with (Z.shiftl hi 8) by (rewrite Z.shiftl_mul_pow2; lia).
  rewrite (lor_shiftl_add hi) by lia. rewrite <- Hmi', (Z.mod_small mi) by lia.
  rewrite lor_shiftl_add by lia. pose proof (Z.div_mod d (2 ^ 20) ltac:(lia)) as Hd. fold ma mi in Hd.
  rewrite Z.mod_small; lia.
Qed.

(** ** Wait statuses *)

(** A status is an exit code or a signal, never both. *)
Lemma wait_status_decides status :
  0 <= status < 2 ^ 32 ->
  match decode_wait_status status with
  | (Some code, None) => status mod 128 = 0 /\ 0 <= code < 256
  | (None, Some sig) => status mod 128 = sig /\ 0 < sig < 128
  | _ => False
  end.
Proof.
  intros H. unfold decode_wait_status. change 127 with (2 ^ 7 - 1). change 255 with (2 ^ 8 - 1).
  rewrite !land_low by lia. change (2 ^ 7) with 128.
  pose proof (Z.mod_pos_bound status 128 ltac:(lia)).
  pose proof (Z.mod_pos_bound (Z.shiftr status 8) (2 ^ 8) ltac:(lia)).
  destruct (Z.eqb_spec (status mod 128) 0); lia.
Qed.

(** ** Argument vectors *)

Lemma split_loop_cap args : forall kept,
  split_loop args kept = map from_utf8_lossy (cap_argv (MAX_ARGV_BYTES - kept) args).
Proof.
  induction args as [|a args IH]; intros kept; cbn [split_loop cap_argv map]; [done|].
  set (room := (MAX_ARGV_BYTES - kept)%nat).
  assert (from_utf8_lossy (take (Nat.min (List.length a) room) a) :: split_loop args (kept + Nat.min (List.length a) room) =
          map from_utf8_lossy (take room a :: cap_argv (room - List.length a) args)) as Hgo.
  { cbn [map]. rewrite IH. f_equal.
    - f_equal. destruct (Nat.le_ge_cases (List.length a) room).
      + by rewrite Nat.min_l, !take_ge by lia.
      + by rewrite Nat.min_r by lia.
    - f_equal. f_equal. unfold room. lia. }
  clearbody room. destruct a as [|b a]; [exact Hgo|]. destruct room as [|room]; [|exact Hgo].
  by rewrite Nat.min_0_r.
Qed.

(** Arguments as the kernel lays them out, each followed by a NUL. *)
Definition nul_args (argv : list (list byte)) : list byte := concat (map (fun a => a ++ [nul]) argv).

Lemma split_all_join argv a :
  Forall (fun x => nul ∉ x) argv -> nul ∉ a ->
  split_all nul (nul_args argv ++ a) = argv ++ [a].
Proof.
  intros Hf Ha. induction Hf as [|x argv Hx _ IH]; unfold nul_args; cbn [map concat app].
  - clear -Ha. induction a as [|b a IH]; cbn [split_all]; [done|].
    apply not_elem_of_cons in Ha as [Hb Ha]. rewrite decide_False by done. by rewrite IH.
  - fold (nul_args argv). rewrite <- !app_assoc. cbn [app].
    induction x as [|b x IHx]; cbn [app split_all].
    + rewrite decide_True by done. by rewrite IH.
    + apply not_elem_of_cons in Hx as [Hb Hx]. rewrite decide_False by done. by rewrite IHx.
Qed.

Lemma split_argv_args argv :
  Forall (fun a => nul ∉ a) argv ->
  split_argv (nul_args argv) = map from_utf8_lossy (cap_argv MAX_ARGV_BYTES (take MAX_ARGS argv)).
Proof.
  intros Hf. destruct argv as [|a0 argv0] eqn:E0; [by destruct MAX_ARGS|]. rewrite <- E0 in *.
  destruct (exists_last (l := argv)) as (init & a & Hargv); [by subst|]. rewrite Hargv in Hf |- *.
  apply Forall_app in Hf as [Hi Ha]. apply Forall_cons in Ha as [Ha _].
  assert (nul_args (init ++ [a]) = (nul_args init ++ a) ++ [nul]) as ->.
  { unfold nul_args. rewrite map_app, concat_app. cbn [map concat]. by rewrite app_nil_r, app_assoc. }
  unfold split_argv. destruct ((nul_args init ++ a) ++ [nul]) as [|b l] eqn:E;
    [by destruct (nul_args init ++ a)|]. rewrite <- E.
  rewrite (proj2 (strip_suffix_spec _ _ _) eq_refl). change (default _ (Some ?x)) with x.
  rewrite split_all_join by done. rewrite split_loop_cap, Nat.sub_0_r. done.
Qed.

(** ** Structs read back *)

Definition u (n : nat) (z : Z) : list byte := le_bytes n z.

Definition padded (n : nat) (l : list byte) : list byte := l ++ repeat nul (n - List.length l).

Lemma length_padded n l : (List.length l <= n)%nat -> List.length (padded n l) = n.
Proof. intros H. unfold padded. rewrite length_app, repeat_length. lia. Qed.

Lemma until_nul_padded l n : nul ∉ l -> until_nul (l ++ repeat nul n) = l.
Proof.
  intros H. induction l as [|b l IH]; simpl; [by destruct n|].
  apply not_elem_of_cons in H as [Hb H]. rewrite IH by done.
  destruct (Z.eqb_spec (b2z b) 0) as [Hz|]; [|done]. exfalso. apply Hb. apply b2z_inj. by rewrite Hz.
Qed.

Lemma take_repeat {A} (x : A) n : forall k, take k (repeat x n) = repeat x (Nat.min k n).
Proof. induction n as [|n IH]; intros [|k]; simpl; [done..|]. by rewrite IH. Qed.

(** A zero-padded buffer reads back as its text, whatever length at least that is given. *)
Lemma c_string_padded n l len :
  nul ∉ l -> (List.length l <= n)%nat -> (List.length l <= len)%nat ->
  c_string (padded n l) len = from_utf8_lossy l.
Proof.
  intros Hl Hn Hlen. unfold c_string. rewrite length_padded by done. unfold padded.
  rewrite take_app_ge by lia. set (k := (Nat.min len n - List.length l)%nat).
  rewrite take_repeat. f_equal. by apply until_nul_padded.
Qed.

Lemma upto_padded {E} n l : (List.length l <= n)%nat -> upto (E := E) (List.length l) (padded n l) = Ok l.
Proof.
  intros H. unfold upto. rewrite (proj2 (Nat.leb_le _ _)) by (rewrite length_padded; done).
  unfold padded. by rewrite take_app_length.
Qed.

Definition exec_ok (r : ExecRecord) : bool :=
  fits 32 (er_pid r) && fits 32 (er_ppid r) && fits 32 (er_uid r) && fits 32 (er_gid r) &&
  fits 64 (er_ktime_ns r) && fits 64 (er_start_boottime_ns r) && (List.length (er_comm r) =? COMM_LEN)%nat &&
  fits 32 (er_filename_len r) && fits 32 (er_args_len r) && fits 8 (er_args_truncated r) &&
  fits 32 (er_exe_dev r) && fits 64 (er_exe_ino r) && (List.length (er_filename r) =? FILENAME_MAX)%nat &&
  (List.length (er_args r) =? ARGS_MAX)%nat.

Definition exec_values (r : ExecRecord) : list (list byte) :=
  [u 4 PROCESS_SCHEMA_VERSION; u 4 KIND_EXEC; u 4 (er_pid r); u 4 (er_ppid r); u 4 (er_uid r);
   u 4 (er_gid r); u 8 (er_ktime_ns r); u 8 (er_start_boottime_ns r); er_comm r;
   u 4 (er_filename_len r); u 4 (er_args_len r); u 1 (er_args_truncated r); u 3 0;
   u 4 (er_exe_dev r); u 8 (er_exe_ino r); er_filename r; er_args r].

Definition exec_image (r : ExecRecord) : list byte := image EXEC (exec_values r).

Definition dns_ok (r : DnsRecord) : bool :=
  fits 32 (dr_pid r) && fits 32 (dr_tid r) && fits 32 (dr_uid r) && fits 16 (dr_family r) &&
  fits 16 (dr_lport r) && fits 64 (dr_ktime_ns r) && (List.length (dr_comm r) =? COMM_LEN)%nat &&
  fits 32 (dr_exe_dev r) && fits 32 (dr_netns_ino r) && fits 64 (dr_exe_ino r) &&
  fits 16 (dr_rport r) && (List.length (dr_laddr r) =? 16)%nat && (List.length (dr_raddr r) =? 16)%nat.

Definition dns_values (r : DnsRecord) : list (list byte) :=
  [u 4 DNS_SCHEMA_VERSION; u 4 KIND_DNS_SEND; u 4 (dr_pid r); u 4 (dr_tid r); u 4 (dr_uid r);
   u 2 (dr_family r); u 2 (dr_lport r); u 8 (dr_ktime_ns r); dr_comm r; u 4 (dr_exe_dev r);
   u 4 (dr_netns_ino r); u 8 (dr_exe_ino r); u 2 (dr_rport r); u 2 0; u 4 0; dr_laddr r; dr_raddr r].

Definition dns_image (r : DnsRecord) : list byte := image DNS (dns_values r).

Lemma of_le_u n z : 0 <= z < 2 ^ (8 * Z.of_nat n) -> of_le (u n z) = z.
Proof. intros H. unfold u. rewrite of_le_bytes, pow256. by apply Z.mod_small. Qed.

Lemma length_u n z : List.length (u n z) = n.
Proof. apply length_le_bytes. Qed.

(** Goals [shaped] for concrete layouts, from the checks of the struct. *)
Ltac shape := repeat constructor; cbn [csize]; rewrite ?length_u; (reflexivity || assumption).

Ltac split_checks H :=
  repeat (rewrite andb_true_iff in H); destruct_and? H;
  repeat match goal with
         | H : (_ =? _)%nat = true |- _ => apply Nat.eqb_eq in H
         | H : fits _ _ = true |- _ => apply fits_iff in H
         end.

Lemma exec_shaped r : exec_ok r = true -> shaped EXEC (exec_values r).
Proof. intros H. unfold exec_ok in H. split_checks H. unfold EXEC, HEADER, exec_values. cbn [app]. shape. Qed.

Lemma dns_shaped r : dns_ok r = true -> shaped DNS (dns_values r).
Proof. intros H. unfold dns_ok in H. split_checks H. unfold DNS, HEADER, dns_values. cbn [app]. shape. Qed.

Lemma layouts_aligned : aligned EXEC /\ aligned EXIT /\ aligned FS /\ aligned NET /\ aligned DNS.
Proof. unfold EXEC, EXIT, FS, NET, DNS, HEADER. cbn [app]. repeat split; repeat constructor. Qed.

Lemma read_exec_image r rest : exec_ok r = true -> read_exec (exec_image r ++ rest) = Ok r.
Proof.
  intros H. unfold read_exec, exec_image.
  rewrite read_image by (apply layouts_aligned || by apply exec_shaped).
  unfold exec_ok in H. split_checks H. cbn [obind exec_values]. rewrite !of_le_u by (cbn; lia).
  by destruct r.
Qed.

Lemma read_dns_image r rest : dns_ok r = true -> read_dns (dns_image r ++ rest) = Ok r.
Proof.
  intros H. unfold read_dns, dns_image.
  rewrite read_image by (apply layouts_aligned || by apply dns_shaped).
  unfold dns_ok in H. split_checks H. cbn [obind dns_values]. rewrite !of_le_u by (cbn; lia).
  by destruct r.
Qed.

Definition exit_ok (r : ExitRecord) : bool :=
  fits 32 (xr_pid r) && fits 32 (xr_ppid r) && fits 32 (xr_uid r) && fits 32 (xr_exit_status r) &&
  fits 64 (xr_ktime_ns r) && fits 64 (xr_start_boottime_ns r) && (List.length (xr_comm r) =? COMM_LEN)%nat.

Definition exit_values (r : ExitRecord) : list (list byte) :=
  [u 4 PROCESS_SCHEMA_VERSION; u 4 KIND_EXIT; u 4 (xr_pid r); u 4 (xr_ppid r); u 4 (xr_uid r);
   u 4 (xr_exit_status r); u 8 (xr_ktime_ns r); u 8 (xr_start_boottime_ns r); xr_comm r].

Definition exit_image (r : ExitRecord) : list byte := image EXIT (exit_values r).

Definition net_ok (r : NetRecord) : bool :=
  fits 32 (nr_pid r) && fits 32 (nr_uid r) && fits 64 (nr_ktime_ns r) &&
  (List.length (nr_comm r) =? COMM_LEN)%nat && fits 16 (nr_family r) && fits 16 (nr_lport r) &&
  fits 16 (nr_rport r) && fits 8 (nr_direction r) && (List.length (nr_laddr r) =? 16)%nat &&
  (List.length (nr_raddr r) =? 16)%nat && fits 32 (nr_exe_dev r) && fits 64 (nr_exe_ino r).

Definition net_values (k : Z) (r : NetRecord) : list (list byte) :=
  [u 4 NET_SCHEMA_VERSION; u 4 k; u 4 (nr_pid r); u 4 (nr_uid r); u 8 (nr_ktime_ns r); nr_comm r;
   u 2 (nr_family r); u 2 (nr_lport r); u 2 (nr_rport r); u 1 (nr_direction r); u 1 0; nr_laddr r;
   nr_raddr r; u 4 (nr_exe_dev r); u 4 0; u 8 (nr_exe_ino r)].

Definition net_image (k : Z) (r : NetRecord) : list byte := image NET (net_values k r).

(** [ret] is never negative: only successful calls are reported. *)
Definition fs_ok (r : FsRecord) : bool :=
  fits 32 (fr_pid r) && fits 32 (fr_ppid r) && fits 32 (fr_uid r) && fits 31 (fr_ret r) &&
  fits 64 (fr_ktime_ns r) && (List.length (fr_comm r) =? COMM_LEN)%nat && fits 32 (fr_exe_dev r) &&
  fits 32 (fr_dev r) && fits 64 (fr_exe_ino r) && fits 64 (fr_ino r) && fits 32 (fr_mode r) &&
  fits 32 (fr_owner_uid r) && fits 32 (fr_owner_gid r) && fits 8 (fr_has_inode r) &&
  fits 8 (fr_path_truncated r) && fits 8 (fr_old_path_truncated r) && fits 16 (fr_path_len r) &&
  fits 16 (fr_old_path_len r) && (List.length (fr_path r) =? PATH_CAP)%nat &&
  (List.length (fr_old_path r) =? PATH_CAP)%nat.

Definition fs_values (k : Z) (r : FsRecord) : list (list byte) :=
  [u 4 FS_SCHEMA_VERSION; u 4 k; u 4 (fr_pid r); u 4 (fr_ppid r); u 4 (fr_uid r); u 4 (fr_ret r);
   u 8 (fr_ktime_ns r); fr_comm r; u 4 (fr_exe_dev r); u 4 (fr_dev r); u 8 (fr_exe_ino r);
   u 8 (fr_ino r); u 4 (fr_mode r); u 4 (fr_owner_uid r); u 4 (fr_owner_gid r); u 1 (fr_has_inode r);
   u 1 (fr_path_truncated r); u 1 (fr_old_path_truncated r); u 1 0; u 2 (fr_path_len r);
   u 2 (fr_old_path_len r); u 4 0; fr_path r; fr_old_path r].

Definition fs_image (k : Z) (r : FsRecord) : list byte := image FS (fs_values k r).

Lemma exit_shaped r : exit_ok r = true -> shaped EXIT (exit_values r).
Proof. intros H. unfold exit_ok in H. split_checks H. unfold EXIT, HEADER, exit_values. cbn [app]. shape. Qed.

Lemma net_shaped k r : net_ok r = true -> shaped NET (net_values k r).
Proof. intros H. unfold net_ok in H. split_checks H. unfold NET, HEADER, net_values. cbn [app]. shape. Qed.

Lemma fs_shaped k r : fs_ok r = true -> shaped FS (fs_values k r).
Proof. intros H. unfold fs_ok in H. split_checks H. unfold FS, HEADER, fs_values. cbn [app]. shape. Qed.

Lemma read_exit_image r rest : exit_ok r = true -> read_exit (exit_image r ++ rest) = Ok r.
Proof.
  intros H. unfold read_exit, exit_image.
  rewrite read_image by (apply layouts_aligned || by apply exit_shaped).
  unfold exit_ok in H. split_checks H. cbn [obind exit_values]. rewrite !of_le_u by (cbn; lia).
  by destruct r.
Qed.

Lemma read_net_image k r rest : net_ok r = true -> read_net (net_image k r ++ rest) = Ok r.
Proof.
  intros H. unfold read_net, net_image.
  rewrite read_image by (apply layouts_aligned || by apply net_shaped).
  unfold net_ok in H. split_checks H. cbn [obind net_values]. rewrite !of_le_u by (cbn; lia).
  by destruct r.
Qed.

Lemma read_fs_image k r rest : fs_ok r = true -> read_fs (fs_image k r ++ rest) = Ok r.
Proof.
  intros H. unfold read_fs, fs_image.
  rewrite read_image by (apply layouts_aligned || by apply fs_shaped).
  unfold fs_ok in H. split_checks H. cbn [obind fs_values]. rewrite !of_le_u by (cbn; lia).
  replace (as_i32 (fr_ret r)) with (fr_ret r); [by destruct r|].
  unfold as_i32. destruct (Z.ltb_spec (fr_ret r) (2 ^ 31)); lia.
Qed.

Lemma check_header_image version k fs v kb vals rest :
  aligned (CU 4 :: CU 4 :: fs) -> shaped (CU 4 :: CU 4 :: fs) (v :: kb :: vals) ->
  of_le v = version -> of_le kb = k ->
  check_header version (image (CU 4 :: CU 4 :: fs) (v :: kb :: vals) ++ rest) =
    Ok {| schema_version := version; kind := k |}.
Proof.
  intros Ha Hs <- <-. unfold check_header.
  rewrite (proj2 (Nat.ltb_ge _ _)).
  - rewrite read_header_image by done. cbn [obind schema_version]. by rewrite Z.eqb_refl.
  - rewrite length_app, length_image by done. pose proof (size_of_ge (CU 4 :: CU 4 :: fs)) as H.
    apply Forall_cons in Ha as [_ Ha]. apply Forall_cons in Ha as [_ Ha].
    pose proof (end_of_ge fs 8 Ha) as H'.
    change (end_of 0 (CU 4 :: CU 4 :: fs)) with (end_of 8 fs) in H.
    change (size_of HEADER) with 8%nat. lia.
Qed.

Lemma check_length_image k fs vals rest :
  aligned fs -> shaped fs vals -> check_length k (size_of fs) (image fs vals ++ rest) = Ok tt.
Proof.
  intros Ha Hs. unfold check_length. rewrite (proj2 (Nat.ltb_ge _ _)); [done|].
  rewrite length_app, length_image by done. lia.
Qed.

Lemma decode_exec_image r rest :
  exec_ok r = true ->
  decode (exec_image r ++ rest) =
    let? args := upto (Nat.min (Z.to_nat (er_args_len r)) ARGS_MAX) (er_args r) in
    Ok (Exec {| ee_pid := er_pid r; ee_ppid := er_ppid r; ee_uid := er_uid r;
                ee_ktime_ns := er_ktime_ns r; ee_start_boottime_ns := er_start_boottime_ns r;
                ee_comm := c_string (er_comm r) COMM_LEN;
                ee_filename := c_string (er_filename r)
                                 (Nat.min (Z.to_nat (er_filename_len r)) FILENAME_MAX);
                ee_args := args; ee_args_truncated := negb (er_args_truncated r =? 0);
                ee_exe := identity_of (er_exe_dev r) (er_exe_ino r) |}).
Proof.
  intros H. destruct layouts_aligned as (Ha & _). pose proof (exec_shaped r H) as Hs.
  unfold decode, exec_image, exec_values, EXEC, HEADER in *. cbn [app] in *.
  rewrite (check_header_image PROCESS_SCHEMA_VERSION KIND_EXEC) by
    (done || by apply of_le_u).
  cbn [obind kind]. rewrite Z.eqb_refl. cbn [obind].
  rewrite check_length_image by done. cbn [obind].
  pose proof (read_exec_image r rest H) as Hr. unfold exec_image, exec_values, EXEC, HEADER in Hr.
  cbn [app] in Hr. by rewrite Hr.
Qed.

Lemma decode_exit_image r rest :
  exit_ok r = true ->
  decode (exit_image r ++ rest) =
    Ok (Exit {| xe_pid := xr_pid r; xe_ppid := xr_ppid r; xe_uid := xr_uid r;
                xe_exit_status := xr_exit_status r; xe_ktime_ns := xr_ktime_ns r;
                xe_start_boottime_ns := xr_start_boottime_ns r;
                xe_comm := c_string (xr_comm r) COMM_LEN |}).
Proof.
  intros H. destruct layouts_aligned as (_ & Ha & _). pose proof (exit_shaped r H) as Hs.
  unfold decode, exit_image, exit_values, EXIT, HEADER in *. cbn [app] in *.
  rewrite (check_header_image PROCESS_SCHEMA_VERSION KIND_EXIT) by (done || by apply of_le_u).
  cbn [obind kind]. change (KIND_EXIT =? KIND_EXEC) with false. rewrite Z.eqb_refl. cbn [obind].
  rewrite check_length_image by done. cbn [obind].
  pose proof (read_exit_image r rest H) as Hr. unfold exit_image, exit_values, EXIT, HEADER in Hr.
  cbn [app] in Hr. by rewrite Hr.
Qed.

Lemma decode_fs_image k kd r path old rest :
  fs_ok r = true -> fits 32 k = true -> fs_kind k = Ok kd ->
  fr_path r = padded PATH_CAP path -> fr_path_len r = Z.of_nat (List.length path) ->
  (List.length path <= PATH_CAP)%nat ->
  fr_old_path r = padded PATH_CAP old -> fr_old_path_len r = Z.of_nat (List.length old) ->
  (List.length old <= PATH_CAP)%nat ->
  exists e, decode_fs (fs_image k r ++ rest) = Ok e /\ fv_kind e = kd /\ fv_path e = path /\
    fv_old_path e = (if is_rename kd then Some old else None) /\
    fv_pid e = fr_pid r /\ fv_uid e = fr_uid r /\ fv_ret e = fr_ret r.
Proof.
  intros H Hk Hkd Hp Hpl Hpc Ho Hol Hoc. destruct layouts_aligned as (_ & _ & Ha & _).
  pose proof (fs_shaped k r H) as Hs. pose proof (read_fs_image k r rest H) as Hr. apply fits_iff in Hk.
  unfold decode_fs, fs_image, fs_values, FS, HEADER in *. cbn [app] in *.
  rewrite (check_header_image FS_SCHEMA_VERSION k) by (done || by apply of_le_u).
  cbn [obind kind]. rewrite Hkd. cbn [obind]. rewrite check_length_image by done. cbn [obind].
  rewrite Hr. cbn [obind]. rewrite Hpl, Hol, !Nat2Z.id, Hp, Ho.
  rewrite (proj2 (Nat.ltb_ge _ _)) by lia. rewrite (proj2 (Nat.ltb_ge _ (List.length old))) by lia.
  rewrite andb_false_r, !upto_padded by done. cbn [obind]. destruct kd; eexists; (split; [reflexivity|]); repeat split.
Qed.

Lemma decode_net_image k kd r rest :
  net_ok r = true -> fits 32 k = true -> net_kind k = Ok kd -> known_family (nr_family r) = true ->
  (nr_direction r = DIR_OUTBOUND \/ nr_direction r = DIR_INBOUND) ->
  decode_net (net_image k r ++ rest) =
    Ok {| nv_kind := kd; nv_pid := nr_pid r; nv_uid := nr_uid r; nv_ktime_ns := nr_ktime_ns r;
          nv_comm := c_string (nr_comm r) COMM_LEN; nv_family := nr_family r; nv_lport := nr_lport r;
          nv_rport := nr_rport r; nv_direction := nr_direction r; nv_laddr := nr_laddr r;
          nv_raddr := nr_raddr r; nv_exe := identity_of (nr_exe_dev r) (nr_exe_ino r) |}.
Proof.
  intros H Hk Hkd Hf Hd. destruct layouts_aligned as (_ & _ & _ & Ha & _).
  pose proof (net_shaped k r H) as Hs. pose proof (read_net_image k r rest H) as Hr. apply fits_iff in Hk.
  unfold decode_net, net_image, net_values, NET, HEADER in *. cbn [app] in *.
  rewrite (check_header_image NET_SCHEMA_VERSION k) by (done || by apply of_le_u).
  cbn [obind kind]. rewrite Hkd. cbn [obind]. rewrite check_length_image by done. cbn [obind].
  rewrite Hr. cbn [obind]. rewrite Hf. by destruct Hd as [->| ->].
Qed.

Lemma decode_dns_image r rest :
  dns_ok r = true -> known_family (dr_family r) = true ->
  decode_dns (dns_image r ++ rest) =
    Ok {| ds_pid := dr_pid r; ds_tid := dr_tid r; ds_uid := dr_uid r; ds_ktime_ns := dr_ktime_ns r;
          ds_comm := c_string (dr_comm r) COMM_LEN;
          ds_exe := identity_of (dr_exe_dev r) (dr_exe_ino r); ds_netns_ino := dr_netns_ino r;
          ds_local := addr (dr_family r) (dr_laddr r) (dr_lport r);
          ds_remote := addr (dr_family r) (dr_raddr r) (dr_rport r) |}.
Proof.
  intros H Hf. destruct layouts_aligned as (_ & _ & _ & _ & Ha).
  pose proof (dns_shaped r H) as Hs. pose proof (read_dns_image r rest H) as Hr.
  unfold decode_dns, dns_image, dns_values, DNS, HEADER in *. cbn [app] in *.
  rewrite (check_header_image DNS_SCHEMA_VERSION KIND_DNS_SEND) by (done || by apply of_le_u).
  cbn [obind kind]. rewrite Z.eqb_refl. cbn [negb]. rewrite check_length_image by done. cbn [obind].
  rewrite Hr. cbn [obind]. by rewrite Hf.
Qed.

Lemma comm_checked_tied l comm record_comm path :
  comm_checked_link (Some l) comm record_comm = Some path ->
  path = l /\ exists c, comm = Some c /\ from_utf8_lossy (take COMM_MAX_BYTES c) = record_comm.
Proof.
  unfold comm_checked_link, same_comm. destruct comm as [c|]; [|done].
  case_bool_decide; intros; simplify_eq. eauto.
Qed.

(** A link is only reported when it is tied to the record. *)
Lemma resolve_exe_tied p exe comm path :
  resolve_exe p exe comm = Some path ->
  exists l, pr_link p = Some l /\ path = from_utf8_lossy l /\
    ((exists i, exe = Some i /\ pr_stat p = Some i) \/
     exists c, proc_comm p = Some c /\ from_utf8_lossy (take COMM_MAX_BYTES c) = comm).
Proof.
  unfold resolve_exe. destruct (pr_link p) as [l|]; [|done]. intros H. exists l. split; [done|].
  destruct exe as [i|]; cbv beta iota zeta in H.
  - case_bool_decide as E; cbv iota in H; [simplify_eq; eauto|].
    apply comm_checked_tied in H. naive_solver.
  - apply comm_checked_tied in H. naive_solver.
Qed.

(** ** Theorems *)

(** The ring-buffer decoders accept any bytes: none of the four ever panics, so a
    record the kernel side did not write is an error, not a crash. *)
Lemma ebpf_decoders_total bytes :
  no_panic (decode bytes) /\ no_panic (decode_fs bytes) /\ no_panic (decode_net bytes) /\
  no_panic (decode_dns bytes).
Proof.
  split_and!; [apply decode_total|apply decode_fs_total|apply decode_net_total|apply decode_dns_total].
Qed.

(** An exec record the kernel writes (with any trailing bytes) arrives whole: the
    process, times and executable identity are the written ones, the name and file name
    are the zero-terminated texts, and the command line of the raw event is the argument
    vector cut at 128 arguments and 16 KiB, which is what the audit backend reports for
    that vector. *)
Lemma ebpf_exec_delivered r comm filename argv rest offset p :
  exec_ok r = true ->
  er_comm r = padded COMM_LEN comm -> nul ∉ comm -> (List.length comm <= COMM_LEN)%nat ->
  er_filename r = padded FILENAME_MAX filename -> nul ∉ filename ->
  er_filename_len r = Z.of_nat (List.length filename) -> (List.length filename <= FILENAME_MAX)%nat ->
  er_args r = padded ARGS_MAX (nul_args argv) -> Forall (fun a => nul ∉ a) argv ->
  er_args_len r = Z.of_nat (List.length (nul_args argv)) -> (List.length (nul_args argv) <= ARGS_MAX)%nat ->
  exists e, decode (exec_image r ++ rest) = Ok (Exec e) /\
    exec_to_raw e offset p =
      {| px_pid := er_pid r; px_ppid := er_ppid r; px_uid := er_uid r;
         px_exe_path := default (from_utf8_lossy filename)
                          (resolve_exe p (identity_of (er_exe_dev r) (er_exe_ino r)) (from_utf8_lossy comm));
         px_comm := from_utf8_lossy comm;
         px_cmdline := map from_utf8_lossy (cap_argv MAX_ARGV_BYTES (take MAX_ARGS argv));
         px_timestamp_ns := wall_clock_ns (er_ktime_ns r) offset;
         px_start_time_mono := er_start_boottime_ns r / NS_PER_CLOCK_TICK; px_source := REbpf |}.
Proof.
  intros H Hc Hcn Hcl Hf Hfn Hfl Hfc Ha Han Hal Hac. rewrite (decode_exec_image r rest H).
  rewrite Ha, Hal, Nat2Z.id, Nat.min_l by done. rewrite upto_padded by done. cbn [obind].
  eexists. split; [reflexivity|]. unfold exec_to_raw. cbn -[exec_image split_argv Nat.min].
  rewrite Hc, Hf, Hfl, Nat2Z.id, Nat.min_l by done. rewrite !c_string_padded by (done || lia).
  by rewrite split_argv_args.
Qed.

(** A DNS send record arrives as the send the join needs: keyed by its local port and
    its canonical remote endpoint, at the wall-clock time of the send, owned by the
    sending process. *)
Lemma ebpf_dns_delivered r comm rest offset p :
  dns_ok r = true -> known_family (dr_family r) = true ->
  dr_comm r = padded COMM_LEN comm -> nul ∉ comm -> (List.length comm <= COMM_LEN)%nat ->
  exists e, decode_dns (dns_image r ++ rest) = Ok e /\
    send_from_event e offset p =
      {| ks_key := {| lport := dr_lport r;
                      raddr := (if dr_family r =? AF_INET then V4 (take 4 (dr_raddr r))
                                else to_canonical (V6 (dr_raddr r)));
                      rport := dr_rport r |};
         ks_laddr := (if dr_family r =? AF_INET then V4 (take 4 (dr_laddr r)) else V6 (dr_laddr r));
         ks_sent_wall_ns := wall_clock_ns (dr_ktime_ns r) offset;
         ks_owner := {| at_pid := Some (dr_pid r); at_uid := dr_uid r;
                        at_exe_path := default "" (resolve_exe p (identity_of (dr_exe_dev r) (dr_exe_ino r))
                                                    (from_utf8_lossy comm));
                        at_comm := from_utf8_lossy comm |} |}.
Proof.
  intros H Hf Hc Hcn Hcl. rewrite (decode_dns_image r rest H Hf). eexists. split; [reflexivity|].
  unfold send_from_event, send_key, addr. cbn [ds_local ds_remote ds_pid ds_uid ds_ktime_ns ds_comm ds_exe sa_ip sa_port].
  rewrite Hc, c_string_padded by (done || lia). by destruct (dr_family r =? AF_INET).
Qed.

(** ** Examples *)

Definition sample_exec_record : ExecRecord :=
  {| er_pid := 42; er_ppid := 7; er_uid := 1000; er_gid := 1000; er_ktime_ns := 5000;
     er_start_boottime_ns := 30000000; er_comm := padded COMM_LEN (bytes_of "ls");
     er_filename_len := 7; er_args_len := 7; er_args_truncated := 0; er_exe_dev := 8388609;
     er_exe_ino := 99; er_filename := padded FILENAME_MAX (bytes_of "/bin/ls");
     er_args := padded ARGS_MAX (nul_args [bytes_of "ls"; bytes_of "a b"]) |}.

Definition gone : ProcReads := {| pr_link := None; pr_stat := None; pr_comm := None |}.

Lemma ebpf_exec_delivered_witness :
  exists e, decode (exec_image sample_exec_record ++ [nul]) = Ok (Exec e) /\
    px_cmdline (exec_to_raw e 100 gone) = ["ls"; "a b"] /\
    px_exe_path (exec_to_raw e 100 gone) = "/bin/ls" /\
    px_start_time_mono (exec_to_raw e 100 gone) = 3.
Proof.
  destruct (ebpf_exec_delivered sample_exec_record (bytes_of "ls") (bytes_of "/bin/ls")
    [bytes_of "ls"; bytes_of "a b"] [nul] 100 gone) as (e & H & Hraw).
  - vm_compute. reflexivity.
  - reflexivity.
  - by apply (bool_decide_unpack _); vm_compute.
  - apply Nat.leb_le. vm_compute. reflexivity.
  - reflexivity.
  - by apply (bool_decide_unpack _); vm_compute.
  - reflexivity.
  - apply Nat.leb_le. vm_compute. reflexivity.
  - reflexivity.
  - by apply (bool_decide_unpack _); vm_compute.
  - reflexivity.
  - apply Nat.leb_le. vm_compute. reflexivity.
  - exists e. split; [exact H|]. rewrite Hraw. split; [vm_compute; reflexivity|]. split; vm_compute; reflexivity.
Defined.

Definition sample_dns_record : DnsRecord :=
  {| dr_pid := 42; dr_tid := 43; dr_uid := 1000; dr_family := AF_INET; dr_lport := 40000;
     dr_ktime_ns := 5000; dr_comm := padded COMM_LEN (bytes_of "dig"); dr_exe_dev := 8388609;
     dr_netns_ino := 1; dr_exe_ino := 99; dr_rport := 53;
     dr_laddr := padded 16 [Byte.x0a; Byte.x00; Byte.x00; Byte.x02];
     dr_raddr := padded 16 [Byte.x08; Byte.x08; Byte.x08; Byte.x08] |}.

Lemma ebpf_dns_delivered_witness :
  exists e, decode_dns (dns_image sample_dns_record) = Ok e /\
    ks_key (send_from_event e 100 gone) = sample_send_key /\
    ks_sent_wall_ns (send_from_event e 100 gone) = 5100.
Proof.
  destruct (ebpf_dns_delivered sample_dns_record (bytes_of "dig") [] 100 gone) as (e & H & Hs).
  - vm_compute. reflexivity.
  - reflexivity.
  - reflexivity.
  - by apply (bool_decide_unpack _); vm_compute.
  - apply Nat.leb_le. vm_compute. reflexivity.
  - exists e. rewrite app_nil_r in H. split; [exact H|]. rewrite Hs. split; vm_compute; reflexivity.
Defined.

End Ebpf.
