(* ===== verification/DnsEngine.v ===== *)
(** * The DNS engine: [engine.rs], [attribution.rs] and [proc_udp.rs] of the DNS sensor,
    and [fd_scan.rs] of the network sensor

    Packets and ticks in, events out.  The engine composes the decoder ([DnsWire]), the
    tracker ([DnsTracker]) and attribution: in kernel mode a join with the send table
    ([SendTable]), which a reader thread fills between calls; in procfs mode a lookup in
    [/proc].  A response whose send record is late is held for a while. *)

From S2P Require Import Prelude RawEvent FileUtil DnsWire DnsTracker SendTable.

(** ** [proc_udp.rs] *)

Module ProcUdp.

Record UdpRow := { ur_local : SocketAddr; ur_uid : Z; ur_inode : Z }.

(** [u8::from_str_radix(&hex[at..at + 2], 16)] for successive pairs. *)
Fixpoint hex_bytes (hex : list byte) : option (list byte) :=
  match hex with
  | [] => Some []
  | a :: b :: hex =>
      v ← parse_radix 8 16 (of_bytes [a; b]);
      rest ← hex_bytes hex;
      Some (z2b v :: rest)
  | [_] => None
  end.

(** Each 4-byte word was printed as a little-endian integer. *)
Fixpoint reverse_words (l : list byte) : list byte :=
  match l with
  | a :: b :: c :: d :: l => d :: c :: b :: a :: reverse_words l
  | _ => l
  end.

Definition decode_words (n : nat) (hex : list byte) : option (list byte) :=
  if negb (List.length hex =? n * 2)%nat || negb (forallb is_ascii hex) then None
  else option_map reverse_words (hex_bytes hex).

Definition parse_local (field : list byte) (v6 : bool) : option SocketAddr :=
  '(ip_hex, port_hex) ← split_once Byte.x3a field;
  port ← parse_radix 16 16 (of_bytes port_hex);
  ip ← (if v6 then option_map V6 (decode_words 16 ip_hex) else option_map V4 (decode_words 4 ip_hex));
  Some {| sa_ip := ip; sa_port := port |}.

(** The whitespace-separated fields of a line. *)
Definition line_fields (line : list byte) : list (list byte) :=
  map (flat_map utf8_encode) (split_whitespace (utf8_decode line)).

Definition parse_row (v6 : bool) (line : list byte) : option UdpRow :=
  let fields := line_fields line in
  if (List.length fields <? 10)%nat then None
  else
    f1 ← fields !! 1%nat; f7 ← fields !! 7%nat; f9 ← fields !! 9%nat;
    local ← parse_local f1 v6;
    uid ← parse_uint_bytes 32 f7;
    inode ← parse_uint_bytes 64 f9;
    Some {| ur_local := local; ur_uid := uid; ur_inode := inode |}.

Definition parse_udp_table (text : list byte) (v6 : bool) : list UdpRow :=
  omap (parse_row v6) (drop 1 (str_lines text)).

End ProcUdp.
Import ProcUdp.

(** ** [fd_scan.rs] *)

(** A directory of [/proc]: its name, and the targets of the links in its [fd] directory;
    [None] where a read fails. *)
Definition proc_dir : Type := string * option (list (option (list byte))).

Definition extract_socket_inode (target : list byte) : option Z :=
  inner ← strip_prefix (bytes_of "socket:[") target;
  inner ← strip_suffix (bytes_of "]") inner;
  parse_uint_bytes 64 inner.

Definition scan_links (pid : Z) (links : list (option (list byte))) (m : gmap Z Z) : gmap Z Z :=
  foldl (fun m l => match l ≫= (fun t => extract_socket_inode (bytes_of (from_utf8_lossy t))) with
                    | Some inode => <[inode := pid]> m
                    | None => m
                    end) m links.

Definition scan_socket_inodes (dirs : list proc_dir) : gmap Z Z :=
  foldl (fun m (d : proc_dir) => match parse_uint 32 d.1, d.2 with
                    | Some pid, Some links => scan_links pid links m
                    | _, _ => m
                    end) ∅ dirs.

(** ** [attribution.rs] *)

(** What [/proc] shows during one call: the two UDP tables, the process directories, and the
    executable and name of a process. *)
Record ProcEnv := {
  pe_udp : option (list byte); pe_udp6 : option (list byte); pe_dirs : list proc_dir;
  pe_identity : Z -> string * string }.

Definition RESCAN_INTERVAL : Z := 250000000.

Record Attributor := { inode_to_pid : gmap Z Z; last_scan : option Z }.

Definition attributor_new : Attributor := {| inode_to_pid := ∅; last_scan := None |}.

Definition read_rows (env : ProcEnv) : list UdpRow :=
  (match pe_udp env with Some t => parse_udp_table t false | None => [] end) ++
  (match pe_udp6 env with Some t => parse_udp_table t true | None => [] end).

Definition is_v4 (a : IpAddr) : bool := match a with V4 _ => true | V6 _ => false end.

Definition find_row (rows : list UdpRow) (client : SocketAddr) : option UdpRow :=
  let ip := to_canonical (sa_ip client) in
  let rows := List.filter (fun r => sa_port (ur_local r) =? sa_port client) rows in
  match List.find (fun r => bool_decide (to_canonical (sa_ip (ur_local r)) = ip)) rows with
  | Some r => Some r
  | None =>
      match List.find (fun r => is_v4 (sa_ip (ur_local r)) && is_unspecified (sa_ip (ur_local r)) &&
                                is_v4 ip) rows with
      | Some r => Some r
      | None => List.find (fun r => negb (is_v4 (sa_ip (ur_local r))) &&
                                    is_unspecified (sa_ip (ur_local r))) rows
      end
  end.

Definition no_owner : Attribution :=
  {| at_pid := None; at_uid := 0; at_exe_path := ""; at_comm := "" |}.

(** [now.saturating_duration_since(t)]. *)
Definition since (now t : Z) : Z := Z.max 0 (now - t).

Definition lookup_owner (a : Attributor) (env : ProcEnv) (client : SocketAddr) (now : Z)
  : Attribution * Attributor :=
  match find_row (read_rows env) client with
  | None => (no_owner, a)
  | Some row =>
      let uid := ur_uid row in
      let inode := ur_inode row in
      let '(found, a) :=
        match inode_to_pid a !! inode with
        | Some pid => (Some pid, a)
        | None =>
            if negb (inode =? 0) &&
               match last_scan a with Some t => RESCAN_INTERVAL <=? since now t | None => true end
            then let m := scan_socket_inodes (pe_dirs env) in
                 (m !! inode, {| inode_to_pid := m; last_scan := Some now |})
            else (None, a)
        end in
      match found with
      | Some pid => let '(exe, comm) := pe_identity env pid in
                    ({| at_pid := Some pid; at_uid := uid; at_exe_path := exe; at_comm := comm |}, a)
      | None => ({| at_pid := None; at_uid := uid; at_exe_path := ""; at_comm := "" |}, a)
      end
  end.

(** ** The engine *)

Module Engine.

(** Nanoseconds. *)
Definition ATTRIBUTION_GRACE : Z := 250000000.
Definition SEND_EXPIRE_INTERVAL : Z := 1000000000.
Definition HELD_RECHECK_INTERVAL : Z := 10000000.

(** The table is shared with the reader thread; its state is part of the mode. *)
Inductive AttributionMode := Kernel (table : SendTable) | Procfs.

Record Held := {
  h_event : DnsEventRaw; h_client : SocketAddr; h_pending : PendingAttribution; h_deadline : Z }.

Inductive Resolved := Done (a : Attribution) | Miss.

Record EngineCounters := {
  n_packets : Z; n_parse_errors : Z; n_direction_mismatches : Z; n_emitted : Z;
  n_attributed_kernel : Z; n_attributed_procfs : Z; n_attribution_late : Z; n_unattributed : Z;
  n_held_total : Z; n_timestamp_fallbacks : Z }.

Record Engine := {
  en_attributor : Attributor; en_mode : AttributionMode; en_tracker : Tracker;
  en_held : list Held; en_held_capacity : nat; en_last_expire : option Z;
  en_last_recheck : option (Z * Z); en_latched_table : option SendTable;
  en_counters : EngineCounters }.

Definition zero_counters : EngineCounters :=
  {| n_packets := 0; n_parse_errors := 0; n_direction_mismatches := 0; n_emitted := 0;
     n_attributed_kernel := 0; n_attributed_procfs := 0; n_attribution_late := 0;
     n_unattributed := 0; n_held_total := 0; n_timestamp_fallbacks := 0 |}.

Definition engine_new (mode : AttributionMode) (timeout : Z) (capacity : nat) : Engine :=
  {| en_attributor := attributor_new; en_mode := mode; en_tracker := tracker_new timeout capacity;
     en_held := []; en_held_capacity := Nat.max capacity 1; en_last_expire := None;
     en_last_recheck := None; en_latched_table := None; en_counters := zero_counters |}.

Definition set_attributor (e : Engine) (a : Attributor) : Engine :=
  {| en_attributor := a; en_mode := en_mode e; en_tracker := en_tracker e; en_held := en_held e;
     en_held_capacity := en_held_capacity e; en_last_expire := en_last_expire e;
     en_last_recheck := en_last_recheck e; en_latched_table := en_latched_table e;
     en_counters := en_counters e |}.

Definition set_tracker (e : Engine) (t : Tracker) : Engine :=
  {| en_attributor := en_attributor e; en_mode := en_mode e; en_tracker := t; en_held := en_held e;
     en_held_capacity := en_held_capacity e; en_last_expire := en_last_expire e;
     en_last_recheck := en_last_recheck e; en_latched_table := en_latched_table e;
     en_counters := en_counters e |}.

Definition set_held (e : Engine) (h : list Held) : Engine :=
  {| en_attributor := en_attributor e; en_mode := en_mode e; en_tracker := en_tracker e; en_held := h;
     en_held_capacity := en_held_capacity e; en_last_expire := en_last_expire e;
     en_last_recheck := en_last_recheck e; en_latched_table := en_latched_table e;
     en_counters := en_counters e |}.

Definition set_marks (e : Engine) (expire : option Z) (recheck : option (Z * Z)) : Engine :=
  {| en_attributor := en_attributor e; en_mode := en_mode e; en_tracker := en_tracker e;
     en_held := en_held e; en_held_capacity := en_held_capacity e; en_last_expire := expire;
     en_last_recheck := recheck; en_latched_table := en_latched_table e;
     en_counters := en_counters e |}.

Definition set_mode (e : Engine) (m : AttributionMode) (latched : option SendTable) : Engine :=
  {| en_attributor := en_attributor e; en_mode := m; en_tracker := en_tracker e;
     en_held := en_held e; en_held_capacity := en_held_capacity e; en_last_expire := en_last_expire e;
     en_last_recheck := en_last_recheck e; en_latched_table := latched; en_counters := en_counters e |}.

Definition set_counters (e : Engine) (c : EngineCounters) : Engine :=
  {| en_attributor := en_attributor e; en_mode := en_mode e; en_tracker := en_tracker e;
     en_held := en_held e; en_held_capacity := en_held_capacity e; en_last_expire := en_last_expire e;
     en_last_recheck := en_last_recheck e; en_latched_table := en_latched_table e; en_counters := c |}.

(** [self.n += d] for each counter. *)
Definition bump (e : Engine) (pk pe dm em ak ap al un he tf : Z) : Engine :=
  let c := en_counters e in
  set_counters e
    {| n_packets := n_packets c + pk; n_parse_errors := n_parse_errors c + pe;
       n_direction_mismatches := n_direction_mismatches c + dm; n_emitted := n_emitted c + em;
       n_attributed_kernel := n_attributed_kernel c + ak;
       n_attributed_procfs := n_attributed_procfs c + ap;
       n_attribution_late := n_attribution_late c + al; n_unattributed := n_unattributed c + un;
       n_held_total := n_held_total c + he; n_timestamp_fallbacks := n_timestamp_fallbacks c + tf |}.

Definition latch_procfs (e : Engine) : Engine :=
  match en_mode e with
  | Kernel table => set_mode e Procfs (Some table)
  | Procfs => e
  end.

Definition claim_table (e : Engine) : option SendTable :=
  match en_mode e with
  | Kernel table => Some table
  | Procfs => en_latched_table e
  end.

(** Writing back the table behind [claim_table]. *)
Definition set_claim_table (e : Engine) (t : SendTable) : Engine :=
  match en_mode e with
  | Kernel _ => set_mode e (Kernel t) (en_latched_table e)
  | Procfs => set_mode e Procfs (match en_latched_table e with Some _ => Some t | None => None end)
  end.

Definition on_claim_table (e : Engine) (f : SendTable -> SendTable) : Engine :=
  match claim_table e with
  | Some t => set_claim_table e (f t)
  | None => e
  end.

Definition release_claim (e : Engine) (claim : Z) : Engine := on_claim_table e (fun t => release t claim).
Definition abandon_claim (e : Engine) (claim : Z) : Engine := on_claim_table e (fun t => abandon t claim).

Definition apply (ev : DnsEventRaw) (a : Attribution) : DnsEventRaw :=
  {| de_query := de_query ev; de_qtype := de_qtype ev; de_response_ips := de_response_ips ev;
     de_ttl := de_ttl ev; de_pid := at_pid a; de_uid := at_uid a; de_exe_path := at_exe_path a;
     de_comm := at_comm a; de_timestamp_ns := de_timestamp_ns ev; de_source := de_source ev |}.

Definition count_procfs (e : Engine) (a : Attribution) : Engine :=
  match at_pid a with
  | Some _ => bump e 0 0 0 0 0 1 0 0 0 0
  | None => bump e 0 0 0 0 0 0 0 1 0 0
  end.

(** A lookup in [/proc], counted. *)
Definition procfs_owner (e : Engine) (env : ProcEnv) (client : SocketAddr) (now : Z) : Attribution * Engine :=
  let '(a, at_) := lookup_owner (en_attributor e) env client now in
  (a, count_procfs (set_attributor e at_) a).

Definition attribute_query (e : Engine) (env : ProcEnv) (key : TxKey) (server : SocketAddr) (ts now : Z)
  : Attribution * option PendingAttribution * Engine :=
  match en_mode e with
  | Procfs => let '(a, e) := procfs_owner e env (tx_client key) now in (a, None, e)
  | Kernel table =>
      let k := send_key (tx_client key) server in
      let laddr := sa_ip (tx_client key) in
      if contains (en_tracker e) key then
        let '(hit, table) := table_take table k laddr ts in
        let e := set_mode e (Kernel table) (en_latched_table e) in
        match hit with
        | None => (no_owner, None, e)
        | Some a =>
            let '(owed, tracker) := resolve_pending (en_tracker e) key a in
            let e := set_tracker e tracker in
            match owed with
            | None => (no_owner, None, e)
            | Some o =>
                let e := bump e 0 0 0 0 1 0 0 0 0 0 in
                let '(own, table) := take_claimed table (claim o) (pa_key o) (pa_laddr o) (packet_ts_ns o) in
                let table := match own with Some _ => table | None => abandon table (claim o) end in
                (no_owner, None, set_mode e (Kernel table) (en_latched_table e))
            end
        end
      else
        let '(hit, table) := table_take table k laddr ts in
        match hit with
        | Some a => (a, None, bump (set_mode e (Kernel table) (en_latched_table e)) 0 0 0 0 1 0 0 0 0 0)
        | None =>
            let '(c, table) := table_claim table k laddr ts in
            (no_owner,
             Some {| pa_key := k; pa_laddr := laddr; packet_ts_ns := ts; claim := c |},
             set_mode e (Kernel table) (en_latched_table e))
        end
  end.

Definition resolve (e : Engine) (env : ProcEnv) (p : PendingAttribution) (client : SocketAddr) (now : Z)
  : Resolved * Engine :=
  match en_mode e with
  | Kernel table =>
      let '(hit, table) := take_claimed table (claim p) (pa_key p) (pa_laddr p) (packet_ts_ns p) in
      let e := set_mode e (Kernel table) (en_latched_table e) in
      match hit with
      | Some a => (Done a, bump e 0 0 0 0 1 0 1 0 0 0)
      | None => (Miss, e)
      end
  | Procfs =>
      let e := release_claim e (claim p) in
      let '(a, e) := procfs_owner e env client now in (Done a, e)
  end.

(** The oldest hold makes room when the list is full. *)
Definition overflow_hold (e : Engine) : list DnsEventRaw * Engine :=
  if (en_held_capacity e <=? List.length (en_held e))%nat then
    match en_held e with
    | oldest :: rest =>
        let e := abandon_claim (set_held e rest) (claim (h_pending oldest)) in
        ([h_event oldest], bump e 0 0 0 0 0 0 0 1 0 0)
    | [] => ([], e)
    end
  else ([], e).

Definition hold (e : Engine) (ev : DnsEventRaw) (client : SocketAddr) (p : PendingAttribution) (now : Z)
  : Engine :=
  let deadline := match last (en_held e) with
                  | Some b => Z.max (h_deadline b) (now + ATTRIBUTION_GRACE)
                  | None => now + ATTRIBUTION_GRACE
                  end in
  set_held e (en_held e ++ [{| h_event := ev; h_client := client; h_pending := p;
                               h_deadline := deadline |}]).

Definition close (e : Engine) (env : ProcEnv) (c : Closed) (now : Z) : list DnsEventRaw * Engine :=
  match closed_pending c with
  | None => ([event c], e)
  | Some p =>
      let '(r, e) := resolve e env p (client c) now in
      match r, close_kind c with
      | Done a, _ => ([apply (event c) a], e)
      | Miss, ByResponse =>
          let '(out, e) := overflow_hold e in
          (out, hold (bump e 0 0 0 0 0 0 0 0 1 0) (event c) (client c) p now)
      | Miss, _ => ([event c], bump (abandon_claim e (claim p)) 0 0 0 0 0 0 0 1 0 0)
      end
  end.

Fixpoint close_all (e : Engine) (env : ProcEnv) (cs : list Closed) (now : Z) : list DnsEventRaw * Engine :=
  match cs with
  | [] => ([], e)
  | c :: cs => let '(out, e) := close e env c now in
               let '(out', e) := close_all e env cs now in (out ++ out', e)
  end.

Definition wrap (e : Engine) (raw : list DnsEventRaw) : list RawEvent * Engine :=
  (map RDns raw, bump e 0 0 0 (Z.of_nat (List.length raw)) 0 0 0 0 0 0).

Definition dns_port : Z := 53.

(** The direction by ports, or by the QR bit when both are 53. *)
Definition direction_of (dg : UdpDatagram) (d : Direction) (msg : DnsMessage) : Direction :=
  if (sa_port (ud_src dg) =? dns_port) && (sa_port (ud_dst dg) =? dns_port) then
    (if is_response msg then Response else Query)
  else d.

Definition on_query_packet (e : Engine) (env : ProcEnv) (dg : UdpDatagram) (msg : DnsMessage)
    (local_origin : bool) (ts now : Z) : list DnsEventRaw * Engine :=
  let key := {| tx_client := ud_src dg; tx_server := sa_ip (ud_dst dg); tx_id := msg_id msg |} in
  let '(a, pending, e) :=
    if negb local_origin then (no_owner, None, bump e 0 0 0 0 0 0 0 1 0 0)
    else attribute_query e env key (ud_dst dg) ts now in
  let '(closed, tracker) := on_query (en_tracker e) key msg a pending ts now in
  let e := set_tracker e tracker in
  let '(raw, e) := match closed with Some c => close e env c now | None => ([], e) end in
  let e := match pending with
           | Some p => if contains (en_tracker e) key then e else abandon_claim e (claim p)
           | None => e
           end in
  (raw, e).

Definition on_response_packet (e : Engine) (env : ProcEnv) (dg : UdpDatagram) (msg : DnsMessage) (now : Z)
  : list DnsEventRaw * Engine :=
  let key := {| tx_client := ud_dst dg; tx_server := sa_ip (ud_src dg); tx_id := msg_id msg |} in
  let '(closed, tracker) := on_response (en_tracker e) key msg in
  let e := set_tracker e tracker in
  match closed with Some c => close e env c now | None => ([], e) end.

Definition on_packet (e : Engine) (env : ProcEnv) (l3 : list byte) (local_origin : bool) (ts now : Z)
  : outcome Empty_set (list RawEvent * Engine) :=
  let e := bump e 1 0 0 0 0 0 0 0 0 0 in
  match decode_l3 l3 with
  | None => Ok ([], e)
  | Some dg =>
      match classify dg with
      | None => Ok ([], e)
      | Some d =>
          match parse_message (payload dg) with
          | Panic => Panic
          | Err _ => Ok ([], bump e 0 1 0 0 0 0 0 0 0 0)
          | Ok msg =>
              match direction_of dg d msg with
              | Query =>
                  if is_response msg then Ok ([], bump e 0 0 1 0 0 0 0 0 0 0)
                  else let '(raw, e) := on_query_packet e env dg msg local_origin ts now in Ok (wrap e raw)
              | Response =>
                  if negb (is_response msg) then Ok ([], bump e 0 0 1 0 0 0 0 0 0 0)
                  else let '(raw, e) := on_response_packet e env dg msg now in Ok (wrap e raw)
              end
          end
      end
  end.

(** The last re-check of a hold that leaves the list. *)
Definition release_hold (e : Engine) (env : ProcEnv) (h : Held) (now : Z) : DnsEventRaw * Engine :=
  let '(r, e) := resolve e env (h_pending h) (h_client h) now in
  match r with
  | Done a => (apply (h_event h) a, e)
  | Miss => (h_event h, bump (abandon_claim e (claim (h_pending h))) 0 0 0 0 0 0 0 1 0 0)
  end.

(** [while self.held.front().is_some_and(|h| h.deadline <= now)]; the list is put back when
    the loop ends. *)
Fixpoint expired_holds (e : Engine) (env : ProcEnv) (held : list Held) (now : Z)
  : list DnsEventRaw * list Held * Engine :=
  match held with
  | h :: rest =>
      if h_deadline h <=? now then
        let '(ev, e) := release_hold e env h now in
        let '(out, held, e) := expired_holds e env rest now in (ev :: out, held, e)
      else ([], held, e)
  | [] => ([], [], e)
  end.

Definition emit_expired_holds (e : Engine) (env : ProcEnv) (now : Z) : list DnsEventRaw * Engine :=
  let '(out, held, e) := expired_holds e env (en_held e) now in (out, set_held e held).

(** [VecDeque::swap]. *)
Definition swap {A} (i j : nat) (l : list A) : list A :=
  match l !! i, l !! j with
  | Some x, Some y => <[j := x]> (<[i := y]> l)
  | _, _ => l
  end.

Fixpoint recheck_loop (n i keep : nat) (held : list Held) (e : Engine) (env : ProcEnv) (now : Z)
  : nat * list Held * Engine :=
  match n with
  | O => (keep, held, e)
  | S n =>
      match held !! i with
      | None => (keep, held, e)
      | Some h =>
          let '(r, e) := resolve e env (h_pending h) (h_client h) now in
          match r with
          | Done a =>
              let h' := {| h_event := apply (h_event h) a; h_client := h_client h;
                           h_pending := h_pending h; h_deadline := h_deadline h |} in
              recheck_loop n (S i) keep (<[i := h']> held) e env now
          | Miss => recheck_loop n (S i) (S keep) (swap keep i held) e env now
          end
      end
  end.

Definition inserted_seen (e : Engine) : Z :=
  match claim_table e with Some t => st_inserted_watch t | None => 0 end.

Definition recheck_due (e : Engine) (now : Z) : bool :=
  match en_mode e, en_last_recheck e with
  | Procfs, _ => true
  | _, None => true
  | Kernel _, Some (seen, at_) =>
      negb (seen =? inserted_seen e) || (HELD_RECHECK_INTERVAL <=? since now at_)
  end.

Definition recheck_held (e : Engine) (env : ProcEnv) (now : Z) : list DnsEventRaw * Engine :=
  match en_held e with
  | [] => ([], e)
  | _ =>
      if negb (recheck_due e now) then ([], e)
      else
        let e := set_marks e (en_last_expire e) (Some (inserted_seen e, now)) in
        let '(keep, held, e) := recheck_loop (List.length (en_held e)) 0 0 (en_held e) e env now in
        (map h_event (drop keep held), set_held e (take keep held))
  end.

Definition expire_sends (e : Engine) (now wall : Z) : Engine :=
  match en_mode e with
  | Procfs => e
  | Kernel table =>
      if match en_last_expire e with Some t => SEND_EXPIRE_INTERVAL <=? since now t | None => true end
      then set_marks (set_mode e (Kernel (table_expire table wall)) (en_latched_table e))
             (Some now) (en_last_recheck e)
      else e
  end.

Definition tick (e : Engine) (env : ProcEnv) (now wall : Z) : list RawEvent * Engine :=
  let '(closed, tracker) := expire (en_tracker e) now in
  let '(raw1, e) := close_all (set_tracker e tracker) env closed now in
  let '(raw2, e) := emit_expired_holds e env now in
  let '(raw3, e) := recheck_held e env now in
  wrap (expire_sends e now wall) (raw1 ++ raw2 ++ raw3).

Fixpoint release_holds (e : Engine) (env : ProcEnv) (held : list Held) (now : Z) : list DnsEventRaw * Engine :=
  match held with
  | [] => ([], e)
  | h :: held => let '(ev, e) := release_hold e env h now in
                 let '(out, e) := release_holds e env held now in (ev :: out, e)
  end.

Definition drain (e : Engine) (env : ProcEnv) (now : Z) : list RawEvent * Engine :=
  let '(closed, tracker) := drain_all (en_tracker e) in
  let '(raw1, e) := close_all (set_tracker e tracker) env closed now in
  let held := en_held e in
  let '(raw2, e) := release_holds (set_held e []) env held now in
  wrap e (raw1 ++ raw2).

Definition record_timestamp_fallback (e : Engine) : Engine := bump e 0 0 0 0 0 0 0 0 0 1.

(** The reader thread puts a record into the shared table. *)
Definition on_send (e : Engine) (s : KernelSend) : Engine := on_claim_table e (fun t => table_insert t s).

(** ** The in-place partition of the held list *)

Definition credit_hold (h : Held) (a : Attribution) : Held :=
  {| h_event := apply (h_event h) a; h_client := h_client h; h_pending := h_pending h;
     h_deadline := h_deadline h |}.

(** The holds that miss, in order; those that hit, with their owner. *)
Fixpoint partition_holds (held : list Held) (e : Engine) (env : ProcEnv) (now : Z)
  : list Held * list Held * Engine :=
  match held with
  | [] => ([], [], e)
  | h :: held =>
      let '(r, e) := resolve e env (h_pending h) (h_client h) now in
      let '(misses, hits, e) := partition_holds held e env now in
      match r with
      | Done a => (misses, credit_hold h a :: hits, e)
      | Miss => (h :: misses, hits, e)
      end
  end.

Lemma swap_middle {A} (l1 l2 l3 : list A) x y :
  swap (List.length l1) (List.length (l1 ++ x :: l2)) (l1 ++ x :: l2 ++ y :: l3) =
    l1 ++ y :: l2 ++ x :: l3.
Proof.
  assert (forall l (z : A) l', (l ++ z :: l') !! List.length l = Some z) as Hat
    by (intros; by apply list_lookup_middle).
  unfold swap. rewrite Hat.
  replace (l1 ++ x :: l2 ++ y :: l3) with ((l1 ++ x :: l2) ++ y :: l3) at 1
    by (by rewrite <- app_assoc). rewrite Hat.
  rewrite (insert_app_r_alt _ _ (List.length l1)), Nat.sub_diag by lia. cbn [insert list_insert].
  replace (l1 ++ y :: l2 ++ y :: l3) with ((l1 ++ y :: l2) ++ y :: l3) by (by rewrite <- app_assoc).
  replace (List.length (l1 ++ x :: l2)) with (List.length (l1 ++ y :: l2)) by (by rewrite !length_app).
  rewrite insert_app_r_alt, Nat.sub_diag by lia. cbn [insert list_insert]. by rewrite <- app_assoc.
Qed.

Lemma recheck_loop_partition env now rest : forall M H e misses hits e',
  partition_holds rest e env now = (misses, hits, e') ->
  exists H', H' ≡ₚ H ++ hits /\
    recheck_loop (List.length rest) (List.length (M ++ H)) (List.length M) (M ++ H ++ rest) e env now =
      (List.length (M ++ misses), M ++ misses ++ H', e').
Proof.
  induction rest as [|h rest IH]; intros M H e misses hits e' E; cbn [partition_holds] in E.
  { simplify_eq. exists H. rewrite !app_nil_r. by split. }
  destruct (resolve e env (h_pending h) (h_client h) now) as [r e1] eqn:Er.
  destruct (partition_holds rest e1 env now) as [[ms hs] e2] eqn:Ep.
  cbn [List.length recheck_loop]. rewrite app_assoc, list_lookup_middle by done. rewrite Er.
  destruct r as [a|]; simplify_eq.
  - rewrite insert_app_r_alt, Nat.sub_diag by lia. cbn [insert list_insert]. fold (credit_hold h a).
    destruct (IH M (H ++ [credit_hold h a]) e1 misses hs e' Ep) as (H' & HP & HL).
    exists H'. split; [by rewrite HP, <- app_assoc|].
    rewrite <- HL. rewrite !length_app. cbn [List.length]. f_equal; [lia|by rewrite <- !app_assoc].
  - destruct H as [|h0 H0].
    + destruct (IH (M ++ [h]) [] e1 ms hits e' Ep) as (H' & HP & HL). exists H'. split; [done|].
      rewrite !app_nil_r in *. unfold swap. rewrite list_lookup_middle by done.
      rewrite !list_insert_id by (rewrite ?list_insert_id; by apply list_lookup_middle).
      rewrite <- !app_assoc in HL. cbn [app] in HL. etransitivity; [|exact HL]. rewrite !length_app. simpl.
      by rewrite Nat.add_1_r.
    + destruct (IH (M ++ [h]) (H0 ++ [h0]) e1 ms hits e' Ep) as (H' & HP & HL). exists H'.
      split; [rewrite HP; solve_Permutation|].
      replace ((M ++ h0 :: H0) ++ h :: rest) with (M ++ h0 :: H0 ++ h :: rest) by (by rewrite <- app_assoc).
      rewrite swap_middle. rewrite <- !app_assoc in HL. cbn [app] in HL. etransitivity; [|exact HL].
      rewrite !length_app. cbn [List.length]. f_equal; rewrite ?length_app; cbn [List.length]; lia.
Qed.

Lemma recheck_loop_all held e env now misses hits e' :
  partition_holds held e env now = (misses, hits, e') ->
  exists hits', hits' ≡ₚ hits /\
    recheck_loop (List.length held) 0 0 held e env now = (List.length misses, misses ++ hits', e').
Proof. intros H. by apply (recheck_loop_partition env now held [] []). Qed.

(** ** What each part does to the held responses *)

(** A transaction is recognised by its question and its query's timestamp. *)
Definition event_id (ev : DnsEventRaw) : string * string * Z :=
  (de_query ev, de_qtype ev, de_timestamp_ns ev).

Definition pending_id (p : Pending) : string * string * Z := (query p, qtype p, timestamp_ns p).

Definition hold_id (h : Held) : string * string * Z := event_id (h_event h).

Record quiet (e e' : Engine) : Prop := {
  qt_tracker : en_tracker e' = en_tracker e;
  qt_held : en_held e' = en_held e;
  qt_cap : en_held_capacity e' = en_held_capacity e;
  qt_emitted : n_emitted (en_counters e') = n_emitted (en_counters e) }.

Lemma quiet_refl e : quiet e e.
Proof. by constructor. Qed.

Lemma quiet_trans e1 e2 e3 : quiet e1 e2 -> quiet e2 e3 -> quiet e1 e3.
Proof. intros [] []. constructor; congruence. Qed.

Lemma quiet_mode e m l : quiet e (set_mode e m l).
Proof. by constructor. Qed.

Lemma quiet_bump e pk pe dm ak ap al un he tf : quiet e (bump e pk pe dm 0 ak ap al un he tf).
Proof. constructor; try done. simpl. lia. Qed.

Lemma quiet_attributor e a : quiet e (set_attributor e a).
Proof. by constructor. Qed.

Lemma quiet_marks e x r : quiet e (set_marks e x r).
Proof. by constructor. Qed.

Lemma quiet_on_table e f : quiet e (on_claim_table e f).
Proof.
  unfold on_claim_table, set_claim_table. destruct (claim_table e); [|apply quiet_refl].
  destruct (en_mode e); apply quiet_mode.
Qed.

Create HintDb quiet.
#[local] Hint Resolve quiet_refl quiet_mode quiet_bump quiet_attributor quiet_marks quiet_on_table : quiet.

Lemma procfs_owner_quiet e env c now a e' : procfs_owner e env c now = (a, e') -> quiet e e'.
Proof.
  unfold procfs_owner. destruct (lookup_owner _ _ _ _) as [b x]. intros [= <- <-]. unfold count_procfs.
  eapply quiet_trans; [apply quiet_attributor|]. destruct (at_pid b); apply quiet_bump.
Qed.

Lemma resolve_quiet e env p c now r e' : resolve e env p c now = (r, e') -> quiet e e'.
Proof.
  unfold resolve. destruct (en_mode e) as [t|].
  - destruct (take_claimed _ _ _ _ _) as [hit t']. destruct hit; intros [= <- <-].
    + eapply quiet_trans; [apply quiet_mode|apply quiet_bump].
    + apply quiet_mode.
  - destruct (procfs_owner _ _ _ _) as [a e1] eqn:E. intros [= <- <-].
    eapply quiet_trans; [apply quiet_on_table|by eapply procfs_owner_quiet].
Qed.

Definition held_ok (c : Z) (e : Engine) : Prop :=
  StronglySorted (fun h h' => h_deadline h <= h_deadline h') (en_held e) /\
  Forall (fun h => h_deadline h <= c + ATTRIBUTION_GRACE) (en_held e) /\
  (List.length (en_held e) <= en_held_capacity e)%nat /\ (1 <= en_held_capacity e)%nat.

Lemma held_ok_mono c c' e : c <= c' -> held_ok c e -> held_ok c' e.
Proof.
  intros Hc (H1 & H2 & H3 & H4). split_and!; try done. eapply Forall_impl; [exact H2|]. simpl. lia.
Qed.

Lemma held_ok_quiet c e e' : quiet e e' -> held_ok c e -> held_ok c e'.
Proof. intros [_ H1 H2 _]. unfold held_ok. by rewrite H1, H2. Qed.

(** [out] and the holds of [e'] are what came in and the holds of [e]. *)
Record absorbs (now : Z) (e : Engine) (ids : list (string * string * Z)) (out : list DnsEventRaw)
    (e' : Engine) : Prop := {
  ab_tracker : en_tracker e' = en_tracker e;
  ab_emitted : n_emitted (en_counters e') = n_emitted (en_counters e);
  ab_cap : en_held_capacity e' = en_held_capacity e;
  ab_ids : map event_id out ++ map hold_id (en_held e') ≡ₚ ids ++ map hold_id (en_held e);
  ab_held : held_ok now e -> held_ok now e' }.

Lemma absorbs_trans now e1 e2 e3 i1 i2 o1 o2 :
  absorbs now e1 i1 o1 e2 -> absorbs now e2 i2 o2 e3 -> absorbs now e1 (i1 ++ i2) (o1 ++ o2) e3.
Proof.
  intros [T1 E1 C1 I1 H1] [T2 E2 C2 I2 H2]. constructor; [congruence..| |auto].
  rewrite map_app, <- app_assoc, I2.
  transitivity (i2 ++ (map event_id o1 ++ map hold_id (en_held e2))); [solve_Permutation|].
  rewrite I1. solve_Permutation.
Qed.

Lemma absorbs_quiet now e e' : quiet e e' -> absorbs now e [] [] e'.
Proof.
  intros Q. destruct (Q) as [H1 H2 H3 H4]. constructor; try done; [by rewrite H2|by apply held_ok_quiet].
Qed.

Lemma absorbs_out now e e' i ev : quiet e e' -> event_id ev = i -> absorbs now e [i] [ev] e'.
Proof.
  intros Q <-. destruct (Q) as [H1 H2 H3 H4]. constructor; try done; [by rewrite H2|by apply held_ok_quiet].
Qed.

Lemma sorted_last {A} (R : A -> A -> Prop) l x y :
  StronglySorted R l -> last l = Some x -> y ∈ l -> y = x \/ R y x.
Proof.
  intros Hs Hl Hy. apply last_Some in Hl as (l' & ->). apply elem_of_app in Hy as [Hy|Hy].
  - right. induction l' as [|z l' IH]; [by apply not_elem_of_nil in Hy|].
    apply StronglySorted_inv in Hs as [Hs Hf]. apply elem_of_cons in Hy as [->|Hy]; [|by apply IH].
    rewrite Forall_forall in Hf. apply Hf. apply elem_of_app. right. left.
  - left. by apply list_elem_of_singleton in Hy.
Qed.

Lemma hold_absorbs now e ev client p :
  (List.length (en_held e) < en_held_capacity e)%nat ->
  absorbs now e [event_id ev] [] (hold e ev client p now).
Proof.
  intros Hroom. constructor; try done.
  - unfold hold. simpl. rewrite map_app. simpl. unfold hold_id at 2. simpl. by rewrite Permutation_app_comm.
  - intros (H1 & H2 & H3 & H4). unfold hold, held_ok. cbn [en_held set_held en_held_capacity].
    set (d := match last (en_held e) with Some b => _ | None => _ end).
    assert (d = now + ATTRIBUTION_GRACE) as Hd.
    { unfold d. destruct (last (en_held e)) as [b|] eqn:E; [|done].
      apply last_Some_elem_of in E. rewrite Forall_forall in H2. specialize (H2 b E). lia. }
    rewrite Hd. split_and!.
    + apply StronglySorted_snoc; [done|]. eapply Forall_impl; [exact H2|]. done.
    + apply Forall_app. split; [done|]. constructor; [simpl; lia|done].
    + rewrite length_app. simpl. lia.
    + done.
Qed.

Lemma overflow_absorbs now e out e' :
  overflow_hold e = (out, e') -> absorbs now e [] out e' /\
  (held_ok now e -> (List.length (en_held e') < en_held_capacity e')%nat).
Proof.
  unfold overflow_hold. destruct (Nat.leb_spec (en_held_capacity e) (List.length (en_held e))) as [H|H].
  - destruct (en_held e) as [|h rest] eqn:Eh; intros [= <- <-].
    + split; [apply absorbs_quiet, quiet_refl|]. intros (_ & _ & _ & Hc). simpl in *. rewrite Eh. simpl. lia.
    + assert (quiet (set_held e rest)
                (bump (abandon_claim (set_held e rest) (claim (h_pending h))) 0 0 0 0 0 0 0 1 0 0)) as Q.
      { eapply quiet_trans; [apply quiet_on_table|apply quiet_bump]. }
      destruct Q as [Q1 Q2 Q3 Q4]. cbn [set_held en_held en_tracker en_counters en_held_capacity] in Q1, Q2, Q3, Q4.
      split; [constructor|].
      * exact Q1.
      * exact Q4.
      * exact Q3.
      * rewrite Q2, Eh. done.
      * intros (H1 & H2 & H3 & H4). rewrite Eh in *. unfold held_ok. rewrite Q2, Q3.
        apply StronglySorted_inv in H1 as [H1 _]. apply Forall_cons in H2 as [_ H2]. simpl in H3.
        split_and!; (done || lia).
      * intros (_ & _ & H3 & _). rewrite Eh in H3. rewrite Q2, Q3. simpl in H3. lia.
  - intros [= <- <-]. split; [apply absorbs_quiet, quiet_refl|]. done.
Qed.

Lemma event_id_apply ev a : event_id (apply ev a) = event_id ev.
Proof. done. Qed.

Lemma close_absorbs now e env c out e' :
  held_ok now e -> close e env c now = (out, e') -> absorbs now e [event_id (event c)] out e'.
Proof.
  intros Hok. unfold close. destruct (closed_pending c) as [p|].
  2:{ intros [= <- <-]. by apply absorbs_out; [apply quiet_refl|]. }
  destruct (resolve e env p (client c) now) as [r e1] eqn:Er. apply resolve_quiet in Er.
  destruct r as [a|].
  { intros [= <- <-]. by apply absorbs_out. }
  assert (quiet e (bump (abandon_claim e1 (claim p)) 0 0 0 0 0 0 0 1 0 0)) as Qa.
  { eapply quiet_trans; [exact Er|]. eapply quiet_trans; [apply quiet_on_table|apply quiet_bump]. }
  destruct (close_kind c).
  2,3: intros [= <- <-]; by apply absorbs_out.
  destruct (overflow_hold e1) as [out1 e2] eqn:Eo. intros [= <- <-].
  destruct (overflow_absorbs now e1 out1 e2 Eo) as [Ao Hroom].
  pose proof (held_ok_quiet _ _ _ Er Hok) as Hok1. specialize (Hroom Hok1).
  pose proof (quiet_bump e2 0 0 0 0 0 0 0 1 0) as Qb.
  assert (absorbs now (bump e2 0 0 0 0 0 0 0 0 1 0) [event_id (event c)] []
    (hold (bump e2 0 0 0 0 0 0 0 0 1 0) (event c) (client c) p now)) as Ah
    by (by apply hold_absorbs).
  pose proof (absorbs_trans _ _ _ _ _ _ _ _ (absorbs_quiet now _ _ Er)
    (absorbs_trans _ _ _ _ _ _ _ _ Ao (absorbs_trans _ _ _ _ _ _ _ _ (absorbs_quiet now _ _ Qb) Ah))) as A.
  by rewrite !app_nil_r in A.
Qed.

Lemma close_all_absorbs now env cs : forall e out e',
  held_ok now e -> close_all e env cs now = (out, e') ->
  absorbs now e (map (fun c => event_id (event c)) cs) out e'.
Proof.
  induction cs as [|c cs IH]; intros e out e' Hok H; cbn [close_all] in H.
  { injection H as <- <-. apply absorbs_quiet, quiet_refl. }
  destruct (close e env c now) as [o1 e1] eqn:E1. destruct (close_all e1 env cs now) as [o2 e2] eqn:E2.
  injection H as <- <-. pose proof (close_absorbs now e env c o1 e1 Hok E1) as A1.
  apply (absorbs_trans now e e1 e2 [event_id (event c)]); [done|]. apply IH; [|done]. by apply A1.
Qed.

Lemma close_tracker e env c now out e' : close e env c now = (out, e') -> en_tracker e' = en_tracker e.
Proof.
  unfold close. destruct (closed_pending c) as [p|]; [|by intros [= <- <-]].
  destruct (resolve e env p (client c) now) as [r e1] eqn:Er. apply resolve_quiet in Er.
  destruct r as [a|]; [intros [= <- <-]; apply Er|].
  assert (en_tracker (abandon_claim e1 (claim p)) = en_tracker e) as Ha.
  { unfold abandon_claim. rewrite (qt_tracker _ _ (quiet_on_table _ _)). apply Er. }
  destruct (close_kind c); [|by intros [= <- <-]..].
  destruct (overflow_hold e1) as [out1 e2] eqn:Eo. intros [= <- <-].
  destruct (overflow_absorbs now e1 out1 e2 Eo) as [Ao _]. simpl. rewrite (ab_tracker _ _ _ _ _ Ao). apply Er.
Qed.

Lemma close_all_tracker env now cs : forall e out e',
  close_all e env cs now = (out, e') -> en_tracker e' = en_tracker e.
Proof.
  induction cs as [|c cs IH]; intros e out e' H; cbn [close_all] in H; [by simplify_eq|].
  destruct (close e env c now) as [o1 e1] eqn:E1. destruct (close_all e1 env cs now) as [o2 e2] eqn:E2.
  injection H as <- <-. rewrite (IH _ _ _ E2). by eapply close_tracker.
Qed.

Lemma release_hold_effect e env h now ev e' :
  release_hold e env h now = (ev, e') -> quiet e e' /\ event_id ev = hold_id h.
Proof.
  unfold release_hold. destruct (resolve e env (h_pending h) (h_client h) now) as [r e1] eqn:Er.
  apply resolve_quiet in Er. destruct r; intros [= <- <-]; [done|]. split; [|done].
  eapply quiet_trans; [exact Er|]. eapply quiet_trans; [apply quiet_on_table|apply quiet_bump].
Qed.

Lemma expired_holds_effect env now held : forall e out held' e',
  expired_holds e env held now = (out, held', e') ->
  quiet e e' /\ map event_id out ++ map hold_id held' = map hold_id held /\
  held' `suffix_of` held /\
  (StronglySorted (fun h h' => h_deadline h <= h_deadline h') held ->
   Forall (fun h => now < h_deadline h) held').
Proof.
  induction held as [|h held IH]; intros e out held' e' H; cbn [expired_holds] in H.
  { simplify_eq. by split_and!. }
  destruct (Z.leb_spec (h_deadline h) now) as [Hd|Hd].
  - destruct (release_hold e env h now) as [ev e1] eqn:E1.
    destruct (expired_holds e1 env held now) as [[o1 h1] e2] eqn:E2. injection H as <- <- <-.
    apply release_hold_effect in E1 as [Q1 Hid]. destruct (IH _ _ _ _ E2) as (Q2 & Hi & Hs & Hf).
    split_and!; [by eapply quiet_trans|simpl; by rewrite Hid, Hi|by apply suffix_cons_r|].
    intros Hsort. apply StronglySorted_inv in Hsort as [Hsort _]. by apply Hf.
  - injection H as <- <- <-. split_and!; try done.
    intros Hsort. apply StronglySorted_inv in Hsort as [_ Hall]. constructor; [done|].
    eapply Forall_impl; [exact Hall|]. simpl. lia.
Qed.

(** Replacing the holds by some of them. *)
Lemma held_ok_sublist c e held : held `sublist_of` en_held e -> held_ok c e -> held_ok c (set_held e held).
Proof.
  intros Hs (H1 & H2 & H3 & H4). unfold held_ok. cbn [set_held en_held en_held_capacity]. split_and!; try done.
  - by eapply sublist_sorted.
  - rewrite Forall_forall in *. intros h Hh. apply H2. by eapply elem_of_sublist.
  - apply sublist_length in Hs. lia.
Qed.

Lemma emit_expired_absorbs e env now out e' :
  emit_expired_holds e env now = (out, e') ->
  absorbs now e [] out e' /\ (held_ok now e -> Forall (fun h => now < h_deadline h) (en_held e')).
Proof.
  unfold emit_expired_holds. destruct (expired_holds e env (en_held e) now) as [[o h] e1] eqn:E.
  intros [= <- <-]. destruct (expired_holds_effect env now (en_held e) _ _ _ _ E) as (Q & Hi & Hs & Hf).
  destruct (Q) as [Q1 Q2 Q3 Q4]. split.
  - constructor; try done; simpl; [by rewrite Hi|]. intros Hok. apply (held_ok_quiet _ _ _ Q) in Hok.
    apply held_ok_sublist; [|done]. rewrite Q2. destruct Hs as (pre & ->). by apply sublist_inserts_l.
  - intros (Hok & _). simpl. by apply Hf.
Qed.

Lemma partition_effect env now held : forall e misses hits e',
  partition_holds held e env now = (misses, hits, e') ->
  quiet e e' /\ misses `sublist_of` held /\ map hold_id hits ++ map hold_id misses ≡ₚ map hold_id held.
Proof.
  induction held as [|h held IH]; intros e misses hits e' H; cbn [partition_holds] in H.
  { simplify_eq. split_and!; [apply quiet_refl|done|done]. }
  destruct (resolve e env (h_pending h) (h_client h) now) as [r e1] eqn:Er. apply resolve_quiet in Er.
  destruct (partition_holds held e1 env now) as [[ms hs] e2] eqn:Ep.
  destruct (IH _ _ _ _ Ep) as (Q & Hs & HP).
  destruct r as [a|]; injection H as <- <- <-; (split_and!; [by eapply quiet_trans| |]).
  - by apply sublist_cons.
  - cbn [map app]. change (hold_id (credit_hold h a)) with (hold_id h). by rewrite HP.
  - by constructor.
  - cbn [map]. rewrite <- HP. by rewrite Permutation_middle.
Qed.

Lemma recheck_absorbs e env now out e' :
  recheck_held e env now = (out, e') ->
  absorbs now e [] out e' /\ en_held e' `sublist_of` en_held e.
Proof.
  unfold recheck_held. assert (absorbs now e [] [] e) as A0 by apply absorbs_quiet, quiet_refl.
  destruct (en_held e) as [|h0 held] eqn:Eh.
  { intros [= <- <-]. rewrite Eh. by split. }
  destruct (recheck_due e now); cbn [negb]; [|intros [= <- <-]; rewrite Eh; by split].
  set (e1 := set_marks e _ _). assert (en_held e1 = h0 :: held) as Eh1 by done. rewrite Eh1.
  destruct (partition_holds (h0 :: held) e1 env now) as [[ms hs] e2] eqn:Ep.
  destruct (recheck_loop_all _ _ _ _ _ _ _ Ep) as (hs' & HP & ->).
  destruct (partition_effect env now _ _ _ _ _ Ep) as (Q & Hs & Hi). intros [= <- <-].
  assert (quiet e e2) as Qe by (eapply quiet_trans; [apply quiet_marks|exact Q]).
  destruct (Qe) as [Q1 Q2 Q3 Q4]. rewrite drop_app_length, take_app_length. split; [|done].
  constructor; try done; simpl.
  - rewrite Eh, <- Hi, map_map. change (fun x => event_id (h_event x)) with hold_id. by rewrite HP.
  - intros Hok. apply (held_ok_quiet _ _ _ Qe) in Hok. apply held_ok_sublist; [|done]. by rewrite Q2, Eh.
Qed.

Lemma release_holds_effect env now held : forall e out e',
  release_holds e env held now = (out, e') -> quiet e e' /\ map event_id out = map hold_id held.
Proof.
  induction held as [|h held IH]; intros e out e' H; cbn [release_holds] in H.
  { simplify_eq. split; [apply quiet_refl|done]. }
  destruct (release_hold e env h now) as [ev e1] eqn:E1.
  destruct (release_holds e1 env held now) as [o2 e2] eqn:E2. injection H as <- <-.
  apply release_hold_effect in E1 as [Q1 Hid]. destruct (IH _ _ _ E2) as [Q2 Hi].
  split; [by eapply quiet_trans|]. simpl. by rewrite Hid, Hi.
Qed.

Lemma expire_sends_quiet e now wall : quiet e (expire_sends e now wall).
Proof.
  unfold expire_sends. destruct (en_mode e); [|apply quiet_refl]. destruct (match _ with Some _ => _ | None => _ end).
  - eapply quiet_trans; [apply quiet_mode|apply quiet_marks].
  - apply quiet_refl.
Qed.

(** ** The tracker's transactions *)

Abbreviation ids_of s := (map (fun x => pending_id x.2) (entries s)).

(** The query an operation adds to the queue. *)
Definition accepted (s : spec) (o : op) : list (string * string * Z) :=
  match o with
  | OQuery key msg _ _ ts _ =>
      match question msg, find_entry key (entries s) with
      | Some q, None => [(q_name q, qtype_mnemonic (q_type q), ts)]
      | _, _ => []
      end
  | _ => []
  end.

Lemma closed_id p k ips ttl : event_id (event (DnsTracker.close p k ips ttl)) = pending_id p.
Proof. done. Qed.

Lemma without_ids k p (l : list (TxKey * Pending)) :
  NoDup (map fst l) -> find_entry k l = Some p -> l ≡ₚ (k, p) :: without k l.
Proof.
  unfold find_entry, without. induction l as [|[k' p'] l IH]; [done|]. intros Hn H. simpl in *.
  apply NoDup_cons in Hn as [Hk Hn]. case_bool_decide as E; simpl in *.
  - simplify_eq. f_equiv. rewrite filter_true; [done|]. apply Forall_forall. intros [k'' x] Hx. simpl.
    apply negb_true_iff, bool_decide_eq_false. intros ->. apply Hk. apply list_elem_of_fmap. by exists (k, x).
  - rewrite (IH Hn H) at 1. apply perm_swap.
Qed.

Lemma spec_step_ids tmo cap s o :
  NoDup (map fst (entries s)) ->
  let '(out, s') := spec_step tmo cap s o in
  map (fun c => event_id (event c)) out ++ ids_of s' ≡ₚ accepted s o ++ ids_of s /\
  fresh_seq s' = fresh_seq s + Z.of_nat (List.length (accepted s o)).
Proof.
  intros Hn. destruct o as [key msg a ow ts now|key msg|key a|now|]; cbn [spec_step accepted].
  - destruct (question msg) as [q|]; [|split; [done|simpl; lia]].
    destruct (find_entry key (entries s)) as [p|]; [split; [done|simpl; lia]|].
    unfold spec_evict. set (p := {| seq := _; deadline := _ |}).
    change (q_name q, qtype_mnemonic (q_type q), ts) with (pending_id p).
    destruct (cap <=? List.length (entries s))%nat.
    + destruct (entries s) as [|[k0 p0] l] eqn:El; cbn [map app entries fresh_seq snd List.length];
        (split; [|lia]); [done|].
      rewrite map_app, closed_id. cbn [map snd]. solve_Permutation.
    + cbn [map app entries fresh_seq snd List.length]. split; [|lia]. rewrite map_app. cbn [map snd].
      solve_Permutation.
  - destruct (find_entry key (entries s)) as [p|] eqn:Ef; [|split; [done|simpl; lia]].
    destruct (collect_answers _ _ _) as [ips ttl]. cbn [map app entries fresh_seq snd List.length].
    split; [|lia]. rewrite closed_id. by rewrite (without_ids key p (entries s) Hn Ef) at 2.
  - simpl. split; [|lia]. unfold amend. rewrite map_map.
    erewrite map_ext; [done|]. intros [k p]. simpl. destruct (decide (k = key)); [|done]. simpl.
    by destruct (owed p).
  - simpl. split; [|lia]. rewrite map_map.
    rewrite (filter_negb_perm (fun x => negb (deadline x.2 <=? now)) (entries s)) at 3.
    rewrite map_app.
    rewrite (filter_ext (fun x : TxKey * Pending => negb (negb (deadline x.2 <=? now)))
      (fun x => deadline x.2 <=? now)) by (intros; apply negb_involutive). done.
  - simpl. split; [|lia]. rewrite app_nil_r, map_map. done.
Qed.

(** ** Runs of the engine *)

Inductive engine_op :=
| EvPacket (env : ProcEnv) (l3 : list byte) (local_origin : bool) (ts now : Z)
| EvTick (env : ProcEnv) (now wall : Z)
| EvDrain (env : ProcEnv) (now : Z)
| EvSend (s : KernelSend)
| EvLatch
| EvFallback.

Definition engine_step (e : Engine) (o : engine_op) : outcome Empty_set (list RawEvent * Engine) :=
  match o with
  | EvPacket env l3 local_origin ts now => on_packet e env l3 local_origin ts now
  | EvTick env now wall => Ok (tick e env now wall)
  | EvDrain env now => Ok (drain e env now)
  | EvSend s => Ok ([], on_send e s)
  | EvLatch => Ok ([], latch_procfs e)
  | EvFallback => Ok ([], record_timestamp_fallback e)
  end.

Fixpoint engine_run (e : Engine) (ops : list engine_op) : outcome Empty_set (list RawEvent * Engine) :=
  match ops with
  | [] => Ok ([], e)
  | o :: ops => let? (out, e) := engine_step e o in
                let? (outs, e) := engine_run e ops in Ok (out ++ outs, e)
  end.

Definition op_clock (c : Z) (o : engine_op) : Z :=
  match o with
  | EvPacket _ _ _ _ now | EvTick _ now _ | EvDrain _ now => now
  | _ => c
  end.

(** [Instant] does not go back. *)
Fixpoint on_time (c : Z) (ops : list engine_op) : Prop :=
  match ops with
  | [] => True
  | o :: ops => c <= op_clock c o /\ on_time (op_clock c o) ops
  end.

(** The queries a step shows to the engine. *)
Definition asked (o : engine_op) : list (string * string * Z) :=
  match o with
  | EvPacket _ l3 _ ts _ =>
      match decode_l3 l3 with
      | Some dg =>
          match parse_message (payload dg) with
          | Ok msg => match question msg with
                      | Some q => [(q_name q, qtype_mnemonic (q_type q), ts)]
                      | None => []
                      end
          | _ => []
          end
      | None => []
      end
  | _ => []
  end.

Lemma rep_mono c c' t s : c <= c' -> rep c t s -> rep c' t s.
Proof.
  intros Hc [? ? ? ? ? ? ? H ? ?]. constructor; try done. eapply Forall_impl; [exact H|]. simpl. lia.
Qed.

(** One operation of the tracker, in terms of the queue. *)
Lemma tracker_refined c now t s o out t' :
  rep c t s -> c <= now -> (forall k m a ow ts n, o = OQuery k m a ow ts n -> n = now) ->
  step t o = (out, t') ->
  out = (spec_step (timeout t) (capacity t) s o).1 /\ rep now t' (spec_step (timeout t) (capacity t) s o).2.
Proof.
  intros R Hc Ho H. apply (rep_mono c now) in R; [|done].
  assert (clocked now [o]) as Hck.
  { destruct o; simpl; try done. rewrite (Ho _ _ _ _ _ _ eq_refl). done. }
  assert (DnsTracker.tick now o = now) as Ht.
  { destruct o; simpl; try done. apply (Ho _ _ _ _ _ _ eq_refl). }
  destruct (step_refines now t s o [] R Hck) as (t1 & E & R1 & _).
  rewrite H in E. injection E as -> ->. by rewrite Ht in R1.
Qed.

Lemma tracker_op c now t s o out t' :
  rep c t s -> c <= now -> (forall k m a ow ts n, o = OQuery k m a ow ts n -> n = now) ->
  step t o = (out, t') ->
  exists s', rep now t' s' /\ map (fun c => event_id (event c)) out ++ ids_of s' ≡ₚ accepted s o ++ ids_of s /\
    fresh_seq s' = fresh_seq s + Z.of_nat (List.length (accepted s o)).
Proof.
  intros R Hc Ho H. destruct (tracker_refined c now t s o out t' R Hc Ho H) as [-> R'].
  pose proof (spec_step_ids (timeout t) (capacity t) s o (rep_keys _ _ _ R)) as Hi.
  destruct (spec_step (timeout t) (capacity t) s o) as [o1 s']. exists s'. simpl in *. by destruct Hi.
Qed.

Definition progress (now : Z) (e : Engine) (s : spec) (acc : list (string * string * Z))
    (out : list DnsEventRaw) (e' : Engine) (s' : spec) : Prop :=
  rep now (en_tracker e') s' /\ held_ok now e' /\ en_held_capacity e' = en_held_capacity e /\
  map event_id out ++ map hold_id (en_held e') ++ ids_of s' ≡ₚ acc ++ map hold_id (en_held e) ++ ids_of s /\
  fresh_seq s' = fresh_seq s + Z.of_nat (List.length acc) /\
  n_emitted (en_counters e') = n_emitted (en_counters e).

(** Like [quiet], but the tracker may have moved. *)
Definition quiet_but_tracker (e e' : Engine) : Prop :=
  en_held e' = en_held e /\ en_held_capacity e' = en_held_capacity e /\
  n_emitted (en_counters e') = n_emitted (en_counters e).

Lemma progress_intro now e e1 e2 s s' cs acc out :
  held_ok now e -> quiet_but_tracker e e1 -> rep now (en_tracker e1) s' ->
  map (fun c => event_id (event c)) cs ++ ids_of s' ≡ₚ acc ++ ids_of s ->
  fresh_seq s' = fresh_seq s + Z.of_nat (List.length acc) ->
  absorbs now e1 (map (fun c => event_id (event c)) cs) out e2 ->
  progress now e s acc out e2 s'.
Proof.
  intros Hok (H1 & H2 & H3) R Hi Hf [A1 A2 A5 A3 A4].
  assert (held_ok now e1) as Hok1 by (unfold held_ok; by rewrite H1, H2).
  split_and!; [by rewrite A1|by apply A4|congruence| |done|congruence].
  rewrite app_assoc, A3, H1. transitivity (map hold_id (en_held e) ++
    (map (fun c => event_id (event c)) cs ++ ids_of s')); [solve_Permutation|]. rewrite Hi. solve_Permutation.
Qed.

Lemma attribute_query_effect e env key server ts now a pend e' :
  attribute_query e env key server ts now = (a, pend, e') ->
  quiet_but_tracker e e' /\
  (en_tracker e' = en_tracker e \/ exists b, en_tracker e' = (resolve_pending (en_tracker e) key b).2).
Proof.
  unfold attribute_query. destruct (en_mode e) as [t|].
  2:{ destruct (procfs_owner e env (tx_client key) now) as [b e1] eqn:E. apply procfs_owner_quiet in E.
      intros [= <- <- <-]. destruct E as [? ? ? ?]. split; [by split_and!|by left]. }
  destruct (contains (en_tracker e) key).
  - destruct (table_take _ _ _ _) as [hit t1]. destruct hit as [b|].
    2:{ intros [= <- <- <-]. split; [by split_and!|by left]. }
    cbn [en_tracker set_mode]. destruct (resolve_pending (en_tracker e) key b) as [ow tr] eqn:Er.
    destruct ow as [o|].
    + destruct (take_claimed _ _ _ _ _) as [own t2]. intros [= <- <- <-].
      split; [split_and!; try done; simpl; lia|]. right. exists b. by rewrite Er.
    + intros [= <- <- <-]. split; [by split_and!|]. right. exists b. by rewrite Er.
  - destruct (table_take _ _ _ _) as [hit t1]. destruct hit as [b|].
    + intros [= <- <- <-]. split; [split_and!; try done; simpl; lia|by left].
    + destruct (table_claim _ _ _ _) as [c t2]. intros [= <- <- <-]. split; [by split_and!|by left].
Qed.

Lemma attribute_progress c now e s env key server ts a pend e' :
  rep c (en_tracker e) s -> c <= now -> attribute_query e env key server ts now = (a, pend, e') ->
  quiet_but_tracker e e' /\
  exists s', rep now (en_tracker e') s' /\ ids_of s' ≡ₚ ids_of s /\ fresh_seq s' = fresh_seq s.
Proof.
  intros R Hc H. apply attribute_query_effect in H as [Q H]. split; [done|].
  destruct H as [->|(b & ->)]; [exists s; split; [by eapply rep_mono|done]|].
  destruct (tracker_op c now (en_tracker e) s (OResolve key b) [] (resolve_pending (en_tracker e) key b).2)
    as (s' & R' & Hi & Hf); [done|done|done|done|].
  exists s'. simpl in Hi, Hf. split_and!; [done|done|lia].
Qed.

Lemma quiet_tracker e t : quiet_but_tracker e (set_tracker e t).
Proof. done. Qed.

Lemma quiet_but_trans e1 e2 e3 : quiet_but_tracker e1 e2 -> quiet_but_tracker e2 e3 -> quiet_but_tracker e1 e3.
Proof. intros (A & B & C) (D & E & F). split_and!; congruence. Qed.

Lemma close_opt_absorbs now e env cl out e' :
  held_ok now e ->
  match cl with Some c => close e env c now | None => ([], e) end = (out, e') ->
  absorbs now e (map (fun c => event_id (event c)) (option_list cl)) out e'.
Proof.
  destruct cl as [c|]; intros Hok H; [by eapply close_absorbs|].
  injection H as <- <-. apply absorbs_quiet, quiet_refl.
Qed.

Lemma held_ok_but now e e' : quiet_but_tracker e e' -> held_ok now e -> held_ok now e'.
Proof. intros (H1 & H2 & _). unfold held_ok. by rewrite H1, H2. Qed.

Lemma progress_quiet now e s acc out e1 e2 s' :
  progress now e s acc out e1 s' -> quiet e1 e2 -> progress now e s acc out e2 s'.
Proof.
  intros (R & Hok & Hcap & Hi & Hf & Hn) Q. destruct (Q) as [Q1 Q2 Q3 Q4].
  split_and!; [by rewrite Q1|by eapply held_ok_quiet|congruence|by rewrite Q2|done|congruence].
Qed.

Lemma query_progress c now e s env dg msg local_origin ts raw e' :
  rep c (en_tracker e) s -> held_ok c e -> c <= now ->
  on_query_packet e env dg msg local_origin ts now = (raw, e') ->
  exists acc s', progress now e s acc raw e' s' /\
    acc ⊆+ match question msg with Some q => [(q_name q, qtype_mnemonic (q_type q), ts)] | None => [] end.
Proof.
  intros R Hok Hc. apply (held_ok_mono c now) in Hok; [|done]. unfold on_query_packet.
  set (key := {| tx_client := _; tx_server := _ |}).
  destruct (if negb local_origin then _ else _) as [[a pend] e1] eqn:Ea.
  assert (quiet_but_tracker e e1 /\ exists s1, rep now (en_tracker e1) s1 /\ ids_of s1 ≡ₚ ids_of s /\
            fresh_seq s1 = fresh_seq s) as (Q1 & s1 & R1 & Hi1 & Hf1).
  { destruct (negb local_origin).
    - injection Ea as <- <- <-. split; [split_and!; try done; simpl; lia|].
      exists s. split; [by eapply rep_mono|done].
    - by eapply attribute_progress. }
  destruct (on_query (en_tracker e1) key msg a pend ts now) as [cl t2] eqn:Eq.
  destruct (tracker_op now now (en_tracker e1) s1 (OQuery key msg a pend ts now) (option_list cl) t2)
    as (s2 & R2 & Hi2 & Hf2); [done|lia|naive_solver|cbn [step]; by rewrite Eq|].
  destruct (match cl with Some c0 => _ | None => _ end) as [out e2] eqn:Ec.
  assert (quiet_but_tracker e (set_tracker e1 t2)) as Q2 by (by eapply quiet_but_trans).
  pose proof (held_ok_but _ _ _ Q2 Hok) as Hok2.
  pose proof (close_opt_absorbs now _ env cl out e2 Hok2 Ec) as A.
  intros [= <- <-]. exists (accepted s1 (OQuery key msg a pend ts now)), s2. split.
  - eapply progress_quiet.
    + eapply progress_intro; [exact Hok|exact Q2|exact R2| | |exact A].
      * by rewrite Hi2, Hi1.
      * lia.
    + destruct pend as [p|]; [|apply quiet_refl]. destruct (contains _ _); [apply quiet_refl|apply quiet_on_table].
  - simpl. destruct (question msg) as [q|]; [|done]. destruct (find_entry key (entries s1)); [|done].
    apply submseteq_nil_l.
Qed.

Lemma response_progress c now e s env dg msg raw e' :
  rep c (en_tracker e) s -> held_ok c e -> c <= now ->
  on_response_packet e env dg msg now = (raw, e') -> exists s', progress now e s [] raw e' s'.
Proof.
  intros R Hok Hc. apply (held_ok_mono c now) in Hok; [|done]. unfold on_response_packet.
  set (key := {| tx_client := _; tx_server := _ |}).
  destruct (on_response (en_tracker e) key msg) as [cl t2] eqn:Eq.
  destruct (tracker_op c now (en_tracker e) s (OResponse key msg) (option_list cl) t2)
    as (s2 & R2 & Hi2 & Hf2); [done|lia|done|cbn [step]; by rewrite Eq|].
  intros Ec. pose proof (close_opt_absorbs now (set_tracker e t2) env cl raw e' Hok Ec) as A.
  exists s2. eapply progress_intro; [exact Hok|apply quiet_tracker|exact R2|exact Hi2|exact Hf2|exact A].
Qed.

(** A step of the engine, wrapped: events out, the emitted count moved. *)
Definition stepped (now : Z) (e : Engine) (s : spec) (acc : list (string * string * Z))
    (outs : list RawEvent) (e' : Engine) (s' : spec) : Prop :=
  exists raw, outs = map RDns raw /\ rep now (en_tracker e') s' /\ held_ok now e' /\
    en_held_capacity e' = en_held_capacity e /\
    map event_id raw ++ map hold_id (en_held e') ++ ids_of s' ≡ₚ acc ++ map hold_id (en_held e) ++ ids_of s /\
    fresh_seq s' = fresh_seq s + Z.of_nat (List.length acc) /\
    n_emitted (en_counters e') = n_emitted (en_counters e) + Z.of_nat (List.length raw).

Lemma stepped_wrap now e s acc raw e1 s' :
  progress now e s acc raw e1 s' -> stepped now e s acc (wrap e1 raw).1 (wrap e1 raw).2 s'.
Proof.
  intros (R & Hok & Hcap & Hi & Hf & Hn). exists raw. split_and!; try done. simpl. lia.
Qed.

Lemma stepped_quiet now e s e' :
  rep now (en_tracker e) s -> held_ok now e -> quiet e e' -> stepped now e s [] [] e' s.
Proof.
  intros R Hok Q. destruct (Q) as [Q1 Q2 Q3 Q4]. exists []. split_and!; try done.
  - by rewrite Q1.
  - by eapply held_ok_quiet.
  - by rewrite Q2.
  - simpl. lia.
  - simpl. lia.
Qed.

Lemma stepped_before now e0 e s acc outs e' s' :
  quiet e0 e -> stepped now e s acc outs e' s' -> stepped now e0 s acc outs e' s'.
Proof.
  intros [Q1 Q2 Q3 Q4] (raw & H1 & H2 & H3 & Hcap & H4 & H5 & H6). exists raw.
  rewrite Q2 in H4. rewrite Q4 in H6. rewrite Q3 in Hcap. by split_and!.
Qed.

Lemma packet_stepped c now e s env l3 local_origin ts :
  rep c (en_tracker e) s -> held_ok c e -> c <= now ->
  exists outs e' acc s', on_packet e env l3 local_origin ts now = Ok (outs, e') /\
    stepped now e s acc outs e' s' /\ acc ⊆+ asked (EvPacket env l3 local_origin ts now).
Proof.
  intros R Hok Hc. unfold on_packet. set (e0 := bump e 1 0 0 0 0 0 0 0 0 0).
  assert (quiet e e0) as Q0 by apply quiet_bump.
  pose proof (rep_mono _ _ _ _ Hc R) as Rn. pose proof (held_ok_mono _ _ _ Hc Hok) as Hokn.
  assert (forall e1 l, quiet e e1 -> exists outs e' acc s', Ok (E := Empty_set) ([], e1) = Ok (outs, e') /\
    stepped now e s acc outs e' s' /\ acc ⊆+ l) as Hquiet.
  { intros e1 l Q. exists [], e1, [], s. split; [done|]. split; [by apply stepped_quiet|apply submseteq_nil_l]. }
  cbn [asked]. destruct (decode_l3 l3) as [dg|] eqn:Ed; [|by apply Hquiet].
  destruct (classify dg) as [d|] eqn:Ec; [|by apply Hquiet].
  pose proof (parse_message_safe (payload dg)) as Hp.
  destruct (parse_message (payload dg)) as [msg| |] eqn:Ep; [| |done].
  2:{ apply Hquiet. eapply quiet_trans; [exact Q0|apply quiet_bump]. }
  assert (quiet e (bump e0 0 0 1 0 0 0 0 0 0 0)) as Qm by (eapply quiet_trans; [exact Q0|apply quiet_bump]).
  destruct (direction_of dg d msg).
  - destruct (is_response msg); [by apply Hquiet|].
    destruct (on_query_packet e0 env dg msg local_origin ts now) as [raw e1] eqn:Eq.
    destruct (query_progress c now e0 s env dg msg local_origin ts raw e1) as (acc & s' & P & Ha); [done..|].
    exists (wrap e1 raw).1, (wrap e1 raw).2, acc, s'. split; [done|]. split; [|done].
    eapply stepped_before; [exact Q0|]. by apply stepped_wrap.
  - destruct (negb (is_response msg)); [by apply Hquiet|].
    destruct (on_response_packet e0 env dg msg now) as [raw e1] eqn:Eq.
    destruct (response_progress c now e0 s env dg msg raw e1) as (s' & P); [done..|].
    exists (wrap e1 raw).1, (wrap e1 raw).2, [], s'. split; [done|]. split; [|apply submseteq_nil_l].
    eapply stepped_before; [exact Q0|]. by apply stepped_wrap.
Qed.

Lemma tick_stepped c now e s env wall :
  rep c (en_tracker e) s -> held_ok c e -> c <= now ->
  (exists s', stepped now e s [] (tick e env now wall).1 (tick e env now wall).2 s') /\
  Forall (fun h => now < h_deadline h) (en_held (tick e env now wall).2).
Proof.
  intros R Hok Hc. apply (held_ok_mono c now) in Hok; [|done]. unfold tick.
  destruct (expire (en_tracker e) now) as [cl t1] eqn:Ex.
  destruct (tracker_op c now (en_tracker e) s (OExpire now) cl t1) as (s1 & R1 & Hi1 & Hf1);
    [done|done|done|done|].
  destruct (close_all (set_tracker e t1) env cl now) as [raw1 e1] eqn:E1.
  pose proof (close_all_absorbs now env cl (set_tracker e t1) raw1 e1 Hok E1) as A1.
  destruct (emit_expired_holds e1 env now) as [raw2 e2] eqn:E2.
  destruct (emit_expired_absorbs e1 env now raw2 e2 E2) as [A2 Hlate].
  destruct (recheck_held e2 env now) as [raw3 e3] eqn:E3.
  destruct (recheck_absorbs e2 env now raw3 e3 E3) as [A3 Hsub].
  pose proof (expire_sends_quiet e3 now wall) as Q4.
  split.
  - exists s1. apply stepped_wrap. eapply progress_quiet; [|exact Q4].
    eapply (progress_intro now e (set_tracker e t1)); [exact Hok|apply quiet_tracker|exact R1|exact Hi1|exact Hf1|].
    pose proof (absorbs_trans _ _ _ _ _ _ _ _ A1 (absorbs_trans _ _ _ _ _ _ _ _ A2 A3)) as A.
    by rewrite !app_nil_r in A.
  - simpl. rewrite (qt_held _ _ Q4). specialize (Hlate (ab_held _ _ _ _ _ A1 Hok)).
    rewrite Forall_forall in *. intros h Hh. apply Hlate. by eapply elem_of_sublist.
Qed.

(** A transaction that times out is never held. *)
Lemma close_timeout_held e env c now out e' :
  close_kind c = Timeout -> close e env c now = (out, e') -> en_held e' = en_held e.
Proof.
  unfold close. intros Hk. rewrite Hk. destruct (closed_pending c) as [p|]; [|by intros [= <- <-]].
  destruct (resolve e env p (client c) now) as [r e1] eqn:Er. apply resolve_quiet in Er.
  destruct r; intros [= <- <-]; [apply Er|]. simpl. unfold abandon_claim. rewrite (qt_held _ _ (quiet_on_table _ _)). apply Er.
Qed.

Lemma close_all_timeout_held env now cs : forall e out e',
  Forall (fun c => close_kind c = Timeout) cs -> close_all e env cs now = (out, e') ->
  en_held e' = en_held e.
Proof.
  induction cs as [|c cs IH]; intros e out e' Hk H; cbn [close_all] in H; [by simplify_eq|].
  apply Forall_cons in Hk as [Hc Hk].
  destruct (close e env c now) as [o1 e1] eqn:E1. destruct (close_all e1 env cs now) as [o2 e2] eqn:E2.
  injection H as <- <-. rewrite (IH _ _ _ Hk E2). by eapply close_timeout_held.
Qed.

Lemma tick_held_sublist e env now wall : en_held (tick e env now wall).2 `sublist_of` en_held e.
Proof.
  unfold tick. destruct (expire (en_tracker e) now) as [cl t1] eqn:Ex.
  assert (Forall (fun c => close_kind c = Timeout) cl) as Hk.
  { unfold expire in Ex. destruct (expire_loop _ _ _) as [o [? ?]]. injection Ex as <- <-.
    apply Forall_forall. intros c Hc. apply list_elem_of_fmap in Hc as (p & -> & _). done. }
  destruct (close_all (set_tracker e t1) env cl now) as [raw1 e1] eqn:E1.
  apply close_all_timeout_held in E1; [|done]. simpl in E1.
  unfold emit_expired_holds. destruct (expired_holds e1 env (en_held e1) now) as [[raw2 held2] e2] eqn:E2.
  apply expired_holds_effect in E2 as (_ & _ & (pre & Hs) & _).
  destruct (recheck_held (set_held e2 held2) env now) as [raw3 e3] eqn:E3.
  apply recheck_absorbs in E3 as [_ Hsub]. simpl in *. rewrite (qt_held _ _ (expire_sends_quiet _ _ _)).
  etransitivity; [exact Hsub|]. rewrite <- E1, Hs. by apply sublist_inserts_l.
Qed.

Lemma drain_stepped c now e s env :
  rep c (en_tracker e) s -> held_ok c e -> c <= now ->
  exists s', stepped now e s [] (drain e env now).1 (drain e env now).2 s' /\
    entries s' = [] /\ en_held (drain e env now).2 = [].
Proof.
  intros R Hok Hc. pose proof (held_ok_mono c now e Hc Hok) as Hokn. unfold drain.
  destruct (drain_all (en_tracker e)) as [cl t1] eqn:Ed.
  destruct (drain_refines c (en_tracker e) s R) as (t1' & Es & R1 & _). cbn [step] in Es.
  rewrite Ed in Es. injection Es as Hcl <-.
  destruct (tracker_op c now (en_tracker e) s ODrain cl t1) as (s1 & R1' & Hi1 & Hf1);
    [done|done|done|done|].
  set (s2 := (spec_step (timeout (en_tracker e)) (capacity (en_tracker e)) s ODrain).2) in *.
  assert (entries s2 = [] /\ fresh_seq s2 = fresh_seq s) as [He2 Hf2] by done.
  destruct (close_all (set_tracker e t1) env cl now) as [raw1 e1] eqn:E1.
  pose proof (close_all_absorbs now env cl (set_tracker e t1) raw1 e1 Hokn E1) as A1.
  destruct (release_holds (set_held e1 []) env (en_held e1) now) as [raw2 e2] eqn:E2.
  destruct (release_holds_effect env now (en_held e1) _ _ _ E2) as [Q2 Hi2].
  exists s2. split; [|split; [done|]].
  - apply stepped_wrap. destruct (Q2) as [Q21 Q22 Q23 Q24].
    cbn [set_held en_held en_tracker en_held_capacity en_counters] in Q21, Q22, Q23, Q24.
    apply (rep_mono c now) in R1; [|done].
    eapply (progress_intro now e (set_tracker e t1) e2 s s2 cl [] (raw1 ++ raw2));
      [exact Hokn|apply quiet_tracker|exact R1| |rewrite Hf2; simpl; lia|].
    + rewrite He2. simpl. rewrite app_nil_r.
      assert (map (fun c0 => event_id (event c0)) cl = ids_of s) as ->; [|done].
      rewrite Hcl. cbn [spec_step fst]. rewrite map_map. done.
    + constructor.
      * rewrite Q21. apply (ab_tracker _ _ _ _ _ A1).
      * rewrite Q24. apply (ab_emitted _ _ _ _ _ A1).
      * rewrite Q23. apply (ab_cap _ _ _ _ _ A1).
      * rewrite Q22. simpl. rewrite app_nil_r, map_app, Hi2. apply (ab_ids _ _ _ _ _ A1).
      * intros Hx. apply (ab_held _ _ _ _ _ A1) in Hx. destruct Hx as (_ & _ & _ & Hcap).
        unfold held_ok. rewrite Q22, Q23. split_and!; try constructor; simpl; try lia.
  - simpl. by rewrite (qt_held _ _ Q2).
Qed.

Lemma step_stepped c e s o :
  rep c (en_tracker e) s -> held_ok c e -> c <= op_clock c o ->
  exists outs e' acc s', engine_step e o = Ok (outs, e') /\
    stepped (op_clock c o) e s acc outs e' s' /\ acc ⊆+ asked o.
Proof.
  intros R Hok Hc. destruct o as [env l3 lo ts now|env now wall|env now|sd| |]; cbn [engine_step op_clock] in *.
  - by eapply packet_stepped.
  - destruct (tick_stepped c now e s env wall R Hok Hc) as [(s' & St) _].
    exists (tick e env now wall).1, (tick e env now wall).2, [], s'. split_and!; [by destruct (tick _ _ _ _)|done|done].
  - destruct (drain_stepped c now e s env R Hok Hc) as (s' & St & _).
    exists (drain e env now).1, (drain e env now).2, [], s'. split_and!; [by destruct (drain _ _ _)|done|done].
  - exists [], (on_send e sd), [], s. split_and!; [done| |done]. apply stepped_quiet; [done|done|apply quiet_on_table].
  - exists [], (latch_procfs e), [], s. split_and!; [done| |done]. apply stepped_quiet; [done|done|].
    unfold latch_procfs. destruct (en_mode e); [apply quiet_mode|apply quiet_refl].
  - exists [], (record_timestamp_fallback e), [], s. split_and!; [done| |done].
    apply stepped_quiet; [done|done|apply quiet_bump].
Qed.

Fixpoint last_clock (c : Z) (ops : list engine_op) : Z :=
  match ops with
  | [] => c
  | o :: ops => last_clock (op_clock c o) ops
  end.

Lemma stepped_trans c c' e1 e2 e3 s1 s2 s3 a1 a2 o1 o2 :
  stepped c e1 s1 a1 o1 e2 s2 -> stepped c' e2 s2 a2 o2 e3 s3 ->
  stepped c' e1 s1 (a1 ++ a2) (o1 ++ o2) e3 s3.
Proof.
  intros (r1 & -> & _ & _ & C1 & P1 & F1 & N1) (r2 & -> & R2 & K2 & C2 & P2 & F2 & N2). exists (r1 ++ r2).
  split_and!; [by rewrite map_app|done|done|congruence| |rewrite length_app; lia|rewrite length_app; lia].
  rewrite map_app, <- !app_assoc, P2.
  transitivity (a2 ++ (map event_id r1 ++ map hold_id (en_held e2) ++ ids_of s2)); [solve_Permutation|].
  rewrite P1. solve_Permutation.
Qed.

Lemma run_stepped ops : forall c e s,
  rep c (en_tracker e) s -> held_ok c e -> on_time c ops ->
  exists outs e' acc s', engine_run e ops = Ok (outs, e') /\
    stepped (last_clock c ops) e s acc outs e' s' /\ acc ⊆+ flat_map asked ops.
Proof.
  induction ops as [|o ops IH]; intros c e s R Hok Ht; cbn [engine_run last_clock flat_map].
  { exists [], e, [], s. split_and!; [done| |done]. apply stepped_quiet; [done|done|apply quiet_refl]. }
  destruct Ht as [Hc Ht]. destruct (step_stepped c e s o R Hok Hc) as (o1 & e1 & a1 & s1 & -> & St1 & Ha1).
  cbn [obind]. pose proof St1 as (_ & _ & R1 & K1 & _).
  destruct (IH _ e1 s1 R1 K1 Ht) as (o2 & e2 & a2 & s2 & -> & St2 & Ha2). cbn [obind].
  exists (o1 ++ o2), e2, (a1 ++ a2), s2. split_and!; [done|by eapply stepped_trans|].
  by apply submseteq_app.
Qed.

Lemma held_ok_new c mode timeout capacity : held_ok c (engine_new mode timeout capacity).
Proof. unfold held_ok. simpl. split_and!; try constructor; lia. Qed.

Lemma pending_values c t s :
  rep c t s -> map pending_id (map snd (map_to_list (pending t))) ≡ₚ ids_of s.
Proof.
  intros R. rewrite (rep_pending _ _ _ R), map_map.
  by rewrite (map_to_list_to_map (M := gmap TxKey) (entries s)) by apply R.
Qed.

Lemma raw_events_inj (l l' : list DnsEventRaw) : map RDns l = map RDns l' -> l = l'.
Proof.
  revert l'. induction l as [|x l IH]; intros [|y l'] H; simplify_eq/=; [done|]. f_equal. by apply IH.
Qed.

(** ** Credit: which sends the events are attributed to *)

Definition owner_of (ev : DnsEventRaw) : Attribution :=
  {| at_pid := de_pid ev; at_uid := de_uid ev; at_exe_path := de_exe_path ev; at_comm := de_comm ev |}.

(** An attribution that names a process. *)
Definition named (a : Attribution) : list Attribution :=
  match at_pid a with Some _ => [a] | None => [] end.

Definition credit (ev : DnsEventRaw) : list Attribution := named (owner_of ev).

Abbreviation credits out := (flat_map credit out).
Abbreviation hold_credits hs := (flat_map (fun h => credit (h_event h)) hs).
Abbreviation owed_credits s := (flat_map (fun x => named (attribution x.2)) (entries s)).
Abbreviation owners hits := (map (fun x => e_owner x.2) hits).

Lemma named_sub a : named a ⊆+ [a].
Proof. unfold named. destruct (at_pid a); [done|apply submseteq_nil_l]. Qed.

Lemma owner_of_apply ev a : owner_of (apply ev a) = a.
Proof. by destruct a. Qed.

Definition funded (e : Engine) (inc : list Attribution) (out : list DnsEventRaw) (e' : Engine) : Prop :=
  forall t, en_mode e = Kernel t -> wf t ->
  exists t' hits lost, en_mode e' = Kernel t' /\ wf t' /\ moves t t' [] hits lost /\
    credits out ++ hold_credits (en_held e') ⊆+ owners hits ++ inc ++ hold_credits (en_held e).

Lemma funded_trans e1 e2 e3 i1 i2 o1 o2 :
  funded e1 i1 o1 e2 -> funded e2 i2 o2 e3 -> funded e1 (i1 ++ i2) (o1 ++ o2) e3.
Proof.
  intros F1 F2 t Hm W. destruct (F1 t Hm W) as (t1 & h1 & l1 & Hm1 & W1 & M1 & S1).
  destruct (F2 t1 Hm1 W1) as (t2 & h2 & l2 & Hm2 & W2 & M2 & S2).
  exists t2, (h1 ++ h2), (l1 ++ l2). split_and!; [done|done|by apply (moves_trans _ _ _ _ _ _ _ _ _ M1 M2)|].
  rewrite flat_map_app, <- app_assoc, map_app.
  etransitivity; [apply submseteq_skips_l, S2|].
  transitivity (owners h2 ++ i2 ++ (credits o1 ++ hold_credits (en_held e2))).
  { apply Permutation_submseteq. solve_Permutation. }
  etransitivity; [apply submseteq_skips_l, submseteq_skips_l, S1|].
  apply Permutation_submseteq. solve_Permutation.
Qed.

Lemma funded_weaken e i i' o e' : i ⊆+ i' -> funded e i o e' -> funded e i' o e'.
Proof.
  intros Hi F t Hm W. destruct (F t Hm W) as (t' & h & l & Hm' & W' & M & S).
  exists t', h, l. split_and!; try done. etransitivity; [exact S|].
  by apply submseteq_skips_l, submseteq_app.
Qed.

(** Steps that leave mode and holds alone. *)
Lemma funded_same e e' : en_mode e' = en_mode e -> en_held e' = en_held e -> funded e [] [] e'.
Proof.
  intros H1 H2 t Hm W. exists t, [], []. rewrite H1, H2. split_and!; try done. apply moves_refl.
Qed.

Lemma funded_out e e' ev :
  en_mode e' = en_mode e -> en_held e' = en_held e -> funded e (credit ev) [ev] e'.
Proof.
  intros H1 H2 t Hm W. exists t, [], []. rewrite H1, H2. split_and!; try done; [apply moves_refl|].
  simpl. by rewrite app_nil_r.
Qed.

Lemma funded_abandon e id : funded e [] [] (abandon_claim e id).
Proof.
  intros t Hm W. unfold abandon_claim, on_claim_table, claim_table, set_claim_table. rewrite Hm.
  destruct (abandon_wf t id W) as (lost & W' & M). exists (abandon t id), [], lost. by split_and!.
Qed.

Lemma resolve_funds e env p c now r e' t :
  en_mode e = Kernel t -> wf t -> resolve e env p c now = (r, e') ->
  exists t' hits lost, en_mode e' = Kernel t' /\ wf t' /\ moves t t' [] hits lost /\
    owners hits = match r with Done a => [a] | Miss => [] end /\ en_held e' = en_held e.
Proof.
  intros Hm W. unfold resolve. rewrite Hm.
  destruct (take_claimed t (claim p) (pa_key p) (pa_laddr p) (packet_ts_ns p)) as [hit t'] eqn:E.
  destruct (take_claimed_wf _ _ _ _ _ _ _ W E) as (o & lost & W' & -> & M & _).
  destruct o as [x|]; simpl; intros [= <- <-]; exists t', (tag (pa_key p) (option_list (Some x))), lost || exists t', [], lost; by split_and!.
Qed.

Lemma overflow_funded e out e' : overflow_hold e = (out, e') -> funded e [] out e'.
Proof.
  unfold overflow_hold. destruct (_ <=? _)%nat.
  2:{ intros [= <- <-]. by apply funded_same. }
  destruct (en_held e) as [|h rest] eqn:Eh; intros [= <- <-]; [by apply funded_same|].
  intros t Hm W. destruct (funded_abandon (set_held e rest) (claim (h_pending h)) t Hm W)
    as (t' & hits & lost & Hm' & W' & M & S).
  exists t', hits, lost. split_and!; try done. simpl. rewrite Eh. simpl. rewrite app_nil_r.
  etransitivity; [apply submseteq_skips_l, S|]. apply Permutation_submseteq. simpl. solve_Permutation.
Qed.

Lemma hold_funded e ev client p now : funded e (credit ev) [] (hold e ev client p now).
Proof.
  intros t Hm W. exists t, [], []. split_and!; try done; [apply moves_refl|].
  unfold hold. simpl. rewrite flat_map_app. simpl. rewrite app_nil_r.
  apply Permutation_submseteq, Permutation_app_comm.
Qed.

Lemma close_funded e env c now out e' :
  close e env c now = (out, e') -> funded e (credit (event c)) out e'.
Proof.
  unfold close. destruct (closed_pending c) as [p|].
  2:{ intros [= <- <-]. by apply funded_out. }
  destruct (resolve e env p (client c) now) as [r e1] eqn:Er. intros H t Hm W.
  destruct (resolve_funds e env p (client c) now r e1 t Hm W Er) as (t1 & h1 & l1 & Hm1 & W1 & M1 & Ho & Hh).
  destruct r as [a|].
  - injection H as <- <-. exists t1, h1, l1. split_and!; try done. rewrite Ho, Hh. simpl. rewrite app_nil_r.
    unfold credit at 1. rewrite owner_of_apply.
    change (a :: ?l) with ([a] ++ l). apply submseteq_app; [apply named_sub|].
    apply submseteq_inserts_l. done.
  - assert (funded e1 (credit (event c)) out e') as F.
    { destruct (close_kind c).
      - destruct (overflow_hold e1) as [o2 e2] eqn:Eo. injection H as <- <-.
        apply overflow_funded in Eo. rewrite <- (app_nil_r o2).
        eapply (funded_trans e1 e2 _ [] (credit (event c))); [exact Eo|].
        eapply (funded_trans e2 (bump e2 0 0 0 0 0 0 0 0 1 0) _ [] (credit (event c)) []);
          [by apply funded_same|apply hold_funded].
      - injection H as <- <-.
        eapply (funded_trans e1 (abandon_claim e1 (claim p)) _ [] (credit (event c)) []);
          [apply funded_abandon|by apply funded_out].
      - injection H as <- <-.
        eapply (funded_trans e1 (abandon_claim e1 (claim p)) _ [] (credit (event c)) []);
          [apply funded_abandon|by apply funded_out]. }
    destruct (F t1 Hm1 W1) as (t2 & h2 & l2 & Hm2 & W2 & M2 & S2).
    exists t2, (h1 ++ h2), (l1 ++ l2). split_and!; [done|done|by apply (moves_trans _ _ _ _ _ _ _ _ _ M1 M2)|].
    rewrite map_app, Ho. simpl. by rewrite Hh in S2.
Qed.

Lemma close_all_funded env now cs : forall e out e',
  close_all e env cs now = (out, e') -> funded e (flat_map (fun c => credit (event c)) cs) out e'.
Proof.
  induction cs as [|c cs IH]; intros e out e' H; cbn [close_all flat_map] in *.
  { injection H as <- <-. by apply funded_same. }
  destruct (close e env c now) as [o1 e1] eqn:E1. destruct (close_all e1 env cs now) as [o2 e2] eqn:E2.
  injection H as <- <-. eapply funded_trans; [by eapply close_funded|by apply IH].
Qed.

(** A hold that leaves the list, with its owner if its record came. *)
Lemma release_hold_funded e env h now ev e' :
  release_hold e env h now = (ev, e') -> funded e (credit (h_event h)) [ev] e'.
Proof.
  unfold release_hold. destruct (resolve e env (h_pending h) (h_client h) now) as [r e1] eqn:Er.
  intros H t Hm W.
  destruct (resolve_funds _ _ _ _ _ _ _ t Hm W Er) as (t1 & h1 & l1 & Hm1 & W1 & M1 & Ho & Hh).
  destruct r as [a|].
  - injection H as <- <-. exists t1, h1, l1. split_and!; try done. rewrite Ho, Hh. cbn [flat_map app].
    rewrite app_nil_r. unfold credit at 1. rewrite owner_of_apply.
    change (a :: ?l) with ([a] ++ l). apply submseteq_app; [apply named_sub|by apply submseteq_inserts_l].
  - assert (funded e1 (credit (h_event h)) [h_event h] e') as F.
    { injection H as <- <-.
      eapply (funded_trans e1 (abandon_claim e1 _) _ [] (credit (h_event h)) []);
        [apply funded_abandon|by apply funded_out]. }
    destruct (F t1 Hm1 W1) as (t2 & h2 & l2 & Hm2 & W2 & M2 & S2).
    exists t2, (h1 ++ h2), (l1 ++ l2). injection H as <- _.
    split_and!; [done|done|by apply (moves_trans _ _ _ _ _ _ _ _ _ M1 M2)|].
    rewrite map_app, Ho. rewrite Hh in S2. exact S2.
Qed.

Lemma release_holds_funded env now held : forall e out e',
  release_holds e env held now = (out, e') -> funded e (hold_credits held) out e'.
Proof.
  induction held as [|h held IH]; intros e out e' H; cbn [release_holds flat_map] in *.
  { injection H as <- <-. by apply funded_same. }
  destruct (release_hold e env h now) as [ev e1] eqn:E1.
  destruct (release_holds e1 env held now) as [o2 e2] eqn:E2. injection H as <- <-.
  eapply (funded_trans e e1 e2 (credit (h_event h)) _ [ev]); [by eapply release_hold_funded|by apply IH].
Qed.

Lemma expired_holds_funded env now held : forall e out held' e',
  expired_holds e env held now = (out, held', e') ->
  exists gone, held = gone ++ held' /\ funded e (hold_credits gone) out e'.
Proof.
  induction held as [|h held IH]; intros e out held' e' H; cbn [expired_holds] in H.
  { simplify_eq. exists []. split; [done|by apply funded_same]. }
  destruct (h_deadline h <=? now).
  - destruct (release_hold e env h now) as [ev e1] eqn:E1.
    destruct (expired_holds e1 env held now) as [[o1 h1] e2] eqn:E2. injection H as <- <- <-.
    destruct (IH _ _ _ _ E2) as (gone & -> & F). exists (h :: gone). split; [done|]. cbn [flat_map].
    eapply (funded_trans e e1 e2 (credit (h_event h)) _ [ev]); [by eapply release_hold_funded|exact F].
  - injection H as <- <- <-. exists []. split; [done|by apply funded_same].
Qed.

Lemma emit_expired_funded e env now out e' : emit_expired_holds e env now = (out, e') -> funded e [] out e'.
Proof.
  unfold emit_expired_holds. destruct (expired_holds e env (en_held e) now) as [[o h] e1] eqn:E.
  intros [= <- <-] t Hm W. destruct (expired_holds_effect env now _ _ _ _ _ E) as (Q & _).
  destruct (expired_holds_funded env now _ _ _ _ _ E) as (gone & Hh & F).
  destruct (F t Hm W) as (t1 & hits & lost & Hm1 & W1 & M & S). exists t1, hits, lost. split_and!; try done.
  rewrite (qt_held _ _ Q) in S. rewrite app_assoc in S. apply submseteq_app_inv_r in S.
  cbn [set_held en_held app]. rewrite Hh, flat_map_app, app_assoc. by apply submseteq_skips_r.
Qed.

Lemma partition_funds env now held : forall e misses hs e' t,
  partition_holds held e env now = (misses, hs, e') -> en_mode e = Kernel t -> wf t ->
  exists t' hits lost, en_mode e' = Kernel t' /\ wf t' /\ moves t t' [] hits lost /\
    hold_credits hs ++ hold_credits misses ⊆+ owners hits ++ hold_credits held.
Proof.
  induction held as [|h held IH]; intros e misses hs e' t H Hm W; cbn [partition_holds] in H.
  { simplify_eq. exists t, [], []. split_and!; try done. apply moves_refl. }
  destruct (resolve e env (h_pending h) (h_client h) now) as [r e1] eqn:Er.
  destruct (partition_holds held e1 env now) as [[ms hs2] e2] eqn:Ep.
  destruct (resolve_funds _ _ _ _ _ _ _ t Hm W Er) as (t1 & h1 & l1 & Hm1 & W1 & M1 & Ho & _).
  destruct (IH _ _ _ _ t1 Ep Hm1 W1) as (t2 & h2 & l2 & Hm2 & W2 & M2 & S).
  destruct r as [a|]; injection H as <- <- <-; exists t2, (h1 ++ h2), (l1 ++ l2);
    (split_and!; [done|done|by apply (moves_trans _ _ _ _ _ _ _ _ _ M1 M2)|]);
    rewrite map_app, Ho; cbn [flat_map app].
  - unfold credit at 1. cbn [credit_hold h_event]. rewrite owner_of_apply, <- app_assoc.
    change (a :: ?l) with ([a] ++ l). apply submseteq_app; [apply named_sub|].
    etransitivity; [exact S|]. apply submseteq_skips_l. by apply submseteq_inserts_l.
  - transitivity (credit (h_event h) ++ (hold_credits hs2 ++ hold_credits ms)).
    { apply Permutation_submseteq. solve_Permutation. }
    etransitivity; [apply submseteq_skips_l, S|]. apply Permutation_submseteq. solve_Permutation.
Qed.

Lemma recheck_funded e env now out e' : recheck_held e env now = (out, e') -> funded e [] out e'.
Proof.
  unfold recheck_held. destruct (en_held e) as [|h0 held] eqn:Eh.
  { intros [= <- <-]. by apply funded_same. }
  destruct (recheck_due e now); cbn [negb]; [|intros [= <- <-]; by apply funded_same].
  set (e1 := set_marks e _ _). assert (en_held e1 = h0 :: held) as Eh1 by done. rewrite Eh1.
  destruct (partition_holds (h0 :: held) e1 env now) as [[ms hs] e2] eqn:Ep.
  destruct (recheck_loop_all _ _ _ _ _ _ _ Ep) as (hs' & HP & ->). intros [= <- <-] t Hm W.
  destruct (partition_funds env now _ _ _ _ _ t Ep Hm W) as (t1 & hits & lost & Hm1 & W1 & M & S).
  exists t1, hits, lost. split_and!; try done. rewrite drop_app_length, take_app_length, Eh.
  cbn [set_held en_held]. rewrite flat_map_concat_map, map_map, <- flat_map_concat_map.
  rewrite (Permutation_flat_map (fun x => credit (h_event x)) HP). exact S.
Qed.

Lemma expire_sends_funded e now wall : funded e [] [] (expire_sends e now wall).
Proof.
  intros t Hm W. unfold expire_sends. rewrite Hm. destruct (match _ with Some _ => _ | None => _ end).
  - destruct (expire_wf t wall W) as (lost & W' & M). exists (table_expire t wall), [], lost. by split_and!.
  - exists t, [], []. split_and!; try done. apply moves_refl.
Qed.

(** *** The tracker keeps the credits it was given *)

Definition given (o : op) : list Attribution :=
  match o with
  | OQuery _ _ a _ _ _ | OResolve _ a => named a
  | _ => []
  end.

Lemma closed_credit p k ips ttl : credit (event (DnsTracker.close p k ips ttl)) = named (attribution p).
Proof. unfold credit, DnsTracker.close. simpl. f_equal. unfold owner_of. simpl. by destruct (attribution p). Qed.

Lemma closed_credits (g : TxKey * Pending -> Closed) (l : list (TxKey * Pending)) :
  (forall x, credit (event (g x)) = named (attribution x.2)) ->
  flat_map (fun c => credit (event c)) (map g l) = flat_map (fun x => named (attribution x.2)) l.
Proof.
  intros Hg. rewrite flat_map_concat_map, map_map, flat_map_concat_map. f_equal. by apply map_ext.
Qed.

Lemma amend_absent k f (l : list (TxKey * Pending)) : k ∉ map fst l -> amend k f l = l.
Proof.
  unfold amend. induction l as [|[k' p] l IH]; simpl; intros H; [done|].
  apply not_elem_of_cons in H as [H1 H2]. rewrite decide_False by done. f_equal. by apply IH.
Qed.

Lemma amend_credits k f a (l : list (TxKey * Pending)) :
  NoDup (map fst l) -> (forall p, f p = p \/ attribution (f p) = a) ->
  flat_map (fun x => named (attribution x.2)) (amend k f l) ⊆+
    named a ++ flat_map (fun x => named (attribution x.2)) l.
Proof.
  intros Hn Hf. induction l as [|[k' p] l IH]; [apply submseteq_nil_l|].
  cbn [map fst] in Hn. apply NoDup_cons in Hn as [Hk Hn]. specialize (IH Hn).
  change (amend k f ((k', p) :: l)) with
    ((if decide (k' = k) then (k', f p) else (k', p)) :: amend k f l). cbn [flat_map].
  destruct (decide (k' = k)) as [->|Hne]; cbn [snd].
  - rewrite amend_absent by done. destruct (Hf p) as [->| ->].
    + by apply submseteq_inserts_l.
    + apply submseteq_skips_l. by apply submseteq_inserts_l.
  - etransitivity; [apply submseteq_skips_l, IH|]. apply Permutation_submseteq. solve_Permutation.
Qed.

Lemma spec_step_credits tmo cap s o :
  NoDup (map fst (entries s)) ->
  let '(out, s') := spec_step tmo cap s o in
  flat_map (fun c => credit (event c)) out ++ owed_credits s' ⊆+ given o ++ owed_credits s.
Proof.
  intros Hn. destruct o as [key msg a ow ts now|key msg|key a|now|]; cbn [spec_step given].
  - destruct (question msg) as [q|]; [|by apply submseteq_inserts_l].
    destruct (find_entry key (entries s)) as [p|]; [by apply submseteq_inserts_l|].
    unfold spec_evict. set (p := {| seq := _; deadline := _ |}).
    change (named a) with (named (attribution p)).
    destruct (cap <=? List.length (entries s))%nat; [destruct (entries s) as [|[k0 p0] l] eqn:El|];
      cbn [flat_map app entries]; apply Permutation_submseteq;
      rewrite ?closed_credit, ?flat_map_app; cbn [flat_map snd]; solve_Permutation.
  - destruct (find_entry key (entries s)) as [p|] eqn:Ef; [|done].
    destruct (collect_answers _ _ _) as [ips ttl]. cbn [flat_map app entries].
    rewrite closed_credit, app_nil_r. apply Permutation_submseteq.
    by rewrite (Permutation_flat_map _ (without_ids key p (entries s) Hn Ef)).
  - cbn [flat_map app entries]. apply amend_credits; [done|]. intros p. destruct (owed p); [by right|by left].
  - cbn [entries app]. rewrite closed_credits by (intros; apply closed_credit). apply Permutation_submseteq.
    rewrite <- flat_map_app. apply Permutation_flat_map.
    rewrite (filter_negb_perm (fun x => negb (deadline x.2 <=? now)) (entries s)) at 3.
    rewrite (filter_ext (fun x : TxKey * Pending => negb (negb (deadline x.2 <=? now)))
      (fun x => deadline x.2 <=? now)) by (intros; apply negb_involutive). done.
  - cbn [entries app flat_map]. rewrite app_nil_r, closed_credits by (intros; apply closed_credit). done.
Qed.

Lemma tracker_credit c now t s o out t' :
  rep c t s -> c <= now -> (forall k m a ow ts n, o = OQuery k m a ow ts n -> n = now) ->
  step t o = (out, t') ->
  exists s', rep now t' s' /\
    flat_map (fun c => credit (event c)) out ++ owed_credits s' ⊆+ given o ++ owed_credits s.
Proof.
  intros R Hc Ho H. destruct (tracker_refined c now t s o out t' R Hc Ho H) as [-> R'].
  pose proof (spec_step_credits (timeout t) (capacity t) s o (rep_keys _ _ _ R)) as Hi.
  destruct (spec_step (timeout t) (capacity t) s o) as [o1 s']. by exists s'.
Qed.

(** *** A step of the engine *)

(** Every credit in [e'], [s'] and [out] was there before or is a send handed out. *)
Definition paid (e : Engine) (s : spec) (out : list DnsEventRaw) (e' : Engine) (s' : spec) : Prop :=
  forall t, en_mode e = Kernel t -> wf t ->
  exists t' hits lost, en_mode e' = Kernel t' /\ wf t' /\ moves t t' [] hits lost /\
    credits out ++ hold_credits (en_held e') ++ owed_credits s' ⊆+
      owners hits ++ hold_credits (en_held e) ++ owed_credits s.

Lemma paid_trans e1 e2 e3 s1 s2 s3 o1 o2 :
  paid e1 s1 o1 e2 s2 -> paid e2 s2 o2 e3 s3 -> paid e1 s1 (o1 ++ o2) e3 s3.
Proof.
  intros F1 F2 t Hm W. destruct (F1 t Hm W) as (t1 & h1 & l1 & Hm1 & W1 & M1 & S1).
  destruct (F2 t1 Hm1 W1) as (t2 & h2 & l2 & Hm2 & W2 & M2 & S2).
  exists t2, (h1 ++ h2), (l1 ++ l2). split_and!; [done|done|by apply (moves_trans _ _ _ _ _ _ _ _ _ M1 M2)|].
  rewrite flat_map_app, <- app_assoc, map_app. etransitivity; [apply submseteq_skips_l, S2|].
  transitivity (owners h2 ++ (credits o1 ++ hold_credits (en_held e2) ++ owed_credits s2)).
  { apply Permutation_submseteq. solve_Permutation. }
  etransitivity; [apply submseteq_skips_l, S1|]. apply Permutation_submseteq. solve_Permutation.
Qed.

Lemma paid_funded e s inc out e' s' :
  funded e inc out e' -> inc ++ owed_credits s' ⊆+ owed_credits s -> paid e s out e' s'.
Proof.
  intros F Hs t Hm W. destruct (F t Hm W) as (t' & h & l & Hm' & W' & M & S).
  exists t', h, l. split_and!; try done. rewrite app_assoc. etransitivity; [apply submseteq_skips_r, S|].
  transitivity (owners h ++ hold_credits (en_held e) ++ (inc ++ owed_credits s')).
  { apply Permutation_submseteq. solve_Permutation. }
  by apply submseteq_skips_l, submseteq_skips_l.
Qed.

Lemma paid_quiet e s e' : en_mode e' = en_mode e -> en_held e' = en_held e -> paid e s [] e' s.
Proof. intros H1 H2. eapply paid_funded; [by apply funded_same|done]. Qed.

(** What a query is given comes from the table. *)
Lemma attribute_paid c now e s env key server ts a pend e' :
  rep c (en_tracker e) s -> c <= now -> attribute_query e env key server ts now = (a, pend, e') ->
  exists s', rep now (en_tracker e') s' /\
  forall t, en_mode e = Kernel t -> wf t ->
  exists t' hits lost, en_mode e' = Kernel t' /\ wf t' /\ moves t t' [] hits lost /\
    named a ++ hold_credits (en_held e') ++ owed_credits s' ⊆+
      owners hits ++ hold_credits (en_held e) ++ owed_credits s.
Proof.
  intros R Hc. unfold attribute_query. destruct (en_mode e) as [t0|].
  2:{ destruct (procfs_owner e env (tx_client key) now) as [b e1] eqn:E. apply procfs_owner_quiet in E.
      intros [= <- <- <-]. exists s. split; [rewrite (qt_tracker _ _ E); by eapply rep_mono|done]. }
  pose proof (rep_mono _ _ _ _ Hc R) as Rn.
  destruct (table_take t0 _ _ _) as [hit t1] eqn:Et. unfold table_take in Et.
  assert (wf t0 -> exists o lost, wf t1 /\ hit = option_map e_owner o /\
    moves t0 t1 [] (tag (send_key (tx_client key) server) (option_list o)) lost) as Htake.
  { intros W. destruct (take_wf _ _ _ _ _ _ _ W Et) as (o & lost & W1 & _ & Hh & M & _). by exists o, lost. }
  destruct (contains (en_tracker e) key).
  - destruct hit as [b|].
    2:{ intros [= <- <- <-]. exists s. split; [done|]. intros t [= <-] W.
        destruct (Htake W) as (o & lost & W1 & Hh & M). exists t1. do 2 eexists.
        split_and!; [done|done|exact M|]. by apply submseteq_inserts_l. }
    cbn [en_tracker set_mode]. destruct (resolve_pending (en_tracker e) key b) as [ow tr] eqn:Er.
    destruct (tracker_credit c now (en_tracker e) s (OResolve key b) [] tr) as (s' & R' & Hi);
      [done|done|done|cbn [step]; by rewrite Er|]. cbn [flat_map app given] in Hi.
    assert (forall t2 hits lost' l e2, en_held e2 = en_held e -> wf t0 -> moves t1 t2 [] hits lost' ->
      en_mode e2 = Kernel t2 -> wf t2 -> l = @nil Attribution ->
      exists t' hits lost, en_mode e2 = Kernel t' /\ wf t' /\ moves t0 t' [] hits lost /\
        l ++ hold_credits (en_held e2) ++ owed_credits s' ⊆+
          owners hits ++ hold_credits (en_held e) ++ owed_credits s) as Hfin.
    { intros t2 hits lost' l e2 Hh W M2 Hm2 W2 ->. destruct (Htake W) as (o & lost & W1 & Ho & M1).
      destruct o as [x|]; [|done]. injection Ho as ->.
      exists t2. do 2 eexists. split_and!; [done|done|by apply (moves_trans _ _ _ _ _ _ _ _ _ M1 M2)|].
      rewrite map_app, Hh. cbn [app]. etransitivity; [apply submseteq_skips_l, Hi|].
      transitivity ([e_owner x] ++ hold_credits (en_held e) ++ owed_credits s).
      - transitivity (named (e_owner x) ++ hold_credits (en_held e) ++ owed_credits s).
        + apply Permutation_submseteq. solve_Permutation.
        + apply submseteq_app; [apply named_sub|done].
      - apply submseteq_app; [|done]. by apply submseteq_inserts_r. }
    destruct ow as [o|].
    + destruct (take_claimed t1 (claim o) (pa_key o) (pa_laddr o) (packet_ts_ns o)) as [own t2] eqn:Ec.
      intros [= <- <- <-]. exists s'. split; [done|]. intros t [= <-] W.
      destruct (Htake W) as (_ & _ & W1 & _). destruct (take_claimed_wf _ _ _ _ _ _ _ W1 Ec) as (x & l2 & W2 & _ & M2 & _).
      destruct own as [ow|].
      * eapply (Hfin t2); [done|done|exact M2|done..].
      * destruct (abandon_wf t2 (claim o) W2) as (l3 & W3 & M3).
        eapply (Hfin (abandon t2 (claim o))); [done|done|by apply (moves_trans _ _ _ _ _ _ _ _ _ M2 M3)|done..].
    + intros [= <- <- <-]. exists s'. split; [done|]. intros t [= <-] W. destruct (Htake W) as (_ & _ & W1 & _).
      eapply (Hfin t1); [done|done|apply moves_refl|done..].
  - destruct hit as [b|].
    + intros [= <- <- <-]. exists s. split; [done|]. intros t [= <-] W.
      destruct (Htake W) as (o & lost & W1 & Ho & M1). destruct o as [x|]; [|done]. injection Ho as ->.
      exists t1. do 2 eexists. split_and!; [done|done|exact M1|]. apply submseteq_app; [apply named_sub|done].
    + destruct (table_claim t1 _ _ _) as [cl t2] eqn:Ec. intros [= <- <- <-]. exists s. split; [done|].
      intros t [= <-] W. destruct (Htake W) as (o & lost & W1 & _ & M1).
      destruct (claim_wf t1 (send_key (tx_client key) server) (sa_ip (tx_client key)) ts W1) as [W2 M2].
      rewrite Ec in W2, M2. exists t2. do 2 eexists.
      split_and!; [done|done|by apply (moves_trans _ _ _ _ _ _ _ _ _ M1 M2)|]. by apply submseteq_inserts_l.
Qed.

Lemma close_opt_funded e env cl now out e' :
  match cl with Some c => close e env c now | None => ([], e) end = (out, e') ->
  funded e (flat_map (fun c => credit (event c)) (option_list cl)) out e'.
Proof.
  destruct cl as [c|]; intros H; cbn [option_list flat_map].
  - change (option_list (Some c)) with [c]. cbn [flat_map]. rewrite app_nil_r. by eapply close_funded.
  - injection H as <- <-. by apply funded_same.
Qed.

(** The transactions an operation closes, settled. *)
Lemma closing_paid e s s' cl t out e' :
  flat_map (fun c => credit (event c)) cl ++ owed_credits s' ⊆+ owed_credits s ->
  funded (set_tracker e t) (flat_map (fun c => credit (event c)) cl) out e' -> paid e s out e' s'.
Proof. intros Hs F. eapply paid_funded; [|exact Hs]. exact F. Qed.

Lemma query_paid c now e s env dg msg local_origin ts raw e' :
  rep c (en_tracker e) s -> c <= now -> on_query_packet e env dg msg local_origin ts now = (raw, e') ->
  exists s', rep now (en_tracker e') s' /\ paid e s raw e' s'.
Proof.
  intros R Hc. unfold on_query_packet. set (key := {| tx_client := _; tx_server := _ |}).
  destruct (if negb local_origin then _ else _) as [[a pend] e1] eqn:Ea.
  assert (exists s1, rep now (en_tracker e1) s1 /\
    forall t, en_mode e = Kernel t -> wf t ->
    exists t' hits lost, en_mode e1 = Kernel t' /\ wf t' /\ moves t t' [] hits lost /\
      named a ++ hold_credits (en_held e1) ++ owed_credits s1 ⊆+
        owners hits ++ hold_credits (en_held e) ++ owed_credits s) as (s1 & R1 & P1).
  { destruct (negb local_origin); [|by eapply attribute_paid]. injection Ea as <- <- <-. exists s.
    split; [by eapply rep_mono|]. intros t Hm W. exists t, [], []. split_and!; try done. apply moves_refl. }
  destruct (on_query (en_tracker e1) key msg a pend ts now) as [cl t2] eqn:Eq.
  destruct (tracker_credit now now (en_tracker e1) s1 (OQuery key msg a pend ts now) (option_list cl) t2)
    as (s2 & R2 & Hi2); [done|lia|naive_solver|cbn [step]; by rewrite Eq|]. cbn [given] in Hi2.
  destruct (match cl with Some c0 => _ | None => _ end) as [out e2] eqn:Ec.
  pose proof (close_opt_funded _ env cl now out e2 Ec) as F2.
  assert (en_tracker e2 = t2) as Et2.
  { destruct cl as [c0|]; [|by injection Ec as _ <-].
    apply close_tracker in Ec. by rewrite Ec. }
  set (e3 := match pend with Some p => _ | None => _ end).
  assert (funded e2 [] [] e3) as F3.
  { subst e3. destruct pend as [p|]; [|by apply funded_same].
    destruct (contains _ _); [by apply funded_same|apply funded_abandon]. }
  intros [= <- <-]. exists s2. split.
  { subst e3. destruct pend as [p|]; [|by rewrite Et2]. destruct (contains _ _); [by rewrite Et2|].
    unfold abandon_claim. rewrite (qt_tracker _ _ (quiet_on_table _ _)). by rewrite Et2. }
  intros t Hm W. destruct (P1 t Hm W) as (t1 & h1 & l1 & Hm1 & W1 & M1 & S1).
  destruct (funded_trans _ _ _ _ _ _ _ F2 F3 t1 Hm1 W1) as (t3 & h3 & l3 & Hm3 & W3 & M3 & S3).
  rewrite !app_nil_r in S3. exists t3, (h1 ++ h3), (l1 ++ l3).
  split_and!; [done|done|by apply (moves_trans _ _ _ _ _ _ _ _ _ M1 M3)|].
  rewrite app_assoc, map_app. etransitivity; [apply submseteq_skips_r, S3|]. cbn [set_tracker en_held].
  transitivity (owners h3 ++ hold_credits (en_held e1) ++ (named a ++ owed_credits s1)).
  { etransitivity; [|apply submseteq_skips_l, submseteq_skips_l, Hi2]. apply Permutation_submseteq. solve_Permutation. }
  transitivity (owners h3 ++ (named a ++ hold_credits (en_held e1) ++ owed_credits s1)).
  { apply Permutation_submseteq. solve_Permutation. }
  etransitivity; [apply submseteq_skips_l, S1|]. apply Permutation_submseteq. solve_Permutation.
Qed.

Lemma response_paid c now e s env dg msg raw e' :
  rep c (en_tracker e) s -> c <= now -> on_response_packet e env dg msg now = (raw, e') ->
  exists s', rep now (en_tracker e') s' /\ paid e s raw e' s'.
Proof.
  intros R Hc. unfold on_response_packet. set (key := {| tx_client := _; tx_server := _ |}).
  destruct (on_response (en_tracker e) key msg) as [cl t2] eqn:Eq.
  destruct (tracker_credit c now (en_tracker e) s (OResponse key msg) (option_list cl) t2)
    as (s2 & R2 & Hi2); [done|lia|done|cbn [step]; by rewrite Eq|].
  intros Ec. exists s2. split.
  - destruct cl as [c0|]; [by rewrite (close_tracker _ _ _ _ _ _ Ec)|by injection Ec as _ <-].
  - eapply closing_paid; [exact Hi2|]. by eapply close_opt_funded.
Qed.

Lemma tick_paid c now e s env wall :
  rep c (en_tracker e) s -> c <= now ->
  exists raw s', (tick e env now wall).1 = map RDns raw /\
    rep now (en_tracker (tick e env now wall).2) s' /\ paid e s raw (tick e env now wall).2 s'.
Proof.
  intros R Hc. unfold tick. destruct (expire (en_tracker e) now) as [cl t1] eqn:Ex.
  destruct (tracker_credit c now (en_tracker e) s (OExpire now) cl t1) as (s1 & R1 & Hi1);
    [done|done|done|done|].
  destruct (close_all (set_tracker e t1) env cl now) as [raw1 e1] eqn:E1.
  destruct (emit_expired_holds e1 env now) as [raw2 e2] eqn:E2.
  destruct (recheck_held e2 env now) as [raw3 e3] eqn:E3.
  exists (raw1 ++ raw2 ++ raw3), s1. split; [done|]. split.
  - simpl. rewrite (qt_tracker _ _ (expire_sends_quiet _ _ _)).
    rewrite (ab_tracker _ _ _ _ _ (proj1 (recheck_absorbs _ _ _ _ _ E3))).
    rewrite (ab_tracker _ _ _ _ _ (proj1 (emit_expired_absorbs _ _ _ _ _ E2))).
    by rewrite (close_all_tracker _ _ _ _ _ _ E1).
  - apply close_all_funded in E1. apply emit_expired_funded in E2. apply recheck_funded in E3.
    pose proof (funded_trans _ _ _ _ _ _ _ E1 (funded_trans _ _ _ _ _ _ _ E2
      (funded_trans _ _ _ _ _ _ _ E3 (expire_sends_funded e3 now wall)))) as F.
    rewrite !app_nil_r in F. eapply closing_paid; [exact Hi1|exact F].
Qed.

Lemma drain_paid c now e s env :
  rep c (en_tracker e) s -> c <= now ->
  exists raw s', (drain e env now).1 = map RDns raw /\
    rep now (en_tracker (drain e env now).2) s' /\ paid e s raw (drain e env now).2 s'.
Proof.
  intros R Hc. unfold drain. destruct (drain_all (en_tracker e)) as [cl t1] eqn:Ed.
  destruct (tracker_credit c now (en_tracker e) s ODrain cl t1) as (s1 & R1 & Hi1); [done|done|done|done|].
  destruct (close_all (set_tracker e t1) env cl now) as [raw1 e1] eqn:E1.
  destruct (release_holds (set_held e1 []) env (en_held e1) now) as [raw2 e2] eqn:E2.
  exists (raw1 ++ raw2), s1. split; [done|].
  destruct (release_holds_effect env now (en_held e1) _ _ _ E2) as [Q2 _]. split.
  - simpl. rewrite (qt_tracker _ _ Q2). simpl. by rewrite (close_all_tracker _ _ _ _ _ _ E1).
  - apply close_all_funded in E1. apply release_holds_funded in E2.
    assert (funded e1 [] raw2 e2) as F2.
    { intros t Hm W. destruct (E2 t Hm W) as (t2 & h2 & l2 & Hm2 & W2 & M2 & S2).
      exists t2, h2, l2. split_and!; try done. cbn [set_held en_held flat_map] in S2. by rewrite app_nil_r in S2. }
    pose proof (funded_trans _ _ _ _ _ _ _ E1 F2) as F. rewrite app_nil_r in F.
    eapply closing_paid; [exact Hi1|exact F].
Qed.

(** *** Runs in kernel mode *)

Definition records_of (o : engine_op) : list KernelSend := match o with EvSend s => [s] | _ => [] end.

Definition is_latch (o : engine_op) : bool := match o with EvLatch => true | _ => false end.

(** The account of a run: what was inserted, and that all credit is covered by hits. *)
Definition solvent (e : Engine) (s : spec) (out : list DnsEventRaw) (sends : list KernelSend) : Prop :=
  exists t new hits lost, en_mode e = Kernel t /\ wf t /\ moves send_table_new t new hits lost /\
    map entry_send new ≡ₚ sends /\
    credits out ++ hold_credits (en_held e) ++ owed_credits s ⊆+ owners hits.

Lemma solvent_paid e s out sends raw e' s' :
  solvent e s out sends -> paid e s raw e' s' -> solvent e' s' (out ++ raw) sends.
Proof.
  intros (t & new & h1 & l1 & Hm & W & M & Hn & S) P.
  destruct (P t Hm W) as (t' & h2 & l2 & Hm' & W' & M' & S').
  exists t', new, (h1 ++ h2), (l1 ++ l2). split_and!; [done|done| |done|].
  - exact (moves_trans _ _ _ _ _ _ _ _ _ M M').
  - rewrite flat_map_app, <- app_assoc, map_app. etransitivity; [apply submseteq_skips_l, S'|].
    transitivity (owners h2 ++ (credits out ++ hold_credits (en_held e) ++ owed_credits s)).
    { apply Permutation_submseteq. solve_Permutation. }
    etransitivity; [apply submseteq_skips_l, S|]. apply Permutation_submseteq. solve_Permutation.
Qed.

Lemma solvent_send e s out sends sd :
  solvent e s out sends -> Z.of_nat (List.length sends) < u64_max ->
  solvent (on_send e sd) s out (sends ++ [sd]).
Proof.
  intros (t & new & h1 & l1 & Hm & W & M & Hn & S) Hb.
  assert (inserted (st_counters t) < u64_max) as Hi.
  { destruct M as (_ & I & _). apply Permutation_length in Hn. rewrite length_map in Hn. simpl in I. lia. }
  destruct (insert_wf t sd W Hi) as (lost & W' & M').
  exists (table_insert t sd), ([(ks_key sd, entry_for t sd)] ++ new), (h1 ++ []), (l1 ++ lost).
  unfold on_send, on_claim_table, claim_table, set_claim_table. rewrite Hm. split_and!.
  - done.
  - done.
  - exact (moves_trans _ _ _ _ _ _ _ _ _ M M').
  - cbn [app map]. assert (entry_send (ks_key sd, entry_for t sd) = sd) as -> by (by destruct sd).
    rewrite Hn. apply Permutation_cons_append.
  - by rewrite app_nil_r.
Qed.

Lemma packet_paid c now e s env l3 local_origin ts outs e' :
  rep c (en_tracker e) s -> c <= now -> on_packet e env l3 local_origin ts now = Ok (outs, e') ->
  exists raw s', outs = map RDns raw /\ rep now (en_tracker e') s' /\ paid e s raw e' s'.
Proof.
  intros R Hc. unfold on_packet. set (e0 := bump e 1 0 0 0 0 0 0 0 0 0).
  pose proof (rep_mono _ _ _ _ Hc R) as Rn.
  assert (forall e1, en_mode e1 = en_mode e -> en_held e1 = en_held e -> en_tracker e1 = en_tracker e ->
    Ok (E := Empty_set) ([], e1) = Ok (outs, e') ->
    exists raw s', outs = map RDns raw /\ rep now (en_tracker e') s' /\ paid e s raw e' s') as Hquiet.
  { intros e1 H1 H2 H3 [= <- <-]. exists [], s. split_and!; [done|by rewrite H3|by apply paid_quiet]. }
  destruct (decode_l3 l3) as [dg|]; [|by apply Hquiet].
  destruct (classify dg) as [d|]; [|by apply Hquiet].
  destruct (parse_message (payload dg)) as [msg| |]; [|by apply Hquiet|done].
  destruct (direction_of dg d msg).
  - destruct (is_response msg); [by apply Hquiet|].
    destruct (on_query_packet e0 env dg msg local_origin ts now) as [raw e1] eqn:Eq. intros [= <- <-].
    destruct (query_paid c now e0 s env dg msg local_origin ts raw e1) as (s' & R' & P); [done..|].
    exists raw, s'. by split_and!.
  - destruct (negb (is_response msg)); [by apply Hquiet|].
    destruct (on_response_packet e0 env dg msg now) as [raw e1] eqn:Eq. intros [= <- <-].
    destruct (response_paid c now e0 s env dg msg raw e1) as (s' & R' & P); [done..|].
    exists raw, s'. by split_and!.
Qed.

Lemma step_solvent c e s out sends o outs e' :
  rep c (en_tracker e) s -> c <= op_clock c o -> is_latch o = false ->
  Z.of_nat (List.length (sends ++ records_of o)) <= u64_max ->
  engine_step e o = Ok (outs, e') -> solvent e s out sends ->
  exists raw s', outs = map RDns raw /\ rep (op_clock c o) (en_tracker e') s' /\
    solvent e' s' (out ++ raw) (sends ++ records_of o).
Proof.
  intros R Hc Hl Hb H V.
  destruct o as [env l3 lo ts now|env now wall|env now|sd| |]; cbn [engine_step op_clock records_of] in *;
    rewrite ?app_nil_r.
  - destruct (packet_paid c now e s env l3 lo ts outs e' R Hc H) as (raw & s' & -> & R' & P).
    exists raw, s'. split_and!; [done|done|by eapply solvent_paid].
  - injection H as H. destruct (tick_paid c now e s env wall R Hc) as (raw & s' & Ho & R' & P).
    rewrite H in Ho, R', P. exists raw, s'. split_and!; [done|done|by eapply solvent_paid].
  - injection H as H. destruct (drain_paid c now e s env R Hc) as (raw & s' & Ho & R' & P).
    rewrite H in Ho, R', P. exists raw, s'. split_and!; [done|done|by eapply solvent_paid].
  - injection H as <- <-. exists [], s. rewrite length_app in Hb. cbn [List.length] in Hb.
    rewrite app_nil_r. split_and!; [done| |apply solvent_send; [done|lia]].
    unfold on_send. by rewrite (qt_tracker _ _ (quiet_on_table _ _)).
  - done.
  - injection H as <- <-. exists [], s. split_and!; [done|done|].
    eapply solvent_paid; [exact V|by apply paid_quiet].
Qed.

Lemma run_solvent ops : forall c e s out sends outs e',
  rep c (en_tracker e) s -> on_time c ops -> forallb (fun o => negb (is_latch o)) ops = true ->
  Z.of_nat (List.length (sends ++ flat_map records_of ops)) <= u64_max ->
  engine_run e ops = Ok (outs, e') -> solvent e s out sends ->
  exists raw s', outs = map RDns raw /\ solvent e' s' (out ++ raw) (sends ++ flat_map records_of ops).
Proof.
  induction ops as [|o ops IH]; intros c e s out sends outs e' R Ht Hl Hb H V; cbn [engine_run flat_map] in *.
  { injection H as <- <-. exists [], s. by rewrite !app_nil_r. }
  destruct Ht as [Hc Ht]. cbn [forallb] in Hl. apply andb_true_iff in Hl as [Hl1 Hl].
  rewrite app_assoc in Hb. destruct (engine_step e o) as [[o1 e1]| |] eqn:E1; cbn [obind] in H; try done.
  destruct (engine_run e1 ops) as [[o2 e2]| |] eqn:E2; cbn [obind] in H; try done. injection H as <- <-.
  destruct (step_solvent c e s out sends o o1 e1) as (r1 & s1 & -> & R1 & V1); try done.
  { by destruct (is_latch o). } { rewrite !length_app in *. lia. }
  destruct (IH _ e1 s1 _ _ o2 e2 R1 Ht Hl Hb E2 V1) as (r2 & s2 & -> & V2).
  exists (r1 ++ r2), s2. split; [by rewrite map_app|]. by rewrite !app_assoc in *.
Qed.

(** ** Theorems *)

(** C36. Every query is reported once.  Over any interleaving of packets (arbitrary bytes),
    ticks, records from the kernel, a fallback to [/proc] and a clock that does not go
    back, the engine never panics; each query it accepted is, at any moment, exactly one
    of: an event emitted, a response held back, a transaction pending; only queries that
    were on the wire are reported; and a final drain emits all that is left. *)
Theorem engine_reports_each_query_once mode timeout capacity c ops :
  on_time c ops ->
  exists outs e acc, engine_run (engine_new mode timeout capacity) ops = Ok (map RDns outs, e) /\
    acc ⊆+ flat_map asked ops /\ Z.of_nat (List.length acc) = next_seq (en_tracker e) /\
    map event_id outs ++ map hold_id (en_held e) ++
      map pending_id (map snd (map_to_list (pending (en_tracker e)))) ≡ₚ acc /\
    n_emitted (en_counters e) = Z.of_nat (List.length outs) /\
    (List.length (en_held e) <= Nat.max capacity 1)%nat /\
    (forall env now, last_clock c ops <= now ->
       exists rest, (drain e env now).1 = map RDns rest /\ map event_id (outs ++ rest) ≡ₚ acc).
Proof.
  intros Ht. set (e0 := engine_new mode timeout capacity).
  destruct (run_stepped ops c e0 empty_spec (rep_new c timeout capacity) (held_ok_new c mode timeout capacity) Ht)
    as (outs & e & acc & s & Hrun & (raw & -> & R & K & Cp & P & F & N) & Hacc).
  exists raw, e, acc. change (map hold_id (en_held e0) ++ ids_of empty_spec) with (@nil (string * string * Z)) in P.
  rewrite app_nil_r in P. split_and!; try done.
  - rewrite (rep_next _ _ _ R), F. simpl. lia.
  - by rewrite (pending_values _ _ _ R).
  - change (Nat.max capacity 1) with (en_held_capacity e0). rewrite <- Cp. apply K.
  - intros env now Hn. destruct (drain_stepped _ now e s env R K Hn) as (s' & (rest & Hr & _ & _ & _ & P' & _) & He & Hh).
    exists rest. split; [done|]. rewrite He, Hh in P'. simpl in P'. rewrite app_nil_r in P'.
    rewrite map_app, P'. by rewrite <- P.
Qed.

(** A response waits at most 250 ms for its record: a tick that comes that long after
    the last activity leaves nothing held back, whatever the kernel delivered. *)
Lemma held_responses_released mode timeout capacity c ops env now wall :
  on_time c ops -> last_clock c ops + ATTRIBUTION_GRACE <= now ->
  exists outs e, engine_run (engine_new mode timeout capacity) ops = Ok (outs, e) /\
    en_held (tick e env now wall).2 = [].
Proof.
  intros Ht Hn. set (e0 := engine_new mode timeout capacity).
  destruct (run_stepped ops c e0 empty_spec (rep_new c timeout capacity) (held_ok_new c mode timeout capacity) Ht)
    as (outs & e & acc & s & Hrun & (raw & _ & R & K & _) & _).
  exists outs, e. split; [done|].
  destruct (tick_stepped _ now e s env wall R K) as [_ Hl]; [unfold ATTRIBUTION_GRACE in *; lia|].
  pose proof (tick_held_sublist e env now wall) as Hs. destruct K as (_ & Hd & _).
  destruct (en_held (tick e env now wall).2) as [|h l]; [done|]. exfalso.
  apply Forall_cons in Hl as [Hl _]. rewrite Forall_forall in Hd.
  assert (h ∈ en_held e) as Hin by (eapply elem_of_sublist; [left|exact Hs]).
  specialize (Hd h Hin). lia.
Qed.

(** No invented attribution.  While the kernel records are in use, over any run, the
    processes named by the emitted events are, with multiplicity, owners of records the
    kernel sent: an event names only a process that sent a packet, and one record never
    accounts for two events, whether it was taken at once, after a retransmission, from a
    claim, or while the response was held back. *)
Lemma attributions_backed_by_records timeout capacity c ops outs e :
  on_time c ops -> forallb (fun o => negb (is_latch o)) ops = true ->
  Z.of_nat (List.length (flat_map records_of ops)) <= u64_max ->
  engine_run (engine_new (Kernel send_table_new) timeout capacity) ops = Ok (map RDns outs, e) ->
  flat_map credit outs ⊆+ map ks_owner (flat_map records_of ops).
Proof.
  intros Ht Hl Hb H. set (e0 := engine_new (Kernel send_table_new) timeout capacity) in *.
  assert (solvent e0 empty_spec [] []) as V0.
  { exists send_table_new, [], [], []. split_and!; try done; (apply wf_new || apply moves_refl). }
  destruct (run_solvent ops c e0 empty_spec [] [] _ e (rep_new c timeout capacity) Ht Hl Hb H V0)
    as (raw & s & Hr & (t & new & hits & lost & _ & _ & M & Hn & S)).
  apply raw_events_inj in Hr as ->. cbn [app] in *. rewrite <- Hn.
  transitivity (owners hits); [etransitivity; [|exact S]; by apply submseteq_inserts_r|].
  destruct M as (P & _). change (stored send_table_new) with (@nil (SendKey * Entry)) in P.
  rewrite app_nil_r in P. rewrite map_map, P, map_app. apply submseteq_inserts_r. done.
Qed.

(** ** Examples *)

(** [10.0.0.2:40000] asks [8.8.8.8:53] for [a]; the answer comes before the kernel's record
    of the send, so it is held back. *)
Definition sample_ip (src dst : list Z) (sport dport : list Z) (dns : list Z) : list byte :=
  map z2b ([69; 0; 0; 47; 0; 0; 0; 0; 64; 17; 0; 0] ++ src ++ dst ++ sport ++ dport ++ [0; 27; 0; 0] ++ dns).

Definition sample_query : list byte :=
  sample_ip [10; 0; 0; 2] [8; 8; 8; 8] [156; 64] [0; 53]
    [0; 7; 1; 0; 0; 1; 0; 0; 0; 0; 0; 0; 1; 97; 0; 0; 1; 0; 1].

Definition sample_response : list byte :=
  sample_ip [8; 8; 8; 8] [10; 0; 0; 2] [0; 53] [156; 64]
    [0; 7; 129; 128; 0; 1; 0; 0; 0; 0; 0; 0; 1; 97; 0; 0; 1; 0; 1].

Definition no_proc : ProcEnv :=
  {| pe_udp := None; pe_udp6 := None; pe_dirs := []; pe_identity := fun _ => (""%string, ""%string) |}.

Definition late_record_ops : list engine_op :=
  [EvPacket no_proc sample_query true first_ns 0; EvPacket no_proc sample_response true first_ns 1000;
   EvSend (sample_send 7 first_ns); EvTick no_proc 2000 first_ns].

Definition sample_engine : Engine := engine_new (Kernel send_table_new) 5000000000 4.

(** What a run emitted, and how many responses it still holds back. *)
Definition emitted_owners (r : outcome Empty_set (list RawEvent * Engine)) : list (option Z) * nat :=
  match r with
  | Ok (outs, e) => (flat_map (fun x => match x with RDns ev => [de_pid ev] | _ => [] end) outs,
                     List.length (en_held e))
  | _ => ([], O)
  end.

Example late_record_joined :
  emitted_owners (engine_run sample_engine (take 2 late_record_ops)) = ([], 1%nat) /\
  emitted_owners (engine_run sample_engine late_record_ops) = ([Some 7], 0%nat).
Proof. split; vm_compute; reflexivity. Qed.

Lemma engine_reports_each_query_once_witness :
  exists outs e acc, engine_run sample_engine (take 2 late_record_ops) = Ok (map RDns outs, e) /\
    acc ⊆+ flat_map asked (take 2 late_record_ops) /\
    map event_id outs ++ map hold_id (en_held e) ++
      map pending_id (map snd (map_to_list (pending (en_tracker e)))) ≡ₚ acc.
Proof.
  destruct (engine_reports_each_query_once (Kernel send_table_new) 5000000000 4 0 (take 2 late_record_ops))
    as (outs & e & acc & H1 & H2 & _ & H3 & _).
  - vm_compute. split; [discriminate|]. split; [discriminate|]. exact I.
  - exists outs, e, acc. exact (conj H1 (conj H2 H3)).
Defined.

Lemma held_responses_released_witness :
  exists outs e, engine_run sample_engine (take 2 late_record_ops) = Ok (outs, e) /\
    en_held (tick e no_proc 300000000 first_ns).2 = [].
Proof.
  apply (held_responses_released (Kernel send_table_new) 5000000000 4 0 (take 2 late_record_ops)
    no_proc 300000000 first_ns).
  - vm_compute. split; [discriminate|]. split; [discriminate|]. exact I.
  - vm_compute. discriminate.
Defined.

Definition run_events (r : outcome Empty_set (list RawEvent * Engine)) : list DnsEventRaw :=
  match r with
  | Ok (outs, _) => flat_map (fun x => match x with RDns ev => [ev] | _ => [] end) outs
  | _ => []
  end.

Definition late_record_events : list DnsEventRaw :=
  Eval vm_compute in run_events (engine_run sample_engine late_record_ops).

Lemma attributions_backed_by_records_witness :
  map at_pid (flat_map credit late_record_events) = [Some 7] /\
  flat_map credit late_record_events ⊆+ map ks_owner (flat_map records_of late_record_ops).
Proof.
  split; [vm_compute; reflexivity|].
  eapply (attributions_backed_by_records 5000000000 4 0 late_record_ops late_record_events).
  - vm_compute. repeat (split; [discriminate|]). exact I.
  - reflexivity.
  - vm_compute. discriminate.
  - vm_compute. reflexivity.
Defined.

End Engine.
