(* ===== verification/Bus.v ===== *)
(** * The agent's event bus: [crates/osiris-bus/src/bus.rs], with the lane table of
      [crates/osiris-pipeline/src/prioritize.rs]

    Five bounded lanes, filled by producers at any moment and emptied by one consumer in
    weighted rounds.  Producers run concurrently: a schedule says what was enqueued before
    each attempt to receive. *)

From S2P Require Import Prelude Json Schema.

(** ** Lanes *)

Inductive PriorityLane := LCritical | LHigh | LNormal | LLow | LVerbose.

#[global] Instance priority_lane_eq_dec : EqDecision PriorityLane.
Proof. solve_decision. Defined.

#[global] Instance priority_lane_countable : Countable PriorityLane.
Proof.
  refine (inj_countable'
    (fun l => match l with LCritical => 0 | LHigh => 1 | LNormal => 2 | LLow => 3 | LVerbose => 4 end)
    (fun n => if n =? 0 then LCritical else if n =? 1 then LHigh else if n =? 2 then LNormal
              else if n =? 3 then LLow else LVerbose) _). by intros [].
Defined.

Record PriorityTable := { table : list (EventType * PriorityLane); default_lane : PriorityLane }.

Definition default_table : PriorityTable :=
  {| table := [(ProcessExec, LNormal); (FileCreate, LNormal); (FileDelete, LNormal);
               (FileRename, LNormal); (FileWrite, LLow); (NetworkConnect, LNormal);
               (NetworkAccept, LNormal); (NetworkClose, LLow); (DnsQuery, LNormal);
               (SessionLogin, LNormal); (SessionLogout, LNormal); (SessionCreate, LNormal);
               (SessionTerminate, LNormal); (PrivilegeUidChange, LHigh); (PrivilegeSudo, LHigh);
               (PrivilegeGidChange, LNormal)];
     default_lane := LNormal |}.

Definition lane_for `{JsonLib} (t : PriorityTable) (event : CanonicalEvent) : PriorityLane :=
  match List.find (fun x => bool_decide (x.1 = event_type event)) (table t) with
  | Some x => x.2
  | None => default_lane t
  end.

Definition prioritize `{JsonLib} (event : CanonicalEvent) (t : PriorityTable) : PriorityLane :=
  lane_for t event.

Definition LANES : list PriorityLane := [LCritical; LHigh; LNormal; LLow; LVerbose].

Definition capacity_for (lane : PriorityLane) : nat :=
  match lane with
  | LCritical => 64 | LHigh => 256 | LNormal => 1024 | LLow => 2048 | LVerbose => 4096
  end.

Definition drain_weight (lane : PriorityLane) : nat :=
  match lane with LCritical => 8 | LHigh => 4 | LNormal => 2 | LLow => 1 | LVerbose => 1 end.

(** [{:?}] of a lane. *)
Definition lane_name (lane : PriorityLane) : string :=
  match lane with
  | LCritical => "Critical" | LHigh => "High" | LNormal => "Normal" | LLow => "Low"
  | LVerbose => "Verbose"
  end.

Definition metric (lane : PriorityLane) (what : string) : string :=
  "bus." +:+ lane_name lane +:+ "." +:+ what.

Section Bus.
Context `{JsonLib}.

(** [metrics.counter(name).increment()]. *)
Definition counted (m : gmap string Z) (name : string) : Z := default 0 (m !! name).
Definition increment (name : string) (m : gmap string Z) : gmap string Z :=
  <[name := counted m name + 1]> m.

(** The channels of the lanes (both halves) and the metrics registry.  A channel's queue
    holds what was sent and not yet received. *)
Record EventBus := {
  channels : gmap PriorityLane (list CanonicalEvent);
  metrics : gmap string Z;
}.

Record PrioritizedEvent := { pe_event : CanonicalEvent; pe_lane : PriorityLane }.

Definition bus_new (m : gmap string Z) : EventBus :=
  {| channels := fold_left (fun c lane => <[lane := []]> c) LANES ∅; metrics := m |}.

Definition with_metric (name : string) (b : EventBus) : EventBus :=
  {| channels := channels b; metrics := increment name (metrics b) |}.

Definition with_lane (lane : PriorityLane) (q : list CanonicalEvent) (b : EventBus) : EventBus :=
  {| channels := <[lane := q]> (channels b); metrics := metrics b |}.

(** [try_send]: fails when the channel is full. *)
Definition enqueue (b : EventBus) (item : PrioritizedEvent) : bool * EventBus :=
  let lane := pe_lane item in
  match channels b !! lane with
  | None => (false, with_metric (metric lane "dropped_total") b)
  | Some q =>
      if (List.length q <? capacity_for lane)%nat
      then (true, with_metric (metric lane "enqueued_total") (with_lane lane (q ++ [pe_event item]) b))
      else (false, with_metric (metric lane "dropped_total") b)
  end.

(** ** The consumer *)

Context {S : Type} (send : S -> CanonicalEvent -> bool * S).

(** The consumer's world: the bus, the sink, what producers will have enqueued before
    each of the next attempts to receive, and the history of accepted and forwarded
    events. *)
Record world := {
  bus : EventBus;
  sink : S;
  arrivals : list (list PrioritizedEvent);
  accepted : list (PriorityLane * CanonicalEvent);
  forwarded : list (PriorityLane * CanonicalEvent);
}.

Definition produce (w : world) (item : PrioritizedEvent) : world :=
  let '(ok, b) := enqueue (bus w) item in
  {| bus := b; sink := sink w; arrivals := arrivals w;
     accepted := accepted w ++ (if ok then [(pe_lane item, pe_event item)] else []);
     forwarded := forwarded w |}.

Definition arrive (w : world) : world :=
  match arrivals w with
  | [] => w
  | items :: rest =>
      fold_left produce items
        {| bus := bus w; sink := sink w; arrivals := rest; accepted := accepted w;
           forwarded := forwarded w |}
  end.

(** One received event: count it and forward it; a sink error is counted and the event
    is lost. *)
Definition forward (lane : PriorityLane) (event : CanonicalEvent) (q : list CanonicalEvent) (w : world)
  : world :=
  let b := with_metric (metric lane "dequeued_total") (with_lane lane q (bus w)) in
  let '(ok, s) := send (sink w) event in
  {| bus := if ok then b else with_metric (metric lane "sink_error_total") b;
     sink := s; arrivals := arrivals w; accepted := accepted w;
     forwarded := forwarded w ++ [(lane, event)] |}.

(** [for _ in 0..drain_weight(lane)], with the flag [drained_any]. *)
Fixpoint drain_lane (n : nat) (lane : PriorityLane) (w : world) : bool * world :=
  match n with
  | O => (false, w)
  | Datatypes.S n =>
      let w := arrive w in
      match channels (bus w) !! lane with
      | Some (event :: q) => (true, (drain_lane n lane (forward lane event q w)).2)
      | _ => (false, w)
      end
  end.

(** One turn of the outer loop. *)
Definition drain_cycle (w : world) : bool * world :=
  fold_left (fun '(any, w) lane => let '(d, w) := drain_lane (drain_weight lane) lane w in (any || d, w))
    LANES (false, w).

(** [while let Ok(event) = receiver.try_recv()]: every turn takes an event out, so the
    queue and what still arrives bound the turns. *)
Definition pending_turns (lane : PriorityLane) (w : world) : nat :=
  Datatypes.S (List.length (default [] (channels (bus w) !! lane)) + List.length (concat (arrivals w))).

Definition final_drain_lane (w : world) (lane : PriorityLane) : world :=
  (drain_lane (pending_turns lane w) lane w).2.

Definition final_drain (w : world) : world := fold_left final_drain_lane LANES w.

Fixpoint drain_cycles (n : nat) (w : world) : world :=
  match n with
  | O => w
  | Datatypes.S n => drain_cycles n (drain_cycle w).2
  end.

(** ** The history of one lane *)

Definition queued (lane : PriorityLane) (w : world) : list CanonicalEvent :=
  default [] (channels (bus w) !! lane).

Definition on_lane (lane : PriorityLane) (log : list (PriorityLane * CanonicalEvent))
  : list CanonicalEvent :=
  map snd (List.filter (fun x => bool_decide (x.1 = lane)) log).

(** From [w] to [w'] the lane accepted [a] and forwarded [d], in order; at least the first
    [lo] events queued in [w], and at most [hi] events, were forwarded. *)
Definition moved (lane : PriorityLane) (lo hi : nat) (w w' : world) : Prop :=
  exists a d,
    on_lane lane (accepted w') = on_lane lane (accepted w) ++ a
    /\ on_lane lane (forwarded w') = on_lane lane (forwarded w) ++ d
    /\ queued lane w ++ a = d ++ queued lane w'
    /\ (Nat.min lo (List.length (queued lane w)) <= List.length d <= hi)%nat.

Lemma on_lane_app lane l m : on_lane lane (l ++ m) = on_lane lane l ++ on_lane lane m.
Proof. unfold on_lane. by rewrite List.filter_app, map_app. Qed.

Lemma moved_refl lane w : moved lane 0 0 w w.
Proof. exists [], []. rewrite !app_nil_r. simpl. split_and!; try done; lia. Qed.

Lemma moved_trans lane lo1 hi1 lo2 hi2 w1 w2 w3 :
  moved lane lo1 hi1 w1 w2 -> moved lane lo2 hi2 w2 w3 ->
  moved lane (lo1 + lo2) (hi1 + hi2) w1 w3.
Proof.
  intros (a1 & d1 & Ha1 & Hd1 & Hq1 & Hl1) (a2 & d2 & Ha2 & Hd2 & Hq2 & Hl2).
  exists (a1 ++ a2), (d1 ++ d2). rewrite Ha2, Ha1, Hd2, Hd1, !app_assoc.
  split_and!; try done.
  - rewrite Hq1, <- !app_assoc. by rewrite Hq2.
  - rewrite length_app. apply (f_equal List.length) in Hq1. rewrite !length_app in Hq1. lia.
  - rewrite length_app. lia.
Qed.

Lemma moved_weaken lane lo hi lo' hi' w w' :
  moved lane lo hi w w' -> (lo' <= lo)%nat -> (hi <= hi')%nat -> moved lane lo' hi' w w'.
Proof. intros (a & d & ? & ? & ? & ?) ? ?. exists a, d. split_and!; try done; lia. Qed.
Lemma queued_with lane lane' q b s ar ac fw :
  queued lane {| bus := with_lane lane' q b; sink := s; arrivals := ar; accepted := ac; forwarded := fw |}
  = if decide (lane' = lane) then q else default [] (channels b !! lane).
Proof.
  unfold queued. simpl. destruct (decide (lane' = lane)) as [->|Hne].
  - by rewrite lookup_insert_eq.
  - by rewrite lookup_insert_ne.
Qed.

Lemma on_lane_one lane lane' e : on_lane lane [(lane', e)] = if decide (lane' = lane) then [e] else [].
Proof. unfold on_lane. simpl. case_bool_decide; case_decide; done. Qed.

(** A producer only appends to its lane. *)
Lemma produce_moved lane w item : moved lane 0 0 w (produce w item).
Proof.
  unfold produce, enqueue. destruct item as [e l]. simpl.
  destruct (channels (bus w) !! l) as [q|] eqn:El.
  2:{ exists [], []. simpl. rewrite !app_nil_r. split_and!; try done; simpl; lia. }
  destruct (List.length q <? capacity_for l)%nat.
  2:{ exists [], []. simpl. rewrite !app_nil_r. split_and!; try done; simpl; lia. }
  exists (if decide (l = lane) then [e] else []), []. simpl.
  rewrite on_lane_app, on_lane_one, app_nil_r. split_and!; try done; try lia.
  unfold queued. simpl. destruct (decide (l = lane)) as [->|Hne].
  - by rewrite lookup_insert_eq, El.
  - by rewrite lookup_insert_ne, app_nil_r.
Qed.

Lemma produce_all_moved lane items : forall w, moved lane 0 0 w (fold_left produce items w).
Proof.
  induction items as [|i items IH]; intros w; [apply moved_refl|].
  apply (moved_trans lane 0 0 0 0 w (produce w i)); [apply produce_moved|apply IH].
Qed.

Lemma arrive_moved lane w : moved lane 0 0 w (arrive w).
Proof.
  unfold arrive. destruct (arrivals w) as [|items rest]; [apply moved_refl|].
  eapply (moved_trans lane 0 0 0 0); [|apply produce_all_moved].
  exists [], []. simpl. rewrite !app_nil_r. split_and!; try done; lia.
Qed.

Lemma forward_moved lane lane' e q w :
  channels (bus w) !! lane' = Some (e :: q) ->
  moved lane (if decide (lane' = lane) then 1 else 0) (if decide (lane' = lane) then 1 else 0)
    w (forward lane' e q w).
Proof.
  intros El. unfold forward. destruct (send (sink w) e) as [ok s].
  exists [], (if decide (lane' = lane) then [e] else []).
  cbn [accepted forwarded]. rewrite on_lane_app, on_lane_one, !app_nil_r.
  split_and!; [done|done| |destruct (decide (lane' = lane)); cbn [List.length]; lia..].
  assert (queued lane w = (if decide (lane' = lane) then [e] else [])
    ++ (if decide (lane' = lane) then q else default [] (channels (bus w) !! lane))) as ->.
  { unfold queued. destruct (decide (lane' = lane)) as [->|]; [by rewrite El|done]. }
  f_equal. unfold queued. destruct ok; simpl; destruct (decide (lane' = lane)) as [->|];
    rewrite ?lookup_insert_eq, ?lookup_insert_ne by done; done.
Qed.

(** Nothing left to forward. *)
Lemma moved_empty lane n w w' : moved lane 0 0 w w' -> queued lane w' = [] -> moved lane n n w w'.
Proof.
  intros (a & d & Ha & Hd & Hq & Hl) He. rewrite He, app_nil_r in Hq.
  apply (f_equal List.length) in Hq as Hlen. rewrite length_app in Hlen.
  exists a, d. rewrite He, app_nil_r. split_and!; try done; lia.
Qed.

Lemma drain_lane_moved lane n : forall w, moved lane n n w (drain_lane n lane w).2.
Proof.
  induction n as [|n IH]; intros w; [apply moved_refl|]. cbn [drain_lane].
  destruct (channels (bus (arrive w)) !! lane) as [[|e q]|] eqn:El; cbn [snd].
  - apply moved_empty; [apply arrive_moved|]. unfold queued. by rewrite El.
  - pose proof (forward_moved lane lane e q (arrive w) El) as Hf. rewrite decide_True in Hf by done.
    change (Datatypes.S n) with (0 + (1 + n))%nat.
    eapply moved_trans; [apply arrive_moved|]. eapply moved_trans; [exact Hf|apply IH].
  - apply moved_empty; [apply arrive_moved|]. unfold queued. by rewrite El.
Qed.

Lemma drain_lane_other lane lane' n : lane' <> lane ->
  forall w, moved lane 0 0 w (drain_lane n lane' w).2.
Proof.
  intros Hne. induction n as [|n IH]; intros w; [apply moved_refl|]. cbn [drain_lane].
  destruct (channels (bus (arrive w)) !! lane') as [[|e q]|] eqn:El; cbn [snd];
    [apply arrive_moved| |apply arrive_moved].
  pose proof (forward_moved lane lane' e q (arrive w) El) as Hf. rewrite decide_False in Hf by done.
  eapply (moved_trans lane 0 0 0 0); [apply arrive_moved|].
  eapply (moved_trans lane 0 0 0 0); [exact Hf|apply IH].
Qed.

(** The share of one round that belongs to a lane. *)
Definition share (lane : PriorityLane) (ls : list PriorityLane) : nat :=
  foldr (fun l acc => ((if decide (l = lane) then drain_weight l else 0) + acc)%nat) 0%nat ls.

Lemma share_LANES lane : share lane LANES = drain_weight lane.
Proof. by destruct lane. Qed.

Lemma in_LANES lane : lane ∈ LANES.
Proof. apply list_elem_of_In. destruct lane; simpl; tauto. Qed.

Lemma drain_lanes_moved lane ls : forall any w,
  moved lane (share lane ls) (share lane ls) w
    (fold_left (fun '(any, w) lane => let '(d, w) := drain_lane (drain_weight lane) lane w in (any || d, w))
       ls (any, w)).2.
Proof.
  induction ls as [|l ls IH]; intros any w; [apply moved_refl|]. cbn [fold_left share foldr].
  destruct (drain_lane (drain_weight l) l w) as [d w'] eqn:E.
  eapply moved_trans; [|apply IH].
  destruct (decide (l = lane)) as [->|Hne].
  - pose proof (drain_lane_moved lane (drain_weight lane) w) as Hm. by rewrite E in Hm.
  - pose proof (drain_lane_other lane l (drain_weight l) Hne w) as Hm. by rewrite E in Hm.
Qed.

Lemma drain_cycle_moved lane w :
  moved lane (drain_weight lane) (drain_weight lane) w (drain_cycle w).2.
Proof. rewrite <- share_LANES. apply drain_lanes_moved. Qed.

Lemma drain_cycles_moved lane n : forall w,
  moved lane (n * drain_weight lane) (n * drain_weight lane) w (drain_cycles n w).
Proof.
  induction n as [|n IH]; intros w; [apply moved_refl|]. cbn [drain_cycles Nat.mul].
  eapply moved_trans; [apply drain_cycle_moved|apply IH].
Qed.

Lemma app_prefix_take {A} (q a d r : list A) n :
  q ++ a = d ++ r -> (Nat.min n (List.length q) <= List.length d)%nat -> take n q `prefix_of` d.
Proof.
  intros E Hn. set (m := Nat.min n (List.length q)) in *.
  assert (take n q = take m d) as ->; [|exists (drop m d); by rewrite take_drop].
  rewrite <- (take_app_le d r) by lia. rewrite <- E, take_app_le by (unfold m; lia).
  unfold m. destruct (Nat.le_gt_cases n (List.length q)).
  - by rewrite Nat.min_l.
  - by rewrite Nat.min_r, firstn_all, take_ge by lia.
Qed.
(** ** Counters *)

Lemma counted_increment m n n' :
  counted (increment n m) n' = counted m n' + (if decide (n = n') then 1 else 0).
Proof.
  unfold counted, increment. destruct (decide (n = n')) as [->|Hne].
  - by rewrite lookup_insert_eq.
  - rewrite lookup_insert_ne by done. unfold counted. lia.
Qed.

(** The names the bus counts under. *)
Definition kinds : list string := ["enqueued_total"; "dropped_total"; "dequeued_total"; "sink_error_total"].

Lemma metric_inj l l' x y : In x kinds -> In y kinds -> metric l x = metric l' y -> l = l' /\ x = y.
Proof.
  intros [<-|[<-|[<-|[<-|[]]]]] [<-|[<-|[<-|[<-|[]]]]]; destruct l, l'; intros E;
    first [done|discriminate E].
Qed.

Lemma counted_metric m l l' x y : In x kinds -> In y kinds ->
  counted (increment (metric l x) m) (metric l' y)
  = counted m (metric l' y) + (if decide (l = l' /\ x = y) then 1 else 0).
Proof.
  intros Hx Hy. rewrite counted_increment. f_equal.
  destruct (decide (metric l x = metric l' y)) as [E|E], (decide (l = l' /\ x = y)) as [E'|E'];
    try done; [by apply metric_inj in E|by destruct E' as [-> ->]].
Qed.

Record accounted (lane : PriorityLane) (w : world) : Prop := {
  ac_bound : (List.length (queued lane w) <= capacity_for lane)%nat;
  ac_in : counted (metrics (bus w)) (metric lane "enqueued_total")
          = Z.of_nat (List.length (on_lane lane (accepted w)));
  ac_out : counted (metrics (bus w)) (metric lane "dequeued_total")
           = Z.of_nat (List.length (on_lane lane (forwarded w)));
}.

Ltac kinds := unfold kinds; simpl; tauto.

Lemma produce_accounted lane w item : accounted lane w -> accounted lane (produce w item).
Proof.
  intros [Hb Hi Ho]. unfold produce, enqueue. destruct item as [e l]. cbn [pe_lane pe_event].
  assert (accounted lane {| bus := with_metric (metric l "dropped_total") (bus w); sink := sink w;
    arrivals := arrivals w; accepted := accepted w ++ []; forwarded := forwarded w |}) as Hdrop.
  { constructor; simpl; rewrite ?app_nil_r, ?counted_metric by kinds; [done|..];
      rewrite decide_False by (intros [_ E]; discriminate E); lia. }
  destruct (channels (bus w) !! l) as [q|] eqn:El; [|exact Hdrop].
  destruct (Nat.ltb_spec (List.length q) (capacity_for l)) as [Hlt|]; [|exact Hdrop].
  constructor; simpl; rewrite ?on_lane_app, ?on_lane_one, ?length_app, ?counted_metric by kinds.
  - unfold queued. simpl. destruct (decide (l = lane)) as [->|Hne].
    + rewrite lookup_insert_eq. simpl. rewrite length_app. simpl. lia.
    + by rewrite lookup_insert_ne.
  - destruct (decide (l = lane)) as [->|Hne].
    + rewrite decide_True by done. simpl. lia.
    + rewrite decide_False by (intros [E _]; done). simpl. lia.
  - rewrite decide_False by (intros [_ E]; discriminate E). lia.
Qed.

Lemma produce_all_accounted lane items : forall w, accounted lane w -> accounted lane (fold_left produce items w).
Proof. induction items as [|i items IH]; intros w Hw; [done|]. by apply IH, produce_accounted. Qed.

Lemma arrive_accounted lane w : accounted lane w -> accounted lane (arrive w).
Proof.
  intros Hw. unfold arrive. destruct (arrivals w); [done|]. apply produce_all_accounted.
  by destruct Hw.
Qed.

Lemma forward_accounted lane l e q w :
  channels (bus w) !! l = Some (e :: q) -> accounted lane w -> accounted lane (forward l e q w).
Proof.
  intros El [Hb Hi Ho]. unfold forward. destruct (send (sink w) e) as [ok s].
  assert (accounted lane {| bus := with_metric (metric l "dequeued_total") (with_lane l q (bus w));
    sink := s; arrivals := arrivals w; accepted := accepted w;
    forwarded := forwarded w ++ [(l, e)] |}) as Hw.
  { constructor; simpl; rewrite ?on_lane_app, ?on_lane_one, ?length_app, ?counted_metric by kinds.
    - unfold queued in *. simpl. destruct (decide (l = lane)) as [->|Hne].
      + rewrite El in Hb. rewrite lookup_insert_eq. simpl in *. lia.
      + by rewrite lookup_insert_ne.
    - rewrite decide_False by (intros [_ E]; discriminate E). lia.
    - destruct (decide (l = lane)) as [->|Hne].
      + rewrite decide_True by done. simpl. lia.
      + rewrite decide_False by (intros [E _]; done). simpl. lia. }
  destruct ok; [exact Hw|]. destruct Hw as [Hb' Hi' Ho'].
  constructor; [exact Hb'|..]; simpl in *; rewrite counted_metric by kinds;
    rewrite decide_False by (intros [_ E]; discriminate E); lia.
Qed.

Lemma drain_lane_accounted lane n l : forall w, accounted lane w -> accounted lane (drain_lane n l w).2.
Proof.
  induction n as [|n IH]; intros w Hw; [done|]. cbn [drain_lane].
  apply arrive_accounted in Hw.
  destruct (channels (bus (arrive w)) !! l) as [[|e q]|] eqn:El; cbn [snd]; [done| |done].
  by apply IH, forward_accounted.
Qed.

Lemma drain_cycles_accounted lane n : forall w, accounted lane w -> accounted lane (drain_cycles n w).
Proof.
  induction n as [|n IH]; intros w Hw; [done|]. cbn [drain_cycles]. apply IH. unfold drain_cycle.
  generalize false. generalize LANES. intros ls. revert w Hw.
  induction ls as [|l ls IHl]; intros w Hw any; [done|]. cbn [fold_left].
  pose proof (drain_lane_accounted lane (drain_weight l) l w Hw) as Hd.
  destruct (drain_lane (drain_weight l) l w) as [d w']. by apply IHl.
Qed.

(** ** Shutdown *)

Lemma arrive_none w : arrivals w = [] -> arrive w = w.
Proof. intros E. unfold arrive. by rewrite E. Qed.

Lemma forward_arrivals l e q w : arrivals (forward l e q w) = arrivals w.
Proof. unfold forward. by destruct (send (sink w) e). Qed.

Lemma drain_lane_quiet n l : forall w, arrivals w = [] -> arrivals (drain_lane n l w).2 = [].
Proof.
  induction n as [|n IH]; intros w Hw; [done|]. cbn [drain_lane]. rewrite (arrive_none w Hw).
  destruct (channels (bus w) !! l) as [[|e q]|]; cbn [snd]; [done| |done].
  apply IH. by rewrite forward_arrivals.
Qed.

(** With producers stopped, nothing is accepted any more. *)
Lemma drain_lane_accepts_none n l : forall w, arrivals w = [] -> accepted (drain_lane n l w).2 = accepted w.
Proof.
  induction n as [|n IH]; intros w Hw; [done|]. cbn [drain_lane]. rewrite (arrive_none w Hw).
  destruct (channels (bus w) !! l) as [[|e q]|]; cbn [snd]; [done| |done].
  rewrite IH by (by rewrite forward_arrivals). unfold forward. by destruct (send (sink w) e).
Qed.

(** What a drain of [ls] does to [lane]: everything when it is among them. *)
Lemma final_drain_lanes lane ls : forall w,
  arrivals w = [] ->
  let w' := fold_left final_drain_lane ls w in
  arrivals w' = [] /\ on_lane lane (accepted w') = on_lane lane (accepted w)
  /\ moved lane (if decide (lane ∈ ls) then List.length (queued lane w) else 0) (List.length (queued lane w)) w w'.
Proof.
  induction ls as [|l ls IH]; intros w Hw.
  { split_and!; [done|done|]. rewrite decide_False by set_solver.
    eapply moved_weaken; [apply moved_refl|lia|lia]. }
  cbn [fold_left]. set (w1 := final_drain_lane w l).
  assert (arrivals w1 = []) as Hw1 by by apply drain_lane_quiet.
  assert (accepted w1 = accepted w) as Hacc by by apply drain_lane_accepts_none.
  destruct (IH w1 Hw1) as (H1 & H2 & H3). cbv zeta. split_and!; [done|by rewrite H2, Hacc|].
  destruct (decide (l = lane)) as [->|Hne].
  - assert (moved lane (pending_turns lane w) (pending_turns lane w) w w1) as Hm
      by apply drain_lane_moved.
    destruct Hm as (a & d & Ha & Hd & Hq & Hl & Hu). rewrite Hacc in Ha.
    assert (a = []) as -> by (apply (f_equal List.length) in Ha; rewrite length_app in Ha; destruct a; [done|simpl in Ha; lia]).
    rewrite app_nil_r in Hq. unfold pending_turns in Hl. fold (queued lane w) in Hl.
    assert (queued lane w1 = []) as Hq1.
    { apply (f_equal List.length) in Hq. rewrite length_app in Hq. destruct (queued lane w1); [done|]. simpl in Hq. lia. }
    rewrite Hq1 in H3, Hq. rewrite app_nil_r in Hq. simpl in H3.
    rewrite decide_True by set_solver.
    eapply (moved_weaken lane (List.length (queued lane w) + 0) (List.length (queued lane w) + 0)); [|lia|lia].
    eapply moved_trans; [|eapply moved_weaken; [exact H3|lia|lia]].
    exists [], d. rewrite Hacc, Hq1, !app_nil_r, Hq. split_and!; try done; lia.
  - assert (moved lane 0 0 w w1) as Hm by by apply drain_lane_other.
    assert (List.length (queued lane w1) = List.length (queued lane w)) as Hlen.
    { destruct Hm as (a & d & Ha & Hd & Hq & Hl). rewrite Hacc in Ha.
      apply (f_equal List.length) in Ha, Hq. rewrite length_app in Ha. rewrite !length_app in Hq. lia. }
    rewrite Hlen in H3. eapply (moved_trans lane 0 0) in H3; [|exact Hm].
    eapply moved_weaken; [exact H3| |lia].
    destruct (decide (lane ∈ l :: ls)) as [Hin|], (decide (lane ∈ ls)); try lia.
    apply elem_of_cons in Hin as [->|]; done.
Qed.

(** With producers stopped, the final drain forwards everything that is queued. *)
Lemma final_drain_flushes lane w :
  arrivals w = [] ->
  queued lane (final_drain w) = []
  /\ on_lane lane (forwarded (final_drain w)) = on_lane lane (forwarded w) ++ queued lane w.
Proof.
  intros Hw. unfold final_drain. destruct (final_drain_lanes lane LANES w Hw) as (_ & Hacc & Hm).
  revert Hacc Hm. generalize (fold_left final_drain_lane LANES w). intros w' Hacc Hm.
  destruct Hm as (a & d & Ha & Hd & Hq & Hl).
  assert (a = []) as ->.
  { rewrite Hacc in Ha. apply (f_equal List.length) in Ha. rewrite length_app in Ha.
    destruct a; [done|]. simpl in Ha. lia. }
  rewrite app_nil_r in Hq. rewrite decide_True in Hl by apply in_LANES.
  assert (queued lane w' = []) as He.
  { apply (f_equal List.length) in Hq. rewrite length_app in Hq.
    destruct (queued lane w'); [done|]. simpl in Hq. lia. }
  split; [done|]. rewrite He, app_nil_r in Hq. by rewrite Hq.
Qed.
End Bus.

(** ** Properties *)

(** The bus is fair and loses nothing it accepted: whatever producers enqueue
    meanwhile, [n] rounds of the drain loop forward from every lane, in order, at most
    [n] times its weight and at least the first [n] times its weight of the events queued
    at the start (so no lane starves another); the accepted events are the forwarded ones
    followed by those still queued. *)
Lemma bus_drains_fairly `{JsonLib} {S} (send : S -> CanonicalEvent -> bool * S) n w lane :
  exists a d,
    on_lane lane (accepted (drain_cycles send n w)) = on_lane lane (accepted w) ++ a
    /\ on_lane lane (forwarded (drain_cycles send n w)) = on_lane lane (forwarded w) ++ d
    /\ queued lane w ++ a = d ++ queued lane (drain_cycles send n w)
    /\ take (n * drain_weight lane) (queued lane w) `prefix_of` d
    /\ (List.length d <= n * drain_weight lane)%nat.
Proof.
  destruct (drain_cycles_moved send lane n w) as (a & d & Ha & Hd & Hq & Hlo & Hhi).
  exists a, d. split_and!; try done. by eapply app_prefix_take.
Qed.

(** The bus's books balance: from a new bus, over any schedule of producers and any
    number of rounds, each lane stays within its capacity and its counters of enqueued and
    dequeued events count exactly what was accepted and forwarded; and when producers have
    stopped, the final drain forwards everything still queued. *)
Lemma bus_accounting `{JsonLib} {S} (send : S -> CanonicalEvent -> bool * S) n s sched lane :
  let w := drain_cycles send n {| bus := bus_new ∅; sink := s; arrivals := sched;
                                  accepted := []; forwarded := [] |} in
  let w' := final_drain send w in
  (List.length (queued lane w) <= capacity_for lane)%nat
  /\ counted (metrics (bus w)) (metric lane "enqueued_total")
     = Z.of_nat (List.length (on_lane lane (accepted w)))
  /\ counted (metrics (bus w)) (metric lane "dequeued_total")
     = Z.of_nat (List.length (on_lane lane (forwarded w)))
  /\ (arrivals w = [] ->
      queued lane w' = [] /\ on_lane lane (forwarded w') = on_lane lane (accepted w)).
Proof.
  set (w0 := {| bus := bus_new ∅; sink := s; arrivals := sched; accepted := []; forwarded := [] |}).
  intros w w'.
  assert (queued lane w0 = []) as Hq0 by by destruct lane.
  assert (accounted lane w) as [Hb Hi Ho].
  { apply drain_cycles_accounted. constructor; [rewrite Hq0; simpl; lia|by destruct lane..]. }
  split_and!; [done|done|done|]. intros Hquiet. subst w'.
  destruct (final_drain_flushes send lane w Hquiet) as [He Hf]. split; [done|]. rewrite Hf.
  assert (moved lane (n * drain_weight lane) (n * drain_weight lane) w0 w) as Hm
    by apply drain_cycles_moved.
  destruct Hm as (a & d & Ha & Hd & Hq & _). rewrite Hq0 in Hq. by rewrite Ha, Hd, <- app_assoc, <- Hq.
Qed.

(** A sink that counts, and a schedule that fills two lanes. *)
Definition counting_sink (n : nat) (_ : @CanonicalEvent tjson_lib) : bool * nat := (true, S n).

Definition bus_item (id : Z) (lane : PriorityLane) : @PrioritizedEvent tjson_lib :=
  @Build_PrioritizedEvent tjson_lib (@sample_event tjson_lib id 10 ProcessExec None "" TNull) lane.

Definition bus_start : @world tjson_lib nat :=
  @Build_world tjson_lib nat (@bus_new tjson_lib ∅) 0%nat
    [[bus_item 1 LLow; bus_item 2 LLow; bus_item 3 LCritical]; [bus_item 4 LCritical]] [] [].

Lemma bus_drains_fairly_witness :
  exists d, @on_lane tjson_lib LLow (@forwarded tjson_lib nat
              (@drain_cycles tjson_lib nat counting_sink 2 bus_start)) = d
    /\ (List.length d <= 2)%nat.
Proof.
  destruct (@bus_drains_fairly tjson_lib nat counting_sink 2 bus_start LLow)
    as (a & d & _ & Hd & _ & _ & Hl).
  exists d. split; [rewrite Hd; reflexivity|exact Hl].
Defined.

Lemma bus_accounting_witness :
  counted (@metrics tjson_lib (@bus tjson_lib nat (@drain_cycles tjson_lib nat counting_sink 1 bus_start)))
    (metric LCritical "enqueued_total") = 2.
Proof.
  destruct (@bus_accounting tjson_lib nat counting_sink 1 0%nat (@arrivals tjson_lib nat bus_start)
    LCritical) as (_ & Hc & _).
  etransitivity; [exact Hc|]. vm_compute. reflexivity.
Defined.
