(* ===== verification/Pipeline.v ===== *)
(** * The pipeline: [enrich.rs], [validate.rs], [pod_lookup.rs] and [pipeline.rs] of
    [crates/osiris-pipeline]

    Every raw event is normalised ([Normalize]), enriched from the resolvers ([Resolvers]),
    validated and given a lane ([Bus]).  The theorems state what every consumer relies on:
    the type of the event, the identity of its process, its session and its edges. *)

From S2P Require Import Prelude Concrete Json Schema Health RawEvent FileUtil Normalize Resolvers Bus.

Section Enrich.
Context `{JM : JsonMake}.

(** ** Field assignment *)

Definition ev_with (e : CanonicalEvent) (boot : string) (proc parent : option ProcessRef)
    (sess : option SessionRef) (ns : option NamespaceRef) (cg : option CgroupRef)
    (cont : option ContainerRef) (rels : list EntityRelationship) (tgs : list string)
  : CanonicalEvent :=
  {| event_id := event_id e; schema_version := schema_version e; ev_host_id := ev_host_id e;
     boot_id := boot; ev_timestamp := ev_timestamp e; monotonic_timestamp := monotonic_timestamp e;
     event_type := event_type e; ev_category := ev_category e; ev_severity := ev_severity e;
     ev_host := ev_host e; ev_user := ev_user e; ev_session := sess; ev_process := proc;
     ev_parent_process := parent; ev_thread := ev_thread e; ev_file := ev_file e;
     ev_network := ev_network e; ev_dns := ev_dns e; ev_device := ev_device e;
     ev_service := ev_service e; ev_container := cont; ev_namespace := ns; ev_cgroup := cg;
     ev_kernel := ev_kernel e; ev_source := ev_source e; provider := provider e;
     raw_event := raw_event e; relationships := rels; tags := tgs; ev_risk := ev_risk e;
     event_data := event_data e |}.

Definition set_boot (b : string) (e : CanonicalEvent) : CanonicalEvent :=
  ev_with e b (ev_process e) (ev_parent_process e) (ev_session e) (ev_namespace e) (ev_cgroup e)
    (ev_container e) (relationships e) (tags e).
Definition set_process (p : option ProcessRef) (e : CanonicalEvent) : CanonicalEvent :=
  ev_with e (boot_id e) p (ev_parent_process e) (ev_session e) (ev_namespace e) (ev_cgroup e)
    (ev_container e) (relationships e) (tags e).
Definition set_parent (p : option ProcessRef) (e : CanonicalEvent) : CanonicalEvent :=
  ev_with e (boot_id e) (ev_process e) p (ev_session e) (ev_namespace e) (ev_cgroup e)
    (ev_container e) (relationships e) (tags e).
Definition set_session (s : option SessionRef) (e : CanonicalEvent) : CanonicalEvent :=
  ev_with e (boot_id e) (ev_process e) (ev_parent_process e) s (ev_namespace e) (ev_cgroup e)
    (ev_container e) (relationships e) (tags e).
Definition set_context (ns : option NamespaceRef) (cg : option CgroupRef)
    (cont : option ContainerRef) (e : CanonicalEvent) : CanonicalEvent :=
  ev_with e (boot_id e) (ev_process e) (ev_parent_process e) (ev_session e) ns cg cont
    (relationships e) (tags e).
Definition push_edge (r : EntityRelationship) (e : CanonicalEvent) : CanonicalEvent :=
  ev_with e (boot_id e) (ev_process e) (ev_parent_process e) (ev_session e) (ev_namespace e)
    (ev_cgroup e) (ev_container e) (relationships e ++ [r]) (tags e).
Definition push_tag (t : string) (e : CanonicalEvent) : CanonicalEvent :=
  ev_with e (boot_id e) (ev_process e) (ev_parent_process e) (ev_session e) (ev_namespace e)
    (ev_cgroup e) (ev_container e) (relationships e) (tags e ++ [t]).

(** ** [enrich.rs] *)

(** [as u32] truncates. *)
Definition current_ppid (e : CanonicalEvent) : Z :=
  match json_get (event_data e) "ppid" ≫= json_as_u64 with
  | Some v => v mod 2 ^ 32
  | None => 0
  end.

Definition parent_ref (key : ProcessKey) (ppid : Z) : ProcessRef :=
  {| process_key := key; pid := ppid; exe_path := ""; cmdline := []; exe_hash := None;
     start_time_mono := 0 |}.

Definition with_key (p : ProcessRef) (key : ProcessKey) : ProcessRef :=
  {| process_key := key; pid := pid p; exe_path := exe_path p; cmdline := cmdline p;
     exe_hash := exe_hash p; start_time_mono := start_time_mono p |}.

Definition enrich_process_event (e : CanonicalEvent) (r : ProcessResolver)
  : CanonicalEvent * ProcessResolver :=
  match ev_process e with
  | None => (e, r)
  | Some p =>
      let ppid := current_ppid e in
      let r := pr_record (pid p) ppid (process_key p) r in
      (set_parent ((fun k => parent_ref k ppid) <$> resolve_parent r (pid p)) e, r)
  end.

Definition enrich_non_process_event (e : CanonicalEvent) (r : ProcessResolver) : CanonicalEvent :=
  match ev_process e with
  | None => e
  | Some p =>
      let e := match pr_resolve r (pid p) with
               | Some key => set_process (Some (with_key p key)) e
               | None => push_tag "PROCESS_KEY_PROVISIONAL" e
               end in
      set_parent ((fun '(k, pp) => parent_ref k pp) <$> parent_of r (pid p)) e
  end.

Definition login_record (e : CanonicalEvent) (s : SessionRef) : SessionRecord :=
  {| sess_id := session_id s;
     sess_uid := match ev_user e with Some u => uid u | None => 0 end;
     sess_username := ev_user e ≫= username;
     sess_tty := tty s; sess_remote_addr := remote_addr s; sess_auth_method := auth_method s |}.

Definition attach_session (e : CanonicalEvent) (r : SessionResolver)
  : CanonicalEvent * SessionResolver :=
  if decide (ev_category e = CIdentity) then
    match ev_session e, ev_process e with
    | Some s, Some p =>
        match event_type e with
        | SessionLogin | SessionCreate => (e, record_login (pid p) (login_record e s) r)
        | SessionLogout | SessionTerminate => (e, forget (session_id s) r)
        | _ => (e, r)
        end
    | _, _ => (e, r)
    end
  else
    match ev_process e with
    | None => (e, r)
    | Some p =>
        let '(inferred, r) := attach (pid p) (current_ppid e) r in
        let sid := match ev_session e with
                   | Some observed => Some (session_id observed)
                   | None => inferred
                   end in
        match sid ≫= record_for r with
        | None => (e, r)
        | Some record =>
            (set_session (Some {| session_id := sess_id record; tty := sess_tty record;
                                  remote_addr := sess_remote_addr record;
                                  auth_method := sess_auth_method record |}) e, r)
        end
    end.

Definition edge (e : CanonicalEvent) (from to : EntityRef) (rel : Relation) : EntityRelationship :=
  {| er_from := from; er_to := to; er_relation := rel; er_event_id := event_id e;
     er_timestamp := ev_timestamp e |}.

Definition or_else {A} (o p : option A) : option A := match o with Some _ => o | None => p end.

Definition enrich_container_context (fs : ProcFs) (now : Z) (e : CanonicalEvent)
    (r : NsCgroupResolver) : CanonicalEvent * NsCgroupResolver :=
  match ev_process e with
  | None => (e, r)
  | Some p =>
      let '(resolved, r) := ns_resolve fs now (pid p) r in
      match resolved with
      | None => (e, r)
      | Some (ns, cg, cont) =>
          let e := set_context (or_else (ev_namespace e) (Some ns)) (or_else (ev_cgroup e) (Some cg))
                     (ev_container e) e in
          match ev_container e, cont with
          | None, Some c =>
              (push_edge (edge e (EProcess (process_key p)) (EContainer (container_id c))
                            BelongsToContainer)
                 (set_context (ev_namespace e) (ev_cgroup e) (Some c) e), r)
          | _, _ => (e, r)
          end
      end
  end.

Definition attach_session_relationship (e : CanonicalEvent) : CanonicalEvent :=
  if decide (event_type e = ProcessExec) then
    match ev_process e, ev_session e with
    | Some p, Some s =>
        push_edge (edge e (EProcess (process_key p)) (ESession (session_id s)) TriggeredBySession) e
    | _, _ => e
    end
  else e.

Definition attach_executed_as_relationship (e : CanonicalEvent) : CanonicalEvent :=
  if decide (event_type e = PrivilegeUidChange) then
    match ev_process e with
    | None => e
    | Some p =>
        match opt_filter (fits 32) (json_get (event_data e) "target_uid" ≫= json_as_u64) with
        | None => e
        | Some target =>
            if bool_decide (uid <$> ev_user e = Some target) then e
            else push_edge (edge e (EProcess (process_key p)) (EUser (ev_host_id e) target)
                              ExecutedAs) e
        end
    end
  else e.

Definition attach_file_relationship (e : CanonicalEvent) : CanonicalEvent :=
  match ev_process e, ev_file e with
  | Some p, Some f =>
      match from_file_ref f with
      | Some identity =>
          push_edge (edge e (EProcess (process_key p)) (to_entity_ref identity (ev_host_id e)) Wrote) e
      | None => e
      end
  | _, _ => e
  end.

Definition attach_network_relationship (e : CanonicalEvent) : CanonicalEvent :=
  if decide (event_type e = NetworkClose) then e
  else
    match ev_process e, ev_network e with
    | Some p, Some n =>
        let remote := match direction n with Outbound => dst_ip n | Inbound => src_ip n end in
        push_edge (edge e (EProcess (process_key p)) (EIp remote) ConnectedTo) e
    | _, _ => e
    end.

Definition attach_dns_relationships (e : CanonicalEvent) : CanonicalEvent :=
  match ev_dns e with
  | None => e
  | Some d =>
      fold_left (fun e ip => push_edge (edge e (EDomain (dns_query d)) (EIp ip) ResolvedTo) e)
        (response_ips d) e
  end.

Definition attach_relationships (e : CanonicalEvent) : CanonicalEvent :=
  match ev_category e with
  | CFile => attach_file_relationship e
  | CNetwork => attach_network_relationship e
  | CDns => attach_dns_relationships e
  | CProcess => attach_session_relationship e
  | CPrivilege => attach_executed_as_relationship e
  | _ => e
  end.

(** The three resolvers, as [enrich] borrows them. *)
Record Resolved := {
  rs_processes : ProcessResolver; rs_sessions : SessionResolver; rs_ns : NsCgroupResolver }.

Definition enrich (fs : ProcFs) (now : Z) (boot : string) (e : CanonicalEvent) (r : Resolved)
  : CanonicalEvent * Resolved :=
  let e := set_boot boot e in
  let '(e, procs) :=
    match ev_category e with
    | CProcess => enrich_process_event e (rs_processes r)
    | _ => (enrich_non_process_event e (rs_processes r), rs_processes r)
    end in
  let '(e, sess) := attach_session e (rs_sessions r) in
  let '(e, ns) := enrich_container_context fs now e (rs_ns r) in
  let e := attach_relationships e in
  let '(procs, sess) :=
    match event_type e, ev_process e with
    | ProcessExit, Some p => (pr_forget (pid p) procs, forget_pid (pid p) sess)
    | _, _ => (procs, sess)
    end in
  (e, {| rs_processes := procs; rs_sessions := sess; rs_ns := ns |}).

(** ** [validate.rs] *)

Definition opt_blank (o : option string) : bool :=
  match o with Some s => is_blank s | None => true end.

Definition event_valid (e : CanonicalEvent) : bool :=
  negb (ev_host_id e =? 0)
  && bool_decide (ev_category e = category (event_type e))
  && negb (ev_timestamp e =? 0)
  && match event_type e with
     | ProcessExec => negb (is_none (ev_process e))
     | FileCreate | FileWrite | FileDelete => negb (opt_blank (file_path <$> ev_file e))
     | FileRename => negb (opt_blank (file_path <$> ev_file e))
                     && negb (opt_blank (ev_file e ≫= previous_path))
     | NetworkConnect | NetworkAccept | NetworkClose =>
         negb (opt_blank (dst_ip <$> ev_network e)) && negb (opt_blank (src_ip <$> ev_network e))
     | DnsQuery => negb (opt_blank (dns_query <$> ev_dns e))
     | SessionLogin | SessionLogout | SessionCreate | SessionTerminate =>
         negb (opt_blank (session_id <$> ev_session e))
     | PrivilegeUidChange | PrivilegeGidChange | PrivilegeSudo =>
         negb (is_none (ev_process e)) && negb (is_none (ev_user e))
     | _ => true
     end.

Definition validate (e : CanonicalEvent) : bool * CanonicalEvent :=
  if event_valid e then (true, e) else (false, push_tag "INVALID" e).

(** ** [pod_lookup.rs] *)

Definition attach_pod_ref (lookup : string -> option PodRef) (e : CanonicalEvent) : CanonicalEvent :=
  match ev_container e with
  | None => e
  | Some c =>
      match pod_ref c with
      | Some _ => e
      | None => set_context (ev_namespace e) (ev_cgroup e)
                  (Some {| container_id := container_id c; image := image c;
                           container_runtime := container_runtime c;
                           pod_ref := lookup (container_id c) |}) e
      end
  end.

(** ** [pipeline.rs] *)

Record Pipeline := {
  pl_host : HostRef; pl_boot_id : string; pl_resolved : Resolved;
  priority_table : PriorityTable; pod_lookup : option (string -> option PodRef) }.

Definition pipeline_new (host : HostRef) (boot : string) : Pipeline :=
  {| pl_host := host; pl_boot_id := boot;
     pl_resolved := {| rs_processes := ∅; rs_sessions := sessions_new; rs_ns := ns_new |};
     priority_table := default_table; pod_lookup := None |}.

Definition with_pod_lookup (l : string -> option PodRef) (p : Pipeline) : Pipeline :=
  {| pl_host := pl_host p; pl_boot_id := pl_boot_id p; pl_resolved := pl_resolved p;
     priority_table := priority_table p; pod_lookup := Some l |}.

Definition with_resolved (r : Resolved) (p : Pipeline) : Pipeline :=
  {| pl_host := pl_host p; pl_boot_id := pl_boot_id p; pl_resolved := r;
     priority_table := priority_table p; pod_lookup := pod_lookup p |}.

(** What the surroundings supply to one call: the fresh id, the clock and [/proc]. *)
Record CallEnv := { env_id : Uuid; env_now : Z; env_proc : ProcFs }.

Definition process `{Sha256} (p : Pipeline) (env : CallEnv) (raw : RawEvent)
  : PrioritizedEvent * Pipeline :=
  let e := normalize (env_id env) (pl_host p) (pl_boot_id p) raw in
  let '(e, r) := enrich (env_proc env) (env_now env) (pl_boot_id p) e (pl_resolved p) in
  let e := match pod_lookup p with Some l => attach_pod_ref l e | None => e end in
  let '(_, e) := validate e in
  ({| pe_event := e; pe_lane := prioritize e (priority_table p) |}, with_resolved r p).

(** ** What enrichment leaves alone

    [core] blanks the fields enrichment may assign; two events with one core agree on
    everything else. *)

Definition core (e : CanonicalEvent) : CanonicalEvent :=
  ev_with e "" None None None None None None [] [].

Lemma core_fields e e' : core e' = core e ->
  event_id e' = event_id e /\ schema_version e' = schema_version e
  /\ ev_host_id e' = ev_host_id e /\ ev_timestamp e' = ev_timestamp e
  /\ event_type e' = event_type e /\ ev_category e' = ev_category e /\ ev_user e' = ev_user e
  /\ ev_file e' = ev_file e /\ ev_network e' = ev_network e /\ ev_dns e' = ev_dns e
  /\ event_data e' = event_data e.
Proof.
  intros E. exact (conj (f_equal event_id E) (conj (f_equal schema_version E)
    (conj (f_equal ev_host_id E) (conj (f_equal ev_timestamp E) (conj (f_equal event_type E)
    (conj (f_equal ev_category E) (conj (f_equal ev_user E) (conj (f_equal ev_file E)
    (conj (f_equal ev_network E) (conj (f_equal ev_dns E) (f_equal event_data E))))))))))).
Qed.

Lemma core_dns_edges d l : forall e,
  core (fold_left (fun e ip => push_edge (edge e (EDomain d) (EIp ip) ResolvedTo) e) l e) = core e.
Proof. induction l as [|ip l IH]; intros e; [done|]. cbn [fold_left]. by rewrite IH. Qed.

Lemma attach_relationships_frame e :
  core (attach_relationships e) = core e
  /\ ev_process (attach_relationships e) = ev_process e
  /\ ev_session (attach_relationships e) = ev_session e
  /\ ev_container (attach_relationships e) = ev_container e
  /\ boot_id (attach_relationships e) = boot_id e
  /\ tags (attach_relationships e) = tags e.
Proof.
  unfold attach_relationships, attach_file_relationship, attach_network_relationship,
    attach_dns_relationships, attach_session_relationship, attach_executed_as_relationship.
  destruct (ev_category e); try done; try (repeat case_match; done).
  destruct (ev_dns e) as [d|]; [|done]. generalize (response_ips d). clear. intros l.
  induction l as [|ip l IH] using rev_ind; [done|]. rewrite fold_left_app. exact IH.
Qed.

Lemma attach_session_frame e r :
  core (attach_session e r).1 = core e
  /\ ev_process (attach_session e r).1 = ev_process e
  /\ ev_container (attach_session e r).1 = ev_container e
  /\ boot_id (attach_session e r).1 = boot_id e
  /\ tags (attach_session e r).1 = tags e
  /\ relationships (attach_session e r).1 = relationships e
  /\ (ev_category e = CIdentity -> ev_session (attach_session e r).1 = ev_session e).
Proof.
  unfold attach_session. destruct (decide (ev_category e = CIdentity)) as [Hc|Hc].
  - by destruct (ev_session e) eqn:?, (ev_process e) eqn:?; [destruct (event_type e)|..]; split_and!.
  - destruct (ev_process e) as [p|] eqn:Ep; [|done].
    destruct (attach (pid p) (current_ppid e) r) as [inferred r'].
    destruct (_ ≫= record_for r') eqn:Es; by split_and!.
Qed.

Lemma container_context_frame fs now e r :
  core (enrich_container_context fs now e r).1 = core e
  /\ ev_process (enrich_container_context fs now e r).1 = ev_process e
  /\ ev_session (enrich_container_context fs now e r).1 = ev_session e
  /\ boot_id (enrich_container_context fs now e r).1 = boot_id e
  /\ tags (enrich_container_context fs now e r).1 = tags e.
Proof.
  unfold enrich_container_context. destruct (ev_process e) as [p|] eqn:Ep; [|done].
  destruct (ns_resolve fs now (pid p) r) as [[[[ns cg] cont]|] r']; [|done].
  cbv zeta. cbn [set_context ev_with ev_container].
  by destruct (ev_container e) eqn:?, cont; split_and!.
Qed.

Lemma process_event_frame e r :
  core (enrich_process_event e r).1 = core e
  /\ ev_process (enrich_process_event e r).1 = ev_process e
  /\ ev_session (enrich_process_event e r).1 = ev_session e
  /\ ev_container (enrich_process_event e r).1 = ev_container e
  /\ boot_id (enrich_process_event e r).1 = boot_id e
  /\ tags (enrich_process_event e r).1 = tags e
  /\ relationships (enrich_process_event e r).1 = relationships e.
Proof. unfold enrich_process_event. by destruct (ev_process e) eqn:?. Qed.

Lemma non_process_event_frame e r :
  core (enrich_non_process_event e r) = core e
  /\ pid <$> ev_process (enrich_non_process_event e r) = pid <$> ev_process e
  /\ ev_session (enrich_non_process_event e r) = ev_session e
  /\ ev_container (enrich_non_process_event e r) = ev_container e
  /\ boot_id (enrich_non_process_event e r) = boot_id e
  /\ relationships (enrich_non_process_event e r) = relationships e
  /\ (tags (enrich_non_process_event e r) = tags e
      \/ tags (enrich_non_process_event e r) = tags e ++ ["PROCESS_KEY_PROVISIONAL"]).
Proof.
  unfold enrich_non_process_event. destruct (ev_process e) as [p|] eqn:Ep.
  2:{ rewrite Ep. split_and!; auto. }
  cbv zeta. destruct (pr_resolve r (pid p)); split_and!; try done; cbn; rewrite ?Ep; auto.
Qed.

(** The whole of [enrich]. *)
Record enriched (e e' : CanonicalEvent) : Prop := {
  en_core : core e' = core e;
  en_pid : pid <$> ev_process e' = pid <$> ev_process e;
  en_identity : ev_category e = CIdentity -> ev_session e' = ev_session e;
  en_tags : tags e' = tags e \/ tags e' = tags e ++ ["PROCESS_KEY_PROVISIONAL"];
}.

Lemma enrich_frame fs now boot e r :
  enriched e (enrich fs now boot e r).1 /\ boot_id (enrich fs now boot e r).1 = boot.
Proof.
  unfold enrich. set (e0 := set_boot boot e).
  assert (exists e1 procs, (match ev_category e0 with
            | CProcess => enrich_process_event e0 (rs_processes r)
            | _ => (enrich_non_process_event e0 (rs_processes r), rs_processes r)
            end) = (e1, procs)
          /\ core e1 = core e /\ pid <$> ev_process e1 = pid <$> ev_process e
          /\ ev_session e1 = ev_session e /\ boot_id e1 = boot
          /\ (tags e1 = tags e \/ tags e1 = tags e ++ ["PROCESS_KEY_PROVISIONAL"]))
    as (e1 & procs & -> & Hc1 & Hp1 & Hs1 & Hb1 & Ht1).
  { destruct (process_event_frame e0 (rs_processes r)) as (A1 & A2 & A3 & _ & A5 & A6 & _).
    destruct (non_process_event_frame e0 (rs_processes r)) as (B1 & B2 & B3 & _ & B5 & _ & B7).
    destruct (ev_category e0); (eexists _, _; split; [apply surjective_pairing|]);
      cbn [fst]; split_and!; auto; by rewrite A2. }
  cbv zeta. destruct (attach_session_frame e1 (rs_sessions r)) as (C1 & C2 & _ & C4 & C5 & _ & C7).
  destruct (attach_session e1 (rs_sessions r)) as [e2 sess]. cbn [fst] in *.
  destruct (container_context_frame fs now e2 (rs_ns r)) as (D1 & D2 & D3 & D4 & D5).
  destruct (enrich_container_context fs now e2 (rs_ns r)) as [e3 ns]. cbn [fst] in *.
  destruct (attach_relationships_frame e3) as (F1 & F2 & F3 & _ & F5 & F6).
  destruct (match event_type _ with ProcessExit => _ | _ => _ end) as [procs' sess'].
  cbn [fst]. split; [|congruence]. constructor.
  - congruence.
  - congruence.
  - intros Hid. rewrite F3, D3, C7; [done|].
    destruct (core_fields _ _ Hc1) as (_ & _ & _ & _ & _ & -> & _). done.
  - rewrite F6, D5, C5. done.
Qed.

(** Validity only reads what enrichment leaves alone. *)
Lemma event_valid_enriched e e' : enriched e e' ->
  ev_category e = category (event_type e) -> event_valid e' = event_valid e.
Proof.
  intros [Hc Hp Hs _] Hcat.
  destruct (core_fields _ _ Hc) as (_ & _ & E3 & E4 & E5 & E6 & E7 & E8 & E9 & E10 & _).
  unfold event_valid. rewrite E3, E4, E5, E6, E7, E8, E9, E10.
  assert (is_none (ev_process e') = is_none (ev_process e)) as ->
    by (by destruct (ev_process e), (ev_process e')).
  destruct (event_type e) eqn:Et; try done; rewrite Hs; done.
Qed.

End Enrich.

(** ** The type of every event *)

(** What makes a raw event valid. *)
Definition raw_valid (host : HostRef) (raw : RawEvent) : bool :=
  negb (host_ref_id host =? 0) && negb (raw_timestamp_ns raw =? 0)
  && match raw with
     | RFile f =>
         negb (is_blank (fe_path f))
         && match fe_operation f with FoRename => negb (opt_blank (fe_previous_path f)) | _ => true end
     | RNetwork n => negb (is_blank (ne_local_addr n)) && negb (is_blank (ne_remote_addr n))
     | RDns d => negb (is_blank (de_query d))
     | RIdentity i => negb (is_blank (ie_session_id i))
     | _ => true
     end.

Section Process.
Context `{JM : JsonMake} `{Sha256}.

Lemma normalize_fields id host boot raw :
  event_id (normalize id host boot raw) = id
  /\ schema_version (normalize id host boot raw) = SCHEMA_VERSION
  /\ ev_host_id (normalize id host boot raw) = host_ref_id host
  /\ ev_timestamp (normalize id host boot raw) = raw_timestamp_ns raw
  /\ ev_category (normalize id host boot raw) = category (event_type (normalize id host boot raw))
  /\ relationships (normalize id host boot raw) = []
  /\ (tags (normalize id host boot raw) = [] \/ tags (normalize id host boot raw) = ["USER_REF_PARTIAL"]).
Proof.
  destruct raw as [p|p|f|n|d|i|p|s|p|c|a]; cbn [normalize]; try by (split_and!; try done; auto).
  - unfold normalize_file_event. cbn. destruct (fe_operation f); (split_and!; try done; auto).
  - unfold normalize_network_event. destruct (ne_direction n), (ne_operation n); (split_and!; try done; auto).
  - unfold normalize_identity_event. cbn. destruct (ie_operation i); (split_and!; try done; auto).
  - unfold normalize_privilege_event. cbn.
    destruct (pv_operation p), (is_none _ || _ || _); (split_and!; try done; auto).
  - unfold normalize_systemd_event. cbn. destruct (sd_operation s); (split_and!; try done; auto).
  - unfold normalize_persistence_event, classify_persistence_event.
    destruct (pp_checkpoint_kind p), (pp_operation p); (split_and!; try done; auto).
  - unfold normalize_container_event. cbn. destruct (ce_operation c); (split_and!; try done; auto).
Qed.

Lemma normalize_valid id host boot raw :
  event_valid (normalize id host boot raw) = raw_valid host raw.
Proof.
  unfold event_valid, raw_valid. destruct (normalize_fields id host boot raw) as (_ & _ & -> & -> & -> & _).
  rewrite bool_decide_true by done. rewrite andb_true_r. f_equal.
  destruct raw as [p|p|f|n|d|i|p|s|p|c|a]; cbn [normalize]; try done.
  - unfold normalize_file_event. cbn. by destruct (fe_operation f); cbn; rewrite ?andb_true_r.
  - unfold normalize_network_event.
    destruct (ne_direction n), (ne_operation n); cbn; try done; apply andb_comm.
  - unfold normalize_identity_event. cbn. by destruct (ie_operation i).
  - unfold normalize_privilege_event. cbn. by destruct (pv_operation p).
  - unfold normalize_systemd_event. cbn. by destruct (sd_operation s).
  - unfold normalize_persistence_event, classify_persistence_event.
    by destruct (pp_checkpoint_kind p), (pp_operation p).
  - unfold normalize_container_event. cbn. by destruct (ce_operation c).
Qed.

(** The event [process] returns: enriched from the normalised one, its container possibly
    given a pod, and a tag when it is not valid. *)
Lemma process_event p env raw :
  exists e, enriched (normalize (env_id env) (pl_host p) (pl_boot_id p) raw) e
    /\ e = (enrich (env_proc env) (env_now env) (pl_boot_id p)
              (normalize (env_id env) (pl_host p) (pl_boot_id p) raw) (pl_resolved p)).1
    /\ let out := pe_event (process p env raw).1 in
       core out = core e /\ ev_process out = ev_process e /\ ev_session out = ev_session e
       /\ boot_id out = pl_boot_id p /\ relationships out = relationships e
       /\ tags out = tags e ++ (if raw_valid (pl_host p) raw then [] else ["INVALID"]).
Proof.
  unfold process. set (e0 := normalize _ _ _ raw).
  destruct (enrich_frame (env_proc env) (env_now env) (pl_boot_id p) e0 (pl_resolved p)) as [Hen Hb].
  destruct (enrich _ _ _ e0 _) as [e r]. cbn [fst] in *. exists e. split; [done|]. split; [done|].
  assert (event_valid e = raw_valid (pl_host p) raw) as Hv.
  { rewrite (event_valid_enriched e0 e Hen), <- (normalize_valid (env_id env) _ (pl_boot_id p)); [done|].
    apply normalize_fields. }
  set (e' := match pod_lookup p with Some l => attach_pod_ref l e | None => e end).
  assert (core e' = core e /\ ev_process e' = ev_process e /\ ev_session e' = ev_session e
          /\ boot_id e' = boot_id e /\ relationships e' = relationships e /\ tags e' = tags e
          /\ event_valid e' = event_valid e) as (A1 & A2 & A3 & A4 & A5 & A6 & A7).
  { unfold e'. destruct (pod_lookup p) as [l|]; [|done]. unfold attach_pod_ref.
    destruct (ev_container e) as [c|] eqn:?; [|done]. by destruct (pod_ref c). }
  unfold validate. rewrite A7, Hv. destruct (raw_valid (pl_host p) raw); cbn.
  - split_and!; try congruence. by rewrite app_nil_r.
  - split_and!; try congruence. exact A1.
Qed.

End Process.

(** C18. Every raw event becomes one canonical event of the declared shape: it carries the
    fresh id, the host, the boot id, the time stamp of the raw event and the schema
    version, its category is the category of its type, its lane is the one its type has in
    the priority table, and it is tagged INVALID exactly when the host id is nil, the time
    stamp is zero, or the field that names its subject is blank (path, source of a rename,
    addresses, query, session id). *)
Theorem process_event_typed `{JM : JsonMake} `{Sha256} p env raw :
  let out := (process p env raw).1 in
  let e := pe_event out in
  event_id e = env_id env /\ schema_version e = SCHEMA_VERSION
  /\ ev_host_id e = host_ref_id (pl_host p) /\ boot_id e = pl_boot_id p
  /\ ev_timestamp e = raw_timestamp_ns raw
  /\ ev_category e = category (event_type e)
  /\ pe_lane out = lane_for (priority_table p) e
  /\ ("INVALID" ∈ tags e <-> raw_valid (pl_host p) raw = false).
Proof.
  destruct (process_event p env raw) as (e & Hen & _ & Hc & _ & _ & Hb & _ & Ht).
  destruct (normalize_fields (env_id env) (pl_host p) (pl_boot_id p) raw)
    as (N1 & N2 & N3 & N4 & N5 & _ & N7).
  cbv zeta. rewrite (en_core _ _ Hen) in Hc.
  destruct (core_fields _ _ Hc) as (-> & -> & -> & -> & -> & -> & _).
  split_and!; try done.
  - unfold process. destruct (enrich _ _ _ _ _) as [e1 r1]. by destruct (validate _).
  - rewrite Ht. assert ("INVALID" ∉ tags e) as Hn.
    { destruct (en_tags _ _ Hen) as [->| ->], N7 as [->| ->]; cbn; set_solver. }
    destruct (raw_valid (pl_host p) raw); set_solver.
Qed.

(** ** Runs *)

Section Runs.
Context `{JM : JsonMake} `{Sha256}.

Fixpoint run (p : Pipeline) (calls : list (CallEnv * RawEvent)) : list PrioritizedEvent * Pipeline :=
  match calls with
  | [] => ([], p)
  | (env, raw) :: calls =>
      let '(out, p) := process p env raw in
      let '(outs, p) := run p calls in
      (out :: outs, p)
  end.

Lemma run_app p l m : run p (l ++ m) = ((run p l).1 ++ (run (run p l).2 m).1, (run (run p l).2 m).2).
Proof.
  revert p; induction l as [|[env raw] l IH]; intros p; cbn [run app].
  - apply surjective_pairing.
  - destruct (process p env raw) as [out p']. rewrite IH. destruct (run p' l) as [outs p'']. done.
Qed.

Lemma run_fixed p calls : pl_host (run p calls).2 = pl_host p /\ pl_boot_id (run p calls).2 = pl_boot_id p.
Proof.
  revert p; induction calls as [|[env raw] calls IH]; intros p; [done|]. cbn [run].
  assert (pl_host (process p env raw).2 = pl_host p /\ pl_boot_id (process p env raw).2 = pl_boot_id p)
    as [E1 E2].
  { unfold process. destruct (enrich _ _ _ _ _). by destruct (validate _). }
  destruct (process p env raw) as [out p']. cbn in E1, E2. specialize (IH p').
  destruct (run p' calls). cbn in *. destruct IH. split; congruence.
Qed.

(** The key of the exec that a pid is running, if it was seen and has not exited. *)
Definition exec_key (host : HostRef) (boot : string) (x : ProcessExecRaw) : ProcessKey :=
  process_key_new (host_ref_id host) boot (px_pid x) (px_start_time_mono x).

Definition live_step (host : HostRef) (boot : string) (q : Z) (acc : option ProcessKey)
    (raw : RawEvent) : option ProcessKey :=
  match raw with
  | RProcessExec x => if px_pid x =? q then Some (exec_key host boot x) else acc
  | RProcessExit x => if pt_pid x =? q then None else acc
  | _ => acc
  end.

Definition live (host : HostRef) (boot : string) (hist : list RawEvent) (q : Z) : option ProcessKey :=
  fold_left (live_step host boot q) hist None.

(** The process table after one event. *)
Lemma enrich_processes fs now boot e r :
  rs_processes (enrich fs now boot e r).2
  = match ev_category e, event_type e, ev_process e with
    | CProcess, ProcessExit, Some pr => delete (pid pr) (rs_processes r)
    | CProcess, _, Some pr =>
        <[pid pr := (process_key pr, current_ppid e)]> (rs_processes r)
    | _, ProcessExit, Some pr => delete (pid pr) (rs_processes r)
    | _, _, _ => rs_processes r
    end.
Proof.
  unfold enrich. set (e0 := set_boot boot e).
  destruct (process_event_frame e0 (rs_processes r)) as (A1 & A2 & _).
  destruct (non_process_event_frame e0 (rs_processes r)) as (B1 & B2 & _).
  assert (exists e1, (match ev_category e0 with
            | CProcess => enrich_process_event e0 (rs_processes r)
            | _ => (enrich_non_process_event e0 (rs_processes r), rs_processes r)
            end) = (e1, match ev_category e, ev_process e with
                        | CProcess, Some pr =>
                            <[pid pr := (process_key pr, current_ppid e)]> (rs_processes r)
                        | _, _ => rs_processes r end)
          /\ core e1 = core e /\ pid <$> ev_process e1 = pid <$> ev_process e)
    as (e1 & -> & Hc1 & Hp1).
  { change (ev_category e0) with (ev_category e).
    assert ((enrich_process_event e0 (rs_processes r)).2
            = match ev_process e with
              | Some pr => <[pid pr := (process_key pr, current_ppid e)]> (rs_processes r)
              | None => rs_processes r end) as Hr
      by (unfold enrich_process_event; change (ev_process e0) with (ev_process e);
          by destruct (ev_process e)).
    destruct (ev_category e); try (eexists; split; [reflexivity|by split]).
    exists (enrich_process_event e0 (rs_processes r)).1. rewrite <- Hr.
    split; [apply surjective_pairing|]. rewrite A2. by split. }
  cbv zeta. destruct (attach_session_frame e1 (rs_sessions r)) as (C1 & C2 & _).
  destruct (attach_session e1 (rs_sessions r)) as [e2 sess]. cbn [fst] in *.
  destruct (container_context_frame fs now e2 (rs_ns r)) as (D1 & D2 & _).
  destruct (enrich_container_context fs now e2 (rs_ns r)) as [e3 ns]. cbn [fst] in *.
  destruct (attach_relationships_frame e3) as (F1 & F2 & _).
  assert (core (attach_relationships e3) = core e) as Hc by congruence.
  destruct (core_fields _ _ Hc) as (_ & _ & _ & _ & -> & _).
  rewrite F2, D2, C2. destruct (ev_process e1) as [pr1|] eqn:E1, (ev_process e) as [pr|] eqn:E;
    try discriminate Hp1; [injection Hp1 as Hp1; rewrite Hp1|].
  - destruct (ev_category e), (event_type e); try done. apply delete_insert_eq.
  - by destruct (ev_category e), (event_type e).
Qed.

Lemma process_processes p env raw :
  rs_processes (pl_resolved (process p env raw).2)
  = match raw with
    | RProcessExec x =>
        <[px_pid x := (exec_key (pl_host p) (pl_boot_id p) x,
                       current_ppid (normalize (env_id env) (pl_host p) (pl_boot_id p) raw))]>
          (rs_processes (pl_resolved p))
    | RProcessExit x => delete (pt_pid x) (rs_processes (pl_resolved p))
    | _ => rs_processes (pl_resolved p)
    end.
Proof.
  unfold process. set (e0 := normalize _ _ _ raw).
  pose proof (enrich_processes (env_proc env) (env_now env) (pl_boot_id p) e0 (pl_resolved p)) as E.
  destruct (enrich _ _ _ e0 _) as [e r]. destruct (validate _) as [b e'].
  cbn [snd with_resolved pl_resolved] in *. rewrite E. unfold e0.
  destruct raw as [x|x|f|n|d|i|v|s|x|c|a]; cbn [normalize].
  - done.
  - done.
  - unfold normalize_file_event. cbn. by destruct (fe_operation f).
  - unfold normalize_network_event. by destruct (ne_direction n), (ne_operation n), (ne_pid n).
  - unfold normalize_dns_event. cbn. by destruct (de_pid d).
  - unfold normalize_identity_event. cbn. by destruct (ie_operation i).
  - unfold normalize_privilege_event. cbn. by destruct (pv_operation v).
  - unfold normalize_systemd_event. cbn. by destruct (sd_operation s).
  - unfold normalize_persistence_event, classify_persistence_event.
    by destruct (pp_checkpoint_kind x), (pp_operation x).
  - unfold normalize_container_event. cbn. by destruct (ce_operation c), (ce_pid c).
  - done.
Qed.

(** The process table holds exactly the live execs. *)
Lemma run_processes host boot calls q :
  fst <$> rs_processes (pl_resolved (run (pipeline_new host boot) calls).2) !! q
  = live host boot (map snd calls) q.
Proof.
  induction calls as [|[env raw] calls IH] using rev_ind; [done|].
  rewrite run_app. cbn [run snd]. set (p := (run (pipeline_new host boot) calls).2) in *.
  destruct (run_fixed (pipeline_new host boot) calls) as [Eh Eb]. fold p in Eh, Eb.
  cbn in Eh, Eb. rewrite map_app. unfold live. rewrite fold_left_app. cbn [map fold_left snd].
  fold (live host boot (map snd calls) q). rewrite <- IH.
  pose proof (process_processes p env raw) as Hp.
  destruct (process p env raw) as [out p']. cbn [snd] in *. rewrite Hp, Eh, Eb.
  destruct raw as [x|x|f|n|d|i|v|s|x|c|a]; cbn [live_step]; try done.
  - destruct (Z.eqb_spec (px_pid x) q) as [<-|]; [by rewrite lookup_insert_eq|].
    by rewrite lookup_insert_ne.
  - destruct (Z.eqb_spec (pt_pid x) q) as [<-|]; [by rewrite lookup_delete_eq|].
    by rewrite lookup_delete_ne.
Qed.

(** The pid an event that is not itself a process event is about. *)
Definition subject_pid (raw : RawEvent) : option Z :=
  match raw with
  | RFile f => Some (fe_pid f)
  | RNetwork n => ne_pid n
  | RDns d => de_pid d
  | RIdentity i => Some (ie_pid i)
  | RPrivilege v => Some (pv_pid v)
  | RSystemd s => Some (sd_pid s)
  | RContainer c => ce_pid c
  | _ => None
  end.

Lemma normalize_subject id host boot raw q : subject_pid raw = Some q ->
  exists pr, ev_process (normalize id host boot raw) = Some pr /\ pid pr = q
    /\ process_key pr = process_key_new (host_ref_id host) boot q 0
    /\ ev_category (normalize id host boot raw) <> CProcess.
Proof.
  destruct raw as [x|x|f|n|d|i|v|s|x|c|a]; cbn [subject_pid normalize]; intros E; simplify_eq;
    unfold normalize_network_event, normalize_dns_event, normalize_container_event.
  all: try (eexists; split_and!; done).
  - destruct (ne_direction n); cbn; rewrite E; eexists; by split_and!.
  - cbn. rewrite E. eexists; by split_and!.
  - cbn. rewrite E. eexists; by split_and!.
Qed.

Lemma enrich_subject fs now boot e r pr :
  ev_category e <> CProcess -> ev_process e = Some pr ->
  ev_process (enrich fs now boot e r).1
  = Some (match pr_resolve (rs_processes r) (pid pr) with Some k => with_key pr k | None => pr end)
  /\ tags (enrich fs now boot e r).1
     = match pr_resolve (rs_processes r) (pid pr) with
       | Some _ => tags e
       | None => tags e ++ ["PROCESS_KEY_PROVISIONAL"]
       end.
Proof.
  intros Hcat Hpr. unfold enrich. set (e0 := set_boot boot e).
  replace (match ev_category e0 with
           | CProcess => enrich_process_event e0 (rs_processes r)
           | _ => (enrich_non_process_event e0 (rs_processes r), rs_processes r)
           end) with (enrich_non_process_event e0 (rs_processes r), rs_processes r)
    by (change (ev_category e0) with (ev_category e); by destruct (ev_category e)).
  cbv zeta. set (e1 := enrich_non_process_event e0 (rs_processes r)).
  destruct (attach_session_frame e1 (rs_sessions r)) as (_ & C2 & _ & _ & C5 & _).
  destruct (attach_session e1 (rs_sessions r)) as [e2 sess]. cbn [fst] in *.
  destruct (container_context_frame fs now e2 (rs_ns r)) as (_ & D2 & _ & _ & D5).
  destruct (enrich_container_context fs now e2 (rs_ns r)) as [e3 ns]. cbn [fst] in *.
  destruct (attach_relationships_frame e3) as (_ & F2 & _ & _ & _ & F6).
  destruct (match event_type _ with ProcessExit => _ | _ => _ end) as [procs' sess'].
  cbn [fst]. rewrite F2, F6, D2, D5, C2, C5. unfold e1, enrich_non_process_event.
  change (ev_process e0) with (ev_process e). rewrite Hpr. cbv zeta.
  destruct (pr_resolve (rs_processes r) (pid pr)); by split.
Qed.

End Runs.

(** C17. All events of a process share one identity: after any sequence of events, an event
    that names a pid (file, network, DNS, identity, privilege, systemd, container) carries
    the process key of the last exec seen for that pid, if that process has not exited
    since; otherwise it carries the provisional key (start time 0) and the tag that says
    so. *)
Theorem process_identity_shared `{JM : JsonMake} `{Sha256} host boot calls env raw q :
  subject_pid raw = Some q ->
  let e := pe_event (process (run (pipeline_new host boot) calls).2 env raw).1 in
  exists pr, ev_process e = Some pr /\ pid pr = q
    /\ match live host boot (map snd calls) q with
       | Some key => process_key pr = key /\ "PROCESS_KEY_PROVISIONAL" ∉ tags e
       | None => process_key pr = process_key_new (host_ref_id host) boot q 0
                 /\ "PROCESS_KEY_PROVISIONAL" ∈ tags e
       end.
Proof.
  intros Hq. set (p := (run (pipeline_new host boot) calls).2). cbv zeta.
  destruct (run_fixed (pipeline_new host boot) calls) as [Eh Eb]. fold p in Eh, Eb. cbn in Eh, Eb.
  destruct (process_event p env raw) as (e & _ & He & _ & -> & _ & _ & _ & ->).
  destruct (normalize_subject (env_id env) host boot raw q Hq) as (pr & Hpr & Hpid & Hkey & Hcat).
  destruct (normalize_fields (env_id env) host boot raw) as (_ & _ & _ & _ & _ & _ & Htags).
  rewrite Eh, Eb in *.
  destruct (enrich_subject (env_proc env) (env_now env) boot _ (pl_resolved p) pr Hcat Hpr) as [E1 E2].
  rewrite <- He in E1, E2. rewrite E1. eexists. split; [done|].
  rewrite <- run_processes. fold p. unfold pr_resolve in *. rewrite Hpid in *.
  assert (forall t, t = "PROCESS_KEY_PROVISIONAL" ->
            t ∉ (tags (normalize (env_id env) host boot raw))
            /\ t ∉ (if raw_valid host raw then [] else ["INVALID"])) as Hno.
  { intros t ->. destruct Htags as [->| ->], (raw_valid host raw); split; set_solver. }
  destruct (Hno _ eq_refl) as [Hno1 Hno2]. rewrite E2.
  destruct (rs_processes (pl_resolved p) !! q) as [[k pp]|]; cbn [fmap option_fmap option_map fst].
  - split; [done|]. split; [done|]. rewrite elem_of_app. naive_solver.
  - split; [done|]. split; [done|]. rewrite !elem_of_app. left. right. by left.
Qed.

(** ** Sessions *)

Section Sessions.
Context `{JM : JsonMake} `{Sha256}.

Lemma attach_lookup q pp r s : (attach q pp r).1 = Some s -> by_pid (attach q pp r).2 !! q = Some s.
Proof.
  unfold attach. destruct (by_pid r !! q) eqn:E; [by intros [= ->]|].
  destruct (pp =? 0); [done|]. destruct (by_pid r !! pp); [|done].
  intros [= ->]. cbn. apply lookup_insert_eq.
Qed.

Lemma attach_session_exact e r pr :
  session_ok r -> ev_category e <> CIdentity -> ev_process e = Some pr ->
  session_id <$> ev_session (attach_session e r).1
  = match ev_session e with
    | Some s => Some (session_id s)
    | None => (attach (pid pr) (current_ppid e) r).1
    end.
Proof.
  intros Hok Hcat Hpr. unfold attach_session. rewrite decide_False, Hpr by done.
  pose proof (attach_ok (pid pr) (current_ppid e) r Hok) as Hok'.
  pose proof (attach_lookup (pid pr) (current_ppid e) r) as Hl.
  destruct (attach (pid pr) (current_ppid e) r) as [inferred r']. cbn [fst snd] in *.
  destruct (ev_session e) as [s|] eqn:Es.
  - cbn [mbind option_bind]. destruct (record_for r' (session_id s)) as [rec|] eqn:Er.
    + cbn. f_equal. by apply (so_named r' Hok').
    + cbn. by rewrite Es.
  - destruct inferred as [s|]; cbn [mbind option_bind]; [|cbn; by rewrite Es].
    destruct (so_known r' Hok' (pid pr) s (Hl s eq_refl)) as [rec Hrec].
    unfold record_for. rewrite Hrec. cbn. f_equal. by apply (so_named r' Hok').
Qed.

Lemma attach_session_ok e r : session_ok r -> session_ok (attach_session e r).2.
Proof.
  intros Hok. unfold attach_session. case_decide.
  - destruct (ev_session e), (ev_process e); try done.
    destruct (event_type e); try done; try (by apply login_ok); by apply forget_ok.
  - destruct (ev_process e) as [pr|]; [|done].
    pose proof (attach_ok (pid pr) (current_ppid e) r Hok) as Hok'.
    destruct (attach (pid pr) (current_ppid e) r) as [inferred r']. by destruct (_ ≫= _).
Qed.

Lemma enrich_session_ok fs now boot e r :
  session_ok (rs_sessions r) -> session_ok (rs_sessions (enrich fs now boot e r).2).
Proof.
  intros Hok. unfold enrich. destruct (match ev_category _ with CProcess => _ | _ => _ end) as [e1 procs].
  pose proof (attach_session_ok e1 _ Hok) as Hok'. destruct (attach_session e1 _) as [e2 sess].
  destruct (enrich_container_context fs now e2 _) as [e3 ns]. cbv zeta.
  destruct (event_type (attach_relationships e3)), (ev_process (attach_relationships e3));
    try done. by apply forget_pid_ok.
Qed.

Lemma run_session_ok host boot calls :
  session_ok (rs_sessions (pl_resolved (run (pipeline_new host boot) calls).2)).
Proof.
  induction calls as [|[env raw] calls IH] using rev_ind; [done|].
  rewrite run_app. cbn [run snd]. set (p := (run (pipeline_new host boot) calls).2) in *.
  assert (session_ok (rs_sessions (pl_resolved (process p env raw).2))) as Hp.
  { unfold process. pose proof (enrich_session_ok (env_proc env) (env_now env) (pl_boot_id p)
      (normalize (env_id env) (pl_host p) (pl_boot_id p) raw) (pl_resolved p) IH) as Hok.
    destruct (enrich _ _ _ _ _). by destruct (validate _). }
  by destruct (process p env raw).
Qed.

(** The pid and the reported parent of an event that takes its session from the resolver. *)
Definition session_subject (raw : RawEvent) : option (Z * Z) :=
  match raw with
  | RProcessExec x => Some (px_pid x, px_ppid x)
  | RProcessExit x => Some (pt_pid x, pt_ppid x)
  | RFile f => Some (fe_pid f, fe_ppid f)
  | RNetwork n => (fun q => (q, 0)) <$> ne_pid n
  | RDns d => (fun q => (q, 0)) <$> de_pid d
  | RPrivilege v => Some (pv_pid v, pv_ppid v)
  | RSystemd s => Some (sd_pid s, 0)
  | RContainer c => (fun q => (q, 0)) <$> ce_pid c
  | _ => None
  end.

(** The session the record itself reports. *)
Definition observed_session (raw : RawEvent) : option string :=
  match raw with
  | RPrivilege v => pv_session_id v
  | RSystemd s => sd_session_id s
  | _ => None
  end.

Lemma ppid_of_obj l v : NoDup (map fst l) -> assoc_get "ppid" l = Some (j_int v) -> fits 32 v = true ->
  match json_get (j_obj l) "ppid" ≫= json_as_u64 with Some v => v mod 2 ^ 32 | None => 0 end = v.
Proof.
  intros Hnd Hl Hv%fits_iff. rewrite json_get_obj, Hl by done. cbn [mbind option_bind].
  rewrite json_as_u64_int by lia. by apply Z.mod_small.
Qed.

Lemma no_ppid l : NoDup (map fst l) -> assoc_get "ppid" l = None ->
  match json_get (j_obj l) "ppid" ≫= json_as_u64 with Some v => v mod 2 ^ 32 | None => 0 end = 0.
Proof. intros Hnd Hl. by rewrite json_get_obj, Hl. Qed.

Lemma normalize_session_subject id host boot raw q pp :
  session_subject raw = Some (q, pp) -> fits 32 pp = true ->
  let e := normalize id host boot raw in
  (exists pr, ev_process e = Some pr /\ pid pr = q)
  /\ current_ppid e = pp /\ ev_category e <> CIdentity
  /\ session_id <$> ev_session e = observed_session raw.
Proof.
  intros Hs Hpp. unfold current_ppid.
  destruct raw as [x|x|f|n|d|i|v|s|x|c|a]; cbn [session_subject] in Hs; simplify_option_eq;
    cbn [normalize observed_session];
    unfold normalize_network_event, normalize_dns_event, normalize_container_event.
  - split_and!; [by eexists| |done|done]. by apply ppid_of_obj; [apply (bool_decide_unpack _)|..].
  - split_and!; [by eexists| |done|done]. by apply ppid_of_obj; [apply (bool_decide_unpack _)|..].
  - split_and!; [by eexists| |done|done]. by apply ppid_of_obj; [apply (bool_decide_unpack _)|..].
  - destruct (ne_direction n); cbn [ev_process ev_category ev_session event_data];
      (split_and!; [rewrite ?Heqo; by eexists| |done|done]);
      by apply no_ppid; [apply (bool_decide_unpack _)|..].
  - cbn [ev_process ev_category ev_session event_data].
    split_and!; [rewrite ?Heqo; by eexists| |done|done].
    by apply no_ppid; [apply (bool_decide_unpack _)|..].
  - split_and!; [by eexists| |done|].
    + by apply ppid_of_obj; [apply (bool_decide_unpack _)|..].
    + cbn. by destruct (pv_session_id v).
  - split_and!; [by eexists| |done|].
    + by apply no_ppid; [apply (bool_decide_unpack _)|..].
    + cbn. by destruct (sd_session_id s).
  - cbn [ev_process ev_category ev_session event_data].
    split_and!; [rewrite ?Heqo; by eexists| |done|done].
    by apply no_ppid; [apply (bool_decide_unpack _)|..].
Qed.

Lemma enrich_session_exact fs now boot e r pr :
  session_ok (rs_sessions r) -> ev_category e <> CIdentity -> ev_process e = Some pr ->
  session_id <$> ev_session (enrich fs now boot e r).1
  = match ev_session e with
    | Some s => Some (session_id s)
    | None => (attach (pid pr) (current_ppid e) (rs_sessions r)).1
    end.
Proof.
  intros Hok Hcat Hpr. unfold enrich. set (e0 := set_boot boot e).
  destruct (process_event_frame e0 (rs_processes r)) as (A1 & A2 & A3 & _).
  destruct (non_process_event_frame e0 (rs_processes r)) as (B1 & B2 & B3 & _).
  assert (exists e1 procs, (match ev_category e0 with
            | CProcess => enrich_process_event e0 (rs_processes r)
            | _ => (enrich_non_process_event e0 (rs_processes r), rs_processes r)
            end) = (e1, procs)
          /\ core e1 = core e /\ pid <$> ev_process e1 = Some (pid pr) /\ ev_session e1 = ev_session e)
    as (e1 & procs & -> & Hc1 & Hp1 & Hs1).
  { change (ev_process e0) with (ev_process e) in A2, B2. rewrite Hpr in A2, B2.
    destruct (ev_category e0); (eexists _, _; split; [apply surjective_pairing|]);
      cbn [fst]; split_and!; auto; by rewrite A2. }
  destruct (ev_process e1) as [pr1|] eqn:E1; [|done]. injection Hp1 as Hp1.
  destruct (core_fields _ _ Hc1) as (_ & _ & _ & _ & _ & Ecat & _ & _ & _ & _ & Edata).
  assert (session_id <$> ev_session (attach_session e1 (rs_sessions r)).1
          = match ev_session e with
            | Some s => Some (session_id s)
            | None => (attach (pid pr) (current_ppid e) (rs_sessions r)).1 end) as Hx.
  { rewrite (attach_session_exact e1 _ pr1) by (done || by rewrite Ecat).
    unfold current_ppid. by rewrite Hs1, Hp1, Edata. }
  destruct (attach_session e1 (rs_sessions r)) as [e2 sess]. cbn [fst] in *.
  destruct (container_context_frame fs now e2 (rs_ns r)) as (_ & _ & D3 & _).
  destruct (enrich_container_context fs now e2 (rs_ns r)) as [e3 ns]. cbn [fst] in *.
  destruct (attach_relationships_frame e3) as (_ & _ & F3 & _). cbv zeta.
  destruct (match event_type _ with ProcessExit => _ | _ => _ end) as [procs' sess'].
  cbn [fst]. by rewrite F3, D3.
Qed.

End Sessions.

(** An observed session is never replaced by an inferred one: after any sequence of
    events, an event whose record reports a session keeps exactly that session id, and one
    that reports none gets the session its pid belongs to, or else the one its parent
    belongs to, if any; never another. *)
Lemma session_attribution `{JM : JsonMake} `{Sha256} host boot calls env raw q pp :
  session_subject raw = Some (q, pp) -> fits 32 pp = true ->
  let p := (run (pipeline_new host boot) calls).2 in
  session_id <$> ev_session (pe_event (process p env raw).1)
  = match observed_session raw with
    | Some s => Some s
    | None => (attach q pp (rs_sessions (pl_resolved p))).1
    end.
Proof.
  intros Hs Hpp p. pose proof (run_session_ok host boot calls) as Hok. fold p in Hok.
  destruct (process_event p env raw) as (e & _ & -> & _ & _ & -> & _).
  destruct (normalize_session_subject (env_id env) (pl_host p) (pl_boot_id p) raw q pp Hs Hpp)
    as ((pr & Hpr & <-) & Hcur & Hcat & Hobs).
  rewrite (enrich_session_exact _ _ _ _ _ pr Hok Hcat Hpr). rewrite Hcur, <- Hobs.
  by destruct (ev_session _).
Qed.

(** ** A concrete run: a shell logs in, executes and writes a file *)

Definition sample_host : HostRef :=
  {| host_ref_id := 7; hostname := "h"; distro := "d"; kernel_version := "k"; host_cloud := None |}.
Definition sample_proc : ProcFs := {| cgroup_file := fun _ => None; ns_entry := fun _ _ => None |}.
Definition sample_env (id now : Z) : CallEnv := {| env_id := id; env_now := now; env_proc := sample_proc |}.
Definition sample_exec_raw (q pp start : Z) : ProcessExecRaw :=
  {| px_pid := q; px_ppid := pp; px_uid := 0; px_exe_path := "/bin/sh"; px_comm := "sh";
     px_cmdline := ["sh"]; px_timestamp_ns := start; px_start_time_mono := start;
     px_source := REbpf |}.
Definition sample_file_raw (q pp : Z) : FileEventRaw :=
  {| fe_operation := FoWrite; fe_path := "/etc/passwd"; fe_previous_path := None;
     fe_inode := Some 11; fe_device_id := Some 8; fe_mode := None; fe_owner_uid := None;
     fe_owner_gid := None; fe_pid := q; fe_ppid := pp; fe_uid := 0; fe_exe_path := "/bin/sh";
     fe_comm := "sh"; fe_timestamp_ns := 99; fe_audit_serial := None; fe_source := REbpf |}.
Definition sample_sudo (q : Z) (ses : option string) : PrivilegeEventRaw :=
  {| pv_operation := PoSudo; pv_pid := q; pv_ppid := 0; pv_uid := 1000; pv_gid := None;
     pv_euid := None; pv_egid := None; pv_auid := None; pv_session_id := ses; pv_username := None;
     pv_target_uid := None; pv_target_gid := None; pv_command := Some "ls"; pv_success := true;
     pv_exe_path := "/usr/bin/sudo"; pv_comm := "sudo"; pv_timestamp_ns := 100;
     pv_audit_serial := None; pv_source := RAudit |}.
Definition sample_calls : list (CallEnv * RawEvent) :=
  [(sample_env 1 0, RProcessExec (sample_exec_raw 42 1 5))].

Lemma process_identity_shared_witness :
  exists pr,
    ev_process (pe_event (@process tjson_lib tjson_make concrete_sha256
        (@run tjson_lib tjson_make concrete_sha256 (pipeline_new sample_host "b") sample_calls).2
        (sample_env 2 0) (RFile (sample_file_raw 42 1))).1) = Some pr
    /\ process_key pr = @exec_key concrete_sha256 sample_host "b" (sample_exec_raw 42 1 5).
Proof.
  destruct (@process_identity_shared tjson_lib tjson_make concrete_sha256 sample_host "b"
              sample_calls (sample_env 2 0) (RFile (sample_file_raw 42 1)) 42 eq_refl)
    as (pr & Hpr & _ & Hlive & _).
  exists pr. split; [exact Hpr|exact Hlive].
Defined.

Lemma session_attribution_witness :
  session_id <$> ev_session (pe_event (@process tjson_lib tjson_make concrete_sha256
      (@run tjson_lib tjson_make concrete_sha256 (pipeline_new sample_host "b") sample_calls).2
      (sample_env 2 0) (RPrivilege (sample_sudo 42 (Some "3")))).1) = Some "3".
Proof.
  apply (@session_attribution tjson_lib tjson_make concrete_sha256 sample_host "b" sample_calls
           (sample_env 2 0) (RPrivilege (sample_sudo 42 (Some "3"))) 42 0); reflexivity.
Defined.
