(* ===== verification/PipelineGraph.v ===== *)
(** * The entity graph the pipeline writes, and concrete runs

    The edges of an event are exactly those its raw event tells of ([raw_edges],
    [container_edges]), and each is well formed: it cites the event, starts at the event's own
    process (or, for DNS, at the queried domain) and connects entities whose storage keys
    parse back ([Schema.entity_keys_roundtrip]).  Concrete runs show what identity means
    when pids are reused. *)

From S2P Require Import Prelude Concrete Json Schema Health RawEvent FileUtil Normalize Resolvers Bus Pipeline.

Section Edges.
Context `{JM : JsonMake} `{Sha256}.

(** It cites the event, its ends are entities in their Rust ranges, and it starts at the
    process of the event or at the queried domain. *)
Definition edge_ok (e : CanonicalEvent) (r : EntityRelationship) : Prop :=
  er_event_id r = event_id e /\ er_timestamp r = ev_timestamp e
  /\ entity_ok (er_from r) = true /\ entity_ok (er_to r) = true
  /\ ((exists pr, ev_process e = Some pr /\ er_from r = EProcess (process_key pr))
      \/ (exists d, ev_dns e = Some d /\ er_from r = EDomain (dns_query d)
                    /\ er_relation r = ResolvedTo)).

Definition opt_fits (w : Z) (o : option Z) : bool :=
  match o with Some v => fits w v | None => true end.

(** The ranges of the Rust types that end up in an entity. *)
Definition raw_in_range (raw : RawEvent) : bool :=
  match raw with
  | RFile f => opt_fits 64 (fe_inode f) && opt_fits 64 (fe_device_id f)
  | RPrivilege p => opt_fits 32 (pv_target_uid p)
  | _ => true
  end.

(** What the edges need of an event. *)
Record linkable (e : CanonicalEvent) : Prop := {
  lk_host : fits 128 (ev_host_id e) = true;
  lk_process : forall pr, ev_process e = Some pr -> process_key_ok (process_key pr);
  lk_file : forall f, ev_file e = Some f -> opt_fits 64 (inode f) && opt_fits 64 (device_id f) = true;
  lk_edges : Forall (edge_ok e) (relationships e);
}.

Lemma key_entity_ok k : process_key_ok k -> entity_ok (EProcess k) = true.
Proof. intros Hk. apply Nat.eqb_eq, Hk. Qed.

(** One more edge from the process. *)
Lemma push_process_edge e pr to rel :
  linkable e -> ev_process e = Some pr -> entity_ok to = true ->
  linkable (push_edge (edge e (EProcess (process_key pr)) to rel) e).
Proof.
  intros [Hh Hp Hf He] Hpr Hto. constructor; try done. cbn [push_edge ev_with relationships].
  apply Forall_app_2; [exact He|]. constructor; [|constructor].
  split_and!; try done; [by apply key_entity_ok, Hp|]. left. by exists pr.
Qed.

Lemma push_dns_edges d l : forall e, linkable e -> ev_dns e = Some d ->
  linkable (fold_left (fun e ip => push_edge (edge e (EDomain (dns_query d)) (EIp ip) ResolvedTo) e) l e).
Proof.
  induction l as [|ip l IH]; intros e He Hd; [done|]. cbn [fold_left]. apply IH; [|done].
  destruct He as [Hh Hp Hf He]. constructor; try done. cbn [push_edge ev_with relationships].
  apply Forall_app_2; [exact He|]. constructor; [|constructor].
  split_and!; try done. right. by exists d.
Qed.

Lemma attach_relationships_linkable e : linkable e -> linkable (attach_relationships e).
Proof.
  intros He. pose proof He as [Hh Hp Hf _]. unfold attach_relationships.
  destruct (ev_category e); try done.
  - unfold attach_session_relationship. case_decide; [|done].
    destruct (ev_process e) eqn:?, (ev_session e); try done. by apply push_process_edge.
  - unfold attach_file_relationship. destruct (ev_process e) as [pr|] eqn:?; [|done].
    destruct (ev_file e) as [f|] eqn:Ef; [|done]. specialize (Hf f eq_refl).
    unfold from_file_ref. destruct (inode f) as [i|] eqn:?; [|done].
    destruct (device_id f) as [d|] eqn:?; [|done]. cbn in Hf.
    apply push_process_edge; [done..|]. cbn. rewrite Hh. done.
  - unfold attach_network_relationship. case_decide; [done|].
    destruct (ev_process e) eqn:?, (ev_network e); try done. by apply push_process_edge.
  - unfold attach_dns_relationships. destruct (ev_dns e) as [d|] eqn:?; [|done].
    by apply push_dns_edges.
  - unfold attach_executed_as_relationship. case_decide; [|done].
    destruct (ev_process e) as [pr|] eqn:?; [|done].
    destruct (json_get (event_data e) "target_uid" ≫= json_as_u64) as [t|]; cbn [opt_filter]; [|done].
    destruct (fits 32 t) eqn:Et; [|done]. case_bool_decide; [done|].
    apply push_process_edge; [done..|]. cbn. by rewrite Hh.
Qed.

Lemma container_context_linkable fs now e r :
  linkable e -> linkable (enrich_container_context fs now e r).1.
Proof.
  intros He. unfold enrich_container_context. destruct (ev_process e) as [pr|] eqn:Ep; [|done].
  destruct (ns_resolve fs now (pid pr) r) as [[[[ns cg] cont]|] r']; [|done]. cbv zeta.
  set (e' := set_context _ _ _ e).
  assert (linkable e') as He' by (destruct He as [Hh Hp Hf He]; by constructor).
  destruct (ev_container e') eqn:Ec; [done|]. destruct cont as [ct|]; [|done]. cbn [fst].
  set (e2 := set_context _ _ (Some ct) e').
  change (edge e' ?f ?t ?rel) with (edge e2 f t rel).
  apply push_process_edge; [|done|done]. destruct He' as [Hh Hp Hf He']. by constructor.
Qed.

(** Fields that matter, carried over. *)
Lemma linkable_same e e' : linkable e ->
  core e' = core e -> ev_process e' = ev_process e -> relationships e' = relationships e -> linkable e'.
Proof.
  intros [Hh Hp Hf He] Hc Epr Er.
  destruct (core_fields _ _ Hc) as (E1 & _ & E3 & E4 & _ & _ & _ & E8 & _ & E10 & _).
  constructor; rewrite ?E3, ?Epr, ?E8, ?Er; try done.
  eapply Forall_impl; [exact He|]. intros r. unfold edge_ok. by rewrite E1, E4, Epr, E10.
Qed.

Lemma process_key_new_ok h b q t : process_key_ok (process_key_new h b q t).
Proof. unfold process_key_ok, process_key_new. cbn [pk_bytes]. rewrite length_take, sha256_len. done. Qed.

Lemma live_key_ok host boot hist q k : live host boot hist q = Some k -> process_key_ok k.
Proof.
  induction hist as [|raw hist IH] using rev_ind; [done|].
  unfold live. rewrite fold_left_app. cbn [fold_left]. fold (live host boot hist q).
  destruct raw; cbn [live_step]; try done; case_match; try done.
  intros [= <-]. apply process_key_new_ok.
Qed.

Lemma non_process_linkable e r :
  linkable e -> relationships e = [] ->
  (forall q k, pr_resolve r q = Some k -> process_key_ok k) ->
  linkable (enrich_non_process_event e r).
Proof.
  intros [Hh Hp Hf He] Hr Hk.
  destruct (non_process_event_frame e r) as (Hc & _ & _ & _ & _ & Erel & _).
  destruct (core_fields _ _ Hc) as (_ & _ & E3 & _ & _ & _ & _ & E8 & _).
  constructor; rewrite ?E3, ?E8, ?Erel, ?Hr; try done.
  intros pr. unfold enrich_non_process_event. destruct (ev_process e) as [p|] eqn:Ep; [|by rewrite Ep].
  cbv zeta. destruct (pr_resolve r (pid p)) as [k|] eqn:Er; cbn.
  - intros [= <-]. cbn. by eapply Hk.
  - rewrite Ep. intros [= <-]. by apply Hp.
Qed.

Lemma enrich_linkable fs now boot e r :
  linkable e -> relationships e = [] ->
  (forall q k, pr_resolve (rs_processes r) q = Some k -> process_key_ok k) ->
  linkable (enrich fs now boot e r).1.
Proof.
  intros He Hr Hk. unfold enrich. set (e0 := set_boot boot e).
  assert (linkable e0) as He0 by by apply (linkable_same e).
  assert (exists e1 procs, (match ev_category e0 with
            | CProcess => enrich_process_event e0 (rs_processes r)
            | _ => (enrich_non_process_event e0 (rs_processes r), rs_processes r)
            end) = (e1, procs) /\ linkable e1) as (e1 & procs & -> & He1).
  { destruct (process_event_frame e0 (rs_processes r)) as (A1 & A2 & _ & _ & _ & _ & A7).
    pose proof (non_process_linkable e0 (rs_processes r) He0 Hr Hk).
    destruct (ev_category e0); (eexists _, _; split; [apply surjective_pairing|]); cbn [fst]; try done.
    by apply (linkable_same e0). }
  destruct (attach_session_frame e1 (rs_sessions r)) as (C1 & C2 & _ & _ & _ & C6 & _).
  assert (linkable (attach_session e1 (rs_sessions r)).1) as He2 by by apply (linkable_same e1).
  destruct (attach_session e1 (rs_sessions r)) as [e2 sess]. cbn [fst] in *.
  pose proof (container_context_linkable fs now e2 (rs_ns r) He2) as He3.
  destruct (enrich_container_context fs now e2 (rs_ns r)) as [e3 ns]. cbn [fst] in *. cbv zeta.
  destruct (match event_type _ with ProcessExit => _ | _ => _ end) as [procs' sess'].
  cbn [fst]. by apply attach_relationships_linkable.
Qed.

Lemma provisional_ok host boot q exe pr :
  provisional_process host boot q exe = Some pr -> process_key_ok (process_key pr).
Proof. unfold provisional_process. destruct q; [|done]. intros [= <-]. apply process_key_new_ok. Qed.

Lemma normalize_linkable id host boot raw :
  fits 128 (host_ref_id host) = true -> raw_in_range raw = true ->
  linkable (normalize id host boot raw).
Proof.
  intros Hh Hr. destruct (normalize_fields id host boot raw) as (_ & _ & E3 & _ & _ & E6 & _).
  constructor; rewrite ?E3, ?E6; try done.
  - intros pr. destruct raw as [x|x|f|n|d|i|v|s|x|c|a]; cbn [normalize].
    + intros [= <-]. apply process_key_new_ok.
    + intros [= <-]. apply process_key_new_ok.
    + intros [= <-]. apply process_key_new_ok.
    + unfold normalize_network_event. destruct (ne_direction n); apply provisional_ok.
    + apply provisional_ok.
    + apply (provisional_ok _ _ (Some _)).
    + apply (provisional_ok _ _ (Some _)).
    + apply (provisional_ok _ _ (Some _)).
    + unfold normalize_persistence_event.
      by destruct (classify_persistence_event x) as [[[? ?] ?] ?].
    + apply provisional_ok.
    + done.
  - intros g. destruct raw as [x|x|f|n|d|i|v|s|x|c|a]; cbn [normalize]; try done.
    + intros [= <-]. exact Hr.
    + unfold normalize_network_event. by destruct (ne_direction n).
    + unfold normalize_persistence_event.
      destruct (classify_persistence_event x) as [[[? ?] ?] ?]. by intros [= <-].
Qed.

(** *** Which edges

    Told of the raw event, with the process, session and container the event ended up with. *)

Definition from_process (e : CanonicalEvent) (rel : Relation) (to : option EntityRef) : list (EntityRef * Relation * EntityRef) :=
  match ev_process e, to with Some p, Some x => [(EProcess (process_key p), rel, x)] | _, _ => [] end.

(** An exec belongs to its session; a file event writes the file of that inode and device; a connection that
    is opened or accepted goes to the remote address; a name resolved to each answer; a change of the user id
    runs as the new user, if it is another one. *)
Definition raw_edges (host : Uuid) (e : CanonicalEvent) (raw : RawEvent) : list (EntityRef * Relation * EntityRef) :=
  match raw with
  | RProcessExec _ => from_process e TriggeredBySession (ESession <$> (session_id <$> ev_session e))
  | RFile f => from_process e Wrote
                 (match fe_inode f, fe_device_id f with Some i, Some d => Some (EFile host i d) | _, _ => None end)
  | RNetwork n => from_process e ConnectedTo
                    (match ne_operation n with NoClose => None | _ => Some (EIp (ne_remote_addr n)) end)
  | RDns d => map (fun ip => (EDomain (de_query d), ResolvedTo, EIp ip)) (de_response_ips d)
  | RPrivilege p =>
      from_process e ExecutedAs
        (match pv_operation p, pv_target_uid p with
         | PoUidChange, Some t => if t =? pv_uid p then None else Some (EUser host t)
         | _, _ => None
         end)
  | _ => []
  end.

(** An event that gained a container, not one that reports one. *)
Definition container_edges (e : CanonicalEvent) (raw : RawEvent) : list (EntityRef * Relation * EntityRef) :=
  match raw with
  | RContainer _ => []
  | _ => from_process e BelongsToContainer (EContainer <$> (container_id <$> ev_container e))
  end.

Definition as_edges (e : CanonicalEvent) (l : list (EntityRef * Relation * EntityRef)) : list EntityRelationship :=
  map (fun x => edge e x.1.1 x.2 x.1.2) l.

Lemma edge_core e e' from to rel : core e' = core e -> edge e' from to rel = edge e from to rel.
Proof. intros Hc. destruct (core_fields _ _ Hc) as (E1 & _ & _ & E4 & _). unfold edge. by rewrite E1, E4. Qed.

Lemma dns_edges d l : forall e e0, core e = core e0 ->
  relationships (fold_left (fun e ip => push_edge (edge e (EDomain d) (EIp ip) ResolvedTo) e) l e)
  = relationships e ++ as_edges e0 (map (fun ip => (EDomain d, ResolvedTo, EIp ip)) l).
Proof.
  induction l as [|ip l IH]; intros e e0 Hc; [by rewrite app_nil_r|]. cbn [fold_left].
  rewrite (IH _ e0) by done. cbn [push_edge ev_with relationships]. rewrite <- (assoc_L (++)). cbn.
  by rewrite (edge_core e0).
Qed.

(** The part that the category decides. *)
Lemma attach_relationships_edges id host boot raw e :
  core e = core (normalize id host boot raw) -> raw_in_range raw = true ->
  relationships (attach_relationships e) = relationships e ++ as_edges e (raw_edges (host_ref_id host) e raw).
Proof.
  intros Hc Hr. destruct (core_fields _ _ Hc) as (_ & _ & E3 & _ & E5 & E6 & E7 & E8 & E9 & E10 & E11).
  unfold attach_relationships.
  destruct raw as [x|x|f|n|d|i|v|s|x|c|a]; cbn [normalize] in *; rewrite ?app_nil_r.
  - cbn in E5, E6. rewrite E6. unfold attach_session_relationship. rewrite decide_True by done. unfold raw_edges, from_process.
    destruct (ev_process e), (ev_session e); cbn; by rewrite ?app_nil_r.
  - cbn in E5, E6. rewrite E6. unfold attach_session_relationship. rewrite decide_False by congruence. cbn; by rewrite ?app_nil_r.
  - cbn in E3, E6, E8. rewrite E6. unfold attach_file_relationship, raw_edges, from_process, from_file_ref. rewrite E8. cbn.
    destruct (ev_process e), (fe_inode f), (fe_device_id f); cbn; by rewrite ?app_nil_r, ?E3.
  - unfold normalize_network_event in *. unfold attach_network_relationship, raw_edges, from_process.
    destruct (ne_direction n); cbn in E5, E6, E9; rewrite E6, E5, E9; destruct (ne_operation n); cbn;
      rewrite ?decide_True, ?decide_False by done; destruct (ev_process e); cbn; by rewrite ?app_nil_r.
  - cbn in E6, E10. rewrite E6. unfold attach_dns_relationships. rewrite E10. cbn. by apply dns_edges.
  - cbn in E6. rewrite E6. cbn; by rewrite ?app_nil_r.
  - cbn in E3, E5, E6, E7, E11. rewrite E6. unfold attach_executed_as_relationship, raw_edges, from_process.
    destruct (pv_operation v); cbn in E5.
    2,3: rewrite decide_False by congruence; destruct (ev_process e); cbn; by rewrite ?app_nil_r.
    rewrite decide_True by done. rewrite E11, json_get_obj by (apply (bool_decide_unpack _); reflexivity).
    cbn [assoc_get String.eqb Ascii.eqb Bool.eqb mbind option_bind]. rewrite E7. cbn.
    cbn in Hr. destruct (pv_target_uid v) as [t|]; cbn [j_opt opt_filter].
    + cbn in Hr. pose proof Hr as Hr'. apply fits_iff in Hr'. rewrite json_as_u64_int by lia. cbn [opt_filter]. rewrite Hr.
      destruct (ev_process e); cbn; [|by rewrite ?app_nil_r].
      destruct (Z.eqb_spec t (pv_uid v)) as [->|Hne]; [rewrite bool_decide_eq_true_2 by done; by rewrite app_nil_r|].
      rewrite bool_decide_eq_false_2 by congruence. cbn. by rewrite E3.
    + rewrite json_as_u64_null. cbn [opt_filter]. destruct (ev_process e); cbn; by rewrite ?app_nil_r.
  - cbn in E6. rewrite E6. cbn; by rewrite ?app_nil_r.
  - unfold normalize_persistence_event in *. destruct (classify_persistence_event x) as [[[ty cat] sv] dis] eqn:Ex.
    cbn in E6. rewrite E6. assert (cat = CSystemd \/ cat = CPersistence) as [-> | ->].
    { revert Ex. unfold classify_persistence_event. destruct (pp_checkpoint_kind x), (pp_operation x); intros [= _ <- _ _]; auto. }
    all: cbn; by rewrite ?app_nil_r.
  - cbn in E6. rewrite E6. cbn; by rewrite ?app_nil_r.
  - cbn in E6. rewrite E6. cbn; by rewrite ?app_nil_r.
Qed.

(** The part that /proc decides. *)
Lemma container_context_edges fs now e r :
  let e' := (enrich_container_context fs now e r).1 in
  relationships e' = relationships e ++
    (match ev_container e with
     | Some _ => []
     | None => as_edges e' (from_process e' BelongsToContainer (EContainer <$> (container_id <$> ev_container e')))
     end)
  /\ (forall c, ev_container e = Some c -> ev_container e' = Some c).
Proof.
  unfold enrich_container_context. destruct (ev_process e) as [p|] eqn:Ep; cbn.
  2: { split; [|done]. destruct (ev_container e) eqn:Ec; [by rewrite app_nil_r|]. unfold from_process. rewrite Ep. by rewrite app_nil_r. }
  destruct (ns_resolve fs now (pid p) r) as [[[[ns cg] cont]|] r']; cbn.
  2: { split; [|done]. destruct (ev_container e) eqn:Ec; [by rewrite app_nil_r|]. unfold from_process. rewrite Ep.
    by rewrite app_nil_r. }
  destruct (ev_container e) eqn:Ec; cbn; rewrite ?Ec, ?Ep; [by rewrite app_nil_r|].
  unfold from_process. destruct cont as [ct|]; cbn; rewrite ?Ec, ?Ep; cbn; by rewrite ?app_nil_r.
Qed.

Lemma raw_edges_same host e e' raw :
  ev_process e' = ev_process e -> ev_session e' = ev_session e -> raw_edges host e' raw = raw_edges host e raw.
Proof. intros Hp Hs. destruct raw; try done; unfold raw_edges, from_process; by rewrite Hp, ?Hs. Qed.

Lemma container_edges_same e e' raw :
  ev_process e' = ev_process e -> container_id <$> ev_container e' = container_id <$> ev_container e ->
  container_edges e' raw = container_edges e raw.
Proof. intros Hp Hc. unfold container_edges, from_process. by rewrite Hp, Hc. Qed.

Lemma as_edges_core e e' l : core e' = core e -> as_edges e' l = as_edges e l.
Proof. intros Hc. apply map_ext. intros x. by apply edge_core. Qed.

Lemma as_edges_app e l m : as_edges e (l ++ m) = as_edges e l ++ as_edges e m.
Proof. apply map_app. Qed.

(** The first two stages touch neither edges nor containers. *)
Lemma before_context_frame e0 rp rs :
  let e1 := match ev_category e0 with CProcess => (enrich_process_event e0 rp).1 | _ => enrich_non_process_event e0 rp end in
  let e2 := (attach_session e1 rs).1 in
  core e2 = core e0 /\ relationships e2 = relationships e0 /\ ev_container e2 = ev_container e0.
Proof.
  cbv zeta. destruct (process_event_frame e0 rp) as (A1 & _ & _ & A4 & _ & _ & A7).
  destruct (non_process_event_frame e0 rp) as (B1 & _ & _ & B4 & _ & B6 & _).
  set (e1 := match ev_category e0 with CProcess => _ | _ => _ end).
  destruct (attach_session_frame e1 rs) as (C1 & _ & C3 & _ & _ & C6 & _).
  rewrite C1, C3, C6. unfold e1. destruct (ev_category e0); split_and!; done.
Qed.

Lemma enrich_edges fs now boot b id host raw r :
  raw_in_range raw = true ->
  let e := (enrich fs now boot (normalize id host b raw) r).1 in
  relationships e = as_edges e (container_edges e raw ++ raw_edges (host_ref_id host) e raw).
Proof.
  intros Hr. unfold enrich. set (e0 := set_boot boot _).
  pose proof (before_context_frame e0 (rs_processes r) (rs_sessions r)) as H2. cbv zeta in H2.
  assert (exists e1 procs, (match ev_category e0 with
            | CProcess => enrich_process_event e0 (rs_processes r)
            | _ => (enrich_non_process_event e0 (rs_processes r), rs_processes r)
            end) = (e1, procs)
          /\ e1 = match ev_category e0 with CProcess => (enrich_process_event e0 (rs_processes r)).1
                  | _ => enrich_non_process_event e0 (rs_processes r) end) as (e1 & procs & -> & E1).
  { destruct (ev_category e0); (eexists _, _; split; [apply surjective_pairing|done]). }
  rewrite <- E1 in H2. destruct (attach_session e1 (rs_sessions r)) as [e2 sess]. cbn [fst] in H2.
  destruct H2 as (C2 & R2 & K2).
  destruct (container_context_edges fs now e2 (rs_ns r)) as [R3 K3].
  destruct (container_context_frame fs now e2 (rs_ns r)) as (C3 & _).
  destruct (enrich_container_context fs now e2 (rs_ns r)) as [e3 ns]. cbn [fst] in *. cbv zeta.
  destruct (attach_relationships_frame e3) as (F1 & F2 & F3 & F4 & _).
  assert (core e0 = core (normalize id host b raw)) as C0 by done.
  assert (core e3 = core (normalize id host b raw)) as C by congruence.
  pose proof (attach_relationships_edges id host b raw e3 C Hr) as R4.
  destruct (match event_type _ with ProcessExit => _ | _ => _ end) as [procs' sess']. cbn [fst].
  rewrite R4, R3, R2. rewrite (raw_edges_same _ e3 _ raw F2 F3), (container_edges_same e3 _ raw F2) by by rewrite F4.
  rewrite (as_edges_core e3 (attach_relationships e3)), as_edges_app by done. f_equal.
  destruct (normalize_fields id host b raw) as (_ & _ & _ & _ & _ & R0 & _).
  change (relationships e0) with (relationships (normalize id host b raw)). rewrite R0, K2. cbn [app].
  assert (is_Some (ev_container e0) <-> exists c, raw = RContainer c) as Hcont.
  { change (ev_container e0) with (ev_container (normalize id host b raw)).
    destruct raw as [x|x|f|n|d|i|v|s|x|c|a]; cbn [normalize]; try (split; [by intros [? ?]|by intros [? ?]]).
    - unfold normalize_network_event. destruct (ne_direction n); (split; [by intros [? ?]|by intros [? ?]]).
    - unfold normalize_persistence_event. destruct (classify_persistence_event x) as [[[? ?] ?] ?].
      split; [by intros [? ?]|by intros [? ?]].
    - split; [by eexists|by eexists]. }
  destruct (ev_container e0) eqn:Ec.
  - destruct Hcont as [Hcont _]. destruct Hcont as [c' ->]; [by eexists|done].
  - unfold container_edges. by destruct raw.
Qed.

End Edges.

(** The lookup of pods keeps the container. *)
Lemma process_container `{JM : JsonMake} `{Sha256} p env raw :
  container_id <$> ev_container (pe_event (process p env raw).1)
  = container_id <$> ev_container (enrich (env_proc env) (env_now env) (pl_boot_id p)
      (normalize (env_id env) (pl_host p) (pl_boot_id p) raw) (pl_resolved p)).1.
Proof.
  unfold process. destruct (enrich _ _ _ _ _) as [e r]. cbn [fst].
  set (e' := match pod_lookup p with Some l => attach_pod_ref l e | None => e end).
  assert (container_id <$> ev_container e' = container_id <$> ev_container e) as <-.
  { unfold e', attach_pod_ref. destruct (pod_lookup p); [|done]. destruct (ev_container e) as [c|] eqn:Ec; [|by rewrite Ec].
    destruct (pod_ref c); cbn; by rewrite ?Ec. }
  unfold validate. by destruct (event_valid e').
Qed.

(** C19. The entity graph says what the events said.  After any sequence of events, the edges of
    the next one are exactly those its raw event tells of, in order: the container it turned out
    to run in, the session of an exec, the file a file event names by inode and device, the
    remote address of a connection opened or accepted, the answers of a resolved name, the user
    another user id belongs to.  Each starts at the event's own process (a DNS answer at the
    queried domain), cites the event's id and time, and joins entities in the ranges of their
    types, so that their storage keys identify them. *)
Theorem edges_grounded `{JM : JsonMake} `{Sha256} host boot calls env raw :
  fits 128 (host_ref_id host) = true -> raw_in_range raw = true ->
  let e := pe_event (process (run (pipeline_new host boot) calls).2 env raw).1 in
  relationships e = as_edges e (container_edges e raw ++ raw_edges (host_ref_id host) e raw)
  /\ Forall (edge_ok e) (relationships e).
Proof.
  intros Hh Hr. set (p := (run (pipeline_new host boot) calls).2). cbv zeta.
  destruct (run_fixed (pipeline_new host boot) calls) as [Eh Eb]. fold p in Eh, Eb. cbn in Eh, Eb.
  destruct (process_event p env raw) as (e & _ & He & Hc & Hp & Hs & _ & Hrel & _).
  split.
  - pose proof (enrich_edges (env_proc env) (env_now env) (pl_boot_id p) (pl_boot_id p) (env_id env) (pl_host p) raw
      (pl_resolved p) Hr) as E. cbv zeta in E. rewrite <- He in E. rewrite Hrel, E, Eh.
    rewrite (raw_edges_same _ e _ raw Hp Hs), (as_edges_core e _ _ Hc).
    rewrite (container_edges_same e _ raw Hp); [done|]. subst e. apply process_container.
  - assert (linkable e) as Hl.
    { rewrite He, Eh, Eb. apply enrich_linkable.
      - by apply normalize_linkable.
      - apply normalize_fields.
      - intros q k Hk. unfold pr_resolve in Hk. unfold p in Hk. rewrite run_processes in Hk.
        by apply live_key_ok in Hk. }
    apply (linkable_same e _ Hl); done.
Qed.

Lemma edges_grounded_witness :
  let e := pe_event (@process tjson_lib tjson_make concrete_sha256
        (@run tjson_lib tjson_make concrete_sha256 (pipeline_new sample_host "b") sample_calls).2
        (sample_env 2 0) (RFile (sample_file_raw 42 1))).1 in
  fits 128 (host_ref_id sample_host) = true /\ Forall (@edge_ok tjson_lib e) (relationships e).
Proof.
  split; [reflexivity|].
  apply (@edges_grounded tjson_lib tjson_make concrete_sha256 sample_host "b" sample_calls
           (sample_env 2 0) (RFile (sample_file_raw 42 1))); reflexivity.
Defined.

(** ** Pid reuse

    The parent of a process is looked up by the pid it had at exec: when that pid has been
    given to another process, the other process is reported as the parent. *)
Lemma reused_parent_pid child parent parent' :
  parent_of (pr_record 10 1 parent' (pr_forget 10 (pr_record 20 10 child (pr_record 10 1 parent ∅)))) 20
  = Some (parent', 10).
Proof.
  unfold parent_of, pr_record, pr_forget.
  rewrite lookup_insert_ne, lookup_delete_ne, lookup_insert_eq by done. cbn [mbind option_bind].
  by rewrite lookup_insert_eq.
Qed.

Lemma enrich_cached `{JM : JsonMake} fs now boot e r pr at_ ns cg ct :
  ev_category e = CProcess -> ev_process e = Some pr -> ev_container e = None ->
  cache (rs_ns r) !! pid pr = Some (at_, Some (ns, cg, Some ct)) ->
  Z.max 0 (now - at_) < cache_ttl (rs_ns r) ->
  rs_ns (enrich fs now boot e r).2 = rs_ns r
  /\ ev_container (enrich fs now boot e r).1 = Some ct.
Proof.
  intros Hcat Hpr Hcont Hc Hfresh. unfold enrich. set (e0 := set_boot boot e).
  change (ev_category e0) with (ev_category e). rewrite Hcat.
  destruct (process_event_frame e0 (rs_processes r)) as (_ & A2 & _ & A4 & _).
  destruct (enrich_process_event e0 (rs_processes r)) as [e1 procs]. cbn [fst] in *.
  destruct (attach_session_frame e1 (rs_sessions r)) as (_ & C2 & C3 & _).
  destruct (attach_session e1 (rs_sessions r)) as [e2 sess]. cbn [fst] in *.
  assert (ev_process e2 = Some pr) as Hpr2 by (rewrite C2, A2; exact Hpr).
  assert (ev_container e2 = None) as Hcont2 by (rewrite C3, A4; exact Hcont).
  assert ((enrich_container_context fs now e2 (rs_ns r)).2 = rs_ns r
          /\ ev_container (enrich_container_context fs now e2 (rs_ns r)).1 = Some ct) as [D1 D2].
  { unfold enrich_container_context. rewrite Hpr2. unfold ns_resolve. rewrite Hc.
    apply Z.ltb_lt in Hfresh. rewrite Hfresh. cbv zeta.
    cbn [set_context ev_with ev_container]. rewrite Hcont2. done. }
  destruct (enrich_container_context fs now e2 (rs_ns r)) as [e3 ns']. cbn [fst snd] in *. cbv zeta.
  destruct (attach_relationships_frame e3) as (_ & _ & _ & F4 & _).
  destruct (match event_type _ with ProcessExit => _ | _ => _ end) as [procs' sess'].
  cbn [fst snd rs_ns]. by rewrite F4.
Qed.

(** An exit clears the pid from the process and session resolvers, not from the cache of
    namespaces and containers: an exec that reuses the pid while the entry is fresh gets
    the container of the process that exited, whatever [/proc] says now. *)
Lemma reused_pid_keeps_container `{JM : JsonMake} `{Sha256} p env env' x y at_ ns cg ct :
  px_pid y = pt_pid x ->
  cache (rs_ns (pl_resolved p)) !! pt_pid x = Some (at_, Some (ns, cg, Some ct)) ->
  Z.max 0 (env_now env - at_) < cache_ttl (rs_ns (pl_resolved p)) ->
  Z.max 0 (env_now env' - at_) < cache_ttl (rs_ns (pl_resolved p)) ->
  pod_lookup p = None ->
  ev_container (pe_event (process (process p env (RProcessExit x)).2 env' (RProcessExec y)).1)
  = Some ct.
Proof.
  intros Epid Hc H1 H2 Hpod.
  assert (rs_ns (pl_resolved (process p env (RProcessExit x)).2) = rs_ns (pl_resolved p)
          /\ pod_lookup (process p env (RProcessExit x)).2 = None) as [Ens Hpod'].
  { unfold process. edestruct (enrich_cached (env_proc env) (env_now env) (pl_boot_id p)
      (normalize (env_id env) (pl_host p) (pl_boot_id p) (RProcessExit x)) (pl_resolved p))
      as [E _]; [done|done|done|exact Hc|exact H1|].
    destruct (enrich _ _ _ _ _). by destruct (validate _). }
  set (p' := (process p env (RProcessExit x)).2) in *. unfold process. rewrite Hpod'.
  rewrite <- Ens, <- Epid in Hc. rewrite <- Ens in H2.
  edestruct (enrich_cached (env_proc env') (env_now env') (pl_boot_id p')
    (normalize (env_id env') (pl_host p') (pl_boot_id p') (RProcessExec y)) (pl_resolved p'))
    as [_ E]; [done|done|done|exact Hc|exact H2|].
  destruct (enrich _ _ _ _ _) as [e r]. unfold validate. by destruct (event_valid e).
Qed.
