(* ===== verification/Evidence.v ===== *)
(** * Evidence and incidents: [evidence.rs], [store.rs] and [incident.rs] of
      [crates/osiris-evidence/src]

    Two SQLite tables from an id to a JSON text.  A table is its rows in insertion order;
    whether a statement fails is an argument.  Incidents write to the audit log through
    the interface [AuditSink], which the file log of [AuditLog] implements. *)

From S2P Require Import Prelude BTree Concrete Json Schema AuditLog.

(** ** Tables *)

Abbreviation rows := (list (string * string)) (only parsing).

Fixpoint row_get (key : string) (t : rows) : option string :=
  match t with
  | [] => None
  | (k, v) :: t => if (k =? key)%string then Some v else row_get key t
  end.

(** [INSERT .. ON CONFLICT(key) DO UPDATE]: the row keeps its place. *)
Fixpoint row_upsert (key v : string) (t : rows) : rows :=
  match t with
  | [] => [(key, v)]
  | (k, v') :: t => if (k =? key)%string then (k, v) :: t else (k, v') :: row_upsert key v t
  end.

(** [INSERT]: a primary key that exists is an error. *)
Definition row_insert (key v : string) (t : rows) : option rows :=
  match row_get key t with Some _ => None | None => Some (t ++ [(key, v)]) end.

Lemma row_get_upsert key key' v t :
  row_get key' (row_upsert key v t) = if (key =? key')%string then Some v else row_get key' t.
Proof.
  induction t as [|[k v'] t IH]; simpl; [done|].
  destruct (String.eqb_spec k key) as [->|Hk]; simpl.
  - by destruct (String.eqb_spec key key').
  - rewrite IH. destruct (String.eqb_spec k key') as [->|], (String.eqb_spec key key') as [->|]; done.
Qed.

Lemma row_get_app key t t' :
  row_get key (t ++ t') = match row_get key t with Some v => Some v | None => row_get key t' end.
Proof. induction t as [|[k v] t IH]; simpl; [done|]. by destruct (k =? key)%string. Qed.

(** ** Evidence *)

Inductive EvidenceSource := EventCapture | FileSnapshot | ManualUpload.

Record Integrity := { int_hash : string; immutable_since : Z }.

Inductive EvidenceError := EmptyHash.

Record Evidence := {
  evidence_id : Uuid; ev_kind : EvidenceSource; evidence_ts : Z; integrity : Integrity;
  relationships : list EntityRef; supersedes : option Uuid; evidence_tenant : option Uuid }.

Definition evidence_validate (i : Integrity) : outcome EvidenceError unit :=
  if is_blank (int_hash i) then Err EmptyHash else Ok tt.

(** [id] is the fresh [Uuid::now_v7()]. *)
Definition evidence_new (id : Uuid) (source : EvidenceSource) (ts : Z) (i : Integrity)
    (rel : list EntityRef) (sup : option Uuid) : outcome EvidenceError Evidence :=
  let? _ := evidence_validate i in
  Ok {| evidence_id := id; ev_kind := source; evidence_ts := ts; integrity := i;
        relationships := rel; supersedes := sup; evidence_tenant := None |}.

Definition with_tenant (e : Evidence) (t : option Uuid) : Evidence :=
  {| evidence_id := evidence_id e; ev_kind := ev_kind e; evidence_ts := evidence_ts e;
     integrity := integrity e; relationships := relationships e; supersedes := supersedes e;
     evidence_tenant := t |}.

(** The JSON of the derived [Serialize] and of [EvidenceWire], and of [Incident]. *)
Inductive IncidentStatus := INew | Investigating | Contained | Resolved | FalsePositive.

Record Incident := {
  incident_id : Uuid; status : IncidentStatus; entities : list EntityRef;
  alert_ids : list Uuid; notes : list string; incident_tenant : option Uuid }.

Class CaseSerde := {
  evidence_json : Evidence -> string;
  evidence_wire : string -> option Evidence;
  incident_json : Incident -> string;
  incident_parse : string -> option Incident;
  evidence_wire_json e : evidence_wire (evidence_json e) = Some e;
  incident_parse_json i : incident_parse (incident_json i) = Some i;
}.

Inductive EvidenceStoreError := EvBackend | EvSerialize.

Definition MAX_EVIDENCE_LIMIT : nat := 5000.

Section Stores.
Context `{UuidText} `{CaseSerde}.

(** [Deserialize for Evidence]: the wire form, validated. *)
Definition evidence_from_str (s : string) : option Evidence :=
  match evidence_wire s with
  | Some e => match evidence_validate (integrity e) with Ok _ => Some e | _ => None end
  | None => None
  end.

Definition evidence_insert (fails : bool) (t : rows) (e : Evidence)
  : outcome EvidenceStoreError Evidence * rows :=
  if fails then (Err EvBackend, t)
  else match row_insert (uuid_display (evidence_id e)) (evidence_json e) t with
       | Some t' => (Ok e, t')
       | None => (Err EvBackend, t)
       end.

Definition evidence_get (fails : bool) (t : rows) (id : Uuid)
  : outcome EvidenceStoreError (option Evidence) :=
  if fails then Err EvBackend
  else match row_get (uuid_display id) t with
       | Some s => let? e := ok_or (evidence_from_str s) EvSerialize in Ok (Some e)
       | None => Ok None
       end.

Fixpoint collect_rows (tenant : option Uuid) (t : rows) : outcome EvidenceStoreError (list Evidence) :=
  match t with
  | [] => Ok []
  | (_, s) :: t =>
      let? e := ok_or (evidence_from_str s) EvSerialize in
      let? rest := collect_rows tenant t in
      Ok (if bool_decide (tenant = None) || bool_decide (evidence_tenant e = tenant)
          then e :: rest else rest)
  end.

Definition newer (a b : Evidence) : bool := evidence_ts b <=? evidence_ts a.

(** [list_filtered]: the cap comes after the filter and the sort. *)
Definition list_filtered (fails : bool) (t : rows) (tenant : option Uuid)
  : outcome EvidenceStoreError (list Evidence) :=
  if fails then Err EvBackend
  else let? l := collect_rows tenant t in Ok (take MAX_EVIDENCE_LIMIT (sort_by newer l)).

Definition evidence_list (fails : bool) (t : rows) := list_filtered fails t None.
Definition evidence_list_for_tenant (fails : bool) (t : rows) (tenant : Uuid) :=
  list_filtered fails t (Some tenant).
End Stores.

(** ** Incidents *)

(** [{:?}]. *)
Definition status_debug (s : IncidentStatus) : string :=
  match s with
  | INew => "New" | Investigating => "Investigating" | Contained => "Contained"
  | Resolved => "Resolved" | FalsePositive => "FalsePositive"
  end.

Inductive IncidentStoreError := IncBackend | IncSerialize | IncNotFound | IncNoEntities | IncAudit.

(** What an incident needs of the audit log: in a sound log, an append that succeeds adds
    exactly one entry, which says what the caller said, and leaves the log sound. *)
Class AuditSink (L : Type) := {
  log_append : L -> NewAuditEntry -> outcome AuditLogError AuditEntry * L;
  log_entries : L -> option (list AuditEntry);
  log_sound : L -> Prop;
  log_append_panics_not l n : (log_append l n).1 <> Panic;
  log_append_ok l n e l' :
    log_sound l -> log_append l n = (Ok e, l') ->
    log_sound l'
    /\ (exists es, log_entries l = Some es /\ log_entries l' = Some (es ++ [e]))
    /\ who e = n_who n /\ what e = n_what n /\ target e = n_target n /\ why e = n_why n
    /\ result e = n_result n;
}.

Section Incidents.
Context `{UuidText} `{CaseSerde}.

Definition write_row (fails : bool) (t : rows) (i : Incident) : outcome IncidentStoreError unit * rows :=
  if fails then (Err IncBackend, t)
  else (Ok tt, row_upsert (uuid_display (incident_id i)) (incident_json i) t).

Definition incident_create (fails : bool) (t : rows) (i : Incident)
  : outcome IncidentStoreError Incident * rows :=
  let '(r, t) := write_row fails t i in (let? _ := r in Ok i, t).

Definition incident_get (fails : bool) (t : rows) (id : Uuid)
  : outcome IncidentStoreError (option Incident) :=
  if fails then Err IncBackend
  else match row_get (uuid_display id) t with
       | Some s => let? i := ok_or (incident_parse s) IncSerialize in Ok (Some i)
       | None => Ok None
       end.

Fixpoint parse_incidents (t : rows) : outcome IncidentStoreError (list Incident) :=
  match t with
  | [] => Ok []
  | (_, s) :: t =>
      let? i := ok_or (incident_parse s) IncSerialize in
      let? rest := parse_incidents t in
      Ok (i :: rest)
  end.

Definition incident_list (fails : bool) (t : rows) : outcome IncidentStoreError (list Incident) :=
  if fails then Err IncBackend else parse_incidents t.

Definition incident_list_for_tenant (fails : bool) (t : rows) (tenant : Uuid)
  : outcome IncidentStoreError (list Incident) :=
  let? l := incident_list fails t in
  Ok (List.filter (fun i => bool_decide (incident_tenant i = Some tenant)) l).

Definition set_incident_status (i : Incident) (s : IncidentStatus) : Incident :=
  {| incident_id := incident_id i; status := s; entities := entities i; alert_ids := alert_ids i;
     notes := notes i; incident_tenant := incident_tenant i |}.

Definition transition_entry (id : Uuid) (s : IncidentStatus) (actor : ActorRef) (tgt : EntityRef)
    (reason : option string) : NewAuditEntry :=
  {| n_who := actor;
     n_what := "incident " +:+ uuid_display id +:+ " status -> " +:+ status_debug s;
     n_target := tgt; n_why := reason; n_result := Success |}.

Definition transition_status `{AuditSink L} (read_fails write_fails : bool) (t : rows) (log : L)
    (id : Uuid) (s : IncidentStatus) (actor : ActorRef) (reason : option string)
  : outcome IncidentStoreError Incident * rows * L :=
  match (let? o := incident_get read_fails t id in
         let? i := ok_or o IncNotFound in
         let? tgt := ok_or (head (entities i)) IncNoEntities in
         Ok (i, tgt)) with
  | Ok (i, tgt) =>
      match log_append log (transition_entry id s actor tgt reason) with
      | (Ok _, log) =>
          let i := set_incident_status i s in
          let '(r, t) := write_row write_fails t i in
          (let? _ := r in Ok i, t, log)
      | (Err _, log) => (Err IncAudit, t, log)
      | (Panic, log) => (Panic, t, log)
      end
  | Err e => (Err e, t, log)
  | Panic => (Panic, t, log)
  end.
End Incidents.

(** ** The file log as an audit sink *)

Section FileSink.
Context `{HexCodec} `{Sha256} `{AuditSerde} (id : Uuid) (ts : Z) (io : append_io).

Definition file_sound (f : option (list byte)) : Prop :=
  exists c es, f = Some c /\ ends_nl c /\ read_all f = Ok es /\ verify_chain f = Ok tt.

Definition file_entries (f : option (list byte)) : option (list AuditEntry) :=
  match read_all f with Ok es => Some es | _ => None end.

Lemma read_entries_no_panic ls : no_panic (read_entries ls).
Proof.
  induction ls as [|l ls IH]; simpl; no_panics; try apply IH; unfold read_entry; no_panics.
Qed.

Lemma file_append_no_panic f n : (append f n id ts io).1 <> Panic.
Proof.
  unfold append, last_hash, read_all. destruct f as [c|].
  - pose proof (read_entries_no_panic (read_lines c)) as Hn.
    simpl. destruct (read_entries (read_lines c)) as [es|e|]; [destruct io| |by destruct Hn]; discriminate.
  - done.
Qed.

Lemma file_append_ok f n e f' :
  file_sound f -> append f n id ts io = (Ok e, f') ->
  file_sound f'
  /\ (exists es, file_entries f = Some es /\ file_entries f' = Some (es ++ [e]))
  /\ who e = n_who n /\ what e = n_what n /\ target e = n_target n /\ why e = n_why n
  /\ result e = n_result n.
Proof.
  intros (c & es & -> & Hn & Hr & Hv) Ha.
  destruct (append_extends c es n id ts Hn Hr Hv) as (Ha' & Hs & Hv' & Hn').
  assert (io = AppendOk) as Hio.
  { revert Ha. unfold append, last_hash. rewrite Hr. simpl. by destruct io. }
  rewrite Hio, Ha' in Ha. injection Ha as <- <-. split.
  - do 2 eexists. split_and!; [done|exact Hn'|exact Hs|exact Hv'].
  - unfold file_entries. rewrite Hr, Hs. split; [by exists es|done].
Qed.

Definition file_sink : AuditSink (option (list byte)) := {|
  log_append f n := append f n id ts io;
  log_entries := file_entries;
  log_sound := file_sound;
  log_append_panics_not := file_append_no_panic;
  log_append_ok := file_append_ok;
|}.
End FileSink.

(** ** Facts *)

Section Facts.
Context `{UuidText} `{CaseSerde}.

(** Every row holds an incident under its own id. *)
Definition table_ok (t : rows) : Prop :=
  Forall (fun r => exists i, incident_parse r.2 = Some i /\ uuid_display (incident_id i) = r.1) t.

Lemma row_upsert_forall (P : string * string -> Prop) key v t :
  P (key, v) -> Forall P t -> Forall P (row_upsert key v t).
Proof.
  intros Hp. induction 1 as [|[k v'] t Hk Ht IH]; simpl; [by constructor|].
  destruct (String.eqb_spec k key) as [->|]; by constructor.
Qed.

Lemma row_get_in key t v : row_get key t = Some v -> (key, v) ∈ t.
Proof.
  induction t as [|[k v'] t IH]; simpl; [done|].
  destruct (String.eqb_spec k key) as [->|]; [intros [= ->]; set_solver|set_solver].
Qed.

Lemma write_row_ok t i : table_ok t -> table_ok (row_upsert (uuid_display (incident_id i)) (incident_json i) t).
Proof.
  apply row_upsert_forall. exists i. simpl. by rewrite incident_parse_json.
Qed.

Lemma incident_get_key t id i :
  table_ok t -> incident_get false t id = Ok (Some i) -> uuid_display (incident_id i) = uuid_display id.
Proof.
  intros Hok. unfold incident_get. destruct (row_get (uuid_display id) t) as [s|] eqn:E; [|done].
  intros (x & Hx%ok_or_ok & [= ->])%obind_ok.
  apply row_get_in in E. unfold table_ok in Hok. rewrite Forall_forall in Hok.
  destruct (Hok _ E) as (j & Hj & Hk). simpl in *. congruence.
Qed.

Lemma incident_get_upsert t id i j :
  uuid_display (incident_id i) = uuid_display j ->
  incident_get false (row_upsert (uuid_display (incident_id i)) (incident_json i) t) id
  = if (uuid_display j =? uuid_display id)%string then Ok (Some i) else incident_get false t id.
Proof.
  intros E. unfold incident_get. rewrite row_get_upsert, E.
  destruct (uuid_display j =? uuid_display id)%string; [|done]. by rewrite incident_parse_json.
Qed.

(** ** Listing evidence *)

Definition evidence_rows (es : list Evidence) : rows :=
  map (fun e => (uuid_display (evidence_id e), evidence_json e)) es.

Definition evidence_ok (e : Evidence) : bool := negb (is_blank (int_hash (integrity e))).

Lemma evidence_from_json e : evidence_ok e = true -> evidence_from_str (evidence_json e) = Some e.
Proof.
  unfold evidence_ok, evidence_from_str, evidence_validate. rewrite evidence_wire_json.
  by destruct (is_blank _).
Qed.

Definition owned (tenant : Uuid) (e : Evidence) : bool := bool_decide (evidence_tenant e = Some tenant).

Lemma collect_rows_ok tenant es :
  Forall (fun e => evidence_ok e = true) es ->
  collect_rows (Some tenant) (evidence_rows es) = Ok (List.filter (owned tenant) es).
Proof.
  induction 1 as [|e es He _ IH]; simpl; [done|]. rewrite evidence_from_json by done. simpl.
  rewrite IH. simpl. unfold owned. by case_bool_decide.
Qed.

Lemma newer_trans a b c : newer a b = true -> newer b c = true -> newer a c = true.
Proof. unfold newer. lia. Qed.

Lemma newer_total a b : newer a b = true \/ newer b a = true.
Proof. unfold newer. lia. Qed.

Lemma StronglySorted_take {A} (R : A -> A -> Prop) n l : StronglySorted R l -> StronglySorted R (take n l).
Proof.
  intros Hs. revert n. induction Hs as [|x l Hs IH Hx]; intros [|n]; simpl; try constructor; auto.
  by apply Forall_take.
Qed.
End Facts.

(** ** A concrete serialisation *)

#[global] Instance evidence_source_eq_dec : EqDecision EvidenceSource.
Proof. solve_decision. Defined.
#[global] Instance integrity_eq_dec : EqDecision Integrity.
Proof. solve_decision. Defined.
#[global] Instance evidence_eq_dec : EqDecision Evidence.
Proof. solve_decision. Defined.
#[global] Instance incident_status_eq_dec : EqDecision IncidentStatus.
Proof. solve_decision. Defined.
#[global] Instance incident_eq_dec : EqDecision Incident.
Proof. solve_decision. Defined.

#[global] Instance evidence_source_countable : Countable EvidenceSource.
Proof.
  refine (inj_countable' (fun s => match s with EventCapture => None | FileSnapshot => Some true | ManualUpload => Some false end)
    (fun o => match o with None => EventCapture | Some true => FileSnapshot | Some false => ManualUpload end) _).
  by intros [].
Defined.

#[global] Instance evidence_countable : Countable Evidence.
Proof.
  refine (inj_countable'
    (fun e => (evidence_id e, ev_kind e, evidence_ts e, int_hash (integrity e),
               immutable_since (integrity e), relationships e, supersedes e, evidence_tenant e))
    (fun t => let '(i, k, ts, h, s, r, u, n) := t in
       {| evidence_id := i; ev_kind := k; evidence_ts := ts;
          integrity := {| int_hash := h; immutable_since := s |}; relationships := r;
          supersedes := u; evidence_tenant := n |}) _).
  by intros [? ? ? [] ? ? ?].
Defined.

#[global] Instance incident_status_countable : Countable IncidentStatus.
Proof.
  refine (inj_countable'
    (fun s => match s with INew => 0 | Investigating => 1 | Contained => 2 | Resolved => 3 | FalsePositive => 4 end)
    (fun n => if n =? 0 then INew else if n =? 1 then Investigating else if n =? 2 then Contained
              else if n =? 3 then Resolved else FalsePositive) _).
  by intros [].
Defined.

#[global] Instance incident_countable : Countable Incident.
Proof.
  refine (inj_countable'
    (fun i => (incident_id i, status i, entities i, alert_ids i, notes i, incident_tenant i))
    (fun t => let '(i, s, e, a, n, o) := t in
       {| incident_id := i; status := s; entities := e; alert_ids := a; notes := n;
          incident_tenant := o |}) _).
  by intros [].
Defined.

Definition bits_json {A} `{Countable A} (a : A) : string := of_bytes (bits_text (encode a)).
Definition json_bits {A} `{Countable A} (s : string) : option A :=
  match text_bits (bytes_of s) with Some p => decode p | None => None end.

Lemma json_bits_json {A} `{Countable A} (a : A) : json_bits (bits_json a) = Some a.
Proof.
  unfold json_bits, bits_json. rewrite bytes_of_of_bytes. unfold bits_text. cbn [text_bits].
  rewrite decide_True by done. by rewrite bits_parse_of, decode_encode.
Qed.

Definition concrete_case_serde : CaseSerde := {|
  evidence_json := bits_json; evidence_wire := json_bits;
  incident_json := bits_json; incident_parse := json_bits;
  evidence_wire_json := json_bits_json; incident_parse_json := json_bits_json;
|}.

(** ** Properties *)

(** C12. Every status change is on record: when [transition_status] succeeds, the incident
    is stored with the new status and nothing else changed, every other incident reads as
    before, and the sound audit log it was given has gained exactly one entry, which names
    the actor, the incident, the new status, its first entity and the reason; when it
    fails, also when only the store fails after the entry was written, no incident
    changed. *)
Theorem incident_transition_audited `{UuidText} `{CaseSerde} `{AuditSink L} rf wf t log id s actor reason :
  table_ok t -> log_sound log ->
  let '(r, t', log') := transition_status rf wf t log id s actor reason in
  match r with
  | Ok i =>
      exists i0 tgt es e,
        incident_get false t id = Ok (Some i0) /\ head (entities i0) = Some tgt
        /\ i = set_incident_status i0 s
        /\ incident_get false t' id = Ok (Some i)
        /\ (forall id', uuid_display id' <> uuid_display id ->
              incident_get false t' id' = incident_get false t id')
        /\ table_ok t'
        /\ log_entries log = Some es /\ log_entries log' = Some (es ++ [e]) /\ log_sound log'
        /\ who e = actor /\ target e = tgt /\ why e = reason /\ result e = Success
        /\ what e = "incident " +:+ uuid_display id +:+ " status -> " +:+ status_debug s
  | Err _ => t' = t
  | Panic => False
  end.
Proof.
  intros Hok Hs. unfold transition_status.
  destruct rf; [done|].
  destruct (incident_get false t id) as [[i0|]|e|] eqn:Eg; simpl; [|done|done|].
  2:{ revert Eg. unfold incident_get. destruct (row_get _ _); [|done].
      by destruct (incident_parse _). }
  destruct (head (entities i0)) as [tgt|] eqn:Eh; simpl; [|done].
  pose proof (log_append_panics_not log (transition_entry id s actor tgt reason)) as Hp.
  destruct (log_append log (transition_entry id s actor tgt reason)) as [[e|err|] log'] eqn:Ea;
    [|done|done].
  destruct (log_append_ok _ _ _ _ Hs Ea) as (Hs' & (es & He & He') & Hwho & Hwhat & Htgt & Hwhy & Hres).
  destruct wf; simpl; [done|]. pose proof (incident_get_key t id i0 Hok Eg) as Hid.
  exists i0, tgt, es, e. split_and!; try done.
  - etransitivity; [apply (incident_get_upsert t id (set_incident_status i0 s) id Hid)|].
    by rewrite String.eqb_refl.
  - intros id' Hne. etransitivity; [apply (incident_get_upsert t id' (set_incident_status i0 s) id Hid)|].
    by destruct (String.eqb_spec (uuid_display id) (uuid_display id')).
  - by apply (write_row_ok t (set_incident_status i0 s)).
Qed.

(** Tenants see exactly their own evidence: on a table of valid records the listing
    of a tenant holds only its records, newest first, at most 5,000 of them, and all of
    them unless it has more; records of other tenants never push one out. *)
Lemma evidence_listing_isolated `{UuidText} `{CaseSerde} tenant es :
  Forall (fun e => evidence_ok e = true) es ->
  exists l, evidence_list_for_tenant false (evidence_rows es) tenant = Ok l
    /\ Forall (fun e => e ∈ es /\ evidence_tenant e = Some tenant) l
    /\ StronglySorted (fun a b => evidence_ts b <= evidence_ts a) l
    /\ (List.length l <= MAX_EVIDENCE_LIMIT)%nat
    /\ ((List.length (List.filter (owned tenant) es) <= MAX_EVIDENCE_LIMIT)%nat ->
        l ≡ₚ List.filter (owned tenant) es).
Proof.
  intros Hok. unfold evidence_list_for_tenant, list_filtered. rewrite (collect_rows_ok tenant es Hok).
  cbn [obind]. eexists. split; [done|].
  pose proof (sort_by_perm newer (List.filter (owned tenant) es)) as Hp. split_and!.
  - apply Forall_take. rewrite Hp. apply Forall_forall. intros e He.
    apply list_elem_of_In, filter_In in He as [He Ho]. apply list_elem_of_In in He.
    unfold owned in Ho. by apply bool_decide_eq_true in Ho.
  - apply StronglySorted_take.
    eapply StronglySorted_weaken; [|apply (sort_by_sorted newer newer_trans newer_total)].
    unfold newer. lia.
  - rewrite length_take. lia.
  - intros Hl. rewrite take_ge; [done|]. by rewrite Hp.
Qed.

Definition sample_evidence (id ts : Z) (tenant : option Z) : Evidence :=
  {| evidence_id := id; ev_kind := FileSnapshot; evidence_ts := ts;
     integrity := {| int_hash := "ab"; immutable_since := ts |}; relationships := [EIp "10.0.0.1"];
     supersedes := None; evidence_tenant := tenant |}.

Lemma evidence_listing_isolated_witness :
  exists l, @evidence_list_for_tenant concrete_case_serde false
              (@evidence_rows concrete_uuid concrete_case_serde
                [sample_evidence 1 10 (Some 5); sample_evidence 2 30 None; sample_evidence 3 20 (Some 5)]) 5
            = Ok l
    /\ l ≡ₚ [sample_evidence 1 10 (Some 5); sample_evidence 3 20 (Some 5)].
Proof.
  destruct (@evidence_listing_isolated concrete_uuid concrete_case_serde 5
    [sample_evidence 1 10 (Some 5); sample_evidence 2 30 None; sample_evidence 3 20 (Some 5)])
    as (l & Hl & _ & _ & _ & Hp); [repeat constructor|].
  exists l. split; [exact Hl|]. apply Hp. vm_compute. lia.
Defined.

Definition sample_incident : Incident :=
  {| incident_id := 7; status := INew; entities := [EIp "10.0.0.1"]; alert_ids := [3]; notes := [];
     incident_tenant := None |}.

Definition sample_table : rows :=
  (@incident_create concrete_uuid concrete_case_serde false [] sample_incident).2.

Lemma sample_table_ok : @table_ok concrete_uuid concrete_case_serde sample_table.
Proof. apply (@write_row_ok concrete_uuid concrete_case_serde [] sample_incident). constructor. Qed.

Definition empty_log : option (list byte) := Some [].

Lemma empty_log_sound : @file_sound concrete_hex concrete_sha256 concrete_serde empty_log.
Proof. exists [], []. split; [done|]. split; [by left|]. split; reflexivity. Qed.

Lemma empty_log_entries : @file_entries concrete_serde empty_log = Some [].
Proof. reflexivity. Qed.

Definition sample_sink : AuditSink (option (list byte)) :=
  @file_sink concrete_hex concrete_sha256 concrete_serde 1 5 AppendOk.

Abbreviation sample_transition :=
  (@transition_status concrete_uuid concrete_case_serde (option (list byte)) sample_sink
    false false sample_table empty_log 7 Contained ASystem None) (only parsing).

Lemma sample_transition_ok : is_ok sample_transition.1.1 = true.
Proof. vm_compute. reflexivity. Qed.

Lemma incident_transition_audited_witness :
  is_ok sample_transition.1.1 = true
  /\ exists e, @log_entries _ sample_sink sample_transition.2 = Some [e] /\ who e = ASystem.
Proof.
  pose proof sample_transition_ok as Hok. split; [exact Hok|].
  pose proof (@incident_transition_audited concrete_uuid concrete_case_serde (option (list byte))
    sample_sink false false sample_table empty_log 7 Contained ASystem None
    sample_table_ok empty_log_sound) as Ht.
  destruct (@transition_status _ _ _ _ _ _ _ _ _ _ _ _) as [[r t'] log'].
  destruct r as [i|e|]; [|discriminate Hok|discriminate Hok].
  destruct Ht as (i0 & tgt & es & e & _ & _ & _ & _ & _ & _ & He & He' & _ & Hw & _).
  pose proof (eq_trans (eq_sym He) empty_log_entries) as E. injection E as ->.
  exists e. split; [exact He'|exact Hw].
Defined.
