(* ===== verification/Auth.v ===== *)
(** * Users, sessions and the gate of the API: [crates/osiris-auth/src],
      [auth.rs] and [auth_middleware.rs] of [crates/osiris-api/src]

    The users and sessions tables, login and logout, the roles a request needs, the routes a
    tenant user may call, and the middleware in front of every handler.  Argon2 is an
    interface; fresh tokens, salts and ids, the clock and failing statements are arguments. *)

From S2P Require Import Prelude Concrete BTree Schema Baseline AuditLog FileUtil Sql StoreConcrete Tenancy Evidence.

(** ** [types.rs] *)

Inductive Role := Viewer | Analyst | ResponseOperator | Admin.

#[global] Instance role_eq_dec : EqDecision Role.
Proof. solve_decision. Defined.

(** The derived order: declaration order. *)
Definition role_rank (r : Role) : Z :=
  match r with Viewer => 0 | Analyst => 1 | ResponseOperator => 2 | Admin => 3 end.
Definition role_ltb (a b : Role) : bool := role_rank a <? role_rank b.

Record User := {
  user_id : Uuid; username : string; password_hash : string; user_role : Role;
  user_created_at : Z; user_tenant : option Uuid }.

Record NewUser := { nu_username : string; nu_password_hash : string; nu_role : Role; nu_tenant : option Uuid }.

Record Session := { session_token : string; session_user : Uuid; issued_at : Z; expires_at : Z }.

(** ** [password.rs]: the [argon2] crate *)

Class Argon2 := {
  argon2_hash : string -> string -> option string;
  (** [None] when the stored text is no hash. *)
  argon2_verify : string -> string -> option bool;
  argon2_verify_hash salt p h : argon2_hash salt p = Some h -> argon2_verify p h = Some true;
}.

(** ** [store.rs] *)

Inductive UserStoreError := UBackend | DuplicateUsername (name : string).

Definition role_to_string (r : Role) : string :=
  match r with
  | Viewer => "VIEWER" | Analyst => "ANALYST" | ResponseOperator => "RESPONSE_OPERATOR" | Admin => "ADMIN"
  end.

Definition role_from_string (s : string) : Role :=
  if String.eqb s "ANALYST" then Analyst
  else if String.eqb s "RESPONSE_OPERATOR" then ResponseOperator
  else if String.eqb s "ADMIN" then Admin
  else Viewer.

(** The tables, by primary key. *)
Record UserRow := {
  urow_username : string; urow_hash : string; urow_role : string; urow_created_at : Z;
  urow_tenant : option string }.
Record SessionRow := { srow_user : string; srow_issued_at : Z; srow_expires_at : Z }.
Record AuthDb := { a_users : gmap string UserRow; a_sessions : gmap string SessionRow }.

Definition auth_empty : AuthDb := {| a_users := ∅; a_sessions := ∅ |}.
Definition with_users (t : gmap string UserRow) (d : AuthDb) : AuthDb := Build_AuthDb t (a_sessions d).
Definition with_sessions (t : gmap string SessionRow) (d : AuthDb) : AuthDb := Build_AuthDb (a_users d) t.

Section Store.
Context `{UuidText} `{Sqlite}.

Definition uuid_or_nil (s : string) : Uuid := default 0 (uuid_parse s).

Definition row_to_user (id : string) (r : UserRow) : User :=
  {| user_id := uuid_or_nil id; username := urow_username r; password_hash := urow_hash r;
     user_role := role_from_string (urow_role r); user_created_at := as_u64 (urow_created_at r);
     user_tenant := option_map uuid_or_nil (urow_tenant r) |}.

(** Both the id and the name are unique. *)
Definition user_taken (id name : string) (d : AuthDb) : bool :=
  existsb (fun '(k, r) => String.eqb k id || String.eqb (urow_username r) name) (map_to_list (a_users d)).

Definition create_user (io : bool) (new_id now : Z) (nu : NewUser) (d : AuthDb)
  : outcome UserStoreError User * AuthDb :=
  if io then (Err UBackend, d)
  else if user_taken (uuid_display new_id) (nu_username nu) d then (Err (DuplicateUsername (nu_username nu)), d)
  else
    (Ok {| user_id := new_id; username := nu_username nu; password_hash := nu_password_hash nu;
           user_role := nu_role nu; user_created_at := now; user_tenant := nu_tenant nu |},
     with_users (<[uuid_display new_id :=
       {| urow_username := nu_username nu; urow_hash := nu_password_hash nu;
          urow_role := role_to_string (nu_role nu); urow_created_at := as_i64 now;
          urow_tenant := option_map uuid_display (nu_tenant nu) |}]> (a_users d)) d).

Definition get_user_by_username (io : bool) (name : string) (d : AuthDb) : outcome UserStoreError (option User) :=
  if io then Err UBackend
  else Ok (option_map (fun '(k, r) => row_to_user k r)
             (List.find (fun '(_, r) => String.eqb (urow_username r) name) (map_to_list (a_users d)))).

Definition get_user_by_id (io : bool) (id : Uuid) (d : AuthDb) : outcome UserStoreError (option User) :=
  if io then Err UBackend else Ok (option_map (row_to_user (uuid_display id)) (a_users d !! uuid_display id)).

(** [ORDER BY created_at ASC]. *)
Definition user_le (a b : string * UserRow) : bool := urow_created_at a.2 <=? urow_created_at b.2.

Definition list_users (io : bool) (d : AuthDb) : outcome UserStoreError (list User) :=
  if io then Err UBackend
  else Ok (map (fun '(k, r) => row_to_user k r) (order_by user_le (map_to_list (a_users d)))).

(** [issued_at + ttl_seconds] is unchecked arithmetic on [u64]. *)
Definition create_session (io : bool) (token : string) (now ttl_seconds : Z) (u : Uuid) (d : AuthDb)
  : outcome UserStoreError Session * AuthDb :=
  if negb (fits 64 (now + ttl_seconds)) then (Panic, d)
  else if io then (Err UBackend, d)
  else match a_sessions d !! token with
       | Some _ => (Err UBackend, d)
       | None =>
           (Ok {| session_token := token; session_user := u; issued_at := now; expires_at := now + ttl_seconds |},
            with_sessions (<[token := {| srow_user := uuid_display u; srow_issued_at := as_i64 now;
                                         srow_expires_at := as_i64 (now + ttl_seconds) |}]> (a_sessions d)) d)
       end.

Definition get_session (io io' : bool) (now : Z) (token : string) (d : AuthDb)
  : outcome UserStoreError (option Session) * AuthDb :=
  if io then (Err UBackend, d)
  else match a_sessions d !! token with
       | None => (Ok None, d)
       | Some r =>
           if as_u64 (srow_expires_at r) <=? now then
             if io' then (Err UBackend, d)
             else (Ok None, with_sessions (base.delete token (a_sessions d)) d)
           else match uuid_parse (srow_user r) with
                | None => (Err UBackend, d)
                | Some u =>
                    (Ok (Some {| session_token := token; session_user := u;
                                 issued_at := as_u64 (srow_issued_at r);
                                 expires_at := as_u64 (srow_expires_at r) |}), d)
                end
       end.

Definition delete_session (io : bool) (token : string) (d : AuthDb) : outcome UserStoreError unit * AuthDb :=
  if io then (Err UBackend, d) else (Ok tt, with_sessions (base.delete token (a_sessions d)) d).

End Store.

(** ** [auth_middleware.rs]: roles and routes *)

Inductive Method := GET | HEAD | POST | PUT | PATCH | DELETE | OtherMethod (name : string).

#[global] Instance method_eq_dec : EqDecision Method.
Proof. solve_decision. Defined.

Definition reads (m : Method) : bool := match m with GET | HEAD => true | _ => false end.

Definition min_role_for (m : Method) (path : string) : Role :=
  if String.eqb path "/api/v1/audit" || String.eqb path "/api/v1/exporters"
     || String.eqb path "/api/v1/auth/users" || String.eqb path "/api/v1/tenants"
     || str_starts_with path "/api/v1/tenants/" then Admin
  else if String.eqb path "/api/v1/groups" || str_starts_with path "/api/v1/groups/" then
    if reads m then Viewer else Admin
  else if bool_decide (m = POST) && String.eqb path "/api/v1/incidents" then Analyst
  else if bool_decide (m = PATCH) && str_starts_with path "/api/v1/incidents/" then Analyst
  else if bool_decide (m = POST) && String.eqb path "/api/v1/evidence" then Analyst
  else if str_starts_with path "/api/v1/response/" then ResponseOperator
  else Viewer.

(** A non-empty text without a slash. *)
Definition segment (l : list byte) : bool :=
  match l with [] => false | _ => negb (bool_decide (Byte.x2f ∈ l)) end.

Definition one_segment (path prefix : string) : bool :=
  match strip_prefix (bytes_of prefix) (bytes_of path) with Some rest => segment rest | None => false end.

(** [split_once] of a text. *)
Fixpoint split_sub (p l : list byte) : option (list byte * list byte) :=
  match strip_prefix p l with
  | Some rest => Some ([], rest)
  | None => match l with
            | [] => None
            | b :: l => match split_sub p l with Some (x, y) => Some (b :: x, y) | None => None end
            end
  end.

Definition group_member (path : string) : bool :=
  match strip_prefix (bytes_of "/api/v1/groups/") (bytes_of path) with
  | Some rest => match split_sub (bytes_of "/members/") rest with
                 | Some (g, h) => segment g && segment h
                 | None => false
                 end
  | None => false
  end.

Definition seg_then (path prefix suffix : string) : bool :=
  match strip_prefix (bytes_of prefix) (bytes_of path) with
  | Some r => match strip_suffix (bytes_of suffix) r with Some s => segment s | None => false end
  | None => false
  end.

Definition group_policy_route (path : string) : bool := seg_then path "/api/v1/groups/" "/policy".

Definition EXACT : list string :=
  ["/api/v1/health"; "/api/v1/auth/me"; "/api/v1/events"; "/api/v1/processes"; "/api/v1/alerts";
   "/api/v1/files"; "/api/v1/files/story"; "/api/v1/network"; "/api/v1/network/story";
   "/api/v1/identity/story"; "/api/v1/systemd/story"; "/api/v1/hosts"; "/api/v1/containers";
   "/api/v1/containers/story"; "/api/v1/system/story"; "/api/v1/graph"; "/api/v1/graph/subgraph";
   "/api/v1/risk"; "/api/v1/stream/events"; "/api/v1/incidents"; "/api/v1/evidence"; "/api/v1/audit";
   "/api/v1/groups"].

Definition is_nil {A} (l : list A) : bool := match l with [] => true | _ => false end.

Definition tenant_route_allowed (m : Method) (path : string) : bool :=
  match m with
  | POST =>
      String.eqb path "/api/v1/auth/logout" || String.eqb path "/api/v1/incidents"
      || String.eqb path "/api/v1/evidence" || one_segment path "/api/v1/response/"
      || String.eqb path "/api/v1/groups"
  | PATCH => one_segment path "/api/v1/incidents/" || one_segment path "/api/v1/groups/"
  | PUT => group_member path || group_policy_route path
  | DELETE => one_segment path "/api/v1/groups/" || group_member path || group_policy_route path
  | OtherMethod _ => false
  | GET | HEAD =>
      if existsb (String.eqb path) EXACT then true
      else match strip_prefix (bytes_of "/api/v1/processes/") (bytes_of path) with
      | Some rest => negb (is_nil rest)
      | None =>
          match strip_prefix (bytes_of "/api/v1/incidents/") (bytes_of path) with
          | Some rest =>
              match strip_suffix (bytes_of "/reconstruct") rest with
              | Some seed => negb (is_nil seed)
              | None => segment rest
              end
          | None =>
              one_segment path "/api/v1/groups/" || group_policy_route path
              || seg_then path "/api/v1/hosts/" "/policy"
          end
      end
  end.

(** ** The token of a request *)

Definition QUERY_TOKEN_PATH : string := "/api/v1/stream/events".

(** The first byte of a character, or the end. *)
Definition char_boundary (l : list byte) : bool :=
  match l with [] => true | b :: _ => negb ((128 <=? b2z b) && (b2z b <? 192)) end.

(** The loop of [percent_decode]; slicing inside a character panics. *)
Fixpoint decode_loop (l : list byte) : outcome Empty_set (list byte) :=
  match l with
  | [] => Ok []
  | c :: l' =>
      if decide (c = Byte.x2b) then let? r := decode_loop l' in Ok (Byte.x20 :: r)
      else match l' with
           | a :: b :: rest =>
               if decide (c = Byte.x25) then
                 if char_boundary l' && char_boundary rest then
                   match parse_radix 8 16 (of_bytes [a; b]) with
                   | Some v => let? r := decode_loop rest in Ok (z2b v :: r)
                   | None => let? r := decode_loop l' in Ok (c :: r)
                   end
                 else Panic
               else let? r := decode_loop l' in Ok (c :: r)
           | _ => let? r := decode_loop l' in Ok (c :: r)
           end
  end.

Definition percent_decode (value : list byte) : outcome Empty_set string :=
  let? out := decode_loop value in Ok (from_utf8_lossy out).

Fixpoint find_token (pairs : list (list byte)) : outcome Empty_set (option string) :=
  match pairs with
  | [] => Ok None
  | kv :: pairs =>
      match split_once Byte.x3d kv with
      | Some (key, value) =>
          if String.eqb (of_bytes key) "token" && negb (is_nil value)
          then let? t := percent_decode value in Ok (Some t) else find_token pairs
      | None => find_token pairs
      end
  end.

Definition token_from_query (query : string) : outcome Empty_set (option string) :=
  find_token (split_all Byte.x26 (bytes_of query)).

(** ** [auth_gate] *)

Record Request := {
  rq_method : Method; rq_path : string; rq_query : option string;
  (** The bytes of the [Authorization] header. *)
  rq_authorization : option (list byte) }.

Record AuthContext := { cx_user_id : Uuid; cx_role : Role; cx_token : string; cx_tenant_id : option Uuid }.

(** [HeaderValue::to_str]: visible ASCII and tabs. *)
Definition header_text (l : list byte) : bool :=
  forallb (fun b => ((32 <=? b2z b) && (b2z b <? 127)) || (b2z b =? 9)) l.

Definition bearer_token (h : option (list byte)) : option string :=
  match h with
  | Some l => if header_text l then option_map of_bytes (strip_prefix (bytes_of "Bearer ") l) else None
  | None => None
  end.

Definition request_token (r : Request) : outcome Empty_set (option string) :=
  match bearer_token (rq_authorization r) with
  | Some t => Ok (Some t)
  | None =>
      if String.eqb (rq_path r) QUERY_TOKEN_PATH
      then match rq_query r with Some q => token_from_query q | None => Ok None end
      else Ok None
  end.

Inductive Gate := Public | PassAs (ctx : AuthContext) | Unauthorized | Forbidden.

Definition public_path (path : string) : bool :=
  String.eqb path "/api/v1/health" || String.eqb path "/api/v1/auth/login".

Section Gate.
Context `{UuidText} `{Sqlite}.

(** [io] are the failures of the session lookup, its deletion and the user lookup. *)
Definition auth_gate (io : nat -> bool) (now : Z) (r : Request) (d : AuthDb)
  : outcome Empty_set Gate * AuthDb :=
  if public_path (rq_path r) then (Ok Public, d)
  else
    match request_token r with
    | Panic => (Panic, d)
    | Err e => (Err e, d)
    | Ok None => (Ok Unauthorized, d)
    | Ok (Some token) =>
        let '(session, d) := get_session (io 0%nat) (io 1%nat) now token d in
        match session with
        | Ok (Some s) =>
            match get_user_by_id (io 2%nat) (session_user s) d with
            | Ok (Some u) =>
                (if role_ltb (user_role u) (min_role_for (rq_method r) (rq_path r)) then Ok Forbidden
                 else if (match user_tenant u with Some _ => true | None => false end)
                         && negb (tenant_route_allowed (rq_method r) (rq_path r)) then Ok Forbidden
                 else Ok (PassAs {| cx_user_id := user_id u; cx_role := user_role u; cx_token := token;
                                       cx_tenant_id := user_tenant u |}), d)
            | _ => (Ok Unauthorized, d)
            end
        | _ => (Ok Unauthorized, d)
        end
    end.

End Gate.

(** ** [auth.rs]: the handlers

    An error is its status code; its text is not kept. *)

Definition MIN_PASSWORD_LENGTH : Z := 8.

Record LoginResponse := {
  lg_token : string; lg_role : Role; lg_expires_at : Z; lg_tenant_id : option Uuid;
  lg_tenant_name : option string }.

Record MeResponse := {
  me_user_id : Uuid; me_username : string; me_role : Role; me_tenant_id : option Uuid;
  me_tenant_name : option string }.

Record CreateUserBody := { cu_username : string; cu_password : string; cu_role : Role; cu_tenant_id : option Uuid }.

Record UserSummary := {
  us_user_id : Uuid; us_username : string; us_role : Role; us_created_at : Z; us_tenant_id : option Uuid }.

Definition audit_entry (who : ActorRef) (what name : string) (why : option string) (result : AuditResult)
  : NewAuditEntry :=
  {| n_who := who; n_what := what; n_target := EDomain ("user:" +:+ name); n_why := why; n_result := result |}.

Section Handlers.
Context `{UuidText} `{Sqlite} `{Argon2} {L : Type} `{!AuditSink L}.

(** [let _ = audit_log.append(..)]. *)
Definition audited (n : NewAuditEntry) (log : L) : L := (log_append log n).2.

Definition status {E A} (code : Z) (m : outcome E A) : outcome Z A := omap_err (fun _ => code) m.

(** [None] also when the lookup fails. *)
Definition tenant_name_of (io : bool) (tenant : option Uuid) (ts : TenantDb) : option string :=
  t ← tenant;
  match get_tenant io t ts with Ok o => option_map tn_name o | _ => None end.

(** What a request meets: failing statements, the clock, fresh values. *)
Record AuthWeather := {
  aw_io : nat -> bool; aw_now : Z; aw_token : string; aw_id : Uuid; aw_salt : string }.

Definition login_denied (name : string) (log : L) : L :=
  audited (audit_entry ASystem "login" name (Some "invalid credentials") Denied) log.

Definition login_handler (w : AuthWeather) (session_ttl_seconds : Z) (ts : TenantDb) (name password : string)
    (d : AuthDb) (log : L) : outcome Z LoginResponse * AuthDb * L :=
  match status 500 (get_user_by_username (aw_io w 0%nat) name d) with
  | Err e => (Err e, d, log)
  | Panic => (Panic, d, log)
  | Ok None => (Err 401, d, login_denied name log)
  | Ok (Some u) =>
      if negb (default false (argon2_verify password (password_hash u))) then (Err 401, d, login_denied name log)
      else
        let '(s, d) := create_session (aw_io w 1%nat) (aw_token w) (aw_now w) session_ttl_seconds (user_id u) d in
        match status 500 s with
        | Err e => (Err e, d, log)
        | Panic => (Panic, d, log)
        | Ok s =>
            (Ok {| lg_token := session_token s; lg_role := user_role u; lg_expires_at := expires_at s;
                   lg_tenant_id := user_tenant u;
                   lg_tenant_name := tenant_name_of (aw_io w 2%nat) (user_tenant u) ts |},
             d, audited (audit_entry (AUser (user_id u)) "login" (username u) None Success) log)
        end
  end.

(** The failure of the deletion is not reported. *)
Definition logout_handler (w : AuthWeather) (ctx : AuthContext) (d : AuthDb) (log : L) : AuthDb * L :=
  ((delete_session (aw_io w 0%nat) (cx_token ctx) d).2,
   audited (audit_entry (AUser (cx_user_id ctx)) "logout" (uuid_display (cx_user_id ctx)) None Success) log).

Definition me_handler (w : AuthWeather) (ts : TenantDb) (ctx : AuthContext) (d : AuthDb) : outcome Z MeResponse :=
  let? u := status 500 (get_user_by_id (aw_io w 0%nat) (cx_user_id ctx) d) in
  let? u := ok_or u 404 in
  Ok {| me_user_id := user_id u; me_username := username u; me_role := user_role u;
        me_tenant_id := user_tenant u; me_tenant_name := tenant_name_of (aw_io w 1%nat) (user_tenant u) ts |}.

Definition known_tenant (io : bool) (t : option Uuid) (ts : TenantDb) : outcome Z unit :=
  match t with
  | None => Ok tt
  | Some t => let? found := status 500 (get_tenant io t ts) in
              match found with None => Err 400 | Some _ => Ok tt end
  end.

Definition create_user_handler (w : AuthWeather) (ts : TenantDb) (ctx : AuthContext) (body : CreateUserBody)
    (d : AuthDb) (log : L) : outcome Z Uuid * AuthDb * L :=
  let checks :=
    let? _ := match cx_tenant_id ctx with Some _ => Err 403 | None => Ok tt end in
    let? _ := known_tenant (aw_io w 0%nat) (cu_tenant_id body) ts in
    if Z.of_nat (List.length (bytes_of (cu_password body))) <? MIN_PASSWORD_LENGTH then Err 400
    else ok_or (argon2_hash (aw_salt w) (cu_password body)) 500 in
  match checks with
  | Err e => (Err e, d, log)
  | Panic => (Panic, d, log)
  | Ok hash =>
      let '(r, d) := create_user (aw_io w 1%nat) (aw_id w) (aw_now w)
                       {| nu_username := cu_username body; nu_password_hash := hash; nu_role := cu_role body;
                          nu_tenant := cu_tenant_id body |} d in
      match status 400 r with
      | Ok u => (Ok (user_id u), d,
                 audited (audit_entry (AUser (cx_user_id ctx)) "user_create" (username u) None Success) log)
      | Err e => (Err e, d, log)
      | Panic => (Panic, d, log)
      end
  end.

Definition summary_of (u : User) : UserSummary :=
  {| us_user_id := user_id u; us_username := username u; us_role := user_role u;
     us_created_at := user_created_at u; us_tenant_id := user_tenant u |}.

Definition list_users_handler (w : AuthWeather) (d : AuthDb) : outcome Z (list UserSummary) :=
  let? us := status 500 (list_users (aw_io w 0%nat) d) in Ok (map summary_of us).

(** A tenant's Admin sees what the tenant's users did. *)
Definition by_members (members : list User) (e : AuditEntry) : bool :=
  match who e with AUser u => existsb (fun m => user_id m =? u) members | ASystem => false end.

Definition audit_handler (w : AuthWeather) (limit : option nat) (ctx : AuthContext) (d : AuthDb) (log : L)
  : outcome Z (list AuditEntry) :=
  let? entries := ok_or (log_entries log) 500 in
  let? entries :=
    match cx_tenant_id ctx with
    | None => Ok entries
    | Some t =>
        let? us := status 500 (list_users (aw_io w 0%nat) d) in
        let members := List.filter (fun u => bool_decide (user_tenant u = Some t)) us in
        Ok (List.filter (by_members members) entries)
    end in
  Ok (take (Nat.min (default 100%nat limit) 1000) (rev entries)).

End Handlers.

(** ** What the tables keep *)

Lemma as_u64_i64 n : fits 64 n = true -> as_u64 (as_i64 n) = n.
Proof.
  intros Hn%fits_iff. unfold as_u64, as_i64. rewrite Zminus_mod_idemp_l.
  replace (n + 2 ^ 63 - 2 ^ 63) with n by lia. by apply Z.mod_small.
Qed.

Section Store_facts.
Context `{UuidText} `{Sqlite} `{HexCodec} `{Argon2} {L : Type} `{!AuditSink L}.

(** Opening the store: on an empty table a first Admin is made. *)
Definition open_store (w : AuthWeather) (password : list byte) (d : AuthDb)
  : outcome UserStoreError (option (string * string)) * AuthDb :=
  if aw_io w 0%nat then (Err UBackend, d)
  else if (size (a_users d) =? 0)%nat then
    let password := hex_encode password in
    match argon2_hash (aw_salt w) password with
    | None => (Err UBackend, d)
    | Some h =>
        let '(r, d) := create_user (aw_io w 1%nat) (aw_id w) (aw_now w)
                         {| nu_username := "admin"; nu_password_hash := h; nu_role := Admin; nu_tenant := None |} d in
        (let? _ := r in Ok (Some ("admin", password)), d)
    end
  else (Ok None, d).

(** What happens to sessions: one is given to a user who presented a password, one is ended. *)
Inductive auth_event :=
| Issued (token : string) (user : Uuid) (expires : Z) (password : string)
| Revoked (token : string).

Definition login_events (d : AuthDb) (name password : string) (r : outcome Z LoginResponse) : list auth_event :=
  match r, get_user_by_username false name d with
  | Ok resp, Ok (Some u) => [Issued (lg_token resp) (user_id u) (lg_expires_at resp) password]
  | _, _ => []
  end.

(** The histories of the store since it was empty, with what happened to sessions. *)
Inductive auth_run : AuthDb -> list auth_event -> Prop :=
| run_start : auth_run auth_empty []
| run_open w p d evs : auth_run d evs -> fits 128 (aw_id w) = true -> auth_run (open_store w p d).2 evs
| run_login w ttl ts name password d evs log : auth_run d evs ->
    auth_run (login_handler w ttl ts name password d log).1.2
      (evs ++ login_events d name password (login_handler w ttl ts name password d log).1.1)
| run_logout w ctx d evs log : auth_run d evs ->
    auth_run (logout_handler w ctx d log).1 (evs ++ if aw_io w 0%nat then [] else [Revoked (cx_token ctx)])
| run_create w ts ctx body d evs log : auth_run d evs -> fits 128 (aw_id w) = true ->
    auth_run (create_user_handler w ts ctx body d log).1.2 evs
| run_gate io now r d evs : auth_run d evs -> auth_run (auth_gate io now r d).2 evs.

(** The last event of a token is that it was issued. *)
Definition live (evs : list auth_event) (t : string) (u : Uuid) (exp : Z) (p : string) : Prop :=
  exists pre post, evs = pre ++ Issued t u exp p :: post /\ Revoked t ∉ post.

Record auth_ok (d : AuthDb) (evs : list auth_event) : Prop := {
  ao_users k r : a_users d !! k = Some r -> exists u, k = uuid_display u /\ fits 128 u = true;
  ao_sessions t s : a_sessions d !! t = Some s ->
    exists u exp p row, live evs t u exp p /\ fits 128 u = true
      /\ srow_user s = uuid_display u /\ as_u64 (srow_expires_at s) = exp
      /\ a_users d !! uuid_display u = Some row /\ argon2_verify p (urow_hash row) = Some true }.

Lemma live_app evs evs' t u exp p : live evs t u exp p -> Revoked t ∉ evs' -> live (evs ++ evs') t u exp p.
Proof.
  intros (pre & post & -> & Hp) He. exists pre, (post ++ evs'). rewrite <- app_assoc. split; [done|].
  rewrite elem_of_app. by intros [|].
Qed.

Lemma find_user name d k r : List.find (fun '(_, r) => String.eqb (urow_username r) name) (map_to_list (a_users d)) = Some (k, r) ->
  a_users d !! k = Some r /\ urow_username r = name.
Proof.
  intros [Hin Hn]%List.find_some. apply list_elem_of_In, elem_of_map_to_list in Hin. by apply String.eqb_eq in Hn.
Qed.

Lemma user_taken_fresh id name d : user_taken id name d = false -> a_users d !! id = None.
Proof.
  intros E. apply eq_None_not_Some. intros [r Hr]. apply not_true_iff_false in E. apply E.
  apply existsb_exists. exists (id, r). split; [by apply list_elem_of_In, elem_of_map_to_list|].
  by rewrite String.eqb_refl.
Qed.

Lemma create_user_ok io id now nu d evs : auth_ok d evs -> fits 128 id = true ->
  auth_ok (create_user io id now nu d).2 evs.
Proof.
  intros Hd Hid. unfold create_user. destruct io; [done|]. destruct (user_taken _ _ _) eqn:Et; [done|].
  apply user_taken_fresh in Et. split; cbn.
  - intros k r [[<- _]|[_ Hk]]%lookup_insert_Some; [by exists id|by eapply (ao_users d)].
  - intros t s Hs. destruct (ao_sessions d evs Hd t s Hs) as (u & exp & p & row & Hl & Hu & Es & Ee & Hrow & Hv).
    exists u, exp, p, row. split_and!; try done. rewrite lookup_insert_ne by congruence. done.
Qed.

Lemma same_users_ok d evs evs' t : auth_ok d evs ->
  (forall k s, t !! k = Some s -> a_sessions d !! k = Some s /\ Revoked k ∉ evs') ->
  auth_ok (with_sessions t d) (evs ++ evs').
Proof.
  intros Hd Ht. split; cbn; [apply (ao_users d evs Hd)|]. intros k s [Hs Hr]%Ht.
  destruct (ao_sessions d evs Hd k s Hs) as (u & exp & p & row & Hl & Hrest).
  exists u, exp, p, row. split; [by apply live_app|done].
Qed.

Lemma auth_ok_more d evs : auth_ok d evs -> auth_ok d (evs ++ []).
Proof. by rewrite app_nil_r. Qed.

(** A login that succeeds: a user with that name and password, and a new session. *)
Lemma login_session_ok w ttl ts name password d log resp d' log' :
  login_handler w ttl ts name password d log = (Ok resp, d', log') ->
  exists k r, a_users d !! k = Some r /\ urow_username r = name
    /\ get_user_by_username false name d = Ok (Some (row_to_user k r))
    /\ argon2_verify password (urow_hash r) = Some true
    /\ a_sessions d !! lg_token resp = None /\ fits 64 (lg_expires_at resp) = true
    /\ lg_token resp = aw_token w /\ lg_role resp = user_role (row_to_user k r)
    /\ lg_tenant_id resp = user_tenant (row_to_user k r)
    /\ d' = with_sessions (<[lg_token resp :=
         {| srow_user := uuid_display (user_id (row_to_user k r)); srow_issued_at := as_i64 (aw_now w);
            srow_expires_at := as_i64 (lg_expires_at resp) |}]> (a_sessions d)) d.
Proof.
  unfold login_handler, get_user_by_username. destruct (aw_io w 0%nat); [done|].
  destruct (List.find _ _) as [[k r]|] eqn:Ef; [|done]. cbn [option_map status omap_err].
  apply find_user in Ef as [Hk Hn]. cbn [password_hash row_to_user].
  destruct (argon2_verify password (urow_hash r)) as [[]|] eqn:Ev; [|done..]. cbn [default negb from_option id].
  unfold create_session. destruct (fits 64 _) eqn:Ef; [|done]. cbn [negb].
  destruct (aw_io w 1%nat); [done|]. destruct (a_sessions d !! aw_token w) eqn:Es; [done|].
  intros [= <- <- <-]. exists k, r. cbn. done.
Qed.

(** A login that fails changes no table. *)
Lemma login_failed w ttl ts name password d log :
  (forall resp, (login_handler w ttl ts name password d log).1.1 <> Ok resp) ->
  (login_handler w ttl ts name password d log).1.2 = d.
Proof.
  unfold login_handler, create_session. destruct (get_user_by_username _ _ _) as [[u|]| |]; cbn [status omap_err]; try done.
  destruct (negb (default _ _)); [done|]. destruct (negb (fits _ _)); [done|]. destruct (aw_io w 1%nat); [done|].
  destruct (a_sessions d !! aw_token w); [done|]. cbn. intros Hr. by destruct (Hr _ eq_refl).
Qed.

(** A name nobody has and a wrong password are answered and audited alike. *)
Lemma login_denied_alike w ttl ts name password d log :
  aw_io w 0%nat = false ->
  (forall u, get_user_by_username false name d = Ok (Some u) -> argon2_verify password (password_hash u) <> Some true) ->
  login_handler w ttl ts name password d log = (Err 401, d, login_denied name log).
Proof.
  intros Hio Hu. unfold login_handler. rewrite Hio. destruct (get_user_by_username false name d) as [[u|]| |] eqn:E; try done.
  cbn [status omap_err]. specialize (Hu u eq_refl).
  destruct (argon2_verify password (password_hash u)) as [[]|]; [by destruct Hu|done..].
Qed.

Lemma uuid_or_nil_display u : fits 128 u = true -> uuid_or_nil (uuid_display u) = u.
Proof. intros Hu. unfold uuid_or_nil. by rewrite uuid_parse_display. Qed.

Lemma open_store_ok w p d evs : auth_ok d evs -> fits 128 (aw_id w) = true -> auth_ok (open_store w p d).2 evs.
Proof.
  intros Hd Hid. unfold open_store. destruct (aw_io w 0%nat); [done|]. destruct (_ =? 0)%nat; [|done].
  destruct (argon2_hash _ _) as [h|]; [|done].
  pose proof (create_user_ok (aw_io w 1%nat) (aw_id w) (aw_now w)
    {| nu_username := "admin"; nu_password_hash := h; nu_role := Admin; nu_tenant := None |} d evs Hd Hid).
  by destruct (create_user _ _ _ _ _).
Qed.

Lemma create_handler_ok w ts ctx body d evs log : auth_ok d evs -> fits 128 (aw_id w) = true ->
  auth_ok (create_user_handler w ts ctx body d log).1.2 evs.
Proof.
  intros Hd Hid. unfold create_user_handler. destruct (obind _ _) as [h| |]; [|done..].
  match goal with |- context [create_user ?io ?id ?now ?nu d] =>
    pose proof (create_user_ok io id now nu d evs Hd Hid); destruct (create_user io id now nu d) as [r d'] end.
  by destruct (status 400 r).
Qed.

Lemma login_step_ok w ttl ts name password d evs log : auth_ok d evs ->
  auth_ok (login_handler w ttl ts name password d log).1.2
    (evs ++ login_events d name password (login_handler w ttl ts name password d log).1.1).
Proof.
  intros Hd. pose proof (login_failed w ttl ts name password d log) as Hfail.
  destruct (login_handler w ttl ts name password d log) as [[r d'] log'] eqn:El. cbn [fst snd] in *.
  destruct r as [resp|e|]; [|rewrite Hfail by done; by apply auth_ok_more..].
  apply login_session_ok in El as (k & r & Hk & _ & Eu & Hv & Hnew & Hf & _ & _ & _ & ->). unfold login_events. rewrite Eu.
  destruct (ao_users d evs Hd k r Hk) as (u & -> & Hu). cbn [user_id row_to_user]. rewrite uuid_or_nil_display by done.
  split; cbn [a_users a_sessions with_sessions]; [apply (ao_users d evs Hd)|].
  intros t s [[<- <-]|[Hne Hs]]%lookup_insert_Some.
  - exists u, (lg_expires_at resp), password, r. cbn. split_and!; try done; [|by apply as_u64_i64].
    exists evs, []. split; [done|apply not_elem_of_nil].
  - destruct (ao_sessions d evs Hd t s Hs) as (u' & exp & p & row & Hl & Hrest).
    exists u', exp, p, row. split; [|done]. apply live_app; [done|]. by intros [|?%not_elem_of_nil]%elem_of_cons.
Qed.

Lemma session_delete_ok d evs evs' token : auth_ok d evs -> (forall t, Revoked t ∈ evs' -> t = token) ->
  auth_ok (with_sessions (base.delete token (a_sessions d)) d) (evs ++ evs').
Proof.
  intros Hd He. apply same_users_ok; [done|]. intros k s [Hne Hk]%lookup_delete_Some. split; [done|].
  intros Hr%He. congruence.
Qed.

Lemma get_session_ok io io' now token d evs : auth_ok d evs -> auth_ok (get_session io io' now token d).2 evs.
Proof.
  intros Hd. unfold get_session. destruct io; [done|]. destruct (a_sessions d !! token) as [s|]; [|done].
  destruct (_ <=? _); [|by destruct (uuid_parse _)]. destruct io'; [done|]. cbn [snd].
  rewrite <- (app_nil_r evs). apply session_delete_ok; [done|]. by intros t ?%not_elem_of_nil.
Qed.

Lemma gate_ok io now r d evs : auth_ok d evs -> auth_ok (auth_gate io now r d).2 evs.
Proof.
  intros Hd. unfold auth_gate. destruct (public_path _); [done|]. destruct (request_token r) as [[token|]| |]; try done.
  pose proof (get_session_ok (io 0%nat) (io 1%nat) now token d evs Hd) as Hs.
  destruct (get_session _ _ _ _ _) as [[[s|]| |] d']; cbn [snd] in *; try done.
  by destruct (get_user_by_id _ _ _) as [[u|]| |].
Qed.

Lemma run_ok d evs : auth_run d evs -> auth_ok d evs.
Proof.
  induction 1 as [|w p d evs _ IH Hid|w ttl ts name password d evs log _ IH|w ctx d evs log _ IH
                 |w ts ctx body d evs log _ IH Hid|io now r d evs _ IH].
  - split; intros *; cbn; by rewrite lookup_empty.
  - by apply open_store_ok.
  - by apply login_step_ok.
  - unfold logout_handler, delete_session. destruct (aw_io w 0%nat); cbn [fst snd]; [by apply auth_ok_more|].
    apply session_delete_ok; [done|]. by intros t [[= ->]|?%not_elem_of_nil]%elem_of_cons.
  - by apply create_handler_ok.
  - by apply gate_ok.
Qed.

(** C13. Nobody passes the gate without a session of their own.  Whatever was done to the store
    before (logins, logouts, new users, expired sessions, failing statements), a request that
    is let through as a user carries a token that was given to that user for a password which
    verifies against the user's hash, that was not ended since, and that has not expired; the
    request runs with the user's present role and tenant, the role is enough for the method
    and path, and a tenant's user is on a route tenants may call. *)
Theorem gate_authorises d evs io now r ctx d' :
  auth_run d evs -> auth_gate io now r d = (Ok (PassAs ctx), d') ->
  exists u expires password,
    request_token r = Ok (Some (cx_token ctx))
    /\ live evs (cx_token ctx) (cx_user_id ctx) expires password /\ now < expires
    /\ get_user_by_id false (cx_user_id ctx) d = Ok (Some u)
    /\ argon2_verify password (password_hash u) = Some true
    /\ cx_role ctx = user_role u /\ cx_tenant_id ctx = user_tenant u
    /\ role_rank (min_role_for (rq_method r) (rq_path r)) <= role_rank (cx_role ctx)
    /\ (cx_tenant_id ctx <> None -> tenant_route_allowed (rq_method r) (rq_path r) = true).
Proof.
  intros Hd%run_ok. unfold auth_gate. destruct (public_path _); [done|].
  destruct (request_token r) as [[token|]| |]; try done.
  unfold get_session. destruct (io 0%nat); [done|]. destruct (a_sessions d !! token) as [s|] eqn:Es; [|done].
  destruct (Z.leb_spec (as_u64 (srow_expires_at s)) now) as [|Hnow]; [by destruct (io 1%nat)|].
  destruct (ao_sessions d evs Hd token s Es) as (u & exp & p & row & Hl & Hu & Eu & <- & Hrow & Hv).
  rewrite Eu, uuid_parse_display by done. cbn [session_user].
  unfold get_user_by_id. destruct (io 2%nat); [done|]. rewrite Hrow. cbn [option_map].
  destruct (role_ltb _ _) eqn:Er; [done|]. apply Z.ltb_ge in Er.
  destruct (_ && negb _) eqn:Et; [done|]. intros [= <- _]. cbn [cx_token cx_user_id cx_role cx_tenant_id row_to_user user_id].
  rewrite uuid_or_nil_display by done. exists (row_to_user (uuid_display u) row), (as_u64 (srow_expires_at s)), p.
  split_and!; try done; [by rewrite Hrow|].
  intros Hne. change (user_tenant (row_to_user (uuid_display u) row) <> None) in Hne.
  destruct (user_tenant (row_to_user _ row)); [|by destruct Hne]. cbn [andb] in Et. by apply negb_false_iff in Et.
Qed.

End Store_facts.

(** ** Requests of the user who logged in *)

Section Round.
Context `{UuidText} `{Sqlite} `{HexCodec} `{Argon2} {L : Type} `{!AuditSink L}.

Lemma hex_text l : Forall (fun b => is_hex b = true) l -> header_text l = true.
Proof. intros Hl. apply forallb_Forall. eapply Forall_impl; [exact Hl|]. unfold is_hex. intros b Hb. lia. Qed.

Definition bearer (token : string) : list byte := bytes_of "Bearer " ++ bytes_of token.

Lemma bearer_token_read bytes : bearer_token (Some (bearer (hex_encode bytes))) = Some (hex_encode bytes).
Proof.
  unfold bearer_token, bearer, header_text. rewrite forallb_app.
  rewrite (hex_text _ (hex_encode_chars bytes)). cbn [forallb bytes_of andb].
  rewrite (proj2 (strip_prefix_spec _ _ _) eq_refl). cbn [option_map]. by rewrite of_bytes_bytes_of.
Qed.

(** After a login, requests with its token pass until it expires, as far as role and tenant
    allow, and stop passing at that time. *)
Lemma login_then_request w ttl ts name password d evs log resp d' log' bytes m path q now :
  auth_run d evs -> aw_token w = hex_encode bytes ->
  login_handler w ttl ts name password d log = (Ok resp, d', log') ->
  let rq := {| rq_method := m; rq_path := path; rq_query := q;
               rq_authorization := Some (bearer (lg_token resp)) |} in
  public_path path = false ->
  role_rank (min_role_for m path) <= role_rank (lg_role resp) ->
  (lg_tenant_id resp <> None -> tenant_route_allowed m path = true) ->
  (auth_gate (fun _ => false) now rq d').1 =
  Ok (if lg_expires_at resp <=? now then Unauthorized
      else PassAs {| cx_user_id := match get_user_by_username false name d with
                                   | Ok (Some u) => user_id u | _ => 0 end;
                     cx_role := lg_role resp; cx_token := lg_token resp; cx_tenant_id := lg_tenant_id resp |}).
Proof.
  intros Hd%run_ok Htok Hl rq Hpub Hrole Hten.
  apply login_session_ok in Hl as (k & r & Hk & _ & Eu & _ & _ & Hf & Et & Er & Etn & ->). rewrite Eu.
  destruct (ao_users d evs Hd k r Hk) as (u & -> & Hu).
  change (user_id (row_to_user (uuid_display u) r)) with (uuid_or_nil (uuid_display u)).
  rewrite !uuid_or_nil_display by done. unfold auth_gate, request_token. cbn [rq rq_path rq_authorization rq_method].
  rewrite Hpub, Et, Htok, bearer_token_read. unfold get_session. cbn [a_sessions with_sessions].
  rewrite lookup_insert_eq. cbn [srow_expires_at srow_user]. rewrite as_u64_i64 by done.
  destruct (_ <=? now); [done|]. rewrite uuid_parse_display by done. cbn [session_user].
  unfold get_user_by_id. cbn [a_users with_sessions]. rewrite Hk. cbn [option_map].
  rewrite Er in *. rewrite Etn in *.
  assert (role_ltb (user_role (row_to_user (uuid_display u) r)) (min_role_for m path) = false) as -> by (apply Z.ltb_ge; lia).
  destruct (user_tenant (row_to_user (uuid_display u) r)) as [t|].
  - rewrite Hten by done. cbn [andb negb fst].
    change (user_id (row_to_user (uuid_display u) r)) with (uuid_or_nil (uuid_display u)). by rewrite uuid_or_nil_display.
  - cbn [andb fst].
    change (user_id (row_to_user (uuid_display u) r)) with (uuid_or_nil (uuid_display u)). by rewrite uuid_or_nil_display.
Qed.
End Round.

(** ** Routes *)

(** Administration of users, tenants and exporters. *)
Definition platform_route (path : string) : bool :=
  String.eqb path "/api/v1/exporters" || String.eqb path "/api/v1/auth/users"
  || String.eqb path "/api/v1/tenants" || str_starts_with path "/api/v1/tenants/".

Lemma tenant_never_administers m path : tenant_route_allowed m path = true -> platform_route path = false.
Proof.
  intros Ha. apply not_true_iff_false. unfold platform_route. rewrite !orb_true_iff, !String.eqb_eq.
  unfold str_starts_with. rewrite is_prefix_spec.
  intros [[[-> | ->]| ->]|[rest E]]; [by destruct m..|].
  apply (f_equal of_bytes) in E. rewrite of_bytes_bytes_of in E. subst path.
  destruct m; discriminate.
Qed.

(** A tenant's user changes groups only as an Admin, incidents and evidence only from Analyst on. *)
Lemma writes_need_role m path : reads m = false -> tenant_route_allowed m path = true ->
  path <> "/api/v1/auth/logout" -> role_rank Analyst <= role_rank (min_role_for m path).
Proof.
  assert (forall p q, is_Some (strip_prefix (bytes_of p) (bytes_of q)) -> exists rest, q = of_bytes (bytes_of p ++ rest)) as Hp.
  { intros p q [rest E%strip_prefix_spec]. exists rest. by rewrite <- E, of_bytes_bytes_of. }
  assert (forall q p, one_segment q p = true -> exists rest, q = of_bytes (bytes_of p ++ rest)) as Hs.
  { intros q p E. apply Hp. unfold one_segment in E. by destruct (strip_prefix _ _). }
  assert (forall q, group_member q = true -> exists rest, q = of_bytes (bytes_of "/api/v1/groups/" ++ rest)) as Hm.
  { intros q E. apply Hp. unfold group_member in E. by destruct (strip_prefix _ _). }
  assert (forall q, group_policy_route q = true -> exists rest, q = of_bytes (bytes_of "/api/v1/groups/" ++ rest)) as Hg.
  { intros q E. apply Hp. unfold group_policy_route, seg_then in E. by destruct (strip_prefix _ _). }
  intros Hr Ha Hl. destruct m; try done; cbn [tenant_route_allowed] in Ha; rewrite !orb_true_iff, ?String.eqb_eq in Ha.
  - destruct Ha as [[[[?| ->]| ->]|[rest ->]%Hs]| ->]; [done|..]; vm_compute; discriminate.
  - destruct Ha as [[rest ->]%Hm|[rest ->]%Hg]; vm_compute; discriminate.
  - destruct Ha as [[rest ->]%Hs|[rest ->]%Hs]; vm_compute; discriminate.
  - destruct Ha as [[[rest ->]%Hs|[rest ->]%Hm]|[rest ->]%Hg]; vm_compute; discriminate.
Qed.

(** ** The token in the query *)

(** Text without percent signs and plus signs is its own decoding. *)
Lemma decode_plain l : Forall (fun b => is_hex b = true) l -> decode_loop l = Ok l.
Proof.
  induction 1 as [|c l Hc _ IH]; [done|]. cbn [decode_loop].
  rewrite decide_False by (intros ->; done). destruct l as [|a [|b l]]; rewrite ?IH; try done.
  rewrite decide_False by (intros ->; done). done.
Qed.

Lemma hex_ne l c : Forall (fun b => is_hex b = true) l -> is_hex c = false -> c ∉ l.
Proof. intros Hl Hc Hin. rewrite Forall_forall in Hl. apply Hl in Hin. congruence. Qed.

Lemma split_all_none c l : c ∉ l -> split_all c l = [l].
Proof.
  induction l as [|b l IH]; intros Hc; [done|]. apply not_elem_of_cons in Hc as [Hb Hc]. cbn [split_all].
  rewrite decide_False by congruence. by rewrite IH.
Qed.

Lemma query_token `{HexCodec} bytes : bytes <> [] ->
  token_from_query ("token=" +:+ hex_encode bytes) = Ok (Some (hex_encode bytes)).
Proof.
  intros Hne. pose proof (hex_encode_chars bytes) as Hx. pose proof (hex_encode_len bytes) as Hlen.
  unfold token_from_query. rewrite bytes_of_app, split_all_none.
  - cbn [find_token]. change (bytes_of "token=" ++ ?l) with (bytes_of "token" ++ Byte.x3d :: l).
    rewrite split_once_app by by apply (bool_decide_unpack (Byte.x3d ∉ bytes_of "token")).
    rewrite of_bytes_bytes_of. change (String.eqb "token" "token") with true.
    assert (is_nil (bytes_of (hex_encode bytes)) = false) as ->.
    { destruct (bytes_of (hex_encode bytes)); [destruct bytes; [done|cbn in Hlen; lia]|done]. }
    cbn [negb andb]. unfold percent_decode. rewrite decode_plain by done. cbn [obind].
    unfold from_utf8_lossy. rewrite lossy_ascii; [by rewrite of_bytes_bytes_of|].
    eapply Forall_impl; [exact Hx|]. intros b Hb. unfold is_hex, is_ascii in *. lia.
  - rewrite elem_of_app. intros [Hin|Hin].
    { by apply (bool_decide_unpack (Byte.x26 ∉ bytes_of "token=")) in Hin. }
    by eapply (hex_ne _ Byte.x26 Hx).
Qed.

(** Slicing the two bytes after a percent sign panics inside a character: a stream request whose
    query holds such a text ends the connection task, before anybody is authenticated. *)
Lemma percent_decode_panics : token_from_query "token=%aé" = Panic.
Proof. vm_compute. reflexivity. Qed.

(** ** Example *)

Definition toy_verify (p h : string) : option bool := Some (str_ends_with h ("$" +:+ p)).

Lemma toy_verify_hash (salt p h : string) : Some (salt +:+ "$" +:+ p) = Some h -> toy_verify p h = Some true.
Proof.
  intros [= <-]. unfold toy_verify. f_equal. apply str_ends_with_spec. exists (bytes_of salt).
  by rewrite bytes_of_app.
Qed.

#[local] Instance toy_argon2 : Argon2 :=
  {| argon2_hash salt p := Some (salt +:+ "$" +:+ p); argon2_verify := toy_verify;
     argon2_verify_hash := toy_verify_hash |}.

Definition list_append (log : list AuditEntry) (n : NewAuditEntry)
  : outcome AuditLogError AuditEntry * list AuditEntry :=
  let e := {| audit_id := 0; a_timestamp := 0; who := n_who n; what := n_what n; target := n_target n;
              why := n_why n; result := n_result n; prev_entry_hash := ""; entry_hash := "" |} in
  (Ok e, log ++ [e])%list.

(** The log as a list, for examples. *)
Definition list_sink : AuditSink (list AuditEntry).
Proof.
  refine {| log_append := list_append; log_entries log := Some log; log_sound _ := True |}.
  - done.
  - intros l n e l' _ [= <- <-]. split; [done|]. split; [by exists l|done].
Defined.

#[local] Instance auth_sink : AuditSink (list AuditEntry) := list_sink.
#[local] Instance auth_uuid : UuidText := concrete_uuid.
#[local] Instance auth_hex : HexCodec := concrete_hex.
#[local] Instance auth_sqlite : Sqlite := StoreConcrete.plain_sqlite.

Definition calm (now : Z) (token : string) : AuthWeather :=
  {| aw_io := fun _ => false; aw_now := now; aw_token := token; aw_id := 5; aw_salt := "s" |}.

Definition first_password : string := hex_encode [Byte.x01; Byte.x02].
Definition opened_store : AuthDb := (open_store (calm 10 "") [Byte.x01; Byte.x02] auth_empty).2.
Definition admin_login := login_handler (calm 20 "ab12") 3600 tenants_empty "admin" first_password opened_store [].

Definition audit_request (token : string) : Request :=
  {| rq_method := GET; rq_path := "/api/v1/audit"; rq_query := None; rq_authorization := Some (bearer token) |}.

Lemma gate_authorises_witness :
  (auth_gate (fun _ => false) 30 (audit_request "ab12") admin_login.1.2).1
    = Ok (PassAs {| cx_user_id := 5; cx_role := Admin; cx_token := "ab12"; cx_tenant_id := None |})
  /\ (auth_gate (fun _ => false) 3620 (audit_request "ab12") admin_login.1.2).1 = Ok Unauthorized
  /\ exists u expires password,
       live [Issued "ab12" 5 3620 first_password] "ab12" 5 expires password /\ 30 < expires
       /\ get_user_by_id false 5 admin_login.1.2 = Ok (Some u)
       /\ argon2_verify password (password_hash u) = Some true.
Proof.
  split; [vm_compute; reflexivity|]. split; [vm_compute; reflexivity|].
  assert (auth_run opened_store []) as H0 by (apply run_open; [apply run_start|reflexivity]).
  pose proof (run_login (calm 20 "ab12") 3600 tenants_empty "admin" first_password opened_store [] [] H0) as Hr.
  destruct (gate_authorises _ _ (fun _ => false) 30 (audit_request "ab12")
    {| cx_user_id := 5; cx_role := Admin; cx_token := "ab12"; cx_tenant_id := None |} _ Hr
    ltac:(vm_compute; reflexivity)) as (u & expires & password & _ & Hl & Hn & Hu & Hv & _).
  exists u, expires, password. split; [exact Hl|]. split; [exact Hn|]. split; [exact Hu|exact Hv].
Defined.
