(* ===== verification/TenantScope.v ===== *)
(** * What a tenant's user reads: [crates/osiris-api/src/tenant_scope.rs]

    A decorator over the storage that narrows every read to the hosts of a tenant and refuses
    every write, and the extractor that chooses it for a request. *)

From S2P Require Import Prelude Concrete BTree Json Schema QueryEval AuditLog Detect Sql StoreConcrete.
From S2P Require Import Storage StoreQuery Tenancy Evidence Auth.

(** The storage a handler gets: the shared one, or the decorator over some hosts. *)
Inductive ScopedStorage := SharedStorage | TenantScopedStorage (hosts : gset Uuid).

Section Scope.
Context `{JsonLib} `{HexCodec} `{UuidText} `{Sqlite}.
Context `{event_serde : !Serde CanonicalEvent} `{alert_serde : !Serde Alert} `{ids_serde : !Serde (list Uuid)}.
Context (to_value : CanonicalEvent -> option json).

Definition read_only : StorageError := Backend "tenant-scoped storage is read-only".

(** [allowed] and [allowed_set]. *)
Definition allowed (hosts : gset Uuid) : list string := map uuid_display (elements hosts).

(** Narrows, never widens. *)
Definition effective_hosts (hosts : gset Uuid) (requested : option (list string)) : option (list string) :=
  match requested with
  | None => Some (allowed hosts)
  | Some want => Some (List.filter (fun h => bool_decide (h ∈ allowed hosts)) want)
  end.

Definition narrowed (s : ScopedStorage) (requested : option (list string)) : option (list string) :=
  match s with SharedStorage => requested | TenantScopedStorage hosts => effective_hosts hosts requested end.

(** Plans with other hosts. *)
Definition query_for (h : option (list string)) (p : QueryPlan) : QueryPlan :=
  {| qp_event_type := qp_event_type p; qp_process_key := qp_process_key p; qp_file_path := qp_file_path p;
     qp_file_identity := qp_file_identity p; qp_network_addr := qp_network_addr p;
     qp_dns_domain := qp_dns_domain p; qp_session_id := qp_session_id p; qp_user_uid := qp_user_uid p;
     qp_unit_name := qp_unit_name p; qp_container_id := qp_container_id p; qp_since := qp_since p;
     qp_until := qp_until p; qp_limit := qp_limit p; qp_host_ids := h |}.
Definition events_for (h : option (list string)) (p : EventQueryPlan) : EventQueryPlan :=
  {| filter_ast := filter_ast p; since := since p; until := until p; limit := limit p; export := export p;
     host_ids := h |}.
Definition alerts_for (h : option (list string)) (p : AlertQueryPlan) : AlertQueryPlan :=
  Build_AlertQueryPlan (ap_rule_id p) (ap_evidence_event_ids p) (ap_since p) (ap_until p) (ap_limit p) h.
Definition edges_for (h : option (list string)) (p : RelationshipQueryPlan) : RelationshipQueryPlan :=
  Build_RelationshipQueryPlan (lp_entity p) (lp_since p) (lp_until p) (lp_limit p) h.
Definition risks_for (h : option (list string)) (p : RiskQueryPlan) : RiskQueryPlan :=
  Build_RiskQueryPlan (kp_process_key p) (kp_event_id p) (kp_since p) (kp_until p) (kp_limit p) h.

(** The reads. *)
Definition scoped_query (s : ScopedStorage) (io : bool) (p : QueryPlan) (d : Db) :=
  query io (query_for (narrowed s (qp_host_ids p)) p) d.
Definition scoped_events (s : ScopedStorage) (io : nat -> bool) (p : EventQueryPlan) (d : Db) :=
  query_events to_value io (events_for (narrowed s (host_ids p)) p) d.
Definition scoped_alerts (s : ScopedStorage) (io : bool) (p : AlertQueryPlan) (d : Db) :=
  query_alerts io (alerts_for (narrowed s (ap_host_ids p)) p) d.
Definition scoped_edges (s : ScopedStorage) (io : bool) (p : RelationshipQueryPlan) (d : Db) :=
  query_relationships io (edges_for (narrowed s (lp_host_ids p)) p) d.
Definition scoped_risks (s : ScopedStorage) (io : bool) (p : RiskQueryPlan) (d : Db) :=
  query_risk_scores io (risks_for (narrowed s (kp_host_ids p)) p) d.

Definition in_storage (s : ScopedStorage) (h : Uuid) : bool :=
  match s with SharedStorage => true | TenantScopedStorage hosts => bool_decide (h ∈ hosts) end.

Definition keep {A} (f : A -> bool) (o : option A) : option A :=
  match o with Some a => if f a then Some a else None | None => None end.

Definition scoped_owner (s : ScopedStorage) (io : bool) (id : Uuid) (d : Db) : outcome StorageError (option Uuid) :=
  let? owner := event_owner io id d in Ok (keep (in_storage s) owner).
Definition scoped_event (s : ScopedStorage) (io : bool) (id : Uuid) (d : Db)
  : outcome StorageError (option CanonicalEvent) :=
  let? e := get_event io id d in Ok (keep (fun e => in_storage s (ev_host_id e)) e).

(** The writes: refused by the decorator. *)
Definition guarded {A} (s : ScopedStorage) (m : Db -> outcome StorageError A * Db) (d : Db)
  : outcome StorageError A * Db :=
  match s with SharedStorage => m d | TenantScopedStorage _ => (Err read_only, d) end.

Definition scoped_write (s : ScopedStorage) io event := guarded s (write io event).
Definition scoped_batch_write (s : ScopedStorage) io events := guarded s (batch_write io events).
Definition scoped_delete (s : ScopedStorage) io before := guarded s (delete io before).
Definition scoped_retention (s : ScopedStorage) io now max_age := guarded s (retention_apply io now max_age).
Definition scoped_write_alerts (s : ScopedStorage) io alerts := guarded s (write_alerts io alerts).
Definition scoped_write_edges (s : ScopedStorage) io edges := guarded s (write_relationships io edges).
Definition scoped_write_risks (s : ScopedStorage) io scores := guarded s (write_risk_scores io scores).

(** ** The extractor *)

(** [None]: a platform caller.  A registry that does not answer is an error, never the shared
    storage. *)
Definition hosts_of_tenant (io : bool) (tenant : option Uuid) (ts : option TenantDb) : outcome Z (option (gset Uuid)) :=
  match tenant with
  | None => Ok None
  | Some t =>
      match ts with
      | None => Err 500
      | Some ts => let? hosts := status 500 (hosts_of io t ts) in Ok (Some hosts)
      end
  end.

Definition scoped_storage (io : bool) (tenant : option Uuid) (ts : option TenantDb) : outcome Z ScopedStorage :=
  let? hosts := hosts_of_tenant io tenant ts in
  Ok (match hosts with None => SharedStorage | Some hosts => TenantScopedStorage hosts end).

(** [None] without an authenticated context. *)
Definition tenant_hosts (io : bool) (ctx : option AuthContext) (ts : option TenantDb)
  : outcome Z (option (gset Uuid)) :=
  match ctx with None => Ok None | Some ctx => hosts_of_tenant io (cx_tenant_id ctx) ts end.

Definition from_request_parts (io : bool) (ctx : option AuthContext) (ts : option TenantDb)
  : outcome Z ScopedStorage :=
  let? hosts := tenant_hosts io ctx ts in
  Ok (match hosts with None => SharedStorage | Some hosts => TenantScopedStorage hosts end).

(** ** What a tenant's user can reach *)

Lemma extractor_scopes io ctx t ts s : cx_tenant_id ctx = Some t -> from_request_parts io (Some ctx) ts = Ok s ->
  exists db hosts, ts = Some db /\ s = TenantScopedStorage hosts
    /\ forall h, h ∈ hosts <-> t_hosts db !! h = Some t.
Proof.
  intros Et. unfold from_request_parts, tenant_hosts, hosts_of_tenant. rewrite Et. destruct ts as [db|]; [|done].
  destruct io; [done|]. pose proof (hosts_of_spec t db) as Hh. destruct (hosts_of false t db) as [hosts| |]; try done.
  intros [= <-]. by exists db, hosts.
Qed.

(** The hosts an answer may name are hosts of the tenant. *)
Lemma narrowed_hosts hosts requested h ids : (forall x, x ∈ hosts -> fits 128 x = true) ->
  effective_hosts hosts requested = Some ids -> host_in ids h ->
  h ∈ hosts /\ forall want, requested = Some want -> uuid_display h ∈ want.
Proof.
  intros Hfit Hids [Hh Hin].
  assert (forall x, x ∈ allowed hosts -> x = uuid_display h -> h ∈ hosts) as Hallowed.
  { intros x (y & -> & Hy)%list_elem_of_fmap E. apply elem_of_elements in Hy.
    apply uuid_display_inj in E; [by subst|by apply Hfit|done]. }
  destruct requested as [want|]; injection Hids as <-.
  - apply elem_of_filter_b in Hin as [Hw Ha%bool_decide_eq_true]. split; [by eapply Hallowed|]. by intros ? [= <-].
  - split; [by eapply Hallowed|done].
Qed.

Lemma narrowed_none hosts requested : exists ids, effective_hosts hosts requested = Some ids.
Proof. destruct requested; by eexists. Qed.

Lemma keep_some {A} (f : A -> bool) o a : keep f o = Some a -> f a = true.
Proof. unfold keep. destruct o as [b|]; [|done]. destruct (f b) eqn:E; [|done]. by intros [= <-]. Qed.

(** The tenant of a host, and the hosts a plan asked for. *)
Definition host_of (ts : TenantDb) (t : Uuid) (h : Uuid) : Prop := t_hosts ts !! h = Some t.
Definition asked (requested : option (list string)) (h : Uuid) : Prop :=
  forall want, requested = Some want -> uuid_display h ∈ want.

(** C34. A tenant's user reads the tenant's hosts and nothing else.  For a caller with a tenant the
    extractor never hands out the shared storage; through what it hands out, every event,
    alert, risk record, owner and edge (by the event it cites) belongs to a host assigned to
    the tenant and among those asked for, and every write is refused and changes nothing. *)
Theorem tenant_reads_confined d ts ctx t io s :
  rtc store_step db_empty d -> (forall h t', t_hosts ts !! h = Some t' -> fits 128 h = true) ->
  cx_tenant_id ctx = Some t -> from_request_parts io (Some ctx) (Some ts) = Ok s ->
  (forall io p es, scoped_query s io p d = Ok es ->
     Forall (fun e => host_of ts t (ev_host_id e) /\ asked (qp_host_ids p) (ev_host_id e)) es)
  /\ (forall io p es, scoped_events s io p d = Ok es ->
     Forall (fun e => host_of ts t (ev_host_id e) /\ asked (host_ids p) (ev_host_id e)) es)
  /\ (forall io p als, scoped_alerts s io p d = Ok als ->
     Forall (fun a => host_of ts t (alert_host_id a) /\ asked (ap_host_ids p) (alert_host_id a)) als)
  /\ (forall io p rs, scoped_risks s io p d = Ok rs ->
     Forall (fun r => host_of ts t (rs_host_id r) /\ asked (kp_host_ids p) (rs_host_id r)) rs)
  /\ (forall io p es, scoped_edges s io p d = Ok es ->
     Forall (fun x => exists e, get_event false (er_event_id x) d = Ok (Some e)
                                /\ host_of ts t (ev_host_id e) /\ asked (lp_host_ids p) (ev_host_id e)) es)
  /\ (forall io id e, scoped_event s io id d = Ok (Some e) -> host_of ts t (ev_host_id e))
  /\ (forall io id h, scoped_owner s io id d = Ok (Some h) -> host_of ts t h)
  /\ (forall A (m : Db -> outcome StorageError A * Db), guarded s m d = (Err read_only, d)).
Proof.
  intros Hd Hfit Ht Hs. destruct (extractor_scopes _ _ _ _ _ Ht Hs) as (db & hosts & [= <-] & -> & Hh).
  assert (forall x, x ∈ hosts -> fits 128 x = true) as Hf by (intros x Hx%Hh; eauto).
  assert (forall requested ids h, effective_hosts hosts requested = Some ids -> host_in ids h ->
    host_of ts t h /\ asked requested h) as Hin.
  { intros requested ids h He Hi. destruct (narrowed_hosts hosts requested h ids Hf He Hi). split; [by apply Hh|done]. }
  assert (forall h, in_storage (TenantScopedStorage hosts) h = true -> host_of ts t h) as Hst
    by (intros h Hx; apply Hh; by apply bool_decide_eq_true in Hx).
  split_and!.
  - intros io1 p es Hq. destruct (narrowed_none hosts (qp_host_ids p)) as [ids Hids].
    destruct (queries_scoped to_value d ids Hd) as (Q1 & Q2 & Q3 & Q4 & Q5).
    eapply Forall_impl; [eapply Q1; [|exact Hq]; exact Hids|]. eauto.
  - intros io1 p es Hq. destruct (narrowed_none hosts (host_ids p)) as [ids Hids].
    destruct (queries_scoped to_value d ids Hd) as (Q1 & Q2 & Q3 & Q4 & Q5).
    eapply Forall_impl; [eapply Q2; [|exact Hq]; exact Hids|]. eauto.
  - intros io1 p es Hq. destruct (narrowed_none hosts (ap_host_ids p)) as [ids Hids].
    destruct (queries_scoped to_value d ids Hd) as (Q1 & Q2 & Q3 & Q4 & Q5).
    eapply Forall_impl; [eapply Q3; [|exact Hq]; exact Hids|]. eauto.
  - intros io1 p es Hq. destruct (narrowed_none hosts (kp_host_ids p)) as [ids Hids].
    destruct (queries_scoped to_value d ids Hd) as (Q1 & Q2 & Q3 & Q4 & Q5).
    eapply Forall_impl; [eapply Q4; [|exact Hq]; exact Hids|]. eauto.
  - intros io1 p es Hq. destruct (narrowed_none hosts (lp_host_ids p)) as [ids Hids].
    destruct (queries_scoped to_value d ids Hd) as (Q1 & Q2 & Q3 & Q4 & Q5).
    eapply Forall_impl; [eapply Q5; [|exact Hq]; exact Hids|].
    cbn beta. intros x (e & He & Hi). exists e. split; [done|eauto].
  - intros io1 id e. unfold scoped_event. destruct (get_event io1 id d) as [o| |]; cbn [obind]; try done.
    intros [= Hk]. apply Hst. by eapply (keep_some (fun e => in_storage _ (ev_host_id e))).
  - intros io1 id h. unfold scoped_owner. destruct (event_owner io1 id d) as [o| |]; cbn [obind]; try done.
    intros [= Hk]. apply Hst. by eapply keep_some.
  - done.
Qed.

(** The audit log a tenant's Admin reads names only users of the tenant. *)
Lemma tenant_audit_view {L} `{!AuditSink L} w limit ctx t d (log : L) es :
  cx_tenant_id ctx = Some t -> audit_handler w limit ctx d log = Ok es ->
  Forall (fun e => exists k r, a_users d !! k = Some r /\ who e = AUser (uuid_or_nil k)
                               /\ option_map uuid_or_nil (urow_tenant r) = Some t) es.
Proof.
  intros Ht. unfold audit_handler. rewrite Ht. destruct (log_entries log) as [all|]; [|done].
  cbn [ok_or obind]. unfold list_users. destruct (aw_io w 0%nat); [done|]. cbn [status omap_err obind].
  intros [= <-]. apply Forall_take, Forall_rev, Forall_forall. intros e [_ He]%elem_of_filter_b.
  unfold by_members in He. destruct (who e) as [u|] eqn:Ew; [|done].
  apply existsb_exists in He as (m & Hm%list_elem_of_In & <-%Z.eqb_eq).
  apply elem_of_filter_b in Hm as [Hm Hmt%bool_decide_eq_true].
  apply list_elem_of_fmap in Hm as ([k r] & -> & Hr). rewrite order_by_perm, elem_of_map_to_list in Hr.
  by exists k, r.
Qed.
End Scope.

(** ** Example *)

(** Tenant 1 owns host 7, tenant 2 owns host 8; both hosts have stored events. *)
Definition two_tenants : TenantDb := {| t_tenants := ∅; t_hosts := {[7 := 1; 8 := 2]} |}.

Definition analyst_of (t : Uuid) : AuthContext :=
  {| cx_user_id := 5; cx_role := Analyst; cx_token := "ab"; cx_tenant_id := Some t |}.

Definition storage_of (t : Uuid) : ScopedStorage :=
  match from_request_parts false (Some (analyst_of t)) (Some two_tenants) with Ok s => s | _ => SharedStorage end.

Lemma tenant_reads_confined_witness :
  event_ids_of (scoped_query (storage_of 1) false query_plan_new sample_db) = [3; 1]
  /\ event_ids_of (scoped_query (storage_of 2) false query_plan_new sample_db) = [2]
  /\ Forall (fun e => host_of two_tenants 1 (ev_host_id e) /\ asked None (ev_host_id e))
       (match scoped_query (storage_of 1) false query_plan_new sample_db with Ok es => es | _ => [] end).
Proof.
  split; [vm_compute; reflexivity|]. split; [vm_compute; reflexivity|].
  destruct (tenant_reads_confined store_to_value sample_db two_tenants (analyst_of 1) 1 false (storage_of 1)
    sample_db_reachable) as (Hq & _).
  - intros h t' Hh. unfold two_tenants in Hh. cbn in Hh.
    apply lookup_insert_Some in Hh as [[<- _]|[_ Hh]]; [done|]. by apply lookup_singleton_Some in Hh as [<- _].
  - reflexivity.
  - vm_compute. reflexivity.
  - destruct (scoped_query (storage_of 1) false query_plan_new sample_db) as [es| |] eqn:E; [|constructor..].
    exact (Hq false query_plan_new es E).
Defined.
