(* ===== verification/Response.v ===== *)
(** * Response actions: [crates/osiris-response]

    What an operator asks for, the events that resolve its target, the command an agent gets
    for it, local evidence collection and dry runs.  The handler in front is [ResponseApi]. *)

From S2P Require Import Prelude Concrete BTree Json Schema QueryLex QueryEval Envelope Guard AuditLog Sql.
From S2P Require Import Baseline Storage StoreQuery StoreConcrete Evidence Tenancy Auth TenantScope Reconcile.

(** ** [lib.rs] *)

Inductive ResponseActionKind :=
| KTerminateProcess | KStopService | KQuarantineFile | KRestoreFile | KBlockIndicator
| KIsolateNetwork | KDisablePersistence | KCollectEvidence.

Definition destructive (k : ResponseActionKind) : bool :=
  match k with KCollectEvidence => false | _ => true end.

Definition supports_dry_run (k : ResponseActionKind) : bool := true.

Definition wire_form (k : ResponseActionKind) : string :=
  match k with
  | KTerminateProcess => "TERMINATE_PROCESS"
  | KStopService => "STOP_SERVICE"
  | KQuarantineFile => "QUARANTINE_FILE"
  | KRestoreFile => "RESTORE_FILE"
  | KBlockIndicator => "BLOCK_INDICATOR"
  | KIsolateNetwork => "ISOLATE_NETWORK"
  | KDisablePersistence => "DISABLE_PERSISTENCE"
  | KCollectEvidence => "COLLECT_EVIDENCE"
  end.

Record ResponseRequest := {
  rr_action : ResponseActionKind; rr_target : EntityRef; rr_reason : string; rr_dry_run : bool;
  rr_since : option Z; rr_until : option Z; rr_incident_id : option Uuid; rr_tenant_id : option Uuid }.

Inductive ResponseOutcome :=
| DryRunPreview (description : string)
| EvidenceCollected (evidence_id : Uuid) (event_count : Z) (truncated : bool)
| Rejected (reason : string)
| OExecuted (detail : string) (quarantine_id : option Uuid)
| ExecutionFailed (code message : string)
| ORefused (reason : string)
| OTimedOut
| AgentOffline
| ControlDisabled.

Inductive ResponseError :=
| RStorage (e : StorageError)
| REvidence (e : EvidenceStoreError)
| RLink
| REvidenceBuild (e : EvidenceError)
| UnknownTarget (target : EntityRef).

(** The [Debug] names of [FailCode]. *)
Definition fail_code_debug (c : FailCode) : string :=
  match c with
  | TargetChanged => "TargetChanged"
  | Unverifiable => "Unverifiable"
  | NotFound => "NotFound"
  | DestinationExists => "DestinationExists"
  | Io => "Io"
  | Unsupported => "Unsupported"
  | InvalidRequest => "InvalidRequest"
  end.

(** ** [links.rs] of [osiris-evidence]: a set of pairs *)

Definition link (fails : bool) (incident evidence : Uuid) (l : gset (Uuid * Uuid))
  : outcome ResponseError unit * gset (Uuid * Uuid) :=
  if fails then (Err RLink, l) else (Ok tt, {[(incident, evidence)]} ∪ l).

Definition evidence_ids_for_incident (incident : Uuid) (l : gset (Uuid * Uuid)) : list Uuid :=
  map snd (List.filter (fun p => p.1 =? incident) (elements l)).

Definition incident_ids_for_evidence (evidence : Uuid) (l : gset (Uuid * Uuid)) : list Uuid :=
  map fst (List.filter (fun p => p.2 =? evidence) (elements l)).

Section Response.
Context `{JsonLib} `{HexCodec} `{UuidText} `{Sqlite} `{Sha256} `{CaseSerde}.
Context `{event_serde : !Serde CanonicalEvent} `{events_serde : !Serde (list CanonicalEvent)}.
Context (to_value : CanonicalEvent -> option json).

(** ** [query.rs] *)

(** [u64 as f64]. *)
Definition num_of (n : Z) : Value := Num (f64_of_Z n).

Definition entity_query_ast (entity : EntityRef) : Ast :=
  match entity with
  | EProcess k => Compare "process.process_key" Eq (Str (as_hex k))
  | EFile host inode device =>
      And (And (Compare "file.inode" Eq (num_of inode)) (Compare "file.device_id" Eq (num_of device)))
          (Compare "host_id" Eq (Str (uuid_display host)))
  | EIp addr => Or (Compare "network.src_ip" Eq (Str addr)) (Compare "network.dst_ip" Eq (Str addr))
  | EDomain name => Compare "dns.query" Eq (Str name)
  | EUser host uid => And (Compare "user.uid" Eq (num_of uid)) (Compare "host_id" Eq (Str (uuid_display host)))
  | EContainer c => Compare "container.container_id" Eq (Str c)
  | ESession s => Compare "session.session_id" Eq (Str s)
  end.

Definition entity_plan (entity : EntityRef) (since_ until_ limit_ : Z) (export_ : bool) : EventQueryPlan :=
  {| filter_ast := Some (entity_query_ast entity); since := Some since_; until := Some until_;
     limit := limit_; export := export_; host_ids := None |}.

Definition events_for_entity (s : ScopedStorage) (io : nat -> bool) (d : Db) (entity : EntityRef)
    (since_ until_ limit_ : Z) (export_ : bool) : outcome StorageError (list CanonicalEvent) :=
  scoped_events to_value s io (entity_plan entity since_ until_ limit_ export_) d.

Definition storage_err {A} (m : outcome StorageError A) : outcome ResponseError A := omap_err RStorage m.

(** ** [dispatch.rs] *)

Definition verb (action : ResponseActionKind) : string :=
  match action with
  | KTerminateProcess => "terminate process"
  | KStopService => "stop service"
  | KRestoreFile => "restore quarantined file for"
  | KQuarantineFile => "quarantine file"
  | KBlockIndicator => "block indicator"
  | KIsolateNetwork => "isolate network for"
  | KDisablePersistence => "disable persistence for"
  | KCollectEvidence => "collect evidence for"
  end.

Definition target_desc (target : EntityRef) (sample : CanonicalEvent) : string :=
  match target with
  | EProcess k =>
      "process " +:+ as_hex k +:+ " (pid " +:+ dec_string (match ev_process sample with Some p => pid p | None => 0 end)
      +:+ ", host " +:+ uuid_display (ev_host_id sample) +:+ ")"
  | EFile _ inode device =>
      "file at inode " +:+ dec_string inode +:+ " device " +:+ dec_string device +:+ " (path "
      +:+ (match ev_file sample with Some f => file_path f | None => "" end) +:+ ")"
  | EIp addr => "network address " +:+ addr
  | EDomain name => "domain " +:+ name
  | EUser _ uid => "user uid " +:+ dec_string uid
  | EContainer c => "container " +:+ c
  | ESession s => "session " +:+ s
  end.

Definition describe_target (action : ResponseActionKind) (target : EntityRef) (sample : CanonicalEvent) : string :=
  "would " +:+ verb action +:+ " " +:+ target_desc target sample +:+ " — no action taken, dry run".

(** The stores evidence goes to: the evidence table and the links. *)
Record CaseStore := { cs_evidence : rows; cs_links : gset (Uuid * Uuid) }.

(** What one dispatch meets: failing reads, a failing insertion and link, the clock, a fresh id. *)
Record DispatchWeather := {
  dw_reads : nat -> bool; dw_insert : bool; dw_link : bool; dw_now : Z; dw_id : Uuid }.

Definition collect_evidence (w : DispatchWeather) (r : ResponseRequest) (events : list CanonicalEvent) (c : CaseStore)
  : outcome ResponseError ResponseOutcome * CaseStore :=
  match to_vec events with
  | None => (Panic, c)
  | Some serialized =>
      match omap_err REvidenceBuild
              (evidence_new (dw_id w) EventCapture (dw_now w)
                 {| int_hash := hex_encode (sha256 serialized); immutable_since := dw_now w |}
                 [rr_target r] None) with
      | Ok e =>
          let '(inserted, t) := evidence_insert (dw_insert w) (cs_evidence c) (with_tenant e (rr_tenant_id r)) in
          match omap_err REvidence inserted with
          | Ok e =>
              let '(linked, l) := match rr_incident_id r with
                                  | Some i => link (dw_link w) i (evidence_id e) (cs_links c)
                                  | None => (Ok tt, cs_links c)
                                  end in
              (let? _ := linked in
               let n := Z.of_nat (List.length events) in
               Ok (EvidenceCollected (evidence_id e) n (MAX_EVENT_LIMIT <=? n)),
               {| cs_evidence := t; cs_links := l |})
          | Err x => (Err x, {| cs_evidence := t; cs_links := cs_links c |})
          | Panic => (Panic, {| cs_evidence := t; cs_links := cs_links c |})
          end
      | Err x => (Err x, c)
      | Panic => (Panic, c)
      end
  end.

Definition preview (w : DispatchWeather) (s : ScopedStorage) (d : Db) (r : ResponseRequest)
  : outcome ResponseError ResponseOutcome :=
  let? sample := storage_err (events_for_entity s (dw_reads w) d (rr_target r) 0 u64_max 1 false) in
  match sample with
  | [] => Err (UnknownTarget (rr_target r))
  | e :: _ => Ok (DryRunPreview (describe_target (rr_action r) (rr_target r) e))
  end.

Definition NOT_SHIPPED : string :=
  "Active Actions milestone not yet shipped — see ARCHITECTURE.md §13/§29".

Definition dispatch (w : DispatchWeather) (s : ScopedStorage) (d : Db) (r : ResponseRequest) (c : CaseStore)
  : outcome ResponseError ResponseOutcome * CaseStore :=
  if rr_dry_run r then (preview w s d r, c)
  else if negb (destructive (rr_action r)) then
    match storage_err (events_for_entity s (dw_reads w) d (rr_target r) (default 0 (rr_since r))
                         (default u64_max (rr_until r)) 10000 true) with
    | Ok events => collect_evidence w r events c
    | Err x => (Err x, c)
    | Panic => (Panic, c)
    end
  else (Ok (Rejected NOT_SHIPPED), c).

(** ** [remote.rs] *)

Definition remote_action (r : ResponseRequest) (sample : CanonicalEvent) : outcome ResponseError (Uuid * CommandAction) :=
  let unknown := UnknownTarget (rr_target r) in
  match rr_action r, rr_target r with
  | KTerminateProcess, EProcess _ =>
      let? p := ok_or (ev_process sample) unknown in
      Ok (ev_host_id sample, TerminateProcess (pid p) (exe_path p) (ev_timestamp sample))
  | KQuarantineFile, EFile _ _ _ =>
      let? f := ok_or (ev_file sample) unknown in
      let? i := ok_or (inode f) unknown in
      let? v := ok_or (device_id f) unknown in
      Ok (ev_host_id sample, QuarantineFile (file_path f) i v)
  | _, _ => Err unknown
  end.

Definition usable (r : ResponseRequest) (e : CanonicalEvent) : bool := is_ok (remote_action r e).

Definition PAGE : Z := DEFAULT_EVENT_LIMIT.
Definition MAX_PAGES : nat := 1000.

(** An event replaces the newest one unless it is older. *)
Definition consider (r : ResponseRequest) (newest : option CanonicalEvent) (e : CanonicalEvent) : option CanonicalEvent :=
  if usable r e && match newest with None => true | Some n => ev_timestamp n <=? ev_timestamp e end
  then Some e else newest.

Definition last_ts (cursor : Z) (page : list CanonicalEvent) : Z :=
  match map ev_timestamp page with [] => cursor | t :: ts => fold_left Z.max ts t end.

(** The loop over pages: [query] reads from a cursor on; release arithmetic wraps. *)
Fixpoint newest_event (r : ResponseRequest) (query : nat -> Z -> outcome ResponseError (list CanonicalEvent))
    (n : nat) (cursor : Z) (newest : option CanonicalEvent) : outcome ResponseError (option CanonicalEvent) :=
  match n with
  | O => Ok newest
  | S n =>
      let? page := query n cursor in
      let newest := fold_left (consider r) page newest in
      if Z.of_nat (List.length page) <? PAGE then Ok newest
      else
        let l := last_ts cursor page in
        newest_event r query n (if cursor <? l then l else (cursor + 1) mod 2 ^ 64) newest
  end.

(** [io] are the failures of the reads of each page, counted down. *)
Definition resolve_remote_action (s : ScopedStorage) (io : nat -> nat -> bool) (d : Db) (r : ResponseRequest)
  : outcome ResponseError (Uuid * CommandAction) :=
  let? newest := newest_event r (fun n cursor =>
                   storage_err (events_for_entity s (io n) d (rr_target r) cursor u64_max PAGE false))
                   MAX_PAGES 0 None in
  let? sample := ok_or newest (UnknownTarget (rr_target r)) in
  remote_action r sample.

(** [tenant_scope.rs]: every entity a tenant names must have data in its scope. *)
Fixpoint ensure_entities_in_scope (s : ScopedStorage) (io : nat -> nat -> bool) (d : Db) (entities : list EntityRef)
  : outcome Z unit :=
  match entities with
  | [] => Ok tt
  | e :: rest =>
      let? found := Auth.status 500 (events_for_entity s (io (List.length rest)) d e 0 u64_max 1 false) in
      match found with [] => Err 400 | _ => ensure_entities_in_scope s io d rest end
  end.

(** The answer of the dispatcher as an outcome; [Err] is a failure of the transport. *)
Definition executed_text (detail : ExecDetail) : string :=
  let extra := match detail_quarantine_id detail with Some id => ["quarantine_id=" +:+ uuid_display id] | None => [] end
            ++ match detail_sha256 detail with Some h => ["sha256=" +:+ h] | None => [] end
            ++ match signal detail with Some s => ["signal=" +:+ s] | None => [] end in
  match extra with
  | [] => summary detail
  | _ => summary detail +:+ " (" +:+ String.concat ", " extra +:+ ")"
  end.

Definition outcome_from_dispatch (r : CommandResult + DispatchError) : outcome string ResponseOutcome :=
  match r with
  | inl (Executed detail) => Ok (OExecuted (executed_text detail) (detail_quarantine_id detail))
  | inl (Failed code message) => Ok (ExecutionFailed (fail_code_debug code) message)
  | inl (Refused reason) => Ok (ORefused (refusal_text reason))
  | inl (DryRunOk would_do) => Ok (DryRunPreview would_do)
  | inr DispatchTimedOut => Ok OTimedOut
  | inr DispatchOffline => Ok AgentOffline
  | inr DispatchDisabled => Ok ControlDisabled
  | inr (DispatchFailed m) => Err m
  end.

End Response.

(** ** The newest usable event *)

Section Newest.
Context `{JsonLib} (r : ResponseRequest) (l : list CanonicalEvent) (k : Z).
Context (sorted : StronglySorted (fun a b => ev_timestamp a <= ev_timestamp b) l).
Context (thin : forall t, Z.of_nat (List.length (List.filter (fun e => ev_timestamp e =? t) l)) <= k) (k_page : k < PAGE).
Context (times : forall e, e ∈ l -> 0 <= ev_timestamp e < 2 ^ 63).

Definition from (c : Z) : list CanonicalEvent := List.filter (fun e => c <=? ev_timestamp e) l.

(** [newest] is the newest usable event of those in [P]. *)
Definition best (P : CanonicalEvent -> Prop) (newest : option CanonicalEvent) : Prop :=
  match newest with
  | None => forall e, P e -> usable r e = false
  | Some n => n ∈ l /\ usable r n = true /\ forall e, P e -> usable r e = true -> ev_timestamp e <= ev_timestamp n
  end.

Lemma best_mono (P Q : CanonicalEvent -> Prop) newest : (forall e, Q e -> P e) -> best P newest -> best Q newest.
Proof. intros HPQ. destruct newest as [n|]; cbn; [|eauto]. intros (? & ? & Hn). split_and!; eauto. Qed.

Lemma consider_best P newest e : e ∈ l -> best P newest -> best (fun x => P x \/ x = e) (consider r newest e).
Proof.
  intros He Hb. unfold consider. destruct (usable r e) eqn:Eu; cbn [andb].
  - destruct newest as [n|]; cbn in Hb |- *.
    + destruct Hb as (Hn & Hun & Hmax). destruct (Z.leb_spec (ev_timestamp n) (ev_timestamp e)); cbn.
      * split_and!; [done..|]. intros x [Hx| ->] Hux; [|lia]. pose proof (Hmax x Hx Hux). lia.
      * split_and!; [done..|]. intros x [Hx| ->] Hux; [by apply Hmax|lia].
    + split_and!; [done..|]. intros x [Hx| ->] Hux; [|lia]. by rewrite (Hb x Hx) in Hux.
  - destruct newest as [n|]; cbn in Hb |- *.
    + destruct Hb as (Hn & Hun & Hmax). split_and!; [done..|]. intros x [Hx| ->] Hux; [by apply Hmax|congruence].
    + intros x [Hx| ->]; [by apply Hb|done].
Qed.

Lemma fold_best page P newest : Forall (fun e => e ∈ l) page -> best P newest ->
  best (fun x => P x \/ x ∈ page) (fold_left (consider r) page newest).
Proof.
  intros Hp. revert P newest. induction Hp as [|e page He Hp IH]; intros P newest Hb; cbn.
  - eapply best_mono; [|exact Hb]. intros x [?|Hx]; [done|]. by apply not_elem_of_nil in Hx.
  - eapply best_mono; [|apply IH, (consider_best P newest e He Hb)]. cbn. intros x [?|Hx%elem_of_cons]; tauto.
Qed.

Lemma last_ts_bounds c page : (forall e, e ∈ page -> c <= ev_timestamp e) ->
  c <= last_ts c page /\ (forall e, e ∈ page -> ev_timestamp e <= last_ts c page)
  /\ (page <> [] -> exists e, e ∈ page /\ ev_timestamp e = last_ts c page).
Proof.
  unfold last_ts. destruct page as [|e page]; cbn [map]; [intros _; split_and!; [lia| |done]; intros e He; by apply not_elem_of_nil in He|].
  intros Hc. assert (forall ts t, t <= fold_left Z.max ts t /\ (forall u, u ∈ ts -> u <= fold_left Z.max ts t)
    /\ (fold_left Z.max ts t = t \/ fold_left Z.max ts t ∈ ts)) as Hf.
  { induction ts as [|u ts IH]; intros t; cbn; [split_and!; [lia| |by left]; intros u Hu; by apply not_elem_of_nil in Hu|].
    destruct (IH (Z.max t u)) as (H1 & H2 & H3). split_and!; [lia| |].
    - intros v [->|Hv]%elem_of_cons; [lia|by apply H2].
    - destruct H3 as [->|H3]; [|right; by right]. destruct (Z.max_spec t u) as [[_ ->]|[_ ->]]; [right; by left|by left]. }
  destruct (Hf (map ev_timestamp page) (ev_timestamp e)) as (H1 & H2 & H3).
  pose proof (Hc e ltac:(by left)) as He. split_and!; [lia| |].
  - intros x [->|Hx]%elem_of_cons; [done|]. apply H2. apply list_elem_of_fmap. by exists x.
  - intros _. destruct H3 as [->|H3]; [exists e; split; [by left|done]|].
    apply list_elem_of_fmap in H3 as (x & Ex & Hx). exists x. split; [by right|done].
Qed.

Lemma filter_length_sublist {A} (f : A -> bool) l1 l2 : l1 `sublist_of` l2 ->
  (List.length (List.filter f l1) <= List.length (List.filter f l2))%nat.
Proof. induction 1 as [|x l1 l2 _ IH|x l1 l2 _ IH]; cbn; [done| |]; destruct (f x); cbn; lia. Qed.

(** A full page: what it leaves out is not before its last time, and there is progress. *)
Lemma full_page c : let page := take (Z.to_nat PAGE) (from c) in Z.of_nat (List.length page) = PAGE ->
  c < last_ts c page < 2 ^ 63
  /\ (forall e, e ∈ l -> c <= ev_timestamp e -> ev_timestamp e < last_ts c page -> e ∈ page)
  /\ Z.of_nat (List.length (from (last_ts c page))) <= Z.of_nat (List.length (from c)) - (PAGE - k).
Proof.
  intros page Hfull. set (rest := drop (Z.to_nat PAGE) (from c)).
  assert (from c = page ++ rest) as Efrom by (symmetry; apply take_drop).
  assert (forall e, e ∈ from c <-> e ∈ l /\ c <= ev_timestamp e) as Hin.
  { intros e. unfold from. rewrite elem_of_filter_b. by rewrite Z.leb_le. }
  assert (forall e, e ∈ page -> c <= ev_timestamp e) as Hc by (intros e He; apply Hin; rewrite Efrom; apply elem_of_app; by left).
  destruct (last_ts_bounds c page Hc) as (Hle & Hmax & Hatt). set (m := last_ts c page) in *.
  assert (forall e, e ∈ rest -> m <= ev_timestamp e) as Hrest.
  { destruct Hatt as (x & Hx & <-); [intros E; rewrite E in Hfull; done|]. intros e He.
    assert (StronglySorted (fun a b => ev_timestamp a <= ev_timestamp b) (page ++ rest)) as Hs by (rewrite <- Efrom; by apply filter_sorted).
    clear -Hs Hx He. induction page as [|y page IH]; [by apply not_elem_of_nil in Hx|].
    cbn in Hs. apply StronglySorted_inv in Hs as [Hs Hy]. apply elem_of_cons in Hx as [->|Hx]; [|by apply IH].
    rewrite Forall_forall in Hy. apply Hy, elem_of_app. by right. }
  assert (Z.of_nat (List.length (List.filter (fun e => m <=? ev_timestamp e) page)) <= k) as Hk.
  { etransitivity; [|apply (thin m)]. apply Nat2Z.inj_le.
    rewrite (filter_ext (fun e => m <=? ev_timestamp e) (fun e => ev_timestamp e =? m) page).
    - apply filter_length_sublist. etransitivity; [apply sublist_take|apply filter_sublist].
    - intros e He. pose proof (Hmax e He). lia. }
  split_and!.
  - assert (c <> m); [|lia]. intros E. rewrite filter_true in Hk; [lia|].
    apply Forall_forall. intros e He. apply Z.leb_le. rewrite <- E. by apply Hc.
  - destruct Hatt as (x & Hx & <-); [intros E; by rewrite E in Hfull|].
    apply times. assert (x ∈ from c) as [? _]%Hin by (rewrite Efrom; apply elem_of_app; by left). done.
  - intros e He Hce Hem. assert (e ∈ from c) as Hf by by apply Hin. rewrite Efrom in Hf.
    apply elem_of_app in Hf as [?|Hr]; [done|]. pose proof (Hrest e Hr). lia.
  - rewrite Efrom, length_app, Nat2Z.inj_add, Hfull.
    assert (from m = List.filter (fun e => m <=? ev_timestamp e) page ++ rest) as ->.
    { transitivity (List.filter (fun e => m <=? ev_timestamp e) (from c)).
      - unfold from. rewrite filter_filter. apply filter_ext. intros e _. lia.
      - rewrite Efrom, List.filter_app. f_equal. apply filter_true, Forall_forall. intros e He. apply Z.leb_le. by apply Hrest. }
    rewrite length_app, Nat2Z.inj_add. lia.
Qed.

Lemma newest_event_best query n c newest :
  (forall n c, 0 <= c < 2 ^ 63 -> query n c = Ok (take (Z.to_nat PAGE) (from c))) -> 0 <= c < 2 ^ 63 -> (0 < n)%nat ->
  Z.of_nat (List.length (from c)) < Z.of_nat n * (PAGE - k) ->
  best (fun e => e ∈ l /\ ev_timestamp e < c) newest ->
  exists m, newest_event r query n c newest = Ok m /\ best (fun e => e ∈ l) m.
Proof.
  intros Hq. revert c newest. induction n as [|n IH]; intros c newest Hc Hn Hlen Hb; [lia|].
  cbn [newest_event]. rewrite Hq by done. cbn [obind]. set (page := take (Z.to_nat PAGE) (from c)).
  assert (Forall (fun e => e ∈ l) page) as Hp.
  { apply Forall_take, Forall_forall. intros e He. by apply elem_of_filter_b in He as [? _]. }
  pose proof (fold_best page _ newest Hp Hb) as Hb'. destruct (Z.ltb_spec (Z.of_nat (List.length page)) PAGE) as [Hlt|Hge].
  - eexists. split; [done|]. eapply best_mono; [|exact Hb']. intros e He. cbn beta.
    destruct (Z.ltb_spec (ev_timestamp e) c); [by left|]. right. unfold page.
    rewrite take_ge; [apply elem_of_filter_b; by rewrite Z.leb_le|]. unfold page in Hlt. rewrite length_take in Hlt. unfold PAGE, DEFAULT_EVENT_LIMIT in *. lia.
  - assert (Z.of_nat (List.length page) = PAGE) as Hfull.
    { unfold page in *. rewrite length_take in *. unfold PAGE, DEFAULT_EVENT_LIMIT in *. lia. }
    destruct (full_page c Hfull) as ([Hlt Hlt'] & Hin & Hprog). fold page in Hlt, Hlt', Hin, Hprog.
    rewrite (proj2 (Z.ltb_lt c _)) by lia.
    apply IH; [lia| | |].
    + destruct n; [|lia]. exfalso. lia.
    + lia.
    + eapply best_mono; [|exact Hb']. intros e [He Hts]. cbn beta. destruct (Z.ltb_spec (ev_timestamp e) c); [by left|].
      right. by apply Hin.
Qed.
End Newest.

(** ** What a command is made from *)

Section Facts.
Context `{JsonLib} `{HexCodec} `{UuidText} `{Sqlite} `{Sha256} `{CaseSerde}.
Context `{event_serde : !Serde CanonicalEvent} `{events_serde : !Serde (list CanonicalEvent)}.
Context `{alert_serde : !Serde Alert} `{ids_serde : !Serde (list Uuid)}.
Context (to_value : CanonicalEvent -> option json).

(** The events that match a target among those of some hosts, in time order. *)
Definition matches_of (host : string -> bool) (d : Db) (target : EntityRef) : list CanonicalEvent :=
  matching to_value (Some (entity_query_ast target))
    (sort_by row_le (List.filter (fun r => host (col_host_id r)) (db_events d))).

(** Rows in a reachable database hold the time of their event. *)
Definition before_2262 (d : Db) : Prop := forall r e, r ∈ db_events d -> read_row r = Some e -> ev_timestamp e < 2 ^ 63.

Lemma row_time d r : rtc store_step db_empty d -> before_2262 d -> r ∈ db_events d ->
  exists e, read_row r = Some e /\ col_timestamp r = ev_timestamp e /\ 0 <= ev_timestamp e < 2 ^ 63.
Proof.
  intros Hd%reachable_ok Hb Hr. destruct (stored_row d r Hd Hr) as (e & (_ & _ & Hts%fits_iff) & Erow & Ej & _).
  apply event_row_fields in Erow as (_ & _ & Et & _). exists e. split; [done|]. pose proof (Hb r e Hr Ej).
  rewrite Et. split; [|lia]. unfold as_i64. rewrite Z.mod_small; lia.
Qed.

Lemma matching_filter (filter : option Ast) (p : EventRow -> bool) (q : CanonicalEvent -> bool) rows :
  Forall (fun r => exists e, read_row r = Some e /\ p r = q e) rows ->
  matching to_value filter (List.filter p rows) = List.filter q (matching to_value filter rows).
Proof.
  induction 1 as [|r rows (e & Er & Epq) _ IH]; [done|]. cbn [List.filter].
  rewrite (matching_cons to_value filter r e rows Er), List.filter_app, <- IH.
  destruct (p r) eqn:Ep.
  - rewrite (matching_cons to_value filter r e _ Er). f_equal. destruct (filter_matches _ _ e); [|done]. cbn. by rewrite <- Epq.
  - destruct (filter_matches _ _ e); [|done]. cbn. by rewrite <- Epq.
Qed.

Lemma filter_permuted {A} (f : A -> bool) l1 l2 : l1 ≡ₚ l2 -> List.filter f l1 ≡ₚ List.filter f l2.
Proof.
  induction 1 as [|x l1 l2 _ IH|x y l|l1 l2 l3 _ IH1 _ IH2]; cbn; [done| | |by etransitivity].
  - destruct (f x); [by constructor|done].
  - destruct (f x), (f y); try done. apply perm_swap.
Qed.

Lemma sort_filter d (p q : EventRow -> bool) : NoDup (map col_event_id (db_events d)) ->
  sort_by row_le (List.filter (fun r => p r && q r) (db_events d))
  = List.filter q (sort_by row_le (List.filter p (db_events d))).
Proof.
  intros Hn. rewrite <- filter_filter. eapply (StronglySorted_unique_strong (fun a b => row_le a b = true)).
  - intros a b Ha Hb H1' H2'. rewrite sort_by_perm in Ha. apply elem_of_filter_b in Ha as [Ha _].
    apply elem_of_filter_b in Ha as [Ha _]. apply elem_of_filter_b in Hb as [Hb _]. rewrite sort_by_perm in Hb.
    apply elem_of_filter_b in Hb as [Hb _]. pose proof (row_le_antisym _ _ H1' H2') as E.
    pose proof (row_of_elem col_event_id _ a Hn Ha) as Ea. rewrite E, (row_of_elem col_event_id _ b Hn Hb) in Ea. congruence.
  - apply sort_by_sorted; [apply row_le_trans|apply row_le_total].
  - apply filter_sorted, sort_by_sorted; [apply row_le_trans|apply row_le_total].
  - rewrite sort_by_perm. apply filter_permuted. by rewrite sort_by_perm.
Qed.

Lemma matches_sorted host d target : rtc store_step db_empty d -> before_2262 d ->
  StronglySorted (fun a b => ev_timestamp a <= ev_timestamp b) (matches_of host d target).
Proof.
  intros Hd Hb. apply filter_sorted. assert (Forall (fun r => r ∈ db_events d)
    (sort_by row_le (List.filter (fun r => host (col_host_id r)) (db_events d)))) as Hin.
  { apply Forall_forall. intros r Hr. rewrite sort_by_perm in Hr. by apply elem_of_filter_b in Hr as [? _]. }
  pose proof (sort_by_sorted row_le row_le_trans row_le_total (List.filter (fun r => host (col_host_id r)) (db_events d))) as Hs.
  induction Hs as [|r rows Hs IH Hr]; [constructor|]. apply Forall_cons in Hin as [Hin Hins]. cbn.
  destruct (row_time d r Hd Hb Hin) as (e & Er & Et & _). rewrite Er. cbn. constructor; [by apply IH|].
  apply Forall_forall. intros e' (r' & Hr' & Er')%list_elem_of_omap. rewrite Forall_forall in Hr, Hins.
  destruct (row_time d r' Hd Hb (Hins r' Hr')) as (e2 & Er2 & Et2 & _). rewrite Er' in Er2. injection Er2 as <-.
  pose proof (Hr r' Hr') as Hle. unfold row_le in Hle. rewrite Et, Et2 in Hle. lia.
Qed.

Lemma matches_times host d target e : rtc store_step db_empty d -> before_2262 d -> e ∈ matches_of host d target ->
  0 <= ev_timestamp e < 2 ^ 63.
Proof.
  intros Hd Hb [He _]%elem_of_filter_b. apply list_elem_of_omap in He as (r & Hr & Er). rewrite sort_by_perm in Hr.
  apply elem_of_filter_b in Hr as [Hr _]. destruct (row_time d r Hd Hb Hr) as (e' & Er' & _ & Ht). congruence.
Qed.

(** One page of a target's events. *)
Lemma page_of s io d target host c :
  json_faithful to_value -> rtc store_step db_empty d -> before_2262 d ->
  pushdown_safe (Some (entity_query_ast target)) = true -> (forall j, io j = false) ->
  push_host_filter (narrowed s None) = Ok host -> Z.of_nat (List.length (db_events d)) <= MAX_SCAN_ROWS ->
  0 <= c < 2 ^ 63 ->
  events_for_entity to_value s io d target c u64_max PAGE false
  = Ok (take (Z.to_nat PAGE) (from (matches_of host d target) c)).
Proof.
  intros Hj Hd Hb Hs Hio Hh Hmax Hc. unfold events_for_entity, scoped_events, query_events. cbn [host_ids entity_plan].
  rewrite (query_events_exact to_value io _ SCAN_BATCH_SIZE d host) by done.
  unfold reference_query. cbn [effective_limit events_for filter_ast since until limit export entity_plan].
  change (Z.to_nat (effective_limit _)) with (Z.to_nat PAGE). do 2 f_equal. unfold matches_of, from.
  rewrite <- (matching_filter _ (fun r => in_window (Some c) (Some u64_max) (col_timestamp r))).
  - rewrite <- sort_filter by (apply events_unique; by apply reachable_ok). reflexivity.
  - apply Forall_forall. intros r Hr. rewrite sort_by_perm in Hr. apply elem_of_filter_b in Hr as [Hr _].
    destruct (row_time d r Hd Hb Hr) as (e & Er & Et & Ht). exists e. split; [done|]. rewrite Et. unfold in_window.
    assert (forall x, 0 <= x < 2 ^ 63 -> as_i64 x = x) as Has by (intros x Hx; unfold as_i64; rewrite Z.mod_small; lia).
    unfold clamp_i64. rewrite !Has by (unfold u64_max; lia). unfold u64_max. destruct (Z.leb_spec c (ev_timestamp e)); lia.
Qed.

(** A command comes from an event in the caller's storage that matches the target. *)
Lemma newest_event_elem r query n c newest m (P : CanonicalEvent -> Prop) :
  (forall n c es, query n c = Ok es -> Forall P es) -> (forall e, newest = Some e -> P e) ->
  newest_event r query n c newest = Ok m -> forall e, m = Some e -> P e.
Proof.
  intros Hq. revert c newest. induction n as [|n IH]; intros c newest Hn; cbn; [intros [= <-]; done|].
  destruct (query n c) as [page| |] eqn:E; cbn [obind]; try done. pose proof (Hq _ _ _ E) as Hp.
  assert (forall e, fold_left (consider r) page newest = Some e -> P e) as Hf.
  { clear -Hp Hn. revert newest Hn. induction Hp as [|e page He Hp IH]; intros newest Hn; cbn; [done|]. apply IH.
    intros x. unfold consider. destruct (_ && _); [by intros [= <-]|apply Hn]. }
  destruct (_ <? PAGE); [by intros [= <-]|]. by apply IH.
Qed.

Lemma remote_action_host r e h a : remote_action r e = Ok (h, a) -> h = ev_host_id e.
Proof.
  unfold remote_action. destruct (rr_action r); try done; destruct (rr_target r) as [|? i0 v0| | | | |]; try done.
  - destruct (ev_process e); cbn; [|done]. by intros [= <- _].
  - destruct (ev_file e) as [f|]; cbn; [|done]. destruct (inode f); cbn; [|done]. destruct (device_id f); cbn; [|done].
    by intros [= <- _].
Qed.

Lemma target_pushdown_safe target : pushdown_safe (Some (entity_query_ast target)) = true.
Proof. by destruct target. Qed.

(** The event is stored, matches the target, and is on a host of the caller. *)
Definition behind (s : ScopedStorage) (d : Db) (target : EntityRef) (e : CanonicalEvent) : Prop :=
  exists row host, row ∈ db_events d /\ read_row row = Some e
    /\ filter_matches to_value (Some (entity_query_ast target)) e = true
    /\ push_host_filter (narrowed s None) = Ok host /\ host (col_host_id row) = true.

Lemma events_for_entity_behind s io d target c u n x es :
  storage_err (events_for_entity to_value s io d target c u n x) = Ok es -> Forall (behind s d target) es.
Proof.
  intros Hq%omap_err_ok. apply Forall_forall. intros e He. unfold events_for_entity, scoped_events, query_events in Hq.
  destruct (query_events_elem _ _ _ _ _ _ _ Hq He) as (host & row & Hh & Hrow & Hb & Er & Hm).
  exists row, host. unfold base_where in Hb. by inv_bools Hb.
Qed.

Lemma behind_host s d target e : rtc store_step db_empty d -> behind s d target e ->
  fits 128 (ev_host_id e) = true
  /\ exists host, push_host_filter (narrowed s None) = Ok host /\ host (uuid_display (ev_host_id e)) = true.
Proof.
  intros Hd%reachable_ok (row & host & Hrow & Er & _ & Hh & Hhost).
  destruct (stored_row d row Hd Hrow) as (e' & (_ & Hfit & _) & Erow & Ej & _).
  unfold read_row in Er. rewrite Ej in Er. injection Er as ->. apply event_row_fields in Erow as (_ & Eh & _).
  split; [done|]. exists host. by rewrite <- Eh.
Qed.

(** The event behind a command. *)
Lemma resolve_event s io d r h a : resolve_remote_action to_value s io d r = Ok (h, a) ->
  exists e, behind s d (rr_target r) e /\ remote_action r e = Ok (h, a).
Proof.
  unfold resolve_remote_action. intros (newest & Hn & Hr)%obind_ok.
  apply obind_ok in Hr as (e & He & Hr). destruct newest as [e'|]; [|done]. injection He as ->.
  exists e. split; [|done]. revert Hn. generalize MAX_PAGES as pages. intros pages Hn.
  refine (newest_event_elem r _ _ _ _ _ (behind s d (rr_target r)) _ _ Hn e eq_refl); [|done].
  intros n c es. apply events_for_entity_behind.
Qed.

Lemma entities_in_scope s io d entities : ensure_entities_in_scope to_value s io d entities = Ok tt ->
  Forall (fun target => exists e, behind s d target e) entities.
Proof.
  induction entities as [|target rest IH]; [constructor|]. cbn [ensure_entities_in_scope].
  intros (es & Hes%omap_err_ok & Hr)%obind_ok. destruct es as [|e es]; [done|]. constructor; [|by apply IH].
  exists e. assert (Forall (behind s d target) (e :: es)) as Hf
    by (eapply events_for_entity_behind; unfold storage_err; by rewrite Hes). by apply Forall_cons in Hf as [? _].
Qed.

(** For a tenant's user the host is one of the tenant. *)
Lemma resolve_scoped hosts io d r h a : rtc store_step db_empty d -> (forall x, x ∈ hosts -> fits 128 x = true) ->
  resolve_remote_action to_value (TenantScopedStorage hosts) io d r = Ok (h, a) -> h ∈ hosts.
Proof.
  intros Hd Hfit Hr. destruct (resolve_event _ _ _ _ _ _ Hr) as (e & Hb & Ha).
  destruct (behind_host _ _ _ _ Hd Hb) as (Hf & host & Hh & Hhost).
  rewrite (remote_action_host _ _ _ _ Ha). pose proof (push_host_filter_scoped _ _ _ Hh Hhost) as Hin.
  by destruct (narrowed_hosts hosts None (ev_host_id e) (allowed hosts) Hfit eq_refl) as [? _].
Qed.

End Facts.

(** C14. A command names what the newest usable event of its target names. When no
    statement fails, the store holds at most [MAX_SCAN_ROWS] events, all dated before
    2262, the scope names at most 30,000 hosts, fewer than a page of the target's share
    one time, and their number fits the thousand pages: resolving a target returns the
    host and the command of an event that is stored, visible to the caller and matches the
    target, and no such event from which a command can be made is newer; the target is
    unknown only if there is no such event. *)
Theorem command_from_newest_event `{JsonLib} `{HexCodec} `{UuidText} `{Sqlite} `{!Serde CanonicalEvent}
    `{!Serde Alert} `{!Serde (list Uuid)} to_value s io d r host k :
  json_faithful to_value -> rtc store_step db_empty d -> before_2262 d ->
  (forall n j, io n j = false) -> push_host_filter (narrowed s None) = Ok host ->
  Z.of_nat (List.length (db_events d)) <= MAX_SCAN_ROWS -> k < PAGE ->
  let es := matches_of to_value host d (rr_target r) in
  (forall t, Z.of_nat (List.length (List.filter (fun e => ev_timestamp e =? t) es)) <= k) ->
  Z.of_nat (List.length es) < Z.of_nat MAX_PAGES * (PAGE - k) ->
  match resolve_remote_action to_value s io d r with
  | Ok (h, a) => exists e, e ∈ es /\ remote_action r e = Ok (h, a)
      /\ forall e', e' ∈ es -> usable r e' = true -> ev_timestamp e' <= ev_timestamp e
  | Err x => x = UnknownTarget (rr_target r) /\ forall e, e ∈ es -> usable r e = false
  | Panic => False
  end.
Proof.
  intros Hj Hd Hb Hio Hh Hmax Hk es Hthin Hlen. unfold resolve_remote_action.
  edestruct (newest_event_best r es k (matches_sorted to_value host d _ Hd Hb) Hthin Hk
    (fun e => matches_times to_value host d _ e Hd Hb) (fun n cursor =>
       storage_err (events_for_entity to_value s (io n) d (rr_target r) cursor u64_max PAGE false)) MAX_PAGES 0 None)
    as (m & -> & Hm).
  - intros n c Hc. unfold storage_err.
    rewrite (page_of to_value s (io n) d (rr_target r) host c) by (try done; apply target_pushdown_safe). done.
  - lia.
  - unfold MAX_PAGES. lia.
  - pose proof (filter_length_le (fun e => 0 <=? ev_timestamp e) es). unfold from. lia.
  - cbn. intros e [He Hlt]. pose proof (matches_times to_value host d _ e Hd Hb He). lia.
  - cbn [obind]. destruct m as [n|]; cbn [ok_or obind]; cbn in Hm.
    + destruct Hm as (Hn & Hu & Hmx). unfold usable in Hu. destruct (remote_action r n) as [[h a]| |] eqn:Ea; [|done..].
      exists n. split_and!; done.
    + by split.
Qed.

(** Inodes are compared as doubles: above 2^53 two files of a device look alike, and the command
    names the inode of the event, not the one asked for. *)
Lemma large_inodes_confused `{JsonLib} `{HexCodec} `{UuidText} r host device e f :
  rr_action r = KQuarantineFile -> rr_target r = EFile host (2 ^ 53 + 1) device ->
  ev_file e = Some f -> inode f = Some (2 ^ 53) -> device_id f = Some device ->
  entity_query_ast (EFile host (2 ^ 53 + 1) device) = entity_query_ast (EFile host (2 ^ 53) device)
  /\ remote_action r e = Ok (ev_host_id e, QuarantineFile (file_path f) (2 ^ 53) device).
Proof.
  intros Ea Et Ef Ei Ed. split; [|unfold remote_action; by rewrite Ea, Et, Ef; cbn [ok_or obind]; rewrite Ei; cbn [ok_or obind]; rewrite Ed].
  unfold entity_query_ast. by replace (num_of (2 ^ 53 + 1)) with (num_of (2 ^ 53)) by (vm_compute; reflexivity).
Qed.

(** ** Example *)

(** Two execs of a process, stored out of order, and one of another. *)
Definition exec_event (id ts k : Z) : @CanonicalEvent tjson_lib := sample_event id ts ProcessExec (Some (sample_process k)) "" TNull.
Definition exec_samples : list (@CanonicalEvent tjson_lib) := [exec_event 1 30 5; exec_event 2 20 5; exec_event 3 40 6].
#[local] Instance exec_serde : Serde (@CanonicalEvent tjson_lib) := table_serde exec_samples.
Definition exec_db : Db := (batch_write no_fault exec_samples db_empty).2.

Definition kill_request : ResponseRequest :=
  {| rr_action := KTerminateProcess; rr_target := EProcess (process_key (sample_process 5)); rr_reason := "malware";
     rr_dry_run := false; rr_since := None; rr_until := None; rr_incident_id := None; rr_tenant_id := None |}.

Lemma exec_db_reachable : rtc (store_step) db_empty exec_db.
Proof. apply rtc_once, step_batch. repeat constructor. Qed.

Definition exec_matches : list (@CanonicalEvent tjson_lib) :=
  matches_of store_to_value (fun _ => true) exec_db (rr_target kill_request).

Lemma exec_matches_value : exec_matches = [exec_event 2 20 5; exec_event 1 30 5].
Proof. vm_compute. reflexivity. Qed.

Lemma exec_db_times : before_2262 exec_db.
Proof.
  assert (forallb (fun r => match read_row r with Some e => ev_timestamp e <? 2 ^ 63 | None => true end) (db_events exec_db) = true)
    as Hb by (vm_compute; reflexivity).
  rewrite forallb_Forall, Forall_forall in Hb. intros row e Hr Er. specialize (Hb row Hr).
  unfold sample_json in *. rewrite Er in Hb. by apply Z.ltb_lt.
Qed.

Lemma command_from_newest_event_witness :
  resolve_remote_action store_to_value SharedStorage (fun _ _ => false) exec_db kill_request
  = Ok (7, TerminateProcess 5 "/bin/x" 30).
Proof.
  pose proof (command_from_newest_event store_to_value SharedStorage (fun _ _ => false) exec_db kill_request
    (fun _ => true) 1 store_to_value_faithful exec_db_reachable exec_db_times) as Hc. cbv zeta in Hc. fold exec_matches in Hc.
  rewrite exec_matches_value in Hc.
  assert (forall t, Z.of_nat (List.length (List.filter (fun e => ev_timestamp e =? t) [exec_event 2 20 5; exec_event 1 30 5])) <= 1)
    as Hthin.
  { intros t. cbn [List.filter ev_timestamp exec_event sample_event].
    destruct (Z.eqb_spec 20 t), (Z.eqb_spec 30 t); cbn [List.length]; lia. }
  specialize (Hc ltac:(done) ltac:(done) ltac:(vm_compute; congruence) ltac:(done) Hthin ltac:(vm_compute; reflexivity)).
  destruct (resolve_remote_action _ _ _ _ _) as [[h a]|x|].
  - destruct Hc as (e & He & Ha & Hn).
    apply elem_of_cons in He as [->|He]; [by specialize (Hn (exec_event 1 30 5) ltac:(right; left) eq_refl)|].
    apply list_elem_of_singleton in He as ->. by injection Ha as <- <-.
  - destruct Hc as [_ Hu]. by specialize (Hu (exec_event 1 30 5) ltac:(right; left)).
  - destruct Hc.
Defined.
