(* ===== verification/ResponseApi.v ===== *)
(** * The response handler: [crates/osiris-api/src/response.rs]

    Validation of the request, the storage the caller may read, the audit entries before and
    after an action, and the agent's answer as an HTTP reply.  Effects are kept in order in a
    trace beside the stores they change. *)

From S2P Require Import Prelude Concrete BTree Json Schema QueryLex QueryEval Envelope Guard AuditLog Sql.
From S2P Require Import Storage StoreQuery StoreConcrete Evidence Tenancy Auth TenantScope Reconcile Response.

Definition MAX_REASON_BYTES : nat := 1024.

Record ResponseRequestBody := {
  rb_target : option EntityRef; rb_reason : string; rb_dry_run : bool; rb_since : option Z;
  rb_until : option Z; rb_incident_id : option Uuid; rb_quarantine_id : option Uuid; rb_host_id : option Uuid }.

(** ASCII only. *)
Definition to_ascii_uppercase (s : string) : string :=
  of_bytes (map (fun b => let c := b2z b in if (97 <=? c) && (c <=? 122) then z2b (c - 32) else b) (bytes_of s)).

Definition all_actions : list ResponseActionKind :=
  [KTerminateProcess; KStopService; KQuarantineFile; KRestoreFile; KBlockIndicator; KIsolateNetwork;
   KDisablePersistence; KCollectEvidence].

Definition parse_action (raw : string) : option ResponseActionKind :=
  List.find (fun k => String.eqb (wire_form k) (to_ascii_uppercase raw)) all_actions.

(** The JSON of a reply. *)
Inductive Reply :=
| RPreview (agent_validated : option bool) (preview : string)
| RExecuted (dry_run : bool) (detail : string) (quarantine_id : option Uuid)
| RFailed (dry_run : bool) (code message : string)
| RCollected (evidence_id : Uuid) (event_count : Z) (truncated : bool)
| RError (error message : string).

(** What happens, in order. *)
Inductive Effect :=
| Audited (n : NewAuditEntry)
| NotAudited (n : NewAuditEntry)
| Sent (host : Uuid) (a : CommandAction) (dry_run : bool) (actor reason : string)
| Stored (before after : CaseStore).

Record Mapped := { m_status : Z; m_body : Reply; m_result : AuditResult; m_why : string }.

(** The remote part of a request. *)
Record RemoteCall := {
  rc_user_id : Uuid; rc_tenant_id : option Uuid; rc_request : ResponseRequest; rc_what : string;
  rc_restore : option (Uuid * Uuid) }.

Definition is_remote (k : ResponseActionKind) : bool :=
  match k with KTerminateProcess | KQuarantineFile | KRestoreFile => true | _ => false end.

Definition NO_DATA : string := "target does not resolve to any known data".

Definition map_outcome (outcome_debug : ResponseOutcome -> string) (o : ResponseOutcome) (dry_run : bool) : Mapped :=
  let err code error message why :=
    {| m_status := code; m_body := RError error message; m_result := Failure; m_why := why |} in
  match o with
  | OExecuted detail q =>
      {| m_status := 200; m_body := RExecuted dry_run detail q; m_result := Success; m_why := detail |}
  | DryRunPreview description =>
      {| m_status := 200; m_body := RPreview (Some true) description; m_result := Success; m_why := description |}
  | ExecutionFailed code message =>
      {| m_status := 200; m_body := RFailed dry_run code message; m_result := Failure;
         m_why := "execution failed: " +:+ code +:+ ": " +:+ message |}
  | ORefused reason => err 422 "refused" reason ("agent refused the command: " +:+ reason)
  | OTimedOut => err 504 "timed_out"
      "no result was received from the agent in time; the outcome is unknown and the command may still execute"
      "outcome unknown: no result received from the agent in time; the command may still execute"
  | AgentOffline => err 409 "agent_offline" "the host's agent has no control connection"
      "agent offline: command not sent"
  | ControlDisabled => err 409 "control_disabled" "the command channel is not enabled on this server"
      "command channel disabled: command not sent"
  | other => err 500 "unexpected_outcome" "unexpected outcome for an agent command"
      ("unexpected outcome: " +:+ outcome_debug other)
  end.

(** What one request meets: failing statements, the dispatcher's answer, and the texts of errors
    that come from libraries. *)
Record ResponseWeather := {
  rp_hosts : bool; rp_incident : bool; rp_owner : bool; rp_resolve : nat -> nat -> bool;
  rp_dispatch : DispatchWeather; rp_reply : CommandResult + DispatchError;
  rp_error_text : ResponseError -> string; rp_debug : ResponseOutcome -> string }.

Record RWorld (L : Type) := { wd_log : L; wd_cases : CaseStore; wd_trace : list Effect }.
Arguments Build_RWorld {L}.
Arguments wd_log {L}.
Arguments wd_cases {L}.
Arguments wd_trace {L}.

Section Handler.
Context `{JsonLib} `{HexCodec} `{UuidText} `{Sqlite} `{Sha256} `{CaseSerde}.
Context `{event_serde : !Serde CanonicalEvent} `{events_serde : !Serde (list CanonicalEvent)}.
Context {L : Type} `{!AuditSink L}.
Context (to_value : CanonicalEvent -> option json) (d : Db) (incidents : rows) (tenants : option TenantDb).

Definition effect (e : Effect) (x : RWorld L) : RWorld L := Build_RWorld (wd_log x) (wd_cases x) (wd_trace x ++ [e]).

(** [audit_log.append]. *)
Definition audit (n : NewAuditEntry) (x : RWorld L) : bool * RWorld L :=
  let '(r, l) := log_append (wd_log x) n in
  let x := Build_RWorld l (wd_cases x) (wd_trace x) in
  (is_ok r, effect (if is_ok r then Audited n else NotAudited n) x).

Definition audit_or_warn (n : NewAuditEntry) (x : RWorld L) : RWorld L := (audit n x).2.

Definition entry (user : Uuid) (what : string) (target : EntityRef) (why : string) (result : AuditResult) : NewAuditEntry :=
  {| n_who := AUser user; n_what := what; n_target := target; n_why := Some why; n_result := result |}.

(** [dispatch] on the stores of the server. *)
Definition dispatched (w : ResponseWeather) (s : ScopedStorage) (r : ResponseRequest) (x : RWorld L)
  : outcome ResponseError ResponseOutcome * RWorld L :=
  let '(o, c) := dispatch to_value (rp_dispatch w) s d r (wd_cases x) in
  (o, effect (Stored (wd_cases x) c) (Build_RWorld (wd_log x) c (wd_trace x))).

Definition local_dry_run (w : ResponseWeather) (s : ScopedStorage) (r : ResponseRequest) (what : string) (user : Uuid)
    (agent_validated : option bool) (x : RWorld L) : outcome Z (Z * Reply) * RWorld L :=
  let '(o, x) := dispatched w s r x in
  let note why result := audit_or_warn (entry user what (rr_target r) why result) x in
  match o with
  | Ok (DryRunPreview description) => (Ok (200, RPreview agent_validated description), note description Success)
  | Ok other => (Err 500, note ("dry-run returned an unexpected outcome: " +:+ rp_debug w other) Failure)
  | Err (UnknownTarget _) => (Err 400, note ("dry-run failed: " +:+ NO_DATA) Failure)
  | Err e => (Err 500, note ("dry-run failed: " +:+ rp_error_text w e) Failure)
  | Panic => (Panic, x)
  end.

(** *** [RemoteCall] *)

Definition call_entry (c : RemoteCall) (why : string) (result : AuditResult) : NewAuditEntry :=
  entry (rc_user_id c) (rc_what c) (rr_target (rc_request c)) why result.

Definition base_why (c : RemoteCall) : string :=
  match rc_restore c with
  | Some (q, h) =>
      rr_reason (rc_request c) +:+ " (quarantine_id=" +:+ uuid_display q +:+ ", host_id=" +:+ uuid_display h +:+ ")"
  | None => rr_reason (rc_request c)
  end.

Definition resolve (w : ResponseWeather) (s : ScopedStorage) (c : RemoteCall) (x : RWorld L)
  : outcome Z (Uuid * CommandAction) * RWorld L :=
  match rc_restore c with
  | Some (q, h) =>
      let ok := Ok (h, RestoreFile q) in
      (match rc_tenant_id c with
       | None => ok
       | Some t =>
           match tenants with
           | None => Err 404
           | Some ts =>
               let? owner := Auth.status 500 (tenant_of (rp_owner w) h ts) in
               if bool_decide (owner = Some t) then ok else Err 404
           end
       end, x)
  | None =>
      match resolve_remote_action to_value s (rp_resolve w) d (rc_request c) with
      | Ok v => (Ok v, x)
      | Err (UnknownTarget _) =>
          (Err (match rc_tenant_id c with Some _ => 404 | None => 400 end), audit_or_warn (call_entry c NO_DATA Failure) x)
      | Err e => (Err 500, audit_or_warn (call_entry c ("target resolution failed: " +:+ rp_error_text w e) Failure) x)
      | Panic => (Panic, x)
      end
  end.

(** The command goes to the dispatcher; its answer is [rp_reply]. *)
Definition send (w : ResponseWeather) (c : RemoteCall) (host : Uuid) (a : CommandAction) (x : RWorld L)
  : outcome (Z * string) ResponseOutcome * RWorld L :=
  (omap_err (fun _ => (502, "command dispatch failed")) (outcome_from_dispatch (rp_reply w)),
   effect (Sent host a (rr_dry_run (rc_request c)) ("user:" +:+ uuid_display (rc_user_id c)) (rr_reason (rc_request c))) x).

Definition unreachable_agent (o : ResponseOutcome) : bool :=
  match o with AgentOffline | ControlDisabled => true | _ => false end.

Definition run_dry (w : ResponseWeather) (s : ScopedStorage) (c : RemoteCall) (host : Uuid) (a : CommandAction)
    (x : RWorld L) : outcome Z (Z * Reply) * RWorld L :=
  let '(o, x) := send w c host a x in
  match o with
  | Err (code, msg) =>
      (Ok (code, RError "dispatch_failed" msg), audit_or_warn (call_entry c ("dry-run failed: " +:+ msg) Failure) x)
  | Panic => (Panic, x)
  | Ok o =>
      if unreachable_agent o then
        match rc_restore c with
        | Some (q, h) =>
            let preview := "would restore quarantined file " +:+ uuid_display q +:+ " on host " +:+ uuid_display h
                           +:+ " (agent not consulted) - no action taken, dry run" in
            (Ok (200, RPreview (Some false) preview), audit_or_warn (call_entry c preview Success) x)
        | None => local_dry_run w s (rc_request c) (rc_what c) (rc_user_id c) (Some false) x
        end
      else
        let m := map_outcome (rp_debug w) o true in
        let why := if (m_status m =? 200) && bool_decide (m_result m = Success) then m_why m
                   else "dry-run: " +:+ m_why m in
        (Ok (m_status m, m_body m), audit_or_warn (call_entry c why (m_result m)) x)
  end.

Definition run_real (w : ResponseWeather) (c : RemoteCall) (host : Uuid) (a : CommandAction)
    (x : RWorld L) : outcome Z (Z * Reply) * RWorld L :=
  let '(recorded, x) := audit (call_entry c (base_why c) Success) x in
  if negb recorded then (Err 500, x)
  else
    let '(o, x) := send w c host a x in
    match o with
    | Err (code, msg) =>
        (Ok (code, RError "dispatch_failed" msg),
         audit_or_warn (call_entry c (base_why c +:+ " (dispatch failed: " +:+ msg +:+ "; outcome unknown)") Failure) x)
    | Panic => (Panic, x)
    | Ok o =>
        let m := map_outcome (rp_debug w) o false in
        (Ok (m_status m, m_body m), audit_or_warn (call_entry c (base_why c +:+ " (" +:+ m_why m +:+ ")") (m_result m)) x)
    end.

Definition remote_run (w : ResponseWeather) (s : ScopedStorage) (c : RemoteCall) (x : RWorld L)
  : outcome Z (Z * Reply) * RWorld L :=
  let '(r, x) := resolve w s c x in
  match r with
  | Ok (host, a) => if rr_dry_run (rc_request c) then run_dry w s c host a x else run_real w c host a x
  | Err e => (Err e, x)
  | Panic => (Panic, x)
  end.

(** *** The handler *)

Definition bool_text (b : bool) : string := if b then "true" else "false".

(** The real local actions: recorded before and after. *)
Definition local_execute (w : ResponseWeather) (s : ScopedStorage) (r : ResponseRequest) (what : string) (user : Uuid)
    (x : RWorld L) : outcome Z (Z * Reply) * RWorld L :=
  let '(recorded, x) := audit (entry user what (rr_target r) (rr_reason r) Success) x in
  if negb recorded then (Err 500, x)
  else
    let '(o, x) := dispatched w s r x in
    let note why result := audit_or_warn (entry user what (rr_target r) why result) x in
    match o with
    | Ok (DryRunPreview description) => (Ok (200, RPreview None description), note description Success)
    | Ok (EvidenceCollected id n truncated) =>
        (Ok (200, RCollected id n truncated),
         note (rr_reason r +:+ " (evidence_id=" +:+ uuid_display id +:+ ", event_count=" +:+ dec_string n
               +:+ ", truncated=" +:+ bool_text truncated +:+ ")") Success)
    | Ok (Rejected reason) => (Ok (501, RError "not_implemented" reason), note reason Failure)
    | Ok other => (Err 500, note ("unexpected outcome from dispatch(): " +:+ rp_debug w other) Failure)
    | Err (UnknownTarget _) => (Err 400, note NO_DATA Failure)
    | Err e =>
        (Err 500, audit_or_warn (entry user what (EDomain "response-engine-internal-error") (rp_error_text w e) Failure) x)
    | Panic => (Panic, x)
    end.

(** The checks of the body: the action, the ids of a restore, the target. *)
Definition checked_body (action_raw : string) (b : ResponseRequestBody)
  : outcome Z (ResponseActionKind * option (Uuid * Uuid) * EntityRef) :=
  let? action := ok_or (parse_action action_raw) 404 in
  if is_blank (rb_reason b) then Err 400
  else if (MAX_REASON_BYTES <? List.length (bytes_of (rb_reason b)))%nat then Err 400
  else
    let? restore :=
      match action, rb_quarantine_id b, rb_host_id b with
      | KRestoreFile, Some q, Some h => Ok (Some (q, h))
      | KRestoreFile, _, _ => Err 422
      | _, None, None => Ok None
      | _, _, _ => Err 422
      end in
    let? target :=
      match restore, rb_target b with
      | Some _, Some _ => Err 422
      | Some (q, h), None => Ok (EDomain ("quarantine:" +:+ uuid_display q +:+ "@" +:+ uuid_display h))
      | None, Some t => Ok t
      | None, None => Err 400
      end in
    Ok (action, restore, target).

(** A tenant's user may only name incidents of the tenant. *)
Definition incident_visible (w : ResponseWeather) (tenant incident : option Uuid) : outcome Z unit :=
  match tenant, incident with
  | Some t, Some i =>
      let? found := Auth.status 500 (incident_get (rp_incident w) incidents i) in
      match found with
      | Some i => if bool_decide (incident_tenant i = Some t) then Ok tt else Err 404
      | None => Err 404
      end
  | _, _ => Ok tt
  end.

Definition what_of (action : ResponseActionKind) (dry_run : bool) : string :=
  "response." +:+ wire_form action +:+ (if dry_run then ".dry_run" else ".execute").

Definition request_of (ctx : AuthContext) (action : ResponseActionKind) (target : EntityRef) (b : ResponseRequestBody)
  : ResponseRequest :=
  {| rr_action := action; rr_target := target; rr_reason := rb_reason b; rr_dry_run := rb_dry_run b;
     rr_since := rb_since b; rr_until := rb_until b; rr_incident_id := rb_incident_id b;
     rr_tenant_id := cx_tenant_id ctx |}.

Definition response_handler (w : ResponseWeather) (ctx : AuthContext) (action_raw : string) (b : ResponseRequestBody)
    (x : RWorld L) : outcome Z (Z * Reply) * RWorld L :=
  match (let? checked := checked_body action_raw b in
         let? s := scoped_storage (rp_hosts w) (cx_tenant_id ctx) tenants in
         let? _ := incident_visible w (cx_tenant_id ctx) (rb_incident_id b) in
         Ok (checked, s)) with
  | Ok (action, restore, target, s) =>
      let r := request_of ctx action target b in
      let what := what_of action (rb_dry_run b) in
      if is_remote action then
        remote_run w s {| rc_user_id := cx_user_id ctx; rc_tenant_id := cx_tenant_id ctx; rc_request := r;
                          rc_what := what; rc_restore := restore |} x
      else if rb_dry_run b then local_dry_run w s r what (cx_user_id ctx) None x
      else local_execute w s r what (cx_user_id ctx) x
  | Err e => (Err e, x)
  | Panic => (Panic, x)
  end.
End Handler.

(** ** What the trace holds *)


Definition noted (e : Effect) : Prop := match e with Audited _ | NotAudited _ => True | _ => False end.




Section Facts.
Context `{JsonLib} `{HexCodec} `{UuidText} `{Sqlite} `{Sha256} `{CaseSerde}.
Context `{event_serde : !Serde CanonicalEvent} `{events_serde : !Serde (list CanonicalEvent)}.
Context `{alert_serde : !Serde Alert} `{ids_serde : !Serde (list Uuid)}.
Context {L : Type} `{!AuditSink L}.
Context (to_value : CanonicalEvent -> option json) (d : Db) (incidents : rows) (tenants : option TenantDb).

Lemma audit_cases n (x : RWorld L) : exists e, noted e /\ wd_trace (audit n x).2 = wd_trace x ++ [e]
  /\ wd_cases (audit n x).2 = wd_cases x /\ ((audit n x).1 = true -> e = Audited n).
Proof.
  unfold audit. destruct (log_append (wd_log x) n) as [r l]. cbn. eexists. split_and!; [|done|done|by intros ->].
  by destruct (is_ok r).
Qed.

Lemma warn_trace n (x : RWorld L) : exists e, noted e /\ wd_trace (audit_or_warn n x) = wd_trace x ++ [e].
Proof. destruct (audit_cases n x) as (e & ? & ? & _). by exists e. Qed.



(** A dry run writes nothing. *)
Lemma dry_run_stores w s (r : ResponseRequest) c : rr_dry_run r = true -> (dispatch to_value w s d r c).2 = c.
Proof. unfold dispatch. by intros ->. Qed.









(** A predicate on effects that notes and untouched stores satisfy. *)
Section Every.
Context (P : Effect -> Prop) (P_note : forall e, noted e -> P e) (P_same : forall c, P (Stored c c)).

Lemma every_warn n (x : RWorld L) : Forall P (wd_trace x) -> Forall P (wd_trace (audit_or_warn n x)).
Proof.
  intros Hx. destruct (warn_trace n x) as (e & He & ->). apply Forall_app. split; [done|]. by apply Forall_singleton, P_note.
Qed.

Lemma every_audit n (x : RWorld L) : Forall P (wd_trace x) -> Forall P (wd_trace (audit n x).2).
Proof. apply every_warn. Qed.

Lemma every_local_dry_run w s r what user v (x : RWorld L) : rr_dry_run r = true -> Forall P (wd_trace x) ->
  Forall P (wd_trace (local_dry_run to_value d w s r what user v x).2).
Proof.
  intros Hdry Hx. unfold local_dry_run, dispatched. pose proof (dry_run_stores (rp_dispatch w) s r (wd_cases x) Hdry) as Hc.
  destruct (dispatch _ _ _ _ _ _) as [o c]. cbn in Hc. subst c.
  assert (forall l : L, Forall P (wd_trace (effect (Stored (wd_cases x) (wd_cases x)) (Build_RWorld l (wd_cases x) (wd_trace x))))) as K1.
  { intros l. apply Forall_app. split; [done|]. by apply Forall_singleton. }
  destruct o as [[]|[]|]; cbn [snd]; try apply every_warn; apply K1.
Qed.

Lemma every_remote w s c (x : RWorld L) : Forall P (wd_trace x) ->
  (forall h a x1, resolve to_value d tenants w s c x = (Ok (h, a), x1) -> forall dry actor why, P (Sent h a dry actor why)) ->
  Forall P (wd_trace (remote_run to_value d tenants w s c x).2).
Proof.
  intros Hx Hs. unfold remote_run. assert (Forall P (wd_trace (resolve to_value d tenants w s c x).2)) as K1.
  { unfold resolve. destruct (rc_restore c) as [[q h]|]; [done|].
    destruct (resolve_remote_action _ _ _ _ _) as [v|[]|]; cbn [snd]; try by apply every_warn. all: done. }
  destruct (resolve to_value d tenants w s c x) as [[[h a]|e|] x1]; cbn [snd] in *; try done. specialize (Hs h a x1 eq_refl).
  assert (forall x2 : RWorld L, Forall P (wd_trace x2) -> Forall P (wd_trace (send w c h a x2).2)) as Hsend.
  { intros x2 K2. apply Forall_app. split; [done|]. by apply Forall_singleton. }
  destruct (rr_dry_run (rc_request c)) eqn:Ed.
  - unfold run_dry. pose proof (Hsend x1 K1) as K2. destruct (send w c h a x1) as [[o|[code msg]|] x2]; cbn [snd] in *; [|by apply every_warn|done].
    destruct (unreachable_agent o); [|by apply every_warn]. destruct (rc_restore c) as [[q hh]|]; [by apply every_warn|].
    by apply every_local_dry_run.
  - unfold run_real. pose proof (every_audit (call_entry c (base_why c) Success) x1 K1) as Ha.
    destruct (audit _ x1) as [ok x2]. destruct ok; cbn [negb snd] in *; [|done].
    pose proof (Hsend x2 Ha) as K2. destruct (send w c h a x2) as [[o|[code msg]|] x3]; cbn [snd] in *; [by apply every_warn..|done].
Qed.

Lemma every_local_execute w s r what user (x : RWorld L) : Forall P (wd_trace x) ->
  (forall c, P (Stored c (dispatch to_value (rp_dispatch w) s d r c).2)) ->
  Forall P (wd_trace (local_execute to_value d w s r what user x).2).
Proof.
  intros Hx Hd. unfold local_execute. set (n := entry user what _ _ _). pose proof (every_audit n x Hx) as Ha.
  destruct (audit n x) as [ok x1]. destruct ok; cbn [negb snd] in *; [|done].
  unfold dispatched. specialize (Hd (wd_cases x1)). destruct (dispatch _ _ _ _ _ _) as [o c]. cbn [snd] in Hd.
  assert (forall l : L, Forall P (wd_trace (effect (Stored (wd_cases x1) c) (Build_RWorld l c (wd_trace x1))))) as K1.
  { intros l. apply Forall_app. split; [done|]. by apply Forall_singleton. }
  destruct o as [[]|[]|]; cbn [snd]; try apply every_warn; apply K1.
Qed.
End Every.

(** The host a tenant's command goes to is the tenant's. *)
Lemma resolve_in_tenant w s c (x : RWorld L) ts t hosts h a x1 :
  rtc store_step db_empty d -> (forall h t', t_hosts ts !! h = Some t' -> fits 128 h = true) ->
  tenants = Some ts -> rc_tenant_id c = Some t -> s = TenantScopedStorage hosts ->
  (forall h, h ∈ hosts <-> t_hosts ts !! h = Some t) ->
  resolve to_value d tenants w s c x = (Ok (h, a), x1) -> host_of ts t h.
Proof.
  intros Hd Hfit -> Ht -> Hh. unfold resolve. rewrite Ht. destruct (rc_restore c) as [[q hh]|].
  - unfold tenant_of. destruct (rp_owner w); [done|]. cbn. case_bool_decide as E; [|done]. by intros [= <- _ _].
  - destruct (resolve_remote_action _ _ _ _ _) as [[h' a']|[]|] eqn:E; try done. intros [= -> _ _]. apply Hh.
    eapply (resolve_scoped to_value hosts); [exact Hd| |exact E]. intros y Hy%Hh. by eapply Hfit.
Qed.

(** What collecting evidence adds. *)
Lemma dispatch_stores w s r c : let c' := (dispatch to_value w s d r c).2 in
  c' = c \/ exists e t, evidence_tenant e = rr_tenant_id r
    /\ row_insert (uuid_display (evidence_id e)) (evidence_json e) (cs_evidence c) = Some t /\ cs_evidence c' = t
    /\ (cs_links c' = cs_links c
        \/ exists i, rr_incident_id r = Some i /\ cs_links c' = {[(i, evidence_id e)]} ∪ cs_links c).
Proof.
  unfold dispatch. destruct (rr_dry_run r); [by left|]. destruct (negb _); [|by left].
  destruct (storage_err _) as [es| |]; [|by left..]. unfold collect_evidence. destruct (to_vec es); [|by left].
  destruct (omap_err _ _) as [e| |]; [|by left..]. unfold evidence_insert. destruct (dw_insert w); [by left; destruct c|].
  destruct (row_insert _ _ _) as [t|] eqn:Et; [|by left; destruct c]. cbn [omap_err]. right. exists (with_tenant e (rr_tenant_id r)), t.
  destruct (rr_incident_id r) as [i|]; cbn.
  - unfold link. destruct (dw_link w); cbn; split_and!; try done; [by left|right; by exists i].
  - split_and!; try done. by left.
Qed.

(** ** Theorems about the handler *)

End Facts.


(** C16. A tenant's user acts on the tenant only.  Every command sent for such a user, dry run or
    not, goes to a host that is assigned to the tenant; evidence collected is tagged with the
    tenant, and linked to no incident but the one named, which is the tenant's. *)
Theorem responses_stay_in_tenant `{JsonLib} `{HexCodec} `{UuidText} `{Sqlite} `{Sha256} `{CaseSerde}
    `{!Serde CanonicalEvent} `{!Serde (list CanonicalEvent)} `{!Serde Alert} `{!Serde (list Uuid)} {L} `{!AuditSink L}
    to_value d incidents ts w ctx raw b (x : RWorld L) t :
  rtc store_step db_empty d -> (forall h t', t_hosts ts !! h = Some t' -> fits 128 h = true) ->
  cx_tenant_id ctx = Some t -> wd_trace x = [] ->
  Forall (fun e => match e with
    | Sent h _ _ _ _ => host_of ts t h
    | Stored c c' => c' = c \/ exists ev, evidence_tenant ev = Some t
        /\ row_insert (uuid_display (evidence_id ev)) (evidence_json ev) (cs_evidence c) = Some (cs_evidence c')
        /\ (cs_links c' = cs_links c
            \/ exists i inc, rb_incident_id b = Some i /\ incident_get false incidents i = Ok (Some inc) /\ incident_tenant inc = Some t
                 /\ cs_links c' = {[(i, evidence_id ev)]} ∪ cs_links c)
    | _ => True
    end) (wd_trace (response_handler to_value d incidents (Some ts) w ctx raw b x).2).
Proof.
  intros Hd Hfit Ht Hx. unfold response_handler. rewrite Ht.
  destruct (let? checked := _ in _) as [[[[action restore] target] s]| |] eqn:Ec; cbn [snd]; [|rewrite Hx; constructor..].
  apply obind_ok in Ec as ([[action' restore'] target'] & Hc & Ec).
  apply obind_ok in Ec as (s' & Hs & Ec). apply obind_ok in Ec as (? & Hinc & Ec). injection Ec as -> -> -> ->.
  assert (exists hosts, s = TenantScopedStorage hosts /\ forall h, h ∈ hosts <-> t_hosts ts !! h = Some t) as (hosts & Es & Hh).
  { revert Hs. unfold scoped_storage, hosts_of_tenant. pose proof (hosts_of_spec t ts) as Hspec.
    destruct (rp_hosts w); [done|]. destruct (hosts_of false t ts) as [hosts| |]; [|done..]. intros [= <-]. by exists hosts. }
  set (r := request_of ctx action target b). set (P := fun e : Effect => _).
  assert (forall e, noted e -> P e) as P_note by (by intros []).
  assert (forall c, P (Stored c c)) as P_same by (by left).
  assert (Forall P (wd_trace x)) as Hnil by (by rewrite Hx; constructor).
  destruct (is_remote action); [|destruct (rb_dry_run b) eqn:Eb].
  - apply (every_remote to_value d (Some ts) P P_note P_same); [done|]. intros h a x1 Hr dry actor why.
    revert Hr. set (c := Build_RemoteCall _ _ _ _ _). intros Hr.
    by apply (resolve_in_tenant to_value d (Some ts) w s c x ts t hosts h a x1).
  - by apply (every_local_dry_run to_value d P P_note P_same).
  - apply (every_local_execute to_value d P P_note); [done|]. intros c.
    destruct (dispatch_stores to_value d (rp_dispatch w) s r c) as [E|(ev & tab & Hev & Hins & Hc' & Hl)]; [by left|].
    right. exists ev. rewrite Hc'. split_and!; [by rewrite Hev| done|].
    destruct Hl as [Hl|(i & Hi & Hl)]; [by left|]. right. cbn in Hi. unfold incident_visible in Hinc. rewrite Hi in Hinc.
    apply obind_ok in Hinc as (found & Hf%omap_err_ok & Hinc). destruct found as [inc|]; [|done].
    case_bool_decide as Et; [|done]. exists i, inc. split_and!; try done. revert Hf. unfold incident_get. by destruct (rp_incident w).
Qed.

(** ** Examples *)

#[local] Instance api_serde : Serde (@CanonicalEvent tjson_lib) := exec_serde.
#[local] Instance api_list_serde : Serde (list (@CanonicalEvent tjson_lib)) := table_serde [].
#[local] Instance api_sha : Sha256 := concrete_sha256.
#[local] Instance api_case : CaseSerde := concrete_case_serde.
#[local] Instance api_sink : AuditSink (list AuditEntry) := list_sink.

Definition kill_body : ResponseRequestBody :=
  {| rb_target := Some (rr_target kill_request); rb_reason := "malware"; rb_dry_run := false; rb_since := None;
     rb_until := None; rb_incident_id := None; rb_quarantine_id := None; rb_host_id := None |}.

Definition fair_weather (reply : CommandResult + DispatchError) : ResponseWeather :=
  {| rp_hosts := false; rp_incident := false; rp_owner := false; rp_resolve := fun _ _ => false;
     rp_dispatch := {| dw_reads := no_fault; dw_insert := false; dw_link := false; dw_now := 50; dw_id := 9 |};
     rp_reply := reply; rp_error_text := fun _ => "error"; rp_debug := fun _ => "outcome" |}.

Definition killed : CommandResult :=
  Executed {| summary := "terminated"; detail_quarantine_id := None; detail_sha256 := None; signal := Some "SIGKILL" |}.

(** A user of tenant 1 ends the process on the tenant's host 7. *)
Definition kill_run : outcome Z (Z * Reply) * RWorld (list AuditEntry) :=
  response_handler store_to_value exec_db [] (Some two_tenants) (fair_weather (inl killed)) (analyst_of 1)
    "terminate_process" kill_body (Build_RWorld [] {| cs_evidence := []; cs_links := ∅ |} []).

Lemma kill_reply : kill_run.1 = Ok (200, RExecuted false "terminated (signal=SIGKILL)" None).
Proof. vm_compute. reflexivity. Qed.

(** A user of tenant 2 does not find the process. *)
Lemma kill_elsewhere :
  (response_handler store_to_value exec_db [] (Some two_tenants) (fair_weather (inl killed)) (analyst_of 2)
     "terminate_process" kill_body (Build_RWorld [] {| cs_evidence := []; cs_links := ∅ |} [])).1 = Err 404.
Proof. vm_compute. reflexivity. Qed.


Lemma responses_stay_in_tenant_witness : host_of two_tenants 1 7.
Proof.
  pose proof (responses_stay_in_tenant store_to_value exec_db [] two_tenants (fair_weather (inl killed)) (analyst_of 1)
    "terminate_process" kill_body (Build_RWorld [] {| cs_evidence := []; cs_links := ∅ |} []) 1 exec_db_reachable) as Hf.
  rewrite Forall_forall in Hf. 
  refine (Hf _ eq_refl eq_refl (Sent 7 (TerminateProcess 5 "/bin/x" 30) false ("user:" +:+ uuid_display 5) "malware") _).
  - intros h t' Hh. unfold two_tenants in Hh. cbn in Hh.
    apply lookup_insert_Some in Hh as [[<- _]|[_ Hh]]; [done|]. by apply lookup_singleton_Some in Hh as [<- _].
  - apply list_elem_of_lookup. exists 1%nat. vm_compute. reflexivity.
Defined.
