(* ===== verification/Posix.v ===== *)
(** * The file system the agent's executor works on

    Names, inodes and what of them is on disk; system calls that may fail at any moment, with
    other processes acting between them; and a crash, which keeps synced contents and some
    consistent point of the history of each device's names since its directory was last
    synced.  The calls are those of [crates/osiris-agent/src/linux_exec.rs]. *)

From S2P Require Import Prelude BTree Concrete Json Schema Policy Envelope Replay Guard.

(** ** Files and names *)

(** [st_dev] and [st_ino]. *)
Abbreviation Key := (Z * Z)%type (only parsing).

Inductive Kind := Regular | Directory | Symlink (target : option (Z * Z)) | OtherKind.

#[global] Instance kind_eq_dec : EqDecision Kind.
Proof. solve_decision. Defined.

Record Inode := {
  n_data : list byte; n_mode : Z; n_uid : Z; n_gid : Z; n_kind : Kind; n_synced : bool }.

(** Where the last component of a path is, once its parent directories are resolved. *)
Record Loc := { l_dev : Z; l_path : list Component }.

#[global] Instance component_countable : Countable Component.
Proof.
  refine (inj_countable'
    (fun c => match c with RootDir => inl 0 | CurDir => inl 1 | ParentDir => inl 2 | Normal n => inr (map Byte.to_N n) end)
    (fun s => match s with
              | inl n => if n =? 0 then RootDir else if n =? 1 then CurDir else ParentDir
              | inr n => Normal (map (fun x => default Byte.x00 (Byte.of_N x)) n)
              end) _).
  intros [| | |n]; [done..|]. f_equal. rewrite map_map. rewrite <- (map_id n) at 2. apply map_ext. intros b.
  by rewrite Byte.of_to_N.
Defined.

#[global] Instance loc_eq_dec : EqDecision Loc.
Proof. solve_decision. Defined.

#[global] Instance loc_countable : Countable Loc.
Proof.
  refine (inj_countable' (fun l => (l_dev l, l_path l)) (fun p => {| l_dev := p.1; l_path := p.2 |}) _). by intros [].
Defined.

Abbreviation Names := (gmap Loc (Z * Z)) (only parsing).

(** [fs_past d] are the names device [d] may come back with after a crash, beside the present
    ones; [fs_walk] is the kernel's resolution of the parent directories of a path. *)
Record Fs := {
  fs_names : Names; fs_inodes : gmap (Z * Z) Inode; fs_past : gmap Z (list Names); fs_walk : string -> option Loc }.

Definition past (s : Fs) (d : Z) : list Names := default [] (fs_past s !! d).

Definition with_inodes (i : gmap (Z * Z) Inode) (s : Fs) : Fs := Build_Fs (fs_names s) i (fs_past s) (fs_walk s).

(** A change of names on device [d]: the old names stay possible until the next sync. *)
Definition renamed (d : Z) (m : Names) (s : Fs) : Fs :=
  Build_Fs m (fs_inodes s) (<[d := fs_names s :: past s d]> (fs_past s)) (fs_walk s).

Definition synced_dir (d : Z) (s : Fs) : Fs := Build_Fs (fs_names s) (fs_inodes s) (delete d (fs_past s)) (fs_walk s).

(** What a crash may leave. *)
Definition crash (s s' : Fs) : Prop :=
  (forall d, exists m, m ∈ fs_names s :: past s d /\ forall l, l_dev l = d -> fs_names s' !! l = m !! l)
  /\ (forall k i, fs_inodes s !! k = Some i -> n_synced i = true ->
        exists i', fs_inodes s' !! k = Some i' /\ n_data i' = n_data i /\ n_kind i' = n_kind i).

(** ** System calls *)

Inductive Errno := ENOENT | ELOOP | EXDEV | EEXIST | ETIMEDOUT | EOther (code : Z).

Inductive Sys :=
| SOpen (p : string) | SFstat | SLstat (p : string) | SStat (p : string) | SFdPath | SCanonicalize
| SMkdir (p : string) | SCreate (p : string) | SWrite | SRead | SSync | SSyncDir (p : string)
| SRename (a b : string) | SRemove (p : string) | SChmod (p : string) | SChown (p : string) | SLink (a b : string).

Record Metadata := { md_key : Z * Z; md_kind : Kind; md_mode : Z; md_uid : Z; md_gid : Z; md_nlink : Z }.

Definition nlink (s : Fs) (k : Z * Z) : Z := Z.of_nat (size (filter (fun p => p.2 = k) (fs_names s))).

Definition meta_of (s : Fs) (k : Z * Z) : option Metadata :=
  i ← fs_inodes s !! k;
  Some {| md_key := k; md_kind := n_kind i; md_mode := n_mode i; md_uid := n_uid i; md_gid := n_gid i;
          md_nlink := nlink s k |}.

Definition entry_at (s : Fs) (p : string) : option (Z * Z) := l ← fs_walk s p; fs_names s !! l.

(** Through a symbolic link at the end of the path. *)
Definition follow (s : Fs) (p : string) : option (Z * Z) :=
  k ← entry_at s p; i ← fs_inodes s !! k;
  match n_kind i with Symlink t => t | _ => Some k end.

Definition is_link (s : Fs) (k : Z * Z) : bool :=
  match fs_inodes s !! k with Some {| n_kind := Symlink _ |} => true | _ => false end.

Definition fresh_key (d : Z) (s : Fs) : Z * Z := (d, base.fresh (set_map (D := gset Z) snd (dom (fs_inodes s)))).

Abbreviation Res A := (Errno + A)%type (only parsing).

(** A handle: the inode and where it was opened. *)
Definition do_open_nofollow (p : string) (s : Fs) : Res ((Z * Z) * Loc) * Fs :=
  (match fs_walk s p with
   | Some l => match fs_names s !! l with
               | Some k => if is_link s k then inl ELOOP else inr (k, l)
               | None => inl ENOENT
               end
   | None => inl ENOENT
   end, s).

Definition do_open (p : string) (s : Fs) : Res (Z * Z) * Fs :=
  (match follow s p with Some k => inr k | None => inl ENOENT end, s).

Definition do_fstat (k : Z * Z) (s : Fs) : Res Metadata * Fs :=
  (match meta_of s k with Some m => inr m | None => inl (EOther 9) end, s).

Definition do_lstat (p : string) (s : Fs) : Res Metadata * Fs :=
  (match k ← entry_at s p; meta_of s k with Some m => inr m | None => inl ENOENT end, s).

Definition do_stat (p : string) (s : Fs) : Res Metadata * Fs :=
  (match k ← follow s p; meta_of s k with Some m => inr m | None => inl ENOENT end, s).

Definition empty_file (kind : Kind) (mode uid gid : Z) : Inode :=
  {| n_data := []; n_mode := mode; n_uid := uid; n_gid := gid; n_kind := kind; n_synced := false |}.

(** [O_CREAT | O_EXCL], and [mkdir] with [kind := Directory]. *)
Definition do_create (kind : Kind) (mode uid gid : Z) (p : string) (s : Fs) : Res (Z * Z) * Fs :=
  match fs_walk s p with
  | Some l =>
      match fs_names s !! l with
      | Some _ => (inl EEXIST, s)
      | None =>
          let k := fresh_key (l_dev l) s in
          (inr k, renamed (l_dev l) (<[l := k]> (fs_names s))
                    (with_inodes (<[k := empty_file kind mode uid gid]> (fs_inodes s)) s))
      end
  | None => (inl ENOENT, s)
  end.

Definition append_to (b : list byte) (i : Inode) : Inode :=
  Build_Inode (n_data i ++ b) (n_mode i) (n_uid i) (n_gid i) (n_kind i) false.

Definition do_write (k : Z * Z) (b : list byte) (s : Fs) : Res unit * Fs :=
  (inr tt, with_inodes (alter (append_to b) k (fs_inodes s)) s).

(** A buffer of 64 KiB. *)
Definition CHUNK : nat := Z.to_nat 65536.
#[global] Opaque CHUNK.

Definition do_read (k : Z * Z) (off : nat) (s : Fs) : Res (list byte) * Fs :=
  (match fs_inodes s !! k with Some i => inr (take CHUNK (drop off (n_data i))) | None => inl (EOther 5) end, s).

Definition flushed (i : Inode) : Inode := Build_Inode (n_data i) (n_mode i) (n_uid i) (n_gid i) (n_kind i) true.

Definition do_sync (k : Z * Z) (s : Fs) : Res unit * Fs := (inr tt, with_inodes (alter flushed k (fs_inodes s)) s).

Definition do_sync_dir (k : Z * Z) (s : Fs) : Res unit * Fs := (inr tt, synced_dir k.1 s).

(** Renaming one of two links of a file onto the other does nothing. *)
Definition do_rename (a b : string) (s : Fs) : Res unit * Fs :=
  match fs_walk s a, fs_walk s b with
  | Some la, Some lb =>
      if negb (l_dev la =? l_dev lb) then (inl EXDEV, s)
      else
        match fs_names s !! la with
        | Some k =>
            if bool_decide (fs_names s !! lb = Some k) then (inr tt, s)
            else (inr tt, renamed (l_dev la) (<[lb := k]> (delete la (fs_names s))) s)
        | None => (inl ENOENT, s)
        end
  | _, _ => (inl ENOENT, s)
  end.

Definition do_remove (p : string) (s : Fs) : Res unit * Fs :=
  match fs_walk s p with
  | Some l => match fs_names s !! l with
              | Some _ => (inr tt, renamed (l_dev l) (delete l (fs_names s)) s)
              | None => (inl ENOENT, s)
              end
  | None => (inl ENOENT, s)
  end.

Definition with_mode (m : Z) (i : Inode) : Inode :=
  Build_Inode (n_data i) m (n_uid i) (n_gid i) (n_kind i) (n_synced i).

(** [chown] also clears the set-id bits. *)
Definition with_owner (u g : Z) (i : Inode) : Inode :=
  Build_Inode (n_data i) (Z.land (n_mode i) 0x3ff) u g (n_kind i) (n_synced i).

Definition do_attr (f : Inode -> Inode) (p : string) (s : Fs) : Res unit * Fs :=
  match follow s p with
  | Some k => (inr tt, with_inodes (alter f k (fs_inodes s)) s)
  | None => (inl ENOENT, s)
  end.

Definition do_link (a b : string) (s : Fs) : Res unit * Fs :=
  match fs_walk s a, fs_walk s b with
  | Some la, Some lb =>
      match fs_names s !! la, fs_names s !! lb with
      | Some k, None => if l_dev la =? l_dev lb then (inr tt, renamed (l_dev lb) (<[lb := k]> (fs_names s)) s) else (inl EXDEV, s)
      | Some _, Some _ => (inl EEXIST, s)
      | None, _ => (inl ENOENT, s)
      end
  | _, _ => (inl ENOENT, s)
  end.

(** ** Programs over the file system *)

(** What one command meets: calls that fail, writes that tear, the other processes, the answer
    of /proc/self/fd, and the clock. *)
Record Kernel := {
  k_io : nat -> Sys -> option Errno; k_torn : nat -> nat; k_env : nat -> Fs -> Fs;
  k_fd : Fs -> Z * Z -> Loc -> list Component; k_uid : Z; k_gid : Z; k_now_ms : Z; k_id : Uuid }.

(** [w_budget]: how often the clock is still found before the deadline; [w_seen]: the states
    there were. *)
Record World := { w_fs : Fs; w_tick : nat; w_budget : nat; w_seen : list Fs }.

Definition File (A : Type) : Type := World -> A * World.

Definition fret {A} (a : A) : File A := fun w => (a, w).
Definition fbind {A B} (m : File A) (f : A -> File B) : File B := fun w => let '(a, w) := m w in f a w.

Declare Scope file_scope.
Delimit Scope file_scope with file.
Notation "'let!' x ':=' m 'in' k" := (fbind m (fun x => k)) (at level 200, x name, right associativity) : file_scope.
Notation "'let!' ' p ':=' m 'in' k" := (fbind m (fun x => match x with p => k end))
  (at level 200, p strict pattern, right associativity) : file_scope.
Open Scope file_scope.

Section Calls.
Context (K : Kernel).

Definition fails (c : Sys) (w : World) : option Errno := k_io K (w_tick w) c.

(** The other processes act, then the call fails, without an effect, or succeeds. *)
Definition sys {A} (c : Sys) (f : Fs -> Res A * Fs) : File (Res A) := fun w =>
  let s := k_env K (w_tick w) (w_fs w) in
  let '(r, s') := match fails c w with Some e => (inl e, s) | None => f s end in
  (r, {| w_fs := s'; w_tick := S (w_tick w); w_budget := w_budget w; w_seen := w_seen w ++ [s; s'] |}).

(** A write that fails leaves a part of its bytes. *)
Definition write_all (k : Z * Z) (b : list byte) : File (Res unit) := fun w =>
  let s := k_env K (w_tick w) (w_fs w) in
  let '(r, s') := match fails SWrite w with
                  | Some e => (inl e, (do_write k (take (k_torn K (w_tick w)) b) s).2)
                  | None => do_write k b s
                  end in
  (r, {| w_fs := s'; w_tick := S (w_tick w); w_budget := w_budget w; w_seen := w_seen w ++ [s; s'] |}).

Definition open_nofollow p := sys (SOpen p) (do_open_nofollow p).
Definition open_file p := sys (SOpen p) (do_open p).
Definition fstat k := sys SFstat (do_fstat k).
Definition lstat p := sys (SLstat p) (do_lstat p).
Definition stat p := sys (SStat p) (do_stat p).
Definition create_new p mode := sys (SCreate p) (do_create Regular mode (k_uid K) (k_gid K) p).
Definition mkdir p := sys (SMkdir p) (do_create Directory 0x1c0 (k_uid K) (k_gid K) p).
Definition read_at k off := sys SRead (do_read k off).
Definition sync_all k := sys SSync (do_sync k).
Definition rename a b := sys (SRename a b) (do_rename a b).
Definition remove_file p := sys (SRemove p) (do_remove p).
Definition set_permissions p mode := sys (SChmod p) (do_attr (with_mode mode) p).
Definition chown p u g := sys (SChown p) (do_attr (with_owner u g) p).
Definition hard_link a b := sys (SLink a b) (do_link a b).
Definition fd_path k l := sys SFdPath (fun s => (inr (k_fd K s k l), s)).

(** [fsync_dir]. *)
Definition fsync_dir (dir : string) : File (Res unit) :=
  let! d := open_file dir in
  match d with
  | inr k => sys (SSyncDir dir) (do_sync_dir k)
  | inl e => fret (inl e)
  end.

(** A loop that asks the clock before each round and stops when the deadline has passed. *)
Fixpoint until_deadline {S A} (round : S -> File (S + A)) (late : A) (n : nat) (x : S) : File A := fun w =>
  match n with
  | O => (late, w)
  | Datatypes.S n =>
      let '(r, w) := round x {| w_fs := w_fs w; w_tick := w_tick w; w_budget := n; w_seen := w_seen w |} in
      match r with
      | inl x => until_deadline round late n x w
      | inr a => (a, w)
      end
  end.

Definition looping {S A} (round : S -> File (S + A)) (late : A) (x : S) : File A :=
  fun w => until_deadline round late (w_budget w) x w.

(** [copy_until]. *)
Definition copy_round (src dst : Z * Z) (total : nat) : File (nat + Res Z) :=
  let! c := read_at src total in
  match c with
  | inl e => fret (inr (inl e))
  | inr [] => fret (inr (inr (Z.of_nat total)))
  | inr c =>
      let! r := write_all dst c in
      fret (match r with inl e => inr (inl e) | inr _ => inl (total + List.length c)%nat end)
  end.

Definition copy_until (src dst : Z * Z) : File (Res Z) := looping (copy_round src dst) (inl ETIMEDOUT) 0%nat.

(** [sha256_reader_until]. *)
Definition hash_round `{HexCodec} `{Sha256} (src : Z * Z) (h : list byte) : File (list byte + Res string) :=
  let! c := read_at src (List.length h) in
  fret (match c with
        | inl e => inr (inl e)
        | inr [] => inr (inr (hex_encode (sha256 h)))
        | inr c => inl (h ++ c)
        end).

Definition sha256_reader_until `{HexCodec} `{Sha256} (src : Z * Z) : File (Res string) :=
  looping (hash_round src) (inl ETIMEDOUT) [].

End Calls.

Lemma CHUNK_pos : (0 < CHUNK)%nat.
Proof. change CHUNK with (Z.to_nat 65536). lia. Qed.

Lemma take_chunk (t : nat) (l : list byte) :
  take t l ++ take CHUNK (drop t l) = take (t + List.length (take CHUNK (drop t l))) l.
Proof.
  rewrite <- take_take_drop. f_equal. rewrite length_take.
  destruct (Nat.min_spec CHUNK (List.length (drop t l))) as [[_ E]|[Hle E]]; rewrite E; [done|].
  by rewrite !take_ge by lia.
Qed.

Lemma chunk_end (t : nat) (l : list byte) : take CHUNK (drop t l) = [] -> take t l = l.
Proof.
  intros Hc. pose proof CHUNK_pos. assert (drop t l = []) as Hd.
  { destruct (drop t l); [done|]. destruct CHUNK; [lia|done]. }
  rewrite <- (take_drop t l) at 2. by rewrite Hd, app_nil_r.
Qed.

(** ** Snapshots, and what later states keep *)

Definition snaps (s : Fs) (d : Z) : list (gmap Loc (Z * Z)) := fs_names s :: past s d.

Lemma snaps_renamed d m s d' x : x ∈ snaps (renamed d m s) d' -> x = m \/ x ∈ snaps s d'.
Proof.
  unfold snaps. intros [->|Hx]%elem_of_cons; [by left|]. right. cbn in Hx. unfold past in Hx. cbn in Hx.
  destruct (decide (d' = d)) as [->|Hd].
  - rewrite lookup_insert_eq in Hx. exact Hx.
  - rewrite lookup_insert_ne in Hx by done. by right.
Qed.

Lemma snaps_inodes i s d : snaps (with_inodes i s) d = snaps s d.
Proof. done. Qed.

Lemma snaps_synced d s d' x : x ∈ snaps (synced_dir d s) d' -> x ∈ snaps s d'.
Proof.
  unfold snaps, past. cbn. intros [->|Hx]%elem_of_cons; [by left|]. right. destruct (decide (d' = d)) as [->|Hd].
  - rewrite lookup_delete_eq in Hx. by apply elem_of_nil in Hx.
  - by rewrite lookup_delete_ne in Hx.
Qed.

Lemma snaps_synced_self d s x : x ∈ snaps (synced_dir d s) d -> x = fs_names s.
Proof.
  unfold snaps, past. cbn. rewrite lookup_delete_eq. by intros ->%list_elem_of_singleton.
Qed.

Lemma fresh_key_None d s : fs_inodes s !! fresh_key d s = None.
Proof.
  destruct (fs_inodes s !! fresh_key d s) eqn:E; [|done]. exfalso.
  apply (is_fresh (set_map (D := gset Z) snd (dom (fs_inodes s)))). apply elem_of_map.
  exists (fresh_key d s). split; [done|]. apply elem_of_dom. eauto.
Qed.

(** A synced regular file with this content. *)
Definition holds_data (s : Fs) (k : Z * Z) (b : list byte) : Prop :=
  exists i, fs_inodes s !! k = Some i /\ n_data i = b /\ n_synced i = true /\ n_kind i = Regular.

Definition is_dir (s : Fs) (k : Z * Z) : Prop := exists i, fs_inodes s !! k = Some i /\ n_kind i = Directory.

(** Later states keep what is synced. *)
Record ext (s s' : Fs) : Prop := {
  ext_walk : fs_walk s' = fs_walk s;
  ext_data k b : holds_data s k b -> holds_data s' k b;
  ext_dir k : is_dir s k -> is_dir s' k }.

Lemma ext_refl s : ext s s.
Proof. by split. Qed.

Lemma ext_names d m s : ext s (renamed d m s).
Proof. by split. Qed.

Lemma ext_synced d s : ext s (synced_dir d s).
Proof. by split. Qed.

Lemma ext_new d m s k i : fs_inodes s !! k = None -> ext s (renamed d m (with_inodes (<[k := i]> (fs_inodes s)) s)).
Proof.
  intros Hk. split; [done| |].
  - intros k' b (i' & Hi & Hr). exists i'. cbn. rewrite lookup_insert_ne by congruence. done.
  - intros k' (i' & Hi & Hr). exists i'. cbn. rewrite lookup_insert_ne by congruence. done.
Qed.

(** Changing attributes, and syncing. *)
Lemma ext_attr f k s :
  (forall i, n_data (f i) = n_data i /\ (n_synced i = true -> n_synced (f i) = true) /\ n_kind (f i) = n_kind i) ->
  ext s (with_inodes (alter f k (fs_inodes s)) s).
Proof.
  intros Hf. split; [done| |].
  - intros k' b (i & Hi & Hd & Hs & Hk). destruct (decide (k' = k)) as [->|Hne].
    + exists (f i). cbn. rewrite lookup_alter_eq, Hi. destruct (Hf i) as (E & Es & Ek). split_and!; try done; try congruence. by apply Es.
    + exists i. cbn. by rewrite lookup_alter_ne.
  - intros k' (i & Hi & Hk). destruct (decide (k' = k)) as [->|Hne].
    + exists (f i). cbn. rewrite lookup_alter_eq, Hi. destruct (Hf i) as (_ & _ & Ek). by rewrite Ek.
    + exists i. cbn. by rewrite lookup_alter_ne.
Qed.

(** Writing to a file that is not synced yet. *)
Lemma ext_write b k s : (forall d, ~ holds_data s k d) -> ~ is_dir s k -> ext s (do_write k b s).2.
Proof.
  intros Hk Hd. split; [done| |].
  - intros k' d Hh. assert (k' <> k) as Hne by (intros ->; by apply (Hk d)). destruct Hh as (i & Hi & Hr).
    exists i. cbn. by rewrite lookup_alter_ne.
  - intros k' Hh. assert (k' <> k) as Hne by (intros ->; done). destruct Hh as (i & Hi & Hr).
    exists i. cbn. by rewrite lookup_alter_ne.
Qed.

(** A file being written: its content so far. *)
Definition draft (s : Fs) (k : Z * Z) (b : list byte) : Prop :=
  exists i, fs_inodes s !! k = Some i /\ n_data i = b /\ n_synced i = false /\ n_kind i = Regular.

Lemma draft_not_held s k b d : draft s k b -> ~ holds_data s k d.
Proof. intros (i & Hi & _ & Hs & _) (i' & Hi' & _ & Hs' & _). congruence. Qed.

Lemma draft_not_dir s k b : draft s k b -> ~ is_dir s k.
Proof. intros (i & Hi & _ & _ & Hs) (i' & Hi' & Hs'). congruence. Qed.

Lemma draft_write s k b x : draft s k b -> draft (do_write k x s).2 k (b ++ x).
Proof.
  intros (i & Hi & <- & Hs & Hk). exists (append_to x i). cbn. by rewrite lookup_alter_eq, Hi.
Qed.

Lemma draft_sync s k b : draft s k b -> holds_data (do_sync k s).2 k b.
Proof. intros (i & Hi & <- & Hs & Hk). exists (flushed i). cbn. by rewrite lookup_alter_eq, Hi. Qed.

Lemma ext_sync s k : ext s (do_sync k s).2.
Proof. by apply ext_attr. Qed.

(** ** Reasoning about programs

    [triple P m Q]: from a state with [P], the other processes respecting the assertions in
    between, [m] ends in [Q], and every state on the way satisfies [I]. *)

Section Triples.
Context (K : Kernel) (I : Fs -> Prop).

Definition triple {A} (P : Fs -> Prop) (m : File A) (Q : A -> Fs -> Prop) : Prop :=
  forall w, P (w_fs w) -> Forall I (w_seen w) -> Q (m w).1 (w_fs (m w).2) /\ Forall I (w_seen (m w).2).

Definition stable (P : Fs -> Prop) : Prop := forall n s, P s -> P (k_env K n s).

Lemma ftriple_ret {A} (P : Fs -> Prop) (a : A) (Q : A -> Fs -> Prop) : (forall s, P s -> Q a s) -> triple P (fret a) Q.
Proof. intros HQ w Hw Hs. split; [by apply HQ|done]. Qed.

Lemma ftriple_bind {A B} P (m : File A) R (f : A -> File B) Q :
  triple P m R -> (forall a, triple (R a) (f a) Q) -> triple P (fbind m f) Q.
Proof.
  intros Hm Hf w Hw Hs. unfold fbind. destruct (Hm w Hw Hs) as [Hr Hs']. destruct (m w) as [a w'].
  by apply Hf.
Qed.

Lemma ftriple_weaken {A} (P P' : Fs -> Prop) (m : File A) (Q Q' : A -> Fs -> Prop) :
  triple P' m Q' -> (forall s, P s -> P' s) -> (forall a s, Q' a s -> Q a s) -> triple P m Q.
Proof. intros Hm HP HQ w Hw Hs. destruct (Hm w (HP _ Hw) Hs). split; [by apply HQ|done]. Qed.

Lemma triple_pure {A} (phi : Prop) (P : Fs -> Prop) (m : File A) Q :
  (phi -> triple P m Q) -> triple (fun s => phi /\ P s) m Q.
Proof. intros Hm w [Hphi Hw] Hs. by apply Hm. Qed.

Lemma triple_ex {A X} (P : X -> Fs -> Prop) (m : File A) Q :
  (forall x, triple (P x) m Q) -> triple (fun s => exists x, P x s) m Q.
Proof. intros Hm w [x Hw] Hs. by apply (Hm x). Qed.

Lemma triple_or {A} (P P' : Fs -> Prop) (m : File A) Q :
  triple P m Q -> triple P' m Q -> triple (fun s => P s \/ P' s) m Q.
Proof. intros Hm Hm' w [Hw|Hw] Hs; [by apply Hm|by apply Hm']. Qed.

Lemma triple_false {A} (P : Fs -> Prop) (m : File A) Q : (forall s, P s -> False) -> triple P m Q.
Proof. intros HP w Hw. by destruct (HP _ Hw). Qed.

(** A call: what a failure leaves, and what a success does. *)
Lemma triple_sys {A} c (f : Fs -> Res A * Fs) (P : Fs -> Prop) (Q : Res A -> Fs -> Prop) :
  stable P -> (forall s, P s -> I s) -> (forall r s, Q r s -> I s) ->
  (forall n s e, P s -> k_io K n c = Some e -> Q (inl e) s) ->
  (forall s, P s -> Q (f s).1 (f s).2) ->
  triple P (sys K c f) Q.
Proof.
  intros Hst HP HQ He Hf w Hw Hs. unfold sys, fails. pose proof (Hst (w_tick w) _ Hw) as Hw'.
  destruct (k_io K (w_tick w) c) as [e|] eqn:Ek.
  - cbn. split; [by eapply He|]. apply Forall_app. split; [done|]. repeat constructor; by apply HP.
  - pose proof (Hf _ Hw') as Hq. destruct (f _) as [r s'] eqn:E. cbn in *. split; [done|]. apply Forall_app.
    split; [done|]. repeat constructor; [by apply HP|by eapply HQ].
Qed.

(** A call that only looks. *)
Lemma triple_look {A} c (f : Fs -> Res A) (P : Fs -> Prop) (Q : Res A -> Fs -> Prop) :
  stable P -> (forall s, P s -> I s) ->
  (forall n s e, P s -> k_io K n c = Some e -> Q (inl e) s) -> (forall s, P s -> Q (f s) s) ->
  triple P (sys K c (fun s => (f s, s))) (fun r s => Q r s /\ P s).
Proof.
  intros Hst HP He Hf. apply triple_sys; [done|done|by intros r s [_ ?%HP]| |]; [by split; [eapply He|]|by split; [apply Hf|]].
Qed.

(** What is written when the call fails is the beginning of what was to be written. *)
Lemma triple_write k b (P : Fs -> Prop) (Q : Res unit -> Fs -> Prop) :
  stable P -> (forall s, P s -> I s) -> (forall r s, Q r s -> I s) ->
  (forall s e n, P s -> Q (inl e) (do_write k (take n b) s).2) -> (forall s, P s -> Q (inr tt) (do_write k b s).2) ->
  triple P (write_all K k b) Q.
Proof.
  intros Hst HP HQ He Hf w Hw Hs. unfold write_all. pose proof (Hst (w_tick w) _ Hw) as Hw'.
  destruct (fails K SWrite w) as [e|]; cbn.
  - split; [by eapply He|]. apply Forall_app. split; [done|]. repeat constructor; [by apply HP|by apply (HQ (inl e)), He].
  - split; [by apply Hf|]. apply Forall_app. split; [done|]. repeat constructor; [by apply HP|by apply (HQ (inr tt)), Hf].
Qed.

(** A loop with an invariant on what it carries. *)
Lemma triple_looping {S A} (round : S -> File (S + A)) (late : A) x (J : S -> Fs -> Prop) (Q : A -> Fs -> Prop) :
  (forall x s, J x s -> Q late s) ->
  (forall x, triple (J x) (round x) (fun r s => match r with inl x => J x s | inr a => Q a s end)) ->
  triple (J x) (looping round late x) Q.
Proof.
  intros Hl Hr w Hw Hs. unfold looping. generalize (w_budget w) as n. intros n. revert x w Hw Hs.
  induction n as [|n IH]; intros x w Hw Hs; cbn [until_deadline]; [by split; [eapply Hl|]|].
  set (w0 := {| w_fs := w_fs w |}). destruct (Hr x w0 Hw Hs) as [Hq Hs']. destruct (round x w0) as [[x'|a] w'].
  - by apply IH.
  - done.
Qed.

(** *** Without other processes *)

Section Alone.
Context (alone : forall n s, k_env K n s = s).

Lemma alone_stable P : stable P.
Proof. intros n s. by rewrite alone. Qed.

(** A call with effects: a failure leaves the state as it was. *)
Lemma call_alone {A} c (f : Fs -> Res A * Fs) (P : Fs -> Prop) (Q : Res A -> Fs -> Prop) :
  (forall s, P s -> I s) -> (forall r s, Q r s -> I s) ->
  (forall n s e, P s -> k_io K n c = Some e -> Q (inl e) s) ->
  (forall s, P s -> Q (f s).1 (f s).2) -> triple P (sys K c f) Q.
Proof. intros. apply triple_sys; [apply alone_stable|done..]. Qed.

(** A call that only looks. *)
Lemma look_alone {A} c (f : Fs -> Res A) (P : Fs -> Prop) (Q : Res A -> Fs -> Prop) :
  (forall s, P s -> I s) ->
  (forall n s e, P s -> k_io K n c = Some e -> Q (inl e) s) -> (forall s, P s -> Q (f s) s) ->
  triple P (sys K c (fun s => (f s, s))) (fun r s => Q r s /\ P s).
Proof. intros. apply triple_look; [apply alone_stable|done..]. Qed.

(** [phi] is what is remembered of its answer. *)
Lemma look_at_alone {A} c (f : Fs -> Res A) (P : Fs -> Prop) (phi : A -> Prop) :
  (forall s, P s -> I s) -> (forall s a, P s -> f s = inr a -> phi a) ->
  triple P (sys K c (fun s => (f s, s))) (fun r s => match r with inl _ => P s | inr a => phi a /\ P s end).
Proof.
  intros HP Hphi.
  eapply ftriple_weaken; [apply (look_alone c f P (fun r _ => match r with inl _ => True | inr a => phi a end)); [done|done|]|done|].
  - intros s Hs. destruct (f s) as [e|a] eqn:E; [done|by apply (Hphi s)].
  - intros [e|a] s [Hq Hs]; done.
Qed.

(** *** Files being written *)

Section Writing.
Context (G : Fs -> Prop) (l : Loc) (safe : forall s, G s -> I s).
Context (inodes_G : forall i s, G s -> ext s (with_inodes i s) -> G (with_inodes i s)).

Definition drafting (b : list byte) (x : Z * Z) (s : Fs) : Prop := G s /\ fs_names s !! l = Some x /\ draft s x b.

Lemma triple_create p mode :
  (forall s, G s -> fs_walk s p = Some l) ->
  (forall s mode u g, G s -> G (do_create Regular mode u g p s).2) ->
  triple G (create_new K p mode) (fun r s => match r with inl _ => G s | inr x => drafting [] x s end).
Proof.
  intros Gwalk create_G.
  apply call_alone; [apply safe|intros [e|x] s; [apply safe|intros [Hs _]; by apply safe]|done|].
  intros s Hs. pose proof (create_G s mode (k_uid K) (k_gid K) Hs) as Hg. unfold do_create in *. rewrite (Gwalk s Hs) in *.
  destruct (fs_names s !! l) eqn:E; cbn in *; [done|]. split_and!; [done|apply lookup_insert_eq|].
  eexists. split; [apply lookup_insert_eq|done].
Qed.

Lemma triple_write_draft b x d :
  triple (drafting d x) (write_all K x b)
    (fun r s => match r with inl _ => exists d', drafting d' x s | inr _ => drafting (d ++ b) x s end).
Proof.
  assert (forall s n, drafting d x s -> drafting (d ++ take n b) x (do_write x (take n b) s).2) as Hw.
  { intros s n (Hs & Hn & Hd). split_and!; [|done|by apply draft_write]. apply inodes_G; [done|].
    apply ext_write; [intros y; by eapply draft_not_held|by eapply draft_not_dir]. }
  apply triple_write; [apply alone_stable|intros s [Hs _]; by apply safe| | |].
  - intros [e|u] s; [intros (d' & Hs & _); by apply safe|intros [Hs _]; by apply safe].
  - intros s e n Hs. eexists. by apply Hw.
  - intros s Hs. pose proof (Hw s (List.length b) Hs) as H'. by rewrite firstn_all in H'.
Qed.

Lemma triple_sync_draft x d :
  triple (drafting d x) (sync_all K x)
    (fun r s => match r with inl _ => G s | inr _ => G s /\ fs_names s !! l = Some x /\ holds_data s x d end).
Proof.
  apply call_alone; [intros s [Hs _]; by apply safe|intros [e|u] s; [apply safe|intros [Hs _]; by apply safe]|by intros n s e [Hs _] _|].
  intros s (Hs & Hn & Hd). cbn. split_and!; [|done|by apply draft_sync]. apply inodes_G; [done|apply ext_sync].
Qed.

(** A copy has the whole content. *)
Lemma triple_copy src D out : (forall s, G s -> holds_data s src D) ->
  triple (drafting [] out) (copy_until K src out)
    (fun r s => match r with inl _ => exists d, drafting d out s | inr _ => drafting D out s end).
Proof.
  intros Hsrc. unfold copy_until. eapply ftriple_weaken; [apply (triple_looping (copy_round K src out) (inl ETIMEDOUT) 0%nat
    (fun total => drafting (take total D) out))|intros s Hs; exact Hs|intros r s Hs; exact Hs].
  - intros total s Hs. by exists (take total D).
  - intros total. unfold copy_round. eapply ftriple_bind.
    + apply (look_at_alone SRead (fun s => (do_read src total s).1) (drafting (take total D) out)
        (fun c => c = take CHUNK (drop total D))).
      * intros s [Hs _]. by apply safe.
      * intros s c [Hs _]. destruct (Hsrc s Hs) as (i & Hi & <- & _). unfold do_read. cbn. rewrite Hi. by intros [= <-].
    + intros [e|c]; [apply ftriple_ret; intros s Hs; by exists (take total D)|]. apply triple_pure. intros Hc.
      destruct c as [|b c].
      * apply ftriple_ret. intros s Hs. symmetry in Hc. by rewrite (chunk_end _ _ Hc) in Hs.
      * eapply ftriple_bind; [apply triple_write_draft|].
        intros [e|u]; apply ftriple_ret; intros s Hs; [done|].
        rewrite Hc in Hs |- *. by rewrite take_chunk in Hs.
Qed.
End Writing.

(** A hash is that of the whole content. *)
Lemma triple_hash `{HexCodec} `{Sha256} (P : Fs -> Prop) src D :
  (forall s, P s -> I s) -> (forall s, P s -> holds_data s src D) ->
  triple P (sha256_reader_until K src)
    (fun r s => match r with inl _ => True | inr sha => sha = hex_encode (sha256 D) end /\ P s).
Proof.
  intros HP Hsrc. unfold sha256_reader_until.
  eapply ftriple_weaken; [apply (triple_looping (hash_round K src) (inl ETIMEDOUT) []
    (fun h s => h = take (List.length h) D /\ P s))| |intros r s Hs; exact Hs].
  - intros h s [_ Hs]. by split.
  - intros h. apply triple_pure. intros Hh. unfold hash_round. eapply ftriple_bind.
    + apply (look_at_alone SRead (fun s => (do_read src (List.length h) s).1) P (fun c => c = take CHUNK (drop (List.length h) D))); [done|].
      intros s c Hs. destruct (Hsrc s Hs) as (i & Hi & <- & _). unfold do_read. cbn. rewrite Hi. by intros [= <-].
    + intros [e|c]; [by apply ftriple_ret|]. apply triple_pure. intros Hc.
      destruct c as [|b c]; apply ftriple_ret; intros s Hs; cbn.
      * split; [|done]. symmetry in Hc. pose proof (chunk_end _ _ Hc) as E. by rewrite Hh, E.
      * split; [|done]. rewrite Hh at 1. rewrite Hc, take_chunk. f_equal. rewrite length_app. by rewrite <- Hc.
  - intros s Hs. by split.
Qed.
End Alone.
End Triples.
