(* ===== verification/VaultCrash.v ===== *)
(** * A quarantine loses nothing: crash safety of [Vault.quarantine_file]

    Whatever calls fail and wherever the machine stops, the content of the file is at its path
    or in the vault; and, unless putting it back fails, what is in the vault has a record. *)

From S2P Require Import Prelude BTree Concrete Json Schema Policy Envelope Replay Guard FileUtil StoreConcrete Posix Vault.

Open Scope file_scope.

Lemma five_distinct {A} (a b c d e : A) : NoDup [a; b; c; d; e] ->
  a <> b /\ a <> c /\ a <> d /\ a <> e /\ b <> c /\ b <> d /\ b <> e /\ c <> d /\ c <> e /\ d <> e.
Proof. rewrite !NoDup_cons. set_unfold. intros (N1 & N2 & N3 & N4 & _). split_and!; intros E; naive_solver. Qed.

(** ** The phases of a quarantine *)

Section Crash.
Context `{UuidText} `{HexCodec} `{Sha256} `{!Serde Sidecar}.
Context (K : Kernel) (canonicalize : list byte -> option (list byte)) (errno_text : Errno -> string) (vault path : string).
Context (W : string -> option Loc) (pl vl sl tl dl : Loc) (k kd : Z * Z) (D : list byte) (M U Gd : Z) (strict : bool).

Definition vaulted_path : string := (vault_paths vault (k_id K)).1.
Definition sidecar_path : string := (vault_paths vault (k_id K)).2.

(** Where the paths lead, what the file is, and no other process at work. *)
Record layout : Prop := {
  lay_path : W path = Some pl; lay_vaulted : W vaulted_path = Some vl; lay_sidecar : W sidecar_path = Some sl;
  lay_tmp : W (sidecar_tmp_path sidecar_path) = Some tl; lay_vault : W vault = Some dl;
  lay_distinct : NoDup [pl; vl; sl; tl; dl];
  lay_vd : l_dev vl = kd.1; lay_sd : l_dev sl = kd.1; lay_td : l_dev tl = kd.1;
  lay_alone n s : k_env K n s = s;
  lay_strict n e : strict = true -> k_io K n (SRename vaulted_path path) = Some e -> False;
  lay_stat n e : strict = true -> k_io K n (SLstat vaulted_path) = Some e -> False }.

(** A record of the file: its path, mode and owner, and its hash once there is one. *)
Definition describes (car : Sidecar) : Prop :=
  car_path car = path /\ car_mode car = M /\ car_uid car = U /\ car_gid car = Gd
  /\ (car_pending car = true \/ car_sha256 car = hex_encode (sha256 D)).

Definition record (s : Fs) (j : Z * Z) : Prop :=
  exists b car, holds_data s j b /\ from_slice b = Some car /\ describes car.

Definition home (m : gmap Loc (Z * Z)) : Prop := m !! pl = Some k.

Definition recoverable (s : Fs) (m : gmap Loc (Z * Z)) : Prop :=
  (exists kv, m !! vl = Some kv /\ holds_data s kv D)
  /\ (strict = true -> exists j, m !! sl = Some j /\ record s j).

Record base (s : Fs) : Prop := {
  b_walk : fs_walk s = W; b_dir : fs_names s !! dl = Some kd; b_isdir : is_dir s kd; b_data : holds_data s k D }.

Definition at_home (s : Fs) : Prop := base s /\ forall m, m ∈ snaps s (l_dev pl) -> home m.
Definition moving (s : Fs) : Prop :=
  base s /\ l_dev pl = kd.1 /\ forall m, m ∈ snaps s kd.1 -> home m \/ recoverable s m.
Definition moved (s : Fs) : Prop := base s /\ forall m, m ∈ snaps s kd.1 -> recoverable s m.

Definition kept (s : Fs) : Prop :=
  (exists kx i, fs_names s !! pl = Some kx /\ fs_inodes s !! kx = Some i /\ n_data i = D)
  \/ (exists kv i, fs_names s !! vl = Some kv /\ fs_inodes s !! kv = Some i /\ n_data i = D)
     /\ (strict = true -> exists j i car, fs_names s !! sl = Some j /\ fs_inodes s !! j = Some i
           /\ from_slice (n_data i) = Some car /\ describes car).

Definition crash_safe (s : Fs) : Prop := forall s', crash s s' -> kept s'.

Context (lay : layout).

Lemma crash_data s s' x b : crash s s' -> holds_data s x b -> exists i, fs_inodes s' !! x = Some i /\ n_data i = b.
Proof. intros [_ Hc] (i & Hi & <- & Hs & _). destruct (Hc x i Hi Hs) as (i' & ? & ? & _). by exists i'. Qed.

Lemma recoverable_crash s s' m : crash s s' -> recoverable s m -> (forall l, l_dev l = kd.1 -> fs_names s' !! l = m !! l) -> kept s'.
Proof.
  intros Hc [(kv & Hv & Hd) Hr] Hm. right. split.
  - destruct (crash_data _ _ _ _ Hc Hd) as (i & Hi & Hdata). exists kv, i. split_and!; try done. rewrite Hm; [done|apply lay].
  - intros Hs. destruct (Hr Hs) as (j & Hj & b & car & Hb & Hcar & Hh).
    destruct (crash_data _ _ _ _ Hc Hb) as (i & Hi & Hdata). exists j, i, car. rewrite Hdata.
    split_and!; try done. rewrite Hm; [done|apply lay].
Qed.

Lemma home_crash s s' m : crash s s' -> holds_data s k D -> home m -> (forall l, l_dev l = l_dev pl -> fs_names s' !! l = m !! l) -> kept s'.
Proof.
  intros Hc Hd Hh Hm. left. destruct (crash_data _ _ _ _ Hc Hd) as (i & Hi & Hdata). exists k, i.
  split_and!; try done. rewrite Hm; done.
Qed.

Lemma at_home_safe s : at_home s -> crash_safe s.
Proof.
  intros [Hb Hm] s' Hc. pose proof Hc as [Hn _]. destruct (Hn (l_dev pl)) as (m & Hin & Heq).
  by apply (home_crash s s' m); [done|apply Hb|apply Hm|].
Qed.

Lemma moving_safe s : moving s -> crash_safe s.
Proof.
  intros (Hb & Hd & Hm) s' Hc. pose proof Hc as [Hn _]. destruct (Hn kd.1) as (m & Hin & Heq).
  destruct (Hm m Hin) as [Hh|Hr].
  - apply (home_crash s s' m); [done|apply Hb|done|by rewrite Hd].
  - by apply (recoverable_crash s s' m).
Qed.

Lemma moved_safe s : moved s -> crash_safe s.
Proof.
  intros (Hb & Hm) s' Hc. pose proof Hc as [Hn _]. destruct (Hn kd.1) as (m & Hin & Heq).
  by apply (recoverable_crash s s' m); [done|apply Hm|].
Qed.

(** *** How the phases survive a step *)

Lemma base_step s s' : base s -> ext s s' -> fs_names s' !! dl = Some kd -> base s'.
Proof. intros [Hw _ Hd Hk] [Ew Ed Edir] Hn. split; [congruence|done|by apply Edir|by apply Ed]. Qed.

Lemma record_ext s s' j : ext s s' -> record s j -> record s' j.
Proof. intros He (b & car & Hb & Hr). exists b, car. split; [by apply He|done]. Qed.

Lemma recoverable_ext s s' m : ext s s' -> recoverable s m -> recoverable s' m.
Proof.
  intros He [(kv & Hv & Hd) Hr]. split; [exists kv; split; [done|by apply He]|].
  intros Hs. destruct (Hr Hs) as (j & Hj & Hrec). exists j. split; [done|by apply (record_ext s)].
Qed.

(** The names after the step are the only new ones. *)
Definition grows (s s' : Fs) : Prop :=
  ext s s' /\ fs_names s' !! dl = Some kd /\ forall d m, m ∈ snaps s' d -> m = fs_names s' \/ m ∈ snaps s d.

Lemma at_home_step s s' : at_home s -> grows s s' -> home (fs_names s') -> at_home s'.
Proof.
  intros [Hb Hm] (He & Hd & Hs) Hh. split; [by apply (base_step s)|]. intros m [->|Hin]%Hs; [done|by apply Hm].
Qed.

Lemma moving_step s s' : moving s -> grows s s' -> home (fs_names s') \/ recoverable s' (fs_names s') -> moving s'.
Proof.
  intros (Hb & Hd & Hm) (He & Hdl & Hs) Hh. split_and!; [by apply (base_step s)|done|]. intros m [->|Hin]%Hs; [done|].
  destruct (Hm m Hin); [by left|right; by apply (recoverable_ext s)].
Qed.

Lemma moved_step s s' : moved s -> grows s s' -> recoverable s' (fs_names s') -> moved s'.
Proof.
  intros [Hb Hm] (He & Hdl & Hs) Hh. split; [by apply (base_step s)|]. intros m [->|Hin]%Hs; [done|].
  by apply (recoverable_ext s), Hm.
Qed.

Lemma home_moving s : at_home s -> l_dev pl = kd.1 -> moving s.
Proof. intros [Hb Hm] Hd. split_and!; [done..|]. intros m Hin. left. apply Hm. by rewrite Hd. Qed.

Lemma grows_renamed s d m : fs_names s !! dl = Some kd -> m !! dl = fs_names s !! dl -> grows s (renamed d m s).
Proof.
  intros Hd Hm. split_and!; [apply ext_names|cbn; congruence|]. intros d' x Hx. by apply snaps_renamed in Hx.
Qed.

Lemma grows_inodes s i : fs_names s !! dl = Some kd -> ext s (with_inodes i s) -> grows s (with_inodes i s).
Proof. intros Hd He. split_and!; [done..|]. intros d x Hx. by right. Qed.

Lemma grows_synced s d : fs_names s !! dl = Some kd -> grows s (synced_dir d s).
Proof. intros Hd. split_and!; [apply ext_synced|done|]. intros d' x Hx. right. by apply snaps_synced in Hx. Qed.

Lemma grows_create s kind mode u g p l :
  fs_walk s = W -> W p = Some l -> l <> dl -> fs_names s !! dl = Some kd -> grows s (do_create kind mode u g p s).2.
Proof.
  intros Hw Hp Hl Hd. unfold do_create. rewrite Hw, Hp. destruct (fs_names s !! l).
  - split_and!; [apply ext_refl|done|]. intros d m Hm. by right.
  - cbn. split_and!.
    + apply ext_new, fresh_key_None.
    + cbn. by rewrite lookup_insert_ne.
    + intros d x Hx. apply snaps_renamed in Hx as [->|Hx]; [by left|by right].
Qed.

Lemma grows_remove s p l :
  fs_walk s = W -> W p = Some l -> l <> dl -> fs_names s !! dl = Some kd -> grows s (do_remove p s).2.
Proof.
  intros Hw Hp Hl Hd. unfold do_remove. rewrite Hw, Hp. destruct (fs_names s !! l); cbn.
  - apply grows_renamed; [done|]. by rewrite lookup_delete_ne.
  - split_and!; [apply ext_refl|done|]. intros d m Hm. by right.
Qed.

(** The five places are different. *)
Lemma places : pl <> vl /\ pl <> sl /\ pl <> tl /\ pl <> dl /\ vl <> sl /\ vl <> tl /\ vl <> dl /\ sl <> tl /\ sl <> dl /\ tl <> dl.
Proof. exact (five_distinct _ _ _ _ _ (lay_distinct lay)). Qed.

Local Abbreviation T := (triple crash_safe).

Local Abbreviation look := (look_alone K crash_safe (lay_alone lay)).
Local Abbreviation call := (call_alone K crash_safe (lay_alone lay)).
Local Abbreviation look_at := (look_at_alone K crash_safe (lay_alone lay)).
Local Abbreviation T_map_err := (triple_map_err crash_safe).
Local Abbreviation T_create := (triple_create K crash_safe (lay_alone lay)).
Local Abbreviation T_write := (triple_write_draft K crash_safe (lay_alone lay)).
Local Abbreviation T_syncing := (triple_sync_draft K crash_safe (lay_alone lay)).
Local Abbreviation T_try := (ftriple_try crash_safe).

(** *** Operations in the vault while the file is at home *)

Definition in_vault (l : Loc) : Prop := l = vl \/ l = sl \/ l = tl.

Lemma in_vault_places l : in_vault l -> pl <> l /\ l <> dl /\ l_dev l = kd.1.
Proof. clear canonicalize errno_text D M U Gd. pose proof places. pose proof (lay_vd lay). pose proof (lay_sd lay). pose proof (lay_td lay). unfold in_vault. naive_solver. Qed.

Lemma at_home_remove p l s : at_home s -> W p = Some l -> in_vault l -> at_home (do_remove p s).2.
Proof.
  intros Hs Hp (Hpl & Hdl & _)%in_vault_places. pose proof Hs as [[Hw Hd _ _] Hm].
  eapply at_home_step; [done|by eapply grows_remove|]. unfold do_remove. rewrite Hw, Hp.
  assert (home (fs_names s)) as Hh by (apply Hm; by left).
  destruct (fs_names s !! l); cbn; [|done]. unfold home. by rewrite lookup_delete_ne.
Qed.

Lemma at_home_create p l kind mode u g s : at_home s -> W p = Some l -> in_vault l -> at_home (do_create kind mode u g p s).2.
Proof.
  intros Hs Hp (Hpl & Hdl & _)%in_vault_places. pose proof Hs as [[Hw Hd _ _] Hm].
  eapply at_home_step; [done|by eapply grows_create|]. unfold do_create. rewrite Hw, Hp.
  assert (home (fs_names s)) as Hh by (apply Hm; by left).
  destruct (fs_names s !! l); cbn; [done|]. unfold home. by rewrite lookup_insert_ne.
Qed.

Lemma at_home_inodes i s : at_home s -> ext s (with_inodes i s) -> at_home (with_inodes i s).
Proof.
  intros Hs He. pose proof Hs as [[Hw Hd _ _] Hm]. eapply at_home_step; [done|by apply grows_inodes|].
  apply Hm. by left.
Qed.

Lemma at_home_synced d s : at_home s -> at_home (synced_dir d s).
Proof.
  intros Hs. pose proof Hs as [[Hw Hd _ _] Hm]. eapply at_home_step; [done|by apply grows_synced|]. apply Hm. by left.
Qed.

Lemma at_home_name s : at_home s -> fs_names s !! pl = Some k.
Proof. intros [_ Hm]. apply Hm. by left. Qed.

Lemma at_home_rename p q l l' s : at_home s -> W p = Some l -> W q = Some l' -> in_vault l -> in_vault l' ->
  at_home (do_rename p q s).2.
Proof.
  intros Hs Hp Hq Hl%in_vault_places Hl'%in_vault_places. pose proof Hs as [[Hw Hd _ _] Hm].
  pose proof (at_home_name s Hs) as Hh. unfold do_rename. rewrite Hw, Hp, Hq. destruct Hl as (? & ? & E), Hl' as (? & ? & E').
  destruct (_ =? _); cbn [negb]; [|done]. destruct (fs_names s !! l); [|done]. case_bool_decide; [done|]. cbn.
  eapply at_home_step; [done|apply grows_renamed; [done|]|].
  - by rewrite lookup_insert_ne, lookup_delete_ne.
  - cbn. unfold home. by rewrite lookup_insert_ne, lookup_delete_ne.
Qed.

(** *** The checks *)

Lemma T_check_vault_dir P (Q : Errno + unit -> Fs -> Prop) m : (forall r s, P s -> Q r s) -> T P (fret (check_vault_dir K m)) Q.
Proof. intros HQ. apply ftriple_ret. intros s. apply HQ. Qed.

(** The vault is there, so nothing is created. *)
Lemma T_ensure_vault : T at_home (ensure_vault K vault) (fun _ => at_home).
Proof.
  unfold ensure_vault. eapply ftriple_bind; [apply (look_at _ _ at_home (fun _ => True)); [apply at_home_safe|done]|].
  intros [e|m]; [|apply ftriple_ret; by intros s [_ Hs]]. destruct e; try by apply ftriple_ret.
  eapply ftriple_bind with (R := fun _ => at_home).
  - apply call; [apply at_home_safe|intros _; apply at_home_safe|done|]. intros s Hs.
    pose proof Hs as [[Hw Hd _ _] _]. unfold do_create. by rewrite Hw, (lay_vault lay), Hd.
  - intros [e|x]; [by apply ftriple_ret|].
    eapply ftriple_bind; [apply (look_at _ _ at_home (fun _ => True)); [apply at_home_safe|done]|].
    intros [e|m]; apply ftriple_ret; [done|by intros s [_ Hs]].
Qed.

Lemma T_look_home {A} c (f : Fs -> Res A) g :
  T at_home (map_err g (sys K c (fun s => (f s, s)))) (fun _ => at_home).
Proof.
  apply T_map_err. eapply ftriple_weaken; [apply (look_at c f at_home (fun _ => True)); [apply at_home_safe|done]|done|].
  intros [e|a] s; [done|by intros [_ Hs]].
Qed.

(** The attributes the file has. *)
Definition attrs (s : Fs) : Prop :=
  exists i, fs_inodes s !! k = Some i /\ Z.land (n_mode i) 0xfff = M /\ n_uid i = U /\ n_gid i = Gd.

Definition meta_right (m : Metadata) : Prop :=
  md_key m = k /\ Z.land (md_mode m) 0xfff = M /\ md_uid m = U /\ md_gid m = Gd.

Lemma T_checked_file inode device :
  T (fun s => at_home s /\ attrs s) (checked_file K canonicalize errno_text vault path inode device)
    (fun r s => at_home s /\ match r with
       | inl _ => True
       | inr (k', m) => k' = k /\ meta_right m /\ k.2 = inode /\ encode_st_dev k.1 = device
       end).
Proof.
  unfold checked_file. set (P := fun s => _). eapply T_try with (R := fun a s => a.1 = k /\ P s).
  - apply T_map_err. eapply ftriple_weaken; [apply (look_at (SOpen path) (fun s => (do_open_nofollow path s).1) P (fun a => a.1 = k))|done|].
    + intros s [Hs _]. by apply at_home_safe.
    + intros s [k' l] [Hs _]. pose proof Hs as [[Hw _ _ _] _]. unfold do_open_nofollow. cbn.
      rewrite Hw, (lay_path lay), (at_home_name s Hs). destruct (is_link s k); [done|]. by intros [= <- _].
    + intros [e|a] s; [by intros [Hs _]|]. intros [<- Hs]. by split.
  - intros [k' l]. cbn [fst]. apply triple_pure. intros ->.
    eapply T_try with (R := fun m s => meta_right m /\ at_home s).
    + apply T_map_err. eapply ftriple_weaken; [apply (look_at SFstat (fun s => (do_fstat k s).1) P meta_right)|done|].
      * intros s [Hs _]. by apply at_home_safe.
      * intros s m [_ (i & Hi & Ha)]. unfold do_fstat, meta_of. cbn. rewrite Hi. cbn. by intros [= <-].
      * intros [e|a] s; [by intros [Hs _]|]. intros [Hm [Hs _]]. by split.
    + intros m. apply triple_pure. intros Hm. destruct (negb _); [by apply ftriple_ret|].
      destruct (negb ((md_key m).2 =? inode) || _) eqn:Echk; [by apply ftriple_ret|].
      assert (k.2 = inode /\ encode_st_dev k.1 = device) as Hreq.
      { destruct Hm as [<- _]. apply orb_false_iff in Echk as [E1 E2]. apply negb_false_iff, Z.eqb_eq in E1, E2. done. }
      eapply T_try with (R := fun _ => at_home).
      { apply T_map_err. eapply ftriple_weaken; [apply T_ensure_vault|done|]. by intros [e|a] s Hs. }
      intros _. eapply T_try with (R := fun _ => at_home).
      { eapply ftriple_weaken; [apply (T_look_home _ (fun s => (do_stat vault s).1))|done|]. by intros [e|a] s Hs. }
      intros vm. destruct (same_file vm m); [by apply ftriple_ret|]. eapply T_try with (R := fun _ => at_home).
      { eapply ftriple_weaken; [apply T_look_home|done|]. by intros [e|a] s Hs. }
      intros real. eapply T_try with (R := fun _ => at_home).
      { eapply ftriple_weaken; [apply T_look_home|done|]. by intros [e|a] s Hs. }
      intros vr. destruct (starts_with real vr); [by apply ftriple_ret|]. by apply ftriple_ret.
Qed.

(** *** Writing the record *)

Definition recorded_at (s : Fs) : Prop := exists j, fs_names s !! sl = Some j /\ record s j.

Lemma T_at_home_call {A} c (f : Fs -> Res A * Fs) : (forall s, at_home s -> at_home (f s).2) -> T at_home (sys K c f) (fun _ => at_home).
Proof. intros Hf. apply call; [apply at_home_safe|intros _; apply at_home_safe|done|done]. Qed.

Lemma T_remove_home p l : W p = Some l -> in_vault l -> T at_home (remove_file K p) (fun _ => at_home).
Proof. intros Hp Hl. apply T_at_home_call. intros s Hs. by eapply at_home_remove. Qed.

Lemma at_home_draft_create p l : W p = Some l -> in_vault l ->
  forall s mode u g, at_home s -> at_home (do_create Regular mode u g p s).2.
Proof. intros. by eapply at_home_create. Qed.

Lemma at_home_walk s : at_home s -> fs_walk s = W.
Proof. by intros [[Hw _ _ _] _]. Qed.

Lemma T_write_record car :
  describes car ->
  T at_home (write_sidecar K errno_text vault sidecar_path car true)
    (fun r s => at_home s /\ match r with inl _ => True | inr _ => recorded_at s end).
Proof.
  intros Hdesc. unfold write_sidecar. destruct (to_vec car) as [json|] eqn:Ej; [|by apply ftriple_ret].
  apply serde_roundtrip in Ej. pose proof (lay_sidecar lay) as Wsl. assert (in_vault sl) as Hsl by (right; by left).
  pose proof (at_home_draft_create _ _ Wsl Hsl) as Hcreate.
  eapply T_try with (R := fun x => drafting at_home sl [] x).
  - apply T_map_err. eapply ftriple_weaken; [apply (T_create at_home sl at_home_safe sidecar_path 0x180)|done|].
    { intros s Hs. by rewrite at_home_walk. }
    { done. }
    intros [e|x] s Hs; done.
  - intros x. eapply T_try with (R := fun _ => drafting at_home sl json x).
    + apply T_map_err. eapply ftriple_weaken; [apply (T_write at_home sl at_home_safe at_home_inodes json x [])|done|].
      intros [e|u] s; [by intros (d & Hs & _)|done].
    + intros _. apply T_map_err. eapply ftriple_weaken; [apply (T_syncing at_home sl at_home_safe at_home_inodes)|done|].
      intros [e|u] s; [done|]. intros (Hs & Hn & Hd). split; [done|]. exists x. split; [done|]. by exists json, car.
Qed.

Lemma follow_vault s : base s -> follow s vault = Some kd.
Proof.
  intros [Hw Hd (i & Hi & Hk) _]. unfold follow, entry_at. rewrite Hw, (lay_vault lay). cbn. rewrite Hd. cbn. rewrite Hi. cbn.
  by rewrite Hk.
Qed.

(** [fsync_dir] in a state of [G], for the vault's directory. *)
Lemma T_fsync_vault (G : Fs -> Prop) :
  (forall s, G s -> crash_safe s /\ base s) -> (forall s, G s -> G (synced_dir kd.1 s)) ->
  T G (fsync_dir K vault) (fun r s => G s /\ match r with inl _ => True | inr _ => past s kd.1 = [] end).
Proof.
  intros Hs Hg. unfold fsync_dir. eapply ftriple_bind.
  - apply (look_at _ (fun s => (do_open vault s).1) G (fun d => d = kd)); [apply Hs|].
    intros s a Ha. unfold do_open. cbn. rewrite follow_vault by by apply Hs. by intros [= ->].
  - intros [e|d]; [by apply ftriple_ret|]. apply triple_pure. intros ->.
    apply call; [apply Hs|intros r s [Hr _]; by apply Hs|done|].
    intros s Hr. cbn. split; [by apply Hg|]. unfold past. cbn. by rewrite lookup_delete_eq.
Qed.

(** The file is at home and its record written. *)
Definition ready (s : Fs) : Prop := at_home s /\ recorded_at s.

Lemma ready_safe s : ready s -> crash_safe s.
Proof. intros [Hs _]. by apply at_home_safe. Qed.

Lemma T_fsync_record : T ready (fsync_dir K vault) (fun _ => ready).
Proof.
  eapply ftriple_weaken; [apply (T_fsync_vault ready)|done|by intros r s [Hs _]].
  - intros s Hs. split; [by apply ready_safe|apply Hs].
  - intros s [Hs (j & Hj & Hr)]. split; [by apply at_home_synced|]. exists j. split; [done|].
    by apply (record_ext s); [apply ext_synced|].
Qed.

Lemma ready_walk s : ready s -> fs_walk s = W.
Proof. intros [Hs _]. by apply at_home_walk. Qed.

(** *** Moving in *)

(** [kv] is in the vault, with record [j]; the original is at home ([copied]), or the names are
    on their way. *)
Record loaded (copied : bool) (kv j : Z * Z) (s : Fs) : Prop := {
  ld_phase : if copied then at_home s else moving s /\ kv = k;
  ld_name : fs_names s !! vl = Some kv; ld_data : holds_data s kv D;
  ld_record : fs_names s !! sl = Some j; ld_ok : record s j }.

Lemma loaded_recoverable copied kv j s : loaded copied kv j s -> recoverable s (fs_names s).
Proof. intros [_ Hn Hd Hr Ho]. split; [by exists kv|]. intros _. by exists j. Qed.

Lemma loaded_base copied kv j s : loaded copied kv j s -> base s.
Proof. intros [Hp _ _ _ _]. destruct copied; [apply Hp|]. by destruct Hp as [[Hb _] _]. Qed.

Lemma loaded_safe copied kv j s : loaded copied kv j s -> crash_safe s.
Proof. intros [Hp _ _ _ _]. destruct copied; [by apply at_home_safe|]. destruct Hp as [Hm _]. by apply moving_safe. Qed.

Lemma loaded_step copied kv j j' s s' : loaded copied kv j s -> grows s s' -> fs_names s' !! pl = fs_names s !! pl ->
  fs_names s' !! vl = fs_names s !! vl -> fs_names s' !! sl = Some j' -> record s' j' -> loaded copied kv j' s'.
Proof.
  intros [Hp Hn Hd Hr Ho] Hg Hpl Hvl Hsl Hrec. assert (holds_data s' kv D) as Hd' by (by apply Hg).
  assert (recoverable s' (fs_names s')) as Hrc.
  { split; [exists kv; split; [congruence|done]|]. intros _. by exists j'. }
  split; try done; [|congruence]. destruct copied.
  - apply (at_home_step s); [done..|]. unfold home. rewrite Hpl. by apply at_home_name.
  - destruct Hp as [Hm ->]. split; [|done]. apply (moving_step s); [done..|by right].
Qed.

Lemma loaded_inodes copied kv j s i : loaded copied kv j s -> ext s (with_inodes i s) -> loaded copied kv j (with_inodes i s).
Proof.
  intros Hl He. pose proof (loaded_base _ _ _ _ Hl) as [_ Hd _ _]. eapply loaded_step; [exact Hl|by apply grows_inodes|done|done|apply Hl|].
  by apply (record_ext s); [|apply Hl].
Qed.

Lemma loaded_synced copied kv j d s : loaded copied kv j s -> loaded copied kv j (synced_dir d s).
Proof.
  intros Hl. pose proof (loaded_base _ _ _ _ Hl) as [_ Hd _ _]. eapply loaded_step; [exact Hl|by apply grows_synced|done|done|apply Hl|].
  by apply (record_ext s); [apply ext_synced|apply Hl].
Qed.

Lemma rename_in s : ready s ->
  match (do_rename path vaulted_path s).1 with
  | inl _ => ready (do_rename path vaulted_path s).2
  | inr _ => exists j, loaded false k j (do_rename path vaulted_path s).2
  end.
Proof.
  intros [Hs (j & Hj & Hr)]. pose proof Hs as [[Hw Hd Hdir Hdata] Hm]. pose proof (at_home_name s Hs) as Hh.
  pose proof places as Pl. unfold do_rename. rewrite Hw, (lay_path lay), (lay_vaulted lay).
  destruct (Z.eqb_spec (l_dev pl) (l_dev vl)) as [Ed|]; cbn [negb]; [|split; [done|by exists j]].
  rewrite Hh. rewrite (lay_vd lay) in Ed. case_bool_decide as Ev; cbn [fst snd].
  - exists j. split; [|done..]. split; [by apply home_moving|done].
  - exists j. assert (forall m, m !! sl = Some j -> m !! vl = Some k -> recoverable (renamed (l_dev pl) m s) m) as Hrc.
    { intros m H1' H2'. split; [by exists k|]. intros _. exists j. split; [done|]. by apply (record_ext s); [apply ext_names|]. }
    set (m := <[vl := k]> (delete pl (fs_names s))).
    assert (m !! sl = Some j /\ m !! vl = Some k) as [Hms Hmv].
    { unfold m. split; [|apply lookup_insert_eq]. by rewrite lookup_insert_ne, lookup_delete_ne by naive_solver. }
    split; [split; [|done]|done|done|done|].
    + apply (moving_step s); [by apply home_moving| |right; by apply Hrc].
      apply grows_renamed; [done|]. unfold m. by rewrite lookup_insert_ne, lookup_delete_ne by naive_solver.
    + by apply (record_ext s); [apply ext_names|].
Qed.

(** Copying the file, when the vault is on another device. *)
Lemma vaulted_in : in_vault vl.
Proof. by left. Qed.

Lemma ready_create p l : W p = Some l -> in_vault l -> l <> sl ->
  forall s mode u g, ready s -> ready (do_create Regular mode u g p s).2.
Proof.
  intros Hp Hl Hne s mode u g [Hs (j & Hj & Hr)]. split; [by eapply at_home_create|]. exists j.
  pose proof Hl as (_ & Hdl & _)%in_vault_places. pose proof Hs as [[Hw Hd _ _] _].
  split; [|by apply (record_ext s); [eapply grows_create|]].
  unfold do_create. rewrite Hw, Hp. destruct (fs_names s !! l); cbn; [done|]. by rewrite lookup_insert_ne.
Qed.

Lemma ready_inodes i s : ready s -> ext s (with_inodes i s) -> ready (with_inodes i s).
Proof. intros [Hs (j & Hj & Hr)] He. split; [by apply at_home_inodes|]. exists j. split; [done|by apply (record_ext s)]. Qed.

Lemma T_copy_into_vault :
  T ready (copy_into_vault K errno_text k vaulted_path)
    (fun r s => match r with inl _ => ready s | inr _ => exists kv j, loaded true kv j s end).
Proof.
  unfold copy_into_vault. pose proof places as Pl.
  eapply T_try with (R := fun out => drafting ready vl [] out).
  - apply T_map_err. eapply ftriple_weaken; [apply (T_create ready vl ready_safe vaulted_path)|done|].
    + intros s Hs. rewrite (ready_walk s Hs). apply lay.
    + apply (ready_create vaulted_path vl); [apply lay|apply vaulted_in|naive_solver].
    + intros [e|x] s Hs; done.
  - intros out. eapply ftriple_bind with (R := fun r s => match r with
      | inl _ => ready s
      | inr _ => ready s /\ fs_names s !! vl = Some out /\ holds_data s out D
      end).
    + eapply ftriple_bind; [apply (triple_copy K crash_safe (lay_alone lay) ready vl ready_safe ready_inodes k D); by intros s [[[_ _ _ Hd] _] _]|]. intros [e|n]; [apply ftriple_ret; by intros s (d & Hs & _)|].
      apply (T_syncing ready vl ready_safe ready_inodes).
    + intros [e|u].
      * eapply ftriple_bind with (R := fun _ => ready).
        -- apply call; [apply ready_safe|intros _; apply ready_safe|done|]. intros s [Hs (j & Hj & Hr)].
           split; [eapply at_home_remove; [done|apply lay|apply vaulted_in]|]. exists j.
           pose proof Hs as [[Hw Hd _ _] _]. split; [|apply (record_ext s); [|done]; eapply grows_remove; [done|apply lay|naive_solver|done]].
           unfold do_remove. rewrite Hw, (lay_vaulted lay). destruct (fs_names s !! vl); cbn; [|done].
           by rewrite lookup_delete_ne by naive_solver.
        -- intros r. by apply ftriple_ret.
      * apply ftriple_ret. intros s ([Hs (j & Hj & Hr)] & Hn & Hd). by exists out, j.
Qed.

(** After the move: whatever happened, the file is at home or under way. *)
Definition safe_place (s : Fs) : Prop := at_home s \/ moving s.

Lemma safe_place_safe s : safe_place s -> crash_safe s.
Proof. intros [Hs|Hs]; [by apply at_home_safe|by apply moving_safe]. Qed.

(** Removing the record of what is not in the vault, or need not have one. *)
Definition unneeded (s : Fs) : Prop :=
  moving s /\ (home (fs_names s) \/ strict = false /\ exists kv, fs_names s !! vl = Some kv /\ holds_data s kv D).

Lemma T_remove_unneeded : T unneeded (remove_file K sidecar_path) (fun _ => moving).
Proof.
  apply call; [intros s [Hs _]; by apply moving_safe|intros _; apply moving_safe|by intros n s e [Hs _] _|].
  intros s [Hs Hor]. pose proof Hs as ([Hw Hd _ _] & _ & _). pose proof places as Pl.
  assert (grows s (do_remove sidecar_path s).2) as Hg
    by (eapply grows_remove; [done|apply lay|naive_solver|done]).
  apply (moving_step s); [done..|]. revert Hg. unfold do_remove. rewrite Hw, (lay_sidecar lay).
  destruct (fs_names s !! sl) eqn:E; cbn; intros Hg.
  - destruct Hor as [Hh|[Hst (kv & Hv & Hdat)]].
    + left. unfold home. by rewrite lookup_delete_ne by naive_solver.
    + right. split; [|by rewrite Hst]. exists kv. split; [by rewrite lookup_delete_ne by naive_solver|by apply Hg].
  - destruct Hor as [Hh|[Hst (kv & Hv & Hdat)]]; [by left|]. right. split; [by exists kv|by rewrite Hst].
Qed.

Lemma T_move_in meta : md_key meta = k ->
  T ready (move_in K errno_text path vaulted_path sidecar_path k meta)
    (fun r s => match r with inl _ => safe_place s | inr copied => exists kv j, loaded copied kv j s end).
Proof.
  intros Hmeta. unfold move_in. pose proof places as Pl.
  assert (T ready (remove_file K sidecar_path) (fun _ => at_home)) as Hrm.
  { eapply ftriple_weaken; [apply (T_remove_home sidecar_path sl); [apply lay|right; by left]|by intros s [Hs _]|done]. }
  eapply ftriple_bind with (R := fun r s => match r with inl _ => ready s | inr _ => exists j, loaded false k j s end).
  - apply call; [apply ready_safe|intros [e|u] s; [apply ready_safe|intros [j Hs]; by eapply loaded_safe]|done|].
    intros s Hs. pose proof (rename_in s Hs) as Hr. destruct (do_rename path vaulted_path s) as [[e|u] s']; exact Hr.
  - assert (forall e : ExecFailure, T ready (let! _ := remove_file K sidecar_path in fret (inl (B := bool) e))
              (fun r s => match r with inl _ => safe_place s | inr copied => exists kv j, loaded copied kv j s end)) as Herr.
    { intros e. eapply ftriple_bind; [exact Hrm|]. intros r. apply ftriple_ret. intros s Hs. by left. }
    intros [e|u].
    + destruct e; try apply Herr. eapply ftriple_bind; [apply T_copy_into_vault|]. intros [f|u]; [apply Herr|].
      by apply ftriple_ret.
    + apply triple_ex. intros j. eapply ftriple_bind.
      * apply (look (SLstat vaulted_path) (fun s => (do_lstat vaulted_path s).1) (loaded false k j)
          (fun r _ => match r with inl _ => strict = false | inr m => md_key m = k end)).
        -- apply loaded_safe.
        -- intros n s e _ Hio. destruct strict eqn:Es; [|done]. exfalso. by eapply (lay_stat lay).
        -- intros s Hs. pose proof (loaded_base _ _ _ _ Hs) as [Hw _ _ _]. destruct Hs as [_ Hn (i & Hi & _) _ _].
           unfold do_lstat, entry_at. cbn [fst]. rewrite Hw, (lay_vaulted lay). cbn. rewrite Hn. cbn. unfold meta_of.
           by rewrite Hi.
      * intros [e|m]; apply triple_pure; intros Hm.
        -- eapply ftriple_bind.
           ++ eapply ftriple_weaken; [apply T_remove_unneeded| |intros r s Hs; exact Hs].
              intros s [[Hmv _] Hn Hd _ _]. split; [done|]. right. split; [done|by exists k].
           ++ intros r. apply ftriple_ret. intros s Hs. by right.
        -- unfold same_file. rewrite bool_decide_true by congruence. apply ftriple_ret. intros s Hs. by exists k, j.
Qed.

(** *** The final record *)

Lemma loaded_walk copied kv j s : loaded copied kv j s -> fs_walk s = W.
Proof. intros Hl. apply (loaded_base _ _ _ _ Hl). Qed.

Lemma loaded_tmp_create copied kv j s mode u g :
  loaded copied kv j s -> loaded copied kv j (do_create Regular mode u g (sidecar_tmp_path sidecar_path) s).2.
Proof.
  intros Hl. pose proof (loaded_base _ _ _ _ Hl) as [Hw Hd _ _]. pose proof places as Pl.
  assert (grows s (do_create Regular mode u g (sidecar_tmp_path sidecar_path) s).2) as Hg
    by (eapply grows_create; [done|apply lay|naive_solver|done]).
  revert Hg. unfold do_create. rewrite Hw, (lay_tmp lay). destruct (fs_names s !! tl); cbn [snd]; [done|]. intros Hg.
  eapply loaded_step; [exact Hl|exact Hg|cbn; by rewrite lookup_insert_ne by naive_solver..| |].
  - cbn. rewrite lookup_insert_ne by naive_solver. apply Hl.
  - apply (record_ext s); [apply Hg|apply Hl].
Qed.

Lemma loaded_tmp_remove copied kv j s :
  loaded copied kv j s -> loaded copied kv j (do_remove (sidecar_tmp_path sidecar_path) s).2.
Proof.
  intros Hl. pose proof (loaded_base _ _ _ _ Hl) as [Hw Hd _ _]. pose proof places as Pl.
  assert (grows s (do_remove (sidecar_tmp_path sidecar_path) s).2) as Hg
    by (eapply grows_remove; [done|apply lay|naive_solver|done]).
  revert Hg. unfold do_remove. rewrite Hw, (lay_tmp lay). destruct (fs_names s !! tl); cbn [snd]; [|done]. intros Hg.
  eapply loaded_step; [exact Hl|exact Hg|cbn; by rewrite lookup_delete_ne by naive_solver..| |].
  - cbn. rewrite lookup_delete_ne by naive_solver. apply Hl.
  - apply (record_ext s); [apply Hg|apply Hl].
Qed.

(** The temporary file takes the place of the record. *)
Lemma loaded_tmp_rename copied kv j x b car s :
  loaded copied kv j s -> fs_names s !! tl = Some x -> holds_data s x b -> from_slice b = Some car -> describes car ->
  exists j', loaded copied kv j' (do_rename (sidecar_tmp_path sidecar_path) sidecar_path s).2.
Proof.
  intros Hl Hx Hb Hcar Hdesc. pose proof (loaded_base _ _ _ _ Hl) as [Hw Hd _ _]. pose proof places as Pl.
  unfold do_rename. rewrite Hw, (lay_tmp lay), (lay_sidecar lay), (lay_td lay), (lay_sd lay), Z.eqb_refl, Hx. cbn [negb].
  case_bool_decide as Es; [by exists j|]. exists x. cbn [snd].
  eapply loaded_step; [exact Hl|apply grows_renamed; [done|]|cbn..|].
  - by rewrite lookup_insert_ne, lookup_delete_ne by naive_solver.
  - by rewrite lookup_insert_ne, lookup_delete_ne by naive_solver.
  - by rewrite lookup_insert_ne, lookup_delete_ne by naive_solver.
  - apply lookup_insert_eq.
  - apply (record_ext s); [apply ext_names|]. by exists b, car.
Qed.

Definition loaded_some (copied : bool) (kv : Z * Z) (s : Fs) : Prop := exists j, loaded copied kv j s.

Lemma loaded_some_safe copied kv s : loaded_some copied kv s -> crash_safe s.
Proof. intros [j Hs]. by eapply loaded_safe. Qed.

Lemma T_loaded_tmp_remove copied kv j :
  T (loaded copied kv j) (remove_file K (sidecar_tmp_path sidecar_path)) (fun _ => loaded copied kv j).
Proof.
  apply call; [apply loaded_safe|intros _; apply loaded_safe|done|]. intros s Hs. by apply loaded_tmp_remove.
Qed.

Lemma T_replace_record copied kv j car : describes car ->
  T (loaded copied kv j) (write_sidecar K errno_text vault sidecar_path car false)
    (fun r s => loaded_some copied kv s /\ match r with inl _ => True | inr _ => past s kd.1 = [] end).
Proof.
  intros Hdesc. unfold write_sidecar. destruct (to_vec car) as [json|] eqn:Ej; [|apply ftriple_ret; intros s Hs; split; [by exists j|done]].
  apply serde_roundtrip in Ej. unfold replace_sidecar. set (tmp := sidecar_tmp_path sidecar_path).
  assert (forall e : ExecFailure, T (loaded copied kv j) (let! _ := remove_file K tmp in fret (inl (B := unit) e))
            (fun r s => loaded_some copied kv s /\ match r with inl _ => True | inr _ => past s kd.1 = [] end)) as Herr.
  { intros e. eapply ftriple_bind; [apply T_loaded_tmp_remove|]. intros r. apply ftriple_ret. intros s Hs. split; [by exists j|done]. }
  eapply ftriple_bind; [apply T_loaded_tmp_remove|]. intros ?.
  set (G := loaded copied kv j).
  assert (forall i s, G s -> ext s (with_inodes i s) -> G (with_inodes i s)) as Gi
    by (intros i s; apply loaded_inodes).
  assert (forall s, G s -> crash_safe s) as Gs by (apply loaded_safe).
  eapply ftriple_bind with (R := fun r s => match r with
    | inl _ => G s
    | inr _ => exists x, G s /\ fs_names s !! tl = Some x /\ holds_data s x json
    end).
  - eapply ftriple_bind; [apply (T_create G tl Gs tmp)|].
    + intros s Hs. rewrite (loaded_walk _ _ _ _ Hs). apply lay.
    + intros. by apply loaded_tmp_create.
    + intros [e|x]; [by apply ftriple_ret|]. eapply ftriple_bind; [apply (T_write G tl Gs Gi)|].
      intros [e|u]; [apply ftriple_ret; by intros s (d & Hs & _)|].
      eapply ftriple_weaken; [apply (T_syncing G tl Gs Gi)|intros s Hs; exact Hs|].
      intros [e|u'] s; [done|]. intros Hs. by exists x.
  - intros [e|u]; [apply Herr|]. apply triple_ex. intros x.
    eapply ftriple_bind with (R := fun r s => match r with inl _ => G s | inr _ => loaded_some copied kv s end).
    + apply call; [intros s [Hs _]; by apply Gs|intros [e|u'] s; [apply Gs|apply loaded_some_safe]|by intros n s e [Hs _] _|].
      intros s (Hs & Hx & Hd). pose proof (loaded_tmp_rename _ _ _ _ _ _ _ Hs Hx Hd Ej Hdesc) as Hl. fold tmp in Hl.
      destruct (do_rename tmp sidecar_path s) as [[e|u'] s'] eqn:E; cbn [fst snd] in *; [|done].
      exfalso. revert E. unfold do_rename, tmp. rewrite (loaded_walk _ _ _ _ Hs), (lay_tmp lay), (lay_sidecar lay).
      rewrite (lay_td lay), (lay_sd lay), Z.eqb_refl, Hx. cbn [negb]. by case_bool_decide.
    + intros [e|u']; [apply Herr|]. apply T_map_err. eapply ftriple_weaken; [apply (T_fsync_vault (loaded_some copied kv))|done|].
      * intros s Hs. split; [by eapply loaded_some_safe|]. destruct Hs as [j' Hs]. by eapply loaded_base.
      * intros s [j' Hs]. exists j'. by apply loaded_synced.
      * by intros [e|u''] s [Hs Hpast].
Qed.

(** [undo]. *)
Lemma T_undo kv copied restore_mode mode :
  T (loaded_some copied kv) (undo K path vaulted_path sidecar_path mode copied restore_mode) (fun _ => safe_place).
Proof.
  unfold undo. pose proof places as Pl. destruct copied.
  - eapply ftriple_bind with (R := fun _ => at_home).
    + eapply ftriple_weaken; [apply (T_remove_home vaulted_path vl); [apply lay|apply vaulted_in]| |done].
      by intros s [j [Hs _ _ _ _]].
    + intros _. eapply ftriple_weaken; [apply (T_remove_home sidecar_path sl); [apply lay|right; by left]|done|]. intros r s Hs. by left.
  - eapply ftriple_bind with (R := fun _ => unneeded).
    + eapply ftriple_bind with (R := fun _ => loaded_some false kv).
      * destruct restore_mode; [|by apply ftriple_ret].
        apply call; [intros s [j Hs]; by eapply loaded_safe|intros _ s [j Hs]; by eapply loaded_safe|done|].
        intros s [j Hs]. unfold do_attr. destruct (follow s vaulted_path); cbn; exists j; [|done].
        apply loaded_inodes; [done|]. by apply ext_attr.
      * intros _. apply call; [intros s [j Hs]; by eapply loaded_safe|intros _ s [Hs _]; by apply moving_safe| |].
        -- intros n s e [j [[Hm _] Hn Hd _ _]] Hio. split; [done|]. right. destruct strict eqn:Es; [|split; [done|by exists kv]].
           exfalso. by eapply (lay_strict lay).
        -- intros s [j [[Hm ->] Hn Hd _ _]]. pose proof Hm as ([Hw Hdl _ _] & Hdev & _). unfold do_rename.
           rewrite Hw, (lay_path lay), (lay_vaulted lay), (lay_vd lay), Hdev, Z.eqb_refl, Hn. cbn [negb].
           case_bool_decide as Eh; cbn [snd]; [split; [done|by left]|].
           assert (home (<[pl := k]> (delete vl (fs_names s)))) as Hh by apply lookup_insert_eq.
           split; [|by left]. eapply moving_step; [done|apply grows_renamed; [done|]|by left].
           by rewrite lookup_insert_ne, lookup_delete_ne by naive_solver.
    + intros _. eapply ftriple_weaken; [apply T_remove_unneeded|done|]. intros r s Hs. by right.
Qed.

Lemma T_hash copied kv :
  T (loaded_some copied kv) (let! f := open_file K vaulted_path in
                             match f with inl e => fret (inl e) | inr x => sha256_reader_until K x end)
    (fun r s => match r with inl _ => True | inr sha => sha = hex_encode (sha256 D) end /\ loaded_some copied kv s).
Proof.
  eapply ftriple_bind.
  - apply (look_at (SOpen vaulted_path) (fun s => (do_open vaulted_path s).1) (loaded_some copied kv) (fun x => x = kv)).
    + apply loaded_some_safe.
    + intros s x [j Hs]. pose proof (loaded_walk _ _ _ _ Hs) as Hw. destruct Hs as [_ Hn (i & Hi & _ & _ & Hk) _ _].
      unfold do_open, follow, entry_at. cbn [fst]. rewrite Hw, (lay_vaulted lay). cbn. rewrite Hn. cbn. rewrite Hi. cbn.
      rewrite Hk. by intros [= <-].
  - intros [e|x]; [by apply ftriple_ret|]. apply triple_pure. intros ->.
    apply triple_hash; [apply lay|apply loaded_some_safe|]. intros s [j Hs]. apply Hs.
Qed.

Lemma T_finalise copied kv car : describes car ->
  T (loaded_some copied kv) (finalise K errno_text vault path vaulted_path sidecar_path car copied)
    (fun r s => match r with inl _ => safe_place s | inr _ => loaded_some copied kv s /\ past s kd.1 = [] end).
Proof.
  intros (Hp & Hmode & Huid & Hgid & _). unfold finalise. cbv zeta.
  assert (forall rm (e : ExecFailure), T (loaded_some copied kv)
            (let! _ := undo K path vaulted_path sidecar_path (car_mode car) copied rm in fret (inl (B := string) e))
            (fun r s => match r with inl _ => safe_place s | inr _ => loaded_some copied kv s /\ past s kd.1 = [] end)) as Hundo.
  { intros rm e. eapply ftriple_bind; [apply T_undo|]. intros r. by apply ftriple_ret. }
  eapply ftriple_bind with (R := fun r s => match r with inl _ => True | inr sha => sha = hex_encode (sha256 D) end
                                           /\ loaded_some copied kv s).
  - apply T_map_err. eapply ftriple_weaken; [apply T_hash|done|]. by intros [e|sha] s Hs.
  - intros [e|sha]; [apply triple_pure; intros _; apply Hundo|]. apply triple_pure. intros Hsha.
    eapply ftriple_bind with (R := fun _ => loaded_some copied kv).
    + apply call; [apply loaded_some_safe|intros _; apply loaded_some_safe|done|].
      intros s [j Hs]. unfold do_attr. destruct (follow s vaulted_path); cbn; exists j; [|done].
      apply loaded_inodes; [done|]. by apply ext_attr.
    + intros [e|u]; [apply Hundo|]. eapply ftriple_bind; [apply triple_ex; intros j; apply T_replace_record; split_and!; try done; by right|].
      intros [e|u']; [|by apply ftriple_ret]. eapply ftriple_weaken; [apply Hundo|by intros s [Hs _]|done].
Qed.

(** The file and its record are in the vault now. *)
Definition live (s : Fs) : Prop :=
  exists kv j, fs_names s !! vl = Some kv /\ holds_data s kv D /\ fs_names s !! sl = Some j /\ record s j.

Definition stored (s : Fs) : Prop := moved s /\ live s.

Lemma stored_safe s : stored s -> crash_safe s.
Proof. intros [Hs _]. by apply moved_safe. Qed.

Lemma loaded_stored copied kv s : loaded_some copied kv s -> past s kd.1 = [] -> stored s.
Proof.
  intros [j Hl] Hpast. split; [|exists kv, j; split_and!; apply Hl]. split; [by eapply loaded_base|].
  intros x Hx. unfold snaps in Hx. rewrite Hpast in Hx. apply list_elem_of_singleton in Hx as ->. by eapply loaded_recoverable.
Qed.

Lemma T_remove_original meta kv : md_key meta = k ->
  T (fun s => loaded_some true kv s /\ past s kd.1 = []) (remove_original K errno_text path vaulted_path sidecar_path meta)
    (fun r s => match r with inl _ => at_home s | inr _ => stored s end).
Proof.
  intros Hmeta. unfold remove_original. pose proof places as Pl. set (P := fun s => _).
  assert (forall s, P s -> at_home s) as HP by (by intros s [[j [Hs _ _ _ _]] _]).
  assert (forall s, P s -> crash_safe s) as HPs by (intros s Hs; by apply at_home_safe, HP).
  eapply ftriple_bind.
  - apply (look_at (SLstat path) (fun s => (do_lstat path s).1) P (fun m => md_key m = k)); [done|].
    intros s m Hs%HP. unfold do_lstat, entry_at. cbn [fst]. rewrite (at_home_walk s Hs), (lay_path lay). cbn.
    rewrite (at_home_name s Hs). cbn. unfold meta_of. destruct (fs_inodes s !! k); cbn; [|done]. by intros [= <-].
  - intros now. eapply ftriple_bind with (R := fun r s => match r with inl _ => at_home s | inr _ => stored s end).
    + destruct now as [e|m]; [apply ftriple_ret; intros s Hs; by apply HP|]. apply triple_pure. intros Hm.
      unfold same_file. rewrite bool_decide_true by congruence. apply T_map_err.
      apply call; [done|intros [e|u] s; [apply at_home_safe|apply stored_safe]|intros n s e Hs _; by apply HP|].
      intros s Hs. pose proof Hs as [[j Hl] Hpast]. pose proof (loaded_base _ _ _ _ Hl) as Hb.
      pose proof (at_home_name s (HP s Hs)) as Hh.
      assert (grows s (do_remove path s).2) as Hg by (eapply grows_remove; [apply Hb|apply lay|naive_solver|apply Hb]).
      revert Hg. unfold do_remove. rewrite (b_walk s Hb), (lay_path lay), Hh. cbn [fst snd]. intros Hg.
      destruct (loaded_stored _ _ _ (proj1 Hs) Hpast) as [Hmv _].
      assert (recoverable (renamed (l_dev pl) (delete pl (fs_names s)) s) (delete pl (fs_names s))
              /\ live (renamed (l_dev pl) (delete pl (fs_names s)) s)) as [Hrc Hlv].
      { assert (record (renamed (l_dev pl) (delete pl (fs_names s)) s) j) by (apply (record_ext s); [apply Hg|apply Hl]).
        split; [split|].
        - exists kv. rewrite lookup_delete_ne by naive_solver. split; apply Hl.
        - intros _. exists j. rewrite lookup_delete_ne by naive_solver. split; [apply Hl|done].
        - exists kv, j. cbn. rewrite !lookup_delete_ne by naive_solver. split_and!; [apply Hl..|done]. }
      split; [|done]. by apply (moved_step s).
    + intros [e|u]; [|by apply ftriple_ret].
      eapply ftriple_bind; [apply (T_remove_home vaulted_path vl); [apply lay|apply vaulted_in]|]. intros ?.
      eapply ftriple_bind; [apply (T_remove_home sidecar_path sl); [apply lay|right; by left]|]. intros ?. by apply ftriple_ret.
Qed.

(** *** The whole command *)

Lemma T_quarantine inode device dry :
  T (fun s => at_home s /\ attrs s) (quarantine_file K canonicalize errno_text vault path inode device dry)
    (fun r s => match r with
       | inl _ => safe_place s
       | inr d => if dry then at_home s else stored s /\ detail_quarantine_id d = Some (k_id K)
       end).
Proof.
  unfold quarantine_file. eapply T_try with (R := fun a s => meta_right a.2 /\ at_home s /\ a.1 = k).
  - eapply ftriple_weaken; [apply T_checked_file|done|]. intros [e|[k' m]] s [Hs Hr]; [by left|]. naive_solver.
  - intros [k' m]. cbn [fst snd]. apply triple_pure. intros Hm. destruct dry; [apply ftriple_ret; by intros s [Hs _]|].
    destruct (vault_paths vault (k_id K)) as [v sc] eqn:Ep.
    assert (v = vaulted_path) as -> by (unfold vaulted_path; by rewrite Ep).
    assert (sc = sidecar_path) as -> by (unfold sidecar_path; by rewrite Ep).
    eapply ftriple_weaken with (P' := fun s => k' = k /\ at_home s); [apply triple_pure; intros ->|by intros s [? ?]|intros r s Hs; exact Hs].
    eapply T_try with (R := fun _ => ready).
    { eapply ftriple_weaken; [apply T_write_record; destruct Hm as (? & ? & ? & ?); split_and!; try done; by left|done|]. intros [e|u] s [Hs Hr]; [by left|by split]. }
    intros _. eapply ftriple_bind; [apply T_fsync_record|]. intros [e|u].
    { eapply ftriple_bind with (R := fun _ => at_home).
      - eapply ftriple_weaken; [apply (T_remove_home sidecar_path sl); [apply lay|right; by left]|by intros s [Hs _]|done].
      - intros r. apply ftriple_ret. intros s Hs. by left. }
    eapply T_try; [apply T_move_in, Hm|]. intros copied. apply triple_ex. intros kv.
    eapply T_try with (R := fun _ s => loaded_some copied kv s /\ past s kd.1 = []).
    { eapply ftriple_weaken; [apply T_finalise; destruct Hm as (? & ? & ? & ?); split_and!; try done; by left|done|]. by intros [e|sha] s Hs. }
    intros sha. eapply T_try with (R := fun _ => stored).
    + destruct copied.
      * eapply ftriple_weaken; [apply (T_remove_original m kv), Hm|done|]. intros [e|x] s Hs; [by left|done].
      * apply ftriple_ret. intros s [Hl Hpast]. by eapply loaded_stored.
    + intros _. by apply ftriple_ret.
Qed.
End Crash.

(** C7. A quarantine loses nothing.  No other process interfering, whatever system calls fail,
    wherever a write tears, whenever the time runs out: in every state there is on the way, and
    in every state the machine may come back with if it stops there, the content of the file is
    at its path or in the vault.  In the vault it has a record, readable, with that path, its mode
    and owner, that is pending or carries the content's hash, provided ([strict]) that neither
    the rename that puts a file back nor the look at the file just moved fails; when one does,
    the content is still in the vault but may have no record ([failed_undo_orphans]).  A quarantine that succeeds is on disk when it returns, and one that fails
    leaves the file at home or on its way. *)
Theorem quarantine_loses_nothing `{UuidText} `{HexCodec} `{Sha256} `{!Serde Sidecar} K canonicalize errno_text vault path
    W pl vl sl tl dl k kd D M U Gd strict inode device dry w :
  layout K vault path W pl vl sl tl dl kd strict ->
  at_home W pl dl k kd D (w_fs w) -> attrs k M U Gd (w_fs w) -> w_seen w = [] ->
  let '(r, w') := quarantine_file K canonicalize errno_text vault path inode device dry w in
  Forall (crash_safe path pl vl sl D M U Gd strict) (w_fs w' :: w_seen w')
  /\ match r with
     | inr d => if dry then at_home W pl dl k kd D (w_fs w')
                else stored path W vl sl dl k kd D M U Gd strict (w_fs w') /\ detail_quarantine_id d = Some (k_id K)
     | inl _ => safe_place path W pl vl sl dl k kd D M U Gd strict (w_fs w')
     end.
Proof.
  intros Hlay Hs Ha Hw.
  destruct (T_quarantine K canonicalize errno_text vault path W pl vl sl tl dl k kd D M U Gd strict Hlay inode device dry w (conj Hs Ha))
    as [Hq Hseen]; [by rewrite Hw|].
  destruct (quarantine_file _ _ _ _ _ _ _ _ w) as [r w']. cbn in Hq, Hseen. split; [|done]. constructor; [|done].
  destruct r as [e|x]; [by eapply safe_place_safe|]. destruct dry; [by eapply at_home_safe|destruct Hq as [Hq _]; by eapply stored_safe].
Qed.

(** ** Examples *)

#[global] Instance sidecar_eq_dec : EqDecision Sidecar.
Proof. solve_decision. Defined.

Section Examples.
Local Existing Instance concrete_uuid.
Local Existing Instance concrete_hex.
Local Existing Instance concrete_sha256.

(** A file of the word "evil" outside a vault at /v, on the vault's device. *)
Definition evil : list byte := bytes_of "evil".
Definition evil_key : Z * Z := (1, 10).
Definition evil_car (pending : bool) : Sidecar :=
  {| car_path := "/t/x"; car_mode := 0x1a4; car_uid := 5; car_gid := 5;
     car_sha256 := if pending then "" else hex_encode (sha256 evil); car_quarantined_at := 77; car_nlink := 1;
     car_pending := pending |}.
#[local] Instance evil_serde : Serde Sidecar := table_serde [evil_car true; evil_car false].

Definition loc_of (p : string) : Loc := {| l_dev := 1; l_path := components (bytes_of p) |}.
Definition evil_fs : Fs :=
  {| fs_names := {[loc_of "/t/x" := evil_key; loc_of "/v" := (1, 2)]};
     fs_inodes := {[evil_key := {| n_data := evil; n_mode := 0x1a4; n_uid := 5; n_gid := 5; n_kind := Regular; n_synced := true |};
                    (1, 2) := {| n_data := []; n_mode := 0x1c0; n_uid := 0; n_gid := 0; n_kind := Directory; n_synced := true |}]};
     fs_past := ∅; fs_walk := fun p => Some (loc_of p) |}.

Definition calm (io : nat -> Sys -> option Errno) : Kernel :=
  {| k_io := io; k_torn := fun _ => 0%nat; k_env := fun _ s => s; k_fd := fun _ _ l => l_path l; k_uid := 0; k_gid := 0;
     k_now_ms := 77; k_id := 9 |}.

Definition start (s : Fs) : World := {| w_fs := s; w_tick := 0; w_budget := 10; w_seen := [] |}.

Definition evil_run (K : Kernel) : (ExecFailure + ExecDetail) * World :=
  quarantine_file K (fun p => Some p) (fun _ => "error") "/v" "/t/x" 10 (encode_st_dev 1) false (start evil_fs).

Definition evil_vaulted : string := (vault_paths "/v" 9).1.
Definition evil_sidecar : string := (vault_paths "/v" 9).2.

Lemma evil_layout : layout (calm (fun _ _ => None)) "/v" "/t/x" (fun p => Some (loc_of p)) (loc_of "/t/x") (loc_of evil_vaulted)
  (loc_of evil_sidecar) (loc_of (sidecar_tmp_path evil_sidecar)) (loc_of "/v") (1, 2) true.
Proof.
  split; try done. apply (bool_decide_eq_true_1 _). vm_compute. reflexivity.
Qed.

Lemma evil_at_home : at_home (fun p => Some (loc_of p)) (loc_of "/t/x") (loc_of "/v") evil_key (1, 2) evil evil_fs.
Proof.
  split.
  - split; [done|vm_compute; reflexivity| |].
    + eexists. split; vm_compute; reflexivity.
    + eexists. split_and!; vm_compute; reflexivity.
  - intros m Hm. unfold snaps, past in Hm. cbn in Hm. apply list_elem_of_singleton in Hm as ->. vm_compute. reflexivity.
Qed.

Lemma evil_attrs : attrs evil_key 0x1a4 5 5 evil_fs.
Proof. eexists. split_and!; vm_compute; reflexivity. Qed.

(** The file ends up in the vault, with the record of its hash. *)
Lemma quarantine_loses_nothing_witness :
  (exists d, (evil_run (calm (fun _ _ => None))).1 = inr d /\ detail_sha256 d = Some (hex_encode (sha256 evil)))
  /\ stored "/t/x" (fun p => Some (loc_of p)) (loc_of evil_vaulted) (loc_of evil_sidecar) (loc_of "/v") evil_key (1, 2) evil 0x1a4 5 5 true
       (w_fs (evil_run (calm (fun _ _ => None))).2).
Proof.
  pose proof (quarantine_loses_nothing (calm (fun _ _ => None)) (fun p => Some p) (fun _ => "error") "/v" "/t/x" _ _ _ _ _ _
    evil_key (1, 2) evil 0x1a4 5 5 true 10 (encode_st_dev 1) false (start evil_fs) evil_layout evil_at_home evil_attrs eq_refl) as Hq.
  fold (evil_run (calm (fun _ _ => None))) in Hq.
  assert (exists d, (evil_run (calm (fun _ _ => None))).1 = inr d /\ detail_sha256 d = Some (hex_encode (sha256 evil))) as (d & Hd & Hsha).
  { eexists. split; vm_compute; reflexivity. }
  split; [exact (ex_intro _ d (conj Hd Hsha))|]. clear Hsha. revert Hq Hd. destruct (evil_run _) as [r w'].
  cbn [fst snd]. intros Hq ->. exact (proj1 (proj2 Hq)).
Defined.

(** When the hash fails and the file cannot be put back, it stays in the vault and its record is
    removed all the same: no restore will find it. *)
Definition stuck_io (n : nat) (c : Sys) : option Errno :=
  match c with
  | SRead => Some (EOther 5)
  | SRename a _ => if (a =? evil_vaulted)%string then Some (EOther 30) else None
  | _ => None
  end.

Lemma failed_undo_orphans :
  let s := w_fs (evil_run (calm stuck_io)).2 in
  match (evil_run (calm stuck_io)).1 with inl e => fail_code e = Io | inr _ => False end
  /\ fs_names s !! loc_of "/t/x" = None /\ fs_names s !! loc_of evil_vaulted = Some evil_key
  /\ fs_names s !! loc_of evil_sidecar = None.
Proof. split_and!; vm_compute; reflexivity. Qed.

(** Another process writes a new file at the path while the vaulted one is hashed: putting the
    file back replaces it. *)
Definition new_file_env (n : nat) (s : Fs) : Fs :=
  if bool_decide (fs_names s !! loc_of "/t/x" = None) then
    Build_Fs (<[loc_of "/t/x" := (1, 99)]> (fs_names s)) (fs_inodes s) (fs_past s) (fs_walk s)
  else s.

Lemma undo_replaces_new_file :
  let K := {| k_io := fun n c => match c with SRead => Some (EOther 5) | _ => None end; k_torn := fun _ => 0%nat;
              k_env := new_file_env; k_fd := fun _ _ l => l_path l; k_uid := 0; k_gid := 0; k_now_ms := 77; k_id := 9 |} in
  let w' := (evil_run K).2 in
  existsb (fun s => bool_decide (fs_names s !! loc_of "/t/x" = Some (1, 99))) (w_seen w') = true
  /\ map_to_list (filter (fun p => p.2 = (1, 99)) (fs_names (w_fs w'))) = [].
Proof. split; vm_compute; reflexivity. Qed.

End Examples.
