(* ===== verification/VaultRestore.v ===== *)
(** * A restore brings the file back: [Vault.restore_file] after [Vault.quarantine_file] *)

From S2P Require Import Prelude BTree Concrete Json Schema Policy Envelope Replay Guard FileUtil StoreConcrete Posix Vault VaultCrash.

Open Scope file_scope.

Section Restore.
Context `{UuidText} `{HexCodec} `{Sha256} `{!Serde Sidecar}.
Context (K0 K : Kernel) (canonicalize : list byte -> option (list byte)) (errno_text : Errno -> string) (vault path : string).
Context (protected : ProtectedTargets).
Context (W : string -> option Loc) (pl vl sl tl dl : Loc) (k kd : Z * Z) (D : list byte) (M U Gd : Z) (strict : bool).

Local Abbreviation vaulted := (vaulted_path K0 vault).
Local Abbreviation sidecar := (sidecar_path K0 vault).
Local Abbreviation base' := (base W dl k kd D).
Local Abbreviation record' := (record path D M U Gd).
Local Abbreviation recoverable' := (recoverable path vl sl D M U Gd strict).

(** The file is at its path again. *)
Definition back_at (s : Fs) (m : gmap Loc (Z * Z)) : Prop := exists kx, m !! pl = Some kx /\ holds_data s kx D.

(** On one device the names a crash may bring back all have the file. *)
Definition restoring (s : Fs) : Prop :=
  base' s /\ (l_dev pl = kd.1 -> forall m, m ∈ snaps s kd.1 -> recoverable' s m \/ back_at s m).

Record in_store (kv j : Z * Z) (s : Fs) : Prop := {
  st_phase : restoring s; st_name : fs_names s !! vl = Some kv; st_data : holds_data s kv D;
  st_record : fs_names s !! sl = Some j; st_ok : record' s j }.

(** With its mode and owner. *)
Definition returned (s : Fs) : Prop :=
  exists kx i, fs_names s !! pl = Some kx /\ fs_inodes s !! kx = Some i /\ n_data i = D /\ n_kind i = Regular
    /\ n_mode i = M /\ n_uid i = U /\ n_gid i = Gd.

Definition store_safe (s : Fs) : Prop := l_dev pl = kd.1 -> crash_safe path pl vl sl D M U Gd strict s.

Context (lay : layout K0 vault path W pl vl sl tl dl kd strict) (alone : forall n s, k_env K n s = s).

Lemma restoring_safe s : restoring s -> store_safe s.
Proof.
  intros [Hb Hm] Hd s' Hc. pose proof Hc as [Hn _]. destruct (Hn kd.1) as (m & Hin & Heq). destruct (Hm Hd m Hin) as [Hr|(kx & Hx & Hk)].
  - by eapply recoverable_crash.
  - left. destruct (crash_data _ _ _ _ Hc Hk) as (i & Hi & Hdata). exists kx, i. split_and!; try done. rewrite Heq; done.
Qed.

Lemma restoring_step s s' : restoring s -> grows dl kd s s' -> recoverable' s' (fs_names s') \/ back_at s' (fs_names s') -> restoring s'.
Proof.
  intros [Hb Hm] (He & Hdl & Hs) Hh. split; [by apply (base_step _ _ _ _ _ s)|]. intros Hd m [->|Hin]%Hs; [done|].
  destruct (Hm Hd m Hin) as [Hr|(kx & Hx & Hk)]; [left; by apply (recoverable_ext _ _ _ _ _ _ _ _ s)|right].
  exists kx. split; [done|by apply He].
Qed.

Lemma in_store_step kv j s s' : in_store kv j s -> grows dl kd s s' -> fs_names s' !! vl = fs_names s !! vl ->
  fs_names s' !! sl = fs_names s !! sl -> in_store kv j s'.
Proof.
  intros [Hp Hn Hd Hr Ho] Hg Hvl Hsl. assert (holds_data s' kv D) as Hd' by (by apply Hg).
  assert (record' s' j) as Ho' by (by apply (record_ext _ _ _ _ _ s); [apply Hg|]).
  split; try done; [|congruence..]. apply (restoring_step s); [done..|]. left. split.
  - exists kv. split; [congruence|done].
  - intros _. exists j. split; [congruence|done].
Qed.

Lemma in_store_safe kv j s : in_store kv j s -> store_safe s.
Proof. intros [Hp _ _ _ _]. by apply restoring_safe. Qed.

Lemma in_store_base kv j s : in_store kv j s -> base' s.
Proof. by intros [[Hb _] _ _ _ _]. Qed.

Lemma in_store_inodes kv j i s : in_store kv j s -> ext s (with_inodes i s) -> in_store kv j (with_inodes i s).
Proof.
  intros Hs He. pose proof (in_store_base _ _ _ Hs) as [_ Hd _ _]. eapply in_store_step; [done|by apply grows_inodes|done..].
Qed.

Lemma store_places : pl <> vl /\ pl <> sl /\ pl <> dl /\ vl <> sl /\ vl <> dl /\ sl <> dl.
Proof.
  enough (pl <> vl /\ pl <> sl /\ pl <> tl /\ pl <> dl /\ vl <> sl /\ vl <> tl /\ vl <> dl /\ sl <> tl /\ sl <> dl /\ tl <> dl)
    by naive_solver.
  eapply places. exact lay.
Qed.

Lemma W_vaulted : W vaulted = Some vl.
Proof. apply lay. Qed.

Lemma W_path : W path = Some pl.
Proof. apply lay. Qed.

Local Abbreviation T := (triple store_safe).
Local Abbreviation look_at := (look_at_alone K store_safe alone).
Local Abbreviation call := (call_alone K store_safe alone).

(** *** Looking at the record and the file *)

Lemma follow_name s p l x b : fs_walk s = W -> W p = Some l -> fs_names s !! l = Some x -> holds_data s x b -> follow s p = Some x.
Proof.
  intros Hw Hp Hx (i & Hi & _ & _ & Hk). unfold follow, entry_at. rewrite Hw, Hp. cbn. rewrite Hx. cbn. rewrite Hi. cbn. by rewrite Hk.
Qed.

Lemma T_read_car kv j id :
  T (in_store kv j) (read_car K canonicalize errno_text protected id sidecar)
    (fun r s => match r with inl _ => True | inr car => describes path D M U Gd car end /\ in_store kv j s).
Proof.
  unfold read_car, read_file.
  eapply ftriple_try with (R := fun raw s => (exists car, from_slice raw = Some car /\ describes path D M U Gd car) /\ in_store kv j s).
  - apply triple_map_err. eapply ftriple_bind.
    + apply (look_at (SOpen sidecar) (fun s => (do_open sidecar s).1) (in_store kv j) (fun x => x = j)); [apply in_store_safe|].
      intros s x Hs. pose proof (in_store_base _ _ _ Hs) as [Hw _ _ _]. destruct Hs as [_ _ _ Hr (b & car & Hb & _)].
      unfold do_open. cbn [fst]. rewrite (follow_name s sidecar sl j b Hw); try done; [by intros [= ->]|apply lay].
    + intros [e|x]; [by apply ftriple_ret|]. apply triple_pure. intros ->.
      eapply ftriple_weaken; [apply (look_at SRead _ (in_store kv j) (fun raw => exists car, from_slice raw = Some car /\ describes path D M U Gd car))|done|].
      * apply in_store_safe.
      * intros s raw Hs. destruct Hs as [_ _ _ _ (b & car & (i & Hi & <- & _) & Hcar & Hdesc)]. rewrite Hi. intros [= <-]. by exists car.
      * intros [e|raw] s; [done|]. by intros [Hc Hs].
  - intros raw. apply triple_pure. intros (car & Hcar & Hdesc). rewrite Hcar.
    destruct (check_path canonicalize protected (car_path car)); by apply ftriple_ret.
Qed.

(** The attributes of the vaulted file may change. *)
Lemma T_store_chmod kv j mode : T (in_store kv j) (set_permissions K vaulted mode) (fun _ => in_store kv j).
Proof.
  apply call; [apply in_store_safe|intros _; apply in_store_safe|done|]. intros s Hs. unfold do_attr.
  destruct (follow s vaulted); [|done]. apply in_store_inodes; [done|by apply ext_attr].
Qed.

Lemma T_open_vaulted kv j :
  T (in_store kv j) (open_vaulted K errno_text vaulted)
    (fun r s => match r with inl _ => True | inr x => x = kv end /\ in_store kv j s).
Proof.
  unfold open_vaulted. eapply ftriple_try with (R := fun _ => in_store kv j).
  - apply triple_map_err. eapply ftriple_weaken; [apply T_store_chmod|done|]. by intros [e|u] s Hs.
  - intros ?. eapply ftriple_bind.
    + apply (look_at (SOpen vaulted) (fun s => (do_open vaulted s).1) (in_store kv j) (fun x => x = kv)); [apply in_store_safe|].
      intros s x Hs. pose proof (in_store_base _ _ _ Hs) as [Hw _ _ _]. destruct Hs as [_ Hn Hd _ _].
      unfold do_open. cbn [fst]. rewrite (follow_name s vaulted vl kv D Hw); try done; [by intros [= ->]|apply lay].
    + intros [e|x].
      * eapply ftriple_bind; [apply T_store_chmod|]. intros r. by apply ftriple_ret.
      * apply triple_pure. intros ->. eapply ftriple_bind; [apply T_store_chmod|]. intros r. by apply ftriple_ret.
Qed.

(** *** The destination *)

(** A name appears at the path, or goes away again. *)
Lemma in_store_dest kv j d m s :
  in_store kv j s -> (forall l, l <> pl -> m !! l = fs_names s !! l) -> in_store kv j (renamed d m s).
Proof.
  intros Hs Hm. pose proof store_places as Pl. pose proof (in_store_base _ _ _ Hs) as [_ Hd _ _].
  eapply in_store_step; [done|apply grows_renamed; [done|]|cbn..]; apply Hm; naive_solver.
Qed.

Lemma T_remove_dest kv j : T (in_store kv j) (remove_file K path) (fun _ => in_store kv j).
Proof.
  apply call; [apply in_store_safe|intros _; apply in_store_safe|done|]. intros s Hs.
  pose proof (in_store_base _ _ _ Hs) as [Hw _ _ _]. unfold do_remove. rewrite Hw, W_path.
  destruct (fs_names s !! pl); [|done]. apply in_store_dest; [done|]. intros l Hl. by rewrite lookup_delete_ne.
Qed.

(** The file is at both places. *)
Definition at_both (kv j : Z * Z) (s : Fs) : Prop :=
  in_store kv j s /\ exists kx, fs_names s !! pl = Some kx /\ holds_data s kx D.

Lemma T_put_back kv j :
  T (in_store kv j) (put_back K errno_text kv vaulted path)
    (fun r s => match r with inl _ => in_store kv j s | inr _ => at_both kv j s end).
Proof.
  unfold put_back. pose proof store_places as Pl.
  eapply ftriple_bind with (R := fun r s => match r with inl _ => in_store kv j s | inr _ => at_both kv j s end).
  - apply call; [apply in_store_safe|intros [e|u] s; [apply in_store_safe|intros [Hs _]; by eapply in_store_safe]|done|].
    intros s Hs. pose proof (in_store_base _ _ _ Hs) as [Hw _ _ _]. pose proof Hs as [_ Hn Hd _ _].
    unfold do_link. rewrite Hw, W_vaulted, W_path, Hn. destruct (fs_names s !! pl); [done|]. destruct (_ =? _); [|done].
    cbn [fst snd]. split; [apply in_store_dest; [done|]; intros l Hl; by rewrite lookup_insert_ne|].
    exists kv. split; [apply lookup_insert_eq|by apply ext_names].
  - intros [e|u]; [|by apply ftriple_ret]. destruct e; try by apply ftriple_ret.
    set (G := in_store kv j). assert (forall s, G s -> store_safe s) as Gs by (apply in_store_safe).
    assert (forall i s, G s -> ext s (with_inodes i s) -> G (with_inodes i s)) as Gi by (apply in_store_inodes).
    eapply ftriple_try with (R := fun x => drafting G pl [] x).
    + apply triple_map_err. eapply ftriple_weaken; [apply (triple_create K store_safe alone G pl Gs path)|done|].
      * intros s Hs. pose proof (in_store_base _ _ _ Hs) as [-> _ _ _]. apply W_path.
      * intros s mode u g Hs. pose proof (in_store_base _ _ _ Hs) as [Hw Hdl _ _]. unfold do_create. rewrite Hw, W_path.
        destruct (fs_names s !! pl) eqn:E; [done|]. cbn. eapply in_store_step; [exact Hs| |cbn..].
        -- split_and!; [apply ext_new, fresh_key_None|cbn; by rewrite lookup_insert_ne by naive_solver|].
           intros d x Hx. apply snaps_renamed in Hx as [->|Hx]; [by left|by right].
        -- by rewrite lookup_insert_ne by naive_solver.
        -- by rewrite lookup_insert_ne by naive_solver.
      * intros [e|x] s Hs; done.
    + intros out. eapply ftriple_bind with (R := fun r s => match r with
        | inl _ => G s
        | inr _ => G s /\ fs_names s !! pl = Some out /\ holds_data s out D
        end).
      * eapply ftriple_bind; [apply (triple_copy K store_safe alone G pl Gs Gi kv D)|].
        -- intros s Hs. apply Hs.
        -- intros [e|n]; [apply ftriple_ret; by intros s (d & Hs & _)|]. apply (triple_sync_draft K store_safe alone G pl Gs Gi).
      * intros [e|u].
        -- eapply ftriple_bind; [apply T_remove_dest|]. intros r. by apply ftriple_ret.
        -- apply ftriple_ret. intros s (Hs & Hn & Hd). split; [done|by exists out].
Qed.

Lemma follow_dest kv j s kx : in_store kv j s -> fs_names s !! pl = Some kx -> holds_data s kx D -> follow s path = Some kx.
Proof.
  intros Hs Hn Hd. pose proof (in_store_base _ _ _ Hs) as [Hw _ _ _]. eapply follow_name; [exact Hw|apply W_path|exact Hn|exact Hd].
Qed.

Lemma T_reown kv j car : describes path D M U Gd car ->
  T (at_both kv j) (reown K errno_text path car)
    (fun r s => match r with inl _ => in_store kv j s | inr _ => in_store kv j s /\ returned s
        /\ exists kx, fs_names s !! pl = Some kx /\ holds_data s kx D end).
Proof.
  intros (_ & Hm & Hu & Hg & _). unfold reown.
  set (owned := fun s => in_store kv j s /\ exists kx i, fs_names s !! pl = Some kx /\ holds_data s kx D
                           /\ fs_inodes s !! kx = Some i /\ n_uid i = U /\ n_gid i = Gd).
  set (whole := fun s => in_store kv j s /\ returned s /\ exists kx, fs_names s !! pl = Some kx /\ holds_data s kx D).
  eapply ftriple_bind with (R := fun r s => match r with inl _ => in_store kv j s | inr _ => whole s end).
  - eapply ftriple_try with (R := fun _ => owned).
    + apply triple_map_err. apply call.
      * intros s [Hs _]. by eapply in_store_safe.
      * intros [e|u] s; [by apply in_store_safe|intros [Hs _]; by eapply in_store_safe].
      * by intros n s e [Hs _] _.
      * intros s [Hs (kx & Hn & Hd)]. unfold do_attr. rewrite (follow_dest _ _ _ _ Hs Hn Hd). cbn [fst snd].
        assert (ext s (with_inodes (alter (with_owner (car_uid car) (car_gid car)) kx (fs_inodes s)) s)) as He by (by apply ext_attr).
        split; [by apply in_store_inodes|]. destruct Hd as (i & Hi & Hrest).
        exists kx, (with_owner (car_uid car) (car_gid car) i). split_and!; [done|apply He; by exists i| |done..].
        cbn. by rewrite lookup_alter_eq, Hi.
    + intros ?. apply triple_map_err. apply call.
      * intros s [Hs _]. by eapply in_store_safe.
      * intros [e|u] s; [by apply in_store_safe|intros [Hs _]; by eapply in_store_safe].
      * by intros n s e [Hs _] _.
      * intros s [Hs (kx & i & Hn & Hd & Hi & Hui & Hgi)]. unfold do_attr. rewrite (follow_dest _ _ _ _ Hs Hn Hd). cbn [fst snd].
        assert (ext s (with_inodes (alter (with_mode (car_mode car)) kx (fs_inodes s)) s)) as He by (by apply ext_attr).
        split_and!; [by apply in_store_inodes| |exists kx; split; [done|by apply He]].
        destruct Hd as (i' & Hi' & Hdata & _ & Hk). assert (i' = i) as -> by congruence.
        exists kx, (with_mode (car_mode car) i). split_and!; try done. cbn. by rewrite lookup_alter_eq, Hi.
  - intros [e|u]; [|by apply ftriple_ret]. eapply ftriple_bind; [apply T_remove_dest|]. intros r. by apply ftriple_ret.
Qed.

(** *** Emptying the vault *)

Definition done_back (s : Fs) : Prop := restoring s /\ returned s /\ exists kx, fs_names s !! pl = Some kx /\ holds_data s kx D.

Lemma T_remove_back p l : W p = Some l -> l <> pl -> l <> dl -> T done_back (remove_file K p) (fun _ => done_back).
Proof.
  intros Hp Hl Hldl. apply call; [intros s [Hs _]; by apply restoring_safe|intros _ s [Hs _]; by apply restoring_safe|done|].
  intros s (Hs & (kx & i & Hn & Hr) & (ky & Hy & Hd)). pose proof Hs as [[Hw Hdl _ _] _].
  assert (grows dl kd s (do_remove p s).2) as Hg by (by eapply grows_remove).
  revert Hg. unfold do_remove. rewrite Hw, Hp. destruct (fs_names s !! l) eqn:E; cbn [snd]; intros Hg.
  - assert (forall x, fs_names s !! pl = Some x -> delete l (fs_names s) !! pl = Some x) as Hkeep
      by (intros x Hx; by rewrite lookup_delete_ne).
    split_and!.
    + apply (restoring_step s); [done..|]. right. exists ky. split; [by apply Hkeep|by apply Hg].
    + exists kx, i. split; [by apply Hkeep|done].
    + exists ky. split; [by apply Hkeep|by apply Hg].
  - split_and!; [done|by exists kx, i|by exists ky].
Qed.

(** *** The whole command *)

Lemma T_restore kv j dry :
  T (in_store kv j) (restore_file K canonicalize errno_text vault protected (k_id K0) dry)
    (fun r s => match r with inl _ => in_store kv j s | inr _ => if dry then in_store kv j s else done_back s end).
Proof.
  unfold restore_file. destruct (vault_paths vault (k_id K0)) as [v sc] eqn:Ep.
  assert (v = vaulted) as -> by (unfold vaulted_path; by rewrite Ep).
  assert (sc = sidecar) as -> by (unfold sidecar_path; by rewrite Ep). pose proof store_places as Pl.
  eapply ftriple_try with (R := fun car s => describes path D M U Gd car /\ in_store kv j s).
  { eapply ftriple_weaken; [apply T_read_car|done|]. by intros [e|car] s [Hd Hs]. }
  intros car. apply triple_pure. intros Hdesc. pose proof Hdesc as (-> & _).
  eapply ftriple_bind with (R := fun _ => in_store kv j).
  { destruct (car_pending car); [|by apply ftriple_ret]. eapply ftriple_bind.
    - apply (look_at (SLstat vaulted) (fun s => (do_lstat vaulted s).1) (in_store kv j) (fun _ => True)); [apply in_store_safe|done].
    - intros [e|m]; apply ftriple_ret; [done|by intros s [_ Hs]]. }
  intros [|]; [by apply ftriple_ret|]. eapply ftriple_try with (R := fun x s => x = kv /\ in_store kv j s).
  { eapply ftriple_weaken; [apply T_open_vaulted|done|]. by intros [e|x] s [Hx Hs]. }
  intros x. apply triple_pure. intros ->. eapply ftriple_try with (R := fun _ => in_store kv j).
  { apply triple_map_err. eapply ftriple_weaken; [apply (triple_hash K store_safe alone (in_store kv j) kv D)|done|].
    - apply in_store_safe.
    - intros s Hs. apply Hs.
    - by intros [e|sha] s [_ Hs]. }
  intros sha. destruct (_ && _); [by apply ftriple_ret|]. eapply ftriple_bind.
  { apply (look_at (SLstat path) (fun s => (do_lstat path s).1) (in_store kv j) (fun _ => True)); [apply in_store_safe|done]. }
  intros [e|m]; [|apply ftriple_ret; by intros s [_ Hs]]. destruct dry; [by apply ftriple_ret|].
  eapply ftriple_try; [apply T_put_back|]. intros u.
  eapply ftriple_try; [apply T_reown, Hdesc|]. intros u'.
  eapply ftriple_bind with (R := fun _ => done_back).
  { eapply ftriple_weaken; [apply (T_remove_back vaulted vl); [apply lay|naive_solver..]| |done].
    intros s (Hs & Hr & Hb). split; [apply Hs|done]. }
  intros ?. eapply ftriple_bind; [apply (T_remove_back sidecar sl); [apply lay|naive_solver..]|]. intros ?. by apply ftriple_ret.
Qed.
End Restore.

Lemma stored_in_store `{HexCodec} `{Sha256} `{!Serde Sidecar} path W pl vl sl dl k kd D M U Gd strict s :
  stored path W vl sl dl k kd D M U Gd strict s ->
  exists kv j, in_store path W pl vl sl dl k kd D M U Gd strict kv j s.
Proof.
  intros [[Hb Hm] (kv & j & Hn & Hd & Hr & Ho)]. exists kv, j. split; try done. split; [done|]. intros _ m Hin. left. by apply Hm.
Qed.

(** C8. A restore undoes a quarantine.  A file that a quarantine put in the vault is restored by
    the id it reported: if the restore succeeds, the path names a file with the content, the
    mode and the owner the file had, and if it does not, whatever failed, file and record are
    still in the vault.  Where path and vault are on one device, the machine may stop at any
    point of it without the content being lost. *)
Theorem quarantine_restore_roundtrip `{UuidText} `{HexCodec} `{Sha256} `{!Serde Sidecar} K K' canonicalize errno_text vault
    protected path W pl vl sl tl dl k kd D M U Gd strict inode device w w' w2 d id dry :
  layout K vault path W pl vl sl tl dl kd strict -> (forall n s, k_env K' n s = s) ->
  at_home W pl dl k kd D (w_fs w) -> attrs k M U Gd (w_fs w) -> w_seen w = [] ->
  quarantine_file K canonicalize errno_text vault path inode device false w = (inr d, w') ->
  detail_quarantine_id d = Some id -> w_fs w2 = w_fs w' -> w_seen w2 = [] ->
  let '(r, w3) := restore_file K' canonicalize errno_text vault protected id dry w2 in
  match r with
  | inr _ => if dry then exists kv j, in_store path W pl vl sl dl k kd D M U Gd strict kv j (w_fs w3)
             else returned pl D M U Gd (w_fs w3)
  | inl _ => exists kv j, in_store path W pl vl sl dl k kd D M U Gd strict kv j (w_fs w3)
  end
  /\ (l_dev pl = kd.1 -> Forall (crash_safe path pl vl sl D M U Gd strict) (w_fs w3 :: w_seen w3)).
Proof.
  intros Hlay Halone Hs Ha Hw Eq Hid Hfs Hw2.
  destruct (T_quarantine K canonicalize errno_text vault path W pl vl sl tl dl k kd D M U Gd strict Hlay inode device false w
    (conj Hs Ha)) as [Hq _]; [by rewrite Hw|]. rewrite Eq in Hq. cbn [fst snd] in Hq. destruct Hq as [Hst Hid'].
  rewrite Hid in Hid'. injection Hid' as ->.
  apply (stored_in_store _ _ pl) in Hst as (kv & j & Hst). rewrite <- Hfs in Hst.
  destruct (T_restore K K' canonicalize errno_text vault path protected W pl vl sl tl dl k kd D M U Gd strict Hlay Halone kv j dry
    w2 Hst) as [Hq Hseen]; [by rewrite Hw2|].
  destruct (restore_file _ _ _ _ _ _ _ w2) as [r w3]. cbn [fst snd] in Hq, Hseen. split.
  - destruct r as [e|x]; [by exists kv, j|]. destruct dry; [by exists kv, j|apply Hq].
  - intros Hd. constructor; [|by eapply Forall_impl; [exact Hseen|]; intros s Hss; apply Hss].
    destruct r as [e|x]; [by eapply in_store_safe|]. destruct dry; [by eapply in_store_safe|]. destruct Hq as [Hq _].
    by eapply restoring_safe.
Qed.

(** ** Examples *)

Section Examples.
Local Existing Instance concrete_uuid.
Local Existing Instance concrete_hex.
Local Existing Instance concrete_sha256.
#[local] Instance car_serde : Serde Sidecar := evil_serde.

Lemma pair_with {A B} (p : A * B) a : p.1 = a -> p = (a, p.2).
Proof. by destruct p; intros <-. Qed.

Lemma start_fs s : w_fs (start s) = s.
Proof. done. Qed.

Definition vault_guard : ProtectedTargets := {| agent_pid := 100; extra_pids := []; Guard.vault := bytes_of "/v" |}.

Definition no_fault : nat -> Sys -> option Errno := fun _ _ => None.

(** The vaulted file of [VaultCrash] is restored. *)
Definition back_run (s : Fs) : (ExecFailure + ExecDetail) * World :=
  restore_file (calm no_fault) (fun p => Some p) (fun _ => "error") "/v" vault_guard 9 false (start s).

Definition in_vault_fs : Fs := w_fs (evil_run (calm no_fault)).2.

Lemma quarantine_restore_roundtrip_witness :
  (exists d, (back_run in_vault_fs).1 = inr d) /\ returned (loc_of "/t/x") evil 0x1a4 5 5 (w_fs (back_run in_vault_fs).2).
Proof.
  assert (exists d, (evil_run (calm no_fault)).1 = inr d /\ detail_quarantine_id d = Some 9) as (d & Hd & Hid)
    by (eexists; split; vm_compute; reflexivity).
  pose proof (quarantine_restore_roundtrip (calm no_fault) (calm no_fault) (fun p => Some p) (fun _ => "error") "/v" vault_guard "/t/x"
    _ _ _ _ _ _ evil_key (1, 2) evil 0x1a4 5 5 true 10 (encode_st_dev 1) (start evil_fs) (evil_run (calm no_fault)).2
    (start in_vault_fs) d 9 false evil_layout ltac:(done) evil_at_home evil_attrs eq_refl) as Hq.
  specialize (Hq (pair_with (evil_run (calm no_fault)) (inr d) Hd) Hid (start_fs in_vault_fs) eq_refl).
  fold (back_run in_vault_fs) in Hq.
  assert (exists x, (back_run in_vault_fs).1 = inr x) as (x & Hx) by (eexists; vm_compute; reflexivity).
  split; [exact (ex_intro _ x Hx)|]. clear Hd Hid. revert Hq Hx. destruct (back_run in_vault_fs) as [r w3]. cbn [fst snd].
  intros Hq ->. exact (proj1 Hq).
Defined.

(** The file is on another device than the vault: it is copied there and back.  The directory it
    returns to is not synced before the vaulted copy is removed, so a crash may leave neither. *)
Definition far_loc (p : string) : Loc :=
  {| l_dev := if (p =? "/t/x")%string then 2 else 1; l_path := components (bytes_of p) |}.

Definition far_fs : Fs :=
  {| fs_names := {[far_loc "/t/x" := (2, 10); far_loc "/v" := (1, 2)]};
     fs_inodes := {[(2, 10) := {| n_data := evil; n_mode := 0x1a4; n_uid := 5; n_gid := 5; n_kind := Regular; n_synced := true |};
                    (1, 2) := {| n_data := []; n_mode := 0x1c0; n_uid := 0; n_gid := 0; n_kind := Directory; n_synced := true |}]};
     fs_past := ∅; fs_walk := fun p => Some (far_loc p) |}.

Definition far_vault : Fs :=
  w_fs (quarantine_file (calm no_fault) (fun p => Some p) (fun _ => "error") "/v" "/t/x" 10 (encode_st_dev 2) false (start far_fs)).2.
Definition far_back : Fs := w_fs (back_run far_vault).2.

Lemma same_names_on d (m m' : gmap Loc (Z * Z)) :
  filter (fun p => l_dev p.1 = d) m = filter (fun p => l_dev p.1 = d) m' -> forall l, l_dev l = d -> m !! l = m' !! l.
Proof.
  intros E l Hl. pose proof (f_equal (fun x => x !! l) E) as E'. cbn in E'. apply option_eq. intros x.
  pose proof (map_lookup_filter_Some (fun p => l_dev p.1 = d) m l x) as H1.
  pose proof (map_lookup_filter_Some (fun p => l_dev p.1 = d) m' l x) as H2. rewrite E' in H1. cbn in H1, H2. naive_solver.
Qed.

Lemma hd_in {A} (x : A) l : (0 <? List.length l)%nat = true -> hd x l ∈ l.
Proof. destruct l; [done|]. intros _. by left. Qed.

(** A device comes back with older names, without one entry. *)
Definition forget (l : Loc) (s : Fs) : Fs := Build_Fs (delete l (fs_names s)) (fs_inodes s) ∅ (fs_walk s).

Lemma crash_forget l m s : m ∈ past s (l_dev l) ->
  (forall l', l_dev l' = l_dev l -> delete l (fs_names s) !! l' = m !! l') -> crash s (forget l s).
Proof.
  intros Hm He. split.
  - intros d. destruct (decide (d = l_dev l)) as [->|Hd].
    + exists m. split; [by right|done].
    + exists (fs_names s). split; [by left|]. intros l' Hl. cbn. apply lookup_delete_ne. congruence.
  - intros x i Hx _. by exists i.
Qed.

Lemma restore_across_devices_loses :
  (exists d, (back_run far_vault).1 = inr d) /\ crash far_back (forget (far_loc "/t/x") far_back)
  /\ map_to_list (fs_names (forget (far_loc "/t/x") far_back)) = [(far_loc "/v", (1, 2))].
Proof.
  split; [eexists; vm_compute; reflexivity|]. split; [|vm_compute; reflexivity].
  apply (crash_forget _ (hd ∅ (past far_back 2))).
  - apply hd_in. vm_compute. reflexivity.
  - apply same_names_on. vm_compute. reflexivity.
Qed.
End Examples.
