(* ===== verification/VaultRace.v ===== *)
(** * A quarantine takes the file it was told to, whoever races with it *)

From S2P Require Import Prelude BTree Concrete Json Schema Policy Envelope Replay Guard FileUtil StoreConcrete Posix Vault VaultCrash VaultRestore.

Open Scope file_scope.

Section Race.
Context `{UuidText} `{HexCodec} `{Sha256} `{!Serde Sidecar}.
Context (K : Kernel) (canonicalize : list byte -> option (list byte)) (errno_text : Errno -> string) (vault path : string).
Context (vl sl tl : Loc).

Local Abbreviation vaulted := (vaulted_path K vault).
Local Abbreviation sidecar := (sidecar_path K vault).

(** The vault's paths lead into the vault, and the path of the file to a place on its device. *)
Record routes (s : Fs) : Prop := {
  ro_vaulted : fs_walk s vaulted = Some vl; ro_sidecar : fs_walk s sidecar = Some sl;
  ro_tmp : fs_walk s (sidecar_tmp_path sidecar) = Some tl;
  ro_path l : fs_walk s path = Some l -> l_dev l = l_dev vl }.

(** The other processes do what they like, but do not touch the vault nor move mounts. *)
Record outsiders : Prop := {
  out_routes n s : routes s -> routes (k_env K n s);
  out_vaulted n s : fs_names (k_env K n s) !! vl = fs_names s !! vl;
  out_exdev n : k_io K n (SRename path vaulted) <> Some EXDEV;
  out_places : vl <> sl /\ vl <> tl }.

Definition holding (k : Z * Z) (s : Fs) : Prop := routes s /\ fs_names s !! vl = Some k.

Context (out : outsiders).
Local Abbreviation T := (triple (fun _ => True)).

Lemma routes_stable : stable K routes.
Proof. intros n s. apply (out_routes out). Qed.

Lemma holding_stable k : stable K (holding k).
Proof. intros n s [Hr Hn]. split; [by apply (out_routes out)|by rewrite (out_vaulted out)]. Qed.

(** Calls keep the routes, and what the vault holds unless they change that name. *)
Lemma T_any {A} c (f : Fs -> Res A * Fs) (P : Fs -> Prop) :
  stable K P -> (forall s, P s -> P (f s).2) -> T P (sys K c f) (fun _ => P).
Proof. intros Hs Hf. by apply triple_sys. Qed.

Lemma T_write_any k b (P : Fs -> Prop) : stable K P -> (forall s b, P s -> P (do_write k b s).2) -> T P (write_all K k b) (fun _ => P).
Proof. intros Hs Hf. apply triple_write; try done; intros; by apply Hf. Qed.

Lemma T_loop_any {S A} (round : S -> File (S + A)) late x (P : Fs -> Prop) :
  (forall x, T P (round x) (fun _ => P)) -> T P (looping round late x) (fun _ => P).
Proof.
  intros Hr. eapply ftriple_weaken; [apply (triple_looping _ round late x (fun _ => P) (fun _ => P))|done|done]; [done|].
  intros y. eapply ftriple_weaken; [apply Hr|done|]. by intros [z|a] s Hs.
Qed.

Lemma walk_same {A} (f : Fs -> A * Fs) (s : Fs) : fs_walk (f s).2 = fs_walk s -> routes s -> routes (f s).2.
Proof. intros E [H1' H2' H3' H4']. by split; rewrite E. Qed.

Lemma walk_create kind m u g p s : fs_walk (do_create kind m u g p s).2 = fs_walk s.
Proof. unfold do_create. by repeat case_match. Qed.

Lemma walk_rename a b s : fs_walk (do_rename a b s).2 = fs_walk s.
Proof. unfold do_rename. by repeat case_match. Qed.

Lemma walk_remove p s : fs_walk (do_remove p s).2 = fs_walk s.
Proof. unfold do_remove. by repeat case_match. Qed.

Lemma walk_attr f p s : fs_walk (do_attr f p s).2 = fs_walk s.
Proof. unfold do_attr. by case_match. Qed.

(** *** Up to the move *)

Lemma T_routes_call {A} c (f : Fs -> Res A * Fs) : (forall s, fs_walk (f s).2 = fs_walk s) -> T routes (sys K c f) (fun _ => routes).
Proof. intros Hf. apply T_any; [apply routes_stable|]. intros s. by apply walk_same. Qed.

Lemma T_routes_ensure : T routes (ensure_vault K vault) (fun _ => routes).
Proof.
  unfold ensure_vault. eapply ftriple_bind; [by apply T_routes_call|]. intros [e|m]; [|by apply ftriple_ret].
  destruct e; try by apply ftriple_ret. eapply ftriple_bind; [apply T_routes_call; intros s; apply walk_create|].
  intros [e|x]; [by apply ftriple_ret|]. eapply ftriple_bind; [by apply T_routes_call|]. intros [e|m]; by apply ftriple_ret.
Qed.

(** What the checks establish of the file. *)
Definition requested (inode device : Z) (k : Z * Z) : Prop := k.2 = inode /\ encode_st_dev k.1 = device.

Lemma T_routes_checked inode device :
  T routes (checked_file K canonicalize errno_text vault path inode device)
    (fun r s => match r with inl _ => True | inr (k, m) => md_key m = k /\ requested inode device k end /\ routes s).
Proof.
  unfold checked_file. eapply ftriple_try with (R := fun _ => routes).
  { apply triple_map_err. eapply ftriple_weaken; [by apply T_routes_call|done|]. by intros [e|z0] s Hs. }
  intros [k l]. eapply ftriple_try with (R := fun m s => md_key m = k /\ routes s).
  { apply triple_map_err. eapply ftriple_weaken with (P' := routes) (Q' := fun r s =>
      match r with inl _ => True | inr m => md_key m = k end /\ routes s); [|done|by intros [e|m] s [Hm Hs]].
    apply triple_sys; [apply routes_stable|done|done|by intros n s e Hs _; split|].
    intros s Hs. split; [|done]. unfold do_fstat, meta_of. cbn [fst]. destruct (fs_inodes s !! k); by cbn. }
  intros m. apply triple_pure. intros Hm. destruct (negb _); [by apply ftriple_ret|].
  destruct (negb ((md_key m).2 =? inode) || _) eqn:Echk; [by apply ftriple_ret|].
  assert (requested inode device k) as Hreq.
  { rewrite Hm in Echk. apply orb_false_iff in Echk as [E1 E2]. apply negb_false_iff, Z.eqb_eq in E1, E2. done. }
  eapply ftriple_try with (R := fun _ => routes).
  { apply triple_map_err. eapply ftriple_weaken; [apply T_routes_ensure|done|]. by intros [e|z0] s Hs. }
  intros ?. eapply ftriple_try with (R := fun _ => routes).
  { apply triple_map_err. eapply ftriple_weaken; [by apply T_routes_call|done|]. by intros [e|z0] s Hs. }
  intros vm. destruct (same_file vm m); [by apply ftriple_ret|]. eapply ftriple_try with (R := fun _ => routes).
  { apply triple_map_err. eapply ftriple_weaken; [by apply T_routes_call|done|]. by intros [e|z0] s Hs. }
  intros real. eapply ftriple_try with (R := fun _ => routes).
  { apply triple_map_err. eapply ftriple_weaken; [by apply T_routes_call|done|]. by intros [e|z0] s Hs. }
  intros vr. destruct (starts_with real vr); by apply ftriple_ret.
Qed.

Lemma T_routes_write_sidecar car :
  T routes (write_sidecar K errno_text vault sidecar car true) (fun _ => routes).
Proof.
  unfold write_sidecar. destruct (to_vec car) as [json|]; [|by apply ftriple_ret].
  eapply ftriple_try with (R := fun _ => routes).
  { apply triple_map_err. eapply ftriple_weaken; [apply T_routes_call; intros s; apply walk_create|done|]. by intros [e|z0] s Hs. }
  intros x. eapply ftriple_try with (R := fun _ => routes).
  { apply triple_map_err. eapply ftriple_weaken; [apply T_write_any; [apply routes_stable|intros s b; by apply walk_same]|done|].
    by intros [e|z0] s Hs. }
  intros ?. apply triple_map_err. eapply ftriple_weaken; [by apply T_routes_call|done|]. by intros [e|z0] s Hs.
Qed.

Lemma T_any_fsync P : stable K P -> (forall k s, P s -> P (do_sync_dir k s).2) -> T P (fsync_dir K vault) (fun _ => P).
Proof.
  intros Hs Hp. unfold fsync_dir. eapply ftriple_bind; [by apply T_any|]. intros [e|x]; [by apply ftriple_ret|]. apply T_any; [done|].
  by intros s; apply Hp.
Qed.

(** *** The move *)

Lemma T_race_move k m : md_key m = k ->
  T routes (move_in K errno_text path vaulted sidecar k m)
    (fun r s => match r with inl _ => True | inr copied => copied = false /\ holding k s end).
Proof.
  intros Hm. unfold move_in.
  assert (forall e : ExecFailure, T routes (let! _ := remove_file K sidecar in fret (inl (B := bool) e))
            (fun r s => match r with inl _ => True | inr copied => copied = false /\ holding k s end)) as Herr.
  { intros e. eapply ftriple_bind; [apply T_routes_call; intros s; apply walk_remove|]. intros r. by apply ftriple_ret. }
  eapply ftriple_bind with (R := fun r s => (r <> inl EXDEV) /\ routes s).
  - apply triple_sys; [apply routes_stable|done|done| |].
    + intros n s e Hs He. split; [|done]. intros [= ->]. by apply (out_exdev out n).
    + intros s Hs. split; [|apply walk_same; [apply walk_rename|done]]. unfold do_rename.
      pose proof Hs as [-> _ _ Hp]. destruct (fs_walk s path) as [l|]; [|done]. rewrite (Hp l eq_refl), Z.eqb_refl. cbn [negb].
      destruct (fs_names s !! l); [|done]. by case_bool_decide.
  - intros [e|u].
    + apply triple_pure. intros He. destruct e; try apply Herr. done.
    + apply triple_pure. intros _. eapply ftriple_bind with (R := fun r s =>
        match r with inl _ => routes s | inr x => routes s /\ fs_names s !! vl = Some (md_key x) end).
      * apply triple_sys; [apply routes_stable|done|done|done|]. intros s Hs. unfold do_lstat, entry_at. cbn [fst snd].
        pose proof Hs as [-> _ _ _]. cbn. destruct (fs_names s !! vl) as [x|] eqn:E; cbn; [|done]. unfold meta_of.
        destruct (fs_inodes s !! x); cbn; [|done]. by split.
      * intros [e|x]; [apply Herr|]. unfold same_file. case_bool_decide as Ex.
        -- apply ftriple_ret. intros s [Hs Hn]. split; [done|]. split; [done|]. by rewrite Hn, Ex, Hm.
        -- eapply ftriple_weaken with (P' := routes); [|by intros s [Hs _]|intros r s Hs; exact Hs].
           eapply ftriple_bind; [apply T_routes_call; intros s; apply walk_rename|]. intros ?. apply Herr.
Qed.

(** *** After the move *)

Lemma T_holding_call {A} c k (f : Fs -> Res A * Fs) :
  (forall s, fs_walk (f s).2 = fs_walk s) -> (forall s, routes s -> fs_names (f s).2 !! vl = fs_names s !! vl) ->
  T (holding k) (sys K c f) (fun _ => holding k).
Proof.
  intros Hw Hn. apply T_any; [apply holding_stable|]. intros s [Hs Hv]. split; [by apply walk_same|by rewrite Hn].
Qed.

Lemma T_holding_remove k p l : (forall s, routes s -> fs_walk s p = Some l) -> vl <> l ->
  T (holding k) (remove_file K p) (fun _ => holding k).
Proof.
  intros Hp Hl. apply T_holding_call; [intros s; apply walk_remove|]. intros s Hs. unfold do_remove. rewrite (Hp s Hs).
  destruct (fs_names s !! l); cbn; [|done]. by rewrite lookup_delete_ne.
Qed.

Lemma T_holding_replace k json : T (holding k) (replace_sidecar K errno_text vault sidecar json) (fun _ => holding k).
Proof.
  unfold replace_sidecar. set (tmp := sidecar_tmp_path sidecar).
  assert (forall s, routes s -> fs_walk s tmp = Some tl) as Htmp by apply ro_tmp. pose proof (out_places out) as [Nsl Ntl].
  assert (T (holding k) (remove_file K tmp) (fun _ => holding k)) as Hrm by (apply (T_holding_remove k tmp tl); [apply ro_tmp|done]).
  assert (forall e : ExecFailure, T (holding k) (let! _ := remove_file K tmp in fret (inl (B := unit) e)) (fun _ => holding k)) as Herr.
  { intros e. eapply ftriple_bind; [apply Hrm|]. intros ?. by apply ftriple_ret. }
  eapply ftriple_bind; [apply Hrm|]. intros ?. eapply ftriple_bind with (R := fun _ => holding k).
  - eapply ftriple_bind.
    + apply T_holding_call; [intros s; apply walk_create|]. intros s Hs. unfold do_create. rewrite (Htmp s Hs).
      destruct (fs_names s !! tl); cbn; [done|]. by rewrite lookup_insert_ne.
    + intros [e|x]; [by apply ftriple_ret|]. eapply ftriple_bind; [apply T_write_any; [apply holding_stable|]|].
      * intros s b [Hs Hn]. split; [by apply walk_same|done].
      * intros [e|u]; [by apply ftriple_ret|]. by apply T_holding_call.
  - intros [e|u]; [apply Herr|]. eapply ftriple_bind.
    + apply T_holding_call; [intros s; apply walk_rename|]. intros s Hs. unfold do_rename.
      rewrite (Htmp s Hs), (ro_sidecar s Hs). destruct (negb _); [done|]. destruct (fs_names s !! tl); [|done].
      case_bool_decide; [done|]. cbn. by rewrite lookup_insert_ne, lookup_delete_ne.
    + intros [e|u']; [apply Herr|]. apply triple_map_err. eapply ftriple_weaken; [apply T_any_fsync|done|by intros [e|z0] s Hs].
      * apply holding_stable.
      * intros d s [Hs Hn]. split; [by apply walk_same|done].
Qed.

Lemma T_race_finalise k car :
  T (holding k) (finalise K errno_text vault path vaulted sidecar car false)
    (fun r s => match r with inl _ => True | inr _ => holding k s end).
Proof.
  unfold finalise. cbv zeta. eapply ftriple_bind with (R := fun _ => holding k).
  - apply triple_map_err. eapply ftriple_weaken with (P' := holding k) (Q' := fun _ => holding k); [|done|by intros [e|z0] s Hs].
    eapply ftriple_bind with (R := fun _ => holding k); [by apply T_holding_call|]. intros [e|x]; [by apply ftriple_ret|].
    apply T_loop_any. intros h. unfold hash_round. eapply ftriple_bind; [by apply T_holding_call|].
    intros [e|c]; by apply ftriple_ret.
  - intros r. assert (forall rm e, T (holding k) (let! _ := undo K path vaulted sidecar (car_mode car) false rm in fret (inl e))
      (fun (r : ExecFailure + string) s => match r with inl _ => True | inr _ => holding k s end)) as Hundo.
    { intros rm e. eapply ftriple_bind with (R := fun _ _ => True); [|intros ?; by apply ftriple_ret].
      intros w _ Hw. split; [done|]. by apply Forall_forall. }
    destruct r as [e|sha]; [apply Hundo|]. eapply ftriple_bind.
    + apply T_holding_call; [intros s; apply walk_attr|]. intros s _. unfold do_attr. by case_match.
    + intros [e|u]; [apply Hundo|]. eapply ftriple_bind with (R := fun _ => holding k).
      * unfold write_sidecar. destruct (to_vec _); [apply T_holding_replace|by apply ftriple_ret].
      * intros [e|u']; [apply Hundo|by apply ftriple_ret].
Qed.

Lemma T_race inode device :
  T routes (quarantine_file K canonicalize errno_text vault path inode device false)
    (fun r s => match r with inl _ => True | inr _ => exists k, requested inode device k /\ fs_names s !! vl = Some k end).
Proof.
  unfold quarantine_file. eapply ftriple_try with (R := fun a s => (md_key a.2 = a.1 /\ requested inode device a.1) /\ routes s).
  { eapply ftriple_weaken; [apply T_routes_checked|done|]. by intros [e|[k m]] s [Hr Hs]. }
  intros [k m]. apply triple_pure. cbn [fst snd]. intros [Hm Hreq].
  destruct (vault_paths vault (k_id K)) as [v sc] eqn:Ep.
  assert (v = vaulted) as -> by (unfold vaulted_path; by rewrite Ep).
  assert (sc = sidecar) as -> by (unfold sidecar_path; by rewrite Ep).
  eapply ftriple_try with (R := fun _ => routes).
  { eapply ftriple_weaken; [apply T_routes_write_sidecar|done|]. by intros [e|u] s Hs. }
  intros ?. eapply ftriple_bind with (R := fun _ => routes).
  { apply T_any_fsync; [apply routes_stable|]. intros d s. by apply walk_same. }
  intros [e|u].
  { eapply ftriple_bind; [apply T_routes_call; intros s; apply walk_remove|]. intros ?. by apply ftriple_ret. }
  eapply ftriple_try with (R := fun copied s => copied = false /\ holding k s).
  { eapply ftriple_weaken; [by apply T_race_move|done|]. by intros [e|copied] s Hs. }
  intros copied. apply triple_pure. intros ->. eapply ftriple_try with (R := fun _ => holding k).
  { eapply ftriple_weaken; [apply T_race_finalise|done|]. by intros [e|sha] s Hs. }
  intros sha. eapply ftriple_try with (R := fun _ => holding k); [by apply ftriple_ret|].
  intros ?. apply ftriple_ret. intros s [_ Hn]. by exists k.
Qed.
End Race.

(** C9. A quarantine takes the file it was told to.  Whatever other processes do between any two
    calls, renaming, replacing and linking at the path, changing what it leads to and writing to
    the file, as long as they leave the vault alone, and whatever calls fail: when the path is,
    and stays, on the vault's device (so the file is moved by a rename and not copied) and a
    quarantine succeeds, the vault holds, under the id, the very inode of the
    very device that the command named. *)
Theorem quarantine_takes_named_file `{UuidText} `{HexCodec} `{Sha256} `{!Serde Sidecar} K canonicalize errno_text vault path
    vl sl tl inode device w d w' :
  outsiders K vault path vl sl tl -> routes K vault path vl sl tl (w_fs w) -> w_seen w = [] ->
  quarantine_file K canonicalize errno_text vault path inode device false w = (inr d, w') ->
  exists k, k.2 = inode /\ encode_st_dev k.1 = device /\ fs_names (w_fs w') !! vl = Some k.
Proof.
  intros Hout Hr Hw Eq. destruct (T_race K canonicalize errno_text vault path vl sl tl Hout inode device w Hr) as [Hq _]; [by rewrite Hw|].
  rewrite Eq in Hq. destruct Hq as (k & [Hi Hd] & Hn). by exists k.
Qed.

(** ** Example: another process keeps putting a new file at the path. *)

Section Examples.
Local Existing Instance concrete_uuid.
Local Existing Instance concrete_hex.
Local Existing Instance concrete_sha256.
#[local] Instance race_serde : Serde Sidecar := evil_serde.

Definition racing : Kernel :=
  {| k_io := no_fault; k_torn := fun _ => 0%nat; k_env := new_file_env; k_fd := fun _ _ l => l_path l; k_uid := 0; k_gid := 0;
     k_now_ms := 77; k_id := 9 |}.

Lemma racing_outsiders :
  outsiders racing "/v" "/t/x" (loc_of evil_vaulted) (loc_of evil_sidecar) (loc_of (sidecar_tmp_path evil_sidecar)).
Proof.
  assert (loc_of "/t/x" <> loc_of evil_vaulted) as Hne by (apply (bool_decide_eq_true_1 _); vm_compute; reflexivity).
  split.
  - intros n s [H1 H2 H3 H4]. cbn. unfold new_file_env. case_bool_decide; by split.
  - intros n s. cbn. unfold new_file_env. case_bool_decide; [|done]. cbn [fs_names]. by rewrite lookup_insert_ne.
  - done.
  - split; apply (bool_decide_eq_true_1 _); vm_compute; reflexivity.
Qed.

Lemma racing_routes :
  routes racing "/v" "/t/x" (loc_of evil_vaulted) (loc_of evil_sidecar) (loc_of (sidecar_tmp_path evil_sidecar)) evil_fs.
Proof. split; try done. by intros l [= <-]. Qed.

Lemma quarantine_takes_named_file_witness :
  (exists d, (evil_run racing).1 = inr d)
  /\ exists k, k.2 = 10 /\ encode_st_dev k.1 = encode_st_dev 1 /\ fs_names (w_fs (evil_run racing).2) !! loc_of evil_vaulted = Some k.
Proof.
  assert (exists d, (evil_run racing).1 = inr d) as (d & Hd) by (eexists; vm_compute; reflexivity).
  split; [exact (ex_intro _ d Hd)|].
  exact (quarantine_takes_named_file racing (fun p => Some p) (fun _ => "error") "/v" "/t/x" _ _ _ 10 (encode_st_dev 1)
    (start evil_fs) d (evil_run racing).2 racing_outsiders racing_routes eq_refl (pair_with (evil_run racing) (inr d) Hd)).
Defined.
End Examples.
