(* ===== verification/LinuxExec.v ===== *)
(** * The agent's executor on Linux: [crates/osiris-agent/src/linux_exec.rs]

    What it reads from /proc, how it ends a process, and the executor the command runner calls,
    with the file operations of [Vault].  Each read of /proc sees the system at its own moment:
    processes end, start and change in between. *)

From S2P Require Import Prelude BTree Concrete Json Schema Policy Envelope Replay Guard FileUtil ProcAudit StoreConcrete Posix Vault.

(** ** Reading /proc *)

Record StatInfo := { st_state : char; st_ppid : Z; starttime_ticks : Z }.

Definition rparen : byte := Byte.x29.

(** Fields are counted from the last closing parenthesis: the name before it may hold anything. *)
Definition parse_stat (s : list byte) : option StatInfo :=
  '(_, rest) ← rsplit_once rparen s;
  let fields := split_whitespace (utf8_decode rest) in
  state ← fields !! 0%nat ≫= head;
  ppid ← fields !! 1%nat ≫= fun f => parse_uint_bytes 32 (word_bytes f);
  ticks ← fields !! 19%nat ≫= fun f => parse_uint_bytes 64 (word_bytes f);
  Some {| st_state := state; st_ppid := ppid; starttime_ticks := ticks |}.

Definition parse_btime (proc_stat : list byte) : option Z :=
  rest ← head (omap (strip_prefix (bytes_of "btime ")) (str_lines proc_stat));
  parse_uint_bytes 64 (word_bytes (trim_chars (utf8_decode rest))).

Definition start_ns (btime_s ticks clk_tck : Z) : option Z :=
  if clk_tck =? 0 then None
  else
    let boot := btime_s * 1000000000 in
    if 2 ^ 64 <=? boot then None
    else
      let sum := boot + (ticks * 1000000000 / clk_tck) mod 2 ^ 64 in
      if 2 ^ 64 <=? sum then None else Some sum.

Definition normalize_exe_link (link : string) : string * bool :=
  match strip_suffix (bytes_of " (deleted)") (bytes_of link) with
  | Some p => (of_bytes p, true)
  | None => (link, false)
  end.

(** At most 64 hops up, stopping at 0, at a failure and at a cycle. *)
Fixpoint ancestors_loop (ppid_of : Z -> option Z) (pid : Z) (n : nat) (cur : Z) (out : list Z) : list Z :=
  match n with
  | O => out
  | S n =>
      match ppid_of cur with
      | Some p => if negb (p =? 0) && negb (existsb (Z.eqb p) out) && negb (p =? pid)
                  then ancestors_loop ppid_of pid n p (out ++ [p]) else out
      | None => out
      end
  end.

Definition ancestors_from (pid : Z) (ppid_of : Z -> option Z) : list Z := ancestors_loop ppid_of pid 64 pid [].

(** ** Processes *)

Inductive Signal := SIGTERM | SIGKILL.

#[global] Instance signal_eq_dec : EqDecision Signal.
Proof. solve_decision. Defined.

(** What /proc/<pid> shows at a moment: whether it is there, its stat file, its exe link. *)
Record ProcView := { pv_exists : bool; pv_stat : option (list byte); pv_exe : option (list byte) }.

Inductive KillError := ESRCH | KillOther (text : string).

(** The system from moment to moment; [pk_late]: five seconds of waiting are over. *)
Record ProcKernel := {
  pk_view : nat -> Z -> ProcView; pk_boot : nat -> option (list byte); pk_clk : Z;
  pk_kill : nat -> Z -> Signal -> option KillError; pk_late : nat -> bool }.

(** The moment, the rounds left before the deadline, and the signals sent, with their moments. *)
Record PWorld := { pw_tick : nat; pw_budget : nat; pw_sent : list (nat * Z * Signal) }.

Definition Proc (A : Type) : Type := PWorld -> (ExecFailure + A) * PWorld.

Definition pret {A} (a : A) : Proc A := fun w => (inr a, w).
Definition pfail {A} (code : FailCode) (message : string) : Proc A := fun w => (inl (fail code message), w).
Definition pbind {A B} (m : Proc A) (f : A -> Proc B) : Proc B :=
  fun w => let '(r, w) := m w in match r with inl e => (inl e, w) | inr a => f a w end.

Declare Scope proc_scope.
Delimit Scope proc_scope with proc.
Notation "'proc!' x ':=' m 'in' k" := (pbind m (fun x => k)) (at level 200, x name, right associativity) : proc_scope.
Open Scope proc_scope.

Section Processes.
Context (PK : ProcKernel).

(** One look at the system. *)
Definition at_moment {A} (f : nat -> A) : Proc A :=
  fun w => (inr (f (pw_tick w)), {| pw_tick := S (pw_tick w); pw_budget := pw_budget w; pw_sent := pw_sent w |}).

(** [read_to_string] wants UTF-8. *)
Definition readable_stat (v : ProcView) : option StatInfo :=
  s ← pv_stat v; if utf8_valid s then parse_stat s else None.

Definition read_stat (pid : Z) : Proc (option StatInfo) := at_moment (fun n => readable_stat (pk_view PK n pid)).

Record Ident := { id_exe : string; id_deleted : bool; id_start_ns : Z; id_ticks : Z }.

Definition unverifiable {A} (pid : Z) (what : string) : Proc A :=
  pfail Unverifiable ("pid " +:+ dec_string pid +:+ ": " +:+ what).

Definition or_else {A} (o : option A) (m : Proc A) : Proc A := match o with Some a => pret a | None => m end.

Definition NO_EXE : string := "no exe link (kernel thread or unreadable)".

Definition boot_time (text : option (list byte)) : option Z :=
  s ← text; if utf8_valid s then parse_btime s else None.

Definition read_identity (pid : Z) : Proc Ident :=
  proc! there := at_moment (fun n => pv_exists (pk_view PK n pid)) in
  if negb there then pfail NotFound ("no process " +:+ dec_string pid)
  else
    proc! stat := read_stat pid in
    proc! stat := or_else stat (unverifiable pid "stat unreadable") in
    proc! link := at_moment (fun n => pv_exe (pk_view PK n pid)) in
    proc! link := or_else link (unverifiable pid NO_EXE) in
    if bool_decide (link = []) then unverifiable pid NO_EXE
    else
      let '(exe, deleted) := normalize_exe_link (from_utf8_lossy link) in
      proc! boot := at_moment (fun n => boot_time (pk_boot PK n)) in
      proc! boot := or_else boot (unverifiable pid "boot time unreadable") in
      proc! start := or_else (start_ns boot (starttime_ticks stat) (pk_clk PK)) (unverifiable pid "start time not computable") in
      pret {| id_exe := exe; id_deleted := deleted; id_start_ns := start; id_ticks := starttime_ticks stat |}.

Definition verify_identity (pid : Z) (exe_path : string) (observed : Z) : Proc Ident :=
  proc! id := read_identity pid in
  if negb (id_exe id =? exe_path)%string
  then pfail TargetChanged ("pid " +:+ dec_string pid +:+ " runs " +:+ id_exe id +:+ " not " +:+ exe_path)
  else if negb (process_started_by (id_start_ns id) observed)
  then pfail TargetChanged ("pid " +:+ dec_string pid +:+ " started after the observation")
  else pret id.

(** Gone, a zombie, or another process under the pid. *)
Definition stat_exited (s : option StatInfo) (ticks : Z) : bool :=
  match s with
  | Some s => bool_decide (st_state s = 90) || bool_decide (st_state s = 88) || negb (starttime_ticks s =? ticks)
  | None => true
  end.

Definition exited (pid ticks : Z) : Proc bool := proc! s := read_stat pid in pret (stat_exited s ticks).

Definition cancelled : Proc bool := fun w =>
  match pw_budget w with
  | O => (inr true, w)
  | S b => (inr false, {| pw_tick := pw_tick w; pw_budget := b; pw_sent := pw_sent w |})
  end.

(** A poll each 50 ms; after [n] more the five seconds are over in any case. *)
Fixpoint wait_loop (pid ticks : Z) (n : nat) : Proc bool :=
  proc! gone := exited pid ticks in
  if gone then pret true
  else
    proc! out := cancelled in
    if out then pfail Io "timed out"
    else
      proc! late := at_moment (pk_late PK) in
      match n with
      | O => pret false
      | S n => if late then pret false else wait_loop pid ticks n
      end.

Definition POLLS : nat := 100.

Definition wait_exit (pid ticks : Z) : Proc bool := wait_loop pid ticks POLLS.

(** [kill(2)]; pids are [i32] there. *)
Definition send_signal (pid : Z) (sig : Signal) : Proc unit := fun w =>
  if 2 ^ 31 <=? pid then (inl (fail Unverifiable "pid out of range"), w)
  else
    let w' := {| pw_tick := S (pw_tick w); pw_budget := pw_budget w; pw_sent := pw_sent w ++ [(pw_tick w, pid, sig)] |} in
    match pk_kill PK (pw_tick w) pid sig with
    | None => (inr tt, w')
    | Some ESRCH => (inl (fail NotFound "process vanished"), w')
    | Some (KillOther e) => (inl (fail Io ("kill failed: " +:+ e)), w')
    end.

(** Whether a failure is [NotFound]: the process went away by itself. *)
Definition or_vanished {A} (m : Proc A) : Proc (option A) := fun w =>
  let '(r, w) := m w in
  match r with
  | inr a => (inr (Some a), w)
  | inl e => match fail_code e with NotFound => (inr None, w) | _ => (inl e, w) end
  end.

Definition protected_pid_failure (protected : ProtectedTargets) (pid : Z) : option ExecFailure :=
  match check_pid protected pid with
  | Err r => Some (fail TargetChanged ("protected: " +:+ refusal_text r))
  | _ => None
  end.

(** After the SIGTERM: wait, and prove it is the same process before the hard kill. *)
Definition hard_kill (pid : Z) (exe_path : string) (observed_at_ns ticks : Z) (note : string) : Proc ExecDetail :=
  let terminated := pret (detail ("terminated pid " +:+ dec_string pid +:+ note) None None (Some "SIGTERM")) in
  proc! gone := wait_exit pid ticks in
  if gone then terminated
  else
    proc! same := or_vanished (verify_identity pid exe_path observed_at_ns) in
    match same with
    | None => terminated
    | Some _ =>
        proc! killed := or_vanished (send_signal pid SIGKILL) in
        match killed with
        | None => terminated
        | Some _ =>
            proc! gone := wait_exit pid ticks in
            if gone then pret (detail ("killed pid " +:+ dec_string pid +:+ note) None None (Some "SIGKILL"))
            else pfail Io ("pid " +:+ dec_string pid +:+ " survived SIGKILL")
        end
    end.

Definition terminate_process (protected : ProtectedTargets) (pid : Z) (exe_path : string) (observed_at_ns : Z) (dry_run : bool)
  : Proc ExecDetail :=
  if pid =? 0 then pfail Unverifiable "pid 0"
  else
    match protected_pid_failure protected pid with
    | Some e => fun w => (inl e, w)
    | None =>
        proc! id := verify_identity pid exe_path observed_at_ns in
        let note := if id_deleted id then " (binary was deleted from disk)" else "" in
        if dry_run then pret (detail ("terminate pid " +:+ dec_string pid +:+ " (" +:+ exe_path +:+ ")" +:+ note) None None None)
        else
          proc! _ := send_signal pid SIGTERM in
          hard_kill pid exe_path observed_at_ns (id_ticks id) note
    end.
End Processes.

(** ** The executor *)

Section Executor.
Context `{UuidText} `{HexCodec} `{Sha256} `{!Serde Sidecar}.
Context (K : Kernel) (PK : ProcKernel) (canonicalize : list byte -> option (list byte)) (errno_text : Errno -> string).

(** [budget] counts the rounds of the loops that fit the time. *)
Record LinuxExecutor := { x_vault : string; x_protected : ProtectedTargets; x_budget : nat }.

Definition outcome_of {A B} (r : A + B) : B + A := match r with inl a => inr a | inr b => inl b end.

Definition file_command (x : LinuxExecutor) (m : File (ExecFailure + ExecDetail)) (s : World * PWorld)
  : (ExecDetail + ExecFailure) * (World * PWorld) :=
  let w := {| w_fs := w_fs s.1; w_tick := w_tick s.1; w_budget := x_budget x; w_seen := w_seen s.1 |} in
  let '(r, w) := m w in (outcome_of r, (w, s.2)).

Definition linux_executor (x : LinuxExecutor) : ActionExecutor (World * PWorld) := {|
  terminate := fun s pid exe obs dry =>
    let w := {| pw_tick := pw_tick s.2; pw_budget := x_budget x; pw_sent := pw_sent s.2 |} in
    let '(r, w) := terminate_process PK (x_protected x) pid exe obs dry w in (outcome_of r, (s.1, w));
  quarantine := fun s path inode device dry =>
    file_command x (quarantine_file K canonicalize errno_text (x_vault x) path inode device dry) s;
  restore := fun s id dry =>
    file_command x (restore_file K canonicalize errno_text (x_vault x) (x_protected x) id dry) s;
  apply_policy := default_apply_policy |}.
End Executor.

(** Elsewhere commands cannot be executed. *)
Definition unsupported {S} (s : S) : (ExecDetail + ExecFailure) * S := (inr (fail Unsupported "unsupported platform"), s).

Definition UnsupportedExecutor {S} : ActionExecutor S := {|
  terminate := fun s _ _ _ _ => unsupported s; quarantine := fun s _ _ _ _ => unsupported s;
  restore := fun s _ _ => unsupported s; apply_policy := default_apply_policy |}.

(** ** Theorems *)

(** *** The signals *)

Section Signals.
Context (PK : ProcKernel).

(** Four looks at a process from moment [n] on that show it to be the one meant. *)
Record Shown (pid : Z) (exe : string) (observed ticks : Z) (n : nat) : Prop := {
  shown_there : pv_exists (pk_view PK n pid) = true;
  shown_id : exists st link boot start,
    readable_stat (pk_view PK (S n) pid) = Some st /\ starttime_ticks st = ticks
    /\ pv_exe (pk_view PK (S (S n)) pid) = Some link
    /\ (normalize_exe_link (from_utf8_lossy link)).1 = exe
    /\ boot_time (pk_boot PK (S (S (S n)))) = Some boot
    /\ start_ns boot ticks (pk_clk PK) = Some start /\ process_started_by start observed = true }.

(** A look at moment [n] that did not show the process with the start time [ticks] alive: it has no entry in
    /proc, its stat file names another start time or the state of a dead process (Z or X), or could not be
    read; or the kernel knows no such process. *)
Definition seen_gone (pid ticks : Z) (n : nat) : Prop :=
  pv_exists (pk_view PK n pid) = false \/ pk_kill PK n pid SIGKILL = Some ESRCH
  \/ forall st, readable_stat (pk_view PK n pid) = Some st -> st_state st = 90 \/ st_state st = 88 \/ starttime_ticks st <> ticks.

Lemma stat_exited_gone pid ticks n : stat_exited (readable_stat (pk_view PK n pid)) ticks = true -> seen_gone pid ticks n.
Proof.
  intros Hx. right; right. intros st Hst. rewrite Hst in Hx. simpl in Hx.
  apply orb_true_iff in Hx as [[Hx|Hx]%orb_true_iff|Hx]; [left; by apply bool_decide_eq_true_1 in Hx
    |right; left; by apply bool_decide_eq_true_1 in Hx|right; right; lia].
Qed.

Lemma verify_identity_spec pid exe observed w :
  let '(r, w') := verify_identity PK pid exe observed w in
  pw_sent w' = pw_sent w /\ (pw_tick w < pw_tick w')%nat
  /\ match r with
     | inr id => pw_tick w' = (pw_tick w + 4)%nat /\ Shown pid exe observed (id_ticks id) (pw_tick w)
     | inl e => fail_code e = NotFound -> pv_exists (pk_view PK (pw_tick w) pid) = false
     end.
Proof.
  unfold verify_identity, read_identity, read_stat, unverifiable, pbind, pret, pfail, or_else, at_moment; simpl.
  destruct (pv_exists _) eqn:He; simpl; [|by repeat split; lia].
  destruct (readable_stat _) as [st|] eqn:Hs; simpl; [|by repeat split; try lia].
  destruct (pv_exe _) as [link|] eqn:Hl; simpl; [|by repeat split; try lia].
  case_bool_decide; simpl; [by repeat split; try lia|].
  destruct (normalize_exe_link _) as [x del] eqn:Hn; simpl.
  destruct (boot_time _) as [boot|] eqn:Hb; simpl; [|by repeat split; try lia].
  destruct (start_ns _ _ _) as [start|] eqn:Ht; simpl; [|by repeat split; try lia].
  destruct (x =? exe)%string eqn:Hx; simpl; [|by repeat split; try lia].
  destruct (process_started_by _ _) eqn:Hp; simpl; [|by repeat split; try lia].
  apply String.eqb_eq in Hx. repeat split; try lia; [done|].
  exists st, link, boot, start. by rewrite Hn.
Qed.

Lemma wait_loop_spec pid ticks n w :
  let '(r, w') := wait_loop PK pid ticks n w in
  pw_sent w' = pw_sent w /\ (pw_tick w <= pw_tick w')%nat
  /\ match r with
     | inr true => exists m, (pw_tick w <= m)%nat /\ seen_gone pid ticks m
     | inr false => True
     | inl e => fail_code e = Io
     end.
Proof.
  revert w; induction n as [|n IH]; intros w;
    simpl; unfold exited, read_stat, cancelled, at_moment, pbind, pret, pfail; simpl;
    destruct (stat_exited _ _) eqn:Hx; simpl;
    try (by split_and!; [done|lia|exists (pw_tick w); split; [lia|by apply stat_exited_gone]]);
    destruct (pw_budget w) as [|b]; simpl; try (by split_and!; [done|lia|]).
  destruct (pk_late _ _); simpl; [by split_and!; [done|lia|]|].
  match goal with |- context [wait_loop PK pid ticks n ?v] => specialize (IH v); destruct (wait_loop PK pid ticks n v) as [r w'] end.
  simpl in IH. destruct IH as (H1 & H2 & H3). split_and!; [done|lia|].
  destruct r as [e|[]]; [done| |done]. destruct H3 as (m & Hm & H). exists m. split; [lia|done].
Qed.

Lemma send_signal_spec pid sig w :
  let '(r, w') := send_signal PK pid sig w in
  if 2 ^ 31 <=? pid then w' = w /\ exists e, r = inl e
  else pw_sent w' = pw_sent w ++ [(pw_tick w, pid, sig)] /\ pw_tick w' = S (pw_tick w)
       /\ match r with
          | inr _ => pk_kill PK (pw_tick w) pid sig = None
          | inl e => fail_code e = NotFound -> pk_kill PK (pw_tick w) pid sig = Some ESRCH
          end.
Proof.
  unfold send_signal. destruct (_ <=? _); [by eauto|].
  destruct (pk_kill _ _ _ _) as [[|t]|] eqn:Hk; simpl; by split_and!.
Qed.

(** Never a protected process, nor one outside the range of a [pid_t]. *)
Lemma protected_none protected pid :
  protected_pid_failure protected pid = None ->
  pid ∉ 1 :: agent_pid protected :: extra_pids protected.
Proof.
  unfold protected_pid_failure, check_pid.
  destruct (_ || _ || _) eqn:H; [done|]. intros _.
  apply orb_false_iff in H as [[H1 H2]%orb_false_iff H3]. rewrite !not_elem_of_cons.
  split_and!; [lia|lia|]. intros Hin. rewrite <- not_true_iff_false in H3. apply H3, existsb_exists.
  exists pid. split; [by apply list_elem_of_In in Hin|lia].
Qed.

(** What a run leaves: the signals it sent, each justified, and what a success rests on. *)
Definition well_sent (protected : ProtectedTargets) (pid : Z) (exe : string) (observed : Z) (dry : bool)
  (sent : list (nat * Z * Signal)) : Prop :=
  map snd sent `prefix_of` [SIGTERM; SIGKILL]
  /\ forall n p s, (n, p, s) ∈ sent ->
     p = pid /\ dry = false /\ pid <> 0 /\ pid < 2 ^ 31 /\ pid ∉ 1 :: agent_pid protected :: extra_pids protected
     /\ exists m ticks, n = (m + 4)%nat /\ Shown pid exe observed ticks m
        /\ (s = SIGKILL -> exists k, (k < m)%nat /\ (k, pid, SIGTERM) ∈ sent).

Lemma well_sent_none protected pid exe observed dry : well_sent protected pid exe observed dry [].
Proof. split; [apply prefix_nil|]. by intros ??? ?%not_elem_of_nil. Qed.

Section Target.
Context (protected : ProtectedTargets) (pid : Z) (exe : string) (observed : Z).
Hypotheses (Hpid : pid <> 0) (Hmax : pid < 2 ^ 31) (Hfree : pid ∉ 1 :: agent_pid protected :: extra_pids protected).

Lemma well_sent_term m ticks :
  Shown pid exe observed ticks m -> well_sent protected pid exe observed false [(m + 4, pid, SIGTERM)%nat].
Proof.
  intros Hm. split; [apply (prefix_app_r _ [_]), reflexivity|].
  intros n p s Hin%list_elem_of_singleton. simplify_eq. split_and!; [done..|].
  by exists m, ticks.
Qed.

Lemma well_sent_kill m ticks m' ticks' :
  Shown pid exe observed ticks m -> Shown pid exe observed ticks' m' -> (m + 4 < m')%nat ->
  well_sent protected pid exe observed false [(m + 4, pid, SIGTERM)%nat; (m' + 4, pid, SIGKILL)%nat].
Proof.
  intros Hm Hm' Hlt. split; [done|].
  intros n p s [?|Hin%list_elem_of_singleton]%elem_of_cons; simplify_eq; (split_and!; [done..|]).
  - by exists m, ticks.
  - exists m', ticks'. split_and!; [done..|]. exists (m + 4)%nat. split; [lia|left].
Qed.
End Target.

Lemma wait_exit_spec pid ticks w :
  let '(r, w') := wait_exit PK pid ticks w in
  pw_sent w' = pw_sent w /\ (pw_tick w <= pw_tick w')%nat
  /\ match r with
     | inr true => exists m, (pw_tick w <= m)%nat /\ seen_gone pid ticks m
     | inr false => True
     | inl e => fail_code e = Io
     end.
Proof. apply wait_loop_spec. Qed.

Lemma or_vanished_spec {A} (m : Proc A) w :
  or_vanished m w = (match (m w).1 with
                     | inr a => inr (Some a)
                     | inl e => match fail_code e with NotFound => inr None | _ => inl e end
                     end, (m w).2).
Proof. unfold or_vanished. by destruct (m w) as [[[[] t]|a] w']. Qed.
Lemma after_term protected pid exe observed m ticks note w r w' :
  pid <> 0 -> pid < 2 ^ 31 -> pid ∉ 1 :: agent_pid protected :: extra_pids protected ->
  Shown pid exe observed ticks m -> pw_sent w = [(m + 4, pid, SIGTERM)%nat] -> (m + 4 < pw_tick w)%nat ->
  hard_kill PK pid exe observed ticks note w = (r, w') ->
  well_sent protected pid exe observed false (pw_sent w')
  /\ forall d, r = inr d ->
     exists ticks n m, (n + 4, pid, SIGTERM)%nat ∈ pw_sent w' /\ Shown pid exe observed ticks n
       /\ (n + 4 < m)%nat /\ seen_gone pid ticks m.
Proof.
  intros Hpid Hmax Hfree Hm Hs Hlt. unfold hard_kill, pbind.
  pose proof (well_sent_term protected pid exe observed Hpid Hmax Hfree _ _ Hm) as HT.
  pose proof (wait_exit_spec pid ticks w) as H1.
  destruct (wait_exit _ _ _ w) as [[e|[]] w1]; destruct H1 as (E1 & L1 & H1); rewrite Hs in E1;
    [by intros [= <- <-]; rewrite E1| |].
  { destruct H1 as (n & Hn & Hg). intros [= <- <-]. rewrite E1. split; [done|]. intros _ _.
    exists ticks, m, n. split_and!; [left|done|lia|done]. }
  rewrite or_vanished_spec. pose proof (verify_identity_spec pid exe observed w1) as H2.
  destruct (verify_identity _ _ _ _ w1) as [[e|id] w2]; destruct H2 as (E2 & L2 & H2); rewrite E1 in E2; cbn [fst snd].
  { destruct (fail_code e) eqn:Hc; try by (intros [= <- <-]; rewrite E2).
    intros [= <- <-]. rewrite E2. split; [done|]. intros _ _.
    exists ticks, m, (pw_tick w1). split_and!; [left|done|lia|left; auto]. }
  destruct H2 as [T2 S2]. rewrite or_vanished_spec.
  pose proof (send_signal_spec pid SIGKILL w2) as H3.
  destruct (send_signal _ _ _ w2) as [r3 w3], (2 ^ 31 <=? pid) eqn:Hr; [lia|].
  destruct H3 as (E3 & T3 & H3). rewrite E2, T2 in E3; simpl in E3.
  assert (HK : well_sent protected pid exe observed false (pw_sent w3)).
  { rewrite E3. apply (well_sent_kill protected pid exe observed Hpid Hmax Hfree m ticks _ (id_ticks id)); [done..|lia]. }
  destruct r3 as [e|[]]; cbn [fst snd].
  { destruct (fail_code e) eqn:Hc; try by intros [= <- <-].
    intros [= <- <-]. split; [done|]. intros _ _.
    exists ticks, m, (pw_tick w2). rewrite E3. split_and!; [left|done|lia|right; left; auto]. }
  pose proof (wait_exit_spec pid ticks w3) as H4.
  destruct (wait_exit _ _ _ w3) as [[e|[]] w4]; destruct H4 as (E4 & L4 & H4); rewrite <- E4 in HK;
    [by intros [= <- <-]| |by intros [= <- <-]].
  destruct H4 as (n & Hn & Hg). intros [= <- <-]. split; [done|]. intros _ _.
  exists ticks, m, n. rewrite E4, E3. split_and!; [left|done|lia|done].
Qed.

(** C10. Whatever the system does between two looks, one run of [terminate] sends SIGTERM once at most and
    SIGKILL once at most after it, only to the process named: never to pid 0 or 1, the agent or one of its
    protected processes, never in a dry run, and each directly after four looks that showed the executable
    and a start time no later than the observation allows.  A success that is not a dry run comes after the
    SIGTERM and after a look at which this process was not shown alive: no entry in /proc or no such process
    for the kernel, a dead state, another start time, or a stat file that could not be read (which a live
    process can bring about: [unreadable_name_counts_as_exit]). *)
Theorem terminate_signals_target_only protected pid exe observed dry w r w' :
  pw_sent w = [] ->
  terminate_process PK protected pid exe observed dry w = (r, w') ->
  well_sent protected pid exe observed dry (pw_sent w')
  /\ forall d, r = inr d ->
     if dry then pw_sent w' = []
     else exists ticks n m, (n + 4, pid, SIGTERM)%nat ∈ pw_sent w' /\ Shown pid exe observed ticks n
          /\ (n + 4 < m)%nat /\ seen_gone pid ticks m.
Proof.
  intros Hw. unfold terminate_process.
  destruct (pid =? 0) eqn:H0; [intros [= <- <-]; rewrite Hw; split; [apply well_sent_none|done]|].
  destruct (protected_pid_failure _ _) eqn:Hp;
    [intros [= <- <-]; rewrite Hw; split; [apply well_sent_none|done]|].
  apply protected_none in Hp. unfold pbind.
  pose proof (verify_identity_spec pid exe observed w) as H1.
  destruct (verify_identity _ _ _ _ w) as [[e|id] w1]; destruct H1 as (E1 & L1 & H1);
    [intros [= <- <-]; rewrite E1, Hw; split; [apply well_sent_none|done]|].
  destruct H1 as [T1 S1].
  destruct dry; [intros [= <- <-]; rewrite E1, Hw; split; [apply well_sent_none|done]|].
  pose proof (send_signal_spec pid SIGTERM w1) as H2.
  destruct (send_signal _ _ _ w1) as [r2 w2], (2 ^ 31 <=? pid) eqn:Hr;
    [destruct H2 as [-> [e ->]]; intros [= <- <-]; rewrite E1, Hw; split; [apply well_sent_none|done]|].
  destruct H2 as (E2 & T2 & _). rewrite E1, Hw, T1 in E2; simpl in E2.
  assert (Hpid : pid <> 0) by lia. assert (Hmax : pid < 2 ^ 31) by lia.
  pose proof (well_sent_term protected pid exe observed Hpid Hmax Hp _ _ S1) as HT.
  destruct r2 as [e|[]]; [intros [= <- <-]; by rewrite E2|].
  apply (after_term protected _ _ _ (pw_tick w)); [done..|lia].
Qed.
End Signals.

(** The name of a process, up to its last parenthesis, does not disturb the other fields. *)
Lemma parse_stat_ignores_name pid name name' rest :
  rparen ∉ rest -> parse_stat (pid ++ name ++ rparen :: rest) = parse_stat (pid ++ name' ++ rparen :: rest).
Proof. intros Hr. unfold parse_stat. by rewrite !app_assoc, !rsplit_once_app. Qed.

(** The chain of ancestors is finite, has no repetition, and names neither 0 nor the process itself. *)
Lemma ancestors_loop_chain ppid_of pid n : forall cur out,
  NoDup out -> pid ∉ out -> 0 ∉ out ->
  let r := ancestors_loop ppid_of pid n cur out in
  NoDup r /\ pid ∉ r /\ 0 ∉ r /\ (length r <= n + length out)%nat.
Proof.
  induction n as [|n IH]; intros cur out Hn Hp H0; simpl; [by repeat split|].
  destruct (ppid_of cur) as [p|]; [|by repeat split; try lia].
  destruct (_ && _ && _) eqn:Hc; [|by repeat split; try lia].
  apply andb_true_iff in Hc as [[H1 H2]%andb_true_iff H3].
  assert (Hout : p ∉ out).
  { intros Hin%list_elem_of_In. apply negb_true_iff in H2. rewrite <- not_true_iff_false in H2.
    apply H2, existsb_exists. exists p. split; [done|lia]. }
  destruct (IH p (out ++ [p])) as (A & B & C & D).
  - apply NoDup_app. split_and!; [done| |apply NoDup_singleton]. intros x Hx ->%list_elem_of_singleton. done.
  - rewrite elem_of_app, list_elem_of_singleton. intros [?| ->]; [done|lia].
  - rewrite elem_of_app, list_elem_of_singleton. intros [?|<-]; [done|lia].
  - split_and!; [done..|]. rewrite length_app in D. simpl in D. lia.
Qed.

Lemma ancestors_from_chain pid ppid_of :
  NoDup (ancestors_from pid ppid_of) /\ pid ∉ ancestors_from pid ppid_of /\ 0 ∉ ancestors_from pid ppid_of
  /\ (length (ancestors_from pid ppid_of) <= 64)%nat.
Proof.
  destruct (ancestors_loop_chain ppid_of pid 64 pid []) as (A & B & C & D); [apply NoDup_nil_2|set_solver|set_solver|].
  rewrite Nat.add_0_r in D. by split_and!.
Qed.

(** *** A process to end *)

Definition sample_pids : ProtectedTargets := {| agent_pid := 77; extra_pids := [1000]; vault := [] |}.

Definition stat_line (name state : list byte) : list byte :=
  bytes_of "4242 (" ++ name ++ bytes_of ") " ++ state
  ++ bytes_of " 1 4242 4242 0 -1 4194304 95 0 0 0 0 0 0 0 20 0 1 0 500000 2465792 0".

Definition alive_as (name : list byte) : ProcView :=
  {| pv_exists := true; pv_stat := Some (stat_line name (bytes_of "S")); pv_exe := Some (bytes_of "/tmp/evil") |}.
Definition zombie : ProcView :=
  {| pv_exists := true; pv_stat := Some (stat_line (bytes_of "evil") (bytes_of "Z")); pv_exe := None |}.

(** Its view at each moment; a wait is over after 100 moments. *)
Definition sample_system (view : nat -> ProcView) : ProcKernel :=
  {| pk_view := fun n p => if p =? 4242 then view n else {| pv_exists := false; pv_stat := None; pv_exe := None |};
     pk_boot := fun _ => Some (bytes_of "cpu 1 2 3" ++ [Byte.x0a] ++ bytes_of "btime 1700000000");
     pk_clk := 100; pk_kill := fun _ _ _ => None; pk_late := fun n => (n =? 100)%nat |}.

Definition fresh_run : PWorld := {| pw_tick := 0; pw_budget := 200; pw_sent := [] |}.

(** It ignores SIGTERM and ends on SIGKILL. *)
Definition stubborn : ProcKernel :=
  sample_system (fun n => if (n <? 110)%nat then alive_as (bytes_of "ev) S (il") else zombie).

Lemma terminate_signals_target_only_witness :
  (exists r w', terminate_process stubborn sample_pids 4242 "/tmp/evil" 1700006000000000000 false fresh_run = (inr r, w')
    /\ map snd (pw_sent w') = [SIGTERM; SIGKILL])
  /\ well_sent stubborn sample_pids 4242 "/tmp/evil" 1700006000000000000 false
       (pw_sent (terminate_process stubborn sample_pids 4242 "/tmp/evil" 1700006000000000000 false fresh_run).2).
Proof.
  split; [eexists _, _; split; vm_compute; reflexivity|].
  destruct (terminate_process _ _ _ _ _ _ fresh_run) as [r w'] eqn:Hrun.
  exact (proj1 (terminate_signals_target_only stubborn sample_pids 4242 "/tmp/evil" 1700006000000000000 false
    fresh_run r w' eq_refl Hrun)).
Defined.

(** A stat file that cannot be read counts as an exit ([exited]), and a name that is not UTF-8 makes it so:
    a process that renames itself on SIGTERM is reported terminated and lives on. *)
Definition renamed : ProcKernel :=
  sample_system (fun n => alive_as (if (n <? 5)%nat then bytes_of "evil" else [Byte.xff])).

Lemma unreadable_name_counts_as_exit :
  let '(r, w') := terminate_process renamed sample_pids 4242 "/tmp/evil" 1700006000000000000 false fresh_run in
  (exists d, r = inr d /\ signal d = Some "SIGTERM") /\ map snd (pw_sent w') = [SIGTERM]
  /\ forall n, pv_exists (pk_view renamed n 4242) = true /\ pk_kill renamed n 4242 SIGKILL = None.
Proof.
  destruct (terminate_process renamed _ _ _ _ _ _) as [r w'] eqn:Hrun. vm_compute in Hrun. injection Hrun as <- <-.
  split_and!; [by eexists|done|done].
Qed.
