(* ===== verification/ExportHub.v ===== *)
(** * The export hub: [crates/osiris-export/src/hub.rs], with [record.rs], [exporter.rs] and the
      filter of [config.rs]

    Ingest offers records; each exporter has a bounded queue and a worker that batches, retries
    and, when cancelled, flushes what it holds.  Offers, workers, the refresher of tenant host
    sets and shutdown run concurrently: a step is what one of them does between two awaits, and
    an offer enqueues its records one at a time.  Times (flush interval, backoff, the shutdown
    budget) are not measured: a timer is a step that may happen at any moment, so the settings
    keep no flush interval. *)

From S2P Require Import Prelude Json Schema Tenancy.

(** ** Records, filters, settings *)

Inductive Stream := Events | Alerts.

#[global] Instance stream_eq_dec : EqDecision Stream.
Proof. solve_decision. Defined.

Section Hub.
Context `{JsonLib}.

Inductive ExportRecord := REvent (e : CanonicalEvent) | RAlert (a : Alert).

Definition stream (r : ExportRecord) : Stream := match r with REvent _ => Events | RAlert _ => Alerts end.
Definition rec_severity (r : ExportRecord) : Severity := match r with REvent e => ev_severity e | RAlert a => alert_severity a end.
Definition rec_host_id (r : ExportRecord) : Uuid := match r with REvent e => ev_host_id e | RAlert a => alert_host_id a end.
Definition rec_timestamp (r : ExportRecord) : Z := match r with REvent e => ev_timestamp e | RAlert a => alert_timestamp a end.
Definition rec_id (r : ExportRecord) : Uuid := match r with REvent e => event_id e | RAlert a => alert_id a end.

Record CommonOptions := {
  c_streams : list Stream; c_min_severity : Severity; c_event_types : option (list EventType); c_tenant_id : option Uuid;
  c_include_raw : bool; c_queue_capacity : nat; c_batch_max : nat; c_flush_interval_ms : Z; c_max_retries : nat }.

Definition export_rank (s : Severity) : Z :=
  match s with Info => 0 | Low => 1 | Medium => 2 | High => 3 | Critical => 4 end.

Record Filter := { f_events : bool; f_alerts : bool; f_min_rank : Z; f_event_types : option (list EventType) }.

Definition filter_from_config (c : CommonOptions) : Filter :=
  {| f_events := bool_decide (Events ∈ c_streams c); f_alerts := bool_decide (Alerts ∈ c_streams c);
     f_min_rank := export_rank (c_min_severity c); f_event_types := c_event_types c |}.

Definition accepts_event (f : Filter) (e : CanonicalEvent) : bool :=
  f_events f && (f_min_rank f <=? export_rank (ev_severity e))
  && match f_event_types f with None => true | Some allow => bool_decide (event_type e ∈ allow) end.

Definition accepts_alert (f : Filter) (a : Alert) : bool :=
  f_alerts f && (f_min_rank f <=? export_rank (alert_severity a)).

Definition accepts (f : Filter) (r : ExportRecord) : bool :=
  match r with REvent e => accepts_event f e | RAlert a => accepts_alert f a end.

Record WorkerSettings := {
  s_name : string; s_filter : Filter; s_tenant_id : option Uuid; s_queue_capacity : nat; s_batch_max : nat; s_max_retries : nat }.

Definition settings_from_config (name : string) (c : CommonOptions) : WorkerSettings :=
  {| s_name := name; s_filter := filter_from_config c; s_tenant_id := c_tenant_id c; s_queue_capacity := c_queue_capacity c;
     s_batch_max := c_batch_max c; s_max_retries := c_max_retries c |}.

(** ** The state of a worker *)

Inductive ExporterState := StOk | StDegraded | StStopped.

(** [AtomicU64]s, taken not to reach 2^64. *)
Record Counters := {
  sent_records : nat; sent_batches : nat; send_errors : nat; dropped_queue_full : nat; dropped_after_retries : nat;
  dropped_permanent : nat; truncated : nat; panics : nat }.

Definition no_counts : Counters := Build_Counters 0 0 0 0 0 0 0 0.

Definition bump_counts (c : Counters) (sent batches errors full retries permanent trunc pan : nat) : Counters :=
  {| sent_records := sent_records c + sent; sent_batches := sent_batches c + batches; send_errors := send_errors c + errors;
     dropped_queue_full := dropped_queue_full c + full; dropped_after_retries := dropped_after_retries c + retries;
     dropped_permanent := dropped_permanent c + permanent; truncated := truncated c + trunc; panics := panics c + pan |}.

Record Health := { h_state : ExporterState; h_last_success_at : option Z; h_last_error : option string }.

Definition succeeded (now : Z) (h : Health) : Health :=
  {| h_state := match h_state h with StStopped => StStopped | _ => StOk end; h_last_success_at := Some now;
     h_last_error := h_last_error h |}.

Definition failed (message : string) (h : Health) : Health :=
  {| h_state := match h_state h with StStopped => StStopped | _ => StDegraded end; h_last_success_at := h_last_success_at h;
     h_last_error := Some message |}.

Definition set_stopped (h : Health) : Health :=
  {| h_state := StStopped; h_last_success_at := h_last_success_at h; h_last_error := h_last_error h |}.

Record ExportOutcome := { o_dropped : nat; o_truncated : nat }.

(** How the task that ran [export] ended. *)
Inductive Joined := JPanic | JCancelled | JOk (o : ExportOutcome) | JPermanent (msg : string) | JTransient (msg : string).

(** Where the worker's task waits; the batch it holds there. *)
Inductive Phase :=
| Waiting
| Collecting (held : list ExportRecord)
| Exporting (batch : list ExportRecord) (attempt : nat)
| BackingOff (batch : list ExportRecord) (attempt : nat)
| Flushing (chunk rest : list ExportRecord) (remaining : nat)
| Finished
| Killed.

(** What became of a batch. *)
Inductive Verdict := VSent (o : ExportOutcome) | VPermanent | VRetried | VPanicked | VCancelled | VLost.

(** [w_pushed], [w_refused], [w_tried] and [w_settled] record the past: what entered the queue, what did
    not, every batch given to the exporter, and what became of each batch. *)
Record Worker := {
  w_settings : WorkerSettings; w_queue : list ExportRecord; w_closed : bool; w_phase : Phase; w_counters : Counters;
  w_in_hand : nat; w_health : Health;
  w_pushed : list ExportRecord; w_refused : list ExportRecord; w_tried : list (list ExportRecord);
  w_settled : list (list ExportRecord * Verdict) }.

Definition new_worker (s : WorkerSettings) : Worker :=
  {| w_settings := s; w_queue := []; w_closed := false; w_phase := Waiting; w_counters := no_counts; w_in_hand := 0;
     w_health := {| h_state := StOk; h_last_success_at := None; h_last_error := None |};
     w_pushed := []; w_refused := []; w_tried := []; w_settled := [] |}.

Definition capacity (w : Worker) : nat := Nat.max (s_queue_capacity (w_settings w)) 1.
Definition batch_max (w : Worker) : nat := Nat.max (s_batch_max (w_settings w)) 1.

(** [try_send]. *)
Definition push (r : ExportRecord) (w : Worker) : Worker :=
  if w_closed w || (capacity w <=? length (w_queue w))%nat then
    Build_Worker (w_settings w) (w_queue w) (w_closed w) (w_phase w) (bump_counts (w_counters w) 0 0 0 1 0 0 0 0) (w_in_hand w)
      (w_health w) (w_pushed w) (w_refused w ++ [r]) (w_tried w) (w_settled w)
  else
    Build_Worker (w_settings w) (w_queue w ++ [r]) (w_closed w) (w_phase w) (w_counters w) (w_in_hand w)
      (w_health w) (w_pushed w ++ [r]) (w_refused w) (w_tried w) (w_settled w).

Definition with_phase (p : Phase) (in_hand : nat) (w : Worker) : Worker :=
  Build_Worker (w_settings w) (w_queue w) (w_closed w) p (w_counters w) in_hand (w_health w) (w_pushed w) (w_refused w)
    (match p with Exporting b _ => w_tried w ++ [b] | Flushing b _ _ => w_tried w ++ [b] | _ => w_tried w end) (w_settled w).

Definition settle (batch : list ExportRecord) (v : Verdict) (c : Counters) (h : Health) (w : Worker) : Worker :=
  Build_Worker (w_settings w) (w_queue w) (w_closed w) (w_phase w) c (w_in_hand w) h (w_pushed w) (w_refused w) (w_tried w)
    (w_settled w ++ [(batch, v)]).

(** ** The worker *)

(** The loop of [run] over the batch being filled. *)
Definition fill_batch (held : list ExportRecord) (w : Worker) : Worker :=
  with_phase (if (length held <? batch_max w)%nat then Collecting held else Exporting held 0) (length held) w.

(** The end of [final_flush]: [left] was not delivered. *)
Definition flush_end (left : list ExportRecord) (remaining : nat) (w : Worker) : Worker :=
  let w := match remaining with
           | O => w
           | _ => settle left VLost (bump_counts (w_counters w) 0 0 0 0 remaining 0 0 0)
                    (failed "shutdown flush did not finish within 5 s" (w_health w)) w
           end in
  Build_Worker (w_settings w) (w_queue w) (w_closed w) Finished (w_counters w) 0 (set_stopped (w_health w)) (w_pushed w)
    (w_refused w) (w_tried w) (w_settled w).

Definition next_chunk (rest : list ExportRecord) (remaining : nat) (w : Worker) : Worker :=
  match rest with
  | [] => flush_end [] remaining w
  | _ => with_phase (Flushing (take (batch_max w) rest) (drop (batch_max w) rest) remaining) remaining w
  end.

(** Closing and draining the queue; [late]: the deadline has passed already. *)
Definition final_flush (held : list ExportRecord) (lost : nat) (late : bool) (w : Worker) : Worker :=
  let all := held ++ w_queue w in
  let remaining := (lost + length all)%nat in
  let w := Build_Worker (w_settings w) [] true (w_phase w) (w_counters w) remaining (w_health w) (w_pushed w) (w_refused w)
             (w_tried w) (w_settled w) in
  if late then flush_end all remaining w else next_chunk all remaining w.

(** [deliver] once its task has ended: [None] when it returns [Done], the next attempt when it backs off. *)
Definition deliver_end (max_retries : nat) (batch : list ExportRecord) (attempt : nat) (j : Joined) (now : Z) (w : Worker)
  : Worker * option nat :=
  let len := length batch in
  let c := w_counters w in
  let h := w_health w in
  match j with
  | JPanic => (settle batch VPanicked (bump_counts c 0 0 0 0 0 len 0 1) (failed "exporter panicked" h) w, None)
  | JCancelled => (settle batch VCancelled (bump_counts c 0 0 0 0 0 len 0 0) (failed "exporter task was cancelled" h) w, None)
  | JOk o => (settle batch (VSent o) (bump_counts c (len - o_dropped o) 1 0 0 0 (o_dropped o) (o_truncated o) 0) (succeeded now h) w, None)
  | JPermanent msg => (settle batch VPermanent (bump_counts c 0 0 1 0 0 len 0 0) (failed msg h) w, None)
  | JTransient msg =>
      if (max_retries <=? attempt)%nat
      then (settle batch VRetried (bump_counts c 0 0 1 0 len 0 0 0) (failed msg h) w, None)
      else (Build_Worker (w_settings w) (w_queue w) (w_closed w) (w_phase w) (bump_counts c 0 0 1 0 0 0 0 0) (w_in_hand w)
              (failed msg h) (w_pushed w) (w_refused w) (w_tried w) (w_settled w), Some (S attempt))
  end.

(** What the exporter promises: it rejects no more records than it was given. *)
Definition honest (batch : list ExportRecord) (j : Joined) : Prop :=
  match j with JOk o => (o_dropped o <= length batch)%nat | _ => True end.

Inductive worker_step (cancelled gone : bool) : Worker -> Worker -> Prop :=
| ws_recv w r q : cancelled = false -> w_queue w = r :: q ->
    (w_phase w = Waiting \/ exists held, w_phase w = Collecting held) ->
    worker_step cancelled gone w
      (fill_batch (match w_phase w with Collecting held => held | _ => [] end ++ [r])
         (Build_Worker (w_settings w) q (w_closed w) (w_phase w) (w_counters w) (w_in_hand w) (w_health w) (w_pushed w)
            (w_refused w) (w_tried w) (w_settled w)))
| ws_flush_interval w held : cancelled = false -> w_phase w = Collecting held ->
    worker_step cancelled gone w (with_phase (Exporting held 0) (length held) w)
| ws_stop w late : cancelled = true \/ (gone = true /\ w_queue w = []) ->
    (w_phase w = Waiting \/ exists held, w_phase w = Collecting held) ->
    worker_step cancelled gone w (final_flush (match w_phase w with Collecting held => held | _ => [] end) 0 late w)
| ws_done w batch attempt j now w' late : w_phase w = Exporting batch attempt -> honest batch j ->
    deliver_end (s_max_retries (w_settings w)) batch attempt j now w = (w', None) ->
    worker_step cancelled gone w (if cancelled then final_flush [] 0 late (with_phase Waiting 0 w') else with_phase Waiting 0 w')
| ws_retry w batch attempt j now w' attempt' : w_phase w = Exporting batch attempt -> honest batch j ->
    deliver_end (s_max_retries (w_settings w)) batch attempt j now w = (w', Some attempt') ->
    worker_step cancelled gone w (with_phase (BackingOff batch attempt') (w_in_hand w') w')
| ws_expired w batch attempt late : cancelled = true -> w_phase w = Exporting batch attempt ->
    worker_step cancelled gone w
      (final_flush [] (length batch) late (settle batch VLost (w_counters w) (w_health w) w))
| ws_slept w batch attempt : cancelled = false -> w_phase w = BackingOff batch attempt ->
    worker_step cancelled gone w (with_phase (Exporting batch attempt) (w_in_hand w) w)
| ws_interrupted w batch attempt late : cancelled = true -> w_phase w = BackingOff batch attempt ->
    worker_step cancelled gone w (final_flush batch 0 late w)
| ws_chunk w chunk rest remaining j now w' : w_phase w = Flushing chunk rest remaining -> honest chunk j ->
    deliver_end 0 chunk 0 j now w = (w', None) ->
    worker_step cancelled gone w (next_chunk rest (remaining - length chunk) w')
| ws_flush_late w chunk rest remaining : w_phase w = Flushing chunk rest remaining ->
    worker_step cancelled gone w (flush_end (chunk ++ rest) remaining w).

(** What a worker holds, and what it has given up but not counted yet. *)
Definition pending (w : Worker) : list ExportRecord :=
  match w_phase w with
  | Collecting held => held | Exporting b _ => b | BackingOff b _ => b | Flushing c r _ => c ++ r | _ => []
  end.

(** [shutdown] aborts a worker that is still running after five seconds, and counts what it held. *)
Definition kill (w : Worker) : Worker :=
  let lost := (length (w_queue w) + w_in_hand w)%nat in
  Build_Worker (w_settings w) [] true Killed (bump_counts (w_counters w) 0 0 0 0 lost 0 0 0) 0 (set_stopped (w_health w))
    (w_pushed w) (w_refused w) (w_tried w) (w_settled w ++ [(pending w ++ w_queue w, VLost)]).

Definition still_running (w : Worker) : bool := match w_phase w with Finished | Killed => false | _ => true end.

(** ** The hub *)

(** [h_todo]: offers under way, with the records each has still to enqueue; [h_seen]: the tenant tables the
    refresher has read. *)
Record ExportHub := {
  h_workers : list Worker; h_tenants : gmap Uuid (gset Uuid); h_cancelled : bool; h_gone : bool;
  h_todo : list (list (nat * ExportRecord)); h_seen : list (Uuid * TenantDb) }.

Definition export_start (exporters : list WorkerSettings) : ExportHub :=
  {| h_workers := map new_worker exporters; h_tenants := ∅; h_cancelled := false; h_gone := false; h_todo := []; h_seen := [] |}.

Definition tenant_ids (h : ExportHub) : list Uuid := remove_dups (omap (fun w => s_tenant_id (w_settings w)) (h_workers h)).

Definition host_allowed (h : ExportHub) (w : Worker) (host : Uuid) : bool :=
  match s_tenant_id (w_settings w) with
  | None => true
  | Some t => match h_tenants h !! t with Some hosts => bool_decide (host ∈ hosts) | None => false end
  end.

(** The workers one record is for, in order. *)
Definition takers (h : ExportHub) (r : ExportRecord) : list (nat * ExportRecord) :=
  List.concat (imap (fun i w => if accepts (s_filter (w_settings w)) r && host_allowed h w (rec_host_id r) then [(i, r)] else [])
    (h_workers h)).

Definition offer_pushes (h : ExportHub) (events : list CanonicalEvent) (alerts : list Alert) : list (nat * ExportRecord) :=
  List.concat (map (fun e => takers h (REvent e)) events) ++ List.concat (map (fun a => takers h (RAlert a)) alerts).

Definition with_workers (ws : list Worker) (todo : list (list (nat * ExportRecord))) (h : ExportHub) : ExportHub :=
  {| h_workers := ws; h_tenants := h_tenants h; h_cancelled := h_cancelled h; h_gone := h_gone h; h_todo := todo;
     h_seen := h_seen h |}.

(** One round of the refresher for one tenant; an error keeps the former set. *)
Definition refresh (t : Uuid) (io : bool) (db : TenantDb) (h : ExportHub) : ExportHub :=
  match hosts_of io t db with
  | Ok hosts => {| h_workers := h_workers h; h_tenants := <[t := hosts]> (h_tenants h); h_cancelled := h_cancelled h;
                   h_gone := h_gone h; h_todo := h_todo h; h_seen := (t, db) :: h_seen h |}
  | _ => h
  end.

Inductive export_step : ExportHub -> ExportHub -> Prop :=
| es_offer h events alerts : h_gone h = false ->
    export_step h (with_workers (h_workers h) (h_todo h ++ [offer_pushes h events alerts]) h)
| es_push h a b i r p w : h_todo h = a ++ ((i, r) :: p) :: b -> h_workers h !! i = Some w ->
    export_step h (with_workers (<[i := push r w]> (h_workers h)) (a ++ p :: b) h)
| es_worker h i w w' : h_workers h !! i = Some w -> worker_step (h_cancelled h) (h_gone h) w w' ->
    export_step h (with_workers (<[i := w']> (h_workers h)) (h_todo h) h)
| es_refresh h t io db : h_cancelled h = false -> t ∈ tenant_ids h -> export_step h (refresh t io db h)
| es_cancel h : export_step h
    {| h_workers := h_workers h; h_tenants := h_tenants h; h_cancelled := true; h_gone := h_gone h; h_todo := h_todo h;
       h_seen := h_seen h |}
| es_drop h : h_todo h = [] -> export_step h
    {| h_workers := h_workers h; h_tenants := h_tenants h; h_cancelled := h_cancelled h; h_gone := true; h_todo := [];
       h_seen := h_seen h |}
| es_kill h i w : h_cancelled h = true -> h_workers h !! i = Some w -> still_running w = true ->
    export_step h (with_workers (<[i := kill w]> (h_workers h)) (h_todo h) h).

(** ** The ledger *)

Definition sent_of (x : list ExportRecord * Verdict) : nat := match x.2 with VSent o => length x.1 - o_dropped o | _ => 0 end.
Definition permanent_of (x : list ExportRecord * Verdict) : nat :=
  match x.2 with VSent o => o_dropped o | VPermanent | VPanicked | VCancelled => length x.1 | _ => 0 end.
Definition retried_of (x : list ExportRecord * Verdict) : nat :=
  match x.2 with VRetried | VLost => length x.1 | _ => 0 end.

Definition tally (f : list ExportRecord * Verdict -> nat) (l : list (list ExportRecord * Verdict)) : nat := sum_list (f <$> l).

Lemma tally_app f l x : tally f (l ++ [x]) = (tally f l + f x)%nat.
Proof. unfold tally. induction l as [|y l IH]; csimpl; lia. Qed.

(** Nothing is missing, double or out of order: what was enqueued is what was settled, then [pend], then the
    queue, and the counters say of all that was settled what became of it, but for [lost]. *)
Record ledger (pend : list ExportRecord) (lost : nat) (w : Worker) : Prop := {
  l_fifo : w_pushed w = List.concat (w_settled w).*1 ++ pend ++ w_queue w;
  l_honest : Forall (fun x => match x.2 with VSent o => (o_dropped o <= length x.1)%nat | _ => True end) (w_settled w);
  l_sent : sent_records (w_counters w) = tally sent_of (w_settled w);
  l_permanent : dropped_permanent (w_counters w) = tally permanent_of (w_settled w);
  l_retries : (dropped_after_retries (w_counters w) + lost)%nat = tally retried_of (w_settled w);
  l_full : dropped_queue_full (w_counters w) = length (w_refused w);
  l_tried : Forall (fun b => b <> [] /\ (length b <= batch_max w)%nat /\ exists x y, w_pushed w = x ++ b ++ y) (w_tried w);
  l_queue : (length (w_queue w) <= capacity w)%nat }.

Definition lost_of (w : Worker) : nat :=
  match w_phase w with Flushing c r remaining => (remaining - length (c ++ r))%nat | _ => 0 end.

Record worker_ok (w : Worker) : Prop := {
  wk_ledger : ledger (pending w) (lost_of w) w;
  wk_in_hand : w_in_hand w = (length (pending w) + lost_of w)%nat;
  wk_phase : match w_phase w with
             | Collecting held => (0 < length held < batch_max w)%nat
             | Exporting b _ | BackingOff b _ => (0 < length b <= batch_max w)%nat
             | Flushing c r remaining => w_closed w = true /\ w_queue w = [] /\ (0 < length c <= batch_max w)%nat /\ (length (c ++ r) <= remaining)%nat
             | Finished | Killed => w_closed w = true /\ w_queue w = []
             | Waiting => True
             end }.

Lemma new_worker_ok s : worker_ok (new_worker s).
Proof. split; [|done..]. split; [done|constructor|done..|constructor|]. unfold capacity. simpl. lia. Qed.

(** The ledger depends on neither phase nor health. *)
Lemma ledger_with_phase pend lost p n w :
  ledger pend lost w -> match p with Exporting b _ => b = pend | Flushing b r _ => b ++ r = pend | _ => True end ->
  match p with Exporting b _ | Flushing b _ _ => (0 < length b <= batch_max w)%nat | _ => True end ->
  ledger pend lost (with_phase p n w).
Proof.
  intros [] Hp Hb. split; try done. simpl.
  destruct p; try done; apply Forall_app; (split; [done|]); apply Forall_singleton;
    (split_and!; [by destruct_or?; intros ->; simpl in *; lia|unfold batch_max in *; simpl; lia|]); subst.
  - eexists _, _. exact l_fifo0.
  - eexists _, _. rewrite l_fifo0, <- (assoc_L (++)). reflexivity.
Qed.

Lemma ledger_settle b v p lost lost' c h w :
  ledger (b ++ p) lost w ->
  match v with VSent o => (o_dropped o <= length b)%nat | _ => True end ->
  sent_records c = (sent_records (w_counters w) + sent_of (b, v))%nat ->
  dropped_permanent c = (dropped_permanent (w_counters w) + permanent_of (b, v))%nat ->
  (dropped_after_retries c + lost' = dropped_after_retries (w_counters w) + lost + retried_of (b, v))%nat ->
  dropped_queue_full c = dropped_queue_full (w_counters w) ->
  ledger p lost' (settle b v c h w).
Proof.
  intros [] Hv Hs Hp Hr Hq. split; simpl; rewrite ?tally_app; try done; try lia.
  - rewrite l_fifo0, fmap_app, concat_app. simpl. by rewrite app_nil_r, <- !(assoc_L (++)).
  - apply Forall_app. split; [done|]. by apply Forall_singleton.
Qed.

Lemma push_ok r w : worker_ok w -> worker_ok (push r w).
Proof.
  intros [[] Hin Hph]. unfold push. destruct (_ || _) eqn:Hc.
  { split; [|exact Hin|exact Hph]. change (pending _) with (pending w). change (lost_of _) with (lost_of w).
    split; simpl; rewrite ?length_app; simpl; try done; lia. }
  apply orb_false_iff in Hc as [Hc Hfull].
  assert (Hopen : match w_phase w with Flushing _ _ _ | Finished | Killed => False | _ => True end).
  { destruct (w_phase w); simpl in *; try done; destruct_and!; congruence. }
  split; [|exact Hin|simpl; by destruct (w_phase w)]. change (pending _) with (pending w). change (lost_of _) with (lost_of w).
  split; simpl; try done.
  - by rewrite l_fifo0, <- !(assoc_L (++)).
  - eapply Forall_impl; [exact l_tried0|]. intros b (Hb & Hl & x & y & ->). split_and!; [done..|].
    exists x, (y ++ [r]). by rewrite <- !(assoc_L (++)).
  - rewrite length_app. apply Nat.leb_gt in Hfull. simpl. unfold capacity in *. simpl. lia.
Qed.

(** Taking the record at the head of the queue into the batch. *)
Lemma recv_ok w r q held :
  worker_ok w -> w_queue w = r :: q -> w_phase w = Waiting /\ held = [] \/ w_phase w = Collecting held ->
  worker_ok (fill_batch (held ++ [r])
    (Build_Worker (w_settings w) q (w_closed w) (w_phase w) (w_counters w) (w_in_hand w) (w_health w) (w_pushed w)
       (w_refused w) (w_tried w) (w_settled w))).
Proof.
  intros [Hl Hin Hph] Hq Hheld. set (w1 := Build_Worker _ _ _ _ _ _ _ _ _ _ _).
  assert (Hp : pending w = held /\ lost_of w = 0%nat /\ (length held < batch_max w)%nat).
  { unfold pending, lost_of, batch_max. destruct Hheld as [[E ->]|E]; rewrite E in *; simpl; [split_and!; [done..|lia]|].
    split_and!; [done..|apply Hph]. }
  destruct Hp as (Hp & Hlo & Hlen). rewrite Hp, Hlo in Hl.
  assert (Hl1 : ledger (held ++ [r]) 0 w1).
  { destruct Hl. split; simpl; try done; [by rewrite l_fifo0, Hq, <- !(assoc_L (++))|].
    unfold capacity in *. simpl. rewrite Hq in l_queue0. simpl in l_queue0. lia. }
  assert (Hb : batch_max w1 = batch_max w) by done. unfold fill_batch. rewrite Hb, length_app. simpl.
  destruct (_ <? batch_max w)%nat eqn:Hlt; [apply Nat.ltb_lt in Hlt|apply Nat.ltb_ge in Hlt]; split; simpl;
    unfold pending, lost_of; simpl; rewrite ?length_app; simpl; try lia.
  - apply ledger_with_phase; [done..].
  - unfold batch_max in *. simpl in *. lia.
  - apply ledger_with_phase; [done..|]. rewrite length_app, Hb. simpl. lia.
  - unfold batch_max in *. simpl in *. lia.
Qed.

(** [deliver] settles the batch or keeps it for another attempt. *)
Lemma deliver_end_ledger n b p lost attempt j now w w' o :
  ledger (b ++ p) lost w -> honest b j -> deliver_end n b attempt j now w = (w', o) ->
  ledger (match o with None => p | Some _ => b ++ p end) lost w'
  /\ w_phase w' = w_phase w /\ w_settings w' = w_settings w /\ w_closed w' = w_closed w /\ w_queue w' = w_queue w
  /\ w_in_hand w' = w_in_hand w.
Proof.
  intros Hl Hj. destruct j; simpl; [..|destruct (n <=? attempt)%nat]; intros [= <- <-]; (split; [|done]);
    try (eapply ledger_settle; [exact Hl|simpl in *; unfold sent_of, permanent_of, retried_of; simpl; lia || done..]).
  destruct Hl. split; simpl; try done; lia.
Qed.

Lemma flush_end_ok left remaining w :
  ledger left (remaining - length left) w -> (length left <= remaining)%nat -> w_closed w = true -> w_queue w = [] ->
  worker_ok (flush_end left remaining w).
Proof.
  intros Hl Hle Hc Hq. unfold flush_end. destruct remaining as [|n].
  - destruct left; [|simpl in Hle; lia]. split; [|done..]. destruct Hl. split; done.
  - pose proof (ledger_settle left VLost [] (S n - length left) 0 (bump_counts (w_counters w) 0 0 0 0 (S n) 0 0 0)
      (failed "shutdown flush did not finish within 5 s" (w_health w)) w) as Hs.
    rewrite app_nil_r in Hs. unfold sent_of, permanent_of, retried_of in Hs. simpl in Hs.
    destruct (Hs Hl) as []; [done|lia..|]. split; [|done..]. split; done.
Qed.

Lemma next_chunk_ok rest remaining w :
  ledger rest (remaining - length rest) w -> (length rest <= remaining)%nat -> w_closed w = true -> w_queue w = [] ->
  worker_ok (next_chunk rest remaining w).
Proof.
  intros Hl Hle Hc Hq. unfold next_chunk. destruct rest as [|r rest]; [by apply flush_end_ok|].
  set (l := r :: rest) in *. assert (Htd : take (batch_max w) l ++ drop (batch_max w) l = l) by apply take_drop.
  assert (Hb : (0 < length (take (batch_max w) l) <= batch_max w)%nat).
  { rewrite length_take. unfold l, batch_max. simpl. lia. }
  split; simpl; unfold pending, lost_of; simpl; rewrite ?Htd; [by apply ledger_with_phase|lia|done].
Qed.

Lemma final_flush_ok held lost late w :
  ledger held lost w -> worker_ok (final_flush held lost late w).
Proof.
  intros Hl. unfold final_flush. set (w1 := Build_Worker _ _ _ _ _ _ _ _ _ _ _).
  assert (Hl1 : ledger (held ++ w_queue w) (lost + length (held ++ w_queue w) - length (held ++ w_queue w)) w1).
  { destruct Hl. replace (lost + _ - _)%nat with lost by lia. split; simpl; try done; [|lia]. by rewrite app_nil_r. }
  destruct late; [apply flush_end_ok|apply next_chunk_ok]; try done; lia.
Qed.

Lemma kill_ok w : worker_ok w -> worker_ok (kill w).
Proof.
  intros [[] Hin Hph]. split; [|done..]. change (lost_of (kill w)) with 0%nat. change (pending (kill w)) with (@nil ExportRecord).
  split; simpl; rewrite ?tally_app; cbn [sent_of permanent_of retried_of fst snd]; rewrite ?length_app; try done; try lia.
  - rewrite l_fifo0, fmap_app, concat_app. simpl. by rewrite !app_nil_r.
  - apply Forall_app. split; [done|]. by apply Forall_singleton.
Qed.

Lemma worker_step_ok cancelled gone w w' : worker_step cancelled gone w w' -> worker_ok w -> worker_ok w'.
Proof.
  intros Hstep Hok. pose proof Hok as [Hl Hin Hph]. unfold pending, lost_of in Hl, Hin.
  destruct Hstep as [w r q Hc Hq Hp|w held Hc Hp|w late Hc Hp|w b a j now w' late Hp Hj Hd|w b a j now w' a' Hp Hj Hd
    |w b a late Hc Hp|w b a Hc Hp|w b a late Hc Hp|w c r n j now w' Hp Hj Hd|w c r n Hp].
  - apply recv_ok; [done..|]. destruct Hp as [E|[held E]]; rewrite E; [by left|by right].
  - rewrite Hp in *. split; unfold pending, lost_of; simpl; [|lia|unfold batch_max in *; simpl in *; lia].
    apply ledger_with_phase; [done..|lia].
  - apply final_flush_ok. destruct Hp as [E|[held E]]; by rewrite E in *.
  - rewrite Hp in *. rewrite <- (app_nil_r b) in Hl. destruct (deliver_end_ledger _ _ _ _ _ _ _ _ _ _ Hl Hj Hd) as (Hl' & _).
    destruct cancelled; [apply final_flush_ok|split; [|done..]]; by apply ledger_with_phase.
  - rewrite Hp in *. rewrite <- (app_nil_r b) in Hl.
    destruct (deliver_end_ledger _ _ _ _ _ _ _ _ _ _ Hl Hj Hd) as (Hl' & _ & Hs & _ & _ & Hi). rewrite app_nil_r in Hl'.
    split; unfold pending, lost_of; simpl; [by apply ledger_with_phase|lia|]. unfold batch_max. simpl. by rewrite Hs.
  - rewrite Hp in *. apply final_flush_ok. rewrite <- (app_nil_r b) in Hl. eapply ledger_settle; [exact Hl|done|..];
      unfold sent_of, permanent_of, retried_of; simpl; lia.
  - rewrite Hp in *. split; unfold pending, lost_of; simpl; [|done..]. by apply ledger_with_phase.
  - rewrite Hp in *. by apply final_flush_ok.
  - rewrite Hp in *. destruct Hph as (Hcl & Hq & Hb & Hle). rewrite length_app in *.
    destruct (deliver_end_ledger _ _ _ _ _ _ _ _ _ _ Hl Hj Hd) as (Hl' & _ & _ & Hc' & Hq' & _).
    apply next_chunk_ok; [|lia|congruence..]. by replace (n - length c - length r)%nat with (n - (length c + length r))%nat by lia.
  - rewrite Hp in *. destruct Hph as (Hcl & Hq & Hb & Hle). by apply flush_end_ok.
Qed.

(** ** The hub's invariant *)

(** A record this exporter may see: it passes the filter, and the tenant's table, as the refresher read it,
    had its host. *)
Definition exportable (seen : list (Uuid * TenantDb)) (s : WorkerSettings) (r : ExportRecord) : Prop :=
  accepts (s_filter s) r = true
  /\ match s_tenant_id s with None => True | Some t => exists db, (t, db) ∈ seen /\ t_hosts db !! rec_host_id r = Some t end.

Record export_ok (settings : list WorkerSettings) (h : ExportHub) : Prop := {
  hk_workers : Forall worker_ok (h_workers h);
  hk_settings : map w_settings (h_workers h) = settings;
  hk_cache : forall t hosts x, h_tenants h !! t = Some hosts -> x ∈ hosts -> exists db, (t, db) ∈ h_seen h /\ t_hosts db !! x = Some t;
  hk_todo : Forall (Forall (fun x => forall s, settings !! x.1 = Some s -> exportable (h_seen h) s x.2)) (h_todo h);
  hk_scope : Forall (fun w => Forall (exportable (h_seen h) (w_settings w)) (w_pushed w ++ w_refused w)) (h_workers h) }.

Lemma in_scope_mono x seen s r : exportable seen s r -> exportable (x :: seen) s r.
Proof. intros [Ha Ht]. split; [done|]. destruct (s_tenant_id s); [|done]. destruct Ht as (db & Hin & Ht). exists db. by split; [right|]. Qed.

(** An offer reaches exactly the workers whose filter and tenant admit the record. *)
Lemma takers_spec h r x :
  x ∈ takers h r <->
  exists i w, x = (i, r) /\ h_workers h !! i = Some w /\ accepts (s_filter (w_settings w)) r = true /\ host_allowed h w (rec_host_id r) = true.
Proof.
  unfold takers. rewrite list_elem_of_In, in_concat. setoid_rewrite <- list_elem_of_In. split.
  - intros (l & (i & w & -> & Hi)%elem_of_lookup_imap & Hx). destruct (_ && _) eqn:Ha; [|by apply not_elem_of_nil in Hx].
    apply list_elem_of_singleton in Hx as ->. apply andb_true_iff in Ha as [? ?]. by exists i, w.
  - intros (i & w & -> & Hi & Ha & Hb). eexists. split; [apply elem_of_lookup_imap; exists i, w; split; [reflexivity|done]|].
    rewrite Ha, Hb. by left.
Qed.

Lemma offer_scope settings h events alerts :
  export_ok settings h ->
  Forall (fun x => forall s, settings !! x.1 = Some s -> exportable (h_seen h) s x.2) (offer_pushes h events alerts).
Proof.
  intros Hok. assert (Ht : forall r, Forall (fun x => forall s, settings !! x.1 = Some s -> exportable (h_seen h) s x.2) (takers h r)).
  { intros r. apply Forall_forall. intros x (i & w & -> & Hi & Ha & Hb)%takers_spec s Hs. simpl in *.
    rewrite <- (hk_settings _ _ Hok), list_lookup_fmap, Hi in Hs. injection Hs as <-. split; [done|].
    unfold host_allowed in Hb. destruct (s_tenant_id _) as [t|]; [|done]. destruct (h_tenants h !! t) as [hosts|] eqn:Eh; [|done].
    apply (hk_cache _ _ Hok t hosts); [done|]. by apply bool_decide_eq_true_1 in Hb. }
  unfold offer_pushes. apply Forall_app. split; apply Forall_concat, Forall_map, Forall_forall; intros; apply Ht.
Qed.

Definition lasting (w : Worker) := (w_settings w, w_pushed w, w_refused w).

Lemma flush_end_identity l n w : lasting (flush_end l n w) = lasting w.
Proof. by destruct n. Qed.

Lemma next_chunk_identity l n w : lasting (next_chunk l n w) = lasting w.
Proof. destruct l; [apply flush_end_identity|done]. Qed.

Lemma final_flush_identity l n late w : lasting (final_flush l n late w) = lasting w.
Proof. unfold final_flush. destruct late; [rewrite flush_end_identity|rewrite next_chunk_identity]; done. Qed.

Lemma deliver_end_identity n b a j now w : lasting (deliver_end n b a j now w).1 = lasting w.
Proof. by destruct j; simpl; [..|destruct (n <=? a)%nat]. Qed.

Lemma worker_step_identity c g w w' : worker_step c g w w' -> lasting w' = lasting w.
Proof.
  intros []; rewrite ?final_flush_identity, ?next_chunk_identity, ?flush_end_identity; try done.
  - match goal with H : deliver_end ?n ?b ?a ?j ?now ?w = _ |- _ => pose proof (deliver_end_identity n b a j now w) as E; rewrite H in E end.
    destruct c; by rewrite ?final_flush_identity.
  - match goal with H : deliver_end ?n ?b ?a ?j ?now ?w = _ |- _ => pose proof (deliver_end_identity n b a j now w) as E; by rewrite H in E end.
  - match goal with H : deliver_end ?n ?b ?a ?j ?now ?w = _ |- _ => pose proof (deliver_end_identity n b a j now w) as E; by rewrite H in E end.
Qed.

Lemma hub_insert settings h i w w' todo :
  export_ok settings h -> h_workers h !! i = Some w -> worker_ok w' -> w_settings w' = w_settings w ->
  Forall (Forall (fun x => forall s, settings !! x.1 = Some s -> exportable (h_seen h) s x.2)) todo ->
  Forall (exportable (h_seen h) (w_settings w)) (w_pushed w' ++ w_refused w') ->
  export_ok settings (with_workers (<[i := w']> (h_workers h)) todo h).
Proof.
  intros [] Hi Hw' Hs Htodo Hscope. split; try done; simpl.
  - by apply Forall_insert.
  - rewrite list_fmap_insert, Hs, list_insert_id; [done|]. by rewrite list_lookup_fmap, Hi.
  - apply Forall_insert; [done|]. by rewrite Hs.
Qed.

Lemma export_step_ok settings h h' : export_step h h' -> export_ok settings h -> export_ok settings h'.
Proof.
  intros Hstep Hok. pose proof Hok as [Hw Hs Hc Ht Hp].
  assert (Hat : forall i w, h_workers h !! i = Some w -> worker_ok w /\ Forall (exportable (h_seen h) (w_settings w)) (w_pushed w ++ w_refused w)).
  { intros i w Hi. split; [exact (Forall_lookup_1 _ _ _ _ Hw Hi)|exact (Forall_lookup_1 _ _ _ _ Hp Hi)]. }
  destruct Hstep as [h events alerts _|h a b i r p w Htodo Hi|h i w w' Hi Hstep|h t io db _ Htid|h|h Htodo|h i w Hcan Hi Hrun].
  - split; try done. simpl. apply Forall_app. split; [done|]. apply Forall_singleton. by apply offer_scope.
  - destruct (Hat i w Hi) as [Hwi Hpi]. rewrite Htodo in Ht. apply Forall_app in Ht as [Ha [Hr Hb]%Forall_cons].
    apply Forall_cons in Hr as [Hr Hrest].
    assert (Hin : exportable (h_seen h) (w_settings w) r) by (apply Hr; rewrite <- Hs, list_lookup_fmap; simpl; by rewrite Hi).
    eapply hub_insert; [done..|by apply push_ok|by unfold push; destruct (_ || _)| |].
    + apply Forall_app. split; [done|]. by constructor.
    + apply Forall_app in Hpi as [H1 H2]. unfold push. destruct (_ || _); simpl; repeat (apply Forall_app; split); try done; by apply Forall_singleton.
  - destruct (Hat i w Hi) as [Hwi Hpi]. pose proof (worker_step_identity _ _ _ _ Hstep) as [= E1 E2 E3].
    eapply hub_insert; [done..|by eapply worker_step_ok|done|done|by rewrite E2, E3].
  - unfold refresh. destruct (hosts_of io t db) as [hosts| |] eqn:Eh; [|done..]. split; simpl; try done.
    + intros t' hosts' x [[-> <-]|[Hne Hl]]%lookup_insert_Some Hx.
      * exists db. split; [left|]. apply hosts_of_spec. unfold hosts_of in *. destruct io; [done|]. injection Eh as <-. done.
      * destruct (Hc t' hosts' x Hl Hx) as (db' & Hin & Hdb). exists db'. by split; [right|].
    + eapply Forall_impl; [exact Ht|]. intros l Hl. eapply Forall_impl; [exact Hl|]. intros x Hx s Hsx. apply in_scope_mono. auto.
    + eapply Forall_impl; [exact Hp|]. intros w Hl. eapply Forall_impl; [exact Hl|]. intros x. apply in_scope_mono.
  - by split.
  - by split.
  - destruct (Hat i w Hi) as [Hwi Hpi]. eapply hub_insert; [done..|by apply kill_ok|done|done|done].
Qed.

Lemma export_run_ok settings h : rtc export_step (export_start settings) h -> export_ok settings h.
Proof.
  intros Hrun. remember (export_start settings) as h0 eqn:E.
  assert (Hstart : export_ok settings h0).
  { subst. split; simpl; [| |done|constructor|].
    - apply Forall_fmap, Forall_forall. intros s _. apply new_worker_ok.
    - rewrite map_map. apply map_id.
    - apply Forall_fmap, Forall_forall. intros s _. constructor. }
  clear E. induction Hrun as [h|h1 h2 h3 Hstep _ IH]; [done|]. apply IH. by eapply export_step_ok.
Qed.

(** Every settled record is counted once. *)
Lemma settled_counted l :
  Forall (fun x : list ExportRecord * Verdict => match x.2 with VSent o => (o_dropped o <= length x.1)%nat | _ => True end) l ->
  length (List.concat l.*1) = (tally sent_of l + tally permanent_of l + tally retried_of l)%nat.
Proof.
  unfold tally. induction 1 as [|[b v] l Hx _ IH]; csimpl; [done|]. rewrite length_app, IH.
  destruct v; unfold sent_of, permanent_of, retried_of; simpl in *; lia.
Qed.

(** Exports are accounted for and confined.  At any moment of any run of the hub, with offers, workers, refreshes, cancellation and aborts
    interleaved and exporters that fail, panic and reject records (no more than they were given) as they like, every record an exporter's queue
    took passed its filter and is of a host its tenant had; the queue is bounded; the exporter is only ever
    given non-empty batches of successive records within its limit; each record is exactly one of sent,
    rejected, given up, in hand and queued, in the order it was offered, and the counters say how many of each;
    and a worker that ended has nothing left. *)
Theorem exports_accounted_and_confined settings h i w :
  rtc export_step (export_start settings) h -> h_workers h !! i = Some w ->
  settings !! i = Some (w_settings w)
  /\ Forall (exportable (h_seen h) (w_settings w)) (w_pushed w)
  /\ (length (w_queue w) <= capacity w)%nat
  /\ Forall (fun b => b <> [] /\ (length b <= batch_max w)%nat /\ exists x y, w_pushed w = x ++ b ++ y) (w_tried w)
  /\ w_pushed w = List.concat (w_settled w).*1 ++ pending w ++ w_queue w
  /\ (let c := w_counters w in
      length (w_pushed w) + length (w_refused w)
      = sent_records c + dropped_permanent c + dropped_after_retries c + dropped_queue_full c + w_in_hand w + length (w_queue w))%nat
  /\ sent_records (w_counters w) = tally sent_of (w_settled w)
  /\ (still_running w = false -> pending w = [] /\ w_queue w = [] /\ w_in_hand w = 0%nat).
Proof.
  intros Hrun Hi. apply export_run_ok in Hrun as [Hw Hs _ _ Hp].
  pose proof (Forall_lookup_1 _ _ _ _ Hw Hi) as [[] Hin Hph]. pose proof (Forall_lookup_1 _ _ _ _ Hp Hi) as [Hsc _]%Forall_app.
  split_and!; try done.
  - rewrite <- Hs, list_lookup_fmap. simpl. by rewrite Hi.
  - rewrite l_fifo0, !length_app, settled_counted by done. simpl. lia.
  - unfold still_running, pending, lost_of in *. destruct (w_phase w); try done; intros _; simpl in *; by destruct_and!.
Qed.
(** What a worker does by itself, the hub can do. *)
Lemma run_worker h i w w' :
  h_workers h !! i = Some w -> rtc (worker_step (h_cancelled h) (h_gone h)) w w' ->
  exists h', rtc export_step h h' /\ h_workers h' !! i = Some w'.
Proof.
  intros Hi Hrun. remember (h_cancelled h) as c eqn:Ec. remember (h_gone h) as g eqn:Eg. revert h Hi Ec Eg.
  induction Hrun as [w|w1 w2 w3 Hstep _ IH]; intros h Hi -> ->; [by exists h|].
  destruct (IH (with_workers (<[i := w2]> (h_workers h)) (h_todo h) h)) as (h' & Hrun & Hw); try done.
  { simpl. apply list_lookup_insert_eq. by eapply lookup_lt_Some. }
  exists h'. split; [|done]. eapply rtc_l; [by eapply es_worker|done].
Qed.
End Hub.

(** ** Example: a tenant's exporter that takes one alert at a time. *)

Section Examples.
Local Existing Instance tjson_lib.

Definition tenant_exporter : WorkerSettings :=
  {| s_name := "siem"; s_filter := {| f_events := true; f_alerts := true; f_min_rank := 2; f_event_types := None |};
     s_tenant_id := Some 3; s_queue_capacity := 8; s_batch_max := 1; s_max_retries := 5 |}.

Definition tenant_alert (host : Uuid) : Alert :=
  {| alert_id := 40 + host; alert_rule_id := "r"; alert_rule_version := 1; alert_rule_content_hash := ""; alert_severity := High;
     alert_status := Open; alert_timestamp := 5; alert_host_id := host; alert_reasons := ["x"]; alert_evidence := [] |}.

(** Host 7 is the tenant's, host 8 is not. *)
Definition tenant_db : TenantDb := {| t_tenants := ∅; t_hosts := {[7 := 3; 8 := 4]} |}.

(** The alert of host 7 is tried twice and sent. *)
Lemma alert_sent :
  exists w, rtc (worker_step false false) (push (RAlert (tenant_alert 7)) (new_worker tenant_exporter)) w
    /\ sent_records (w_counters w) = 1%nat /\ send_errors (w_counters w) = 1%nat
    /\ w_tried w = [[RAlert (tenant_alert 7)]; [RAlert (tenant_alert 7)]].
Proof.
  eexists. split.
  - eapply rtc_l; [eapply ws_recv; [done|reflexivity|by left]|]. cbn.
    eapply rtc_l; [eapply (ws_retry _ _ _ _ _ (JTransient "refused") 9); [reflexivity|done|reflexivity]|]. cbn.
    eapply rtc_l; [eapply ws_slept; [done|reflexivity]|]. cbn.
    eapply rtc_l; [eapply (ws_done _ _ _ _ _ (JOk {| o_dropped := 0; o_truncated := 0 |}) 10 _ false); [reflexivity|simpl; lia|reflexivity]|].
    apply rtc_refl.
  - split_and!; reflexivity.
Qed.

(** That of host 8 is not offered. *)
Lemma exported_reachable :
  exists h w, rtc export_step (export_start [tenant_exporter]) h /\ h_workers h !! 0%nat = Some w
    /\ sent_records (w_counters w) = 1%nat.
Proof.
  destruct alert_sent as (w & Hw & Hsent & _).
  edestruct (run_worker (with_workers [push (RAlert (tenant_alert 7)) (new_worker tenant_exporter)] [[]]
    (refresh 3 false tenant_db (export_start [tenant_exporter]))) 0) as (h & Hh & Hi); [reflexivity|exact Hw|].
  exists h, w. split; [|done].
  eapply rtc_l; [apply (es_refresh _ 3 false tenant_db); [done|apply elem_of_remove_dups; by left]|].
  eapply rtc_l; [apply (es_offer _ [] [tenant_alert 7; tenant_alert 8]); done|].
  eapply rtc_l; [eapply (es_push _ [] [] 0 (RAlert (tenant_alert 7)) []); [reflexivity|reflexivity]|].
  exact Hh.
Qed.

Lemma exports_accounted_and_confined_witness :
  exists h w, rtc export_step (export_start [tenant_exporter]) h /\ h_workers h !! 0%nat = Some w
    /\ sent_records (w_counters w) = 1%nat /\ Forall (exportable (h_seen h) (w_settings w)) (w_pushed w).
Proof.
  destruct exported_reachable as (h & w & Hrun & Hw & Hsent). exists h, w.
  split; [exact Hrun|]. split; [exact Hw|]. split; [exact Hsent|].
  exact (proj1 (proj2 (exports_accounted_and_confined [tenant_exporter] h 0 w Hrun Hw))).
Defined.
End Examples.
